(* ===== verification/_CoqProject ===== *)
-Q . S2P
Prelude.v
ReplTime.v
ParseNumber.v
HostAndPort.v
ReplTag.v
ReplConfig.v
ConfigChecks.v
Heartbeat.v
Topology.v
TopologyElection.v
TopologySync.v
TopologyHeartbeat.v
TopologyInv.v
TopologyProps.v
Election.v
QuorumCheck.v
Voting.v
Commit.v
ConfigInstall.v
ConfigInstallInv.v
ConfigChange.v
ConfigChangeInv.v
ConfigChangeProps.v
LockRequestList.v
LockManager.v
LockHeadInv.v
LockHeadOps.v
LockManagerInv.v
LockManagerOps.v
LockManagerProps.v
DeadlockDetector.v
FastMap.v
Locker.v
LockerView.v
LockerOps.v
LockerInv.v
LockerCalls.v
LockerWait.v
LockerProps.v
LockGuards.v
Bson.v
BsonElement.v
BsonIter.v
BsonPrint.v
BsonStorage.v
BsonValidate.v
BsonReader.v
BsonValidateProps.v
AuthPrivilege.v
BuiltinRoles.v
RoleGraph.v
RoleSet.v
RoleGraphInv.v
RoleGraphOps.v
RoleGraphDfs.v
RoleGraphProps.v
AuthUser.v
AuthSession.v
AuthSessionProps.v
AuthDecision.v
AuthAccess.v
AuthCache.v
AuthCacheProps.v
