(* ===== verification/Prelude.v ===== *)
(** * MongoDB 3.4: replica sets, locks, documents and access control

    A verification library for the core of the MongoDB 3.4.21 server.  File names below are
    relative to src/mongodb-org-r3.4.21/src/mongo/.

    ** The system and the files that model it

    A replica set is a group of servers that keep copies of one log.  Every node runs a
    _replication coordinator_, which owns a _topology coordinator_ (what this node knows of the
    others, its role, its term and its votes), tracks the progress of the members and decides what
    is committed.  Elections ask the other members through a _scatter-gather runner_.  All
    decisions rest on the _replica set configuration_, which changes at run time through commands
    and heartbeats.  Inside one server, operations are kept
    apart by the _lock manager_ and its _deadlock detector_; each operation has a _locker_, which it
    uses through _scoped locks_.  Everything that is stored or sent is
    a BSON document; those from outside pass the _validator_ before the server walks them.
    What a connection may do is decided by its _authorization session_ from the privileges of its
    users, which the _user cache_ keeps and which come from the _role graph_.

    - Prelude: outcomes (a value or an abort), the state monad of the models, record update,
      machine integers, vectors and counting, shared by all files.
    - ReplTime: [Timestamp] (bson/timestamp.h) and [OpTime] (db/repl/optime.h).
    - ParseNumber: base/parse_number.cpp for the integral types, and the error codes.
    - HostAndPort: util/net/hostandport.cpp.
    - ReplTag: db/repl/repl_set_tag.cpp (tags, patterns and matches of write concern modes).
    - ReplConfig: db/repl/member_config.cpp (Module MC) and repl_set_config.cpp (Module RSC).
    - ConfigChecks: db/repl/repl_set_config_checks.cpp, with the probe [isSelf] as a parameter.
    - Heartbeat: db/repl/member_heartbeat_data.cpp, heartbeat_response_action.cpp, ping statistics.
    - Topology, TopologyElection, TopologySync, TopologyHeartbeat: the state and every operation
      of db/repl/topology_coordinator_impl.cpp; TopologyInv and TopologyProps: its invariant
      and theorems.
    - Election: db/repl/scatter_gather_runner.cpp over the interface [ScatterGatherAlgorithm]
      (a type class with its laws), and the algorithms of vote_requester.cpp,
      freshness_checker.cpp and elect_cmd_runner.cpp that implement it.
    - QuorumCheck: db/repl/check_quorum_for_config_change.cpp, one more such algorithm.
    - Voting: replSetRequestVotes and candidacies of replication_coordinator_impl.cpp and
      replication_coordinator_impl_elect_v1.cpp, the vote on disk of
      replication_coordinator_external_state_impl.cpp, and a whole set of nodes as a step relation.
    - Commit: replSetUpdatePosition, write concern waiters, commit point and committed snapshot
      of replication_coordinator_impl.cpp.
    - ConfigInstall: how replication_coordinator_impl.cpp makes a configuration current
      ([_setCurrentRSConfig_inlock], [_updateMemberStateFromTopologyCoordinator_inlock],
      [_updateSlaveInfoFromConfig_inlock]); the state [Coordinator] joins those of Topology and
      Commit.  ConfigInstallInv: the invariant of the joined state.
    - ConfigChange: start-up, replSetInitiate, replSetReconfig and configurations from heartbeats
      (replication_coordinator_impl.cpp, replication_coordinator_impl_heartbeat.cpp), cut where
      they give up their locks; ConfigChangeInv: the parts as one system and its invariant;
      ConfigChangeProps: its theorems and a concrete run.
    - LockRequestList: db/concurrency/lock_request_list.h, on links and as a list.
    - LockManager: the data and operations of db/concurrency/lock_manager.cpp (Modules Mode, Head,
      Manager); LockHeadInv, LockHeadOps: the invariant of one lock head and the operations on
      it; LockManagerInv, LockManagerOps: the same for the manager with its partitions;
      LockManagerProps: the manager under many lockers, as a step relation, and its theorems.
    - DeadlockDetector: the search of the wait-for graph of lock_manager.cpp.
    - FastMap: db/concurrency/fast_map_noalloc.h, the map of at most sixteen requests of a locker.
    - Locker: [LockerImpl] of db/concurrency/lock_state.cpp, with the tickets of
      util/concurrency/ticketholder.cpp, on top of LockManager and DeadlockDetector.  LockerView,
      LockerOps: what other lockers may do to the requests of this one; LockerInv, LockerCalls: the
      invariant and each call; LockerWait: waits with a timeout end; LockerProps: the contract and
      the theorems.  LockGuards: the scoped locks of db/concurrency/d_concurrency.cpp.
    - Bson: bytes, reads from a buffer, the constants of bson/bsontypes.h, and the documents of
      the BSON specification as an inductive type with its encoding, which is what the code is
      compared with.  BsonElement: bson/bsonelement.h, bsonelement.cpp, bsonobj.h and bsonobj.cpp
      (Module Elem: elements; Module Obj: objects, iterators, printing, lookups, the storage
      check); BsonIter, BsonPrint, BsonStorage: these on the encoding of a document.
      BsonValidate: bson/bson_validate.cpp; BsonReader: its reader on any buffer;
      BsonValidateProps: what the validator accepts.
    - AuthPrivilege: actions and their sets, resource patterns, privileges and role names
      (db/auth/action_set.cpp, resource_pattern.h, privilege.cpp, role_name.h, and
      db/namespace_string-inl.h).  BuiltinRoles: the tables of role_graph_builtin_roles.cpp.
    - RoleGraph: every operation of db/auth/role_graph.cpp.  RoleSet: its ordered set; RoleGraphInv:
      the invariant; RoleGraphOps: the abstract graph and the operations on it; RoleGraphDfs: the
      recomputation; RoleGraphProps: the states of a graph and the theorems.
    - AuthUser: db/auth/user.cpp, user_set.cpp and the collection of privileges of
      authz_manager_external_state_local.cpp.  AuthSession: db/auth/authorization_session.cpp and
      its external state; AuthSessionProps: the users of a session; AuthDecision: what it decides;
      AuthAccess: from the role graph to that decision.
    - AuthCache: the user cache of db/auth/authorization_manager.cpp, cut where it gives up its
      mutex; AuthCacheProps: its interleavings and theorems.

    ** How code is modelled

    A C++ object is a record; a member function that changes it is a computation in [M S A],
    which passes the state and may abort; a const member function is a function on the record.
    [invariant], [fassert] and the bounds check of [vector::at] abort, and [Abort line] carries
    the line of the source.  Errors that the code returns as [Status] are values ([OK], [Err]).
    Unsigned counters wrap ([u32]); [int] conversions of 64-bit ids truncate ([i32]); priorities
    are IEEE doubles ([spec_float]).  Times are milliseconds passed in as arguments.  Code that
    gives up its mutex in the middle is split at that point, and the step relations
    ([Voting], [LockManagerProps], [ConfigChangeInv], [AuthCacheProps]) interleave the parts
    freely.  A locker runs
    on one thread against a schedule: before each critical section, and while it waits, the next
    [Tick] says what other lockers call, which tickets they take and what time it is.  A thread
    that still waits when the schedule ends has the outcome [BLOCKED].

    The network, the executor, the storage engine and the clock are not modelled: what they
    deliver is an argument (the answers of remote commands, in any order and any subset; the
    time; the last applied optime; for a part of a change of configuration all of them together, a
    [World]).  The parsed form of a heartbeat or of a command is such an argument too.  In
    [ConfigChangeInv] the rest of the server is a step [other_step], which may do anything that
    keeps the invariant of the node and leaves the configuration alone.

    ** What the theorems show

    - Elections: two members never win one term, through crashes and restarts; nor does a node vote
      twice in one, as long as no primary of an older term is asked ([Voting], which also shows what
      happens otherwise); the runner stops exactly when its algorithm has seen
      enough, whatever the order of the answers ([Election]).
    - Quorums: any election majority and any write majority of a validated configuration meet;
      validation accepts exactly the configurations that satisfy the documented rules
      ([ReplConfig]).
    - Commit point: it is the newest optime of this term that a write majority has, it never goes
      back, and waiters are woken exactly when their write concern is met ([Commit]).
    - Configurations: a new one is accepted exactly when it is valid, may follow the old one and
      names this node once, and when a quorum agrees ([ConfigChecks], [QuorumCheck]); the progress
      table follows it ([ConfigInstall]); changes never collide, trip no assertion of any component
      and only move the configuration forward ([ConfigChangeProps], for protocol version 1).  A
      configuration from a heartbeat need only be parsed, with valid members and distinct ids; one that
      fails validation is installed all the same, with the node outside of it.
    - Topology coordinator: no sequence of calls within the contract aborts; role, member state
      and votes stay consistent; step-down, candidacy, votes and the choice of a sync source are
      characterised on every branch.
    - Locks: under any interleaving, holders of a resource are pairwise compatible, no call
      aborts, nobody waits in vain, and partitioning is invisible to the decision of [lock]
      ([LockManagerProps]); the deadlock detector ends and is exact ([DeadlockDetector]); the
      intrusive lists refine lists ([LockRequestList]).
    - Lockers: under any schedule no check fails, no locker is notified twice and no ticket is lost;
      [lock] takes all or nothing and returns once its timeout is over; releases in a write unit of work wait for its end;
      yielding restores what was held ([LockerProps]); guards take everything or nothing and give
      back what they took ([LockGuards]).
    - BSON: [validateBSON] reads nothing outside of its buffer, ends, and accepts exactly the
      encodings of well-formed documents; what it has accepted can be walked without checks, and
      [storageValid] decides by the field names and the type of the _id alone
      ([BsonValidateProps], [BsonStorage]).
    - Access control: the role graph does what its abstract graph says, reports a cycle exactly when
      there is one and otherwise gives a role exactly what it can reach, and built-in roles cannot
      be changed ([RoleGraphProps]); a session is authorized exactly for what its users hold on
      patterns that cover the target ([AuthDecision]), which is what their roles have been given
      ([AuthAccess]); it looks up invalidated users again and releases each user once
      ([AuthSessionProps]); the user cache never uses a deleted user, keeps none without references,
      and has no stale user once its invalidation is done ([AuthCacheProps]).
    - Round trips and bounds of host names, tags, timestamps and numbers.

    ** Bounds and fuel

    [Commit.signal_and_remove] and [Head.grant_waiting] recurse on the number of elements left in
    the list they walk, and are started with its length.  The scatter-gather runner and
    [mfoldl] recurse on lists.  [Deadlock.check] has fuel, and [check_fuel] turns (quadratic in
    the number of requests) are proved to be enough.  The lock theorems assume fewer than
    2^32 - 2 lockers, because the counts of a lock head are 32 bits wide.  The loops of a locker
    are bounded by the length of the schedule and by the sixteen slots of its map; reaching a bound
    is the outcome [OUT_OF_FUEL], which the theorems exclude.  The contract of a locker
    ([LockerProps.allowed]) leaves out more than sixteen resources, upgrades with a timeout or
    with deadlock detection, and requests for a global resource again in S or X without priority;
    LockManagerProps and LockerProps show by example what goes wrong in the latter two.  The check
    of [CondVarLockGrantNotification::notify] is made by [LockerImpl.notify_check] after each step of the
    others and each call of the locker itself.  The deadlock detector searches one snapshot of the lock
    manager, where the code takes the mutex of one bucket after the other.
    The walk of the role graph has fuel for two rounds per role and one more, which is proved to be
    enough; the theorems on roles are for database names without an at sign
    ([RoleGraphInv.good]; [RoleGraphProps.role_name_alias] shows why), and those on the user cache
    for fewer than 2^32 references, the width of the counter.
    The validator has fuel for two iterations per byte and three more, the walks of a document
    for two calls per byte and four more; running out of fuel is an outcome of its own, which the
    theorems exclude.  Buffers are shorter than 2^31 bytes, the positions being [int]s; the
    storage check assumes at most [BSONObjMaxInternalSize], the largest object the server has.

    ** Not modelled

    BSON builders, comparison, JSON and mutable documents, and the text that BSON is printed as;
    the BSON form of configurations, heartbeats and commands; logging and status reports; initial sync, rollback, oplog
    application and storage; query processing, aggregation,
    sharding, networking and the shell.  Of access control: users, roles and privileges as BSON
    documents, the commands that change them and the oplog entries that follow, credentials and
    authentication, and the checks that walk a pipeline or a command document.  Of the locks: statistics, dumps, the flush
    lock helpers of MMAPv1 (the theorems are for [LockerImpl<false>]) and the resizing of ticket
    holders.  Of the replication coordinator: master
    and slave mode, timers, the action that follows a change of member state, catch-up and drain
    mode, step-down commands, and reads after an optime.  Elections of protocol version 0 are modelled up to the topology coordinator
    and the algorithms. *)
From Stdlib Require Export ZArith Lia Ascii.
From stdpp Require Export base list gmap strings numbers option.
From stdpp Require list_basics list_relations list_monad list_misc.
Export list_basics.list list_relations.list list_monad.list list_misc.list.

(** Everything below works on unbounded [Z] and wraps explicitly where the
    C++ type is narrower. *)
Open Scope Z_scope.

(** ** Outcomes: a value, or the process aborts

    [invariant(...)], [fassert(...)], and the bounds check of
    [std::vector::at] stop the server.  A computation that may do so returns
    an [outcome]; [Abort line] carries the source line of the check. *)
Inductive outcome (A : Type) : Type :=
| Ret (a : A)
| Abort (line : Z).
Arguments Ret {_} _.
Arguments Abort {_} _.

#[export] Instance outcome_ret : MRet outcome := @Ret.
#[export] Instance outcome_bind : MBind outcome := λ A B f m,
  match m with
  | Ret a => f a
  | Abort l => Abort l
  end.

(** [invariant(b)] at source line [line]. *)
Definition check (line : Z) (b : bool) : outcome () :=
  if b then Ret tt else Abort line.

(** [owp m P]: [m] does not abort and its value satisfies [P]. *)
Definition owp {A} (m : outcome A) (P : A → Prop) : Prop :=
  match m with
  | Ret a => P a
  | Abort _ => False
  end.

(** ** Stateful code: state passing over outcomes *)
Definition M (S A : Type) : Type := S → outcome (A * S).

#[export] Instance M_ret {S} : MRet (M S) := λ A a s, Ret (a, s).
#[export] Instance M_bind {S} : MBind (M S) := λ A B f m s,
  match m s with
  | Ret (a, s') => f a s'
  | Abort l => Abort l
  end.

Definition gets {S A} (f : S → A) : M S A := λ s, Ret (f s, s).
(** A const member function that may abort. *)
Definition reads {S A} (f : S → outcome A) : M S A := λ s,
  match f s with
  | Ret a => Ret (a, s)
  | Abort l => Abort l
  end.
Definition modify {S} (f : S → S) : M S () := λ s, Ret (tt, f s).
Definition invariant {S} (line : Z) (b : S → bool) : M S () := λ s,
  if b s then Ret (tt, s) else Abort line.

(** [wp m Q s]: from state [s] the code [m] does not abort, and its result
    and final state satisfy [Q]. *)
Definition wp {S A} (m : M S A) (Q : A → S → Prop) (s : S) : Prop :=
  match m s with
  | Ret (a, s') => Q a s'
  | Abort _ => False
  end.

Section outcome_lemmas.
Context {A B : Type}.
Implicit Types (m : outcome A) (f : A → outcome B).

Lemma owp_ret (a : A) (P : A → Prop) : owp (mret a) P ↔ P a.
Proof. done. Qed.
Lemma owp_bind m f (P : B → Prop) :
    owp (m ≫= f) P ↔ owp m (λ a, owp (f a) P).
Proof. by destruct m. Qed.
Lemma owp_mono m (P Q : A → Prop) :
    (∀ a, P a → Q a) → owp m P → owp m Q.
Proof. destruct m; naive_solver. Qed.
Lemma owp_check line b (P : () → Prop) :
    owp (check line b) P ↔ b = true ∧ P tt.
Proof. unfold check; destruct b; simpl; naive_solver. Qed.
Lemma owp_Ret m (P : A → Prop) : owp m P ↔ ∃ a, m = Ret a ∧ P a.
Proof. destruct m; simpl; naive_solver. Qed.
End outcome_lemmas.

(** A loop over a container whose body may abort. *)
Fixpoint ofoldl {A B} (f : B → A → outcome B) (b : B) (l : list A) : outcome B :=
  match l with
  | [] => Ret b
  | a :: l' => b' ← f b a; ofoldl f b' l'
  end.

Lemma owp_ofoldl {A B} (I : B → Prop) (f : B → A → outcome B) b l :
  I b → (∀ b a, a ∈ l → I b → owp (f b a) I) → owp (ofoldl f b l) I.
Proof.
  revert b. induction l as [|a l IH]; intros b Hb Hf; simpl; [done|].
  apply owp_bind. eapply owp_mono; [|apply Hf; [left|done]].
  intros b' Hb'. apply IH; [done|]. intros b'' a' Ha'. apply Hf. by right.
Qed.

(** The same with an invariant on the elements already visited. *)
Lemma owp_ofoldl_prefix {A B} (I : list A → B → Prop) (f : B → A → outcome B) b l :
  I [] b →
  (∀ pre a post b, l = pre ++ a :: post → I pre b → owp (f b a) (I (pre ++ [a]))) →
  owp (ofoldl f b l) (I l).
Proof.
  intros Hb Hf.
  assert (∀ pre post b, l = pre ++ post → I pre b → owp (ofoldl f b post) (I l)) as Hgen;
    [|by apply (Hgen [] l)].
  intros pre post. revert pre. induction post as [|a post IH]; intros pre b' Hl HI; simpl.
  - by rewrite app_nil_r in Hl; subst.
  - apply owp_bind. eapply owp_mono; [|by eapply Hf].
    intros b'' Hb''. apply (IH (pre ++ [a])); [by rewrite <-app_assoc|done].
Qed.

(** A loop in stateful code. *)
Fixpoint mfoldl {S A B} (f : B → A → M S B) (b : B) (l : list A) : M S B :=
  match l with
  | [] => mret b
  | a :: l' => b' ← f b a; mfoldl f b' l'
  end.

Section wp_lemmas.
Context {S A B : Type}.
Implicit Types (m : M S A) (f : A → M S B) (s : S).

Lemma wp_ret (a : A) (Q : A → S → Prop) s : wp (mret a) Q s ↔ Q a s.
Proof. done. Qed.
Lemma wp_bind m f (Q : B → S → Prop) s :
    wp (m ≫= f) Q s ↔ wp m (λ a, wp (f a) Q) s.
Proof. unfold wp, mbind, M_bind. by destruct (m s) as [[a s']|]. Qed.
Lemma wp_gets (g : S → A) (Q : A → S → Prop) s : wp (gets g) Q s ↔ Q (g s) s.
Proof. done. Qed.
Lemma wp_reads (g : S → outcome A) (Q : A → S → Prop) s :
    wp (reads g) Q s ↔ owp (g s) (λ a, Q a s).
Proof. unfold wp, reads. by destruct (g s). Qed.
Lemma wp_modify (g : S → S) (Q : () → S → Prop) s :
    wp (modify g) Q s ↔ Q tt (g s).
Proof. done. Qed.
Lemma wp_invariant line (b : S → bool) (Q : () → S → Prop) s :
    wp (invariant line b) Q s ↔ b s = true ∧ Q tt s.
Proof. unfold wp, invariant. destruct (b s); naive_solver. Qed.
Lemma wp_mono m (P Q : A → S → Prop) s :
    (∀ a s', P a s' → Q a s') → wp m P s → wp m Q s.
Proof. unfold wp. destruct (m s) as [[a s']|]; naive_solver. Qed.
Lemma wp_Ret m (Q : A → S → Prop) s :
    wp m Q s ↔ ∃ a s', m s = Ret (a, s') ∧ Q a s'.
Proof. unfold wp. destruct (m s) as [[a s']|]; naive_solver. Qed.
End wp_lemmas.

(** [wlp m Q s]: if the code [m] returns from state [s], its result and final state satisfy
    [Q]; used next to a [wp] that shows that it returns. *)
Definition wlp {S A} (m : M S A) (Q : A → S → Prop) (s : S) : Prop :=
  ∀ a s', m s = Ret (a, s') → Q a s'.
Section wlp_lemmas.
Context {S A B : Type}.
Implicit Types (m : M S A) (f : A → M S B) (s : S).
Lemma wlp_ret (a : A) (Q : A → S → Prop) s : Q a s → wlp (mret a) Q s.
Proof. by intros ? ? ? [= <- <-]. Qed.
Lemma wlp_bind m f (Q : B → S → Prop) s : wlp m (λ a, wlp (f a) Q) s → wlp (m ≫= f) Q s.
Proof.
  intros H b s'. unfold mbind, M_bind. destruct (m s) as [[a s1]|] eqn:E; [|done]. by apply H.
Qed.
Lemma wlp_gets (g : S → A) (Q : A → S → Prop) s : Q (g s) s → wlp (gets g) Q s.
Proof. by intros ? ? ? [= <- <-]. Qed.
Lemma wlp_reads (g : S → outcome A) (Q : A → S → Prop) s :
  (∀ a, g s = Ret a → Q a s) → wlp (reads g) Q s.
Proof. intros H a s'. unfold reads. destruct (g s); [|done]. intros [= <- <-]. auto. Qed.
Lemma wlp_modify (g : S → S) (Q : () → S → Prop) s : Q tt (g s) → wlp (modify g) Q s.
Proof. by intros ? ? ? [= <- <-]. Qed.
Lemma wlp_invariant line (b : S → bool) (Q : () → S → Prop) s :
  (b s = true → Q tt s) → wlp (invariant line b) Q s.
Proof. intros H a s'. unfold invariant. destruct (b s); [|done]. intros [= <- <-]. auto. Qed.
Lemma wlp_mono m (P Q : A → S → Prop) s :
  (∀ a s', P a s' → Q a s') → wlp m P s → wlp m Q s.
Proof. unfold wlp. naive_solver. Qed.
Lemma wp_wlp m (P Q : A → S → Prop) s :
  wp m P s → wlp m Q s → wp m (λ a s', P a s' ∧ Q a s') s.
Proof. unfold wp, wlp. destruct (m s) as [[a s']|]; [|done]. auto. Qed.
End wlp_lemmas.

Lemma wp_mfoldl {S A B} (I : B → S → Prop) (f : B → A → M S B) b l s :
  I b s → (∀ b a s, a ∈ l → I b s → wp (f b a) I s) → wp (mfoldl f b l) I s.
Proof.
  revert b s. induction l as [|a l IH]; intros b s Hb Hf; simpl; [done|].
  apply wp_bind. eapply wp_mono; [|apply Hf; [left|done]].
  intros b' s' Hb'. apply IH; [done|]. intros b'' a' s'' Ha'. apply Hf. by right.
Qed.

(** Rewrite database that pushes [wp] and [owp] through the monads. *)
Create Rewrite HintDb wp.
Create HintDb mongo discriminated.
#[export] Hint Rewrite @owp_ret @owp_bind @owp_check
  @wp_ret @wp_bind @wp_gets @wp_reads @wp_modify @wp_invariant : wp.
Ltac wp_simpl := repeat (autorewrite with wp; cbn beta iota).

(** ** Record update

    [r <| f := v |>] is the record [r] with field [f] replaced.  A record type
    opts in with an [Eta] instance that rebuilds it from its fields. *)
Class Eta (R : Type) := eta : R → R.
Class Setter {R T : Type} (proj : R → T) := update : (T → T) → R → R.
Arguments update {R T} proj {_} _ _ /.

Ltac solve_setter :=
  lazymatch goal with
  | |- @Setter ?R ?T ?proj =>
      let f := fresh "f" in
      let r := fresh "r" in
      unfold Setter; intros f r;
      let inst := constr:(_ : Eta R) in
      let inst := eval hnf in inst in
      let body := eval cbv beta in (inst r) in
      let pat := eval pattern (proj r) in body in
      lazymatch pat with
      | ?k _ => let t := eval cbv beta in (k (f (proj r))) in exact t
      end
  end.
#[export] Hint Extern 1 (Setter _) => solve_setter : typeclass_instances.

Declare Scope record_scope.
Delimit Scope record_scope with rec.
Notation "r <| p := v |>" := (update p (λ _, v) r)
  (at level 12, left associativity, p at level 9) : record_scope.
Open Scope record_scope.

(** ** Machine integers *)
Definition two32 : Z := 4294967296.
Definition INT_MAX : Z := 2147483647.
Definition INT_MIN : Z := -2147483648.
Definition LLONG_MAX : Z := 9223372036854775807.
Definition LLONG_MIN : Z := -9223372036854775808.
(** Conversion to [unsigned int] and to (two's complement) [int]. *)
Definition u32 (z : Z) : Z := z mod two32.
Definition i32 (z : Z) : Z := (z + 2147483648) mod two32 - 2147483648.

Lemma u32_small z : 0 ≤ z < two32 → u32 z = z.
Proof. apply Z.mod_small. Qed.
Lemma u32_range z : 0 ≤ u32 z < two32.
Proof. by apply Z.mod_pos_bound. Qed.
Lemma i32_small z : INT_MIN ≤ z ≤ INT_MAX → i32 z = z.
Proof. unfold i32, INT_MIN, INT_MAX, two32. intros. rewrite Z.mod_small; lia. Qed.
Lemma i32_range z : INT_MIN ≤ i32 z ≤ INT_MAX.
Proof.
  unfold i32, INT_MIN, INT_MAX.
  pose proof (Z.mod_pos_bound (z + 2147483648) two32 eq_refl). unfold two32 in *. lia.
Qed.

(** An [unsigned] survives the conversion to [int] and back. *)
Lemma u32_i32 z : 0 ≤ z < two32 → u32 (i32 z) = z.
Proof.
  intros Hz. unfold u32, i32. rewrite Zminus_mod, Z.mod_mod, <-Zminus_mod by (unfold two32; lia).
  replace (z + 2147483648 - 2147483648) with z by lia. by apply Z.mod_small.
Qed.

(** ** Vectors

    The sources index vectors by [int], with -1 for "none". *)
Definition vsize {A} (l : list A) : Z := Z.of_nat (length l).
(** [l[i]] or [l.at(i)]; aborts at [line] when out of range. *)
Definition vat {A} (line : Z) (l : list A) (i : Z) : outcome A :=
  if (0 <=? i) then
    match l !! Z.to_nat i with
    | Some a => Ret a
    | None => Abort line
    end
  else Abort line.
Definition vset {A} (i : Z) (a : A) (l : list A) : list A :=
  if (0 <=? i) then <[Z.to_nat i := a]> l else l.
(** The elements of a vector with their indices, as [indexOfIterator] gives
    them. *)
Definition indexed {A} (l : list A) : list (Z * A) :=
  imap (λ i a, (Z.of_nat i, a)) l.
(** Index of the first element that satisfies [p], or -1. *)
Fixpoint index_from {A} (p : A → bool) (i : Z) (l : list A) : Z :=
  match l with
  | [] => -1
  | a :: l' => if p a then i else index_from p (i + 1) l'
  end.
Definition index_where {A} (p : A → bool) (l : list A) : Z := index_from p 0 l.

Lemma vsize_nonneg {A} (l : list A) : 0 ≤ vsize l.
Proof. unfold vsize. lia. Qed.

Lemma vat_Ret {A} line (l : list A) i a :
  vat line l i = Ret a ↔ 0 ≤ i ∧ l !! Z.to_nat i = Some a.
Proof.
  unfold vat. destruct (Z.leb_spec 0 i).
  - destruct (l !! Z.to_nat i); naive_solver.
  - split; [done | lia].
Qed.

Lemma vat_in_range {A} line (l : list A) i :
  0 ≤ i < vsize l → ∃ a, vat line l i = Ret a ∧ l !! Z.to_nat i = Some a.
Proof.
  unfold vsize. intros [Hi Hl].
  destruct (lookup_lt_is_Some_2 l (Z.to_nat i)) as [a Ha]; [lia|].
  exists a. rewrite vat_Ret. auto.
Qed.

Lemma owp_vat {A} line (l : list A) i (P : A → Prop) :
  0 ≤ i < vsize l → (∀ a, l !! Z.to_nat i = Some a → P a) → owp (vat line l i) P.
Proof.
  intros Hi HP. destruct (vat_in_range line l i Hi) as (a & -> & Ha). by apply HP.
Qed.

Lemma vsize_vset {A} i (a : A) l : vsize (vset i a l) = vsize l.
Proof. unfold vsize, vset. case_match; [by rewrite length_insert | done]. Qed.

Lemma vset_lookup {A} i (a b : A) l j :
  vset i a l !! j = Some b → b = a ∨ l !! j = Some b.
Proof.
  unfold vset. case_match; [|by right]. destruct (decide (Z.to_nat i = j)) as [<-|].
  - intros Hl. left. destruct (decide (Z.to_nat i < length l)%nat).
    + rewrite list_lookup_insert_eq in Hl by done. congruence.
    + rewrite list_insert_ge in Hl by lia. apply lookup_lt_Some in Hl. lia.
  - rewrite list_lookup_insert_ne by done. by right.
Qed.

Lemma Forall_vset {A} (P : A → Prop) i a l : P a → Forall P l → Forall P (vset i a l).
Proof.
  intros Ha Hl. unfold vset. case_match; [|done].
  apply Forall_insert; auto.
Qed.

Lemma indexed_lookup {A} (l : list A) n :
  indexed l !! n = (λ a, (Z.of_nat n, a)) <$> l !! n.
Proof. unfold indexed. by rewrite list_lookup_imap. Qed.

Lemma elem_of_indexed {A} (l : list A) i a :
  (i, a) ∈ indexed l ↔ 0 ≤ i ∧ l !! Z.to_nat i = Some a.
Proof.
  rewrite list_elem_of_lookup. setoid_rewrite indexed_lookup. split.
  - intros [n Hn]. apply fmap_Some in Hn as (a' & Ha & [= -> ->]).
    rewrite Nat2Z.id. split; [lia | done].
  - intros [Hi Ha]. exists (Z.to_nat i). rewrite Ha. simpl.
    by rewrite Z2Nat.id by lia.
Qed.

Lemma indexed_snd {A} (l : list A) : (indexed l).*2 = l.
Proof.
  apply list_eq. intros n. rewrite list_lookup_fmap, indexed_lookup.
  by destruct (l !! n).
Qed.

Lemma index_from_range {A} (p : A → bool) l i :
  index_from p i l = -1 ∨ i ≤ index_from p i l < i + vsize l.
Proof.
  revert i. induction l as [|a l IH]; intros i; simpl; [by left|].
  unfold vsize in *. simpl. destruct (p a); [lia|].
  destruct (IH (i + 1)) as [->|?]; lia.
Qed.

Lemma index_where_range {A} (p : A → bool) l :
  index_where p l = -1 ∨ 0 ≤ index_where p l < vsize l.
Proof. destruct (index_from_range p l 0); unfold index_where; lia. Qed.

Lemma index_from_found {A} (p : A → bool) l i :
  0 ≤ i → index_from p i l ≠ -1 →
  ∃ a, l !! Z.to_nat (index_from p i l - i) = Some a ∧ p a = true ∧
       ∀ j b, (j < Z.to_nat (index_from p i l - i))%nat → l !! j = Some b → p b = false.
Proof.
  revert i. induction l as [|a l IH]; intros i Hi; simpl; [done|].
  destruct (p a) eqn:Hpa.
  - intros _. exists a. rewrite Z.sub_diag. simpl. split_and!; [done..|]. intros; lia.
  - intros Hne. destruct (IH (i + 1)) as (b & Hb & Hpb & Hlt); [lia|done|].
    destruct (index_from_range p l (i + 1)) as [?|Hr]; [done|].
    replace (Z.to_nat (index_from p (i + 1) l - i))
      with (S (Z.to_nat (index_from p (i + 1) l - (i + 1)))) by lia.
    exists b. split_and!; [done..|].
    intros [|j] c Hj Hc; simpl in Hc; [congruence|]. apply (Hlt j c); [lia|done].
Qed.

(** The loops that look a member up return the first match. *)
Lemma index_where_found {A} (p : A → bool) l :
  index_where p l ≠ -1 →
  ∃ a, l !! Z.to_nat (index_where p l) = Some a ∧ p a = true ∧
       ∀ j b, (j < Z.to_nat (index_where p l))%nat → l !! j = Some b → p b = false.
Proof.
  intros H. destruct (index_from_found p l 0) as (a & Ha); [lia|done|].
  exists a. by rewrite Z.sub_0_r in Ha.
Qed.

Lemma index_from_none {A} (p : A → bool) l i :
  0 ≤ i → (index_from p i l = -1 ↔ ∀ a, a ∈ l → p a = false).
Proof.
  revert i. induction l as [|a l IH]; intros i Hi; simpl.
  { split; [|done]. intros _ a Ha. by apply elem_of_nil in Ha. }
  destruct (p a) eqn:Hpa.
  - split; [lia|]. intros H. rewrite H in Hpa; [done|left].
  - rewrite IH by lia. setoid_rewrite elem_of_cons. naive_solver.
Qed.

Lemma index_where_none {A} (p : A → bool) l :
  index_where p l = -1 ↔ ∀ a, a ∈ l → p a = false.
Proof. apply index_from_none. lia. Qed.

(** A processed prefix of an indexed vector holds exactly the smaller indices. *)
Lemma indexed_prefix {A} (l : list A) pre i a post :
  indexed l = pre ++ (i, a) :: post →
  i = vsize pre ∧ ∀ j b, (j, b) ∈ pre → 0 ≤ j < i.
Proof.
  intros Hl. assert (∀ n p, pre !! n = Some p → indexed l !! n = Some p) as Hpre.
  { intros n p Hp. rewrite Hl. by apply lookup_app_l_Some. }
  assert (i = vsize pre) as ->.
  { assert (indexed l !! length pre = Some (i, a)) as H by (rewrite Hl; by apply list_lookup_middle).
    rewrite indexed_lookup in H. apply fmap_Some in H as (? & _ & [= -> _]). done. }
  split; [done|]. intros j b [n Hn]%list_elem_of_lookup_1.
  pose proof (lookup_lt_Some _ _ _ Hn) as Hlt. apply Hpre in Hn.
  rewrite indexed_lookup in Hn. apply fmap_Some in Hn as (? & _ & [= -> _]).
  unfold vsize. lia.
Qed.

Lemma imap_others {A} k (l : list A) n x :
  l !! n = Some x →
  x :: (List.filter (λ im : Z * A, negb (Z.of_nat (k + n) =? im.1))
          (imap (λ i a, (Z.of_nat (k + i), a)) l)).*2 ≡ₚ l.
Proof.
  revert k n. induction l as [|y l IH]; intros k n Hn; [done|].
  assert (imap (λ i a, (Z.of_nat (k + i), a)) (y :: l) =
          (Z.of_nat k, y) :: imap (λ i a, (Z.of_nat (S k + i), a)) l) as ->.
  { simpl. rewrite Nat.add_0_r. f_equal. apply imap_ext. intros. simpl. do 2 f_equal. lia. }
  destruct n as [|n]; simpl in Hn.
  - injection Hn as ->. rewrite Nat.add_0_r. simpl. rewrite Z.eqb_refl. simpl. constructor.
    rewrite List.forallb_filter_id.
    + apply reflexive_eq, list_eq. intros i. rewrite list_lookup_fmap, list_lookup_imap.
      by destruct (l !! i).
    + apply List.forallb_forall. intros [i a] Hin%list_elem_of_In.
      apply list_elem_of_lookup in Hin as [j Hj]. rewrite list_lookup_imap in Hj.
      destruct (l !! j); [|done]. injection Hj as <- <-.
      apply negb_true_iff, Z.eqb_neq. cbn [fst]. lia.
  - simpl. rewrite (proj2 (Z.eqb_neq (Z.of_nat (k + S n)) (Z.of_nat k))) by lia. simpl.
    rewrite perm_swap. constructor. replace (k + S n)%nat with (S k + n)%nat by lia. by apply IH.
Qed.
(** A vector is one of its elements and the elements at the other indices. *)
Lemma others_perm {A} (l : list A) i x :
  0 ≤ i → l !! Z.to_nat i = Some x →
  x :: (List.filter (λ im, negb (i =? im.1)) (indexed l)).*2 ≡ₚ l.
Proof.
  intros Hi Hl. pose proof (imap_others 0 l (Z.to_nat i) x Hl) as H.
  unfold indexed. by rewrite Nat.add_0_l, Z2Nat.id in H.
Qed.

(** ** Counting

    The number of elements of a vector that satisfy a test. *)
Definition count_if {A} (p : A → bool) (l : list A) : Z :=
  vsize (List.filter p l).

Lemma count_if_cons {A} (p : A → bool) a l :
  count_if p (a :: l) = (if p a then 1 else 0) + count_if p l.
Proof. unfold count_if, vsize. simpl. destruct (p a); simpl; lia. Qed.
Lemma count_if_nonneg {A} (p : A → bool) l : 0 ≤ count_if p l.
Proof. apply vsize_nonneg. Qed.
Lemma count_if_le {A} (p q : A → bool) l :
  (∀ a, a ∈ l → p a = true → q a = true) → count_if p l ≤ count_if q l.
Proof.
  induction l as [|a l IH]; intros H; [done|]. rewrite !count_if_cons.
  assert (count_if p l ≤ count_if q l) by (apply IH; set_solver).
  destruct (p a) eqn:E; [rewrite (H a) by (done || left)|]; [lia|].
  destruct (q a); lia.
Qed.
Lemma count_if_pos {A} (p : A → bool) l a : a ∈ l → p a = true → 0 < count_if p l.
Proof.
  induction l as [|b l IH]; intros Hin Hp; [by apply elem_of_nil in Hin|].
  rewrite count_if_cons. pose proof (count_if_nonneg p l).
  apply elem_of_cons in Hin as [->|Hin]; [rewrite Hp; lia|].
  specialize (IH Hin Hp). destruct (p b); lia.
Qed.
Lemma count_if_pos_inv {A} (p : A → bool) l : 0 < count_if p l → ∃ a, a ∈ l ∧ p a = true.
Proof.
  induction l as [|b l IH]; [done|]. rewrite count_if_cons. destruct (p b) eqn:E.
  - intros _. exists b. split; [left|done].
  - intros H. destruct IH as (a & Ha & Hp); [lia|]. exists a. split; [by right|done].
Qed.
(** Disjoint predicates count separately. *)
Lemma count_if_disjoint {A} (p q r : A → bool) l :
  (∀ a, a ∈ l → p a = true → r a = true) → (∀ a, a ∈ l → q a = true → r a = true) →
  (∀ a, a ∈ l → p a = true → q a = true → False) →
  count_if p l + count_if q l ≤ count_if r l.
Proof.
  induction l as [|a l IH]; intros Hp Hq Hd; [done|]. rewrite !count_if_cons.
  assert (count_if p l + count_if q l ≤ count_if r l).
  { apply IH; intros b Hb; [apply Hp|apply Hq|apply Hd]; by right. }
  specialize (Hp a ltac:(left)). specialize (Hq a ltac:(left)).
  specialize (Hd a ltac:(left)).
  destruct (p a), (q a), (r a); try lia; naive_solver.
Qed.
Lemma count_if_all {A} (p : A → bool) l : count_if p l = vsize l ↔ Forall (λ a, p a = true) l.
Proof.
  induction l as [|a l IH]; [split; [constructor|done]|].
  rewrite count_if_cons, Forall_cons, <-IH.
  assert (count_if p l ≤ vsize l).
  { unfold count_if, vsize. pose proof (List.filter_length_le p l). lia. }
  unfold vsize in *. simpl. destruct (p a); [split; [intros; split; [done|lia]|lia]|].
  split; [lia|naive_solver].
Qed.
Lemma count_if_none {A} (p : A → bool) l : count_if p l = 0 ↔ Forall (λ a, p a = false) l.
Proof.
  induction l as [|a l IH]; [split; [constructor|done]|].
  rewrite count_if_cons, Forall_cons, <-IH. pose proof (count_if_nonneg p l).
  destruct (p a); [split; [lia|naive_solver]|]. split; [intros; split; [done|lia]|lia].
Qed.
Lemma count_if_split {A} (p q : A → bool) l :
  count_if p l = count_if (λ a, p a && q a) l + count_if (λ a, p a && negb (q a)) l.
Proof.
  induction l as [|a l IH]; [done|]. rewrite !count_if_cons, IH.
  destruct (p a), (q a); simpl; lia.
Qed.
Lemma count_if_ext {A} (p q : A → bool) l :
  (∀ a, a ∈ l → p a = q a) → count_if p l = count_if q l.
Proof.
  intros H. apply Z.le_antisymm; apply count_if_le; intros a Ha; rewrite (H a Ha); done.
Qed.
Lemma count_if_indexed {X} (p : X → bool) (l : list X) :
  count_if (λ im, p im.2) (indexed l) = count_if p l.
Proof.
  rewrite <-(indexed_snd l) at 2. generalize (indexed l). intros l'. induction l' as [|[j x] l' IH]; [done|].
  csimpl. rewrite !count_if_cons, IH. done.
Qed.
Lemma count_if_fmap {A B} (f : A → B) (p : B → bool) l :
  count_if p (f <$> l) = count_if (λ a, p (f a)) l.
Proof. induction l as [|a l IH]; [done|]. csimpl. by rewrite !count_if_cons, IH. Qed.
Lemma count_if_perm {A} (p : A → bool) l l' : l ≡ₚ l' → count_if p l = count_if p l'.
Proof.
  induction 1 as [|x l l' _ IH|x y l|l l' l'' _ IH _ IH']; rewrite ?count_if_cons; try lia; done.
Qed.
Lemma count_if_app {A} (p : A → bool) l l' :
  count_if p (l ++ l') = count_if p l + count_if p l'.
Proof. induction l as [|x l IH]; simpl; rewrite ?count_if_cons; [done|lia]. Qed.
