(* ===== verification/ReplTime.v ===== *)
(** * Logical time of the replication system

    [Timestamp] (bson/timestamp.h) is a pair of 32-bit counters; [OpTime]
    (db/repl/optime.h) adds the election term.  The comparison operators of
    [OpTime] ignore the term when either side comes from protocol version 0,
    so they are an order only on optimes of one protocol version. *)
From S2P Require Import Prelude.

(** ** Timestamp *)
Record Timestamp := mkTimestamp { ts_secs : Z; ts_inc : Z }.
#[export] Instance Timestamp_eq_dec : EqDecision Timestamp.
Proof. solve_decision. Defined.

Module TS.
(** The fields are [unsigned]. *)
Definition wf (t : Timestamp) : Prop :=
    0 ≤ ts_secs t < two32 ∧ 0 ≤ ts_inc t < two32.
Definition zero : Timestamp := mkTimestamp 0 0.
Definition isNull (t : Timestamp) : bool := ts_secs t =? 0.
(** [tie()] compares the seconds first. *)
Definition eqb (a b : Timestamp) : bool :=
    (ts_secs a =? ts_secs b) && (ts_inc a =? ts_inc b).
Definition ltb (a b : Timestamp) : bool :=
    (ts_secs a <? ts_secs b) || ((ts_secs a =? ts_secs b) && (ts_inc a <? ts_inc b)).
Definition gtb (a b : Timestamp) : bool := ltb b a.
Definition asULL (t : Timestamp) : Z := Z.lor (Z.shiftl (ts_secs t) 32) (ts_inc t).
(** The constructor from a 64-bit value: [v >> 32] and [v], each narrowed
      to [unsigned]. *)
Definition of_ull (v : Z) : Timestamp := mkTimestamp (u32 (Z.shiftr v 32)) (u32 v).
End TS.

Lemma TS_eqb_eq a b : TS.eqb a b = true ↔ a = b.
Proof.
  unfold TS.eqb. destruct a, b; simpl. rewrite andb_true_iff, !Z.eqb_eq. naive_solver.
Qed.

Lemma TS_ltb_lt a b :
  TS.ltb a b = true ↔
  ts_secs a < ts_secs b ∨ (ts_secs a = ts_secs b ∧ ts_inc a < ts_inc b).
Proof. unfold TS.ltb. lia. Qed.

Lemma TS_asULL_add t : TS.wf t → TS.asULL t = ts_secs t * two32 + ts_inc t.
Proof.
  intros [[Hs1 Hs2] [Hi1 Hi2]]. unfold TS.asULL. rewrite Z.shiftl_mul_pow2 by lia.
  change (2 ^ 32) with two32. rewrite <-Z.add_lor_land.
  assert (Z.land (ts_secs t * two32) (ts_inc t) = 0) as ->; [|lia].
  apply Z.bits_inj'. intros n Hn. rewrite Z.land_spec, Z.bits_0.
  change two32 with (2 ^ 32) in *. destruct (Z.lt_ge_cases n 32).
  - by rewrite Z.mul_pow2_bits_low.
  - rewrite (Z.bits_above_log2 (ts_inc t) n), andb_false_r; [done|lia|].
    destruct (Z.eq_dec (ts_inc t) 0) as [->|]; [simpl; lia|].
    assert (Z.log2 (ts_inc t) < 32); [|lia]. apply Z.log2_lt_pow2; lia.
Qed.

(** ** OpTime *)
Record OpTime := mkOpTime { ot_ts : Timestamp; ot_term : Z }.
#[export] Instance OpTime_eq_dec : EqDecision OpTime.
Proof. solve_decision. Defined.

Module OT.
Definition kUninitializedTerm : Z := -1.
Definition kInitialTerm : Z := 0.
(** The default constructor. *)
Definition null : OpTime := mkOpTime TS.zero kUninitializedTerm.
Definition getSecs (o : OpTime) : Z := ts_secs (ot_ts o).
Definition isNull (o : OpTime) : bool := TS.isNull (ot_ts o).
Definition old_protocol (a b : OpTime) : bool :=
    (ot_term a =? kUninitializedTerm) || (ot_term b =? kUninitializedTerm).
Definition eqb (a b : OpTime) : bool :=
    if old_protocol a b then TS.eqb (ot_ts a) (ot_ts b)
    else (ot_term a =? ot_term b) && TS.eqb (ot_ts a) (ot_ts b).
Definition ltb (a b : OpTime) : bool :=
    if old_protocol a b then TS.ltb (ot_ts a) (ot_ts b)
    else (ot_term a <? ot_term b) ||
         ((ot_term a =? ot_term b) && TS.ltb (ot_ts a) (ot_ts b)).
Definition leb (a b : OpTime) : bool := ltb a b || eqb a b.
Definition gtb (a b : OpTime) : bool := negb (leb a b).
Definition geb (a b : OpTime) : bool := negb (ltb a b).
Definition max (a b : OpTime) : OpTime := if ltb a b then b else a.
End OT.

(** All the optimes a replica set compares in one protocol version: either
    every term is uninitialized or none is. *)
Definition same_protocol (a b : OpTime) : Prop :=
  ot_term a = OT.kUninitializedTerm ↔ ot_term b = OT.kUninitializedTerm.

#[export] Instance same_protocol_equiv : Equivalence same_protocol.
Proof. unfold same_protocol. split; red; naive_solver. Qed.

(** [a < b] as a proposition, by cases on the protocol. *)
Lemma OT_ltb_spec a b :
  OT.ltb a b = true ↔
  (if OT.old_protocol a b then TS.ltb (ot_ts a) (ot_ts b) = true
   else ot_term a < ot_term b ∨
        (ot_term a = ot_term b ∧ TS.ltb (ot_ts a) (ot_ts b) = true)).
Proof.
  unfold OT.ltb. destruct (OT.old_protocol a b); [done|].
  by rewrite orb_true_iff, andb_true_iff, Z.ltb_lt, Z.eqb_eq.
Qed.

Ltac optime_solve :=
  unfold same_protocol, OT.gtb, OT.geb, OT.leb, OT.eqb, OT.ltb, OT.old_protocol,
    TS.eqb, TS.ltb, OT.kUninitializedTerm in *;
  repeat match goal with o : OpTime |- _ => destruct o as [[? ?] ?] end; simpl in *;
  repeat match goal with
  | |- context [if ?c then _ else _] => destruct c eqn:?
  | H : context [if ?c then _ else _] |- _ => destruct c eqn:?
  end; lia.

Section optime_order.
Implicit Types a b c : OpTime.

Lemma OT_ltb_irrefl a : OT.ltb a a = false.
Proof. optime_solve. Qed.
Lemma OT_geb_refl a : OT.geb a a = true.
Proof. optime_solve. Qed.
Lemma OT_ltb_asymm a b : OT.ltb a b = true → OT.ltb b a = false.
Proof. optime_solve. Qed.
(** Exactly one of [<], [==], [>] holds, whatever the terms. *)
Lemma OT_trichotomy a b : OT.ltb a b = false → OT.ltb b a = false → OT.eqb a b = true.
Proof. optime_solve. Qed.
Lemma OT_leb_total a b : OT.leb a b = true ∨ OT.leb b a = true.
Proof. optime_solve. Qed.
Lemma OT_gtb_ltb a b : OT.gtb a b = OT.ltb b a.
Proof. optime_solve. Qed.
Lemma OT_geb_leb a b : OT.geb a b = OT.leb b a.
Proof. optime_solve. Qed.
Lemma OT_eqb_sym a b : OT.eqb a b = OT.eqb b a.
Proof. optime_solve. Qed.

(** On one protocol version the operators are the lexicographic order on
    (term, secs, inc). *)
Lemma OT_ltb_lex a b :
  same_protocol a b →
  OT.ltb a b = true ↔
  ot_term a < ot_term b ∨ ot_term a = ot_term b ∧
  (OT.getSecs a < OT.getSecs b ∨ OT.getSecs a = OT.getSecs b ∧
   ts_inc (ot_ts a) < ts_inc (ot_ts b)).
Proof. unfold OT.getSecs. optime_solve. Qed.
Lemma OT_leb_lex a b :
  same_protocol a b →
  OT.leb a b = true ↔
  ot_term a < ot_term b ∨ ot_term a = ot_term b ∧
  (OT.getSecs a < OT.getSecs b ∨ OT.getSecs a = OT.getSecs b ∧
   ts_inc (ot_ts a) ≤ ts_inc (ot_ts b)).
Proof. unfold OT.getSecs. optime_solve. Qed.

Lemma OT_leb_trans a b c :
  same_protocol a b → same_protocol b c →
  OT.leb a b = true → OT.leb b c = true → OT.leb a c = true.
Proof.
  intros Hab Hbc. assert (same_protocol a c) by (by etrans).
  rewrite !OT_leb_lex by done. lia.
Qed.
Lemma OT_leb_ltb_trans a b c :
  same_protocol a b → same_protocol b c →
  OT.leb a b = true → OT.ltb b c = true → OT.ltb a c = true.
Proof.
  intros Hab Hbc. assert (same_protocol a c) by (by etrans).
  rewrite !OT_ltb_lex, OT_leb_lex by done. lia.
Qed.
Lemma OT_leb_antisymm_eqb a b :
  OT.leb a b = true → OT.leb b a = true → OT.eqb a b = true.
Proof. optime_solve. Qed.
(** [==] is Leibniz equality on one protocol version. *)
Lemma OT_eqb_eq a b : same_protocol a b → OT.eqb a b = true ↔ a = b.
Proof.
  intros Hp. split; [|intros ->; optime_solve]. intros He.
  destruct a as [ta na], b as [tb nb]. unfold OT.eqb in He.
  destruct (OT.old_protocol _ _) eqn:Ho; simpl in He.
  - apply TS_eqb_eq in He as ->. f_equal.
    unfold same_protocol, OT.old_protocol, OT.kUninitializedTerm in *. simpl in *. lia.
  - apply andb_true_iff in He as [He1 ->%TS_eqb_eq]. f_equal. lia.
Qed.
End optime_order.
#[export] Hint Resolve OT_ltb_irrefl OT_geb_refl : mongo.

(** ** The optimes of one node

    Without terms every optime has the uninitialized term.  With terms an optime is the null
    optime, before the first operation, or has a term and a timestamp after the epoch. *)
Inductive Protocol := PV0 | PV1.
Definition in_protocol (pv : Protocol) (o : OpTime) : Prop :=
  match pv with
  | PV0 => ot_term o = OT.kUninitializedTerm
  | PV1 => o = OT.null ∨ (0 ≤ ot_term o ∧ TS.ltb TS.zero (ot_ts o) = true)
  end.
Definition lex_lt (a b : OpTime) : Prop :=
  ot_term a < ot_term b ∨ ot_term a = ot_term b ∧
  (OT.getSecs a < OT.getSecs b ∨ OT.getSecs a = OT.getSecs b ∧
   ts_inc (ot_ts a) < ts_inc (ot_ts b)).

Lemma OT_eq_fields a b :
  a = b ↔ ot_term a = ot_term b ∧ OT.getSecs a = OT.getSecs b ∧ ts_inc (ot_ts a) = ts_inc (ot_ts b).
Proof. destruct a as [[] ], b as [[] ]. unfold OT.getSecs. simpl. naive_solver. Qed.
Section protocol.
Context (pv : Protocol).
Implicit Types a b c : OpTime.

Lemma protocol_cases a b :
  in_protocol pv a → in_protocol pv b →
  same_protocol a b ∨ (a = OT.null ∧ lex_lt a b ∧ TS.ltb (ot_ts a) (ot_ts b) = true) ∨
  (b = OT.null ∧ lex_lt b a ∧ TS.ltb (ot_ts b) (ot_ts a) = true).
Proof.
  unfold in_protocol, same_protocol, lex_lt, OT.kUninitializedTerm. destruct pv; [by left; lia|].
  intros [->|[? ?]] [->|[? ?]]; unfold OT.null, OT.kUninitializedTerm; simpl;
    [by left|right; left|right; right|left; lia]; split_and!; try done; left; lia.
Qed.
Lemma OT_ltb_protocol a b :
  in_protocol pv a → in_protocol pv b → OT.ltb a b = true ↔ lex_lt a b.
Proof.
  intros Ha Hb. destruct (protocol_cases a b Ha Hb) as [?|[(-> & ? & Hts)|(-> & ? & Hts)]];
    [by apply OT_ltb_lex|..]; rewrite OT_ltb_spec; unfold OT.old_protocol; simpl.
  - done.
  - rewrite orb_true_r. apply TS_ltb_lt in Hts. rewrite TS_ltb_lt. unfold lex_lt in *. simpl in *. lia.
Qed.
Lemma OT_eqb_protocol a b :
  in_protocol pv a → in_protocol pv b → OT.eqb a b = true ↔ a = b.
Proof.
  assert (∀ x, TS.ltb x x = true → False) as Hirr by (intros x; rewrite TS_ltb_lt; lia).
  intros Ha Hb. destruct (protocol_cases a b Ha Hb) as [?|[(-> & _ & Hts)|(-> & _ & Hts)]];
    [by apply OT_eqb_eq|..]; unfold OT.eqb, OT.old_protocol; simpl; rewrite ?orb_true_r, TS_eqb_eq.
  - split; [intros He; rewrite <-He in Hts|intros <-]; by apply Hirr in Hts.
  - split; [intros He; rewrite He in Hts|intros ->]; by apply Hirr in Hts.
Qed.
Lemma OT_leb_protocol a b :
  in_protocol pv a → in_protocol pv b → OT.leb a b = true ↔ ¬ lex_lt b a.
Proof.
  intros Ha Hb. unfold OT.leb. rewrite orb_true_iff, OT_ltb_protocol, OT_eqb_protocol, OT_eq_fields by done.
  unfold lex_lt. lia.
Qed.
End protocol.

(** On the optimes of one protocol version the operators of OpTime are a strict total
    order and [==] is equality: [<] is irreflexive and transitive, exactly one of [<], [==] and
    [>] holds, and [<=] and [>=] are its reflexive closures. *)
Theorem optime_order_total pv a b c :
  in_protocol pv a → in_protocol pv b → in_protocol pv c →
  OT.ltb a a = false ∧
  (OT.ltb a b = true → OT.ltb b c = true → OT.ltb a c = true) ∧
  ((OT.ltb a b = true ∧ OT.eqb a b = false ∧ OT.gtb a b = false) ∨
   (OT.ltb a b = false ∧ OT.eqb a b = true ∧ OT.gtb a b = false) ∨
   (OT.ltb a b = false ∧ OT.eqb a b = false ∧ OT.gtb a b = true)) ∧
  (OT.eqb a b = true ↔ a = b) ∧
  OT.leb a b = OT.ltb a b || OT.eqb a b ∧ OT.geb a b = OT.leb b a.
Proof.
  intros Ha Hb Hc. split_and!; [apply OT_ltb_irrefl| | |by eapply OT_eqb_protocol|done|apply OT_geb_leb].
  - rewrite !(OT_ltb_protocol pv) by done. unfold lex_lt. lia.
  - optime_solve.
Qed.
Lemma optime_order_total_witness :
  let a := OT.null in let b := mkOpTime (mkTimestamp 5 1) 1 in let c := mkOpTime (mkTimestamp 4 9) 2 in
  OT.ltb a a = false ∧
  (OT.ltb a b = true → OT.ltb b c = true → OT.ltb a c = true) ∧
  ((OT.ltb a b = true ∧ OT.eqb a b = false ∧ OT.gtb a b = false) ∨
   (OT.ltb a b = false ∧ OT.eqb a b = true ∧ OT.gtb a b = false) ∨
   (OT.ltb a b = false ∧ OT.eqb a b = false ∧ OT.gtb a b = true)) ∧
  (OT.eqb a b = true ↔ a = b) ∧
  OT.leb a b = OT.ltb a b || OT.eqb a b ∧ OT.geb a b = OT.leb b a.
Proof.
  intros a b c. apply (optime_order_total PV1).
  - left. reflexivity.
  - right. vm_compute. split; congruence.
  - right. vm_compute. split; congruence.
Defined.

(** Across protocol versions the order is not transitive. *)
Lemma optime_mixed_protocols_cycle :
  let a := mkOpTime (mkTimestamp 3 0) 1 in let b := mkOpTime (mkTimestamp 1 0) 2 in
  let c := mkOpTime (mkTimestamp 2 0) OT.kUninitializedTerm in
  OT.ltb a b = true ∧ OT.ltb b c = true ∧ OT.ltb c a = true.
Proof. vm_compute. done. Qed.

(** Packing a timestamp into 64 bits loses nothing and keeps the order. *)
Theorem timestamp_ull_roundtrip_order a b :
  TS.wf a → TS.wf b →
  0 ≤ TS.asULL a < 2 ^ 64 ∧ TS.of_ull (TS.asULL a) = a ∧
  (TS.ltb a b = true ↔ TS.asULL a < TS.asULL b).
Proof.
  intros Ha Hb. rewrite !TS_asULL_add by done. destruct Ha as [Hs Hi], Hb as [Hs' Hi'].
  change two32 with 4294967296 in *. split_and!; [lia|lia| |].
  - unfold TS.of_ull, u32. rewrite Z.shiftr_div_pow2 by lia. change (2 ^ 32) with 4294967296.
    change two32 with 4294967296.
    rewrite Z.div_add_l, (Z.div_small (ts_inc a)), Z.add_0_r by lia.
    rewrite (Z.mod_small (ts_secs a)) by lia.
    rewrite Z.add_comm, Z.mod_add, Z.mod_small by lia. by destruct a.
  - rewrite TS_ltb_lt. lia.
Qed.
Lemma timestamp_ull_roundtrip_order_witness :
  0 ≤ TS.asULL (mkTimestamp 5 7) < 2 ^ 64 ∧ TS.of_ull (TS.asULL (mkTimestamp 5 7)) = mkTimestamp 5 7 ∧
  (TS.ltb (mkTimestamp 5 7) (mkTimestamp 6 0) = true ↔
   TS.asULL (mkTimestamp 5 7) < TS.asULL (mkTimestamp 6 0)).
Proof.
  apply timestamp_ull_roundtrip_order; (split; split; vm_compute; congruence).
Defined.
