(* ===== verification/ParseNumber.v ===== *)
(** * Number parsing (base/parse_number.cpp)

    [parseNumberFromStringWithBase] for the integral types, character by
    character as in the source.  Strings are lists of 8-bit characters.  Each
    step of the accumulation loop is guarded by a range check, so the C++
    arithmetic never leaves the type and [Z] represents it exactly. *)
From S2P Require Import Prelude.

Abbreviation chars := (list ascii).

(** Error codes of [base/error_codes.err] that the modelled code returns. *)
Inductive ErrorCode :=
| BadValue | FailedToParse | Unauthorized | TypeMismatch | NoSuchKey | HostUnreachable
| InvalidReplicaSetConfig | NodeNotFound | DuplicateKey | ReplicaSetNotFound
| InconsistentReplicaSetNames | NotSecondary | InvalidOptions | NodeNotElectable
| UnknownReplWriteConcern | CannotSatisfyWriteConcern | StaleTerm | NotMaster
| ExceededTimeLimit | NotMasterOrSecondary | AuthenticationFailed | ShutdownInProgress
| CallbackCanceled | NewReplicaSetConfigurationIncompatible | CannotInitializeNodeWithData
| NotYetInitialized | ConfigurationInProgress | AlreadyInitialized | NoReplicationEnabled
| InvalidBSON | Overflow | DollarPrefixedFieldName | DottedFieldName | InvalidIdField
| RoleNotFound | InvalidRoleModification | RolesNotRelated | PrivilegeNotFound | GraphContainsCycle
| UserNotFound | AuthSchemaIncompatible | InternalError
| OtherError.
#[export] Instance ErrorCode_eq_dec : EqDecision ErrorCode.
Proof. solve_decision. Defined.

(** [StatusWith<T>]; the human-readable reason is not represented. *)
Inductive StatusWith (A : Type) := OK (a : A) | Err (e : ErrorCode).
Arguments OK {_} _.
Arguments Err {_} _.
Abbreviation Status := (StatusWith ()).

Definition sw_isOK {A} (s : StatusWith A) : bool :=
  match s with OK _ => true | Err _ => false end.
#[export] Instance StatusWith_ret : MRet StatusWith := @OK.
#[export] Instance StatusWith_bind : MBind StatusWith := λ A B f m,
  match m with
  | OK a => f a
  | Err e => Err e
  end.

Module Parse.
(** [std::numeric_limits] of an integral type. *)
Record IntType := mkIntType { is_signed : bool; lim_min : Z; lim_max : Z }.
Definition int_t : IntType := mkIntType true INT_MIN INT_MAX.
Definition llong_t : IntType := mkIntType true LLONG_MIN LLONG_MAX.
Definition uint8_t : IntType := mkIntType false 0 255.

Definition code (c : ascii) : Z := Z.of_N (N_of_ascii c).

Definition _digitValue (c : ascii) : Z :=
  if (48 <=? code c) && (code c <=? 57) then code c - 48
  else if (97 <=? code c) && (code c <=? 122) then code c - 97 + 10
  else if (65 <=? code c) && (code c <=? 90) then code c - 65 + 10
  else 36.

Definition _extractSign (stringValue : chars) : chars * bool :=
  match stringValue with
  | [] => ([], false)
  | c :: rest =>
      if decide (c = "-"%char) then (rest, true)
      else if decide (c = "+"%char) then (rest, false)
      else (stringValue, false)
  end.

Definition has_hex_prefix (s : chars) : bool :=
  match s with
  | z :: x :: _ =>
      bool_decide (z = "0"%char) && (bool_decide (x = "x"%char) || bool_decide (x = "X"%char))
  | _ => false
  end.

Definition _extractBase (stringValue : chars) (inputBase : Z) : chars * Z :=
  if inputBase =? 0 then
    if (2 <? vsize stringValue) && has_hex_prefix stringValue then (drop 2 stringValue, 16)
    else if (1 <? vsize stringValue) && bool_decide (head stringValue = Some "0"%char)
    then (stringValue, 8)
    else (stringValue, 10)
  else if (inputBase =? 16) && has_hex_prefix stringValue then (drop 2 stringValue, inputBase)
  else (stringValue, inputBase).

(** The loop over the digits of a negative number. *)
Fixpoint parse_neg (t : IntType) (base n : Z) (str : chars) : StatusWith Z :=
  match str with
  | [] => OK n
  | c :: rest =>
      let digitValue := _digitValue c in
      if base <=? digitValue then Err FailedToParse
      else if (n <? Z.quot (lim_min t) base) || (- digitValue <? lim_min t - n * base)
      then Err FailedToParse
      else parse_neg t base (n * base - digitValue) rest
  end.

Fixpoint parse_pos (t : IntType) (base n : Z) (str : chars) : StatusWith Z :=
  match str with
  | [] => OK n
  | c :: rest =>
      let digitValue := _digitValue c in
      if base <=? digitValue then Err FailedToParse
      else if (Z.quot (lim_max t) base <? n) || (lim_max t - n * base <? digitValue)
      then Err FailedToParse
      else parse_pos t base (n * base + digitValue) rest
  end.

Definition parseNumberFromStringWithBase (t : IntType) (stringValue : chars) (base : Z)
    : StatusWith Z :=
  if (base =? 1) || (base <? 0) || (36 <? base) then Err BadValue
  else
    let '(unsigned, isNegative) := _extractSign stringValue in
    let '(str, base) := _extractBase unsigned base in
    match str with
    | [] => Err FailedToParse
    | _ =>
        if isNegative then
          if is_signed t then parse_neg t base 0 str else Err FailedToParse
        else parse_pos t base 0 str
    end.

(** *** Reference: the number a digit string denotes *)
Definition value_from (base n : Z) (str : chars) : Z :=
  foldl (λ n c, n * base + _digitValue c) n str.
Definition digits_ok (base : Z) (str : chars) : Prop :=
  Forall (λ c, _digitValue c < base) str.
#[export] Instance digits_ok_dec base str : Decision (digits_ok base str).
Proof. unfold digits_ok. apply _. Defined.

Lemma digit_nonneg c : 0 ≤ _digitValue c.
Proof. unfold _digitValue. repeat case_match; lia. Qed.

Lemma value_from_mono base n str : 1 ≤ base → 0 ≤ n → n ≤ value_from base n str.
Proof.
  intros Hb. revert n. induction str as [|c str IH]; intros n Hn; simpl; [done|].
  pose proof (digit_nonneg c). etrans; [|apply IH]; nia.
Qed.

Lemma quot_guard max base n : 1 ≤ base → 0 ≤ max → Z.quot max base < n → max < n * base.
Proof.
  intros Hb Hm Hn. rewrite Z.quot_div_nonneg in Hn by lia.
  pose proof (Z.mul_succ_div_gt max base ltac:(lia)). nia.
Qed.

Lemma quot_guard_neg min base n :
  1 ≤ base → min ≤ 0 → n < Z.quot min base → n * base < min.
Proof.
  intros Hb Hm Hn.
  replace min with (- - min) in Hn by lia. rewrite Z.quot_opp_l in Hn by lia.
  enough (- min < (- n) * base) by lia. apply quot_guard; lia.
Qed.

(** Either loop accepts exactly the digit strings whose value fits. *)
Lemma parse_pos_spec t base n str v :
  2 ≤ base → 0 ≤ n ≤ lim_max t →
  parse_pos t base n str = OK v ↔
  digits_ok base str ∧ v = value_from base n str ∧ v ≤ lim_max t.
Proof.
  intros Hb. revert n. induction str as [|c str IH]; intros n Hn; simpl.
  { split; [intros [= ->]; split_and!; [constructor|done|lia] | by intros (_ & -> & _)]. }
  pose proof (digit_nonneg c) as Hd. unfold digits_ok. rewrite Forall_cons.
  destruct (Z.leb_spec base (_digitValue c)); [naive_solver lia|].
  destruct (_ || _) eqn:Hov.
  - split; [done|]. intros (_ & -> & Hle). exfalso.
    assert (lim_max t < n * base + _digitValue c) as Hgt.
    { apply orb_true_iff in Hov as [Hov%Z.ltb_lt|Hov%Z.ltb_lt]; [|lia].
      apply quot_guard in Hov; lia. }
    pose proof (value_from_mono base (n * base + _digitValue c) str).
    unfold value_from in *. simpl in *. nia.
  - apply orb_false_iff in Hov as [Hov1%Z.ltb_ge Hov2%Z.ltb_ge].
    rewrite IH by nia. unfold digits_ok, value_from. naive_solver.
Qed.

Lemma parse_neg_spec t base n str v :
  2 ≤ base → lim_min t ≤ n ≤ 0 →
  parse_neg t base n str = OK v ↔
  digits_ok base str ∧ v = - value_from base (- n) str ∧ lim_min t ≤ v.
Proof.
  intros Hb. revert n. induction str as [|c str IH]; intros n Hn; simpl.
  { split; [intros [= ->]; split_and!; [constructor|simpl; lia|lia] |].
    intros (_ & -> & _). simpl. f_equal. lia. }
  pose proof (digit_nonneg c) as Hd. unfold digits_ok. rewrite Forall_cons.
  destruct (Z.leb_spec base (_digitValue c)); [naive_solver lia|].
  destruct (_ || _) eqn:Hov.
  - split; [done|]. intros (_ & -> & Hle). exfalso.
    assert (n * base - _digitValue c < lim_min t) as Hgt.
    { apply orb_true_iff in Hov as [Hov%Z.ltb_lt|Hov%Z.ltb_lt]; [|lia].
      apply quot_guard_neg in Hov; lia. }
    pose proof (value_from_mono base (- n * base + _digitValue c) str).
    unfold value_from in *. simpl in *. nia.
  - apply orb_false_iff in Hov as [Hov1%Z.ltb_ge Hov2%Z.ltb_ge].
    rewrite IH by nia. unfold digits_ok, value_from. simpl.
    replace (- (n * base - _digitValue c)) with (- n * base + _digitValue c) by lia.
    naive_solver.
Qed.

Lemma extractBase_ge2 str base :
  base = 0 ∨ 2 ≤ base → 2 ≤ snd (_extractBase str base).
Proof. unfold _extractBase. intros. repeat case_match; simpl; lia. Qed.

Definition wf_type (t : IntType) : Prop :=
  lim_min t ≤ 0 ≤ lim_max t ∧ (is_signed t = false → lim_min t = 0).

(** The value [stringValue] denotes after the sign and the base prefix. *)
Definition denotes (stringValue : chars) (base : Z) (str : chars) (v : Z) : Prop :=
  let '(unsigned, isNegative) := _extractSign stringValue in
  let '(digits, base') := _extractBase unsigned base in
  str = digits ∧ str ≠ [] ∧ digits_ok base' str ∧
  v = (if isNegative then - value_from base' 0 str else value_from base' 0 str).

(** C40. For every supported base (0 for automatic detection, or 2 to 36) and
    every integral type, the parser accepts exactly the strings whose digits,
    after the sign and base prefix, are valid in the base and denote a value in
    the range of the type (an unsigned type takes no minus sign); it then returns
    that value.  No intermediate overflow makes it accept or reject wrongly. *)
Theorem parse_accepts_exactly_in_range t stringValue base v :
  wf_type t → (base = 0 ∨ 2 ≤ base ≤ 36) →
  parseNumberFromStringWithBase t stringValue base = OK v ↔
  (∃ str, denotes stringValue base str v) ∧ lim_min t ≤ v ≤ lim_max t ∧
  ((_extractSign stringValue).2 = true → is_signed t = true).
Proof.
  intros [Hlim Hun] Hbase. unfold parseNumberFromStringWithBase, denotes.
  assert ((base =? 1) || (base <? 0) || (36 <? base) = false) as -> by lia.
  destruct (_extractSign stringValue) as [unsigned neg]; simpl.
  pose proof (extractBase_ge2 unsigned base) as Hb.
  destruct (_extractBase unsigned base) as [digits base']; simpl in *.
  destruct digits as [|c digits]; [naive_solver|].
  destruct neg; [destruct (is_signed t) eqn:Hs|].
  - rewrite parse_neg_spec by lia. rewrite Z.opp_0. split.
    + intros (Hd & -> & Hl).
      pose proof (value_from_mono base' 0 (c :: digits)). naive_solver lia.
    + naive_solver.
  - naive_solver.
  - rewrite parse_pos_spec by lia. split.
    + intros (Hd & -> & Hl).
      pose proof (value_from_mono base' 0 (c :: digits)). naive_solver lia.
    + naive_solver.
Qed.

Lemma parse_accepts_exactly_in_range_witness :
  parseNumberFromStringWithBase int_t (String.list_ascii_of_string "-2147483648") 10
  = OK (-2147483648).
Proof.
  apply parse_accepts_exactly_in_range; [repeat split; vm_compute; congruence | lia |].
  split_and!; [|vm_compute; congruence..|done].
  exists (String.list_ascii_of_string "2147483648"). unfold denotes. simpl.
  split_and!; [done|done| |vm_compute; reflexivity].
  apply (bool_decide_eq_true_1 _). vm_compute. reflexivity.
Defined.

(** Either loop fails only with [FailedToParse]. *)
Lemma parse_loop_err t base n str e :
  parse_neg t base n str = Err e ∨ parse_pos t base n str = Err e → e = FailedToParse.
Proof.
  intros [H|H]; revert n H; induction str as [|c str IH]; intros n; simpl;
    repeat case_match; naive_solver.
Qed.

(** *** Decimal output of an integer, as [StringBuilder::operator<<] prints it *)
Definition digit_char (d : Z) : ascii := ascii_of_N (Z.to_N (d + 48)).
Fixpoint dec_go (fuel : nat) (n : Z) (acc : chars) : chars :=
  match fuel with
  | O => acc
  | S fuel =>
      let acc := digit_char (n mod 10) :: acc in
      if n <? 10 then acc else dec_go fuel (n / 10) acc
  end.
(** At most [S (Z.to_nat n)] digits; enough fuel by [value_dec]. *)
Definition dec (n : Z) : chars := dec_go (S (Z.to_nat n)) n [].

Lemma digitValue_char d : 0 ≤ d < 10 → _digitValue (digit_char d) = d.
Proof.
  intros H. assert (d ∈ [0;1;2;3;4;5;6;7;8;9]) as Hin by (rewrite !elem_of_cons; lia).
  clear H. repeat (apply elem_of_cons in Hin as [->|Hin]; [done|]).
  by apply elem_of_nil in Hin.
Qed.

Lemma dec_go_spec fuel n acc :
  0 ≤ n < Z.of_nat fuel →
  ∃ pre, dec_go fuel n acc = pre ++ acc ∧ pre ≠ [] ∧ Forall (λ c, ∃ d, 0 ≤ d < 10 ∧ c = digit_char d) pre ∧
         ∀ m, value_from 10 m pre = m * 10 ^ vsize pre + n.
Proof.
  revert n acc. induction fuel as [|fuel IH]; intros n acc Hn; [lia|]. simpl.
  pose proof (Z.mod_pos_bound n 10). pose proof (Z.div_mod n 10).
  destruct (Z.ltb_spec n 10).
  - exists [digit_char (n mod 10)]. split_and!; [done..| |].
    + constructor; [|constructor]. exists (n mod 10). split; [lia|done].
    + intros m. unfold value_from. simpl. rewrite digitValue_char by lia.
      rewrite Z.mod_small by lia. change (vsize _) with 1. lia.
  - destruct (IH (n / 10) (digit_char (n mod 10) :: acc)) as (pre & -> & Hne & Hd & Hv).
    { split; [apply Z.div_pos; lia|]. apply Z.div_lt_upper_bound; lia. }
    exists (pre ++ [digit_char (n mod 10)]). split_and!.
    + by rewrite <-app_assoc.
    + by destruct pre.
    + apply Forall_app. split; [done|]. constructor; [|constructor].
      exists (n mod 10). split; [lia|done].
    + intros m. unfold value_from in *. rewrite foldl_app, Hv. simpl.
      rewrite digitValue_char by lia. unfold vsize. rewrite length_app. simpl.
      rewrite Nat2Z.inj_add, Z.pow_add_r by lia. change (10 ^ Z.of_nat 1) with 10. lia.
Qed.

Lemma dec_spec n :
  0 ≤ n →
  dec n ≠ [] ∧ Forall (λ c, ∃ d, 0 ≤ d < 10 ∧ c = digit_char d) (dec n) ∧
  value_from 10 0 (dec n) = n.
Proof.
  intros Hn. destruct (dec_go_spec (S (Z.to_nat n)) n []) as (pre & Heq & Hne & Hd & Hv);
    [lia|]. unfold dec. rewrite Heq, app_nil_r. split_and!; [done..|]. rewrite Hv. lia.
Qed.

(** Printing a non-negative number in decimal and parsing it back. *)
Lemma parse_dec t n :
  wf_type t → 0 ≤ n ≤ lim_max t → parseNumberFromStringWithBase t (dec n) 10 = OK n.
Proof.
  intros [Hlim _] Hn. destruct (dec_spec n) as (Hne & Hd & Hv); [lia|].
  unfold parseNumberFromStringWithBase. simpl.
  assert (_extractSign (dec n) = (dec n, false)) as ->.
  { destruct (dec n) as [|c s]; [done|]. apply Forall_cons in Hd as [(d & Hd & ->) _].
    unfold _extractSign. rewrite !decide_False; [done|..];
      intros Hc%(f_equal _digitValue); rewrite digitValue_char in Hc by done;
      vm_compute in Hc; lia. }
  unfold _extractBase. simpl. destruct (dec n) as [|c s] eqn:E; [done|]. rewrite <-E in *.
  apply parse_pos_spec; [lia|lia|]. split_and!; [|by rewrite Hv|lia].
  eapply Forall_impl; [exact Hd|]. intros ? (d & ? & ->). simpl.
  rewrite digitValue_char by done. lia.
Qed.
End Parse.
