(* ===== verification/HostAndPort.v ===== *)
(** * Process names on the network (util/net/hostandport.cpp)

    Parsing and printing of [host:port] strings, and the equality used by the
    replica set configuration.  String positions are [Z] with [npos] for "not
    found", as [StringData::find] and [rfind] return them. *)
From S2P Require Import Prelude ParseNumber.

Record HostAndPort := mkHostAndPort { _host : chars; _port : Z }.
#[export] Instance HostAndPort_eta : Eta HostAndPort :=
  λ h, mkHostAndPort (_host h) (_port h).
#[export] Instance HostAndPort_eq_dec : EqDecision HostAndPort.
Proof. solve_decision. Defined.

Module HP.
(** [ServerGlobalParams::DefaultDBPort]. *)
Definition DefaultDBPort : Z := 27017.
(** The default constructor. *)
Definition default : HostAndPort := mkHostAndPort [] (-1).
Definition hasPort (h : HostAndPort) : bool := 0 <=? _port h.
Definition port (h : HostAndPort) : Z := if hasPort h then _port h else DefaultDBPort.
Definition empty (h : HostAndPort) : bool :=
  bool_decide (_host h = []) && (_port h <? 0).
Definition eqb (a b : HostAndPort) : bool :=
  bool_decide (_host a = _host b) && (port a =? port b).
(** The representative under [==] that hash maps are keyed by. *)
Definition key (h : HostAndPort) : chars * Z := (_host h, port h).

(** [s.compare(r)] is the lexicographic order on unsigned characters. *)
Fixpoint chars_compare (a b : chars) : comparison :=
  match a, b with
  | [], [] => Eq
  | [], _ => Lt
  | _, [] => Gt
  | x :: a', y :: b' =>
      match Parse.code x ?= Parse.code y with
      | Eq => chars_compare a' b'
      | c => c
      end
  end.
Definition ltb (a b : HostAndPort) : bool :=
  match chars_compare (_host a) (_host b) with
  | Lt => true
  | Gt => false
  | Eq => port a <? port b
  end.

Definition starts_with (s p : chars) : bool := bool_decide (take (length p) s = p).
Definition isLocalHost (h : HostAndPort) : bool :=
  bool_decide (_host h = String.list_ascii_of_string "localhost") ||
  starts_with (_host h) (String.list_ascii_of_string "127.") ||
  bool_decide (_host h = String.list_ascii_of_string "::1") ||
  bool_decide (_host h = String.list_ascii_of_string "anonymous unix socket") ||
  starts_with (_host h) (String.list_ascii_of_string "/").

(** *** Searching *)
Definition npos : Z := 18446744073709551615.
Definition find (c : ascii) (s : chars) : Z :=
  match index_where (λ x, bool_decide (x = c)) s with
  | -1 => npos
  | i => i
  end.
Fixpoint rfind (c : ascii) (s : chars) : Z :=
  match s with
  | [] => npos
  | x :: s' =>
      let r := rfind c s' in
      if r =? npos then (if bool_decide (x = c) then 0 else npos) else r + 1
  end.
(** [s.substr(pos, n)] for [pos <= s.size()]. *)
Definition substr (s : chars) (pos n : Z) : chars :=
  take (Z.to_nat (n `min` vsize s)) (drop (Z.to_nat pos) s).

Definition append (h : HostAndPort) : chars :=
  (if negb (find ":" (_host h) =? npos) then ["["%char] ++ _host h ++ ["]"%char]
   else _host h) ++
  (if find "/" (_host h) =? npos then [":"%char] ++ Parse.dec (port h) else []).
Definition toString (h : HostAndPort) : chars := append h.

(** The bracket and colon rules: the host part and the position of the colon
    before the port ([npos] when there is none). *)
Definition split_host (s : chars) : StatusWith (chars * Z) :=
  let colonPos := rfind ":" s in
  let hostPart := substr s 0 colonPos in
  let openBracketPos := find "[" s in
  let closeBracketPos := find "]" s in
  if negb (openBracketPos =? npos) then
    if negb (openBracketPos =? 0) then Err FailedToParse
    else if closeBracketPos =? npos then Err FailedToParse
    else
      let hostPart := substr s (openBracketPos + 1) (closeBracketPos - openBracketPos - 1) in
      if colonPos <? closeBracketPos then
        if negb (vsize s =? closeBracketPos + 1) then Err FailedToParse
        else OK (hostPart, npos)
      else if negb (colonPos =? closeBracketPos + 1) then Err FailedToParse
      else OK (hostPart, colonPos)
  else if negb (closeBracketPos =? npos) then Err FailedToParse
  else if negb (find ":" s =? colonPos) then Err FailedToParse
  else OK (hostPart, colonPos).

Definition parse_port (s : chars) (colonPos : Z) : StatusWith Z :=
  if negb (colonPos =? npos) then
    port ← Parse.parseNumberFromStringWithBase Parse.int_t
             (substr s (colonPos + 1) npos) 10;
    if (port <=? 0) || (65535 <? port) then Err FailedToParse else OK port
  else OK (-1).

Definition initialize (s : chars) : StatusWith HostAndPort :=
  '(hostPart, colonPos) ← split_host s;
  if bool_decide (hostPart = []) then Err FailedToParse
  else
    port ← parse_port s colonPos;
    OK (mkHostAndPort hostPart port).

(** ** Lemmas *)
Lemma eqb_key a b : eqb a b = true ↔ key a = key b.
Proof.
  unfold eqb, key. rewrite andb_true_iff, bool_decide_eq_true, Z.eqb_eq. split; [by intros [-> ->] | by intros [= ? ?]].
Qed.

Lemma find_none c s : c ∉ s → find c s = npos.
Proof.
  intros Hc. unfold find.
  assert (index_where (λ x, bool_decide (x = c)) s = -1) as ->; [|done].
  apply index_where_none. intros a Ha. apply bool_decide_eq_false. by intros ->.
Qed.

Lemma find_first c p s : c ∉ p → find c (p ++ c :: s) = vsize p.
Proof.
  intros Hp. unfold find, index_where.
  assert (∀ i, index_from (λ x, bool_decide (x = c)) i (p ++ c :: s) = i + vsize p) as ->.
  { induction p as [|a p IH]; intros i; simpl.
    - rewrite bool_decide_true by done. unfold vsize. simpl. lia.
    - rewrite bool_decide_false by set_solver. rewrite IH by set_solver.
      unfold vsize. simpl. lia. }
  rewrite Z.add_0_l. pose proof (vsize_nonneg p). destruct (vsize p); [done|done|lia].
Qed.

Lemma find_npos c s : vsize s < npos → find c s = npos ↔ c ∉ s.
Proof.
  intros Hs. split; [|apply find_none]. unfold find. intros Hf Hin.
  pose proof (index_where_none (λ x, bool_decide (x = c)) s) as Hn.
  pose proof (index_where_range (λ x, bool_decide (x = c)) s) as Hr.
  destruct (index_where _ s) as [|p|p] eqn:E; [done|lia|].
  destruct Hr as [Hr|Hr]; [|lia]. rewrite Hr in Hn.
  apply proj1 in Hn. specialize (Hn eq_refl c Hin). by rewrite bool_decide_true in Hn.
Qed.

Lemma rfind_none c s : c ∉ s → rfind c s = npos.
Proof.
  induction s as [|x s IH]; intros Hc; simpl; [done|].
  rewrite IH, Z.eqb_refl by set_solver. by rewrite bool_decide_false by set_solver.
Qed.

Lemma rfind_last c p s : vsize p < npos → c ∉ s → rfind c (p ++ c :: s) = vsize p.
Proof.
  intros Hp Hs. induction p as [|x p IH]; simpl.
  - rewrite rfind_none, Z.eqb_refl by done. by rewrite bool_decide_true.
  - unfold vsize in *. simpl in *. rewrite IH by lia.
    destruct (Z.eqb_spec (Z.of_nat (length p)) npos); lia.
Qed.

Lemma substr_prefix p s n :
  n = vsize p → substr (p ++ s) 0 n = p.
Proof.
  intros ->. unfold substr, vsize. rewrite length_app. simpl.
  replace (Z.to_nat _) with (length p) by lia. apply take_app_length.
Qed.
Lemma substr_whole s : vsize s ≤ npos → substr s 0 npos = s.
Proof. intros Hs. unfold substr. simpl. apply take_ge. unfold vsize in *. lia. Qed.
Lemma substr_suffix p s : vsize s ≤ npos → substr (p ++ s) (vsize p) npos = s.
Proof.
  intros Hs. unfold substr, vsize in *. rewrite Nat2Z.id, drop_app_length.
  apply take_ge. rewrite length_app. lia.
Qed.

(** Decimal digits are none of the delimiters. *)
Lemma dec_no_delim n c : 0 ≤ n → 10 ≤ Parse._digitValue c → c ∉ Parse.dec n.
Proof.
  intros Hn Hc Hin. destruct (Parse.dec_spec n Hn) as (_ & Hd & _).
  rewrite Forall_forall in Hd. destruct (Hd c Hin) as (d & Hd' & ->).
  rewrite Parse.digitValue_char in Hc by done. lia.
Qed.
(** Hosts that [toString] prints unambiguously. *)
Definition printable (h : HostAndPort) : Prop :=
  _host h ≠ [] ∧ "["%char ∉ _host h ∧ "]"%char ∉ _host h ∧ vsize (_host h) < npos - 65540 ∧
  0 < port h ≤ 65535 ∧ ("/"%char ∈ _host h → port h = DefaultDBPort).

Lemma dec_go_length fuel n acc :
  (length (Parse.dec_go fuel n acc) ≤ fuel + length acc)%nat.
Proof.
  revert n acc. induction fuel as [|fuel IH]; intros n acc; simpl; [done|].
  destruct (n <? 10); simpl; [lia|].
  etrans; [apply IH|]. simpl. lia.
Qed.
Lemma dec_short n : 0 ≤ n ≤ 65535 → vsize (Parse.dec n) ≤ 65536.
Proof.
  intros Hn. pose proof (dec_go_length (S (Z.to_nat n)) n []).
  unfold vsize, Parse.dec. simpl length in *. lia.
Qed.

Lemma parse_port_dec p n :
  0 < n ≤ 65535 → vsize p < npos →
  parse_port (p ++ ":"%char :: Parse.dec n) (vsize p) = OK n.
Proof.
  intros Hn Hp. unfold parse_port. destruct (Z.eqb_spec (vsize p) npos); [lia|]. simpl.
  replace (p ++ ":"%char :: Parse.dec n) with ((p ++ [":"%char]) ++ Parse.dec n)
    by by rewrite <-app_assoc.
  replace (vsize p + 1) with (vsize (p ++ [":"%char])) by
    (unfold vsize; rewrite length_app; simpl; lia).
  pose proof (dec_short n ltac:(lia)).
  rewrite substr_suffix by (unfold npos; lia).
  rewrite Parse.parse_dec; [|repeat split; vm_compute; congruence|].
  - simpl. destruct ((n <=? 0) || (65535 <? n)) eqn:E; [lia|done].
  - simpl. unfold INT_MAX. lia.
Qed.

Lemma split_plain p s :
  "["%char ∉ p → "]"%char ∉ p → ":"%char ∉ p →
  "["%char ∉ s → "]"%char ∉ s → ":"%char ∉ s → vsize p < npos →
  split_host (p ++ ":"%char :: s) = OK (p, vsize p).
Proof.
  intros. unfold split_host.
  rewrite (find_none "["), (find_none "]") by set_solver.
  rewrite rfind_last, find_first, !Z.eqb_refl by done. cbn [negb].
  by rewrite substr_prefix.
Qed.

Lemma vsize_bracket p : vsize ("["%char :: p) = vsize p + 1.
Proof. unfold vsize. simpl. lia. Qed.

Lemma parse_port_bracketed p n :
  0 < n ≤ 65535 → vsize p < npos - 2 →
  parse_port ("["%char :: p ++ "]"%char :: ":"%char :: Parse.dec n) (vsize p + 2) = OK n.
Proof.
  intros Hn Hp. pose proof (parse_port_dec ("["%char :: p ++ ["]"%char]) n Hn) as Hq.
  replace (vsize ("["%char :: p ++ ["]"%char])) with (vsize p + 2) in Hq
    by (unfold vsize; simpl; rewrite length_app; simpl; lia).
  cbn [app] in Hq. rewrite <-app_assoc in Hq. apply Hq. lia.
Qed.

Lemma split_bracketed p s :
  "]"%char ∉ p → "]"%char ∉ s → ":"%char ∉ s → vsize p < npos - 2 →
  split_host ("["%char :: p ++ "]"%char :: ":"%char :: s) = OK (p, vsize p + 2).
Proof.
  intros Hp Hs Hc Hl. unfold split_host. set (str := "["%char :: _).
  assert (find "[" str = 0) as -> by done.
  assert (find "]" str = vsize p + 1) as ->.
  { unfold str. rewrite <-vsize_bracket. apply (find_first "]" ("["%char :: p)). set_solver. }
  assert (rfind ":" str = vsize p + 2) as ->.
  { replace str with (("["%char :: p ++ ["]"%char]) ++ ":"%char :: s).
    - rewrite rfind_last; [..|done]; unfold vsize in *; simpl; rewrite length_app; simpl; lia.
    - unfold str. simpl. by rewrite <-app_assoc. }
  pose proof (vsize_nonneg p). simpl.
  destruct (Z.eqb_spec (vsize p + 1) npos); [lia|].
  destruct (Z.ltb_spec (vsize p + 2) (vsize p + 1)); [lia|].
  destruct (Z.eqb_spec (vsize p + 2) (vsize p + 1 + 1)); [simpl|lia].
  f_equal. f_equal. unfold substr, str. simpl.
  replace (Z.to_nat _) with (length p).
  - apply take_app_length.
  - unfold vsize in *. simpl. rewrite length_app. simpl. lia.
Qed.

Lemma split_no_port_plain p :
  "["%char ∉ p → "]"%char ∉ p → ":"%char ∉ p → vsize p < npos →
  split_host p = OK (p, npos).
Proof.
  intros. unfold split_host.
  rewrite (find_none "["), (find_none "]"), (find_none ":"), rfind_none by done.
  cbn [negb]. rewrite !Z.eqb_refl. cbn [negb]. by rewrite substr_whole by lia.
Qed.

Lemma rfind_range c s : rfind c s = npos ∨ 0 ≤ rfind c s < vsize s.
Proof.
  induction s as [|x s IH]; simpl; [by left|]. unfold vsize in *. simpl.
  destruct (Z.eqb_spec (rfind c s) npos); [|lia].
  case_bool_decide; [right; lia | by left].
Qed.

Lemma rfind_npos c s : vsize s < npos → rfind c s = npos → c ∉ s.
Proof.
  induction s as [|x s IH]; simpl; intros Hs Hr; [set_solver|].
  unfold vsize in *. simpl in *. pose proof (rfind_range c s). unfold vsize in *.
  destruct (Z.eqb_spec (rfind c s) npos) as [E|]; [|lia].
  case_bool_decide; [done|]. apply not_elem_of_cons. split; [done|].
  apply IH; [lia|done].
Qed.

Lemma rfind_app_not c p s : c ∉ s → vsize p < npos → rfind c (p ++ s) = rfind c p.
Proof.
  intros Hs. induction p as [|x p IH]; intros Hp; simpl; [by apply rfind_none|].
  unfold vsize in *. simpl in *. by rewrite IH by lia.
Qed.

Lemma split_no_port_bracketed p :
  "]"%char ∉ p → ":"%char ∈ p → vsize p < npos - 2 →
  split_host ("["%char :: p ++ ["]"%char]) = OK (p, npos).
Proof.
  intros Hp Hc Hl. unfold split_host. set (str := "["%char :: _).
  assert (find "[" str = 0) as -> by done.
  assert (find "]" str = vsize p + 1) as ->.
  { unfold str. rewrite <-vsize_bracket. apply (find_first "]" ("["%char :: p)). set_solver. }
  assert (vsize str = vsize p + 2) as Hs.
  { unfold str, vsize. simpl. rewrite length_app. simpl. lia. }
  assert (rfind ":" str <? vsize p + 1 = true) as ->.
  { unfold str. change ("["%char :: p ++ ["]"%char]) with (("["%char :: p) ++ ["]"%char]).
    rewrite rfind_app_not by (rewrite ?vsize_bracket; set_solver || lia).
    destruct (rfind_range ":" ("["%char :: p)) as [E|]; [|rewrite vsize_bracket in *; lia].
    apply rfind_npos in E; [set_solver | rewrite vsize_bracket; lia]. }
  cbn [negb Z.eqb]. pose proof (vsize_nonneg p).
  destruct (Z.eqb_spec (vsize p + 1) npos); [lia|].
  rewrite Hs. destruct (Z.eqb_spec (vsize p + 2) (vsize p + 1 + 1)); [cbn [negb]|lia].
  f_equal. f_equal. unfold substr. rewrite Hs. unfold str. simpl.
  replace (Z.to_nat _) with (length p); [apply take_app_length | unfold vsize in *; lia].
Qed.

#[local] Opaque Parse.dec substr find rfind.

(** Printing a host and parsing the text back gives an equal host: for every
    host name that is not empty and has no bracket, IPv6 addresses included, with a port
    in 1..65535 (a unix socket path, which is printed without its port, must have the
    default port). *)
Theorem initialize_toString_roundtrip h :
  printable h →
  ∃ h', initialize (toString h) = OK h' ∧ eqb h' h = true.
Proof.
  intros (Hne & Ho & Hc & Hl & Hport & Hsock).
  assert (∀ q, port (mkHostAndPort (_host h) q) = port h →
            eqb (mkHostAndPort (_host h) q) h = true) as Heq.
  { intros q Hq. apply eqb_key. unfold key. by rewrite Hq. }
  assert (port (mkHostAndPort (_host h) (port h)) = port h) as Hpp.
  { unfold port at 1, hasPort. simpl. destruct (Z.leb_spec 0 (port h)); [done|lia]. }
  assert (npos = 18446744073709551615) as Hnp by done.
  pose proof (dec_no_delim (port h) "]" ltac:(lia) ltac:(done)) as Hd1.
  pose proof (dec_no_delim (port h) ":" ltac:(lia) ltac:(done)) as Hd2.
  pose proof (dec_no_delim (port h) "[" ltac:(lia) ltac:(done)) as Hd3.
  unfold toString, append, initialize.
  destruct (Z.eqb_spec (find "/" (_host h)) npos) as [Hs|Hs];
    destruct (Z.eqb_spec (find ":" (_host h)) npos) as [Hco|Hco];
    rewrite find_npos in Hs, Hco by lia; cbn [negb app].
  - rewrite (split_plain _ _ Ho Hc Hco Hd3 Hd1 Hd2) by lia.
    cbn [mbind StatusWith_bind]. rewrite bool_decide_false by done.
    rewrite parse_port_dec by lia. eauto.
  - rewrite <-app_assoc. cbn [app]. rewrite (split_bracketed _ _ Hc Hd1 Hd2) by lia.
    cbn [mbind StatusWith_bind].
    rewrite bool_decide_false by done. rewrite parse_port_bracketed by lia. eauto.
  - apply dec_stable in Hs. rewrite app_nil_r, (split_no_port_plain _ Ho Hc Hco) by lia. simpl.
    rewrite bool_decide_false by done. simpl. eexists. split; [done|].
    apply Heq. by rewrite (Hsock Hs).
  - apply dec_stable in Hs, Hco.
    rewrite app_nil_r, (split_no_port_bracketed _ Hc Hco) by lia. simpl.
    rewrite bool_decide_false by done. simpl. eexists. split; [done|].
    apply Heq. by rewrite (Hsock Hs).
Qed.
Lemma initialize_toString_roundtrip_witness :
  ∃ h', initialize (toString (mkHostAndPort (String.list_ascii_of_string "::1") 27018)) = OK h'
        ∧ eqb h' (mkHostAndPort (String.list_ascii_of_string "::1") 27018) = true.
Proof.
  apply initialize_toString_roundtrip. unfold printable. simpl.
  split_and!; try done; try (apply (bool_decide_eq_true_1 _); vm_compute; reflexivity).
Defined.

(** A parsed host is well formed: a non-empty name, and a port that is absent
    or in range. *)
Lemma initialize_wf s h :
  initialize s = OK h → _host h ≠ [] ∧ (_port h = -1 ∨ 1 ≤ _port h ≤ 65535).
Proof.
  unfold initialize. destruct (split_host s) as [[hp cp]|]; simpl; [|done].
  case_bool_decide; [done|]. unfold parse_port.
  destruct (negb (cp =? npos)); simpl; [|intros [= <-]; auto].
  destruct (Parse.parseNumberFromStringWithBase _ _ _) as [q|]; simpl; [|done].
  destruct ((q <=? 0) || (65535 <? q)) eqn:E; simpl; [done|].
  intros [= <-]. simpl. split; [done | right; lia].
Qed.

(** A bracketed host name with a second opening bracket is accepted, but its
    printed form is not. *)
Lemma second_bracket_not_roundtrip :
  ∃ h, initialize (String.list_ascii_of_string "[a[b]:1") = OK h ∧
       initialize (toString h) = Err FailedToParse.
Proof.
  exists (mkHostAndPort (String.list_ascii_of_string "a[b") 1).
  split; vm_compute; reflexivity.
Qed.
End HP.
