(* ===== verification/ReplTag.v ===== *)
(** * Replica set tags (db/repl/repl_set_tag.cpp)

    A tag is a pair of indices into the table of keys and values of a
    [ReplSetTagConfig].  A [ReplSetTagPattern] asks for a number of distinct
    values of each of its keys; a [ReplSetTagMatch] accumulates the tags of the
    members that acknowledged a write and decides when the pattern is met. *)
From S2P Require Import Prelude ParseNumber.

Record ReplSetTag := mkTag { _keyIndex : Z; _valueIndex : Z }.
#[export] Instance ReplSetTag_eq_dec : EqDecision ReplSetTag.
Proof. solve_decision. Defined.

Record TagCountConstraint := mkConstraint { tc_keyIndex : Z; _minCount : Z }.
Abbreviation ReplSetTagPattern := (list TagCountConstraint).

Record BoundTagValue := mkBound { constraint : TagCountConstraint; boundValues : list Z }.
#[export] Instance BoundTagValue_eta : Eta BoundTagValue :=
  λ b, mkBound (constraint b) (boundValues b).
Abbreviation ReplSetTagMatch := (list BoundTagValue).

(** [_tagData]: each key with its values, in order of registration. *)
Abbreviation ReplSetTagConfig := (list (chars * list chars)).

Module Tag.
Definition isValid (t : ReplSetTag) : bool := 0 <=? _keyIndex t.
Definition eqb (a b : ReplSetTag) : bool :=
  (_keyIndex a =? _keyIndex b) && (_valueIndex a =? _valueIndex b).

(** ** Patterns *)
Fixpoint addTagCountConstraint (keyIndex minCount : Z) (p : ReplSetTagPattern)
    : ReplSetTagPattern :=
  match p with
  | [] => [mkConstraint keyIndex minCount]
  | c :: p' =>
      if keyIndex =? tc_keyIndex c then
        if _minCount c <? minCount then mkConstraint keyIndex minCount :: p' else c :: p'
      else c :: addTagCountConstraint keyIndex minCount p'
  end.

(** ** Matching *)
Definition make_match (pattern : ReplSetTagPattern) : ReplSetTagMatch :=
  map (λ c, mkBound c []) pattern.
Definition bound_isSatisfied (b : BoundTagValue) : bool :=
  _minCount (constraint b) <=? i32 (vsize (boundValues b)).
Definition isSatisfied (m : ReplSetTagMatch) : bool := forallb bound_isSatisfied m.
Fixpoint bind_tag (tag : ReplSetTag) (m : ReplSetTagMatch) : ReplSetTagMatch :=
  match m with
  | [] => []
  | b :: m' =>
      if _keyIndex tag =? tc_keyIndex (constraint b) then
        (if bool_decide (_valueIndex tag ∈ boundValues b) then b
         else b <| boundValues := boundValues b ++ [_valueIndex tag] |>) :: m'
      else b :: bind_tag tag m'
  end.
Definition update (m : ReplSetTagMatch) (tag : ReplSetTag) : bool * ReplSetTagMatch :=
  let m' := bind_tag tag m in (isSatisfied m', m').

(** ** The tag table *)
Fixpoint find_index_or_size (p : chars * list chars → bool) (d : ReplSetTagConfig) : Z :=
  match d with
  | [] => 0
  | e :: d' => if p e then 0 else 1 + find_index_or_size p d'
  end.
(** Returns the size of the table when the key is not there. *)
Definition _findKeyIndex (d : ReplSetTagConfig) (key : chars) : Z :=
  find_index_or_size (λ e, bool_decide (e.1 = key)) d.

Definition makeTag (d : ReplSetTagConfig) (key value : chars)
    : outcome (ReplSetTag * ReplSetTagConfig) :=
  let keyIndex := _findKeyIndex d key in
  let d := if keyIndex =? vsize d then d ++ [(key, [])] else d in
  '(k, values) ← vat 110 d keyIndex;
  let valueIndex := index_where (λ v, bool_decide (v = value)) values in
  if 0 <=? valueIndex then Ret (mkTag keyIndex valueIndex, d)
  else
    let values := values ++ [value] in
    Ret (mkTag keyIndex (vsize values - 1), vset keyIndex (k, values) d).

Definition findTag (d : ReplSetTagConfig) (key value : chars) : outcome ReplSetTag :=
  let keyIndex := _findKeyIndex d key in
  if keyIndex =? vsize d then Ret (mkTag (-1) (-1))
  else
    '(_, values) ← vat 124 d keyIndex;
    let valueIndex := index_where (λ v, bool_decide (v = value)) values in
    if 0 <=? valueIndex then Ret (mkTag keyIndex valueIndex) else Ret (mkTag (-1) (-1)).

Definition addTagCountConstraintToPattern (d : ReplSetTagConfig) (pattern : ReplSetTagPattern)
    (tagKey : chars) (minCount : Z) : StatusWith ReplSetTagPattern :=
  let keyIndex := _findKeyIndex d tagKey in
  if keyIndex =? vsize d then Err NoSuchKey
  else OK (addTagCountConstraint keyIndex minCount pattern).

Definition getTagKey (d : ReplSetTagConfig) (tag : ReplSetTag) : outcome chars :=
  check 160 (isValid tag && (_keyIndex tag <? vsize d)) ;;
  '(key, _) ← vat 161 d (_keyIndex tag);
  Ret key.
Definition getTagValue (d : ReplSetTagConfig) (tag : ReplSetTag) : outcome chars :=
  check 165 (isValid tag && (_keyIndex tag <? vsize d)) ;;
  '(_, values) ← vat 166 d (_keyIndex tag);
  check 167 ((0 <=? _valueIndex tag) && (_valueIndex tag <? vsize values)) ;;
  vat 168 values (_valueIndex tag).

(** ** Matching is counting distinct values

    [distinct_values k tags]: the distinct value indices of key [k] among
    [tags], the set a match accumulates for a constraint on [k]. *)
Definition distinct_values (k : Z) (tags : list ReplSetTag) : gset Z :=
  list_to_set (_valueIndex <$> filter (λ t, _keyIndex t = k) tags).
Definition meets (pattern : ReplSetTagPattern) (tags : list ReplSetTag) : Prop :=
  ∀ c, c ∈ pattern → _minCount c ≤ Z.of_nat (size (distinct_values (tc_keyIndex c) tags)).
(** The match after the tags of the acknowledging members were fed to it. *)
Definition update_all (m : ReplSetTagMatch) (tags : list ReplSetTag) : ReplSetTagMatch :=
  foldl (λ m t, (update m t).2) m tags.
(** One constraint per key, as [addTagCountConstraint] maintains. *)
Definition wf_pattern (p : ReplSetTagPattern) : Prop := NoDup (tc_keyIndex <$> p).

(** What a match has bound after the tags [tags]: for each constraint the
    distinct values of its key. *)
Definition bound_exactly (tags : list ReplSetTag) (b : BoundTagValue) : Prop :=
  NoDup (boundValues b) ∧
  list_to_set (boundValues b) = distinct_values (tc_keyIndex (constraint b)) tags.

Lemma addTagCountConstraint_keys k n p :
  (tc_keyIndex <$> addTagCountConstraint k n p) =
  if bool_decide (k ∈ tc_keyIndex <$> p) then tc_keyIndex <$> p else (tc_keyIndex <$> p) ++ [k].
Proof.
  induction p as [|c p IH]; csimpl; [done|].
  destruct (Z.eqb_spec k (tc_keyIndex c)) as [->|Hne].
  - rewrite bool_decide_true by set_solver. by destruct (_ <? _).
  - csimpl. rewrite IH. do 2 case_bool_decide; set_solver.
Qed.

Lemma addTagCountConstraint_wf k n p : wf_pattern p → wf_pattern (addTagCountConstraint k n p).
Proof.
  unfold wf_pattern. intros Hp. rewrite addTagCountConstraint_keys.
  case_bool_decide; [done|]. apply NoDup_app. split_and!; [done|set_solver|apply NoDup_singleton].
Qed.

Lemma meets_cons c p tags :
  meets (c :: p) tags ↔
  _minCount c ≤ Z.of_nat (size (distinct_values (tc_keyIndex c) tags)) ∧ meets p tags.
Proof.
  unfold meets. split.
  - intros H. split; [apply H; left | intros c' Hc'; apply H; by right].
  - intros [H1 H2] c' [->|Hc']%elem_of_cons; auto.
Qed.

(** The constraint kept for a key is the strongest one added. *)
Lemma addTagCountConstraint_meets k n p tags :
  wf_pattern p →
  meets (addTagCountConstraint k n p) tags ↔
  meets p tags ∧ n ≤ Z.of_nat (size (distinct_values k tags)).
Proof.
  unfold wf_pattern. induction p as [|c p IH]; csimpl; intros Hwf.
  { rewrite meets_cons. simpl. unfold meets. set_solver. }
  apply NoDup_cons in Hwf as [Hc Hwf].
  destruct (Z.eqb_spec k (tc_keyIndex c)) as [->|Hne].
  - destruct (Z.ltb_spec (_minCount c) n); rewrite !meets_cons; simpl; naive_solver lia.
  - rewrite !meets_cons, IH by done. tauto.
Qed.

Lemma distinct_values_snoc k tags t :
  distinct_values k (tags ++ [t]) =
  if _keyIndex t =? k then {[_valueIndex t]} ∪ distinct_values k tags
  else distinct_values k tags.
Proof.
  unfold distinct_values. rewrite filter_app, fmap_app, list_to_set_app_L.
  rewrite filter_cons, filter_nil. destruct (Z.eqb_spec (_keyIndex t) k).
  - rewrite decide_True by done. csimpl. set_solver.
  - rewrite decide_False by done. csimpl. set_solver.
Qed.

Lemma bind_tag_constraints t m : constraint <$> bind_tag t m = constraint <$> m.
Proof.
  induction m as [|b m IH]; csimpl; [done|]. destruct (_ =? _); csimpl.
  - by case_bool_decide.
  - by rewrite IH.
Qed.

(** Only the first constraint on the key of the tag is bound; with one
    constraint per key that is every constraint it concerns. *)
Lemma bind_tag_bound tags t m :
  NoDup (tc_keyIndex <$> (constraint <$> m)) →
  Forall (bound_exactly tags) m → Forall (bound_exactly (tags ++ [t])) (bind_tag t m).
Proof.
  induction m as [|b m IH]; csimpl; intros Hnd Hm; [constructor|].
  apply NoDup_cons in Hnd as [Hnin Hnd]. apply Forall_cons in Hm as [[Hb Hs] Hm].
  destruct (Z.eqb_spec (_keyIndex t) (tc_keyIndex (constraint b))) as [Hk|Hk].
  - constructor.
    + unfold bound_exactly. case_bool_decide as Hin.
      * rewrite distinct_values_snoc, Hk, Z.eqb_refl, <-Hs. set_solver.
      * csimpl. rewrite distinct_values_snoc, Hk, Z.eqb_refl, <-Hs. split.
        -- apply NoDup_app. split_and!; [done|set_solver|apply NoDup_singleton].
        -- set_solver.
    + apply Forall_forall. intros b' Hb'. rewrite Forall_forall in Hm.
      destruct (Hm b' Hb') as [Hb1 Hb2]. split; [done|]. rewrite Hb2, distinct_values_snoc.
      destruct (Z.eqb_spec (_keyIndex t) (tc_keyIndex (constraint b'))) as [Hk'|]; [|done].
      exfalso. apply Hnin. rewrite <-Hk, Hk'. apply list_elem_of_fmap. exists (constraint b').
      split; [done|]. apply list_elem_of_fmap. eauto.
  - constructor; [|by apply IH]. split; [done|].
    rewrite distinct_values_snoc. by destruct (Z.eqb_spec (_keyIndex t) (tc_keyIndex (constraint b))).
Qed.

Lemma update_all_snoc m tags t :
  update_all m (tags ++ [t]) = bind_tag t (update_all m tags).
Proof. unfold update_all. by rewrite foldl_app. Qed.

Lemma update_all_inv pattern tags :
  wf_pattern pattern →
  constraint <$> update_all (make_match pattern) tags = pattern ∧
  Forall (bound_exactly tags) (update_all (make_match pattern) tags).
Proof.
  intros Hwf. induction tags as [|t tags [IH1 IH2]] using rev_ind.
  - unfold update_all, make_match; simpl. split.
    + induction pattern as [|c p IH]; csimpl; [done|].
      f_equal. apply IH. by apply NoDup_cons in Hwf as [_ ?].
    + apply Forall_fmap, Forall_forall. intros c _. split; [constructor | done].
  - rewrite update_all_snoc. split; [by rewrite bind_tag_constraints|].
    apply bind_tag_bound; [by rewrite IH1 | done].
Qed.

Lemma bound_exactly_size tags b :
  bound_exactly tags b →
  vsize (boundValues b) = Z.of_nat (size (distinct_values (tc_keyIndex (constraint b)) tags)).
Proof.
  intros [Hnd Hs]. rewrite <-Hs. unfold vsize. by rewrite size_list_to_set.
Qed.

Lemma list_to_set_size_le (l : list Z) : (size (list_to_set l : gset Z) ≤ length l)%nat.
Proof.
  induction l as [|x l IH]; [by rewrite list_to_set_nil, size_empty|].
  rewrite list_to_set_cons, size_union_alt, size_singleton. simpl length.
  assert (size ((list_to_set l : gset Z) ∖ {[x]}) ≤ size (list_to_set l : gset Z))%nat
    by (apply subseteq_size; set_solver). lia.
Qed.

Lemma distinct_values_size k tags : (size (distinct_values k tags) ≤ length tags)%nat.
Proof.
  unfold distinct_values. etrans; [apply list_to_set_size_le|].
  rewrite length_fmap. apply length_filter.
Qed.

Lemma satisfied_iff pattern tags :
  wf_pattern pattern → vsize tags ≤ INT_MAX →
  isSatisfied (update_all (make_match pattern) tags) = true ↔ meets pattern tags.
Proof.
  intros Hwf Hlen. destruct (update_all_inv pattern tags Hwf) as [Hc Hb].
  unfold isSatisfied, meets. set (m := update_all _ _) in *. clearbody m. subst pattern.
  rewrite forallb_forall. setoid_rewrite <-list_elem_of_In.
  setoid_rewrite list_elem_of_fmap. rewrite Forall_forall in Hb.
  assert (∀ b, b ∈ m → i32 (vsize (boundValues b)) =
    Z.of_nat (size (distinct_values (tc_keyIndex (constraint b)) tags))) as Hsz.
  { intros b Hin. rewrite (bound_exactly_size tags b) by auto.
    pose proof (distinct_values_size (tc_keyIndex (constraint b)) tags).
    apply i32_small. unfold INT_MIN, vsize in *. lia. }
  unfold bound_isSatisfied. split.
  - intros H c (b & -> & Hin). specialize (H b Hin). rewrite Hsz in H by done. lia.
  - intros H b Hin. rewrite Hsz by done. apply Z.leb_le, H. eauto.
Qed.

(** The match of a write concern pattern, fed the tags of the members that
    acknowledged a write in any order and with repetitions, is satisfied exactly when
    for every key of the pattern the number of distinct values seen reaches the required
    count. *)
Theorem update_all_satisfied_iff_distinct pattern tags tags' :
  wf_pattern pattern → vsize tags ≤ INT_MAX → tags ≡ₚ tags' →
  isSatisfied (update_all (make_match pattern) tags) =
  isSatisfied (update_all (make_match pattern) tags') ∧
  (isSatisfied (update_all (make_match pattern) tags) = true ↔ meets pattern tags).
Proof.
  intros Hwf Hlen Hp. rewrite satisfied_iff by done. split; [|done].
  apply eq_bool_prop_intro. rewrite !Is_true_true, !satisfied_iff; [|done| |done..].
  - unfold meets, distinct_values. setoid_rewrite Hp. done.
  - unfold vsize. by rewrite <-Hp.
Qed.

Lemma update_all_satisfied_iff_distinct_witness :
  isSatisfied (update_all (make_match [mkConstraint 0 2])
                 [mkTag 0 1; mkTag 1 0; mkTag 0 1; mkTag 0 3]) = true.
Proof.
  apply (update_all_satisfied_iff_distinct [mkConstraint 0 2]
           _ [mkTag 0 1; mkTag 1 0; mkTag 0 1; mkTag 0 3]).
  - apply NoDup_singleton.
  - vm_compute. congruence.
  - reflexivity.
  - intros c [->|Hc]%elem_of_cons; [vm_compute; congruence|]. by apply elem_of_nil in Hc.
Defined.

(** ** The tag table *)
Definition wf_config (d : ReplSetTagConfig) : Prop :=
  NoDup d.*1 ∧ Forall (λ e, NoDup e.2) d.
(** [tag] stands for [key : value] in the table. *)
Definition names (d : ReplSetTagConfig) (tag : ReplSetTag) (key value : chars) : Prop :=
  0 ≤ _keyIndex tag ∧ 0 ≤ _valueIndex tag ∧
  ∃ values, d !! Z.to_nat (_keyIndex tag) = Some (key, values) ∧
            values !! Z.to_nat (_valueIndex tag) = Some value.

Lemma names_get d tag key value :
  names d tag key value ↔ getTagKey d tag = Ret key ∧ getTagValue d tag = Ret value.
Proof.
  destruct tag as [k v]. unfold names, getTagKey, getTagValue, isValid, check. simpl. split.
  - intros (Hk & Hv & values & Hd & Hl).
    assert (vat 161 d k = Ret (key, values)) as H1 by (by apply vat_Ret).
    assert (vat 166 d k = Ret (key, values)) as H2 by (by apply vat_Ret).
    assert (vat 168 values v = Ret value) as H3 by (by apply vat_Ret).
    apply lookup_lt_Some in Hd, Hl. unfold vsize.
    destruct (Z.leb_spec 0 k); [|lia]. destruct (Z.leb_spec 0 v); [|lia].
    destruct (Z.ltb_spec k (Z.of_nat (length d))); [|lia].
    destruct (Z.ltb_spec v (Z.of_nat (length values))); [|lia].
    simpl. rewrite H1, H2. simpl. by destruct (Z.ltb_spec v (Z.of_nat (length values))); [|lia].
  - destruct ((0 <=? k) && (k <? vsize d)); simpl; [|naive_solver].
    destruct (vat 161 d k) as [[key' vs]|] eqn:E1; simpl; [|naive_solver].
    destruct (vat 166 d k) as [[key'' vs']|] eqn:E2; simpl; [|naive_solver].
    intros [[= ->] Hv]. destruct (_ && _); simpl in Hv; [|done].
    apply vat_Ret in E1 as [? E1], E2 as [? E2], Hv as [? Hv].
    split_and!; [done..|]. exists vs'. naive_solver.
Qed.

(** The key lookup stops at the key, or at the end of the table. *)
Lemma findKeyIndex_spec d key :
  (_findKeyIndex d key = vsize d ∧ key ∉ d.*1) ∨
  (0 ≤ _findKeyIndex d key < vsize d ∧
   ∃ values, d !! Z.to_nat (_findKeyIndex d key) = Some (key, values)).
Proof.
  unfold _findKeyIndex, vsize. induction d as [|[k vs] d IH]; csimpl; [left; set_solver|].
  case_bool_decide as Hk; simplify_eq/=.
  - right. split; [lia|]. by exists vs.
  - destruct IH as [[-> Hn]|[Hr [vs' Hvs]]].
    + left. split; [lia|]. set_solver.
    + right. split; [lia|]. exists vs'. rewrite Z2Nat.inj_add by lia. done.
Qed.

(** The table a tag lookup ends up in: an entry for [key] at the key index. *)
Definition with_key (d : ReplSetTagConfig) (key : chars) : ReplSetTagConfig :=
  if _findKeyIndex d key =? vsize d then d ++ [(key, [])] else d.

Lemma with_key_spec d key :
  wf_config d →
  wf_config (with_key d key) ∧ 0 ≤ _findKeyIndex d key < vsize (with_key d key) ∧
  d `prefix_of` with_key d key ∧
  ∃ values, with_key d key !! Z.to_nat (_findKeyIndex d key) = Some (key, values).
Proof.
  intros [Hk Hv]. unfold with_key. pose proof (vsize_nonneg d).
  destruct (findKeyIndex_spec d key) as [[Hi Hn]|[Hr [vs Hvs]]].
  - rewrite Hi, Z.eqb_refl. split_and!.
    + split; [|apply Forall_app_2; [done|by repeat constructor]].
      rewrite fmap_app. apply NoDup_app. split_and!; [done|set_solver|apply NoDup_singleton].
    + done.
    + unfold vsize. rewrite length_app. simpl. lia.
    + by apply prefix_app_r.
    + exists []. unfold vsize. by rewrite Nat2Z.id, list_lookup_middle.
  - destruct (Z.eqb_spec (_findKeyIndex d key) (vsize d)); [lia|].
    split; [done|]. split; [lia|]. split; [done|by exists vs].
Qed.

Lemma findKeyIndex_unique d key i values :
  wf_config d → d !! i = Some (key, values) → _findKeyIndex d key = Z.of_nat i.
Proof.
  intros [Hk _] Hi. destruct (findKeyIndex_spec d key) as [[_ Hn]|[Hr [vs Hvs]]].
  - exfalso. apply Hn. apply list_elem_of_fmap. exists (key, values).
    split; [done|]. by eapply list_elem_of_lookup_2.
  - rewrite <-(Z2Nat.id (_findKeyIndex d key)) by lia. f_equal.
    apply (NoDup_lookup d.*1 _ _ key Hk); rewrite list_lookup_fmap.
    + by rewrite Hvs.
    + by rewrite Hi.
Qed.

(** Registering a value under the key at index [k]. *)
Lemma vset_values_wf d k key values value :
  wf_config d → 0 ≤ k → d !! Z.to_nat k = Some (key, values) → value ∉ values →
  wf_config (vset k (key, values ++ [value]) d).
Proof.
  intros [Hk Hv] Hk0 Hd Hn. unfold vset.
  destruct (Z.leb_spec 0 k); [|lia]. split.
  - rewrite list_fmap_insert. simpl. rewrite list_insert_id; [done|].
    by rewrite list_lookup_fmap, Hd.
  - apply Forall_insert; [done|]. simpl. rewrite Forall_lookup in Hv.
    specialize (Hv _ _ Hd). simpl in Hv.
    apply NoDup_app. split_and!; [done|set_solver|apply NoDup_singleton].
Qed.

Lemma names_vset d k key values value tag key' value' :
  0 ≤ k → d !! Z.to_nat k = Some (key, values) →
  names d tag key' value' → names (vset k (key, values ++ [value]) d) tag key' value'.
Proof.
  intros Hk Hd (H1 & H2 & vs & Hd' & Hl). unfold vset.
  destruct (Z.leb_spec 0 k); [|lia]. split_and!; [done..|].
  destruct (decide (_keyIndex tag = k)) as [<-|].
  - rewrite Hd in Hd'. simplify_eq. exists (vs ++ [value]). split.
    + apply list_lookup_insert_eq. by eapply lookup_lt_Some.
    + by apply lookup_app_l_Some.
  - exists vs. split; [|done]. rewrite list_lookup_insert_ne by lia. done.
Qed.

Lemma index_where_value (value : chars) values :
  (index_where (λ v, bool_decide (v = value)) values = -1 ∧ value ∉ values) ∨
  (0 ≤ index_where (λ v, bool_decide (v = value)) values ∧
   values !! Z.to_nat (index_where (λ v, bool_decide (v = value)) values) = Some value).
Proof.
  destruct (index_where_range (λ v, bool_decide (v = value)) values) as [H|H].
  - left. split; [done|]. intros Hin.
    apply index_where_none with (a := value) in H; [|done]. by rewrite bool_decide_true in H.
  - right. split; [lia|]. destruct (index_where_found (λ v, bool_decide (v = value)) values)
      as (a & Ha & Hp & _); [lia|]. apply bool_decide_eq_true in Hp as ->. done.
Qed.

Lemma findTag_names d tag key value :
  wf_config d → names d tag key value → findTag d key value = Ret tag.
Proof.
  intros Hwf (Hk & Hv & vs & Hd & Hl). unfold findTag.
  rewrite (findKeyIndex_unique d key _ vs Hwf Hd).
  pose proof (lookup_lt_Some _ _ _ Hd). unfold vsize.
  destruct (Z.eqb_spec (Z.of_nat (Z.to_nat (_keyIndex tag))) (Z.of_nat (length d))); [lia|].
  rewrite Z2Nat.id by done.
  assert (vat 124 d (_keyIndex tag) = Ret (key, vs)) as -> by (by apply vat_Ret). simpl.
  destruct (index_where_value value vs) as [[_ Hn]|[Hi Hiv]].
  { exfalso. apply Hn. by eapply list_elem_of_lookup_2. }
  destruct (Z.leb_spec 0 (index_where (λ v, bool_decide (v = value)) vs)); [|lia].
  destruct tag as [k v]. simpl in *. do 2 f_equal.
  destruct Hwf as [_ Hw]. rewrite Forall_lookup in Hw. specialize (Hw _ _ Hd). simpl in Hw.
  pose proof (NoDup_lookup vs _ _ value Hw Hiv Hl). lia.
Qed.

Lemma names_prefix d d' tag key value :
  d `prefix_of` d' → names d tag key value → names d' tag key value.
Proof.
  intros [d2 ->] (H1 & H2 & vs & Hd & Hl). split_and!; [done..|]. exists vs.
  split; [by apply lookup_app_l_Some | done].
Qed.

(** Registering a key and value in a well-formed tag table never fails, keeps
    the table well formed and returns the tag for exactly that pair: the getters give
    the key and value back, a later lookup finds the same tag, and every tag handed out
    before still denotes what it did. *)
Theorem makeTag_correct d key value :
  wf_config d →
  ∃ tag d', makeTag d key value = Ret (tag, d') ∧ wf_config d' ∧
    getTagKey d' tag = Ret key ∧ getTagValue d' tag = Ret value ∧
    findTag d' key value = Ret tag ∧
    ∀ tag' key' value', names d tag' key' value' → names d' tag' key' value'.
Proof.
  intros Hwf. destruct (with_key_spec d key Hwf) as (Hwf1 & Hr & Hpre & vs & Hvs).
  enough (∃ tag d', makeTag d key value = Ret (tag, d') ∧ wf_config d' ∧
            names d' tag key value ∧
            ∀ tag' key' value', names d tag' key' value' → names d' tag' key' value')
    as (tag & d' & Hm & Hwf' & Hn & Hold).
  { exists tag, d'. pose proof (findTag_names _ _ _ _ Hwf' Hn).
    apply names_get in Hn as [??]. by split_and!. }
  unfold makeTag. change (if _ =? vsize d then _ else d) with (with_key d key).
  assert (vat 110 (with_key d key) (_findKeyIndex d key) = Ret (key, vs)) as ->
    by (apply vat_Ret; split; [lia|done]). simpl.
  destruct (index_where_value value vs) as [[Hi Hnin]|[Hi Hiv]].
  - rewrite Hi. simpl. eexists _, _. split_and!; [done|..].
    + by apply vset_values_wf; [|lia|..].
    + unfold names, vset. simpl. destruct (Z.leb_spec 0 (_findKeyIndex d key)); [|lia].
      unfold vsize. rewrite length_app. simpl. split_and!; [lia|lia|].
      exists (vs ++ [value]). split.
      * apply list_lookup_insert_eq. by eapply lookup_lt_Some.
      * replace (Z.to_nat _) with (length vs) by lia. by apply list_lookup_middle.
    + intros t k v Ht. apply names_vset; [lia|done|]. by eapply names_prefix.
  - destruct (Z.leb_spec 0 (index_where (λ v, bool_decide (v = value)) vs)); [|lia].
    eexists _, _. split_and!; [done|done|..].
    + split_and!; simpl; [lia|lia|]. by exists vs.
    + intros t k v Ht. by eapply names_prefix.
Qed.

Lemma makeTag_correct_witness :
  ∃ tag d', makeTag [] ["a"%char] ["b"%char] = Ret (tag, d') ∧ wf_config d' ∧
    getTagKey d' tag = Ret ["a"%char] ∧ getTagValue d' tag = Ret ["b"%char] ∧
    findTag d' ["a"%char] ["b"%char] = Ret tag ∧
    ∀ tag' key' value', names [] tag' key' value' → names d' tag' key' value'.
Proof. apply makeTag_correct. split; constructor. Defined.
End Tag.
