(* ===== verification/ReplConfig.v ===== *)
(** * Replica set configuration (db/repl/member_config.cpp, repl_set_config.cpp)

    The configuration document after parsing: its members, timeouts, write
    concern modes and the majorities derived from them, with the validation that
    every installed configuration has passed.  Priorities are C++ [double]s and are
    represented by [spec_float], so NaN and the comparisons on it are those of
    IEEE 754. *)
From Stdlib Require Export SpecFloat.
From S2P Require Import Prelude ParseNumber HostAndPort ReplTag.

(** ** Doubles *)
Module Dbl.
Definition of_Z (z : Z) : spec_float := binary_normalize 53 1024 z 0 false.
Definition ltb (a b : spec_float) : bool := SFltb a b.
Definition gtb (a b : spec_float) : bool := SFltb b a.
Definition leb (a b : spec_float) : bool := SFleb a b.
Definition eqb (a b : spec_float) : bool := SFeqb a b.
Definition zero : spec_float := of_Z 0.

(** The order on the doubles other than NaN: lexicographic on class, exponent and
    mantissa. *)
Definition is_nan (a : spec_float) : bool :=
  match a with S754_nan => true | _ => false end.
Definition key (a : spec_float) : Z * Z * Z :=
  match a with
  | S754_zero _ => (0, 0, 0)
  | S754_infinity true => (-2, 0, 0)
  | S754_infinity false => (2, 0, 0)
  | S754_finite true m e => (-1, - e, Z.neg m)
  | S754_finite false m e => (1, e, Z.pos m)
  | S754_nan => (0, 0, 0)
  end.
Definition key_lt (a b : Z * Z * Z) : Prop :=
  a.1.1 < b.1.1 ∨ a.1.1 = b.1.1 ∧ (a.1.2 < b.1.2 ∨ a.1.2 = b.1.2 ∧ a.2 < b.2).

Ltac compare_cases :=
  repeat match goal with
  | |- context [(?x ?= ?y)%Z] => destruct (Z.compare_spec x y)
  | |- context [Pos.compare_cont Eq ?x ?y] =>
      change (Pos.compare_cont Eq x y) with (x ?= y)%positive
  | |- context [(?x ?= ?y)%positive] => destruct (Pos.compare_spec x y)
  end.
Lemma ltb_key a b :
  is_nan a = false → is_nan b = false → ltb a b = true ↔ key_lt (key a) (key b).
Proof.
  unfold ltb, SFltb, key_lt.
  destruct a as [[]|[]| |[] m e], b as [[]|[]| |[] m' e']; simpl; try done; intros _ _;
    compare_cases; simpl; (split; [intros Hx; try discriminate Hx; lia | intros Hx; try done; lia]).
Qed.
Lemma leb_key a b :
  is_nan a = false → is_nan b = false → leb a b = true ↔ ¬ key_lt (key b) (key a).
Proof.
  unfold leb, SFleb, key_lt.
  destruct a as [[]|[]| |[] m e], b as [[]|[]| |[] m' e']; simpl; try done; intros _ _;
    compare_cases; simpl; (split; [intros Hx; try discriminate Hx; lia | intros Hx; try done; lia]).
Qed.
Lemma nan_unordered a b :
  is_nan a = true ∨ is_nan b = true → ltb a b = false ∧ leb a b = false.
Proof.
  unfold ltb, leb, SFltb, SFleb. intros [H|H].
  - by destruct a as [| | |].
  - by destruct a as [[]|[]| |[]], b as [| | |].
Qed.
(** Without NaN, [<=] is the negation of [>]. *)
Lemma leb_ltb a b :
  is_nan a = false → is_nan b = false → leb a b = negb (ltb b a).
Proof.
  intros Ha Hb. apply eq_bool_prop_intro. rewrite !Is_true_true, negb_true_iff.
  rewrite leb_key, <-not_true_iff_false, ltb_key by done. done.
Qed.
Lemma ltb_trans a b c : ltb a b = true → ltb b c = true → ltb a c = true.
Proof.
  intros H1 H2. destruct (is_nan a) eqn:Ha, (is_nan b) eqn:Hb, (is_nan c) eqn:Hc;
    try (rewrite (proj1 (nan_unordered a b ltac:(auto))) in H1; discriminate H1);
    try (rewrite (proj1 (nan_unordered b c ltac:(auto))) in H2; discriminate H2).
  rewrite ltb_key in * by done. unfold key_lt in *. lia.
Qed.
End Dbl.

(** ** Members *)
Record MemberConfig := mkMemberConfig {
  mc_id : Z; mc_host : HostAndPort; mc_priority : spec_float; mc_votes : Z;
  mc_arbiterOnly : bool; mc_slaveDelay : Z; mc_hidden : bool; mc_buildIndexes : bool;
  mc_tags : list ReplSetTag }.
#[export] Instance MemberConfig_eta : Eta MemberConfig := λ m,
  mkMemberConfig (mc_id m) (mc_host m) (mc_priority m) (mc_votes m) (mc_arbiterOnly m)
    (mc_slaveDelay m) (mc_hidden m) (mc_buildIndexes m) (mc_tags m).

Module MC.
(** [kMaxSlaveDelay], in seconds. *)
Definition kMaxSlaveDelay : Z := 3600 * 24 * 366.
Definition isVoter (m : MemberConfig) : bool := negb (mc_votes m =? 0).
Definition getNumVotes (m : MemberConfig) : Z := if isVoter m then 1 else 0.
Definition isArbiter (m : MemberConfig) : bool := mc_arbiterOnly m.
Definition isElectable (m : MemberConfig) : bool :=
  negb (isArbiter m) && Dbl.gtb (mc_priority m) Dbl.zero.

Definition validate (m : MemberConfig) : Status :=
  if (mc_id m <? 0) || (255 <? mc_id m) then Err BadValue
  else if Dbl.ltb (mc_priority m) Dbl.zero || Dbl.gtb (mc_priority m) (Dbl.of_Z 1000)
  then Err BadValue
  else if negb (mc_votes m =? 0) && negb (mc_votes m =? 1) then Err BadValue
  else if mc_arbiterOnly m && negb (bool_decide (mc_tags m = [])) then Err BadValue
  else if mc_arbiterOnly m && negb (isVoter m) then Err BadValue
  else if (mc_slaveDelay m <? 0) || (kMaxSlaveDelay <? mc_slaveDelay m) then Err BadValue
  else if negb (Dbl.eqb (mc_priority m) Dbl.zero) then
    if mc_votes m =? 0 then Err BadValue
    else if 0 <? mc_slaveDelay m then Err BadValue
    else if mc_hidden m then Err BadValue
    else if negb (mc_buildIndexes m) then Err BadValue
    else OK tt
  else OK tt.

(** [tagKey[0]] of an empty key is the terminator. *)
Definition internal_key (key : chars) : bool := bool_decide (head key = Some "$"%char).
Fixpoint hasTags_go (tagConfig : ReplSetTagConfig) (tags : list ReplSetTag) : outcome bool :=
  match tags with
  | [] => Ret false
  | tag :: tags' =>
      tagKey ← Tag.getTagKey tagConfig tag;
      if internal_key tagKey then hasTags_go tagConfig tags' else Ret true
  end.
Definition hasTags (tagConfig : ReplSetTagConfig) (m : MemberConfig) : outcome bool :=
  hasTags_go tagConfig (mc_tags m).

(** What a validated member satisfies. *)
Definition valid (m : MemberConfig) : Prop :=
  0 ≤ mc_id m ≤ 255 ∧
  (Dbl.ltb (mc_priority m) Dbl.zero = false ∧
   Dbl.gtb (mc_priority m) (Dbl.of_Z 1000) = false) ∧
  (mc_votes m = 0 ∨ mc_votes m = 1) ∧
  (mc_arbiterOnly m = true → mc_tags m = [] ∧ isVoter m = true) ∧
  0 ≤ mc_slaveDelay m ≤ kMaxSlaveDelay ∧
  (Dbl.eqb (mc_priority m) Dbl.zero = false →
   isVoter m = true ∧ mc_slaveDelay m = 0 ∧ mc_hidden m = false ∧ mc_buildIndexes m = true).

Lemma validate_valid m : validate m = OK tt ↔ valid m.
Proof.
  unfold validate, valid, isVoter.
  destruct ((mc_id m <? 0) || _) eqn:E1; [split; [done|lia]|].
  destruct (Dbl.ltb _ _ || _) eqn:E2; [split; [done|]|].
  { intros (_ & [H1 H2] & _). by rewrite H1, H2 in E2. }
  apply orb_false_iff in E2 as [E2 E3].
  destruct (negb (mc_votes m =? 0) && _) eqn:E4; [split; [done|lia]|].
  destruct (mc_arbiterOnly m); simpl.
  - case_bool_decide as Ht; simpl; [|split; [done|naive_solver]].
    destruct (Z.eqb_spec (mc_votes m) 0) as [E5|E5]; simpl; [split; [done|naive_solver]|].
    destruct ((mc_slaveDelay m <? 0) || _) eqn:E6; [split; [done|lia]|].
    destruct (Dbl.eqb _ _); simpl; [split; [|done]; intros _; split_and!; naive_solver lia|].
    destruct (Z.ltb_spec 0 (mc_slaveDelay m)); [split; [done|naive_solver lia]|].
    destruct (mc_hidden m), (mc_buildIndexes m); simpl;
      (split; [intros Hx; try discriminate Hx; split_and!; naive_solver lia | naive_solver]).
  - destruct ((mc_slaveDelay m <? 0) || _) eqn:E6; [split; [done|lia]|].
    destruct (Dbl.eqb _ _); simpl; [split; [|done]; intros _; split_and!; naive_solver lia|].
    destruct (Z.eqb_spec (mc_votes m) 0) as [E5|E5]; simpl; [split; [done|naive_solver]|].
    destruct (Z.ltb_spec 0 (mc_slaveDelay m)); [split; [done|naive_solver lia]|].
    destruct (mc_hidden m), (mc_buildIndexes m); simpl;
      (split; [intros Hx; try discriminate Hx; split_and!; naive_solver lia | naive_solver]).
Qed.
End MC.

(** ** The configuration *)
Inductive SyncMode := SM_UNSET | SM_NONE | SM_FSYNC | SM_JOURNAL.
#[export] Instance SyncMode_eq_dec : EqDecision SyncMode.
Proof. solve_decision. Defined.
(** The fields of [WriteConcernOptions] that replication reads. *)
Record WriteConcernOptions := mkWC { wMode : chars; wNumNodes : Z; syncMode : SyncMode }.
#[export] Instance WriteConcernOptions_eta : Eta WriteConcernOptions := λ w,
  mkWC (wMode w) (wNumNodes w) (syncMode w).

Record ReplSetConfig := mkReplSetConfig {
  _isInitialized : bool; _version : Z; _replSetName : chars; _members : list MemberConfig;
  _defaultWriteConcern : WriteConcernOptions;
  _electionTimeoutPeriod : Z; _heartbeatInterval : Z; _heartbeatTimeoutPeriod : Z;
  _catchUpTimeoutPeriod : Z; _chainingAllowed : bool;
  _writeConcernMajorityJournalDefault : bool;
  _majorityVoteCount : Z; _writeMajority : Z; _totalVotingMembers : Z;
  _tagConfig : ReplSetTagConfig;
  _customWriteConcernModes : gmap chars ReplSetTagPattern;
  _protocolVersion : Z; _configServer : bool; _replicaSetId : Z;
  _connectionString_isValid : bool }.
#[export] Instance ReplSetConfig_eta : Eta ReplSetConfig := λ c,
  mkReplSetConfig (_isInitialized c) (_version c) (_replSetName c) (_members c)
    (_defaultWriteConcern c) (_electionTimeoutPeriod c) (_heartbeatInterval c)
    (_heartbeatTimeoutPeriod c) (_catchUpTimeoutPeriod c) (_chainingAllowed c)
    (_writeConcernMajorityJournalDefault c) (_majorityVoteCount c) (_writeMajority c)
    (_totalVotingMembers c) (_tagConfig c) (_customWriteConcernModes c) (_protocolVersion c)
    (_configServer c) (_replicaSetId c) (_connectionString_isValid c).

(** The server parameters that validation reads: [serverGlobalParams.clusterRole]
    being [ConfigServer], and [skipShardingConfigurationChecks]. *)
Record ServerParams := mkServerParams {
  role_is_configsvr : bool; skipShardingConfigurationChecks : bool }.

Module RSC.
Definition kMaxMembers : Z := 50.
Definition kMaxVotingMembers : Z := 7.
Definition str (s : string) : chars := String.list_ascii_of_string s.
Definition kMajority : chars := str "majority".
Definition kMajorityWriteConcernModeName : chars := str "$majority".
Definition kStepDownCheckWriteConcernModeName : chars := str "$stepDownCheck".
Definition kInternalVoterTagName : chars := str "$voter".
Definition kInternalElectableTagName : chars := str "$electable".
Definition kInternalAllTagName : chars := str "$all".

(** A default-constructed configuration. *)
Definition default : ReplSetConfig :=
  mkReplSetConfig false 1 [] [] (mkWC [] 0 SM_UNSET) 10000 2000 10 60000 true false 0 0 0 []
    ∅ 0 false 0 false.

Definition getNumMembers (c : ReplSetConfig) : Z := vsize (_members c).
Definition getMemberAt (c : ReplSetConfig) (i : Z) : outcome MemberConfig :=
  vat 629 (_members c) i.
Definition findMemberByID (c : ReplSetConfig) (id : Z) : option MemberConfig :=
  find (λ m, mc_id m =? id) (_members c).
Definition findMemberIndexByHostAndPort (c : ReplSetConfig) (hap : HostAndPort) : Z :=
  index_where (λ m, HP.eqb (mc_host m) hap) (_members c).
Definition findMemberIndexByConfigId (c : ReplSetConfig) (configId : Z) : Z :=
  index_where (λ m, mc_id m =? configId) (_members c).
Definition findMemberByHostAndPort (c : ReplSetConfig) (hap : HostAndPort)
    : outcome (option MemberConfig) :=
  let idx := findMemberIndexByHostAndPort c hap in
  if negb (idx =? -1) then m ← getMemberAt c idx; Ret (Some m) else Ret None.
(** [_members.begin()] of an empty configuration is past the end. *)
Definition isLocalHostAllowed (c : ReplSetConfig) : outcome bool :=
  m ← vat 678 (_members c) 0;
  Ret (HP.isLocalHost (mc_host m)).
Definition findTag (c : ReplSetConfig) (key value : chars) : outcome ReplSetTag :=
  Tag.findTag (_tagConfig c) key value.
Definition findCustomWriteMode (c : ReplSetConfig) (patternName : chars)
    : StatusWith ReplSetTagPattern :=
  match _customWriteConcernModes c !! patternName with
  | None => Err UnknownReplWriteConcern
  | Some p => OK p
  end.

Definition _calculateMajorities (c : ReplSetConfig) : ReplSetConfig :=
  let voters := count_if MC.isVoter (_members c) in
  let arbiters := count_if MC.isArbiter (_members c) in
  let c := c <| _totalVotingMembers := voters |> in
  let c := c <| _majorityVoteCount := Z.quot voters 2 + 1 |> in
  c <| _writeMajority := Z.min (_majorityVoteCount c) (voters - arbiters) |>.

(** One of the two internal modes: [NoSuchKey] means no member has the tag, any
    other error is fatal. *)
Definition add_internal_mode (line : Z) (mode tagName : chars) (count : Z) (c : ReplSetConfig)
    : outcome ReplSetConfig :=
  match Tag.addTagCountConstraintToPattern (_tagConfig c) [] tagName count with
  | OK pattern =>
      Ret (c <| _customWriteConcernModes := <[mode := pattern]> (_customWriteConcernModes c) |>)
  | Err e => if decide (e = NoSuchKey) then Ret c else Abort line
  end.
Definition _addInternalWriteConcernModes (c : ReplSetConfig) : outcome ReplSetConfig :=
  c ← add_internal_mode 723 kMajorityWriteConcernModeName kInternalVoterTagName
        (_writeMajority c) c;
  add_internal_mode 735 kStepDownCheckWriteConcernModeName kInternalElectableTagName 2 c.

Definition _calculatePriorityRank (c : ReplSetConfig) (priority : spec_float) : Z :=
  count_if (λ mem, Dbl.gtb (mc_priority mem) priority) (_members c).
Definition getPriorityTakeoverDelay (c : ReplSetConfig) (memberIdx : Z) : outcome Z :=
  member ← getMemberAt c memberIdx;
  let priorityRank := _calculatePriorityRank c (mc_priority member) in
  Ret ((priorityRank + 1) * _electionTimeoutPeriod c).

(** ** Validation *)
Record Counts := mkCounts {
  localhostCount : Z; voterCount : Z; arbiterCount : Z; electableCount : Z }.

(** The inner loop: no other member with the same id or host. *)
Fixpoint check_distinct (i : Z) (memberI : MemberConfig) (js : list (Z * MemberConfig))
    : Status :=
  match js with
  | [] => OK tt
  | (j, memberJ) :: js' =>
      if i =? j then check_distinct i memberI js'
      else if mc_id memberI =? mc_id memberJ then Err BadValue
      else if HP.eqb (mc_host memberI) (mc_host memberJ) then Err BadValue
      else check_distinct i memberI js'
  end.

Definition count_member (m : MemberConfig) (n : Counts) : Counts :=
  mkCounts
    (if HP.isLocalHost (mc_host m) then localhostCount n + 1 else localhostCount n)
    (if MC.isVoter m then voterCount n + 1 else voterCount n)
    (if MC.isArbiter m then arbiterCount n + 1 else arbiterCount n)
    (if MC.isArbiter m then electableCount n
     else if Dbl.gtb (mc_priority m) Dbl.zero then electableCount n + 1
     else electableCount n).

Fixpoint validate_members (all : list (Z * MemberConfig)) (todo : list (Z * MemberConfig))
    (n : Counts) : StatusWith Counts :=
  match todo with
  | [] => OK n
  | (i, memberI) :: todo' =>
      MC.validate memberI ;;
      let n := count_member memberI n in
      check_distinct i memberI all ;;
      validate_members all todo' n
  end.

Fixpoint validate_config_server_members (ms : list MemberConfig) : Status :=
  match ms with
  | [] => OK tt
  | mem :: ms' =>
      if negb (mc_buildIndexes mem) then Err BadValue
      else if negb (mc_slaveDelay mem =? 0) then Err BadValue
      else validate_config_server_members ms'
  end.

Definition validate_write_concern (c : ReplSetConfig) : Status :=
  let wc := _defaultWriteConcern c in
  if bool_decide (wMode wc = []) then
    if wNumNodes wc =? 0 then Err BadValue else OK tt
  else if negb (bool_decide (kMajority = wMode wc)) &&
          negb (sw_isOK (findCustomWriteMode c (wMode wc))) then Err BadValue
  else OK tt.

Definition validate_config_server (p : ServerParams) (c : ReplSetConfig) (n : Counts)
    : Status :=
  if _configServer c then
    if _protocolVersion c =? 0 then Err BadValue
    else if 0 <? arbiterCount n then Err BadValue
    else
      validate_config_server_members (_members c) ;;
      if negb (role_is_configsvr p) && negb (skipShardingConfigurationChecks p)
      then Err BadValue
      else if negb (_writeConcernMajorityJournalDefault c) then Err BadValue
      else OK tt
  else if role_is_configsvr p then Err BadValue
  else OK tt.

Definition validate (p : ServerParams) (c : ReplSetConfig) : Status :=
  if (_version c <=? 0) || (INT_MAX <? _version c) then Err BadValue
  else if bool_decide (_replSetName c = []) then Err BadValue
  else if _heartbeatInterval c <? 0 then Err BadValue
  else if (kMaxMembers <? vsize (_members c)) || bool_decide (_members c = [])
  then Err BadValue
  else
    n ← validate_members (indexed (_members c)) (indexed (_members c)) (mkCounts 0 0 0 0);
    if negb (localhostCount n =? 0) && negb (localhostCount n =? vsize (_members c))
    then Err BadValue
    else if (kMaxVotingMembers <? voterCount n) || (voterCount n =? 0) then Err BadValue
    else if electableCount n =? 0 then Err BadValue
    else
      validate_write_concern c ;;
      if negb (_protocolVersion c =? 0) && negb (_protocolVersion c =? 1) then Err BadValue
      else
        validate_config_server p c n ;;
        if negb (_connectionString_isValid c) then Err BadValue else OK tt.

(** ** Satisfiability of a write concern *)
Fixpoint match_any (m : ReplSetTagMatch) (tags : list ReplSetTag) : bool * ReplSetTagMatch :=
  match tags with
  | [] => (false, m)
  | t :: tags' =>
      let '(sat, m') := Tag.update m t in
      if sat then (true, m') else match_any m' tags'
  end.
Fixpoint match_members (m : ReplSetTagMatch) (ms : list MemberConfig) : bool :=
  match ms with
  | [] => false
  | mem :: ms' =>
      let '(sat, m') := match_any m (mc_tags mem) in
      if sat then true else match_members m' ms'
  end.
Fixpoint count_down_data_bearing (nodesRemaining : Z) (ms : list MemberConfig) : bool :=
  match ms with
  | [] => false
  | mem :: ms' =>
      if negb (MC.isArbiter mem) then
        if nodesRemaining - 1 <=? 0 then true
        else count_down_data_bearing (nodesRemaining - 1) ms'
      else count_down_data_bearing nodesRemaining ms'
  end.
Definition checkIfWriteConcernCanBeSatisfied (c : ReplSetConfig) (wc : WriteConcernOptions)
    : Status :=
  if negb (bool_decide (wMode wc = [])) && negb (bool_decide (wMode wc = kMajority)) then
    pattern ← findCustomWriteMode c (wMode wc);
    if match_members (Tag.make_match pattern) (_members c) then OK tt
    else Err CannotSatisfyWriteConcern
  else if count_down_data_bearing (wNumNodes wc) (_members c) then OK tt
  else Err CannotSatisfyWriteConcern.

(** ** Lemmas *)
Section status.
Context {A B : Type}.
Lemma sw_bind_OK (m : StatusWith A) (f : A → StatusWith B) b :
  (m ≫= f) = OK b ↔ ∃ a, m = OK a ∧ f a = OK b.
Proof. destruct m; simpl; naive_solver. Qed.
Lemma sw_then_OK (m : Status) (k : StatusWith B) b :
  (m ;; k) = OK b ↔ m = OK tt ∧ k = OK b.
Proof. destruct m as [[]|]; simpl; naive_solver. Qed.
Lemma if_err_OK (c : bool) e (k : StatusWith B) b :
  (if c then Err e else k) = OK b ↔ c = false ∧ k = OK b.
Proof. destruct c; naive_solver. Qed.
End status.


(** The counters after the loop count what their names say. *)
Lemma validate_members_counts all l n n' :
  validate_members all l n = OK n' →
  localhostCount n' = localhostCount n + count_if (λ m, HP.isLocalHost (mc_host m)) l.*2 ∧
  voterCount n' = voterCount n + count_if MC.isVoter l.*2 ∧
  arbiterCount n' = arbiterCount n + count_if MC.isArbiter l.*2 ∧
  electableCount n' = electableCount n + count_if MC.isElectable l.*2.
Proof.
  revert n. induction l as [|[i m] l IH]; intros n; csimpl.
  { intros [= <-]. unfold count_if, vsize. simpl. lia. }
  rewrite !sw_then_OK. intros (_ & _ & H). apply IH in H as (-> & -> & -> & ->).
  rewrite !count_if_cons. unfold count_member, MC.isElectable. simpl.
  destruct (HP.isLocalHost _), (MC.isVoter m), (MC.isArbiter m), (Dbl.gtb _ _); simpl; lia.
Qed.

Lemma validate_members_OK all l n :
  (∃ n', validate_members all l n = OK n') ↔
  Forall (λ im, MC.valid im.2 ∧ check_distinct im.1 im.2 all = OK tt) l.
Proof.
  revert n. induction l as [|[i m] l IH]; intros n; csimpl.
  { split; [constructor | by exists n]. }
  rewrite Forall_cons. setoid_rewrite sw_then_OK. setoid_rewrite sw_then_OK.
  rewrite <-(IH (count_member m n)), <-MC.validate_valid. simpl. naive_solver.
Qed.

Definition differ (m m' : MemberConfig) : Prop :=
  mc_id m ≠ mc_id m' ∧ HP.key (mc_host m) ≠ HP.key (mc_host m').
Lemma check_distinct_OK i m l :
  check_distinct i m l = OK tt ↔ ∀ j m', (j, m') ∈ l → i ≠ j → differ m m'.
Proof.
  induction l as [|[j m'] l IH]; simpl.
  { split; [|done]. intros _ j m' H. by apply elem_of_nil in H. }
  assert ((if i =? j then true else negb ((mc_id m =? mc_id m') || HP.eqb (mc_host m) (mc_host m')))
          = true ↔ (i ≠ j → differ m m')) as Hd.
  { destruct (Z.eqb_spec i j); [tauto|].
    rewrite negb_true_iff, orb_false_iff, Z.eqb_neq, <-not_true_iff_false, HP.eqb_key.
    unfold differ. tauto. }
  transitivity ((i ≠ j → differ m m') ∧ check_distinct i m l = OK tt).
  - rewrite <-Hd. destruct (i =? j), (mc_id m =? mc_id m'), (HP.eqb (mc_host m) (mc_host m'));
      simpl; naive_solver.
  - rewrite IH. split.
    + intros [H1 H2] j' m'' [[= -> ->]|Hin]%elem_of_cons; [done|by apply H2].
    + intros H. split; [apply H; left|]. intros j' m'' Hin. apply H. by right.
Qed.

Lemma distinct_NoDup {B} (f : MemberConfig → B) l :
  (∀ i m, (i, m) ∈ indexed l → ∀ j m', (j, m') ∈ indexed l → i ≠ j → f m ≠ f m') ↔
  NoDup (f <$> l).
Proof.
  rewrite NoDup_alt. setoid_rewrite elem_of_indexed. setoid_rewrite list_lookup_fmap.
  split.
  - intros H i j x Hi Hj. apply fmap_Some in Hi as (mi & Hi & ->).
    apply fmap_Some in Hj as (mj & Hj & Hf).
    destruct (decide (i = j)) as [|Hne]; [done|]. exfalso.
    refine (H (Z.of_nat i) mi _ (Z.of_nat j) mj _ _ Hf); rewrite ?Nat2Z.id;
      [split; [lia|done] | split; [lia|done] | lia].
  - intros H i m [Hi1 Hi2] j m' [Hj1 Hj2] Hne Hf. apply Hne.
    assert (Z.to_nat i = Z.to_nat j); [|lia].
    apply (H _ _ (f m)); [by rewrite Hi2 | by rewrite Hj2; simpl; f_equal].
Qed.

(** *** Declarative validity *)
Definition valid_config (p : ServerParams) (c : ReplSetConfig) : Prop :=
  let ms := _members c in
  1 ≤ _version c ≤ INT_MAX ∧ _replSetName c ≠ [] ∧ 0 ≤ _heartbeatInterval c ∧
  1 ≤ vsize ms ≤ kMaxMembers ∧
  Forall MC.valid ms ∧ NoDup (mc_id <$> ms) ∧ NoDup ((λ m, HP.key (mc_host m)) <$> ms) ∧
  (Forall (λ m, HP.isLocalHost (mc_host m) = true) ms ∨
   Forall (λ m, HP.isLocalHost (mc_host m) = false) ms) ∧
  1 ≤ count_if MC.isVoter ms ≤ kMaxVotingMembers ∧
  (∃ m, m ∈ ms ∧ MC.isElectable m = true) ∧
  (if decide (wMode (_defaultWriteConcern c) = []) then wNumNodes (_defaultWriteConcern c) ≠ 0
   else wMode (_defaultWriteConcern c) = kMajority ∨
        is_Some (_customWriteConcernModes c !! wMode (_defaultWriteConcern c))) ∧
  (_protocolVersion c = 0 ∨ _protocolVersion c = 1) ∧
  (if _configServer c then
     _protocolVersion c = 1 ∧
     Forall (λ m, MC.isArbiter m = false ∧ mc_buildIndexes m = true ∧ mc_slaveDelay m = 0) ms ∧
     (role_is_configsvr p = true ∨ skipShardingConfigurationChecks p = true) ∧
     _writeConcernMajorityJournalDefault c = true
   else role_is_configsvr p = false) ∧
  _connectionString_isValid c = true.

Lemma validate_members_distinct ms :
  (∃ n, validate_members (indexed ms) (indexed ms) (mkCounts 0 0 0 0) = OK n) ↔
  Forall MC.valid ms ∧ NoDup (mc_id <$> ms) ∧ NoDup ((λ m, HP.key (mc_host m)) <$> ms).
Proof.
  rewrite validate_members_OK, Forall_and, <-(distinct_NoDup mc_id),
    <-(distinct_NoDup (λ m, HP.key (mc_host m))).
  assert (Forall (λ im, MC.valid im.2) (indexed ms) ↔ Forall MC.valid ms) as ->.
  { rewrite <-(indexed_snd ms) at 2. by rewrite Forall_fmap. }
  rewrite (Forall_forall (λ im, check_distinct im.1 im.2 (indexed ms) = OK ())).
  apply and_iff_compat_l. setoid_rewrite check_distinct_OK. unfold differ. split.
  - intros H. split; intros i m Him j m' Hjm Hne; by apply (H (i, m) Him j m').
  - intros [H1 H2] [i m] Him j m' Hjm Hne. simpl in *. split; [by eapply H1|by eapply H2].
Qed.


Lemma validate_config_server_members_OK ms :
  validate_config_server_members ms = OK tt ↔
  Forall (λ m, mc_buildIndexes m = true ∧ mc_slaveDelay m = 0) ms.
Proof.
  induction ms as [|m ms IH]; simpl; [split; [constructor|done]|].
  rewrite Forall_cons, <-IH, !if_err_OK. rewrite !negb_false_iff, Z.eqb_eq. tauto.
Qed.

Lemma validate_write_concern_OK c :
  validate_write_concern c = OK tt ↔
  if decide (wMode (_defaultWriteConcern c) = []) then wNumNodes (_defaultWriteConcern c) ≠ 0
  else wMode (_defaultWriteConcern c) = kMajority ∨
       is_Some (_customWriteConcernModes c !! wMode (_defaultWriteConcern c)).
Proof.
  unfold validate_write_concern, findCustomWriteMode. case_bool_decide; case_decide; try done.
  - rewrite if_err_OK, Z.eqb_neq. naive_solver.
  - rewrite if_err_OK, andb_false_iff, !negb_false_iff, bool_decide_eq_true.
    destruct (_ !! _); simpl; unfold is_Some; naive_solver.
Qed.

Lemma validate_config_server_OK p c n :
  arbiterCount n = count_if MC.isArbiter (_members c) →
  (_protocolVersion c = 0 ∨ _protocolVersion c = 1) →
  validate_config_server p c n = OK tt ↔
  if _configServer c then
     _protocolVersion c = 1 ∧
     Forall (λ m, MC.isArbiter m = false ∧ mc_buildIndexes m = true ∧ mc_slaveDelay m = 0)
       (_members c) ∧
     (role_is_configsvr p = true ∨ skipShardingConfigurationChecks p = true) ∧
     _writeConcernMajorityJournalDefault c = true
  else role_is_configsvr p = false.
Proof.
  intros Hn Hp. unfold validate_config_server. destruct (_configServer c).
  - rewrite !if_err_OK, sw_then_OK, !if_err_OK, validate_config_server_members_OK.
    rewrite (Forall_and (λ m, MC.isArbiter m = false)), <-(count_if_none MC.isArbiter).
    pose proof (count_if_nonneg MC.isArbiter (_members c)).
    rewrite andb_false_iff, !negb_false_iff, Z.ltb_ge, Z.eqb_neq. rewrite Hn. naive_solver lia.
  - rewrite if_err_OK. naive_solver.
Qed.

Definition counts_of (ms : list MemberConfig) (n : Counts) : Prop :=
  localhostCount n = count_if (λ m, HP.isLocalHost (mc_host m)) ms ∧
  voterCount n = count_if MC.isVoter ms ∧
  arbiterCount n = count_if MC.isArbiter ms ∧
  electableCount n = count_if MC.isElectable ms.

Lemma counts_localhost ms n :
  counts_of ms n →
  negb (localhostCount n =? 0) && negb (localhostCount n =? vsize ms) = false ↔
  Forall (λ m, HP.isLocalHost (mc_host m) = true) ms ∨
  Forall (λ m, HP.isLocalHost (mc_host m) = false) ms.
Proof.
  intros (-> & _). rewrite <-count_if_none, <-(count_if_all (λ m, HP.isLocalHost (mc_host m))).
  lia.
Qed.
Lemma counts_electable ms n :
  counts_of ms n → (electableCount n =? 0) = false ↔ ∃ m, m ∈ ms ∧ MC.isElectable m = true.
Proof.
  intros (_ & _ & _ & ->). rewrite Z.eqb_neq. split.
  - intros H. apply count_if_pos_inv. pose proof (count_if_nonneg MC.isElectable ms). lia.
  - intros (m & Hm & He). pose proof (count_if_pos _ _ _ Hm He). lia.
Qed.
Lemma protocol_OK v : negb (v =? 0) && negb (v =? 1) = false ↔ v = 0 ∨ v = 1.
Proof. lia. Qed.
Lemma vsize_pos {A} (l : list A) k : 1 ≤ vsize l ≤ k ↔ vsize l ≤ k ∧ l ≠ [].
Proof. unfold vsize. destruct l; simpl; split; intros; try split; try done; try lia; naive_solver lia. Qed.

Lemma validate_OK_iff p c : validate p c = OK tt ↔ valid_config p c.
Proof.
  unfold validate, valid_config. rewrite !if_err_OK, sw_bind_OK.
  rewrite !orb_false_iff, Z.leb_gt, !Z.ltb_ge, !bool_decide_eq_false.
  setoid_rewrite if_err_OK. setoid_rewrite if_err_OK. setoid_rewrite if_err_OK.
  setoid_rewrite sw_then_OK. setoid_rewrite if_err_OK. setoid_rewrite sw_then_OK.
  setoid_rewrite if_err_OK. rewrite <-validate_write_concern_OK.
  pose proof (validate_members_distinct (_members c)) as Hdist.
  assert (∀ n, validate_members (indexed (_members c)) (indexed (_members c))
     (mkCounts 0 0 0 0) = OK n → counts_of (_members c) n) as Hcounts.
  { intros n Hn. apply validate_members_counts in Hn. by rewrite indexed_snd in Hn. }
  pose proof (count_if_nonneg MC.isVoter (_members c)).
  rewrite vsize_pos. split.
  - intros (Hv & Hname & Hhb & [Hm Hm'] & n & Hn & Hl & Hvo & He & Hwc & Hpv & Hcs & Hconn & _).
    pose proof (Hcounts n Hn) as Hc. apply (counts_localhost _ _ Hc) in Hl.
    apply (counts_electable _ _ Hc) in He. destruct Hc as (_ & Ev & Ea & _).
    apply protocol_OK in Hpv. rewrite validate_config_server_OK in Hcs by done.
    apply negb_false_iff in Hconn.
    destruct (proj1 Hdist) as (? & ? & ?); [by eauto|]. split_and!; try done; lia.
  - intros (Hv & Hname & Hhb & [Hm Hm'] & Hval & Hid & Hhost & Hl & Hvo & He & Hwc & Hpv & Hcs & Hconn).
    destruct (proj2 Hdist) as [n Hn]; [done|]. pose proof (Hcounts n Hn) as Hc.
    apply (counts_localhost _ _ Hc) in Hl. apply (counts_electable _ _ Hc) in He.
    destruct Hc as (_ & Ev & Ea & _). rewrite <-validate_config_server_OK in Hcs by done.
    apply protocol_OK in Hpv.
    split_and!; try done; try lia. exists n. rewrite Hconn. split_and!; try done; lia.
Qed.

(** Validation fails with [BadValue] only. *)
Definition only_bad_value {A} (r : StatusWith A) : Prop := ∀ e, r = Err e → e = BadValue.

Lemma only_bad_value_OK {A} (a : A) : only_bad_value (OK a).
Proof. by intros e. Qed.
Lemma only_bad_value_if {A} (b : bool) (k : StatusWith A) :
  only_bad_value k → only_bad_value (if b then Err BadValue else k).
Proof. intros Hk e. destruct b; [by intros [= <-]|apply Hk]. Qed.
Lemma only_bad_value_bind {A B} (m : StatusWith A) (f : A → StatusWith B) :
  only_bad_value m → (∀ a, only_bad_value (f a)) → only_bad_value (m ≫= f).
Proof. intros Hm Hf e. destruct m; simpl; [apply Hf | intros [= <-]; by apply Hm]. Qed.
Hint Resolve only_bad_value_OK only_bad_value_if only_bad_value_bind : mongo.

Lemma member_only_bad_value m : only_bad_value (MC.validate m).
Proof. unfold MC.validate. repeat apply only_bad_value_if. case_match; auto 10 with mongo. Qed.
Lemma check_distinct_only_bad_value i m l : only_bad_value (check_distinct i m l).
Proof. induction l as [|[j m'] l IH]; simpl; [|case_match]; auto with mongo. Qed.
Lemma validate_members_only_bad_value all l n : only_bad_value (validate_members all l n).
Proof.
  revert n. induction l as [|[i m] l IH]; intros n; simpl; [auto with mongo|].
  apply only_bad_value_bind; [apply member_only_bad_value|intros _].
  apply only_bad_value_bind; [apply check_distinct_only_bad_value|auto].
Qed.
Lemma config_server_only_bad_value p c n : only_bad_value (validate_config_server p c n).
Proof.
  unfold validate_config_server. case_match; [|auto with mongo].
  do 2 apply only_bad_value_if. apply only_bad_value_bind; [|auto with mongo].
  induction (_members c); simpl; auto with mongo.
Qed.
Lemma validate_only_bad_value p c : only_bad_value (validate p c).
Proof.
  unfold validate. repeat apply only_bad_value_if.
  apply only_bad_value_bind; [apply validate_members_only_bad_value|intros n].
  repeat apply only_bad_value_if. apply only_bad_value_bind.
  - unfold validate_write_concern. case_match; auto with mongo.
  - intros _. apply only_bad_value_if.
    apply only_bad_value_bind; [apply config_server_only_bad_value|auto with mongo].
Qed.

(** C39. [ReplSetConfig::validate] accepts exactly the valid configurations: version,
    name and interval in range, 1 to 50 valid members with pairwise distinct ids and
    hosts, all of them on localhost or none, 1 to 7 voters, an electable member, a
    default write concern that exists, protocol version 0 or 1, and the additional rules
    of config servers; it rejects every other one with [BadValue]. *)
Theorem validate_iff_valid_config p c :
  validate p c = OK tt ∧ valid_config p c ∨ validate p c = Err BadValue ∧ ¬ valid_config p c.
Proof.
  rewrite <-validate_OK_iff. destruct (validate p c) as [[]|e] eqn:E; [by left|right].
  apply (validate_only_bad_value p c) in E as ->. done.
Qed.

(** ** Majorities *)
Definition isDataVoter (m : MemberConfig) : bool := MC.isVoter m && negb (MC.isArbiter m).


Lemma voters_minus_arbiters ms :
  Forall MC.valid ms →
  count_if MC.isVoter ms - count_if MC.isArbiter ms = count_if isDataVoter ms.
Proof.
  intros Hv. rewrite Forall_forall in Hv. rewrite (count_if_split MC.isVoter MC.isArbiter).
  assert (count_if (λ a, MC.isVoter a && MC.isArbiter a) ms = count_if MC.isArbiter ms) as ->.
  { apply count_if_ext. intros a Ha. destruct (MC.isArbiter a) eqn:E; [|apply andb_false_r].
    destruct (Hv a Ha) as (_ & _ & _ & H & _). by destruct (H E) as [_ ->]. }
  unfold isDataVoter. lia.
Qed.

(** The derived fields are what [_calculateMajorities] computes. *)
Definition majorities_set (c : ReplSetConfig) : Prop :=
  _totalVotingMembers c = count_if MC.isVoter (_members c) ∧
  _majorityVoteCount c = _totalVotingMembers c / 2 + 1 ∧
  _writeMajority c =
    Z.min (_majorityVoteCount c) (_totalVotingMembers c - count_if MC.isArbiter (_members c)).

Lemma calculateMajorities_set c : majorities_set (_calculateMajorities c).
Proof.
  unfold majorities_set, _calculateMajorities. simpl.
  rewrite Z.quot_div_nonneg; [done|apply count_if_nonneg|lia].
Qed.

Lemma electable_is_data_voter m :
  MC.valid m → MC.isElectable m = true → isDataVoter m = true.
Proof.
  intros (_ & _ & _ & _ & _ & H) He. unfold MC.isElectable, isDataVoter in *.
  apply andb_true_iff in He as [-> Hp]. rewrite andb_true_r.
  destruct (Dbl.eqb (mc_priority m) Dbl.zero) eqn:E; [|by apply H].
  exfalso. revert Hp E. unfold Dbl.gtb, Dbl.eqb, SFltb, SFeqb.
  by destruct (mc_priority m) as [[]|[]| |[] ? ?].
Qed.

Lemma majority_bounds p c :
  valid_config p c → majorities_set c →
  let voters := count_if MC.isVoter (_members c) in
  voters < 2 * _majorityVoteCount c ∧ 1 ≤ _majorityVoteCount c ≤ voters ∧
  1 ≤ _writeMajority c ≤ _majorityVoteCount c ∧
  _writeMajority c ≤ count_if isDataVoter (_members c).
Proof.
  intros (_ & _ & _ & _ & Hval & _ & _ & _ & Hvo & (m & Hm & He) & _) (Ht & Hmaj & Hwm).
  rewrite Ht in *. rewrite voters_minus_arbiters in Hwm by done.
  rewrite Forall_forall in Hval.
  pose proof (count_if_pos isDataVoter _ _ Hm (electable_is_data_voter _ (Hval _ Hm) He)).
  pose proof (Z.div_mod (count_if MC.isVoter (_members c)) 2 ltac:(lia)).
  pose proof (Z.mod_pos_bound (count_if MC.isVoter (_members c)) 2 ltac:(lia)). lia.
Qed.


(** Two sets of voters, given by position, that each reach the majority share a member. *)
Lemma majorities_share_voter c (q1 q2 : Z * MemberConfig → bool) :
  majorities_set c →
  (∀ im, q1 im = true → MC.isVoter im.2 = true) → (∀ im, q2 im = true → MC.isVoter im.2 = true) →
  _majorityVoteCount c ≤ count_if q1 (indexed (_members c)) →
  _majorityVoteCount c ≤ count_if q2 (indexed (_members c)) →
  ∃ im, im ∈ indexed (_members c) ∧ q1 im = true ∧ q2 im = true.
Proof.
  intros (Ht & Hm & _) H1 H2 Hq1 Hq2.
  destruct (decide (Exists (λ im, q1 im = true ∧ q2 im = true) (indexed (_members c)))) as [He|He].
  { apply Exists_exists in He as (im & ? & ? & ?). eauto. }
  exfalso. rewrite <-Forall_Exists_neg, Forall_forall in He.
  assert (count_if q1 (indexed (_members c)) + count_if q2 (indexed (_members c)) ≤
          count_if (λ im, MC.isVoter im.2) (indexed (_members c))).
  { apply count_if_disjoint; [naive_solver..|]. intros a Ha ??. by apply (He a Ha). }
  rewrite count_if_indexed in *.
  pose proof (Z.div_mod (_totalVotingMembers c) 2 ltac:(lia)).
  pose proof (Z.mod_pos_bound (_totalVotingMembers c) 2 ltac:(lia)). lia.
Qed.

(** C7. Election and write quorums intersect: in a configuration whose majorities were computed by
    [_calculateMajorities] and which [validate] accepts, a set of voters that reaches the vote
    majority and contains a data-bearing voter (a candidate votes for itself) shares a member with
    every set of data-bearing voters that reaches the write majority, also when most voters are
    arbiters and the write majority is therefore smaller than the vote majority. *)
Theorem election_and_write_quorums_intersect p c0 (elected written : MemberConfig → bool) :
  let c := _calculateMajorities c0 in
  validate p c = OK tt →
  (∀ m, elected m = true → MC.isVoter m = true) →
  (∀ m, written m = true → isDataVoter m = true) →
  _majorityVoteCount c ≤ count_if elected (_members c) →
  _writeMajority c ≤ count_if written (_members c) →
  (∃ m, m ∈ _members c ∧ elected m = true ∧ isDataVoter m = true) →
  ∃ m, m ∈ _members c ∧ elected m = true ∧ written m = true.
Proof.
  intros c Hval%validate_OK_iff He Hw Hce Hcw (d & Hd & Hde & Hdd).
  pose proof (calculateMajorities_set c0 : majorities_set c) as Hset.
  pose proof (majority_bounds p c Hval Hset) as (Hmaj & _ & Hwm & _).
  destruct Hval as (_ & _ & _ & _ & Hval & _). destruct Hset as (Ht & _ & Hwdef).
  rewrite Ht, voters_minus_arbiters in Hwdef by done.
  destruct (decide (Exists (λ m, elected m = true ∧ written m = true) (_members c))) as [Hx|Hx].
  { apply Exists_exists in Hx as (m & ? & ? & ?). eauto. }
  exfalso. rewrite <-Forall_Exists_neg, Forall_forall in Hx.
  assert (count_if elected (_members c) + count_if written (_members c) ≤
          count_if MC.isVoter (_members c)).
  { apply count_if_disjoint; [naive_solver| |intros a Ha ??; by apply (Hx a Ha)].
    intros a _ Hwa%Hw. by apply andb_true_iff in Hwa as [-> _]. }
  assert (count_if (λ m, elected m && isDataVoter m) (_members c) +
          count_if written (_members c) ≤ count_if isDataVoter (_members c)).
  { apply count_if_disjoint; [by intros a _ [_ ?]%andb_true_iff|naive_solver|].
    intros a Ha [? _]%andb_true_iff ?. by apply (Hx a Ha). }
  pose proof (count_if_pos (λ m, elected m && isDataVoter m) _ d Hd ltac:(cbn beta; by rewrite Hde, Hdd)).
  lia.
Qed.

(** A three-member set with an arbiter, used as a concrete instance below. *)
Definition example_member (id : Z) (arb : bool) : MemberConfig :=
  mkMemberConfig id (mkHostAndPort (str "h" ++ Parse.dec id) 27017)
    (if arb then Dbl.zero else Dbl.of_Z 1) 1 arb 0 false true [].
Definition example_base : ReplSetConfig :=
  default <| _isInitialized := true |> <| _replSetName := str "rs0" |>
    <| _members := [example_member 0 false; example_member 1 false; example_member 2 true] |>
    <| _defaultWriteConcern := mkWC [] 1 SM_UNSET |> <| _protocolVersion := 1 |>
    <| _connectionString_isValid := true |>.
Definition example_config : ReplSetConfig := _calculateMajorities example_base.
Definition example_params : ServerParams := mkServerParams false false.

Lemma example_valid : valid_config example_params example_config.
Proof. apply validate_OK_iff. vm_compute. reflexivity. Qed.
Lemma example_majorities : majorities_set example_config.
Proof. apply calculateMajorities_set. Qed.

Lemma election_and_write_quorums_intersect_witness :
  ∃ m, m ∈ _members example_config ∧ MC.isVoter m && (1 <=? mc_id m) = true ∧
       isDataVoter m = true.
Proof.
  apply (election_and_write_quorums_intersect example_params example_base).
  - vm_compute. reflexivity.
  - intros m H. by apply andb_true_iff in H as [-> _].
  - done.
  - vm_compute. congruence.
  - vm_compute. congruence.
  - exists (example_member 1 false). split; [|done]. right. left.
Defined.

(** ** Satisfiability of a write concern *)
Definition all_tags (c : ReplSetConfig) : list ReplSetTag := concat (mc_tags <$> _members c).

Lemma match_any_app m l1 l2 :
  match_any m (l1 ++ l2) =
  let '(sat, m') := match_any m l1 in if sat then (true, m') else match_any m' l2.
Proof.
  revert m. induction l1 as [|t l1 IH]; intros m; [done|]. cbn [match_any app].
  destruct (Tag.update m t) as [[] m']; [done|apply IH].
Qed.

Lemma match_members_concat m ms :
  match_members m ms = (match_any m (concat (mc_tags <$> ms))).1.
Proof.
  revert m. induction ms as [|mem ms IH]; intros m; [done|]. csimpl.
  rewrite match_any_app. destruct (match_any m (mc_tags mem)) as [[] m']; [done|apply IH].
Qed.

Lemma distinct_values_mono k l1 l2 :
  Tag.distinct_values k l1 ⊆ Tag.distinct_values k (l1 ++ l2).
Proof. unfold Tag.distinct_values. rewrite filter_app, fmap_app. set_solver. Qed.

Lemma meets_mono pattern l1 l2 : Tag.meets pattern l1 → Tag.meets pattern (l1 ++ l2).
Proof.
  intros H c Hc. etrans; [apply H, Hc|]. apply Nat2Z.inj_le, subseteq_size,
    distinct_values_mono.
Qed.

(** Stopping at the first satisfied prefix gives the answer of the whole list:
    the match only grows. *)
Lemma match_any_meets pattern done rest :
  Tag.wf_pattern pattern → vsize (done ++ rest) ≤ INT_MAX →
  (match_any (Tag.update_all (Tag.make_match pattern) done) rest).1 = true ↔
  rest ≠ [] ∧ Tag.meets pattern (done ++ rest).
Proof.
  intros Hwf. revert done. induction rest as [|t rest IH]; intros done Hlen.
  { split; [done|by intros [? _]]. }
  assert (vsize (done ++ [t]) ≤ INT_MAX) as Hlen1.
  { unfold vsize in *. rewrite !length_app in *. simpl in *. lia. }
  pose proof (Tag.satisfied_iff pattern (done ++ [t]) Hwf Hlen1) as Hs.
  cbn [match_any]. unfold Tag.update. rewrite <-Tag.update_all_snoc.
  replace (done ++ t :: rest) with ((done ++ [t]) ++ rest) in * by by rewrite <-app_assoc.
  destruct (Tag.isSatisfied _); simpl.
  - split; [|done]. intros _. split; [done|]. by apply meets_mono, Hs.
  - rewrite IH by done. split; [naive_solver|]. intros [_ Hm]. split; [|done].
    intros ->. rewrite app_nil_r in Hm. apply Hs in Hm. done.
Qed.

Lemma count_down_spec n ms :
  count_down_data_bearing n ms = true ↔
  Z.max 1 n ≤ count_if (λ m, negb (MC.isArbiter m)) ms.
Proof.
  revert n. induction ms as [|m ms IH]; intros n; cbn [count_down_data_bearing].
  { unfold count_if, vsize. simpl. split; [done|lia]. }
  rewrite count_if_cons. pose proof (count_if_nonneg (λ m, negb (MC.isArbiter m)) ms).
  destruct (MC.isArbiter m); simpl; [by rewrite IH|].
  destruct (Z.leb_spec (n - 1) 0); [split; [lia|done]|]. rewrite IH. lia.
Qed.

(** The up-front check of a write concern is exact.  A numeric (or majority)
    write concern passes iff there are enough data-bearing members (at least one); a custom
    mode passes iff the mode exists, some member has a tag, and the tags of all members
    together meet its pattern, although the code stops at the first satisfied prefix. *)
Theorem checkIfWriteConcernCanBeSatisfied_exact c wc :
  vsize (all_tags c) ≤ INT_MAX →
  (∀ name p, _customWriteConcernModes c !! name = Some p → Tag.wf_pattern p) →
  checkIfWriteConcernCanBeSatisfied c wc = OK tt ↔
  if decide (wMode wc = [] ∨ wMode wc = kMajority) then
    Z.max 1 (wNumNodes wc) ≤ count_if (λ m, negb (MC.isArbiter m)) (_members c)
  else
    ∃ pattern, _customWriteConcernModes c !! wMode wc = Some pattern ∧
               all_tags c ≠ [] ∧ Tag.meets pattern (all_tags c).
Proof.
  intros Hlen Hwf. unfold checkIfWriteConcernCanBeSatisfied, findCustomWriteMode.
  rewrite <-negb_orb, <-bool_decide_or. case_decide as Hw; simpl.
  - rewrite bool_decide_true by done. simpl. rewrite <-count_down_spec.
    destruct (count_down_data_bearing _ _); naive_solver.
  - rewrite bool_decide_false by done. simpl.
    destruct (_customWriteConcernModes c !! wMode wc) as [p|] eqn:Hp; simpl; [|naive_solver].
    rewrite match_members_concat.
    pose proof (match_any_meets p [] (all_tags c) (Hwf _ _ Hp) Hlen) as Hm.
    unfold all_tags in *. simpl in Hm. unfold Tag.update_all in Hm. simpl in Hm.
    destruct (match_any _ _).1; naive_solver.
Qed.

Definition example_tagged : ReplSetConfig :=
  example_config
    <| _members := [example_member 0 false <| mc_tags := [mkTag 0 0] |>;
                    example_member 1 false <| mc_tags := [mkTag 0 1] |>] |>
    <| _customWriteConcernModes := {[ str "multiDC" := [mkConstraint 0 2] ]} |>.

Lemma checkIfWriteConcernCanBeSatisfied_exact_witness :
  checkIfWriteConcernCanBeSatisfied example_tagged (mkWC (str "multiDC") 1 SM_UNSET) = OK tt.
Proof.
  apply checkIfWriteConcernCanBeSatisfied_exact.
  - vm_compute. congruence.
  - intros name p H. change (_customWriteConcernModes _) with
      ({[ str "multiDC" := [mkConstraint 0 2] ]} : gmap chars ReplSetTagPattern) in H.
    apply lookup_singleton_Some in H as [_ <-]. apply NoDup_singleton.
  - rewrite decide_False by (intros [H|H]; vm_compute in H; congruence).
    exists [mkConstraint 0 2]. split_and!; [by vm_compute | done |].
    intros c [->|Hc]%elem_of_cons; [vm_compute; congruence|]. by apply elem_of_nil in Hc.
Defined.
End RSC.
