(* ===== verification/ConfigChecks.v ===== *)
(** * Checks of a new replica set configuration (db/repl/repl_set_config_checks.cpp)

    What a node checks before it installs a configuration, at start-up, on replSetInitiate,
    on replSetReconfig and when a heartbeat brings one: that it is valid, that it may follow
    the current one, and that exactly one member of it is this node.  [isSelf] is the network
    probe that tells whether a host is this node; it is a parameter. *)
From S2P Require Import Prelude ParseNumber HostAndPort ReplTag ReplConfig.

Module ConfigChecks.
Implicit Types c oldConfig newConfig : ReplSetConfig.
Section checks.
Context (p : ServerParams) (isSelf : HostAndPort → bool).

Definition meConfigs newConfig : list (Z * MemberConfig) :=
  List.filter (λ im, isSelf (mc_host im.2)) (indexed (_members newConfig)).
Definition findSelfInConfig newConfig : outcome (StatusWith Z) :=
  match meConfigs newConfig with
  | [] => Ret (Err NodeNotFound)
  | [(myIndex, _)] =>
      check 84 ((0 <=? myIndex) && (myIndex <? RSC.getNumMembers newConfig)) ;;
      Ret (OK myIndex)
  | _ => Ret (Err DuplicateKey)
  end.

Definition checkElectable newConfig (configIndex : Z) : outcome Status :=
  myConfig ← RSC.getMemberAt newConfig configIndex;
  Ret (if negb (MC.isElectable myConfig) then Err NodeNotElectable else OK tt).

Definition findSelfInConfigIfElectable newConfig : outcome (StatusWith Z) :=
  result ← findSelfInConfig newConfig;
  match result with
  | OK i =>
      status ← checkElectable newConfig i;
      Ret match status with OK _ => result | Err e => Err e end
  | Err _ => Ret result
  end.

(** The inner loop of the comparison: [mNew] against the members of the old configuration. *)
Fixpoint compare_with_old (mNew : MemberConfig) (olds : list MemberConfig) : Status :=
  match olds with
  | [] => OK tt
  | mOld :: olds =>
      let idsEqual := mc_id mOld =? mc_id mNew in
      let hostsEqual := HP.eqb (mc_host mOld) (mc_host mNew) in
      if negb idsEqual && negb hostsEqual then compare_with_old mNew olds
      else if hostsEqual && negb idsEqual then Err NewReplicaSetConfigurationIncompatible
      else if negb (Bool.eqb (mc_buildIndexes mOld) (mc_buildIndexes mNew))
      then Err NewReplicaSetConfigurationIncompatible
      else if negb (Bool.eqb (MC.isArbiter mOld) (MC.isArbiter mNew))
      then Err NewReplicaSetConfigurationIncompatible
      else compare_with_old mNew olds
  end.
Fixpoint compare_members (news olds : list MemberConfig) : Status :=
  match news with
  | [] => OK tt
  | mNew :: news => compare_with_old mNew olds ;; compare_members news olds
  end.

Definition validateOldAndNewConfigsCompatible oldConfig newConfig : outcome Status :=
  check 141 (_isInitialized newConfig) ;;
  check 142 (_isInitialized oldConfig) ;;
  Ret (
    if _version newConfig <=? _version oldConfig
    then Err NewReplicaSetConfigurationIncompatible
    else if negb (bool_decide (_replSetName oldConfig = _replSetName newConfig))
    then Err NewReplicaSetConfigurationIncompatible
    else if negb (_replicaSetId oldConfig =? _replicaSetId newConfig)
    then Err NewReplicaSetConfigurationIncompatible
    else if _configServer oldConfig && negb (_configServer newConfig)
    then Err NewReplicaSetConfigurationIncompatible
    else compare_members (_members newConfig) (_members oldConfig)).

Definition validateConfigForStartUp oldConfig newConfig : outcome (StatusWith Z) :=
  match RSC.validate p newConfig with
  | Err e => Ret (Err e)
  | OK _ =>
      status ← (if _isInitialized oldConfig
                then validateOldAndNewConfigsCompatible oldConfig newConfig else Ret (OK tt));
      match status with
      | Err e => Ret (Err e)
      | OK _ => findSelfInConfig newConfig
      end
  end.

Definition validateConfigForInitiate newConfig : outcome (StatusWith Z) :=
  match RSC.validate p newConfig with
  | Err e => Ret (Err e)
  | OK _ =>
      if negb (_version newConfig =? 1) then Ret (Err NewReplicaSetConfigurationIncompatible)
      else findSelfInConfigIfElectable newConfig
  end.

Definition validateConfigForReconfig oldConfig newConfig (force : bool)
    : outcome (StatusWith Z) :=
  match RSC.validate p newConfig with
  | Err e => Ret (Err e)
  | OK _ =>
      status ← validateOldAndNewConfigsCompatible oldConfig newConfig;
      match status with
      | Err e => Ret (Err e)
      | OK _ =>
          if force then findSelfInConfig newConfig else findSelfInConfigIfElectable newConfig
      end
  end.

Definition validateConfigForHeartbeatReconfig newConfig : outcome (StatusWith Z) :=
  match RSC.validate p newConfig with
  | Err e => Ret (Err e)
  | OK _ => findSelfInConfig newConfig
  end.

(** ** Specification *)

(** [i] is a member of the configuration that is this node. *)
Definition is_me c (i : Z) : Prop :=
  ∃ m, (i, m) ∈ indexed (_members c) ∧ isSelf (mc_host m) = true.
Definition only_me c (i : Z) : Prop := is_me c i ∧ ∀ j, is_me c j → j = i.
Definition electable_at c (i : Z) : Prop :=
  ∃ m, (i, m) ∈ indexed (_members c) ∧ MC.isElectable m = true.

(** A host that stays keeps its id, and an id that stays keeps the two flags that decide what
    data the member holds. *)
Definition compatible_members (mOld mNew : MemberConfig) : Prop :=
  (HP.key (mc_host mOld) = HP.key (mc_host mNew) → mc_id mOld = mc_id mNew) ∧
  (mc_id mOld = mc_id mNew →
   mc_buildIndexes mOld = mc_buildIndexes mNew ∧ MC.isArbiter mOld = MC.isArbiter mNew).
Definition legal_successor oldConfig newConfig : Prop :=
  _version oldConfig < _version newConfig ∧
  _replSetName oldConfig = _replSetName newConfig ∧
  _replicaSetId oldConfig = _replicaSetId newConfig ∧
  (_configServer oldConfig = true → _configServer newConfig = true) ∧
  (∀ mNew mOld, mNew ∈ _members newConfig → mOld ∈ _members oldConfig →
     compatible_members mOld mNew).

(** What [validateConfigForReconfig] promises, for each of its results. *)
Definition reconfig_result oldConfig newConfig (force : bool) (r : StatusWith Z) : Prop :=
  match r with
  | OK i => RSC.valid_config p newConfig ∧ legal_successor oldConfig newConfig ∧
            only_me newConfig i ∧ (force = false → electable_at newConfig i)
  | Err BadValue => ¬ RSC.valid_config p newConfig
  | Err NewReplicaSetConfigurationIncompatible =>
      RSC.valid_config p newConfig ∧ ¬ legal_successor oldConfig newConfig
  | Err NodeNotFound =>
      RSC.valid_config p newConfig ∧ legal_successor oldConfig newConfig ∧
      ∀ i, ¬ is_me newConfig i
  | Err DuplicateKey =>
      RSC.valid_config p newConfig ∧ legal_successor oldConfig newConfig ∧
      ∃ i j, i ≠ j ∧ is_me newConfig i ∧ is_me newConfig j
  | Err NodeNotElectable =>
      RSC.valid_config p newConfig ∧ legal_successor oldConfig newConfig ∧ force = false ∧
      ∃ i, only_me newConfig i ∧ ¬ electable_at newConfig i
  | Err _ => False
  end.

(** ** Proofs *)
Lemma is_me_filter c i : is_me c i ↔ i ∈ (meConfigs c).*1.
Proof.
  unfold is_me, meConfigs. rewrite list_elem_of_fmap. split.
  - intros (m & Hin & Hs). exists (i, m). split; [done|].
    apply list_elem_of_In, List.filter_In. split; [by apply list_elem_of_In|done].
  - intros ([i' m] & -> & Hin). apply list_elem_of_In, List.filter_In in Hin as [Hin Hs].
    exists m. split; [by apply list_elem_of_In|done].
Qed.

Lemma indexed_fst_NoDup {A} (l : list A) : NoDup (indexed l).*1.
Proof.
  apply NoDup_alt. intros i j x Hi Hj. rewrite list_lookup_fmap, indexed_lookup in Hi, Hj.
  destruct (l !! i), (l !! j); simplify_eq/=. lia.
Qed.
Lemma meConfigs_NoDup c : NoDup (meConfigs c).*1.
Proof.
  unfold meConfigs. pose proof (indexed_fst_NoDup (_members c)) as Hnd.
  induction (indexed (_members c)) as [|[i m] l IH]; csimpl; [constructor|].
  rewrite fmap_cons, NoDup_cons in Hnd. destruct Hnd as [Hi Hnd].
  case_match; [|auto]. rewrite fmap_cons. constructor; [|auto]. simpl.
  rewrite list_elem_of_fmap. intros ([i' m'] & -> & Hin).
  apply list_elem_of_In, List.filter_In in Hin as [Hin _]. apply Hi.
  apply list_elem_of_fmap. exists (i', m'). split; [done|by apply list_elem_of_In].
Qed.

(** The three results of the search are told apart by how many members are this node. *)
Lemma findSelfInConfig_spec c :
  ∃ r, findSelfInConfig c = Ret r ∧
  match r with
  | OK i => only_me c i
  | Err NodeNotFound => ∀ i, ¬ is_me c i
  | Err DuplicateKey => ∃ i j, i ≠ j ∧ is_me c i ∧ is_me c j
  | Err _ => False
  end.
Proof.
  pose proof (is_me_filter c) as Hme. pose proof (meConfigs_NoDup c) as Hnd.
  unfold only_me, findSelfInConfig.
  destruct (meConfigs c) as [|[i m] [|[j m'] l]] eqn:E.
  - eexists. split; [done|]. intros i. rewrite Hme. apply not_elem_of_nil.
  - assert ((i, m) ∈ indexed (_members c)) as Hin.
    { assert ((i, m) ∈ meConfigs c) as H by (rewrite E; left).
      unfold meConfigs in H. apply list_elem_of_In, List.filter_In in H as [H _].
      by apply list_elem_of_In. }
    apply elem_of_indexed in Hin as [Hi Hl]. apply lookup_lt_Some in Hl.
    unfold RSC.getNumMembers, vsize. rewrite (proj2 (Z.leb_le 0 i)), (proj2 (Z.ltb_lt i _)) by lia.
    eexists. split; [done|]. cbn beta iota. setoid_rewrite Hme. simpl. set_solver.
  - eexists. split; [done|]. exists i, j. rewrite !Hme. simpl in *. split; [|set_solver].
    intros ->. apply NoDup_cons in Hnd as [Hnd _]. set_solver.
Qed.

Lemma checkElectable_spec c i m :
  (i, m) ∈ indexed (_members c) →
  checkElectable c i = Ret (if MC.isElectable m then OK tt else Err NodeNotElectable) ∧
  (electable_at c i ↔ MC.isElectable m = true).
Proof.
  intros Hin. pose proof Hin as [Hi Hl]%elem_of_indexed. split.
  - unfold checkElectable, RSC.getMemberAt. rewrite (proj2 (vat_Ret _ _ _ _) (conj Hi Hl)).
    simpl. by destruct (MC.isElectable m).
  - unfold electable_at. split; [|eauto]. intros (m' & [_ Hl']%elem_of_indexed & He). congruence.
Qed.

Lemma findSelfInConfigIfElectable_spec c :
  ∃ r, findSelfInConfigIfElectable c = Ret r ∧
  match r with
  | OK i => only_me c i ∧ electable_at c i
  | Err NodeNotFound => ∀ i, ¬ is_me c i
  | Err DuplicateKey => ∃ i j, i ≠ j ∧ is_me c i ∧ is_me c j
  | Err NodeNotElectable => ∃ i, only_me c i ∧ ¬ electable_at c i
  | Err _ => False
  end.
Proof.
  unfold findSelfInConfigIfElectable. destruct (findSelfInConfig_spec c) as (r & -> & Hr).
  cbn [mbind outcome_bind]. destruct r as [i|e].
  - pose proof Hr as [(m & Hin & _) _]. destruct (checkElectable_spec c i m Hin) as [-> He].
    cbn [mbind outcome_bind]. destruct (MC.isElectable m); eexists; (split; [done|]); simpl.
    + split; [done|]. by apply He.
    + exists i. split; [done|]. rewrite He. done.
  - eexists. split; [done|]. by destruct e.
Qed.

Lemma compare_with_old_spec mNew olds :
  compare_with_old mNew olds = OK tt ∧ (∀ mOld, mOld ∈ olds → compatible_members mOld mNew) ∨
  compare_with_old mNew olds = Err NewReplicaSetConfigurationIncompatible ∧
  ∃ mOld, mOld ∈ olds ∧ ¬ compatible_members mOld mNew.
Proof.
  induction olds as [|mOld olds IH]; simpl.
  { left. split; [done|]. intros ? H. by apply not_elem_of_nil in H. }
  assert (∀ b : bool, (b = true ↔ compatible_members mOld mNew) →
    (if b then compare_with_old mNew olds else Err NewReplicaSetConfigurationIncompatible) = OK tt ∧
      (∀ mOld', mOld' ∈ mOld :: olds → compatible_members mOld' mNew) ∨
    (if b then compare_with_old mNew olds else Err NewReplicaSetConfigurationIncompatible)
      = Err NewReplicaSetConfigurationIncompatible ∧
      ∃ mOld', mOld' ∈ mOld :: olds ∧ ¬ compatible_members mOld' mNew) as Hstep.
  { intros b Hb. destruct b; [|right; split; [done|]; exists mOld; split; [left|naive_solver]].
    destruct IH as [[-> H]|(-> & m & ? & ?)]; [left|right].
    - split; [done|]. intros m [->|Hm]%elem_of_cons; [by apply Hb|auto].
    - split; [done|]. exists m. split; [by right|done]. }
  pose proof (HP.eqb_key (mc_host mOld) (mc_host mNew)) as Hk.
  unfold compatible_members in Hstep at 1. clear IH.
  destruct (Z.eqb_spec (mc_id mOld) (mc_id mNew)), (HP.eqb (mc_host mOld) (mc_host mNew)); simpl.
  1,2: destruct (Bool.eqb (mc_buildIndexes _) _) eqn:Eb; simpl;
       rewrite ?eqb_true_iff, ?eqb_false_iff in Eb; [|apply (Hstep false); naive_solver];
       destruct (Bool.eqb (MC.isArbiter _) _) eqn:Ea; simpl;
       rewrite ?eqb_true_iff, ?eqb_false_iff in Ea; [|apply (Hstep false); naive_solver];
       apply (Hstep true); naive_solver.
  - apply (Hstep false). naive_solver.
  - apply (Hstep true). naive_solver.
Qed.

Lemma compare_members_spec news olds :
  compare_members news olds = OK tt ∧
    (∀ mNew mOld, mNew ∈ news → mOld ∈ olds → compatible_members mOld mNew) ∨
  compare_members news olds = Err NewReplicaSetConfigurationIncompatible ∧
    ∃ mNew mOld, mNew ∈ news ∧ mOld ∈ olds ∧ ¬ compatible_members mOld mNew.
Proof.
  induction news as [|m news IH]; simpl.
  { left. split; [done|]. intros ? ? H. by apply not_elem_of_nil in H. }
  destruct (compare_with_old_spec m olds) as [[-> H]|(-> & mOld & ? & ?)]; simpl.
  - destruct IH as [[-> HI]|(-> & m' & mOld & ? & ? & ?)]; [left|right]; (split; [done|]).
    + intros mNew mOld [->|?]%elem_of_cons; auto.
    + exists m', mOld. split_and!; [by right|done..].
  - right. split; [done|]. exists m, mOld. split_and!; [left|done..].
Qed.

Lemma validateOldAndNewConfigsCompatible_spec oldConfig newConfig :
  _isInitialized oldConfig = true → _isInitialized newConfig = true →
  validateOldAndNewConfigsCompatible oldConfig newConfig = Ret (OK tt) ∧
    legal_successor oldConfig newConfig ∨
  validateOldAndNewConfigsCompatible oldConfig newConfig
    = Ret (Err NewReplicaSetConfigurationIncompatible) ∧ ¬ legal_successor oldConfig newConfig.
Proof.
  intros Ho Hn. unfold validateOldAndNewConfigsCompatible, legal_successor. rewrite Ho, Hn.
  cbn [check mbind outcome_bind].
  destruct (Z.leb_spec (_version newConfig) (_version oldConfig)); [right; split; [done|lia]|].
  case_bool_decide; simpl; [|right; split; [done|tauto]].
  destruct (Z.eqb_spec (_replicaSetId oldConfig) (_replicaSetId newConfig)); simpl;
    [|right; split; [done|tauto]].
  destruct (_configServer oldConfig && _) eqn:Ec.
  { right. split; [done|]. apply andb_true_iff in Ec as [E1 E2%negb_true_iff].
    intros (_ & _ & _ & H' & _). by rewrite H' in E2. }
  assert (_configServer oldConfig = true → _configServer newConfig = true).
  { by destruct (_configServer oldConfig), (_configServer newConfig). }
  destruct (compare_members_spec (_members newConfig) (_members oldConfig))
    as [[-> Hm]|(-> & mN & mO & ? & ? & Hn')]; [left|right]; (split; [done|]).
  - by split_and!.
  - intros (_ & _ & _ & _ & Hm). by apply Hn', Hm.
Qed.

Lemma validateConfigForReconfig_spec oldConfig newConfig force :
  _isInitialized oldConfig = true → _isInitialized newConfig = true →
  ∃ r, validateConfigForReconfig oldConfig newConfig force = Ret r ∧
       reconfig_result oldConfig newConfig force r.
Proof.
  intros Ho Hn. unfold validateConfigForReconfig.
  pose proof (RSC.validate_OK_iff p newConfig) as Hv.
  destruct (RSC.validate p newConfig) as [[]|e] eqn:Ev.
  2: { apply RSC.validate_only_bad_value in Ev as ->. eexists. split; [done|]. simpl.
       rewrite <-Hv. done. }
  assert (RSC.valid_config p newConfig) as Hvalid by by apply Hv.
  destruct (validateOldAndNewConfigsCompatible_spec oldConfig newConfig Ho Hn) as [[-> Hl]|[-> Hl]];
    cbn [mbind outcome_bind]; [|eexists; split; [done|]; simpl; auto].
  destruct force.
  - destruct (findSelfInConfig_spec newConfig) as (r & -> & Hr). eexists. split; [done|].
    destruct r as [i|[]]; naive_solver.
  - destruct (findSelfInConfigIfElectable_spec newConfig) as (r & -> & Hr). eexists. split; [done|].
    destruct r as [i|[]]; naive_solver.
Qed.

Lemma validateConfigForStartUp_spec oldConfig newConfig :
  _isInitialized oldConfig = false → RSC.valid_config p newConfig →
  ∃ r, validateConfigForStartUp oldConfig newConfig = Ret r ∧
  match r with
  | OK i => only_me newConfig i
  | Err NodeNotFound | Err DuplicateKey => True
  | Err _ => False
  end.
Proof.
  intros Ho Hv. unfold validateConfigForStartUp. apply RSC.validate_OK_iff in Hv as ->.
  rewrite Ho. cbn [mbind outcome_bind]. destruct (findSelfInConfig_spec newConfig) as (r & -> & Hr).
  exists r. split; [done|]. by destruct r as [|[]].
Qed.
Lemma validateConfigForInitiate_spec newConfig :
  ∃ r, validateConfigForInitiate newConfig = Ret r ∧
  ∀ i, r = OK i → RSC.valid_config p newConfig ∧ _version newConfig = 1 ∧
                  only_me newConfig i ∧ electable_at newConfig i.
Proof.
  unfold validateConfigForInitiate. pose proof (RSC.validate_OK_iff p newConfig) as Hv.
  destruct (RSC.validate p newConfig) as [[]|e]; [|by eexists].
  destruct (Z.eqb_spec (_version newConfig) 1) as [E|]; simpl; [|by eexists].
  destruct (findSelfInConfigIfElectable_spec newConfig) as (r & -> & Hr). eexists. split; [done|].
  intros i ->. destruct Hr. split_and!; [by apply Hv|done..].
Qed.
Lemma validateConfigForHeartbeatReconfig_spec newConfig :
  ∃ r, validateConfigForHeartbeatReconfig newConfig = Ret r ∧
  ∀ i, r = OK i → RSC.valid_config p newConfig ∧ only_me newConfig i.
Proof.
  unfold validateConfigForHeartbeatReconfig. pose proof (RSC.validate_OK_iff p newConfig) as Hv.
  destruct (RSC.validate p newConfig) as [[]|e]; [|by eexists].
  destruct (findSelfInConfig_spec newConfig) as (r & -> & Hr). eexists. split; [done|].
  intros i ->. split; [by apply Hv|done].
Qed.

End checks.

Definition is_first (h : HostAndPort) : bool :=
  HP.eqb h (mc_host (RSC.example_member 0 false)).
Definition next_config : ReplSetConfig := RSC.example_config <| _version := 2 |>.
Lemma example_reconfig :
  validateConfigForReconfig RSC.example_params is_first RSC.example_config next_config false
    = Ret (OK 0).
Proof. vm_compute. reflexivity. Qed.
End ConfigChecks.
