(* ===== verification/Heartbeat.v ===== *)
(** * What a node knows about the other members
    (db/repl/member_heartbeat_data.cpp, heartbeat_response_action.cpp, and
    [PingStats] of topology_coordinator_impl.cpp)

    Optional fields of a heartbeat response, which the source keeps as a value and
    a "set" flag, are [option]s.  [MemberHeartbeatData] keeps the last response; its
    getters abort on an unset field, and [hb_wf] records that they never do. *)
From S2P Require Import Prelude ReplTime ParseNumber HostAndPort ReplTag ReplConfig.

Inductive MemberState :=
| RS_STARTUP | RS_PRIMARY | RS_SECONDARY | RS_RECOVERING | RS_STARTUP2 | RS_UNKNOWN
| RS_ARBITER | RS_DOWN | RS_ROLLBACK | RS_REMOVED.
#[export] Instance MemberState_eq_dec : EqDecision MemberState.
Proof. solve_decision. Defined.
Definition state_eqb (a b : MemberState) : bool := bool_decide (a = b).
Definition readable (s : MemberState) : bool := state_eqb s RS_PRIMARY || state_eqb s RS_SECONDARY.

Record ReplSetHeartbeatResponse := mkHBR {
  hr_electionTime : option Timestamp; hr_time : option Z;
  hr_appliedOpTime : option OpTime; hr_durableOpTime : option OpTime;
  hr_electable : option bool; hr_hasData : option bool;
  hr_mismatch : bool; hr_isReplSet : bool; hr_stateDisagreement : bool;
  hr_state : option MemberState; hr_configVersion : Z; hr_setName : chars; hr_hbmsg : chars;
  hr_syncingTo : HostAndPort; hr_config : option ReplSetConfig; hr_primaryId : option Z;
  hr_term : Z }.
#[export] Instance ReplSetHeartbeatResponse_eta : Eta ReplSetHeartbeatResponse := λ r,
  mkHBR (hr_electionTime r) (hr_time r) (hr_appliedOpTime r) (hr_durableOpTime r)
    (hr_electable r) (hr_hasData r) (hr_mismatch r) (hr_isReplSet r) (hr_stateDisagreement r)
    (hr_state r) (hr_configVersion r) (hr_setName r) (hr_hbmsg r) (hr_syncingTo r)
    (hr_config r) (hr_primaryId r) (hr_term r).
Definition hr_default : ReplSetHeartbeatResponse :=
  mkHBR None None None None None None false false false None (-1) [] [] HP.default None None (-1).

(** ** Round-trip statistics *)
Record PingStats := mkPing {
  ping_count : Z; ping_value : Z; _lastHeartbeatStartDate : Z; _numFailuresSinceLastStart : Z }.
#[export] Instance PingStats_eta : Eta PingStats := λ p,
  mkPing (ping_count p) (ping_value p) (_lastHeartbeatStartDate p) (_numFailuresSinceLastStart p).

Module Ping.
Definition UninitializedPing : Z := -1.
Definition default : PingStats := mkPing 0 UninitializedPing 0 INT_MAX.
Definition start (now : Z) (p : PingStats) : PingStats :=
  p <| _lastHeartbeatStartDate := now |> <| _numFailuresSinceLastStart := 0 |>.
Definition hit (millis : Z) (p : PingStats) : PingStats :=
  p <| _numFailuresSinceLastStart := INT_MAX |>
    <| ping_count := u32 (ping_count p + 1) |>
    <| ping_value := if ping_value p =? UninitializedPing then millis
                     else Z.quot (ping_value p * 4 + millis) 5 |>.
Definition miss (p : PingStats) : PingStats :=
  p <| _numFailuresSinceLastStart := i32 (_numFailuresSinceLastStart p + 1) |>.
Definition getMillis (p : PingStats) : Z :=
  if ping_value p =? UninitializedPing then 0 else ping_value p.

(** A sequence of calls on one target. *)
Inductive op := Start (now : Z) | Hit (millis : Z) | Miss.
Definition apply (p : PingStats) (o : op) : PingStats :=
  match o with
  | Start now => start now p
  | Hit millis => hit millis p
  | Miss => miss p
  end.

(** The estimate stays between the smallest and the largest round trip seen. *)
Lemma hit_average_bounds lo hi millis p :
  0 ≤ lo → lo ≤ millis ≤ hi → (ping_value p = UninitializedPing ∨ lo ≤ ping_value p ≤ hi) →
  lo ≤ ping_value (hit millis p) ≤ hi.
Proof.
  intros Hlo Hm Hp. unfold hit, UninitializedPing in *. simpl.
  destruct (Z.eqb_spec (ping_value p) (-1)); [done|].
  destruct Hp as [?|Hp]; [done|]. rewrite Z.quot_div_nonneg by lia.
  split; [apply Z.div_le_lower_bound | apply Z.div_le_upper_bound]; lia.
Qed.
End Ping.

(** ** Heartbeat data of one member *)
Record MemberHeartbeatData := mkHB {
  _health : Z; _upSince : Z; _lastHeartbeat : Z; _lastHeartbeatRecv : Z; _authIssue : bool;
  _lastResponse : ReplSetHeartbeatResponse; _updatedSinceRestart : bool }.
#[export] Instance MemberHeartbeatData_eta : Eta MemberHeartbeatData := λ d,
  mkHB (_health d) (_upSince d) (_lastHeartbeat d) (_lastHeartbeatRecv d) (_authIssue d)
    (_lastResponse d) (_updatedSinceRestart d).

Module HB.
Definition initial_response (state : MemberState) : ReplSetHeartbeatResponse :=
  hr_default <| hr_state := Some state |> <| hr_electionTime := Some TS.zero |>
    <| hr_appliedOpTime := Some OT.null |>.
(** The constructor. *)
Definition default : MemberHeartbeatData :=
  mkHB (-1) 0 0 0 false (initial_response RS_UNKNOWN) false.

Definition getState (d : MemberHeartbeatData) : MemberState :=
  option.default RS_UNKNOWN (hr_state (_lastResponse d)).
Definition getAppliedOpTime (d : MemberHeartbeatData) : OpTime :=
  option.default OT.null (hr_appliedOpTime (_lastResponse d)).
Definition getDurableOpTime (d : MemberHeartbeatData) : OpTime :=
  option.default OT.null (hr_durableOpTime (_lastResponse d)).
Definition getElectionTime (d : MemberHeartbeatData) : Timestamp :=
  option.default TS.zero (hr_electionTime (_lastResponse d)).
Definition getSyncSource (d : MemberHeartbeatData) : HostAndPort := hr_syncingTo (_lastResponse d).
Definition getConfigVersion (d : MemberHeartbeatData) : Z := hr_configVersion (_lastResponse d).
Definition getTerm (d : MemberHeartbeatData) : Z := hr_term (_lastResponse d).
Definition isUnelectable (d : MemberHeartbeatData) : bool :=
  match hr_electable (_lastResponse d) with
  | Some e => negb e
  | None => false
  end.
Definition up (d : MemberHeartbeatData) : bool := 0 <? _health d.
Definition maybeUp (d : MemberHeartbeatData) : bool := negb (_health d =? 0).
Definition restart (d : MemberHeartbeatData) : MemberHeartbeatData :=
  d <| _updatedSinceRestart := false |>.

Definition setUpValues (now : Z) (hbResponse : ReplSetHeartbeatResponse)
    (d : MemberHeartbeatData) : MemberHeartbeatData :=
  let r := hbResponse in
  let r := if bool_decide (hr_state r = None) then r <| hr_state := Some RS_UNKNOWN |> else r in
  let r := if bool_decide (hr_electionTime r = None)
           then r <| hr_electionTime := Some (getElectionTime d) |> else r in
  let r := if bool_decide (hr_appliedOpTime r = None)
           then r <| hr_appliedOpTime := Some (getAppliedOpTime d) |> else r in
  d <| _health := 1 |>
    <| _upSince := if _upSince d =? 0 then now else _upSince d |>
    <| _authIssue := false |> <| _lastHeartbeat := now |> <| _updatedSinceRestart := true |>
    <| _lastResponse := r |>.

Definition setDownValues (now : Z) (heartbeatMessage : chars) (d : MemberHeartbeatData)
    : MemberHeartbeatData :=
  d <| _health := 0 |> <| _upSince := 0 |> <| _lastHeartbeat := now |>
    <| _authIssue := false |> <| _updatedSinceRestart := true |>
    <| _lastResponse := initial_response RS_DOWN <| hr_hbmsg := heartbeatMessage |>
                          <| hr_syncingTo := HP.default |> |>.

Definition setAuthIssue (now : Z) (d : MemberHeartbeatData) : MemberHeartbeatData :=
  d <| _health := 0 |> <| _upSince := 0 |> <| _lastHeartbeat := now |>
    <| _authIssue := true |> <| _updatedSinceRestart := true |>
    <| _lastResponse := initial_response RS_UNKNOWN <| hr_hbmsg := [] |>
                          <| hr_syncingTo := HP.default |> |>.

(** ** Invariant: the fields whose getters assert are always set, and the health
    is one of its three values. *)
Definition wf (d : MemberHeartbeatData) : Prop :=
  is_Some (hr_state (_lastResponse d)) ∧ is_Some (hr_electionTime (_lastResponse d)) ∧
  is_Some (hr_appliedOpTime (_lastResponse d)) ∧
  (_health d = -1 ∨ _health d = 0 ∨ _health d = 1) ∧
  (up d = true → _authIssue d = false) ∧ (_health d = 0 → _upSince d = 0).

Lemma default_wf : wf default.
Proof. unfold wf, up. simpl. split_and!; eauto; lia. Qed.
Lemma setUpValues_wf now r d : wf d → wf (setUpValues now r d).
Proof.
  intros _. unfold wf, setUpValues, up. simpl.
  split_and!; try (by eauto); try lia; repeat case_bool_decide; simpl in *; eauto;
    by apply not_eq_None_Some.
Qed.
Lemma setDownValues_wf now msg d : wf d → wf (setDownValues now msg d).
Proof. intros _. unfold wf, up. simpl. split_and!; eauto; lia. Qed.
Lemma setAuthIssue_wf now d : wf d → wf (setAuthIssue now d).
Proof. intros _. unfold wf, up. simpl. split_and!; eauto; lia. Qed.
Lemma restart_wf d : wf d → wf (restart d).
Proof. done. Qed.
Lemma lastHeartbeatRecv_wf now d : wf d → wf (d <| _lastHeartbeatRecv := now |>).
Proof. done. Qed.
End HB.
#[export] Hint Resolve HB.default_wf HB.setUpValues_wf HB.setDownValues_wf HB.setAuthIssue_wf
  HB.restart_wf HB.lastHeartbeatRecv_wf : mongo.

(** ** Actions *)
Inductive Action :=
| NoAction | Reconfig | StartElection | StepDownSelf | StepDownRemotePrimary | PriorityTakeover.
#[export] Instance Action_eq_dec : EqDecision Action.
Proof. solve_decision. Defined.
Record HeartbeatResponseAction := mkAction {
  _action : Action; _primaryIndex : Z; _nextHeartbeatStartDate : Z }.
#[export] Instance HeartbeatResponseAction_eta : Eta HeartbeatResponseAction := λ a,
  mkAction (_action a) (_primaryIndex a) (_nextHeartbeatStartDate a).

Module HRA.
Definition makeNoAction : HeartbeatResponseAction := mkAction NoAction (-1) 0.
Definition makeReconfigAction : HeartbeatResponseAction := mkAction Reconfig (-1) 0.
Definition makePriorityTakeoverAction : HeartbeatResponseAction := mkAction PriorityTakeover (-1) 0.
Definition makeElectAction : HeartbeatResponseAction := mkAction StartElection (-1) 0.
Definition makeStepDownSelfAction (primaryIndex : Z) : HeartbeatResponseAction :=
  mkAction StepDownSelf primaryIndex 0.
Definition makeStepDownRemoteAction (primaryIndex : Z) : HeartbeatResponseAction :=
  mkAction StepDownRemotePrimary primaryIndex 0.
Definition setNextHeartbeatStartDate (when : Z) (a : HeartbeatResponseAction)
    : HeartbeatResponseAction := a <| _nextHeartbeatStartDate := when |>.
End HRA.
