(* ===== verification/Topology.v ===== *)
(** * The topology coordinator: state and electability
    (db/repl/topology_coordinator_impl.cpp)

    The coordinator keeps this node's view of the replica set: the installed
    configuration, its own index and role, the last heartbeat of every member and
    the votes it has cast.  This file has the state, and the const member functions
    that decide the member state and who may stand for election. *)
From S2P Require Import Prelude ReplTime ParseNumber HostAndPort ReplTag ReplConfig Heartbeat.

Inductive Role := follower | candidate | leader.
#[export] Instance Role_eq_dec : EqDecision Role.
Proof. solve_decision. Defined.
Definition role_eqb (a b : Role) : bool := bool_decide (a = b).

Inductive ReadCommittedSupport := kUnknown | kNo | kYes.
#[export] Instance ReadCommittedSupport_eq_dec : EqDecision ReadCommittedSupport.
Proof. solve_decision. Defined.

Record VoteLease := mkLease { lease_when : Z; lease_whoId : Z; lease_whoHostAndPort : HostAndPort }.
#[export] Instance VoteLease_eta : Eta VoteLease := λ v,
  mkLease (lease_when v) (lease_whoId v) (lease_whoHostAndPort v).
Record LastVote := mkLastVote { lv_term : Z; lv_candidateIndex : Z }.
#[export] Instance LastVote_eta : Eta LastVote := λ v,
  mkLastVote (lv_term v) (lv_candidateIndex v).
#[export] Instance LastVote_eq_dec : EqDecision LastVote.
Proof. solve_decision. Defined.

(** Process-wide settings: the constructor's [Options], the server parameters
    [skipShardingConfigurationChecks] and [priorityTakeoverFreshnessWindowSeconds],
    and the fail point [disableMaxSyncSourceLagSecs]. *)
Record Options := mkOptions {
  maxSyncSourceLagSecs : Z; clusterRole_configsvr : bool;
  opt_skipShardingConfigurationChecks : bool; priorityTakeoverFreshnessWindowSeconds : Z;
  disableMaxSyncSourceLagSecs : bool }.

Record TopologyCoordinator := mkTopo {
  _role : Role; _electionId : Z; _electionTime : Timestamp; _term : Z;
  _currentPrimaryIndex : Z; _syncSource : HostAndPort;
  _syncSourceBlacklist : gmap (chars * Z) Z; _forceSyncSourceIndex : Z; _options : Options;
  _hbmsg : chars; _hbmsgTime : Z; _selfIndex : Z; _rsConfig : ReplSetConfig;
  _hbdata : list MemberHeartbeatData; _stepDownPending : bool; _stepDownUntil : Z;
  _electionSleepUntil : Z; _maintenanceModeCalls : Z; _followerMode : MemberState;
  _pings : gmap (chars * Z) PingStats; _voteLease : VoteLease; _lastVote : LastVote;
  _storageEngineSupportsReadCommitted : ReadCommittedSupport }.
#[export] Instance TopologyCoordinator_eta : Eta TopologyCoordinator := λ t,
  mkTopo (_role t) (_electionId t) (_electionTime t) (_term t) (_currentPrimaryIndex t)
    (_syncSource t) (_syncSourceBlacklist t) (_forceSyncSourceIndex t) (_options t) (_hbmsg t)
    (_hbmsgTime t) (_selfIndex t) (_rsConfig t) (_hbdata t) (_stepDownPending t)
    (_stepDownUntil t) (_electionSleepUntil t) (_maintenanceModeCalls t) (_followerMode t)
    (_pings t) (_voteLease t) (_lastVote t) (_storageEngineSupportsReadCommitted t).

Module Topo.
Implicit Types t : TopologyCoordinator.

(** The constructor; its own assertion is [initial_startup] below. *)
Definition initial (options : Options) : TopologyCoordinator :=
  mkTopo follower 0 TS.zero OT.kUninitializedTerm (-1) HP.default ∅ (-1) options [] 0 (-1)
    RSC.default [] false 0 0 0 RS_STARTUP2 ∅ (mkLease 0 (-1) HP.default)
    (mkLastVote OT.kInitialTerm (-1)) kUnknown.

Definition getMemberAt t (i : Z) : outcome MemberConfig := RSC.getMemberAt (_rsConfig t) i.
Definition hbdata_at (line : Z) t (i : Z) : outcome MemberHeartbeatData := vat line (_hbdata t) i.
Definition _selfConfig t : outcome MemberConfig := getMemberAt t (_selfIndex t).

Definition _hasOnlyAuthErrorUpHeartbeats (hbdata : list MemberHeartbeatData) (selfIndex : Z)
    : bool :=
  let others := List.filter (λ id, negb (id.1 =? selfIndex)) (indexed hbdata) in
  if existsb (λ id, HB.up id.2) others then false
  else existsb (λ id, _authIssue id.2) others.

(** The part of [getMemberState] after the checks of the config server role. *)
Definition role_member_state t : outcome MemberState :=
  if role_eqb (_role t) leader then
    check 2274 (_currentPrimaryIndex t =? _selfIndex t) ;; Ret RS_PRIMARY
  else
    myConfig ← _selfConfig t;
    if MC.isArbiter myConfig then Ret RS_ARBITER
    else if ((0 <? _maintenanceModeCalls t) ||
             _hasOnlyAuthErrorUpHeartbeats (_hbdata t) (_selfIndex t)) &&
            state_eqb (_followerMode t) RS_SECONDARY
    then Ret RS_RECOVERING
    else Ret (_followerMode t).
Definition getMemberState t : outcome MemberState :=
  if _selfIndex t =? -1 then
    if _isInitialized (_rsConfig t) then Ret RS_REMOVED else Ret RS_STARTUP
  else if _configServer (_rsConfig t) then
    if negb (clusterRole_configsvr (_options t)) &&
       negb (opt_skipShardingConfigurationChecks (_options t))
    then Ret RS_REMOVED
    else
      check 2262 (negb (bool_decide (_storageEngineSupportsReadCommitted t = kUnknown))) ;;
      if bool_decide (_storageEngineSupportsReadCommitted t = kNo) then Ret RS_REMOVED
      else role_member_state t
  else if clusterRole_configsvr (_options t) &&
          negb (opt_skipShardingConfigurationChecks (_options t))
  then Ret RS_REMOVED
  else role_member_state t.

Definition _iAmPrimary t : outcome bool :=
  if role_eqb (_role t) leader then
    check 1469 (_currentPrimaryIndex t =? _selfIndex t) ;; Ret true
  else Ret false.

Definition _aMajoritySeemsToBeUp t : outcome bool :=
  vUp ← ofoldl (λ vUp '(itIndex, it),
          if (itIndex =? _selfIndex t) || HB.up it then
            m ← getMemberAt t itIndex; Ret (vUp + MC.getNumVotes m)
          else Ret vUp) 0 (indexed (_hbdata t));
  Ret (_totalVotingMembers (_rsConfig t) <? vUp * 2).

Definition _latestKnownOpTime t (ourLastOpApplied : OpTime) : OpTime :=
  foldl (λ latest '(itIndex, it),
    if itIndex =? _selfIndex t then latest
    else if negb (HB.up it) then latest
    else if state_eqb (HB.getState it) RS_REMOVED then latest
    else
      let optime := HB.getAppliedOpTime it in
      if OT.gtb optime latest then optime else latest)
    ourLastOpApplied (indexed (_hbdata t)).

(** [OpTime::getSecs] is a [long long], so the addition does not wrap. *)
Definition _isOpTimeCloseEnoughToLatestToElect t (otherOpTime ourLastOpApplied : OpTime) : bool :=
  let latestKnownOpTime := _latestKnownOpTime t ourLastOpApplied in
  OT.getSecs latestKnownOpTime <=? OT.getSecs otherOpTime + 10.

(** [Timestamp::getSecs] and [getInc] are [unsigned], so these additions do. *)
Definition _amIFreshEnoughForPriorityTakeover t (ourLastOpApplied : OpTime) : bool :=
  let latest := _latestKnownOpTime t ourLastOpApplied in
  if negb (ot_term ourLastOpApplied =? ot_term latest) then false
  else if negb (ts_secs (ot_ts ourLastOpApplied) =? ts_secs (ot_ts latest)) then
    ts_secs (ot_ts latest) <=?
      u32 (ts_secs (ot_ts ourLastOpApplied) +
           u32 (priorityTakeoverFreshnessWindowSeconds (_options t)))
  else ts_inc (ot_ts latest) <=? u32 (ts_inc (ot_ts ourLastOpApplied) + 1000).

Definition _findHealthyPrimaryOfEqualOrGreaterPriority t (candidateIndex : Z) : outcome Z :=
  candidate ← getMemberAt t candidateIndex;
  ofoldl (λ found '(itIndex, it),
    if negb (found =? -1) then Ret found
    else if negb (HB.up it) || negb (state_eqb (HB.getState it) RS_PRIMARY) then Ret (-1)
    else
      m ← getMemberAt t itIndex;
      if negb (itIndex =? candidateIndex) && Dbl.leb (mc_priority candidate) (mc_priority m)
      then Ret itIndex else Ret (-1)) (-1) (indexed (_hbdata t)).

(** ** Unelectable reasons, a bit mask *)
Definition CannotSeeMajority : Z := 1.
Definition NotCloseEnoughToLatestOptime : Z := 2.
Definition ArbiterIAm : Z := 4.
Definition NotSecondary : Z := 8.
Definition NoPriority : Z := 16.
Definition StepDownPeriodActive : Z := 32.
Definition NoData : Z := 64.
Definition NotInitialized : Z := 128.
Definition VotedTooRecently : Z := 256.
Definition RefusesToStand : Z := 512.
Definition NotCloseEnoughToLatestForPriorityTakeover : Z := 1024.
Definition or_if (b : bool) (flag mask : Z) : Z := if b then Z.lor mask flag else mask.

(** [VoteLease::leaseTime], in milliseconds. *)
Definition leaseTime : Z := 30000.

Definition _getUnelectableReason t (index : Z) (lastOpApplied : OpTime) : outcome Z :=
  check 2035 (negb (index =? _selfIndex t)) ;;
  memberConfig ← getMemberAt t index;
  hbData ← hbdata_at 2037 t index;
  let result := 0 in
  let result := or_if (MC.isArbiter memberConfig) ArbiterIAm result in
  let result := or_if (Dbl.leb (mc_priority memberConfig) Dbl.zero) NoPriority result in
  let result := or_if (negb (state_eqb (HB.getState hbData) RS_SECONDARY)) NotSecondary result in
  let result :=
    or_if ((_protocolVersion (_rsConfig t) =? 0) &&
           negb (_isOpTimeCloseEnoughToLatestToElect t (HB.getAppliedOpTime hbData) lastOpApplied))
      NotCloseEnoughToLatestOptime result in
  let result := or_if (HB.up hbData && HB.isUnelectable hbData) RefusesToStand result in
  check 2055 (negb (result =? 0) || MC.isElectable memberConfig) ;;
  Ret result.

Definition _getMyUnelectableReason t (now : Z) (lastApplied : OpTime) (isPriorityTakeover : bool)
    : outcome Z :=
  let result := or_if (OT.isNull lastApplied) NoData 0 in
  majority ← _aMajoritySeemsToBeUp t;
  let result := or_if (negb majority) CannotSeeMajority result in
  if _selfIndex t =? -1 then Ret (Z.lor result NotInitialized)
  else
    self ← _selfConfig t;
    let result := or_if (MC.isArbiter self) ArbiterIAm result in
    let result := or_if (Dbl.leb (mc_priority self) Dbl.zero) NoPriority result in
    let result := or_if (now <? _stepDownUntil t) StepDownPeriodActive result in
    state ← getMemberState t;
    notSecondary ←
      (if negb (state_eqb state RS_SECONDARY) then p ← _iAmPrimary t; Ret (negb p)
       else Ret false);
    let result := or_if notSecondary NotSecondary result in
    if _protocolVersion (_rsConfig t) =? 0 then
      let lease := _voteLease t in
      let result :=
        or_if (negb (lease_whoId lease =? -1) && negb (lease_whoId lease =? mc_id self) &&
               (now <=? lease_when lease + leaseTime)) VotedTooRecently result in
      Ret (or_if (negb (_isOpTimeCloseEnoughToLatestToElect t lastApplied lastApplied))
             NotCloseEnoughToLatestOptime result)
    else
      check 2099 (_protocolVersion (_rsConfig t) =? 1) ;;
      Ret (or_if (isPriorityTakeover && negb (_amIFreshEnoughForPriorityTakeover t lastApplied))
             NotCloseEnoughToLatestForPriorityTakeover result).

(** The text of a reason: one phrase per bit, in this order.  The values that are
    printed (the lease holder, dates, the window and the mask itself) are left out. *)
Definition reason_phrases : list (Z * string) :=
  [(NoData, "node has no applied oplog entries"%string);
   (VotedTooRecently, "I recently voted for "%string);
   (CannotSeeMajority, "I cannot see a majority"%string);
   (ArbiterIAm, "member is an arbiter"%string);
   (NoPriority, "member has zero priority"%string);
   (StepDownPeriodActive, "I am still waiting for stepdown period to end at "%string);
   (NotSecondary, "member is not currently a secondary"%string);
   (NotCloseEnoughToLatestOptime,
     "member is more than 10 seconds behind the most up-to-date member"%string);
   (NotCloseEnoughToLatestForPriorityTakeover,
     "member is not caught up enough to the most up-to-date member to call for priority takeover"%string);
   (NotInitialized, "node is not a member of a valid replica set configuration"%string);
   (RefusesToStand, "most recent heartbeat indicates node will not stand for election"%string)].
Definition _getUnelectableReasonString (ur : Z) : outcome (list string) :=
  check 2109 (negb (ur =? 0)) ;;
  let ss := (List.filter (λ fp, negb (Z.land ur fp.1 =? 0)) reason_phrases).*2 in
  check 2191 (negb (bool_decide (ss = []))) ;;
  Ret ss.

Definition _isMemberHigherPriority t (memberOneIndex memberTwoIndex : Z) : outcome bool :=
  if memberOneIndex =? -1 then Ret false
  else if memberTwoIndex =? -1 then Ret true
  else
    m1 ← getMemberAt t memberOneIndex;
    m2 ← getMemberAt t memberTwoIndex;
    Ret (Dbl.gtb (mc_priority m1) (mc_priority m2)).

Definition _getHighestPriorityElectableIndex t (now : Z) (lastOpApplied : OpTime) : outcome Z :=
  ofoldl (λ maxIndex '(currentIndex, _),
    reason ← (if currentIndex =? _selfIndex t
              then _getMyUnelectableReason t now lastOpApplied false
              else _getUnelectableReason t currentIndex lastOpApplied);
    if reason =? 0 then
      higher ← _isMemberHigherPriority t currentIndex maxIndex;
      Ret (if (higher : bool) then currentIndex else maxIndex)
    else Ret maxIndex) (-1) (indexed (_members (_rsConfig t))).

Definition _isElectableNodeInSingleNodeReplicaSet t : outcome bool :=
  if state_eqb (_followerMode t) RS_SECONDARY && (vsize (_members (_rsConfig t)) =? 1) &&
     (_selfIndex t =? 0) then
    self ← _selfConfig t;
    Ret (MC.isElectable self && (_maintenanceModeCalls t =? 0))
  else Ret false.

Definition checkShouldStandForElection t (now : Z) (lastOpApplied : OpTime) : outcome Status :=
  if negb (_currentPrimaryIndex t =? -1) then Ret (Err NodeNotElectable)
  else
    check 1362 (negb (role_eqb (_role t) leader)) ;;
    if role_eqb (_role t) candidate then Ret (Err NodeNotElectable)
    else
      unelectableReason ← _getMyUnelectableReason t now lastOpApplied false;
      if negb (Z.land NotCloseEnoughToLatestOptime unelectableReason =? 0) then
        _getUnelectableReasonString unelectableReason ;; Ret (Err NodeNotElectable)
      else if negb (unelectableReason =? 0) then
        _getUnelectableReasonString unelectableReason ;; Ret (Err NodeNotElectable)
      else if now <? _electionSleepUntil t then Ret (Err NodeNotElectable)
      else Ret (OK tt).

Definition _getHbmsg t (now : Z) : chars := if 120000 <? now - _hbmsgTime t then [] else _hbmsg t.

Definition getMaybeUpHostAndPorts t : outcome (list HostAndPort) :=
  ofoldl (λ upHosts '(itIndex, it),
    if itIndex =? _selfIndex t then Ret upHosts
    else if negb (HB.maybeUp it) then Ret upHosts
    else m ← getMemberAt t itIndex; Ret (upHosts ++ [mc_host m])) [] (indexed (_hbdata t)).

Definition _getTotalPings t : Z :=
  i32 (map_fold (λ _ p total, total + ping_count p) 0 (_pings t)).

Definition latestKnownOpTimeSinceHeartbeatRestart t : option OpTime :=
  foldl (λ latest '(i, peer),
    match latest with
    | None => None
    | Some latest =>
        if i =? _selfIndex t then Some latest
        else if negb (_updatedSinceRestart peer) then None
        else if negb (HB.up peer) then Some latest
        else if OT.gtb (HB.getAppliedOpTime peer) latest then Some (HB.getAppliedOpTime peer)
        else Some latest
    end) (Some (mkOpTime TS.zero 0)) (indexed (_hbdata t)).

(** ** Invariant of the coordinator

    [numMembers] bounds every index the coordinator stores; a leader is the
    current primary; the heartbeat table has one well-formed entry per member; and
    the configuration is one that [ReplSetConfig::validate] accepts, with no NaN
    priority.  The entry of this node itself is never filled in. *)
Definition numMembers t : Z := vsize (_members (_rsConfig t)).
Definition index_ok t (i : Z) : Prop := -1 ≤ i < numMembers t.
Definition follower_mode_ok (s : MemberState) : Prop :=
  s = RS_RECOVERING ∨ s = RS_ROLLBACK ∨ s = RS_SECONDARY ∨ s = RS_STARTUP2.
Definition config_ok (c : ReplSetConfig) : Prop :=
  Forall (λ m, MC.valid m ∧ Dbl.is_nan (mc_priority m) = false) (_members c) ∧
  (_protocolVersion c = 0 ∨ _protocolVersion c = 1) ∧
  (_isInitialized c = true → RSC.majorities_set c) ∧
  NoDup (mc_id <$> _members c).

Record Inv t : Prop := mkInv {
  inv_config : config_ok (_rsConfig t);
  inv_hblen : length (_hbdata t) = length (_members (_rsConfig t));
  inv_hbwf : Forall HB.wf (_hbdata t);
  inv_self : index_ok t (_selfIndex t);
  inv_primary : index_ok t (_currentPrimaryIndex t);
  inv_force : index_ok t (_forceSyncSourceIndex t);
  inv_leader : _role t = leader → _selfIndex t ≠ -1 ∧ _currentPrimaryIndex t = _selfIndex t;
  inv_candidate : _role t = candidate → _selfIndex t ≠ -1;
  inv_removed : _selfIndex t = -1 → _currentPrimaryIndex t = -1;
  inv_self_hb : _selfIndex t ≠ -1 →
    ∀ d, _hbdata t !! Z.to_nat (_selfIndex t) = Some d → HB.up d = false;
  inv_pending : _stepDownPending t = true → _role t = leader;
  inv_maintenance : 0 ≤ _maintenanceModeCalls t;
  inv_mode : follower_mode_ok (_followerMode t);
  inv_readCommitted : _configServer (_rsConfig t) = true →
    _storageEngineSupportsReadCommitted t ≠ kUnknown }.

Lemma initial_startup options : getMemberState (initial options) = Ret RS_STARTUP.
Proof. done. Qed.
Lemma initial_Inv options : Inv (initial options).
Proof.
  split; try done; unfold index_ok, numMembers; simpl.
  - split_and!; [by apply Forall_nil|by left|done|by apply NoDup_nil].
  - right; right; by right.
Qed.

Section const_functions.
Context t (HI : Inv t).

Lemma owp_member i (P : MemberConfig → Prop) :
  0 ≤ i < numMembers t →
  (∀ m, _members (_rsConfig t) !! Z.to_nat i = Some m → m ∈ _members (_rsConfig t) → P m) →
  owp (getMemberAt t i) P.
Proof.
  intros Hi HP. apply owp_vat; [done|]. intros m Hm. apply HP; [done|].
  by eapply list_elem_of_lookup_2.
Qed.
Lemma owp_hbdata line i (P : MemberHeartbeatData → Prop) :
  0 ≤ i < numMembers t →
  (∀ d, _hbdata t !! Z.to_nat i = Some d → HB.wf d → P d) → owp (hbdata_at line t i) P.
Proof.
  intros Hi HP. apply owp_vat.
  - unfold numMembers, vsize in *. rewrite inv_hblen by done. lia.
  - intros d Hd. apply HP; [done|]. by eapply Forall_lookup_1; [apply inv_hbwf|].
Qed.
Lemma indexed_member_range i m :
  (i, m) ∈ indexed (_members (_rsConfig t)) → 0 ≤ i < numMembers t.
Proof.
  intros [Hi Hl]%elem_of_indexed. apply lookup_lt_Some in Hl. unfold numMembers, vsize. lia.
Qed.
Lemma indexed_hbdata_range i d :
  (i, d) ∈ indexed (_hbdata t) → 0 ≤ i < numMembers t ∧ HB.wf d.
Proof.
  intros [Hi Hl]%elem_of_indexed. split.
  - apply lookup_lt_Some in Hl. unfold numMembers, vsize. rewrite <-inv_hblen by done. lia.
  - by eapply Forall_lookup_1; [apply inv_hbwf|].
Qed.
Lemma member_config_ok m :
  m ∈ _members (_rsConfig t) → MC.valid m ∧ Dbl.is_nan (mc_priority m) = false.
Proof.
  intros Hm. destruct (inv_config t HI) as [Hc _]. rewrite Forall_forall in Hc. by apply Hc.
Qed.

Lemma iAmPrimary_spec : _iAmPrimary t = Ret (role_eqb (_role t) leader).
Proof.
  unfold _iAmPrimary, role_eqb. case_bool_decide as Hr; [|done].
  destruct (inv_leader t HI Hr) as [_ ->]. unfold check. by rewrite Z.eqb_refl.
Qed.

Lemma owp_selfConfig (P : MemberConfig → Prop) :
  _selfIndex t ≠ -1 →
  (∀ m, _members (_rsConfig t) !! Z.to_nat (_selfIndex t) = Some m → m ∈ _members (_rsConfig t) → P m) →
  owp (_selfConfig t) P.
Proof.
  intros Hs HP. apply owp_member; [|done]. pose proof (inv_self t HI). unfold index_ok in *. lia.
Qed.

(** The member state is total under the invariant; PRIMARY means leader. *)
Definition member_state_ok (s : MemberState) : Prop :=
  (s = RS_PRIMARY → _role t = leader) ∧
  (s = RS_SECONDARY → _role t ≠ leader ∧ _selfIndex t ≠ -1 ∧
     _followerMode t = RS_SECONDARY ∧ _maintenanceModeCalls t = 0).
Lemma role_member_state_spec :
  _selfIndex t ≠ -1 → owp (role_member_state t) member_state_ok.
Proof.
  intros Hs. unfold role_member_state, role_eqb, member_state_ok. case_bool_decide as Hr.
  - destruct (inv_leader t HI Hr) as [_ ->]. unfold check. rewrite Z.eqb_refl. simpl. naive_solver.
  - apply owp_bind, owp_selfConfig; [done|]. intros m _ _.
    pose proof (inv_maintenance t HI). pose proof (inv_mode t HI) as Hmode.
    destruct (MC.isArbiter m); simpl; [naive_solver|].
    unfold state_eqb. destruct (_ && _) eqn:E; simpl; [naive_solver|].
    split; [intros Hf; rewrite Hf in Hmode; by destruct Hmode as [?|[?|[?|?]]]|]. intros Hf.
    rewrite bool_decide_true, andb_true_r in E by done.
    apply orb_false_iff in E as [E _]. split_and!; [done..|lia].
Qed.
Lemma getMemberState_spec : owp (getMemberState t) member_state_ok.
Proof.
  unfold getMemberState. destruct (Z.eqb_spec (_selfIndex t) (-1)) as [|Hs].
  { case_match; simpl; by split. }
  pose proof (role_member_state_spec Hs). destruct (_configServer _) eqn:Hcs.
  - destruct (_ && _); simpl; [by split|]. unfold check.
    rewrite (bool_decide_false (_ = kUnknown)) by (by apply (inv_readCommitted t HI)). simpl.
    case_bool_decide; simpl; [by split|done].
  - destruct (_ && _); simpl; [by split|done].
Qed.

Lemma aMajoritySeemsToBeUp_total : owp (_aMajoritySeemsToBeUp t) (λ _, True).
Proof.
  unfold _aMajoritySeemsToBeUp. apply owp_bind.
  eapply owp_mono; [|apply (owp_ofoldl (λ _, True)); [done|]]; [done|].
  intros v [i d] [Hi _]%indexed_hbdata_range _. destruct (_ || _); [|done].
  apply owp_bind, owp_member; [done|]. done.
Qed.

(** *** Masks *)
Definition mask_ok (r : Z) : Prop := 0 ≤ r < 2048.
Lemma mask_0 : mask_ok 0.
Proof. done. Qed.
Lemma mask_or b f r : mask_ok r → mask_ok f → mask_ok (or_if b f r).
Proof.
  unfold mask_ok, or_if. intros Hr Hf. destruct b; [|done]. split.
  - apply Z.lor_nonneg. lia.
  - change 2048 with (2 ^ 11). destruct (Z.eq_dec (Z.lor r f) 0) as [->|]; [done|].
    assert (0 ≤ Z.lor r f) by (apply Z.lor_nonneg; lia).
    apply Z.log2_lt_pow2; [lia|]. rewrite Z.log2_lor by lia.
    assert (∀ x, 0 ≤ x < 2048 → Z.log2 x < 11) as Hl.
    { intros x Hx. destruct (Z.eq_dec x 0) as [->|]; [done|]. apply Z.log2_lt_pow2; lia. }
    pose proof (Hl r Hr). pose proof (Hl f Hf). lia.
Qed.
Lemma or_if_0 b f r : f ≠ 0 → or_if b f r = 0 ↔ r = 0 ∧ b = false.
Proof.
  unfold or_if. destruct b; [|naive_solver]. rewrite Z.lor_eq_0_iff. naive_solver.
Qed.
Lemma reason_string_total r :
  mask_ok r → r ≠ 0 → owp (_getUnelectableReasonString r) (λ _, True).
Proof.
  intros Hr Hz. assert (forallb (λ n, match _getUnelectableReasonString (Z.of_nat n) with
    | Ret _ => true | Abort _ => Nat.eqb n 0 end) (seq 0 2048) = true) as Hall
    by (vm_compute; reflexivity).
  rewrite forallb_forall in Hall. specialize (Hall (Z.to_nat r)).
  rewrite Z2Nat.id in Hall by apply Hr. destruct (_getUnelectableReasonString r); [done|].
  unfold mask_ok in Hr. specialize (Hall ltac:(apply in_seq; lia)).
  apply Nat.eqb_eq in Hall. lia.
Qed.
Hint Resolve mask_0 mask_or : mongo.
Hint Extern 5 (mask_ok _) => (solve [split; vm_compute; congruence]) : mongo.

(** *** When this node may stand for election *)
Definition can_stand (now : Z) (lastApplied : OpTime) (isPriorityTakeover : bool) : Prop :=
  OT.isNull lastApplied = false ∧ _aMajoritySeemsToBeUp t = Ret true ∧ _selfIndex t ≠ -1 ∧
  ∃ self, _selfConfig t = Ret self ∧ MC.isElectable self = true ∧ _stepDownUntil t ≤ now ∧
    (getMemberState t = Ret RS_SECONDARY ∨ _role t = leader) ∧
    if _protocolVersion (_rsConfig t) =? 0 then
      (lease_whoId (_voteLease t) = -1 ∨ lease_whoId (_voteLease t) = mc_id self ∨
       lease_when (_voteLease t) + leaseTime < now) ∧
      _isOpTimeCloseEnoughToLatestToElect t lastApplied lastApplied = true
    else isPriorityTakeover = true → _amIFreshEnoughForPriorityTakeover t lastApplied = true.

Lemma electable_iff_priority m :
  Dbl.is_nan (mc_priority m) = false →
  MC.isElectable m = true ↔ MC.isArbiter m = false ∧ Dbl.leb (mc_priority m) Dbl.zero = false.
Proof.
  intros Hn. unfold MC.isElectable, Dbl.gtb. change SFltb with Dbl.ltb.
  rewrite Dbl.leb_ltb by done. unfold Dbl.ltb.
  rewrite andb_true_iff, negb_true_iff, negb_false_iff. done.
Qed.

Lemma not_secondary_check state :
  (if negb (state_eqb state RS_SECONDARY) then p ← _iAmPrimary t; Ret (negb p) else Ret false)
  = Ret (negb (state_eqb state RS_SECONDARY) && negb (role_eqb (_role t) leader)).
Proof. rewrite iAmPrimary_spec. by destruct (state_eqb _ _). Qed.

Lemma can_stand_values now lastApplied tk up self st :
  _aMajoritySeemsToBeUp t = Ret up → _selfConfig t = Ret self → getMemberState t = Ret st →
  _selfIndex t ≠ -1 →
  can_stand now lastApplied tk ↔
  OT.isNull lastApplied = false ∧ up = true ∧ MC.isElectable self = true ∧
  _stepDownUntil t ≤ now ∧ (st = RS_SECONDARY ∨ _role t = leader) ∧
  if _protocolVersion (_rsConfig t) =? 0 then
    (lease_whoId (_voteLease t) = -1 ∨ lease_whoId (_voteLease t) = mc_id self ∨
     lease_when (_voteLease t) + leaseTime < now) ∧
    _isOpTimeCloseEnoughToLatestToElect t lastApplied lastApplied = true
  else tk = true → _amIFreshEnoughForPriorityTakeover t lastApplied = true.
Proof.
  intros Hup Hself Hst Hs. unfold can_stand. rewrite Hup, Hself, Hst. split.
  - intros (Hn & [= ->] & _ & self0 & [= <-] & He & Hd & Hr & Hp).
    split_and!; try done. destruct Hr as [[= ->]|]; auto.
  - intros (Hn & -> & He & Hd & Hr & Hp). split_and!; try done.
    exists self. split_and!; try done. destruct Hr as [->|]; auto.
Qed.

(** The reason is a mask of known bits, and empty exactly when the node may stand. *)
Lemma getMyUnelectableReason_spec now lastApplied tk :
  owp (_getMyUnelectableReason t now lastApplied tk)
    (λ r, mask_ok r ∧ (r = 0 ↔ can_stand now lastApplied tk)).
Proof.
  unfold _getMyUnelectableReason.
  destruct (proj1 (owp_Ret _ _) aMajoritySeemsToBeUp_total) as (up & Hup & _).
  rewrite Hup. apply owp_bind. cbn [owp].
  destruct (Z.eqb_spec (_selfIndex t) (-1)) as [|Hs].
  { simpl. split.
    - apply (mask_or true); [auto 10 with mongo|done].
    - unfold can_stand. rewrite Z.lor_eq_0_iff. naive_solver. }
  apply owp_bind. destruct (proj1 (owp_Ret _ _)
    (owp_selfConfig (λ m, m ∈ _members (_rsConfig t)) Hs (λ _ _ H, H))) as (self & Hself & Hin).
  rewrite Hself. cbn [owp]. destruct (member_config_ok self Hin) as [_ Hnan].
  destruct (proj1 (owp_Ret _ _) getMemberState_spec) as (st & Hst & _).
  rewrite Hst. apply owp_bind. cbn [owp]. rewrite not_secondary_check. apply owp_bind. cbn [owp].
  pose proof (can_stand_values now lastApplied tk up self st Hup Hself Hst Hs) as Hcs.
  rewrite (electable_iff_priority self Hnan) in Hcs.
  assert (negb (state_eqb st RS_SECONDARY) && negb (role_eqb (_role t) leader) = false ↔
          st = RS_SECONDARY ∨ _role t = leader) as Hsec.
  { rewrite andb_false_iff, !negb_false_iff. unfold state_eqb, role_eqb.
    by rewrite !bool_decide_eq_true. }
  destruct (inv_config t HI) as (_ & Hpv & _).
  destruct (Z.eqb_spec (_protocolVersion (_rsConfig t)) 0) as [Hp|Hp].
  - simpl. split; [auto 20 with mongo|]. rewrite Hcs, !or_if_0 by done. rewrite Hsec.
    rewrite negb_false_iff, Z.ltb_ge, negb_false_iff.
    assert (negb (lease_whoId (_voteLease t) =? -1) && negb (lease_whoId (_voteLease t) =? mc_id self)
      && (now <=? lease_when (_voteLease t) + leaseTime) = false ↔
      lease_whoId (_voteLease t) = -1 ∨ lease_whoId (_voteLease t) = mc_id self ∨
      lease_when (_voteLease t) + leaseTime < now) as -> by lia.
    split; intros; destruct_and!; by split_and!.
  - unfold check. destruct Hpv as [?|Hpv]; [done|]. rewrite Hpv. simpl.
    split; [auto 20 with mongo|]. rewrite Hcs, !or_if_0 by done. rewrite Hsec.
    rewrite negb_false_iff, Z.ltb_ge.
    assert (tk && negb (_amIFreshEnoughForPriorityTakeover t lastApplied) = false ↔
            (tk = true → _amIFreshEnoughForPriorityTakeover t lastApplied = true)) as ->
      by (destruct tk, (_amIFreshEnoughForPriorityTakeover t lastApplied); naive_solver).
    split; intros; destruct_and!; by split_and!.
Qed.

(** *** When another member looks electable *)
Definition looks_electable (i : Z) (lastOpApplied : OpTime) : Prop :=
  ∃ m d, _members (_rsConfig t) !! Z.to_nat i = Some m ∧ _hbdata t !! Z.to_nat i = Some d ∧
    MC.isElectable m = true ∧ HB.getState d = RS_SECONDARY ∧
    (_protocolVersion (_rsConfig t) = 0 →
     _isOpTimeCloseEnoughToLatestToElect t (HB.getAppliedOpTime d) lastOpApplied = true) ∧
    (HB.up d = true → HB.isUnelectable d = false).

Lemma getUnelectableReason_spec i lastOpApplied :
  0 ≤ i < numMembers t → i ≠ _selfIndex t →
  owp (_getUnelectableReason t i lastOpApplied)
    (λ r, mask_ok r ∧ (r = 0 ↔ looks_electable i lastOpApplied)).
Proof.
  intros Hi Hs. unfold _getUnelectableReason, check.
  destruct (Z.eqb_spec i (_selfIndex t)); [done|]. cbn [negb]. apply owp_bind. cbn [owp].
  apply owp_bind, owp_member; [done|]. intros m Hm Hin.
  apply owp_bind, owp_hbdata; [done|]. intros d Hd _.
  destruct (member_config_ok m Hin) as [_ Hnan].
  assert (looks_electable i lastOpApplied ↔ MC.isElectable m = true ∧
    HB.getState d = RS_SECONDARY ∧
    (_protocolVersion (_rsConfig t) = 0 →
     _isOpTimeCloseEnoughToLatestToElect t (HB.getAppliedOpTime d) lastOpApplied = true) ∧
    (HB.up d = true → HB.isUnelectable d = false)) as Hl.
  { unfold looks_electable. rewrite Hm, Hd. split; [|by eauto 10].
    by intros (? & ? & [= <-] & [= <-] & ?). }
  match goal with |- context [negb (?e =? 0) || _] => set (r := e) end.
  assert (r = 0 ↔ looks_electable i lastOpApplied) as Hr.
  { unfold r. rewrite Hl, (electable_iff_priority m Hnan), !or_if_0 by done.
    unfold state_eqb. rewrite negb_false_iff, bool_decide_eq_true.
    assert ((_protocolVersion (_rsConfig t) =? 0) && negb (_isOpTimeCloseEnoughToLatestToElect t
      (HB.getAppliedOpTime d) lastOpApplied) = false ↔
      (_protocolVersion (_rsConfig t) = 0 → _isOpTimeCloseEnoughToLatestToElect t
      (HB.getAppliedOpTime d) lastOpApplied = true)) as -> by
      (destruct (Z.eqb_spec (_protocolVersion (_rsConfig t)) 0),
         (_isOpTimeCloseEnoughToLatestToElect _ _ _); naive_solver).
    assert (HB.up d && HB.isUnelectable d = false ↔
      (HB.up d = true → HB.isUnelectable d = false)) as -> by (destruct (HB.up d); naive_solver).
    split; intros; destruct_and!; by split_and!. }
  assert (mask_ok r) as Hmask by (unfold r; auto 20 with mongo). clearbody r.
  destruct (Z.eqb_spec r 0) as [Hz|Hz]; cbn [negb orb].
  - rewrite (proj1 (proj1 Hl (proj1 Hr Hz))). simpl. done.
  - simpl. done.
Qed.

(** *** The electable member of highest priority *)
Definition electable_at (now : Z) (lastOpApplied : OpTime) (i : Z) : Prop :=
  if i =? _selfIndex t then can_stand now lastOpApplied false else looks_electable i lastOpApplied.

Lemma reason_at now lastOpApplied i :
  0 ≤ i < numMembers t →
  owp (if i =? _selfIndex t then _getMyUnelectableReason t now lastOpApplied false
       else _getUnelectableReason t i lastOpApplied)
    (λ r, r = 0 ↔ electable_at now lastOpApplied i).
Proof.
  intros Hi. unfold electable_at. destruct (Z.eqb_spec i (_selfIndex t)).
  - eapply owp_mono; [|apply getMyUnelectableReason_spec]. naive_solver.
  - eapply owp_mono; [|by apply getUnelectableReason_spec]. naive_solver.
Qed.

Definition priority_at (i : Z) : spec_float :=
  from_option mc_priority Dbl.zero (_members (_rsConfig t) !! Z.to_nat i).

Lemma priority_at_nan i : Dbl.is_nan (priority_at i) = false.
Proof.
  unfold priority_at. destruct (_ !! _) eqn:E; simpl; [|done].
  apply list_elem_of_lookup_2 in E. by apply member_config_ok in E as [_ ?].
Qed.

Lemma isMemberHigherPriority_spec i j :
  0 ≤ i < numMembers t → -1 ≤ j < numMembers t →
  _isMemberHigherPriority t i j =
  Ret ((j =? -1) || Dbl.gtb (priority_at i) (priority_at j)).
Proof.
  intros Hi Hj. unfold _isMemberHigherPriority, priority_at.
  destruct (Z.eqb_spec i (-1)); [lia|]. destruct (Z.eqb_spec j (-1)); [done|]. simpl.
  assert (0 ≤ j < numMembers t) as Hj' by lia.
  destruct (vat_in_range 629 (_members (_rsConfig t)) i Hi) as (mi & H1 & ->).
  destruct (vat_in_range 629 (_members (_rsConfig t)) j Hj') as (mj & H2 & ->).
  unfold getMemberAt, RSC.getMemberAt. rewrite H1, H2. done.
Qed.

(** The best index over the members visited so far. *)
Definition best_of (elig : Z → Prop) (seen : list Z) (r : Z) : Prop :=
  (r = -1 ∧ ∀ i, i ∈ seen → ¬ elig i) ∨
  (0 ≤ r < numMembers t ∧ elig r ∧
   ∀ i, i ∈ seen → elig i → Dbl.gtb (priority_at i) (priority_at r) = false).

Lemma best_of_skip elig seen r i :
  ¬ elig i → best_of elig seen r → best_of elig (seen ++ [i]) r.
Proof.
  unfold best_of. setoid_rewrite elem_of_app. setoid_rewrite list_elem_of_singleton.
  intros Hi [[? H]|(Hr & He & H)]; [left|right].
  - split; [done|]. intros j [?| ->]; auto.
  - split; [done|]. split; [done|]. intros j [?| ->]; naive_solver.
Qed.
Lemma best_of_step (elig : Z → Prop) seen r i :
  0 ≤ i < numMembers t → elig i → best_of elig seen r →
  best_of elig (seen ++ [i])
    (if (r =? -1) || Dbl.gtb (priority_at i) (priority_at r) then i else r).
Proof.
  unfold best_of. intros Hi He Hb. right. setoid_rewrite elem_of_app.
  setoid_rewrite list_elem_of_singleton.
  assert (∀ a, Dbl.gtb a a = false) as Hirr.
  { intros a. destruct (Dbl.gtb a a) eqn:E; [|done].
    destruct (Dbl.is_nan a) eqn:Hn; unfold Dbl.gtb in E; change SFltb with Dbl.ltb in E.
    - rewrite (proj1 (Dbl.nan_unordered a a ltac:(auto))) in E. done.
    - apply Dbl.ltb_key in E; [|done..]. unfold Dbl.key_lt in E. lia. }
  destruct Hb as [[-> Hb]|(Hr & Her & Hb)].
  { simpl. split; [done|]. split; [done|]. intros j [Hj| ->] Hej; [naive_solver|apply Hirr]. }
  destruct (Z.eqb_spec r (-1)); [lia|]. simpl.
  destruct (Dbl.gtb (priority_at i) (priority_at r)) eqn:E.
  - split; [done|]. split; [done|]. intros j [Hj| ->] Hej; [|apply Hirr].
    specialize (Hb j Hj Hej). destruct (Dbl.gtb (priority_at j) (priority_at i)) eqn:E2; [|done].
    rewrite <-Hb. symmetry. by apply (Dbl.ltb_trans _ (priority_at i)).
  - split; [done|]. split; [done|]. intros j [Hj| ->] Hej; auto.
Qed.

Lemma getHighestPriorityElectableIndex_spec now lastOpApplied :
  owp (_getHighestPriorityElectableIndex t now lastOpApplied)
    (λ r, best_of (electable_at now lastOpApplied) (indexed (_members (_rsConfig t))).*1 r).
Proof.
  unfold _getHighestPriorityElectableIndex.
  apply (owp_ofoldl_prefix (λ pre r, best_of (electable_at now lastOpApplied) pre.*1 r)).
  { left. split; [done|]. intros i Hi. by apply elem_of_nil in Hi. }
  intros pre [i m] post r Hl Hb.
  assert (0 ≤ i < numMembers t) as Hi.
  { apply (indexed_member_range i m). rewrite Hl. apply elem_of_app. right. left. }
  apply owp_bind. eapply owp_mono; [|by apply reason_at]. intros reason Hreason.
  rewrite fmap_app. csimpl. destruct (Z.eqb_spec reason 0) as [Hz|Hz].
  - rewrite isMemberHigherPriority_spec; [|done|].
    + simpl. apply best_of_step; naive_solver.
    + destruct Hb as [[-> _]|[? _]]; lia.
  - simpl. apply best_of_skip; naive_solver.
Qed.
End const_functions.

(** [_getHighestPriorityElectableIndex] never aborts on a coordinator that satisfies
    its invariant, and returns -1 only when no member is electable; otherwise the member it
    returns is electable and no electable member has a strictly higher priority. *)
Theorem highest_priority_electable_is_maximal t now lastOpApplied :
  Inv t →
  ∃ r, _getHighestPriorityElectableIndex t now lastOpApplied = Ret r ∧
    ((r = -1 ∧ ∀ i, 0 ≤ i < numMembers t → ¬ electable_at t now lastOpApplied i) ∨
     (0 ≤ r < numMembers t ∧ electable_at t now lastOpApplied r ∧
      ∀ i, 0 ≤ i < numMembers t → electable_at t now lastOpApplied i →
           Dbl.gtb (priority_at t i) (priority_at t r) = false)).
Proof.
  intros HI. destruct (proj1 (owp_Ret _ _)
    (getHighestPriorityElectableIndex_spec t HI now lastOpApplied)) as (r & Hr & Hb).
  exists r. split; [done|].
  assert (∀ i, 0 ≤ i < numMembers t → i ∈ (indexed (_members (_rsConfig t))).*1) as Hin.
  { intros i Hi. destruct (lookup_lt_is_Some_2 (_members (_rsConfig t)) (Z.to_nat i)) as [m Hm].
    { unfold numMembers, vsize in Hi. lia. }
    apply list_elem_of_fmap. exists (i, m). split; [done|]. apply elem_of_indexed. split; [lia|done]. }
  destruct Hb as [[-> Hb]|(? & ? & Hb)]; [left|right]; naive_solver.
Qed.

(** A coordinator of the example configuration: this node is member 0, member 1 is a
    secondary, member 2 an arbiter. *)
Definition example_hb (state : MemberState) (op : OpTime) : MemberHeartbeatData :=
  HB.setUpValues 1000 (hr_default <| hr_state := Some state |> <| hr_appliedOpTime := Some op |>)
    HB.default.
Definition example_topo : TopologyCoordinator :=
  initial (mkOptions 30 false false 2 false)
    <| _rsConfig := RSC.example_config |> <| _selfIndex := 0 |> <| _term := 1 |>
    <| _followerMode := RS_SECONDARY |>
    <| _hbdata := [HB.default; example_hb RS_SECONDARY (mkOpTime (mkTimestamp 10 1) 1);
                   example_hb RS_ARBITER OT.null] |>.

Lemma example_config_ok : config_ok RSC.example_config.
Proof.
  destruct RSC.example_valid as (_ & _ & _ & _ & Hv & Hid & _). split_and!.
  - apply Forall_and. split; [done|]. repeat (constructor; [done|]). constructor.
  - by right.
  - intros _. exact RSC.example_majorities.
  - done.
Qed.
Lemma example_Inv : Inv example_topo.
Proof.
  split; try done.
  - exact example_config_ok.
  - apply Forall_cons. split; [auto with mongo|]. apply Forall_cons.
    split; [apply HB.setUpValues_wf; auto with mongo|]. apply Forall_singleton.
    apply HB.setUpValues_wf; auto with mongo.
  - intros _ d [= <-]. done.
  - by right; right; left.
Qed.

Lemma highest_priority_electable_is_maximal_witness :
  ∃ r, _getHighestPriorityElectableIndex example_topo 5000 (mkOpTime (mkTimestamp 10 1) 1) = Ret r ∧
    ((r = -1 ∧ ∀ i, 0 ≤ i < numMembers example_topo →
        ¬ electable_at example_topo 5000 (mkOpTime (mkTimestamp 10 1) 1) i) ∨
     (0 ≤ r < numMembers example_topo ∧
      electable_at example_topo 5000 (mkOpTime (mkTimestamp 10 1) 1) r ∧
      ∀ i, 0 ≤ i < numMembers example_topo →
           electable_at example_topo 5000 (mkOpTime (mkTimestamp 10 1) 1) i →
           Dbl.gtb (priority_at example_topo i) (priority_at example_topo r) = false)).
Proof. apply highest_priority_electable_is_maximal. exact example_Inv. Defined.

(** A configuration with a NaN priority passes validation, but the coordinator aborts as
    soon as it asks whether that member, once a secondary, is electable. *)
Definition nan_config : ReplSetConfig :=
  RSC._calculateMajorities
    (RSC.example_config
       <| _members := [RSC.example_member 0 false;
                       RSC.example_member 1 false <| mc_priority := S754_nan |>] |>).
Definition nan_topo : TopologyCoordinator :=
  example_topo <| _rsConfig := nan_config |>
    <| _hbdata := [HB.default; example_hb RS_SECONDARY (mkOpTime (mkTimestamp 10 1) 1)] |>.
Lemma nan_priority_accepted_then_aborts :
  RSC.validate RSC.example_params nan_config = OK tt ∧
  _getHighestPriorityElectableIndex nan_topo 5000 (mkOpTime (mkTimestamp 10 1) 1) = Abort 2055.
Proof. split; vm_compute; reflexivity. Qed.

(** ** The freshest optime known *)
Definition counts_for_latest t (i : Z) (d : MemberHeartbeatData) : Prop :=
  (i, d) ∈ indexed (_hbdata t) ∧ i ≠ _selfIndex t ∧ HB.up d = true ∧ HB.getState d ≠ RS_REMOVED.

(** The newest of some optimes, found in one pass. *)
Lemma newest_of (p : Z * MemberHeartbeatData → bool) ours l :
  (∀ x, x ∈ l → p x = true → same_protocol (HB.getAppliedOpTime x.2) ours) →
  let latest := foldl (λ latest x,
    if p x then if OT.gtb (HB.getAppliedOpTime x.2) latest then HB.getAppliedOpTime x.2 else latest
    else latest) ours l in
  OT.leb ours latest = true ∧
  (∀ x, x ∈ l → p x = true → OT.leb (HB.getAppliedOpTime x.2) latest = true) ∧
  (latest = ours ∨ ∃ x, x ∈ l ∧ p x = true ∧ latest = HB.getAppliedOpTime x.2).
Proof.
  assert (∀ o, OT.leb o o = true) as Hrefl by (intros o; destruct (OT_leb_total o o); done).
  assert (∀ (y x : Z * MemberHeartbeatData) l, y ∈ l ++ [x] ↔ y ∈ l ∨ y = x) as Hin.
  { intros. by rewrite elem_of_app, list_elem_of_singleton. }
  induction l as [|x l IH] using rev_ind; intros Hp.
  { simpl. split_and!; [done|by intros ? ?%not_elem_of_nil|by left]. }
  rewrite foldl_app. simpl. setoid_rewrite Hin. setoid_rewrite Hin in Hp.
  destruct IH as (IH1 & IH2 & IH3); [by auto|].
  set (latest := foldl _ _ l) in *. clearbody latest.
  assert (same_protocol latest ours) as Hl by (destruct IH3 as [->|(y & ? & ? & ->)]; [done|auto]).
  assert (latest = ours ∨ ∃ y, (y ∈ l ∨ y = x) ∧ p y = true ∧ latest = HB.getAppliedOpTime y.2) as IH3'
    by (destruct IH3 as [?|(y & ? & ? & ?)]; [by left|right; exists y; auto]).
  destruct (p x) eqn:Hx; [|split_and!; [done| |done]; intros y [?| ->]; [auto|congruence]].
  rewrite OT_gtb_ltb. destruct (OT.ltb latest _) eqn:E.
  - assert (∀ o, same_protocol o ours → OT.leb o latest = true →
      OT.leb o (HB.getAppliedOpTime x.2) = true) as Hup.
    { intros o Ho Hle. apply (OT_leb_trans o latest); [by etrans|etrans; [done|by symmetry; auto]|done|].
      unfold OT.leb. by rewrite E. }
    split_and!; [by apply Hup|intros y [?| ->]; auto|right; exists x; auto].
  - split_and!; [done|intros y [?| ->] ?; [auto|]|done].
    rewrite <-OT_geb_leb. unfold OT.geb. by rewrite E.
Qed.

Definition counted t (x : Z * MemberHeartbeatData) : bool :=
  negb (x.1 =? _selfIndex t) && HB.up x.2 && negb (state_eqb (HB.getState x.2) RS_REMOVED).
Lemma counted_iff t x :
  x ∈ indexed (_hbdata t) → counted t x = true ↔ counts_for_latest t x.1 x.2.
Proof.
  destruct x as [i d]. intros Hin. unfold counts_for_latest, counted, state_eqb. simpl.
  rewrite !andb_true_iff, !negb_true_iff, Z.eqb_neq, bool_decide_eq_false. tauto.
Qed.
Lemma latest_unfold t ours :
  _latestKnownOpTime t ours = foldl (λ latest x,
    if counted t x then
      if OT.gtb (HB.getAppliedOpTime x.2) latest then HB.getAppliedOpTime x.2 else latest
    else latest) ours (indexed (_hbdata t)).
Proof.
  unfold _latestKnownOpTime, counted. revert ours.
  induction (indexed (_hbdata t)) as [|[i d] l IH]; intros ours; [done|]. simpl. rewrite IH.
  by destruct (i =? _); [|destruct (HB.up d); [destruct (state_eqb _ _)|]].
Qed.

(** When the optimes compared belong to one protocol version, the latest known optime
    is the maximum of our own and those of the members that are up and not removed: it is
    one of them, and none of them is newer. *)
Theorem latestKnownOpTime_is_maximum t ours :
  (∀ i d, counts_for_latest t i d → same_protocol (HB.getAppliedOpTime d) ours) →
  let latest := _latestKnownOpTime t ours in
  OT.leb ours latest = true ∧
  (∀ i d, counts_for_latest t i d → OT.leb (HB.getAppliedOpTime d) latest = true) ∧
  (latest = ours ∨ ∃ i d, counts_for_latest t i d ∧ latest = HB.getAppliedOpTime d).
Proof.
  intros Hp. destruct (newest_of (counted t) ours (indexed (_hbdata t))) as (H1 & H2 & H3).
  { intros x Hin Hx. by apply (Hp x.1), counted_iff. }
  rewrite <-latest_unfold in H1, H2, H3. cbv zeta. split_and!; [done|..].
  - intros i d Hc. apply (H2 (i, d)); [apply Hc|]. by apply counted_iff; [apply Hc|].
  - destruct H3 as [?|([i d] & Hin & Hx & ?)]; [by left|right]. exists i, d.
    split; [by apply (counted_iff t (i, d))|done].
Qed.

Definition example_pair : TopologyCoordinator :=
  example_topo
    <| _hbdata := [HB.default; example_hb RS_SECONDARY (mkOpTime (mkTimestamp 10 1) 1)] |>.
Lemma latestKnownOpTime_is_maximum_witness :
  OT.leb (mkOpTime (mkTimestamp 9 1) 1)
    (_latestKnownOpTime example_pair (mkOpTime (mkTimestamp 9 1) 1)) = true.
Proof.
  refine (proj1 (latestKnownOpTime_is_maximum example_pair (mkOpTime (mkTimestamp 9 1) 1) _)).
  intros i d (Hin & Hi & _). unfold indexed in Hin. cbn [imap _hbdata example_pair] in Hin.
  apply elem_of_cons in Hin as [[= -> ->]|Hin]; [done|].
  apply elem_of_cons in Hin as [[= -> ->]|Hin]; [|by apply elem_of_nil in Hin].
  unfold same_protocol, OT.kUninitializedTerm. simpl. lia.
Defined.
End Topo.
