(* ===== verification/TopologyElection.v ===== *)
(** * The topology coordinator: roles, terms and votes
    (db/repl/topology_coordinator_impl.cpp)

    The member functions that change the role, the term, the votes and the
    configuration, for both election protocols.  Each is a computation in the state
    monad over [TopologyCoordinator]; an [invariant] of the source aborts. *)
From S2P Require Import Prelude ReplTime ParseNumber HostAndPort ReplTag ReplConfig Heartbeat Topology.

Record ReplSetFreshArgs := mkFreshArgs {
  fa_setName : chars; fa_who : HostAndPort; fa_id : Z; fa_cfgver : Z; fa_opTime : Timestamp }.
(** The fields appended to the reply of replSetFresh. *)
Record FreshResponse := mkFreshResponse {
  fr_opTime : Z; fr_fresher : bool; fr_veto : bool; fr_stale_config : bool }.
Record ReplSetElectArgs := mkElectArgs {
  ea_set : chars; ea_whoid : Z; ea_cfgver : Z; ea_round : Z }.
Record ElectResponse := mkElectResponse { er_vote : Z; er_round : Z }.
Record ReplSetRequestVotesArgs := mkVoteArgs {
  va_setName : chars; va_term : Z; va_candidateIndex : Z; va_cfgver : Z;
  va_lastDurableOpTime : OpTime; va_dryRun : bool }.
Record ReplSetRequestVotesResponse := mkVoteResponse { vr_term : Z; vr_voteGranted : bool }.
Inductive UpdateTermResult := kAlreadyUpToDate | kTriggerStepDown | kUpdatedTerm.
#[export] Instance UpdateTermResult_eq_dec : EqDecision UpdateTermResult.
Proof. solve_decision. Defined.
Inductive PrepareFreezeResponseResult := kNoAction | kElectSelf.

Module TopoElect.
Import Topo.
Abbreviation TM := (M TopologyCoordinator).
Implicit Types t : TopologyCoordinator.

(** ** Protocol version 0: replSetFresh and replSetElect *)
Definition _getMemberIndex t (id : Z) : Z := RSC.findMemberIndexByConfigId (_rsConfig t) id.

Definition _shouldVetoMember t (args : ReplSetFreshArgs) (now : Z) (lastOpApplied : OpTime)
    : outcome bool :=
  if _version (_rsConfig t) <? fa_cfgver args then Ret false
  else
    let hopefulIndex := _getMemberIndex t (i32 (fa_id args)) in
    check 561 (negb (hopefulIndex =? _selfIndex t)) ;;
    highestPriorityIndex ← _getHighestPriorityElectableIndex t now lastOpApplied;
    if hopefulIndex =? -1 then Ret true
    else
      vetoAsPrimary ←
        (primary ← _iAmPrimary t;
         if (primary : bool) then
           d ← hbdata_at 569 t hopefulIndex;
           Ret (OT.geb lastOpApplied (HB.getAppliedOpTime d))
         else Ret false);
      if (vetoAsPrimary : bool) then Ret true
      else
        otherPrimary ←
          (if negb (_currentPrimaryIndex t =? -1) &&
              negb (hopefulIndex =? _currentPrimaryIndex t) then
             p ← hbdata_at 579 t (_currentPrimaryIndex t);
             h ← hbdata_at 580 t hopefulIndex;
             Ret (OT.geb (HB.getAppliedOpTime p) (HB.getAppliedOpTime h))
           else Ret false);
        if (otherPrimary : bool) then Ret true
        else
          lower ←
            (if negb (highestPriorityIndex =? -1) then
               hopefulMember ← getMemberAt t hopefulIndex;
               priorityMember ← getMemberAt t highestPriorityIndex;
               Ret (Dbl.gtb (mc_priority priorityMember) (mc_priority hopefulMember))
             else Ret false);
          if (lower : bool) then Ret true
          else
            reason ← _getUnelectableReason t hopefulIndex lastOpApplied;
            let reason := Z.land reason (Z.lnot RefusesToStand) in
            if negb (reason =? 0) then _getUnelectableReasonString reason ;; Ret true
            else Ret false.

Definition prepareFreshResponse t (args : ReplSetFreshArgs) (now : Z) (lastOpApplied : OpTime)
    : outcome (StatusWith FreshResponse) :=
  if negb (_protocolVersion (_rsConfig t) =? 0) then Ret (Err BadValue)
  else if _selfIndex t =? -1 then Ret (Err ReplicaSetNotFound)
  else if negb (bool_decide (fa_setName args = _replSetName (_rsConfig t)))
  then Ret (Err ReplicaSetNotFound)
  else
    self ← _selfConfig t;
    if fa_id args =? u32 (mc_id self) then Ret (Err BadValue)
    else
      let stale := fa_cfgver args <? _version (_rsConfig t) in
      let weAreFresher :=
        stale || OT.ltb (mkOpTime (fa_opTime args) (_term t)) (_latestKnownOpTime t lastOpApplied) in
      doVeto ← _shouldVetoMember t args now lastOpApplied;
      Ret (OK (mkFreshResponse (TS.asULL (ot_ts lastOpApplied)) weAreFresher doVeto stale)).

Definition _currentPrimaryMember t : outcome (option MemberConfig) :=
  if _currentPrimaryIndex t =? -1 then Ret None
  else m ← getMemberAt t (_currentPrimaryIndex t); Ret (Some m).

(** The chain of reasons to refuse, and the vote lease of 30 seconds. *)
Definition elect_vote t (args : ReplSetElectArgs) (now : Z) (highestPriority : option MemberConfig)
    (primary hopeful : option MemberConfig) : outcome (Z * option VoteLease) :=
  let myver := _version (_rsConfig t) in
  if negb (bool_decide (ea_set args = _replSetName (_rsConfig t))) then Ret (0, None)
  else if myver <? ea_cfgver args then Ret (0, None)
  else if ea_cfgver args <? myver then Ret (-10000, None)
  else
    match hopeful with
    | None => Ret (-10000, None)
    | Some hopeful =>
        iAmPrimary ← _iAmPrimary t;
        if (iAmPrimary : bool) then Ret (-10000, None)
        else if bool_decide (is_Some primary) then Ret (-10000, None)
        else if from_option (λ h, Dbl.gtb (mc_priority h) (mc_priority hopeful)) false highestPriority
        then Ret (-10000, None)
        else if (now <=? lease_when (_voteLease t) + leaseTime) &&
                negb (lease_whoId (_voteLease t) =? ea_whoid args)
        then Ret (0, None)
        else
          self ← _selfConfig t;
          check 682 (mc_id hopeful =? ea_whoid args) ;;
          Ret (MC.getNumVotes self, Some (mkLease now (ea_whoid args) (mc_host hopeful)))
    end.

Definition prepareElectResponse (args : ReplSetElectArgs) (now : Z) (lastOpApplied : OpTime)
    : TM (StatusWith ElectResponse) :=
  pv ← gets (λ t, _protocolVersion (_rsConfig t));
  if negb (pv =? 0) then mret (Err BadValue)
  else
    self ← gets _selfIndex;
    if self =? -1 then mret (Err ReplicaSetNotFound)
    else
      highestPriorityIndex ← reads (λ t, _getHighestPriorityElectableIndex t now lastOpApplied);
      primary ← reads _currentPrimaryMember;
      hopeful ← gets (λ t, RSC.findMemberByID (_rsConfig t) (ea_whoid args));
      highestPriority ← reads (λ t,
        if highestPriorityIndex =? -1 then Ret None
        else m ← getMemberAt t highestPriorityIndex; Ret (Some m));
      '(vote, lease) ← reads (λ t, elect_vote t args now highestPriority primary hopeful);
      match lease with
      | Some l => modify (λ t, t <| _voteLease := l |>)
      | None => mret tt
      end ;;
      mret (OK (mkElectResponse vote (ea_round args))).

Definition voteForMyself (now : Z) : TM bool :=
  role ← gets _role;
  if negb (role_eqb role candidate) then mret false
  else
    self ← reads _selfConfig;
    lease ← gets _voteLease;
    if (now <=? lease_when lease + leaseTime) && negb (lease_whoId lease =? mc_id self)
    then mret false
    else
      modify (λ t, t <| _voteLease := mkLease now (mc_id self) (mc_host self) |>) ;;
      mret true.

(** ** Role changes *)
Definition setForceSyncSourceIndex (index : Z) : TM () :=
  invariant 156 (λ t, _forceSyncSourceIndex t <? numMembers t) ;;
  modify (λ t, t <| _forceSyncSourceIndex := index |>).

Definition setElectionInfo (electionId : Z) (electionOpTime : Timestamp) : TM () :=
  invariant 2289 (λ t, role_eqb (_role t) leader) ;;
  modify (λ t, t <| _electionTime := electionOpTime |> <| _electionId := electionId |>).

Definition processWinElection (electionId : Z) (electionOpTime : Timestamp) : TM () :=
  invariant 2295 (λ t, role_eqb (_role t) candidate) ;;
  modify (λ t, t <| _role := leader |>) ;;
  setElectionInfo electionId electionOpTime ;;
  modify (λ t, t <| _currentPrimaryIndex := _selfIndex t |> <| _syncSource := HP.default |>
                 <| _forceSyncSourceIndex := -1 |>).

Definition processLoseElection : TM () :=
  invariant 2304 (λ t, role_eqb (_role t) candidate) ;;
  modify (λ t, t <| _electionTime := TS.zero |> <| _electionId := 0 |> <| _role := follower |>) ;;
  self ← reads _selfConfig;
  modify (λ t, if lease_whoId (_voteLease t) =? mc_id self
               then t <| _voteLease := _voteLease t <| lease_when := 0 |> |> else t).

Definition _stepDownSelfAndReplaceWith (newPrimary : Z) : TM () :=
  invariant 2405 (λ t, role_eqb (_role t) leader) ;;
  invariant 2406 (λ t, negb (_selfIndex t =? -1)) ;;
  invariant 2407 (λ t, negb (_selfIndex t =? newPrimary)) ;;
  invariant 2408 (λ t, _selfIndex t =? _currentPrimaryIndex t) ;;
  modify (λ t, t <| _currentPrimaryIndex := newPrimary |> <| _role := follower |>
                 <| _stepDownPending := false |>).

(** Some other member is electable and as fresh as we are. *)
Definition has_caught_up_electable t (lastOpApplied : OpTime) : outcome bool :=
  ofoldl (λ found '(memberIndex, _),
    if (found : bool) then Ret true
    else if memberIndex =? _selfIndex t then Ret false
    else
      reason ← _getUnelectableReason t memberIndex lastOpApplied;
      if reason =? 0 then
        d ← hbdata_at 2334 t memberIndex;
        Ret (OT.geb (HB.getAppliedOpTime d) lastOpApplied)
      else Ret false)
    false (indexed (_members (_rsConfig t))).

Definition stepDown (until : Z) (force : bool) (lastOpApplied : OpTime) : TM bool :=
  if force then
    modify (λ t, t <| _stepDownUntil := until |>) ;;
    _stepDownSelfAndReplaceWith (-1) ;;
    mret true
  else
    found ← reads (λ t, has_caught_up_electable t lastOpApplied);
    if (found : bool) then
      modify (λ t, t <| _stepDownUntil := until |>) ;;
      _stepDownSelfAndReplaceWith (-1) ;;
      mret true
    else mret false.

(** The only other member that claims to be primary; -1 when there is none or
    more than one. *)
Definition remote_primary t : Z :=
  (foldl (λ '(remotePrimaryIndex, stop) '(itIndex, it),
     if (stop : bool) then (remotePrimaryIndex, true)
     else if itIndex =? _selfIndex t then (remotePrimaryIndex, false)
     else if state_eqb (HB.getState it) RS_PRIMARY && HB.up it then
       if negb (remotePrimaryIndex =? -1) then (-1, true) else (itIndex, false)
     else (remotePrimaryIndex, false)) (-1, false) (indexed (_hbdata t))).1.

Definition stepDownIfPending : TM bool :=
  pending ← gets _stepDownPending;
  if negb pending then mret false
  else
    remotePrimaryIndex ← gets remote_primary;
    _stepDownSelfAndReplaceWith remotePrimaryIndex ;;
    mret true.

Definition prepareForStepDown : TM () := modify (λ t, t <| _stepDownPending := true |>).

Definition become_candidate_if_single : TM bool :=
  single ← reads _isElectableNodeInSingleNodeReplicaSet;
  if (single : bool) then modify (λ t, t <| _role := candidate |>) ;; mret true else mret false.

Definition setFollowerMode (newMode : MemberState) : TM () :=
  invariant 2345 (λ t, role_eqb (_role t) follower) ;;
  match newMode with
  | RS_RECOVERING | RS_ROLLBACK | RS_SECONDARY | RS_STARTUP2 =>
      modify (λ t, t <| _followerMode := newMode |>)
  | _ => invariant 2354 (λ _, false)
  end ;;
  mode ← gets _followerMode;
  if negb (state_eqb mode RS_SECONDARY) then mret tt
  else become_candidate_if_single ;; mret tt.

Definition prepareFreezeResponse (now secs : Z) : TM (StatusWith PrepareFreezeResponseResult) :=
  role ← gets _role;
  if negb (role_eqb role follower) then mret (Err ParseNumber.NotSecondary)
  else if secs =? 0 then
    modify (λ t, t <| _stepDownUntil := now |>) ;;
    elected ← become_candidate_if_single;
    mret (OK (if (elected : bool) then kElectSelf else kNoAction))
  else
    modify (λ t, t <| _stepDownUntil := Z.max (_stepDownUntil t) (now + secs * 1000) |>) ;;
    mret (OK kNoAction).

Definition becomeCandidateIfStepdownPeriodOverAndSingleNodeSet (now : Z) : TM bool :=
  until ← gets _stepDownUntil;
  if now <? until then mret false else become_candidate_if_single.

Definition becomeCandidateIfElectable (now : Z) (lastOpApplied : OpTime)
    (isPriorityTakeover : bool) : TM Status :=
  role ← gets _role;
  if role_eqb role leader then mret (Err NodeNotElectable)
  else if role_eqb role candidate then mret (Err NodeNotElectable)
  else
    unelectableReason ← reads (λ t, _getMyUnelectableReason t now lastOpApplied isPriorityTakeover);
    if negb (unelectableReason =? 0) then
      reads (λ _, _getUnelectableReasonString unelectableReason) ;;
      mret (Err NodeNotElectable)
    else
      modify (λ t, t <| _role := candidate |>) ;;
      mret (OK tt).

Definition setElectionSleepUntil (newTime : Z) : TM () :=
  modify (λ t, if _electionSleepUntil t <? newTime then t <| _electionSleepUntil := newTime |> else t).
Definition adjustMaintenanceCountBy (inc : Z) : TM () :=
  invariant 2415 (λ t, role_eqb (_role t) follower) ;;
  modify (λ t, t <| _maintenanceModeCalls := i32 (_maintenanceModeCalls t + inc) |>) ;;
  invariant 2417 (λ t, 0 <=? _maintenanceModeCalls t).
Definition setMyHeartbeatMessage (now : Z) (message : chars) : TM () :=
  modify (λ t, t <| _hbmsgTime := now |> <| _hbmsg := message |>).
Definition setStorageEngineSupportsReadCommitted (supported : bool) : TM () :=
  modify (λ t, t <| _storageEngineSupportsReadCommitted := if supported then kYes else kNo |>).
Definition restartHeartbeats : TM () :=
  modify (λ t, t <| _hbdata := map HB.restart (_hbdata t) |>).

(** ** Reconfiguration *)
Definition _updateHeartbeatDataForReconfig (newConfig : ReplSetConfig) (selfIndex : Z)
    : TM () :=
  modify (λ t,
    let oldHeartbeats := _hbdata t in
    t <| _hbdata :=
      map (λ '(index, newMember),
        if index =? selfIndex then HB.default
        else
          let oldIndex := index_where (λ old,
            (mc_id old =? mc_id newMember) && HP.eqb (mc_host old) (mc_host newMember))
            (_members (_rsConfig t)) in
          if oldIndex =? -1 then HB.default
          else default HB.default (oldHeartbeats !! Z.to_nat oldIndex))
        (indexed (_members newConfig)) |>).

Definition updateConfig (newConfig : ReplSetConfig) (selfIndex now : Z) (lastOpApplied : OpTime)
    : TM () :=
  invariant 1972 (λ t, negb (role_eqb (_role t) candidate)) ;;
  invariant 1973 (λ _, selfIndex <? RSC.getNumMembers newConfig) ;;
  resetTerm ← gets (λ t, negb (_isInitialized (_rsConfig t)) ||
    negb (_protocolVersion (_rsConfig t) =? _protocolVersion newConfig));
  (if (resetTerm : bool) then
     if _protocolVersion newConfig =? 1 then modify (λ t, t <| _term := OT.kInitialTerm |>)
     else
       invariant 1981 (λ _, _protocolVersion newConfig =? 0) ;;
       modify (λ t, t <| _term := OT.kUninitializedTerm |>)
   else mret tt) ;;
  _updateHeartbeatDataForReconfig newConfig selfIndex ;;
  modify (λ t, t <| _stepDownPending := false |> <| _rsConfig := newConfig |>
                 <| _selfIndex := selfIndex |> <| _forceSyncSourceIndex := -1 |>) ;;
  stay ←
    (role ← gets _role;
     if role_eqb role leader then
       if selfIndex =? -1 then mret false
       else self ← reads _selfConfig; mret (MC.isElectable self)
     else mret false);
  if (stay : bool) then modify (λ t, t <| _currentPrimaryIndex := _selfIndex t |>)
  else
    modify (λ t, if role_eqb (_role t) leader then t <| _role := follower |> else t) ;;
    modify (λ t, t <| _currentPrimaryIndex := -1 |>) ;;
    become_candidate_if_single ;;
    mret tt.

(** ** Protocol version 1: terms and votes *)
Definition updateTerm (term now : Z) : TM UpdateTermResult :=
  current ← gets _term;
  if term <=? current then mret kAlreadyUpToDate
  else
    modify (λ t, t <| _electionSleepUntil := now + _electionTimeoutPeriod (_rsConfig t) |>) ;;
    primary ← reads _iAmPrimary;
    if (primary : bool) then mret kTriggerStepDown
    else
      modify (λ t, t <| _term := term |>) ;;
      mret kUpdatedTerm.

Definition processReplSetRequestVotes (args : ReplSetRequestVotesArgs) (lastAppliedOpTime : OpTime)
    : TM ReplSetRequestVotesResponse :=
  t ← gets id;
  let respond granted := mkVoteResponse (_term t) granted in
  if va_term args <? _term t then mret (respond false)
  else if negb (va_cfgver args =? _version (_rsConfig t)) then mret (respond false)
  else if negb (bool_decide (va_setName args = _replSetName (_rsConfig t)))
  then mret (respond false)
  else if OT.ltb (va_lastDurableOpTime args) lastAppliedOpTime then mret (respond false)
  else if negb (va_dryRun args) && (lv_term (_lastVote t) =? va_term args) then
    (* the refusal names the host that got the vote *)
    reads (λ t, getMemberAt t (lv_candidateIndex (_lastVote t))) ;;
    mret (respond false)
  else
    betterPrimary ← reads (λ t,
      _findHealthyPrimaryOfEqualOrGreaterPriority t (i32 (va_candidateIndex args)));
    self ← reads _selfConfig;
    if MC.isArbiter self && (0 <=? betterPrimary) then
      reads (λ t, getMemberAt t betterPrimary) ;;
      mret (respond false)
    else
      (if negb (va_dryRun args)
       then modify (λ t, t <| _lastVote := mkLastVote (va_term args) (va_candidateIndex args) |>)
       else mret tt) ;;
      mret (respond true).

Definition loadLastVote (lastVote : LastVote) : TM () := modify (λ t, t <| _lastVote := lastVote |>).
Definition voteForMyselfV1 : TM () :=
  modify (λ t, t <| _lastVote := mkLastVote (_term t) (_selfIndex t) |>).
Definition setPrimaryIndex (primaryIndex : Z) : TM () :=
  modify (λ t, t <| _currentPrimaryIndex := i32 primaryIndex |>).
End TopoElect.
