(* ===== verification/TopologySync.v ===== *)
(** * The topology coordinator: choosing whom to sync from
    (db/repl/topology_coordinator_impl.cpp)

    Selection of a sync source in two attempts of decreasing strictness, the
    blacklist of sources that failed, the replSetSyncFrom command and the periodic
    decision to switch sources. *)
From S2P Require Import Prelude ReplTime ParseNumber HostAndPort ReplTag ReplConfig Heartbeat Topology TopologyElection.

Inductive ChainingPreference := kAllowChaining | kUseConfiguration.
#[export] Instance ChainingPreference_eq_dec : EqDecision ChainingPreference.
Proof. solve_decision. Defined.

(** rpc::ReplSetMetadata and rpc::OplogQueryMetadata, as the coordinator fills and
    reads them. *)
Record ReplSetMetadata := mkReplSetMetadata {
  rm_term : Z; rm_lastOpCommitted : OpTime; rm_lastOpVisible : OpTime; rm_configVersion : Z;
  rm_replicaSetId : Z; rm_primaryIndex : Z; rm_syncSourceIndex : Z }.
Record OplogQueryMetadata := mkOplogQueryMetadata {
  oq_lastOpCommitted : OpTime; oq_lastOpApplied : OpTime; oq_rbid : Z; oq_primaryIndex : Z;
  oq_syncSourceIndex : Z }.
(** The reply of replSetSyncFrom: a warning when the target lags, and the source
    used until now. *)
Record SyncFromResponse := mkSyncFrom { sf_warning : bool; sf_prevSyncTarget : option chars }.

Module TopoSync.
Import Topo TopoElect.
Implicit Types t : TopologyCoordinator.

(** ** Blacklist *)
Definition _memberIsBlacklisted t (memberConfig : MemberConfig) (now : Z) : bool :=
  match _syncSourceBlacklist t !! HP.key (mc_host memberConfig) with
  | Some until => now <? until
  | None => false
  end.
Definition blacklistSyncSource (host : HostAndPort) (until : Z) : TM () :=
  modify (λ t, t <| _syncSourceBlacklist := <[HP.key host := until]> (_syncSourceBlacklist t) |>).
Definition unblacklistSyncSource (host : HostAndPort) (now : Z) : TM () :=
  modify (λ t,
    match _syncSourceBlacklist t !! HP.key host with
    | Some until =>
        if until <=? now
        then t <| _syncSourceBlacklist := delete (HP.key host) (_syncSourceBlacklist t) |>
        else t
    | None => t
    end).
Definition clearSyncSourceBlacklist : TM () := modify (λ t, t <| _syncSourceBlacklist := ∅ |>).

(** [_pings[host]] creates the entry when there is none. *)
Definition touch_ping (host : HostAndPort) : TM PingStats :=
  modify (λ t, match _pings t !! HP.key host with
               | Some _ => t
               | None => t <| _pings := <[HP.key host := Ping.default]> (_pings t) |>
               end) ;;
  gets (λ t, default Ping.default (_pings t !! HP.key host)).
Definition _getPing (host : HostAndPort) : TM Z :=
  p ← touch_ping host; mret (Ping.getMillis p).

(** ** Choosing a source *)
Definition set_source (now : Z) (source : HostAndPort) (msg : option chars) : TM HostAndPort :=
  modify (λ t, t <| _syncSource := source |>) ;;
  match msg with
  | Some m => setMyHeartbeatMessage now m
  | None => mret tt
  end ;;
  mret source.

(** The optime a candidate must have reached on the first attempt. *)
Definition oldest_sync_optime t : outcome OpTime :=
  if negb (_currentPrimaryIndex t =? -1) then
    d ← hbdata_at 232 t (_currentPrimaryIndex t);
    let primaryOpTime := HB.getAppliedOpTime d in
    let maxLag := u32 (maxSyncSourceLagSecs (_options t)) in
    if maxLag <=? OT.getSecs primaryOpTime then
      Ret (mkOpTime (mkTimestamp (u32 (OT.getSecs primaryOpTime - maxLag)) 0) (ot_term primaryOpTime))
    else Ret OT.null
  else Ret OT.null.

(** The checks that do not depend on the candidates seen before. *)
Definition acceptable_source t (attempts : Z) (lastOpTimeFetched oldestSyncOpTime : OpTime)
    (itMemberConfig : MemberConfig) (it : MemberHeartbeatData) : outcome bool :=
  if negb (HB.up it) then Ret false
  else if negb (readable (HB.getState it)) then Ret false
  else
    self ← _selfConfig t;
    if (attempts =? 0) && MC.isVoter self && negb (MC.isVoter itMemberConfig) then Ret false
    else if (attempts =? 0) && mc_hidden itMemberConfig then Ret false
    else if (attempts =? 0) && OT.ltb (HB.getAppliedOpTime it) oldestSyncOpTime then Ret false
    else if (attempts =? 0) && (mc_slaveDelay self <? mc_slaveDelay itMemberConfig) then Ret false
    else if mc_buildIndexes self && negb (mc_buildIndexes itMemberConfig) then Ret false
    else if OT.leb (HB.getAppliedOpTime it) lastOpTimeFetched then Ret false
    else Ret true.

Definition consider_source (now attempts : Z) (lastOpTimeFetched oldestSyncOpTime : OpTime)
    (closestIndex : Z) (entry : Z * MemberHeartbeatData) : TM Z :=
  let '(itIndex, it) := entry in
  self ← gets _selfIndex;
  if itIndex =? self then mret closestIndex
  else
    itMemberConfig ← reads (λ t, getMemberAt t itIndex);
    ok ← reads (λ t,
      acceptable_source t attempts lastOpTimeFetched oldestSyncOpTime itMemberConfig it);
    if negb ok then mret closestIndex
    else
      slower ←
        (if negb (closestIndex =? -1) then
           mine ← _getPing (mc_host itMemberConfig);
           closest ← reads (λ t, getMemberAt t closestIndex);
           best ← _getPing (mc_host closest);
           mret (best <? mine)
         else mret false);
      if (slower : bool) then mret closestIndex
      else
        blacklisted ← gets (λ t, _memberIsBlacklisted t itMemberConfig now);
        mret (if (blacklisted : bool) then closestIndex else itIndex).

Definition attempt_source (now attempts : Z) (lastOpTimeFetched oldestSyncOpTime : OpTime)
    (closestIndex : Z) : TM Z :=
  hbdata ← gets _hbdata;
  mfoldl (consider_source now attempts lastOpTimeFetched oldestSyncOpTime) closestIndex
    (indexed hbdata).

(** Chaining not allowed: only the primary will do. *)
Definition choose_primary_source (now : Z) : TM HostAndPort :=
  primaryIndex ← gets _currentPrimaryIndex;
  if primaryIndex =? -1 then set_source now HP.default None
  else
    primary ← reads (λ t, getMemberAt t primaryIndex);
    blacklisted ← gets (λ t, _memberIsBlacklisted t primary now);
    self ← gets _selfIndex;
    if (blacklisted : bool) then set_source now HP.default None
    else if primaryIndex =? self then set_source now HP.default None
    else set_source now (mc_host primary)
           (Some (RSC.str "syncing from primary: " ++ HP.toString (mc_host primary))).

Definition chooseNewSyncSource (now : Z) (lastOpTimeFetched : OpTime)
    (chainingPreference : ChainingPreference) : TM HostAndPort :=
  self ← gets _selfIndex;
  if self =? -1 then mret HP.default
  else
    force ← gets _forceSyncSourceIndex;
    if negb (force =? -1) then
      invariant 175 (λ t, _forceSyncSourceIndex t <? numMembers t) ;;
      m ← reads (λ t, getMemberAt t force);
      modify (λ t, t <| _syncSource := mc_host m |> <| _forceSyncSourceIndex := -1 |>) ;;
      set_source now (mc_host m)
        (Some (RSC.str "syncing from: " ++ HP.toString (mc_host m) ++ RSC.str " by request"))
    else
      needMorePings ← gets (λ t, i32 ((vsize (_hbdata t) - 1) * 2 - _getTotalPings t));
      if 0 <? needMorePings then set_source now HP.default None
      else
        chaining ← gets (λ t, _chainingAllowed (_rsConfig t));
        if bool_decide (chainingPreference = kUseConfiguration) && negb chaining
        then choose_primary_source now
        else
          oldestSyncOpTime ← reads oldest_sync_optime;
          first ← attempt_source now 0 lastOpTimeFetched oldestSyncOpTime (-1);
          closestIndex ←
            (if negb (first =? -1) then mret first
             else attempt_source now 1 lastOpTimeFetched oldestSyncOpTime first);
          if closestIndex =? -1 then
            set_source now HP.default (Some (RSC.str "could not find member to sync from"))
          else
            m ← reads (λ t, getMemberAt t closestIndex);
            set_source now (mc_host m)
              (Some (RSC.str "syncing from: " ++ HP.toString (mc_host m))).

(** ** replSetSyncFrom *)
Definition prepareSyncFromResponse (target : HostAndPort) (lastOpApplied : OpTime)
    : TM (StatusWith SyncFromResponse) :=
  t ← gets id;
  if _selfIndex t =? -1 then mret (Err ParseNumber.NotSecondary)
  else
    selfConfig ← reads _selfConfig;
    if MC.isArbiter selfConfig then mret (Err ParseNumber.NotSecondary)
    else if _selfIndex t =? _currentPrimaryIndex t then mret (Err ParseNumber.NotSecondary)
    else
      let targetIndex := RSC.findMemberIndexByHostAndPort (_rsConfig t) target in
      if targetIndex =? -1 then mret (Err NodeNotFound)
      else
        targetConfig ← reads (λ t, getMemberAt t targetIndex);
        if targetIndex =? _selfIndex t then mret (Err InvalidOptions)
        else if MC.isArbiter targetConfig then mret (Err InvalidOptions)
        else if negb (mc_buildIndexes targetConfig) && mc_buildIndexes selfConfig
        then mret (Err InvalidOptions)
        else if MC.isVoter selfConfig && negb (MC.isVoter targetConfig)
        then mret (Err InvalidOptions)
        else
          hbdata ← reads (λ t, hbdata_at 457 t targetIndex);
          if _authIssue hbdata then mret (Err Unauthorized)
          else if _health hbdata =? 0 then mret (Err HostUnreachable)
          else
            let warning := OT.getSecs (HB.getAppliedOpTime hbdata) + 10 <? OT.getSecs lastOpApplied in
            let prev := if HP.empty (_syncSource t) then None
                        else Some (HP.toString (_syncSource t)) in
            setForceSyncSourceIndex targetIndex ;;
            mret (OK (mkSyncFrom warning prev)).

(** ** Switching sources *)
Definition better_candidate t (now goalSecs : Z) (entry : Z * MemberHeartbeatData)
    : outcome bool :=
  let '(itIndex, it) := entry in
  candidateConfig ← getMemberAt t itIndex;
  if negb (HB.up it) then Ret false
  else
    voterOK ← (if MC.isVoter candidateConfig then Ret true
               else self ← _selfConfig t; Ret (negb (MC.isVoter self)));
    if negb voterOK then Ret false
    else
      indexesOK ← (if mc_buildIndexes candidateConfig then Ret true
                   else self ← _selfConfig t; Ret (negb (mc_buildIndexes self)));
      if negb indexesOK then Ret false
      else if readable (HB.getState it) && negb (_memberIsBlacklisted t candidateConfig now) &&
              (goalSecs <? OT.getSecs (HB.getAppliedOpTime it)) then
        check 2553 (negb (itIndex =? _selfIndex t)) ;; Ret true
      else Ret false.

Definition shouldChangeSyncSource t (currentSource : HostAndPort) (myLastOpTime : OpTime)
    (replMetadata : ReplSetMetadata) (oqMetadata : option OplogQueryMetadata) (now : Z)
    : outcome bool :=
  if negb (_forceSyncSourceIndex t =? -1) then
    getMemberAt t (_forceSyncSourceIndex t) ;; Ret true
  else if (_protocolVersion (_rsConfig t) =? 1) &&
          negb (rm_configVersion replMetadata =? _version (_rsConfig t)) then Ret true
  else
    let currentSourceIndex := RSC.findMemberIndexByHostAndPort (_rsConfig t) currentSource in
    if currentSourceIndex =? -1 then Ret true
    else
      check 2486 (negb (currentSourceIndex =? _selfIndex t)) ;;
      d ← hbdata_at 2495 t currentSourceIndex;
      let '(sourceOp, syncSourceIndex, primaryIndex) :=
        match oqMetadata with
        | Some oq => (oq_lastOpApplied oq, oq_syncSourceIndex oq, oq_primaryIndex oq)
        | None => (rm_lastOpVisible replMetadata, rm_syncSourceIndex replMetadata,
                   rm_primaryIndex replMetadata)
        end in
      let currentSourceOpTime := OT.max sourceOp (HB.getAppliedOpTime d) in
      if OT.isNull currentSourceOpTime then Ret false
      else if (_protocolVersion (_rsConfig t) =? 1) && (syncSourceIndex =? -1) &&
              OT.leb currentSourceOpTime myLastOpTime && negb (primaryIndex =? currentSourceIndex)
      then
        (if 0 <=? primaryIndex then getMemberAt t primaryIndex ;; Ret tt else Ret tt) ;;
        Ret true
      else if disableMaxSyncSourceLagSecs (_options t) then Ret false
      else
        let currentSecs := u32 (OT.getSecs currentSourceOpTime) in
        let goalSecs := u32 (currentSecs + maxSyncSourceLagSecs (_options t)) in
        ofoldl (λ found entry,
          if (found : bool) then Ret true else better_candidate t now goalSecs entry)
          false (indexed (_hbdata t)).

(** ** Metadata attached to replies *)
Definition prepareReplSetMetadata t (lastVisibleOpTime lastCommittedOpTime : OpTime)
    : ReplSetMetadata :=
  mkReplSetMetadata (_term t) lastCommittedOpTime lastVisibleOpTime (_version (_rsConfig t))
    (_replicaSetId (_rsConfig t)) (_currentPrimaryIndex t)
    (RSC.findMemberIndexByHostAndPort (_rsConfig t) (_syncSource t)).
Definition prepareOplogQueryMetadata t (lastCommittedOpTime lastAppliedOpTime : OpTime) (rbid : Z)
    : OplogQueryMetadata :=
  mkOplogQueryMetadata lastCommittedOpTime lastAppliedOpTime rbid (_currentPrimaryIndex t)
    (RSC.findMemberIndexByHostAndPort (_rsConfig t) (_syncSource t)).
End TopoSync.
