(* ===== verification/TopologyHeartbeat.v ===== *)
(** * The topology coordinator: heartbeats
    (db/repl/topology_coordinator_impl.cpp)

    Requests and responses of both protocol versions, the bookkeeping of a
    received response, and the decisions taken from it: who is primary, whether to
    stand for election, to take over or to step down. *)
From S2P Require Import Prelude ReplTime ParseNumber HostAndPort ReplTag ReplConfig Heartbeat Topology TopologyElection TopologySync.

(** ReplSetHeartbeatArgs and ReplSetHeartbeatArgsV1. *)
Record ReplSetHeartbeatArgs := mkHBArgs {
  ha_protocolVersion : Z; ha_checkEmpty : bool; ha_setName : chars; ha_configVersion : Z;
  ha_senderId : Z; ha_senderHost : HostAndPort }.
#[export] Instance ReplSetHeartbeatArgs_eta : Eta ReplSetHeartbeatArgs := λ a,
  mkHBArgs (ha_protocolVersion a) (ha_checkEmpty a) (ha_setName a) (ha_configVersion a)
    (ha_senderId a) (ha_senderHost a).
Record ReplSetHeartbeatArgsV1 := mkHBArgsV1 {
  h1_setName : chars; h1_configVersion : Z; h1_senderId : Z; h1_term : Z;
  h1_senderHost : HostAndPort }.
#[export] Instance ReplSetHeartbeatArgsV1_eta : Eta ReplSetHeartbeatArgsV1 := λ a,
  mkHBArgsV1 (h1_setName a) (h1_configVersion a) (h1_senderId a) (h1_term a) (h1_senderHost a).

(** The fields of the reply to isMaster. *)
Record IsMasterResponse := mkIsMaster {
  im_noConfig : bool; im_hosts : list HostAndPort; im_passives : list HostAndPort;
  im_arbiters : list HostAndPort; im_setName : chars; im_setVersion : option Z;
  im_isMaster : bool; im_secondary : bool; im_primary : option HostAndPort;
  im_arbiterOnly : bool; im_passive : bool; im_slaveDelay : option Z; im_hidden : bool;
  im_buildIndexes : bool; im_tags : list (chars * chars); im_me : option HostAndPort;
  im_electionId : option Z }.
#[export] Instance IsMasterResponse_eta : Eta IsMasterResponse := λ r,
  mkIsMaster (im_noConfig r) (im_hosts r) (im_passives r) (im_arbiters r) (im_setName r)
    (im_setVersion r) (im_isMaster r) (im_secondary r) (im_primary r) (im_arbiterOnly r)
    (im_passive r) (im_slaveDelay r) (im_hidden r) (im_buildIndexes r) (im_tags r) (im_me r)
    (im_electionId r).
Definition im_default : IsMasterResponse :=
  mkIsMaster false [] [] [] [] None false false None false false None false true [] None None.

Module TopoHB.
Import Topo TopoElect TopoSync.
Implicit Types t : TopologyCoordinator.

Definition kMaxHeartbeatRetries : Z := 2.

(** ** Answering a heartbeat *)

(** Set name, version and config for the caller; then the caller's index, or -1. *)
Definition config_part t (callerVersion senderId : Z) (response : ReplSetHeartbeatResponse)
    : ReplSetHeartbeatResponse * Z :=
  if negb (_isInitialized (_rsConfig t)) then (response <| hr_configVersion := -2 |>, -1)
  else
    let v := _version (_rsConfig t) in
    let response := response <| hr_configVersion := i32 v |> in
    let response := if callerVersion <? v then response <| hr_config := Some (_rsConfig t) |>
                    else response in
    (response,
     if (v =? callerVersion) && negb (senderId =? -1) then _getMemberIndex t (i32 senderId) else -1).

(** Removed nodes and our own id are refused before anything else. *)
Definition refuse_sender t (myState : MemberState) (senderId : Z) : outcome (option ErrorCode) :=
  if _selfIndex t =? -1 then
    Ret (if state_eqb myState RS_REMOVED then Some InvalidReplicaSetConfig else None)
  else
    self ← _selfConfig t;
    Ret (if senderId =? mc_id self then Some BadValue else None).

Definition syncing_to t (response : ReplSetHeartbeatResponse) : ReplSetHeartbeatResponse :=
  if HP.empty (_syncSource t) then response else response <| hr_syncingTo := _syncSource t |>.

Definition prepareHeartbeatResponse (now : Z) (args : ReplSetHeartbeatArgs) (ourSetName : chars)
    (lastOpApplied lastOpDurable : OpTime) : TM (Status * ReplSetHeartbeatResponse) :=
  if negb (ha_protocolVersion args =? 1) then mret (Err BadValue, hr_default)
  else if negb (bool_decide (ourSetName = ha_setName args)) then
    mret (Err InconsistentReplicaSetNames, hr_default <| hr_mismatch := true |>)
  else
    t ← gets id;
    myState ← reads getMemberState;
    (if negb (_selfIndex t =? -1) then
       invariant 726 (λ t, bool_decide (_replSetName (_rsConfig t) = ha_setName args))
     else mret tt) ;;
    refused ← reads (λ t, refuse_sender t myState (ha_senderId args));
    match refused with
    | Some e => mret (Err e, hr_default)
    | None =>
        let response := hr_default <| hr_isReplSet := true |> <| hr_setName := ourSetName |>
                          <| hr_state := Some myState |> in
        let response := if state_eqb myState RS_PRIMARY
                        then response <| hr_electionTime := Some (_electionTime t) |>
                        else response in
        reason ← reads (λ t, _getMyUnelectableReason t now lastOpApplied false);
        let response := response <| hr_electable := Some (reason =? 0) |>
                          <| hr_hbmsg := _getHbmsg t now |> <| hr_time := Some (Z.quot now 1000) |>
                          <| hr_appliedOpTime := Some lastOpApplied |>
                          <| hr_durableOpTime := Some lastOpDurable |> in
        let response := syncing_to t response in
        let '(response, from) := config_part t (ha_configVersion args) (ha_senderId args) response in
        if from =? -1 then mret (OK tt, response)
        else
          invariant 778 (λ t, negb (from =? _selfIndex t)) ;;
          d ← reads (λ t, hbdata_at 781 t from);
          let response := if negb (HB.up d) then response <| hr_stateDisagreement := true |>
                          else response in
          modify (λ t, t <| _hbdata := vset from (d <| _lastHeartbeatRecv := now |>) (_hbdata t) |>) ;;
          mret (OK tt, response)
    end.

Definition prepareHeartbeatResponseV1 (now : Z) (args : ReplSetHeartbeatArgsV1)
    (ourSetName : chars) (lastOpApplied lastOpDurable : OpTime)
    : TM (Status * ReplSetHeartbeatResponse) :=
  if negb (bool_decide (ourSetName = h1_setName args)) then
    mret (Err InconsistentReplicaSetNames, hr_default)
  else
    t ← gets id;
    myState ← reads getMemberState;
    refused ← reads (λ t, refuse_sender t myState (h1_senderId args));
    match refused with
    | Some e => mret (Err e, hr_default)
    | None =>
        let response := hr_default <| hr_setName := ourSetName |> <| hr_state := Some myState |> in
        let response := if state_eqb myState RS_PRIMARY
                        then response <| hr_electionTime := Some (_electionTime t) |>
                        else response in
        let response := response <| hr_appliedOpTime := Some lastOpApplied |>
                          <| hr_durableOpTime := Some lastOpDurable |> in
        primary ← reads _currentPrimaryMember;
        let response := match primary with
                        | Some m => response <| hr_primaryId := Some (mc_id m) |>
                        | None => response
                        end in
        let response := response <| hr_term := _term t |> in
        let response := syncing_to t response in
        let '(response, from) := config_part t (h1_configVersion args) (h1_senderId args) response in
        if from =? -1 then mret (OK tt, response)
        else
          invariant 863 (λ t, negb (from =? _selfIndex t)) ;;
          d ← reads (λ t, hbdata_at 866 t from);
          modify (λ t, t <| _hbdata := vset from (d <| _lastHeartbeatRecv := now |>) (_hbdata t) |>) ;;
          mret (OK tt, response)
    end.

(** ** Sending a heartbeat *)

(** A new heartbeat starts when the retries or the time of the last one are used up;
    returns the time already elapsed. *)
Definition start_or_retry (now : Z) (target : HostAndPort) : TM Z :=
  hbStats ← touch_ping target;
  cfg ← gets _rsConfig;
  let alreadyElapsed := now - _lastHeartbeatStartDate hbStats in
  if negb (_isInitialized cfg) || (kMaxHeartbeatRetries <? _numFailuresSinceLastStart hbStats) ||
     (_heartbeatTimeoutPeriod cfg * 1000 <=? alreadyElapsed) then
    modify (λ t, t <| _pings := <[HP.key target := Ping.start now hbStats]> (_pings t) |>) ;;
    mret 0
  else mret alreadyElapsed.

Definition heartbeat_timeout t (alreadyElapsed : Z) : Z :=
  (if _isInitialized (_rsConfig t) then _heartbeatTimeoutPeriod (_rsConfig t) * 1000 else 10000)
  - alreadyElapsed.

Definition prepareHeartbeatRequest (now : Z) (ourSetName : chars) (target : HostAndPort)
    : TM (ReplSetHeartbeatArgs * Z) :=
  alreadyElapsed ← start_or_retry now target;
  t ← gets id;
  let hbArgs := mkHBArgs 1 false [] (-1) (-1) HP.default in
  hbArgs ←
    (if _isInitialized (_rsConfig t) then
       let hbArgs := hbArgs <| ha_setName := _replSetName (_rsConfig t) |>
                       <| ha_configVersion := _version (_rsConfig t) |> in
       if 0 <=? _selfIndex t then
         me ← reads _selfConfig;
         mret (hbArgs <| ha_senderHost := mc_host me |> <| ha_senderId := mc_id me |>)
       else mret hbArgs
     else mret (hbArgs <| ha_setName := ourSetName |> <| ha_configVersion := -2 |>));
  mret (hbArgs, heartbeat_timeout t alreadyElapsed).

Definition prepareHeartbeatRequestV1 (now : Z) (ourSetName : chars) (target : HostAndPort)
    : TM (ReplSetHeartbeatArgsV1 * Z) :=
  alreadyElapsed ← start_or_retry now target;
  t ← gets id;
  let hbArgs := mkHBArgsV1 [] (-1) (-1) (-1) HP.default in
  hbArgs ←
    (if _isInitialized (_rsConfig t) then
       let hbArgs := hbArgs <| h1_setName := _replSetName (_rsConfig t) |>
                       <| h1_configVersion := _version (_rsConfig t) |> in
       hbArgs ← (if 0 <=? _selfIndex t then
                   me ← reads _selfConfig;
                   mret (hbArgs <| h1_senderId := mc_id me |> <| h1_senderHost := mc_host me |>)
                 else mret hbArgs);
       mret (hbArgs <| h1_term := _term t |>)
     else mret (hbArgs <| h1_setName := ourSetName |> <| h1_configVersion := -2 |>
                  <| h1_term := OT.kInitialTerm |>));
  mret (hbArgs, heartbeat_timeout t alreadyElapsed).

(** ** Deciding from a response: protocol version 1 *)
Definition find_primary_v1 t : outcome Z :=
  ofoldl (λ primaryIndex '(i, member),
    if state_eqb (HB.getState member) RS_PRIMARY && HB.up member then
      if primaryIndex =? -1 then Ret i
      else d ← hbdata_at 1134 t primaryIndex;
           Ret (if HB.getTerm d <? HB.getTerm member then i else primaryIndex)
    else Ret primaryIndex) (-1) (indexed (_hbdata t)).

Definition can_take_over t (primaryIndex updatedConfigIndex : Z) : outcome bool :=
  d ← hbdata_at 1153 t primaryIndex;
  if (HB.getTerm d =? _term t) && (updatedConfigIndex =? primaryIndex) then
    p ← getMemberAt t primaryIndex;
    self ← getMemberAt t (_selfIndex t);
    Ret (Dbl.ltb (mc_priority p) (mc_priority self))
  else Ret false.

Definition _updatePrimaryFromHBDataV1 (updatedConfigIndex now : Z) (lastOpApplied : OpTime)
    : TM HeartbeatResponseAction :=
  invariant 1117 (λ t, negb (updatedConfigIndex =? _selfIndex t)) ;;
  t ← gets id;
  if _selfIndex t =? -1 then mret HRA.makeNoAction
  else if _currentPrimaryIndex t =? _selfIndex t then mret HRA.makeNoAction
  else
    primaryIndex ← reads find_primary_v1;
    modify (λ t, t <| _currentPrimaryIndex := primaryIndex |>) ;;
    if primaryIndex =? -1 then mret HRA.makeNoAction
    else
      setMyHeartbeatMessage now [] ;;
      takeover ← reads (λ t, can_take_over t primaryIndex updatedConfigIndex);
      mret (if (takeover : bool) then HRA.makePriorityTakeoverAction else HRA.makeNoAction).

(** Marks this node to step down, unless that is already under way. *)
Definition request_step_down_self : TM HeartbeatResponseAction :=
  pending ← gets _stepDownPending;
  if (pending : bool) then mret HRA.makeNoAction
  else
    modify (λ t, t <| _stepDownPending := true |>) ;;
    self ← gets _selfIndex;
    mret (HRA.makeStepDownSelfAction self).

Definition setMemberAsDown (now memberIndex : Z) (myLastOpApplied : OpTime)
    : TM HeartbeatResponseAction :=
  invariant 1089 (λ t, negb (memberIndex =? _selfIndex t)) ;;
  invariant 1090 (λ _, negb (memberIndex =? -1)) ;;
  invariant 1091 (λ t, _currentPrimaryIndex t =? _selfIndex t) ;;
  d ← reads (λ t, hbdata_at 1092 t memberIndex);
  modify (λ t, t <| _hbdata := vset memberIndex
    (HB.setDownValues now (RSC.str "no response within election timeout period") d) (_hbdata t) |>) ;;
  reason ← reads (λ t, _getMyUnelectableReason t now myLastOpApplied false);
  if negb (Z.land CannotSeeMajority reason =? 0) then request_step_down_self
  else mret HRA.makeNoAction.

(** ** Deciding from a response: protocol version 0 *)

(** Forget the primary when its own heartbeat no longer supports that. *)
Definition confirm_primary (updatedConfigIndex : Z) : TM () :=
  cpi ← gets _currentPrimaryIndex;
  if updatedConfigIndex =? cpi then
    d ← reads (λ t, hbdata_at 1194 t updatedConfigIndex);
    if negb (HB.up d) || negb (state_eqb (HB.getState d) RS_PRIMARY)
    then modify (λ t, t <| _currentPrimaryIndex := -1 |>) else mret tt
  else mret tt.

(** A member of higher priority than the primary is electable and fresh enough. *)
Definition outranking_member t (now : Z) (lastOpApplied : OpTime) : outcome (option Z) :=
  highestPriorityIndex ← _getHighestPriorityElectableIndex t now lastOpApplied;
  if negb (highestPriorityIndex =? -1) then
    currentPrimaryMember ← getMemberAt t (_currentPrimaryIndex t);
    highestPriorityMember ← getMemberAt t highestPriorityIndex;
    optime ← (if highestPriorityIndex =? _selfIndex t then Ret lastOpApplied
              else d ← hbdata_at 1210 t highestPriorityIndex; Ret (HB.getAppliedOpTime d));
    Ret (if Dbl.gtb (mc_priority highestPriorityMember) (mc_priority currentPrimaryMember) &&
            _isOpTimeCloseEnoughToLatestToElect t optime lastOpApplied
         then Some highestPriorityIndex else None)
  else Ret None.

(** Ask the primary, possibly ourselves, to make way for a higher priority. *)
Definition yield_to_priority (now : Z) (lastOpApplied : OpTime)
    : TM (option HeartbeatResponseAction) :=
  cpi ← gets _currentPrimaryIndex;
  if negb (cpi =? -1) then
    outranking ← reads (λ t, outranking_member t now lastOpApplied);
    match outranking with
    | None => mret None
    | Some highestPriorityIndex =>
        primary ← reads _iAmPrimary;
        if (primary : bool) then
          pending ← gets _stepDownPending;
          if (pending : bool) then mret (Some HRA.makeNoAction)
          else
            modify (λ t, t <| _stepDownPending := true |>) ;;
            modify (λ t,
              let until := now + leaseTime + _heartbeatInterval (_rsConfig t) in
              if _electionSleepUntil t <? until then t <| _electionSleepUntil := until |> else t) ;;
            self ← gets _selfIndex;
            mret (Some (HRA.makeStepDownSelfAction self))
        else
          t ← gets id;
          if (highestPriorityIndex =? _selfIndex t) && (_electionSleepUntil t <=? now) then
            modify (λ t, t <| _currentPrimaryIndex := -1 |>) ;;
            mret (Some (HRA.makeStepDownRemoteAction cpi))
          else mret None
    end
  else mret None.

(** The other members that claim to be primary. *)
Definition remote_primaries t : list Z :=
  (List.filter (λ '(itIndex, it), negb (itIndex =? _selfIndex t) &&
     (state_eqb (HB.getState it) RS_PRIMARY && HB.up it)) (indexed (_hbdata t))).*1.

(** Adopt the single remote primary, or resolve a conflict with ourselves by
    election time. *)
Definition adopt_remote_primary (now remotePrimaryIndex : Z) : TM HeartbeatResponseAction :=
  cpi ← gets _currentPrimaryIndex;
  if cpi =? remotePrimaryIndex then mret HRA.makeNoAction
  else
    setMyHeartbeatMessage now [] ;;
    primary ← reads _iAmPrimary;
    if (primary : bool) then
      d ← reads (λ t, hbdata_at 1285 t remotePrimaryIndex);
      mine ← gets _electionTime;
      if TS.gtb (HB.getElectionTime d) mine then request_step_down_self
      else mret (HRA.makeStepDownRemoteAction remotePrimaryIndex)
    else
      modify (λ t, t <| _currentPrimaryIndex := remotePrimaryIndex |>) ;;
      mret HRA.makeNoAction.

(** No remote primary: keep the majority in sight, or stand for election. *)
Definition no_remote_primary (originalState : MemberState) (now : Z) (lastOpApplied : OpTime)
    : TM HeartbeatResponseAction :=
  primary ← reads _iAmPrimary;
  if (primary : bool) then
    reason ← reads (λ t, _getMyUnelectableReason t now lastOpApplied false);
    if negb (Z.land CannotSeeMajority reason =? 0) then request_step_down_self
    else mret HRA.makeNoAction
  else
    invariant 1331 (λ t, _currentPrimaryIndex t =? -1) ;;
    currentState ← reads getMemberState;
    if state_eqb originalState RS_RECOVERING && state_eqb currentState RS_SECONDARY
    then mret HRA.makeNoAction
    else
      status ← reads (λ t, checkShouldStandForElection t now lastOpApplied);
      if negb (sw_isOK status) then mret HRA.makeNoAction
      else
        st ← becomeCandidateIfElectable now lastOpApplied false;
        invariant 1353 (λ _, sw_isOK st) ;;
        mret HRA.makeElectAction.

Definition _updatePrimaryFromHBData (updatedConfigIndex : Z) (originalState : MemberState)
    (now : Z) (lastOpApplied : OpTime) : TM HeartbeatResponseAction :=
  invariant 1180 (λ t, negb (updatedConfigIndex =? _selfIndex t)) ;;
  self ← gets _selfIndex;
  if self =? -1 then mret HRA.makeNoAction
  else
    confirm_primary updatedConfigIndex ;;
    yielded ← yield_to_priority now lastOpApplied;
    match yielded with
    | Some action => mret action
    | None =>
        remotes ← gets remote_primaries;
        match remotes with
        | _ :: _ :: _ => mret HRA.makeNoAction
        | [remotePrimaryIndex] => adopt_remote_primary now remotePrimaryIndex
        | [] => no_remote_primary originalState now lastOpApplied
        end
    end.

(** ** Receiving a response *)
Definition is_unauthorized (hbResponse : StatusWith ReplSetHeartbeatResponse) : bool :=
  match hbResponse with
  | Err e => bool_decide (e = Unauthorized) || bool_decide (e = AuthenticationFailed)
  | OK _ => false
  end.

(** The round trip counts, or the failure. *)
Definition record_ping (networkRoundTripTime : Z) (target : HostAndPort)
    (hbResponse : StatusWith ReplSetHeartbeatResponse) : TM PingStats :=
  hbStats ← touch_ping target;
  invariant 960 (λ _, negb (_lastHeartbeatStartDate hbStats =? 0)) ;;
  let hbStats := if negb (sw_isOK hbResponse) && negb (is_unauthorized hbResponse)
                 then Ping.miss hbStats else Ping.hit networkRoundTripTime hbStats in
  modify (λ t, t <| _pings := <[HP.key target := hbStats]> (_pings t) |>) ;;
  mret hbStats.

(** Twice as fast while arbiter or without a source, in protocol version 1. *)
Definition heartbeat_interval t : outcome Z :=
  if _protocolVersion (_rsConfig t) =? 1 then
    state ← getMemberState t;
    fast ← (if state_eqb state RS_ARBITER then Ret true
            else if HP.empty (_syncSource t) then p ← _iAmPrimary t; Ret (negb p)
            else Ret false);
    Ret (if (fast : bool) then Z.quot (_electionTimeoutPeriod (_rsConfig t)) 2
         else _heartbeatInterval (_rsConfig t))
  else Ret (_heartbeatInterval (_rsConfig t)).

Definition next_heartbeat_start t (now heartbeatInterval : Z) (hbStats : PingStats) : Z :=
  let alreadyElapsed := now - _lastHeartbeatStartDate hbStats in
  if (_numFailuresSinceLastStart hbStats <=? kMaxHeartbeatRetries) &&
     (alreadyElapsed <? _heartbeatTimeoutPeriod (_rsConfig t) * 1000)
  then now else now + heartbeatInterval.

Definition offers_newer_config t (hbResponse : StatusWith ReplSetHeartbeatResponse) : bool :=
  match hbResponse with
  | OK r =>
      match hr_config r with
      | Some newConfig =>
          (if _isInitialized (_rsConfig t) then _version (_rsConfig t) else -2)
            <? _version newConfig
      | None => false
      end
  | Err _ => false
  end.

(** What the response says about the member it came from. *)
Definition record_response t (now : Z) (hbStats : PingStats) (reason : chars)
    (hbResponse : StatusWith ReplSetHeartbeatResponse) (hbData : MemberHeartbeatData)
    : MemberHeartbeatData :=
  match hbResponse with
  | OK hbr => HB.setUpValues now hbr hbData
  | Err _ =>
      if is_unauthorized hbResponse then HB.setAuthIssue now hbData
      else if (kMaxHeartbeatRetries <? _numFailuresSinceLastStart hbStats) ||
              (_heartbeatTimeoutPeriod (_rsConfig t) * 1000 <=?
                 now - _lastHeartbeatStartDate hbStats)
      then HB.setDownValues now reason hbData
      else hbData
  end.

(** [reason] is the text of a failed status, which the down state keeps. *)
Definition processHeartbeatResponse (now networkRoundTripTime : Z) (target : HostAndPort)
    (hbResponse : StatusWith ReplSetHeartbeatResponse) (reason : chars) (myLastOpApplied : OpTime)
    : TM HeartbeatResponseAction :=
  originalState ← reads getMemberState;
  hbStats ← record_ping networkRoundTripTime target hbResponse;
  heartbeatInterval ← reads heartbeat_interval;
  t ← gets id;
  let next := next_heartbeat_start t now heartbeatInterval hbStats in
  if offers_newer_config t hbResponse then
    mret (HRA.setNextHeartbeatStartDate next HRA.makeReconfigAction)
  else if negb (_isInitialized (_rsConfig t)) then
    mret (HRA.setNextHeartbeatStartDate next HRA.makeNoAction)
  else
    let memberIndex := RSC.findMemberIndexByHostAndPort (_rsConfig t) target in
    if memberIndex =? -1 then mret (HRA.setNextHeartbeatStartDate next HRA.makeNoAction)
    else
      invariant 1047 (λ t, negb (memberIndex =? _selfIndex t)) ;;
      hbData ← reads (λ t, hbdata_at 1049 t memberIndex);
      modify (λ t, t <| _hbdata :=
        vset memberIndex (record_response t now hbStats reason hbResponse hbData) (_hbdata t) |>) ;;
      nextAction ←
        (if _protocolVersion (_rsConfig t) =? 0
         then _updatePrimaryFromHBData memberIndex originalState now myLastOpApplied
         else _updatePrimaryFromHBDataV1 memberIndex now myLastOpApplied);
      mret (HRA.setNextHeartbeatStartDate next nextAction).

(** ** isMaster *)
Definition classify_host (r : IsMasterResponse) (m : MemberConfig) : IsMasterResponse :=
  if mc_hidden m || (0 <? mc_slaveDelay m) then r
  else if MC.isElectable m then r <| im_hosts := im_hosts r ++ [mc_host m] |>
  else if MC.isArbiter m then r <| im_arbiters := im_arbiters r ++ [mc_host m] |>
  else r <| im_passives := im_passives r ++ [mc_host m] |>.

Definition user_tags (tagConfig : ReplSetTagConfig) (tags : list ReplSetTag)
    : outcome (list (chars * chars)) :=
  ofoldl (λ acc tag,
    tagKey ← Tag.getTagKey tagConfig tag;
    if MC.internal_key tagKey then Ret acc
    else value ← Tag.getTagValue tagConfig tag; Ret (acc ++ [(tagKey, value)])) [] tags.

Definition fillIsMasterForReplSet t : outcome IsMasterResponse :=
  myState ← getMemberState t;
  let cfg := _rsConfig t in
  if negb (_isInitialized cfg) then Ret (im_default <| im_noConfig := true |>)
  else
    let r := foldl classify_host im_default (_members cfg) in
    let r := r <| im_setName := _replSetName cfg |> in
    if state_eqb myState RS_REMOVED then Ret (r <| im_noConfig := true |>)
    else
      let r := r <| im_setVersion := Some (_version cfg) |>
                 <| im_isMaster := state_eqb myState RS_PRIMARY |>
                 <| im_secondary := state_eqb myState RS_SECONDARY |> in
      curPrimary ← _currentPrimaryMember t;
      let r := r <| im_primary := mc_host <$> curPrimary |> in
      selfConfig ← getMemberAt t (_selfIndex t);
      let r := if MC.isArbiter selfConfig then r <| im_arbiterOnly := true |>
               else if Dbl.eqb (mc_priority selfConfig) Dbl.zero then r <| im_passive := true |>
               else r in
      let r := if 0 <? mc_slaveDelay selfConfig
               then r <| im_slaveDelay := Some (mc_slaveDelay selfConfig) |> else r in
      let r := if mc_hidden selfConfig then r <| im_hidden := true |> else r in
      let r := if negb (mc_buildIndexes selfConfig) then r <| im_buildIndexes := false |> else r in
      hasTags ← MC.hasTags (_tagConfig cfg) selfConfig;
      tags ← (if (hasTags : bool) then user_tags (_tagConfig cfg) (mc_tags selfConfig) else Ret []);
      let r := r <| im_tags := tags |> <| im_me := Some (mc_host selfConfig) |> in
      primary ← _iAmPrimary t;
      Ret (if (primary : bool) then r <| im_electionId := Some (_electionId t) |> else r).
End TopoHB.
