(* ===== verification/TopologyInv.v ===== *)
(** * The topology coordinator never violates its assertions

    Every operation of the coordinator, called as its contract asks, preserves
    [Consistent] and aborts at none of the source's [invariant], [fassert] and
    bounds checks; hence neither does any sequence of calls from the constructor. *)
From S2P Require Import Prelude ReplTime ParseNumber HostAndPort ReplTag ReplConfig Heartbeat Topology TopologyElection TopologySync TopologyHeartbeat.

Module TopoInv.
Import Topo TopoElect TopoSync TopoHB.
Implicit Types t : TopologyCoordinator.

Definition claims_primary (d : MemberHeartbeatData) : Prop :=
  HB.up d = true ∧ HB.getState d = RS_PRIMARY.
(** A primary other than ourselves is one whose last heartbeat said so. *)
Definition Remote t : Prop :=
  _role t ≠ leader → _currentPrimaryIndex t ≠ -1 →
  ∃ d, _hbdata t !! Z.to_nat (_currentPrimaryIndex t) = Some d ∧ claims_primary d.
Record Consistent t : Prop := mkConsistent { con_inv : Inv t; con_remote : Remote t }.

(** ** Frame: the fields the invariant does not read *)
Record same_core t t' : Prop := mkSame {
  sc_role : _role t' = _role t; sc_cpi : _currentPrimaryIndex t' = _currentPrimaryIndex t;
  sc_force : _forceSyncSourceIndex t' = _forceSyncSourceIndex t;
  sc_self : _selfIndex t' = _selfIndex t; sc_cfg : _rsConfig t' = _rsConfig t;
  sc_hb : _hbdata t' = _hbdata t; sc_pending : _stepDownPending t' = _stepDownPending t;
  sc_maint : _maintenanceModeCalls t' = _maintenanceModeCalls t;
  sc_mode : _followerMode t' = _followerMode t;
  sc_rc : _storageEngineSupportsReadCommitted t' = _storageEngineSupportsReadCommitted t }.

Lemma same_core_Inv t t' : same_core t t' → Inv t → Inv t'.
Proof.
  intros [E1 E2 E3 E4 E5 E6 E7 E8 E9 E10] []. split; unfold index_ok, numMembers in *;
    rewrite ?E1, ?E2, ?E3, ?E4, ?E5, ?E6, ?E7, ?E8, ?E9, ?E10; assumption.
Qed.

Lemma same_core_Consistent t t' : same_core t t' → Consistent t → Consistent t'.
Proof.
  intros Hc [HI HR]. split; [by eapply same_core_Inv|].
  destruct Hc as [E1 E2 _ _ _ E6]. unfold Remote in *. by rewrite E1, E2, E6.
Qed.

(** Solves [Consistent (t <| f := v |> ...)] when only fields outside the core
    change. *)
Ltac frame := eapply same_core_Consistent; [|eassumption]; by split.
(** Splits [Consistent] of an updated state into its fields and solves the
    ones that are immediate. *)
Ltac inv_cases H :=
  let HR := fresh "HR" in
  destruct H as [[] HR]; split; [split|unfold Remote in *]; simpl;
  unfold index_ok, numMembers in *; simpl; try assumption; try done; try lia; try tauto.

Section role_changes.
Context t (HC : Consistent t).

Lemma role_follower_not_pending : _role t ≠ leader → _stepDownPending t = false.
Proof.
  intros Hr. destruct (_stepDownPending t) eqn:E; [|done].
  by apply (inv_pending t (con_inv t HC)) in E.
Qed.

Lemma not_self_primary : _role t ≠ leader → _selfIndex t ≠ -1 → _currentPrimaryIndex t ≠ _selfIndex t.
Proof.
  intros Hr Hs He. destruct HC as [HI HR].
  destruct (HR Hr) as (d & Hd & Hup & _); [by rewrite He|].
  rewrite He in Hd. by rewrite (inv_self_hb t HI Hs d Hd) in Hup.
Qed.

Lemma wp_setForceSyncSourceIndex i :
  index_ok t i → wp (setForceSyncSourceIndex i) (λ _, Consistent) t.
Proof.
  intros Hi. unfold setForceSyncSourceIndex. wp_simpl. split.
  - pose proof (inv_force t (con_inv t HC)). unfold index_ok in *. lia.
  - inv_cases HC.
Qed.

Lemma wp_processWinElection oid ts :
  _role t = candidate → wp (processWinElection oid ts) (λ _, Consistent) t.
Proof.
  intros Hr. unfold processWinElection, setElectionInfo. wp_simpl.
  unfold role_eqb. rewrite bool_decide_true by done. split_and!; [done..|].
  pose proof (role_follower_not_pending ltac:(congruence)).
  pose proof (vsize_nonneg (_members (_rsConfig t))).
  inv_cases HC; intros; split; auto.
Qed.

Lemma wp_processLoseElection :
  _role t = candidate → wp processLoseElection (λ _, Consistent) t.
Proof.
  intros Hr. unfold processLoseElection. wp_simpl.
  unfold role_eqb. rewrite bool_decide_true by done. split; [done|].
  pose proof (inv_candidate t (con_inv t HC) Hr) as Hs.
  pose proof (role_follower_not_pending ltac:(congruence)).
  set (t' := t <| _electionTime := TS.zero |> <| _electionId := 0 |> <| _role := follower |>).
  assert (Consistent t') as HC'.
  { assert (_role t ≠ leader) by congruence. inv_cases HC. }
  change (owp (_selfConfig t') (λ self, Consistent (if lease_whoId (_voteLease t') =? mc_id self
    then t' <| _voteLease := _voteLease t' <| lease_when := 0 |> |> else t'))).
  apply owp_selfConfig; [apply HC'|done|]. intros m _ _. destruct (_ =? _); [frame|done].
Qed.

Lemma wp_stepDownSelfAndReplaceWith i (Q : () → TopologyCoordinator → Prop) :
  _role t = leader → i ≠ _selfIndex t →
  Q tt (t <| _currentPrimaryIndex := i |> <| _role := follower |> <| _stepDownPending := false |>) →
  wp (_stepDownSelfAndReplaceWith i) Q t.
Proof.
  intros Hr Hi HQ. unfold _stepDownSelfAndReplaceWith. wp_simpl.
  destruct (inv_leader t (con_inv t HC) Hr) as [Hs Hp]. unfold role_eqb.
  rewrite bool_decide_true by done. rewrite Hp.
  split_and!; [done|lia|lia|lia|done].
Qed.

Lemma replaced_primary_Consistent i :
  _role t = leader → index_ok t i →
  (i ≠ -1 → ∃ d, _hbdata t !! Z.to_nat i = Some d ∧ claims_primary d) →
  Consistent (t <| _currentPrimaryIndex := i |> <| _role := follower |>
                <| _stepDownPending := false |>).
Proof.
  intros Hr Hi Hd. destruct (inv_leader t (con_inv t HC) Hr) as [Hs _].
  unfold index_ok, numMembers in Hi. inv_cases HC.
Qed.

Lemma has_caught_up_electable_total lastOpApplied :
  owp (has_caught_up_electable t lastOpApplied) (λ _, True).
Proof.
  apply (owp_ofoldl (λ _, True)); [done|]. intros found [i m] Hin _.
  pose proof (con_inv t HC) as HI. apply indexed_member_range in Hin.
  destruct found; [done|]. destruct (Z.eqb_spec i (_selfIndex t)); [done|].
  apply owp_bind. eapply owp_mono; [|by apply getUnelectableReason_spec].
  intros r _. destruct (r =? 0); [|done]. apply owp_bind, owp_hbdata; done.
Qed.

End role_changes.

Section step_down.
Context t (HC : Consistent t).

Lemma wp_step_down_now until :
  _role t = leader →
  wp (modify (λ t, t <| _stepDownUntil := until |>) ;; _stepDownSelfAndReplaceWith (-1) ;; mret true)
    (λ _, Consistent) t.
Proof.
  intros Hr. assert (Consistent (t <| _stepDownUntil := until |>)) as HC' by frame.
  destruct (inv_leader t (con_inv t HC) Hr) as [Hs _]. rewrite wp_bind, wp_modify, wp_bind.
  apply wp_stepDownSelfAndReplaceWith; [done..|]. rewrite wp_ret.
  apply replaced_primary_Consistent; [done..| |done].
  unfold index_ok. pose proof (vsize_nonneg (_members (_rsConfig t))). unfold numMembers. simpl. lia.
Qed.

Lemma wp_stepDown until force lastOpApplied :
  _role t = leader → wp (stepDown until force lastOpApplied) (λ _, Consistent) t.
Proof.
  intros Hr. unfold stepDown. destruct force; [by apply wp_step_down_now|].
  rewrite wp_bind, wp_reads. eapply owp_mono; [|by apply has_caught_up_electable_total].
  intros [] _; [by apply wp_step_down_now | by rewrite wp_ret].
Qed.

(** What the scan for a remote primary finds is a remote primary. *)
Lemma remote_primary_claims :
  remote_primary t = -1 ∨
  remote_primary t ≠ _selfIndex t ∧ 0 ≤ remote_primary t < numMembers t ∧
  ∃ d, _hbdata t !! Z.to_nat (remote_primary t) = Some d ∧ claims_primary d.
Proof.
  unfold remote_primary.
  assert (∀ l acc, (∀ i d, (i, d) ∈ l → 0 ≤ i < numMembers t ∧ _hbdata t !! Z.to_nat i = Some d) →
    (acc.1 = -1 ∨ acc.1 ≠ _selfIndex t ∧ 0 ≤ acc.1 < numMembers t ∧
      ∃ d, _hbdata t !! Z.to_nat acc.1 = Some d ∧ claims_primary d) →
    let r := (foldl (λ '(remotePrimaryIndex, stop) '(itIndex, it),
     if (stop : bool) then (remotePrimaryIndex, true)
     else if itIndex =? _selfIndex t then (remotePrimaryIndex, false)
     else if state_eqb (HB.getState it) RS_PRIMARY && HB.up it then
       if negb (remotePrimaryIndex =? -1) then (-1, true) else (itIndex, false)
     else (remotePrimaryIndex, false)) acc l).1 in
    r = -1 ∨ r ≠ _selfIndex t ∧ 0 ≤ r < numMembers t ∧
      ∃ d, _hbdata t !! Z.to_nat r = Some d ∧ claims_primary d) as Hgen.
  { induction l as [|[i d] l IH]; intros [r stop] Hl Hacc; [done|].
    destruct (Hl i d ltac:(left)) as [Hi Hd]. cbn [foldl].
    apply IH; [intros j e Hj; apply Hl; by right|].
    destruct stop; [done|]. destruct (Z.eqb_spec i (_selfIndex t)); [done|].
    destruct (state_eqb _ _ && _) eqn:E; [|done].
    apply andb_true_iff in E as [E1%bool_decide_eq_true E2].
    destruct (negb (r =? -1)); [by left|]. right. simpl. split_and!; [done|lia|lia|].
    exists d. done. }
  apply Hgen; [|by left]. intros i d Hin. pose proof (con_inv t HC) as HI.
  split; [by apply (indexed_hbdata_range t HI i d)|]. by apply elem_of_indexed in Hin as [_ ?].
Qed.

Lemma wp_stepDownIfPending : wp stepDownIfPending (λ _, Consistent) t.
Proof.
  unfold stepDownIfPending. rewrite wp_bind, wp_gets.
  destruct (_stepDownPending t) eqn:Hp; simpl; [|by rewrite wp_ret].
  pose proof (inv_pending t (con_inv t HC) Hp) as Hr.
  destruct (inv_leader t (con_inv t HC) Hr) as [Hs _].
  rewrite wp_bind, wp_gets, wp_bind.
  pose proof remote_primary_claims as Hrem. pose proof (vsize_nonneg (_members (_rsConfig t))).
  apply wp_stepDownSelfAndReplaceWith; [done|done|destruct Hrem as [->|[? _]]; congruence|].
  rewrite wp_ret. apply replaced_primary_Consistent; [done|done|..].
  - unfold index_ok, numMembers in *. destruct Hrem as [->|(_ & ? & _)]; lia.
  - intros Hne. by destruct Hrem as [?|(_ & _ & ?)].
Qed.

Lemma wp_prepareForStepDown : _role t = leader → wp prepareForStepDown (λ _, Consistent) t.
Proof. intros Hr. unfold prepareForStepDown. wp_simpl. inv_cases HC. Qed.
End step_down.

Section standing.
Context t (HC : Consistent t).

Lemma isElectableNodeInSingleNodeReplicaSet_spec :
  owp (_isElectableNodeInSingleNodeReplicaSet t) (λ b, b = true → _selfIndex t = 0).
Proof.
  unfold _isElectableNodeInSingleNodeReplicaSet. destruct (_ && _) eqn:E; [|done].
  apply andb_true_iff in E as [_ Hs%Z.eqb_eq].
  apply owp_bind, owp_selfConfig; [apply HC|lia|]. intros m _ _. simpl. lia.
Qed.

Lemma candidate_Consistent :
  _role t ≠ leader → _selfIndex t ≠ -1 → Consistent (t <| _role := candidate |>).
Proof.
  intros Hr Hs. pose proof (role_follower_not_pending t HC Hr). inv_cases HC.
  all: intros; congruence.
Qed.

Lemma wp_become_candidate_if_single :
  _role t ≠ leader → wp become_candidate_if_single (λ _, Consistent) t.
Proof.
  intros Hr. unfold become_candidate_if_single. rewrite wp_bind, wp_reads.
  eapply owp_mono; [|apply isElectableNodeInSingleNodeReplicaSet_spec].
  intros [] Hb; [|by rewrite wp_ret]. wp_simpl. apply candidate_Consistent; [done|].
  specialize (Hb eq_refl). lia.
Qed.

Lemma wp_becomeCandidateIfElectable now lastOpApplied tk :
  wp (becomeCandidateIfElectable now lastOpApplied tk)
    (λ st t', Consistent t' ∧
      (sw_isOK st = true ↔ _role t = follower ∧ can_stand t now lastOpApplied tk) ∧
      (sw_isOK st = true → t' = t <| _role := candidate |>)) t.
Proof.
  unfold becomeCandidateIfElectable. wp_simpl. unfold role_eqb.
  case_bool_decide as Hl.
  { wp_simpl. split_and!; [done| |done]. split; [done|]. intros [? _]. congruence. }
  case_bool_decide as Hc.
  { wp_simpl. split_and!; [done| |done]. split; [done|]. intros [? _]. congruence. }
  wp_simpl. assert (_role t = follower) as Hf by (destruct (_role t); done).
  eapply owp_mono; [|apply (getMyUnelectableReason_spec t (con_inv t HC))].
  intros r [Hm Hr]. destruct (Z.eqb_spec r 0) as [Hz|Hz]; simpl; wp_simpl.
  - pose proof (proj1 Hr Hz) as Hcan. split_and!; [|done|done].
    apply candidate_Consistent; [done|]. by destruct Hcan as (_ & _ & Hs & _).
  - eapply owp_mono; [|by apply reason_string_total]. intros _ _.
    split_and!; [done| |done]. split; [done|]. intros [_ Hcan]. by apply Hr in Hcan.
Qed.
End standing.

Lemma wp_setFollowerMode t mode :
  Consistent t → _role t = follower → follower_mode_ok mode →
  wp (setFollowerMode mode) (λ _, Consistent) t.
Proof.
  intros HC Hr Hm. unfold setFollowerMode. rewrite wp_bind, wp_invariant. unfold role_eqb.
  rewrite bool_decide_true by done. split; [done|]. rewrite wp_bind.
  assert (Consistent (t <| _followerMode := mode |>)) as HC' by inv_cases HC.
  assert (wp (mode ← gets _followerMode;
    if negb (state_eqb mode RS_SECONDARY) then mret tt else become_candidate_if_single ;; mret tt)
    (λ _, Consistent) (t <| _followerMode := mode |>)) as Hrest.
  { rewrite wp_bind, wp_gets. destruct (negb _); [by rewrite wp_ret|]. rewrite wp_bind.
    eapply wp_mono; [|apply wp_become_candidate_if_single; [done|simpl; congruence]].
    intros a t' Ht'. by rewrite wp_ret. }
  destruct Hm as [-> | [-> | [-> | -> ]]]; rewrite wp_modify; exact Hrest.
Qed.

Lemma wp_prepareFreezeResponse t now secs :
  Consistent t → wp (prepareFreezeResponse now secs) (λ _, Consistent) t.
Proof.
  intros HC. unfold prepareFreezeResponse. rewrite wp_bind, wp_gets.
  destruct (role_eqb (_role t) follower) eqn:Hr; simpl; [|by rewrite wp_ret].
  apply bool_decide_eq_true in Hr. destruct (secs =? 0).
  - assert (Consistent (t <| _stepDownUntil := now |>)) as HC' by frame.
    rewrite wp_bind, wp_modify, wp_bind.
    eapply wp_mono; [|apply wp_become_candidate_if_single; [done|simpl; congruence]].
    intros a t' Ht'. by rewrite wp_ret.
  - wp_simpl. frame.
Qed.

Lemma wp_becomeCandidateIfStepdownPeriodOver t now :
  Consistent t → _role t = follower →
  wp (becomeCandidateIfStepdownPeriodOverAndSingleNodeSet now) (λ _, Consistent) t.
Proof.
  intros HC Hr. unfold becomeCandidateIfStepdownPeriodOverAndSingleNodeSet.
  rewrite wp_bind, wp_gets. destruct (_ <? _); [by rewrite wp_ret|].
  apply wp_become_candidate_if_single; [done|congruence].
Qed.

(** ** Small updates *)
Section small_updates.
Context t (HC : Consistent t).

Lemma wp_adjustMaintenanceCountBy inc :
  _role t = follower → 0 ≤ _maintenanceModeCalls t + inc ≤ INT_MAX →
  wp (adjustMaintenanceCountBy inc) (λ _, Consistent) t.
Proof.
  intros Hr Hi. unfold adjustMaintenanceCountBy. wp_simpl. unfold role_eqb.
  rewrite bool_decide_true by done.
  rewrite i32_small by (unfold INT_MIN, INT_MAX in *; lia). simpl.
  split_and!; [done|lia|]. inv_cases HC.
Qed.

Lemma wp_setStorageEngineSupportsReadCommitted b :
  wp (setStorageEngineSupportsReadCommitted b) (λ _, Consistent) t.
Proof.
  unfold setStorageEngineSupportsReadCommitted. wp_simpl. inv_cases HC. by destruct b.
Qed.

(** Replacing the entry of a member other than ourselves by one that still
    supports the current primary. *)
Lemma vset_hbdata_Inv i d :
  0 ≤ i → i ≠ _selfIndex t → HB.wf d → Inv (t <| _hbdata := vset i d (_hbdata t) |>).
Proof.
  intros Hi0 Hi Hd. destruct HC as [HI _]. pose proof (inv_hbwf t HI) as Hwf.
  pose proof (inv_self t HI). destruct HI. split; simpl; unfold index_ok, numMembers in *;
    simpl; try done.
  - unfold vset. case_match; [by rewrite length_insert|done].
  - by apply Forall_vset.
  - intros Hs e. unfold vset. case_match; [|by auto].
    rewrite list_lookup_insert_ne by lia. auto.
Qed.

Lemma vset_hbdata_Consistent i d d' :
  0 ≤ i → i ≠ _selfIndex t → HB.wf d' → _hbdata t !! Z.to_nat i = Some d →
  (claims_primary d → claims_primary d') →
  Consistent (t <| _hbdata := vset i d' (_hbdata t) |>).
Proof.
  intros Hi0 Hi Hd' Hd Hcl. split; [by apply vset_hbdata_Inv|].
  intros Hr Hp. simpl in *. destruct (con_remote t HC Hr Hp) as (e & He & Hce).
  unfold vset. destruct (Z.leb_spec 0 i); [|lia].
  destruct (decide (Z.to_nat i = Z.to_nat (_currentPrimaryIndex t))) as [Heq|Hne].
  - rewrite <-Heq in *. rewrite list_lookup_insert_eq by (by eapply lookup_lt_Some).
    exists d'. naive_solver.
  - rewrite list_lookup_insert_ne by done. eauto.
Qed.

Lemma wp_restartHeartbeats : wp restartHeartbeats (λ _, Consistent) t.
Proof.
  unfold restartHeartbeats. wp_simpl. destruct HC as [HI HR]. split.
  - destruct HI. split; simpl; unfold index_ok, numMembers in *; simpl; try done.
    + by rewrite length_map.
    + apply Forall_fmap. eapply Forall_impl; [done|]. intros d. apply HB.restart_wf.
    + intros Hs d. change (map HB.restart (_hbdata t)) with (HB.restart <$> _hbdata t).
      rewrite list_lookup_fmap. intros (d' & Hd' & ->)%fmap_Some. by apply (inv_self_hb0 Hs d').
  - intros Hr Hp. simpl in *. destruct (HR Hr Hp) as (d & Hd & Hc).
    change (map HB.restart (_hbdata t)) with (HB.restart <$> _hbdata t).
    rewrite list_lookup_fmap, Hd. simpl. by exists (HB.restart d).
Qed.

Lemma wp_updateTerm term now (Q : UpdateTermResult → TopologyCoordinator → Prop) :
  (term ≤ _term t → Q kAlreadyUpToDate t) →
  (_term t < term → _role t = leader →
   Q kTriggerStepDown (t <| _electionSleepUntil := now + _electionTimeoutPeriod (_rsConfig t) |>)) →
  (_term t < term → _role t ≠ leader →
   Q kUpdatedTerm (t <| _electionSleepUntil := now + _electionTimeoutPeriod (_rsConfig t) |>
                     <| _term := term |>)) →
  wp (updateTerm term now) Q t.
Proof.
  intros H1 H2 H3. unfold updateTerm. rewrite wp_bind, wp_gets.
  destruct (Z.leb_spec term (_term t)); [by rewrite wp_ret; apply H1|].
  rewrite wp_bind, wp_modify, wp_bind, wp_reads. set (t' := t <| _electionSleepUntil := _ |>).
  assert (Inv t') as HI' by (apply (same_core_Inv t); [by split|apply HC]).
  rewrite (iAmPrimary_spec t' HI'). cbn [owp]. unfold role_eqb.
  case_bool_decide as Hr; [rewrite wp_ret | rewrite wp_bind, wp_modify, wp_ret]; auto.
Qed.

Lemma wp_voteForMyself now : wp (voteForMyself now) (λ _, Consistent) t.
Proof.
  unfold voteForMyself. rewrite wp_bind, wp_gets.
  destruct (role_eqb (_role t) candidate) eqn:Hr; simpl; [|by rewrite wp_ret].
  apply bool_decide_eq_true in Hr. rewrite wp_bind, wp_reads.
  apply owp_selfConfig; [apply HC|by apply (inv_candidate t (con_inv t HC))|].
  intros m _ _. wp_simpl. destruct (_ && _); wp_simpl; [done|frame].
Qed.
End small_updates.

(** ** Votes of protocol version 1 *)

(** What the sender of a vote request must respect, and the index kept of the last
    vote. *)
Definition vote_request_ok t (args : ReplSetRequestVotesArgs) : Prop :=
  _selfIndex t ≠ -1 ∧ 0 ≤ va_candidateIndex args < numMembers t ∧ numMembers t ≤ INT_MAX ∧
  (va_dryRun args = false → lv_term (_lastVote t) = va_term args →
   0 ≤ lv_candidateIndex (_lastVote t) < numMembers t).

(** Member [j] is a healthy primary that the candidate at [c] does not outrank. *)
Definition healthy_rival t (c j : Z) : Prop :=
  ∃ d m mc, _hbdata t !! Z.to_nat j = Some d ∧ _members (_rsConfig t) !! Z.to_nat j = Some m ∧
    _members (_rsConfig t) !! Z.to_nat c = Some mc ∧
    HB.up d = true ∧ HB.getState d = RS_PRIMARY ∧ j ≠ c ∧
    Dbl.leb (mc_priority mc) (mc_priority m) = true.

Lemma findHealthyPrimary_spec t c :
  Inv t → 0 ≤ c < numMembers t →
  owp (_findHealthyPrimaryOfEqualOrGreaterPriority t c) (λ r,
    (r = -1 ∧ ∀ j, 0 ≤ j < numMembers t → ¬ healthy_rival t c j) ∨
    (0 ≤ r < numMembers t ∧ healthy_rival t c r)).
Proof.
  intros HI Hc. unfold _findHealthyPrimaryOfEqualOrGreaterPriority.
  apply owp_bind, owp_member; [done|]. intros mc Hmc _.
  eapply owp_mono; [|apply (owp_ofoldl_prefix (λ pre r,
    (r = -1 ∧ ∀ j, j ∈ pre.*1 → ¬ healthy_rival t c j) ∨ (0 ≤ r < numMembers t ∧ healthy_rival t c r)))].
  - intros r [[-> Hn]|?]; [left; split; [done|]|by right]. intros j Hj. apply Hn.
    destruct (lookup_lt_is_Some_2 (_hbdata t) (Z.to_nat j)) as [d Hd].
    { rewrite (inv_hblen t HI). unfold numMembers, vsize in Hj. lia. }
    apply list_elem_of_fmap. exists (j, d). split; [done|]. apply elem_of_indexed. split; [lia|done].
  - left. split; [done|]. intros j Hj. by apply elem_of_nil in Hj.
  - intros pre [j d] post r Hl Hr. assert ((j, d) ∈ indexed (_hbdata t)) as Hin.
    { rewrite Hl. apply elem_of_app. right. left. }
    pose proof (indexed_hbdata_range t HI _ _ Hin) as [Hj _]. apply elem_of_indexed in Hin as [_ Hd].
    destruct Hr as [[-> Hn]|[Hr Hriv]].
    2:{ rewrite (proj2 (Z.eqb_neq r (-1))) by lia. simpl. by right. }
    assert (¬ healthy_rival t c j →
      ∀ k, k ∈ (pre ++ [(j, d)]).*1 → ¬ healthy_rival t c k) as Hstep.
    { intros Hj' k. rewrite fmap_app, elem_of_app. csimpl. rewrite list_elem_of_singleton.
      intros [?| -> ]; auto. }
    cbn [negb Z.eqb]. destruct (negb (HB.up d) || _) eqn:Hdown.
    { left. split; [done|]. apply Hstep. intros (d' & m' & mc' & Hd' & _ & _ & Hu & Hp & _).
      simplify_eq. rewrite Hu, Hp in Hdown. by vm_compute in Hdown. }
    apply owp_bind, owp_member; [done|]. intros m Hm _.
    apply orb_false_iff in Hdown as [Hu%negb_false_iff Hp%negb_false_iff%bool_decide_eq_true].
    destruct (_ && _) eqn:Hb; simpl.
    + right. split; [done|]. apply andb_true_iff in Hb as [?%negb_true_iff%Z.eqb_neq ?].
      exists d, m, mc. by split_and!.
    + left. split; [done|]. apply Hstep. intros (d' & m' & mc' & ? & ? & ? & _ & _ & Hne & Hle).
      simplify_eq. by rewrite (proj2 (Z.eqb_neq _ _) Hne), Hle in Hb.
Qed.

(** The conditions under which a vote is granted. *)
Definition may_grant_vote t (args : ReplSetRequestVotesArgs) (lastApplied : OpTime) : Prop :=
  _term t ≤ va_term args ∧ va_cfgver args = _version (_rsConfig t) ∧
  va_setName args = _replSetName (_rsConfig t) ∧
  OT.ltb (va_lastDurableOpTime args) lastApplied = false ∧
  (va_dryRun args = false → lv_term (_lastVote t) ≠ va_term args) ∧
  ∀ self, _selfConfig t = Ret self → MC.isArbiter self = true →
    ∀ j, 0 ≤ j < numMembers t → ¬ healthy_rival t (va_candidateIndex args) j.

Lemma wp_processReplSetRequestVotes t args lastApplied :
  Consistent t → vote_request_ok t args →
  wp (processReplSetRequestVotes args lastApplied) (λ r t',
    Consistent t' ∧ vr_term r = _term t ∧
    t' = (if vr_voteGranted r && negb (va_dryRun args)
          then t <| _lastVote := mkLastVote (va_term args) (va_candidateIndex args) |> else t) ∧
    (vr_voteGranted r = true ↔ may_grant_vote t args lastApplied)) t.
Proof.
  intros HC (Hs & Hc & Hn & Hlv). pose proof (con_inv t HC) as HI.
  unfold processReplSetRequestVotes. rewrite wp_bind, wp_gets. unfold id.
  assert (¬ may_grant_vote t args lastApplied →
    wp (mret (mkVoteResponse (_term t) false)) (λ r t', Consistent t' ∧ vr_term r = _term t ∧
      t' = (if vr_voteGranted r && negb (va_dryRun args)
            then t <| _lastVote := mkLastVote (va_term args) (va_candidateIndex args) |> else t) ∧
      (vr_voteGranted r = true ↔ may_grant_vote t args lastApplied)) t) as Hrefuse.
  { intros Hno. rewrite wp_ret. by split_and!. }
  destruct (Z.ltb_spec (va_term args) (_term t)); [apply Hrefuse; intros (? & _); lia|].
  destruct (Z.eqb_spec (va_cfgver args) (_version (_rsConfig t))); cbn [negb];
    [|apply Hrefuse; intros (_ & ? & _); done].
  case_bool_decide; cbn [negb]; [|apply Hrefuse; intros (_ & _ & ? & _); done].
  destruct (OT.ltb _ _) eqn:Hfresh; [apply Hrefuse; intros (_ & _ & _ & ? & _); congruence|].
  destruct (negb (va_dryRun args) && (lv_term (_lastVote t) =? va_term args)) eqn:Hvoted.
  { apply andb_true_iff in Hvoted as [Hd%negb_true_iff He%Z.eqb_eq].
    rewrite wp_bind, wp_reads. apply owp_member; [by apply Hlv|]. intros m _ _. apply Hrefuse.
    intros (_ & _ & _ & _ & Hne & _). by apply Hne. }
  rewrite wp_bind, wp_reads, i32_small by (unfold INT_MIN, INT_MAX in *; lia).
  eapply owp_mono; [|by apply findHealthyPrimary_spec]. intros better Hb. cbn beta in Hb.
  assert (owp (_selfConfig t) (λ _, True)) as (self & Hself & _)%owp_Ret
    by (apply owp_selfConfig; done).
  rewrite wp_bind, wp_reads, Hself. cbn [owp].
  destruct (MC.isArbiter self && (0 <=? better)) eqn:Hbetter.
  { apply andb_true_iff in Hbetter as [Ha Hpos%Z.leb_le]. destruct Hb as [[? _]|[Hr Hriv]]; [lia|].
    rewrite wp_bind, wp_reads. apply owp_member; [lia|]. intros m _ _. apply Hrefuse.
    intros (_ & _ & _ & _ & _ & Hno). by apply (Hno self Hself Ha better). }
  assert (may_grant_vote t args lastApplied) as Hgrant.
  { split_and!; try done.
    - intros Hd Hl. by rewrite Hd, Hl, Z.eqb_refl in Hvoted.
    - intros self' Hs' Ha. rewrite Hself in Hs'. injection Hs' as <-. rewrite Ha in Hbetter.
      destruct Hb as [[_ ?]|[? _]]; [done|]. simpl in Hbetter. lia. }
  rewrite wp_bind. destruct (va_dryRun args) eqn:Hd; cbn [negb].
  - rewrite !wp_ret. simpl. by split_and!.
  - rewrite wp_modify, wp_ret. simpl. split_and!; [frame|done..].
Qed.

(** ** replSetFresh and replSetElect *)
Lemma getHighestPriority_range t now lastOpApplied :
  Inv t → owp (_getHighestPriorityElectableIndex t now lastOpApplied)
            (λ r, -1 ≤ r < numMembers t).
Proof.
  intros HI. eapply owp_mono; [|by apply getHighestPriorityElectableIndex_spec].
  intros r [[-> _]|[? _]]; [|lia]. pose proof (vsize_nonneg (_members (_rsConfig t))).
  unfold numMembers. lia.
Qed.

Lemma getMemberIndex_spec t id :
  let i := _getMemberIndex t id in
  i = -1 ∨ 0 ≤ i < numMembers t ∧ ∃ m, _members (_rsConfig t) !! Z.to_nat i = Some m ∧ mc_id m = id.
Proof.
  simpl. unfold _getMemberIndex, RSC.findMemberIndexByConfigId, numMembers.
  destruct (index_where_range (λ m, mc_id m =? id) (_members (_rsConfig t))) as [H|H]; [by left|right].
  split; [done|]. destruct (index_where_found (λ m, mc_id m =? id) (_members (_rsConfig t)))
    as (m & Hm & Hid & _); [lia|]. exists m. split; [done|lia].
Qed.

Lemma mask_ok_land r x : mask_ok r → mask_ok (Z.land r x).
Proof.
  unfold mask_ok. intros Hr. assert (Z.land r x = Z.land r x mod 2 ^ 11) as ->.
  { rewrite <-Z.land_ones, <-Z.land_assoc, (Z.land_comm x), Z.land_assoc, Z.land_ones by lia.
    by rewrite Z.mod_small. }
  by apply Z.mod_pos_bound.
Qed.

Lemma shouldVetoMember_total t args now lastOpApplied :
  Inv t → _getMemberIndex t (i32 (fa_id args)) ≠ _selfIndex t →
  owp (_shouldVetoMember t args now lastOpApplied) (λ _, True).
Proof.
  intros HI Hne. unfold _shouldVetoMember. destruct (_ <? _); [done|].
  set (hi := _getMemberIndex t (i32 (fa_id args))) in *. unfold check.
  destruct (Z.eqb_spec hi (_selfIndex t)); [done|]. apply owp_bind. cbn [negb owp].
  apply owp_bind. eapply owp_mono; [|by apply getHighestPriority_range].
  intros hp Hhp. cbn beta in Hhp. destruct (Z.eqb_spec hi (-1)); [done|].
  assert (0 ≤ hi < numMembers t) as Hhi.
  { by destruct (getMemberIndex_spec t (i32 (fa_id args))) as [?|[? _]]. }
  clearbody hi. rewrite (iAmPrimary_spec t HI). apply owp_bind.
  apply (owp_mono _ (λ _, True)); [intros [] _; [done|]|].
  2:{ apply owp_bind. cbn [owp]. destruct (role_eqb _ _); [|done].
      apply owp_bind, owp_hbdata; done. }
  apply owp_bind. apply (owp_mono _ (λ _, True)); [intros [] _; [done|]|].
  2:{ destruct (Z.eqb_spec (_currentPrimaryIndex t) (-1)); [done|].
      destruct (_ =? _); [done|]. cbn [negb andb].
      pose proof (inv_primary t HI). unfold index_ok in *.
      apply owp_bind, owp_hbdata; [done|lia|]. intros d _ _.
      apply owp_bind, owp_hbdata; done. }
  apply owp_bind. apply (owp_mono _ (λ _, True)); [intros [] _; [done|]|].
  2:{ destruct (Z.eqb_spec hp (-1)); [done|]. cbn [negb].
      apply owp_bind, owp_member; [done|]. intros m1 _ _.
      apply owp_bind, owp_member; [lia|done]. }
  apply owp_bind. eapply owp_mono; [|by apply getUnelectableReason_spec].
  intros r [Hm _]. destruct (Z.eqb_spec (Z.land r (Z.lnot RefusesToStand)) 0); [done|].
  cbn [negb]. apply owp_bind. eapply owp_mono; [|apply reason_string_total; [|done]]; [done|].
  by apply mask_ok_land.
Qed.

(** The reply to replSetFresh never aborts: a request that carries our own id is
    refused before the veto asserts that it does not. *)
Lemma prepareFreshResponse_total t args now lastOpApplied :
  Inv t → 0 ≤ fa_id args < two32 → owp (prepareFreshResponse t args now lastOpApplied) (λ _, True).
Proof.
  intros HI Hid. unfold prepareFreshResponse. destruct (negb _); [done|].
  destruct (Z.eqb_spec (_selfIndex t) (-1)) as [|Hs]; [done|]. destruct (negb _); [done|].
  apply owp_bind, owp_selfConfig; [done..|]. intros self Hself _.
  destruct (Z.eqb_spec (fa_id args) (u32 (mc_id self))) as [|Hne]; [done|].
  apply owp_bind. eapply owp_mono; [|apply shouldVetoMember_total]; [done|done|].
  intros Heq. apply Hne. destruct (getMemberIndex_spec t (i32 (fa_id args))) as [?|(_ & m & Hm & Hmid)].
  { congruence. }
  rewrite Heq, Hself in Hm. injection Hm as <-. rewrite Hmid. by rewrite u32_i32.
Qed.

Lemma elect_vote_total t args now hp primary hopeful :
  Inv t → _selfIndex t ≠ -1 → (∀ m, hopeful = Some m → mc_id m = ea_whoid args) →
  owp (elect_vote t args now hp primary hopeful) (λ _, True).
Proof.
  intros HI Hs Hh. unfold elect_vote. destruct (negb _); [done|].
  do 2 (destruct (_ <? _); [done|]). destruct hopeful as [m|]; [|done].
  rewrite (iAmPrimary_spec t HI). apply owp_bind. cbn [owp].
  destruct (role_eqb _ _); [done|]. case_bool_decide; [done|].
  destruct (from_option _ _ _); [done|]. destruct (_ && _); [done|].
  apply owp_bind, owp_selfConfig; [done..|]. intros self _ _.
  unfold check. rewrite (Hh m eq_refl), Z.eqb_refl. done.
Qed.

Lemma findMemberByID_id c id m : RSC.findMemberByID c id = Some m → mc_id m = id.
Proof. intros H. apply List.find_some in H as [_ H]. lia. Qed.

Lemma currentPrimaryMember_total t : Inv t → owp (_currentPrimaryMember t) (λ _, True).
Proof.
  intros HI. unfold _currentPrimaryMember. destruct (Z.eqb_spec (_currentPrimaryIndex t) (-1)); [done|].
  pose proof (inv_primary t HI). unfold index_ok in *. apply owp_bind, owp_member; [lia|done].
Qed.

Lemma wp_prepareElectResponse t args now lastOpApplied :
  Consistent t → wp (prepareElectResponse args now lastOpApplied) (λ _, Consistent) t.
Proof.
  intros HC. pose proof (con_inv t HC) as HI. unfold prepareElectResponse.
  rewrite wp_bind, wp_gets. destruct (negb _); [by rewrite wp_ret|].
  rewrite wp_bind, wp_gets. destruct (Z.eqb_spec (_selfIndex t) (-1)) as [|Hs]; [by rewrite wp_ret|].
  rewrite wp_bind, wp_reads. eapply owp_mono; [|by apply getHighestPriority_range].
  intros hp Hhp. cbn beta in Hhp. rewrite wp_bind, wp_reads.
  eapply owp_mono; [|by apply currentPrimaryMember_total]. intros primary _.
  rewrite wp_bind, wp_gets, wp_bind, wp_reads.
  apply (owp_mono _ (λ _, True)); [intros hpm _|].
  2:{ destruct (Z.eqb_spec hp (-1)); [done|]. apply owp_bind, owp_member; [lia|done]. }
  rewrite wp_bind, wp_reads. eapply owp_mono; [|apply elect_vote_total; [done|done|]].
  2:{ intros m. apply findMemberByID_id. }
  intros [vote [lease|]] _; rewrite wp_bind; [rewrite wp_modify|rewrite wp_ret]; rewrite wp_ret;
    [frame|done].
Qed.

(** ** Reconfiguration *)
Lemma updated_hbdata_ok t newConfig selfIndex :
  Inv t →
  let hb := map (λ '(index, newMember),
    if index =? selfIndex then HB.default
    else
      let oldIndex := index_where (λ old,
        (mc_id old =? mc_id newMember) && HP.eqb (mc_host old) (mc_host newMember))
        (_members (_rsConfig t)) in
      if oldIndex =? -1 then HB.default
      else default HB.default (_hbdata t !! Z.to_nat oldIndex)) (indexed (_members newConfig)) in
  length hb = length (_members newConfig) ∧ Forall HB.wf hb ∧
  (0 ≤ selfIndex → ∀ d, hb !! Z.to_nat selfIndex = Some d → d = HB.default).
Proof.
  intros HI. simpl. set (f := λ x, _). split_and!.
  - rewrite length_map. unfold indexed. by rewrite length_imap.
  - apply Forall_fmap, Forall_forall. intros [i m] _. simpl. unfold f.
    destruct (i =? selfIndex); [auto with mongo|]. destruct (_ =? _); [auto with mongo|].
    destruct (_hbdata t !! _) eqn:E; simpl; [|auto with mongo].
    by eapply Forall_lookup_1; [apply (inv_hbwf t HI)|].
  - intros Hs d. change (map f ?l) with (f <$> l). rewrite list_lookup_fmap, indexed_lookup.
    intros (p & Hp & ->)%fmap_Some. apply fmap_Some in Hp as (m & _ & ->). unfold f.
    rewrite Z2Nat.id, Z.eqb_refl by done. done.
Qed.

(** The state after the new configuration is installed, before roles are
    reconsidered. *)
Definition installed t (newConfig : ReplSetConfig) (selfIndex : Z) (hb : list MemberHeartbeatData)
    : TopologyCoordinator :=
  t <| _hbdata := hb |> <| _stepDownPending := false |> <| _rsConfig := newConfig |>
    <| _selfIndex := selfIndex |> <| _forceSyncSourceIndex := -1 |>.

Definition config_args_ok t (newConfig : ReplSetConfig) (selfIndex : Z) : Prop :=
  config_ok newConfig ∧ -1 ≤ selfIndex < vsize (_members newConfig) ∧
  (_configServer newConfig = true → _storageEngineSupportsReadCommitted t ≠ kUnknown).

Section reconfig.
Context t (HC : Consistent t) (newConfig : ReplSetConfig) (selfIndex : Z)
  (hb : list MemberHeartbeatData).
Hypothesis Hargs : config_args_ok t newConfig selfIndex.
Hypothesis Hlen : length hb = length (_members newConfig).
Hypothesis Hwf : Forall HB.wf hb.
Hypothesis Hself : 0 ≤ selfIndex → ∀ d, hb !! Z.to_nat selfIndex = Some d → d = HB.default.

Lemma installed_self_hb :
  selfIndex ≠ -1 → ∀ d, hb !! Z.to_nat selfIndex = Some d → HB.up d = false.
Proof. intros Hs d Hd. destruct Hargs as (_ & ? & _). by rewrite (Hself ltac:(lia) d Hd). Qed.

Lemma installed_leader_Consistent :
  _role t = leader → selfIndex ≠ -1 →
  Consistent (installed t newConfig selfIndex hb <| _currentPrimaryIndex := selfIndex |>).
Proof.
  intros Hr Hs. pose proof installed_self_hb. destruct Hargs as (Hc & Hi & Hrc).
  destruct HC as [[] HR]. split; [split|intros ?]; simpl; unfold index_ok, numMembers; simpl;
    try done; lia.
Qed.

Lemma installed_follower_Consistent :
  _role t ≠ candidate →
  Consistent (installed t newConfig selfIndex hb <| _role := follower |>
                <| _currentPrimaryIndex := -1 |>).
Proof.
  intros Hr. pose proof installed_self_hb. destruct Hargs as (Hc & Hi & Hrc).
  destruct HC as [[] HR]. split; [split|intros ?]; simpl; unfold index_ok, numMembers; simpl;
    try done; lia.
Qed.
End reconfig.

Lemma wp_updateConfig t newConfig selfIndex now lastOpApplied :
  Consistent t → _role t ≠ candidate → config_args_ok t newConfig selfIndex →
  wp (updateConfig newConfig selfIndex now lastOpApplied) (λ _, Consistent) t.
Proof.
  intros HC Hr Hargs. pose proof Hargs as (Hcfg & Hi & Hrc).
  unfold updateConfig. rewrite wp_bind, wp_invariant. unfold role_eqb at 1.
  rewrite bool_decide_false by done. split; [done|].
  rewrite wp_bind, wp_invariant. split; [unfold RSC.getNumMembers; lia|].
  rewrite wp_bind, wp_gets, wp_bind.
  apply (wp_mono _ (λ _ t1, same_core t t1)).
  2:{ destruct (negb _ || _); [|rewrite wp_ret; by split].
      destruct (Z.eqb_spec (_protocolVersion newConfig) 1); [rewrite wp_modify; by split|].
      rewrite wp_bind, wp_invariant. split; [|rewrite wp_modify; by split].
      destruct Hcfg as (_ & [Hp|Hp] & _); [by rewrite Hp|done]. }
  intros _ t1 Hsame. pose proof (same_core_Consistent t t1 Hsame HC) as HC1.
  assert (_role t1 ≠ candidate) as Hr1 by (rewrite (sc_role t t1 Hsame); done).
  assert (config_args_ok t1 newConfig selfIndex) as Hargs1.
  { unfold config_args_ok. by rewrite (sc_rc t t1 Hsame). }
  clear HC Hr Hargs Hrc Hsame t. rename t1 into t.
  rewrite wp_bind. unfold _updateHeartbeatDataForReconfig. rewrite wp_modify. cbv zeta.
  destruct (updated_hbdata_ok t newConfig selfIndex (con_inv t HC1)) as (Hlen & Hwf & Hself).
  set (hb := map _ _) in *. clearbody hb.
  rewrite wp_bind, wp_modify. fold (installed t newConfig selfIndex hb).
  rewrite wp_bind.
  apply (wp_mono _ (λ stay t2, t2 = installed t newConfig selfIndex hb ∧
    (stay = true → _role t = leader ∧ selfIndex ≠ -1))).
  2:{ rewrite wp_bind, wp_gets. unfold role_eqb. simpl. case_bool_decide as Hl; [|by rewrite wp_ret].
      destruct (Z.eqb_spec selfIndex (-1)); [by rewrite wp_ret|]. rewrite wp_bind, wp_reads.
      apply owp_vat; [simpl; lia|]. intros m _. rewrite wp_ret. done. }
  intros [] t2 [-> Hstay].
  - rewrite wp_modify. destruct (Hstay eq_refl) as [Hl Hs].
    by apply installed_leader_Consistent.
  - rewrite wp_bind, wp_modify, wp_bind, wp_modify.
    assert (Consistent (installed t newConfig selfIndex hb <| _role := follower |>
              <| _currentPrimaryIndex := -1 |>)) as HC2 by (by apply installed_follower_Consistent).
    set (t2 := _ <| _currentPrimaryIndex := -1 |>).
    assert (t2 = installed t newConfig selfIndex hb <| _role := follower |>
              <| _currentPrimaryIndex := -1 |>) as ->.
    { unfold t2, role_eqb. simpl. case_bool_decide as Hl; [done|].
      assert (_role t = follower) as Hf by (by destruct (_role t)).
      unfold installed. simpl. by rewrite Hf. }
    rewrite wp_bind. eapply wp_mono; [|by apply wp_become_candidate_if_single].
    intros b t3 HC3. by rewrite wp_ret.
Qed.

(** ** Sync sources *)
Definition pings_only t t' : Prop := ∃ p, t' = t <| _pings := p |>.
#[export] Instance pings_only_preorder : PreOrder pings_only.
Proof.
  split; unfold pings_only.
  - intros t. exists (_pings t). by destruct t.
  - intros t1 t2 t3 [p1 ->] [p2 ->]. by exists p2.
Qed.
Lemma pings_only_core t t' : pings_only t t' → same_core t t'.
Proof. intros [p ->]. by split. Qed.
Lemma pings_only_Consistent t t' : pings_only t t' → Consistent t → Consistent t'.
Proof. intros H. apply same_core_Consistent. by apply pings_only_core. Qed.

Lemma wp_touch_ping t host (Q : PingStats → TopologyCoordinator → Prop) :
  (∀ t', pings_only t t' → Q (default Ping.default (_pings t !! HP.key host)) t') →
  wp (touch_ping host) Q t.
Proof.
  intros HQ. unfold touch_ping. rewrite wp_bind, wp_modify, wp_gets.
  destruct (_pings t !! HP.key host) as [p|] eqn:E.
  - rewrite E. by apply (HQ t).
  - simpl. rewrite lookup_insert_eq. apply HQ. by eexists.
Qed.

Lemma wp_getPing t host (Q : Z → TopologyCoordinator → Prop) :
  (∀ p t', pings_only t t' → Q p t') → wp (_getPing host) Q t.
Proof.
  intros HQ. unfold _getPing. rewrite wp_bind. apply wp_touch_ping. intros t' Ht'.
  rewrite wp_ret. by apply HQ.
Qed.

(** A source the selection may settle on. *)
Definition good_source t (now : Z) (attempts : Z) (lastFetched oldest : OpTime) (i : Z) : Prop :=
  i ≠ _selfIndex t ∧ 0 ≤ i < numMembers t ∧
  ∃ m d, _members (_rsConfig t) !! Z.to_nat i = Some m ∧ _hbdata t !! Z.to_nat i = Some d ∧
    acceptable_source t attempts lastFetched oldest m d = Ret true ∧
    _memberIsBlacklisted t m now = false.

Lemma acceptable_source_total t attempts lf old m d :
  Inv t → _selfIndex t ≠ -1 → owp (acceptable_source t attempts lf old m d) (λ _, True).
Proof.
  intros HI Hs. unfold acceptable_source. destruct (negb (HB.up d)); [done|].
  destruct (negb _); [done|]. apply owp_bind, owp_selfConfig; [done..|]. intros self _ _.
  repeat (destruct (_ && _); [done|]). by destruct (OT.leb _ _).
Qed.

Section attempt.
Context t (HI : Inv t) (Hself : _selfIndex t ≠ -1) (now attempts : Z) (lf old : OpTime).

Definition chosen_ok (start r : Z) (t' : TopologyCoordinator) : Prop :=
  pings_only t t' ∧ (r = start ∨ good_source t now attempts lf old r).

Lemma wp_consider_source start r t' i d :
  -1 ≤ start < numMembers t → (i, d) ∈ indexed (_hbdata t) → chosen_ok start r t' →
  wp (consider_source now attempts lf old r (i, d)) (chosen_ok start) t'.
Proof.
  intros Hst Hin [[p0 ->] Hr]. pose proof (indexed_hbdata_range t HI i d Hin) as [Hi _].
  apply elem_of_indexed in Hin as [_ Hd]. unfold consider_source.
  rewrite wp_bind, wp_gets. cbn [_selfIndex update].
  assert (∀ p, pings_only t (t <| _pings := p |>)) as Hpo by (intros p; by exists p).
  destruct (Z.eqb_spec i (_selfIndex t)) as [|Hne]; [rewrite wp_ret; split; [apply Hpo|done]|].
  rewrite wp_bind, wp_reads. apply (owp_member t); [done|]. intros m Hm _.
  rewrite wp_bind, wp_reads.
  change (acceptable_source _ attempts lf old m d) with (acceptable_source t attempts lf old m d).
  destruct (proj1 (owp_Ret _ _) (acceptable_source_total t attempts lf old m d HI Hself))
    as (ok & Hok & _). rewrite Hok. cbn [owp]. destruct ok; cbn [negb]; [|rewrite wp_ret; split; [apply Hpo|done]].
  rewrite wp_bind. apply (wp_mono _ (λ _ t1, pings_only t t1)).
  2:{ destruct (Z.eqb_spec r (-1)); cbn [negb]; [rewrite wp_ret; apply Hpo|].
      rewrite wp_bind. apply wp_getPing. intros q1 t1 [p1 ->]. rewrite wp_bind, wp_reads.
      apply (owp_member t); [destruct Hr as [->|(_ & ? & _)]; lia|]. intros m2 _ _.
      rewrite wp_bind. apply wp_getPing. intros q2 t2 [p2 ->]. rewrite wp_ret. apply Hpo. }
  intros [] t1 [p1 ->]; [rewrite wp_ret; split; [apply Hpo|done]|]. rewrite wp_bind, wp_gets, wp_ret.
  change (_memberIsBlacklisted _ m now) with (_memberIsBlacklisted t m now).
  destruct (_memberIsBlacklisted t m now) eqn:Hb; (split; [apply Hpo|]); [done|].
  right. split_and!; [done|lia|lia|]. exists m, d. split_and!; done.
Qed.

Lemma wp_attempt_source start t' :
  -1 ≤ start < numMembers t → pings_only t t' →
  wp (attempt_source now attempts lf old start) (chosen_ok start) t'.
Proof.
  intros Hst [p ->]. unfold attempt_source. rewrite wp_bind, wp_gets. cbn [_hbdata update].
  apply wp_mfoldl; [split; [by exists p|by left]|]. intros r [i d] t1 Hin Hok.
  by apply wp_consider_source.
Qed.
End attempt.

Lemma wp_set_source t now h msg :
  Consistent t → wp (set_source now h msg) (λ r t', r = h ∧ Consistent t' ∧ _syncSource t' = h) t.
Proof.
  intros HC. unfold set_source. rewrite wp_bind, wp_modify, wp_bind.
  destruct msg; [unfold setMyHeartbeatMessage; rewrite wp_modify|rewrite wp_ret];
    rewrite wp_ret; (split_and!; [done|frame|done]).
Qed.

(** What the selection of a source guarantees about its result [h]. *)
Definition source_ok t (now : Z) (lastFetched : OpTime) (pref : ChainingPreference)
    (h : HostAndPort) : Prop :=
  h = HP.default ∨
  ∃ i m, 0 ≤ i < numMembers t ∧ _members (_rsConfig t) !! Z.to_nat i = Some m ∧ h = mc_host m ∧
    (i = _forceSyncSourceIndex t ∨
     (pref = kUseConfiguration ∧ _chainingAllowed (_rsConfig t) = false ∧
      i = _currentPrimaryIndex t ∧ i ≠ _selfIndex t ∧ _memberIsBlacklisted t m now = false) ∨
     ∃ attempts oldest, good_source t now attempts lastFetched oldest i).

Lemma oldest_sync_optime_total t : Inv t → owp (oldest_sync_optime t) (λ _, True).
Proof.
  intros HI. unfold oldest_sync_optime.
  destruct (Z.eqb_spec (_currentPrimaryIndex t) (-1)); cbn [negb]; [done|].
  pose proof (inv_primary t HI). unfold index_ok in *.
  apply owp_bind, owp_hbdata; [done|lia|]. intros d _ _. by case_match.
Qed.

Lemma wp_choose_primary_source t now lf pref :
  Consistent t → pref = kUseConfiguration → _chainingAllowed (_rsConfig t) = false →
  wp (choose_primary_source now) (λ h t', Consistent t' ∧ _syncSource t' = h ∧
    source_ok t now lf pref h) t.
Proof.
  intros HC Hpref Hch. unfold choose_primary_source. rewrite wp_bind, wp_gets.
  assert (∀ h msg, source_ok t now lf pref h →
    wp (set_source now h msg) (λ h t', Consistent t' ∧ _syncSource t' = h ∧
      source_ok t now lf pref h) t) as Hset.
  { intros h msg Hok. eapply wp_mono; [|by apply wp_set_source]. intros r t' (-> & ? & ?). done. }
  destruct (Z.eqb_spec (_currentPrimaryIndex t) (-1)); [by apply Hset; left|].
  pose proof (inv_primary t (con_inv t HC)) as Hp. unfold index_ok in Hp.
  rewrite wp_bind, wp_reads. apply owp_member; [lia|]. intros m Hm _.
  rewrite wp_bind, wp_gets, wp_bind, wp_gets.
  destruct (_memberIsBlacklisted t m now) eqn:Hb; [by apply Hset; left|].
  destruct (Z.eqb_spec (_currentPrimaryIndex t) (_selfIndex t)); [by apply Hset; left|].
  apply Hset. right. exists (_currentPrimaryIndex t), m. split_and!; try done; [lia|lia|].
  right. left. done.
Qed.

Lemma wp_chooseNewSyncSource t now lf pref :
  Consistent t →
  wp (chooseNewSyncSource now lf pref) (λ h t', Consistent t' ∧ source_ok t now lf pref h ∧
    (_selfIndex t ≠ -1 → _syncSource t' = h)) t.
Proof.
  intros HC. pose proof (con_inv t HC) as HI. unfold chooseNewSyncSource. rewrite wp_bind, wp_gets.
  destruct (Z.eqb_spec (_selfIndex t) (-1)) as [Hs|Hs]; [rewrite wp_ret; split_and!; [done|by left|done]|].
  pose proof (inv_force t HI) as Hf. unfold index_ok in Hf. rewrite wp_bind, wp_gets.
  destruct (Z.eqb_spec (_forceSyncSourceIndex t) (-1)) as [Hnf|Hforce]; cbn [negb].
  2:{ rewrite wp_bind, wp_invariant. split; [lia|]. rewrite wp_bind, wp_reads.
      apply owp_member; [lia|]. intros m Hm _. rewrite wp_bind, wp_modify.
      eapply wp_mono; [|apply wp_set_source].
      - intros h t' (-> & HC' & Hsrc). split; [done|]. split; [|done]. right.
        exists (_forceSyncSourceIndex t), m. split; [lia|]. split; [done|]. split; [done|by left].
      - inv_cases HC. }
  assert (∀ h msg t1, Consistent t1 → source_ok t now lf pref h →
    wp (set_source now h msg) (λ h t', Consistent t' ∧ source_ok t now lf pref h ∧
      (_selfIndex t ≠ -1 → _syncSource t' = h)) t1) as Hset.
  { intros h msg t1 HC1 Hok. eapply wp_mono; [|by apply wp_set_source].
    intros r t' (-> & ? & ?). done. }
  rewrite wp_bind, wp_gets. destruct (_ <? _); [by apply Hset; [|left]|].
  rewrite wp_bind, wp_gets. destruct (bool_decide _ && _) eqn:Hch.
  { apply andb_true_iff in Hch as [?%bool_decide_eq_true ?%negb_true_iff].
    eapply wp_mono; [|by apply (wp_choose_primary_source t now lf pref)]. naive_solver. }
  rewrite wp_bind, wp_reads. eapply owp_mono; [|by apply oldest_sync_optime_total].
  intros oldest _. pose proof (vsize_nonneg (_members (_rsConfig t))) as Hn.
  assert (-1 ≤ -1 < numMembers t) as Hstart by (unfold numMembers; lia).
  rewrite wp_bind. eapply wp_mono; [|apply (wp_attempt_source t HI Hs now 0 lf oldest (-1) t Hstart); done].
  intros first t1 [Hp1 Hfirst]. rewrite wp_bind.
  apply (wp_mono _ (λ r t2, pings_only t t2 ∧
    (r = -1 ∨ ∃ attempts, good_source t now attempts lf oldest r))).
  2:{ destruct (Z.eqb_spec first (-1)) as [->|Hne]; cbn [negb].
      - eapply wp_mono; [|by apply (wp_attempt_source t HI Hs now 1 lf oldest (-1))].
        intros r t2 [Hp2 Hr]. split; [done|]. destruct Hr; eauto.
      - rewrite wp_ret. split; [done|]. destruct Hfirst; eauto. }
  intros r t2 [Hp2 Hr]. pose proof (pings_only_Consistent t t2 Hp2 HC) as HC2.
  destruct (Z.eqb_spec r (-1)) as [->|Hne]; [by apply Hset; [|left]|].
  destruct Hr as [?|(attempts & Hg)]; [done|]. pose proof Hg as (_ & Hrange & _).
  rewrite wp_bind, wp_reads. destruct Hp2 as [p2 ->].
  apply (owp_member t); [done|]. intros m Hm _. apply Hset; [done|]. right.
  exists r, m. split_and!; try done; [lia|lia|]. right. right. eauto.
Qed.

Lemma findMemberIndexByHostAndPort_range t h :
  let i := RSC.findMemberIndexByHostAndPort (_rsConfig t) h in i = -1 ∨ 0 ≤ i < numMembers t.
Proof. apply index_where_range. Qed.

Lemma wp_prepareSyncFromResponse t target lastOpApplied :
  Consistent t → wp (prepareSyncFromResponse target lastOpApplied) (λ _, Consistent) t.
Proof.
  intros HC. pose proof (con_inv t HC) as HI. unfold prepareSyncFromResponse.
  rewrite wp_bind, wp_gets. unfold id.
  destruct (Z.eqb_spec (_selfIndex t) (-1)) as [Hs|Hs]; [by rewrite wp_ret|].
  rewrite wp_bind, wp_reads. apply owp_selfConfig; [done..|]. intros self _ _.
  destruct (MC.isArbiter self); [by rewrite wp_ret|]. destruct (_ =? _); [by rewrite wp_ret|].
  cbv zeta. pose proof (findMemberIndexByHostAndPort_range t target) as Hr. cbv zeta in Hr.
  set (i := RSC.findMemberIndexByHostAndPort _ _) in *. clearbody i.
  destruct (Z.eqb_spec i (-1)); [by rewrite wp_ret|]. destruct Hr as [?|Hr]; [done|].
  rewrite wp_bind, wp_reads. apply owp_member; [done|]. intros m _ _.
  destruct (_ =? _); [by rewrite wp_ret|]. destruct (MC.isArbiter m); [by rewrite wp_ret|].
  do 2 (destruct (_ && _); [by rewrite wp_ret|]).
  rewrite wp_bind, wp_reads. apply owp_hbdata; [done..|]. intros d _ _.
  destruct (_authIssue d); [by rewrite wp_ret|]. destruct (_ =? _); [by rewrite wp_ret|].
  rewrite wp_bind. eapply wp_mono; [|apply wp_setForceSyncSourceIndex; [done|]].
  - intros a t' HC'. by rewrite wp_ret.
  - unfold index_ok. lia.
Qed.

(** ** Heartbeat responses, protocol version 1 *)
Lemma find_primary_v1_spec t :
  Inv t → owp (find_primary_v1 t) (λ r, r = -1 ∨ 0 ≤ r < numMembers t ∧
    ∃ d, _hbdata t !! Z.to_nat r = Some d ∧ claims_primary d).
Proof.
  intros HI. unfold find_primary_v1.
  apply (owp_ofoldl (λ r, r = -1 ∨ 0 ≤ r < numMembers t ∧
    ∃ d, _hbdata t !! Z.to_nat r = Some d ∧ claims_primary d)); [by left|].
  intros r [i d] Hin Hr. pose proof (indexed_hbdata_range t HI i d Hin) as [Hi _].
  apply elem_of_indexed in Hin as [_ Hd].
  destruct (state_eqb _ _ && _) eqn:E; [|done].
  apply andb_true_iff in E as [E1%bool_decide_eq_true E2].
  assert (0 ≤ i < numMembers t ∧ ∃ d, _hbdata t !! Z.to_nat i = Some d ∧ claims_primary d) as Hnew.
  { split; [done|]. by exists d. }
  destruct (Z.eqb_spec r (-1)); [by right|]. destruct Hr as [?|Hr]; [done|].
  apply owp_bind, owp_hbdata; [done|apply Hr|]. intros e _ _. simpl. right. by destruct (_ <? _).
Qed.

Lemma can_take_over_total t i j :
  Inv t → _selfIndex t ≠ -1 → 0 ≤ i < numMembers t → owp (can_take_over t i j) (λ _, True).
Proof.
  intros HI Hs Hi. unfold can_take_over. apply owp_bind, owp_hbdata; [done..|]. intros d _ _.
  destruct (_ && _); [|done]. apply owp_bind, owp_member; [done|]. intros p _ _.
  apply owp_bind. apply (owp_selfConfig t HI); done.
Qed.

Lemma wp_updatePrimaryFromHBDataV1 t i now lastOpApplied :
  Inv t → i ≠ _selfIndex t →
  (_role t ≠ leader → _selfIndex t ≠ -1 → _currentPrimaryIndex t ≠ _selfIndex t) →
  wp (_updatePrimaryFromHBDataV1 i now lastOpApplied) (λ _, Consistent) t.
Proof.
  intros HI Hi Hns. unfold _updatePrimaryFromHBDataV1. rewrite wp_bind, wp_invariant.
  split; [lia|]. rewrite wp_bind, wp_gets. unfold id.
  destruct (Z.eqb_spec (_selfIndex t) (-1)) as [Hs|Hs].
  { rewrite wp_ret. split; [done|]. intros _ Hp. by apply inv_removed in Hs. }
  destruct (Z.eqb_spec (_currentPrimaryIndex t) (_selfIndex t)) as [He|He].
  { rewrite wp_ret. split; [done|]. intros Hr. by destruct (Hns Hr Hs). }
  assert (_role t ≠ leader) as Hr by (intros Hl; by destruct (inv_leader t HI Hl)).
  rewrite wp_bind, wp_reads. eapply owp_mono; [|by apply find_primary_v1_spec].
  intros r Hp. cbn beta in Hp. rewrite wp_bind, wp_modify.
  assert (Consistent (t <| _currentPrimaryIndex := r |>)) as HC1.
  { pose proof (vsize_nonneg (_members (_rsConfig t))). destruct HI. split; [split|]; simpl;
      unfold index_ok, numMembers in *; simpl; try done.
    - destruct Hp as [->|[? _]]; lia.
    - intros _ Hne. simpl in *. by destruct Hp as [?|[_ ?]]. }
  destruct (Z.eqb_spec r (-1)) as [|Hne]; [by rewrite wp_ret|]. destruct Hp as [?|[Hrange _]]; [done|].
  unfold setMyHeartbeatMessage. rewrite wp_bind, wp_modify, wp_bind, wp_reads.
  set (t2 := _ <| _hbmsg := [] |>). assert (Consistent t2) as HC2 by frame.
  eapply owp_mono; [|apply can_take_over_total; [apply HC2|done..]]. intros b _. by rewrite wp_ret.
Qed.

Lemma wp_request_step_down_self t :
  Consistent t → _role t = leader → wp request_step_down_self (λ _, Consistent) t.
Proof.
  intros HC Hr. unfold request_step_down_self. rewrite wp_bind, wp_gets.
  destruct (_stepDownPending t); [by rewrite wp_ret|].
  rewrite wp_bind, wp_modify, wp_bind, wp_gets, wp_ret. inv_cases HC.
Qed.

Lemma down_not_primary now msg d : ¬ claims_primary (HB.setDownValues now msg d).
Proof. intros [H _]. done. Qed.

Lemma wp_setMemberAsDown t now i lastOpApplied :
  Consistent t → _role t = leader → 0 ≤ i < numMembers t → i ≠ _selfIndex t →
  wp (setMemberAsDown now i lastOpApplied) (λ _, Consistent) t.
Proof.
  intros HC Hr Hi Hne. unfold setMemberAsDown. destruct (inv_leader t (con_inv t HC) Hr) as [Hs Hp].
  rewrite wp_bind, wp_invariant. split; [lia|]. rewrite wp_bind, wp_invariant. split; [lia|].
  rewrite wp_bind, wp_invariant. split; [lia|]. rewrite wp_bind, wp_reads.
  apply owp_hbdata; [apply HC|done|]. intros d Hd Hwf. rewrite wp_bind, wp_modify.
  set (t2 := t <| _hbdata := _ |>). assert (Consistent t2) as HC2.
  { split; [by apply vset_hbdata_Inv; [..|lia|done|auto with mongo]|]. intros Hl. done. }
  rewrite wp_bind, wp_reads.
  eapply owp_mono; [|apply (getMyUnelectableReason_spec t2 (con_inv t2 HC2))].
  intros reason _. destruct (negb _); [|by rewrite wp_ret]. by apply wp_request_step_down_self.
Qed.

(** ** Heartbeat responses, protocol version 0 *)

(** [Remote], except that the entry of member [i] was just replaced. *)
Definition RemoteExcept (i : Z) t : Prop :=
  _role t ≠ leader → _currentPrimaryIndex t ≠ -1 → _currentPrimaryIndex t ≠ i →
  ∃ d, _hbdata t !! Z.to_nat (_currentPrimaryIndex t) = Some d ∧ claims_primary d.

Lemma no_primary_Consistent t :
  Inv t → _role t ≠ leader → Consistent (t <| _currentPrimaryIndex := -1 |>).
Proof.
  intros HI Hr. pose proof (vsize_nonneg (_members (_rsConfig t))). destruct HI.
  split; [split|]; simpl; unfold index_ok, numMembers, Remote in *; simpl; try done; lia.
Qed.

Lemma wp_confirm_primary t i :
  Inv t → RemoteExcept i t → 0 ≤ i < numMembers t → i ≠ _selfIndex t →
  wp (confirm_primary i) (λ _ t', Consistent t' ∧ _selfIndex t' = _selfIndex t) t.
Proof.
  intros HI HR Hi Hne. unfold confirm_primary. rewrite wp_bind, wp_gets.
  destruct (Z.eqb_spec i (_currentPrimaryIndex t)) as [Heq|Hneq].
  - assert (_role t ≠ leader) as Hr by (intros Hl; destruct (inv_leader t HI Hl); lia).
    rewrite wp_bind, wp_reads. apply owp_hbdata; [done..|]. intros d Hd _.
    destruct (negb (HB.up d) || _) eqn:E; [rewrite wp_modify; split; [by apply no_primary_Consistent|done]|].
    rewrite wp_ret. split; [|done]. split; [done|]. intros _ _. exists d. rewrite <-Heq. split; [done|].
    apply orb_false_iff in E as [E1%negb_false_iff E2%negb_false_iff].
    split; [done|]. by apply bool_decide_eq_true in E2.
  - rewrite wp_ret. split; [|done]. split; [done|]. intros Hr Hp. by apply HR.
Qed.

Lemma outranking_member_range t now lastOpApplied :
  Inv t → _currentPrimaryIndex t ≠ -1 →
  owp (outranking_member t now lastOpApplied) (λ _, True).
Proof.
  intros HI Hp. unfold outranking_member. apply owp_bind.
  eapply owp_mono; [|by apply getHighestPriority_range]. intros hp Hhp. cbn beta in Hhp.
  destruct (Z.eqb_spec hp (-1)); cbn [negb]; [done|].
  pose proof (inv_primary t HI). unfold index_ok in *.
  apply owp_bind, owp_member; [lia|]. intros m1 _ _. apply owp_bind, owp_member; [lia|].
  intros m2 _ _. apply owp_bind. destruct (_ =? _); [done|].
  apply owp_bind, owp_hbdata; [done|lia|done].
Qed.

Lemma wp_yield_to_priority t now lastOpApplied :
  Consistent t → wp (yield_to_priority now lastOpApplied) 
    (λ _ t', Consistent t' ∧ _selfIndex t' = _selfIndex t) t.
Proof.
  intros HC. pose proof (con_inv t HC) as HI. unfold yield_to_priority. rewrite wp_bind, wp_gets.
  destruct (Z.eqb_spec (_currentPrimaryIndex t) (-1)); cbn [negb]; [by rewrite wp_ret|].
  rewrite wp_bind, wp_reads. eapply owp_mono; [|by apply outranking_member_range].
  intros [hp|] _; [|by rewrite wp_ret]. rewrite wp_bind, wp_reads, (iAmPrimary_spec t HI).
  cbn [owp]. destruct (role_eqb (_role t) leader) eqn:Hr.
  - apply bool_decide_eq_true in Hr. rewrite wp_bind, wp_gets.
    destruct (_stepDownPending t); [by rewrite wp_ret|].
    rewrite wp_bind, wp_modify, wp_bind, wp_modify, wp_bind, wp_gets, wp_ret. cbv zeta.
    assert (Consistent (t <| _stepDownPending := true |>)) as HC1 by inv_cases HC.
    destruct (_ <? _); (split; [|done]); [frame|done].
  - apply bool_decide_eq_false in Hr. rewrite wp_bind, wp_gets. unfold id.
    destruct (_ && _); [|by rewrite wp_ret]. rewrite wp_bind, wp_modify, wp_ret.
    split; [by apply no_primary_Consistent|done].
Qed.

Lemma elem_of_remote_primaries t i :
  Inv t → i ∈ remote_primaries t ↔
  i ≠ _selfIndex t ∧ 0 ≤ i < numMembers t ∧
  ∃ d, _hbdata t !! Z.to_nat i = Some d ∧ claims_primary d.
Proof.
  intros HI. unfold remote_primaries. rewrite list_elem_of_fmap. split.
  - intros ([j d] & -> & Hin). apply list_elem_of_In, filter_In in Hin as [Hin Hc].
    apply list_elem_of_In in Hin. pose proof (indexed_hbdata_range t HI j d Hin) as [Hj _].
    apply elem_of_indexed in Hin as [_ Hd]. simpl.
    apply andb_true_iff in Hc as [Hc1 [Hc2%bool_decide_eq_true Hc3]%andb_true_iff].
    split; [lia|]. split; [done|]. by exists d.
  - intros (Hne & Hi & d & Hd & Hup & Hst). exists (i, d). split; [done|].
    apply list_elem_of_In, filter_In. split.
    + apply list_elem_of_In, elem_of_indexed. split; [lia|done].
    + unfold state_eqb. rewrite bool_decide_true, Hup by done. simpl. lia.
Qed.

Lemma wp_adopt_remote_primary t now i :
  Consistent t → _selfIndex t ≠ -1 → i ∈ remote_primaries t →
  wp (adopt_remote_primary now i) (λ _, Consistent) t.
Proof.
  intros HC Hs Hin. pose proof (con_inv t HC) as HI.
  apply elem_of_remote_primaries in Hin as (Hne & Hi & d & Hd & Hcl); [|done].
  unfold adopt_remote_primary. rewrite wp_bind, wp_gets. destruct (_ =? _); [by rewrite wp_ret|].
  unfold setMyHeartbeatMessage. rewrite wp_bind, wp_modify. set (t1 := _ <| _hbmsg := [] |>).
  assert (Consistent t1) as HC1 by frame. rewrite wp_bind, wp_reads.
  rewrite (iAmPrimary_spec t1 (con_inv t1 HC1)). cbn [owp].
  destruct (role_eqb (_role t1) leader) eqn:Hr.
  - apply bool_decide_eq_true in Hr. rewrite wp_bind, wp_reads.
    apply (owp_hbdata t1); [apply HC1|done|]. intros e _ _. rewrite wp_bind, wp_gets.
    destruct (TS.gtb _ _); [by apply wp_request_step_down_self|by rewrite wp_ret].
  - apply bool_decide_eq_false in Hr. rewrite wp_bind, wp_modify, wp_ret.
    destruct HC1 as [[] _]. unfold t1 in *. split; [split|]; simpl in *;
      unfold index_ok, numMembers, Remote in *; simpl in *; try done; try lia.
    intros _ _. by exists d.
Qed.

Lemma checkShouldStandForElection_spec t now lastOpApplied :
  Inv t → (_role t = leader → _currentPrimaryIndex t ≠ -1) →
  owp (checkShouldStandForElection t now lastOpApplied) (λ st, sw_isOK st = true ↔
    _currentPrimaryIndex t = -1 ∧ _role t = follower ∧ can_stand t now lastOpApplied false ∧
    _electionSleepUntil t ≤ now).
Proof.
  intros HI Hlead. unfold checkShouldStandForElection.
  destruct (Z.eqb_spec (_currentPrimaryIndex t) (-1)) as [Hp|Hp]; cbn [negb].
  2:{ simpl. split; [done|]. by intros [? _]. }
  unfold check, role_eqb. rewrite (bool_decide_false (_role t = leader)) by naive_solver.
  cbn [negb]. apply owp_bind. cbn [owp]. case_bool_decide as Hc.
  { simpl. split; [done|]. intros (_ & ? & _). congruence. }
  assert (_role t = follower) as Hf by (destruct (_role t); naive_solver).
  apply owp_bind. eapply owp_mono; [|by apply getMyUnelectableReason_spec].
  intros r [Hm Hr]. cbn beta in Hr.
  assert (∀ b : bool, r ≠ 0 → owp (_getUnelectableReasonString r ;; Ret (Err NodeNotElectable : Status))
    (λ st, sw_isOK st = true ↔ _currentPrimaryIndex t = -1 ∧ _role t = follower ∧
      can_stand t now lastOpApplied false ∧ _electionSleepUntil t ≤ now)) as Hno.
  { intros _ Hz. apply owp_bind. eapply owp_mono; [|by apply reason_string_total].
    intros _ _. simpl. split; [done|]. intros (_ & _ & Hcs & _). by apply Hr in Hcs. }
  destruct (Z.eqb_spec (Z.land NotCloseEnoughToLatestOptime r) 0) as [|Hl]; cbn [negb].
  2:{ apply (Hno true). intros ->. by rewrite Z.land_0_r in Hl. }
  destruct (Z.eqb_spec r 0) as [Hz|Hz]; cbn [negb]; [|by apply (Hno true)].
  pose proof (proj1 Hr Hz). destruct (Z.ltb_spec now (_electionSleepUntil t)); simpl.
  - split; [done|]. intros (_ & _ & _ & ?). lia.
  - split; [|done]. done.
Qed.

(** Without a remote primary there is none recorded either, so neither assertion of
    the election phase fails. *)
Lemma wp_no_remote_primary t originalState now lastOpApplied :
  Consistent t → _selfIndex t ≠ -1 → remote_primaries t = [] →
  wp (no_remote_primary originalState now lastOpApplied) (λ _, Consistent) t.
Proof.
  intros HC Hs Hnone. pose proof (con_inv t HC) as HI. unfold no_remote_primary.
  rewrite wp_bind, wp_reads, (iAmPrimary_spec t HI). cbn [owp].
  destruct (role_eqb (_role t) leader) eqn:Hr.
  - apply bool_decide_eq_true in Hr. rewrite wp_bind, wp_reads.
    eapply owp_mono; [|apply (getMyUnelectableReason_spec t HI)]. intros r _.
    destruct (negb _); [by apply wp_request_step_down_self|by rewrite wp_ret].
  - apply bool_decide_eq_false in Hr.
    assert (_currentPrimaryIndex t = -1) as Hp.
    { destruct (Z.eq_dec (_currentPrimaryIndex t) (-1)) as [|Hne]; [done|]. exfalso.
      pose proof (not_self_primary t HC Hr Hs). pose proof (inv_primary t HI). unfold index_ok in *.
      assert (_currentPrimaryIndex t ∈ remote_primaries t) as Hin.
      { apply elem_of_remote_primaries; [done|]. split; [done|]. split; [lia|].
        by apply (con_remote t HC). }
      rewrite Hnone in Hin. by apply elem_of_nil in Hin. }
    rewrite wp_bind, wp_invariant. split; [lia|]. rewrite wp_bind, wp_reads.
    eapply owp_mono; [|apply (getMemberState_spec t HI)]. intros st _.
    destruct (_ && _); [by rewrite wp_ret|]. rewrite wp_bind, wp_reads.
    eapply owp_mono; [|apply checkShouldStandForElection_spec; [done|by intros ?]].
    intros stat Hst. cbn beta in Hst. destruct (sw_isOK stat) eqn:Hok; cbn [negb]; [|by rewrite wp_ret].
    destruct (proj1 Hst eq_refl) as (_ & Hf & Hcan & _). rewrite wp_bind.
    eapply wp_mono; [|by apply wp_becomeCandidateIfElectable]. intros res t' (HC' & Hiff & _).
    rewrite wp_bind, wp_invariant. split; [by apply Hiff|]. by rewrite wp_ret.
Qed.

Lemma wp_updatePrimaryFromHBData t i originalState now lastOpApplied :
  Inv t → RemoteExcept i t → 0 ≤ i < numMembers t → i ≠ _selfIndex t →
  wp (_updatePrimaryFromHBData i originalState now lastOpApplied) (λ _, Consistent) t.
Proof.
  intros HI HR Hi Hne. unfold _updatePrimaryFromHBData. rewrite wp_bind, wp_invariant.
  split; [lia|]. rewrite wp_bind, wp_gets. destruct (Z.eqb_spec (_selfIndex t) (-1)) as [Hs|Hs].
  { rewrite wp_ret. split; [done|]. intros _ Hp. by apply inv_removed in Hs. }
  rewrite wp_bind.
  apply (wp_mono _ (λ _ t1, Consistent t1 ∧ _selfIndex t1 ≠ -1)).
  2:{ eapply wp_mono; [|by apply (wp_confirm_primary t i)]. by intros ? ? [? ->]. }
  intros _ t1 [HC1 Hs1]. rewrite wp_bind.
  apply (wp_mono _ (λ _ t2, Consistent t2 ∧ _selfIndex t2 ≠ -1)).
  2:{ eapply wp_mono; [|by apply wp_yield_to_priority]. by intros ? ? [? ->]. }
  intros [a|] t2 [HC2 Hs2]; [by rewrite wp_ret|]. rewrite wp_bind, wp_gets.
  destruct (remote_primaries t2) as [|r [|]] eqn:E; [by apply wp_no_remote_primary| |by rewrite wp_ret].
  apply wp_adopt_remote_primary; [done..|]. rewrite E. left.
Qed.

(** ** Receiving and answering heartbeats *)

(** A response arrives for a request that was sent, to another member. *)
Definition response_ok t (target : HostAndPort) : Prop :=
  (∃ p, _pings t !! HP.key target = Some p ∧ _lastHeartbeatStartDate p ≠ 0) ∧
  (RSC.findMemberIndexByHostAndPort (_rsConfig t) target = -1 ∨
   RSC.findMemberIndexByHostAndPort (_rsConfig t) target ≠ _selfIndex t).

Lemma wp_record_ping t rtt target r (Q : PingStats → TopologyCoordinator → Prop) :
  response_ok t target → (∀ p t', pings_only t t' → Q p t') →
  wp (record_ping rtt target r) Q t.
Proof.
  intros [(p & Hp & Hst) _] HQ. unfold record_ping. rewrite wp_bind. apply wp_touch_ping.
  intros t1 [p1 ->]. rewrite Hp. simpl. rewrite wp_bind, wp_invariant. split; [lia|].
  rewrite wp_bind, wp_modify, wp_ret. apply HQ. by eexists.
Qed.

Lemma heartbeat_interval_total t : Inv t → owp (heartbeat_interval t) (λ _, True).
Proof.
  intros HI. unfold heartbeat_interval. destruct (_ =? _); [|done]. apply owp_bind.
  eapply owp_mono; [|by apply getMemberState_spec]. intros st _. apply owp_bind.
  apply (owp_mono _ (λ _, True)); [done|]. destruct (state_eqb _ _); [done|].
  destruct (HP.empty _); [|done]. by rewrite (iAmPrimary_spec t HI).
Qed.

Lemma record_response_wf t now p reason r d : HB.wf d → HB.wf (record_response t now p reason r d).
Proof.
  intros Hd. unfold record_response. destruct r; [auto with mongo|].
  destruct (is_unauthorized _); [auto with mongo|]. destruct (_ || _); auto with mongo.
Qed.

Lemma wp_processHeartbeatResponse t now rtt target r reason lastOpApplied :
  Consistent t → response_ok t target →
  wp (processHeartbeatResponse now rtt target r reason lastOpApplied) (λ _, Consistent) t.
Proof.
  intros HC Hok. unfold processHeartbeatResponse. rewrite wp_bind, wp_reads.
  eapply owp_mono; [|apply (getMemberState_spec t (con_inv t HC))]. intros orig _.
  rewrite wp_bind. apply wp_record_ping; [done|]. intros p t1 Hp1.
  pose proof (pings_only_Consistent t t1 Hp1 HC) as HC1.
  destruct Hok as [_ Htarget]. rewrite wp_bind, wp_reads.
  eapply owp_mono; [|apply heartbeat_interval_total, HC1]. intros iv _.
  rewrite wp_bind, wp_gets. unfold id. cbv zeta.
  destruct (offers_newer_config _ _); [by rewrite wp_ret|].
  destruct (negb _); [by rewrite wp_ret|].
  assert (RSC.findMemberIndexByHostAndPort (_rsConfig t1) target = -1 ∨
    RSC.findMemberIndexByHostAndPort (_rsConfig t1) target ≠ _selfIndex t1) as Htgt
    by (destruct Hp1 as [p1 ->]; done).
  clear HC Hp1 Htarget t. rename t1 into t. pose proof (con_inv t HC1) as HI.
  pose proof (findMemberIndexByHostAndPort_range t target) as Hr. cbv zeta in Hr.
  set (i := RSC.findMemberIndexByHostAndPort _ _) in *. clearbody i.
  destruct (Z.eqb_spec i (-1)); [by rewrite wp_ret|].
  destruct Hr as [?|Hr]; [done|]. destruct Htgt as [?|Hne]; [done|].
  rewrite wp_bind, wp_invariant. split; [lia|]. rewrite wp_bind, wp_reads.
  apply owp_hbdata; [done..|]. intros d Hd Hwf. rewrite wp_bind, wp_modify.
  set (d' := record_response _ _ _ _ _ _).
  assert (HB.wf d') as Hwf' by (by apply record_response_wf). clearbody d'.
  set (t2 := t <| _hbdata := _ |>).
  assert (Inv t2) as HI2 by (by apply vset_hbdata_Inv; [|lia|..]).
  rewrite wp_bind. apply (wp_mono _ (λ _, Consistent)); [intros; by rewrite wp_ret|].
  destruct (_ =? 0).
  - apply wp_updatePrimaryFromHBData; [done| |done|done]. intros Hr2 Hp Hi. simpl in *.
    destruct (con_remote t HC1 Hr2 Hp) as (e & He & Hce). exists e. split; [|done].
    unfold vset. destruct (0 <=? i); [|done]. rewrite list_lookup_insert_ne; [done|].
    pose proof (inv_primary t HI). unfold index_ok in *. lia.
  - apply wp_updatePrimaryFromHBDataV1; [done|done|]. apply (not_self_primary t HC1).
Qed.

Lemma wp_start_or_retry t now target :
  wp (start_or_retry now target) (λ _ t', pings_only t t') t.
Proof.
  unfold start_or_retry. rewrite wp_bind. apply wp_touch_ping. intros t1 [p1 ->].
  rewrite wp_bind, wp_gets. destruct (_ || _).
  - rewrite wp_bind, wp_modify, wp_ret. by eexists.
  - rewrite wp_ret. by eexists.
Qed.

Lemma wp_prepareHeartbeatRequest t now name target :
  Consistent t → wp (prepareHeartbeatRequest now name target) (λ _, Consistent) t.
Proof.
  intros HC. unfold prepareHeartbeatRequest. rewrite wp_bind.
  eapply wp_mono; [|apply wp_start_or_retry]. intros el t1 Hp.
  pose proof (pings_only_Consistent t t1 Hp HC) as HC1. rewrite wp_bind, wp_gets, wp_bind.
  apply (wp_mono _ (λ _ t', t' = t1)); [by intros a t' ->; rewrite wp_ret|]. unfold id.
  destruct (_isInitialized _); [|by rewrite wp_ret]. cbv zeta.
  destruct (Z.leb_spec 0 (_selfIndex t1)); [|by rewrite wp_ret]. rewrite wp_bind, wp_reads.
  apply owp_selfConfig; [apply HC1|lia|]. intros. by rewrite wp_ret.
Qed.

Lemma wp_prepareHeartbeatRequestV1 t now name target :
  Consistent t → wp (prepareHeartbeatRequestV1 now name target) (λ _, Consistent) t.
Proof.
  intros HC. unfold prepareHeartbeatRequestV1. rewrite wp_bind.
  eapply wp_mono; [|apply wp_start_or_retry]. intros el t1 Hp.
  pose proof (pings_only_Consistent t t1 Hp HC) as HC1. rewrite wp_bind, wp_gets, wp_bind.
  apply (wp_mono _ (λ _ t', t' = t1)); [by intros a t' ->; rewrite wp_ret|]. unfold id.
  destruct (_isInitialized _); [|by rewrite wp_ret]. cbv zeta. rewrite wp_bind.
  apply (wp_mono _ (λ _ t', t' = t1)); [by intros a t' ->; rewrite wp_ret|].
  destruct (Z.leb_spec 0 (_selfIndex t1)); [|by rewrite wp_ret]. rewrite wp_bind, wp_reads.
  apply owp_selfConfig; [apply HC1|lia|]. intros. by rewrite wp_ret.
Qed.

(** The sender of a heartbeat has an id that fits an [int]. *)
Definition sender_ok (senderId : Z) : Prop := INT_MIN ≤ senderId ≤ INT_MAX.

Lemma refuse_sender_spec t st senderId :
  Inv t → owp (refuse_sender t st senderId) (λ r, r = None → _selfIndex t ≠ -1 →
    ∀ m, _members (_rsConfig t) !! Z.to_nat (_selfIndex t) = Some m → senderId ≠ mc_id m).
Proof.
  intros HI. unfold refuse_sender.
  destruct (Z.eqb_spec (_selfIndex t) (-1)) as [Hs|Hs]; [by intros _ ?|].
  apply owp_bind, owp_selfConfig; [done..|]. intros self Hself _. simpl. intros Hr _ m Hm.
  rewrite Hself in Hm. injection Hm as <-. destruct (Z.eqb_spec senderId (mc_id self)); done.
Qed.

(** The index that the configuration part resolves is not our own. *)
Lemma config_part_from t v senderId resp :
  Inv t → sender_ok senderId →
  (_selfIndex t ≠ -1 → ∀ m, _members (_rsConfig t) !! Z.to_nat (_selfIndex t) = Some m →
     senderId ≠ mc_id m) →
  let from := (config_part t v senderId resp).2 in
  from = -1 ∨ 0 ≤ from < numMembers t ∧ from ≠ _selfIndex t.
Proof.
  intros HI Hid Hne. unfold config_part. destruct (negb _); [by left|]. simpl.
  destruct (_ && _); [|by left]. rewrite i32_small by done.
  destruct (getMemberIndex_spec t senderId) as [->|(Hr & m & Hm & Hmid)]; [by left|right].
  split; [done|]. intros Heq. rewrite Heq in Hm, Hr. by apply (Hne ltac:(lia) m Hm).
Qed.

Lemma note_received_Consistent t i d now :
  Consistent t → 0 ≤ i → i ≠ _selfIndex t → _hbdata t !! Z.to_nat i = Some d → HB.wf d →
  Consistent (t <| _hbdata := vset i (d <| _lastHeartbeatRecv := now |>) (_hbdata t) |>).
Proof.
  intros HC Hi Hne Hd Hwf. eapply vset_hbdata_Consistent; [done..| |exact Hd|done].
  by apply HB.lastHeartbeatRecv_wf.
Qed.

Lemma wp_prepareHeartbeatResponse t now args name lastOpApplied lastOpDurable :
  Consistent t → sender_ok (ha_senderId args) →
  (_selfIndex t ≠ -1 → _replSetName (_rsConfig t) = name) →
  wp (prepareHeartbeatResponse now args name lastOpApplied lastOpDurable) (λ _, Consistent) t.
Proof.
  intros HC Hid Hname. pose proof (con_inv t HC) as HI. unfold prepareHeartbeatResponse.
  destruct (negb _); [by rewrite wp_ret|]. case_bool_decide as Hn; cbn [negb]; [|by rewrite wp_ret].
  rewrite wp_bind, wp_gets, wp_bind, wp_reads. unfold id.
  eapply owp_mono; [|by apply getMemberState_spec]. intros st _. rewrite wp_bind.
  apply (wp_mono _ (λ _ t', t' = t)).
  2:{ destruct (Z.eqb_spec (_selfIndex t) (-1)); cbn [negb]; [by rewrite wp_ret|].
      rewrite wp_invariant. split; [|done]. apply bool_decide_eq_true. by rewrite Hname. }
  intros _ t1 ->. rewrite wp_bind, wp_reads. eapply owp_mono; [|by apply refuse_sender_spec].
  intros [e|] Href; [by rewrite wp_ret|]. specialize (Href eq_refl). cbv zeta.
  rewrite wp_bind, wp_reads. eapply owp_mono; [|by apply getMyUnelectableReason_spec].
  intros reason _. match goal with |- context [config_part ?a ?b ?c ?r] =>
    pose proof (config_part_from a b c r HI Hid Href) as Hfrom; cbv zeta in Hfrom;
    destruct (config_part a b c r) as [resp from] end.
  simpl in Hfrom. destruct (Z.eqb_spec from (-1)); [by rewrite wp_ret|].
  destruct Hfrom as [?|[Hr Hne]]; [done|]. rewrite wp_bind, wp_invariant. split; [lia|].
  rewrite wp_bind, wp_reads. apply owp_hbdata; [done..|]. intros d Hd Hwf.
  rewrite wp_bind, wp_modify, wp_ret. by apply note_received_Consistent; [|lia|..].
Qed.

Lemma wp_prepareHeartbeatResponseV1 t now args name lastOpApplied lastOpDurable :
  Consistent t → sender_ok (h1_senderId args) →
  wp (prepareHeartbeatResponseV1 now args name lastOpApplied lastOpDurable) (λ _, Consistent) t.
Proof.
  intros HC Hid. pose proof (con_inv t HC) as HI. unfold prepareHeartbeatResponseV1.
  destruct (negb _); [by rewrite wp_ret|].
  rewrite wp_bind, wp_gets, wp_bind, wp_reads. unfold id.
  eapply owp_mono; [|by apply getMemberState_spec]. intros st _.
  rewrite wp_bind, wp_reads. eapply owp_mono; [|by apply refuse_sender_spec].
  intros [e|] Href; [by rewrite wp_ret|]. specialize (Href eq_refl). cbv zeta.
  rewrite wp_bind, wp_reads. eapply owp_mono; [|by apply currentPrimaryMember_total].
  intros primary _. match goal with |- context [config_part ?a ?b ?c ?r] =>
    pose proof (config_part_from a b c r HI Hid Href) as Hfrom; cbv zeta in Hfrom;
    destruct (config_part a b c r) as [resp from] end.
  simpl in Hfrom. destruct (Z.eqb_spec from (-1)); [by rewrite wp_ret|].
  destruct Hfrom as [?|[Hr Hne]]; [done|]. rewrite wp_bind, wp_invariant. split; [lia|].
  rewrite wp_bind, wp_reads. apply owp_hbdata; [done..|]. intros d Hd Hwf.
  rewrite wp_bind, wp_modify, wp_ret. by apply note_received_Consistent; [|lia|..].
Qed.

(** ** Questions to the coordinator *)
Lemma getMaybeUpHostAndPorts_total t : Inv t → owp (getMaybeUpHostAndPorts t) (λ _, True).
Proof.
  intros HI. apply (owp_ofoldl (λ _, True)); [done|]. intros hosts [i d] [Hi _]%indexed_hbdata_range _; [|done].
  destruct (_ =? _); [done|]. destruct (negb _); [done|]. by apply owp_bind, owp_member.
Qed.
(** A source other than this member, and metadata that name a member of the configuration. *)
Definition current_source_ok t (source : HostAndPort) (rm : ReplSetMetadata) (oq : option OplogQueryMetadata) : Prop :=
  _selfIndex t ≠ -1 ∧ RSC.findMemberIndexByHostAndPort (_rsConfig t) source ≠ _selfIndex t ∧
  match oq with Some oq => oq_primaryIndex oq | None => rm_primaryIndex rm end < numMembers t.
Lemma better_candidate_total t now goal i d :
  Inv t → _selfIndex t ≠ -1 → (i, d) ∈ indexed (_hbdata t) → owp (better_candidate t now goal (i, d)) (λ _, True).
Proof.
  intros HI Hs Hin. destruct (indexed_hbdata_range t HI i d Hin) as [Hi _]. unfold better_candidate.
  apply owp_bind, owp_member; [done|]. intros m _ _. destruct (HB.up d) eqn:Hup; [|done]. cbn [negb].
  assert (∀ (b : bool) (f : MemberConfig → outcome bool), (∀ c, owp (f c) (λ _, True)) →
    owp (if b then Ret true else self ← _selfConfig t; f self) (λ _, True)) as Hself.
  { intros [] f Hf; [done|]. apply owp_bind, owp_selfConfig; [done..|]. intros c _ _. apply Hf. }
  apply owp_bind. eapply owp_mono; [|by apply Hself]. intros [] _; [|done]. cbn [negb].
  apply owp_bind. eapply owp_mono; [|by apply Hself]. intros [] _; [|done]. cbn [negb].
  destruct (_ && _); [|done]. apply owp_bind. unfold check.
  destruct (Z.eqb_spec i (_selfIndex t)) as [->|]; [|done]. apply elem_of_indexed in Hin as [_ Hd].
  by rewrite (inv_self_hb t HI Hs d Hd) in Hup.
Qed.
Lemma shouldChangeSyncSource_total t source lastOpTime rm oq now :
  Inv t → current_source_ok t source rm oq → owp (shouldChangeSyncSource t source lastOpTime rm oq now) (λ _, True).
Proof.
  intros HI (Hs & Hne & Hp). unfold shouldChangeSyncSource.
  destruct (Z.eqb_spec (_forceSyncSourceIndex t) (-1)) as [|Hf]; cbn [negb].
  2:{ pose proof (inv_force t HI). unfold index_ok in *. apply owp_bind, owp_member; [lia|done]. }
  destruct (_ && _); [done|]. pose proof (findMemberIndexByHostAndPort_range t source) as Hr. cbv zeta in Hr.
  destruct (Z.eqb_spec (RSC.findMemberIndexByHostAndPort (_rsConfig t) source) (-1)) as [|Hi]; [done|].
  destruct Hr as [?|Hr]; [done|]. apply owp_bind. unfold check. rewrite (proj2 (Z.eqb_neq _ _)) by done. cbn [negb owp].
  apply owp_bind, owp_hbdata; [done..|]. intros d _ _.
  destruct oq as [oq|]; cbn beta iota in *; (destruct (OT.isNull _); [done|]).
  all: destruct (_ && _).
  1,3: apply owp_bind; (destruct (Z.leb_spec 0 (oq_primaryIndex oq)) || destruct (Z.leb_spec 0 (rm_primaryIndex rm)));
    [|done]; apply owp_bind, owp_member; done.
  all: destruct (disableMaxSyncSourceLagSecs _); [done|]; apply (owp_ofoldl (λ _, True)); [done|].
  all: intros [] [i d'] Hin _; [done|]; by apply better_candidate_total.
Qed.
(** The tags of this member are tags of the configuration. *)
Definition own_tags_ok t : Prop :=
  ∀ self, _members (_rsConfig t) !! Z.to_nat (_selfIndex t) = Some self →
  Forall (λ tag, owp (Tag.getTagKey (_tagConfig (_rsConfig t)) tag) (λ _, True) ∧
                 owp (Tag.getTagValue (_tagConfig (_rsConfig t)) tag) (λ _, True)) (mc_tags self).
Lemma fillIsMasterForReplSet_total t : Inv t → own_tags_ok t → owp (fillIsMasterForReplSet t) (λ _, True).
Proof.
  intros HI Htags. unfold fillIsMasterForReplSet.
  destruct (proj1 (owp_Ret _ _) (getMemberState_spec t HI)) as (st & Hst & _). rewrite Hst. apply owp_bind. cbn [owp].
  destruct (negb _) eqn:Hinit; [done|]. destruct (state_eqb st RS_REMOVED) eqn:Hrem; [done|].
  assert (_selfIndex t ≠ -1) as Hs.
  { intros Hs. unfold getMemberState in Hst. rewrite Hs in Hst. simpl in Hst. apply negb_false_iff in Hinit. rewrite Hinit in Hst.
    injection Hst as <-. done. }
  apply owp_bind. apply (owp_mono _ (λ _, True)).
  2:{ unfold _currentPrimaryMember. destruct (Z.eqb_spec (_currentPrimaryIndex t) (-1)); [done|].
      pose proof (inv_primary t HI). unfold index_ok in *. apply owp_bind, owp_member; [lia|done]. }
  intros curPrimary _. apply owp_bind. apply (owp_selfConfig t HI); [done|]. intros self Hself _.
  specialize (Htags self Hself). apply owp_bind. apply (owp_mono _ (λ _, True)).
  2:{ unfold MC.hasTags. clear Hself. induction Htags as [|tag tags [Hk _] _ IH]; [done|]. cbn [MC.hasTags_go].
      apply owp_bind. eapply owp_mono; [|exact Hk]. intros key _. by destruct (MC.internal_key key). }
  intros hasTags _. apply owp_bind. apply (owp_mono _ (λ _, True)).
  2:{ destruct hasTags; [|done]. apply (owp_ofoldl (λ _, True)); [done|]. intros acc tag Hin _.
      rewrite Forall_forall in Htags. destruct (Htags tag Hin) as [Hk Hv]. apply owp_bind. eapply owp_mono; [|exact Hk].
      intros key _. destruct (MC.internal_key key); [done|]. apply owp_bind. by eapply owp_mono; [|exact Hv]. }
  intros tags _. apply owp_bind. rewrite iAmPrimary_spec by done. done.
Qed.
(** A primary other than ourselves is one whose last heartbeat said so. *)
Definition primary_index_ok t (i : Z) : Prop :=
  index_ok t i ∧ (_role t = leader → i = _selfIndex t) ∧ (_selfIndex t = -1 → i = -1) ∧
  (_role t ≠ leader → i ≠ -1 → ∃ d, _hbdata t !! Z.to_nat i = Some d ∧ claims_primary d).
Lemma wp_setPrimaryIndex t i :
  Consistent t → primary_index_ok t (i32 i) → wp (setPrimaryIndex i) (λ _, Consistent) t.
Proof.
  intros HC (Hi & Hl & Ho & Hr). unfold setPrimaryIndex. rewrite wp_modify. inv_cases HC.
Qed.

(** ** Every operation *)
Inductive call :=
| CSetForceSyncSourceIndex (i : Z)
| CChooseNewSyncSource (now : Z) (lastFetched : OpTime) (pref : ChainingPreference)
| CBlacklistSyncSource (host : HostAndPort) (until : Z)
| CUnblacklistSyncSource (host : HostAndPort) (now : Z)
| CClearSyncSourceBlacklist
| CPrepareSyncFromResponse (target : HostAndPort) (lastOpApplied : OpTime)
| CPrepareElectResponse (args : ReplSetElectArgs) (now : Z) (lastOpApplied : OpTime)
| CPrepareHeartbeatResponse (now : Z) (args : ReplSetHeartbeatArgs) (name : chars)
    (lastOpApplied lastOpDurable : OpTime)
| CPrepareHeartbeatResponseV1 (now : Z) (args : ReplSetHeartbeatArgsV1) (name : chars)
    (lastOpApplied lastOpDurable : OpTime)
| CPrepareHeartbeatRequest (now : Z) (name : chars) (target : HostAndPort)
| CPrepareHeartbeatRequestV1 (now : Z) (name : chars) (target : HostAndPort)
| CProcessHeartbeatResponse (now rtt : Z) (target : HostAndPort)
    (r : StatusWith ReplSetHeartbeatResponse) (reason : chars) (lastOpApplied : OpTime)
| CSetMemberAsDown (now i : Z) (lastOpApplied : OpTime)
| CPrepareFreezeResponse (now secs : Z)
| CBecomeCandidateIfSingle (now : Z)
| CSetElectionSleepUntil (when : Z)
| CUpdateConfig (newConfig : ReplSetConfig) (selfIndex now : Z) (lastOpApplied : OpTime)
| CSetMyHeartbeatMessage (now : Z) (msg : chars)
| CVoteForMyself (now : Z)
| CProcessWinElection (electionId : Z) (electionOpTime : Timestamp)
| CProcessLoseElection
| CStepDown (until : Z) (force : bool) (lastOpApplied : OpTime)
| CSetFollowerMode (mode : MemberState)
| CStepDownIfPending
| CPrepareForStepDown
| CAdjustMaintenanceCountBy (inc : Z)
| CUpdateTerm (term now : Z)
| CProcessReplSetRequestVotes (args : ReplSetRequestVotesArgs) (lastApplied : OpTime)
| CLoadLastVote (v : LastVote)
| CVoteForMyselfV1
| CBecomeCandidateIfElectable (now : Z) (lastOpApplied : OpTime) (isPriorityTakeover : bool)
| CSetStorageEngineSupportsReadCommitted (supported : bool)
| CRestartHeartbeats
| CSetElectionInfo (electionId : Z) (electionOpTime : Timestamp)
| CSetPrimaryIndex (primaryIndex : Z)
| CGetMemberState
| CGetMaybeUpHostAndPorts
| CCheckShouldStandForElection (now : Z) (lastOpApplied : OpTime)
| CPrepareFreshResponse (args : ReplSetFreshArgs) (now : Z) (lastOpApplied : OpTime)
| CShouldChangeSyncSource (source : HostAndPort) (myLastOpTime : OpTime) (rm : ReplSetMetadata)
    (oq : option OplogQueryMetadata) (now : Z)
| CFillIsMasterForReplSet.

Definition run {A} (m : TM A) : TM () := m ;; mret tt.
Definition exec (c : call) : TM () :=
  match c with
  | CSetForceSyncSourceIndex i => setForceSyncSourceIndex i
  | CChooseNewSyncSource now lf pref => run (chooseNewSyncSource now lf pref)
  | CBlacklistSyncSource h u => blacklistSyncSource h u
  | CUnblacklistSyncSource h now => unblacklistSyncSource h now
  | CClearSyncSourceBlacklist => clearSyncSourceBlacklist
  | CPrepareSyncFromResponse h lo => run (prepareSyncFromResponse h lo)
  | CPrepareElectResponse args now lo => run (prepareElectResponse args now lo)
  | CPrepareHeartbeatResponse now args name lo ld =>
      run (prepareHeartbeatResponse now args name lo ld)
  | CPrepareHeartbeatResponseV1 now args name lo ld =>
      run (prepareHeartbeatResponseV1 now args name lo ld)
  | CPrepareHeartbeatRequest now name h => run (prepareHeartbeatRequest now name h)
  | CPrepareHeartbeatRequestV1 now name h => run (prepareHeartbeatRequestV1 now name h)
  | CProcessHeartbeatResponse now rtt h r reason lo =>
      run (processHeartbeatResponse now rtt h r reason lo)
  | CSetMemberAsDown now i lo => run (setMemberAsDown now i lo)
  | CPrepareFreezeResponse now secs => run (prepareFreezeResponse now secs)
  | CBecomeCandidateIfSingle now => run (becomeCandidateIfStepdownPeriodOverAndSingleNodeSet now)
  | CSetElectionSleepUntil w => setElectionSleepUntil w
  | CUpdateConfig cfg i now lo => updateConfig cfg i now lo
  | CSetMyHeartbeatMessage now msg => setMyHeartbeatMessage now msg
  | CVoteForMyself now => run (voteForMyself now)
  | CProcessWinElection oid ts => processWinElection oid ts
  | CProcessLoseElection => processLoseElection
  | CStepDown u f lo => run (stepDown u f lo)
  | CSetFollowerMode m => setFollowerMode m
  | CStepDownIfPending => run stepDownIfPending
  | CPrepareForStepDown => prepareForStepDown
  | CAdjustMaintenanceCountBy inc => adjustMaintenanceCountBy inc
  | CUpdateTerm term now => run (updateTerm term now)
  | CProcessReplSetRequestVotes args la => run (processReplSetRequestVotes args la)
  | CLoadLastVote v => loadLastVote v
  | CVoteForMyselfV1 => voteForMyselfV1
  | CBecomeCandidateIfElectable now lo tk => run (becomeCandidateIfElectable now lo tk)
  | CSetStorageEngineSupportsReadCommitted b => setStorageEngineSupportsReadCommitted b
  | CRestartHeartbeats => restartHeartbeats
  | CSetElectionInfo oid ts => setElectionInfo oid ts
  | CSetPrimaryIndex i => setPrimaryIndex i
  | CGetMemberState => run (reads getMemberState)
  | CGetMaybeUpHostAndPorts => run (reads getMaybeUpHostAndPorts)
  | CCheckShouldStandForElection now lo => run (reads (λ t, checkShouldStandForElection t now lo))
  | CPrepareFreshResponse args now lo => run (reads (λ t, prepareFreshResponse t args now lo))
  | CShouldChangeSyncSource h lo rm oq now => run (reads (λ t, shouldChangeSyncSource t h lo rm oq now))
  | CFillIsMasterForReplSet => run (reads fillIsMasterForReplSet)
  end.

(** What the callers of the coordinator ensure. *)
Definition contract t (c : call) : Prop :=
  match c with
  | CSetForceSyncSourceIndex i => index_ok t i
  | CPrepareHeartbeatResponse _ args name _ _ =>
      sender_ok (ha_senderId args) ∧ (_selfIndex t ≠ -1 → _replSetName (_rsConfig t) = name)
  | CPrepareHeartbeatResponseV1 _ args _ _ _ => sender_ok (h1_senderId args)
  | CProcessHeartbeatResponse _ _ target _ _ _ => response_ok t target
  | CSetMemberAsDown _ i _ => _role t = leader ∧ 0 ≤ i < numMembers t ∧ i ≠ _selfIndex t
  | CBecomeCandidateIfSingle _ => _role t = follower
  | CUpdateConfig cfg i _ _ => _role t ≠ candidate ∧ config_args_ok t cfg i
  | CProcessWinElection _ _ | CProcessLoseElection => _role t = candidate
  | CStepDown _ _ _ | CPrepareForStepDown => _role t = leader
  | CSetFollowerMode m => _role t = follower ∧ follower_mode_ok m
  | CAdjustMaintenanceCountBy inc => _role t = follower ∧ 0 ≤ _maintenanceModeCalls t + inc ≤ INT_MAX
  | CProcessReplSetRequestVotes args _ => vote_request_ok t args
  | CSetElectionInfo _ _ => _role t = leader
  | CSetPrimaryIndex i => primary_index_ok t (i32 i)
  | CPrepareFreshResponse args _ _ => 0 ≤ fa_id args < two32
  | CShouldChangeSyncSource source _ rm oq _ => current_source_ok t source rm oq
  | CFillIsMasterForReplSet => own_tags_ok t
  | _ => True
  end.

Lemma wp_run {A} (m : TM A) t :
  wp m (λ _, Consistent) t → wp (run m) (λ _, Consistent) t.
Proof.
  intros H. unfold run. rewrite wp_bind. eapply wp_mono; [|done].
  intros a t' Ha. by rewrite wp_ret.
Qed.

Lemma wp_asks {A} (q : TopologyCoordinator → outcome A) t :
  Consistent t → owp (q t) (λ _, True) → wp (reads q) (λ _, Consistent) t.
Proof. intros HC Hq. apply wp_reads. by eapply owp_mono; [|exact Hq]. Qed.
Lemma exec_Consistent t c : Consistent t → contract t c → wp (exec c) (λ _, Consistent) t.
Proof.
  intros HC Hc. destruct c; simpl in *; destruct_and?;
    try apply wp_run;
    try solve [unfold setElectionSleepUntil, setMyHeartbeatMessage, voteForMyselfV1, loadLastVote,
      blacklistSyncSource, clearSyncSourceBlacklist, unblacklistSyncSource; rewrite wp_modify;
      repeat case_match; (done || frame)].
  - by apply wp_setForceSyncSourceIndex.
  - eapply wp_mono; [|by apply wp_chooseNewSyncSource]. by intros ? ? [? _].
  - by apply wp_prepareSyncFromResponse.
  - by apply wp_prepareElectResponse.
  - by apply wp_prepareHeartbeatResponse.
  - by apply wp_prepareHeartbeatResponseV1.
  - by apply wp_prepareHeartbeatRequest.
  - by apply wp_prepareHeartbeatRequestV1.
  - by apply wp_processHeartbeatResponse.
  - by apply wp_setMemberAsDown.
  - by apply wp_prepareFreezeResponse.
  - by apply wp_becomeCandidateIfStepdownPeriodOver.
  - by apply wp_updateConfig.
  - by apply wp_voteForMyself.
  - by apply wp_processWinElection.
  - by apply wp_processLoseElection.
  - by apply wp_stepDown.
  - by apply wp_setFollowerMode.
  - by apply wp_stepDownIfPending.
  - by apply wp_prepareForStepDown.
  - by apply wp_adjustMaintenanceCountBy.
  - apply (wp_updateTerm t HC); intros; [done|frame..].
  - eapply wp_mono; [|by apply wp_processReplSetRequestVotes]. by intros ? ? [? _].
  - eapply wp_mono; [|by apply wp_becomeCandidateIfElectable]. by intros ? ? [? _].
  - by apply wp_setStorageEngineSupportsReadCommitted.
  - by apply wp_restartHeartbeats.
  - unfold setElectionInfo. wp_simpl. unfold role_eqb. split; [by apply bool_decide_eq_true|]. frame.
  - by apply wp_setPrimaryIndex.
  - apply wp_asks; [done|]. by eapply owp_mono; [|apply getMemberState_spec, HC].
  - apply wp_asks; [done|]. apply getMaybeUpHostAndPorts_total, HC.
  - apply wp_asks; [done|]. eapply owp_mono; [|apply checkShouldStandForElection_spec; [apply HC|]]; [done|].
    intros Hl. by destruct (inv_leader t (con_inv t HC) Hl) as [? ->].
  - apply wp_asks; [done|]. apply prepareFreshResponse_total; [apply HC|done].
  - apply wp_asks; [done|]. apply shouldChangeSyncSource_total; [apply HC|done].
  - apply wp_asks; [done|]. apply fillIsMasterForReplSet_total; [apply HC|done].
Qed.
End TopoInv.
