(* ===== verification/TopologyProps.v ===== *)
(** * The topology coordinator: what its operations guarantee

    The main theorems about the coordinator, over the lemmas of TopologyInv, and the
    concrete executions that reach an assertion when a caller breaks its contract. *)
From S2P Require Import Prelude ReplTime ParseNumber HostAndPort ReplTag ReplConfig Heartbeat Topology TopologyElection TopologySync TopologyHeartbeat TopologyInv.

Module TopoProps.
Import Topo TopoElect TopoSync TopoHB TopoInv.
Implicit Types t : TopologyCoordinator.

(** ** Reachability *)
Inductive reachable (options : Options) : TopologyCoordinator → Prop :=
| reach_initial : reachable options (initial options)
| reach_call t c t' :
    reachable options t → contract t c → exec c t = Ret (tt, t') → reachable options t'.

Lemma initial_Consistent options : Consistent (initial options).
Proof. split; [apply initial_Inv|]. by intros _ ?. Qed.

Lemma reachable_Consistent options t : reachable options t → Consistent t.
Proof.
  induction 1 as [|t c t' Hr IH Hc He]; [apply initial_Consistent|].
  pose proof (exec_Consistent t c IH Hc) as H. unfold wp in H. by rewrite He in H.
Qed.

(** C16. No sequence of calls within the [contract] of each operation, starting from the coordinator's
    constructor, ever trips one of the [invariant], [fassert] or vector bounds checks of
    topology_coordinator_impl.cpp: every further call returns, in a state that again satisfies the
    invariant.  The calls are all operations of the interface but the reports prepareStatusResponse
    and summarizeAsHtml and the accessors that check nothing.  The contract asks for the role an
    operation is meant for (no change of configuration during an election), for indexes of members,
    for a maintenance count that stays in its range, for configurations of protocol version 0 or 1
    whose members are valid and have distinct ids and no NaN priority (in a config server with a known
    kind of storage engine), for ids of senders that fit
    their type and for the name of the set in a heartbeat that has been let through, for answers to
    heartbeats that were sent, for a primary that says so, for a sync source other than this node,
    for tags that the configuration knows, and of a vote request that this node, the candidate and
    one it has already voted for in that term are members. *)
Theorem reachable_calls_never_abort options t c :
  reachable options t → contract t c → ∃ t', exec c t = Ret (tt, t') ∧ Consistent t'.
Proof.
  intros Hr Hc. pose proof (exec_Consistent t c (reachable_Consistent _ _ Hr) Hc) as H.
  apply wp_Ret in H as ([] & t' & ? & ?). eauto.
Qed.

Definition example_options : Options := mkOptions 30 false false 2 false.
Lemma reachable_calls_never_abort_witness :
  ∃ t', exec (CUpdateConfig RSC.example_config 0 1000 OT.null) (initial example_options)
        = Ret (tt, t') ∧ Consistent t'.
Proof.
  apply (reachable_calls_never_abort example_options).
  - apply reach_initial.
  - split; [done|]. split; [exact example_config_ok|]. split; [|done].
    vm_compute. split; congruence.
Defined.

(** The checks of the config server role keep a member out of the set. *)
Definition barred t : Prop :=
  (opt_skipShardingConfigurationChecks (_options t) = false ∧
   _configServer (_rsConfig t) ≠ clusterRole_configsvr (_options t)) ∨
  (_configServer (_rsConfig t) = true ∧ _storageEngineSupportsReadCommitted t = kNo).
Lemma leader_state t : Inv t → _role t = leader →
  (¬ barred t → getMemberState t = Ret RS_PRIMARY) ∧ (barred t → getMemberState t = Ret RS_REMOVED).
Proof.
  intros HI Hl. destruct (inv_leader t HI Hl) as [Hself Hcpi]. pose proof (inv_readCommitted t HI) as Hrc.
  unfold getMemberState, role_member_state, role_eqb, barred.
  rewrite (bool_decide_true (_role t = leader)) by done. rewrite Hcpi.
  destruct (Z.eqb_spec (_selfIndex t) (-1)); [done|]. unfold check. rewrite Z.eqb_refl. simpl.
  destruct (_configServer _), (clusterRole_configsvr _), (opt_skipShardingConfigurationChecks _),
    (_storageEngineSupportsReadCommitted t) eqn:?; simpl; split; intros Hb; try done; exfalso;
    first [by apply Hrc|apply Hb; first [left; split; congruence|right; split; congruence]|destruct Hb as [[? ?]|[? ?]]; congruence].
Qed.

(** C24. In every reachable state the coordinator reports PRIMARY exactly in the leader role unless
    the config server checks bar it (its role differs from that of the configuration and the checks
    are not skipped, or it is a config server whose storage engine cannot read committed data), when
    a leader reports REMOVED; a leader names itself as the current primary and is a member of the
    set; a node in another role never names itself. *)
Theorem reachable_primary_iff_leader options t :
  reachable options t →
  ∃ s, getMemberState t = Ret s ∧
    (s = RS_PRIMARY ↔ _role t = leader ∧ ¬ barred t) ∧
    (_role t = leader → barred t → s = RS_REMOVED) ∧
    (_role t = leader → _currentPrimaryIndex t = _selfIndex t ∧ 0 ≤ _selfIndex t < numMembers t) ∧
    (_role t ≠ leader → _selfIndex t ≠ -1 → _currentPrimaryIndex t ≠ _selfIndex t).
Proof.
  intros Hr. pose proof (reachable_Consistent _ _ Hr) as HC. pose proof (con_inv t HC) as HI.
  destruct (proj1 (owp_Ret _ _) (getMemberState_spec t HI)) as (s & Hs & Hp & _).
  exists s. split; [done|]. split_and!.
  - split.
    + intros Hprim. pose proof (Hp Hprim) as Hl. split; [done|]. intros Hb.
      destruct (leader_state t HI Hl) as [_ H]. rewrite (H Hb) in Hs. congruence.
    + intros [Hl Hb]. destruct (leader_state t HI Hl) as [H _]. rewrite (H Hb) in Hs. congruence.
  - intros Hl Hb. destruct (leader_state t HI Hl) as [_ H]. rewrite (H Hb) in Hs. congruence.
  - intros Hl. destruct (inv_leader t HI Hl) as [Hself Hcpi]. pose proof (inv_self t HI).
    unfold index_ok in *. split; [done|lia].
  - apply (not_self_primary t HC).
Qed.

(** A node that is alone in its set becomes its primary. *)
Definition solo_config : ReplSetConfig :=
  RSC._calculateMajorities (RSC.example_base <| _members := [RSC.example_member 0 false] |>).
Definition solo_calls : list call :=
  [CUpdateConfig solo_config 0 1000 OT.null; CSetFollowerMode RS_SECONDARY; CProcessWinElection 7 (mkTimestamp 5 1)].
Definition solo_topo (n : nat) : TopologyCoordinator :=
  match mfoldl (λ _ c, exec c) tt (take n solo_calls) (initial example_options) with
  | Ret (_, t) => t | Abort _ => initial example_options
  end.
Lemma solo_config_ok : config_ok solo_config.
Proof.
  split_and!; [|by right|intros _; apply RSC.calculateMajorities_set|by repeat constructor; apply not_elem_of_nil].
  repeat constructor; vm_compute; congruence.
Qed.
Lemma solo_reachable : reachable example_options (solo_topo 3).
Proof.
  apply (reach_call _ (solo_topo 2) (CProcessWinElection 7 (mkTimestamp 5 1))); [|by vm_compute..].
  apply (reach_call _ (solo_topo 1) (CSetFollowerMode RS_SECONDARY)); [|by vm_compute; auto..].
  apply (reach_call _ (initial example_options) (CUpdateConfig solo_config 0 1000 OT.null)); [apply reach_initial| |by vm_compute].
  split; [done|]. split; [exact solo_config_ok|]. split; [vm_compute; split; congruence|done].
Qed.
Lemma reachable_primary_iff_leader_witness :
  ∃ s, getMemberState (solo_topo 3) = Ret s ∧ s = RS_PRIMARY ∧ _currentPrimaryIndex (solo_topo 3) = 0.
Proof.
  destruct (reachable_primary_iff_leader example_options (solo_topo 3) solo_reachable) as (s & Hs & Hp & _ & Hi & _).
  exists s. split; [exact Hs|]. split.
  - apply Hp. split; [reflexivity|]. intros [[_ H]|[H _]]; [by apply H|discriminate H].
  - destruct Hi as [-> _]; reflexivity.
Defined.

(** ** Standing for election *)

(** A follower that nothing keeps from standing for election. *)
Definition may_become_candidate t now lastOpApplied tk : Prop :=
  _role t = follower ∧ can_stand t now lastOpApplied tk.
(** A node becomes a candidate exactly when it is a follower that may stand: it has data,
    sees a majority, is a non-arbiter member of positive priority, is secondary, its step-down
    period is over, and the rules of the protocol version hold.  Otherwise it returns
    [NodeNotElectable] and changes nothing. *)
Theorem becomeCandidateIfElectable_exact t now lastOpApplied tk :
  Consistent t →
  (may_become_candidate t now lastOpApplied tk ∧
   becomeCandidateIfElectable now lastOpApplied tk t = Ret (OK tt, t <| _role := candidate |>)) ∨
  (¬ may_become_candidate t now lastOpApplied tk ∧
   becomeCandidateIfElectable now lastOpApplied tk t = Ret (Err NodeNotElectable, t)).
Proof.
  intros HC. pose proof (wp_becomeCandidateIfElectable t HC now lastOpApplied tk) as H.
  apply wp_Ret in H as (st & t' & He & _ & Hiff & Hok).
  destruct st as [[]|e]; simpl in *.
  - left. destruct (proj1 Hiff eq_refl) as [? ?]. rewrite He, Hok by done. done.
  - right. split; [intros Hn; by apply Hiff in Hn|].
    revert He. unfold becomeCandidateIfElectable, mbind, M_bind, gets, mret, M_ret.
    destruct (role_eqb _ _); [by intros [= <- <-]|]. destruct (role_eqb _ _); [by intros [= <- <-]|].
    unfold reads. destruct (_getMyUnelectableReason _ _ _ _) as [r|]; [|done].
    destruct (negb (r =? 0)); [|done].
    destruct (_getUnelectableReasonString r); [|done]. by intros [= <- <-].
Qed.

Lemma example_Consistent : Consistent example_topo.
Proof. split; [exact example_Inv|]. by intros _ ?. Qed.

Lemma becomeCandidateIfElectable_exact_witness :
  (may_become_candidate example_topo 5000 (mkOpTime (mkTimestamp 10 1) 1) false ∧
   becomeCandidateIfElectable 5000 (mkOpTime (mkTimestamp 10 1) 1) false example_topo
     = Ret (OK tt, example_topo <| _role := candidate |>)) ∨
  (¬ may_become_candidate example_topo 5000 (mkOpTime (mkTimestamp 10 1) 1) false ∧
   becomeCandidateIfElectable 5000 (mkOpTime (mkTimestamp 10 1) 1) false example_topo
     = Ret (Err NodeNotElectable, example_topo)).
Proof. apply becomeCandidateIfElectable_exact. exact example_Consistent. Defined.

(** ** Stepping down *)
Definition caught_up t (lastOpApplied : OpTime) (i : Z) : Prop :=
  0 ≤ i < numMembers t ∧ i ≠ _selfIndex t ∧ looks_electable t i lastOpApplied ∧
  ∃ d, _hbdata t !! Z.to_nat i = Some d ∧ OT.geb (HB.getAppliedOpTime d) lastOpApplied = true.

Lemma exists_snoc (l : list Z) (i : Z) (P : Z → Prop) :
  (∃ j, j ∈ l ++ [i] ∧ P j) ↔ (∃ j, j ∈ l ∧ P j) ∨ P i.
Proof.
  setoid_rewrite elem_of_app. setoid_rewrite list_elem_of_singleton. split.
  - intros (j & [?| -> ] & ?); eauto.
  - intros [(j & ? & ?)|?]; eauto.
Qed.

Lemma has_caught_up_electable_spec t lastOpApplied :
  Inv t → owp (has_caught_up_electable t lastOpApplied)
            (λ b, b = true ↔ ∃ i, caught_up t lastOpApplied i).
Proof.
  intros HI. unfold has_caught_up_electable.
  eapply owp_mono; [|apply (owp_ofoldl_prefix (λ pre b, b = true ↔
    ∃ i, i ∈ pre.*1 ∧ caught_up t lastOpApplied i))].
  - intros b Hb. rewrite Hb. split; [naive_solver|]. intros (i & Hi). exists i. split; [|done].
    destruct Hi as (Hr & _). destruct (lookup_lt_is_Some_2 (_members (_rsConfig t)) (Z.to_nat i))
      as [m Hm]; [unfold numMembers, vsize in Hr; lia|].
    apply list_elem_of_fmap. exists (i, m). split; [done|]. apply elem_of_indexed. split; [lia|done].
  - split; [done|]. intros (i & Hi & _). by apply elem_of_nil in Hi.
  - intros pre [i m] post b Hl Hb.
    eapply owp_mono; [intros b' Hb'; rewrite fmap_app; csimpl; rewrite exists_snoc; exact Hb'|].
    assert (0 ≤ i < numMembers t) as Hi.
    { apply (indexed_member_range t i m). rewrite Hl. apply elem_of_app. right. left. }
    destruct b; [simpl; split; [|done]; intros _; left; by apply Hb|].
    destruct (Z.eqb_spec i (_selfIndex t)) as [Hs|Hs].
    { simpl. rewrite Hb. split; [by left|]. intros [?|Hj]; [done|]. by destruct Hj as (_ & ? & _). }
    apply owp_bind. eapply owp_mono; [|by apply getUnelectableReason_spec].
    intros r [_ Hr]. cbn beta in Hr. destruct (Z.eqb_spec r 0) as [Hz|Hz].
    + apply owp_bind, owp_hbdata; [done..|]. intros d Hd _. simpl.
      assert (OT.geb (HB.getAppliedOpTime d) lastOpApplied = true ↔ caught_up t lastOpApplied i) as -> .
      { unfold caught_up. rewrite Hd. naive_solver. }
      split; [by right|]. intros [Hj|?]; [|done]. by apply Hb in Hj.
    + simpl. rewrite Hb. split; [by left|]. intros [?|Hj]; [done|].
      destruct Hj as (_ & _ & ?%Hr & _). done.
Qed.

(** A primary that is not forced steps down exactly when another member is electable
    and has applied everything the primary has; a forced step-down always succeeds.  After a
    step-down the node is a follower that knows of no primary and cannot stand before
    [until]; otherwise nothing changes. *)
Theorem stepDown_exact t until force lastOpApplied :
  Consistent t → _role t = leader →
  ((force = true ∨ ∃ i, caught_up t lastOpApplied i) ∧
   stepDown until force lastOpApplied t =
     Ret (true, t <| _stepDownUntil := until |> <| _currentPrimaryIndex := -1 |>
                  <| _role := follower |> <| _stepDownPending := false |>)) ∨
  (¬ (force = true ∨ ∃ i, caught_up t lastOpApplied i) ∧
   stepDown until force lastOpApplied t = Ret (false, t)).
Proof.
  intros HC Hr. destruct (inv_leader t (con_inv t HC) Hr) as [Hs Hp].
  assert ((modify (λ t, t <| _stepDownUntil := until |>) ;; _stepDownSelfAndReplaceWith (-1) ;;
           mret true) t = Ret (true, t <| _stepDownUntil := until |> <| _currentPrimaryIndex := -1 |>
             <| _role := follower |> <| _stepDownPending := false |>)) as Hdown.
  { unfold _stepDownSelfAndReplaceWith, mbind, M_bind, modify, invariant, mret, M_ret. simpl.
    unfold role_eqb. rewrite bool_decide_true by done. simpl.
    do 2 (rewrite (proj2 (Z.eqb_neq (_selfIndex t) (-1))) by done; simpl). by rewrite Hp, Z.eqb_refl. }
  unfold stepDown. destruct force; [left; split; [by left|exact Hdown]|].
  destruct (proj1 (owp_Ret _ _) (has_caught_up_electable_spec t lastOpApplied (con_inv t HC)))
    as (b & Hb & Hiff).
  destruct b.
  - left. split; [right; by apply Hiff|]. rewrite <- Hdown.
    unfold mbind, M_bind, reads. by rewrite Hb.
  - right. split; [|unfold mbind, M_bind, reads; by rewrite Hb]. intros [?|H]; [done|]. by apply Hiff in H.
Qed.

Definition as_leader t : TopologyCoordinator :=
  t <| _role := leader |> <| _currentPrimaryIndex := _selfIndex t |>.
Lemma as_leader_Consistent t : Consistent t → _selfIndex t ≠ -1 → Consistent (as_leader t).
Proof.
  intros [[] _] Hs. split; [split|]; unfold Remote, index_ok, numMembers in *; simpl; done.
Qed.
Definition example_leader : TopologyCoordinator := as_leader example_topo.

Lemma stepDown_exact_witness :
  ((false = true ∨ ∃ i, caught_up example_leader (mkOpTime (mkTimestamp 10 1) 1) i) ∧
   stepDown 9000 false (mkOpTime (mkTimestamp 10 1) 1) example_leader =
     Ret (true, example_leader <| _stepDownUntil := 9000 |> <| _currentPrimaryIndex := -1 |>
                  <| _role := follower |> <| _stepDownPending := false |>)) ∨
  (¬ (false = true ∨ ∃ i, caught_up example_leader (mkOpTime (mkTimestamp 10 1) 1) i) ∧
   stepDown 9000 false (mkOpTime (mkTimestamp 10 1) 1) example_leader = Ret (false, example_leader)).
Proof. apply stepDown_exact; [apply as_leader_Consistent; [exact example_Consistent|discriminate]|reflexivity]. Defined.

(** ** Choosing a sync source *)

(** The hard conditions the scan puts on member [i] with configuration [m] and heartbeat
    data [d]. *)
Definition usable_source t (now : Z) (lastFetched : OpTime) (i : Z) (m : MemberConfig) : Prop :=
  ∃ d, _hbdata t !! Z.to_nat i = Some d ∧ HB.up d = true ∧ readable (HB.getState d) = true ∧
    OT.leb (HB.getAppliedOpTime d) lastFetched = false ∧
    ∀ self, _selfConfig t = Ret self → mc_buildIndexes self = true → mc_buildIndexes m = true.

Lemma acceptable_source_usable t now attempts lf old i m d :
  _hbdata t !! Z.to_nat i = Some d → acceptable_source t attempts lf old m d = Ret true →
  usable_source t now lf i m.
Proof.
  unfold acceptable_source. intros Hd. destruct (HB.up d) eqn:Hu; [|done].
  destruct (readable _) eqn:Hrd; [|done]. simpl.
  destruct (_selfConfig t) as [self|] eqn:Hself; [|done]. simpl.
  destruct (OT.leb _ lf) eqn:Hle; [by repeat case_match|]. intros H. exists d. split_and!; try done.
  intros self' Hs Hb. rewrite Hself in Hs. injection Hs as <-. rewrite Hb in H. destruct (mc_buildIndexes m); [done|].
  simpl in H. by repeat case_match.
Qed.

(** Choosing a sync source always returns, and records what it returns.  A
    non-empty result is the host of a member of the set that is either the one an operator
    forced, or the unblacklisted primary when chaining is forbidden, or another member that is
    not blacklisted, is up and readable, has operations we have not fetched and builds
    indexes if we do. *)
Theorem chooseNewSyncSource_correct t now lastFetched pref :
  Consistent t →
  ∃ h t', chooseNewSyncSource now lastFetched pref t = Ret (h, t') ∧ Consistent t' ∧
    (_selfIndex t ≠ -1 → _syncSource t' = h) ∧
    (h = HP.default ∨
     ∃ i m, 0 ≤ i < numMembers t ∧ _members (_rsConfig t) !! Z.to_nat i = Some m ∧ h = mc_host m ∧
       (i = _forceSyncSourceIndex t ∨
        (i ≠ _selfIndex t ∧ _memberIsBlacklisted t m now = false ∧
         ((_chainingAllowed (_rsConfig t) = false ∧ i = _currentPrimaryIndex t) ∨
          usable_source t now lastFetched i m)))).
Proof.
  intros HC. pose proof (wp_chooseNewSyncSource t now lastFetched pref HC) as H.
  apply wp_Ret in H as (h & t' & He & HC' & Hok & Hs). exists h, t'. split_and!; try done.
  destruct Hok as [?|(i & m & Hi & Hm & -> & Hcase)]; [by left|]. right. exists i, m.
  split_and!; try done; [lia|lia|].
  destruct Hcase as [?|[(_ & ? & ? & ? & ?)|(a & o & Hne & _ & m' & d & Hm' & Hd & Ha & Hb)]];
    [by left|right; split_and!; auto|]. right. simplify_eq.
  split_and!; try done. right. eapply acceptable_source_usable; eauto.
Qed.

Lemma chooseNewSyncSource_correct_witness :
  ∃ h t', chooseNewSyncSource 5000 OT.null kUseConfiguration example_topo = Ret (h, t') ∧
    Consistent t' ∧ (_selfIndex example_topo ≠ -1 → _syncSource t' = h) ∧
    (h = HP.default ∨
     ∃ i m, 0 ≤ i < numMembers example_topo ∧
       _members (_rsConfig example_topo) !! Z.to_nat i = Some m ∧ h = mc_host m ∧
       (i = _forceSyncSourceIndex example_topo ∨
        (i ≠ _selfIndex example_topo ∧ _memberIsBlacklisted example_topo m 5000 = false ∧
         ((_chainingAllowed (_rsConfig example_topo) = false ∧ i = _currentPrimaryIndex example_topo) ∨
          usable_source example_topo 5000 OT.null i m)))).
Proof. apply chooseNewSyncSource_correct. exact example_Consistent. Defined.

(** ** Votes *)

(** The vote for the candidate of the request is remembered. *)
Definition record_vote (args : ReplSetRequestVotesArgs) t : TopologyCoordinator :=
  t <| _lastVote := mkLastVote (va_term args) (va_candidateIndex args) |>.
(** C28. A request for a vote within its contract is always answered with our term.  The
    vote is granted exactly when the candidate's term is not behind ours, it runs the same
    configuration of the same set, its data is not staler than ours, we have not voted in that
    term (for a real election) and, for an arbiter, no healthy primary of equal or greater
    priority is visible.  A granted real vote is recorded; nothing else changes. *)
Theorem processReplSetRequestVotes_exact t args lastApplied :
  Consistent t → vote_request_ok t args →
  ∃ granted, processReplSetRequestVotes args lastApplied t =
    Ret (mkVoteResponse (_term t) granted,
         if granted && negb (va_dryRun args) then record_vote args t else t) ∧
    (granted = true ↔ may_grant_vote t args lastApplied).
Proof.
  intros HC Hok. pose proof (wp_processReplSetRequestVotes t args lastApplied HC Hok) as H.
  apply wp_Ret in H as ([tm g] & t' & He & _ & Ht & -> & Hg). simpl in *. subst tm. eauto.
Qed.

Definition example_vote_args : ReplSetRequestVotesArgs :=
  mkVoteArgs (RSC.str "rs0") 2 1 1 (mkOpTime (mkTimestamp 10 1) 1) false.
Lemma processReplSetRequestVotes_exact_witness :
  ∃ granted, processReplSetRequestVotes example_vote_args (mkOpTime (mkTimestamp 10 1) 1) example_topo =
    Ret (mkVoteResponse (_term example_topo) granted,
         if granted && negb (va_dryRun example_vote_args)
         then record_vote example_vote_args example_topo else example_topo) ∧
    (granted = true ↔
     may_grant_vote example_topo example_vote_args (mkOpTime (mkTimestamp 10 1) 1)).
Proof.
  apply processReplSetRequestVotes_exact; [exact example_Consistent|].
  unfold vote_request_ok. vm_compute. split_and!; congruence.
Defined.

(** ** Executions that reach an assertion *)

(** [_lastVote] starts as term 0 with no candidate: a request that names term 0 makes a
    node that never voted look up member -1 to phrase its refusal. *)
Lemma vote_request_term0_aborts :
  processReplSetRequestVotes (mkVoteArgs (RSC.str "rs0") 0 1 1 OT.null false) OT.null
    (example_topo <| _term := 0 |>) = Abort 629.
Proof. vm_compute. reflexivity. Qed.

(** The recorded index outlives the configuration it refers to: having voted for member 2,
    then taken a configuration of two members, a second request in the same term aborts. *)
Definition shrunk_config : ReplSetConfig :=
  RSC._calculateMajorities
    (RSC.example_config <| _members := [RSC.example_member 0 false; RSC.example_member 1 false] |>
       <| _version := 2 |>).
Lemma vote_request_after_shrink_aborts :
  (processReplSetRequestVotes (mkVoteArgs (RSC.str "rs0") 2 2 1 OT.null false) OT.null ;;
   updateConfig shrunk_config 0 5000 OT.null ;;
   processReplSetRequestVotes (mkVoteArgs (RSC.str "rs0") 2 1 2 OT.null false) OT.null) example_topo
  = Abort 629.
Proof. vm_compute. reflexivity. Qed.

(** The candidate index of a request is not checked against the configuration. *)
Lemma vote_request_bad_index_aborts :
  processReplSetRequestVotes (mkVoteArgs (RSC.str "rs0") 2 7 1 OT.null false) OT.null example_topo
  = Abort 629.
Proof. vm_compute. reflexivity. Qed.

(** The sender's id is compared with our own as a 64-bit number and then narrowed to look
    up the member: an id 2^32 above ours passes the first test and fails the assertion. *)
Lemma heartbeat_sender_id_truncation_aborts :
  prepareHeartbeatResponseV1 5000
    (mkHBArgsV1 (RSC.str "rs0") 1 (2 ^ 32) 1 HP.default) (RSC.str "rs0") OT.null OT.null example_topo
  = Abort 863.
Proof. vm_compute. reflexivity. Qed.
End TopoProps.
