(* ===== verification/Election.v ===== *)
(** * Elections: asking the other members

    The scatter-gather runner that sends one request to each target and feeds the answers to
    an algorithm until the algorithm has seen enough
    (src/mongo/db/repl/scatter_gather_runner.cpp), and the three algorithms elections use:
    the freshness check and the elect command of protocol version 0 (freshness_checker.cpp,
    elect_cmd_runner.cpp) and the vote request of protocol version 1 (vote_requester.cpp).
    The runner is verified against the interface of scatter_gather_algorithm.h, a type class
    with its laws; the algorithms discharge the laws. *)
From S2P Require Import Prelude ReplTime ParseNumber HostAndPort ReplTag ReplConfig Heartbeat Topology TopologyElection.

(** The answer to one remote command: a transport error, or the reply, of which [D] is
    the decoded content. *)
Inductive ResponseStatus (D : Type) := Failed (e : ErrorCode) | Reply (data : D).
Arguments Failed {D} e.
Arguments Reply {D} data.

Record RemoteCommandRequest (Q : Type) := mkRequest { rq_target : HostAndPort; rq_cmd : Q; rq_timeout : Z }.
Arguments mkRequest {Q} rq_target rq_cmd rq_timeout.
Arguments rq_target {Q} _.
Arguments rq_cmd {Q} _.
Arguments rq_timeout {Q} _.

(** ** The interface *)
Class ScatterGatherAlgorithm (A Q D : Type) := {
  getRequests : A → outcome (list (RemoteCommandRequest Q));
  processResponse : HostAndPort → ResponseStatus D → A → outcome A;
  hasReceivedSufficientResponses : A → bool }.

(** What the runner relies on: unless the algorithm has seen enough before it starts, it
    sends one request to each target, and every target answered brings it one step closer to
    having seen enough. *)
Class ScatterGatherLaws (A Q D : Type) `{ScatterGatherAlgorithm A Q D} := {
  sg_targets : A → list HostAndPort;
  sg_outstanding : A → Z;
  sg_ok : A → Prop;
  sg_requests a : sg_ok a →
    ∃ rs, getRequests a = Ret rs ∧
          (hasReceivedSufficientResponses a = false → rq_target <$> rs = sg_targets a);
  sg_process a h r : sg_ok a → h ∈ sg_targets a →
    ∃ a', processResponse h r a = Ret a' ∧ sg_ok a' ∧ sg_targets a' = sg_targets a ∧
          sg_outstanding a' = sg_outstanding a - 1;
  sg_done a : sg_ok a → sg_outstanding a = 0 → hasReceivedSufficientResponses a = true }.

(** ** VoteRequester *)
Inductive VoteResult := kSuccessfullyElected | kStaleTerm | kInsufficientVotes.
#[export] Instance VoteResult_eq_dec : EqDecision VoteResult.
Proof. solve_decision. Defined.

Record VoteRequesterAlgorithm := mkVoteRequester {
  vq_rsConfig : ReplSetConfig; vq_candidateIndex : Z; vq_term : Z; vq_dryRun : bool;
  vq_lastDurableOpTime : OpTime; vq_targets : list HostAndPort;
  vq_responders : gset (chars * Z); vq_staleTerm : bool; vq_responsesProcessed : Z; vq_votes : Z }.
#[export] Instance VoteRequesterAlgorithm_eta : Eta VoteRequesterAlgorithm := λ a,
  mkVoteRequester (vq_rsConfig a) (vq_candidateIndex a) (vq_term a) (vq_dryRun a)
    (vq_lastDurableOpTime a) (vq_targets a) (vq_responders a) (vq_staleTerm a)
    (vq_responsesProcessed a) (vq_votes a).

Module Vote.
(** The voting members other than the candidate. *)
Definition targets_of (rsConfig : ReplSetConfig) (candidateIndex : Z) : list HostAndPort :=
  (λ im, mc_host im.2) <$>
    List.filter (λ im, MC.isVoter im.2 && negb (im.1 =? candidateIndex)) (indexed (_members rsConfig)).
Definition Algorithm (rsConfig : ReplSetConfig) (candidateIndex term : Z) (dryRun : bool)
    (lastDurableOpTime : OpTime) : VoteRequesterAlgorithm :=
  mkVoteRequester rsConfig candidateIndex term dryRun lastDurableOpTime
    (targets_of rsConfig candidateIndex) ∅ false 0 1.
Definition args_of (a : VoteRequesterAlgorithm) : ReplSetRequestVotesArgs :=
  mkVoteArgs (_replSetName (vq_rsConfig a)) (vq_term a) (vq_candidateIndex a)
    (_version (vq_rsConfig a)) (vq_lastDurableOpTime a) (vq_dryRun a).
Definition getRequests (a : VoteRequesterAlgorithm)
    : outcome (list (RemoteCommandRequest ReplSetRequestVotesArgs)) :=
  Ret ((λ target, mkRequest target (args_of a) (_electionTimeoutPeriod (vq_rsConfig a)))
         <$> vq_targets a).
(** The reply is an error, is not well formed, or carries a vote. *)
Definition processResponse (target : HostAndPort)
    (response : ResponseStatus (StatusWith ReplSetRequestVotesResponse))
    (a : VoteRequesterAlgorithm) : outcome VoteRequesterAlgorithm :=
  let a := a <| vq_responsesProcessed := vq_responsesProcessed a + 1 |> in
  Ret match response with
      | Failed _ => a
      | Reply data =>
          let a := a <| vq_responders := {[HP.key target]} ∪ vq_responders a |> in
          match data with
          | Err _ => a
          | OK voteResponse =>
              let a := if vr_voteGranted voteResponse then a <| vq_votes := vq_votes a + 1 |>
                       else a in
              if vq_term a <? vr_term voteResponse then a <| vq_staleTerm := true |> else a
          end
      end.
Definition hasReceivedSufficientResponses (a : VoteRequesterAlgorithm) : bool :=
  vq_staleTerm a || (vq_votes a =? _majorityVoteCount (vq_rsConfig a)) ||
  (vq_responsesProcessed a =? vsize (vq_targets a)).
Definition getResult (a : VoteRequesterAlgorithm) : VoteResult :=
  if vq_staleTerm a then kStaleTerm
  else if _majorityVoteCount (vq_rsConfig a) <=? vq_votes a then kSuccessfullyElected
  else kInsufficientVotes.
End Vote.
#[export] Instance VoteRequester_algorithm :
    ScatterGatherAlgorithm VoteRequesterAlgorithm ReplSetRequestVotesArgs
      (StatusWith ReplSetRequestVotesResponse) :=
  Build_ScatterGatherAlgorithm _ _ _ Vote.getRequests Vote.processResponse
    Vote.hasReceivedSufficientResponses.

(** ** FreshnessChecker *)
Inductive ElectionAbortReason :=
| NoReason | FresherNodeFound | FreshnessTie | QuorumUnavailable | QuorumUnreachable.
#[export] Instance ElectionAbortReason_eq_dec : EqDecision ElectionAbortReason.
Proof. solve_decision. Defined.

(** The decoded reply: the status of the command, and its fields; the time is absent
    when it is not a date. *)
Record FreshReply := mkFreshReply {
  fy_status : Status; fy_fresher : bool; fy_opTime : option Z; fy_veto : bool }.

Record FreshnessAlgorithm := mkFreshness {
  fc_responsesProcessed : Z; fc_failedVoterResponses : Z; fc_lastOpTimeApplied : Timestamp;
  fc_rsConfig : ReplSetConfig; fc_selfIndex : Z; fc_targets : list HostAndPort;
  fc_votingTargets : Z; fc_losableVoters : Z; fc_myVote : Z; fc_abortReason : ElectionAbortReason }.
#[export] Instance FreshnessAlgorithm_eta : Eta FreshnessAlgorithm := λ a,
  mkFreshness (fc_responsesProcessed a) (fc_failedVoterResponses a) (fc_lastOpTimeApplied a)
    (fc_rsConfig a) (fc_selfIndex a) (fc_targets a) (fc_votingTargets a) (fc_losableVoters a)
    (fc_myVote a) (fc_abortReason a).

Module Fresh.
Definition is_voting_target (rsConfig : ReplSetConfig) (hap : HostAndPort) : outcome bool :=
  member ← RSC.findMemberByHostAndPort rsConfig hap;
  Ret (from_option MC.isVoter false member).
Definition Algorithm (lastOpTimeApplied : Timestamp) (rsConfig : ReplSetConfig) (selfIndex : Z)
    (targets : list HostAndPort) : outcome FreshnessAlgorithm :=
  votingTargets ← ofoldl (λ n it,
    voter ← is_voting_target rsConfig it;
    Ret (if (voter : bool) then n + 1 else n)) 0 targets;
  self ← RSC.getMemberAt rsConfig selfIndex;
  let myVote := if MC.isVoter self then 1 else 0 in
  let losableVoters := Z.max 0 (votingTargets + myVote - _majorityVoteCount rsConfig) in
  Ret (mkFreshness 0 0 lastOpTimeApplied rsConfig selfIndex targets votingTargets losableVoters
         myVote NoReason).
Definition getRequests (a : FreshnessAlgorithm)
    : outcome (list (RemoteCommandRequest ReplSetFreshArgs)) :=
  selfConfig ← RSC.getMemberAt (fc_rsConfig a) (fc_selfIndex a);
  let cmd := mkFreshArgs (_replSetName (fc_rsConfig a)) (mc_host selfConfig) (mc_id selfConfig)
               (_version (fc_rsConfig a)) (fc_lastOpTimeApplied a) in
  ofoldl (λ requests it,
    check 96 (negb (HP.eqb it (mc_host selfConfig))) ;;
    Ret (requests ++ [mkRequest it cmd 30000])) [] (fc_targets a).
Definition hadTooManyFailedVoterResponses (a : FreshnessAlgorithm) : bool :=
  fc_losableVoters a <? fc_failedVoterResponses a.
Definition _isVotingMember (a : FreshnessAlgorithm) (hap : HostAndPort) : outcome bool :=
  member ← RSC.findMemberByHostAndPort (fc_rsConfig a) hap;
  match member with
  | Some m => Ret (MC.isVoter m)
  | None => Abort 120
  end.
(** A node that could not be asked counts against the quorum when it votes. *)
Definition note_failure (votingMember : bool) (a : FreshnessAlgorithm) : FreshnessAlgorithm :=
  if votingMember then
    let a := a <| fc_failedVoterResponses := fc_failedVoterResponses a + 1 |> in
    if hadTooManyFailedVoterResponses a then a <| fc_abortReason := QuorumUnreachable |> else a
  else a.
Definition processResponse (target : HostAndPort) (response : ResponseStatus FreshReply)
    (a : FreshnessAlgorithm) : outcome FreshnessAlgorithm :=
  let a := a <| fc_responsesProcessed := fc_responsesProcessed a + 1 |> in
  votingMember ← _isVotingMember a target;
  Ret match response with
      | Failed _ => note_failure votingMember a
      | Reply res =>
          if negb (sw_isOK (fy_status res)) then note_failure votingMember a
          else if fy_fresher res then a <| fc_abortReason := FresherNodeFound |>
          else match fy_opTime res with
               | None => a <| fc_abortReason := FresherNodeFound |>
               | Some date =>
                   let remoteTime := TS.of_ull date in
                   let a := if TS.eqb remoteTime (fc_lastOpTimeApplied a)
                            then a <| fc_abortReason := FreshnessTie |> else a in
                   if TS.gtb remoteTime (fc_lastOpTimeApplied a)
                   then a <| fc_abortReason := FresherNodeFound |>
                   else if fy_veto res then a <| fc_abortReason := FresherNodeFound |>
                   else a
               end
      end.
Definition hasReceivedSufficientResponses (a : FreshnessAlgorithm) : bool :=
  (negb (bool_decide (fc_abortReason a = NoReason)) &&
   negb (bool_decide (fc_abortReason a = FreshnessTie))) ||
  (fc_responsesProcessed a =? vsize (fc_targets a)).
Definition shouldAbortElection (a : FreshnessAlgorithm) : ElectionAbortReason := fc_abortReason a.
End Fresh.
#[export] Instance FreshnessChecker_algorithm :
    ScatterGatherAlgorithm FreshnessAlgorithm ReplSetFreshArgs FreshReply :=
  Build_ScatterGatherAlgorithm _ _ _ Fresh.getRequests Fresh.processResponse
    Fresh.hasReceivedSufficientResponses.

(** ** ElectCmdRunner *)
Record ElectCmdAlgorithm := mkElectCmd {
  ec_actualResponses : Z; ec_sufficientResponsesReceived : bool; ec_rsConfig : ReplSetConfig;
  ec_selfIndex : Z; ec_targets : list HostAndPort; ec_round : Z; ec_receivedVotes : Z }.
#[export] Instance ElectCmdAlgorithm_eta : Eta ElectCmdAlgorithm := λ a,
  mkElectCmd (ec_actualResponses a) (ec_sufficientResponsesReceived a) (ec_rsConfig a)
    (ec_selfIndex a) (ec_targets a) (ec_round a) (ec_receivedVotes a).

Module Elect.
Definition Algorithm (rsConfig : ReplSetConfig) (selfIndex : Z) (targets : list HostAndPort)
    (round : Z) : outcome ElectCmdAlgorithm :=
  self ← RSC.getMemberAt rsConfig selfIndex;
  Ret (mkElectCmd 0 false rsConfig selfIndex targets round (MC.getNumVotes self)).
Definition getRequests (a : ElectCmdAlgorithm)
    : outcome (list (RemoteCommandRequest ReplSetElectArgs)) :=
  selfConfig ← RSC.getMemberAt (ec_rsConfig a) (ec_selfIndex a);
  let cmd := mkElectArgs (_replSetName (ec_rsConfig a)) (mc_id selfConfig)
               (_version (ec_rsConfig a)) (ec_round a) in
  ofoldl (λ requests it,
    check 78 (negb (HP.eqb it (mc_host selfConfig))) ;;
    Ret (requests ++ [mkRequest it cmd 30000])) [] (ec_targets a).
Definition hasReceivedSufficientResponses (a : ElectCmdAlgorithm) : bool :=
  if ec_sufficientResponsesReceived a then true
  else if _majorityVoteCount (ec_rsConfig a) <=? ec_receivedVotes a then true
  else if ec_receivedVotes a <? 0 then true
  else ec_actualResponses a =? vsize (ec_targets a).
(** The reply carries the number of votes, absent when it is not a 32-bit integer. *)
Definition processResponse (target : HostAndPort) (response : ResponseStatus (option Z))
    (a : ElectCmdAlgorithm) : outcome ElectCmdAlgorithm :=
  let a := a <| ec_actualResponses := ec_actualResponses a + 1 |> in
  Ret match response with
      | Reply (Some vote) => a <| ec_receivedVotes := i32 (ec_receivedVotes a + vote) |>
      | Reply None => a <| ec_sufficientResponsesReceived := true |>
      | Failed _ => a
      end.
End Elect.
#[export] Instance ElectCmdRunner_algorithm :
    ScatterGatherAlgorithm ElectCmdAlgorithm ReplSetElectArgs (option Z) :=
  Build_ScatterGatherAlgorithm _ _ _ Elect.getRequests Elect.processResponse
    Elect.hasReceivedSufficientResponses.

(** ** ScatterGatherRunner *)
Module Runner.
(** [std::find], [std::swap] with the last element, [pop_back]. *)
Definition swap_pop (h : nat) (l : list nat) : list nat :=
  match list_find (h =.) l with
  | Some (i, _) => take (length l - 1) (<[i := List.last l 0%nat]> l)
  | None => l
  end.

Lemma swap_pop_perm h l : h ∈ l → h :: swap_pop h l ≡ₚ l.
Proof.
  intros Hin. unfold swap_pop.
  destruct (list_find_elem_of (h =.) l h Hin eq_refl) as [[i x] Hf]. rewrite Hf.
  apply list_find_Some in Hf as (Hi & <- & _).
  destruct l as [|x l _] using rev_ind; [done|].
  rewrite List.last_last, length_app. simpl. replace (length l + 1 - 1)%nat with (length l) by lia.
  destruct (decide (i < length l)%nat) as [Hlt|Hge].
  - rewrite lookup_app_l in Hi by done. rewrite insert_app_l by done.
    rewrite take_app_length' by (by rewrite length_insert).
    rewrite <-(take_drop_middle l i h Hi) at 2. rewrite insert_take_drop by done.
    solve_Permutation.
  - assert (i = length l) as ->.
    { apply lookup_lt_Some in Hi. rewrite length_app in Hi. simpl in Hi. lia. }
    rewrite lookup_app_r, Nat.sub_diag in Hi by lia. injection Hi as ->.
    rewrite list_insert_id by (by rewrite lookup_app_r, Nat.sub_diag by lia).
    rewrite take_app_length. by rewrite Permutation_cons_append.
Qed.

Section runner.
Context {A Q D : Type} `{ScatterGatherAlgorithm A Q D}.

(** [_callbacks] holds the outstanding requests by position.  [rn_cancelled] and
    [rn_signals] record the calls made on the executor. *)
Record RunnerImpl := mkRunner {
  rn_algorithm : A; rn_started : bool; rn_eventValid : bool; rn_callbacks : list nat;
  rn_cancelled : list nat; rn_signals : nat }.
#[local] Instance RunnerImpl_eta : Eta RunnerImpl := λ r,
  mkRunner (rn_algorithm r) (rn_started r) (rn_eventValid r) (rn_callbacks r) (rn_cancelled r)
    (rn_signals r).
Definition new (a : A) : RunnerImpl := mkRunner a false false [] [] 0.

Definition _signalSufficientResponsesReceived (r : RunnerImpl) : RunnerImpl :=
  if rn_eventValid r then
    r <| rn_cancelled := rn_cancelled r ++ rn_callbacks r |> <| rn_callbacks := [] |>
      <| rn_signals := S (rn_signals r) |> <| rn_eventValid := false |>
  else r.

(** Schedules request [i] and those after it; [false] when the executor is shutting down. *)
Fixpoint schedule_all (schedule : nat → Status) (i : nat) (requests : list (RemoteCommandRequest Q))
    (r : RunnerImpl) : outcome (bool * RunnerImpl) :=
  match requests with
  | [] => Ret (true, r)
  | _ :: rest =>
      match schedule i with
      | OK _ => schedule_all schedule (S i) rest (r <| rn_callbacks := rn_callbacks r ++ [i] |>)
      | Err ShutdownInProgress => Ret (false, r)
      | Err _ => Abort 106
      end
  end.

(** [makeEvent] and [schedule] are the executor's answers. *)
Definition start (makeEvent : Status) (schedule : nat → Status) (r : RunnerImpl)
    : outcome (Status * RunnerImpl) :=
  check 90 (negb (rn_started r)) ;;
  let r := r <| rn_started := true |> in
  match makeEvent with
  | Err e => Ret (Err e, r)
  | OK _ =>
      let r := r <| rn_eventValid := true |> in
      requests ← getRequests (rn_algorithm r);
      scheduled ← schedule_all schedule 0 requests r;
      let '(ok, r) := scheduled in
      if negb ok then Ret (Err ShutdownInProgress, _signalSufficientResponsesReceived r)
      else if bool_decide (rn_callbacks r = []) || hasReceivedSufficientResponses (rn_algorithm r) then
        check 111 (hasReceivedSufficientResponses (rn_algorithm r)) ;;
        Ret (OK tt, _signalSufficientResponsesReceived r)
      else Ret (OK tt, r)
  end.

Definition cancel (r : RunnerImpl) : outcome RunnerImpl :=
  check 122 (rn_started r) ;; Ret (_signalSufficientResponsesReceived r).

Definition is_canceled (response : ResponseStatus D) : bool :=
  match response with Failed CallbackCanceled => true | _ => false end.

Definition process (handle : nat) (target : HostAndPort) (response : ResponseStatus D)
    (r : RunnerImpl) : outcome RunnerImpl :=
  if negb (rn_eventValid r) then Ret r
  else
    check 137 (bool_decide (handle ∈ rn_callbacks r)) ;;
    let r := r <| rn_callbacks := swap_pop handle (rn_callbacks r) |> in
    if is_canceled response then Ret r
    else
      a ← processResponse target response (rn_algorithm r);
      let r := r <| rn_algorithm := a |> in
      if hasReceivedSufficientResponses a then Ret (_signalSufficientResponsesReceived r)
      else check 149 (negb (bool_decide (rn_callbacks r = []))) ;; Ret r.

(** *** Specification *)

(** Answers are fed to the algorithm in order of arrival until it has seen enough. *)
Fixpoint gather (a : A) (answers : list (HostAndPort * ResponseStatus D)) : outcome A :=
  if hasReceivedSufficientResponses a then Ret a
  else match answers with
       | [] => Ret a
       | (h, response) :: rest => a' ← processResponse h response a; gather a' rest
       end.

(** The runner receives the answer to request number [h], sent to [targets !! h]. *)
Fixpoint deliver (targets : list HostAndPort) (arrivals : list (nat * ResponseStatus D))
    (r : RunnerImpl) : outcome RunnerImpl :=
  match arrivals with
  | [] => Ret r
  | (h, response) :: rest =>
      match targets !! h with
      | Some target => r' ← process h target response r; deliver targets rest r'
      | None => deliver targets rest r
      end
  end.
(** [ScatterGatherRunner::run]: the caller waits for the event; [None] as long as it has not
    been signalled. *)
Definition run (makeEvent : Status) (schedule : nat → Status)
    (arrivals : list (nat * ResponseStatus D)) (r : RunnerImpl)
    : outcome (option Status * RunnerImpl) :=
  started ← start makeEvent schedule r;
  let '(finishEvh, r) := started in
  match finishEvh with
  | Err e => Ret (Some (Err e), r)
  | OK _ =>
      requests ← getRequests (rn_algorithm r);
      r ← deliver (rq_target <$> requests) arrivals r;
      Ret (if rn_eventValid r then None else Some (OK tt), r)
  end.
Definition answers_of (targets : list HostAndPort) (arrivals : list (nat * ResponseStatus D))
    : list (HostAndPort * ResponseStatus D) :=
  omap (λ '(h, response), (λ t, (t, response)) <$> targets !! h) arrivals.

Lemma schedule_all_ok schedule i requests r :
  (∀ j, schedule j = OK tt) →
  schedule_all schedule i requests r =
    Ret (true, r <| rn_callbacks := rn_callbacks r ++ seq i (length requests) |>).
Proof.
  intros Hs. revert i r. induction requests as [|q requests IH]; intros i r; simpl.
  - rewrite app_nil_r. by destruct r.
  - rewrite Hs, IH. simpl. by rewrite <-app_assoc.
Qed.

Section correct.
Context `{!ScatterGatherLaws A Q D}.

(** Waiting: the event is still pending and one callback is outstanding for each answer the
    algorithm still needs.  Done: the event has been signalled once. *)
Definition waiting (r : RunnerImpl) : Prop :=
  rn_eventValid r = true ∧ rn_signals r = 0%nat ∧ sg_ok (rn_algorithm r) ∧
  hasReceivedSufficientResponses (rn_algorithm r) = false ∧ NoDup (rn_callbacks r) ∧
  sg_outstanding (rn_algorithm r) = vsize (rn_callbacks r).
Definition done_ (r : RunnerImpl) : Prop :=
  rn_eventValid r = false ∧ rn_signals r = 1%nat ∧
  hasReceivedSufficientResponses (rn_algorithm r) = true.

Lemma process_done h target response r : done_ r → process h target response r = Ret r.
Proof. intros (Hv & _). unfold process. by rewrite Hv. Qed.
Lemma deliver_done targets arrivals r : done_ r → deliver targets arrivals r = Ret r.
Proof.
  intros Hd. induction arrivals as [|[h response] arrivals IH]; simpl; [done|].
  destruct (targets !! h); [|done]. by rewrite process_done.
Qed.
Lemma gather_done a answers : hasReceivedSufficientResponses a = true → gather a answers = Ret a.
Proof. intros Hs. destruct answers; simpl; by rewrite Hs. Qed.

Lemma process_waiting h target response r :
  waiting r → h ∈ rn_callbacks r → target ∈ sg_targets (rn_algorithm r) →
  is_canceled response = false →
  ∃ a r', processResponse target response (rn_algorithm r) = Ret a ∧
    process h target response r = Ret r' ∧ rn_algorithm r' = a ∧
    sg_targets a = sg_targets (rn_algorithm r) ∧
    (done_ r' ∨ (waiting r' ∧ rn_callbacks r' = swap_pop h (rn_callbacks r))).
Proof.
  intros (Hv & Hsig & Hok & Hns & Hnd & Hout) Hin Ht Hc.
  destruct (sg_process _ _ response Hok Ht) as (a & Ha & Hok' & Htg & Hout').
  pose proof (swap_pop_perm h (rn_callbacks r) Hin) as Hp.
  exists a. unfold process. rewrite Hv, bool_decide_true, Hc by done. simpl. rewrite Ha. simpl.
  destruct (hasReceivedSufficientResponses a) eqn:Hs.
  - unfold _signalSufficientResponsesReceived. simpl. rewrite Hv. eexists. split; [done|].
    split; [reflexivity|]. split_and!; [done..|]. left. unfold done_. simpl. by rewrite Hsig.
  - assert (swap_pop h (rn_callbacks r) ≠ []) as Hne.
    { intros He. rewrite He in Hp. apply Permutation_length in Hp. simpl in Hp.
      rewrite (sg_done a Hok') in Hs; [done|]. unfold vsize in *. lia. }
    rewrite bool_decide_false by done. simpl. eexists. split_and!; [done..|]. right.
    split; [|done]. unfold waiting. simpl. split_and!; try done.
    + rewrite <-Hp in Hnd. by apply NoDup_cons in Hnd as [_ ?].
    + apply Permutation_length in Hp. simpl in Hp. unfold vsize in *. lia.
Qed.

Lemma deliver_waiting targets arrivals r :
  waiting r → sg_targets (rn_algorithm r) = targets →
  NoDup arrivals.*1 → (∀ h, h ∈ arrivals.*1 → h ∈ rn_callbacks r) →
  (∀ h, h ∈ rn_callbacks r → h < length targets)%nat →
  Forall (λ x, is_canceled x.2 = false) arrivals →
  ∃ r', deliver targets arrivals r = Ret r' ∧
    gather (rn_algorithm r) (answers_of targets arrivals) = Ret (rn_algorithm r') ∧
    (done_ r' ∨ (waiting r' ∧ length (rn_callbacks r') + length arrivals = length (rn_callbacks r)))%nat.
Proof.
  revert r. induction arrivals as [|[h response] arrivals IH]; intros r Hw Htg Hnd Hsub Hlt Hc.
  { exists r. simpl. pose proof Hw as (_ & _ & _ & -> & _). split_and!; [done..|].
    right. split; [done|lia]. }
  rewrite fmap_cons, NoDup_cons in Hnd. destruct Hnd as [Hh Hnd].
  apply Forall_cons in Hc as [Hc0 Hc].
  assert (h ∈ rn_callbacks r) as Hin by (apply Hsub; left).
  destruct (lookup_lt_is_Some_2 targets h (Hlt h Hin)) as [target Ht].
  destruct (process_waiting h target response r Hw Hin) as (a & r1 & Hpr & Hp & <- & Htg1 & Hcase);
    [rewrite Htg; by eapply list_elem_of_lookup_2|done|].
  destruct Hw as (_ & _ & _ & Hns & Hndc & _).
  unfold answers_of. simpl. rewrite Ht. simpl. rewrite Hns, Hp, Hpr. simpl.
  destruct Hcase as [Hd|[Hw1 Hcb]].
  - exists r1. rewrite deliver_done by done. rewrite gather_done; [|by destruct Hd as (_ & _ & ?)].
    split_and!; [done..|by left].
  - pose proof (swap_pop_perm h (rn_callbacks r) Hin) as Hperm.
    destruct (IH r1) as (r2 & Hr2 & Hg & Hcase); [done|by rewrite Htg1|done| | |done|].
    + intros h' Hh'. rewrite Hcb. assert (h' ∈ h :: swap_pop h (rn_callbacks r)) as Hin'.
      { rewrite Hperm. apply Hsub. by right. }
      apply elem_of_cons in Hin' as [->|?]; [|done]. by destruct Hh.
    + intros h' Hh'. apply Hlt. rewrite Hcb in Hh'. rewrite <-Hperm. by right.
    + exists r2. split_and!; [done|done|]. destruct Hcase as [?|[? Hlen]]; [by left|right].
      split; [done|]. apply Permutation_length in Hperm. rewrite Hcb in Hlen. simpl in *. lia.
Qed.
End correct.
End runner.
Arguments RunnerImpl : clear implicits.
End Runner.

(** ** The algorithms meet the interface *)
Lemma requests_of_targets {Q} line (self : HostAndPort) (cmd : Q) targets :
  Forall (λ h, HP.eqb h self = false) targets →
  ofoldl (λ requests it, check line (negb (HP.eqb it self)) ;;
                         Ret (requests ++ [mkRequest it cmd 30000])) [] targets
  = Ret ((λ it, mkRequest it cmd 30000) <$> targets).
Proof.
  intros Hn.
  assert (∀ acc, ofoldl (λ requests it, check line (negb (HP.eqb it self)) ;;
                         Ret (requests ++ [mkRequest it cmd 30000])) acc targets
    = Ret (acc ++ ((λ it, mkRequest it cmd 30000) <$> targets))) as Hgen; [|apply Hgen].
  induction Hn as [|h targets Hh _ IH]; intros acc; csimpl; [by rewrite app_nil_r|].
  rewrite Hh. simpl. rewrite IH. by rewrite <-app_assoc.
Qed.

#[export] Instance VoteRequester_laws :
  ScatterGatherLaws VoteRequesterAlgorithm ReplSetRequestVotesArgs (StatusWith ReplSetRequestVotesResponse).
Proof.
  refine {| sg_targets := vq_targets; sg_ok := λ _, True;
            sg_outstanding := λ a, vsize (vq_targets a) - vq_responsesProcessed a |}.
  - intros a _. eexists. split; [done|]. intros _. rewrite <-list_fmap_compose. apply list_fmap_id.
  - intros a h r _ _. eexists. split; [done|]. split; [done|].
    destruct r as [e|[v|e]]; simpl; repeat case_match; simpl; split; [done|lia|done|lia|done|lia|done|lia|done|lia|done|lia].
  - intros a _ Hout. simpl. unfold Vote.hasReceivedSufficientResponses.
    rewrite (proj2 (Z.eqb_eq (vq_responsesProcessed a) _)) by lia. apply orb_true_r.
Defined.

(** Every target is a member of the set other than ourselves. *)
Definition targets_ok (c : ReplSetConfig) (selfIndex : Z) (targets : list HostAndPort) : Prop :=
  ∃ self, RSC.getMemberAt c selfIndex = Ret self ∧
    Forall (λ h, HP.eqb h (mc_host self) = false ∧
                 ∃ m, RSC.findMemberByHostAndPort c h = Ret (Some m)) targets.

#[export] Instance ElectCmdRunner_laws : ScatterGatherLaws ElectCmdAlgorithm ReplSetElectArgs (option Z).
Proof.
  refine {| sg_targets := ec_targets; sg_ok := λ a, targets_ok (ec_rsConfig a) (ec_selfIndex a) (ec_targets a);
            sg_outstanding := λ a, vsize (ec_targets a) - ec_actualResponses a |}.
  - intros a (self & Hs & Ht). simpl. unfold Elect.getRequests. rewrite Hs. simpl.
    rewrite requests_of_targets by (eapply Forall_impl; [done|by intros ? [? _]]).
    eexists. split; [done|]. intros _. rewrite <-list_fmap_compose. apply list_fmap_id.
  - intros a h r Hok _. eexists. split; [done|].
    destruct r as [e|[v|]]; simpl; split_and!; try done; lia.
  - intros a _ Hout. simpl. unfold Elect.hasReceivedSufficientResponses.
    repeat case_match; try done. by apply Z.eqb_eq; lia.
Defined.

Module FreshLaws.
Definition ok (a : FreshnessAlgorithm) : Prop :=
  targets_ok (fc_rsConfig a) (fc_selfIndex a) (fc_targets a).
(** What answering one target leaves alone. *)
Definition same_setup (a a' : FreshnessAlgorithm) : Prop :=
  fc_rsConfig a' = fc_rsConfig a ∧ fc_selfIndex a' = fc_selfIndex a ∧ fc_targets a' = fc_targets a ∧
  fc_lastOpTimeApplied a' = fc_lastOpTimeApplied a ∧ fc_losableVoters a' = fc_losableVoters a.

Lemma note_failure_setup v a :
  same_setup a (Fresh.note_failure v a) ∧
  fc_responsesProcessed (Fresh.note_failure v a) = fc_responsesProcessed a.
Proof. unfold same_setup, Fresh.note_failure. repeat case_match; done. Qed.

Lemma processResponse_setup a h r m :
  RSC.findMemberByHostAndPort (fc_rsConfig a) h = Ret (Some m) →
  ∃ a', Fresh.processResponse h r a = Ret a' ∧ same_setup a a' ∧
        fc_responsesProcessed a' = fc_responsesProcessed a + 1.
Proof.
  intros Hm. set (a1 := a <| fc_responsesProcessed := fc_responsesProcessed a + 1 |>).
  assert (Fresh._isVotingMember a1 h = Ret (MC.isVoter m)) as Hv.
  { unfold Fresh._isVotingMember. change (fc_rsConfig a1) with (fc_rsConfig a). by rewrite Hm. }
  unfold Fresh.processResponse. fold a1. rewrite Hv. eexists. split; [reflexivity|].
  change (fc_responsesProcessed a + 1) with (fc_responsesProcessed a1).
  change (same_setup a) with (same_setup a1).
  destruct r as [e|res]; [apply note_failure_setup|].
  destruct (sw_isOK _); [|apply note_failure_setup].
  unfold same_setup. cbn [negb]. repeat case_match; done.
Qed.
End FreshLaws.

#[export] Instance FreshnessChecker_laws : ScatterGatherLaws FreshnessAlgorithm ReplSetFreshArgs FreshReply.
Proof.
  refine {| sg_targets := fc_targets; sg_ok := FreshLaws.ok;
            sg_outstanding := λ a, vsize (fc_targets a) - fc_responsesProcessed a |}.
  - intros a (self & Hs & Ht). simpl. unfold Fresh.getRequests. rewrite Hs. simpl.
    rewrite requests_of_targets by (eapply Forall_impl; [done|by intros ? [? _]]).
    eexists. split; [done|]. intros _. rewrite <-list_fmap_compose. apply list_fmap_id.
  - intros a h r Hok Hh. pose proof Hok as (self & Hs & Ht). rewrite Forall_forall in Ht.
    destruct (Ht h Hh) as [_ [m Hm]].
    destruct (FreshLaws.processResponse_setup a h r m Hm) as (a' & Ha & (Hc & Hi & Htg & _) & Hn).
    exists a'. split; [done|]. unfold FreshLaws.ok. rewrite Hc, Hi, Htg, Hn. split_and!; [done..|lia].
  - intros a _ Hout. simpl. unfold Fresh.hasReceivedSufficientResponses.
    rewrite (proj2 (Z.eqb_eq (fc_responsesProcessed a) _)) by lia. apply orb_true_r.
Defined.

Module ElectionProps.
Import Runner.

Lemma start_ok {A Q D} `{ScatterGatherLaws A Q D} (a : A) :
  sg_ok a → sg_outstanding a = vsize (sg_targets a) →
  ∃ r0, start (OK tt) (λ _, OK tt) (new a) = Ret (OK tt, r0) ∧ rn_algorithm r0 = a ∧
    (done_ r0 ∨ (waiting r0 ∧ rn_callbacks r0 = seq 0 (length (sg_targets a)))).
Proof.
  intros Hok Hout. destruct (sg_requests a Hok) as (rs & Hrs & Ht).
  unfold start. simpl. rewrite Hrs. simpl. rewrite schedule_all_ok by done. simpl.
  destruct (hasReceivedSufficientResponses a) eqn:Hs.
  - rewrite orb_true_r. simpl. eexists. split; [done|]. split; [done|]. by left.
  - assert (length rs = length (sg_targets a)) as -> by (by rewrite <-Ht, length_fmap).
    rewrite orb_false_r, bool_decide_false; [simpl|].
    + eexists. split; [done|]. split; [done|]. right. split; [|done]. unfold waiting. simpl.
      split_and!; try done; [apply NoDup_seq|]. rewrite Hout. unfold vsize. by rewrite length_seq.
    + intros He. destruct (sg_targets a) eqn:E; [|done].
      rewrite (sg_done a Hok) in Hs; [done|]. by rewrite Hout.
Qed.

Lemma runner_gather {A Q D} `{ScatterGatherLaws A Q D} (a : A) arrivals :
  sg_ok a → sg_outstanding a = vsize (sg_targets a) →
  NoDup arrivals.*1 → (∀ h, h ∈ arrivals.*1 → h < length (sg_targets a))%nat →
  Forall (λ x, is_canceled x.2 = false) arrivals →
  ∃ r0 r, start (OK tt) (λ _, OK tt) (new a) = Ret (OK tt, r0) ∧
    deliver (sg_targets a) arrivals r0 = Ret r ∧
    gather a (answers_of (sg_targets a) arrivals) = Ret (rn_algorithm r) ∧
    (done_ r ∨ waiting r ∧ rn_callbacks r0 = seq 0 (length (sg_targets a)) ∧
               (length (rn_callbacks r) + length arrivals = length (rn_callbacks r0))%nat).
Proof.
  intros Hok Hout Hnd Hlt Hc. destruct (start_ok a Hok Hout) as (r0 & Hs & <- & Hcase).
  exists r0. destruct Hcase as [Hd|[Hw Hcb]].
  - exists r0. rewrite deliver_done by done. pose proof Hd as (_ & Hsig & Hsuf).
    rewrite gather_done by done. split_and!; [done..|by left].
  - destruct (deliver_waiting (sg_targets (rn_algorithm r0)) arrivals r0) as (r & Hr & Hg & Hcase);
      [done|done|done| | |done|].
    { intros h Hh. rewrite Hcb. apply elem_of_seq. specialize (Hlt h Hh). lia. }
    { intros h. rewrite Hcb, elem_of_seq. lia. }
    exists r. split_and!; [done..|]. destruct Hcase as [?|[? ?]]; auto.
Qed.

Lemma deliver_done_any {A Q D} `{ScatterGatherLaws A Q D} (a : A) rs arrivals r0 r :
  getRequests a = Ret rs → sg_ok a → rn_algorithm r0 = a →
  (done_ r0 ∨ hasReceivedSufficientResponses a = false) →
  deliver (sg_targets a) arrivals r0 = Ret r → deliver (rq_target <$> rs) arrivals r0 = Ret r.
Proof.
  intros Hrs Hok <- Hcase Hd. destruct Hcase as [Hdone|Hns].
  - by rewrite deliver_done in Hd |- * by done.
  - destruct (sg_requests _ Hok) as (rs' & Hrs' & Ht).
    rewrite Hrs in Hrs'. injection Hrs' as <-. by rewrite Ht.
Qed.

(** With every target answered, the caller of [run] gets the state [gather] computes. *)
Lemma run_gather {A Q D} `{ScatterGatherLaws A Q D} (a : A) arrivals :
  sg_ok a → sg_outstanding a = vsize (sg_targets a) →
  NoDup arrivals.*1 → (∀ h, h ∈ arrivals.*1 → h < length (sg_targets a))%nat →
  Forall (λ x, is_canceled x.2 = false) arrivals → length arrivals = length (sg_targets a) →
  ∃ r, run (OK tt) (λ _, OK tt) arrivals (new a) = Ret (Some (OK tt), r) ∧
       gather a (answers_of (sg_targets a) arrivals) = Ret (rn_algorithm r).
Proof.
  intros Hok Hout Hnd Hlt Hc Hlen.
  destruct (start_ok a Hok Hout) as (r0 & Hs & Ha & Hcase).
  destruct (runner_gather a arrivals Hok Hout Hnd Hlt Hc) as (r0' & r & Hs' & Hr & Hg & Hend).
  rewrite Hs in Hs'. injection Hs' as <-. exists r. split; [|done].
  destruct (sg_requests a Hok) as (rs & Hrs & _).
  unfold run. rewrite Hs. cbn [mbind outcome_bind]. rewrite Ha, Hrs. cbn [mbind outcome_bind].
  assert (done_ r0 ∨ hasReceivedSufficientResponses a = false) as Hns.
  { destruct Hcase as [?|[(_ & _ & _ & Hns & _) _]]; [by left|right]. by rewrite <-Ha. }
  rewrite (deliver_done_any a rs arrivals r0 r Hrs Hok Ha Hns Hr). cbn [mbind outcome_bind].
  destruct Hend as [(-> & _)|(Hw & Hcb & Hl)]; [done|].
  rewrite Hcb, length_seq in Hl. destruct Hw as (_ & _ & Hok' & Hns' & _ & Ho).
  rewrite (sg_done _ Hok') in Hns'; [done|]. rewrite Ho. unfold vsize. lia.
Qed.

(** C36. Whatever the order in which the answers arrive, the runner makes the algorithm
    process exactly the answers that arrive before it has seen enough, never trips an assertion,
    and signals its event once, as soon as the algorithm has seen enough; when every target has
    answered, the event has been signalled. *)
Theorem runner_refines_gather {A Q D} `{ScatterGatherLaws A Q D} (a : A) arrivals :
  sg_ok a → sg_outstanding a = vsize (sg_targets a) →
  NoDup arrivals.*1 → (∀ h, h ∈ arrivals.*1 → h < length (sg_targets a))%nat →
  Forall (λ x, is_canceled x.2 = false) arrivals →
  ∃ r0 r, start (OK tt) (λ _, OK tt) (new a) = Ret (OK tt, r0) ∧
    deliver (sg_targets a) arrivals r0 = Ret r ∧
    gather a (answers_of (sg_targets a) arrivals) = Ret (rn_algorithm r) ∧
    rn_signals r = (if hasReceivedSufficientResponses (rn_algorithm r) then 1 else 0)%nat ∧
    (length arrivals = length (sg_targets a) → rn_signals r = 1%nat).
Proof.
  intros Hok Hout Hnd Hlt Hc.
  destruct (runner_gather a arrivals Hok Hout Hnd Hlt Hc) as (r0 & r & Hs & Hr & Hg & Hcase).
  exists r0, r. split_and!; try done.
  - by destruct Hcase as [(_ & -> & ->)|[(_ & -> & _ & -> & _) _]].
  - intros Hlen. destruct Hcase as [(_ & ? & _)|(Hw & Hcb & Hl)]; [done|].
    rewrite Hcb, length_seq in Hl. destruct Hw as (_ & _ & Hok' & Hns & _ & Ho).
    rewrite (sg_done _ Hok') in Hns; [done|]. rewrite Ho. unfold vsize. lia.
Qed.

Definition example_votes : VoteRequesterAlgorithm :=
  Vote.Algorithm RSC.example_config 0 2 false (mkOpTime (mkTimestamp 10 1) 1).
Definition example_arrivals : list (nat * ResponseStatus (StatusWith ReplSetRequestVotesResponse)) :=
  [(1%nat, Failed HostUnreachable); (0%nat, Reply (OK (mkVoteResponse 2 true)))].
Lemma runner_refines_gather_witness :
  ∃ r0 r, start (OK tt) (λ _, OK tt) (new example_votes) = Ret (OK tt, r0) ∧
    deliver (sg_targets example_votes) example_arrivals r0 = Ret r ∧
    gather example_votes (answers_of (sg_targets example_votes) example_arrivals)
      = Ret (rn_algorithm r) ∧
    rn_signals r = (if hasReceivedSufficientResponses (rn_algorithm r) then 1 else 0)%nat ∧
    (length example_arrivals = length (sg_targets example_votes) → rn_signals r = 1%nat).
Proof.
  apply (runner_refines_gather example_votes example_arrivals).
  - exact I.
  - reflexivity.
  - vm_compute. repeat constructor; rewrite ?list_elem_of_In; simpl; lia.
  - intros h. rewrite list_elem_of_In. vm_compute. lia.
  - repeat constructor.
Defined.

(** *** The freshness check *)

(** The answer of a target that could not be asked. *)
Definition fresh_failed (r : ResponseStatus FreshReply) : bool :=
  match r with Failed _ => true | Reply res => negb (sw_isOK (fy_status res)) end.
(** The answer of a target that is strictly behind us and does not object. *)
Definition fresh_agrees (ours : Timestamp) (r : ResponseStatus FreshReply) : Prop :=
  ∃ res date, r = Reply res ∧ fy_fresher res = false ∧ fy_veto res = false ∧
    fy_opTime res = Some date ∧
    TS.eqb (TS.of_ull date) ours = false ∧ TS.gtb (TS.of_ull date) ours = false.

(** A voting member that could not be asked. *)
Definition failed_voter (c : ReplSetConfig) (x : HostAndPort * ResponseStatus FreshReply) : bool :=
  fresh_failed x.2 &&
  match RSC.findMemberByHostAndPort c x.1 with Ret (Some m) => MC.isVoter m | _ => false end.

(** As long as there is no reason to abort, few enough voters failed to answer. *)
Definition bounded (a : FreshnessAlgorithm) : Prop :=
  fc_abortReason a = NoReason → fc_failedVoterResponses a ≤ fc_losableVoters a.

Lemma note_failure_spec v a :
  bounded a → bounded (Fresh.note_failure v a) ∧
  (fc_abortReason (Fresh.note_failure v a) = NoReason → fc_abortReason a = NoReason) ∧
  fc_failedVoterResponses (Fresh.note_failure v a) = fc_failedVoterResponses a + (if v then 1 else 0).
Proof.
  unfold Fresh.note_failure, Fresh.hadTooManyFailedVoterResponses, bounded. intros Hb.
  destruct v; [|split_and!; [done..|lia]]. case_match eqn:E; simpl in *; [done|].
  split_and!; [lia|done..].
Qed.

Lemma Ret_inj {X} (x y : X) : Ret x = Ret y → x = y.
Proof. congruence. Qed.
#[local] Arguments TS.of_ull : simpl never.

Lemma fresh_step a a' h r m :
  RSC.findMemberByHostAndPort (fc_rsConfig a) h = Ret (Some m) →
  Fresh.processResponse h r a = Ret a' → bounded a →
  bounded a' ∧
  fc_failedVoterResponses a' = fc_failedVoterResponses a +
    (if failed_voter (fc_rsConfig a) (h, r) then 1 else 0) ∧
  (fc_abortReason a' = NoReason → fc_abortReason a = NoReason ∧
   (fresh_failed r = true ∨ fresh_agrees (fc_lastOpTimeApplied a) r)).
Proof.
  unfold Fresh.processResponse, Fresh._isVotingMember, failed_voter. intros Hm Hp Hb.
  set (a1 := a <| fc_responsesProcessed := fc_responsesProcessed a + 1 |>) in *.
  change (fc_rsConfig a1) with (fc_rsConfig a) in Hp. cbn [fst snd]. rewrite Hm in Hp |- *.
  cbn [mbind outcome_bind] in Hp. apply Ret_inj in Hp as <-.
  change (bounded a1) in Hb. change (fc_abortReason a) with (fc_abortReason a1).
  change (fc_lastOpTimeApplied a) with (fc_lastOpTimeApplied a1).
  change (fc_failedVoterResponses a) with (fc_failedVoterResponses a1).
  destruct (note_failure_spec (MC.isVoter m) a1 Hb) as (Hb1 & Hr1 & Hn1).
  destruct r as [e|res]; cbn [fresh_failed andb]; [auto|].
  destruct (sw_isOK (fy_status res)) eqn:Hs; cbn [negb andb]; [|auto].
  assert (∀ reason, reason ≠ NoReason →
    bounded (a1 <| fc_abortReason := reason |>) ∧
    fc_failedVoterResponses (a1 <| fc_abortReason := reason |>) = fc_failedVoterResponses a1 + 0 ∧
    (fc_abortReason (a1 <| fc_abortReason := reason |>) = NoReason → fc_abortReason a1 = NoReason ∧
      (false = true ∨ fresh_agrees (fc_lastOpTimeApplied a1) (Reply res)))) as Hstop.
  { intros reason Hne. split_and!; [by intros ?|by rewrite Z.add_0_r|by intros ?]. }
  destruct (fy_fresher res) eqn:Hf; [by apply Hstop|].
  destruct (fy_opTime res) as [date|] eqn:Ho; [|by apply Hstop].
  destruct (TS.eqb (TS.of_ull date) (fc_lastOpTimeApplied a1)) eqn:He.
  { destruct (TS.gtb _ _); [by apply Hstop|]. by destruct (fy_veto res); apply Hstop. }
  destruct (TS.gtb _ _) eqn:Hg; [by apply Hstop|]. destruct (fy_veto res) eqn:Hv; [by apply Hstop|].
  split_and!; [done|lia|]. intros Hr. split; [done|]. right. exists res, date. by split_and!.
Qed.

Lemma gather_no_reason a answers a' :
  gather a answers = Ret a' → fc_abortReason a' = NoReason →
  FreshLaws.ok a → bounded a → Forall (λ x, x.1 ∈ fc_targets a) answers →
  fc_responsesProcessed a + vsize answers = vsize (fc_targets a) →
  fc_abortReason a = NoReason ∧ bounded a' ∧ fc_losableVoters a' = fc_losableVoters a ∧
  Forall (λ x, fresh_failed x.2 = true ∨ fresh_agrees (fc_lastOpTimeApplied a) x.2) answers ∧
  fc_failedVoterResponses a' =
    fc_failedVoterResponses a + count_if (failed_voter (fc_rsConfig a)) answers.
Proof.
  revert a. induction answers as [|[h r] answers IH]; intros a Hg Hr Hok Hb Htg Hn; simpl in Hg;
    destruct (Fresh.hasReceivedSufficientResponses a) eqn:Hsuf.
  1,2: injection Hg as <-; unfold count_if, vsize; simpl; split_and!; [done..|lia].
  { injection Hg as <-. unfold Fresh.hasReceivedSufficientResponses in Hsuf.
    rewrite Hr, bool_decide_true in Hsuf by done. apply Z.eqb_eq in Hsuf.
    unfold vsize in *. simpl in Hn. lia. }
  apply Forall_cons in Htg as [Hh Htg]. pose proof Hok as (self & Hs & Hf).
  rewrite Forall_forall in Hf. destruct (Hf h Hh) as [_ [m Hm]].
  destruct (FreshLaws.processResponse_setup a h r m Hm)
    as (a1 & Ha1 & (Hc & Hi & Ht & Hl & Hlos) & Hn1).
  rewrite Ha1 in Hg. cbn [mbind outcome_bind] in Hg.
  destruct (fresh_step a a1 h r m Hm Ha1 Hb) as (Hb1 & Hcount & Hcase).
  destruct (IH a1 Hg Hr) as (Hr1 & Hb' & Hlos1 & Hall & Hfail); [|done|by rewrite Ht|..].
  { unfold FreshLaws.ok. by rewrite Hc, Hi, Ht. }
  { rewrite Ht, Hn1. unfold vsize in *. simpl in Hn. lia. }
  destruct (Hcase Hr1) as [? ?]. rewrite Hl in Hall. rewrite Hc in Hfail.
  split_and!; [done|done|congruence|by constructor|]. rewrite count_if_cons. lia.
Qed.

Lemma Algorithm_spec ours c self targets a :
  Fresh.Algorithm ours c self targets = Ret a →
  fc_rsConfig a = c ∧ fc_selfIndex a = self ∧ fc_targets a = targets ∧ fc_lastOpTimeApplied a = ours ∧
  fc_responsesProcessed a = 0 ∧ fc_failedVoterResponses a = 0 ∧ 0 ≤ fc_losableVoters a.
Proof.
  unfold Fresh.Algorithm. destruct (ofoldl _ _ _) as [n|]; [|done].
  destruct (RSC.getMemberAt c self) as [m|]; [|done]. intros [= <-]. simpl. split_and!; [done..|lia].
Qed.

(** When every target has been asked and the freshness check finds no reason to abort,
    each answer came from a member strictly behind us that raised no objection or from a member
    that could not be asked, and the voters that could not be asked are few enough to leave a
    majority. *)
Theorem freshness_no_abort_sound ours c self targets a answers a' :
  Fresh.Algorithm ours c self targets = Ret a → targets_ok c self targets →
  Forall (λ x, x.1 ∈ targets) answers → length answers = length targets →
  gather a answers = Ret a' → Fresh.shouldAbortElection a' = NoReason →
  Forall (λ x, fresh_failed x.2 = true ∨ fresh_agrees ours x.2) answers ∧
  count_if (failed_voter c) answers ≤ fc_losableVoters a.
Proof.
  intros Ha Hok Htg Hlen Hg Hr. apply Algorithm_spec in Ha as (Hc & Hi & Ht & Hl & H0 & Hf0 & Hlos).
  destruct (gather_no_reason a answers a' Hg Hr) as (_ & Hb & Hlos' & Hall & Hfail).
  - unfold FreshLaws.ok. by rewrite Hc, Hi, Ht.
  - intros _. lia.
  - by rewrite Ht.
  - rewrite H0, Ht. unfold vsize. lia.
  - rewrite Hl in Hall. split; [done|]. rewrite Hc in Hfail. specialize (Hb Hr). lia.
Qed.

Definition example_target : HostAndPort := mc_host (RSC.example_member 1 false).
Definition example_answer : HostAndPort * ResponseStatus FreshReply :=
  (example_target, Reply (mkFreshReply (OK tt) false (Some 5) false)).
Definition example_freshness : FreshnessAlgorithm :=
  mkFreshness 0 0 (mkTimestamp 10 1) RSC.example_config 0 [example_target] 1 0 1 NoReason.
Lemma freshness_no_abort_sound_witness :
  Forall (λ x, fresh_failed x.2 = true ∨ fresh_agrees (mkTimestamp 10 1) x.2) [example_answer] ∧
  count_if (failed_voter RSC.example_config) [example_answer] ≤ fc_losableVoters example_freshness.
Proof.
  apply (freshness_no_abort_sound (mkTimestamp 10 1) RSC.example_config 0 [example_target]
           example_freshness [example_answer]
           (example_freshness <| fc_responsesProcessed := 1 |>)).
  - vm_compute. reflexivity.
  - eexists. split; [reflexivity|]. constructor; [|constructor].
    split; [vm_compute; reflexivity|]. eexists. vm_compute. reflexivity.
  - constructor; [left|constructor].
  - reflexivity.
  - vm_compute. reflexivity.
  - reflexivity.
Defined.
End ElectionProps.
