(* ===== verification/QuorumCheck.v ===== *)
(** * Quorum check of a new configuration (db/repl/check_quorum_for_config_change.cpp)

    Before replSetInitiate and replSetReconfig install a configuration, a heartbeat goes to
    every other member of it.  The checker is another algorithm behind the interface of
    Election.v, driven by the scatter-gather runner.  A reply is represented by what the code
    reads of it: the status and content of the parsed heartbeat response and the replica set
    id in the reply's metadata. *)
From S2P Require Import Prelude ReplTime ParseNumber HostAndPort ReplTag ReplConfig Heartbeat Topology TopologyElection TopologyHeartbeat Election.

Record HeartbeatReply := mkHeartbeatReply {
  hy_status : Status; hy_resp : ReplSetHeartbeatResponse; hy_replicaSetId : StatusWith Z }.

Record QuorumChecker := mkQuorumChecker {
  qc_rsConfig : ReplSetConfig; qc_myIndex : Z; qc_voters : list HostAndPort;
  qc_badResponses : list (HostAndPort * ErrorCode); qc_numResponses : Z; qc_numElectable : Z;
  qc_vetoStatus : Status; qc_finalStatus : Status }.
#[export] Instance QuorumChecker_eta : Eta QuorumChecker := λ a,
  mkQuorumChecker (qc_rsConfig a) (qc_myIndex a) (qc_voters a) (qc_badResponses a)
    (qc_numResponses a) (qc_numElectable a) (qc_vetoStatus a) (qc_finalStatus a).

Module Quorum.
Implicit Types a : QuorumChecker.

Definition hasReceivedSufficientResponses a : bool :=
  let c := qc_rsConfig a in
  if negb (sw_isOK (qc_vetoStatus a)) || (qc_numResponses a =? RSC.getNumMembers c) then true
  else if _version c =? 1 then false
  else if qc_numElectable a =? 0 then false
  else if vsize (qc_voters a) <? _majorityVoteCount c then false
  else true.

Definition is_empty {A} (l : list A) : bool := match l with [] => true | _ => false end.
Definition _onQuorumCheckComplete a : QuorumChecker :=
  let c := qc_rsConfig a in
  match qc_vetoStatus a with
  | Err e => a <| qc_finalStatus := Err e |>
  | OK _ =>
      if (_version c =? 1) && negb (is_empty (qc_badResponses a))
      then a <| qc_finalStatus := Err NodeNotFound |>
      else if qc_numElectable a =? 0 then a <| qc_finalStatus := Err NodeNotFound |>
      else if vsize (qc_voters a) <? _majorityVoteCount c
      then a <| qc_finalStatus := Err NodeNotFound |>
      else a <| qc_finalStatus := OK tt |>
  end.
Definition complete_if_sufficient a : QuorumChecker :=
  if hasReceivedSufficientResponses a then _onQuorumCheckComplete a else a.

(** The constructor. *)
Definition create (rsConfig : ReplSetConfig) (myIndex : Z) : outcome QuorumChecker :=
  check 58 (myIndex <? RSC.getNumMembers rsConfig) ;;
  myConfig ← RSC.getMemberAt rsConfig myIndex;
  Ret (complete_if_sufficient
         (mkQuorumChecker rsConfig myIndex
            (if MC.isVoter myConfig then [mc_host myConfig] else []) [] 1
            (if MC.isElectable myConfig then 1 else 0) (OK tt) (Err CallbackCanceled))).

(** The members other than this node. *)
Definition targets_of (c : ReplSetConfig) (myIndex : Z) : list HostAndPort :=
  (λ im, mc_host im.2) <$> List.filter (λ im, negb (myIndex =? im.1)) (indexed (_members c)).
(** The period is kept in seconds. *)
Definition getHeartbeatTimeoutPeriodMillis (c : ReplSetConfig) : Z := _heartbeatTimeoutPeriod c * 1000.
Definition getRequests a : outcome (list (RemoteCommandRequest ReplSetHeartbeatArgs)) :=
  let c := qc_rsConfig a in
  let isInitialConfig := _version c =? 1 in
  myConfig ← RSC.getMemberAt c (qc_myIndex a);
  if hasReceivedSufficientResponses a then Ret []
  else
    let hbArgs := mkHBArgs 1 isInitialConfig (_replSetName c) (_version c) (mc_id myConfig)
                    (mc_host myConfig) in
    Ret ((λ h, mkRequest h hbArgs (getHeartbeatTimeoutPeriodMillis c)) <$> targets_of c (qc_myIndex a)).

(** The loop that finds the member that answered. *)
Fixpoint credit (target : HostAndPort) (members : list MemberConfig) a : outcome QuorumChecker :=
  match members with
  | [] => Abort 256
  | memberConfig :: members =>
      if negb (HP.eqb (mc_host memberConfig) target) then credit target members a
      else
        let a := if MC.isElectable memberConfig
                 then a <| qc_numElectable := qc_numElectable a + 1 |> else a in
        Ret (if MC.isVoter memberConfig
             then a <| qc_voters := qc_voters a ++ [target] |> else a)
  end.

Definition no_smaller_version (c : ReplSetConfig) (hbResp : ReplSetHeartbeatResponse) : bool :=
  negb (bool_decide (hr_setName hbResp = [])) && (_version c <=? hr_configVersion hbResp).
(** OIDs are numbers here, and 0 is the unset one. *)
Definition other_set_id (c : ReplSetConfig) (replMetadata : StatusWith Z) : bool :=
  negb (_replicaSetId c =? 0) &&
  match replMetadata with
  | OK id => negb (id =? 0) && negb (_replicaSetId c =? id)
  | Err _ => false
  end.
Definition has_data_already (c : ReplSetConfig) (hbResp : ReplSetHeartbeatResponse) : bool :=
  (_version c =? 1) && option.default false (hr_hasData hbResp).

Definition _tabulateHeartbeatResponse (target : HostAndPort)
    (response : ResponseStatus HeartbeatReply) a : outcome QuorumChecker :=
  let c := qc_rsConfig a in
  let a := a <| qc_numResponses := qc_numResponses a + 1 |> in
  let veto e a := a <| qc_vetoStatus := Err e |> in
  let bad e a := a <| qc_badResponses := qc_badResponses a ++ [(target, e)] |> in
  match response with
  | Failed e => Ret (bad e a)
  | Reply reply =>
      let hbResp := hy_resp reply in
      match hy_status reply with
      | Err InconsistentReplicaSetNames => Ret (veto NewReplicaSetConfigurationIncompatible a)
      | OK _ | Err InvalidReplicaSetConfig =>
          if no_smaller_version c hbResp
          then Ret (veto NewReplicaSetConfigurationIncompatible a)
          else
            let a := if other_set_id c (hy_replicaSetId reply)
                     then veto NewReplicaSetConfigurationIncompatible a else a in
            if has_data_already c hbResp then Ret (veto CannotInitializeNodeWithData a)
            else credit target (_members c) a
      | Err e => Ret (bad e a)
      end
  end.

Definition processResponse (target : HostAndPort) (response : ResponseStatus HeartbeatReply) a
    : outcome QuorumChecker :=
  a ← _tabulateHeartbeatResponse target response a;
  Ret (complete_if_sufficient a).
End Quorum.
#[export] Instance QuorumChecker_algorithm :
    ScatterGatherAlgorithm QuorumChecker ReplSetHeartbeatArgs HeartbeatReply :=
  Build_ScatterGatherAlgorithm _ _ _ Quorum.getRequests Quorum.processResponse
    Quorum.hasReceivedSufficientResponses.

Module QuorumCheck.
Import Quorum.

(** [None]: the caller still waits for answers. *)
Definition checkQuorumGeneral (makeEvent : Status) (schedule : nat → Status)
    (arrivals : list (nat * ResponseStatus HeartbeatReply)) (rsConfig : ReplSetConfig) (myIndex : Z)
    : outcome (option Status) :=
  checker ← create rsConfig myIndex;
  finished ← Runner.run makeEvent schedule arrivals (Runner.new checker);
  let '(status, runner) := finished in
  Ret match status with
      | None => None
      | Some (Err e) => Some (Err e)
      | Some (OK _) => Some (qc_finalStatus (Runner.rn_algorithm runner))
      end.
Definition checkQuorumForInitiate (makeEvent : Status) (schedule : nat → Status)
    (arrivals : list (nat * ResponseStatus HeartbeatReply)) (rsConfig : ReplSetConfig) (myIndex : Z)
    : outcome (option Status) :=
  check 298 (_version rsConfig =? 1) ;;
  checkQuorumGeneral makeEvent schedule arrivals rsConfig myIndex.
Definition checkQuorumForReconfig (makeEvent : Status) (schedule : nat → Status)
    (arrivals : list (nat * ResponseStatus HeartbeatReply)) (rsConfig : ReplSetConfig) (myIndex : Z)
    : outcome (option Status) :=
  check 305 (1 <? _version rsConfig) ;;
  checkQuorumGeneral makeEvent schedule arrivals rsConfig myIndex.

(** ** Specification *)

(** An answer the checker can judge: a response that parses, or one of a node whose
    configuration does not. *)
Definition understood (reply : HeartbeatReply) : bool :=
  match hy_status reply with OK _ | Err InvalidReplicaSetConfig => true | Err _ => false end.
Definition other_set_name (reply : HeartbeatReply) : bool :=
  match hy_status reply with Err InconsistentReplicaSetNames => true | _ => false end.
Definition objects (c : ReplSetConfig) (reply : HeartbeatReply) : bool :=
  no_smaller_version c (hy_resp reply) || other_set_id c (hy_replicaSetId reply) ||
  has_data_already c (hy_resp reply).
Definition vetoes (c : ReplSetConfig) (r : ResponseStatus HeartbeatReply) : bool :=
  match r with
  | Failed _ => false
  | Reply reply => other_set_name reply || (understood reply && objects c reply)
  end.
Definition affirms (c : ReplSetConfig) (r : ResponseStatus HeartbeatReply) : bool :=
  match r with
  | Failed _ => false
  | Reply reply => understood reply && negb (objects c reply)
  end.

Definition member_at (c : ReplSetConfig) (h : HostAndPort) : option MemberConfig :=
  find (λ m, HP.eqb (mc_host m) h) (_members c).
Abbreviation answer := (HostAndPort * ResponseStatus HeartbeatReply)%type.
(** Answers that affirm from members with property [p]. *)
Definition affirming (c : ReplSetConfig) (p : MemberConfig → bool) (x : answer) : bool :=
  affirms c x.2 && from_option p false (member_at c x.1).
(** This node and the members whose answers affirm: a majority of the voters, and one of them
    electable. *)
Definition quorum (c : ReplSetConfig) (me : MemberConfig) (answers : list answer) : Prop :=
  _majorityVoteCount c ≤
    (if MC.isVoter me then 1 else 0) + count_if (affirming c MC.isVoter) answers ∧
  1 ≤ (if MC.isElectable me then 1 else 0) + count_if (affirming c MC.isElectable) answers.

(** ** Proofs *)
Section check.
Context (c : ReplSetConfig) (self : Z) (me : MemberConfig).
Context (Hself : RSC.getMemberAt c self = Ret me).
Implicit Types seen rest answers : list answer.

Definition electables seen : Z :=
  (if MC.isElectable me then 1 else 0) + count_if (affirming c MC.isElectable) seen.
Definition voters seen : Z :=
  (if MC.isVoter me then 1 else 0) + count_if (affirming c MC.isVoter) seen.
(** The state after [seen] has been processed without a veto. *)
Record tallied seen a : Prop := mkTallied {
  ta_config : qc_rsConfig a = c; ta_index : qc_myIndex a = self;
  ta_veto : qc_vetoStatus a = OK tt; ta_num : qc_numResponses a = 1 + vsize seen;
  ta_bad : is_empty (qc_badResponses a) = forallb (λ x, affirms c x.2) seen;
  ta_electable : qc_numElectable a = electables seen;
  ta_voters : vsize (qc_voters a) = voters seen }.

Lemma credit_spec h members a m :
  find (λ m, HP.eqb (mc_host m) h) members = Some m →
  credit h members a =
    Ret (a <| qc_numElectable := qc_numElectable a + (if MC.isElectable m then 1 else 0) |>
           <| qc_voters := qc_voters a ++ (if MC.isVoter m then [h] else []) |>).
Proof.
  induction members as [|m' members IH]; simpl; [done|].
  destruct (HP.eqb (mc_host m') h); simpl; [|done]. intros [= ->].
  destruct a, (MC.isElectable m), (MC.isVoter m); simpl; rewrite ?Z.add_0_r, ?app_nil_r; done.
Qed.

Lemma affirming_one p x :
  count_if (affirming c p) [x] =
  if affirms c x.2 && from_option p false (member_at c x.1) then 1 else 0.
Proof. rewrite count_if_cons. unfold affirming. unfold count_if, vsize. simpl. lia. Qed.

Lemma tallied_snoc seen a x m a' :
  tallied seen a → member_at c x.1 = Some m →
  qc_rsConfig a' = c → qc_myIndex a' = self → qc_vetoStatus a' = OK tt →
  qc_numResponses a' = qc_numResponses a + 1 →
  is_empty (qc_badResponses a') = is_empty (qc_badResponses a) && affirms c x.2 →
  qc_numElectable a' = qc_numElectable a +
    (if affirms c x.2 && MC.isElectable m then 1 else 0) →
  vsize (qc_voters a') = vsize (qc_voters a) + (if affirms c x.2 && MC.isVoter m then 1 else 0) →
  tallied (seen ++ [x]) a'.
Proof.
  intros [? ? ? Hn Hb He Hv] Hm ? ? ? Hn' Hb' He' Hv'.
  split; [done..| | | |].
  - rewrite Hn', Hn. unfold vsize. rewrite length_app. simpl. lia.
  - rewrite forallb_app, Hb', Hb. simpl. by rewrite andb_true_r.
  - rewrite He', He. unfold electables. rewrite count_if_app, affirming_one, Hm. simpl. lia.
  - rewrite Hv', Hv. unfold voters. rewrite count_if_app, affirming_one, Hm. simpl. lia.
Qed.

(** One answer either vetoes or is tallied. *)
Lemma tabulate_step seen a h r m :
  tallied seen a → member_at c h = Some m →
  ∃ a', _tabulateHeartbeatResponse h r a = Ret a' ∧
    qc_rsConfig a' = c ∧ qc_myIndex a' = self ∧ qc_numResponses a' = 2 + vsize seen ∧
    if vetoes c r then sw_isOK (qc_vetoStatus a') = false else tallied (seen ++ [(h, r)]) a'.
Proof.
  intros Ht Hm. pose proof Ht as [Hc Hi Hv Hn _ _ _].
  unfold _tabulateHeartbeatResponse. rewrite Hc.
  assert (∀ e, affirms c r = false → tallied (seen ++ [(h, r)])
    (a <| qc_numResponses := qc_numResponses a + 1 |>
       <| qc_badResponses := qc_badResponses a ++ [(h, e)] |>)) as Hbad.
  { intros e Hr. apply (tallied_snoc seen a _ m); simpl; rewrite ?Hr, ?Z.add_0_r; try done.
    rewrite andb_false_r. by destruct (qc_badResponses a). }
  assert (qc_numResponses a + 1 = 2 + vsize seen) as Hn1 by lia.
  destruct r as [e|reply]; [eexists; split_and!; try done; by apply Hbad|].
  destruct (understood reply) eqn:Hu; unfold understood in Hu.
  2: { unfold vetoes, affirms, other_set_name, understood in *.
       destruct (hy_status reply) as [|[]]; try discriminate Hu;
         (eexists; split_and!; [done..|]); simpl in *; auto. }
  assert (vetoes c (Reply reply) = objects c reply) as ->.
  { unfold vetoes, other_set_name, understood. by destruct (hy_status reply) as [|[]]. }
  assert (affirms c (Reply reply) = negb (objects c reply)) as Ha.
  { unfold affirms, understood. by rewrite Hu. }
  destruct (hy_status reply) as [|[]]; try discriminate Hu; clear Hu.
  all: unfold objects in *; destruct (no_smaller_version _ _); simpl in Ha |- *;
    [by eexists|]; destruct (other_set_id _ _), (has_data_already _ _); simpl in Ha |- *;
    try (by eexists); rewrite (credit_spec _ _ _ m) by done; eexists; (split; [done|]); simpl;
    (split_and!; [done..|]); try done.
  all: apply (tallied_snoc seen a _ m); simpl; rewrite ?Ha, ?andb_true_r; try done.
  all: unfold vsize; rewrite length_app; destruct (MC.isVoter m); simpl; lia.
Qed.

Definition reached seen : bool :=
  (_majorityVoteCount c <=? voters seen) && (1 <=? electables seen).
Lemma reached_quorum seen : reached seen = true ↔ quorum c me seen.
Proof. unfold reached, quorum, voters, electables. lia. Qed.
(** The answers so far settle the check in favour of the configuration. *)
Definition accepted seen : bool :=
  if _version c =? 1
  then (1 + vsize seen =? RSC.getNumMembers c) && forallb (λ x, affirms c x.2) seen && reached seen
  else reached seen.

Lemma electables_nonneg seen : 0 ≤ electables seen.
Proof.
  unfold electables. pose proof (count_if_nonneg (affirming c MC.isElectable) seen).
  destruct (MC.isElectable me); lia.
Qed.

Lemma sufficient_tallied seen a :
  tallied seen a →
  hasReceivedSufficientResponses a =
    (1 + vsize seen =? RSC.getNumMembers c) || (negb (_version c =? 1) && reached seen).
Proof.
  intros [Hc _ Hv Hn _ He Hvo]. unfold hasReceivedSufficientResponses, reached.
  rewrite Hc, Hv, Hn, He, Hvo. simpl.
  pose proof (electables_nonneg seen).
  destruct (1 + vsize seen =? _), (_version c =? 1); simpl; try done.
  destruct (Z.eqb_spec (electables seen) 0), (Z.ltb_spec (voters seen) (_majorityVoteCount c)); lia.
Qed.

Lemma complete_tallied seen a :
  tallied seen a → hasReceivedSufficientResponses a = true →
  qc_finalStatus (complete_if_sufficient a) = OK tt ↔ accepted seen = true.
Proof.
  intros Ht Hs. unfold complete_if_sufficient. rewrite Hs.
  rewrite (sufficient_tallied seen a Ht) in Hs. destruct Ht as [Hc _ Hv Hn Hb He Hvo].
  unfold _onQuorumCheckComplete, accepted, reached in *. rewrite Hc, Hv, Hb.
  assert (∀ d, qc_finalStatus
    (if electables seen =? 0 then d <| qc_finalStatus := Err NodeNotFound |>
     else if voters seen <? _majorityVoteCount c then d <| qc_finalStatus := Err NodeNotFound |>
     else d <| qc_finalStatus := OK tt |>) = OK tt ↔
    (_majorityVoteCount c <=? voters seen) && (1 <=? electables seen) = true) as Hend.
  { intros d. pose proof (electables_nonneg seen). destruct (Z.eqb_spec (electables seen) 0),
      (Z.ltb_spec (voters seen) (_majorityVoteCount c)); simpl;
      (split; [intros Hx; try discriminate Hx; lia|intros; try lia; done]). }
  rewrite He, Hvo. destruct (_version c =? 1); simpl in *.
  - rewrite orb_false_r in Hs. rewrite Hs.
    destruct (forallb (λ x, affirms c x.2) seen); simpl; [|done]. apply Hend.
  - apply Hend.
Qed.

Lemma insufficient_not_accepted seen a :
  tallied seen a → hasReceivedSufficientResponses a = false → accepted seen = false.
Proof.
  intros Ht. rewrite (sufficient_tallied seen a Ht), orb_false_iff. unfold accepted.
  intros [Hn Hr]. destruct (_version c =? 1); simpl in *; [by rewrite Hn|done].
Qed.

Lemma rejected_is_last seen a :
  tallied seen a → hasReceivedSufficientResponses a = true → accepted seen = false →
  1 + vsize seen = RSC.getNumMembers c.
Proof.
  intros Ht Hs. rewrite (sufficient_tallied seen a Ht) in Hs. apply orb_true_iff in Hs as [Hs|Hs].
  - by intros _; apply Z.eqb_eq.
  - apply andb_true_iff in Hs as [Hv%negb_true_iff Hr]. unfold accepted. rewrite Hv. congruence.
Qed.

(** Completing the check only sets its result. *)
Lemma complete_only_final a : ∃ st, complete_if_sufficient a = a <| qc_finalStatus := st |>.
Proof.
  unfold complete_if_sufficient, _onQuorumCheckComplete.
  repeat case_match; eauto. exists (qc_finalStatus a). by destruct a.
Qed.
Lemma complete_sufficient a :
  hasReceivedSufficientResponses (complete_if_sufficient a) = hasReceivedSufficientResponses a.
Proof. by destruct (complete_only_final a) as [st ->]. Qed.
Lemma complete_kept seen a : tallied seen a → tallied seen (complete_if_sufficient a).
Proof. destruct (complete_only_final a) as [st ->]. intros []. by split. Qed.
Lemma complete_rejected a :
  sw_isOK (qc_vetoStatus a) = false →
  hasReceivedSufficientResponses a = true ∧ qc_finalStatus (complete_if_sufficient a) ≠ OK tt.
Proof.
  intros Hv. unfold complete_if_sufficient, hasReceivedSufficientResponses. rewrite Hv. simpl.
  unfold _onQuorumCheckComplete. by destruct (qc_vetoStatus a).
Qed.

(** Which answers decide: some of the first ones, without a veto among them. *)
Lemma gather_accepts rest seen a :
  tallied seen a → hasReceivedSufficientResponses a = false →
  1 + vsize (seen ++ rest) = RSC.getNumMembers c →
  Forall (λ x, is_Some (member_at c x.1)) rest →
  ∃ a', Runner.gather a rest = Ret a' ∧
    (qc_finalStatus a' = OK tt ↔
     ∃ k, Forall (λ x, vetoes c x.2 = false) (take k rest) ∧ accepted (seen ++ take k rest) = true).
Proof.
  revert seen a. induction rest as [|[h r] rest IH]; intros seen a Ht Hs Hlen Hm.
  { exfalso. rewrite (sufficient_tallied seen a Ht), orb_false_iff, Z.eqb_neq in Hs.
    rewrite app_nil_r in Hlen. lia. }
  apply Forall_cons in Hm as [[m Hm] Hms]. pose proof (insufficient_not_accepted seen a Ht Hs) as Hna.
  destruct (tabulate_step seen a h r m Ht Hm) as (a1 & Ha1 & _ & _ & Hn1 & Hcase).
  assert ((∃ k, Forall (λ x, vetoes c x.2 = false) (take k ((h, r) :: rest)) ∧
                accepted (seen ++ take k ((h, r) :: rest)) = true) ↔
          vetoes c r = false ∧
          ∃ k, Forall (λ x, vetoes c x.2 = false) (take k rest) ∧
               accepted ((seen ++ [(h, r)]) ++ take k rest) = true) as Hex.
  { setoid_rewrite <-(assoc_L (++)). split.
    - intros ([|k] & Hk & Hacc); simpl in *; [by rewrite app_nil_r, Hna in Hacc|].
      apply Forall_cons in Hk as [? ?]. eauto.
    - intros (? & k & ? & ?). exists (S k). simpl. split; [by constructor|done]. }
  cbn [Runner.gather].
  change (Election.hasReceivedSufficientResponses a) with (hasReceivedSufficientResponses a).
  rewrite Hs. cbn [Election.processResponse QuorumChecker_algorithm].
  unfold processResponse. rewrite Ha1. cbn [mbind outcome_bind].
  destruct (vetoes c r) eqn:Hv.
  - destruct (complete_rejected a1 Hcase) as [Hs1 Hf].
    rewrite Runner.gather_done by (etrans; [apply complete_sufficient|done]).
    eexists. split; [done|]. rewrite Hex. naive_solver.
  - assert (1 + vsize ((seen ++ [(h, r)]) ++ rest) = RSC.getNumMembers c) as Hlen1.
    { rewrite <-Hlen, <-(assoc_L (++)). done. }
    destruct (hasReceivedSufficientResponses a1) eqn:Hs1.
    + rewrite Runner.gather_done by (etrans; [apply complete_sufficient|done]).
      eexists. split; [done|]. rewrite Hex, (complete_tallied _ a1 Hcase Hs1). split.
      * intros Hacc. split; [done|]. exists 0%nat. rewrite take_0, app_nil_r. by split.
      * intros (_ & k & _ & Hacc). destruct (accepted (seen ++ [(h, r)])) eqn:Hacc'; [done|].
        pose proof (rejected_is_last _ a1 Hcase Hs1 Hacc') as Hlast.
        assert (rest = []) as ->.
        { destruct rest; [done|]. unfold vsize in *. rewrite length_app in Hlen1. simpl in *. lia. }
        rewrite take_nil, app_nil_r in Hacc. congruence.
    + assert (complete_if_sufficient a1 = a1) as -> by (unfold complete_if_sufficient; by rewrite Hs1).
      destruct (IH _ _ Hcase Hs1 Hlen1 Hms) as (a' & Ha' & Hiff). exists a'. split; [done|].
      rewrite Hiff, Hex. naive_solver.
Qed.

Lemma created :
  ∃ a, tallied [] a ∧ create c self = Ret (complete_if_sufficient a) ∧
       hasReceivedSufficientResponses (complete_if_sufficient a) = hasReceivedSufficientResponses a.
Proof.
  pose proof Hself as [Hi Hl]%vat_Ret. apply lookup_lt_Some in Hl.
  unfold create, RSC.getNumMembers. rewrite (proj2 (Z.ltb_lt self _)) by (unfold vsize; lia).
  cbn [check mbind outcome_bind]. rewrite Hself. cbn [mbind outcome_bind].
  eexists. split_and!; [|done|apply complete_sufficient].
  split; try done; unfold electables, voters, count_if, vsize; simpl.
  - destruct (MC.isElectable me); lia.
  - destruct (MC.isVoter me); simpl; lia.
Qed.

Lemma check_accepts answers :
  1 + vsize answers = RSC.getNumMembers c →
  Forall (λ x, is_Some (member_at c x.1)) answers →
  ∃ a a', create c self = Ret a ∧ Runner.gather a answers = Ret a' ∧
    (qc_finalStatus a' = OK tt ↔
     ∃ k, Forall (λ x, vetoes c x.2 = false) (take k answers) ∧ accepted (take k answers) = true).
Proof.
  intros Hlen Hm. destruct created as (a & Ht & Hc & Hs). exists (complete_if_sufficient a).
  destruct (hasReceivedSufficientResponses a) eqn:Hsuf.
  - rewrite Runner.gather_done by done. eexists. split_and!; [done..|].
    rewrite (complete_tallied [] a Ht Hsuf). split.
    + intros Hacc. exists 0%nat. rewrite take_0. by split.
    + intros (k & _ & Hacc). destruct (accepted []) eqn:Hacc'; [done|].
      pose proof (rejected_is_last [] a Ht Hsuf Hacc') as Hlast.
      destruct answers; [by rewrite take_nil, Hacc' in Hacc|]. unfold vsize in *. simpl in *. lia.
  - assert (complete_if_sufficient a = a) as Heq by (unfold complete_if_sufficient; by rewrite Hsuf).
    rewrite Heq in Hc |- *.
    destruct (gather_accepts answers [] a Ht Hsuf Hlen Hm) as (a' & Ha' & Hiff).
    exists a'. by split_and!.
Qed.
End check.

(** ** The checker meets the interface *)
Lemma tabulate_total a h r m :
  member_at (qc_rsConfig a) h = Some m →
  ∃ a', _tabulateHeartbeatResponse h r a = Ret a' ∧ qc_rsConfig a' = qc_rsConfig a ∧
        qc_myIndex a' = qc_myIndex a ∧ qc_numResponses a' = qc_numResponses a + 1.
Proof.
  intros Hm. unfold _tabulateHeartbeatResponse.
  assert (∀ a1, ∃ a', credit h (_members (qc_rsConfig a)) a1 = Ret a' ∧ qc_rsConfig a' = qc_rsConfig a1 ∧
    qc_myIndex a' = qc_myIndex a1 ∧ qc_numResponses a' = qc_numResponses a1) as Hcr.
  { intros a1. rewrite (credit_spec _ _ _ m) by done. by eexists. }
  destruct r as [e|reply]; [by eexists|].
  destruct (hy_status reply) as [|[]]; try (by eexists);
    (destruct (no_smaller_version _ _); [by eexists|]);
    (destruct (has_data_already _ _); [eexists; (split; [done|]); by destruct (other_set_id _ _)|]);
    (destruct (other_set_id _ _); apply Hcr).
Qed.

Lemma member_at_target c self h : h ∈ targets_of c self → is_Some (member_at c h).
Proof.
  unfold targets_of. intros ([i m] & -> & Hin)%list_elem_of_fmap.
  apply list_elem_of_In, List.filter_In in Hin as [Hin%list_elem_of_In _].
  apply elem_of_indexed in Hin as [_ Hl]. unfold member_at. simpl.
  destruct (find _ _) eqn:Hf; [by eexists|].
  assert (HP.eqb (mc_host m) (mc_host m) = true) as Ht by by apply HP.eqb_key.
  apply list_elem_of_lookup_2, list_elem_of_In in Hl.
  by rewrite (find_none _ _ Hf m Hl) in Ht.
Qed.
Lemma member_at_own c m :
  NoDup ((λ m, HP.key (mc_host m)) <$> _members c) → m ∈ _members c →
  member_at c (mc_host m) = Some m.
Proof.
  unfold member_at. induction (_members c) as [|m' ms IH]; csimpl; [by intros _ ?%elem_of_nil|].
  intros [Hn Hnd]%NoDup_cons Hin.
  destruct (HP.eqb (mc_host m') (mc_host m)) eqn:E.
  - apply HP.eqb_key in E. apply elem_of_cons in Hin as [->|Hin]; [done|].
    destruct Hn. rewrite E. by apply (list_elem_of_fmap_2 (λ m, HP.key (mc_host m))).
  - apply IH; [done|]. apply elem_of_cons in Hin as [->|Hin]; [|done].
    apply not_true_iff_false in E. by rewrite HP.eqb_key in E.
Qed.
Lemma targets_size c self me :
  RSC.getMemberAt c self = Ret me → 1 + vsize (targets_of c self) = RSC.getNumMembers c.
Proof.
  intros [Hi Hl]%vat_Ret. pose proof (others_perm _ _ _ Hi Hl) as Hp.
  apply Permutation_length in Hp. simpl in Hp. rewrite length_fmap in Hp.
  unfold targets_of, RSC.getNumMembers, vsize. rewrite length_fmap. lia.
Qed.
End QuorumCheck.
Import QuorumCheck.

#[export] Instance QuorumChecker_laws :
  ScatterGatherLaws QuorumChecker ReplSetHeartbeatArgs HeartbeatReply.
Proof.
  refine {| sg_targets := λ a, Quorum.targets_of (qc_rsConfig a) (qc_myIndex a);
            sg_ok := λ a, ∃ me, RSC.getMemberAt (qc_rsConfig a) (qc_myIndex a) = Ret me;
            sg_outstanding := λ a, RSC.getNumMembers (qc_rsConfig a) - qc_numResponses a |}.
  - intros a [me Hme]. simpl. unfold Quorum.getRequests. rewrite Hme. simpl.
    destruct (Quorum.hasReceivedSufficientResponses a); eexists; (split; [done|]); [done|].
    intros _. rewrite <-list_fmap_compose. apply list_fmap_id.
  - intros a h r [me Hme] Hh. destruct (member_at_target _ _ _ Hh) as [m Hm].
    destruct (tabulate_total a h r m Hm) as (a1 & Ha1 & Hc & Hi & Hn). simpl.
    unfold Quorum.processResponse. rewrite Ha1. cbn [mbind outcome_bind].
    destruct (complete_only_final a1) as [st ->]. eexists. split; [done|]. simpl.
    rewrite Hc, Hi, Hn. split_and!; eauto. lia.
  - intros a _ Hout. simpl. unfold Quorum.hasReceivedSufficientResponses.
    rewrite (proj2 (Z.eqb_eq (qc_numResponses a) _)) by lia. by rewrite orb_true_r.
Defined.

Module QuorumProps.
Import Quorum QuorumCheck.

(** Each member other than this node answers once, in any order. *)
Definition all_answered (c : ReplSetConfig) (self : Z)
    (arrivals : list (nat * ResponseStatus HeartbeatReply)) : Prop :=
  arrivals.*1 ≡ₚ seq 0 (length (targets_of c self)) ∧
  Forall (λ x, Runner.is_canceled x.2 = false) arrivals.

Section answers.
Context (targets : list HostAndPort).
Implicit Types arrivals : list (nat * ResponseStatus HeartbeatReply).
Lemma answers_of_hosts arrivals :
  (Runner.answers_of targets arrivals).*1 = omap (targets !!.) arrivals.*1.
Proof.
  unfold Runner.answers_of. induction arrivals as [|[h r] arrivals IH]; [done|]. csimpl.
  destruct (targets !! h); csimpl; by rewrite IH.
Qed.
Lemma answers_of_replies arrivals :
  (∀ h, h ∈ arrivals.*1 → h < length targets)%nat →
  (Runner.answers_of targets arrivals).*2 = arrivals.*2.
Proof.
  unfold Runner.answers_of. induction arrivals as [|[h r] arrivals IH]; intros Hlt; [done|]. csimpl.
  destruct (lookup_lt_is_Some_2 targets h) as [t Ht]; [apply Hlt; left|].
  rewrite Ht. csimpl. f_equal. apply IH. intros h' Hh'. apply Hlt. by right.
Qed.
End answers.

Lemma omap_lookup_seq {A} (l : list A) : omap (l !!.) (seq 0 (length l)) = l.
Proof.
  induction l as [|x l IH] using rev_ind; [done|].
  rewrite length_app, seq_app, omap_app. simpl. rewrite list_lookup_middle by done. f_equal.
  etrans; [|exact IH]. apply list_omap_ext, Forall_Forall2_diag, Forall_forall.
  intros i Hi%elem_of_seq. apply lookup_app_l. lia.
Qed.

Section quorum.
Context (c : ReplSetConfig) (self : Z) (me : MemberConfig).
Context (Hself : RSC.getMemberAt c self = Ret me).
Context (arrivals : list (nat * ResponseStatus HeartbeatReply)).
Context (Hall : all_answered c self arrivals).
Definition answers : list answer := Runner.answers_of (targets_of c self) arrivals.

Lemma handles_in_range h : h ∈ arrivals.*1 → (h < length (targets_of c self))%nat.
Proof. destruct Hall as [-> _]. rewrite elem_of_seq. lia. Qed.
Lemma answers_hosts : answers.*1 ≡ₚ targets_of c self.
Proof.
  unfold answers. rewrite answers_of_hosts. destruct Hall as [-> _]. by rewrite omap_lookup_seq.
Qed.
Lemma answers_replies : answers.*2 = arrivals.*2.
Proof. apply answers_of_replies, handles_in_range. Qed.

Lemma answers_size : 1 + vsize answers = RSC.getNumMembers c.
Proof.
  rewrite <-(targets_size c self me Hself). pose proof (Permutation_length answers_hosts) as Hlen.
  rewrite length_fmap in Hlen. unfold vsize. by rewrite Hlen.
Qed.

(** The runner drives the checker to a result that [accepted] describes. *)
Lemma checkQuorumGeneral_spec :
  ∃ st, checkQuorumGeneral (OK tt) (λ _, OK tt) arrivals c self = Ret (Some st) ∧
    (st = OK tt ↔
     ∃ k, Forall (λ x, vetoes c x.2 = false) (take k answers) ∧
          accepted c me (take k answers) = true).
Proof.
  pose proof (targets_size c self me Hself) as Hsize.
  destruct (check_accepts c self me Hself answers answers_size) as (a & a' & Hc & Hg & Hiff).
  { rewrite <-(Forall_fmap fst (λ h, is_Some (member_at c h))), answers_hosts.
    apply Forall_forall. apply member_at_target. }
  destruct (created c self me Hself) as (a0 & [Ec Ei _ En _ _ _] & Hc0 & _).
  rewrite Hc in Hc0. injection Hc0 as ->. destruct (complete_only_final a0) as [st Est].
  rewrite Est in *. destruct Hall as [Hp Hcan].
  destruct (ElectionProps.run_gather (a0 <| qc_finalStatus := st |>) arrivals)
    as (r & Hr & Hg'); simpl; rewrite ?Ec, ?Ei, ?En.
  - eauto.
  - unfold vsize in *. simpl. lia.
  - rewrite Hp. apply NoDup_seq.
  - apply handles_in_range.
  - done.
  - apply Permutation_length in Hp. by rewrite length_fmap, length_seq in Hp.
  - change (sg_targets _) with (targets_of (qc_rsConfig a0) (qc_myIndex a0)) in Hg'.
    rewrite Ec, Ei in Hg'. fold answers in Hg'. rewrite Hg in Hg'. injection Hg' as Ha'.
    exists (qc_finalStatus a'). split; [|done].
    unfold checkQuorumGeneral. rewrite Hc. cbn [mbind outcome_bind]. rewrite Hr.
    cbn [mbind outcome_bind]. by rewrite Ha'.
Qed.

(** *** Unanimity *)
Lemma affirms_not_veto r : affirms c r = true → vetoes c r = false.
Proof.
  destruct r as [|reply]; [done|]. unfold affirms, vetoes, understood, other_set_name.
  destruct (hy_status reply) as [|[]]; try done; simpl; by intros ->%negb_true_iff.
Qed.

Lemma count_members (p : MemberConfig → bool) :
  NoDup ((λ m, HP.key (mc_host m)) <$> _members c) →
  (if p me then 1 else 0) +
    count_if (λ h, from_option p false (member_at c h)) (targets_of c self)
  = count_if p (_members c).
Proof.
  intros Hnd. pose proof Hself as [Hi Hl]%vat_Ret. pose proof (others_perm _ _ _ Hi Hl) as Hp.
  rewrite <-(count_if_perm p _ _ Hp), count_if_cons. f_equal.
  unfold targets_of. rewrite !count_if_fmap. apply count_if_ext. intros [i m] Hin. simpl.
  apply list_elem_of_In, List.filter_In in Hin as [Hin%list_elem_of_In _].
  apply elem_of_indexed in Hin as [_ Hm]. apply list_elem_of_lookup_2 in Hm.
  by rewrite (member_at_own c m Hnd Hm).
Qed.

Lemma unanimous_quorum p :
  RSC.valid_config p c → RSC.majorities_set c →
  Forall (λ x, affirms c x.2 = true) answers → quorum c me answers.
Proof.
  intros Hval Hmaj Haff.
  assert (∀ q, count_if (affirming c q) answers =
               count_if (λ h, from_option q false (member_at c h)) (targets_of c self)) as Hcount.
  { intros q. rewrite <-(count_if_perm _ _ _ answers_hosts), count_if_fmap.
    apply count_if_ext. intros x Hx. rewrite Forall_forall in Haff. unfold affirming.
    by rewrite (Haff x Hx). }
  pose proof (RSC.majority_bounds p c Hval Hmaj) as (_ & [_ Hvot] & _).
  destruct Hval as (_ & _ & _ & _ & _ & _ & Hnd & _ & _ & (m & Hm & He) & _).
  unfold quorum. rewrite !Hcount, !count_members by done. split; [done|].
  pose proof (count_if_pos MC.isElectable _ _ Hm He). lia.
Qed.

Lemma unanimous_iff p :
  RSC.valid_config p c → RSC.majorities_set c →
  (∃ k, Forall (λ x, vetoes c x.2 = false) (take k answers) ∧
        (1 + vsize (take k answers) =? RSC.getNumMembers c) &&
        forallb (λ x, affirms c x.2) (take k answers) && reached c me (take k answers) = true)
  ↔ Forall (λ x, affirms c x.2 = true) answers.
Proof.
  intros Hval Hmaj. pose proof answers_size as Hsize. split.
  - intros (k & _ & [[Hn%Z.eqb_eq Ha]%andb_true_iff _]%andb_true_iff).
    rewrite <-Hsize in Hn. unfold vsize in Hn. rewrite length_take in Hn.
    rewrite take_ge in Ha by lia. apply Forall_forall. intros x Hx%list_elem_of_In.
    rewrite List.forallb_forall in Ha. auto.
  - intros Ha. exists (length answers). rewrite take_ge by lia. split.
    { eapply Forall_impl; [exact Ha|]. intros x. apply affirms_not_veto. }
    rewrite (proj2 (Z.eqb_eq _ _) Hsize), (proj2 (reached_quorum c me answers)), andb_true_r
      by by eapply unanimous_quorum. simpl. apply List.forallb_forall.
    intros x Hx%list_elem_of_In. rewrite Forall_forall in Ha. auto.
Qed.
End quorum.

(** C30. The quorum check of a reconfiguration, driven by the runner until every member has
    answered once in whatever order, always returns, and succeeds iff some of the first answers
    to arrive hold no veto and give, with this node, a majority of the voters and an electable
    member.  A veto is a set of another name or id, or a configuration at least as new; a node
    that cannot be asked counts as not affirming. *)
Theorem checkQuorumForReconfig_exact c self me arrivals :
  1 < _version c → RSC.getMemberAt c self = Ret me → all_answered c self arrivals →
  ∃ st, checkQuorumForReconfig (OK tt) (λ _, OK tt) arrivals c self = Ret (Some st) ∧
    (st = OK tt ↔
     ∃ k, Forall (λ x, vetoes c x.2 = false) (take k (answers c self arrivals)) ∧
          quorum c me (take k (answers c self arrivals))).
Proof.
  intros Hv Hme Hall. destruct (checkQuorumGeneral_spec c self me Hme arrivals Hall) as (st & Hst & Hiff).
  exists st. unfold checkQuorumForReconfig. rewrite (proj2 (Z.ltb_lt _ _) Hv). split; [done|].
  rewrite Hiff. unfold accepted. rewrite (proj2 (Z.eqb_neq (_version c) 1)) by lia.
  by setoid_rewrite reached_quorum.
Qed.

(** The quorum check of an initiation of a valid configuration always returns, and
    succeeds iff every other member affirms: it is reachable, holds no data, and belongs to no
    set of another name or id and to none with a configuration already.  The order of the
    answers does not matter, and a majority of voters and an electable member then follow from
    the validity of the configuration. *)
Theorem checkQuorumForInitiate_unanimous p c self arrivals :
  _version c = 1 → RSC.valid_config p c → RSC.majorities_set c →
  0 ≤ self < RSC.getNumMembers c → all_answered c self arrivals →
  ∃ st, checkQuorumForInitiate (OK tt) (λ _, OK tt) arrivals c self = Ret (Some st) ∧
    (st = OK tt ↔ Forall (λ x, affirms c x.2 = true) arrivals).
Proof.
  intros Hv Hval Hmaj Hr Hall. destruct (vat_in_range 629 _ _ Hr) as (me & Hme & _).
  destruct (checkQuorumGeneral_spec c self me Hme arrivals Hall) as (st & Hst & Hiff).
  exists st. unfold checkQuorumForInitiate. rewrite Hv. split; [done|].
  rewrite Hiff. unfold accepted. rewrite Hv. simpl.
  rewrite <-(Forall_fmap snd (λ r, affirms c r = true)), <-(answers_replies c self arrivals Hall),
    Forall_fmap. by apply (unanimous_iff c self me Hme arrivals Hall p).
Qed.

(** *** Instances *)
Definition example_reply (name : chars) (version : Z) : ResponseStatus HeartbeatReply :=
  Reply (mkHeartbeatReply (OK tt)
           (hr_default <| hr_setName := name |> <| hr_configVersion := version |>) (OK 0)).
Definition example_next : ReplSetConfig := RSC.example_config <| _version := 2 |>.
Definition example_answers : list (nat * ResponseStatus HeartbeatReply) :=
  [(1%nat, Failed HostUnreachable); (0%nat, example_reply (RSC.str "rs0") 1)].
Lemma checkQuorumForReconfig_exact_witness :
  ∃ st, checkQuorumForReconfig (OK tt) (λ _, OK tt) example_answers example_next 0
          = Ret (Some st) ∧
    (st = OK tt ↔
     ∃ k, Forall (λ x, vetoes example_next x.2 = false)
            (take k (answers example_next 0 example_answers)) ∧
          quorum example_next (RSC.example_member 0 false)
            (take k (answers example_next 0 example_answers))).
Proof.
  apply (checkQuorumForReconfig_exact example_next 0 (RSC.example_member 0 false) example_answers).
  - reflexivity.
  - vm_compute. reflexivity.
  - split; [vm_compute; constructor | repeat constructor].
Defined.
Lemma example_reconfig_quorum :
  checkQuorumForReconfig (OK tt) (λ _, OK tt) example_answers example_next 0
    = Ret (Some (OK tt)).
Proof. vm_compute. reflexivity. Qed.

Definition example_fresh_answers : list (nat * ResponseStatus HeartbeatReply) :=
  [(1%nat, example_reply [] (-1)); (0%nat, example_reply [] (-1))].
Lemma checkQuorumForInitiate_unanimous_witness :
  ∃ st, checkQuorumForInitiate (OK tt) (λ _, OK tt) example_fresh_answers RSC.example_config 0
          = Ret (Some st) ∧
    (st = OK tt ↔ Forall (λ x, affirms RSC.example_config x.2 = true) example_fresh_answers).
Proof.
  apply (checkQuorumForInitiate_unanimous RSC.example_params RSC.example_config 0
           example_fresh_answers).
  - reflexivity.
  - exact RSC.example_valid.
  - exact RSC.example_majorities.
  - vm_compute. split; congruence.
  - split; [vm_compute; constructor | repeat constructor].
Defined.
Lemma example_initiate_quorum :
  checkQuorumForInitiate (OK tt) (λ _, OK tt) example_fresh_answers RSC.example_config 0
    = Ret (Some (OK tt)).
Proof. vm_compute. reflexivity. Qed.
End QuorumProps.
