(* ===== verification/Voting.v ===== *)
(** * Votes and terms: the coordinator's side of an election of protocol version 1

    How a node takes part in elections: the handler of replSetRequestVotes
    (src/mongo/db/repl/replication_coordinator_impl.cpp), the stages of its own candidacy
    (replication_coordinator_impl_elect_v1.cpp), the record of the last vote on disk
    (replication_coordinator_external_state_impl.cpp) and the restart that reads it back.
    The handlers release their locks between stages, so each stage is one step of a node and
    the steps of a set of nodes interleave freely; nodes may crash at any time.  The main
    theorem is that two members never win the election of one term. *)
From S2P Require Import Prelude ReplTime ParseNumber HostAndPort ReplTag ReplConfig Heartbeat Topology TopologyElection TopologySync TopologyHeartbeat TopologyInv Election.

(** Where the coordinator is in a change of its configuration. *)
Inductive ConfigState :=
| kConfigPreStart | kConfigStartingUp | kConfigReplicationDisabled | kConfigUninitialized
| kConfigSteady | kConfigInitiating | kConfigReconfiguring | kConfigHBReconfiguring.
#[export] Instance ConfigState_eq_dec : EqDecision ConfigState.
Proof. solve_decision. Defined.

Module Voting.
Import Topo TopoElect TopoSync TopoHB TopoInv.
Implicit Types t : TopologyCoordinator.

(** ** What the other operations leave alone *)
Record vote_frame t t' : Prop := mkVoteFrame {
  vf_lastVote : _lastVote t' = _lastVote t; vf_term : _term t ≤ _term t';
  vf_config : _rsConfig t' = _rsConfig t; vf_self : _selfIndex t' = _selfIndex t;
  vf_read : _storageEngineSupportsReadCommitted t ≠ kUnknown →
            _storageEngineSupportsReadCommitted t' ≠ kUnknown }.
#[local] Instance vote_frame_preorder : PreOrder vote_frame.
Proof.
  split; [by intros t; split|]. intros t1 t2 t3 [] []. split; [congruence|lia|congruence..|auto].
Qed.
Definition keeps {A} (m : TM A) : Prop := ∀ t a t', m t = Ret (a, t') → vote_frame t t'.

Lemma keeps_ret {A} (a : A) : keeps (mret a).
Proof. by intros t a' t' [= _ <-]. Qed.
Lemma keeps_gets {A} (f : TopologyCoordinator → A) : keeps (gets f).
Proof. by intros t a' t' [= _ <-]. Qed.
Lemma keeps_reads {A} (f : TopologyCoordinator → outcome A) : keeps (reads f).
Proof. intros t a t'. unfold reads. destruct (f t); [|done]. by intros [= _ <-]. Qed.
Lemma keeps_invariant line f : keeps (invariant line f).
Proof. intros t a t'. unfold invariant. destruct (f t); [|done]. by intros [= _ <-]. Qed.
Lemma keeps_modify f : (∀ t, vote_frame t (f t)) → keeps (modify f).
Proof. intros Hf t a t' [= _ <-]. apply Hf. Qed.
Lemma keeps_bind {A B} (m : TM A) (f : A → TM B) : keeps m → (∀ a, keeps (f a)) → keeps (m ≫= f).
Proof.
  intros Hm Hf t b t'. unfold mbind, M_bind. destruct (m t) as [[a t1]|] eqn:E; [|done].
  intros H. transitivity t1; [by eapply Hm|by eapply Hf].
Qed.
Lemma keeps_mfoldl {A B} (f : B → A → TM B) b l : (∀ b a, keeps (f b a)) → keeps (mfoldl f b l).
Proof.
  intros Hf. revert b. induction l as [|a l IH]; intros b; simpl; [apply keeps_ret|].
  by apply keeps_bind.
Qed.
Lemma keeps_abort {A} line : keeps (λ _, Abort line : outcome (A * TopologyCoordinator)).
Proof. by intros t a t'. Qed.

Ltac keeps_modify := apply keeps_modify; intros; cbv zeta; repeat case_match; split; simpl; first [reflexivity | lia | done].
Ltac keeps :=
  repeat first
    [ progress intros | solve [auto with keeps] | apply keeps_ret | apply keeps_gets
    | apply keeps_reads | apply keeps_invariant | apply keeps_mfoldl | apply keeps_bind
    | keeps_modify | case_match | apply keeps_abort ].
Create HintDb keeps.

Lemma keeps_setMyHeartbeatMessage now msg : keeps (setMyHeartbeatMessage now msg).
Proof. unfold setMyHeartbeatMessage. keeps. Qed.
Lemma keeps_touch_ping h : keeps (touch_ping h).
Proof. unfold touch_ping. keeps. Qed.
#[local] Hint Resolve keeps_setMyHeartbeatMessage keeps_touch_ping : keeps.
Lemma keeps_chooseNewSyncSource now lf pref : keeps (chooseNewSyncSource now lf pref).
Proof.
  unfold chooseNewSyncSource, attempt_source, consider_source, choose_primary_source, set_source, _getPing.
  keeps.
Qed.
Lemma keeps_prepareSyncFromResponse h lo : keeps (prepareSyncFromResponse h lo).
Proof. unfold prepareSyncFromResponse, setForceSyncSourceIndex. keeps. Qed.
Lemma keeps_prepareElectResponse args now lo : keeps (prepareElectResponse args now lo).
Proof. unfold prepareElectResponse. keeps. Qed.
Lemma keeps_prepareHeartbeatResponse now args name lo ld :
  keeps (prepareHeartbeatResponse now args name lo ld).
Proof. unfold prepareHeartbeatResponse. keeps. Qed.
Lemma keeps_prepareHeartbeatResponseV1 now args name lo ld :
  keeps (prepareHeartbeatResponseV1 now args name lo ld).
Proof. unfold prepareHeartbeatResponseV1. keeps. Qed.
Lemma keeps_prepareHeartbeatRequest now name h : keeps (prepareHeartbeatRequest now name h).
Proof. unfold prepareHeartbeatRequest, start_or_retry. keeps. Qed.
Lemma keeps_prepareHeartbeatRequestV1 now name h : keeps (prepareHeartbeatRequestV1 now name h).
Proof. unfold prepareHeartbeatRequestV1, start_or_retry. keeps. Qed.
Lemma keeps_becomeCandidateIfElectable now lo tk : keeps (becomeCandidateIfElectable now lo tk).
Proof. unfold becomeCandidateIfElectable. keeps. Qed.
#[local] Hint Resolve keeps_becomeCandidateIfElectable : keeps.
Lemma keeps_updatePrimary i st now lo : keeps (_updatePrimaryFromHBData i st now lo).
Proof.
  unfold _updatePrimaryFromHBData, confirm_primary, yield_to_priority, adopt_remote_primary,
    no_remote_primary, request_step_down_self. keeps.
Qed.
Lemma keeps_updatePrimaryV1 i now lo : keeps (_updatePrimaryFromHBDataV1 i now lo).
Proof. unfold _updatePrimaryFromHBDataV1. keeps. Qed.
#[local] Hint Resolve keeps_updatePrimary keeps_updatePrimaryV1 : keeps.
Lemma keeps_processHeartbeatResponse now rtt h r reason lo :
  keeps (processHeartbeatResponse now rtt h r reason lo).
Proof. unfold processHeartbeatResponse, record_ping. keeps. Qed.
Lemma keeps_setMemberAsDown now i lo : keeps (setMemberAsDown now i lo).
Proof. unfold setMemberAsDown, request_step_down_self. keeps. Qed.
Lemma keeps_prepareFreezeResponse now secs : keeps (prepareFreezeResponse now secs).
Proof. unfold prepareFreezeResponse, become_candidate_if_single. keeps. Qed.
Lemma keeps_becomeCandidateIfSingle now :
  keeps (becomeCandidateIfStepdownPeriodOverAndSingleNodeSet now).
Proof.
  unfold becomeCandidateIfStepdownPeriodOverAndSingleNodeSet, become_candidate_if_single. keeps.
Qed.
Lemma keeps_voteForMyself now : keeps (voteForMyself now).
Proof. unfold voteForMyself. keeps. Qed.
Lemma keeps_stepDown u f lo : keeps (stepDown u f lo).
Proof. unfold stepDown, _stepDownSelfAndReplaceWith. keeps. Qed.
Lemma keeps_stepDownIfPending : keeps stepDownIfPending.
Proof. unfold stepDownIfPending, _stepDownSelfAndReplaceWith. keeps. Qed.
Lemma keeps_setFollowerMode m : keeps (setFollowerMode m).
Proof. unfold setFollowerMode, become_candidate_if_single. keeps. Qed.
Lemma keeps_updateTerm term now : keeps (updateTerm term now).
Proof.
  intros t a t'. unfold updateTerm, mbind, M_bind, gets, modify, reads, mret, M_ret.
  destruct (Z.leb_spec term (_term t)); [by intros [= _ <-]|].
  destruct (_iAmPrimary _) as [[]|]; [| |done]; intros [= _ <-]; split; simpl; try done; lia.
Qed.
#[local] Hint Resolve keeps_chooseNewSyncSource keeps_prepareSyncFromResponse
  keeps_prepareElectResponse keeps_prepareHeartbeatResponse keeps_prepareHeartbeatResponseV1
  keeps_prepareHeartbeatRequest keeps_prepareHeartbeatRequestV1 keeps_processHeartbeatResponse
  keeps_setMemberAsDown keeps_prepareFreezeResponse keeps_becomeCandidateIfSingle
  keeps_voteForMyself keeps_stepDown keeps_stepDownIfPending keeps_setFollowerMode
  keeps_updateTerm : keeps.

(** The operations that neither vote nor change the configuration. *)
Definition vote_neutral (c : call) : bool :=
  match c with
  | CUpdateConfig _ _ _ _ | CProcessReplSetRequestVotes _ _ | CLoadLastVote _ | CVoteForMyselfV1 => false
  | _ => true
  end.
Lemma exec_keeps c : vote_neutral c = true → keeps (exec c).
Proof.
  destruct c; intros Hc; try done; simpl; unfold run, setForceSyncSourceIndex, blacklistSyncSource,
    unblacklistSyncSource, clearSyncSourceBlacklist, setElectionSleepUntil, processWinElection,
    setElectionInfo, setPrimaryIndex, processLoseElection, prepareForStepDown, adjustMaintenanceCountBy,
    setStorageEngineSupportsReadCommitted, restartHeartbeats; keeps.
Qed.

(** ** The node *)

(** [nd_stored] is the document in local.replset.election.  [nd_pending] holds the vote
    requests whose term has been taken into account, [nd_unstored] the votes granted in memory
    whose record is still to be written. *)
Record Node := mkNode {
  nd_topo : TopologyCoordinator; nd_stored : option LastVote;
  nd_pending : list ReplSetRequestVotesArgs; nd_unstored : list LastVote }.
#[export] Instance Node_eta : Eta Node := λ n,
  mkNode (nd_topo n) (nd_stored n) (nd_pending n) (nd_unstored n).

Lemma Ret_pair_inj {A B} (a a' : A) (b b' : B) : Ret (a, b) = Ret (a', b') → a' = a ∧ b = b'.
Proof. by intros [= -> ->]. Qed.

Definition on_topo {A} (m : TM A) (n : Node) : outcome (A * Node) :=
  r ← m (nd_topo n);
  let '(a, t) := r in Ret (a, n <| nd_topo := t |>).

(** *** The record on disk *)
Definition storeLocalLastVoteDocument (lastVote : LastVote) (stored : option LastVote)
    : option LastVote :=
  match stored with
  | None => Some lastVote
  | Some old => if lv_term old <? lv_term lastVote then Some lastVote else Some old
  end.

(** *** Terms *)
Definition isV1ElectionProtocol t : bool := _protocolVersion (_rsConfig t) =? 1.
Definition _updateTerm_incallback (term now : Z) : TM (option UpdateTermResult) :=
  v1 ← gets isV1ElectionProtocol;
  if negb v1 then mret None
  else
    r ← updateTerm term now;
    (if bool_decide (r = kTriggerStepDown) then prepareForStepDown else mret tt) ;;
    mret (Some r).
(** The node is in replica set mode; the wait for a step-down is over when the request goes on. *)
Definition coord_updateTerm (term now : Z) : TM Status :=
  r ← _updateTerm_incallback term now;
  mret match r with
       | Some kUpdatedTerm | Some kTriggerStepDown => Err StaleTerm
       | _ => OK tt
       end.

(** *** Answering replSetRequestVotes, in the three stages between which locks are released *)
Definition begin_vote_request (args : ReplSetRequestVotesArgs) (now : Z) (n : Node)
    : outcome (Status * Node) :=
  if negb (isV1ElectionProtocol (nd_topo n)) then Ret (Err BadValue, n)
  else
    r ← on_topo (coord_updateTerm (va_term args) now) n;
    let '(termStatus, n) := r in
    match termStatus with
    | OK _ | Err StaleTerm => Ret (OK tt, n <| nd_pending := args :: nd_pending n |>)
    | Err e => Ret (Err e, n)
    end.
Definition decide_vote (args : ReplSetRequestVotesArgs) (lastApplied : OpTime) (n : Node)
    : outcome (ReplSetRequestVotesResponse * Node) :=
  r ← on_topo (processReplSetRequestVotes args lastApplied) n;
  let '(response, n) := r in
  Ret (response,
       if negb (va_dryRun args) && vr_voteGranted response
       then n <| nd_unstored := mkLastVote (va_term args) (va_candidateIndex args) :: nd_unstored n |>
       else n).
(** The vote is sent only when its record is safe. *)
Definition finish_vote (stored : bool) (lastVote : LastVote) (n : Node) : Status * Node :=
  if stored then (OK tt, n <| nd_stored := storeLocalLastVoteDocument lastVote (nd_stored n) |>)
  else (Err OtherError, n).

(** *** Standing for election *)

(** The guard that gives the candidacy up unless it is dismissed. *)
Definition lose (n : Node) : outcome Node := r ← on_topo processLoseElection n; Ret r.2.

(** The dry run: the vote requester, when one is started. *)
Definition _startElectSelfV1 (rsConfigState : ConfigState) (eventsMade : bool) (lastOpTime : OpTime)
    (n : Node) : outcome (option VoteRequesterAlgorithm * Node) :=
  match rsConfigState with
  | kConfigSteady =>
      if negb eventsMade then Ret (None, n)
      else
        let t := nd_topo n in
        self ← getMemberAt t (_selfIndex t);
        check 125 (MC.isElectable self) ;;
        if OT.eqb lastOpTime OT.null then n ← lose n; Ret (None, n)
        else Ret (Some (Vote.Algorithm (_rsConfig t) (_selfIndex t) (_term t) true lastOpTime), n)
  | kConfigInitiating | kConfigReconfiguring | kConfigHBReconfiguring =>
      n ← lose n; Ret (None, n)
  | _ => Abort 107
  end.

(** The dry run succeeded: a new term, and our vote in it. *)
Definition _onDryRunComplete (originalTerm : Z) (endResult : VoteResult) (now : Z) (n : Node)
    : outcome Node :=
  if negb (_term (nd_topo n) =? originalTerm) then lose n
  else if negb (bool_decide (endResult = kSuccessfullyElected)) then lose n
  else
    let newTerm := originalTerm + 1 in
    r ← on_topo (_updateTerm_incallback newTerm now) n;
    let '(updateTermResult, n) := r in
    check 192 (bool_decide (updateTermResult = Some kUpdatedTerm)) ;;
    r ← on_topo voteForMyselfV1 n;
    let n := r.2 in
    Ret (n <| nd_unstored := mkLastVote newTerm (_selfIndex (nd_topo n)) :: nd_unstored n |>).

Definition _startVoteRequester (newTerm : Z) (lastOpTime : OpTime) (n : Node)
    : outcome (option VoteRequesterAlgorithm * Node) :=
  let t := nd_topo n in
  if negb (_term t =? newTerm) then n ← lose n; Ret (None, n)
  else Ret (Some (Vote.Algorithm (_rsConfig t) (_selfIndex t) newTerm false lastOpTime), n).
Definition _writeLastVoteForMyElection (lastVote : LastVote) (stored : bool) (lastOpTime : OpTime)
    (n : Node) : outcome (option VoteRequesterAlgorithm * Node) :=
  if negb stored then n ← lose n; Ret (None, n)
  else
    _startVoteRequester (lv_term lastVote) lastOpTime
      (n <| nd_stored := storeLocalLastVoteDocument lastVote (nd_stored n) |>).
(** [true]: we have become primary. *)
Definition _onVoteRequestComplete (newTerm : Z) (endResult : VoteResult) (electionId : Z)
    (electionTime : Timestamp) (n : Node) : outcome (bool * Node) :=
  if negb (_term (nd_topo n) =? newTerm) then n ← lose n; Ret (false, n)
  else if negb (bool_decide (endResult = kSuccessfullyElected)) then n ← lose n; Ret (false, n)
  else
    check 2753 (negb (_term (nd_topo n) =? OT.kUninitializedTerm)) ;;
    r ← on_topo (processWinElection electionId electionTime) n;
    Ret (true, r.2).

(** *** Restart: what is left is what was on disk *)
Definition restored_term (localConfig : ReplSetConfig) (lastOpTime : OpTime)
    (lastVote : option LastVote) : Z :=
  if _protocolVersion localConfig =? 1 then
    match lastVote with
    | Some v => if ot_term lastOpTime <? lv_term v then lv_term v else ot_term lastOpTime
    | None => ot_term lastOpTime
    end
  else OT.kUninitializedTerm.
Definition startup (localConfig : ReplSetConfig) (myIndex : Z) (lastOpTime : OpTime) (now : Z)
    (lastVote : option LastVote) : TM (option UpdateTermResult) :=
  match lastVote with
  | Some v => loadLastVote v
  | None => mret tt
  end ;;
  updateConfig localConfig myIndex now lastOpTime ;;
  _updateTerm_incallback (restored_term localConfig lastOpTime lastVote) now.
Definition restart (localConfig : ReplSetConfig) (myIndex : Z) (lastOpTime : OpTime) (now : Z)
    (n : Node) : outcome Node :=
  r ← startup localConfig myIndex lastOpTime now (nd_stored n) (initial (_options (nd_topo n)));
  Ret (mkNode r.2 (nd_stored n) [] []).

(** ** One vote per term: the invariant of a node *)

(** Node [n] has voted for [x] in term [T]: in memory, on disk or in an answer it sent,
    of which [G] is the record. *)
Definition voted (n : Node) (G : Z → Z → Prop) (T x : Z) : Prop :=
  mkLastVote T x = _lastVote (nd_topo n) ∨ nd_stored n = Some (mkLastVote T x) ∨
  mkLastVote T x ∈ nd_unstored n ∨ G T x.

Record NodeInv (c : ReplSetConfig) (i : Z) (n : Node) (G : Z → Z → Prop) : Prop := mkNodeInv {
  ni_config : _rsConfig (nd_topo n) = c;
  ni_self : _selfIndex (nd_topo n) = i;
  ni_term : lv_term (_lastVote (nd_topo n)) ≤ _term (nd_topo n);
  ni_pending : ∀ args, args ∈ nd_pending n → va_term args ≤ _term (nd_topo n);
  ni_bound : ∀ T x, voted n G T x → T ≤ lv_term (_lastVote (nd_topo n));
  ni_stored : ∀ T x, G T x → ∃ s, nd_stored n = Some s ∧ T ≤ lv_term s;
  ni_once : ∀ T x y, voted n G T x → voted n G T y → x = y }.

Section node.
Context (c : ReplSetConfig) (i : Z).
Implicit Types (n : Node) (G : Z → Z → Prop).

Lemma NodeInv_frame n G t' :
  vote_frame (nd_topo n) t' → NodeInv c i n G → NodeInv c i (n <| nd_topo := t' |>) G.
Proof.
  intros [Hv Ht Hc Hs] []. split; unfold voted in *; simpl; rewrite ?Hv; try congruence; try done; [lia|].
  intros args Hin. specialize (ni_pending0 args Hin). lia.
Qed.

(** A vote in a term above every earlier one. *)
Lemma NodeInv_vote n G t' T x :
  NodeInv c i n G → _lastVote t' = mkLastVote T x → lv_term (_lastVote (nd_topo n)) < T →
  T ≤ _term t' → _term (nd_topo n) ≤ _term t' → _rsConfig t' = c → _selfIndex t' = i →
  NodeInv c i (n <| nd_topo := t' |> <| nd_unstored := mkLastVote T x :: nd_unstored n |>) G.
Proof.
  intros HI Hv Hgt HT Hle Hc Hs. destruct HI as [_ _ Hnt Hnp Hnb Hns Hno].
  assert (∀ T' x', voted (n <| nd_topo := t' |> <| nd_unstored := mkLastVote T x :: nd_unstored n |>) G T' x' →
    (T' = T ∧ x' = x) ∨ (T' < T ∧ voted n G T' x')) as Hcase.
  { intros T' x' H. unfold voted in H. simpl in H. rewrite Hv in H.
    assert (voted n G T' x' → T' < T) as Hb by (intros ?%Hnb; lia).
    destruct H as [[= -> ->]|[H|[H|H]]]; [by left| | |].
    - right. assert (voted n G T' x') by (right; by left). auto.
    - apply elem_of_cons in H as [[= -> ->]|H]; [by left|right].
      assert (voted n G T' x') by (right; right; by left). auto.
    - right. assert (voted n G T' x') by (right; right; by right). auto. }
  split; simpl; [done|done|by rewrite Hv| | |done|].
  - intros args Hin. specialize (Hnp args Hin). lia.
  - intros T' x' H. rewrite Hv. simpl. destruct (Hcase T' x' H) as [[-> _]|[? _]]; lia.
  - intros T' x' y' Hx Hy. destruct (Hcase _ _ Hx) as [[-> ->]|[? ?]], (Hcase _ _ Hy) as [[? ->]|[? ?]];
      [done|lia|lia|eauto].
Qed.

Lemma store_cases v stored s :
  storeLocalLastVoteDocument v stored = Some s → s = v ∨ (stored = Some s ∧ lv_term v ≤ lv_term s).
Proof.
  unfold storeLocalLastVoteDocument. destruct stored as [old|]; [|intros [= <-]; auto].
  destruct (Z.ltb_spec (lv_term old) (lv_term v)); intros [= <-]; auto.
Qed.
Lemma store_ge v stored :
  ∃ s, storeLocalLastVoteDocument v stored = Some s ∧ lv_term v ≤ lv_term s ∧
    ∀ old, stored = Some old → lv_term old ≤ lv_term s.
Proof.
  unfold storeLocalLastVoteDocument. destruct stored as [old|].
  - destruct (Z.ltb_spec (lv_term old) (lv_term v)); eexists; (split; [done|]); split; try lia;
      intros ? [= <-]; lia.
  - eexists. split; [done|]. split; [lia|]. done.
Qed.

(** Writing a vote and sending it. *)
Lemma NodeInv_store n G v :
  v ∈ nd_unstored n → NodeInv c i n G →
  NodeInv c i (n <| nd_stored := storeLocalLastVoteDocument v (nd_stored n) |>)
    (λ T x, (T = lv_term v ∧ x = lv_candidateIndex v) ∨ G T x).
Proof.
  intros Hv [Hnc Hsf Hnt Hnp Hnb Hns Hno].
  assert (∀ T x, voted (n <| nd_stored := storeLocalLastVoteDocument v (nd_stored n) |>)
    (λ T x, (T = lv_term v ∧ x = lv_candidateIndex v) ∨ G T x) T x → voted n G T x) as Hsub.
  { intros T x [H|[H|[H|[[-> ->]|H]]]]; simpl in *; [by left| |by right; right; left| |by do 3 right].
    - apply store_cases in H as [<-|[? _]]; [by right; right; left|by right; left].
    - right; right; left. by destruct v. }
  split; simpl; [done|done|done|done|eauto| |eauto].
  destruct (store_ge v (nd_stored n)) as (s & Hs & Hge & Hold).
  intros T x [[-> _]|H]; exists s; (split; [done|]); [done|].
  destruct (Hns T x H) as (old & Ho & ?). specialize (Hold old Ho). lia.
Qed.

Lemma on_topo_Ret {A} (m : TM A) n a n' :
  on_topo m n = Ret (a, n') → ∃ t', m (nd_topo n) = Ret (a, t') ∧ n' = n <| nd_topo := t' |>.
Proof. unfold on_topo. destruct (m (nd_topo n)) as [[a' t']|]; [|done]. intros [= <- <-]. eauto. Qed.
Lemma on_topo_keeps {A} (m : TM A) n G a n' :
  keeps m → on_topo m n = Ret (a, n') → NodeInv c i n G → NodeInv c i n' G.
Proof.
  intros Hk (t' & Hm & ->)%on_topo_Ret HI. apply NodeInv_frame; [by eapply Hk|done].
Qed.
Lemma keeps_lose : keeps processLoseElection.
Proof. unfold processLoseElection. keeps. Qed.
Lemma lose_NodeInv n G n' : lose n = Ret n' → NodeInv c i n G → NodeInv c i n' G.
Proof.
  unfold lose. destruct (on_topo processLoseElection n) as [[[] n1]|] eqn:E; [|done].
  intros [= <-]. eapply on_topo_keeps; [apply keeps_lose|done].
Qed.

(** Unless it makes a primary step down, taking a term into account reaches it. *)
Lemma keeps_updateTerm_incallback term now : keeps (_updateTerm_incallback term now).
Proof. unfold _updateTerm_incallback, prepareForStepDown. keeps. Qed.
Lemma updateTerm_incallback_reaches term now t r t' :
  _updateTerm_incallback term now t = Ret (Some r, t') → r ≠ kTriggerStepDown → term ≤ _term t'.
Proof.
  unfold _updateTerm_incallback, updateTerm, mbind, M_bind, gets, reads, modify, mret, M_ret.
  destruct (isV1ElectionProtocol t); [|done]. cbn [negb].
  destruct (Z.leb_spec term (_term t)); [by intros [= <- <-]|].
  destruct (_iAmPrimary _) as [[]|]; [|by intros [= <- <-] _|done].
  rewrite bool_decide_true by done. unfold prepareForStepDown, modify. by intros [= <- <-].
Qed.
Lemma not_leader_not_primary t : _role t ≠ leader → _iAmPrimary t = Ret false.
Proof. intros Hr. unfold _iAmPrimary, role_eqb. by rewrite bool_decide_false. Qed.
Lemma updateTerm_incallback_follower term now t r t' :
  _updateTerm_incallback term now t = Ret (r, t') → isV1ElectionProtocol t = true →
  (_role t ≠ leader ∨ term ≤ _term t) → term ≤ _term t'.
Proof.
  unfold _updateTerm_incallback, updateTerm, mbind, M_bind, gets, reads, modify, mret, M_ret.
  intros H Hv Hr. rewrite Hv in H. cbn [negb] in H. revert H.
  destruct (Z.leb_spec term (_term t)); [by intros [= <- <-]|].
  rewrite not_leader_not_primary by (simpl; destruct Hr; [done|lia]). by intros [= <- <-].
Qed.

Lemma begin_NodeInv n G args now st n' :
  begin_vote_request args now n = Ret (st, n') →
  (_role (nd_topo n) ≠ leader ∨ va_term args ≤ _term (nd_topo n)) →
  NodeInv c i n G → NodeInv c i n' G.
Proof.
  unfold begin_vote_request, coord_updateTerm. intros H Hr HI.
  destruct (isV1ElectionProtocol (nd_topo n)) eqn:Hv; cbn [negb] in H; [|by injection H as <- <-].
  destruct (on_topo _ n) as [[st1 n1]|] eqn:E; [|done].
  assert (NodeInv c i n1 G ∧ va_term args ≤ _term (nd_topo n1)) as [HI1 Ht].
  { split.
    - eapply on_topo_keeps; [|exact E|done]. pose proof (keeps_updateTerm_incallback (va_term args) now). keeps.
    - apply on_topo_Ret in E as (t' & E & ->). unfold mbind, M_bind, mret, M_ret in E.
      destruct (_updateTerm_incallback _ _ _) as [[r t1]|] eqn:Eu; [|done]. injection E as <- <-.
      by eapply updateTerm_incallback_follower. }
  assert (NodeInv c i (n1 <| nd_pending := args :: nd_pending n1 |>) G) as HI2.
  { destruct HI1. split; try done. simpl. intros a [->|?]%elem_of_cons; auto. }
  cbn [mbind outcome_bind] in H. destruct st1 as [|[]]; injection H as <- <-; done.
Qed.

(** The outcome of deciding a vote, whatever the state. *)
Lemma processReplSetRequestVotes_shape args la t r t' :
  processReplSetRequestVotes args la t = Ret (r, t') →
  (t' = t ∧ negb (va_dryRun args) && vr_voteGranted r = false) ∨
  (t' = t <| _lastVote := mkLastVote (va_term args) (va_candidateIndex args) |> ∧
   va_dryRun args = false ∧ vr_voteGranted r = true ∧ _term t ≤ va_term args ∧
   lv_term (_lastVote t) ≠ va_term args).
Proof.
  unfold processReplSetRequestVotes, mbind, M_bind, gets, reads, modify, mret, M_ret, id.
  assert (∀ b, b && vr_voteGranted (mkVoteResponse (_term t) false) = false) as Hno by (intros []; done).
  destruct (Z.ltb_spec (va_term args) (_term t)); [intros [= <- <-]; auto|].
  destruct (negb _); [intros [= <- <-]; auto|]. destruct (negb _); [intros [= <- <-]; auto|].
  destruct (OT.ltb _ _); [intros [= <- <-]; auto|].
  destruct (negb (va_dryRun args) && _) eqn:Hvoted.
  { destruct (getMemberAt _ _); [|done]. intros [= <- <-]. auto. }
  destruct (_findHealthyPrimaryOfEqualOrGreaterPriority _ _); [|done].
  destruct (_selfConfig t); [|done].
  destruct (MC.isArbiter _ && _); [destruct (getMemberAt _ _); [|done]; intros [= <- <-]; auto|].
  destruct (va_dryRun args); cbn [negb andb] in *; intros [= <- <-]; [by left|].
  right. apply Z.eqb_neq in Hvoted. auto.
Qed.

Lemma decide_NodeInv n G args la r n' :
  decide_vote args la n = Ret (r, n') → args ∈ nd_pending n → NodeInv c i n G → NodeInv c i n' G.
Proof.
  unfold decide_vote. intros H Hin HI. destruct (on_topo _ n) as [[r1 n1]|] eqn:E; [|done].
  apply on_topo_Ret in E as (t' & E & ->). apply Ret_pair_inj in H as [-> <-].
  pose proof (ni_pending c i n G HI args Hin). pose proof (ni_term c i n G HI).
  apply processReplSetRequestVotes_shape in E as [[-> ->]|(-> & -> & -> & Hle & Hne)].
  - by apply NodeInv_frame.
  - apply (NodeInv_vote n G); simpl; [done|done|lia|lia|lia|by destruct HI..].
Qed.

Lemma dry_run_NodeInv n G T res now n' :
  _onDryRunComplete T res now n = Ret n' → NodeInv c i n G → NodeInv c i n' G.
Proof.
  unfold _onDryRunComplete. intros H HI.
  destruct (Z.eqb_spec (_term (nd_topo n)) T) as [HT|]; cbn [negb] in H; [|by eapply lose_NodeInv].
  case_bool_decide; cbn [negb] in H; [|by eapply lose_NodeInv].
  destruct (on_topo (_updateTerm_incallback (T + 1) now) n) as [[ur n1]|] eqn:E1; [|done].
  cbn [mbind outcome_bind] in H. unfold check in H. case_bool_decide as Hur; [|done]. subst ur.
  cbn [mbind outcome_bind] in H. unfold on_topo at 1 in H. simpl in H. injection H as <-.
  pose proof E1 as (t1 & Hu & ->)%on_topo_Ret. pose proof (ni_term c i n G HI).
  pose proof (updateTerm_incallback_reaches _ _ _ _ _ Hu ltac:(done)).
  destruct (keeps_updateTerm_incallback _ _ _ _ _ Hu) as [Hv Hle Hc Hs].
  assert (_term t1 = T + 1) as Hterm.
  { revert Hu. unfold _updateTerm_incallback, updateTerm, mbind, M_bind, gets, reads, modify, mret, M_ret.
    destruct (isV1ElectionProtocol _); [|done]. cbn [negb].
    destruct (_ <=? _); [by intros [= <-]|].
    destruct (_iAmPrimary _) as [[]|]; [|by intros [= <-]|done].
    rewrite bool_decide_true by done. done. }
  pose proof HI as [Hnc Hns]. simpl in *.
  pose proof (NodeInv_vote n G (t1 <| _lastVote := mkLastVote (_term t1) (_selfIndex t1) |>)
    (T + 1) (_selfIndex t1) HI) as Hvote. simpl in Hvote.
  apply Hvote; [by rewrite Hterm|lia|lia|lia|congruence..].
Qed.

Lemma updateConfig_first cfg idx now lo t t' :
  _role t = follower → _isInitialized (_rsConfig t) = false → _protocolVersion cfg = 1 →
  updateConfig cfg idx now lo t = Ret (tt, t') →
  _lastVote t' = _lastVote t ∧ _term t' = OT.kInitialTerm ∧ _rsConfig t' = cfg ∧
  _selfIndex t' = idx ∧ _role t' ≠ leader.
Proof.
  intros Hr Hi Hp. unfold updateConfig, _updateHeartbeatDataForReconfig, become_candidate_if_single,
    mbind, M_bind, invariant, gets, reads, modify, mret, M_ret, role_eqb.
  destruct t. simpl in *. subst. rewrite (bool_decide_false (follower = candidate)) by done. simpl.
  destruct (idx <? _); [|done]. simpl. rewrite Hi. simpl. rewrite Hp. simpl.
  destruct (_isElectableNodeInSingleNodeReplicaSet _) as [[]|]; [| |done];
    intros [= <-]; simpl; split_and!; done.
Qed.

Lemma restart_NodeInv n G lastOp now n' :
  _protocolVersion c = 1 → restart c i lastOp now n = Ret n' →
  NodeInv c i n G → NodeInv c i n' G.
Proof.
  intros Hp H HI. unfold restart in H.
  destruct (startup _ _ _ _ _ _) as [[r t']|] eqn:E; [|done]. simpl in H. injection H as <-.
  set (t0 := initial (_options (nd_topo n))) in *.
  set (t1 := match nd_stored n with Some v => t0 <| _lastVote := v |> | None => t0 end).
  assert ((match nd_stored n with Some v => loadLastVote v | None => mret tt end) t0 = Ret (tt, t1)) as Hload.
  { subst t1. by destruct (nd_stored n). }
  unfold startup, mbind, M_bind in E. rewrite Hload in E.
  destruct (updateConfig c i now lastOp t1) as [[[] t2]|] eqn:Eu; [|done].
  apply updateConfig_first in Eu as (Hv2 & Ht2 & Hc2 & Hs2 & Hr2);
    [|by subst t1; destruct (nd_stored n)..|done].
  assert (isV1ElectionProtocol t2 = true) as Hv1 by (unfold isV1ElectionProtocol; by rewrite Hc2, Hp).
  pose proof (updateTerm_incallback_follower _ _ _ _ _ E Hv1 ltac:(by left)) as Hreach.
  destruct (keeps_updateTerm_incallback _ _ _ _ _ E) as [Hv Hle Hc Hs].
  assert (lv_term (_lastVote t') ≤ _term t') as Hterm.
  { rewrite Hv, Hv2. subst t1. unfold restored_term in Hreach. rewrite Hp in Hreach. simpl in Hreach.
    destruct (nd_stored n) as [v|]; simpl; [|rewrite Ht2 in Hle; done].
    destruct (Z.ltb_spec (ot_term lastOp) (lv_term v)); lia. }
  assert (∀ T x, voted (mkNode t' (nd_stored n) [] []) G T x →
    voted n G T x ∨ (nd_stored n = None ∧ T = 0)) as Hsub.
  { intros T x. unfold voted. simpl. rewrite Hv, Hv2. subst t1. intros [HT|[?|[[]%elem_of_nil|?]]]; auto 6.
    destruct (nd_stored n) eqn:Es; simpl in HT; [left; right; left; by subst|].
    right. split; [done|]. by injection HT. }
  assert (nd_stored n = None → ∀ T x, voted (mkNode t' (nd_stored n) [] []) G T x →
    mkLastVote T x = _lastVote t') as Hnone.
  { intros Hn T x [?|[?|[?%elem_of_nil|HG]]]; [done|simpl in *; congruence|done|].
    destruct (ni_stored c i n G HI T x HG) as (s & ? & _). congruence. }
  split; simpl; try congruence; try done.
  - by intros args ?%elem_of_nil.
  - intros T x Hx. destruct (nd_stored n) as [v|] eqn:Es.
    + rewrite Hv, Hv2. subst t1. simpl. destruct Hx as [Hx|[Hx|[?%elem_of_nil|HG]]]; [|simpl in Hx|done|].
      * simpl in Hx. rewrite Hv, Hv2 in Hx. simpl in Hx. by rewrite <-Hx.
      * by injection Hx as ->.
      * destruct (ni_stored c i n G HI T x HG) as (s & Hs' & ?). congruence.
    + rewrite <-(Hnone eq_refl T x Hx). done.
  - apply (ni_stored c i n G HI).
  - intros T x y Hx Hy. destruct (nd_stored n) as [v|] eqn:Es.
    + destruct (Hsub T x Hx) as [?|[? _]], (Hsub T y Hy) as [?|[? _]]; try done.
      by eapply (ni_once c i n G HI).
    + pose proof (Hnone eq_refl T x Hx) as H1. pose proof (Hnone eq_refl T y Hy) as H2. congruence.
Qed.
End node.

(** ** Counting the votes of a campaign *)
Lemma filter_positions {X} (p : X → bool) (l : list X) :
  length (List.filter (λ h, from_option p false (l !! h)) (seq 0 (length l))) =
  length (List.filter p l).
Proof.
  induction l as [|x l IH] using rev_ind; [done|].
  rewrite length_app, Nat.add_comm. change (1 + length l)%nat with (S (length l)).
  rewrite seq_S, !List.filter_app, !length_app, <-IH. f_equal.
  - f_equal. apply List.filter_ext_in. intros h Hh%in_seq. rewrite lookup_app_l by lia. done.
  - simpl. rewrite lookup_app_r, Nat.sub_diag by lia. simpl. by destruct (p x).
Qed.
Lemma positions_le {X} (p : X → bool) (l : list X) (hs : list nat) :
  NoDup hs → (∀ h, h ∈ hs → ∃ x, l !! h = Some x ∧ p x = true) → vsize hs ≤ count_if p l.
Proof.
  intros Hnd Hp. unfold count_if, vsize. apply inj_le. rewrite <-filter_positions.
  apply submseteq_length, NoDup_submseteq; [done|]. intros h Hh.
  destruct (Hp h Hh) as (x & Hx & Hpx). apply list_elem_of_In, List.filter_In.
  rewrite Hx. simpl. split; [|done]. apply in_seq. apply lookup_lt_Some in Hx. lia.
Qed.
Lemma count_if_filter {X} (p q : X → bool) (l : list X) :
  count_if p (List.filter q l) = count_if (λ x, q x && p x) l.
Proof.
  induction l as [|x l IH]; [done|]. simpl. rewrite (count_if_cons (λ x, q x && p x)), <-IH.
  destruct (q x); simpl; [by rewrite count_if_cons|lia].
Qed.

Definition is_yes (r : ResponseStatus (StatusWith ReplSetRequestVotesResponse)) : bool :=
  match r with Reply (OK v) => vr_voteGranted v | _ => false end.
Lemma gather_votes a answers a' :
  Runner.gather a answers = Ret a' →
  vq_rsConfig a' = vq_rsConfig a ∧
  vq_votes a' ≤ vq_votes a + count_if (λ x, is_yes x.2) answers.
Proof.
  revert a. induction answers as [|[h r] answers IH]; intros a; simpl;
    destruct (Vote.hasReceivedSufficientResponses a).
  1,2: intros [= <-]; unfold count_if, vsize; simpl; split; [done|lia].
  { intros [= <-]. pose proof (count_if_nonneg (λ x, is_yes x.2) ((h, r) :: answers)). split; [done|lia]. }
  intros [Hc Hv]%IH. rewrite count_if_cons. revert Hc Hv. simpl.
  destruct r as [e|[v|e]]; simpl; [intros; split; [done|lia]| |intros; split; [done|lia]].
  destruct (vr_voteGranted v); simpl; destruct (_ <? _); simpl; intros; split; try done; lia.
Qed.
Lemma answers_yes targets arrivals :
  count_if (λ x, is_yes x.2) (Runner.answers_of targets arrivals) ≤
  vsize (List.filter (λ x, is_yes x.2) arrivals).
Proof.
  unfold Runner.answers_of. induction arrivals as [|[h r] arrivals IH]; [done|]. csimpl.
  destruct (targets !! h) as [x|]; csimpl.
  - rewrite count_if_cons. simpl. unfold vsize in *. destruct (is_yes r); simpl in *; lia.
  - unfold vsize in *. destruct (is_yes r); simpl in *; lia.
Qed.

(** ** A set of nodes *)

(** The nodes, by member index; the votes sent, as (term, voter, candidate); the campaigns
    under way; the elections won, as (term, winner). *)
Record Cluster := mkCluster {
  cl_nodes : list Node; cl_granted : list (Z * Z * Z);
  cl_campaigns : list (Z * VoteRequesterAlgorithm); cl_winners : list (Z * Z) }.
#[export] Instance Cluster_eta : Eta Cluster := λ cl,
  mkCluster (cl_nodes cl) (cl_granted cl) (cl_campaigns cl) (cl_winners cl).

(** The members a candidate asks, in the order of its requests. *)
Definition voter_entries (c : ReplSetConfig) (i : Z) : list (Z * MemberConfig) :=
  List.filter (λ im, MC.isVoter im.2 && negb (im.1 =? i)) (indexed (_members c)).

Section cluster.
Context (c : ReplSetConfig).

(** One step of node number [i].  [stepping_down] says whether a vote request of a newer
    term may reach a primary, which then steps down. *)
Inductive step (stepping_down : bool) (cl : Cluster) : Cluster → Prop :=
| step_begin i n args now st n' :
    cl_nodes cl !! i = Some n → begin_vote_request args now n = Ret (st, n') →
    (stepping_down = false → _role (nd_topo n) ≠ leader ∨ va_term args ≤ _term (nd_topo n)) →
    step stepping_down cl (cl <| cl_nodes := <[i := n']> (cl_nodes cl) |>)
| step_decide i n args lastApplied r n' :
    cl_nodes cl !! i = Some n → args ∈ nd_pending n → decide_vote args lastApplied n = Ret (r, n') →
    step stepping_down cl (cl <| cl_nodes := <[i := n']> (cl_nodes cl) |>)
| step_finish i n v n' :
    cl_nodes cl !! i = Some n → v ∈ nd_unstored n → finish_vote true v n = (OK tt, n') →
    step stepping_down cl
      (cl <| cl_nodes := <[i := n']> (cl_nodes cl) |>
          <| cl_granted := (lv_term v, Z.of_nat i, lv_candidateIndex v) :: cl_granted cl |>)
| step_dry_run i n originalTerm endResult now n' :
    cl_nodes cl !! i = Some n → _onDryRunComplete originalTerm endResult now n = Ret n' →
    step stepping_down cl (cl <| cl_nodes := <[i := n']> (cl_nodes cl) |>)
| step_campaign i n m v lastOpTime alg n' :
    cl_nodes cl !! i = Some n → RSC.getMemberAt c (Z.of_nat i) = Ret m → MC.isElectable m = true →
    v ∈ nd_unstored n → lv_candidateIndex v = Z.of_nat i →
    _writeLastVoteForMyElection v true lastOpTime n = Ret (Some alg, n') →
    step stepping_down cl
      (cl <| cl_nodes := <[i := n']> (cl_nodes cl) |>
          <| cl_granted := (lv_term v, Z.of_nat i, Z.of_nat i) :: cl_granted cl |>
          <| cl_campaigns := (Z.of_nat i, alg) :: cl_campaigns cl |>)
| step_complete i n alg arrivals r0 r electionId electionTime won n' :
    cl_nodes cl !! i = Some n → (Z.of_nat i, alg) ∈ cl_campaigns cl →
    Runner.start (OK tt) (λ _, OK tt) (Runner.new alg) = Ret (OK tt, r0) →
    Runner.deliver (vq_targets alg) arrivals r0 = Ret r →
    NoDup arrivals.*1 → (∀ h, h ∈ arrivals.*1 → h < length (vq_targets alg))%nat →
    Forall (λ x, Runner.is_canceled x.2 = false) arrivals →
    (* a yes comes from a node that sent it *)
    (∀ h answer, (h, answer) ∈ arrivals → is_yes answer = true →
       ∃ jm, voter_entries c (Z.of_nat i) !! h = Some jm ∧
             (vq_term alg, jm.1, Z.of_nat i) ∈ cl_granted cl) →
    _onVoteRequestComplete (vq_term alg) (Vote.getResult (Runner.rn_algorithm r)) electionId
      electionTime n = Ret (won, n') →
    step stepping_down cl
      (cl <| cl_nodes := <[i := n']> (cl_nodes cl) |>
          <| cl_winners := if (won : bool) then (vq_term alg, Z.of_nat i) :: cl_winners cl
                           else cl_winners cl |>)
| step_call i n call n' :
    cl_nodes cl !! i = Some n → vote_neutral call = true → on_topo (exec call) n = Ret (tt, n') →
    step stepping_down cl (cl <| cl_nodes := <[i := n']> (cl_nodes cl) |>)
| step_crash i n lastOp now n' :
    cl_nodes cl !! i = Some n → restart c (Z.of_nat i) lastOp now n = Ret n' →
    step stepping_down cl (cl <| cl_nodes := <[i := n']> (cl_nodes cl) |>).

(** Nodes of one configuration that have not taken part in an election yet. *)
Definition fresh_node (i : nat) (n : Node) : Prop :=
  _rsConfig (nd_topo n) = c ∧ _selfIndex (nd_topo n) = Z.of_nat i ∧
  lv_term (_lastVote (nd_topo n)) ≤ _term (nd_topo n) ∧
  nd_stored n = None ∧ nd_pending n = [] ∧ nd_unstored n = [].
Definition initial_cluster (cl : Cluster) : Prop :=
  (∀ i n, cl_nodes cl !! i = Some n → fresh_node i n) ∧
  cl_granted cl = [] ∧ cl_campaigns cl = [] ∧ cl_winners cl = [].

Inductive reachable (stepping_down : bool) (cl0 : Cluster) : Cluster → Prop :=
| reach_refl : reachable stepping_down cl0 cl0
| reach_step cl cl' : reachable stepping_down cl0 cl → step stepping_down cl cl' →
    reachable stepping_down cl0 cl'.

(** *** The invariant of the set *)

(** Member [m] voted for [x] in term [T]. *)
Definition votes_for (granted : list (Z * Z * Z)) (T x : Z) (im : Z * MemberConfig) : bool :=
  MC.isVoter im.2 && bool_decide ((T, im.1, x) ∈ granted).
Record ClusterInv (cl : Cluster) : Prop := mkClusterInv {
  ci_nodes : ∀ i n, cl_nodes cl !! i = Some n →
    NodeInv c (Z.of_nat i) n (λ T x, (T, Z.of_nat i, x) ∈ cl_granted cl);
  ci_voters : ∀ T v x, (T, v, x) ∈ cl_granted cl → ∃ i n, v = Z.of_nat i ∧ cl_nodes cl !! i = Some n;
  ci_campaigns : ∀ i alg, (i, alg) ∈ cl_campaigns cl →
    (∃ T lo, alg = Vote.Algorithm c i T false lo) ∧ (vq_term alg, i, i) ∈ cl_granted cl ∧
    ∃ m, RSC.getMemberAt c i = Ret m ∧ MC.isElectable m = true;
  ci_winners : ∀ T x, (T, x) ∈ cl_winners cl →
    _majorityVoteCount c ≤ count_if (votes_for (cl_granted cl) T x) (indexed (_members c)) }.

Lemma initial_ClusterInv cl : initial_cluster cl → ClusterInv cl.
Proof.
  intros (Hn & Hg & Hc & Hw). split; rewrite ?Hg, ?Hc, ?Hw.
  - intros i n Hi. destruct (Hn i n Hi) as (? & ? & ? & Hs & Hp & Hu). split; try done.
    + rewrite Hp. by intros args ?%elem_of_nil.
    + intros T x [H'|[H'|[H'|H']]]; [by rewrite <-H'|congruence|rewrite Hu in H'|];
        by apply elem_of_nil in H'.
    + by intros T x ?%elem_of_nil.
    + assert (∀ T x, voted n (λ T x, (T, Z.of_nat i, x) ∈ []) T x → mkLastVote T x = _lastVote (nd_topo n)) as Hv.
      { intros T x [H'|[H'|[H'|H']]]; [done|congruence|rewrite Hu in H'|]; by apply elem_of_nil in H'. }
      intros T x y Hx%Hv Hy%Hv. congruence.
  - by intros T v x ?%elem_of_nil.
  - by intros i alg ?%elem_of_nil.
  - by intros T x ?%elem_of_nil.
Qed.

Lemma NodeInv_ext i n (G G' : Z → Z → Prop) :
  (∀ T x, G T x ↔ G' T x) → NodeInv c i n G → NodeInv c i n G'.
Proof.
  intros HG []. assert (∀ T x, voted n G' T x → voted n G T x) as Hv.
  { intros T x. unfold voted. rewrite HG. done. }
  split; try done; [eauto| |eauto]. intros T x ?%HG. eauto.
Qed.

Lemma ClusterInv_node cl i n n' :
  ClusterInv cl → cl_nodes cl !! i = Some n →
  NodeInv c (Z.of_nat i) n' (λ T x, (T, Z.of_nat i, x) ∈ cl_granted cl) →
  ClusterInv (cl <| cl_nodes := <[i := n']> (cl_nodes cl) |>).
Proof.
  intros [Hn Hv Hc Hw] Hi Hn'. split; simpl; [| |done|done].
  - intros j m. rewrite list_lookup_insert_Some. intros [(<- & <- & _)|[_ ?]]; auto.
  - intros T v x Hg. destruct (Hv T v x Hg) as (j & m & -> & Hj). exists j.
    destruct (decide (i = j)) as [->|]; [exists n'|exists m]; (split; [done|]).
    + by apply list_lookup_insert_eq, lookup_lt_Some with n.
    + by rewrite list_lookup_insert_ne.
Qed.

Lemma ClusterInv_grant cl i n n' T x :
  ClusterInv cl → cl_nodes cl !! i = Some n →
  NodeInv c (Z.of_nat i) n' (λ T' x', (T' = T ∧ x' = x) ∨ (T', Z.of_nat i, x') ∈ cl_granted cl) →
  ClusterInv (cl <| cl_nodes := <[i := n']> (cl_nodes cl) |>
                 <| cl_granted := (T, Z.of_nat i, x) :: cl_granted cl |>).
Proof.
  intros [Hn Hv Hc Hw] Hi Hn'.
  assert (∀ y, y ∈ cl_granted cl → y ∈ (T, Z.of_nat i, x) :: cl_granted cl) as Hmono by (intros; by right).
  split; simpl.
  - intros j m. rewrite list_lookup_insert_Some. intros [(<- & <- & _)|[Hne Hj]].
    + eapply NodeInv_ext; [|exact Hn']. intros T' x'. simpl. rewrite elem_of_cons. naive_solver.
    + eapply NodeInv_ext; [|by apply Hn]. intros T' x'. simpl. rewrite elem_of_cons.
      split; [by right|]. intros [[= _ He _]|?]; [|done]. apply Nat2Z.inj in He. congruence.
  - intros T' v x' Hg.
    assert (∃ j m, v = Z.of_nat j ∧ cl_nodes cl !! j = Some m) as (j & m & -> & Hj).
    { apply elem_of_cons in Hg as [[= _ -> _]|Hg]; eauto. }
    exists j. destruct (decide (i = j)) as [->|]; [exists n'|exists m]; (split; [done|]).
    + by apply list_lookup_insert_eq, lookup_lt_Some with n.
    + by rewrite list_lookup_insert_ne.
  - intros j alg Hin. destruct (Hc j alg Hin) as (? & ? & ?). auto.
  - intros T' x' Hin. etransitivity; [by apply Hw|]. apply count_if_le. intros [j m] _.
    unfold votes_for. simpl. rewrite !andb_true_iff, !bool_decide_eq_true. naive_solver.
Qed.

(** A campaign that succeeds was backed by a majority of the voters. *)
Lemma campaign_majority i T lo m granted arrivals r0 r :
  Forall MC.valid (_members c) →
  RSC.getMemberAt c i = Ret m → MC.isElectable m = true → (T, i, i) ∈ granted → 0 ≤ i →
  let alg := Vote.Algorithm c i T false lo in
  Runner.start (OK tt) (λ _, OK tt) (Runner.new alg) = Ret (OK tt, r0) →
  Runner.deliver (vq_targets alg) arrivals r0 = Ret r →
  NoDup arrivals.*1 → (∀ h, h ∈ arrivals.*1 → h < length (vq_targets alg))%nat →
  Forall (λ x, Runner.is_canceled x.2 = false) arrivals →
  (∀ h answer, (h, answer) ∈ arrivals → is_yes answer = true →
     ∃ jm, voter_entries c i !! h = Some jm ∧ (T, jm.1, i) ∈ granted) →
  Vote.getResult (Runner.rn_algorithm r) = kSuccessfullyElected →
  _majorityVoteCount c ≤ count_if (votes_for granted T i) (indexed (_members c)).
Proof.
  intros Hval Hm Hel Hself Hi alg Hs Hr Hnd Hlt Hcan Hyes Hres.
  destruct (ElectionProps.runner_gather alg arrivals) as (r0' & r' & Hs' & Hr' & Hg & _);
    [done|unfold sg_outstanding; simpl; lia|done|done|done|].
  rewrite Hs in Hs'. injection Hs' as <-.
  change (sg_targets alg) with (vq_targets alg) in *. rewrite Hr in Hr'. injection Hr' as <-.
  apply gather_votes in Hg as [Hcfg Hv]. simpl in Hcfg, Hv.
  unfold Vote.getResult in Hres. destruct (vq_staleTerm _); [done|].
  destruct (Z.leb_spec (_majorityVoteCount (vq_rsConfig (Runner.rn_algorithm r)))
    (vq_votes (Runner.rn_algorithm r))) as [Hmaj|]; [|done]. rewrite Hcfg in Hmaj.
  pose proof (answers_yes (Vote.targets_of c i) arrivals) as Ha.
  set (hs := (List.filter (λ x, is_yes x.2) arrivals).*1).
  assert (vsize hs ≤ count_if (λ im, bool_decide ((T, im.1, i) ∈ granted)) (voter_entries c i)) as Hhs.
  { apply positions_le.
    - eapply sublist_NoDup; [exact Hnd|]. apply fmap_sublist. clear. induction arrivals as [|x l IH]; [done|].
      simpl. destruct (is_yes x.2); [by apply sublist_skip|by apply sublist_cons].
    - intros h ([h' answer] & -> & [Hin Hy]%list_elem_of_In%List.filter_In)%list_elem_of_fmap.
      destruct (Hyes h' answer) as (jm & ? & ?); [by apply list_elem_of_In|done|]. exists jm.
      split; [done|]. by apply bool_decide_eq_true. }
  assert (vsize hs = vsize (List.filter (λ x, is_yes x.2) arrivals)) as Hlen
    by (unfold hs, vsize; by rewrite length_fmap).
  apply vat_Ret in Hm as [_ Hm].
  assert (MC.isVoter m = true) as Hvoter.
  { rewrite Forall_forall in Hval. apply list_elem_of_lookup_2 in Hm.
    apply (RSC.electable_is_data_voter m (Hval m Hm)) in Hel. unfold RSC.isDataVoter in Hel.
    by apply andb_true_iff in Hel as [? _]. }
  assert ((i, m) ∈ indexed (_members c)) as Hin by (by apply elem_of_indexed).
  unfold voter_entries in Hhs. rewrite count_if_filter in Hhs.
  pose proof (count_if_pos (λ im, MC.isVoter im.2 && (im.1 =? i)) _ (i, m) Hin
    ltac:(simpl; by rewrite Hvoter, Z.eqb_refl)) as Hone.
  assert (count_if (λ im, MC.isVoter im.2 && negb (im.1 =? i) &&
                              bool_decide ((T, im.1, i) ∈ granted)) (indexed (_members c)) +
          count_if (λ im, MC.isVoter im.2 && (im.1 =? i)) (indexed (_members c)) ≤
          count_if (votes_for granted T i) (indexed (_members c))).
  { apply count_if_disjoint; unfold votes_for.
    - intros [j m'] _. simpl. destruct (MC.isVoter m'), (j =? i); done.
    - intros [j m'] _. simpl. rewrite !andb_true_iff. intros [-> ->%Z.eqb_eq].
      split; [done|]. by apply bool_decide_eq_true.
    - intros [j m'] _. simpl. destruct (MC.isVoter m'), (j =? i); done. }
  simpl in *. lia.
Qed.

Lemma write_vote_campaign v lo n alg n' :
  _writeLastVoteForMyElection v true lo n = Ret (Some alg, n') →
  alg = Vote.Algorithm (_rsConfig (nd_topo n)) (_selfIndex (nd_topo n)) (lv_term v) false lo ∧
  n' = n <| nd_stored := storeLocalLastVoteDocument v (nd_stored n) |>.
Proof.
  unfold _writeLastVoteForMyElection, _startVoteRequester. simpl.
  destruct (_ =? _); simpl; [by intros [= <- <-]|]. by destruct (lose _).
Qed.
Lemma keeps_processWinElection oid ts : keeps (processWinElection oid ts).
Proof. unfold processWinElection, setElectionInfo. keeps. Qed.
Lemma complete_NodeInv i T res oid ts n won n' G :
  _onVoteRequestComplete T res oid ts n = Ret (won, n') → NodeInv c i n G →
  NodeInv c i n' G ∧ (won = true → res = kSuccessfullyElected).
Proof.
  unfold _onVoteRequestComplete. intros H HI.
  assert ((n1 ← lose n; Ret (false, n1)) = Ret (won, n') → NodeInv c i n' G ∧ won = false) as Hlose.
  { destruct (lose n) as [n2|] eqn:E; [|done]. simpl. intros [= <- <-].
    split; [by eapply lose_NodeInv|done]. }
  destruct (negb _); [destruct (Hlose H) as [? ->]; by split|].
  case_bool_decide; cbn [negb] in H; [|destruct (Hlose H) as [? ->]; by split].
  unfold check in H. destruct (negb _); [|done]. cbn [mbind outcome_bind] in H.
  destruct (on_topo _ n) as [[[] n1]|] eqn:E; [|done]. simpl in H. injection H as <- <-.
  split; [|done]. eapply on_topo_keeps; [apply keeps_processWinElection|done..].
Qed.

Lemma step_ClusterInv cl cl' :
  Forall MC.valid (_members c) → _protocolVersion c = 1 →
  step false cl cl' → ClusterInv cl → ClusterInv cl'.
Proof.
  intros Hval Hpv Hstep HI. destruct Hstep as [i n args now st n' Hi Hb Hr|i n args la r n' Hi Hp Hd
    |i n v n' Hi Hv Hf|i n T res now n' Hi Hd|i n m v lo alg n' Hi Hm Hel Hv Hx Hw
    |i n alg arrivals r0 r oid ts won n' Hi Hc Hs Hr Hnd Hlt Hcan Hyes Hw|i n call n' Hi Hc Hx
    |i n lastOp now n' Hi Hr]; pose proof (ci_nodes cl HI i n Hi) as HN.
  - eapply ClusterInv_node; [done..|]. eapply begin_NodeInv; [done|by apply Hr|done].
  - eapply ClusterInv_node; [done..|]. by eapply decide_NodeInv.
  - injection Hf as <-. eapply ClusterInv_grant; [done..|]. by apply NodeInv_store.
  - eapply ClusterInv_node; [done..|]. by eapply dry_run_NodeInv.
  - apply write_vote_campaign in Hw as [-> ->].
    pose proof (NodeInv_store c _ n _ v Hv HN) as HS. rewrite Hx in HS.
    pose proof (ClusterInv_grant cl i n _ (lv_term v) (Z.of_nat i) HI Hi HS) as [H1 H2 H3 H4].
    split; [exact H1|exact H2| |exact H4]. simpl.
    intros j alg [[= -> ->]|Hin]%elem_of_cons; [|by apply H3].
    rewrite (ni_config _ _ _ _ HN), (ni_self _ _ _ _ HN). simpl. split_and!; [eauto|left|eauto].
  - destruct (ci_campaigns cl HI _ _ Hc) as ((T & lo & ->) & Hself & m & Hm & Hel).
    destruct (complete_NodeInv _ _ _ _ _ _ _ _ _ Hw HN) as [HN' Hwon].
    pose proof (ClusterInv_node cl i n n' HI Hi HN') as [H1 H2 H3 H4].
    split; [exact H1|exact H2|exact H3|]. simpl. destruct won; [|exact H4].
    intros T' x [[= -> ->]|Hin]%elem_of_cons; [|by apply H4].
    eapply campaign_majority; eauto. lia.
  - eapply ClusterInv_node; [done..|]. eapply on_topo_keeps; [by apply exec_keeps|done..].
  - eapply ClusterInv_node; [done..|]. by eapply restart_NodeInv.
Qed.

Lemma reachable_ClusterInv cl0 cl :
  Forall MC.valid (_members c) → _protocolVersion c = 1 → initial_cluster cl0 →
  reachable false cl0 cl → ClusterInv cl.
Proof.
  intros Hval Hpv Hinit. induction 1 as [|cl cl' _ IH Hs]; [by apply initial_ClusterInv|].
  by eapply step_ClusterInv.
Qed.

Lemma one_vote_per_term cl T v x y :
  ClusterInv cl → (T, v, x) ∈ cl_granted cl → (T, v, y) ∈ cl_granted cl → x = y.
Proof.
  intros HI Hx Hy. destruct (ci_voters cl HI T v x Hx) as (i & n & -> & Hi).
  apply (ni_once _ _ _ _ (ci_nodes cl HI i n Hi) T); by do 3 right.
Qed.
End cluster.


(** *** An election, step by step *)
Definition node_of {A} (r : outcome (A * Node)) (d : Node) : Node :=
  match r with Ret (_, n) => n | Abort _ => d end.
Definition ex_op : OpTime := mkOpTime (mkTimestamp 10 1) 1.
Definition ex_node (role : Role) (i : Z) : Node :=
  mkNode (example_topo <| _role := role |> <| _selfIndex := i |>) None [] [].
Definition ex_start : Cluster := mkCluster [ex_node candidate 0; ex_node follower 1] [] [] [].
Definition ex_alg : VoteRequesterAlgorithm := Vote.Algorithm RSC.example_config 0 2 false ex_op.
Definition ex_vote : LastVote := mkLastVote 2 0.
Definition ex_n0 : Node :=
  match _onDryRunComplete 1 kSuccessfullyElected 5000 (ex_node candidate 0) with
  | Ret n => n | Abort _ => ex_node candidate 0 end.
Definition ex_n0' : Node := node_of (_writeLastVoteForMyElection ex_vote true ex_op ex_n0) ex_n0.
Definition ex_n1 : Node := node_of (begin_vote_request (Vote.args_of ex_alg) 5000 (ex_node follower 1)) ex_n0.
Definition ex_n1' : Node := node_of (decide_vote (Vote.args_of ex_alg) ex_op ex_n1) ex_n1.
Definition ex_n1'' : Node := (finish_vote true ex_vote ex_n1').2.
Definition ex_n0'' : Node :=
  node_of (_onVoteRequestComplete 2 kSuccessfullyElected 7 (mkTimestamp 11 1) ex_n0') ex_n0'.
Definition ex_end : Cluster :=
  mkCluster [ex_n0''; ex_n1''] [(2, 1, 0); (2, 0, 0)] [(0, ex_alg)] [(2, 0)].

Lemma ex_initial : initial_cluster RSC.example_config ex_start.
Proof.
  split; [|done]. intros [|[|i]] n; [| |done]; intros [= <-]; split_and!; try done; vm_compute; congruence.
Qed.
Lemma reach_step_to c b cl0 cl cl' cl'' :
  reachable c b cl0 cl → step c b cl cl' → cl' = cl'' → reachable c b cl0 cl''.
Proof. intros ?? <-. by eapply reach_step. Qed.
(** Membership by computation. *)
Ltac in_by_computation := apply list_elem_of_In; vm_compute; auto.
Lemma ex_reachable : reachable RSC.example_config false ex_start ex_end.
Proof.
  eapply reach_step_to; [eapply reach_step; [eapply reach_step; [eapply reach_step; [eapply reach_step;
    [eapply reach_step; [apply reach_refl|]|]|]|]|]| |].
  - apply (step_dry_run _ _ _ 0 (ex_node candidate 0) 1 kSuccessfullyElected 5000 ex_n0); vm_compute; reflexivity.
  - eapply (step_campaign _ _ _ 0 ex_n0 _ ex_vote ex_op ex_alg ex_n0');
      [vm_compute; reflexivity..|in_by_computation|vm_compute; reflexivity|vm_compute; reflexivity].
  - eapply (step_begin _ _ _ 1 (ex_node follower 1) (Vote.args_of ex_alg) 5000 _ ex_n1);
      [vm_compute; reflexivity..|]. intros _. by left.
  - eapply (step_decide _ _ _ 1 ex_n1 (Vote.args_of ex_alg) ex_op _ ex_n1');
      [vm_compute; reflexivity|in_by_computation|vm_compute; reflexivity].
  - apply (step_finish _ _ _ 1 ex_n1' ex_vote ex_n1'');
      [vm_compute; reflexivity|in_by_computation|vm_compute; reflexivity].
  - eapply (step_complete _ _ _ 0 ex_n0' ex_alg [(0%nat, Reply (OK (mkVoteResponse 2 true)))] _ _ 7
      (mkTimestamp 11 1) true ex_n0''); [vm_compute; reflexivity|in_by_computation|vm_compute; reflexivity..| | | | |].
    + repeat constructor; by intros ?%elem_of_nil.
    + intros h [->|?%elem_of_nil]%elem_of_cons; [vm_compute; lia|done].
    + repeat constructor.
    + intros h answer [[= -> ->]|?%elem_of_nil]%elem_of_cons _; [|done].
      eexists. split; [vm_compute; reflexivity|in_by_computation].
    + vm_compute. reflexivity.
  - vm_compute. reflexivity.
Qed.


(** C2. With votes requested only of nodes that are not a primary of an older term, a node never
    sends votes for two candidates of one term, although the vote is decided and recorded in
    separate stages, several requests are handled at once and a crash leaves only the document on
    disk. (Without the condition it can: [stepping_down_primary_votes_twice] below.) *)
Theorem node_votes_once_per_term p c cl0 cl T v x y :
  RSC.valid_config p c → _protocolVersion c = 1 →
  initial_cluster c cl0 → reachable c false cl0 cl →
  (T, v, x) ∈ cl_granted cl → (T, v, y) ∈ cl_granted cl → x = y.
Proof.
  intros (_ & _ & _ & _ & Hval & _) Hpv Hinit Hreach Hx Hy.
  eapply one_vote_per_term; [by eapply reachable_ClusterInv|done..].
Qed.
Lemma node_votes_once_per_term_witness :
  (2, 1, 0) ∈ cl_granted ex_end ∧ ∀ y, (2, 1, y) ∈ cl_granted ex_end → 0 = y.
Proof.
  split; [left|]. intros y Hy.
  apply (node_votes_once_per_term RSC.example_params RSC.example_config ex_start ex_end 2 1 0 y).
  - exact RSC.example_valid.
  - reflexivity.
  - exact ex_initial.
  - exact ex_reachable.
  - left.
  - exact Hy.
Defined.

(** *** The vote of a primary that steps down

    [updateTerm] does not record the new term when the node is primary: it only starts the
    step-down.  The vote that follows is granted in the request's term while the node's own term
    stays behind, so a request of a term in between is granted too and overwrites [_lastVote];
    a second request of the first term then gets a second vote. *)
Definition dv_args (term candidate : Z) : ReplSetRequestVotesArgs :=
  mkVoteArgs (RSC.str "rs0") term candidate 1 ex_op false.
Definition dv_primary : Node :=
  mkNode (example_topo <| _role := leader |> <| _currentPrimaryIndex := 0 |>) None [] [].
Definition dv_start : Cluster := mkCluster [dv_primary] [] [] [].
Definition dv_request (term candidate : Z) (n : Node) : Node :=
  node_of (begin_vote_request (dv_args term candidate) 5000 n) n.
Definition dv_decide (term candidate : Z) (n : Node) : Node :=
  node_of (decide_vote (dv_args term candidate) ex_op n) n.
Definition dv1 : Node := dv_request 3 1 dv_primary.
Definition dv2 : Node := node_of (on_topo (exec CStepDownIfPending) dv1) dv1.
Definition dv3 : Node := dv_decide 3 1 dv2.
Definition dv4 : Node := (finish_vote true (mkLastVote 3 1) dv3).2.
Definition dv5 : Node := dv_request 2 2 dv4.
Definition dv6 : Node := dv_decide 2 2 dv5.
Definition dv7 : Node := dv_request 3 2 dv6.
Definition dv8 : Node := dv_decide 3 2 dv7.
Definition dv9 : Node := (finish_vote true (mkLastVote 3 2) dv8).2.
Lemma stepping_down_primary_votes_twice :
  initial_cluster RSC.example_config dv_start ∧
  ∃ cl, reachable RSC.example_config true dv_start cl ∧
    (3, 0, 1) ∈ cl_granted cl ∧ (3, 0, 2) ∈ cl_granted cl.
Proof.
  split.
  { split; [|done]. intros [|i] n; [|done]. intros [= <-]. split_and!; try done; vm_compute; congruence. }
  eexists. split.
  - eapply reach_step; [eapply reach_step; [eapply reach_step;
      [eapply reach_step; [eapply reach_step; [eapply reach_step;
      [eapply reach_step; [eapply reach_step; [eapply reach_step; [apply reach_refl|]|]|]|]|]|]|]|]|].
    + eapply (step_begin _ _ _ 0 dv_primary (dv_args 3 1) 5000 _ dv1); [..|done]; vm_compute; reflexivity.
    + apply (step_call _ _ _ 0 dv1 CStepDownIfPending dv2); vm_compute; reflexivity.
    + eapply (step_decide _ _ _ 0 dv2 (dv_args 3 1) ex_op _ dv3); [|in_by_computation|]; vm_compute; reflexivity.
    + apply (step_finish _ _ _ 0 dv3 (mkLastVote 3 1) dv4); [|in_by_computation|]; vm_compute; reflexivity.
    + eapply (step_begin _ _ _ 0 dv4 (dv_args 2 2) 5000 _ dv5); [..|done]; vm_compute; reflexivity.
    + eapply (step_decide _ _ _ 0 dv5 (dv_args 2 2) ex_op _ dv6); [|in_by_computation|]; vm_compute; reflexivity.
    + eapply (step_begin _ _ _ 0 dv6 (dv_args 3 2) 5000 _ dv7); [..|done]; vm_compute; reflexivity.
    + eapply (step_decide _ _ _ 0 dv7 (dv_args 3 2) ex_op _ dv8); [|in_by_computation|]; vm_compute; reflexivity.
    + apply (step_finish _ _ _ 0 dv8 (mkLastVote 3 2) dv9); [|in_by_computation|]; vm_compute; reflexivity.
  - split; in_by_computation.
Qed.

(** Resetting the record to the initial term, as the upgrade to protocol version 1 means to do,
    leaves a record that is already there as it is. *)
Lemma reset_last_vote_ignored v :
  OT.kInitialTerm ≤ lv_term v →
  storeLocalLastVoteDocument (mkLastVote OT.kInitialTerm (-1)) (Some v) = Some v.
Proof. intros H. unfold storeLocalLastVoteDocument. simpl. by rewrite (proj2 (Z.ltb_ge _ _) H). Qed.
End Voting.
