(* ===== verification/Commit.v ===== *)
(** * Replication progress and the commit point

    The part of the replication coordinator that tracks how far each member has got, waits
    for write concerns and advances the commit point and the committed snapshot
    (src/mongo/db/repl/replication_coordinator_impl.cpp), in replica set mode.  The state is
    the part of the coordinator these functions use; waking a waiter is recorded in
    [rc_signalled].  Persisting a snapshot in the storage engine is not modelled. *)
From stdpp Require Import sorting.
From S2P Require Import Prelude ReplTime ParseNumber HostAndPort ReplTag ReplConfig Heartbeat.

Record SlaveInfo := mkSlaveInfo {
  si_lastDurableOpTime : OpTime; si_lastAppliedOpTime : OpTime; si_hostAndPort : HostAndPort;
  si_memberId : Z; si_self : bool; si_lastUpdate : Z; si_down : bool }.
#[export] Instance SlaveInfo_eta : Eta SlaveInfo := λ s,
  mkSlaveInfo (si_lastDurableOpTime s) (si_lastAppliedOpTime s) (si_hostAndPort s) (si_memberId s)
    (si_self s) (si_lastUpdate s) (si_down s).

(** [SnapshotName] is a 64-bit counter. *)
Record SnapshotInfo := mkSnapshot { sn_opTime : OpTime; sn_name : Z }.
Record Waiter := mkWaiter { w_opTime : OpTime; w_writeConcern : WriteConcernOptions }.

Record ReplCoord := mkCoord {
  rc_config : ReplSetConfig; rc_selfIndex : Z; rc_memberState : MemberState;
  rc_stepDownPending : bool; rc_slaveInfo : list SlaveInfo; rc_lastCommittedOpTime : OpTime;
  rc_firstOpTimeOfMyTerm : OpTime; rc_snapshotsEnabled : bool;
  rc_uncommittedSnapshots : list SnapshotInfo; rc_currentCommittedSnapshot : option SnapshotInfo;
  rc_replicationWaiters : list Waiter; rc_opTimeWaiters : list Waiter; rc_signalled : list Waiter }.
#[export] Instance ReplCoord_eta : Eta ReplCoord := λ s,
  mkCoord (rc_config s) (rc_selfIndex s) (rc_memberState s) (rc_stepDownPending s)
    (rc_slaveInfo s) (rc_lastCommittedOpTime s) (rc_firstOpTimeOfMyTerm s) (rc_snapshotsEnabled s)
    (rc_uncommittedSnapshots s) (rc_currentCommittedSnapshot s) (rc_replicationWaiters s)
    (rc_opTimeWaiters s) (rc_signalled s).

(** One entry of replSetUpdatePosition; [up_memberId] is 64 bits wide. *)
Record UpdateInfo := mkUpdateInfo {
  up_appliedOpTime : OpTime; up_durableOpTime : OpTime; up_cfgver : Z; up_memberId : Z }.

Module Snap.
(** [std::tie] of the optime and the name. *)
Definition ltb (a b : SnapshotInfo) : bool :=
  OT.ltb (sn_opTime a) (sn_opTime b) ||
  (negb (OT.ltb (sn_opTime b) (sn_opTime a)) && (sn_name a <? sn_name b)).
Definition leb (a b : SnapshotInfo) : bool := negb (ltb b a).
Definition max_name : Z := 18446744073709551615.
(** [std::upper_bound] splits a sorted sequence here. *)
Fixpoint upper_bound (v : SnapshotInfo) (l : list SnapshotInfo)
    : list SnapshotInfo * list SnapshotInfo :=
  match l with
  | [] => ([], [])
  | x :: l => if ltb v x then ([], x :: l) else let '(a, b) := upper_bound v l in (x :: a, b)
  end.
End Snap.

(** [std::sort] of optimes. *)
Fixpoint insert_optime (x : OpTime) (l : list OpTime) : list OpTime :=
  match l with
  | [] => [x]
  | y :: l => if OT.ltb y x then y :: insert_optime x l else x :: y :: l
  end.
Definition sort_optimes (l : list OpTime) : list OpTime := foldr insert_optime [] l.

(** ** Sorting optimes *)
Lemma insert_optime_perm x l : insert_optime x l ≡ₚ x :: l.
Proof.
  induction l as [|y l IH]; simpl; [done|]. destruct (OT.ltb y x); [|done].
  rewrite IH. apply perm_swap.
Qed.
Lemma sort_optimes_perm l : sort_optimes l ≡ₚ l.
Proof. induction l as [|x l IH]; simpl; [done|]. by rewrite insert_optime_perm, IH. Qed.

Section sorting.
Context (pv : Protocol).
Abbreviation ge := (λ a b : OpTime, ¬ lex_lt b a).
Lemma insert_optime_sorted x l :
  in_protocol pv x → Forall (in_protocol pv) l → StronglySorted ge l → StronglySorted ge (insert_optime x l).
Proof.
  intros Hx. induction l as [|y l IH]; intros Hl Hs; simpl; [by repeat constructor|].
  apply Forall_cons in Hl as [Hy Hl]. apply StronglySorted_inv in Hs as [Hs Hall].
  destruct (OT.ltb y x) eqn:E.
  - apply (OT_ltb_protocol pv) in E; [|done..]. constructor; [auto|].
    apply Forall_forall. intros z. rewrite insert_optime_perm. intros [->|Hz]%elem_of_cons.
    + unfold lex_lt in *. lia.
    + rewrite Forall_forall in Hall. auto.
  - assert (¬ lex_lt y x) as Hn by (rewrite <-(OT_ltb_protocol pv) by done; by rewrite E).
    constructor; [by constructor|]. constructor; [done|]. eapply Forall_impl; [exact Hall|].
    intros z Hz. unfold lex_lt in *. lia.
Qed.
Lemma sort_optimes_sorted l : Forall (in_protocol pv) l → StronglySorted ge (sort_optimes l).
Proof.
  induction 1 as [|x l Hx Hl IH]; simpl; [constructor|]. apply insert_optime_sorted; [done| |done].
  by rewrite sort_optimes_perm.
Qed.


(** In a sorted list, element [i] has at least [length - i] elements not below it, and any
    element above it has fewer. *)
Lemma sorted_rank l i o :
  Forall (in_protocol pv) l → StronglySorted ge l → l !! i = Some o →
  vsize l - Z.of_nat i ≤ count_if (λ x, OT.geb x o) l ∧
  ∀ o', in_protocol pv o' → lex_lt o o' → count_if (λ x, OT.geb x o') l < vsize l - Z.of_nat i.
Proof.
  intros Hp Hs Hi. pose proof (lookup_lt_Some _ _ _ Hi) as Hlt.
  rewrite <-(take_drop_middle l i o Hi) in Hs, Hp |- *.
  apply Forall_app in Hp as [Hp1 Hp2]. apply Forall_cons in Hp2 as [Hpo Hp2].
  apply StronglySorted_app in Hs as (Hcross & _ & Hs2).
  apply StronglySorted_inv in Hs2 as [_ Hall]. rewrite !Forall_forall in *.
  assert (length (take i l) = i) as Hlen by (rewrite length_take; lia).
  assert (∀ o', in_protocol pv o' → lex_lt o o' →
    count_if (λ x, OT.geb x o') (take i l ++ o :: drop (S i) l) ≤ vsize (drop (S i) l)) as Hup.
  { intros o' Ho' Hlt'. rewrite count_if_app, count_if_cons.
    assert (∀ x, in_protocol pv x → ¬ lex_lt o x → OT.geb x o' = false) as Hno.
    { intros x Hx Hxo. unfold OT.geb. apply negb_false_iff, (OT_ltb_protocol pv); [done..|].
      unfold lex_lt in *. lia. }
    rewrite (Hno o) by (done || (unfold lex_lt; lia)).
    rewrite (proj2 (count_if_none (λ x, OT.geb x o') (take i l))).
    - unfold count_if, vsize. pose proof (List.filter_length_le (λ x, OT.geb x o') (drop (S i) l)). lia.
    - apply Forall_forall. intros x Hx. apply Hno; [auto|]. apply (Hcross x o Hx). left. }
  split.
  - rewrite count_if_app, count_if_cons. pose proof (count_if_nonneg (λ x, OT.geb x o) (take i l)).
    rewrite OT_geb_refl, (proj2 (count_if_all (λ x, OT.geb x o) (drop (S i) l))).
    + unfold vsize. rewrite length_app. simpl. lia.
    + apply Forall_forall. intros x Hx. unfold OT.geb. apply negb_true_iff.
      apply not_true_is_false. rewrite (OT_ltb_protocol pv) by auto. apply Hall, Hx.
  - intros o' Ho' Hlt'. specialize (Hup o' Ho' Hlt'). unfold vsize in *. rewrite length_app. simpl. lia.
Qed.
End sorting.

Module Commit.
Abbreviation CM := (M ReplCoord).
Implicit Types s : ReplCoord.

(** ** Progress of the members *)
Definition _getMyIndexInSlaveInfo_inlock s : outcome Z :=
  if rc_selfIndex s =? -1 then check 1129 (vsize (rc_slaveInfo s) =? 1) ;; Ret 0
  else Ret (rc_selfIndex s).
Definition my_info s : outcome SlaveInfo :=
  i ← _getMyIndexInSlaveInfo_inlock s; vat 1234 (rc_slaveInfo s) i.
Definition _getMyLastAppliedOpTime_inlock s : outcome OpTime :=
  i ← my_info s; Ret (si_lastAppliedOpTime i).
Definition _getMyLastDurableOpTime_inlock s : outcome OpTime :=
  i ← my_info s; Ret (si_lastDurableOpTime i).
Definition slave_time (durable : bool) (i : SlaveInfo) : OpTime :=
  if durable then si_lastDurableOpTime i else si_lastAppliedOpTime i.

(** ** Write concerns *)
Fixpoint count_down_reached (durable : bool) (target : OpTime) (numNodes : Z) (l : list SlaveInfo)
    : bool :=
  match l with
  | [] => false
  | it :: l =>
      let numNodes := if OT.geb (slave_time durable it) target then numNodes - 1 else numNodes in
      if numNodes <=? 0 then true else count_down_reached durable target numNodes l
  end.
Definition _haveNumNodesReachedOpTime_inlock s (targetOpTime : OpTime) (numNodes : Z)
    (durablyWritten : bool) : outcome bool :=
  myOpTime ← (if durablyWritten then _getMyLastDurableOpTime_inlock s
              else _getMyLastAppliedOpTime_inlock s);
  if OT.ltb myOpTime targetOpTime then Ret false
  else Ret (count_down_reached durablyWritten targetOpTime numNodes (rc_slaveInfo s)).

Fixpoint match_reached (c : ReplSetConfig) (durable : bool) (opTime : OpTime) (m : ReplSetTagMatch)
    (l : list SlaveInfo) : outcome bool :=
  match l with
  | [] => Ret false
  | it :: l =>
      if OT.geb (slave_time durable it) opTime then
        match RSC.findMemberByID c (si_memberId it) with
        | None => Abort 1622
        | Some memberConfig =>
            let '(satisfied, m) := RSC.match_any m (mc_tags memberConfig) in
            if satisfied then Ret true else match_reached c durable opTime m l
        end
      else match_reached c durable opTime m l
  end.
Definition _haveTaggedNodesReachedOpTime_inlock s (opTime : OpTime) (tagPattern : ReplSetTagPattern)
    (durablyWritten : bool) : outcome bool :=
  match_reached (rc_config s) durablyWritten opTime (Tag.make_match tagPattern) (rc_slaveInfo s).

Definition _doneWaitingForReplication_inlock s (opTime : OpTime) (minSnapshot : Z)
    (writeConcern : WriteConcernOptions) : outcome bool :=
  check 1544 (negb (bool_decide (syncMode writeConcern = SM_UNSET))) ;;
  if negb (sw_isOK (RSC.checkIfWriteConcernCanBeSatisfied (rc_config s) writeConcern)) then Ret true
  else
    let useDurableOpTime := bool_decide (syncMode writeConcern = SM_JOURNAL) in
    if bool_decide (wMode writeConcern = []) then
      _haveNumNodesReachedOpTime_inlock s opTime (wNumNodes writeConcern) useDurableOpTime
    else
      let majority := bool_decide (wMode writeConcern = RSC.kMajority) in
      let haveSnapshot :=
        if majority && rc_snapshotsEnabled s then
          match rc_currentCommittedSnapshot s with
          | None => false
          | Some snap => OT.geb (sn_opTime snap) opTime && (minSnapshot <=? sn_name snap)
          end
        else true in
      if negb haveSnapshot then Ret false
      else
        match RSC.findCustomWriteMode (rc_config s)
                (if majority then RSC.kMajorityWriteConcernModeName else wMode writeConcern) with
        | Err _ => Ret true
        | OK tagPattern => _haveTaggedNodesReachedOpTime_inlock s opTime tagPattern useDurableOpTime
        end.

(** ** Waiters *)

(** The list is scanned from position [it]; a waiter that is done is replaced by the last one. *)
Fixpoint signal_and_remove (func : Waiter → outcome bool) (fuel it : nat)
    (l signalled : list Waiter) : outcome (list Waiter * list Waiter) :=
  match fuel, l !! it with
  | S fuel, Some waiter =>
      done ← func waiter;
      if negb done then signal_and_remove func fuel (S it) l signalled
      else
        let l := if bool_decide (S it = length l) then take it l
                 else take (length l - 1) (<[it := List.last l waiter]> l) in
        signal_and_remove func fuel it l (signalled ++ [waiter])
  | _, _ => Ret (l, signalled)
  end.
Definition signalAndRemoveIf_inlock (func : Waiter → outcome bool) (l : list Waiter)
    : outcome (list Waiter * list Waiter) :=
  signal_and_remove func (length l) 0 l [].
Definition _wakeReadyWaiters_inlock : CM () :=
  r ← reads (λ s, signalAndRemoveIf_inlock (λ w,
    _doneWaitingForReplication_inlock s (w_opTime w) 0 (w_writeConcern w)) (rc_replicationWaiters s));
  let '(remaining, signalled) := r in
  modify (λ s, s <| rc_replicationWaiters := remaining |>
                 <| rc_signalled := rc_signalled s ++ signalled |>).
Definition signal_optime_waiters (opTime : OpTime) : CM () :=
  r ← reads (λ s, signalAndRemoveIf_inlock (λ w, Ret (OT.leb (w_opTime w) opTime)) (rc_opTimeWaiters s));
  let '(remaining, signalled) := r in
  modify (λ s, s <| rc_opTimeWaiters := remaining |>
                 <| rc_signalled := rc_signalled s ++ signalled |>).

(** ** Snapshots *)
Definition _updateCommittedSnapshot_inlock (new : SnapshotInfo) : CM () :=
  invariant 3641 (λ _, negb (OT.isNull (sn_opTime new))) ;;
  invariant 3642 (λ s, OT.leb (sn_opTime new) (rc_lastCommittedOpTime s)) ;;
  current ← gets rc_currentCommittedSnapshot;
  match current with
  | Some cur =>
      invariant 3644 (λ _, OT.geb (sn_opTime new) (sn_opTime cur)) ;;
      invariant 3645 (λ _, sn_name cur <? sn_name new)
  | None => mret tt
  end ;;
  uncommitted ← gets rc_uncommittedSnapshots;
  match uncommitted with
  | front :: _ => invariant 3648 (λ _, Snap.ltb new front)
  | [] => mret tt
  end ;;
  modify (λ s, s <| rc_currentCommittedSnapshot := Some new |>) ;;
  _wakeReadyWaiters_inlock.
Definition createSnapshot (timeOfSnapshot : OpTime) (name : Z) : CM () :=
  let snapshotInfo := mkSnapshot timeOfSnapshot name in
  s ← gets id;
  if OT.leb timeOfSnapshot (rc_lastCommittedOpTime s) then
    invariant 3622 (λ s, bool_decide (length (rc_uncommittedSnapshots s) = 0%nat)) ;;
    _updateCommittedSnapshot_inlock snapshotInfo
  else
    match last (rc_uncommittedSnapshots s) with
    | Some back =>
        invariant 3628 (λ _, Snap.ltb back snapshotInfo) ;;
        invariant 3630 (λ _, sn_name back <? name)
    | None => mret tt
    end ;;
    modify (λ s, s <| rc_uncommittedSnapshots := rc_uncommittedSnapshots s ++ [snapshotInfo] |>).
Definition _dropAllSnapshots_inlock : CM () :=
  modify (λ s, s <| rc_uncommittedSnapshots := [] |> <| rc_currentCommittedSnapshot := None |>).

(** ** The commit point *)
Definition is_primary s : bool := state_eqb (rc_memberState s) RS_PRIMARY.
Definition is_arbiter s : bool := state_eqb (rc_memberState s) RS_ARBITER.

(** The functions below call one another in a cycle in the source; each takes the function
    that closes the cycle, [update], as an argument. *)
Definition set_info (i : Z) (f : SlaveInfo → SlaveInfo) : CM () :=
  info ← reads (λ s, vat 1234 (rc_slaveInfo s) i);
  modify (λ s, s <| rc_slaveInfo := vset i (f info) (rc_slaveInfo s) |>).
Definition update_applied (update : CM ()) (now i : Z) (opTime : OpTime) : CM () :=
  set_info i (λ info, info <| si_lastAppliedOpTime := opTime |> <| si_lastUpdate := now |>
                           <| si_down := false |>) ;;
  update ;;
  _wakeReadyWaiters_inlock.
Definition set_my_applied (update : CM ()) (now : Z) (opTime : OpTime) (isRollbackAllowed : bool)
    : CM () :=
  i ← reads _getMyIndexInSlaveInfo_inlock;
  mine ← reads _getMyLastAppliedOpTime_inlock;
  (if negb (isRollbackAllowed || OT.eqb opTime mine) then
     invariant 1238 (λ _, OT.gtb opTime mine) ;;
     invariant 1242 (λ _, (ot_term opTime =? OT.kUninitializedTerm) ||
                          (ot_term mine =? OT.kUninitializedTerm) ||
                          TS.gtb (ot_ts opTime) (ot_ts mine))
   else mret tt) ;;
  update_applied update now i opTime ;;
  signal_optime_waiters opTime.
Definition commit_snapshots (committedOpTime : OpTime) : CM () :=
  s ← gets id;
  let maxSnapshotForOpTime := mkSnapshot committedOpTime Snap.max_name in
  match rc_uncommittedSnapshots s with
  | front :: _ =>
      if Snap.leb front maxSnapshotForOpTime then
        let '(upto, rest) := Snap.upper_bound maxSnapshotForOpTime (rc_uncommittedSnapshots s) in
        match last upto with
        | None => λ _, Abort 3335
        | Some newSnapshot =>
            modify (λ s, s <| rc_uncommittedSnapshots := rest |>) ;;
            _updateCommittedSnapshot_inlock newSnapshot
        end
      else mret tt
  | [] => mret tt
  end.
Definition advance (update : CM ()) (now : Z) (committedOpTime : OpTime) : CM () :=
  s ← gets id;
  if OT.eqb committedOpTime (rc_lastCommittedOpTime s) then mret tt
  else if OT.ltb committedOpTime (rc_lastCommittedOpTime s) then mret tt
  else if is_primary s && OT.ltb committedOpTime (rc_firstOpTimeOfMyTerm s) then mret tt
  else
    (if is_arbiter s then set_my_applied update now committedOpTime false else mret tt) ;;
    modify (λ s, s <| rc_lastCommittedOpTime := committedOpTime |>) ;;
    commit_snapshots committedOpTime.
(** The optimes of the voting members. *)
Definition voting_optimes (c : ReplSetConfig) (durable : bool) (l : list SlaveInfo)
    : outcome (list OpTime) :=
  ofoldl (λ acc sI,
    match RSC.findMemberByID c (si_memberId sI) with
    | None => Abort 3278
    | Some m => Ret (if MC.isVoter m then acc ++ [slave_time durable sI] else acc)
    end) [] l.
Definition update_last_committed (advance : OpTime → CM ()) : CM () :=
  s ← gets id;
  if negb (is_primary s) || rc_stepDownPending s then mret tt
  else
    votingNodesOpTimes ← reads (λ s,
      voting_optimes (rc_config s) (_writeConcernMajorityJournalDefault (rc_config s)) (rc_slaveInfo s));
    invariant 3285 (λ _, 0 <? vsize votingNodesOpTimes) ;;
    let writeMajority := _writeMajority (rc_config s) in
    if vsize votingNodesOpTimes <? writeMajority then mret tt
    else
      committedOpTime ← reads (λ _,
        vat 3293 (sort_optimes votingNodesOpTimes) (vsize votingNodesOpTimes - writeMajority));
      advance committedOpTime.

(** The cycle is entered again only on an arbiter, where [_updateLastCommittedOpTime_inlock]
    does nothing: see [advance_unfold]. *)
Definition _advanceCommitPoint_inlock (now : Z) (committedOpTime : OpTime) : CM () :=
  advance (mret tt) now committedOpTime.
Definition _updateLastCommittedOpTime_inlock (now : Z) : CM () :=
  update_last_committed (_advanceCommitPoint_inlock now).
Definition _updateSlaveInfoAppliedOpTime_inlock (now i : Z) (opTime : OpTime) : CM () :=
  update_applied (_updateLastCommittedOpTime_inlock now) now i opTime.
Definition _updateSlaveInfoDurableOpTime_inlock (now i : Z) (opTime : OpTime) : CM () :=
  info ← reads (λ s, vat 1061 (rc_slaveInfo s) i);
  if OT.ltb (si_lastAppliedOpTime info) opTime then mret tt
  else
    set_info i (λ info, info <| si_lastDurableOpTime := opTime |> <| si_lastUpdate := now |>
                             <| si_down := false |>) ;;
    _updateLastCommittedOpTime_inlock now ;;
    _wakeReadyWaiters_inlock.
Definition _setMyLastAppliedOpTime_inlock (now : Z) (opTime : OpTime) (isRollbackAllowed : bool)
    : CM () :=
  set_my_applied (_updateLastCommittedOpTime_inlock now) now opTime isRollbackAllowed.
Definition _setMyLastDurableOpTime_inlock (now : Z) (opTime : OpTime) (isRollbackAllowed : bool)
    : CM () :=
  i ← reads _getMyIndexInSlaveInfo_inlock;
  info ← reads my_info;
  invariant 1255 (λ _, isRollbackAllowed || OT.leb (si_lastDurableOpTime info) opTime) ;;
  if OT.ltb (si_lastAppliedOpTime info) opTime then mret tt
  else _updateSlaveInfoDurableOpTime_inlock now i opTime.
Definition setMyLastAppliedOpTimeForward (now : Z) (opTime : OpTime) : CM () :=
  mine ← reads _getMyLastAppliedOpTime_inlock;
  if OT.gtb opTime mine then _setMyLastAppliedOpTime_inlock now opTime false
  else if negb (OT.eqb opTime mine) then
    invariant 1177 (λ _, (ot_term opTime =? OT.kUninitializedTerm) ||
                         (ot_term mine =? OT.kUninitializedTerm) ||
                         TS.ltb (ot_ts opTime) (ot_ts mine))
  else mret tt.
Definition setMyLastDurableOpTimeForward (now : Z) (opTime : OpTime) : CM () :=
  mine ← reads _getMyLastDurableOpTime_inlock;
  if OT.gtb opTime mine then _setMyLastDurableOpTime_inlock now opTime false else mret tt.
Definition _resetMyLastOpTimes_inlock (now : Z) : CM () :=
  _setMyLastAppliedOpTime_inlock now OT.null true ;;
  _setMyLastDurableOpTime_inlock now OT.null true.

(** ** Reports from other members *)
Definition _findSlaveInfoByMemberID_inlock s (memberId : Z) : Z :=
  index_where (λ it, si_memberId it =? memberId) (rc_slaveInfo s).
(** The status and, when the configuration versions differ, ours. *)
Definition _setLastOptime_inlock (now : Z) (args : UpdateInfo) : CM (Status * option Z) :=
  s ← gets id;
  if rc_selfIndex s =? -1 then mret (Err NotMasterOrSecondary, None)
  else if up_memberId args <? 0 then mret (Err NodeNotFound, None)
  else
    self ← reads (λ s, RSC.getMemberAt (rc_config s) (rc_selfIndex s));
    if up_memberId args =? mc_id self then mret (OK tt, None)
    else if negb (up_cfgver args =? _version (rc_config s)) then
      mret (Err InvalidReplicaSetConfig, Some (_version (rc_config s)))
    else
      let i := _findSlaveInfoByMemberID_inlock s (i32 (up_memberId args)) in
      if i =? -1 then
        invariant 1509 (λ s, bool_decide (RSC.findMemberByID (rc_config s) (i32 (up_memberId args)) = None)) ;;
        mret (Err NodeNotFound, None)
      else
        info ← reads (λ s, vat 1518 (rc_slaveInfo s) i);
        invariant 1518 (λ _, up_memberId args =? si_memberId info) ;;
        (if OT.ltb (si_lastAppliedOpTime info) (up_appliedOpTime args)
         then _updateSlaveInfoAppliedOpTime_inlock now i (up_appliedOpTime args) else mret tt) ;;
        info ← reads (λ s, vat 1530 (rc_slaveInfo s) i);
        (if OT.ltb (si_lastDurableOpTime info) (up_durableOpTime args)
         then _updateSlaveInfoDurableOpTime_inlock now i (up_durableOpTime args) else mret tt) ;;
        set_info i (λ info, info <| si_lastUpdate := now |> <| si_down := false |>) ;;
        mret (OK tt, None).
(** The status, our configuration version when the versions differ, and whether something
    changed. *)
Fixpoint update_positions (now : Z) (updates : list UpdateInfo) (configVersion : option Z)
    (changed : bool) : CM (Status * option Z * bool) :=
  match updates with
  | [] => mret (OK tt, configVersion, changed)
  | update :: updates =>
      r ← _setLastOptime_inlock now update;
      let configVersion := if r.2 is Some v then Some v else configVersion in
      match r.1 with
      | OK _ => update_positions now updates configVersion true
      | Err e => mret (Err e, configVersion, changed)
      end
  end.
(** The last component says whether the progress is forwarded upstream. *)
Definition processReplSetUpdatePosition (now : Z) (updates : list UpdateInfo)
    : CM (Status * option Z * bool) :=
  r ← update_positions now updates None false;
  s ← gets id;
  mret (r.1, r.2 && negb (is_primary s)).

(** ** Tracing the cycle of calls *)
Lemma update_last_committed_not_primary adv s :
  is_primary s = false → update_last_committed adv s = Ret (tt, s).
Proof. intros Hp. unfold update_last_committed, mbind, M_bind, gets, id. by rewrite Hp. Qed.
Lemma set_info_state i f s s' :
  set_info i f s = Ret (tt, s') → rc_memberState s' = rc_memberState s.
Proof.
  unfold set_info, mbind, M_bind, reads, modify. destruct (vat _ _ _); [|done]. by intros [= <-].
Qed.
Lemma update_applied_arbiter now i o s :
  is_arbiter s = true →
  update_applied (mret tt) now i o s = update_applied (_updateLastCommittedOpTime_inlock now) now i o s.
Proof.
  intros Ha. unfold update_applied, mbind, M_bind.
  destruct (set_info _ _ s) as [[[] s']|] eqn:E; [|done].
  unfold _updateLastCommittedOpTime_inlock. rewrite update_last_committed_not_primary; [done|].
  apply set_info_state in E. unfold is_primary, is_arbiter, state_eqb in *. rewrite E.
  by apply bool_decide_eq_true in Ha as ->.
Qed.
(** The equation of the source: the commit point of an arbiter moves its applied optime,
    which tries to update the commit point again. *)
Lemma advance_unfold now o s :
  _advanceCommitPoint_inlock now o s = advance (_updateLastCommittedOpTime_inlock now) now o s.
Proof.
  unfold _advanceCommitPoint_inlock, advance, mbind, M_bind, gets, id.
  destruct (OT.eqb _ _); [done|]. destruct (OT.ltb _ _); [done|]. destruct (is_primary s && _); [done|].
  destruct (is_arbiter s) eqn:Ha; [|done].
  assert (set_my_applied (mret tt) now o false s =
          set_my_applied (_updateLastCommittedOpTime_inlock now) now o false s) as Heq;
    [|by rewrite Heq].
  unfold set_my_applied, mbind, M_bind, reads.
  destruct (_getMyIndexInSlaveInfo_inlock s) as [i|]; [|done].
  destruct (_getMyLastAppliedOpTime_inlock s); [|done].
  destruct (negb _); simpl; [|by rewrite (update_applied_arbiter now i o s Ha)].
  unfold invariant. destruct (OT.gtb _ _); [|done]. destruct (_ || _); [|done].
  by rewrite (update_applied_arbiter now i o s Ha).
Qed.

(** ** Waking the waiters *)
Lemma remove_waiter (l : list Waiter) it w :
  l !! it = Some w →
  let l' := if bool_decide (S it = length l) then take it l
            else take (length l - 1) (<[it := List.last l w]> l) in
  w :: l' ≡ₚ l ∧ take it l' = take it l ∧ length l' = (length l - 1)%nat.
Proof.
  intros Hw l'. pose proof (lookup_lt_Some _ _ _ Hw) as Hlt. subst l'.
  destruct (decide (S it = length l)) as [He|He].
  - rewrite bool_decide_true by done. split_and!; [|by rewrite take_take, Nat.min_id|rewrite length_take; lia].
    rewrite <-(take_drop_middle l it w Hw) at 2. rewrite drop_ge by lia. apply Permutation_cons_append.
  - rewrite bool_decide_false by done. destruct l as [|x l _] using rev_ind; [done|].
    rewrite length_app in *. simpl in *. rewrite List.last_last.
    rewrite lookup_app_l in Hw by lia. rewrite insert_app_l by lia.
    replace (length l + 1 - 1)%nat with (length l) by lia.
    rewrite take_app_length' by (by rewrite length_insert). split_and!.
    + rewrite insert_take_drop by lia. rewrite <-(take_drop_middle l it w Hw) at 3. solve_Permutation.
    + rewrite take_insert_ge, take_app_le by lia. done.
    + by rewrite length_insert.
Qed.

Lemma signal_and_remove_spec func fuel it l sig :
  (length l - it ≤ fuel)%nat → Forall (λ w, owp (func w) (λ _, True)) l →
  Forall (λ w, func w = Ret false) (take it l) →
  owp (signal_and_remove func fuel it l sig) (λ r,
    ∃ woken, r.2 = sig ++ woken ∧ r.1 ++ woken ≡ₚ l ∧
      Forall (λ w, func w = Ret false) r.1 ∧ Forall (λ w, func w = Ret true) woken).
Proof.
  revert it l sig. induction fuel as [|fuel IH]; intros it l sig Hf Htot Hpre; simpl.
  { exists []. rewrite !app_nil_r. split_and!; [done..| |done]. by rewrite take_ge in Hpre by lia. }
  destruct (l !! it) as [w|] eqn:Hw.
  2:{ exists []. rewrite !app_nil_r. apply lookup_ge_None in Hw. split_and!; [done..| |done].
      by rewrite take_ge in Hpre. }
  assert (owp (func w) (λ _, True)) as (b & Hb & _)%owp_Ret.
  { rewrite Forall_forall in Htot. apply Htot. by eapply list_elem_of_lookup_2. }
  rewrite Hb. simpl. destruct b; simpl.
  - destruct (remove_waiter l it w Hw) as (Hp & Ht & Hl).
    eapply owp_mono; [|apply IH].
    + intros r (woken & -> & Hr & ? & ?). exists (w :: woken). rewrite <-app_assoc. split_and!; [done| |done|by constructor].
      rewrite <-Permutation_middle, Hr. exact Hp.
    + lia.
    + rewrite <-Hp in Htot. by apply Forall_cons in Htot as [_ ?].
    + by rewrite Ht.
  - apply IH; [lia|done|]. rewrite (take_S_r l it w Hw). apply Forall_app. by split; [|constructor].
Qed.

(** ** The invariant *)

(** One entry per member, in the order of the configuration, and every waiter has chosen how
    durable its write must be. *)
Record progress_ok s : Prop := mkProgressOk {
  pg_config : ∃ p, RSC.valid_config p (rc_config s);
  pg_majorities : RSC.majorities_set (rc_config s);
  pg_aligned : si_memberId <$> rc_slaveInfo s = mc_id <$> _members (rc_config s);
  pg_self : 0 ≤ rc_selfIndex s < vsize (rc_slaveInfo s);
  pg_waiters : Forall (λ w, syncMode (w_writeConcern w) ≠ SM_UNSET) (rc_replicationWaiters s) }.

(** Snapshots not committed yet are past the commit point and in order; the committed one is
    at or before it and older than the others. *)
Definition snap_lt (a b : SnapshotInfo) : Prop :=
  ¬ lex_lt (sn_opTime b) (sn_opTime a) ∧ sn_name a < sn_name b.
Record snapshots_ok (pv : Protocol) s : Prop := mkSnapshotsOk {
  so_sorted : StronglySorted snap_lt (rc_uncommittedSnapshots s);
  so_uncommitted : Forall (λ n, in_protocol pv (sn_opTime n) ∧ OT.isNull (sn_opTime n) = false ∧
    sn_name n ≤ Snap.max_name ∧ lex_lt (rc_lastCommittedOpTime s) (sn_opTime n)) (rc_uncommittedSnapshots s);
  so_current : ∀ cur, rc_currentCommittedSnapshot s = Some cur →
    in_protocol pv (sn_opTime cur) ∧ ¬ lex_lt (rc_lastCommittedOpTime s) (sn_opTime cur) ∧
    Forall (λ n, sn_name cur < sn_name n) (rc_uncommittedSnapshots s) }.

Record CInv (pv : Protocol) s : Prop := mkCInv {
  cv_progress : progress_ok s;
  cv_times : Forall (λ si, in_protocol pv (si_lastAppliedOpTime si) ∧
                           in_protocol pv (si_lastDurableOpTime si)) (rc_slaveInfo s);
  cv_committed : in_protocol pv (rc_lastCommittedOpTime s);
  cv_first : in_protocol pv (rc_firstOpTimeOfMyTerm s);
  cv_snapshots : snapshots_ok pv s }.

Lemma find_by_id ms m : NoDup (mc_id <$> ms) → m ∈ ms → find (λ m', mc_id m' =? mc_id m) ms = Some m.
Proof.
  induction ms as [|m' ms IH]; intros Hnd Hin; [by apply elem_of_nil in Hin|]. simpl.
  rewrite fmap_cons, NoDup_cons in Hnd. destruct Hnd as [Hn Hnd].
  destruct (Z.eqb_spec (mc_id m') (mc_id m)) as [He|He].
  - apply elem_of_cons in Hin as [->|Hin]; [done|]. destruct Hn. rewrite He. by apply list_elem_of_fmap_2.
  - apply elem_of_cons in Hin as [->|Hin]; [done|auto].
Qed.

Section progress.
Context s (HP : progress_ok s).

Lemma config_ids : NoDup (mc_id <$> _members (rc_config s)).
Proof. destruct (pg_config s HP) as [p (_ & _ & _ & _ & _ & Hid & _)]. done. Qed.
Lemma find_aligned i si :
  rc_slaveInfo s !! i = Some si →
  ∃ m, _members (rc_config s) !! i = Some m ∧
       RSC.findMemberByID (rc_config s) (si_memberId si) = Some m.
Proof.
  intros Hi. assert ((mc_id <$> _members (rc_config s)) !! i = Some (si_memberId si)) as Hm.
  { rewrite <-(pg_aligned s HP), list_lookup_fmap, Hi. done. }
  rewrite list_lookup_fmap in Hm. apply fmap_Some in Hm as (m & Hm & ->). exists m. split; [done|].
  apply find_by_id; [apply config_ids|]. by eapply list_elem_of_lookup_2.
Qed.
Lemma find_member si :
  si ∈ rc_slaveInfo s → ∃ m, RSC.findMemberByID (rc_config s) (si_memberId si) = Some m.
Proof.
  intros (i & Hi)%list_elem_of_lookup. destruct (find_aligned i si Hi) as (m & _ & ?). eauto.
Qed.

Lemma my_info_total (P : SlaveInfo → Prop) :
  (∀ si, rc_slaveInfo s !! Z.to_nat (rc_selfIndex s) = Some si → P si) → owp (my_info s) P.
Proof.
  intros H. unfold my_info, _getMyIndexInSlaveInfo_inlock. pose proof (pg_self s HP).
  rewrite (proj2 (Z.eqb_neq _ _)) by lia. simpl. by apply owp_vat.
Qed.

Lemma match_reached_total durable o m l :
  (∀ si, si ∈ l → si ∈ rc_slaveInfo s) → owp (match_reached (rc_config s) durable o m l) (λ _, True).
Proof.
  revert m. induction l as [|si l IH]; intros m Hl; simpl; [done|].
  assert (∀ si', si' ∈ l → si' ∈ rc_slaveInfo s) by (intros; apply Hl; by right).
  destruct (OT.geb _ _); [|auto]. destruct (find_member si) as [mc ->]; [apply Hl; left|].
  destruct (RSC.match_any m (mc_tags mc)) as [[] m']; [done|auto].
Qed.
Lemma doneWaiting_total o snap w :
  syncMode w ≠ SM_UNSET → owp (_doneWaitingForReplication_inlock s o snap w) (λ _, True).
Proof.
  intros Hs. unfold _doneWaitingForReplication_inlock, check. rewrite (bool_decide_false (syncMode w = SM_UNSET)) by done. simpl.
  destruct (negb _); [done|]. destruct (bool_decide (wMode w = [])).
  - unfold _haveNumNodesReachedOpTime_inlock, _getMyLastDurableOpTime_inlock, _getMyLastAppliedOpTime_inlock.
    apply owp_bind. destruct (bool_decide _); apply owp_bind, my_info_total; intros si _; simpl;
      by destruct (OT.ltb _ _).
  - destruct (negb _); [done|]. destruct (RSC.findCustomWriteMode _ _); [|done].
    by apply match_reached_total.
Qed.

(** Waking removes exactly the waiters whose condition holds. *)
Lemma wake_spec :
  ∃ rem woken,
    _wakeReadyWaiters_inlock s = Ret (tt, s <| rc_replicationWaiters := rem |>
                                            <| rc_signalled := rc_signalled s ++ woken |>) ∧
    rem ++ woken ≡ₚ rc_replicationWaiters s ∧
    Forall (λ w, _doneWaitingForReplication_inlock s (w_opTime w) 0 (w_writeConcern w) = Ret false) rem ∧
    Forall (λ w, _doneWaitingForReplication_inlock s (w_opTime w) 0 (w_writeConcern w) = Ret true) woken.
Proof.
  unfold _wakeReadyWaiters_inlock, mbind, M_bind, reads, signalAndRemoveIf_inlock.
  match goal with |- context [signal_and_remove ?f ?n 0 ?l []] =>
    assert (owp (signal_and_remove f n 0 l []) (λ r, ∃ woken, r.2 = [] ++ woken ∧ r.1 ++ woken ≡ₚ l ∧
      Forall (λ w, f w = Ret false) r.1 ∧ Forall (λ w, f w = Ret true) woken))
      as ([rem sig] & -> & woken & Hs & Hp & Hf & Ht)%owp_Ret
  end.
  { apply signal_and_remove_spec; [lia| |done]. pose proof (pg_waiters s HP) as Hw.
    eapply Forall_impl; [exact Hw|]. intros w Hm. by apply doneWaiting_total. }
  simpl in *. subst sig. exists rem, woken. by split_and!.
Qed.
End progress.

(** Everything but the waiters, the snapshots and the commit point is as before; waiters are
    only taken off the list, and those are signalled. *)
Record frame s s' : Prop := mkFrame {
  fr_config : rc_config s' = rc_config s; fr_self : rc_selfIndex s' = rc_selfIndex s;
  fr_state : rc_memberState s' = rc_memberState s;
  fr_pending : rc_stepDownPending s' = rc_stepDownPending s;
  fr_info : rc_slaveInfo s' = rc_slaveInfo s;
  fr_first : rc_firstOpTimeOfMyTerm s' = rc_firstOpTimeOfMyTerm s;
  fr_enabled : rc_snapshotsEnabled s' = rc_snapshotsEnabled s;
  fr_waiters : ∃ woken, rc_replicationWaiters s' ++ woken ≡ₚ rc_replicationWaiters s ∧
                        rc_signalled s' = rc_signalled s ++ woken }.
#[export] Instance frame_refl : Reflexive frame.
Proof. intros s. constructor; try done. exists []. by rewrite !app_nil_r. Qed.
#[export] Instance frame_trans : Transitive frame.
Proof.
  intros s1 s2 s3 [????? ? ? (w1 & Hw1 & Hg1)] [????? ? ? (w2 & Hw2 & Hg2)].
  constructor; try congruence. exists (w1 ++ w2). rewrite Hg2, Hg1, <-app_assoc. split; [|done].
  rewrite <-Hw1, <-Hw2, <-!app_assoc. apply Permutation_app_head, Permutation_app_comm.
Qed.
Lemma progress_frame s s' : frame s s' → progress_ok s → progress_ok s'.
Proof.
  intros [Hc Hs _ _ Hi _ _ (woken & Hw & _)] [? ? ? ? Hm]. constructor; rewrite ?Hc, ?Hs, ?Hi; try done.
  rewrite <-Hw in Hm. by apply Forall_app in Hm as [? _].
Qed.

Lemma wp_wake s (Q : () → ReplCoord → Prop) :
  progress_ok s →
  (∀ s', frame s s' → rc_lastCommittedOpTime s' = rc_lastCommittedOpTime s →
         rc_uncommittedSnapshots s' = rc_uncommittedSnapshots s →
         rc_currentCommittedSnapshot s' = rc_currentCommittedSnapshot s → Q tt s') →
  wp _wakeReadyWaiters_inlock Q s.
Proof.
  intros HP HQ. apply wp_Ret. destruct (wake_spec s HP) as (rem & woken & -> & Hp & _ & _).
  eexists tt, _. split; [done|]. apply HQ; [|done..]. constructor; try done. by exists woken.
Qed.

(** ** Snapshots *)
Section snapshots.
Context (pv : Protocol).

Lemma snap_ltb_max o x :
  in_protocol pv o → in_protocol pv (sn_opTime x) → sn_name x ≤ Snap.max_name →
  Snap.ltb (mkSnapshot o Snap.max_name) x = true ↔ lex_lt o (sn_opTime x).
Proof.
  intros Ho Hx Hn. unfold Snap.ltb. simpl. rewrite orb_true_iff, andb_true_iff.
  rewrite (OT_ltb_protocol pv) by done. split; [|by left]. intros [?|[_ ?]]; [done|lia].
Qed.

Lemma upper_bound_spec o l :
  in_protocol pv o → Forall (λ x, in_protocol pv (sn_opTime x) ∧ sn_name x ≤ Snap.max_name) l →
  StronglySorted snap_lt l →
  let r := Snap.upper_bound (mkSnapshot o Snap.max_name) l in
  l = r.1 ++ r.2 ∧ Forall (λ x, ¬ lex_lt o (sn_opTime x)) r.1 ∧ Forall (λ x, lex_lt o (sn_opTime x)) r.2.
Proof.
  intros Ho. induction l as [|x l IH]; intros Hl Hs; simpl; [done|].
  apply Forall_cons in Hl as [[Hx Hn] Hl]. apply StronglySorted_inv in Hs as [Hs Hall].
  pose proof (snap_ltb_max o x Ho Hx Hn) as Hlt. destruct (Snap.ltb _ x).
  - simpl. split_and!; [done..|]. assert (lex_lt o (sn_opTime x)) by (by apply Hlt).
    constructor; [done|]. eapply Forall_impl; [exact Hall|]. intros y [Hy _]. unfold lex_lt in *. lia.
  - destruct (IH Hl Hs) as (He & Ha & Hb). destruct (Snap.upper_bound _ l) as [a b]. simpl in *.
    split_and!; [by rewrite He|constructor; [|done]|done]. intros H. by apply Hlt in H.
Qed.

(** Committing [new] when nothing uncommitted is older and it is newer than the committed one. *)
Lemma wp_update_committed_snapshot new s (Q : () → ReplCoord → Prop) :
  progress_ok s → in_protocol pv (rc_lastCommittedOpTime s) → in_protocol pv (sn_opTime new) →
  OT.isNull (sn_opTime new) = false → ¬ lex_lt (rc_lastCommittedOpTime s) (sn_opTime new) →
  StronglySorted snap_lt (rc_uncommittedSnapshots s) →
  Forall (λ n, in_protocol pv (sn_opTime n) ∧ OT.isNull (sn_opTime n) = false ∧
    sn_name n ≤ Snap.max_name ∧ lex_lt (rc_lastCommittedOpTime s) (sn_opTime n) ∧
    sn_name new < sn_name n) (rc_uncommittedSnapshots s) →
  (∀ cur, rc_currentCommittedSnapshot s = Some cur →
    in_protocol pv (sn_opTime cur) ∧ ¬ lex_lt (sn_opTime new) (sn_opTime cur) ∧ sn_name cur < sn_name new) →
  (∀ s', frame s s' → snapshots_ok pv s' → rc_lastCommittedOpTime s' = rc_lastCommittedOpTime s →
         rc_uncommittedSnapshots s' = rc_uncommittedSnapshots s →
         rc_currentCommittedSnapshot s' = Some new → Q tt s') →
  wp (_updateCommittedSnapshot_inlock new) Q s.
Proof.
  intros HP Hl Hn Hnull Hle Hs Hu Hcur HQ. unfold _updateCommittedSnapshot_inlock. wp_simpl.
  rewrite Hnull, (OT_leb_protocol pv) by done. split_and!; [done..|].
  assert (∀ (k : () → ReplCoord → Prop) s0, k tt s0 → wp (match rc_currentCommittedSnapshot s with
    | Some cur => invariant 3644 (λ _, OT.geb (sn_opTime new) (sn_opTime cur));;
                  invariant 3645 (λ _, sn_name cur <? sn_name new)
    | None => mret () end) k s0) as Hchk.
  { intros k s0 Hk. destruct (rc_currentCommittedSnapshot s) as [cur|]; [|done].
    destruct (Hcur cur eq_refl) as (Hc & Hge & Hname). wp_simpl. unfold OT.geb.
    split_and!; [|lia|done]. apply negb_true_iff, not_true_is_false. by rewrite (OT_ltb_protocol pv). }
  apply Hchk. clear Hchk. wp_simpl.
  assert (∀ (k : () → ReplCoord → Prop) s0, k tt s0 → wp (match rc_uncommittedSnapshots s with
    | front :: _ => invariant 3648 (λ _, Snap.ltb new front) | [] => mret () end) k s0) as Hchk.
  { intros k s0 Hk. destruct (rc_uncommittedSnapshots s) as [|front l]; [done|].
    apply Forall_cons in Hu as [(? & _ & _ & Hlt & _) _]. wp_simpl. split; [|done].
    unfold Snap.ltb. apply orb_true_iff. left. apply (OT_ltb_protocol pv); [done..|]. unfold lex_lt in *. lia. }
  apply Hchk. clear Hchk. wp_simpl. apply wp_wake.
  { apply (progress_frame s); [|done]. constructor; try done. exists []. by rewrite !app_nil_r. }
  intros s' Hf El Eu Ec. simpl in *. apply HQ; try done.
  - transitivity (s <| rc_currentCommittedSnapshot := Some new |>); [|done].
    constructor; try done. exists []. by rewrite !app_nil_r.
  - constructor; rewrite ?El, ?Eu, ?Ec; [done| |].
    + eapply Forall_impl; [exact Hu|]. naive_solver.
    + intros cur [= <-]. split_and!; [done..|]. eapply Forall_impl; [exact Hu|]. naive_solver.
Qed.

(** The snapshot that is the newest at or before [o], and those after [o]. *)
Definition newest_at s (o : OpTime) : option SnapshotInfo :=
  match last (List.filter (λ n, OT.leb (sn_opTime n) o) (rc_uncommittedSnapshots s)) with
  | Some n => Some n
  | None => rc_currentCommittedSnapshot s
  end.
Definition later_than s (o : OpTime) : list SnapshotInfo :=
  List.filter (λ n, OT.ltb o (sn_opTime n)) (rc_uncommittedSnapshots s).

Lemma upper_bound_filters o l :
  in_protocol pv o → Forall (λ x, in_protocol pv (sn_opTime x) ∧ sn_name x ≤ Snap.max_name) l →
  StronglySorted snap_lt l →
  Snap.upper_bound (mkSnapshot o Snap.max_name) l =
    (List.filter (λ n, OT.leb (sn_opTime n) o) l, List.filter (λ n, OT.ltb o (sn_opTime n)) l).
Proof.
  intros Ho Hl Hs. destruct (upper_bound_spec o l Ho Hl Hs) as (He & Ha & Hb).
  destruct (Snap.upper_bound _ l) as [a b]. simpl in *.
  assert (Forall (λ x, in_protocol pv (sn_opTime x)) (a ++ b)) as [Hpa Hpb]%Forall_app
    by (rewrite <-He; eapply Forall_impl; [exact Hl|]; naive_solver).
  rewrite He, !List.filter_app. clear He Hl Hs l. rewrite !Forall_forall in *.
  assert (∀ f (l : list SnapshotInfo), (∀ x, x ∈ l → f x = true) → List.filter f l = l) as Hall.
  { intros f l. induction l as [|x l IH]; intros H; simpl; [done|]. rewrite H, IH; [done| |left].
    intros y Hy. apply H. by right. }
  assert (∀ f (l : list SnapshotInfo), (∀ x, x ∈ l → f x = false) → List.filter f l = []) as Hnone.
  { intros f l. induction l as [|x l IH]; intros H; simpl; [done|]. rewrite H, IH; [done| |left].
    intros y Hy. apply H. by right. }
  rewrite (Hall _ a), (Hnone _ b), (Hnone _ a), (Hall _ b), app_nil_r; [done|..]; intros x Hx.
  - apply (OT_ltb_protocol pv); auto.
  - apply not_true_is_false. rewrite (OT_ltb_protocol pv) by auto. auto.
  - apply not_true_is_false. rewrite (OT_leb_protocol pv) by auto. intros Hn. apply Hn. auto.
  - apply (OT_leb_protocol pv); auto.
Qed.

Lemma frame_snapshots s o u :
  frame s (s <| rc_lastCommittedOpTime := o |> <| rc_uncommittedSnapshots := u |>).
Proof. constructor; try done. exists []. by rewrite !app_nil_r. Qed.
Lemma frame_committed s o : frame s (s <| rc_lastCommittedOpTime := o |>).
Proof. constructor; try done. exists []. by rewrite !app_nil_r. Qed.

Lemma snapshots_ok_raise o s :
  snapshots_ok pv s → lex_lt (rc_lastCommittedOpTime s) o →
  Forall (λ n, lex_lt o (sn_opTime n)) (rc_uncommittedSnapshots s) →
  snapshots_ok pv (s <| rc_lastCommittedOpTime := o |>).
Proof.
  intros [Hs Hu Hcur] Hlt Hgt. constructor; simpl; [done| |].
  - rewrite !Forall_forall in *. naive_solver.
  - intros cur Hc. destruct (Hcur cur Hc) as (? & ? & ?). split_and!; [done| |done]. unfold lex_lt in *. lia.
Qed.

(** Committing the newest snapshot that the commit point [o] has reached. *)
Lemma wp_commit_newest o s a new later (Q : () → ReplCoord → Prop) :
  progress_ok s → snapshots_ok pv s → in_protocol pv (rc_lastCommittedOpTime s) → in_protocol pv o →
  rc_uncommittedSnapshots s = (a ++ [new]) ++ later →
  ¬ lex_lt o (sn_opTime new) → Forall (λ n, lex_lt o (sn_opTime n)) later →
  (∀ s', frame s s' → snapshots_ok pv s' → rc_lastCommittedOpTime s' = o →
         rc_currentCommittedSnapshot s' = Some new → rc_uncommittedSnapshots s' = later → Q tt s') →
  wp (modify (λ s, s <| rc_uncommittedSnapshots := later |>) ;; _updateCommittedSnapshot_inlock new) Q
     (s <| rc_lastCommittedOpTime := o |>).
Proof.
  intros HP [Hs Hu Hcur] Hold Ho He Hle Hgt HQ. rewrite He in *.
  apply StronglySorted_app in Hs as (Hnew & _ & Hs2). apply Forall_app in Hu as [[_ Hn]%Forall_app Hul].
  apply Forall_cons in Hn as [(Hn1 & Hn2 & Hn3 & Hn4) _]. wp_simpl.
  apply wp_update_committed_snapshot; simpl; try done.
  - by apply (progress_frame s); [apply frame_snapshots|].
  - rewrite !Forall_forall in *. intros n Hin. destruct (Hul n Hin) as (? & ? & ? & ?).
    split_and!; try done; [by apply Hgt|]. by apply (Hnew new n); [apply elem_of_app; right; left|].
  - intros cur Hc. destruct (Hcur cur Hc) as (? & ? & Hnames). split_and!; [done|unfold lex_lt in *; lia|].
    apply Forall_app in Hnames as [[_ Hn']%Forall_app _]. by apply Forall_cons in Hn' as [? _].
  - intros s' Hf ????. apply HQ; try done. by transitivity (s <| rc_lastCommittedOpTime := o |>
      <| rc_uncommittedSnapshots := later |>); [apply frame_snapshots|].
Qed.

(** The snapshots when the commit point moves up to [o]. *)
Lemma wp_commit_snapshots o s (Q : () → ReplCoord → Prop) :
  CInv pv s → in_protocol pv o → lex_lt (rc_lastCommittedOpTime s) o →
  (∀ s', frame s s' → snapshots_ok pv s' → rc_lastCommittedOpTime s' = o →
         rc_currentCommittedSnapshot s' = newest_at s o → rc_uncommittedSnapshots s' = later_than s o →
         Q tt s') →
  wp (commit_snapshots o) Q (s <| rc_lastCommittedOpTime := o |>).
Proof.
  intros [HP _ Hold _ Hok] Ho Hlt HQ. pose proof Hok as [Hs Hu Hcur].
  unfold commit_snapshots. wp_simpl. unfold id.
  change (rc_uncommittedSnapshots (s <| rc_lastCommittedOpTime := o |>)) with (rc_uncommittedSnapshots s).
  assert (Forall (λ x, in_protocol pv (sn_opTime x) ∧ sn_name x ≤ Snap.max_name)
    (rc_uncommittedSnapshots s)) as Hw by (eapply Forall_impl; [exact Hu|]; naive_solver).
  pose proof (upper_bound_filters o _ Ho Hw Hs) as Hub.
  pose proof (upper_bound_spec o _ Ho Hw Hs) as Hspec. rewrite Hub in Hspec. cbn [fst snd] in Hspec.
  destruct Hspec as (He & Hle & Hgt). fold (later_than s o) in He, Hgt, Hub.
  unfold newest_at in HQ.
  assert (rc_uncommittedSnapshots s = later_than s o → last (List.filter (λ n, OT.leb (sn_opTime n) o)
    (rc_uncommittedSnapshots s)) = None → Q tt (s <| rc_lastCommittedOpTime := o |>)) as Hsame.
  { intros Hl Hn. rewrite Hn in HQ. apply HQ; try done; [apply frame_committed|].
    apply snapshots_ok_raise; [done..|]. by rewrite Hl. }
  destruct (last (List.filter _ (rc_uncommittedSnapshots s))) as [new|] eqn:Hlast.
  - apply last_Some in Hlast as [a Ha]. rewrite Ha in *. clear Hsame.
    apply Forall_app in Hle as [Hla [Hle _]%Forall_cons].
    pose proof (wp_commit_newest o s a new _ Q HP Hok Hold Ho He Hle Hgt HQ) as Hmain.
    destruct (rc_uncommittedSnapshots s) as [|front l] eqn:Eu; [by destruct a|].
    assert (Snap.leb front (mkSnapshot o Snap.max_name) = true) as ->.
    { apply Forall_cons in Hw as [[Hf Hf'] _]. unfold Snap.leb. apply negb_true_iff, not_true_is_false.
      rewrite snap_ltb_max by done. destruct a as [|x a]; injection He as -> _; [done|].
      by apply Forall_cons in Hla as [? _]. }
    rewrite Hub, last_snoc. exact Hmain.
  - assert (rc_uncommittedSnapshots s = later_than s o) as Hl.
    { apply last_None in Hlast. by rewrite Hlast in He. }
    specialize (Hsame Hl eq_refl).
    destruct (rc_uncommittedSnapshots s) as [|front l] eqn:Eu; [exact Hsame|].
    unfold Snap.leb. rewrite (proj2 (snap_ltb_max o front Ho (proj1 (proj1 (proj1 (Forall_cons _ _ _) Hw)))
       (proj2 (proj1 (proj1 (Forall_cons _ _ _) Hw))))); [exact Hsame|].
    rewrite <-Hl in Hgt. by apply Forall_cons in Hgt as [? _].
Qed.
End snapshots.

(** ** The commit point *)

(** The voting members whose optime is at or past [o]. *)
Definition uses_durable s : bool := _writeConcernMajorityJournalDefault (rc_config s).
Definition voters_at s (o : OpTime) : Z :=
  count_if (λ p : MemberConfig * SlaveInfo,
    MC.isVoter p.1 && OT.geb (slave_time (uses_durable s) p.2) o)
    (zip (_members (rc_config s)) (rc_slaveInfo s)).
Definition voter_times (durable : bool) (l : list (MemberConfig * SlaveInfo)) : list OpTime :=
  (λ p, slave_time durable p.2) <$> List.filter (λ p, MC.isVoter p.1) l.
Definition advances s (o : OpTime) : bool :=
  OT.ltb (rc_lastCommittedOpTime s) o && negb (is_primary s && OT.ltb o (rc_firstOpTimeOfMyTerm s)).

Lemma count_voter_times d (p : OpTime → bool) l :
  count_if p (voter_times d l) =
  count_if (λ x : MemberConfig * SlaveInfo, MC.isVoter x.1 && p (slave_time d x.2)) l.
Proof.
  unfold voter_times. induction l as [|[m si] l IH]; [done|]. simpl. rewrite count_if_cons, <-IH. simpl.
  destruct (MC.isVoter m); simpl; [by rewrite count_if_cons|lia].
Qed.
Lemma voting_optimes_spec s d :
  progress_ok s →
  voting_optimes (rc_config s) d (rc_slaveInfo s) =
    Ret (voter_times d (zip (_members (rc_config s)) (rc_slaveInfo s))).
Proof.
  intros HP. pose proof (pg_aligned s HP) as Hal. pose proof (config_ids s HP) as Hid.
  unfold voting_optimes. set (c := rc_config s) in *.
  assert (∀ ms l acc, (∀ m, m ∈ ms → m ∈ _members c) → si_memberId <$> l = mc_id <$> ms →
    ofoldl (λ acc sI, match RSC.findMemberByID c (si_memberId sI) with
      | None => Abort 3278
      | Some m => Ret (if MC.isVoter m then acc ++ [slave_time d sI] else acc) end) acc l =
    Ret (acc ++ voter_times d (zip ms l))) as Hgen; [|by apply (Hgen _ _ [])].
  intros ms. induction ms as [|m ms IH]; intros [|si l] acc Hin Hl; try done; simpl.
  { by rewrite app_nil_r. }
  injection Hl as Hm Hl. unfold RSC.findMemberByID. rewrite Hm, find_by_id by (done || (apply Hin; left)).
  simpl. rewrite IH; [|intros; apply Hin; by right|done]. unfold voter_times. simpl.
  destruct (MC.isVoter m); simpl; [by rewrite <-app_assoc|done].
Qed.
Lemma voter_times_size s d :
  progress_ok s →
  vsize (voter_times d (zip (_members (rc_config s)) (rc_slaveInfo s))) =
  count_if MC.isVoter (_members (rc_config s)).
Proof.
  intros HP. pose proof (f_equal length (pg_aligned s HP)) as Hlen. rewrite !length_fmap in Hlen.
  revert Hlen. generalize (rc_slaveInfo s) (_members (rc_config s)). intros l ms. revert l.
  induction ms as [|m ms IH]; intros [|si l] Hl; try done. rewrite count_if_cons, <-(IH l) by (by injection Hl).
  unfold voter_times, vsize. rewrite !length_fmap. cbn [zip zip_with List.filter fst].
  destruct (MC.isVoter m); cbn [length]; lia.
Qed.

Section commit_point.
Context (pv : Protocol).

Lemma CInv_frame s s' :
  CInv pv s → frame s s' → snapshots_ok pv s' → in_protocol pv (rc_lastCommittedOpTime s') → CInv pv s'.
Proof.
  intros [HP Ht _ Hf _] Hfr Hs Hl. constructor; try done; [by eapply progress_frame| |].
  - by rewrite (fr_info _ _ Hfr).
  - by rewrite (fr_first _ _ Hfr).
Qed.

(** Nothing uncommitted is at or before the commit point. *)
Lemma newest_at_committed s : CInv pv s → newest_at s (rc_lastCommittedOpTime s) = rc_currentCommittedSnapshot s
  ∧ later_than s (rc_lastCommittedOpTime s) = rc_uncommittedSnapshots s.
Proof.
  intros [_ _ Hl _ [_ Hu _]]. unfold newest_at, later_than.
  assert (∀ l, Forall (λ n, in_protocol pv (sn_opTime n) ∧ OT.isNull (sn_opTime n) = false ∧
    sn_name n ≤ Snap.max_name ∧ lex_lt (rc_lastCommittedOpTime s) (sn_opTime n)) l →
    List.filter (λ n, OT.leb (sn_opTime n) (rc_lastCommittedOpTime s)) l = [] ∧
    List.filter (λ n, OT.ltb (rc_lastCommittedOpTime s) (sn_opTime n)) l = l) as Hgen;
    [|by destruct (Hgen _ Hu) as [-> ->]].
  induction 1 as [|n l (Hp & _ & _ & Hlt) _ [IH1 IH2]]; [done|]. simpl.
  rewrite (proj2 (OT_ltb_protocol pv _ _ Hl Hp)), IH2 by done.
  pose proof (OT_leb_protocol pv (sn_opTime n) (rc_lastCommittedOpTime s) Hp Hl) as Hle.
  destruct (OT.leb _ _); [|done]. by destruct (proj1 Hle eq_refl).
Qed.

Lemma wp_advance now o s (Q : () → ReplCoord → Prop) :
  CInv pv s → in_protocol pv o → is_arbiter s = false →
  (advances s o = false → Q tt s) →
  (∀ s', advances s o = true → frame s s' → CInv pv s' → rc_lastCommittedOpTime s' = o →
         rc_currentCommittedSnapshot s' = newest_at s o → rc_uncommittedSnapshots s' = later_than s o →
         Q tt s') →
  wp (_advanceCommitPoint_inlock now o) Q s.
Proof.
  intros HC Ho Ha Hno Hyes. pose proof (cv_committed _ _ HC) as Hl.
  unfold _advanceCommitPoint_inlock, advance. wp_simpl. unfold id, advances in *.
  destruct (OT.eqb o (rc_lastCommittedOpTime s)) eqn:Ee.
  { apply (OT_eqb_protocol pv) in Ee as ->; [|done..]. apply Hno. by rewrite OT_ltb_irrefl. }
  destruct (OT.ltb o (rc_lastCommittedOpTime s)) eqn:El.
  { apply Hno. apply andb_false_iff. left. apply not_true_is_false. rewrite (OT_ltb_protocol pv) by done.
    apply (OT_ltb_protocol pv) in El; [|done..]. unfold lex_lt in *. lia. }
  assert (lex_lt (rc_lastCommittedOpTime s) o) as Hlt.
  { apply not_true_iff_false in Ee, El. rewrite (OT_eqb_protocol pv), OT_eq_fields in Ee by done.
    rewrite (OT_ltb_protocol pv) in El by done. unfold lex_lt in *. lia. }
  rewrite (proj2 (OT_ltb_protocol pv _ _ Hl Ho) Hlt) in *.
  destruct (is_primary s && OT.ltb o (rc_firstOpTimeOfMyTerm s)); [by apply Hno|].
  rewrite Ha. wp_simpl. apply (wp_commit_snapshots pv); [done..|].
  intros s' Hf Hs' El' ??. apply Hyes; try done. eapply CInv_frame; [done..|]. by rewrite El'.
Qed.

(** [s'] is [s] with the commit point moved up to the newest optime of this primary's term that
    a write majority of the voters has reached, if there is one past the old point. *)
Record commits_majority s s' : Prop := mkCommits {
  cm_inv : CInv pv s';
  cm_frame : frame s s';
  cm_moved : rc_lastCommittedOpTime s' = rc_lastCommittedOpTime s ∨
    OT.ltb (rc_lastCommittedOpTime s) (rc_lastCommittedOpTime s') = true ∧
    OT.leb (rc_firstOpTimeOfMyTerm s) (rc_lastCommittedOpTime s') = true ∧
    _writeMajority (rc_config s) ≤ voters_at s (rc_lastCommittedOpTime s');
  cm_newest : ∀ o, in_protocol pv o → _writeMajority (rc_config s) ≤ voters_at s o →
    OT.leb (rc_firstOpTimeOfMyTerm s) o = true → OT.leb o (rc_lastCommittedOpTime s') = true;
  cm_snapshot : rc_currentCommittedSnapshot s' = newest_at s (rc_lastCommittedOpTime s');
  cm_uncommitted : rc_uncommittedSnapshots s' = later_than s (rc_lastCommittedOpTime s') }.

(** The element the code picks: a write majority has reached it, and nothing later. *)
Lemma picked_optime s :
  CInv pv s →
  let times := voter_times (uses_durable s) (zip (_members (rc_config s)) (rc_slaveInfo s)) in
  let wm := _writeMajority (rc_config s) in
  ∃ o, 0 < vsize times ∧ wm ≤ vsize times ∧
    vat 3293 (sort_optimes times) (vsize times - wm) = Ret o ∧ in_protocol pv o ∧
    wm ≤ voters_at s o ∧ ∀ o', in_protocol pv o' → wm ≤ voters_at s o' → ¬ lex_lt o o'.
Proof.
  intros [HP Ht _ _ _] times wm. destruct (pg_config s HP) as [p Hval].
  pose proof (RSC.majority_bounds p _ Hval (pg_majorities s HP)) as (_ & Hm & Hwm & _).
  pose proof (voter_times_size s (uses_durable s) HP) as Hsz. fold times in Hsz. fold wm in Hwm.
  assert (Forall (in_protocol pv) times) as Htp.
  { unfold times, voter_times. apply Forall_fmap, Forall_forall. intros [m si] Hin.
    apply list_elem_of_In, List.filter_In in Hin as [Hin _]. apply list_elem_of_In, elem_of_zip_r in Hin.
    rewrite Forall_forall in Ht. destruct (Ht si Hin). simpl. unfold slave_time. by case_match. }
  assert (vsize (sort_optimes times) = vsize times) as Hsort.
  { unfold vsize. by rewrite sort_optimes_perm. }
  destruct (vat_in_range 3293 (sort_optimes times) (vsize times - wm)) as (o & Ho & Hlk); [lia|].
  assert (Forall (in_protocol pv) (sort_optimes times)) as Htp' by (by rewrite sort_optimes_perm).
  destruct (sorted_rank pv _ _ _ Htp' (sort_optimes_sorted pv _ Htp) Hlk) as [Hlo Hhi].
  assert (∀ x, voters_at s x = count_if (λ y, OT.geb y x) (sort_optimes times)) as Hcount.
  { intros x. rewrite (count_if_perm _ _ _ (sort_optimes_perm times)). unfold times. by rewrite count_voter_times. }
  exists o. split_and!; [lia|lia|done|by eapply Forall_lookup_1|rewrite Hcount; lia|].
  intros o' Hp' Hw Hlt. rewrite Hcount in Hw. specialize (Hhi o' Hp' Hlt). lia.
Qed.

Lemma not_advanced s o :
  CInv pv s → in_protocol pv o → is_primary s = true → advances s o = false →
  ¬ lex_lt (rc_lastCommittedOpTime s) o ∨ lex_lt o (rc_firstOpTimeOfMyTerm s).
Proof.
  intros HC Ho Hp. unfold advances. rewrite Hp. simpl. intros [H|H]%andb_false_iff.
  - left. rewrite <-(OT_ltb_protocol pv) by (done || apply HC). by rewrite H.
  - right. apply negb_false_iff in H. apply (OT_ltb_protocol pv) in H; [done..|apply HC].
Qed.

Lemma wp_update_last_committed now s :
  CInv pv s → is_primary s = true → rc_stepDownPending s = false →
  wp (_updateLastCommittedOpTime_inlock now) (λ _, commits_majority s) s.
Proof.
  intros HC Hp Hd. destruct (picked_optime s HC) as (o & Hpos & Hsz & Hpick & Ho & Hmaj & Hmax).
  pose proof (cv_committed _ _ HC) as Hl. pose proof (cv_first _ _ HC) as Hf.
  unfold _updateLastCommittedOpTime_inlock, update_last_committed. wp_simpl. unfold id.
  rewrite Hp, Hd. cbn [negb orb]. wp_simpl. fold (uses_durable s). rewrite voting_optimes_spec by apply HC. cbn [owp]. wp_simpl.
  rewrite (proj2 (Z.ltb_lt 0 _) Hpos). split; [done|]. rewrite (proj2 (Z.ltb_ge _ _) Hsz).
  wp_simpl. rewrite Hpick. cbn [owp]. apply (wp_advance now o); [done..| | |].
  - unfold is_arbiter, is_primary, state_eqb in *. apply bool_decide_eq_true in Hp as ->. done.
  - intros Hno%not_advanced; [|done..]. destruct (newest_at_committed s HC) as [Hn Hn'].
    constructor; try done; [by left|]. intros o' Ho' Hm' Hfirst. specialize (Hmax o' Ho' Hm').
    apply (OT_leb_protocol pv) in Hfirst; [|done..]. apply (OT_leb_protocol pv); [done..|].
    unfold lex_lt in *. lia.
  - intros s' Hyes Hfr HC' El Ec Eu. constructor; rewrite ?El; try done.
    + right. apply andb_true_iff in Hyes as [Hlt Hyes]. rewrite Hp in Hyes. apply negb_true_iff in Hyes.
      split_and!; [done| |done]. apply (OT_leb_protocol pv); [done..|].
      rewrite <-(OT_ltb_protocol pv) by done. simpl in Hyes. by rewrite Hyes.
    + intros o' Ho' Hm' _. apply (OT_leb_protocol pv); auto.
Qed.

(** ** Reports *)

(** [si'] is an entry for the same member, at least as far. *)
Record grows (si si' : SlaveInfo) : Prop := mkGrows {
  gr_member : si_memberId si' = si_memberId si; gr_host : si_hostAndPort si' = si_hostAndPort si;
  gr_self : si_self si' = si_self si;
  gr_applied : ¬ lex_lt (si_lastAppliedOpTime si') (si_lastAppliedOpTime si);
  gr_durable : ¬ lex_lt (si_lastDurableOpTime si') (si_lastDurableOpTime si) }.
#[local] Instance grows_refl : Reflexive grows.
Proof. intros si. constructor; try done; unfold lex_lt; lia. Qed.
#[local] Instance grows_trans : Transitive grows.
Proof. intros a b c [] []. constructor; try congruence; unfold lex_lt in *; lia. Qed.

Definition si_in_protocol (si : SlaveInfo) : Prop :=
  in_protocol pv (si_lastAppliedOpTime si) ∧ in_protocol pv (si_lastDurableOpTime si).

(** On a primary, the commit point is the newest optime of its term that a write majority has
    reached: a majority has reached it, unless it is from before the term, and every optime of the
    term that a majority has reached is at or before it. *)
Definition reached s : Prop :=
  is_primary s = true → rc_stepDownPending s = false →
  OT.leb (rc_firstOpTimeOfMyTerm s) (rc_lastCommittedOpTime s) = true →
  _writeMajority (rc_config s) ≤ voters_at s (rc_lastCommittedOpTime s).
Definition newest s : Prop :=
  is_primary s = true → rc_stepDownPending s = false →
  ∀ o, in_protocol pv o → _writeMajority (rc_config s) ≤ voters_at s o →
       OT.leb (rc_firstOpTimeOfMyTerm s) o = true → OT.leb o (rc_lastCommittedOpTime s) = true.
Definition up_to_date s : Prop := reached s ∧ newest s.

(** More members have reached an optime when entries grow. *)
Lemma slave_time_grows d si si' o :
  in_protocol pv o → si_in_protocol si → si_in_protocol si' → grows si si' →
  OT.geb (slave_time d si) o = true → OT.geb (slave_time d si') o = true.
Proof.
  intros Ho [Ha Hd] [Ha' Hd'] [_ _ _ Hga Hgd]. unfold OT.geb, slave_time. rewrite !negb_true_iff, <-!not_true_iff_false.
  destruct d; rewrite !(OT_ltb_protocol pv) by done; unfold lex_lt in *; lia.
Qed.
Lemma voters_at_grows s l o :
  CInv pv s → in_protocol pv o → Forall si_in_protocol l → Forall2 grows (rc_slaveInfo s) l →
  voters_at s o ≤ voters_at (s <| rc_slaveInfo := l |>) o.
Proof.
  intros HC Ho Hl Hg. pose proof (cv_times _ _ HC) as Ht. unfold voters_at, uses_durable. simpl.
  generalize (_writeConcernMajorityJournalDefault (rc_config s)). intros d. revert Ht. generalize (_members (rc_config s)).
  induction Hg as [|si si' l0 l Hsi Hg IH]; intros ms Ht; [done|]. apply Forall_cons in Ht as [Hp Ht]. apply Forall_cons in Hl as [Hp' Hl].
  destruct ms as [|m ms]; [done|]. simpl. rewrite !count_if_cons. specialize (IH Hl ms Ht). simpl.
  pose proof (slave_time_grows d si si' o Ho Hp Hp' Hsi). destruct (MC.isVoter m); simpl; [|lia].
  destruct (OT.geb (slave_time d si) o); [rewrite H by done; lia|]. destruct (OT.geb _ _); lia.
Qed.

(** What no report changes: the role of the node; and what only grows: the commit point and the
    waiters signalled. *)
Record kept s s' : Prop := mkKept {
  kp_config : rc_config s' = rc_config s; kp_self : rc_selfIndex s' = rc_selfIndex s;
  kp_state : rc_memberState s' = rc_memberState s;
  kp_pending : rc_stepDownPending s' = rc_stepDownPending s;
  kp_first : rc_firstOpTimeOfMyTerm s' = rc_firstOpTimeOfMyTerm s;
  kp_committed : ¬ lex_lt (rc_lastCommittedOpTime s') (rc_lastCommittedOpTime s);
  kp_waiters : ∃ woken, rc_replicationWaiters s' ++ woken ≡ₚ rc_replicationWaiters s ∧
                        rc_signalled s' = rc_signalled s ++ woken }.
#[local] Instance kept_refl : Reflexive kept.
Proof. intros s. constructor; try done; [unfold lex_lt; lia|]. exists []. by rewrite !app_nil_r. Qed.
#[local] Instance kept_trans : Transitive kept.
Proof.
  intros s1 s2 s3 [????? ? (w1 & Hw1 & Hg1)] [????? ? (w2 & Hw2 & Hg2)].
  constructor; try congruence; [unfold lex_lt in *; lia|].
  exists (w1 ++ w2). rewrite Hg2, Hg1, <-app_assoc. split; [|done].
  rewrite <-Hw1, <-Hw2, <-!app_assoc. apply Permutation_app_head, Permutation_app_comm.
Qed.
Lemma frame_kept s s' :
  frame s s' → ¬ lex_lt (rc_lastCommittedOpTime s') (rc_lastCommittedOpTime s) → kept s s'.
Proof. intros [] ?. by constructor. Qed.
Lemma up_to_date_ext s s' :
  rc_config s' = rc_config s → rc_memberState s' = rc_memberState s →
  rc_stepDownPending s' = rc_stepDownPending s → rc_firstOpTimeOfMyTerm s' = rc_firstOpTimeOfMyTerm s →
  rc_lastCommittedOpTime s' = rc_lastCommittedOpTime s → (∀ o, voters_at s' o = voters_at s o) →
  up_to_date s → up_to_date s'.
Proof.
  intros Ec Es Ep Ef El Ev [Hr Hn]. split; unfold reached, newest, is_primary; rewrite Ec, Es, Ep, Ef, El.
  - rewrite Ev. by apply Hr.
  - intros ?? o. rewrite Ev. by apply Hn.
Qed.

(** Recomputing the commit point brings it up to date, on every node. *)
Lemma wp_recommit now s (Q : () → ReplCoord → Prop) :
  CInv pv s →
  (∀ s', CInv pv s' → frame s s' → ¬ lex_lt (rc_lastCommittedOpTime s') (rc_lastCommittedOpTime s) →
         (reached s → up_to_date s') → Q tt s') →
  wp (_updateLastCommittedOpTime_inlock now) Q s.
Proof.
  intros HC HQ. destruct (negb (is_primary s) || rc_stepDownPending s) eqn:E.
  - unfold _updateLastCommittedOpTime_inlock, update_last_committed. wp_simpl. unfold id. rewrite E.
    apply wp_ret, HQ; [done|reflexivity|unfold lex_lt; lia|]. intros _. split; intros Hp Hd; rewrite Hp, Hd in E; done.
  - apply orb_false_iff in E as [Hp%negb_false_iff Hd].
    eapply wp_mono; [|by apply wp_update_last_committed]. intros [] s' [HC' Hf Hmv Hnew _ _].
    apply HQ; [done..| |].
    + destruct Hmv as [->|[Hlt _]]; [unfold lex_lt; lia|].
      apply (OT_ltb_protocol pv) in Hlt; [|apply HC|apply HC']. unfold lex_lt in *. lia.
    + intros Hre. split; intros _ _; unfold voters_at, uses_durable; rewrite (fr_config _ _ Hf), (fr_info _ _ Hf), (fr_first _ _ Hf).
      * destruct Hmv as [->|(_ & _ & Hm)]; [by apply Hre|done].
      * intros o Ho Hv Hfst. by apply Hnew.
Qed.
Lemma wp_wake_inv s (Q : () → ReplCoord → Prop) :
  CInv pv s → up_to_date s →
  (∀ s', CInv pv s' → frame s s' → rc_lastCommittedOpTime s' = rc_lastCommittedOpTime s →
         up_to_date s' → Q tt s') →
  wp _wakeReadyWaiters_inlock Q s.
Proof.
  intros HC Hu HQ. apply wp_wake; [apply HC|]. intros s' Hf El Eu Ec. apply HQ; try done.
  - eapply CInv_frame; [done..| |by rewrite El; apply HC].
    destruct (cv_snapshots _ _ HC) as [???]. constructor; rewrite ?Eu, ?Ec, ?El; done.
  - apply (up_to_date_ext s); try apply Hf; try done. intros o. unfold voters_at, uses_durable.
    by rewrite (fr_config _ _ Hf), (fr_info _ _ Hf).
Qed.

Lemma wp_set_info i f s (Q : () → ReplCoord → Prop) si :
  0 ≤ i → rc_slaveInfo s !! Z.to_nat i = Some si →
  Q tt (s <| rc_slaveInfo := vset i (f si) (rc_slaveInfo s) |>) → wp (set_info i f) Q s.
Proof.
  intros Hi Hl HQ. unfold set_info. wp_simpl. rewrite (proj2 (vat_Ret 1234 _ _ si)) by done. exact HQ.
Qed.
Lemma CInv_set_info i si si' s :
  CInv pv s → rc_slaveInfo s !! Z.to_nat i = Some si → si_memberId si' = si_memberId si →
  in_protocol pv (si_lastAppliedOpTime si') → in_protocol pv (si_lastDurableOpTime si') →
  CInv pv (s <| rc_slaveInfo := vset i si' (rc_slaveInfo s) |>).
Proof.
  intros [[? ? Hal Hself ?] Ht ? ? Hs] Hl Hid Ha Hd. constructor; simpl; try done.
  - constructor; simpl; try done; [|by rewrite vsize_vset]. rewrite <-Hal. unfold vset.
    destruct (0 <=? i); [|done]. rewrite list_fmap_insert, Hid. apply list_insert_id.
    by rewrite list_lookup_fmap, Hl.
  - by apply Forall_vset.
  - destruct Hs. by constructor.
Qed.

Lemma kept_set_info s l : kept s (s <| rc_slaveInfo := l |>).
Proof. constructor; try done; [unfold lex_lt; simpl; lia|]. exists []. by rewrite !app_nil_r. Qed.

Lemma Forall2_vset_grows l i si si' :
  l !! Z.to_nat i = Some si → grows si si' → Forall2 grows l (vset i si' l).
Proof.
  intros Hl Hg. apply Forall2_same_length_lookup_2.
  - unfold vset. destruct (0 <=? i); [by rewrite length_insert|done].
  - intros j a b Ha Hb. unfold vset in Hb. destruct (0 <=? i); [|rewrite Ha in Hb; injection Hb as ->; reflexivity].
    destruct (decide (Z.to_nat i = j)) as [<-|Hne].
    + rewrite list_lookup_insert_eq in Hb by (by eapply lookup_lt_Some). congruence.
    + rewrite list_lookup_insert_ne in Hb by done. rewrite Ha in Hb. injection Hb as ->. reflexivity.
Qed.
(** Recording an optime: set, recompute the commit point, wake. *)
Lemma wp_record now i f s si (Q : () → ReplCoord → Prop) :
  CInv pv s → reached s → 0 ≤ i → rc_slaveInfo s !! Z.to_nat i = Some si → grows si (f si) → si_in_protocol (f si) →
  (∀ s', CInv pv s' → up_to_date s' → kept s s' →
         rc_slaveInfo s' = vset i (f si) (rc_slaveInfo s) → Q tt s') →
  wp (set_info i f ;; _updateLastCommittedOpTime_inlock now ;; _wakeReadyWaiters_inlock) Q s.
Proof.
  intros HC Hre Hi Hl Hg [Ha Hd] HQ. apply wp_bind. eapply wp_set_info; [done..|]. cbn beta.
  pose proof (gr_member _ _ Hg) as Hid.
  assert (CInv pv (s <| rc_slaveInfo := vset i (f si) (rc_slaveInfo s) |>)) as HC0 by (by eapply CInv_set_info).
  assert (reached (s <| rc_slaveInfo := vset i (f si) (rc_slaveInfo s) |>)) as Hre0.
  { intros Hp Hnp Hf. etrans; [by apply Hre|]. apply voters_at_grows; [done|apply HC|apply HC0|by eapply Forall2_vset_grows]. }
  apply wp_bind. apply wp_recommit; [done|]. intros s1 HC1 Hf1 Hmono1 Hu1. specialize (Hu1 Hre0). apply wp_wake_inv; [done..|].
  intros s2 HC2 Hf2 El2 Hu2. apply HQ; [done..| |].
  - etrans; [apply kept_set_info|]. etrans; [by apply frame_kept|]. apply frame_kept; [done|].
    rewrite El2. unfold lex_lt. lia.
  - by rewrite (fr_info _ _ Hf2), (fr_info _ _ Hf1).
Qed.

(** What an accepted report leaves in the entry of its member. *)
Definition merge_applied (now : Z) (args : UpdateInfo) (si : SlaveInfo) : SlaveInfo :=
  if OT.ltb (si_lastAppliedOpTime si) (up_appliedOpTime args)
  then si <| si_lastAppliedOpTime := up_appliedOpTime args |> <| si_lastUpdate := now |> <| si_down := false |>
  else si.
Definition merge_durable (now : Z) (args : UpdateInfo) (si : SlaveInfo) : SlaveInfo :=
  if OT.ltb (si_lastDurableOpTime si) (up_durableOpTime args) &&
     negb (OT.ltb (si_lastAppliedOpTime si) (up_durableOpTime args))
  then si <| si_lastDurableOpTime := up_durableOpTime args |> <| si_lastUpdate := now |> <| si_down := false |>
  else si.
Definition merge (now : Z) (args : UpdateInfo) (si : SlaveInfo) : SlaveInfo :=
  merge_durable now args (merge_applied now args si) <| si_lastUpdate := now |> <| si_down := false |>.
Definition wf_report (args : UpdateInfo) : Prop :=
  in_protocol pv (up_appliedOpTime args) ∧ in_protocol pv (up_durableOpTime args) ∧
  up_memberId args ≤ INT_MAX.

(** The entry covers the report [args]. *)
Definition covers (args : UpdateInfo) (si : SlaveInfo) : Prop :=
  ¬ lex_lt (si_lastAppliedOpTime si) (up_appliedOpTime args) ∧
  (¬ lex_lt (up_appliedOpTime args) (up_durableOpTime args) →
   ¬ lex_lt (si_lastDurableOpTime si) (up_durableOpTime args)).

Lemma merge_applied_spec now args si :
  si_in_protocol si → wf_report args →
  si_in_protocol (merge_applied now args si) ∧ grows si (merge_applied now args si) ∧
  ¬ lex_lt (si_lastAppliedOpTime (merge_applied now args si)) (up_appliedOpTime args).
Proof.
  intros [Ha Hd] (Ha' & Hd' & _). unfold merge_applied.
  pose proof (OT_ltb_protocol pv _ _ Ha Ha') as Hlt. destruct (OT.ltb _ _); simpl.
  - split_and!; [done| |unfold lex_lt; lia]. destruct Hlt as [Hlt _]. specialize (Hlt eq_refl).
    constructor; try done; simpl; unfold lex_lt in *; lia.
  - split_and!; [done|done|]. intros H. by apply Hlt in H.
Qed.
Lemma merge_durable_spec now args si :
  si_in_protocol si → wf_report args →
  si_in_protocol (merge_durable now args si) ∧ grows si (merge_durable now args si) ∧
  (¬ lex_lt (si_lastAppliedOpTime si) (up_durableOpTime args) →
   ¬ lex_lt (si_lastDurableOpTime (merge_durable now args si)) (up_durableOpTime args)).
Proof.
  intros [Ha Hd] (Ha' & Hd' & _). unfold merge_durable.
  pose proof (OT_ltb_protocol pv _ _ Hd Hd') as Hlt. pose proof (OT_ltb_protocol pv _ _ Ha Hd') as Hla.
  destruct (OT.ltb (si_lastDurableOpTime si) _); simpl.
  - destruct Hlt as [Hlt _]. specialize (Hlt eq_refl). destruct (OT.ltb _ _); simpl.
    + split_and!; [done|done|]. intros []. by apply Hla.
    + split_and!; [done| |unfold lex_lt; lia]. constructor; try done; simpl; unfold lex_lt in *; lia.
  - split_and!; [done|done|]. intros _ H. by apply Hlt in H.
Qed.
Lemma merge_spec now args si :
  si_in_protocol si → wf_report args →
  si_in_protocol (merge now args si) ∧ grows si (merge now args si) ∧ covers args (merge now args si).
Proof.
  intros Hsi Hw. destruct (merge_applied_spec now args si Hsi Hw) as (H1 & H2 & H3).
  destruct (merge_durable_spec now args _ H1 Hw) as (H4 & H5 & H6). unfold merge.
  split_and!; [done| |].
  - etrans; [exact H2|]. etrans; [exact H5|]. constructor; try done; simpl; unfold lex_lt; lia.
  - split; simpl; [pose proof (gr_applied _ _ H5); unfold lex_lt in *; lia|].
    intros Hle. apply H6. unfold lex_lt in *. lia.
Qed.

Lemma vat_of_lookup {A} line (l : list A) i a : 0 ≤ i → l !! Z.to_nat i = Some a → vat line l i = Ret a.
Proof. intros. by apply vat_Ret. Qed.
Lemma vset_vset {A} i (a b : A) l : vset i a (vset i b l) = vset i a l.
Proof. unfold vset. destruct (0 <=? i); [|done]. apply list_insert_insert_eq. Qed.
Lemma vset_lookup_same {A} i (a b : A) l :
  0 ≤ i → l !! Z.to_nat i = Some b → vset i a l !! Z.to_nat i = Some a.
Proof.
  intros Hi Hl. unfold vset. rewrite (proj2 (Z.leb_le 0 i) Hi).
  apply list_lookup_insert_eq. by eapply lookup_lt_Some.
Qed.
Lemma vset_id {A} i (a : A) l : l !! Z.to_nat i = Some a → vset i a l = l.
Proof. intros Hl. unfold vset. destruct (0 <=? i); [by apply list_insert_id|done]. Qed.

(** Only the optimes of the entries matter to the commit point. *)
Lemma voters_at_ext s l o :
  slave_time (uses_durable s) <$> l = slave_time (uses_durable s) <$> rc_slaveInfo s →
  voters_at (s <| rc_slaveInfo := l |>) o = voters_at s o.
Proof.
  unfold voters_at, uses_durable. simpl. generalize (_writeConcernMajorityJournalDefault (rc_config s)).
  intros d. generalize (rc_slaveInfo s) (_members (rc_config s)). intros l0 ms. revert l l0.
  induction ms as [|m ms IH]; intros [|si l] [|si0 l0] Hl; try done. injection Hl as Hs Hl.
  simpl. rewrite !count_if_cons, (IH l l0) by done. simpl. by rewrite Hs.
Qed.

(** The part of [_setLastOptime_inlock] that records a report of the member at [i]. *)
Section report.
Context (now : Z) (args : UpdateInfo) (i : Z) (Hw : wf_report args) (Hi : 0 ≤ i).

Lemma in_protocol_at s si : CInv pv s → rc_slaveInfo s !! Z.to_nat i = Some si → si_in_protocol si.
Proof. intros HC Hl. pose proof (cv_times _ _ HC) as Ht. by eapply Forall_lookup_1 in Ht. Qed.

Lemma wp_applied_step s si (Q : () → ReplCoord → Prop) :
  CInv pv s → up_to_date s → rc_slaveInfo s !! Z.to_nat i = Some si →
  (∀ s', CInv pv s' → up_to_date s' → kept s s' →
         rc_slaveInfo s' = vset i (merge_applied now args si) (rc_slaveInfo s) → Q tt s') →
  wp (if OT.ltb (si_lastAppliedOpTime si) (up_appliedOpTime args)
      then _updateSlaveInfoAppliedOpTime_inlock now i (up_appliedOpTime args) else mret tt) Q s.
Proof.
  intros HC Hu Hl. destruct (merge_applied_spec now args si (in_protocol_at s si HC Hl) Hw) as (Hsi & Hg & _).
  unfold merge_applied in *. destruct (OT.ltb _ _); intros HQ.
  - unfold _updateSlaveInfoAppliedOpTime_inlock, update_applied.
    eapply wp_record; [done|apply Hu|done|done|exact Hg|exact Hsi|done].
  - apply wp_ret, HQ; [done|done|reflexivity|by rewrite vset_id].
Qed.
Lemma wp_durable_step s si (Q : () → ReplCoord → Prop) :
  CInv pv s → up_to_date s → rc_slaveInfo s !! Z.to_nat i = Some si →
  (∀ s', CInv pv s' → up_to_date s' → kept s s' →
         rc_slaveInfo s' = vset i (merge_durable now args si) (rc_slaveInfo s) → Q tt s') →
  wp (if OT.ltb (si_lastDurableOpTime si) (up_durableOpTime args)
      then _updateSlaveInfoDurableOpTime_inlock now i (up_durableOpTime args) else mret tt) Q s.
Proof.
  intros HC Hu Hl. destruct (merge_durable_spec now args si (in_protocol_at s si HC Hl) Hw) as (Hsi & Hg & _).
  unfold merge_durable in *. destruct (OT.ltb (si_lastDurableOpTime si) _); intros HQ.
  2:{ apply wp_ret, HQ; [done|done|reflexivity|by rewrite vset_id]. }
  unfold _updateSlaveInfoDurableOpTime_inlock. apply wp_bind, wp_reads.
  rewrite (vat_of_lookup 1061 _ _ si) by done. cbn [owp]. destruct (OT.ltb _ _); simpl in HQ, Hg, Hsi.
  - apply wp_ret, HQ; [done|done|reflexivity|by rewrite vset_id].
  - eapply wp_record; [done|apply Hu|done|done|exact Hg|exact Hsi|done].
Qed.

Lemma wp_record_report si s (Q : Status * option Z → ReplCoord → Prop) :
  CInv pv s → up_to_date s → rc_slaveInfo s !! Z.to_nat i = Some si →
  (∀ s', CInv pv s' → up_to_date s' → kept s s' →
         rc_slaveInfo s' = vset i (merge now args si) (rc_slaveInfo s) → Q (OK tt, None) s') →
  wp ((if OT.ltb (si_lastAppliedOpTime si) (up_appliedOpTime args)
       then _updateSlaveInfoAppliedOpTime_inlock now i (up_appliedOpTime args) else mret tt) ;;
      info ← reads (λ s, vat 1530 (rc_slaveInfo s) i);
      (if OT.ltb (si_lastDurableOpTime info) (up_durableOpTime args)
       then _updateSlaveInfoDurableOpTime_inlock now i (up_durableOpTime args) else mret tt) ;;
      set_info i (λ info, info <| si_lastUpdate := now |> <| si_down := false |>) ;;
      mret (OK tt, None)) Q s.
Proof.
  intros HC Hu Hl HQ. apply wp_bind, (wp_applied_step s si); [done..|]. intros s1 HC1 Hu1 Hk1 E1.
  assert (rc_slaveInfo s1 !! Z.to_nat i = Some (merge_applied now args si)) as Hl1.
  { rewrite E1. by eapply vset_lookup_same. }
  apply wp_bind, wp_reads. rewrite (vat_of_lookup 1530 _ _ _ Hi Hl1). cbn [owp].
  apply wp_bind, (wp_durable_step s1); [done..|]. intros s2 HC2 Hu2 Hk2 E2.
  assert (rc_slaveInfo s2 !! Z.to_nat i = Some (merge_durable now args (merge_applied now args si))) as Hl2.
  { rewrite E2. by eapply vset_lookup_same. }
  apply wp_bind. eapply wp_set_info; [done..|]. cbn beta.
  pose proof (in_protocol_at s2 _ HC2 Hl2) as [Ha Hd]. apply wp_ret, HQ.
  - by eapply CInv_set_info.
  - apply (up_to_date_ext s2); try done. intros o. apply voters_at_ext.
    unfold vset. destruct (0 <=? i); [|done]. rewrite list_fmap_insert. apply list_insert_id.
    rewrite list_lookup_fmap, Hl2. csimpl. f_equal.
  - etrans; [exact Hk1|]. etrans; [exact Hk2|]. apply kept_set_info.
  - cbn [rc_slaveInfo update]. rewrite E2, E1, !vset_vset. done.
Qed.
End report.

(** Which reports are accepted. *)
Definition accepts s (args : UpdateInfo) : Prop :=
  up_memberId args ∈ mc_id <$> _members (rc_config s) ∧ 0 ≤ up_memberId args ∧
  (up_cfgver args = _version (rc_config s) ∨
   (mc_id <$> _members (rc_config s)) !! Z.to_nat (rc_selfIndex s) = Some (up_memberId args)).
(** Every entry but our own covers the report. *)
Definition recorded s (args : UpdateInfo) : Prop :=
  ∀ j si, rc_slaveInfo s !! j = Some si → Z.of_nat j ≠ rc_selfIndex s →
          si_memberId si = up_memberId args → covers args si.
Record reported s s' : Prop := mkReported {
  rp_inv : CInv pv s'; rp_current : up_to_date s'; rp_kept : kept s s';
  rp_grows : Forall2 grows (rc_slaveInfo s) (rc_slaveInfo s') }.

Lemma ids_are_nonneg s m : progress_ok s → m ∈ _members (rc_config s) → 0 ≤ mc_id m ≤ 255.
Proof.
  intros HP Hm. destruct (pg_config s HP) as [p (_ & _ & _ & _ & Hv & _)].
  rewrite Forall_forall in Hv. destruct (Hv m Hm) as (? & _). done.
Qed.

Lemma reported_refl s : CInv pv s → up_to_date s → reported s s.
Proof. intros. constructor; [done|done|reflexivity|]. by apply Forall2_same_length_lookup_2; [|intros ??? ->; injection 1 as ->]. Qed.
Lemma reported_trans s1 s2 s3 : reported s1 s2 → reported s2 s3 → reported s1 s3.
Proof. intros [_ _ Hk1 Hg1] [HC Hu Hk2 Hg2]. constructor; [done..|by etrans|by etrans]. Qed.

(** At most one entry has a given member id. *)
Lemma entry_unique s j j' si si' :
  progress_ok s → rc_slaveInfo s !! j = Some si → rc_slaveInfo s !! j' = Some si' →
  si_memberId si = si_memberId si' → j = j'.
Proof.
  intros HP Hj Hj' Heq. pose proof (config_ids s HP) as Hnd. rewrite <-(pg_aligned s HP) in Hnd.
  eapply (NoDup_lookup _ j j' (si_memberId si)); [exact Hnd|..]; rewrite list_lookup_fmap, ?Hj, ?Hj'; csimpl; congruence.
Qed.

(** Our own entry is the one at [rc_selfIndex]. *)
Lemma recorded_self s args :
  progress_ok s → (mc_id <$> _members (rc_config s)) !! Z.to_nat (rc_selfIndex s) = Some (up_memberId args) →
  recorded s args.
Proof.
  intros HP Hme j si Hj Hjs Hid. destruct Hjs. rewrite <-(pg_aligned s HP), list_lookup_fmap in Hme.
  apply fmap_Some in Hme as (si' & Hsi' & Heq). pose proof (pg_self s HP).
  rewrite (entry_unique s j (Z.to_nat (rc_selfIndex s)) si si' HP Hj Hsi'); [lia|congruence].
Qed.
(** A report from a member that has no entry. *)
Lemma unknown_member s id :
  progress_ok s → _findSlaveInfoByMemberID_inlock s id = -1 →
  id ∉ (mc_id <$> _members (rc_config s)) ∧ RSC.findMemberByID (rc_config s) id = None.
Proof.
  unfold _findSlaveInfoByMemberID_inlock. intros HP Hn. rewrite index_where_none in Hn.
  assert (id ∉ (mc_id <$> _members (rc_config s))) as Hnot.
  { rewrite <-(pg_aligned s HP). intros (si & -> & Hin)%list_elem_of_fmap. specialize (Hn si Hin). simpl in Hn. lia. }
  split; [done|]. unfold RSC.findMemberByID. destruct (find _ _) as [m|] eqn:E; [|done]. destruct Hnot.
  apply find_some in E as [Hin Heq]. apply Z.eqb_eq in Heq as <-.
  apply list_elem_of_fmap_2, list_elem_of_In, Hin.
Qed.
Lemma known_member s id :
  _findSlaveInfoByMemberID_inlock s id ≠ -1 →
  ∃ si, 0 ≤ _findSlaveInfoByMemberID_inlock s id ∧
        rc_slaveInfo s !! Z.to_nat (_findSlaveInfoByMemberID_inlock s id) = Some si ∧ si_memberId si = id.
Proof.
  intros Hn. unfold _findSlaveInfoByMemberID_inlock in *.
  destruct (index_where_range (λ it, si_memberId it =? id) (rc_slaveInfo s)) as [Hr|Hr]; [done|].
  apply index_where_found in Hn as (si & Hl & Hp & _). exists si. apply Z.eqb_eq in Hp. split_and!; [lia|done..].
Qed.

(** A report from a known member of our configuration version. *)
Lemma wp_setLastOptime_known now args s si (Q : Status * option Z → ReplCoord → Prop) :
  CInv pv s → up_to_date s → wf_report args →
  let i := _findSlaveInfoByMemberID_inlock s (up_memberId args) in
  0 ≤ i → rc_slaveInfo s !! Z.to_nat i = Some si → si_memberId si = up_memberId args →
  (∀ s', reported s s' → recorded s' args → Q (OK tt, None) s') →
  wp (info ← reads (λ s, vat 1518 (rc_slaveInfo s) i);
      invariant 1518 (λ _, up_memberId args =? si_memberId info) ;;
      (if OT.ltb (si_lastAppliedOpTime info) (up_appliedOpTime args)
       then _updateSlaveInfoAppliedOpTime_inlock now i (up_appliedOpTime args) else mret tt) ;;
      info ← reads (λ s, vat 1530 (rc_slaveInfo s) i);
      (if OT.ltb (si_lastDurableOpTime info) (up_durableOpTime args)
       then _updateSlaveInfoDurableOpTime_inlock now i (up_durableOpTime args) else mret tt) ;;
      set_info i (λ info, info <| si_lastUpdate := now |> <| si_down := false |>) ;;
      mret (OK tt, None)) Q s.
Proof.
  intros HC Hu Hw i Hi Hl Hid HQ. apply wp_bind, wp_reads. rewrite (vat_of_lookup 1518 _ _ si) by done.
  cbn [owp]. apply wp_bind, wp_invariant. split; [by apply Z.eqb_eq|].
  apply wp_record_report; [done..|]. intros s' HC' Hu' Hk E.
  destruct (merge_spec now args si (in_protocol_at i s si HC Hl) Hw) as (_ & Hg & Hcov).
  apply HQ.
  - constructor; [done..|]. rewrite E. by eapply Forall2_vset_grows.
  - intros j si' Hj _ Hid'.
    assert (rc_slaveInfo s' !! Z.to_nat i = Some (merge now args si)) as Hm
      by (rewrite E; by eapply vset_lookup_same).
    assert (j = Z.to_nat i) as -> by (eapply (entry_unique s');
      [apply HC'|done..|rewrite (gr_member _ _ Hg); congruence]).
    congruence.
Qed.

Lemma wp_setLastOptime now args s :
  CInv pv s → up_to_date s → wf_report args →
  wp (_setLastOptime_inlock now args) (λ r s',
    reported s s' ∧ (r.1 = OK tt ↔ accepts s args) ∧ (r.1 = OK tt → recorded s' args)) s.
Proof.
  intros HC Hu Hw. pose proof (cv_progress _ _ HC) as HP. pose proof (pg_self s HP) as Hself.
  pose proof (reported_refl s HC Hu) as Hrefl.
  unfold _setLastOptime_inlock. wp_simpl. unfold id. rewrite (proj2 (Z.eqb_neq _ _)) by lia.
  destruct (Z.ltb_spec (up_memberId args) 0) as [Hneg|Hneg].
  { apply wp_ret. split_and!; [done| |done]. split; [done|]. intros (_ & ? & _). lia. }
  assert (vsize (rc_slaveInfo s) = vsize (_members (rc_config s))) as Hsz.
  { unfold vsize. by rewrite <-(length_fmap si_memberId), (pg_aligned s HP), length_fmap. }
  wp_simpl. unfold RSC.getMemberAt. rewrite Hsz in Hself. apply owp_vat; [done|]. intros self Hlk.
  assert ((mc_id <$> _members (rc_config s)) !! Z.to_nat (rc_selfIndex s) = Some (mc_id self)) as Hme
    by (by rewrite list_lookup_fmap, Hlk).
  destruct (Z.eqb_spec (up_memberId args) (mc_id self)) as [Heq|Hne].
  { rewrite <-Heq in Hme. apply wp_ret. split_and!; [done| |by intros _; apply recorded_self].
    split; [intros _|done]. split_and!; [by eapply list_elem_of_lookup_2|done|by right]. }
  destruct (Z.eqb_spec (up_cfgver args) (_version (rc_config s))) as [Hver|Hver]; cbn [negb].
  2:{ apply wp_ret. split_and!; [done| |done]. split; [done|]. intros (_ & _ & [?|Hme']); [done|].
      rewrite Hme in Hme'. injection Hme' as ?. congruence. }
  rewrite i32_small by (unfold wf_report, INT_MIN in *; lia).
  destruct (Z.eqb_spec (_findSlaveInfoByMemberID_inlock s (up_memberId args)) (-1)) as [Hno|Hyes].
  - apply unknown_member in Hno as [Hin Hfind]; [|done]. wp_simpl. rewrite Hfind. split; [done|].
    split_and!; [done| |done]. split; [done|]. by intros (? & _).
  - destruct (known_member _ _ Hyes) as (si & Hi & Hl & Hid).
    apply (wp_setLastOptime_known now args s si); [done..|]. intros s' Hr Hc. split_and!; [done| |done].
    split; [intros _|done]. split_and!; [|done|by left]. rewrite <-(pg_aligned s HP), <-Hid.
    apply list_elem_of_fmap_2. by eapply list_elem_of_lookup_2.
Qed.
End commit_point.

(** ** When a write concern is fulfilled *)
Definition nodes_at s (durable : bool) (o : OpTime) : Z :=
  count_if (λ si, OT.geb (slave_time durable si) o) (rc_slaveInfo s).
(** The tags of the members that have reached [o]. *)
Definition tags_of (durable : bool) (o : OpTime) (l : list (MemberConfig * SlaveInfo)) : list ReplSetTag :=
  concat ((λ p, mc_tags p.1) <$> List.filter (λ p, OT.geb (slave_time durable p.2) o) l).
Definition tags_at s (durable : bool) (o : OpTime) : list ReplSetTag :=
  tags_of durable o (zip (_members (rc_config s)) (rc_slaveInfo s)).
(** Well formed modes, and tags that an [int] can count. *)
Definition modes_ok (c : ReplSetConfig) : Prop :=
  vsize (RSC.all_tags c) ≤ INT_MAX ∧
  ∀ name p, _customWriteConcernModes c !! name = Some p → Tag.wf_pattern p.
Definition journaled (wc : WriteConcernOptions) : bool := bool_decide (syncMode wc = SM_JOURNAL).

(** A write of optime [o] needs no more waiting: the write concern can not be satisfied at all;
    or this node and enough nodes have reached [o]; or the committed snapshot (for majority) and
    the tags of the nodes that reached [o] meet the mode. *)
Definition fulfilled s (o : OpTime) (minSnapshot : Z) (wc : WriteConcernOptions) : Prop :=
  let d := journaled wc in
  RSC.checkIfWriteConcernCanBeSatisfied (rc_config s) wc ≠ OK tt ∨
  if decide (wMode wc = []) then
    (∃ me, rc_slaveInfo s !! Z.to_nat (rc_selfIndex s) = Some me ∧ OT.geb (slave_time d me) o = true) ∧
    wNumNodes wc ≤ nodes_at s d o
  else
    (wMode wc = RSC.kMajority → rc_snapshotsEnabled s = true →
     ∃ snap, rc_currentCommittedSnapshot s = Some snap ∧ OT.geb (sn_opTime snap) o = true ∧
             minSnapshot ≤ sn_name snap) ∧
    ∀ p, _customWriteConcernModes (rc_config s) !! (if decide (wMode wc = RSC.kMajority)
           then RSC.kMajorityWriteConcernModeName else wMode wc) = Some p →
         tags_at s d o ≠ [] ∧ Tag.meets p (tags_at s d o).

Lemma count_down_reached_spec d o n l :
  count_down_reached d o n l = true ↔ l ≠ [] ∧ n ≤ count_if (λ si, OT.geb (slave_time d si) o) l.
Proof.
  revert n. induction l as [|si l IH]; intros n; cbn [count_down_reached]; [naive_solver|].
  rewrite count_if_cons. pose proof (count_if_nonneg (λ si, OT.geb (slave_time d si) o) l) as Hn.
  destruct (OT.geb (slave_time d si) o).
  - destruct (Z.leb_spec (n - 1) 0); [split; [split; [done|lia]|done]|]. rewrite IH. split; [naive_solver lia|].
    intros [_ ?]. split; [|lia]. intros ->. unfold count_if, vsize in *. simpl in *. lia.
  - destruct (Z.leb_spec n 0); [split; [split; [done|lia]|done]|]. rewrite IH. split; [naive_solver lia|].
    intros [_ ?]. split; [|lia]. intros ->. unfold count_if, vsize in *. simpl in *. lia.
Qed.
Lemma match_reached_spec s d o m :
  progress_ok s →
  match_reached (rc_config s) d o m (rc_slaveInfo s) = Ret (RSC.match_any m (tags_at s d o)).1.
Proof.
  intros HP. pose proof (pg_aligned s HP) as Hal. pose proof (config_ids s HP) as Hid. unfold tags_at.
  set (c := rc_config s) in *.
  assert (∀ ms l m, (∀ m, m ∈ ms → m ∈ _members c) → si_memberId <$> l = mc_id <$> ms →
    match_reached c d o m l = Ret (RSC.match_any m (tags_of d o (zip ms l))).1) as Hgen; [|by apply Hgen].
  clear m. intros ms. induction ms as [|mc ms IH]; intros [|si l] m Hin Hl; try done. injection Hl as Hm Hl.
  cbn [match_reached]. unfold RSC.findMemberByID. rewrite Hm, find_by_id by (done || (apply Hin; left)).
  unfold tags_of. cbn [zip zip_with List.filter snd]. destruct (OT.geb _ o).
  - csimpl. rewrite RSC.match_any_app. destruct (RSC.match_any m (mc_tags mc)) as [[] m']; [done|].
    apply IH; [intros; apply Hin; by right|done].
  - apply IH; [intros; apply Hin; by right|done].
Qed.
Lemma tags_at_length s d o : vsize (tags_at s d o) ≤ vsize (RSC.all_tags (rc_config s)).
Proof.
  unfold tags_at, tags_of, RSC.all_tags, vsize. generalize (rc_slaveInfo s).
  induction (_members (rc_config s)) as [|m ms IH]; intros [|si l]; [simpl; lia..|].
  specialize (IH l). cbn [zip zip_with List.filter snd].
  destruct (OT.geb _ o); rewrite !fmap_cons; cbn [concat fst]; rewrite ?length_app; lia.
Qed.

Lemma haveNumNodes_spec s d o n :
  progress_ok s →
  owp (_haveNumNodesReachedOpTime_inlock s o n d) (λ b, b = true ↔
    (∃ me, rc_slaveInfo s !! Z.to_nat (rc_selfIndex s) = Some me ∧ OT.geb (slave_time d me) o = true) ∧
    n ≤ nodes_at s d o).
Proof.
  intros HP. unfold _haveNumNodesReachedOpTime_inlock. apply owp_bind.
  assert (owp (if d then _getMyLastDurableOpTime_inlock s else _getMyLastAppliedOpTime_inlock s)
    (λ t, ∃ me, rc_slaveInfo s !! Z.to_nat (rc_selfIndex s) = Some me ∧ t = slave_time d me)) as Hmine.
  { unfold _getMyLastDurableOpTime_inlock, _getMyLastAppliedOpTime_inlock.
    destruct d; apply owp_bind, (my_info_total s HP); intros me Hme; by exists me. }
  eapply owp_mono; [|exact Hmine]. intros t (me & Hme & ->). unfold OT.geb at 1.
  destruct (OT.ltb (slave_time d me) o) eqn:Hlt; cbn [owp].
  - split; [done|]. intros [(me' & Hme' & Hge) _]. rewrite Hme in Hme'. injection Hme' as <-. by rewrite Hlt in Hge.
  - rewrite count_down_reached_spec. fold (nodes_at s d o). split; [|intros [_ ?]].
    + intros [_ ?]. split; [|done]. exists me. by rewrite Hlt.
    + split; [|done]. intros Hnil. by rewrite Hnil in Hme.
Qed.
Lemma haveTagged_spec s d o p :
  progress_ok s → vsize (RSC.all_tags (rc_config s)) ≤ INT_MAX → Tag.wf_pattern p →
  owp (_haveTaggedNodesReachedOpTime_inlock s o p d) (λ b, b = true ↔
    tags_at s d o ≠ [] ∧ Tag.meets p (tags_at s d o)).
Proof.
  intros HP Hlen Hwf. unfold _haveTaggedNodesReachedOpTime_inlock. rewrite match_reached_spec by done.
  cbn [owp]. pose proof (tags_at_length s d o).
  apply (RSC.match_any_meets p [] (tags_at s d o)); [done|]. rewrite app_nil_l. lia.
Qed.

(** The whole test. *)
Lemma doneWaiting_spec s o minSnapshot wc :
  progress_ok s → modes_ok (rc_config s) → syncMode wc ≠ SM_UNSET →
  owp (_doneWaitingForReplication_inlock s o minSnapshot wc) (λ b, b = true ↔ fulfilled s o minSnapshot wc).
Proof.
  intros HP [Hlen Hwf] Hs. unfold _doneWaitingForReplication_inlock, fulfilled, check, journaled.
  rewrite (bool_decide_false (syncMode wc = SM_UNSET)) by done. cbn [negb mbind outcome_bind].
  destruct (RSC.checkIfWriteConcernCanBeSatisfied (rc_config s) wc) as [[]|e]; cbn [sw_isOK negb];
    [|cbn [owp]; naive_solver].
  set (d := bool_decide (syncMode wc = SM_JOURNAL)). destruct (decide (wMode wc = [])) as [Hm|Hm].
  { rewrite bool_decide_true by done. eapply owp_mono; [|by apply haveNumNodes_spec]. naive_solver. }
  rewrite (bool_decide_false (wMode wc = [])) by done.
  set (snap_ok := wMode wc = RSC.kMajority → rc_snapshotsEnabled s = true → _).
  match goal with |- context [negb ?h] => assert (h = true ↔ snap_ok) as Hsnap; [|destruct h] end.
  { unfold snap_ok. destruct (bool_decide_reflect (wMode wc = RSC.kMajority)); [|naive_solver].
    destruct (rc_snapshotsEnabled s); [|naive_solver]. simpl.
    destruct (rc_currentCommittedSnapshot s) as [snap|]; [|naive_solver].
    rewrite andb_true_iff, Z.leb_le. naive_solver. }
  2:{ cbn [negb owp]. split; [done|]. intros [?|[Hok _]]; [done|]. by apply Hsnap in Hok. }
  cbn [negb]. unfold RSC.findCustomWriteMode.
  assert ((if bool_decide (wMode wc = RSC.kMajority) then RSC.kMajorityWriteConcernModeName else wMode wc) =
          (if decide (wMode wc = RSC.kMajority) then RSC.kMajorityWriteConcernModeName else wMode wc)) as ->.
  { by destruct (bool_decide_reflect (wMode wc = RSC.kMajority)), (decide (wMode wc = RSC.kMajority)). }
  destruct (_customWriteConcernModes _ !! _) as [p|] eqn:Hp; simpl; [|naive_solver].
  eapply owp_mono; [|apply haveTagged_spec; [done..|by eapply Hwf]]. intros b ->. naive_solver.
Qed.

(** ** Theorems *)

(** C4. On a primary that is not stepping down, recomputing the commit point never aborts and
    moves it exactly as far as a write majority allows: the point never moves back; when it moves,
    the new point is an optime of this primary's term that a write majority of the voting members
    has reached; and every optime of this term that a write majority has reached is at or before
    it.  The committed snapshot becomes the newest one at or before the point, and only waiters
    leave the wait list. *)
Theorem commit_point_is_write_majority pv now s :
  CInv pv s → is_primary s = true → rc_stepDownPending s = false →
  ∃ s', _updateLastCommittedOpTime_inlock now s = Ret (tt, s') ∧ commits_majority pv s s'.
Proof.
  intros HC Hp Hd. pose proof (wp_update_last_committed pv now s HC Hp Hd) as H.
  apply wp_Ret in H as ([] & s' & He & Hs'). eauto.
Qed.

(** Reports are accepted or not whatever came before them. *)
Lemma accepts_kept s s' args : kept s s' → accepts s' args ↔ accepts s args.
Proof. intros Hk. unfold accepts. by rewrite (kp_config _ _ Hk), (kp_self _ _ Hk). Qed.
Lemma recorded_reported pv s s' args : reported pv s s' → recorded s args → recorded s' args.
Proof.
  intros [_ _ Hk Hg] Hr j si' Hj Hjs Hid. destruct (Forall2_lookup_r _ _ _ _ _ Hg Hj) as (si & Hsi & Hgr).
  destruct (Hr j si Hsi) as [Ha Hd]; [by rewrite <-(kp_self _ _ Hk)|by rewrite <-(gr_member _ _ Hgr)|].
  destruct Hgr as [_ _ _ Hga Hgd]. split; [|intros Hle; specialize (Hd Hle)]; unfold lex_lt in *; lia.
Qed.
Lemma wp_update_positions pv now updates s v b :
  CInv pv s → up_to_date pv s → Forall (wf_report pv) updates →
  wp (update_positions now updates v b) (λ r s', reported pv s s' ∧
    (r.1.1 = OK tt ↔ Forall (accepts s) updates) ∧ (r.1.1 = OK tt → Forall (recorded s') updates)) s.
Proof.
  intros HC Hu Hw. revert s v b HC Hu.
  induction Hw as [|args updates Hargs _ IH]; intros s v b HC Hu; cbn [update_positions].
  { apply wp_ret. split_and!; [by apply reported_refl|by split|done]. }
  apply wp_bind. eapply wp_mono; [|by apply (wp_setLastOptime pv)].
  intros [st w] s1 (Hr1 & Hacc & Hrec). cbn beta iota in *. simpl in Hacc, Hrec. destruct st as [[]|e]; cbn [fst snd].
  - eapply wp_mono; [|apply IH; apply Hr1]. intros r s2 (Hr2 & Hacc2 & Hrec2).
    assert (∀ a, accepts s1 a ↔ accepts s a) as Hk by (intros; apply accepts_kept, Hr1).
    split_and!; [by eapply reported_trans| |].
    + assert (accepts s args) by (by apply Hacc). rewrite Hacc2, Forall_cons. split.
      * intros Hall. split; [done|]. eapply Forall_impl; [exact Hall|]. intros a. by apply Hk.
      * intros [_ Hall]. eapply Forall_impl; [exact Hall|]. intros a. by apply Hk.
    + intros Hok. constructor; [|auto]. eapply recorded_reported; [done|auto].
  - apply wp_ret. cbn [fst]. split_and!; [done| |done]. rewrite Forall_cons. split; [done|].
    intros [H _]. by apply Hacc in H.
Qed.

(** C12. The handler of replSetUpdatePosition never aborts on reports whose member ids fit an int.
    It keeps the invariants, and the commit point of a primary that is not stepping down stays the
    newest optime of its term that a write majority has reached: a majority has reached it unless it
    is from before the term, and no majority has reached a later optime of the term; no member's
    optimes and no commit point move back.  It
    succeeds exactly when every report names a member of the configuration and either has our
    configuration version or is about this node, and then the entry of every other reported member
    covers its report; progress is forwarded only by nodes that are not primary. *)
Theorem replSetUpdatePosition_correct pv now updates s :
  CInv pv s → up_to_date pv s → Forall (wf_report pv) updates →
  ∃ r s', processReplSetUpdatePosition now updates s = Ret (r, s') ∧ reported pv s s' ∧
    (r.1.1 = OK tt ↔ Forall (accepts s) updates) ∧
    (r.1.1 = OK tt → Forall (recorded s') updates) ∧ (r.2 = true → is_primary s' = false).
Proof.
  intros HC Hu Hw.
  assert (wp (processReplSetUpdatePosition now updates) (λ r s', reported pv s s' ∧
    (r.1.1 = OK tt ↔ Forall (accepts s) updates) ∧
    (r.1.1 = OK tt → Forall (recorded s') updates) ∧ (r.2 = true → is_primary s' = false)) s) as H.
  { unfold processReplSetUpdatePosition. apply wp_bind.
    eapply wp_mono; [|by apply (wp_update_positions pv)]. intros r s' (Hr & Ha & Hrec).
    wp_simpl. unfold id. simpl. split_and!; [done..|]. by intros [_ ?%negb_true_iff]%andb_true_iff. }
  apply wp_Ret in H as (r & s' & ? & ?). eauto.
Qed.

(** C29. Waking the waiters signals and removes exactly those whose write concern is fulfilled:
    none that must wait is woken, and none that need not is left, in spite of the scan that
    overwrites an element with the last one. *)
Theorem waiters_signalled_iff_fulfilled s :
  progress_ok s → modes_ok (rc_config s) →
  ∃ waiting woken,
    _wakeReadyWaiters_inlock s = Ret (tt, s <| rc_replicationWaiters := waiting |>
                                            <| rc_signalled := rc_signalled s ++ woken |>) ∧
    waiting ++ woken ≡ₚ rc_replicationWaiters s ∧
    Forall (λ w, ¬ fulfilled s (w_opTime w) 0 (w_writeConcern w)) waiting ∧
    Forall (λ w, fulfilled s (w_opTime w) 0 (w_writeConcern w)) woken.
Proof.
  intros HP Hm. destruct (wake_spec s HP) as (waiting & woken & He & Hp & Hf & Ht).
  exists waiting, woken. split_and!; [done|done|..].
  all: pose proof (pg_waiters s HP) as Hs; rewrite <-Hp in Hs; apply Forall_app in Hs as [Hs1 Hs2].
  all: rewrite !Forall_forall in *; intros w Hw.
  - pose proof (doneWaiting_spec s (w_opTime w) 0 (w_writeConcern w) HP Hm (Hs1 w Hw)) as H.
    rewrite (Hf w Hw) in H. intros Hx. by apply H in Hx.
  - pose proof (doneWaiting_spec s (w_opTime w) 0 (w_writeConcern w) HP Hm (Hs2 w Hw)) as H.
    rewrite (Ht w Hw) in H. by apply H.
Qed.

(** ** Creating snapshots *)
Section create.
Context (pv : Protocol) (o : OpTime) (name : Z) s.
Context (HC : CInv pv s) (Ho : in_protocol pv o) (Hnull : OT.isNull o = false) (Hname : name ≤ Snap.max_name).
Context (Hnewer : Forall (λ n, OT.leb (sn_opTime n) o = true ∧ sn_name n < name)
    (option_list (rc_currentCommittedSnapshot s) ++ rc_uncommittedSnapshots s)).

Lemma newer_than n :
  n ∈ option_list (rc_currentCommittedSnapshot s) ++ rc_uncommittedSnapshots s →
  in_protocol pv (sn_opTime n) → ¬ lex_lt o (sn_opTime n) ∧ sn_name n < name.
Proof.
  intros Hn Hp. rewrite Forall_forall in Hnewer. destruct (Hnewer n Hn) as [Hle ?].
  by apply (OT_leb_protocol pv) in Hle.
Qed.
Lemma newer_than_uncommitted n :
  n ∈ rc_uncommittedSnapshots s →
  (in_protocol pv (sn_opTime n) ∧ OT.isNull (sn_opTime n) = false ∧ sn_name n ≤ Snap.max_name ∧
   lex_lt (rc_lastCommittedOpTime s) (sn_opTime n)) ∧ ¬ lex_lt o (sn_opTime n) ∧ sn_name n < name.
Proof.
  intros Hn. destruct (cv_snapshots _ _ HC) as [_ Hu _]. rewrite Forall_forall in Hu.
  split; [by apply Hu|]. apply newer_than; [apply elem_of_app; by right|by apply Hu].
Qed.

Lemma wp_create_committed (Q : () → ReplCoord → Prop) :
  OT.leb o (rc_lastCommittedOpTime s) = true →
  (∀ s', frame s s' → CInv pv s' → rc_lastCommittedOpTime s' = rc_lastCommittedOpTime s →
         rc_currentCommittedSnapshot s' = Some (mkSnapshot o name) → rc_uncommittedSnapshots s' = [] → Q tt s') →
  wp (createSnapshot o name) Q s.
Proof.
  intros Hle HQ. unfold createSnapshot. wp_simpl. unfold id. rewrite Hle. wp_simpl.
  apply (OT_leb_protocol pv) in Hle; [|done|apply HC].
  assert (rc_uncommittedSnapshots s = []) as Hnil.
  { pose proof newer_than_uncommitted as Hall. clear HQ.
    destruct (rc_uncommittedSnapshots s) as [|n l]; [done|]. exfalso.
    destruct (Hall n) as [(_ & _ & _ & Hlt) [Hn _]]; [left|]. unfold lex_lt in *. lia. }
  rewrite Hnil. split; [done|]. apply (wp_update_committed_snapshot pv); try done; try apply HC.
  - by rewrite Hnil.
  - intros cur Hcur. destruct (so_current _ _ (cv_snapshots _ _ HC) cur Hcur) as (Hp & _ & _).
    split; [done|]. apply newer_than; [|done]. rewrite Hcur. left.
  - intros s' Hf Hs El Eu Ec. apply HQ; try done; [|by rewrite Eu].
    eapply CInv_frame; [done..|]. rewrite El. apply HC.
Qed.

Lemma wp_create_queued (Q : () → ReplCoord → Prop) :
  OT.leb o (rc_lastCommittedOpTime s) = false →
  (∀ s', frame s s' → CInv pv s' → rc_lastCommittedOpTime s' = rc_lastCommittedOpTime s →
         rc_currentCommittedSnapshot s' = rc_currentCommittedSnapshot s →
         rc_uncommittedSnapshots s' = rc_uncommittedSnapshots s ++ [mkSnapshot o name] → Q tt s') →
  wp (createSnapshot o name) Q s.
Proof.
  intros Hle HQ. unfold createSnapshot. wp_simpl. unfold id. rewrite Hle. wp_simpl.
  assert (lex_lt (rc_lastCommittedOpTime s) o) as Hlt.
  { apply not_true_iff_false in Hle. rewrite (OT_leb_protocol pv) in Hle by (done || apply HC).
    unfold lex_lt in *. lia. }
  assert (∀ k : () → ReplCoord → Prop, k tt s → wp (match last (rc_uncommittedSnapshots s) with
    | Some back => invariant 3628 (λ _, Snap.ltb back (mkSnapshot o name)) ;;
                   invariant 3630 (λ _, sn_name back <? name)
    | None => mret tt end) k s) as Hchk.
  { intros k Hk. destruct (last _) as [back|] eqn:E; [|done]. apply last_Some in E as [l E].
    destruct (newer_than_uncommitted back) as [(Hp & _) [Hn Hn']].
    { rewrite E. apply elem_of_app. right. left. }
    wp_simpl. split_and!; [|lia|done]. unfold Snap.ltb. simpl. apply orb_true_iff. right. apply andb_true_iff.
    split; [|lia]. apply negb_true_iff, not_true_is_false. by rewrite (OT_ltb_protocol pv). }
  apply Hchk. clear Hchk. wp_simpl. apply HQ; try done.
  - constructor; try done. exists []. by rewrite !app_nil_r.
  - pose proof HC as [[] ? ? ? [Hs Hu Hcur]]. constructor; [by constructor|done..|]. constructor; simpl.
    + apply StronglySorted_app. split_and!; [|done|by repeat constructor].
      intros x y Hx Hy. apply list_elem_of_singleton in Hy as ->.
      by destruct (newer_than_uncommitted x Hx) as [_ ?].
    + apply Forall_app. split; [done|]. by apply Forall_singleton.
    + intros cur Hc. destruct (Hcur cur Hc) as (? & ? & ?). split_and!; [done..|]. apply Forall_app.
      split; [done|]. apply Forall_singleton. simpl. apply newer_than; [|done]. rewrite Hc. left.
Qed.
End create.

(** Creating a snapshot that is newer than the others never aborts and keeps the snapshots in
    order.  A snapshot at or before the commit point becomes the committed one at once; a later
    one is queued behind the others until the commit point reaches it. *)
Theorem createSnapshot_correct pv o name s :
  CInv pv s → in_protocol pv o → OT.isNull o = false → name ≤ Snap.max_name →
  Forall (λ n, OT.leb (sn_opTime n) o = true ∧ sn_name n < name)
    (option_list (rc_currentCommittedSnapshot s) ++ rc_uncommittedSnapshots s) →
  ∃ s', createSnapshot o name s = Ret (tt, s') ∧ CInv pv s' ∧ frame s s' ∧
    rc_lastCommittedOpTime s' = rc_lastCommittedOpTime s ∧
    if OT.leb o (rc_lastCommittedOpTime s)
    then rc_currentCommittedSnapshot s' = Some (mkSnapshot o name) ∧ rc_uncommittedSnapshots s' = []
    else rc_currentCommittedSnapshot s' = rc_currentCommittedSnapshot s ∧
         rc_uncommittedSnapshots s' = rc_uncommittedSnapshots s ++ [mkSnapshot o name].
Proof.
  intros HC Ho Hnull Hname Hnewer.
  assert (wp (createSnapshot o name) (λ _ s', CInv pv s' ∧ frame s s' ∧
    rc_lastCommittedOpTime s' = rc_lastCommittedOpTime s ∧
    if OT.leb o (rc_lastCommittedOpTime s)
    then rc_currentCommittedSnapshot s' = Some (mkSnapshot o name) ∧ rc_uncommittedSnapshots s' = []
    else rc_currentCommittedSnapshot s' = rc_currentCommittedSnapshot s ∧
         rc_uncommittedSnapshots s' = rc_uncommittedSnapshots s ++ [mkSnapshot o name]) s) as H.
  { destruct (OT.leb o _) eqn:E; [apply (wp_create_committed pv)|apply (wp_create_queued pv)]; done. }
  apply wp_Ret in H as ([] & s' & ? & ?). eauto.
Qed.

(** ** A concrete primary *)
Definition example_info (id : Z) (o : OpTime) : SlaveInfo :=
  mkSlaveInfo o o (mc_host (RSC.example_member id false)) id (id =? 0) 0 false.
Definition example_optime (i t : Z) : OpTime := mkOpTime (mkTimestamp i 1) t.
Definition example_coord : ReplCoord :=
  mkCoord RSC.example_config 0 RS_PRIMARY false
    [example_info 0 (example_optime 9 2); example_info 1 (example_optime 7 2); example_info 2 (example_optime 7 2)]
    (example_optime 4 1) (example_optime 6 2) true
    [mkSnapshot (example_optime 5 1) 1; mkSnapshot (example_optime 7 2) 2; mkSnapshot (example_optime 8 2) 3]
    None [mkWaiter (example_optime 7 2) (mkWC [] 2 SM_JOURNAL)] [] [].
Lemma example_in_protocol i t : 0 < i → 0 ≤ t → in_protocol PV1 (example_optime i t).
Proof.
  intros Hi Ht. right. split; [done|]. apply TS_ltb_lt. unfold example_optime. simpl. lia.
Qed.
Lemma example_CInv : CInv PV1 example_coord.
Proof.
  constructor.
  - constructor.
    + exists RSC.example_params. apply RSC.example_valid.
    + apply RSC.example_majorities.
    + reflexivity.
    + vm_compute. split; congruence.
    + by repeat constructor.
  - simpl. rewrite !Forall_cons, Forall_nil. split_and!; try done; apply example_in_protocol; lia.
  - apply example_in_protocol; lia.
  - apply example_in_protocol; lia.
  - constructor; [..|done].
    + repeat apply SSorted_cons; try apply SSorted_nil; rewrite ?Forall_cons, ?Forall_nil;
        unfold snap_lt, lex_lt, OT.getSecs; simpl; lia.
    + simpl. rewrite !Forall_cons, Forall_nil. unfold lex_lt, OT.getSecs.
      split_and!; try done; try (apply example_in_protocol; lia); simpl; lia.
Qed.
(** The same node after it has committed the optime that all have reached. *)
Definition example_committed : ReplCoord :=
  example_coord <| rc_lastCommittedOpTime := example_optime 7 2 |>
    <| rc_uncommittedSnapshots := [mkSnapshot (example_optime 8 2) 3] |>
    <| rc_currentCommittedSnapshot := Some (mkSnapshot (example_optime 7 2) 2) |>.
Lemma example_committed_CInv : CInv PV1 example_committed.
Proof.
  destruct example_CInv as [[] ? ? ? _]. constructor; [by constructor|done| |done|].
  - apply example_in_protocol; lia.
  - constructor.
    + repeat constructor.
    + simpl. rewrite !Forall_cons, Forall_nil. unfold lex_lt, OT.getSecs.
      split_and!; try done; try (apply example_in_protocol; lia); simpl; lia.
    + simpl. intros cur [= <-]. rewrite !Forall_cons, Forall_nil. unfold lex_lt. simpl.
      split_and!; try done; try (apply example_in_protocol; lia); lia.
Qed.
Lemma example_up_to_date : up_to_date PV1 example_committed.
Proof.
  split; [by vm_compute|]. intros _ _ o Ho Hv _. apply (OT_leb_protocol PV1); [done|apply example_in_protocol; lia|]. intros Hlt.
  assert (OT.geb (example_optime 7 2) o = false) as Hg.
  { unfold OT.geb. apply negb_false_iff, (OT_ltb_protocol PV1); [apply example_in_protocol; lia|done|done]. }
  change (_writeMajority (rc_config example_committed)) with 2 in Hv. revert Hv. unfold voters_at.
  change (zip _ _) with [(RSC.example_member 0 false, example_info 0 (example_optime 9 2));
    (RSC.example_member 1 false, example_info 1 (example_optime 7 2));
    (RSC.example_member 2 true, example_info 2 (example_optime 7 2))].
  rewrite !count_if_cons. cbn [fst snd]. unfold slave_time.
  change (uses_durable example_committed) with false. cbn [example_info si_lastAppliedOpTime]. rewrite Hg.
  rewrite !andb_false_r. change (count_if _ []) with 0. destruct (_ && _); lia.
Qed.

Lemma commit_point_is_write_majority_witness :
  ∃ s', _updateLastCommittedOpTime_inlock 100 example_coord = Ret (tt, s') ∧
        commits_majority PV1 example_coord s'.
Proof. apply commit_point_is_write_majority; [exact example_CInv|reflexivity..]. Defined.
Example example_commits :
  (rc_lastCommittedOpTime ∘ snd <$> match _updateLastCommittedOpTime_inlock 100 example_coord with
    | Ret r => Some r | Abort _ => None end) = Some (example_optime 7 2).
Proof. vm_compute. reflexivity. Qed.

Definition example_report : UpdateInfo := mkUpdateInfo (example_optime 9 2) (example_optime 8 2) 1 1.
Lemma replSetUpdatePosition_correct_witness :
  ∃ r s', processReplSetUpdatePosition 100 [example_report] example_committed = Ret (r, s') ∧
    reported PV1 example_committed s' ∧
    (r.1.1 = OK tt ↔ Forall (accepts example_committed) [example_report]) ∧
    (r.1.1 = OK tt → Forall (recorded s') [example_report]) ∧ (r.2 = true → is_primary s' = false).
Proof.
  apply replSetUpdatePosition_correct; [exact example_committed_CInv|exact example_up_to_date|].
  apply Forall_singleton. split_and!; [apply example_in_protocol; lia..|]. vm_compute. congruence.
Defined.
Lemma waiters_signalled_iff_fulfilled_witness :
  ∃ waiting woken,
    _wakeReadyWaiters_inlock example_coord =
      Ret (tt, example_coord <| rc_replicationWaiters := waiting |>
                             <| rc_signalled := rc_signalled example_coord ++ woken |>) ∧
    waiting ++ woken ≡ₚ rc_replicationWaiters example_coord ∧
    Forall (λ w, ¬ fulfilled example_coord (w_opTime w) 0 (w_writeConcern w)) waiting ∧
    Forall (λ w, fulfilled example_coord (w_opTime w) 0 (w_writeConcern w)) woken.
Proof.
  apply waiters_signalled_iff_fulfilled; [apply example_CInv|]. split; [vm_compute; congruence|].
  intros name p Hp. change (_customWriteConcernModes _) with (∅ : gmap chars ReplSetTagPattern) in Hp.
  by rewrite lookup_empty in Hp.
Defined.
Lemma createSnapshot_correct_witness :
  ∃ s', createSnapshot (example_optime 9 2) 4 example_coord = Ret (tt, s') ∧ CInv PV1 s' ∧
    frame example_coord s' ∧ rc_lastCommittedOpTime s' = rc_lastCommittedOpTime example_coord ∧
    if OT.leb (example_optime 9 2) (rc_lastCommittedOpTime example_coord)
    then rc_currentCommittedSnapshot s' = Some (mkSnapshot (example_optime 9 2) 4) ∧
         rc_uncommittedSnapshots s' = []
    else rc_currentCommittedSnapshot s' = rc_currentCommittedSnapshot example_coord ∧
         rc_uncommittedSnapshots s' = rc_uncommittedSnapshots example_coord ++ [mkSnapshot (example_optime 9 2) 4].
Proof.
  apply createSnapshot_correct; [exact example_CInv|apply example_in_protocol; lia|reflexivity| |].
  - vm_compute. congruence.
  - repeat constructor.
Defined.

(** A member id that does not fit an int is looked up truncated; the entry found then has another
    id, and the check of line 1518 stops the server. *)
Lemma update_position_id_truncation_aborts :
  processReplSetUpdatePosition 100 [mkUpdateInfo (example_optime 9 2) (example_optime 8 2) 1 (two32 + 1)]
    example_committed = Abort 1518.
Proof. vm_compute. reflexivity. Qed.
End Commit.
