(* ===== verification/ConfigInstall.v ===== *)
(** * Installing a configuration in the replication coordinator

    The part of replication_coordinator_impl.cpp that makes a configuration current: the
    topology coordinator is updated, the table of member progress is rebuilt, the member state
    follows the topology coordinator, and the commit point and the waiters are looked at again.
    The state joins the topology coordinator (Topology.v) and the progress tracker (Commit.v)
    with the fields of the coordinator these functions use; calls on the external state, the
    timers and the heartbeat handles are not represented. *)
From S2P Require Import Prelude ReplTime ParseNumber HostAndPort ReplTag ReplConfig ConfigChecks Heartbeat Topology TopologyElection TopologySync TopologyHeartbeat TopologyInv Voting Commit.

Inductive PostMemberStateUpdateAction :=
| kActionNone | kActionCloseAllConnections | kActionFollowerModeStateChange | kActionWinElection
| kActionStartSingleNodeElection.
#[export] Instance PostMemberStateUpdateAction_eq_dec : EqDecision PostMemberStateUpdateAction.
Proof. solve_decision. Defined.
Inductive ApplierState := ApplierRunning | ApplierDraining | ApplierStopped.

(** [co_catchup], [co_voteRequester] and [co_freshnessChecker] say whether the object exists;
    [co_stored] is the document in local.system.replset. *)
Record Coordinator := mkCoordinator {
  co_configState : ConfigState; co_topo : TopologyCoordinator; co_coord : ReplCoord;
  co_canAcceptNonLocalWrites : bool; co_canServeNonLocalReads : bool;
  co_applierState : ApplierState; co_catchup : bool; co_electionId : Z; co_cachedTerm : Z;
  co_inShutdown : bool; co_voteRequester : bool; co_freshnessChecker : bool;
  co_stored : option ReplSetConfig }.
#[export] Instance Coordinator_eta : Eta Coordinator := λ s,
  mkCoordinator (co_configState s) (co_topo s) (co_coord s) (co_canAcceptNonLocalWrites s)
    (co_canServeNonLocalReads s) (co_applierState s) (co_catchup s) (co_electionId s)
    (co_cachedTerm s) (co_inShutdown s) (co_voteRequester s) (co_freshnessChecker s) (co_stored s).

Module Install.
Import Topo TopoElect Commit.
Abbreviation RM := (M Coordinator).
Implicit Types s : Coordinator.

Definition on_topo {A} (m : TM A) : RM A := λ s,
  r ← m (co_topo s);
  let '(a, t) := r in Ret (a, s <| co_topo := t |>).
Definition on_coord {A} (m : CM A) : RM A := λ s,
  r ← m (co_coord s);
  let '(a, c) := r in Ret (a, s <| co_coord := c |>).

Definition config s : ReplSetConfig := rc_config (co_coord s).
Definition selfIndex s : Z := rc_selfIndex (co_coord s).
Definition isV1ElectionProtocol s : bool := _protocolVersion (config s) =? 1.
Definition _setConfigState_inlock (newState : ConfigState) : RM () :=
  modify (λ s, s <| co_configState := newState |>).

(** ** The table of member progress *)
Definition new_slave_info : SlaveInfo :=
  mkSlaveInfo OT.null OT.null HP.default (-1) false LLONG_MAX false.
(** The last entry of the old table that is about the same member. *)
Definition same_member (selfIndex i : Z) (m : MemberConfig) (it : SlaveInfo) : bool :=
  ((si_memberId it =? mc_id m) && HP.eqb (si_hostAndPort it) (mc_host m)) ||
  ((i =? selfIndex) && si_self it).
Definition carry_over (oldSlaveInfos : list SlaveInfo) (selfIndex i : Z) (m : MemberConfig)
    : SlaveInfo :=
  let slaveInfo :=
    foldl (λ acc it, if same_member selfIndex i m it then it else acc)
      new_slave_info oldSlaveInfos in
  slaveInfo <| si_memberId := mc_id m |> <| si_hostAndPort := mc_host m |>.
Definition _updateSlaveInfoFromConfig_inlock : CM () :=
  c ← gets id;
  let oldSlaveInfos := rc_slaveInfo c in
  if rc_selfIndex c =? -1 then
    match find si_self oldSlaveInfos with
    | Some it => modify (λ c, c <| rc_slaveInfo := [it <| si_memberId := -1 |>] |>)
    | None => λ _, Abort 1095
    end
  else
    let slaveInfo := (λ im, carry_over oldSlaveInfos (rc_selfIndex c) im.1 im.2)
                       <$> indexed (_members (rc_config c)) in
    modify (λ c, c <| rc_slaveInfo := slaveInfo |>) ;;
    invariant 1119 (λ c, vsize (rc_slaveInfo c) =? RSC.getNumMembers (rc_config c)).

(** ** The member state *)
Definition signalAndRemoveAll : CM () :=
  modify (λ c, c <| rc_signalled := rc_signalled c ++ rc_replicationWaiters c ++ rc_opTimeWaiters c |>
                 <| rc_replicationWaiters := [] |> <| rc_opTimeWaiters := [] |>).
Definition single_node_electable s : outcome bool :=
  if (RSC.getNumMembers (config s) =? 1) && (selfIndex s =? 0) then
    m ← RSC.getMemberAt (config s) 0; Ret (MC.isElectable m)
  else Ret false.
Definition single_node_action (line : Z) : RM PostMemberStateUpdateAction :=
  single ← reads single_node_electable;
  invariant line (λ _, single) ;;
  v1 ← gets isV1ElectionProtocol;
  mret (if (v1 : bool) then kActionStartSingleNodeElection else kActionWinElection).

Definition has_committed_snapshot (c : ReplCoord) : bool :=
  match rc_currentCommittedSnapshot c with Some _ => true | None => false end.
Definition _updateMemberStateFromTopologyCoordinator_inlock : RM PostMemberStateUpdateAction :=
  newState ← reads (λ s, getMemberState (co_topo s));
  s ← gets id;
  let memberState := rc_memberState (co_coord s) in
  let isCandidate := role_eqb (_role (co_topo s)) candidate in
  let primary := state_eqb memberState RS_PRIMARY in
  if state_eqb newState memberState then
    if isCandidate then single_node_action 2633 else mret kActionNone
  else
    result ←
      (if primary || state_eqb newState RS_REMOVED || state_eqb newState RS_ROLLBACK then
         on_coord signalAndRemoveAll ;;
         modify (λ s, s <| co_canAcceptNonLocalWrites := false |>) ;;
         on_coord (modify (λ c, c <| rc_stepDownPending := false |>)) ;;
         mret kActionCloseAllConnections
       else mret kActionFollowerModeStateChange);
    (if primary
     then modify (λ s, s <| co_catchup := false |> <| co_applierState := ApplierRunning |>)
     else mret tt) ;;
    (if state_eqb memberState RS_SECONDARY && negb (state_eqb newState RS_PRIMARY)
     then modify (λ s, s <| co_canServeNonLocalReads := false |>)
     else if negb primary && state_eqb newState RS_SECONDARY
     then modify (λ s, s <| co_canServeNonLocalReads := true |>)
     else mret tt) ;;
    result ← (if state_eqb newState RS_SECONDARY && isCandidate
              then single_node_action 2679 else mret result);
    (if state_eqb newState RS_ROLLBACK then on_coord _dropAllSnapshots_inlock else mret tt) ;;
    (if state_eqb memberState RS_ROLLBACK then
       invariant 2720 (λ s, negb (has_committed_snapshot (co_coord s))) ;;
       invariant 2721 (λ s, vsize (rc_uncommittedSnapshots (co_coord s)) =? 0)
     else mret tt) ;;
    on_coord (modify (λ c, c <| rc_memberState := newState |>)) ;;
    mret result.

(** ** The configuration *)

(** [genOID] and [getNextGlobalTimestamp] are the fresh election id and timestamp, [fromTerm]
    the election id of a term. *)
Definition set_election_id (oldConfig newConfig : ReplSetConfig) (fromTerm : Z → Z) (genOID : Z)
    (getNextGlobalTimestamp : Timestamp) : RM () :=
  s ← gets id;
  if _isInitialized oldConfig && is_primary (co_coord s) then
    if _protocolVersion newConfig <? _protocolVersion oldConfig then
      invariant 2997 (λ _, _protocolVersion newConfig =? 0) ;;
      modify (λ s, s <| co_electionId := genOID |>) ;;
      on_topo (setElectionInfo genOID getNextGlobalTimestamp)
    else if _protocolVersion oldConfig <? _protocolVersion newConfig then
      invariant 3002 (λ _, _protocolVersion newConfig =? 1) ;;
      invariant 3003 (λ s, negb (_term (co_topo s) =? OT.kUninitializedTerm)) ;;
      let electionId := fromTerm (_term (co_topo s)) in
      modify (λ s, s <| co_electionId := electionId |>) ;;
      on_topo (setElectionInfo electionId getNextGlobalTimestamp)
    else mret tt
  else mret tt.

Definition _setCurrentRSConfig_inlock (fromTerm : Z → Z) (genOID : Z)
    (getNextGlobalTimestamp : Timestamp) (now : Z) (newConfig : ReplSetConfig) (myIndex : Z)
    : RM PostMemberStateUpdateAction :=
  _setConfigState_inlock kConfigSteady ;;
  myOptime ← reads (λ s, _getMyLastAppliedOpTime_inlock (co_coord s));
  on_topo (updateConfig newConfig myIndex now myOptime) ;;
  modify (λ s, s <| co_cachedTerm := _term (co_topo s) |>) ;;
  oldConfig ← gets config;
  on_coord (modify (λ c, c <| rc_config := newConfig |>)) ;;
  on_coord (modify (λ c, c <| rc_selfIndex := myIndex |>)) ;;
  (if 0 <=? myIndex
   then reads (λ s, RSC.getMemberAt (config s) (selfIndex s)) ;; mret tt
   else mret tt) ;;
  action ← _updateMemberStateFromTopologyCoordinator_inlock;
  on_coord _updateSlaveInfoFromConfig_inlock ;;
  on_coord (_updateLastCommittedOpTime_inlock now) ;;
  set_election_id oldConfig newConfig fromTerm genOID getNextGlobalTimestamp ;;
  on_coord _wakeReadyWaiters_inlock ;;
  mret action.

(** ** The table follows the configuration *)
Section table.
Context (isSelf : HostAndPort → bool).
Hypothesis isSelf_ext : ∀ a b, HP.key a = HP.key b → isSelf a = isSelf b.
Implicit Types (c : ReplSetConfig) (l : list SlaveInfo) (si it : SlaveInfo) (m : MemberConfig).

(** The node's own place in the configuration, if it has one. *)
Definition placed c (i : Z) : Prop :=
  i = -1 ∨ NoDup (mc_id <$> _members c) ∧ Forall MC.valid (_members c) ∧
           ConfigChecks.only_me isSelf c i.
(** One entry per member, in order, and the node's own is marked; outside the configuration
    the node keeps only its own. *)
Definition table_ok c (i : Z) l : Prop :=
  if decide (i = -1) then ∃ si, l = [si] ∧ si_self si = true ∧ si_memberId si = -1
  else si_memberId <$> l = mc_id <$> _members c ∧
       (λ si, HP.key (si_hostAndPort si)) <$> l = (λ m, HP.key (mc_host m)) <$> _members c ∧
       ∀ j si, l !! j = Some si → si_self si = bool_decide (Z.of_nat j = i).

Lemma foldl_none (p : SlaveInfo → bool) d l :
  (∀ it, it ∈ l → p it = false) → foldl (λ acc it, if p it then it else acc) d l = d.
Proof.
  revert d. induction l as [|x l IH]; intros d H; [done|]. simpl. rewrite (H x) by left.
  apply IH. intros it Hit. apply H. by right.
Qed.
Lemma foldl_unique (p : SlaveInfo → bool) d l x :
  x ∈ l → p x = true → (∀ it, it ∈ l → p it = true → it = x) →
  foldl (λ acc it, if p it then it else acc) d l = x.
Proof.
  intros Hx Hp Hu. apply list_elem_of_split in Hx as (l1 & l2 & ->).
  rewrite foldl_app. simpl. rewrite Hp. clear d. revert Hu. induction l2 as [|y l2 IH] using rev_ind; [done|].
  intros Hu. rewrite foldl_app. simpl. rewrite IH.
  - destruct (p y) eqn:E; [|done]. apply Hu; [|done]. set_solver.
  - intros it Hit. apply Hu. set_solver.
Qed.
Lemma find_unique (p : SlaveInfo → bool) l x :
  x ∈ l → p x = true → (∀ it, it ∈ l → p it = true → it = x) → find p l = Some x.
Proof.
  intros Hx Hp Hu. destruct (find p l) as [y|] eqn:E.
  - apply find_some in E as [Hy%list_elem_of_In Hpy]. by rewrite (Hu y).
  - apply list_elem_of_In in Hx. by rewrite (find_none p l E x Hx) in Hp.
Qed.

(** What is known of a member of the new configuration: the node's own record, or the one of
    the member with the same id and host. *)
Definition same_entry m it : bool :=
  (si_memberId it =? mc_id m) && HP.eqb (si_hostAndPort it) (mc_host m).
Definition known_progress l (i j : Z) m : OpTime * OpTime :=
  match find (if j =? i then si_self else same_entry m) l with
  | Some it => (si_lastAppliedOpTime it, si_lastDurableOpTime it)
  | None => (OT.null, OT.null)
  end.

Lemma table_entry c0 i0 l k it :
  table_ok c0 i0 l → i0 ≠ -1 → l !! k = Some it →
  ∃ m, _members c0 !! k = Some m ∧ si_memberId it = mc_id m ∧
       HP.key (si_hostAndPort it) = HP.key (mc_host m) ∧ (si_self it = true ↔ Z.of_nat k = i0).
Proof.
  intros Ht Hi Hk. unfold table_ok in Ht. rewrite decide_False in Ht by done.
  destruct Ht as (Hid & Hhost & Hself).
  assert ((mc_id <$> _members c0) !! k = Some (si_memberId it)) as Hm.
  { rewrite <-Hid, list_lookup_fmap, Hk. done. }
  rewrite list_lookup_fmap in Hm. apply fmap_Some in Hm as (m & Hm & Em). exists m.
  assert (((λ m, HP.key (mc_host m)) <$> _members c0) !! k = Some (HP.key (si_hostAndPort it))) as Hh.
  { rewrite <-Hhost, list_lookup_fmap, Hk. done. }
  rewrite list_lookup_fmap, Hm in Hh. apply (inj Some) in Hh.
  split_and!; [done..|]. rewrite (Hself k it Hk). apply bool_decide_eq_true.
Qed.

Lemma own_entry c0 i0 l :
  placed c0 i0 → table_ok c0 i0 l →
  ∃ x, x ∈ l ∧ si_self x = true ∧ ∀ it, it ∈ l → si_self it = true → it = x.
Proof.
  intros Hp Ht. destruct (decide (i0 = -1)) as [->|Hi].
  { destruct Ht as (si & -> & Hs & _). exists si. set_solver. }
  destruct Hp as [?|(_ & _ & [(m & [H0 Hm]%elem_of_indexed & _) _])]; [done|].
  assert (Z.to_nat i0 < length l)%nat as Hlt.
  { pose proof Ht as Ht'. unfold table_ok in Ht'. rewrite decide_False in Ht' by done.
    destruct Ht' as (Hid & _). apply (f_equal length) in Hid. rewrite !length_fmap in Hid.
    rewrite Hid. by eapply lookup_lt_Some. }
  destruct (lookup_lt_is_Some_2 _ _ Hlt) as [x Hx]. exists x.
  split; [by eapply list_elem_of_lookup_2|].
  destruct (table_entry _ _ _ _ _ Ht Hi Hx) as (_ & _ & _ & _ & Hs). split; [apply Hs; lia|].
  intros it (k & Hk)%list_elem_of_lookup Hit.
  destruct (table_entry _ _ _ _ _ Ht Hi Hk) as (_ & _ & _ & _ & Hs'). apply Hs' in Hit.
  assert (k = Z.to_nat i0) as -> by lia. congruence.
Qed.

Section carry.
Context c0 i0 l c i (Hp0 : placed c0 i0) (Ht : table_ok c0 i0 l) (Hp : placed c i) (Hi : i ≠ -1).

(** The id and host of an old entry tell whether it is the node's own. *)
Lemma same_entry_self it j m :
  it ∈ l → _members c !! j = Some m → same_entry m it = true →
  i0 ≠ -1 ∧ (si_self it = true ↔ Z.of_nat j = i).
Proof.
  intros (k & Hk)%list_elem_of_lookup Hj [Hid%Z.eqb_eq Hh%HP.eqb_key]%andb_true_iff.
  destruct Hp as [?|(_ & Hval & Hme & Honly)]; [done|].
  assert (0 ≤ mc_id m) as Hge. { by destruct (Forall_lookup_1 _ _ _ _ Hval Hj) as [? _]; lia. }
  destruct (decide (i0 = -1)) as [->|Hi0].
  { destruct Ht as (si & -> & _ & Hneg). apply list_elem_of_lookup_2, list_elem_of_singleton in Hk as ->. lia. }
  split; [done|]. destruct (table_entry _ _ _ _ _ Ht Hi0 Hk) as (m0 & Hm0 & _ & Hh0 & ->).
  destruct Hp0 as [?|(_ & _ & Hme0 & Honly0)]; [done|].
  assert (isSelf (mc_host m0) = isSelf (mc_host m)) as Hsame by (apply isSelf_ext; congruence).
  assert (∀ c' n m', _members c' !! n = Some m' → isSelf (mc_host m') = true →
    ConfigChecks.is_me isSelf c' (Z.of_nat n)) as Hat.
  { intros c' n m' Hn Hs. exists m'. split; [|done]. apply elem_of_indexed. split; [lia|by rewrite Nat2Z.id]. }
  split; intros <-.
  - apply Honly, (Hat c j m Hj). rewrite <-Hsame. destruct Hme0 as (m1 & [_ Hm1]%elem_of_indexed & Hs).
    rewrite Nat2Z.id in Hm1. congruence.
  - apply Honly0, (Hat c0 k m0 Hm0). rewrite Hsame. destruct Hme as (m1 & [_ Hm1]%elem_of_indexed & Hs).
    rewrite Nat2Z.id in Hm1. congruence.
Qed.

Lemma entries_unique it it' m :
  i0 ≠ -1 → it ∈ l → it' ∈ l → same_entry m it = true → same_entry m it' = true → it = it'.
Proof.
  intros Hi0 (k & Hk)%list_elem_of_lookup (k' & Hk')%list_elem_of_lookup
    [Hid%Z.eqb_eq _]%andb_true_iff [Hid'%Z.eqb_eq _]%andb_true_iff.
  destruct (table_entry _ _ _ _ _ Ht Hi0 Hk) as (m0 & Hm0 & E0 & _).
  destruct (table_entry _ _ _ _ _ Ht Hi0 Hk') as (m1 & Hm1 & E1 & _).
  destruct Hp0 as [?|(Hnd & _)]; [done|]. assert (k = k') as ->; [|congruence].
  apply (proj1 (NoDup_alt _) Hnd k k' (mc_id m)); rewrite list_lookup_fmap.
  - rewrite Hm0. simpl. congruence.
  - rewrite Hm1. simpl. congruence.
Qed.

Lemma carry_over_spec j m :
  _members c !! j = Some m →
  (si_lastAppliedOpTime (carry_over l i (Z.of_nat j) m), si_lastDurableOpTime (carry_over l i (Z.of_nat j) m))
    = known_progress l i (Z.of_nat j) m ∧
  si_self (carry_over l i (Z.of_nat j) m) = bool_decide (Z.of_nat j = i).
Proof.
  intros Hj. unfold carry_over, known_progress. simpl.
  destruct (own_entry c0 i0 l Hp0 Ht) as (x & Hx & Hsx & Hux).
  destruct (Z.eqb_spec (Z.of_nat j) i) as [Eji|Nji].
  - rewrite (find_unique _ _ x) by done. rewrite (foldl_unique _ _ _ x); [by rewrite bool_decide_true|done| |].
    + unfold same_member. rewrite Hsx, (proj2 (Z.eqb_eq _ _) Eji). apply orb_true_r.
    + intros it Hit. unfold same_member. fold (same_entry m it). intros [Hs|[_ Hs]%andb_true_iff]%orb_true_iff; [|auto].
      apply Hux; [done|]. by apply (same_entry_self it j m).
  - assert (∀ it, same_member i (Z.of_nat j) m it = same_entry m it) as Hsame.
    { intros it. unfold same_member. rewrite (proj2 (Z.eqb_neq _ _) Nji). apply orb_false_r. }
    rewrite (bool_decide_false _ Nji).
    destruct (find (same_entry m) l) as [it|] eqn:Ef.
    + apply find_some in Ef as [Hit%list_elem_of_In Hs].
      destruct (same_entry_self it j m Hit Hj Hs) as [Hi0 Hself].
      rewrite (foldl_unique _ _ _ it); [split; [done|]|done|by rewrite Hsame|].
      * destruct (si_self it); [|done]. by destruct Nji; apply Hself.
      * intros it' Hit'. rewrite Hsame. intros Hs'. by apply (entries_unique it' it m).
    + rewrite foldl_none; [done|]. intros it Hit. rewrite Hsame.
      apply (find_none _ _ Ef). by apply list_elem_of_In.
Qed.
End carry.

Definition progress_carried l (i : Z) c l' : Prop :=
  if decide (i = -1) then
    ∃ own, own ∈ l ∧ si_self own = true ∧ l' = [own <| si_memberId := -1 |>]
  else ∀ j m, _members c !! j = Some m → ∃ si, l' !! j = Some si ∧
         (si_lastAppliedOpTime si, si_lastDurableOpTime si) = known_progress l i (Z.of_nat j) m.

Lemma update_table c0 i0 (s : ReplCoord) :
  placed c0 i0 → table_ok c0 i0 (rc_slaveInfo s) → placed (rc_config s) (rc_selfIndex s) →
  ∃ l', _updateSlaveInfoFromConfig_inlock s = Ret (tt, s <| rc_slaveInfo := l' |>) ∧
    table_ok (rc_config s) (rc_selfIndex s) l' ∧
    progress_carried (rc_slaveInfo s) (rc_selfIndex s) (rc_config s) l'.
Proof.
  intros Hp0 Ht Hp. unfold _updateSlaveInfoFromConfig_inlock, table_ok at 1, progress_carried.
  unfold mbind, M_bind, gets, id. destruct (Z.eqb_spec (rc_selfIndex s) (-1)) as [->|Hi].
  - destruct (own_entry c0 i0 _ Hp0 Ht) as (x & Hx & Hs & Hu). rewrite (find_unique _ _ x) by done.
    eexists. split; [done|]. rewrite !decide_True by done. eauto 10.
  - set (l' := _ <$> indexed _).
    assert (∀ j, l' !! j = (λ m, carry_over (rc_slaveInfo s) (rc_selfIndex s) (Z.of_nat j) m)
                             <$> _members (rc_config s) !! j) as Hl'.
    { intros j. unfold l'. rewrite list_lookup_fmap, indexed_lookup. by destruct (_ !! j). }
    exists l'. rewrite !decide_False by done. split; [|split; [split_and!|]].
    + unfold modify, invariant. simpl. unfold RSC.getNumMembers, vsize, l'. rewrite length_fmap.
      unfold indexed. by rewrite length_imap, Z.eqb_refl.
    + apply list_eq. intros j. rewrite !list_lookup_fmap, Hl'. by destruct (_ !! j).
    + apply list_eq. intros j. rewrite !list_lookup_fmap, Hl'. by destruct (_ !! j).
    + intros j si. rewrite Hl'. intros (m & Hm & ->)%fmap_Some.
      by apply (carry_over_spec c0 i0 _ (rc_config s)).
    + intros j m Hm. eexists. rewrite Hl', Hm. split; [done|].
      by apply (carry_over_spec c0 i0 _ (rc_config s)).
Qed.

(** When a configuration is installed, the table of member progress follows it: it has one
    entry per member of the new configuration in its order, or only the node's own when the
    node is not in it; the node's own record and the record of every member that keeps its id
    and host carry over, every other member starts from nothing, exactly the node's own entry
    is marked as such, and no assertion is tripped. *)
Theorem updateSlaveInfoFromConfig_correct c0 i0 (s : ReplCoord) :
  placed c0 i0 → table_ok c0 i0 (rc_slaveInfo s) → placed (rc_config s) (rc_selfIndex s) →
  ∃ l', _updateSlaveInfoFromConfig_inlock s = Ret (tt, s <| rc_slaveInfo := l' |>) ∧
    table_ok (rc_config s) (rc_selfIndex s) l' ∧
    progress_carried (rc_slaveInfo s) (rc_selfIndex s) (rc_config s) l'.
Proof.
  intros Hp0 Ht Hp. exact (update_table c0 i0 s Hp0 Ht Hp).
Qed.
End table.

Definition example_shrunk : ReplSetConfig :=
  RSC.example_config <| _version := 2 |>
    <| _members := [RSC.example_member 2 true; RSC.example_member 0 false; RSC.example_member 7 false] |>.
Lemma is_first_ext a b :
  HP.key a = HP.key b → ConfigChecks.is_first a = ConfigChecks.is_first b.
Proof.
  intros E. unfold ConfigChecks.is_first. apply eq_true_iff_eq. rewrite !HP.eqb_key. by rewrite E.
Qed.
Lemma example_first_only c i m :
  (i, m) ∈ indexed (_members c) → ConfigChecks.is_first (mc_host m) = true →
  Forall (λ im, ConfigChecks.is_first (mc_host im.2) = true → im.1 = i) (indexed (_members c)) →
  ConfigChecks.only_me ConfigChecks.is_first c i.
Proof.
  intros Hm Hs Hall. split; [by exists m|]. intros j (m' & Hm' & Hs').
  by apply (proj1 (Forall_forall _ _) Hall _ Hm').
Qed.
Lemma updateSlaveInfoFromConfig_correct_witness :
  let s := example_coord <| rc_config := example_shrunk |> <| rc_selfIndex := 1 |> in
  ∃ l', _updateSlaveInfoFromConfig_inlock s = Ret (tt, s <| rc_slaveInfo := l' |>) ∧
    table_ok example_shrunk 1 l' ∧ progress_carried (rc_slaveInfo s) 1 example_shrunk l'.
Proof.
  apply (updateSlaveInfoFromConfig_correct _ is_first_ext RSC.example_config 0).
  - right. split_and!; [repeat constructor; set_solver|repeat constructor; vm_compute; congruence|].
    apply (example_first_only _ _ (RSC.example_member 0 false)); [by left|reflexivity|].
    repeat constructor; vm_compute; congruence.
  - unfold table_ok. rewrite decide_False by done. split_and!; [reflexivity..|].
    intros [|[|[|]]] si [= <-]; reflexivity.
  - right. split_and!; [repeat constructor; set_solver|repeat constructor; vm_compute; congruence|].
    apply (example_first_only _ _ (RSC.example_member 0 false)); [by right; left|reflexivity|].
    repeat constructor; vm_compute; congruence.
Defined.
End Install.
