(* ===== verification/ConfigInstallInv.v ===== *)
(** * Installing a configuration keeps the coordinator consistent

    The invariant that joins the topology coordinator, the progress table and the commit point
    of a node of protocol version 1, in the configuration or outside of it, and the proof that
    [_setCurrentRSConfig_inlock] establishes it for the new configuration without tripping an
    assertion of any of the components. *)
From S2P Require Import Prelude ReplTime ParseNumber HostAndPort ReplTag ReplConfig ConfigChecks Heartbeat Topology TopologyElection TopologySync TopologyHeartbeat TopologyInv Voting Commit ConfigInstall.

Module InstallInv.
Import Topo TopoElect TopoInv Commit Install.
Implicit Types s : Coordinator.

Lemma wp_on_topo {A} (m : TM A) Q s :
  wp (on_topo m) Q s ↔ wp m (λ a t, Q a (s <| co_topo := t |>)) (co_topo s).
Proof. unfold wp, on_topo. simpl. by destruct (m (co_topo s)) as [[]|]. Qed.
Lemma wp_on_coord {A} (m : CM A) Q s :
  wp (on_coord m) Q s ↔ wp m (λ a c, Q a (s <| co_coord := c |>)) (co_coord s).
Proof. unfold wp, on_coord. simpl. by destruct (m (co_coord s)) as [[]|]. Qed.
#[local] Hint Rewrite @wp_on_topo @wp_on_coord : wp.

(** ** The topology coordinator *)
Record topo_installed t newConfig i t' : Prop := mkTopoInstalled {
  ti_config : _rsConfig t' = newConfig; ti_self : _selfIndex t' = i;
  ti_read : _storageEngineSupportsReadCommitted t' = _storageEngineSupportsReadCommitted t;
  ti_candidate : _role t' = candidate →
    i = 0 ∧ vsize (_members newConfig) = 1 ∧
    ∃ m, RSC.getMemberAt newConfig 0 = Ret m ∧ MC.isElectable m = true }.

Lemma updateConfig_installed newConfig i now o t :
  wlp (updateConfig newConfig i now o) (λ _, topo_installed t newConfig i) t.
Proof.
  unfold updateConfig, _updateHeartbeatDataForReconfig, become_candidate_if_single.
  apply wlp_bind, wlp_invariant. intros Hr%negb_true_iff. apply bool_decide_eq_false in Hr.
  apply wlp_bind, wlp_invariant. intros _. apply wlp_bind, wlp_gets, wlp_bind.
  apply (wlp_mono _ (λ _ t1, same_core t t1)).
  2: { destruct (negb _ || _); [|by apply wlp_ret]. destruct (_ =? 1); [by apply wlp_modify|].
       apply wlp_bind, wlp_invariant. intros _. by apply wlp_modify. }
  intros _ t1 [Er _ _ _ _ _ _ _ _ Erc]. rewrite <-Er in Hr.
  apply wlp_bind, wlp_modify, wlp_bind, wlp_modify. cbv zeta.
  set (t2 := _ <| _forceSyncSourceIndex := -1 |>). apply wlp_bind.
  apply (wlp_mono _ (λ _ t3, t3 = t2)).
  2: { apply wlp_bind, wlp_gets. destruct (role_eqb _ leader); [|by apply wlp_ret].
       destruct (i =? -1); [by apply wlp_ret|]. apply wlp_bind, wlp_reads. intros ? _. by apply wlp_ret. }
  intros stay ? ->.
  assert (∀ t3, _rsConfig t3 = newConfig → _selfIndex t3 = i →
    _storageEngineSupportsReadCommitted t3 = _storageEngineSupportsReadCommitted t →
    _role t3 ≠ candidate → topo_installed t newConfig i t3) as Hdone.
  { intros t3 ? ? ? ?. by split. }
  destruct stay; [apply wlp_modify; by apply Hdone|].
  apply wlp_bind, wlp_modify, wlp_bind, wlp_modify.
  set (t4 := _ <| _currentPrimaryIndex := -1 |>).
  assert (_rsConfig t4 = newConfig ∧ _selfIndex t4 = i ∧ _role t4 ≠ candidate ∧
    _storageEngineSupportsReadCommitted t4 = _storageEngineSupportsReadCommitted t) as (Ec & Ei & Nr & Es).
  { subst t4 t2. destruct (role_eqb _ leader); done. }
  apply wlp_bind, wlp_bind, wlp_reads. intros single Hsingle.
  destruct single; [|apply wlp_ret, wlp_ret; by apply Hdone].
  apply wlp_bind, wlp_modify, wlp_ret, wlp_ret. split; [done..|]. intros _.
  unfold _isElectableNodeInSingleNodeReplicaSet in Hsingle.
  destruct (_ && _) eqn:E; [|done]. apply andb_true_iff in E as [[_ E1%Z.eqb_eq]%andb_true_iff E2%Z.eqb_eq].
  unfold _selfConfig, getMemberAt in Hsingle. rewrite E2, Ec in Hsingle. rewrite Ec in E1.
  split_and!; [congruence..|]. destruct (RSC.getMemberAt newConfig 0) as [m|]; [|done]. exists m.
  split; [done|]. cbn in Hsingle. injection Hsingle as Hs. by apply andb_true_iff in Hs as [-> _].
Qed.

(** ** The progress tracker, inside and outside the configuration *)
Definition no_snapshots (c : ReplCoord) : Prop :=
  rc_uncommittedSnapshots c = [] ∧ rc_currentCommittedSnapshot c = None.
Record core_ok (c : ReplCoord) : Prop := mkCoreOk {
  ko_times : Forall (λ si, in_protocol PV1 (si_lastAppliedOpTime si) ∧
                           in_protocol PV1 (si_lastDurableOpTime si)) (rc_slaveInfo c);
  ko_committed : in_protocol PV1 (rc_lastCommittedOpTime c);
  ko_first : in_protocol PV1 (rc_firstOpTimeOfMyTerm c);
  ko_snapshots : snapshots_ok PV1 c;
  ko_rollback : rc_memberState c = RS_ROLLBACK → no_snapshots c;
  ko_removed : rc_memberState c = RS_REMOVED → rc_replicationWaiters c = [];
  ko_waiters : Forall (λ w, syncMode (w_writeConcern w) ≠ SM_UNSET) (rc_replicationWaiters c) }.

(** What a change of the member state leaves alone. *)
Record same_place s s' : Prop := mkSamePlace {
  sp_topo : co_topo s' = co_topo s; sp_configState : co_configState s' = co_configState s;
  sp_stored : co_stored s' = co_stored s; sp_shutdown : co_inShutdown s' = co_inShutdown s;
  sp_vote : co_voteRequester s' = co_voteRequester s;
  sp_fresh : co_freshnessChecker s' = co_freshnessChecker s;
  sp_config : config s' = config s; sp_self : selfIndex s' = selfIndex s;
  sp_info : rc_slaveInfo (co_coord s') = rc_slaveInfo (co_coord s);
  sp_waiters : rc_replicationWaiters (co_coord s') = rc_replicationWaiters (co_coord s) ∨
               rc_replicationWaiters (co_coord s') = [];
  sp_snapshots : rc_uncommittedSnapshots (co_coord s') = rc_uncommittedSnapshots (co_coord s) ∧
    rc_currentCommittedSnapshot (co_coord s') = rc_currentCommittedSnapshot (co_coord s) ∨
    no_snapshots (co_coord s') }.
#[local] Instance same_place_refl : Reflexive same_place.
Proof. intros s. split; auto. Qed.
#[local] Instance same_place_trans : Transitive same_place.
Proof.
  intros s1 s2 s3 [] []. unfold no_snapshots in *.
  split; unfold no_snapshots; try congruence; intuition congruence.
Qed.

Section member_state.
Context s0 (memberState newState : MemberState).
Hypothesis Hcore0 : core_ok (co_coord s0).
Definition passing s : Prop :=
  same_place s0 s ∧ rc_memberState (co_coord s) = rc_memberState (co_coord s0) ∧
  core_ok (co_coord s).
Lemma passing_start : passing s0.
Proof. by split_and!. Qed.
Lemma passing_flags s s' :
  passing s → same_place s s' → co_coord s' = co_coord s → passing s'.
Proof. intros (H1 & H2 & H3) H E. unfold passing. rewrite E. split_and!; [by etrans|done..]. Qed.
Lemma passing_signal s :
  passing s →
  passing (s <| co_coord := co_coord s
      <| rc_signalled := rc_signalled (co_coord s) ++ rc_replicationWaiters (co_coord s) ++
                         rc_opTimeWaiters (co_coord s) |>
      <| rc_replicationWaiters := [] |> <| rc_opTimeWaiters := [] |> |>).
Proof.
  intros (Hp & Hm & [? ? ? [? ? ?] ? ? ?]). split_and!; [etrans; [exact Hp|]| |]; simpl; try done.
  split; auto.
Qed.
Lemma passing_drop s :
  passing s →
  passing (s <| co_coord := co_coord s <| rc_uncommittedSnapshots := [] |>
                                       <| rc_currentCommittedSnapshot := None |> |>).
Proof.
  intros (Hp & Hm & [? ? ? [? ? ?] ? ? ?]). split_and!; [etrans; [exact Hp|]| |]; simpl; try done.
  - split; auto. right. by split.
  - split; try done. split; simpl; try done; constructor.
Qed.
Lemma passing_pending s :
  passing s → passing (s <| co_coord := co_coord s <| rc_stepDownPending := false |> |>).
Proof.
  intros (Hp & Hm & [? ? ? [? ? ?] ? ? ?]). split_and!; [etrans; [exact Hp|]| |]; simpl; try done.
  split; auto.
Qed.
Lemma wp_single_node_action line s (Q : PostMemberStateUpdateAction → Coordinator → Prop) :
  single_node_electable s = Ret true → (∀ a, Q a s) → wp (single_node_action line) Q s.
Proof. intros H HQ. unfold single_node_action. wp_simpl. rewrite H. simpl. wp_simpl. auto. Qed.
End member_state.

(** The end of the change: snapshots are dropped on the way into a rollback, and there are none
    on the way out. *)
Lemma wp_enter_state s s1 newState (result : PostMemberStateUpdateAction) :
  passing s s1 → (newState = RS_REMOVED → rc_replicationWaiters (co_coord s1) = []) →
  wp ((if state_eqb newState RS_ROLLBACK then on_coord _dropAllSnapshots_inlock else mret tt) ;;
      (if state_eqb (rc_memberState (co_coord s)) RS_ROLLBACK then
         invariant 2720 (λ s, negb (has_committed_snapshot (co_coord s))) ;;
         invariant 2721 (λ s, vsize (rc_uncommittedSnapshots (co_coord s)) =? 0)
       else mret tt) ;;
      on_coord (modify (λ c, c <| rc_memberState := newState |>)) ;;
      mret result) (λ _ s',
    same_place s s' ∧ core_ok (co_coord s') ∧
    rc_memberState (co_coord s') = newState) s1.
Proof.
  intros Hp1 Hw1.
  apply wp_bind, (wp_mono _ (λ _ s2, passing s s2 ∧
    (newState = RS_REMOVED → rc_replicationWaiters (co_coord s2) = []) ∧
    (newState = RS_ROLLBACK → no_snapshots (co_coord s2)))).
  2: { destruct (state_eqb newState RS_ROLLBACK) eqn:E; wp_simpl.
       - unfold _dropAllSnapshots_inlock. wp_simpl. split_and!; [by apply passing_drop|done..].
       - split_and!; [done..|]. by intros ->. }
  clear s1 Hp1 Hw1. intros _ s1 (Hp1 & Hw1 & Hroll). pose proof Hp1 as (Hplace & Hms & Hc1).
  apply wp_bind, (wp_mono _ (λ _ s2, s2 = s1)).
  2: { rewrite <-Hms. destruct (state_eqb _ RS_ROLLBACK) eqn:E; wp_simpl; [|done].
       apply bool_decide_eq_true in E. destruct (ko_rollback _ Hc1 E) as [Eu Ec].
       unfold has_committed_snapshot. by rewrite Eu, Ec. }
  intros _ ? ->. wp_simpl. destruct Hc1 as [? ? ? [? ? ?] ? ? ?].
  split_and!; [etrans; [exact Hplace|by split; auto]| |done].
  by split.
Qed.

Lemma wp_update_member_state s newState :
  core_ok (co_coord s) → getMemberState (co_topo s) = Ret newState →
  (_role (co_topo s) = candidate → single_node_electable s = Ret true) →
  wp _updateMemberStateFromTopologyCoordinator_inlock (λ _ s',
    same_place s s' ∧ core_ok (co_coord s') ∧
    rc_memberState (co_coord s') = newState) s.
Proof.
  intros Hcore Hst Hcand. unfold _updateMemberStateFromTopologyCoordinator_inlock.
  wp_simpl. rewrite Hst. cbn [owp]. wp_simpl. unfold id.
  destruct (state_eqb newState (rc_memberState (co_coord s))) eqn:Esame.
  { apply bool_decide_eq_true in Esame as ->.
    destruct (role_eqb _ candidate) eqn:Er; [|by wp_simpl].
    apply bool_decide_eq_true in Er. by apply wp_single_node_action; [auto|]. }
  pose proof (passing_start s Hcore) as Hpass.
  apply wp_bind, (wp_mono _ (λ _ s1, passing s s1 ∧
    (newState = RS_REMOVED → rc_replicationWaiters (co_coord s1) = []))).
  2: { destruct (_ || _ || _) eqn:E; wp_simpl.
       - unfold signalAndRemoveAll. wp_simpl. split; [|done].
         refine (passing_pending s _ _). eapply passing_flags; [by apply passing_signal| |done].
         by split; auto.
       - split; [done|]. intros ->. by rewrite orb_true_r in E. }
  intros result s1 [Hp1 Hw1]. clear Hpass.
  apply wp_bind, (wp_mono _ (λ _ s2, passing s s2 ∧
    (newState = RS_REMOVED → rc_replicationWaiters (co_coord s2) = []))).
  2: { destruct (state_eqb _ RS_PRIMARY); wp_simpl; [|done].
       split; [|done]. apply (passing_flags s s1); [done|by split; auto|done]. }
  clear s1 Hp1 Hw1. intros _ s1 [Hp1 Hw1].
  apply wp_bind, (wp_mono _ (λ _ s2, passing s s2 ∧
    (newState = RS_REMOVED → rc_replicationWaiters (co_coord s2) = []))).
  2: { destruct (_ && _); wp_simpl; [|destruct (_ && _); wp_simpl; [|done]];
       (split; [|done]; apply (passing_flags s s1); [done|by split; auto|done]). }
  clear s1 Hp1 Hw1. intros _ s1 [Hp1 Hw1].
  apply wp_bind, (wp_mono _ (λ _ s2, s2 = s1)).
  2: { destruct (_ && _) eqn:E; [|by wp_simpl]. apply andb_true_iff in E as [_ E%bool_decide_eq_true].
       apply wp_single_node_action; [|done]. rewrite <-(Hcand E). unfold single_node_electable.
       destruct Hp1 as [[_ _ _ _ _ _ -> -> _ _ _] _]. done. }
  intros result' s2 ->. by apply wp_enter_state.
Qed.

(** ** The invariant *)
Section invariant.
Context (isSelf : HostAndPort → bool).
Hypothesis isSelf_ext : ∀ a b, HP.key a = HP.key b → isSelf a = isSelf b.

Record coord_ok (c : ReplCoord) : Prop := mkCoordOk {
  ck_core : core_ok c;
  ck_placed : placed isSelf (rc_config c) (rc_selfIndex c);
  ck_table : table_ok (rc_config c) (rc_selfIndex c) (rc_slaveInfo c);
  ck_member : rc_selfIndex c ≠ -1 →
    (∃ p, RSC.valid_config p (rc_config c)) ∧ RSC.majorities_set (rc_config c);
  ck_outside : rc_selfIndex c = -1 → rc_replicationWaiters c = [] ∧ is_primary c = false }.

Lemma placed_range c i : placed isSelf c i → i ≠ -1 → 0 ≤ i < vsize (_members c).
Proof.
  intros [?|(_ & _ & [(m & [Hi Hm]%elem_of_indexed & _) _])] Hne; [done|].
  apply lookup_lt_Some in Hm. unfold vsize. lia.
Qed.

Lemma coord_ok_CInv c : coord_ok c → rc_selfIndex c ≠ -1 → CInv PV1 c.
Proof.
  intros [[] Hp Ht Hm _] Hi. destruct (Hm Hi) as [? ?]. split; try done. split; try done.
  - unfold table_ok in Ht. rewrite decide_False in Ht by done. by destruct Ht as [? _].
  - pose proof (placed_range _ _ Hp Hi). unfold table_ok in Ht. rewrite decide_False in Ht by done.
    destruct Ht as [Hid _]. apply (f_equal length) in Hid. rewrite !length_fmap in Hid.
    unfold vsize in *. by rewrite Hid.
Qed.
Lemma my_applied_total c : coord_ok c → owp (_getMyLastAppliedOpTime_inlock c) (λ _, True).
Proof.
  intros Hok. unfold _getMyLastAppliedOpTime_inlock. apply owp_bind.
  destruct (decide (rc_selfIndex c = -1)) as [Hi|Hi].
  - unfold my_info, _getMyIndexInSlaveInfo_inlock.
    pose proof (ck_table _ Hok) as Ht'. unfold table_ok in Ht'. rewrite Hi in *.
    rewrite decide_True in Ht' by done. destruct Ht' as (si & -> & _). done.
  - apply my_info_total; [by apply coord_ok_CInv|done].
Qed.

(** Operations that only move the commit point, the snapshots and the waiters keep it. *)
Lemma coord_ok_frame c c' :
  coord_ok c → rc_selfIndex c ≠ -1 → frame c c' → CInv PV1 c' →
  (rc_memberState c = RS_ROLLBACK → no_snapshots c') → coord_ok c'.
Proof.
  intros [[] Hp Ht Hm Ho] Hi [Ec Es Est _ Ei Ef _ (woken & Hw & _)] [HP' Ht' Hc' Hf' Hs'] Hroll.
  split; rewrite ?Ec, ?Es, ?Ei; try done. split; rewrite ?Est; try done; [|apply HP'].
  intros Hr. rewrite ko_removed0 in Hw by done. symmetry in Hw. apply Permutation_nil_l in Hw.
  by destruct (rc_replicationWaiters c').
Qed.

Definition unmoved (c c' : ReplCoord) : Prop :=
  rc_config c' = rc_config c ∧ rc_selfIndex c' = rc_selfIndex c ∧
  rc_memberState c' = rc_memberState c.
Definition same_info (c c' : ReplCoord) : Prop := unmoved c c' ∧ rc_slaveInfo c' = rc_slaveInfo c.
(** No progress is recorded of any member. *)
Definition nothing_known (l : list SlaveInfo) : Prop :=
  Forall (λ si, si_lastAppliedOpTime si = OT.null ∧ si_lastDurableOpTime si = OT.null) l.
Lemma wp_recommit_ok now c :
  coord_ok c → wp (_updateLastCommittedOpTime_inlock now) (λ _ c', coord_ok c' ∧ same_info c c') c.
Proof.
  intros Hok. destruct (is_primary c) eqn:Hp.
  - assert (rc_selfIndex c ≠ -1) as Hi.
    { intros Hi. destruct (ck_outside _ Hok Hi) as [_ H]. congruence. }
    apply (wp_recommit PV1); [by apply coord_ok_CInv|]. intros c' HC' Hf _ _.
    split; [|by destruct Hf]. apply (coord_ok_frame c); try done.
    intros Hr. unfold is_primary in Hp. by rewrite Hr in Hp.
  - apply wp_Ret. unfold _updateLastCommittedOpTime_inlock.
    rewrite update_last_committed_not_primary by done. by exists tt, c.
Qed.
Lemma wp_wake_ok c :
  coord_ok c → wp _wakeReadyWaiters_inlock (λ _ c', coord_ok c' ∧ same_info c c') c.
Proof.
  intros Hok. destruct (decide (rc_selfIndex c = -1)) as [Hi|Hi].
  - destruct (ck_outside _ Hok Hi) as [Hw _]. unfold _wakeReadyWaiters_inlock. wp_simpl.
    rewrite Hw. cbn. rewrite app_nil_r. split; [|done]. by destruct c; simpl in *; subst.
  - pose proof (coord_ok_CInv c Hok Hi) as HC. apply wp_wake; [apply HC|].
    intros c' Hf El Eu Ec. split; [|by destruct Hf]. apply (coord_ok_frame c); try done.
    + eapply CInv_frame; [done..| |by rewrite El; apply HC].
      destruct (cv_snapshots _ _ HC) as [???]. constructor; rewrite ?Eu, ?Ec, ?El; done.
    + intros Hr. unfold no_snapshots. rewrite Eu, Ec. by apply (ko_rollback _ (ck_core _ Hok)).
Qed.

(** ** The node's own optimes *)
Lemma null_first o : in_protocol PV1 o → OT.leb OT.null o = true.
Proof.
  intros Ho. apply (OT_leb_protocol PV1); [by left|done|].
  destruct Ho as [->|[Ht _]]; unfold lex_lt, OT.null, OT.kUninitializedTerm; simpl; lia.
Qed.
Lemma null_least o : in_protocol PV1 o → o ≠ OT.null → OT.ltb OT.null o = true.
Proof.
  intros Ho Hn. apply (OT_ltb_protocol PV1); [by left|done|].
  destruct Ho as [->|[Ht _]]; [done|]. unfold lex_lt, OT.null, OT.kUninitializedTerm. simpl. lia.
Qed.
Definition not_durable (l : list SlaveInfo) : Prop :=
  Forall (λ si, si_lastDurableOpTime si = OT.null) l.
Lemma own_entry_at c :
  coord_ok c → ∃ i si, _getMyIndexInSlaveInfo_inlock c = Ret i ∧ 0 ≤ i ∧
    rc_slaveInfo c !! Z.to_nat i = Some si ∧ my_info c = Ret si ∧
    in_protocol PV1 (si_lastAppliedOpTime si) ∧ in_protocol PV1 (si_lastDurableOpTime si).
Proof.
  intros Hc. assert (∃ i, _getMyIndexInSlaveInfo_inlock c = Ret i ∧ 0 ≤ i < vsize (rc_slaveInfo c))
    as (i & Hi & Hr).
  { unfold _getMyIndexInSlaveInfo_inlock. pose proof (ck_table _ Hc) as Ht.
    destruct (Z.eqb_spec (rc_selfIndex c) (-1)) as [E|E].
    - rewrite E in Ht. destruct Ht as (si & -> & _). by exists 0.
    - exists (rc_selfIndex c). split; [done|]. apply (pg_self _ (cv_progress _ _ (coord_ok_CInv _ Hc E))). }
  destruct (vat_in_range 1234 _ _ Hr) as (si & Hv & Hl). exists i, si.
  destruct (Forall_lookup_1 _ _ _ _ (ko_times _ (ck_core _ Hc)) Hl).
  split_and!; [done|lia|done|unfold my_info; by rewrite Hi|done..].
Qed.
Lemma fmap_insert_same {A B} (f : A → B) n x y (l : list A) :
  l !! n = Some y → f x = f y → f <$> <[n:=x]> l = f <$> l.
Proof.
  intros Hl Hf. rewrite list_fmap_insert. apply list_insert_id.
  by rewrite list_lookup_fmap, Hl, Hf.
Qed.
(** An entry with new optimes. *)
Lemma coord_ok_entry c i si a d now down :
  coord_ok c → rc_slaveInfo c !! Z.to_nat i = Some si → 0 ≤ i → in_protocol PV1 a → in_protocol PV1 d →
  coord_ok (c <| rc_slaveInfo :=
    vset i (mkSlaveInfo d a (si_hostAndPort si) (si_memberId si) (si_self si) now down) (rc_slaveInfo c) |>).
Proof.
  intros [[? ? ? [? ? ?] ? ? ?] Hp Ht ? ?] Hl Hi Ha Hd. unfold vset. rewrite (proj2 (Z.leb_le 0 i)) by done.
  split; simpl; try done.
  - split; simpl; try done. apply Forall_insert; [done|by split].
  - unfold table_ok in *. case_decide.
    + destruct Ht as (x & Hx & ? & ?). rewrite Hx in Hl |- *. destruct (Z.to_nat i) eqn:E; [|done].
      injection Hl as <-. by eexists.
    + destruct Ht as (H1 & H2 & H3). split_and!;
        [by rewrite (fmap_insert_same _ _ _ si)..|].
      intros j x. rewrite list_lookup_insert_Some. intros [(<- & <- & _)|[_ Hj]]; [|by apply H3].
      simpl. by apply H3.
Qed.
Lemma not_durable_entry c i si a now down :
  not_durable (rc_slaveInfo c) → rc_slaveInfo c !! Z.to_nat i = Some si →
  not_durable (vset i (mkSlaveInfo (si_lastDurableOpTime si) a (si_hostAndPort si) (si_memberId si)
    (si_self si) now down) (rc_slaveInfo c)).
Proof.
  intros Hn Hl. unfold vset. case_match; [|done]. apply Forall_insert; [done|].
  by apply (Forall_lookup_1 _ _ _ _ Hn Hl).
Qed.

Lemma wp_my_durable now o c :
  coord_ok c → in_protocol PV1 o → not_durable (rc_slaveInfo c) →
  wp (_setMyLastDurableOpTime_inlock now o false) (λ _ c', coord_ok c' ∧ unmoved c c') c.
Proof.
  intros Hc Ho Hnull. destruct (own_entry_at c Hc) as (i & si & Hi & H0 & Hl & Hmine & Ha & _).
  unfold _setMyLastDurableOpTime_inlock. wp_simpl. rewrite Hi. cbn [owp]. wp_simpl.
  rewrite Hmine. cbn [owp]. wp_simpl. rewrite (Forall_lookup_1 _ _ _ _ Hnull Hl).
  split; [by apply null_first|]. destruct (OT.ltb _ _) eqn:Elt; wp_simpl; [done|].
  unfold _updateSlaveInfoDurableOpTime_inlock. wp_simpl.
  rewrite (proj2 (vat_Ret 1061 _ _ si)) by done. cbn [owp]. rewrite Elt. wp_simpl.
  apply (wp_set_info i _ _ _ si); [done..|]. set (c0 := c <| rc_slaveInfo := _ |>).
  assert (coord_ok c0) as Hc0 by by apply (coord_ok_entry c i si).
  wp_simpl. eapply wp_mono; [|by apply wp_recommit_ok].
  intros _ c1 [Hc1 [(E1 & E2 & E3) _]]. wp_simpl. eapply wp_mono; [|by apply wp_wake_ok].
  intros _ c2 [Hc2 [(E4 & E5 & E6) _]]. split; [done|]. unfold unmoved. by rewrite E4, E5, E6.
Qed.
Lemma coord_ok_optime_waiters c l sig :
  coord_ok c → coord_ok (c <| rc_opTimeWaiters := l |> <| rc_signalled := sig |>).
Proof. intros [[? ? ? [? ? ?] ? ? ?] ? ? ? ?]. by split. Qed.
Lemma wp_my_first_applied now o c :
  coord_ok c → in_protocol PV1 o → o ≠ OT.null → nothing_known (rc_slaveInfo c) →
  wp (_setMyLastAppliedOpTime_inlock now o false)
    (λ _ c', coord_ok c' ∧ unmoved c c' ∧ not_durable (rc_slaveInfo c')) c.
Proof.
  intros Hc Ho Hne Hnull. destruct (own_entry_at c Hc) as (i & si & Hi & H0 & Hl & Hmine & _ & Hd).
  destruct (Forall_lookup_1 _ _ _ _ Hnull Hl) as [Hsi _].
  unfold _setMyLastAppliedOpTime_inlock, set_my_applied. wp_simpl. rewrite Hi. cbn [owp]. wp_simpl.
  unfold _getMyLastAppliedOpTime_inlock. rewrite Hmine. simpl. rewrite Hsi. wp_simpl.
  assert (OT.eqb o OT.null = false) as Heq.
  { apply not_true_is_false. by rewrite (OT_eqb_protocol PV1) by (try done; by left). }
  rewrite Heq. cbn [negb]. wp_simpl. split; [rewrite OT_gtb_ltb; by apply null_least|].
  split; [by rewrite Z.eqb_refl, orb_true_r|]. unfold update_applied. wp_simpl.
  apply (wp_set_info i _ _ _ si); [done..|]. set (c0 := c <| rc_slaveInfo := _ |>).
  assert (coord_ok c0) as Hc0 by by apply (coord_ok_entry c i si).
  wp_simpl. eapply wp_mono; [|by apply wp_recommit_ok].
  intros _ c1 [Hc1 [(E1 & E2 & E3) El1]]. wp_simpl. eapply wp_mono; [|by apply wp_wake_ok].
  intros _ c2 [Hc2 [(E4 & E5 & E6) El2]]. unfold signal_optime_waiters. wp_simpl.
  unfold signalAndRemoveIf_inlock.
  eapply owp_mono; [|apply signal_and_remove_spec; [lia| |done]]; [|by apply Forall_true].
  intros [l sig] _. wp_simpl. split; [by apply coord_ok_optime_waiters|]. split.
  - unfold unmoved. simpl. by rewrite E4, E5, E6.
  - simpl. rewrite El2, El1. apply (not_durable_entry c i si); [|done].
    eapply Forall_impl; [exact Hnull|]. by intros x [_ ?].
Qed.

(** ** The installation *)

(** What a configuration needs to be installed at all: its members make sense each by itself. *)
Definition basics (c : ReplSetConfig) : Prop :=
  1 ≤ _version c ∧ Forall MC.valid (_members c) ∧ NoDup (mc_id <$> _members c).
Lemma valid_basics p c : RSC.valid_config p c → basics c.
Proof. intros ([? _] & _ & _ & _ & ? & ? & _). done. Qed.
(** A configuration that may become current, with the node's place in it: -1 when the node is not in
    it, or not told apart.  It has passed validation when the node is a member of it. *)
Record acceptable (newConfig : ReplSetConfig) (i : Z) : Prop := mkAcceptable {
  ac_basics : basics newConfig; ac_valid : i ≠ -1 → ∃ p, RSC.valid_config p newConfig;
  ac_majorities : RSC.majorities_set newConfig;
  ac_initialized : _isInitialized newConfig = true;
  ac_priorities : Forall (λ m, Dbl.is_nan (mc_priority m) = false) (_members newConfig);
  ac_protocol : _protocolVersion newConfig = 1;
  ac_place : i = -1 ∨ ConfigChecks.only_me isSelf newConfig i }.

Record node_ok s : Prop := mkNodeOk {
  no_topo : Consistent (co_topo s);
  no_readCommitted : _storageEngineSupportsReadCommitted (co_topo s) ≠ kUnknown;
  no_coord : coord_ok (co_coord s);
  no_config : _rsConfig (co_topo s) = config s; no_self : _selfIndex (co_topo s) = selfIndex s;
  no_protocol : _isInitialized (config s) = true → _protocolVersion (config s) = 1 }.

Lemma acceptable_placed newConfig i : acceptable newConfig i → placed isSelf newConfig i.
Proof.
  intros [(_ & Hval & Hid) _ _ _ _ _ [?|?]]; [by left|right]. by split_and!.
Qed.
Lemma acceptable_args t newConfig i :
  acceptable newConfig i → _storageEngineSupportsReadCommitted t ≠ kUnknown →
  config_args_ok t newConfig i.
Proof.
  intros Hac Hrc. pose proof (acceptable_placed _ _ Hac) as Hp.
  pose proof Hac as [(_ & Hval & Hid) _ Hmaj _ Hnan Hpv _].
  split; [|split; [|done]].
  - split_and!; [|by right|done..]. apply Forall_and. by split.
  - destruct (decide (i = -1)) as [->|Hi]; [pose proof (vsize_nonneg (_members newConfig)); lia|]. pose proof (placed_range _ _ Hp Hi). lia.
Qed.

Record now_current s newConfig i s' : Prop := mkNowCurrent {
  nc_ok : node_ok s'; nc_steady : co_configState s' = kConfigSteady;
  nc_config : config s' = newConfig; nc_self : selfIndex s' = i;
  nc_stored : co_stored s' = co_stored s; nc_shutdown : co_inShutdown s' = co_inShutdown s;
  nc_nothing : nothing_known (rc_slaveInfo (co_coord s)) → nothing_known (rc_slaveInfo (co_coord s')) }.

Section install.
Context (fromTerm : Z → Z) (genOID : Z) (ts : Timestamp) (now : Z).
Context (newConfig : ReplSetConfig) (i : Z) (Hac : acceptable newConfig i).

Lemma carried (P : OpTime → OpTime → Prop) c l l' :
  P OT.null OT.null → table_ok c i l' → progress_carried l i c l' →
  Forall (λ si, P (si_lastAppliedOpTime si) (si_lastDurableOpTime si)) l →
  Forall (λ si, P (si_lastAppliedOpTime si) (si_lastDurableOpTime si)) l'.
Proof.
  rewrite !Forall_forall. intros Hnull Ht' Hc Hl. unfold table_ok in Ht'. unfold progress_carried in Hc.
  case_decide as Hi.
  - destruct Hc as (own & Hown & _ & ->). intros si ->%list_elem_of_singleton. by apply Hl in Hown.
  - intros si (j & Hj)%list_elem_of_lookup. destruct Ht' as (Hid & _).
    assert ((si_memberId <$> l') !! j = Some (si_memberId si)) as Hm by by rewrite list_lookup_fmap, Hj.
    rewrite Hid, list_lookup_fmap in Hm. apply fmap_Some in Hm as (m & Hm & _).
    destruct (Hc j m Hm) as (si' & Hj' & Hk). rewrite Hj in Hj'. injection Hj' as <-.
    unfold known_progress in *. destruct (find _ l) as [it|] eqn:Ef.
    + apply find_some in Ef as [Hit%list_elem_of_In _]. injection Hk as -> ->. by apply Hl.
    + by injection Hk as -> ->.
Qed.

(** After the member state has been looked at, with the configuration already in place. *)
Lemma rebuilt_table c0 i0 (c : ReplCoord) :
  core_ok c → placed isSelf c0 i0 → table_ok c0 i0 (rc_slaveInfo c) →
  rc_config c = newConfig → rc_selfIndex c = i →
  (i = -1 → rc_replicationWaiters c = [] ∧ is_primary c = false) →
  wp _updateSlaveInfoFromConfig_inlock (λ _ c', coord_ok c' ∧ unmoved c c' ∧
    (nothing_known (rc_slaveInfo c) → nothing_known (rc_slaveInfo c'))) c.
Proof.
  intros Hcore Hp0 Ht Ec Ei Hout. pose proof (acceptable_placed _ _ Hac) as Hp.
  destruct (update_table isSelf isSelf_ext c0 i0 c Hp0 Ht) as (l' & Hrun & Ht' & Hcarry);
    [by rewrite Ec, Ei|].
  rewrite Ec, Ei in Ht', Hcarry. apply wp_Ret. eexists tt, _. split; [exact Hrun|].
  split; [|split; [done|simpl; by apply (carried (λ a d, a = OT.null ∧ d = OT.null) newConfig)]].
  split; simpl; rewrite ?Ec, ?Ei; try done.
  - destruct Hcore as [Htimes ? ? [? ? ?] ? ? ?]. split; simpl; try done.
    apply (carried (λ a d, in_protocol PV1 a ∧ in_protocol PV1 d) newConfig (rc_slaveInfo c)); [|done..].
    by split; left.
  - intros Hi. split; [by apply (ac_valid _ _ Hac)|apply Hac].
Qed.

Definition reconfigured s t' : Coordinator :=
  s <| co_configState := kConfigSteady |> <| co_topo := t' |> <| co_cachedTerm := _term t' |>
    <| co_coord := co_coord s <| rc_config := newConfig |> <| rc_selfIndex := i |> |>.

Lemma wp_member_state_follows s t' :
  node_ok s → Consistent t' → topo_installed (co_topo s) newConfig i t' →
  wp _updateMemberStateFromTopologyCoordinator_inlock (λ _ s',
    same_place (reconfigured s t') s' ∧ core_ok (co_coord s') ∧
    (i = -1 → rc_replicationWaiters (co_coord s') = [] ∧ is_primary (co_coord s') = false))
    (reconfigured s t').
Proof.
  intros [_ _ Hok _ _ _] HC' [Etc Ets _ Hcand].
  destruct (proj1 (owp_Ret _ _) (getMemberState_spec t' (con_inv t' HC'))) as (newState & Hst & _).
  eapply wp_mono; [|apply (wp_update_member_state _ newState); [|exact Hst|]].
  - intros _ s' (Hp & Hcore & Hms). split_and!; [done..|]. intros Hi.
    assert (newState = RS_REMOVED) as ->.
    { unfold getMemberState in Hst. rewrite Ets, Etc, Hi in Hst. simpl in Hst.
      rewrite (ac_initialized _ _ Hac) in Hst. by injection Hst. }
    split; [by apply (ko_removed _ Hcore)|]. unfold is_primary. by rewrite Hms.
  - destruct (ck_core _ Hok) as [? ? ? [? ? ?] ? ? ?]. by split.
  - intros Hr. destruct (Hcand Hr) as (Hi & Hsize & m & Hm & He).
    unfold single_node_electable, config, selfIndex, RSC.getNumMembers. simpl.
    rewrite Hsize, Hm, Hi. simpl. by rewrite He.
Qed.

Lemma wp_same_protocol oldConfig s :
  (_isInitialized oldConfig = true → _protocolVersion oldConfig = _protocolVersion newConfig) →
  wp (set_election_id oldConfig newConfig fromTerm genOID ts) (λ _ s', s' = s) s.
Proof.
  intros Hpv. unfold set_election_id. wp_simpl.
  destruct (_isInitialized oldConfig); [|by wp_simpl]. destruct (is_primary _); [|by wp_simpl].
  rewrite Hpv, Z.ltb_irrefl by done. by wp_simpl.
Qed.

Lemma wp_install s :
  node_ok s → _role (co_topo s) ≠ candidate →
  wp (_setCurrentRSConfig_inlock fromTerm genOID ts now newConfig i)
    (λ _, now_current s newConfig i) s.
Proof.
  intros [HC Hrc Hok Ecfg Eself Hpv] Hrole. unfold _setCurrentRSConfig_inlock, _setConfigState_inlock.
  wp_simpl. eapply owp_mono; [|by apply my_applied_total]. intros myOptime _. wp_simpl.
  eapply wp_mono; [|apply wp_wlp; [apply (wp_updateConfig (co_topo s)); [done..|by apply acceptable_args]|
    apply updateConfig_installed]].
  intros _ t' [HC' Hti]. wp_simpl.
  set (s1 := _ <| co_coord := _ |>). change s1 with (reconfigured s t').
  apply (wp_mono _ (λ _ s2, s2 = reconfigured s t')).
  2: { destruct (Z.leb_spec 0 i); wp_simpl; [|done]. apply owp_vat; [|done].
       change (0 ≤ i < vsize (_members newConfig)). pose proof (acceptable_args t' _ _ Hac) as H'. rewrite (ti_read _ _ _ _ Hti) in H'.
       destruct (H' Hrc) as (_ & ? & _). lia. }
  intros _ ? ->. wp_simpl. eapply wp_mono; [|by apply wp_member_state_follows].
  intros action s2 (Hplace & Hcore & Hout). wp_simpl. clear s1.
  change (config _) with (config s).
  pose proof Hplace as [Ht Hcs Hst Hsh Hv Hf Hc Hs Hinfo _ _].
  eapply wp_mono; [|apply (rebuilt_table (config s) (selfIndex s)); [done|apply Hok| |done..]].
  2: { rewrite Hinfo. apply Hok. }
  intros _ c3 (Hok3 & (Ec3 & Es3 & _) & Hn3). wp_simpl. cbn [co_coord].
  eapply wp_mono; [|by apply wp_recommit_ok]. intros _ c4 [Hok4 [(Ec4 & Es4 & _) Ei4]]. wp_simpl.
  eapply wp_mono; [|apply wp_same_protocol].
  2: { by rewrite (ac_protocol _ _ Hac). }
  intros _ ? ->. wp_simpl. eapply wp_mono; [|by apply wp_wake_ok].
  intros _ c5 [Hok5 [(Ec5 & Es5 & _) Ei5]]. wp_simpl.
  assert (rc_config c5 = newConfig) as Ec.
  { etrans; [exact Ec5|]. etrans; [exact Ec4|]. etrans; [exact Ec3|exact Hc]. }
  assert (rc_selfIndex c5 = i) as Es.
  { etrans; [exact Es5|]. etrans; [exact Es4|]. etrans; [exact Es3|exact Hs]. }
  destruct Hti as [Etc Ets Etr _].
  split; try done.
  2: { intros Hn. simpl. rewrite Ei5. simpl. rewrite Ei4. apply Hn3. by rewrite Hinfo. }
  split; unfold config, selfIndex; simpl; rewrite ?Ht; simpl; try done.
  - by rewrite Etr.
  - by rewrite Ec.
  - by rewrite Es.
  - intros _. rewrite Ec. apply (ac_protocol _ _ Hac).
Qed.
End install.
End invariant.
End InstallInv.
