(* ===== verification/ConfigChange.v ===== *)
(** * Changing the configuration: start-up, reconfig, initiate and heartbeats

    The start of the coordinator with the configuration on disk, the commands replSetReconfig
    and replSetInitiate, and the adoption of a configuration that a heartbeat brings
    (replication_coordinator_impl.cpp and
    replication_coordinator_impl_heartbeat.cpp).  Each gives its locks up several times: it is
    cut there, a [Flight] is what goes on later, and the parts interleave with each other and
    with everything else the node does.  The state [_rsConfigState] keeps the changes apart. *)
From S2P Require Import Prelude ReplTime ParseNumber HostAndPort ReplTag ReplConfig ConfigChecks Heartbeat Topology TopologyElection TopologySync TopologyHeartbeat TopologyInv Election QuorumCheck Voting Commit ConfigInstall.

(** What is left to do of a change in progress. *)
Inductive Flight :=
| LoadConfig (localConfig : ReplSetConfig) (lastOpTime : StatusWith OpTime) (lastVote : option LastVote)
| ReconfigCheck (oldConfig : ReplSetConfig) (force : bool)
| ReconfigFinish (newConfig : ReplSetConfig) (myIndex : Z)
| InitiateCheck
| InitiateStored (newConfig : ReplSetConfig) (myIndex : Z)
| InitiateDurable (newConfig : ReplSetConfig) (myIndex : Z) (opTime : OpTime)
| InitiateFinish (newConfig : ReplSetConfig) (myIndex : Z)
| HBElection (newConfig : ReplSetConfig)
| HBStore (newConfig : ReplSetConfig)
| HBFinish (newConfig : ReplSetConfig) (myIndex : StatusWith Z).

(** How a part ends: the change is over, it goes on later, or a configuration was installed and
    the member state action follows ([evh]: only after the vote on disk has been reset). *)
Inductive Next :=
| Done (status : Status)
| Continue (f : Flight)
| Installed (action : PostMemberStateUpdateAction) (evh : bool).

(** What the rest of the world delivers to one part: the parsed document, the answers to the
    quorum check, the status of storing the document, of [makeEvent] and of scheduling the
    next part, whether the callback was canceled, whether it runs with an operation context
    (and so with the global lock), the clock, a fresh election id and timestamp, and whether a
    failed initiation had already committed its document. *)
Record World := mkWorld {
  w_parsed : StatusWith ReplSetConfig;
  w_quorumEvent : Status; w_quorumSchedule : nat → Status;
  w_arrivals : list (nat * ResponseStatus HeartbeatReply);
  w_store : Status; w_event : Status; w_schedule : Status;
  w_canceled : bool; w_txn : bool; w_now : Z; w_genOID : Z; w_timestamp : Timestamp;
  w_committed : bool }.

Module Change.
Import Topo TopoElect TopoHB Commit Install.
Implicit Types s : Coordinator.

Definition abort {A} (line : Z) : RM A := λ _, Abort line.

Section change.
Context (p : ServerParams) (isSelf : HostAndPort → bool) (ourSetName : chars) (fromTerm : Z → Z).
Implicit Types w : World.

(** [configStateGuard]: the state goes back unless the change goes on. *)
Definition guarded (back : ConfigState) (m : RM Next) : RM Next :=
  r ← m;
  match r with
  | Done _ => _setConfigState_inlock back ;; mret r
  | _ => mret r
  end.
(** The next part, if the executor takes it; its refusal is not looked at. *)
Definition schedule w (f : Flight) : Next :=
  match w_schedule w with OK _ => Continue f | Err e => Done (Err e) end.
Definition storeLocalConfigDocument w (newConfig : ReplSetConfig) : RM Status :=
  match w_store w with
  | OK _ => modify (λ s, s <| co_stored := Some newConfig |>) ;; mret (OK tt)
  | Err e => mret (Err e)
  end.
(** The document may have been committed although a later write failed; the oplog that is
    created along with it is not represented. *)
Definition initializeReplSetStorage w (newConfig : ReplSetConfig) : RM Status :=
  (if sw_isOK (w_store w) || w_committed w
   then modify (λ s, s <| co_stored := Some newConfig |>) else mret tt) ;;
  mret (w_store w).

(** A running election is canceled, and the part starts over when it has ended. *)
Definition cancel_election (vote fresh : Z) w (f : Flight) : RM Next :=
  v1 ← gets isV1ElectionProtocol;
  (if (v1 : bool) then invariant vote co_voteRequester else invariant fresh co_freshnessChecker) ;;
  mret (schedule w f).
Definition _resetElectionInfoOnProtocolVersionUpgrade w (oldConfig newConfig : ReplSetConfig)
    : outcome bool :=
  if negb (_isInitialized oldConfig) ||
     (_protocolVersion newConfig <=? _protocolVersion oldConfig)
  then Ret false
  else
    check 3691 (_protocolVersion newConfig =? 1) ;;
    match w_event w, w_schedule w with
    | Err ShutdownInProgress, _ => Ret false
    | Err _, _ => Abort 3698
    | OK _, Err ShutdownInProgress => Ret false
    | OK _, Err _ => Abort 3715
    | OK _, OK _ => Ret true
    end.
Definition install w (newConfig : ReplSetConfig) (myIndex : Z) : RM PostMemberStateUpdateAction :=
  _setCurrentRSConfig_inlock fromTerm (w_genOID w) (w_timestamp w) (w_now w) newConfig myIndex.

(** ** Start-up of a node of a replica set *)

(** The coordinator as constructed, with [stored] in local.system.replset. *)
Definition initial_node (options : Options) (snapshotsEnabled : bool)
    (stored : option ReplSetConfig) : Coordinator :=
  mkCoordinator kConfigPreStart (initial options)
    (mkCoord RSC.default (-1) RS_STARTUP false [new_slave_info <| si_self := true |>]
       OT.null OT.null snapshotsEnabled [] None [] [] [])
    false false ApplierRunning false 0 OT.kUninitializedTerm false false false stored.

(** [None]: there is no configuration to load. *)
Definition _startLoadLocalConfig w (lastVote : option LastVote) (lastOpTime : StatusWith OpTime)
    : RM (option Next) :=
  match lastVote with
  | Some v => on_topo (loadLastVote v)
  | None => mret tt
  end ;;
  stored ← gets co_stored;
  mret match stored with
       | None => None
       | Some localConfig => Some (schedule w (LoadConfig localConfig lastOpTime lastVote))
       end.
Definition startup w (replEnabled readCommitted : bool) (lastVote : option LastVote)
    (lastOpTime : StatusWith OpTime) : RM Next :=
  if negb replEnabled then
    _setConfigState_inlock kConfigReplicationDisabled ;; mret (Done (OK tt))
  else
    invariant 705 (λ s, negb (co_inShutdown s)) ;;
    _setConfigState_inlock kConfigStartingUp ;;
    reads (λ s, my_info (co_coord s)) ;;
    on_topo (setStorageEngineSupportsReadCommitted readCommitted) ;;
    r ← _startLoadLocalConfig w lastVote lastOpTime;
    match r with
    | Some next => mret next
    | None =>
        invariant 728 (λ s, negb (_isInitialized (config s))) ;;
        _setConfigState_inlock kConfigUninitialized ;;
        mret (Done (OK tt))
    end.

Definition set_my_optimes w (lastOpTime : OpTime) : RM () :=
  if OT.isNull lastOpTime then mret tt
  else
    on_coord (_setMyLastAppliedOpTime_inlock (w_now w) lastOpTime false) ;;
    on_coord (_setMyLastDurableOpTime_inlock (w_now w) lastOpTime false).
Definition _updateTerm_incallback w (term : Z) : RM () :=
  on_topo (Voting._updateTerm_incallback term (w_now w)) ;;
  modify (λ s, if isV1ElectionProtocol s then s <| co_cachedTerm := _term (co_topo s) |> else s).
Definition _finishLoadLocalConfig w (localConfig : ReplSetConfig) (lastOpTimeStatus : StatusWith OpTime)
    (lastVote : option LastVote) : RM Next :=
  if w_canceled w then mret (Done (OK tt))
  else
    result ← reads (λ s, ConfigChecks.validateConfigForStartUp p isSelf (config s) localConfig);
    myIndex ← match result with
              | OK i => mret i
              | Err NodeNotFound | Err DuplicateKey => mret (-1)
              | Err _ => abort 516
              end;
    let myIndex := if bool_decide (_replSetName localConfig = ourSetName) then myIndex else -1 in
    isArbiter ← (if myIndex =? -1 then mret false
                 else me ← reads (λ _, RSC.getMemberAt localConfig myIndex); mret (MC.isArbiter me));
    let lastOpTime := match lastOpTimeStatus with
                      | OK o => if (isArbiter : bool) then OT.null else o
                      | Err _ => OT.null
                      end in
    invariant 554 (λ s, bool_decide (co_configState s = kConfigStartingUp)) ;;
    action ← install w localConfig myIndex;
    set_my_optimes w lastOpTime ;;
    _updateTerm_incallback w (Voting.restored_term localConfig lastOpTime lastVote) ;;
    (if isArbiter then mret tt else invariant 573 (λ _, w_txn w)) ;;
    mret (Installed action false).

(** ** replSetReconfig *)

(** The wait for the end of the start-up is over. *)
Definition processReplSetReconfig (force : bool) : RM Next :=
  state ← gets co_configState;
  match state with
  | kConfigSteady =>
      invariant 2375 (λ s, _isInitialized (config s)) ;;
      primary ← gets (λ s, is_primary (co_coord s));
      if negb force && negb primary then mret (Done (Err NotMaster))
      else
        _setConfigState_inlock kConfigReconfiguring ;;
        oldConfig ← gets config;
        mret (Continue (ReconfigCheck oldConfig force))
  | kConfigUninitialized => mret (Done (Err NotYetInitialized))
  | kConfigReplicationDisabled => abort 2362
  | kConfigInitiating | kConfigReconfiguring | kConfigHBReconfiguring =>
      mret (Done (Err ConfigurationInProgress))
  | _ => abort 2372
  end.

(** From the quorum on; [None] while the answers are awaited. *)
Definition store_reconfig w (newConfig : ReplSetConfig) (myIndex : Z) : RM Next :=
  status ← storeLocalConfigDocument w newConfig;
  match status with
  | Err e => mret (Done (Err e))
  | OK _ =>
      match w_event w with
      | Err e => mret (Done (Err e))
      | OK _ =>
          match w_schedule w with
          | Err ShutdownInProgress => mret (Done (Err ShutdownInProgress))
          | Err _ => abort 2462
          | OK _ => mret (Continue (ReconfigFinish newConfig myIndex))
          end
      end
  end.
Definition check_reconfig w (oldConfig : ReplSetConfig) (force : bool) : RM Next :=
  guarded kConfigSteady
    match w_parsed w with
    | Err _ => mret (Done (Err InvalidReplicaSetConfig))
    | OK newConfig =>
        if negb (bool_decide (_replSetName newConfig = ourSetName))
        then mret (Done (Err InvalidReplicaSetConfig))
        else
          result ← reads (λ _,
            ConfigChecks.validateConfigForReconfig p isSelf oldConfig newConfig force);
          match result with
          | Err _ => mret (Done (Err NewReplicaSetConfigurationIncompatible))
          | OK myIndex =>
              if force then store_reconfig w newConfig myIndex
              else
                status ← reads (λ _, QuorumCheck.checkQuorumForReconfig (w_quorumEvent w)
                                       (w_quorumSchedule w) (w_arrivals w) newConfig myIndex);
                match status with
                | None => mret (Continue (ReconfigCheck oldConfig force))
                | Some (Err e) => mret (Done (Err e))
                | Some (OK _) => store_reconfig w newConfig myIndex
                end
          end
    end.

Definition _finishReplSetReconfig w (newConfig : ReplSetConfig) (myIndex : Z) : RM Next :=
  invariant 2477 (λ s, bool_decide (co_configState s = kConfigReconfiguring)) ;;
  invariant 2478 (λ s, _isInitialized (config s)) ;;
  role ← gets (λ s, _role (co_topo s));
  if role_eqb role candidate
  then cancel_election 2483 2486 w (ReconfigFinish newConfig myIndex)
  else
    oldConfig ← gets config;
    action ← install w newConfig myIndex;
    on_coord _dropAllSnapshots_inlock ;;
    evh ← reads (λ _, _resetElectionInfoOnProtocolVersionUpgrade w oldConfig newConfig);
    mret (Installed action evh).

(** ** replSetInitiate *)
Definition processReplSetInitiate (replEnabled : bool) : RM Next :=
  if negb replEnabled then mret (Done (Err NoReplicationEnabled))
  else
    state ← gets co_configState;
    if negb (bool_decide (state = kConfigUninitialized))
    then mret (Done (Err AlreadyInitialized))
    else
      invariant 2543 (λ s, negb (_isInitialized (config s))) ;;
      _setConfigState_inlock kConfigInitiating ;;
      mret (Continue InitiateCheck).

Definition check_initiate w : RM Next :=
  guarded kConfigUninitialized
    match w_parsed w with
    | Err _ => mret (Done (Err InvalidReplicaSetConfig))
    | OK newConfig =>
        if negb (bool_decide (_replSetName newConfig = ourSetName))
        then mret (Done (Err InvalidReplicaSetConfig))
        else
          result ← reads (λ _, ConfigChecks.validateConfigForInitiate p isSelf newConfig);
          match result with
          | Err _ => mret (Done (Err InvalidReplicaSetConfig))
          | OK myIndex =>
              status ← reads (λ _, QuorumCheck.checkQuorumForInitiate (w_quorumEvent w)
                                     (w_quorumSchedule w) (w_arrivals w) newConfig myIndex);
              match status with
              | None => mret (Continue InitiateCheck)
              | Some (Err e) => mret (Done (Err e))
              | Some (OK _) =>
                  status ← initializeReplSetStorage w newConfig;
                  mret match status with
                       | Err e => Done (Err e)
                       | OK _ => Continue (InitiateStored newConfig myIndex)
                       end
              end
          end
    end.

Definition _finishReplSetInitiate w (newConfig : ReplSetConfig) (myIndex : Z)
    : RM PostMemberStateUpdateAction :=
  invariant 2614 (λ s, bool_decide (co_configState s = kConfigInitiating)) ;;
  invariant 2615 (λ s, negb (_isInitialized (config s))) ;;
  install w newConfig myIndex.
Definition finish_initiate w (newConfig : ReplSetConfig) (myIndex : Z) : RM Next :=
  action ← _finishReplSetInitiate w newConfig myIndex;
  me ← reads (λ _, RSC.getMemberAt newConfig myIndex);
  invariant 2603 (λ _, negb (MC.isArbiter me)) ;;
  mret (Installed action false).

(** ** A configuration from a heartbeat *)
Definition newer_than_current (newConfig : ReplSetConfig) s : bool :=
  negb (_isInitialized (config s)) || (_version (config s) <? _version newConfig).
Definition _scheduleHeartbeatReconfig w (newConfig : ReplSetConfig) : RM Next :=
  s ← gets id;
  if co_inShutdown s then mret (Done (OK tt))
  else
    match co_configState s with
    | kConfigUninitialized | kConfigSteady =>
        _setConfigState_inlock kConfigHBReconfiguring ;;
        invariant 434 (newer_than_current newConfig) ;;
        mret (schedule w (if co_freshnessChecker s then HBElection newConfig else HBStore newConfig))
    | kConfigInitiating | kConfigReconfiguring | kConfigHBReconfiguring => mret (Done (OK tt))
    | _ => abort 431
    end.
(** The action that asks for a new configuration; the others are no change of it. *)
Definition _handleHeartbeatResponseAction w (action : HeartbeatResponseAction)
    (responseStatus : StatusWith ReplSetHeartbeatResponse) : RM Next :=
  match _action action with
  | Reconfig =>
      match responseStatus with
      | Err _ => abort 279
      | OK response =>
          match hr_config response with
          | None => abort 372
          | Some newConfig => _scheduleHeartbeatReconfig w newConfig
          end
      end
  | _ => mret (Done (OK tt))
  end.
(** The response to a heartbeat, as far as the configuration goes. *)
Definition handle_heartbeat_config w (rtt : Z) (target : HostAndPort)
    (hbResponse : StatusWith ReplSetHeartbeatResponse) (reason : chars)
    : RM Next :=
  lastApplied ← reads (λ s, _getMyLastAppliedOpTime_inlock (co_coord s));
  action ← on_topo (processHeartbeatResponse (w_now w) rtt target hbResponse reason lastApplied);
  _handleHeartbeatResponseAction w action hbResponse.

Definition _heartbeatReconfigAfterElectionCanceled w (newConfig : ReplSetConfig) : RM Next :=
  if w_canceled w then mret (Done (OK tt))
  else
    s ← gets id;
    mret (if co_inShutdown s then Done (OK tt) else schedule w (HBStore newConfig)).

(** Back to where a heartbeat found the node. *)
Definition forget_heartbeat_config : RM () :=
  initialized ← gets (λ s, _isInitialized (config s));
  _setConfigState_inlock (if (initialized : bool) then kConfigSteady else kConfigUninitialized).
Definition node_not_found (r : StatusWith Z) : bool :=
  match r with Err NodeNotFound => true | _ => false end.
Definition _heartbeatReconfigStore w (newConfig : ReplSetConfig) : RM Next :=
  if w_canceled w then mret (Done (OK tt))
  else
    myIndex ← reads (λ _, ConfigChecks.validateConfigForHeartbeatReconfig p isSelf newConfig);
    initialized ← gets (λ s, _isInitialized (config s));
    if node_not_found myIndex && negb initialized then
      invariant 493 (λ s, bool_decide (co_configState s = kConfigHBReconfiguring)) ;;
      _setConfigState_inlock kConfigUninitialized ;;
      mret (Done (OK tt))
    else if negb (sw_isOK myIndex) && negb (node_not_found myIndex)
    then mret (schedule w (HBFinish newConfig myIndex))
    else
      status ← storeLocalConfigDocument w newConfig;
      match status with
      | Err e =>
          invariant 514 (λ s, bool_decide (co_configState s = kConfigHBReconfiguring)) ;;
          forget_heartbeat_config ;;
          mret (Done (Err e))
      | OK _ =>
          match myIndex with
          | OK i => if i =? -1 then mret tt
                    else reads (λ _, RSC.getMemberAt newConfig i) ;; mret tt
          | Err _ => mret tt
          end ;;
          mret (schedule w (HBFinish newConfig myIndex))
      end.

Definition _heartbeatReconfigFinish w (newConfig : ReplSetConfig) (myIndex : StatusWith Z)
    : RM Next :=
  if w_canceled w then mret (Done (OK tt))
  else
    invariant 565 (λ s, bool_decide (co_configState s = kConfigHBReconfiguring)) ;;
    invariant 566 (newer_than_current newConfig) ;;
    s ← gets id;
    if is_primary (co_coord s) && negb (w_txn w)
    then mret (schedule w (HBFinish newConfig myIndex))
    else if role_eqb (_role (co_topo s)) candidate
    then cancel_election 587 590 w (HBFinish newConfig myIndex)
    else
      let oldConfig := config s in
      action ← install w newConfig (match myIndex with OK i => i | Err _ => -1 end);
      evh ← reads (λ _, _resetElectionInfoOnProtocolVersionUpgrade w oldConfig newConfig);
      mret (Installed action evh).

(** ** The parts together *)
Definition resume w (f : Flight) : RM Next :=
  match f with
  | LoadConfig localConfig lastOpTime lastVote => _finishLoadLocalConfig w localConfig lastOpTime lastVote
  | ReconfigCheck oldConfig force => check_reconfig w oldConfig force
  | ReconfigFinish newConfig i => _finishReplSetReconfig w newConfig i
  | InitiateCheck => check_initiate w
  | InitiateStored newConfig i =>
      opTime ← reads (λ s, _getMyLastAppliedOpTime_inlock (co_coord s));
      mret (Continue (InitiateDurable newConfig i opTime))
  | InitiateDurable newConfig i opTime =>
      on_coord (_setMyLastDurableOpTime_inlock (w_now w) opTime false) ;;
      mret (Continue (InitiateFinish newConfig i))
  | InitiateFinish newConfig i => finish_initiate w newConfig i
  | HBElection newConfig => _heartbeatReconfigAfterElectionCanceled w newConfig
  | HBStore newConfig => _heartbeatReconfigStore w newConfig
  | HBFinish newConfig myIndex => _heartbeatReconfigFinish w newConfig myIndex
  end.
End change.
End Change.
