(* ===== verification/ConfigChangeInv.v ===== *)
(** * Changes of configuration cannot disturb each other

    The parts of ConfigChange.v as one system: any number of commands and heartbeats, cut where
    they give up their locks and interleaved with everything else the node does.  The invariant
    says which part may be outstanding in which [_rsConfigState]; from it follow that no
    assertion of a change is ever tripped, that at most one change is under way, and that the
    configuration only moves forward. *)
From S2P Require Import Prelude ReplTime ParseNumber HostAndPort ReplTag ReplConfig ConfigChecks Heartbeat Topology TopologyElection TopologySync TopologyHeartbeat TopologyInv Election QuorumCheck Voting Commit ConfigInstall ConfigInstallInv ConfigChange.

(** [sy_post]: the member state action of a configuration just installed is still to be
    performed, under the [_topoMutex] that the installation took. *)
Record ChangeSys := mkChangeSys { sy_node : Coordinator; sy_flights : list Flight; sy_post : bool }.
#[export] Instance ChangeSys_eta : Eta ChangeSys := λ y,
  mkChangeSys (sy_node y) (sy_flights y) (sy_post y).

Module ChangeInv.
Import Topo TopoElect TopoSync TopoHB TopoInv Commit Install InstallInv Change.
Implicit Types s : Coordinator.

(** ** Heartbeats and the topology coordinator

    In protocol version 1 a response asks for a new configuration only if it brings a newer one,
    and changes neither the role nor the configuration. *)
Record hb_frame t t' : Prop := mkHbFrame {
  hf_config : _rsConfig t' = _rsConfig t; hf_self : _selfIndex t' = _selfIndex t;
  hf_role : _role t' = _role t;
  hf_read : _storageEngineSupportsReadCommitted t' = _storageEngineSupportsReadCommitted t }.
#[local] Instance hb_frame_refl : Reflexive hb_frame.
Proof. by split. Qed.
Lemma hb_frame_trans t t' t'' : hb_frame t t' → hb_frame t' t'' → hb_frame t t''.
Proof. intros [] []. split; congruence. Qed.
Lemma record_ping_frame rtt target r t : wlp (record_ping rtt target r) (λ _, hb_frame t) t.
Proof.
  unfold record_ping, touch_ping. apply wlp_bind, wlp_bind, wlp_modify, wlp_gets.
  apply wlp_bind, wlp_invariant. intros _. apply wlp_bind, wlp_modify, wlp_ret.
  by destruct (_pings t !! HP.key target); split.
Qed.
Lemma update_primary_frame i now o t :
  wlp (_updatePrimaryFromHBDataV1 i now o) (λ a t', hb_frame t t' ∧ _action a ≠ Reconfig) t.
Proof.
  unfold _updatePrimaryFromHBDataV1, setMyHeartbeatMessage.
  apply wlp_bind, wlp_invariant. intros _. apply wlp_bind, wlp_gets.
  destruct (_ =? -1); [by apply wlp_ret|]. destruct (_ =? _); [by apply wlp_ret|].
  apply wlp_bind, wlp_reads. intros pi _. apply wlp_bind, wlp_modify.
  destruct (pi =? -1); [by apply wlp_ret|]. apply wlp_bind, wlp_modify.
  apply wlp_bind, wlp_reads. intros [] _; apply wlp_ret; by repeat case_match.
Qed.
Lemma heartbeat_response_frame now rtt target r reason o t :
  (_isInitialized (_rsConfig t) = true → _protocolVersion (_rsConfig t) = 1) →
  wlp (processHeartbeatResponse now rtt target r reason o)
    (λ a t', hb_frame t t' ∧ (_action a = Reconfig → offers_newer_config t r = true)) t.
Proof.
  intros Hpv. unfold processHeartbeatResponse. apply wlp_bind, wlp_reads. intros st _.
  apply wlp_bind. eapply wlp_mono; [|apply record_ping_frame]. intros ping t1 Hf.
  apply wlp_bind, wlp_reads. intros iv _. apply wlp_bind, wlp_gets. unfold id.
  assert (offers_newer_config t1 r = offers_newer_config t r) as ->.
  { unfold offers_newer_config. by rewrite (hf_config _ _ Hf). }
  destruct (offers_newer_config t r) eqn:Hof; [by apply wlp_ret|].
  rewrite (hf_config _ _ Hf). destruct (_isInitialized _) eqn:Hi; simpl; [|by apply wlp_ret].
  destruct (_ =? -1); [by apply wlp_ret|]. apply wlp_bind, wlp_invariant. intros _.
  apply wlp_bind, wlp_reads. intros d _. apply wlp_bind, wlp_modify. rewrite (Hpv eq_refl). simpl.
  apply wlp_bind. eapply wlp_mono; [|apply update_primary_frame]. intros a t2 [Hf2 Ha].
  apply wlp_ret. split; [|done]. eapply hb_frame_trans; [exact Hf|]. by eapply hb_frame_trans; [|exact Hf2].
Qed.

Section system.
Context (p : ServerParams) (isSelf : HostAndPort → bool) (ourSetName : chars) (fromTerm : Z → Z).
Hypothesis isSelf_ext : ∀ a b, HP.key a = HP.key b → isSelf a = isSelf b.
Abbreviation node_ok := (node_ok isSelf).
Abbreviation acceptable := (acceptable isSelf).

(** ** Events *)
Inductive event :=
| EReconfig (force : bool)
| EInitiate (replEnabled : bool)
| EHeartbeat (w : World) (rtt : Z) (target : HostAndPort)
    (hbResponse : StatusWith ReplSetHeartbeatResponse) (reason : chars)
| EResume (k : nat) (w : World).

Definition handler y e : RM Next :=
  match e with
  | EReconfig force => processReplSetReconfig force
  | EInitiate replEnabled => processReplSetInitiate replEnabled
  | EHeartbeat w rtt target hbResponse reason =>
      handle_heartbeat_config w rtt target hbResponse reason
  | EResume k w =>
      match sy_flights y !! k with
      | Some f => resume p isSelf ourSetName fromTerm w f
      | None => mret (Done (OK tt))
      end
  end.
Definition after y e (r : Next) s : ChangeSys :=
  let rest := match e with EResume k _ => delete k (sy_flights y) | _ => sy_flights y end in
  match r with
  | Done _ => mkChangeSys s rest (sy_post y)
  | Continue f => mkChangeSys s (f :: rest) (sy_post y)
  | Installed _ _ => mkChangeSys s rest true
  end.
Definition run_event y e : outcome ChangeSys :=
  r ← handler y e (sy_node y);
  Ret (after y e r.1 r.2).

(** ** What the rest of the server owes the changes *)

(** A document that parses, of protocol version 1. *)
Definition parsed_ok (c : ReplSetConfig) : Prop :=
  _isInitialized c = true ∧ RSC.majorities_set c ∧
  Forall (λ m, Dbl.is_nan (mc_priority m) = false) (_members c) ∧ _protocolVersion c = 1.
(** The executor refuses and cancels work only in shutdown; the quorum check hears from every
    member, or of its failure. *)
Record world_ok s w : Prop := mkWorldOk {
  wo_schedule : w_schedule w = OK tt ∨ w_schedule w = Err ShutdownInProgress ∧ co_inShutdown s = true;
  wo_canceled : w_canceled w = true → co_inShutdown s = true;
  wo_parsed : ∀ c, w_parsed w = OK c → parsed_ok c;
  wo_quorum : w_quorumEvent w = OK tt ∧ w_quorumSchedule w = λ _, OK tt;
  wo_answers : ∀ c i, w_parsed w = OK c → ConfigChecks.only_me isSelf c i →
    QuorumProps.all_answered c i (w_arrivals w) }.
(** A heartbeat offers configurations of protocol version 1 whose members make sense each by itself;
    whether they are valid as a whole is left to the receiver. *)
Definition offers_ok (r : StatusWith ReplSetHeartbeatResponse) : Prop :=
  ∀ resp c, r = OK resp → hr_config resp = Some c → parsed_ok c ∧ basics c.

Definition takes_topo_mutex (f : Flight) : bool :=
  match f with
  | LoadConfig _ _ _ | ReconfigFinish _ _ | InitiateFinish _ _ | HBElection _ | HBFinish _ _ => true
  | _ => false
  end.
(** Work on the database comes with an operation context. *)
Definition runs_with_txn (f : Flight) : bool :=
  match f with LoadConfig _ _ _ => true | _ => false end.
(** Commands wait for the end of the start-up, and no heartbeat is sent before it. *)
Definition contract y e : Prop :=
  match e with
  | EReconfig _ | EInitiate _ => co_configState (sy_node y) ≠ kConfigStartingUp
  | EHeartbeat w _ target r _ =>
      co_configState (sy_node y) ≠ kConfigStartingUp ∧ sy_post y = false ∧ response_ok (co_topo (sy_node y)) target ∧ world_ok (sy_node y) w ∧
      offers_ok r
  | EResume k w =>
      world_ok (sy_node y) w ∧
      ∃ f, sy_flights y !! k = Some f ∧ (takes_topo_mutex f = true → sy_post y = false) ∧
           (runs_with_txn f = true → w_txn w = true)
  end.

Definition undurable s : Prop := not_durable (rc_slaveInfo (co_coord s)).
(** A step of another thread: it keeps the node consistent, leaves the configuration to the
    changes, and does not report durable progress before there is a configuration, nor any
    progress before the start-up is over. *)
Record other_step s s' : Prop := mkOtherStep {
  os_ok : node_ok s'; os_config : config s' = config s; os_self : selfIndex s' = selfIndex s;
  os_state : co_configState s' = co_configState s; os_stored : co_stored s' = co_stored s;
  os_shutdown : co_inShutdown s = true → co_inShutdown s' = true;
  os_durable : _isInitialized (config s) = false → undurable s → undurable s';
  os_starting : co_configState s = kConfigStartingUp →
    nothing_known (rc_slaveInfo (co_coord s)) → nothing_known (rc_slaveInfo (co_coord s')) }.
(** A candidate has a vote requester, once the member state action has been performed. *)
Definition candidacy s : Prop := _role (co_topo s) = candidate → co_voteRequester s = true.

Inductive step y : ChangeSys → Prop :=
| step_event e y' : contract y e → run_event y e = Ret y' → step y y'
| step_other s' post : other_step (sy_node y) s' → (post = true → sy_post y = true) →
    (post = false → candidacy s') → step y (mkChangeSys s' (sy_flights y) post).

(** What is on disk was written by an earlier run. *)
Definition disk_ok (stored : option ReplSetConfig) (lastOpTime : StatusWith OpTime) : Prop :=
  (∀ c, stored = Some c → parsed_ok c ∧ RSC.valid_config p c) ∧
  (∀ o, lastOpTime = OK o → in_protocol PV1 o).
(** The coordinator is constructed and started. *)
Definition boot (options : Options) (snapshotsEnabled : bool) (stored : option ReplSetConfig) w
    (readCommitted : bool) (lastVote : option LastVote) (lastOpTime : StatusWith OpTime)
    : outcome ChangeSys :=
  let s := initial_node options snapshotsEnabled stored in
  r ← startup w true readCommitted lastVote lastOpTime s;
  Ret (mkChangeSys r.2 (match r.1 with Continue f => [f] | _ => [] end) false).
Inductive reachable : ChangeSys → Prop :=
| reach_boot options snapshots stored w readCommitted lastVote lastOpTime y :
    disk_ok stored lastOpTime → w_schedule w = OK tt →
    boot options snapshots stored w readCommitted lastVote lastOpTime = Ret y → reachable y
| reach_step y y' : reachable y → step y y' → reachable y'.

(** ** The invariant *)
Definition newer s (c : ReplSetConfig) : Prop :=
  _isInitialized (config s) = true → _version (config s) < _version c.
Definition offered s (c : ReplSetConfig) : Prop :=
  parsed_ok c ∧ basics c ∧ newer s c.
Definition initiating s (c : ReplSetConfig) (i : Z) : Prop :=
  co_configState s = kConfigInitiating ∧ _isInitialized (config s) = false ∧ acceptable c i ∧
  RSC.valid_config p c ∧ ConfigChecks.electable_at c i ∧ co_stored s = Some c.
(** What is known while a part is outstanding. *)
Definition pending_ok s (f : Flight) : Prop :=
  match f with
  | LoadConfig c lastOpTime _ =>
      co_configState s = kConfigStartingUp ∧ _isInitialized (config s) = false ∧
      parsed_ok c ∧ RSC.valid_config p c ∧ (∀ o, lastOpTime = OK o → in_protocol PV1 o) ∧
      nothing_known (rc_slaveInfo (co_coord s)) ∧ co_stored s = Some c
  | ReconfigCheck oldConfig _ =>
      co_configState s = kConfigReconfiguring ∧ _isInitialized (config s) = true ∧
      oldConfig = config s
  | ReconfigFinish c i =>
      co_configState s = kConfigReconfiguring ∧ _isInitialized (config s) = true ∧
      acceptable c i ∧ RSC.valid_config p c ∧ newer s c ∧ co_stored s = Some c
  | InitiateCheck => co_configState s = kConfigInitiating ∧ _isInitialized (config s) = false
  | InitiateStored c i | InitiateFinish c i => initiating s c i
  | InitiateDurable c i o => initiating s c i ∧ in_protocol PV1 o
  | HBElection c | HBStore c => co_configState s = kConfigHBReconfiguring ∧ offered s c
  | HBFinish c r =>
      co_configState s = kConfigHBReconfiguring ∧ offered s c ∧
      ∀ i, r = OK i → RSC.valid_config p c ∧ ConfigChecks.only_me isSelf c i ∧ co_stored s = Some c
  end.
(** Nothing outstanding: no change is under way, unless a shutdown has cut it off. *)
Definition settled s : Prop :=
  match co_configState s with
  | kConfigSteady => _isInitialized (config s) = true
  | kConfigUninitialized => _isInitialized (config s) = false
  | kConfigStartingUp => _isInitialized (config s) = false ∧ co_inShutdown s = true
  | kConfigReconfiguring => _isInitialized (config s) = true ∧ co_inShutdown s = true
  | kConfigHBReconfiguring => co_inShutdown s = true
  | _ => False
  end.
Definition started s : Prop :=
  match co_configState s with
  | kConfigSteady => _isInitialized (config s) = true
  | kConfigUninitialized => _isInitialized (config s) = false
  | kConfigInitiating | kConfigReconfiguring | kConfigHBReconfiguring => True
  | _ => False
  end.
Definition flights_ok s (l : list Flight) : Prop :=
  match l with [] => settled s | [f] => pending_ok s f | _ => False end.
Definition durable_done (l : list Flight) : bool :=
  match l with [InitiateFinish _ _] => true | _ => false end.

Record SysInv y : Prop := mkSysInv {
  si_node : node_ok (sy_node y);
  si_valid : _isInitialized (config (sy_node y)) = true → basics (config (sy_node y));
  si_outside : _isInitialized (config (sy_node y)) = false → selfIndex (sy_node y) = -1;
  si_durable : _isInitialized (config (sy_node y)) = false → durable_done (sy_flights y) = false →
    undurable (sy_node y);
  si_flights : flights_ok (sy_node y) (sy_flights y);
  si_candidacy : sy_post y = false → candidacy (sy_node y) }.

(** What a part that installs nothing leaves as it was. *)
Record kept s s' : Prop := mkKept {
  kp_ok : node_ok s'; kp_config : config s' = config s; kp_self : selfIndex s' = selfIndex s;
  kp_shutdown : co_inShutdown s' = co_inShutdown s;
  kp_role : _role (co_topo s') = _role (co_topo s);
  kp_vote : co_voteRequester s' = co_voteRequester s }.
Definition became_current s s' : Prop :=
  node_ok s' ∧ co_configState s' = kConfigSteady ∧ _isInitialized (config s') = true ∧
  basics (config s') ∧ newer s (config s') ∧
  (co_configState s = kConfigHBReconfiguring → selfIndex s' ≠ -1 → RSC.valid_config p (config s')) ∧
  (co_configState s ≠ kConfigHBReconfiguring → RSC.valid_config p (config s')) ∧
  (selfIndex s' ≠ -1 → co_stored s' = Some (config s')).
Definition resumed s (r : Next) s' : Prop :=
  match r with
  | Done _ => kept s s' ∧ settled s' ∧ (undurable s → undurable s')
  | Continue f =>
      kept s s' ∧ pending_ok s' f ∧ (durable_done [f] = false → undurable s → undurable s')
  | Installed _ _ => became_current s s'
  end.
Definition begun s (r : Next) s' : Prop :=
  match r with
  | Done _ => kept s s' ∧ co_configState s' = co_configState s ∧ co_stored s' = co_stored s ∧
              (undurable s → undurable s')
  | Continue f => kept s s' ∧
      (co_configState s = kConfigSteady ∨ co_configState s = kConfigUninitialized) ∧
      pending_ok s' f ∧ durable_done [f] = false ∧ (undurable s → undurable s')
  | Installed _ _ => False
  end.

(** ** Parts that leave the topology and the progress alone *)
Record plain s s' : Prop := mkPlain {
  pl_topo : co_topo s' = co_topo s; pl_coord : co_coord s' = co_coord s;
  pl_shutdown : co_inShutdown s' = co_inShutdown s;
  pl_vote : co_voteRequester s' = co_voteRequester s }.
Lemma plain_kept s s' : node_ok s → plain s s' → kept s s' ∧ (undurable s → undurable s').
Proof.
  intros [] [Et Ec Es Ev]. unfold undurable. rewrite Ec. split; [|done].
  split; unfold config, selfIndex in *; rewrite ?Et, ?Ec; try done.
  split; unfold config, selfIndex; rewrite ?Et, ?Ec; done.
Qed.
#[local] Instance plain_refl : Reflexive plain.
Proof. by split. Qed.
Lemma plain_state s st : plain s (s <| co_configState := st |>).
Proof. by split. Qed.

Lemma wp_guarded back (m : RM Next) (Q : Next → Coordinator → Prop) s :
  wp m (λ r s', match r with Done _ => Q r (s' <| co_configState := back |>) | _ => Q r s' end) s →
  wp (guarded back m) Q s.
Proof.
  intros H. unfold guarded, _setConfigState_inlock. apply wp_bind. eapply wp_mono; [|exact H].
  intros [] s' H'; wp_simpl; done.
Qed.
Lemma wp_store w c (Q : Status → Coordinator → Prop) s :
  (∀ e, Q (Err e) s) → Q (OK tt) (s <| co_stored := Some c |>) →
  wp (storeLocalConfigDocument w c) Q s.
Proof. intros He Ho. unfold storeLocalConfigDocument. destruct (w_store w); wp_simpl; auto. Qed.

Lemma acceptable_parsed c i :
  parsed_ok c → basics c → (i ≠ -1 → RSC.valid_config p c) → i = -1 ∨ ConfigChecks.only_me isSelf c i → acceptable c i.
Proof. intros (? & ? & ? & ?) ? Hv ?. split; try done. intros Hi. exists p. by apply Hv. Qed.
Lemma acceptable_valid c i :
  parsed_ok c → RSC.valid_config p c → i = -1 ∨ ConfigChecks.only_me isSelf c i → acceptable c i.
Proof. intros ? ? ?. apply acceptable_parsed; [done|by eapply valid_basics|done..]. Qed.
Lemma only_me_at c i : ConfigChecks.only_me isSelf c i → ∃ m, RSC.getMemberAt c i = Ret m.
Proof.
  intros [(m & Hm & _) _]. exists m. unfold RSC.getMemberAt. by apply vat_Ret, elem_of_indexed.
Qed.

Lemma reconfig_quorum s w c i :
  world_ok s w → w_parsed w = OK c → ConfigChecks.only_me isSelf c i → 1 < _version c →
  ∃ st, QuorumCheck.checkQuorumForReconfig (w_quorumEvent w) (w_quorumSchedule w) (w_arrivals w) c i
          = Ret (Some st).
Proof.
  intros [_ _ _ [-> ->] Hans] Hc Hme Hv. destruct (only_me_at c i Hme) as [m Hm].
  destruct (QuorumProps.checkQuorumGeneral_spec c i m Hm (w_arrivals w) (Hans c i Hc Hme)) as (st & Hst & _).
  exists st. unfold QuorumCheck.checkQuorumForReconfig. by rewrite (proj2 (Z.ltb_lt _ _) Hv).
Qed.
Lemma initiate_quorum s w c i :
  world_ok s w → w_parsed w = OK c → ConfigChecks.only_me isSelf c i → _version c = 1 →
  ∃ st, QuorumCheck.checkQuorumForInitiate (w_quorumEvent w) (w_quorumSchedule w) (w_arrivals w) c i
          = Ret (Some st).
Proof.
  intros [_ _ _ [-> ->] Hans] Hc Hme Hv. destruct (only_me_at c i Hme) as [m Hm].
  destruct (QuorumProps.checkQuorumGeneral_spec c i m Hm (w_arrivals w) (Hans c i Hc Hme)) as (st & Hst & _).
  exists st. unfold QuorumCheck.checkQuorumForInitiate. by rewrite Hv.
Qed.

Section parts.
Context s w (Hok : node_ok s) (Hw : world_ok s w).
Hypothesis Hvalid : _isInitialized (config s) = true → basics (config s).

Lemma resumed_done st s' : plain s s' → settled s' → resumed s (Done st) s'.
Proof. intros Hp Hs. destruct (plain_kept s s' Hok Hp). by split_and!. Qed.
Lemma resumed_continue f s' : plain s s' → pending_ok s' f → resumed s (Continue f) s'.
Proof. intros Hp Hs. destruct (plain_kept s s' Hok Hp). by split_and!. Qed.
Lemma begun_done st s' :
  plain s s' → co_configState s' = co_configState s → co_stored s' = co_stored s →
  begun s (Done st) s'.
Proof. intros Hp ? ?. destruct (plain_kept s s' Hok Hp). by split_and!. Qed.

Lemma wp_reconfig_begins force : started s → wp (processReplSetReconfig force) (begun s) s.
Proof.
  intros Hs. unfold processReplSetReconfig, _setConfigState_inlock. wp_simpl.
  unfold started in Hs. destruct (co_configState s) eqn:Est; try done; wp_simpl; try by apply begun_done.
  split; [done|]. destruct (_ && _); wp_simpl; [by apply begun_done|].
  destruct (plain_kept s _ Hok (plain_state s kConfigReconfiguring)) as [? ?].
  unfold begun, pending_ok. by split_and!; try left.
Qed.
Lemma wp_initiate_begins b : started s → wp (processReplSetInitiate b) (begun s) s.
Proof.
  intros Hs. unfold processReplSetInitiate, _setConfigState_inlock. wp_simpl.
  destruct b; cbn [negb]; wp_simpl; [|by apply begun_done].
  case_bool_decide as Est; cbn [negb]; wp_simpl; [|by apply begun_done].
  unfold started in Hs. rewrite Est in Hs. split; [by rewrite Hs|].
  destruct (plain_kept s _ Hok (plain_state s kConfigInitiating)) as [? ?].
  unfold begun, pending_ok. by split_and!; try right.
Qed.

Lemma wp_store_reconfig c i :
  pending_ok (s <| co_stored := Some c |>) (ReconfigFinish c i) →
  wp (store_reconfig w c i) (λ r s', match r with
    | Done _ => resumed s r (s' <| co_configState := kConfigSteady |>) | _ => resumed s r s' end) s.
Proof.
  intros Hp. assert (_isInitialized (config s) = true) as Hi by apply Hp.
  unfold store_reconfig. apply wp_bind, wp_store.
  - intros e. wp_simpl. apply resumed_done; [by split|done].
  - destruct (w_event w); wp_simpl; [|apply resumed_done; [by split|done]].
    destruct (wo_schedule _ _ Hw) as [->|[-> _]]; wp_simpl.
    + apply resumed_continue; [by split|done].
    + apply resumed_done; [by split|done].
Qed.
Lemma wp_reconfig_checks oldConfig force :
  pending_ok s (ReconfigCheck oldConfig force) →
  wp (check_reconfig p isSelf ourSetName w oldConfig force) (resumed s) s.
Proof.
  intros (Hst & Hi & ->). unfold check_reconfig. apply wp_guarded.
  assert (∀ e, resumed s (Done e) (s <| co_configState := kConfigSteady |>)) as Hfail.
  { intros e. apply resumed_done; [by split|done]. }
  destruct (w_parsed w) as [c|] eqn:Hc; wp_simpl; [|done].
  case_bool_decide; cbn [negb]; wp_simpl; [|done]. pose proof (wo_parsed _ _ Hw c Hc) as Hpc.
  destruct (ConfigChecks.validateConfigForReconfig_spec p isSelf (config s) c force Hi ltac:(apply Hpc))
    as (r & -> & Hr). cbn [owp].
  destruct r as [i|e]; wp_simpl; [|done]. destruct Hr as (Hval & (Hver & _) & Hme & _).
  assert (pending_ok (s <| co_stored := Some c |>) (ReconfigFinish c i)) as Hp.
  { split_and!; try done; [apply acceptable_valid; auto|by intros _]. }
  destruct force; [by apply wp_store_reconfig|]. wp_simpl.
  destruct (reconfig_quorum s w c i Hw Hc Hme) as (st & ->).
  { destruct (Hvalid Hi) as [? _]. lia. }
  cbn [owp]. destruct st; [by apply wp_store_reconfig|]. wp_simpl. done.
Qed.

Lemma wp_initiate_checks :
  pending_ok s InitiateCheck → wp (check_initiate p isSelf ourSetName w) (resumed s) s.
Proof.
  intros (Hst & Hi). unfold check_initiate. apply wp_guarded.
  assert (∀ e, resumed s (Done e) (s <| co_configState := kConfigUninitialized |>)) as Hfail.
  { intros e. apply resumed_done; [by split|done]. }
  destruct (w_parsed w) as [c|] eqn:Hc; wp_simpl; [|done].
  case_bool_decide; cbn [negb]; wp_simpl; [|done]. pose proof (wo_parsed _ _ Hw c Hc) as Hpc.
  destruct (ConfigChecks.validateConfigForInitiate_spec p isSelf c) as (r & -> & Hr). cbn [owp].
  destruct r as [i|e]; wp_simpl; [|done]. destruct (Hr i eq_refl) as (Hval & Hver & Hme & Hel).
  destruct (initiate_quorum s w c i Hw Hc Hme Hver) as (st & ->). cbn [owp].
  destruct st as [[]|]; wp_simpl; [|done]. unfold initializeReplSetStorage. wp_simpl.
  apply (wp_mono _ (λ _ s', plain s s' ∧ config s' = config s ∧ co_configState s' = co_configState s ∧
    (sw_isOK (w_store w) = true → co_stored s' = Some c))).
  2: { destruct (sw_isOK (w_store w)); [|destruct (w_committed w)]; simpl; wp_simpl; by split_and!. }
  intros _ s' (Hpl & Ecfg & Est & Hsd). wp_simpl. destruct (w_store w).
  2: { apply resumed_done; [by destruct Hpl; split|]. unfold settled, config in *. simpl. by rewrite Ecfg. }
  apply resumed_continue; [done|]. unfold pending_ok, initiating. rewrite Ecfg, Est. split_and!; try done; [apply acceptable_valid; auto|by apply Hsd].
Qed.

(** A refusal of the executor ends the change where it stands. *)
Lemma scheduled f :
  pending_ok s f → (co_inShutdown s = true → settled s) → resumed s (schedule w f) s.
Proof.
  intros Hp Hs. unfold schedule. destruct (wo_schedule _ _ Hw) as [->|[-> Hsh]].
  - by apply resumed_continue.
  - by apply resumed_done; [|apply Hs].
Qed.
Lemma wp_cancels vote fresh f :
  _isInitialized (config s) = true → candidacy s → _role (co_topo s) = candidate →
  pending_ok s f → (co_inShutdown s = true → settled s) →
  wp (cancel_election vote fresh w f) (resumed s) s.
Proof.
  intros Hi Hc Hr Hp Hs. unfold cancel_election. wp_simpl. unfold isV1ElectionProtocol.
  rewrite (no_protocol _ _ Hok Hi). simpl. wp_simpl. split; [by apply Hc|]. by apply scheduled.
Qed.
Lemma no_upgrade c :
  _protocolVersion c = 1 → _resetElectionInfoOnProtocolVersionUpgrade w (config s) c = Ret false.
Proof.
  intros Hc. unfold _resetElectionInfoOnProtocolVersionUpgrade.
  destruct (_isInitialized (config s)) eqn:Hi; [|done].
  by rewrite (no_protocol _ _ Hok Hi), Hc.
Qed.

Lemma became_current_intro c i s' :
  now_current isSelf s c i s' → acceptable c i →
  (co_configState s = kConfigHBReconfiguring → i ≠ -1 → RSC.valid_config p c) →
  (co_configState s ≠ kConfigHBReconfiguring → RSC.valid_config p c) → newer s c →
  (i ≠ -1 → co_stored s = Some c) → became_current s s'.
Proof.
  intros [Hok' Hst Hc Hi Hstored _] Hac Hval Hval' Hnew Hs. unfold became_current.
  rewrite Hc, Hi, Hstored. split_and!; try done; [apply (ac_initialized _ _ _ Hac)|apply (ac_basics _ _ _ Hac)].
Qed.
Lemma coord_ok_drop c :
  coord_ok isSelf c →
  coord_ok isSelf (c <| rc_uncommittedSnapshots := [] |> <| rc_currentCommittedSnapshot := None |>).
Proof.
  intros [[? ? ? [? ? ?] ? ? ?] ? ? ? ?]. split; simpl; try done. split; simpl; try done.
  split; simpl; try done; constructor.
Qed.
Lemma became_current_drop s' :
  became_current s s' →
  wp (on_coord _dropAllSnapshots_inlock) (λ _, became_current s) s'.
Proof.
  intros ([] & ?). apply wp_on_coord. unfold _dropAllSnapshots_inlock. wp_simpl.
  split; [|done]. split; try done. by apply coord_ok_drop.
Qed.

Section candidacy.
Hypothesis Hcand : candidacy s.
Lemma wp_reconfig_finishes c i :
  pending_ok s (ReconfigFinish c i) →
  wp (_finishReplSetReconfig fromTerm w c i) (resumed s) s.
Proof.
  intros Hp. pose proof Hp as (Hst & Hi & Hac & Hval & Hnew & Hstored).
  unfold _finishReplSetReconfig. wp_simpl. split; [by apply bool_decide_eq_true|]. split; [done|].
  unfold role_eqb. case_bool_decide as Hr.
  { apply wp_cancels; try done. intros Hsh. unfold settled. by rewrite Hst. }
  wp_simpl. unfold install.
  eapply wp_mono; [|by apply (wp_install isSelf isSelf_ext fromTerm _ _ _ c i Hac)].
  intros action s' Hcur. apply wp_bind.
  eapply wp_mono; [|by apply became_current_drop, (became_current_intro c i)].
  intros [] s'' Hcur'. wp_simpl. rewrite no_upgrade by apply (ac_protocol _ _ _ Hac). done.
Qed.

Hypothesis Houtside : _isInitialized (config s) = false → selfIndex s = -1.
Lemma no_candidate_outside : _isInitialized (config s) = false → _role (co_topo s) ≠ candidate.
Proof.
  intros Hi Hr. destruct Hok as [HC _ _ _ Hs _]. apply (inv_candidate _ (con_inv _ HC) Hr).
  rewrite Hs. auto.
Qed.
Lemma wp_initiate_finishes c i :
  pending_ok s (InitiateFinish c i) → wp (finish_initiate fromTerm w c i) (λ r s',
    resumed s r s' ∧ ∃ a evh, r = Installed a evh) s.
Proof.
  intros (Hst & Hi & Hac & Hval & (m & Hm & He) & Hstored).
  unfold finish_initiate, _finishReplSetInitiate. wp_simpl.
  split; [by apply bool_decide_eq_true|]. split; [by rewrite Hi|]. unfold install.
  eapply wp_mono; [|by apply (wp_install isSelf isSelf_ext fromTerm _ _ _ c i Hac), no_candidate_outside].
  intros action s' Hcur. wp_simpl. unfold RSC.getMemberAt.
  rewrite (proj2 (vat_Ret _ _ _ m) (proj1 (elem_of_indexed _ _ _) Hm)). cbn [owp]. wp_simpl.
  unfold MC.isElectable in He. apply andb_true_iff in He as [He _]. split; [done|].
  split; [|by eexists _, _]. apply (became_current_intro c i); try done. intros Hi'. by rewrite Hi in Hi'.
Qed.
Lemma wp_initiate_reads c i :
  pending_ok s (InitiateStored c i) →
  wp (resume p isSelf ourSetName fromTerm w (InitiateStored c i)) (resumed s) s.
Proof.
  intros Hp. simpl. wp_simpl. unfold _getMyLastAppliedOpTime_inlock.
  destruct (own_entry_at isSelf (co_coord s)) as (i' & si & _ & _ & _ & -> & Ha & _).
  { apply Hok. }
  simpl. wp_simpl. apply resumed_continue; [done|]. by split.
Qed.
Lemma wp_initiate_durable c i o :
  pending_ok s (InitiateDurable c i o) → undurable s →
  wp (resume p isSelf ourSetName fromTerm w (InitiateDurable c i o)) (resumed s) s.
Proof.
  intros [Hp Ho] Hnd. simpl. wp_simpl. apply wp_on_coord.
  eapply wp_mono; [|apply wp_my_durable; [apply Hok|done..]].
  intros _ c' [Hc' (Ec & Ei & Em)]. wp_simpl. split; [|split; [|done]].
  - destruct Hok. split; try done. split; unfold config, selfIndex; simpl; rewrite ?Ec, ?Ei; done.
  - destruct Hp as (? & ? & ?). unfold pending_ok, initiating, config. simpl. by rewrite Ec.
Qed.

(** ** The configuration on disk *)
Lemma became_current_same s1 s2 :
  became_current s s1 → node_ok s2 → co_configState s2 = co_configState s1 →
  config s2 = config s1 → selfIndex s2 = selfIndex s1 → co_stored s2 = co_stored s1 →
  became_current s s2.
Proof. intros (_ & ? & ? & ? & ? & ? & ? & ?) Hok2 E1 E2 E3 E4. unfold became_current. by rewrite E1, E2, E3, E4. Qed.
Lemma current_coord s1 c' :
  became_current s s1 → coord_ok isSelf c' → unmoved (co_coord s1) c' →
  became_current s (s1 <| co_coord := c' |>).
Proof.
  intros Hb Hc (Ec & Ei & _). apply (became_current_same s1); [done| |done|exact Ec|exact Ei|done].
  destruct Hb as [[] _]. unfold config, selfIndex in *.
  split; unfold config, selfIndex; simpl; rewrite ?Ec, ?Ei; done.
Qed.
Lemma wp_sets_optimes o s1 :
  became_current s s1 → nothing_known (rc_slaveInfo (co_coord s1)) → in_protocol PV1 o →
  wp (set_my_optimes w o) (λ _, became_current s) s1.
Proof.
  intros Hb Hn Ho. unfold set_my_optimes. destruct (OT.isNull o) eqn:Enull; wp_simpl; [done|].
  apply wp_on_coord. eapply wp_mono; [|apply wp_my_first_applied; [apply Hb|done| |done]].
  2: { by intros ->. }
  intros _ c1 (Hc1 & Hu1 & Hd1). apply wp_on_coord. simpl.
  eapply wp_mono; [|by apply wp_my_durable]. intros _ c2 [Hc2 Hu2].
  apply (current_coord s1); [done..|]. unfold unmoved in *. intuition congruence.
Qed.
Lemma wp_updates_term term s1 :
  became_current s s1 → wp (_updateTerm_incallback w term) (λ _, became_current s) s1.
Proof.
  intros Hb. pose proof Hb as [[HC Hrc Hco Ec Es Hpv] _].
  unfold _updateTerm_incallback, Voting._updateTerm_incallback. wp_simpl. apply wp_on_topo. wp_simpl.
  assert (∀ t', Consistent t' → hb_frame (co_topo s1) t' → wp (modify (λ s0,
      if isV1ElectionProtocol s0 then s0 <| co_cachedTerm := _term (co_topo s0) |> else s0))
    (λ _ : (), became_current s) (s1 <| co_topo := t' |>)) as Hdone.
  { intros t' HC' [E1 E2 E3 E4]. wp_simpl.
    assert (∀ n, became_current s (s1 <| co_topo := t' |> <| co_cachedTerm := n |>)) as Hn.
    { intros n. apply (became_current_same s1); try done.
      split; simpl; try done; rewrite ?E1, ?E2, ?E4; done. }
    destruct (isV1ElectionProtocol _); [apply Hn|apply (Hn (co_cachedTerm s1))]. }
  destruct (negb _); [by wp_simpl; apply Hdone|]. wp_simpl.
  apply wp_updateTerm; [done|..]; intros Hlt; [|intros Hr|intros Hr]; wp_simpl; simpl.
  - by apply Hdone.
  - apply Hdone; [|by split]. apply wp_prepareForStepDown; [|done].
    apply (same_core_Consistent (co_topo s1)); [by split|done].
  - apply Hdone; [|by split]. apply (same_core_Consistent (co_topo s1)); [by split|done].
Qed.

Lemma wp_load_finishes c lo lv :
  pending_ok s (LoadConfig c lo lv) → w_txn w = true →
  wp (_finishLoadLocalConfig p isSelf ourSetName fromTerm w c lo lv) (resumed s) s.
Proof.
  intros (Hst & Hi & Hpc & Hval & Hlo & Hn & Hstored) Htxn. unfold _finishLoadLocalConfig.
  destruct (w_canceled w) eqn:Hcan; wp_simpl.
  { apply resumed_done; [done|]. unfold settled. rewrite Hst. split; [done|].
    by apply (wo_canceled _ _ Hw). }
  destruct (ConfigChecks.validateConfigForStartUp_spec p isSelf (config s) c Hi Hval) as (r & -> & Hr).
  cbn [owp]. wp_simpl.
  apply (wp_mono _ (λ i s', s' = s ∧ (i = -1 ∨ ConfigChecks.only_me isSelf c i))).
  2: { destruct r as [i|[]]; try done; wp_simpl; auto. }
  intros i0 ? [-> Hi0]. set (i := if bool_decide _ then i0 else -1).
  assert (i = -1 ∨ ConfigChecks.only_me isSelf c i) as Hme by (subst i; case_bool_decide; auto).
  clearbody i. clear i0 Hi0. wp_simpl. apply (wp_mono _ (λ _ s', s' = s)).
  2: { destruct (Z.eqb_spec i (-1)); wp_simpl; [done|]. destruct Hme as [?|Hme]; [done|].
       destruct (only_me_at c i Hme) as [m ->]. done. }
  intros isArbiter ? ->. wp_simpl. split; [by apply bool_decide_eq_true|].
  set (o := match lo with OK _ => _ | Err _ => _ end).
  assert (in_protocol PV1 o) as Ho.
  { subst o. destruct lo; [destruct isArbiter; [by left|by apply Hlo]|by left]. }
  assert (acceptable c i) as Hac by by apply acceptable_valid. unfold install.
  eapply wp_mono; [|by apply (wp_install isSelf isSelf_ext fromTerm _ _ _ c i Hac), no_candidate_outside].
  intros action s1 Hcur. pose proof (nc_nothing _ _ _ _ _ Hcur Hn) as Hn1. wp_simpl.
  eapply wp_mono; [|apply (wp_sets_optimes o); [|done..]].
  2: { apply (became_current_intro c i); try done. intros Hi'. by rewrite Hi in Hi'. }
  intros [] s2 Hb2. wp_simpl. eapply wp_mono; [|by apply wp_updates_term]. intros [] s3 Hb3.
  apply wp_bind, (wp_mono _ (λ _ s', s' = s3)); [by intros _ ? ->|].
  destruct isArbiter; wp_simpl; done.
Qed.

(** ** Heartbeats *)
Lemma hb_cut_off : co_configState s = kConfigHBReconfiguring → co_inShutdown s = true → settled s.
Proof. intros Hst ?. unfold settled. by rewrite Hst. Qed.
Lemma hb_canceled :
  co_configState s = kConfigHBReconfiguring → w_canceled w = true → resumed s (Done (OK tt)) s.
Proof. intros Hst Hc. apply resumed_done; [done|]. apply hb_cut_off; [done|]. by apply (wo_canceled _ _ Hw). Qed.

Lemma wp_hb_after_election c :
  pending_ok s (HBElection c) → wp (_heartbeatReconfigAfterElectionCanceled w c) (resumed s) s.
Proof.
  intros Hp. pose proof Hp as [Hst Hc]. unfold _heartbeatReconfigAfterElectionCanceled.
  destruct (w_canceled w) eqn:Hcan; wp_simpl; [by apply hb_canceled|]. unfold id.
  destruct (co_inShutdown s) eqn:Hsh.
  - apply resumed_done; [done|]. by apply hb_cut_off.
  - apply scheduled; [done|]. by rewrite Hsh.
Qed.

Lemma hb_stored c r :
  pending_ok s (HBStore c) → (∀ i, r = OK i → RSC.valid_config p c ∧ ConfigChecks.only_me isSelf c i) →
  resumed s (schedule w (HBFinish c r)) (s <| co_stored := Some c |>).
Proof.
  intros [Hst Hc] Hr. unfold schedule. destruct (wo_schedule _ _ Hw) as [->|[-> Hsh]].
  - apply resumed_continue; [by split|]. split_and!; [done..|]. intros i Hi. by destruct (Hr i Hi).
  - apply resumed_done; [by split|]. unfold settled. simpl. by rewrite Hst.
Qed.
Lemma wp_hb_stores c :
  pending_ok s (HBStore c) → wp (_heartbeatReconfigStore p isSelf w c) (resumed s) s.
Proof.
  intros Hp. pose proof Hp as [Hst Hc].
  unfold _heartbeatReconfigStore, forget_heartbeat_config, _setConfigState_inlock.
  destruct (w_canceled w) eqn:Hcan; wp_simpl; [by apply hb_canceled|].
  destruct (ConfigChecks.validateConfigForHeartbeatReconfig_spec p isSelf c) as (r & -> & Hr).
  cbn [owp]. wp_simpl. destruct (node_not_found r && _) eqn:Enf.
  { apply andb_true_iff in Enf as [_ Hi%negb_true_iff]. wp_simpl.
    split; [by apply bool_decide_eq_true|]. apply resumed_done; [by split|done]. }
  destruct (negb (sw_isOK r) && _) eqn:Ebad; wp_simpl.
  { apply scheduled; [|by apply hb_cut_off]. split_and!; [done..|]. intros i ->. done. }
  apply wp_store; [intros e|]; wp_simpl.
  - split; [by apply bool_decide_eq_true|]. apply resumed_done; [by split|].
    unfold settled. simpl. destruct (_isInitialized (config s)) eqn:Hi; done.
  - apply (wp_mono _ (λ _ s', s' = s <| co_stored := Some c |>)).
    { intros _ s' ->. wp_simpl. by apply hb_stored. }
    destruct r as [i|]; wp_simpl; [|done]. destruct (i =? -1); wp_simpl; [done|].
    destruct (only_me_at c i) as [m ->]; [by apply Hr|done].
Qed.

Lemma wp_hb_finishes c r :
  pending_ok s (HBFinish c r) → wp (_heartbeatReconfigFinish fromTerm w c r) (resumed s) s.
Proof.
  intros Hp. pose proof Hp as (Hst & (Hpc & Hval & Hnew) & Hr).
  unfold _heartbeatReconfigFinish. destruct (w_canceled w) eqn:Hcan; wp_simpl; [by apply hb_canceled|].
  split; [by apply bool_decide_eq_true|]. split.
  { unfold newer_than_current. destruct (_isInitialized (config s)) eqn:Hi; [|done].
    by apply Z.ltb_lt, Hnew. }
  unfold id. destruct (_ && _).
  { wp_simpl. apply scheduled; [done|]. by apply hb_cut_off. }
  unfold role_eqb. case_bool_decide as Hrole.
  { apply wp_cancels; try done; [|by apply hb_cut_off].
    apply not_false_is_true. intros Hi. by apply (no_candidate_outside Hi). }
  set (i := match r with OK i => i | Err _ => -1 end).
  assert (acceptable c i) as Hac.
  { apply acceptable_parsed; [done..| |]; destruct r as [j|]; try done; [intros _|right|by left]; by apply (Hr j). }
  wp_simpl. unfold install.
  eapply wp_mono; [|by apply (wp_install isSelf isSelf_ext fromTerm _ _ _ c i Hac)].
  intros action s' Hcur. wp_simpl. rewrite no_upgrade by apply Hpc. cbn [owp]. wp_simpl.
  apply (became_current_intro c i); try done; intros; destruct r as [j|]; try done; by destruct (Hr j eq_refl) as (? & ? & ?).
Qed.
End candidacy.

Lemma wp_schedule_hb c :
  started s → offered s c → wp (_scheduleHeartbeatReconfig w c) (begun s) s.
Proof.
  intros Hs Hc. unfold _scheduleHeartbeatReconfig, _setConfigState_inlock. wp_simpl. unfold id.
  destruct (co_inShutdown s) eqn:Hsh; wp_simpl; [by apply begun_done|].
  assert (w_schedule w = OK tt) as Hsched.
  { destruct (wo_schedule _ _ Hw) as [?|[_ ?]]; [done|congruence]. }
  unfold started in Hs. destruct (co_configState s) eqn:Est; try done; wp_simpl;
    try by apply begun_done.
  all: destruct (plain_kept s _ Hok (plain_state s kConfigHBReconfiguring)) as [? ?].
  all: split; [unfold newer_than_current; change (config _) with (config s); rewrite Hs; try done;
               by apply Z.ltb_lt, Hc|].
  all: unfold schedule; rewrite Hsched; destruct (co_freshnessChecker s); unfold begun, pending_ok;
    split_and!; auto.
Qed.
End parts.

Lemma begun_mono s s1 r s' :
  kept s s1 → co_configState s1 = co_configState s → co_stored s1 = co_stored s →
  (undurable s → undurable s1) → begun s1 r s' → begun s r s'.
Proof.
  intros [] Hst Hsd Hnd Hb.
  assert (∀ s2, kept s1 s2 → kept s s2) as Htrans.
  { intros s2 []. split; congruence. }
  destruct r; simpl in *; rewrite ?Hst, ?Hsd in Hb; naive_solver.
Qed.
Lemma wp_heartbeat s w rtt target r reason :
  node_ok s → world_ok s w → started s → response_ok (co_topo s) target → offers_ok r →
  wp (handle_heartbeat_config w rtt target r reason) (begun s) s.
Proof.
  intros Hok Hw Hs Ht Hr. unfold handle_heartbeat_config. wp_simpl.
  eapply owp_mono; [|eapply my_applied_total, Hok]. intros o _. wp_simpl. apply wp_on_topo.
  assert (_isInitialized (_rsConfig (co_topo s)) = true → _protocolVersion (_rsConfig (co_topo s)) = 1) as Hpv.
  { rewrite (no_config _ _ Hok). apply Hok. }
  eapply wp_mono; [|apply wp_wlp; [apply wp_processHeartbeatResponse; [apply Hok|done]|
    by apply heartbeat_response_frame]].
  intros a t' [HC' [[Ec Es Er Erc] Ha]]. set (s1 := s <| co_topo := t' |>).
  assert (node_ok s1) as Hok1.
  { destruct Hok. unfold config, selfIndex in *. split; simpl; try done; unfold config, selfIndex; simpl; congruence. }
  assert (kept s s1) as Hk by by split.
  assert (∀ st, begun s (Done st) s1) as Hdone by (intros st; by split_and!).
  unfold _handleHeartbeatResponseAction. destruct (_action a) eqn:Eact; wp_simpl; try apply Hdone.
  specialize (Ha eq_refl). unfold offers_newer_config in Ha. rewrite (no_config _ _ Hok) in Ha.
  destruct r as [resp|]; [|done]. destruct (hr_config resp) as [c|] eqn:Hc; [|done]. wp_simpl.
  destruct (Hr resp c eq_refl Hc) as [Hpc Hval].
  eapply wp_mono; [|apply (wp_schedule_hb s1 w)]; try done.
  - intros x s' Hb. by apply (begun_mono s s1).
  - by destruct Hw.
  - split_and!; [done..|]. intros Hi. change (config s1) with (config s) in *. rewrite Hi in Ha. lia.
Qed.

(** ** The invariant holds *)
Implicit Types y : ChangeSys.
Definition moves_on s s' : Prop :=
  config s' = config s ∧ selfIndex s' = selfIndex s ∨ became_current s s'.

Definition change_of (f : Flight) : ConfigState :=
  match f with
  | LoadConfig _ _ _ => kConfigStartingUp
  | ReconfigCheck _ _ | ReconfigFinish _ _ => kConfigReconfiguring
  | InitiateCheck | InitiateStored _ _ | InitiateDurable _ _ _ | InitiateFinish _ _ => kConfigInitiating
  | HBElection _ | HBStore _ | HBFinish _ _ => kConfigHBReconfiguring
  end.
Lemma pending_state s f : pending_ok s f → co_configState s = change_of f.
Proof. destruct f; simpl; unfold initiating; tauto. Qed.
Lemma flights_started s l : flights_ok s l → co_configState s ≠ kConfigStartingUp → started s.
Proof.
  unfold flights_ok, started. destruct l as [|f [|]]; [|intros Hp|done].
  - unfold settled. by case_match.
  - rewrite (pending_state s f Hp). by destruct f.
Qed.
Lemma flights_kept s s' l :
  kept s s' → co_configState s' = co_configState s → co_stored s' = co_stored s →
  (co_configState s = kConfigStartingUp →
    nothing_known (rc_slaveInfo (co_coord s)) → nothing_known (rc_slaveInfo (co_coord s'))) →
  flights_ok s l → flights_ok s' l.
Proof.
  intros [_ Hc _ Hsh _ _] Hst Hsd Hn.
  unfold flights_ok, settled, pending_ok, initiating, offered, newer. rewrite Hc, Hsh, Hst, Hsd.
  destruct l as [|[] []]; naive_solver.
Qed.

Lemma SysInv_kept y s' l :
  SysInv y → kept (sy_node y) s' → flights_ok s' l →
  (_isInitialized (config s') = false → durable_done l = false → undurable s') →
  SysInv (mkChangeSys s' l (sy_post y)).
Proof.
  intros [_ Hval Hout _ _ Hcand] [Hok Hc Hs _ Hr Hv] Hfl Hnd.
  split; simpl; rewrite ?Hc, ?Hs; try done; [by rewrite <-Hc|].
  intros Hp. unfold candidacy. rewrite Hr, Hv. by apply Hcand.
Qed.
Lemma SysInv_current y s' : became_current (sy_node y) s' → SysInv (mkChangeSys s' [] true).
Proof.
  intros (Hok & Hst & Hi & Hval & _). split; simpl; try done; try congruence.
  unfold settled. by rewrite Hst.
Qed.

Lemma after_begun y e r s' :
  SysInv y → co_configState (sy_node y) ≠ kConfigStartingUp → (∀ k w, e ≠ EResume k w) →
  begun (sy_node y) r s' → SysInv (after y e r s') ∧ moves_on (sy_node y) s'.
Proof.
  intros HI Hns He Hb. unfold after.
  replace (match e with EResume k _ => delete k (sy_flights y) | _ => sy_flights y end)
    with (sy_flights y) by by destruct e as [| | |k w]; try destruct (He k w).
  destruct r as [st|f|]; [| |done].
  - destruct Hb as (Hk & Hst & Hsd & Hnd). pose proof Hk as [_ Ec Es _ _ _]. split; [|by left].
    apply SysInv_kept; try done; [by eapply flights_kept; [..|apply HI]|].
    rewrite Ec. intros ? ?. by apply Hnd, (si_durable _ HI).
  - destruct Hb as (Hk & Hst & Hp & Hd & Hnd). pose proof Hk as [_ Ec Es _ _ _]. split; [|by left].
    assert (sy_flights y = []) as Hnil.
    { pose proof (si_flights _ HI) as Hfl. destruct (sy_flights y) as [|g [|]]; [done| |done].
      apply pending_state in Hfl. rewrite Hfl in Hst. by destruct g, Hst. }
    rewrite Hnil. apply SysInv_kept; try done. rewrite Ec. intros Hi _. apply Hnd, (si_durable _ HI); [done|].
    by rewrite Hnil.
Qed.
Lemma after_resumed y w f r s' :
  SysInv y → sy_flights y = [f] → resumed (sy_node y) r s' →
  (durable_done [f] = true → ∃ a evh, r = Installed a evh) →
  SysInv (after y (EResume 0 w) r s') ∧ moves_on (sy_node y) s'.
Proof.
  intros HI Hl Hr Hdone. unfold after. rewrite Hl. simpl.
  assert ((∀ a evh, r ≠ Installed a evh) → _isInitialized (config (sy_node y)) = false →
          undurable (sy_node y)) as Hnd.
  { intros Hne Hi. apply (si_durable _ HI); [done|]. rewrite Hl. apply not_true_is_false.
    intros (a & evh & ->)%Hdone. by apply (Hne a evh). }
  destruct r as [st|g|a evh].
  - destruct Hr as (Hk & Hs & Hd). pose proof Hk as [_ Ec Es _ _ _]. split; [|by left].
    apply SysInv_kept; try done. rewrite Ec. intros Hi _. by apply Hd, Hnd.
  - destruct Hr as (Hk & Hp & Hd). pose proof Hk as [_ Ec Es _ _ _]. split; [|by left].
    apply SysInv_kept; try done. rewrite Ec. intros Hi Hg. by apply Hd, Hnd.
  - split; [by eapply SysInv_current|by right].
Qed.
Lemma wp_resume y w f :
  SysInv y → world_ok (sy_node y) w → sy_flights y = [f] →
  (takes_topo_mutex f = true → sy_post y = false) → (runs_with_txn f = true → w_txn w = true) →
  wp (resume p isSelf ourSetName fromTerm w f) (λ r s', resumed (sy_node y) r s' ∧
    (durable_done [f] = true → ∃ a evh, r = Installed a evh)) (sy_node y).
Proof.
  intros [Hok Hval Hout Hnd Hfl Hcand] Hw Hl Hmutex Htxn. rewrite Hl in *. simpl in Hfl.
  assert (durable_done [f] = false →
    wp (resume p isSelf ourSetName fromTerm w f) (resumed (sy_node y)) (sy_node y) →
    wp (resume p isSelf ourSetName fromTerm w f) (λ r s', resumed (sy_node y) r s' ∧
      (durable_done [f] = true → ∃ a evh, r = Installed a evh)) (sy_node y)) as Hplain.
  { intros Hf. apply wp_mono. intros r s' Hr. split; [done|]. by rewrite Hf. }
  destruct f; try (apply Hplain; [done|]); simpl.
  - by apply wp_load_finishes; try apply Htxn.
  - by apply wp_reconfig_checks.
  - by apply wp_reconfig_finishes; try apply Hcand, Hmutex.
  - by apply wp_initiate_checks.
  - by apply wp_initiate_reads.
  - by apply wp_initiate_durable; try apply Hnd; try apply Hfl.
  - eapply wp_mono; [|by apply wp_initiate_finishes]. by intros r s' [? ?].
  - by apply wp_hb_after_election.
  - by apply wp_hb_stores.
  - by apply wp_hb_finishes; try apply Hcand, Hmutex.
Qed.

Lemma handler_ok y e :
  SysInv y → contract y e →
  wp (handler y e) (λ r s', SysInv (after y e r s') ∧ moves_on (sy_node y) s') (sy_node y).
Proof.
  intros HI Hc. pose proof (flights_started _ _ (si_flights _ HI)) as Hst.
  pose proof (si_node _ HI) as Hok. destruct e as [force|b|w rtt target r reason|k w]; simpl.
  - eapply wp_mono; [|by apply wp_reconfig_begins, Hst]. intros r s'. by apply after_begun.
  - eapply wp_mono; [|by apply wp_initiate_begins, Hst]. intros r s'. by apply after_begun.
  - destruct Hc as (Hns & _ & Ht & Hw & Ho). 
    eapply wp_mono; [|by apply wp_heartbeat; try apply Hst]. intros x s'. by apply after_begun.
  - destruct Hc as (Hw & f & Hk & Hm & Htxn). rewrite Hk. pose proof (si_flights _ HI) as Hfl.
    destruct (sy_flights y) as [|g [|]] eqn:El; [done| |done].
    destruct k; [|done]. injection Hk as ->.
    eapply wp_mono; [|by apply wp_resume]. intros r s' [? ?]. by eapply after_resumed.
Qed.

Lemma step_inv y y' :
  SysInv y → step y y' → SysInv y' ∧ moves_on (sy_node y) (sy_node y').
Proof.
  intros HI [e y'' Hc Hrun|s' post [Hok Hcfg Hself Hst Hsd Hsh Hnd Hstart] Hpost Hcand].
  - destruct (proj1 (wp_Ret _ _ _) (handler_ok y e HI Hc)) as (r & s' & Hh & HI' & Hm).
    unfold run_event in Hrun. rewrite Hh in Hrun. injection Hrun as <-. split; [done|].
    by destruct r.
  - split; [|by left]. destruct HI as [_ Hval Hout Hdur Hfl _].
    split; simpl; rewrite ?Hcfg, ?Hself; try done.
    + intros Hi Hd. by apply Hnd; [|apply Hdur].
    + revert Hfl. unfold flights_ok, settled, pending_ok, initiating, offered, newer.
      rewrite Hcfg, Hst, Hsd. destruct (sy_flights y) as [|[] []]; try done; [case_match|]; naive_solver.
Qed.

(** ** What the rest of the server does are such steps

    Every operation of the topology coordinator that neither votes nor installs a configuration,
    and every update of the progress table that keeps its invariant. *)
Lemma topology_call_other_step s c t' :
  node_ok s → TopoInv.contract (co_topo s) c → Voting.vote_neutral c = true →
  exec c (co_topo s) = Ret (tt, t') → other_step s (s <| co_topo := t' |>).
Proof.
  intros [HC Hrc Hco Ec Es Hpv] Hcontract Hn Hx.
  destruct (Voting.exec_keeps c Hn _ _ _ Hx) as [_ _ Fc Fs Fr].
  pose proof (exec_Consistent (co_topo s) c HC Hcontract) as HC'. unfold wp in HC'. rewrite Hx in HC'.
  unfold config, selfIndex in *.
  split; try done. split; unfold config, selfIndex; simpl; auto; congruence.
Qed.
Lemma progress_other_step s c' :
  node_ok s → _isInitialized (config s) = true → co_configState s ≠ kConfigStartingUp →
  coord_ok isSelf c' → unmoved (co_coord s) c' → other_step s (s <| co_coord := c' |>).
Proof.
  intros [] Hi Hst Hc' (E1 & E2 & E3). unfold config, selfIndex in *.
  split; unfold config, selfIndex; simpl; try done; [|congruence].
  split; unfold config, selfIndex; simpl; rewrite ?E1, ?E2; done.
Qed.

(** ** Start-up *)
Lemma initial_ok options snapshots stored st t :
  Consistent t → _rsConfig t = RSC.default → _selfIndex t = -1 →
  _storageEngineSupportsReadCommitted t ≠ kUnknown →
  node_ok (initial_node options snapshots stored <| co_configState := st |> <| co_topo := t |>).
Proof.
  intros HC Hc Hs Hrc. split; try done.
  split; simpl; try done; [|by left|by unfold table_ok; rewrite decide_True by done; eexists].
  split; simpl; try done; try (by left); [apply Forall_singleton; split; by left|].
  split; simpl; try done; constructor.
Qed.
(** What the start-up does to the topology coordinator. *)
Definition started_topo (options : Options) (readCommitted : bool) (lastVote : option LastVote)
    : TopologyCoordinator :=
  let t := initial options
    <| _storageEngineSupportsReadCommitted := if readCommitted then kYes else kNo |> in
  match lastVote with Some v => t <| _lastVote := v |> | None => t end.
Lemma started_topo_ok options readCommitted lastVote :
  let t := started_topo options readCommitted lastVote in
  Consistent t ∧ _rsConfig t = RSC.default ∧ _selfIndex t = -1 ∧
  _storageEngineSupportsReadCommitted t ≠ kUnknown ∧ _role t ≠ candidate.
Proof.
  assert (Consistent (initial options <| _storageEngineSupportsReadCommitted :=
    if readCommitted then kYes else kNo |>)) as HC.
  { pose proof (wp_setStorageEngineSupportsReadCommitted (initial options)) as H.
    apply (H ltac:(split; [apply initial_Inv|by intros _ ?]) readCommitted). }
  simpl. unfold started_topo. destruct lastVote; simpl; split_and!; try done; try by destruct readCommitted.
  eapply same_core_Consistent; [|exact HC]. by split.
Qed.
Lemma boot_inv options snapshots stored w readCommitted lastVote lastOpTime :
  disk_ok stored lastOpTime → w_schedule w = OK tt →
  ∃ y, boot options snapshots stored w readCommitted lastVote lastOpTime = Ret y ∧ SysInv y.
Proof.
  intros [Hdisk Hlast] Hw.
  destruct (started_topo_ok options readCommitted lastVote) as (HC & Hc & Hs & Hrc & Hrole).
  set (t := started_topo options readCommitted lastVote) in *.
  assert (∀ st l, flights_ok (initial_node options snapshots stored <| co_configState := st |> <| co_topo := t |>) l →
    SysInv (mkChangeSys (initial_node options snapshots stored <| co_configState := st |> <| co_topo := t |>) l false))
    as Hinv.
  { intros st l Hl. split; simpl; try done.
    - by apply (initial_ok options snapshots stored st t).
    - intros _ _. by apply Forall_singleton.
    - by intros _ ?%Hrole. }
  destruct stored as [c|].
  - eexists. split; [|apply (Hinv kConfigStartingUp [LoadConfig c lastOpTime lastVote])].
    + unfold boot, startup, _startLoadLocalConfig, schedule. rewrite Hw. by destruct lastVote.
    + destruct (Hdisk c eq_refl). split_and!; try done. by apply Forall_singleton.
  - eexists. split; [|by apply (Hinv kConfigUninitialized [])].
    unfold boot, startup, _startLoadLocalConfig. by destruct lastVote.
Qed.

Lemma reachable_inv y : reachable y → SysInv y.
Proof.
  induction 1 as [options snapshots stored w rc lv lo y Hd Hw Hb|y y' _ IH Hs].
  - destruct (boot_inv options snapshots stored w rc lv lo Hd Hw) as (y' & Hb' & HI). congruence.
  - by apply (step_inv y y').
Qed.
End system.
End ChangeInv.
