(* ===== verification/ConfigChangeProps.v ===== *)
(** * What the changes of configuration guarantee

    The theorems about the system of ConfigChangeInv.v, from the construction of the coordinator
    on, and a concrete run: a node starts with an empty disk, is initiated, and is
    reconfigured by force. *)
From S2P Require Import Prelude ReplTime ParseNumber HostAndPort ReplTag ReplConfig ConfigChecks Heartbeat Topology TopologyElection TopologySync TopologyHeartbeat TopologyInv Election QuorumCheck Voting Commit ConfigInstall ConfigInstallInv ConfigChange ConfigChangeInv.

Module ChangeProps.
Import Topo TopoElect Commit Install InstallInv Change ChangeInv.

Section props.
Context (p : ServerParams) (isSelf : HostAndPort → bool) (ourSetName : chars) (fromTerm : Z → Z).
Hypothesis isSelf_ext : ∀ a b, HP.key a = HP.key b → isSelf a = isSelf b.
Implicit Types (s : Coordinator) (y : ChangeSys).
Abbreviation reachable := (reachable p isSelf ourSetName fromTerm).
Abbreviation step := (step p isSelf ourSetName fromTerm).
Abbreviation run_event := (run_event p isSelf ourSetName fromTerm).
Abbreviation contract := (contract isSelf).

(** The coordinator is between changes. *)
Definition ready s : Prop :=
  co_configState s = kConfigSteady ∧ _isInitialized (config s) = true ∨
  co_configState s = kConfigUninitialized ∧ _isInitialized (config s) = false.

(** C14. However start-up, replSetReconfig, replSetInitiate and heartbeats that bring
    configurations interleave, with each other and with the rest of the server, every part of
    them returns within its [contract]: no [invariant] or [fassert] of theirs, of the topology
    coordinator or of the progress table is tripped.  At most one change is under way,
    [_rsConfigState] says which, and when none is (and no shutdown has cut one off) the coordinator
    is ready for the next.  The contract: configurations that are parsed have protocol version 1 and
    no NaN priority; those that a heartbeat brings, which nobody has validated yet, also have a
    positive version, members that are valid each by itself, and distinct member ids; the quorum
    check hears from every member or of its failure; the executor refuses or cancels work only in
    shutdown; commands and heartbeats come after the start-up; the configuration on disk at start-up
    is valid. *)
Theorem config_changes_exclusive y e :
  reachable y → contract y e →
  (∃ y', run_event y e = Ret y') ∧ (length (sy_flights y) ≤ 1)%nat ∧
  (∀ f, f ∈ sy_flights y → co_configState (sy_node y) = change_of f) ∧
  (sy_flights y = [] → co_inShutdown (sy_node y) = false → ready (sy_node y)).
Proof.
  intros Hy Hc. pose proof (reachable_inv p isSelf ourSetName fromTerm isSelf_ext y Hy) as HI.
  split_and!.
  - destruct (proj1 (wp_Ret _ _ _) (handler_ok p isSelf ourSetName fromTerm isSelf_ext y e HI Hc))
      as (r & s' & Hr & _).
    eexists. unfold ChangeInv.run_event. by rewrite Hr.
  - destruct HI as [_ _ _ _ Hfl _]. destruct (sy_flights y) as [|? []]; simpl; [lia|lia|done].
  - destruct HI as [_ _ _ _ Hfl _]. destruct (sy_flights y) as [|g []]; [|intros f ->%list_elem_of_singleton|done].
    + by intros f ?%not_elem_of_nil.
    + by apply (pending_state p isSelf).
  - intros Hnil Hsh. pose proof (si_flights _ _ _ HI) as Hfl. rewrite Hnil in Hfl.
    unfold flights_ok, settled in Hfl. unfold ready. destruct (co_configState _); naive_solver congruence.
Qed.

(** A configuration has become current: newer than the one before, and, when this node is a member,
    valid, on disk, and with this node at the one place in it that is this node.  It is valid in any
    case unless a heartbeat has brought it. *)
Definition installed_safely s s' : Prop :=
  co_configState s' = kConfigSteady ∧
  (_isInitialized (config s) = true → _version (config s) < _version (config s')) ∧
  (co_configState s ≠ kConfigHBReconfiguring → RSC.valid_config p (config s')) ∧
  (selfIndex s' ≠ -1 → RSC.valid_config p (config s') ∧
   ConfigChecks.only_me isSelf (config s') (selfIndex s') ∧ co_stored s' = Some (config s')).
Definition unchanged s s' : Prop := config s' = config s ∧ selfIndex s' = selfIndex s.

Lemma step_advances y y' :
  reachable y → step y y' →
  reachable y' ∧
  (unchanged (sy_node y) (sy_node y') ∨
   _isInitialized (config (sy_node y')) = true ∧ installed_safely (sy_node y) (sy_node y')).
Proof.
  intros Hy Hs. pose proof (reachable_inv p isSelf ourSetName fromTerm isSelf_ext y Hy) as HI.
  destruct (step_inv p isSelf ourSetName fromTerm isSelf_ext y y' HI Hs) as [_ [?|(Hok & Hst & Hi & _ & Hn & Hhb & Hv & Hd)]].
  - split; [by eapply reach_step|by left].
  - split; [by eapply reach_step|right]. split; [done|]. split_and!; try done. intros Hne.
    split_and!; [destruct (decide (co_configState (sy_node y) = kConfigHBReconfiguring)); auto| |by apply Hd].
    by destruct (ck_placed _ _ (no_coord _ _ Hok)) as [?|(_ & _ & ?)].
Qed.
Lemma steps_advance y y' :
  reachable y → rtc step y y' →
  reachable y' ∧
  (_isInitialized (config (sy_node y)) = true →
   _isInitialized (config (sy_node y')) = true ∧
   (config (sy_node y') = config (sy_node y) ∨
    _version (config (sy_node y)) < _version (config (sy_node y')))).
Proof.
  intros Hy. induction 1 as [|y y1 y' Hs _ IH]; [by auto|].
  destruct (step_advances y y1 Hy Hs) as [Hy1 Hstep]. destruct (IH Hy1) as [Hy' Hrest].
  split; [done|]. intros Hi. destruct Hstep as [[Ec _]|(Hi1 & _ & Hlt & _)].
  - rewrite Ec in Hrest. auto.
  - destruct (Hrest Hi1) as [Hi' Hv]. split; [done|]. right. specialize (Hlt Hi).
    destruct Hv as [->|]; lia.
Qed.

(** C15. The configuration of a node only moves forward, as long as events keep to their [contract]
    (protocol version 1, no NaN priorities; a configuration from a heartbeat need not be valid, but
    has a positive version, valid members and distinct ids): once the node has a configuration it
    keeps one, a later one with the same version is the same, and every step that changes it installs
    one with a larger version.  A node that is a member of the new one has validated it, written it
    to its disk before, and found itself in it at one place only; a configuration that does not come
    from a heartbeat is valid in any case.  (One from a heartbeat that leaves the node out is
    installed without having passed validation.) *)
Theorem configuration_only_advances y y' :
  reachable y → rtc step y y' →
  (_isInitialized (config (sy_node y)) = true →
   _isInitialized (config (sy_node y')) = true ∧
   (config (sy_node y') = config (sy_node y) ∨
    _version (config (sy_node y)) < _version (config (sy_node y')))) ∧
  ∀ y'', step y' y'' →
    unchanged (sy_node y') (sy_node y'') ∨ installed_safely (sy_node y') (sy_node y'').
Proof.
  intros Hy Hs. destruct (steps_advance y y' Hy Hs) as [Hy' Hv]. split; [done|].
  intros y'' Hs'. destruct (step_advances y' y'' Hy' Hs') as [_ [?|[_ ?]]]; auto.
Qed.
End props.

(** ** A run *)
Abbreviation first_event := (run_event RSC.example_params ConfigChecks.is_first (RSC.str "rs0") (λ term, term)).
Definition example_options : Options := mkOptions 30 false false 2 false.
Definition quiet (parsed : StatusWith ReplSetConfig)
    (arrivals : list (nat * ResponseStatus HeartbeatReply)) : World :=
  mkWorld parsed (OK tt) (λ _, OK tt) arrivals (OK tt) (OK tt) (OK tt) false true 1000 7 (mkTimestamp 5 1) false.
Definition initiate_world : World := quiet (OK RSC.example_config) QuorumProps.example_fresh_answers.
Definition reconfig_world : World := quiet (OK QuorumProps.example_next) [].
Definition booted : outcome ChangeSys :=
  boot example_options false None (quiet (Err FailedToParse) []) true None (Err NodeNotFound).
Definition run_events (es : list event) : outcome ChangeSys :=
  y ← booted; ofoldl first_event y es.
Definition initiation : list event :=
  EInitiate true :: repeat (EResume 0 initiate_world) 4.
Definition reconfiguration : list event :=
  EReconfig true :: repeat (EResume 0 reconfig_world) 2.
Definition summary (y : ChangeSys) : ConfigState * Z * Z * nat :=
  (co_configState (sy_node y), _version (config (sy_node y)), selfIndex (sy_node y), length (sy_flights y)).
Example initiated_and_reconfigured :
  (y ← run_events initiation; Ret (summary y)) = Ret (kConfigSteady, 1, 0, 0%nat) ∧
  (y ← run_events (initiation ++ reconfiguration); Ret (summary y)) = Ret (kConfigSteady, 2, 0, 0%nat) ∧
  (y ← run_events [EReconfig true]; Ret (summary y)) = Ret (kConfigUninitialized, 1, -1, 0%nat) ∧
  (y ← run_events [EInitiate true; EReconfig true]; Ret (summary y))
    = Ret (kConfigInitiating, 1, -1, 1%nat).
Proof. vm_compute. split_and!; reflexivity. Qed.

(** A configuration that fails validation is not stored, but it is installed all the same with
    the node outside of it, and a protocol version other than 0 and 1 then trips an assertion
    of the topology coordinator: [RSC.validate] refuses such a version, parsing does not. *)
Definition strange_config : ReplSetConfig :=
  RSC.example_config <| _version := 2 |> <| _protocolVersion := 2 |>.
Definition heartbeat_from_second (c : ReplSetConfig) (y : ChangeSys) : outcome ChangeSys :=
  let target := mc_host (RSC.example_member 1 false) in
  r ← TopoHB.prepareHeartbeatRequestV1 1000 (RSC.str "rs0") target (co_topo (sy_node y));
  first_event (y <| sy_node := sy_node y <| co_topo := r.2 |> |>)
    (EHeartbeat (quiet (Err FailedToParse) []) 5 target (OK (hr_default <| hr_config := Some c |>)) []).
Example unvalidated_heartbeat_config_aborts :
  (y ← run_events initiation; y ← heartbeat_from_second QuorumProps.example_next y;
   y ← ofoldl first_event y (repeat (EResume 0 reconfig_world) 2); Ret (summary y))
    = Ret (kConfigSteady, 2, 0, 0%nat) ∧
  sw_isOK (RSC.validate RSC.example_params strange_config) = false ∧
  (y ← run_events initiation; y ← heartbeat_from_second strange_config y;
   ofoldl first_event y (repeat (EResume 0 reconfig_world) 2)) = Abort 1981.
Proof. vm_compute. split_and!; reflexivity. Qed.

(** A configuration that is invalid as a whole only (here a negative heartbeat interval) is within
    the contract of a heartbeat; it becomes current with the node outside of it, and the disk keeps
    the one before. *)
Definition invalid_config : ReplSetConfig := QuorumProps.example_next <| _heartbeatInterval := -1 |>.
Example invalid_heartbeat_config_leaves_node_out :
  sw_isOK (RSC.validate RSC.example_params invalid_config) = false ∧
  (y ← run_events initiation; y ← heartbeat_from_second invalid_config y;
   y ← ofoldl first_event y (repeat (EResume 0 reconfig_world) 2);
   Ret (_heartbeatInterval (config (sy_node y)), selfIndex (sy_node y), _version <$> co_stored (sy_node y)))
    = Ret (-1, -1, Some 1).
Proof. vm_compute. split_and!; reflexivity. Qed.

Definition sys_of (r : outcome ChangeSys) : ChangeSys :=
  match r with
  | Ret y => y
  | Abort _ => mkChangeSys (initial_node example_options false None) [] false
  end.
Abbreviation first_reachable :=
  (ChangeInv.reachable RSC.example_params ConfigChecks.is_first (RSC.str "rs0") (λ term, term)).
Abbreviation first_step :=
  (ChangeInv.step RSC.example_params ConfigChecks.is_first (RSC.str "rs0") (λ term, term)).
Lemma booted_reachable : first_reachable (sys_of booted).
Proof.
  eapply (reach_boot _ _ _ _ example_options false None (quiet (Err FailedToParse) []) true None (Err NodeNotFound));
    [by split|done|reflexivity].
Qed.
Lemma initiate_step : first_step (sys_of booted) (sys_of (run_events [EInitiate true])).
Proof. eapply (step_event _ _ _ _ _ (EInitiate true)); [done|reflexivity]. Qed.
Lemma initiate_world_ok s : world_ok ConfigChecks.is_first s initiate_world.
Proof.
  split; try done; [by left|..].
  - intros c [= <-]. split_and!; [done|apply RSC.example_majorities|by repeat constructor|done].
  - intros c i [= <-] [_ Honly].
    assert (0 = i) as <-.
    { apply Honly. exists (RSC.example_member 0 false). split; [by left|reflexivity]. }
    split; [vm_compute; constructor|repeat constructor].
Qed.
Lemma config_changes_exclusive_witness :
  let y := sys_of (run_events [EInitiate true]) in
  (∃ y', first_event y (EResume 0 initiate_world) = Ret y') ∧ (length (sy_flights y) ≤ 1)%nat ∧
  (∀ f, f ∈ sy_flights y → co_configState (sy_node y) = change_of f) ∧
  (sy_flights y = [] → co_inShutdown (sy_node y) = false → ready (sy_node y)).
Proof.
  apply (config_changes_exclusive _ _ _ _ is_first_ext).
  - eapply reach_step; [exact booted_reachable|exact initiate_step].
  - split; [apply initiate_world_ok|]. exists InitiateCheck. by split.
Defined.
Lemma configuration_only_advances_witness :
  let y := sys_of booted in let y' := sys_of (run_events [EInitiate true]) in
  (_isInitialized (config (sy_node y)) = true →
   _isInitialized (config (sy_node y')) = true ∧
   (config (sy_node y') = config (sy_node y) ∨
    _version (config (sy_node y)) < _version (config (sy_node y')))) ∧
  ∀ y'', first_step y' y'' →
    unchanged (sy_node y') (sy_node y'') ∨
    installed_safely RSC.example_params ConfigChecks.is_first (sy_node y') (sy_node y'').
Proof.
  apply (configuration_only_advances _ _ _ _ is_first_ext).
  - exact booted_reachable.
  - apply rtc_once, initiate_step.
Defined.
End ChangeProps.
