(* ===== verification/LockRequestList.v ===== *)
(** * The intrusive list of lock requests

    The queues of a lock head are doubly linked through the requests themselves
    (src/mongo/db/concurrency/lock_request_list.h).  The operations on the links refine those on
    lists that LockManager uses: prepend, append and remove. *)
From S2P Require Import Prelude.

(** The links of a request, and a list over the store of all requests. *)
Record Links := mkLinks { rq_prev : option Z; rq_next : option Z }.
#[export] Instance Links_eta : Eta Links := λ n, mkLinks (rq_prev n) (rq_next n).
Record LockRequestList := mkList { _front : option Z; _back : option Z; store : gmap Z Links }.
#[export] Instance LockRequestList_eta : Eta LockRequestList := λ q, mkList (_front q) (_back q) (store q).

Module RequestList.
Abbreviation RM := (M LockRequestList).
Implicit Types (q : LockRequestList) (x y : Z) (l : list Z).

Definition detached : Links := mkLinks None None.
Definition links (x : Z) : RM Links := reads (λ q, match store q !! x with Some n => Ret n | None => Abort 0 end).
Definition set_prev (x : Z) (p : option Z) : RM () :=
  n ← links x; modify (λ q, q <| store := <[x := n <| rq_prev := p |>]> (store q) |>).
Definition set_next (x : Z) (p : option Z) : RM () :=
  n ← links x; modify (λ q, q <| store := <[x := n <| rq_next := p |>]> (store q) |>).
Definition null {A} (o : option A) : bool := match o with None => true | Some _ => false end.

Definition push_front (request : Z) : RM () :=
  n ← links request;
  invariant 50 (λ _, null (rq_next n)) ;;
  invariant 51 (λ _, null (rq_prev n)) ;;
  q ← gets id;
  match _front q with
  | None => modify (λ q, q <| _front := Some request |> <| _back := Some request |>)
  | Some front =>
      set_next request (Some front) ;;
      set_prev front (Some request) ;;
      modify (λ q, q <| _front := Some request |>)
  end.
Definition push_back (request : Z) : RM () :=
  n ← links request;
  invariant 65 (λ _, null (rq_next n)) ;;
  invariant 66 (λ _, null (rq_prev n)) ;;
  q ← gets id;
  match _front q, _back q with
  | None, _ => modify (λ q, q <| _front := Some request |> <| _back := Some request |>)
  | Some _, Some back =>
      set_prev request (Some back) ;;
      set_next back (Some request) ;;
      modify (λ q, q <| _back := Some request |>)
  | Some _, None => λ _, Abort 73
  end.
Definition remove (request : Z) : RM () :=
  n ← links request;
  match rq_prev n with
  | Some prev => set_next prev (rq_next n)
  | None => modify (λ q, q <| _front := rq_next n |>)
  end ;;
  match rq_next n with
  | Some next => set_prev next (rq_prev n)
  | None => modify (λ q, q <| _back := rq_prev n |>)
  end ;;
  set_prev request None ;;
  set_next request None.

(** ** The list that the links represent *)
Record represents q l : Prop := mkRepresents {
  rp_front : _front q = head l;
  rp_back : _back q = last l;
  rp_distinct : NoDup l;
  rp_links : ∀ l1 x l2, l = l1 ++ x :: l2 → store q !! x = Some (mkLinks (last l1) (head l2)) }.

Lemma wp_links x n Q q : store q !! x = Some n → Q n q → wp (links x) Q q.
Proof. intros Hx HQ. unfold links. wp_simpl. by rewrite Hx. Qed.
Lemma wp_set_prev x p n Q q :
  store q !! x = Some n → Q tt (q <| store := <[x := mkLinks p (rq_next n)]> (store q) |>) → wp (set_prev x p) Q q.
Proof. intros Hx HQ. unfold set_prev. apply wp_bind, (wp_links x n); [done|]. wp_simpl. done. Qed.
Lemma wp_set_next x p n Q q :
  store q !! x = Some n → Q tt (q <| store := <[x := mkLinks (rq_prev n) p]> (store q) |>) → wp (set_next x p) Q q.
Proof. intros Hx HQ. unfold set_next. apply wp_bind, (wp_links x n); [done|]. wp_simpl. done. Qed.
Lemma split_unique l1 x l2 l1' l2' :
  NoDup (l1 ++ x :: l2) → l1 ++ x :: l2 = l1' ++ x :: l2' → l1 = l1' ∧ l2 = l2'.
Proof.
  revert l1'. induction l1 as [|a l1 IH]; intros [|b l1'] Hnd Heq; simplify_eq/=; [done| | |].
  - apply NoDup_cons in Hnd as [Hn _]. destruct Hn. apply elem_of_app. right. left.
  - apply NoDup_cons in Hnd as [Hn _]. destruct Hn. apply elem_of_app. right. left.
  - apply NoDup_cons in Hnd as [_ Hnd]. by destruct (IH l1' Hnd) as [-> ->].
Qed.

(** Only the requests of the list and [x] are written. *)
Definition frame x l q q' : Prop := ∀ y, y ≠ x → y ∉ l → store q' !! y = store q !! y.

Section operations.
Context (q : LockRequestList) (l : list Z) (Hq : represents q l).

Lemma push_front_represents x :
  x ∉ l → store q !! x = Some detached → wp (push_front x) (λ _ q', represents q' (x :: l) ∧ frame x l q q') q.
Proof.
  intros Hx Hd. destruct Hq as [Hf Hb Hnd Hl]. unfold push_front. apply wp_bind, (wp_links x detached); [done|].
  wp_simpl. split_and!; [done..|]. unfold id. destruct l as [|f l'].
  - simpl in Hf. rewrite Hf. wp_simpl. split; [|done]. split; [done..|apply NoDup_singleton|].
    intros [|? [|??]] y l2 He; simplify_eq/=. done.
  - simpl in Hf. rewrite Hf. wp_simpl. apply (wp_set_next x _ detached); [done|]. wp_simpl.
    pose proof (Hl [] f l' eq_refl) as Hfl. apply not_elem_of_cons in Hx as [Hxf Hx].
    apply (wp_set_prev f _ (mkLinks None (head l'))); [simpl; by rewrite lookup_insert_ne|]. wp_simpl.
    split; [|intros y Hyx [Hyf _]%not_elem_of_cons; simpl; by rewrite !lookup_insert_ne]. split; simpl.
    + done.
    + by rewrite Hb.
    + apply NoDup_cons. split; [by apply not_elem_of_cons|done].
    + intros [|x0 [|f0 l1]] y l2 He; simplify_eq/=.
      * rewrite lookup_insert_ne by done. by rewrite lookup_insert_eq.
      * by rewrite lookup_insert_eq.
      * pose proof (Hl (f0 :: l1) y l2 eq_refl) as Hy.
        rewrite !lookup_insert_ne; [done| |].
        -- intros ->. apply Hx. apply elem_of_app. right. left.
        -- intros ->. apply NoDup_cons in Hnd as [Hn _]. apply Hn. apply elem_of_app. right. left.
Qed.
Lemma push_back_represents x :
  x ∉ l → store q !! x = Some detached → wp (push_back x) (λ _ q', represents q' (l ++ [x]) ∧ frame x l q q') q.
Proof.
  intros Hx Hd. destruct Hq as [Hf Hb Hnd Hl]. unfold push_back. apply wp_bind, (wp_links x detached); [done|].
  wp_simpl. split_and!; [done..|]. unfold id. destruct l as [|b l' _] using rev_ind.
  - simpl in Hf. rewrite Hf. wp_simpl. split; [|done]. split; [done..|apply NoDup_singleton|].
    intros [|? [|??]] y l2 He; simplify_eq/=. done.
  - rewrite last_snoc in Hb. rewrite Hf, Hb. destruct (head (l' ++ [b])) as [f|] eqn:Eh; [|by destruct l'].
    wp_simpl. apply (wp_set_prev x _ detached); [done|]. wp_simpl.
    apply not_elem_of_app in Hx as [Hx Hxb%not_elem_of_cons]. destruct Hxb as [Hxb _].
    pose proof (Hl l' b [] eq_refl) as Hbl.
    apply (wp_set_next b _ (mkLinks (last l') None)); [simpl; by rewrite lookup_insert_ne|]. wp_simpl.
    split; [|intros y Hyx [_ [Hyb _]%not_elem_of_cons]%not_elem_of_app; simpl; by rewrite !lookup_insert_ne]. split; simpl.
    + rewrite Hf, <-Eh. by destruct l'.
    + by rewrite last_snoc.
    + apply NoDup_app. split_and!; [done| |apply NoDup_singleton].
      intros y [Hy|Hy]%elem_of_app; [|apply list_elem_of_singleton in Hy]; intros Hyx%list_elem_of_singleton; subst; done.
    + intros l1 y l2 He. destruct l2 as [|z l2 _] using rev_ind.
      * apply app_inj_tail in He as [<- ->]. rewrite lookup_insert_ne by done. rewrite lookup_insert_eq. by rewrite last_snoc.
      * rewrite app_comm_cons, app_assoc in He. apply app_inj_tail in He as [He ->].
        destruct l2 as [|z' l2 _] using rev_ind.
        -- apply app_inj_tail in He as [-> ->]. by rewrite lookup_insert_eq.
        -- pose proof (Hl l1 y (l2 ++ [z']) He) as Hy. rewrite app_comm_cons, app_assoc in He.
           apply app_inj_tail in He as [-> ->]. rewrite !lookup_insert_ne; [rewrite Hy; by destruct l2| |].
           ++ intros ->. apply Hx. apply elem_of_app. right. left.
           ++ intros ->. apply NoDup_app in Hnd as (_ & Hn & _). apply (Hn y); [|left]. apply elem_of_app. right. left.
Qed.

(** The store after [remove]: the neighbours are joined. *)
Record unlinked l1 x l2 q' : Prop := mkUnlinked {
  ul_front : _front q' = head (l1 ++ l2);
  ul_back : _back q' = last (l1 ++ l2);
  ul_self : store q' !! x = Some detached;
  ul_prev : ∀ m p, l1 = m ++ [p] → store q' !! p = Some (mkLinks (last m) (head l2));
  ul_next : ∀ n m, l2 = n :: m → store q' !! n = Some (mkLinks (last l1) (head m));
  ul_others : ∀ y, y ≠ x → Some y ≠ last l1 → Some y ≠ head l2 → store q' !! y = store q !! y }.
Lemma last_none {A} (m : list A) : last m = None → m = [].
Proof. destruct m as [|a m _] using rev_ind; [done|]. by rewrite last_snoc. Qed.
(** The links of an element's neighbours. *)
Lemma prev_links l1 x l2 : l = l1 ++ x :: l2 →
  ∀ p, last l1 = Some p → ∃ m, l1 = m ++ [p] ∧ store q !! p = Some (mkLinks (last m) (Some x)) ∧ p ≠ x.
Proof.
  intros -> p [m ->]%last_Some. destruct Hq as [_ _ Hnd Hl]. exists m. split_and!; [done| |].
  - by rewrite (Hl m p (x :: l2)) by (by rewrite <-app_assoc).
  - intros ->. apply NoDup_app in Hnd as (_ & Hdis & _). apply (Hdis x); [apply elem_of_app; right; left|left].
Qed.
Lemma next_links l1 x l2 : l = l1 ++ x :: l2 →
  ∀ n m, l2 = n :: m → store q !! n = Some (mkLinks (Some x) (head m)) ∧ n ≠ x ∧ n ∉ l1.
Proof.
  intros -> n m ->. destruct Hq as [_ _ Hnd Hl]. apply NoDup_app in Hnd as (_ & Hdis & [Hx _]%NoDup_cons). split_and!.
  - rewrite (Hl (l1 ++ [x]) n m) by (by rewrite <-app_assoc). by rewrite last_snoc.
  - intros ->. apply Hx. left.
  - intros Hin. apply (Hdis n Hin). right. left.
Qed.
Lemma wp_remove l1 x l2 : l = l1 ++ x :: l2 → wp (remove x) (λ _ q', unlinked l1 x l2 q') q.
Proof.
  intros El. pose proof (prev_links l1 x l2 El) as Hp. pose proof (next_links l1 x l2 El) as Hn. revert El.
  intros ->. destruct Hq as [Hf Hb Hnd Hl]. pose proof (Hl l1 x l2 eq_refl) as Hx.
  unfold remove. apply wp_bind, (wp_links x _ _ _ Hx). cbn [rq_prev rq_next]. wp_simpl.
  destruct (last l1) as [p|] eqn:Ep, l2 as [|n m2]; cbn [head] in *.
  - destruct (Hp p eq_refl) as (m & -> & Hps & Hpx). apply (wp_set_next p _ _ _ _ Hps). wp_simpl.
    apply (wp_set_prev x _ (mkLinks (Some p) None)); [simpl; by rewrite lookup_insert_ne|]. wp_simpl.
    apply (wp_set_next x _ detached); [simpl; by rewrite lookup_insert_eq|]. split; simpl.
    + rewrite Hf, app_nil_r. by destruct m.
    + by rewrite app_nil_r, last_snoc.
    + by rewrite lookup_insert_eq.
    + intros m' p' [-> ->]%app_inj_tail. rewrite !lookup_insert_ne by done. by rewrite lookup_insert_eq.
    + done.
    + intros y Hy Hyp _. rewrite last_snoc in Hyp. rewrite !lookup_insert_ne by congruence. done.
  - destruct (Hp p eq_refl) as (m & -> & Hps & Hpx). destruct (Hn n m2 eq_refl) as (Hns & Hnx & Hnl).
    assert (n ≠ p) as Hnp by (intros ->; apply Hnl; apply elem_of_app; right; left).
    apply (wp_set_next p _ _ _ _ Hps). wp_simpl.
    apply (wp_set_prev n _ (mkLinks (Some x) (head m2))); [simpl; by rewrite lookup_insert_ne|]. wp_simpl.
    apply (wp_set_prev x _ (mkLinks (Some p) (Some n))); [simpl; by rewrite !lookup_insert_ne|].
    apply (wp_set_next x _ (mkLinks None (Some n))); [simpl; by rewrite lookup_insert_eq|]. split; simpl.
    + rewrite Hf. by destruct m.
    + rewrite Hb. rewrite !last_app. simpl. by destruct (last m2).
    + by rewrite lookup_insert_eq.
    + intros m' p' [-> ->]%app_inj_tail. rewrite !lookup_insert_ne by done. by rewrite lookup_insert_eq.
    + intros n' m' [= <- <-]. rewrite !(lookup_insert_ne _ x) by done. rewrite lookup_insert_eq. by rewrite last_snoc.
    + intros y Hy Hyp Hyn. rewrite last_snoc in Hyp. rewrite !lookup_insert_ne by congruence. done.
  - apply last_none in Ep as ->. wp_simpl.
    apply (wp_set_prev x _ (mkLinks None None)); [done|]. wp_simpl.
    apply (wp_set_next x _ detached); [simpl; by rewrite lookup_insert_eq|]. split; simpl; try done.
    + by rewrite lookup_insert_eq.
    + intros [] ? ?; done.
    + intros y Hy _ _. by rewrite !lookup_insert_ne by done.
  - apply last_none in Ep as ->. destruct (Hn n m2 eq_refl) as (Hns & Hnx & Hnl). wp_simpl.
    apply (wp_set_prev n _ (mkLinks (Some x) (head m2))); [done|]. wp_simpl.
    apply (wp_set_prev x _ (mkLinks None (Some n))); [simpl; by rewrite lookup_insert_ne|].
    apply (wp_set_next x _ (mkLinks None (Some n))); [simpl; by rewrite lookup_insert_eq|]. split; simpl; try done.
    + by rewrite lookup_insert_eq.
    + intros [] ? ?; done.
    + intros n' m' [= <- <-]. rewrite !lookup_insert_ne by done. by rewrite lookup_insert_eq.
    + intros y Hy _ Hyn. by rewrite !lookup_insert_ne by congruence.
Qed.
Lemma unlinked_represents l1 x l2 q' :
  l = l1 ++ x :: l2 → unlinked l1 x l2 q' → represents q' (l1 ++ l2).
Proof.
  intros -> [Uf Ub Us Up Un Uo]. destruct Hq as [_ _ Hnd Hl]. apply NoDup_app in Hnd as (Hnd1 & Hdis & [Hx2 Hnd2]%NoDup_cons).
  assert (NoDup (l1 ++ l2)) as Hnd by (apply NoDup_app; split_and!; [done| |done]; intros y Hy Hy2; apply (Hdis y Hy); by right).
  split; [done..|]. intros m1 y m2 He.
  assert (y ∈ l1 ++ l2) as Hy by (rewrite He; apply elem_of_app; right; left).
  assert (y ≠ x) as Hyx.
  { intros ->. apply elem_of_app in Hy as [Hy|Hy]; [|done]. apply (Hdis x Hy). left. }
  apply app_eq_inv in He as [(k & -> & He)|(k & -> & ->)].
  - destruct k as [|y' k]; simpl in He.
    + subst l2. rewrite (Un y m2 eq_refl). by rewrite app_nil_r.
    + injection He as <- ->. destruct k as [|z k].
      * by rewrite (Up m1 y eq_refl).
      * rewrite Uo; [|done| |].
        -- rewrite (Hl m1 y ((z :: k) ++ x :: l2)) by (by rewrite <-app_assoc). done.
        -- intros Hlast. symmetry in Hlast. apply last_Some in Hlast as [m Hm].
           destruct (split_unique m1 y (z :: k) m [] Hnd1 Hm) as [_ ?]. done.
        -- intros Hh. destruct l2 as [|n l2]; [done|]. injection Hh as ->. apply NoDup_app in Hnd as (_ & Hd & _).
           apply (Hd n); [apply elem_of_app; right; left|left].
  - destruct k as [|z k].
    + rewrite app_nil_r. by rewrite (Un y m2 eq_refl).
    + rewrite Uo; [|done| |].
      * rewrite (Hl (l1 ++ x :: z :: k) y m2) by (by rewrite <-app_assoc). rewrite !last_app. cbn [last].
        change (last (x :: z :: k)) with (last (z :: k)). by destruct (last (z :: k)) eqn:E; [|apply last_none in E].
      * intros Hlast. symmetry in Hlast. apply last_Some in Hlast as [m ->]. apply NoDup_app in Hnd as (_ & Hd & _).
        apply (Hd y); [apply elem_of_app; right; left|]. apply (elem_of_app (z :: k)). right. left.
      * intros [= ->]. apply NoDup_app in Hnd as (_ & _ & Hnd). apply NoDup_cons in Hnd as [Hn _]. apply Hn.
        apply elem_of_app. right. left.
Qed.
End operations.

(** ** Refinement

    The operations on the links, and what they do to the list. *)
Inductive op := PushFront (x : Z) | PushBack (x : Z) | Remove (x : Z).
Definition exec (o : op) : RM () :=
  match o with PushFront x => push_front x | PushBack x => push_back x | Remove x => remove x end.
Definition spec (o : op) (l : list Z) : list Z :=
  match o with
  | PushFront x => x :: l
  | PushBack x => l ++ [x]
  | Remove x => List.filter (λ y, negb (y =? x)) l
  end.
(** Only a request that is on no list is pushed, and only one that is on the list is removed. *)
Definition allowed (o : op) (l : list Z) : bool :=
  match o with
  | PushFront x | PushBack x => bool_decide (x ∉ l)
  | Remove x => bool_decide (x ∈ l)
  end.
Definition subject (o : op) : Z := match o with PushFront x | PushBack x | Remove x => x end.
Fixpoint exec_all (os : list op) : RM () :=
  match os with [] => mret tt | o :: os => exec o ;; exec_all os end.
Fixpoint spec_all (os : list op) (l : list Z) : list Z :=
  match os with [] => l | o :: os => spec_all os (spec o l) end.
Fixpoint allowed_all (os : list op) (l : list Z) : bool :=
  match os with [] => true | o :: os => allowed o l && allowed_all os (spec o l) end.
(** Reading the queue from the front along the links. *)
Fixpoint walk (fuel : nat) (p : option Z) q : list Z :=
  match fuel, p with
  | S fuel, Some x => x :: walk fuel (store q !! x ≫= rq_next) q
  | _, _ => []
  end.

Definition refines q l : Prop :=
  represents q l ∧ ∀ x, is_Some (store q !! x) → x ∉ l → store q !! x = Some detached.

Lemma filter_middle l1 x l2 :
  NoDup (l1 ++ x :: l2) → List.filter (λ y, negb (y =? x)) (l1 ++ x :: l2) = l1 ++ l2.
Proof.
  intros Hnd. apply NoDup_app in Hnd as (_ & Hd & [Hx2 _]%NoDup_cons).
  assert (∀ l, x ∉ l → List.filter (λ y, negb (y =? x)) l = l) as Hid.
  { intros l. induction l as [|y l IH]; [done|]. intros [Hne Hn]%not_elem_of_cons. simpl.
    destruct (Z.eqb_spec y x); [congruence|]. simpl. by rewrite IH. }
  rewrite List.filter_app. simpl. rewrite Z.eqb_refl. simpl. rewrite !Hid; [done..|]. intros Hx. apply (Hd x Hx). left.
Qed.
Lemma walk_represents q l n : represents q l → (length l ≤ n)%nat → walk n (_front q) q = l.
Proof.
  intros [Hf _ _ Hl] Hn. rewrite Hf. clear Hf.
  assert (∀ l1 l2, l = l1 ++ l2 → (length l2 ≤ n)%nat → walk n (head l2) q = l2) as H; [|by apply (H [])].
  clear Hn. revert n. intros n l1 l2. revert n l1. induction l2 as [|x l2 IH]; intros n l1 He Hn; [by destruct n|].
  destruct n as [|n]; [simpl in Hn; lia|]. simpl. rewrite (Hl l1 x l2 He). simpl. f_equal.
  apply (IH n (l1 ++ [x])); [by rewrite <-app_assoc|simpl in Hn; lia].
Qed.

Lemma spec_elem o l y : y ∉ spec o l → y ≠ subject o → y ∉ l.
Proof.
  destruct o as [x|x|x]; simpl; [set_solver..|]. intros Hn Hne Hy. apply Hn. apply list_elem_of_In, List.filter_In.
  split; [by apply list_elem_of_In|]. destruct (Z.eqb_spec y x); done.
Qed.
Lemma exec_represents q l o :
  refines q l → is_Some (store q !! subject o) → allowed o l = true →
  wp (exec o) (λ _ q', represents q' (spec o l) ∧ frame (subject o) l q q' ∧
    (subject o ∉ spec o l → store q' !! subject o = Some detached)) q.
Proof.
  intros [Hq Hd] Hs Ha. destruct o as [x|x|x]; cbn [exec subject spec allowed] in *; apply bool_decide_eq_true in Ha.
  - eapply wp_mono; [|apply (push_front_represents q l Hq x); auto]. intros _ q' [? ?]. split_and!; [done..|set_solver].
  - eapply wp_mono; [|apply (push_back_represents q l Hq x); auto]. intros _ q' [? ?]. split_and!; [done..|set_solver].
  - apply list_elem_of_split in Ha as (l1 & l2 & He). eapply wp_mono; [|by apply (wp_remove q l Hq l1 x l2)].
    intros [] q' Hu. pose proof (unlinked_represents q l Hq l1 x l2 q' He Hu) as Hr. subst l.
    rewrite filter_middle by apply Hq. split_and!; [done| |intros _; apply Hu].
    intros y Hy Hyl. apply Hu; [done|..].
    + intros Hx. symmetry in Hx. apply last_Some in Hx as [m ->]. apply Hyl. apply elem_of_app. left. apply elem_of_app. right. left.
    + intros Hx. destruct l2 as [|n l2]; [done|]. injection Hx as ->. apply Hyl. apply elem_of_app. right. right. left.
Qed.
Lemma exec_refines q l o :
  refines q l → is_Some (store q !! subject o) → allowed o l = true →
  wp (exec o) (λ _ q', refines q' (spec o l) ∧ ∀ y, is_Some (store q !! y) → is_Some (store q' !! y)) q.
Proof.
  intros HR Hs Ha. eapply wp_mono; [|by apply exec_represents]. intros _ q' (Hr & Hf & Hself).
  assert (∀ y, y ∈ spec o l → is_Some (store q' !! y)) as Hin.
  { intros y (l1 & l2 & He)%list_elem_of_split. rewrite (rp_links _ _ Hr l1 y l2 He). eauto. }
  assert (∀ y, y ∉ spec o l → is_Some (store q !! y) → store q' !! y = Some detached) as Hout.
  { intros y Hn Hy. destruct (decide (y = subject o)) as [->|Hne]; [auto|].
    pose proof (spec_elem o l y Hn Hne) as Hyl. rewrite (Hf y Hne Hyl). by apply HR. }
  split; [split; [done|]|].
  - intros y Hy Hn. destruct (decide (y = subject o)) as [->|Hne]; [auto|].
    pose proof (spec_elem o l y Hn Hne) as Hyl. rewrite (Hf y Hne Hyl) in Hy |- *. by apply HR.
  - intros y Hy. destruct (decide (y ∈ spec o l)) as [?|Hn]; [auto|]. rewrite (Hout y Hn Hy). eauto.
Qed.
Lemma exec_all_refines os q l :
  refines q l → (∀ o, o ∈ os → is_Some (store q !! subject o)) → allowed_all os l = true →
  wp (exec_all os) (λ _ q', refines q' (spec_all os l)) q.
Proof.
  revert q l. induction os as [|o os IH]; intros q l HR Hs Ha; cbn [exec_all spec_all allowed_all] in *; [wp_simpl; done|].
  apply andb_true_iff in Ha as [Ha Hos]. apply wp_bind.
  eapply wp_mono; [|apply (exec_refines q l o); [done|apply Hs; left|done]]. intros _ q' [HR' Hkeep].
  apply IH; [done| |done]. intros o' Ho'. apply Hkeep, Hs. by right.
Qed.

(** The requests [xs], none of them on the list. *)
Definition fresh_store (xs : list Z) : LockRequestList := mkList None None (list_to_map ((λ x, (x, detached)) <$> xs)).
Lemma fresh_refines xs : refines (fresh_store xs) [].
Proof.
  split; [split; [done..|apply NoDup_nil_2|]|].
  - intros [] ? ? ?; done.
  - intros x [n Hn] _. rewrite Hn. simpl in Hn. apply elem_of_list_to_map_2, list_elem_of_fmap in Hn as (y & [= -> ->] & _). done.
Qed.
Lemma fresh_lookup xs x : x ∈ xs → is_Some (store (fresh_store xs) !! x).
Proof.
  intros Hx. simpl. destruct (list_to_map _ !! x) eqn:E; [eauto|]. exfalso.
  apply not_elem_of_list_to_map in E. apply E. rewrite <-list_fmap_compose. apply list_elem_of_fmap. by exists x.
Qed.

(** The intrusive queue refines a list.  Start from requests that are on no queue and push each to
    the front or the back only when it is not queued and remove it only when it is, in any order:
    no sanity check fails, and the links, read from the front, are the list that the same
    operations produce on lists; a removed request is clean and can be pushed again. *)
Theorem request_list_refines (xs : list Z) (os : list op) :
  (∀ o, o ∈ os → subject o ∈ xs) → allowed_all os [] = true →
  ∃ q, exec_all os (fresh_store xs) = Ret (tt, q) ∧
    walk (length (spec_all os [])) (_front q) q = spec_all os [] ∧ _back q = last (spec_all os []) ∧
    ∀ x, is_Some (store q !! x) → x ∉ spec_all os [] → store q !! x = Some detached.
Proof.
  intros Hxs Ha. pose proof (exec_all_refines os (fresh_store xs) [] (fresh_refines xs)) as H.
  apply wp_Ret in H as ([] & q & Hq & Hr & Hd); [|intros o Ho; by apply fresh_lookup, Hxs|done].
  exists q. split_and!; [done|by apply walk_represents|by apply Hr|done].
Qed.
Lemma request_list_refines_witness :
  ∃ q, exec_all [PushBack 1; PushBack 2; PushFront 3; Remove 1; PushBack 1] (fresh_store [1; 2; 3]) = Ret (tt, q) ∧
    walk 3 (_front q) q = [3; 2; 1] ∧ _back q = Some 1 ∧
    ∀ x, is_Some (store q !! x) → x ∉ [3; 2; 1] → store q !! x = Some detached.
Proof.
  apply (request_list_refines [1; 2; 3] [PushBack 1; PushBack 2; PushFront 3; Remove 1; PushBack 1]); [|vm_compute; reflexivity].
  intros o Ho. repeat (apply elem_of_cons in Ho as [->|Ho]; [simpl; set_solver|]). by apply elem_of_nil in Ho.
Defined.
End RequestList.
