(* ===== verification/LockManager.v ===== *)
(** * The lock manager

    Multi-granularity locks (src/mongo/db/concurrency/lock_manager.cpp): lock modes and their
    conflicts, the lock head of a resource with its granted and conflict queues, the partitioned
    lock heads of the intent modes, and the operations of the manager.

    The queues are intrusive lists of requests, so a request is modelled as an element of the list
    it hangs on; [LockRequest::lock] and [LockRequest::partitionedLock] say which list that is.  A
    locker has at most one request per resource (LockerImpl keeps them in a map by resource), so
    a request is named by its resource and its locker.  The hash buckets only spread the heads
    over mutexes: all heads are in one map.  An operation that takes two mutexes one after the
    other is split into the two critical sections. *)
From S2P Require Import Prelude.

Inductive LockMode := MODE_NONE | MODE_IS | MODE_IX | MODE_S | MODE_X.
#[export] Instance LockMode_eq_dec : EqDecision LockMode.
Proof. solve_decision. Defined.
Inductive LockResult := LOCK_OK | LOCK_WAITING | LOCK_TIMEOUT | LOCK_DEADLOCK | LOCK_INVALID.
#[export] Instance LockResult_eq_dec : EqDecision LockResult.
Proof. solve_decision. Defined.
Inductive RequestStatus := STATUS_NEW | STATUS_GRANTED | STATUS_WAITING | STATUS_CONVERTING.
#[export] Instance RequestStatus_eq_dec : EqDecision RequestStatus.
Proof. solve_decision. Defined.

Record LockRequest := mkLockRequest {
  rq_locker : Z; rq_enqueueAtFront : bool; rq_compatibleFirst : bool; rq_partitioned : bool;
  rq_recursiveCount : Z; rq_status : RequestStatus; rq_mode : LockMode; rq_convertMode : LockMode }.
#[export] Instance LockRequest_eta : Eta LockRequest := λ r,
  mkLockRequest (rq_locker r) (rq_enqueueAtFront r) (rq_compatibleFirst r) (rq_partitioned r)
    (rq_recursiveCount r) (rq_status r) (rq_mode r) (rq_convertMode r).

(** The arrays of counts are indexed by the mode. *)
Record LockHead := mkHead {
  grantedList : list LockRequest; grantedCounts : LockMode → Z; grantedModes : Z;
  conflictList : list LockRequest; conflictCounts : LockMode → Z; conflictModes : Z;
  partitions : list Z; conversionsCount : Z; compatibleFirstCount : Z }.
#[export] Instance LockHead_eta : Eta LockHead := λ h,
  mkHead (grantedList h) (grantedCounts h) (grantedModes h) (conflictList h) (conflictCounts h)
    (conflictModes h) (partitions h) (conversionsCount h) (compatibleFirstCount h).

(** [lm_partitions] maps a partition and a resource to the granted list of its partitioned lock
    head; [lm_notified] records the calls of [notify]. *)
Record LockManager := mkManager {
  lm_heads : gmap Z LockHead; lm_partitions : gmap (Z * Z) (list LockRequest);
  lm_notified : list (Z * Z) }.
#[export] Instance LockManager_eta : Eta LockManager := λ s,
  mkManager (lm_heads s) (lm_partitions s) (lm_notified s).

Module Mode.
Definition num (m : LockMode) : Z :=
  match m with MODE_NONE => 0 | MODE_IS => 1 | MODE_IX => 2 | MODE_S => 3 | MODE_X => 4 end.
Definition modeMask (m : LockMode) : Z := Z.shiftl 1 (num m).
Definition LockConflictsTable (m : LockMode) : Z :=
  match m with
  | MODE_NONE => 0
  | MODE_IS => modeMask MODE_X
  | MODE_IX => Z.lor (modeMask MODE_S) (modeMask MODE_X)
  | MODE_S => Z.lor (modeMask MODE_IX) (modeMask MODE_X)
  | MODE_X => Z.lor (Z.lor (Z.lor (modeMask MODE_S) (modeMask MODE_X)) (modeMask MODE_IS))
                    (modeMask MODE_IX)
  end.
Definition intentModes : Z := Z.lor (modeMask MODE_IS) (modeMask MODE_IX).
Definition conflicts (newMode : LockMode) (existingModesMask : Z) : bool :=
  negb (Z.land (LockConflictsTable newMode) existingModesMask =? 0).
(** Every mode that conflicts with [mode] conflicts with [coveringMode]. *)
Definition isModeCovered (mode coveringMode : LockMode) : bool :=
  Z.lor (LockConflictsTable coveringMode) (LockConflictsTable mode) =? LockConflictsTable coveringMode.
Definition eqb (a b : LockMode) : bool := bool_decide (a = b).
Definition upd (m : LockMode) (v : Z) (f : LockMode → Z) : LockMode → Z :=
  λ m', if eqb m m' then v else f m'.
(** The modes that can be granted. *)
Definition real : list LockMode := [MODE_IS; MODE_IX; MODE_S; MODE_X].
Definition is_intent (m : LockMode) : bool := eqb m MODE_IX || eqb m MODE_IS.
(** There are modes other than the intent modes in the mask. *)
Definition beyond_intent (mask : Z) : bool := negb (Z.land mask (Z.lnot intentModes) =? 0).
End Mode.
Import Mode.

(** ** One resource *)
Module Head.
Abbreviation HM := (M LockHead).
Implicit Types h : LockHead.

Definition initNew : LockHead := mkHead [] (λ _, 0) 0 [] (λ _, 0) 0 [] 0 0.
Definition partitioned h : bool := negb (bool_decide (partitions h = [])).
Definition has_status (st : RequestStatus) (r : LockRequest) : bool := bool_decide (rq_status r = st).
Definition by_locker (l : Z) (r : LockRequest) : bool := rq_locker r =? l.
Definition findRequest (lockerId : Z) h : option LockRequest :=
  match find (by_locker lockerId) (grantedList h) with
  | Some r => Some r
  | None => find (by_locker lockerId) (conflictList h)
  end.
(** [LockRequestList::remove], and a write to the request of a locker. *)
Definition unlink (l : Z) (rs : list LockRequest) : list LockRequest :=
  List.filter (λ r, negb (by_locker l r)) rs.
Definition write_request (l : Z) (f : LockRequest → LockRequest) (rs : list LockRequest) : list LockRequest :=
  (λ r, if by_locker l r then f r else r) <$> rs.

Definition incGrantedModeCount (mode : LockMode) : HM () :=
  invariant 234 (λ h, 0 <=? grantedCounts h mode) ;;
  modify (λ h, h <| grantedCounts := upd mode (u32 (grantedCounts h mode + 1)) (grantedCounts h) |>) ;;
  h ← gets id;
  if grantedCounts h mode =? 1 then
    invariant 236 (λ h, Z.land (grantedModes h) (modeMask mode) =? 0) ;;
    modify (λ h, h <| grantedModes := Z.lor (grantedModes h) (modeMask mode) |>)
  else mret tt.
Definition decGrantedModeCount (mode : LockMode) : HM () :=
  invariant 242 (λ h, 1 <=? grantedCounts h mode) ;;
  modify (λ h, h <| grantedCounts := upd mode (u32 (grantedCounts h mode - 1)) (grantedCounts h) |>) ;;
  h ← gets id;
  if grantedCounts h mode =? 0 then
    invariant 244 (λ h, Z.land (grantedModes h) (modeMask mode) =? modeMask mode) ;;
    modify (λ h, h <| grantedModes := Z.land (grantedModes h) (Z.lnot (modeMask mode)) |>)
  else mret tt.
Definition incConflictModeCount (mode : LockMode) : HM () :=
  invariant 251 (λ h, 0 <=? conflictCounts h mode) ;;
  modify (λ h, h <| conflictCounts := upd mode (u32 (conflictCounts h mode + 1)) (conflictCounts h) |>) ;;
  h ← gets id;
  if conflictCounts h mode =? 1 then
    invariant 253 (λ h, Z.land (conflictModes h) (modeMask mode) =? 0) ;;
    modify (λ h, h <| conflictModes := Z.lor (conflictModes h) (modeMask mode) |>)
  else mret tt.
Definition decConflictModeCount (mode : LockMode) : HM () :=
  invariant 259 (λ h, 1 <=? conflictCounts h mode) ;;
  modify (λ h, h <| conflictCounts := upd mode (u32 (conflictCounts h mode - 1)) (conflictCounts h) |>) ;;
  h ← gets id;
  if conflictCounts h mode =? 0 then
    invariant 261 (λ h, Z.land (conflictModes h) (modeMask mode) =? modeMask mode) ;;
    modify (λ h, h <| conflictModes := Z.land (conflictModes h) (Z.lnot (modeMask mode)) |>)
  else mret tt.

Definition newRequest (request : LockRequest) : HM LockResult :=
  h ← gets id;
  if conflicts (rq_mode request) (grantedModes h) ||
     ((compatibleFirstCount h =? 0) && conflicts (rq_mode request) (conflictModes h)) then
    let request := request <| rq_status := STATUS_WAITING |> in
    (if rq_enqueueAtFront request
     then modify (λ h, h <| conflictList := request :: conflictList h |>)
     else modify (λ h, h <| conflictList := conflictList h ++ [request] |>)) ;;
    incConflictModeCount (rq_mode request) ;;
    mret LOCK_WAITING
  else
    let request := request <| rq_status := STATUS_GRANTED |> in
    modify (λ h, h <| grantedList := grantedList h ++ [request] |>) ;;
    incGrantedModeCount (rq_mode request) ;;
    (if rq_compatibleFirst request
     then modify (λ h, h <| compatibleFirstCount := u32 (compatibleFirstCount h + 1) |>)
     else mret tt) ;;
    mret LOCK_OK.

(** The modes granted or awaited by others than a request that accounts for [own] of them. *)
Definition modes_without (own : LockMode → Z) h : Z :=
  foldl (λ mask i, if own i <? grantedCounts h i then Z.lor mask (modeMask i) else mask) 0 real.
Definition holds_one (mode : LockMode) (i : LockMode) : Z := if eqb mode i then 1 else 0.

(** *** [_onLockModeChanged] *)

(** One turn of the loop over the granted queue: the locker that is notified, if any. *)
Definition try_conversion (i : nat) : HM (option Z) :=
  h ← gets id;
  match grantedList h !! i with
  | None => mret None
  | Some iter =>
      if (0 <? conversionsCount h) && has_status STATUS_CONVERTING iter then
        invariant 699 (λ _, negb (eqb (rq_convertMode iter) MODE_NONE)) ;;
        let own := λ m, holds_one (rq_mode iter) m + holds_one (rq_convertMode iter) m in
        invariant 715 (λ _, forallb (λ m, own m <=? 1) real) ;;
        if negb (conflicts (rq_convertMode iter) (modes_without own h)) then
          modify (λ h, h <| conversionsCount := u32 (conversionsCount h - 1) |>) ;;
          decGrantedModeCount (rq_mode iter) ;;
          modify (λ h, h <| grantedList :=
            <[i := iter <| rq_status := STATUS_GRANTED |> <| rq_mode := rq_convertMode iter |>
                        <| rq_convertMode := MODE_NONE |>]> (grantedList h) |>) ;;
          mret (Some (rq_locker iter))
        else mret None
      else mret None
  end.
Definition grant_conversions : HM (list Z) :=
  h ← gets id;
  mfoldl (λ notified i,
    n ← try_conversion i; mret (notified ++ option_list n)) [] (seq 0 (length (grantedList h))).

(** The loop over the conflict queue, from position [pos]: [pos] is 0 exactly when the request
    there has no previous one. *)
Fixpoint grant_waiting (fuel pos : nat) (newlyCompatibleFirst : bool) (notified : list Z)
    : HM (list Z) :=
  match fuel with
  | O => mret notified
  | S fuel =>
      h ← gets id;
      match conflictList h !! pos with
      | None => mret notified
      | Some iter =>
          invariant 755 (λ _, has_status STATUS_WAITING iter) ;;
          if conflicts (rq_mode iter) (grantedModes h) then
            if bool_decide (pos = 0%nat) && negb newlyCompatibleFirst then mret notified
            else grant_waiting fuel (S pos) newlyCompatibleFirst notified
          else
            let granted := iter <| rq_status := STATUS_GRANTED |> in
            modify (λ h, h <| conflictList := take pos (conflictList h) ++ drop (S pos) (conflictList h) |>) ;;
            decConflictModeCount (rq_mode granted) ;;
            modify (λ h, h <| grantedList := grantedList h ++ [granted] |>) ;;
            incGrantedModeCount (rq_mode granted) ;;
            newly ← (if rq_compatibleFirst granted then
                       h ← gets id;
                       modify (λ h, h <| compatibleFirstCount := u32 (compatibleFirstCount h + 1) |>) ;;
                       mret (newlyCompatibleFirst || (compatibleFirstCount h =? 0))
                     else mret newlyCompatibleFirst);
            if eqb (rq_mode granted) MODE_X then mret (notified ++ [rq_locker granted])
            else grant_waiting fuel pos newly (notified ++ [rq_locker granted])
      end
  end.
Definition is_empty {A} (l : list A) : bool := bool_decide (length l = 0%nat).
Definition _onLockModeChanged (checkConflictQueue : bool) : HM (list Z) :=
  converted ← grant_conversions;
  h ← gets id;
  granted ← (if checkConflictQueue then grant_waiting (length (conflictList h)) 0 false [] else mret []);
  invariant 797 (λ h, xorb (grantedModes h =? 0) (negb (is_empty (grantedList h)))) ;;
  invariant 798 (λ h, xorb (conflictModes h =? 0) (negb (is_empty (conflictList h)))) ;;
  mret (converted ++ granted).

(** *** The critical sections of the operations on one head *)
Definition convert_head (locker : Z) (newMode : LockMode) : HM LockResult :=
  h ← gets id;
  match findRequest locker h with
  | None => λ _, Abort 507
  | Some request =>
      if conflicts newMode (modes_without (holds_one (rq_mode request)) h) then
        modify (λ h, h <| grantedList := write_request locker (λ r,
          r <| rq_status := STATUS_CONVERTING |> <| rq_convertMode := newMode |>) (grantedList h) |>) ;;
        modify (λ h, h <| conversionsCount := u32 (conversionsCount h + 1) |>) ;;
        incGrantedModeCount newMode ;;
        mret LOCK_WAITING
      else
        incGrantedModeCount newMode ;;
        decGrantedModeCount (rq_mode request) ;;
        modify (λ h, h <| grantedList := write_request locker (λ r,
          r <| rq_mode := newMode |>) (grantedList h) |>) ;;
        mret LOCK_OK
  end.

(** The three ways to give a request up; each returns the lockers to notify. *)
Definition release_granted (request : LockRequest) : HM (list Z) :=
  modify (λ h, h <| grantedList := unlink (rq_locker request) (grantedList h) |>) ;;
  decGrantedModeCount (rq_mode request) ;;
  (if rq_compatibleFirst request then
     invariant 595 (λ h, 0 <? compatibleFirstCount h) ;;
     modify (λ h, h <| compatibleFirstCount := u32 (compatibleFirstCount h - 1) |>) ;;
     invariant 597 (λ h, (compatibleFirstCount h =? 0) || negb (is_empty (grantedList h)))
   else mret tt) ;;
  h ← gets id;
  _onLockModeChanged (grantedCounts h (rq_mode request) =? 0).
Definition cancel_waiting (request : LockRequest) : HM (list Z) :=
  invariant 603 (λ _, rq_recursiveCount request =? 0) ;;
  modify (λ h, h <| conflictList := unlink (rq_locker request) (conflictList h) |>) ;;
  decConflictModeCount (rq_mode request) ;;
  _onLockModeChanged true.
Definition cancel_conversion (request : LockRequest) : HM (list Z) :=
  invariant 611 (λ _, 0 <? rq_recursiveCount request) ;;
  invariant 612 (λ h, 0 <? conversionsCount h) ;;
  modify (λ h, h <| conversionsCount := u32 (conversionsCount h - 1) |>) ;;
  decGrantedModeCount (rq_convertMode request) ;;
  modify (λ h, h <| grantedList := write_request (rq_locker request) (λ r,
    r <| rq_status := STATUS_GRANTED |> <| rq_convertMode := MODE_NONE |>) (grantedList h) |>) ;;
  h ← gets id;
  _onLockModeChanged (grantedCounts h MODE_NONE =? 0).
(** Whether the request is gone, and the lockers to notify. *)
Definition unlock_head (locker : Z) : HM (bool * list Z) :=
  h ← gets id;
  match findRequest locker h with
  | None => λ _, Abort 579
  | Some request =>
      notified ← (match rq_status request with
                  | STATUS_GRANTED => release_granted request
                  | STATUS_WAITING => cancel_waiting request
                  | STATUS_CONVERTING => cancel_conversion request
                  | STATUS_NEW => λ _, Abort 626
                  end : HM (list Z));
      mret (rq_recursiveCount request =? 0, notified)
  end.

Definition downgrade_head (locker : Z) (newMode : LockMode) : HM (list Z) :=
  h ← gets id;
  match findRequest locker h with
  | None => λ _, Abort 633
  | Some request =>
      invariant 634 (λ _, has_status STATUS_GRANTED request) ;;
      invariant 635 (λ _, 0 <? rq_recursiveCount request) ;;
      invariant 639 (λ _, isModeCovered newMode (rq_mode request)) ;;
      incGrantedModeCount newMode ;;
      decGrantedModeCount (rq_mode request) ;;
      modify (λ h, h <| grantedList := write_request locker (λ r,
        r <| rq_mode := newMode |>) (grantedList h) |>) ;;
      _onLockModeChanged true
  end.
End Head.
Import Head.

(** ** The manager *)
Module Manager.
Abbreviation LM := (M LockManager).
Implicit Types s : LockManager.

Definition empty : LockManager := mkManager ∅ ∅ [].
(** [LockRequest::initNew] *)
Definition request_initNew (locker : Z) : LockRequest :=
  mkLockRequest locker false false false 1 STATUS_NEW MODE_NONE MODE_NONE.
Definition _numLockBuckets : Z := 128.
Definition _numPartitions : Z := 32.
Definition _getPartition (locker : Z) : Z := locker mod _numPartitions.
Definition _getBucket (resId : Z) : Z := resId mod _numLockBuckets.

(** Code that works on the head of [resId]; [line] is where a missing head would be noticed. *)
Definition on_head {A} (line resId : Z) (m : HM A) : LM A := λ s,
  match lm_heads s !! resId with
  | None => Abort line
  | Some h =>
      match m h with
      | Ret (a, h') => Ret (a, s <| lm_heads := <[resId := h']> (lm_heads s) |>)
      | Abort l => Abort l
      end
  end.
Definition notify (resId : Z) (lockers : list Z) : LM () :=
  modify (λ s, s <| lm_notified := lm_notified s ++ ((λ l, (resId, l)) <$> lockers) |>).
Definition findOrInsert (resId : Z) : LM () :=
  modify (λ s, match lm_heads s !! resId with
               | Some _ => s
               | None => s <| lm_heads := <[resId := initNew]> (lm_heads s) |>
               end).

(** *** Partitioned lock heads *)
Definition partition_findOrInsert (p resId : Z) : LM () :=
  modify (λ s, match lm_partitions s !! (p, resId) with
               | Some _ => s
               | None => s <| lm_partitions := <[(p, resId) := []]> (lm_partitions s) |>
               end).
Definition partitioned_newRequest (p resId : Z) (request : LockRequest) : LM () :=
  invariant 352 (λ _, rq_partitioned request) ;;
  modify (λ s, s <| lm_partitions :=
    alter (λ l, l ++ [request <| rq_status := STATUS_GRANTED |>]) (p, resId) (lm_partitions s) |>).
Definition migrate_partition (resId p : Z) : LM () :=
  s ← gets id;
  match lm_partitions s !! (p, resId) with
  | None => mret tt
  | Some requests =>
      mfoldl (λ (_ : ()) request,
        res ← on_head 387 resId (newRequest request);
        invariant 388 (λ _, bool_decide (res = LOCK_OK))) tt requests ;;
      modify (λ s, s <| lm_partitions := delete (p, resId) (lm_partitions s) |>)
  end ;;
  on_head 395 resId (modify (λ h, h <| partitions := removelast (partitions h) |>)).
Definition migratePartitionedLockHeads (resId : Z) : LM () :=
  on_head 367 resId (invariant 367 partitioned) ;;
  on_head 370 resId (invariant 370 (λ h, negb (beyond_intent (grantedModes h)) && (conflictModes h =? 0))) ;;
  ps ← on_head 373 resId (gets partitions);
  mfoldl (λ (_ : ()) p, migrate_partition resId p) tt (rev ps).
Definition migrate_if_partitioned (resId : Z) : LM () :=
  p ← on_head 470 resId (gets partitioned);
  if (p : bool) then migratePartitionedLockHeads resId else mret tt.

(** *** Requests by resource and locker *)
Definition find_partitioned (resId locker : Z) s : option LockRequest :=
  lm_partitions s !! (_getPartition locker, resId) ≫= find (by_locker locker).
Definition find_request (resId locker : Z) s : option LockRequest :=
  match find_partitioned resId locker s with
  | Some r => Some r
  | None => lm_heads s !! resId ≫= findRequest locker
  end.
Definition set_request (resId locker : Z) (f : LockRequest → LockRequest) : LM () :=
  modify (λ s, s
    <| lm_partitions := alter (write_request locker f) (_getPartition locker, resId) (lm_partitions s) |>
    <| lm_heads := alter (λ h, h <| grantedList := write_request locker f (grantedList h) |>
                                 <| conflictList := write_request locker f (conflictList h) |>)
                         resId (lm_heads s) |>).
Definition the_request (line resId locker : Z) s : outcome LockRequest :=
  match find_request resId locker s with Some r => Ret r | None => Abort line end.

(** *** Operations *)

(** Up to the release of the partition's mutex: done, or the request goes on to its bucket. *)
Definition lock_begin (resId : Z) (request : LockRequest) (mode : LockMode) : LM (LockResult + LockRequest) :=
  invariant 429 (λ _, has_status STATUS_NEW request) ;;
  invariant 430 (λ _, rq_recursiveCount request =? 1) ;;
  let request := request <| rq_partitioned := is_intent mode |> <| rq_mode := mode |> in
  s ← gets id;
  let p := _getPartition (rq_locker request) in
  if rq_partitioned request && bool_decide (is_Some (lm_partitions s !! (p, resId))) then
    partitioned_newRequest p resId request ;;
    mret (inl LOCK_OK)
  else mret (inr request).
Definition lock_finish (resId : Z) (request : LockRequest) : LM LockResult :=
  findOrInsert resId ;;
  h ← on_head 456 resId (gets id);
  let p := _getPartition (rq_locker request) in
  if rq_partitioned request && negb (beyond_intent (grantedModes h)) && (conflictModes h =? 0) then
    partition_findOrInsert p resId ;;
    on_head 464 resId (modify (λ h, h <| partitions := partitions h ++ [p] |>)) ;;
    partitioned_newRequest p resId request ;;
    mret LOCK_OK
  else
    migrate_if_partitioned resId ;;
    on_head 475 resId (newRequest (request <| rq_partitioned := false |>)).
Definition lock (resId : Z) (request : LockRequest) (mode : LockMode) : LM LockResult :=
  r ← lock_begin resId request mode;
  match r with
  | inl res => mret res
  | inr request => lock_finish resId request
  end.

Definition convert (resId locker : Z) (newMode : LockMode) : LM LockResult :=
  request ← reads (the_request 481 resId locker);
  invariant 481 (λ _, has_status STATUS_GRANTED request) ;;
  invariant 482 (λ _, 0 <? rq_recursiveCount request) ;;
  set_request resId locker (λ r, r <| rq_recursiveCount := u32 (rq_recursiveCount r + 1) |>) ;;
  if isModeCovered newMode (rq_mode request) then mret LOCK_OK
  else
    invariant 498 (λ _, isModeCovered (rq_mode request) newMode) ;;
    invariant 505 (λ s, bool_decide (is_Some (lm_heads s !! resId))) ;;
    migrate_if_partitioned resId ;;
    on_head 507 resId (convert_head locker newMode).

(** Up to the release of the partition's mutex: the answer, or [None] to go on to the bucket. *)
Definition unlock_begin (resId locker : Z) : LM (option bool) :=
  request ← reads (the_request 557 resId locker);
  invariant 557 (λ _, 0 <? rq_recursiveCount request) ;;
  let count := rq_recursiveCount request - 1 in
  set_request resId locker (λ r, r <| rq_recursiveCount := count |>) ;;
  if has_status STATUS_GRANTED request && (0 <? count) then mret (Some false)
  else if rq_partitioned request then
    invariant 567 (λ _, has_status STATUS_GRANTED request || has_status STATUS_CONVERTING request) ;;
    s ← gets id;
    match find_partitioned resId locker s with
    | Some _ =>
        modify (λ s, s <| lm_partitions :=
          alter (unlink locker) (_getPartition locker, resId) (lm_partitions s) |>) ;;
        mret (Some true)
    | None => mret None
    end
  else mret None.
Definition unlock_finish (resId locker : Z) : LM bool :=
  r ← on_head 579 resId (unlock_head locker);
  let '(gone, lockers) := r in
  notify resId lockers ;;
  mret gone.
Definition unlock (resId locker : Z) : LM bool :=
  r ← unlock_begin resId locker;
  match r with
  | Some res => mret res
  | None => unlock_finish resId locker
  end.
Definition downgrade (resId locker : Z) (newMode : LockMode) : LM () :=
  notified ← on_head 633 resId (downgrade_head locker newMode);
  notify resId notified.

Definition cleanup_resource (resId : Z) : LM () :=
  migrate_if_partitioned resId ;;
  h ← on_head 666 resId (gets id);
  if grantedModes h =? 0 then
    invariant 674 (λ _, is_empty (grantedList h)) ;;
    invariant 676 (λ _, conflictModes h =? 0) ;;
    invariant 677 (λ _, is_empty (conflictList h)) ;;
    invariant 679 (λ _, conversionsCount h =? 0) ;;
    invariant 680 (λ _, compatibleFirstCount h =? 0) ;;
    modify (λ s, s <| lm_heads := delete resId (lm_heads s) |>)
  else mret tt.
Definition _cleanupUnusedLocksInBucket (bucket : Z) : LM () :=
  s ← gets id;
  mfoldl (λ (_ : ()) resId, cleanup_resource resId) tt
    (filter (λ resId, _getBucket resId = bucket) (elements (dom (lm_heads s) : gset Z))).
Definition cleanupUnusedLocks : LM () :=
  mfoldl (λ (_ : ()) i, _cleanupUnusedLocksInBucket i) tt (seqZ 0 _numLockBuckets).
End Manager.
