(* ===== verification/LockHeadInv.v ===== *)
(** * The invariant of a lock head

    The masks and counts of a lock head agree with its queues, the granted requests are compatible
    with one another ([HCore]), and nobody waits who need not ([HLive]).  LockHeadOps shows that every
    critical section of the manager on one head keeps both. *)
From S2P Require Import Prelude LockManager.
Import Mode Head.

(** ** Masks of modes *)
Definition all_modes : list LockMode := MODE_NONE :: real.
Definition mask_of (f : LockMode → bool) : Z :=
  foldr (λ m mask, if f m then Z.lor (modeMask m) mask else mask) 0 all_modes.
(** Mode [a] conflicts with mode [b]. *)
Definition clash (a b : LockMode) : bool := conflicts a (modeMask b).

Ltac by_modes f :=
  unfold mask_of, all_modes, real; cbn [foldr app];
  destruct (f MODE_NONE), (f MODE_IS), (f MODE_IX), (f MODE_S), (f MODE_X); try reflexivity.
Lemma all_modes_in m : m ∈ all_modes.
Proof. destruct m; unfold all_modes, real; set_solver. Qed.
Lemma mask_ext f g : (∀ m, f m = g m) → mask_of f = mask_of g.
Proof. intros H. unfold mask_of. cbn [foldr all_modes real]. by rewrite !H. Qed.
Lemma conflicts_mask a f : conflicts a (mask_of f) = existsb (λ b, f b && clash a b) all_modes.
Proof. destruct a; cbn [existsb all_modes real]; by_modes f. Qed.
Lemma mask_set f m : Z.lor (mask_of f) (modeMask m) = mask_of (λ m', eqb m m' || f m').
Proof. destruct m; by_modes f. Qed.
Lemma mask_clear f m : Z.land (mask_of f) (Z.lnot (modeMask m)) = mask_of (λ m', negb (eqb m m') && f m').
Proof. destruct m; by_modes f. Qed.
Lemma mask_bit f m : Z.land (mask_of f) (modeMask m) = if f m then modeMask m else 0.
Proof. destruct m; by_modes f. Qed.
Lemma mask_zero f : (mask_of f =? 0) = forallb (λ m, negb (f m)) all_modes.
Proof. cbn [forallb all_modes real]. by_modes f. Qed.
Lemma mask_beyond_intent f : beyond_intent (mask_of f) = f MODE_NONE || f MODE_S || f MODE_X.
Proof. by_modes f. Qed.
Lemma clash_sym a b : clash a b = clash b a.
Proof. by destruct a, b. Qed.
(** A mode that covers another conflicts with all that the other conflicts with. *)
Lemma covered_clash a b c : isModeCovered a b = true → clash a c = true → clash b c = true.
Proof. by destruct a, b, c. Qed.
Lemma intent_no_clash a b : is_intent a = true → is_intent b = true → clash a b = false.
Proof. by destruct a, b. Qed.
Lemma conflicts_mask_true a f :
  conflicts a (mask_of f) = true ↔ ∃ b, f b = true ∧ clash a b = true.
Proof.
  rewrite conflicts_mask, existsb_exists. setoid_rewrite andb_true_iff. split; [naive_solver|].
  intros (b & Hb). exists b. split; [|done]. apply list_elem_of_In, all_modes_in.
Qed.
Lemma mask_zero_true f : mask_of f = 0 ↔ ∀ m, f m = false.
Proof.
  rewrite <-Z.eqb_eq, mask_zero, forallb_forall. setoid_rewrite negb_true_iff. split; [|naive_solver].
  intros H m. apply H, list_elem_of_In, all_modes_in.
Qed.

(** ** Counts *)
Abbreviation positive c := (λ m, 0 <? c m).
Lemma upd_mask_inc (c : LockMode → Z) m v :
  0 < v → mask_of (positive (upd m v c)) = mask_of (λ m', eqb m m' || positive c m').
Proof. intros Hv. apply mask_ext. intros m'. unfold upd. destruct (eqb m m'); [|done]. simpl. lia. Qed.
Lemma upd_mask_same (c : LockMode → Z) m v :
  (0 <? v) = (0 <? c m) → mask_of (positive (upd m v c)) = mask_of (positive c).
Proof.
  intros Hv. apply mask_ext. intros m'. unfold upd, eqb. case_bool_decide; [by subst|done].
Qed.
Lemma upd_mask_dec (c : LockMode → Z) m :
  mask_of (positive (upd m 0 c)) = mask_of (λ m', negb (eqb m m') && positive c m').
Proof. apply mask_ext. intros m'. unfold upd. by destruct (eqb m m'). Qed.
Lemma upd_same m v c : upd m v c m = v.
Proof. unfold upd, eqb. by rewrite bool_decide_true. Qed.

(** The four counters, with their masks. *)
Definition set_granted (c : LockMode → Z) (h : LockHead) : LockHead :=
  h <| grantedCounts := c |> <| grantedModes := mask_of (positive c) |>.
Definition set_conflict (c : LockMode → Z) (h : LockHead) : LockHead :=
  h <| conflictCounts := c |> <| conflictModes := mask_of (positive c) |>.

Section counters.
Context (m : LockMode) (h : LockHead) (Q : () → LockHead → Prop).

Lemma wp_incGranted :
  grantedModes h = mask_of (positive (grantedCounts h)) → 0 ≤ grantedCounts h m < two32 - 1 →
  Q tt (set_granted (upd m (grantedCounts h m + 1) (grantedCounts h)) h) → wp (incGrantedModeCount m) Q h.
Proof.
  intros Hm Hc HQ. unfold incGrantedModeCount. wp_simpl. split; [lia|]. unfold id.
  cbn [grantedCounts Prelude.update]. rewrite upd_same, u32_small by lia. revert HQ. unfold set_granted.
  destruct (Z.eqb_spec (grantedCounts h m + 1) 1) as [E|E]; intros HQ; wp_simpl; simpl.
  - rewrite Hm, mask_bit, mask_set. replace (0 <? grantedCounts h m) with false by lia. split; [done|].
    by rewrite upd_mask_inc in HQ by lia.
  - rewrite upd_mask_same in HQ by lia. rewrite <-Hm in HQ. by destruct h.
Qed.
Lemma wp_decGranted :
  grantedModes h = mask_of (positive (grantedCounts h)) → 1 ≤ grantedCounts h m < two32 →
  Q tt (set_granted (upd m (grantedCounts h m - 1) (grantedCounts h)) h) → wp (decGrantedModeCount m) Q h.
Proof.
  intros Hm Hc HQ. unfold decGrantedModeCount. wp_simpl. split; [lia|]. unfold id.
  cbn [grantedCounts Prelude.update]. rewrite upd_same, u32_small by lia. revert HQ. unfold set_granted.
  destruct (Z.eqb_spec (grantedCounts h m - 1) 0) as [E|E]; intros HQ; wp_simpl; simpl.
  - rewrite Hm, mask_bit, mask_clear. replace (0 <? grantedCounts h m) with true by lia.
    split; [apply Z.eqb_refl|]. rewrite E in HQ |- *. by rewrite upd_mask_dec in HQ.
  - rewrite upd_mask_same in HQ by lia. rewrite <-Hm in HQ. by destruct h.
Qed.
Lemma wp_incConflict :
  conflictModes h = mask_of (positive (conflictCounts h)) → 0 ≤ conflictCounts h m < two32 - 1 →
  Q tt (set_conflict (upd m (conflictCounts h m + 1) (conflictCounts h)) h) → wp (incConflictModeCount m) Q h.
Proof.
  intros Hm Hc HQ. unfold incConflictModeCount. wp_simpl. split; [lia|]. unfold id.
  cbn [conflictCounts Prelude.update]. rewrite upd_same, u32_small by lia. revert HQ. unfold set_conflict.
  destruct (Z.eqb_spec (conflictCounts h m + 1) 1) as [E|E]; intros HQ; wp_simpl; simpl.
  - rewrite Hm, mask_bit, mask_set. replace (0 <? conflictCounts h m) with false by lia. split; [done|].
    by rewrite upd_mask_inc in HQ by lia.
  - rewrite upd_mask_same in HQ by lia. rewrite <-Hm in HQ. by destruct h.
Qed.
Lemma wp_decConflict :
  conflictModes h = mask_of (positive (conflictCounts h)) → 1 ≤ conflictCounts h m < two32 →
  Q tt (set_conflict (upd m (conflictCounts h m - 1) (conflictCounts h)) h) → wp (decConflictModeCount m) Q h.
Proof.
  intros Hm Hc HQ. unfold decConflictModeCount. wp_simpl. split; [lia|]. unfold id.
  cbn [conflictCounts Prelude.update]. rewrite upd_same, u32_small by lia. revert HQ. unfold set_conflict.
  destruct (Z.eqb_spec (conflictCounts h m - 1) 0) as [E|E]; intros HQ; wp_simpl; simpl.
  - rewrite Hm, mask_bit, mask_clear. replace (0 <? conflictCounts h m) with true by lia.
    split; [apply Z.eqb_refl|]. rewrite E in HQ |- *. by rewrite upd_mask_dec in HQ.
  - rewrite upd_mask_same in HQ by lia. rewrite <-Hm in HQ. by destruct h.
Qed.
End counters.

(** ** Queues of requests by locker *)
Definition b2z (b : bool) : Z := if b then 1 else 0.
Definition lockers (l : list LockRequest) : list Z := rq_locker <$> l.

Lemma by_locker_true k r : by_locker k r = true ↔ rq_locker r = k.
Proof. apply Z.eqb_eq. Qed.
Lemma elem_of_unlink k l r : r ∈ unlink k l ↔ r ∈ l ∧ rq_locker r ≠ k.
Proof.
  unfold unlink. rewrite !list_elem_of_In, List.filter_In, negb_true_iff, <-not_true_iff_false, by_locker_true.
  done.
Qed.
Lemma unlink_fresh k l : k ∉ lockers l → unlink k l = l.
Proof.
  intros Hk. induction l as [|r l IH]; [done|]. unfold lockers in Hk. rewrite fmap_cons, not_elem_of_cons in Hk.
  simpl. destruct (by_locker k r) eqn:E; [apply by_locker_true in E; naive_solver|]. simpl. by rewrite IH by apply Hk.
Qed.
Lemma unlink_perm l r : NoDup (lockers l) → r ∈ l → l ≡ₚ r :: unlink (rq_locker r) l.
Proof.
  induction l as [|r' l IH]; intros Hnd Hin; [by apply elem_of_nil in Hin|].
  unfold lockers in Hnd. rewrite fmap_cons, NoDup_cons in Hnd. destruct Hnd as [Hn Hnd].
  apply elem_of_cons in Hin as [->|Hin]; simpl.
  - unfold by_locker. rewrite Z.eqb_refl. simpl. by rewrite unlink_fresh.
  - destruct (by_locker (rq_locker r) r') eqn:E.
    + apply by_locker_true in E. destruct Hn. rewrite E. by apply list_elem_of_fmap_2.
    + simpl. rewrite (IH Hnd Hin) at 1. apply perm_swap.
Qed.
Lemma lockers_unlink k l : lockers (unlink k l) = List.filter (λ i, negb (i =? k)) (lockers l).
Proof.
  induction l as [|r l IH]; [done|]. simpl. unfold by_locker at 1. rewrite <-IH.
  destruct (rq_locker r =? k); reflexivity.
Qed.
Lemma count_unlink p l r :
  NoDup (lockers l) → r ∈ l → count_if p l = b2z (p r) + count_if p (unlink (rq_locker r) l).
Proof. intros Hnd Hin. by rewrite (count_if_perm p _ _ (unlink_perm l r Hnd Hin)), count_if_cons. Qed.
Lemma write_request_perm f l r :
  NoDup (lockers l) → r ∈ l → write_request (rq_locker r) f l ≡ₚ f r :: unlink (rq_locker r) l.
Proof.
  intros Hnd Hin. unfold write_request. rewrite (unlink_perm l r Hnd Hin) at 1. rewrite fmap_cons.
  unfold by_locker at 1. rewrite Z.eqb_refl. constructor.
  rewrite (list_fmap_ext _ id (unlink _ _)); [by rewrite list_fmap_id|].
  intros i r' Hr'. apply list_elem_of_lookup_2, elem_of_unlink in Hr' as [_ Hne].
  destruct (by_locker (rq_locker r) r') eqn:E; [by apply by_locker_true in E|done].
Qed.
Lemma lockers_write k f l : (∀ r, rq_locker (f r) = rq_locker r) → lockers (write_request k f l) = lockers l.
Proof.
  intros Hf. unfold lockers, write_request. rewrite <-list_fmap_compose. apply list_fmap_ext.
  intros i r _. unfold compose. destruct (by_locker k r); [apply Hf|done].
Qed.
(** In place of the request of [r]'s locker. *)
Lemma insert_write l i r r' :
  NoDup (lockers l) → l !! i = Some r → <[i := r']> l = write_request (rq_locker r) (λ _, r') l.
Proof.
  intros Hnd Hi. apply list_eq. intros j. unfold write_request. rewrite list_lookup_fmap.
  destruct (decide (i = j)) as [<-|Hne].
  - rewrite list_lookup_insert_eq by (by eapply lookup_lt_Some). rewrite Hi. simpl.
    unfold by_locker. by rewrite Z.eqb_refl.
  - rewrite list_lookup_insert_ne by done. destruct (l !! j) as [r''|] eqn:Hj; [|done]. simpl.
    destruct (by_locker (rq_locker r) r'') eqn:E; [|done]. apply by_locker_true in E. destruct Hne.
    eapply (NoDup_lookup _ i j (rq_locker r) Hnd); unfold lockers; rewrite list_lookup_fmap, ?Hi, ?Hj; csimpl; congruence.
Qed.
Lemma write_ext k f g l r :
  NoDup (lockers l) → r ∈ l → rq_locker r = k → f r = g r → write_request k f l = write_request k g l.
Proof.
  intros Hnd Hin <- Hfg. unfold write_request. apply list_fmap_ext. intros i r' Hr'.
  destruct (by_locker (rq_locker r) r') eqn:E; [|done]. apply by_locker_true in E.
  apply list_elem_of_lookup in Hin as [j Hj].
  assert (i = j) as -> by (eapply (NoDup_lookup _ i j (rq_locker r) Hnd); unfold lockers;
    rewrite list_lookup_fmap, ?Hr', ?Hj; csimpl; congruence).
  congruence.
Qed.
Lemma find_by_locker l k r : NoDup (lockers l) → find (by_locker k) l = Some r → r ∈ l ∧ rq_locker r = k.
Proof.
  intros _ Hf. apply find_some in Hf as [Hin Hk]. split; [by apply list_elem_of_In|by apply by_locker_true].
Qed.

(** ** The invariant *)
Implicit Types (h : LockHead) (r : LockRequest).
Definition holds r (m : LockMode) : bool :=
  negb (eqb m MODE_NONE) && (eqb (rq_mode r) m || eqb (rq_convertMode r) m).
Definition granted_ok r : Prop :=
  rq_mode r ≠ MODE_NONE ∧
  match rq_status r with
  | STATUS_GRANTED => rq_convertMode r = MODE_NONE
  | STATUS_CONVERTING => rq_convertMode r ≠ MODE_NONE ∧ rq_convertMode r ≠ rq_mode r ∧
                         isModeCovered (rq_mode r) (rq_convertMode r) = true
  | _ => False
  end.
Definition waiting_ok r : Prop :=
  rq_status r = STATUS_WAITING ∧ rq_mode r ≠ MODE_NONE ∧ rq_convertMode r = MODE_NONE.
(** Some request of [l] other than [k]'s holds or awaits a mode that conflicts with [m]. *)
Definition opposed (k : option Z) (m : LockMode) (l : list LockRequest) : Prop :=
  ∃ r m', r ∈ l ∧ Some (rq_locker r) ≠ k ∧ holds r m' = true ∧ clash m m' = true.

Record HCore h : Prop := mkHCore {
  hc_counts : ∀ m, grantedCounts h m = count_if (λ r, holds r m) (grantedList h);
  hc_mask : grantedModes h = mask_of (positive (grantedCounts h));
  hc_ccounts : ∀ m, conflictCounts h m = count_if (λ r, eqb (rq_mode r) m) (conflictList h);
  hc_cmask : conflictModes h = mask_of (positive (conflictCounts h));
  hc_conversions : conversionsCount h = count_if (has_status STATUS_CONVERTING) (grantedList h);
  hc_compatible_first : compatibleFirstCount h = count_if rq_compatibleFirst (grantedList h);
  hc_granted : Forall granted_ok (grantedList h);
  hc_waiting : Forall waiting_ok (conflictList h);
  hc_compatible : ∀ a b, a ∈ grantedList h → b ∈ grantedList h → rq_locker a ≠ rq_locker b →
    clash (rq_mode a) (rq_mode b) = false;
  hc_unique : NoDup (lockers (grantedList h ++ conflictList h));
  hc_size : vsize (grantedList h) + vsize (conflictList h) < two32 - 1 }.
(** Nobody waits in vain. *)
Record HLive h : Prop := mkHLive {
  hl_converting : ∀ r, r ∈ grantedList h → rq_status r = STATUS_CONVERTING →
    opposed (Some (rq_locker r)) (rq_convertMode r) (grantedList h);
  hl_front : ∀ r l, conflictList h = r :: l →
    rq_enqueueAtFront r = true ∨ opposed None (rq_mode r) (grantedList h);
  hl_stranded : grantedList h = [] → conflictList h = [] }.

(** ** What the masks say *)
Lemma count_if_le_vsize {A} (p : A → bool) l : count_if p l ≤ vsize l.
Proof. unfold count_if, vsize. pose proof (List.filter_length_le p l). lia. Qed.
Lemma count_if_positive {A} (p : A → bool) l : (0 <? count_if p l) = true ↔ ∃ a, a ∈ l ∧ p a = true.
Proof.
  rewrite Z.ltb_lt. split; [apply count_if_pos_inv|]. intros (a & Ha & Hp). by eapply count_if_pos.
Qed.

Section core.
Context (h : LockHead) (HC : HCore h).

Lemma unique_parts : NoDup (lockers (grantedList h)) ∧ NoDup (lockers (conflictList h)) ∧
  ∀ a b, a ∈ grantedList h → b ∈ conflictList h → rq_locker a ≠ rq_locker b.
Proof.
  pose proof (hc_unique h HC) as Hnd. unfold lockers in *. rewrite fmap_app in Hnd.
  apply NoDup_app in Hnd as (Hg & Hd & Hc). split_and!; [done..|]. intros a b Ha Hb He.
  apply (Hd (rq_locker a)); [by apply list_elem_of_fmap_2|]. rewrite He. by apply list_elem_of_fmap_2.
Qed.
Lemma granted_unique : NoDup (lockers (grantedList h)). Proof. apply unique_parts. Qed.
Lemma conflict_unique : NoDup (lockers (conflictList h)). Proof. apply unique_parts. Qed.

Lemma granted_conflicts a : conflicts a (grantedModes h) = true ↔ opposed None a (grantedList h).
Proof.
  rewrite (hc_mask h HC), conflicts_mask_true. split.
  - intros (m & Hm & Hcl). rewrite (hc_counts h HC) in Hm. apply count_if_positive in Hm as (r & Hr & Hh).
    by exists r, m.
  - intros (r & m & Hr & _ & Hh & Hcl). exists m. split; [|done]. rewrite (hc_counts h HC).
    apply count_if_positive. by exists r.
Qed.
Lemma waiting_conflicts a :
  conflicts a (conflictModes h) = true ↔ ∃ r, r ∈ conflictList h ∧ clash a (rq_mode r) = true.
Proof.
  rewrite (hc_cmask h HC), conflicts_mask_true. setoid_rewrite (hc_ccounts h HC).
  setoid_rewrite count_if_positive. unfold eqb. setoid_rewrite bool_decide_eq_true. naive_solver.
Qed.

Lemma modes_without_mask own :
  modes_without own h = mask_of (λ m, negb (eqb m MODE_NONE) && (own m <? grantedCounts h m)).
Proof.
  unfold modes_without, mask_of, all_modes, real. cbn [foldl foldr eqb].
  destruct (own MODE_IS <? _), (own MODE_IX <? _), (own MODE_S <? _), (own MODE_X <? _); reflexivity.
Qed.
Lemma others_conflict a own r :
  r ∈ grantedList h → (∀ m, m ≠ MODE_NONE → own m = b2z (holds r m)) →
  conflicts a (modes_without own h) = true ↔ opposed (Some (rq_locker r)) a (grantedList h).
Proof.
  intros Hr Hown. rewrite modes_without_mask, conflicts_mask_true. split.
  - intros (m & [Hm Hlt]%andb_true_iff & Hcl). unfold eqb in Hm. apply negb_true_iff, bool_decide_eq_false in Hm.
    rewrite (Hown m Hm), (hc_counts h HC), (count_unlink _ _ r granted_unique Hr) in Hlt.
    destruct (count_if_pos_inv (λ r, holds r m) (unlink (rq_locker r) (grantedList h))) as (b & Hb & Hh); [lia|].
    apply elem_of_unlink in Hb as [Hb Hne]. exists b, m. split_and!; [done| |done..]. congruence.
  - intros (b & m & Hb & Hne & Hh & Hcl). exists m. split; [|done].
    assert (m ≠ MODE_NONE) as Hm.
    { unfold holds, eqb in Hh. apply andb_true_iff in Hh as [Hh _]. by apply negb_true_iff, bool_decide_eq_false in Hh. }
    unfold eqb. rewrite bool_decide_false by done. simpl. apply Z.ltb_lt.
    rewrite (Hown m Hm), (hc_counts h HC), (count_unlink _ _ r granted_unique Hr).
    pose proof (count_if_pos (λ r, holds r m) (unlink (rq_locker r) (grantedList h)) b) as Hpos.
    rewrite elem_of_unlink in Hpos. specialize (Hpos ltac:(split; [done|congruence]) Hh). lia.
Qed.
Lemma granted_count_range m : 0 ≤ grantedCounts h m < two32 - 1.
Proof.
  rewrite (hc_counts h HC). pose proof (count_if_nonneg (λ r, holds r m) (grantedList h)).
  pose proof (count_if_le_vsize (λ r, holds r m) (grantedList h)). pose proof (hc_size h HC).
  pose proof (vsize_nonneg (conflictList h)). lia.
Qed.
Lemma conflict_count_range m : 0 ≤ conflictCounts h m < two32 - 1.
Proof.
  rewrite (hc_ccounts h HC). pose proof (count_if_nonneg (λ r, eqb (rq_mode r) m) (conflictList h)).
  pose proof (count_if_le_vsize (λ r, eqb (rq_mode r) m) (conflictList h)). pose proof (hc_size h HC).
  pose proof (vsize_nonneg (grantedList h)). lia.
Qed.
Lemma granted_empty : grantedModes h = 0 ↔ grantedList h = [].
Proof.
  rewrite (hc_mask h HC), mask_zero_true. split.
  - intros H. destruct (grantedList h) as [|r l] eqn:E; [done|].
    pose proof (hc_granted h HC) as Hg. rewrite E in Hg. apply Forall_cons in Hg as [[Hm _] _].
    specialize (H (rq_mode r)). rewrite (hc_counts h HC) in H.
    assert ((0 <? count_if (λ r', holds r' (rq_mode r)) (grantedList h)) = true); [|congruence].
    apply count_if_positive. exists r. rewrite E. split; [left|]. unfold holds, eqb.
    rewrite bool_decide_false by done. by rewrite bool_decide_true.
  - intros E m. rewrite (hc_counts h HC), E. done.
Qed.
Lemma conflict_empty : conflictModes h = 0 ↔ conflictList h = [].
Proof.
  rewrite (hc_cmask h HC), mask_zero_true. split.
  - intros H. destruct (conflictList h) as [|r l] eqn:E; [done|]. specialize (H (rq_mode r)).
    rewrite (hc_ccounts h HC), E, count_if_cons in H. unfold eqb in H. rewrite bool_decide_true in H by done.
    pose proof (count_if_nonneg (λ r0, bool_decide (rq_mode r0 = rq_mode r)) l). lia.
  - intros E m. rewrite (hc_ccounts h HC), E. done.
Qed.
End core.

(** ** The events on a head *)
Section events.
Context (h : LockHead) (HC : HCore h).

Lemma holds_granted r m : rq_mode r ≠ MODE_NONE → rq_convertMode r = MODE_NONE → holds r m = eqb (rq_mode r) m.
Proof.
  intros Hm Hc. unfold holds, eqb. rewrite Hc. destruct (decide (m = MODE_NONE)) as [->|Hne].
  - rewrite bool_decide_true by done. by rewrite bool_decide_false.
  - rewrite (bool_decide_false (m = MODE_NONE)), (bool_decide_false (MODE_NONE = m)) by done.
    by rewrite orb_false_r.
Qed.
Lemma upd_count m v c m' : upd m (c m + v) c m' = c m' + (if eqb m m' then v else 0).
Proof. unfold upd, eqb. case_bool_decide; [by subst|lia]. Qed.

Lemma upd_count_sub m v c m' : upd m (c m - v) c m' = c m' - (if eqb m m' then v else 0).
Proof. unfold upd, eqb. case_bool_decide; [by subst|lia]. Qed.

(** The granted queue with its bookkeeping replaced. *)
Definition with_granted l c conv cf h : LockHead :=
  set_granted c (h <| grantedList := l |> <| conversionsCount := conv |> <| compatibleFirstCount := cf |>).
Definition with_conflict l c h : LockHead := set_conflict c (h <| conflictList := l |>).

Lemma core_with_granted l c conv cf :
  (∀ m, c m = count_if (λ r, holds r m) l) → conv = count_if (has_status STATUS_CONVERTING) l →
  cf = count_if rq_compatibleFirst l → Forall granted_ok l →
  (∀ a b, a ∈ l → b ∈ l → rq_locker a ≠ rq_locker b → clash (rq_mode a) (rq_mode b) = false) →
  NoDup (lockers (l ++ conflictList h)) → vsize l + vsize (conflictList h) < two32 - 1 →
  HCore (with_granted l c conv cf h).
Proof. intros. destruct HC. by constructor. Qed.
Lemma core_with_conflict l c :
  (∀ m, c m = count_if (λ r, eqb (rq_mode r) m) l) → Forall waiting_ok l →
  NoDup (lockers (grantedList h ++ l)) → vsize (grantedList h) + vsize l < two32 - 1 →
  HCore (with_conflict l c h).
Proof. intros. destruct HC. by constructor. Qed.

(** A request is granted. *)
Lemma core_grant r :
  granted_ok r → rq_status r = STATUS_GRANTED → rq_locker r ∉ lockers (grantedList h ++ conflictList h) →
  ¬ opposed None (rq_mode r) (grantedList h) →
  vsize (grantedList h) + vsize (conflictList h) < two32 - 2 →
  HCore (with_granted (grantedList h ++ [r]) (upd (rq_mode r) (grantedCounts h (rq_mode r) + 1) (grantedCounts h))
           (conversionsCount h) (compatibleFirstCount h + b2z (rq_compatibleFirst r)) h).
Proof.
  intros Hok Hst Hfresh Hopp Hsz. pose proof Hok as [Hm Hc]. rewrite Hst in Hc.
  assert (∀ b, b ∈ grantedList h → clash (rq_mode r) (rq_mode b) = false) as Hcomp.
  { intros b Hb. apply not_true_is_false. intros Hcl. apply Hopp. exists b, (rq_mode b).
    split_and!; [done|done| |done]. pose proof (hc_granted h HC) as Hg. rewrite Forall_forall in Hg.
    destruct (Hg b Hb) as [Hmb _]. unfold holds, eqb. rewrite bool_decide_false by done. by rewrite bool_decide_true. }
  apply core_with_granted.
  - intros m. rewrite upd_count, count_if_app, count_if_cons, (hc_counts h HC). rewrite holds_granted by done.
    change (count_if _ []) with 0. destruct (eqb _ _); lia.
  - rewrite count_if_app, count_if_cons, (hc_conversions h HC). unfold has_status at 3. rewrite Hst.
    rewrite bool_decide_false by done. change (count_if _ []) with 0. lia.
  - rewrite count_if_app, count_if_cons, (hc_compatible_first h HC). change (count_if _ []) with 0.
    unfold b2z. lia.
  - apply Forall_app. split; [apply HC|]. by apply Forall_singleton.
  - intros a b [Ha|Ha%list_elem_of_singleton]%elem_of_app [Hb|Hb%list_elem_of_singleton]%elem_of_app Hne; subst; try done.
    + by apply (hc_compatible h HC).
    + rewrite clash_sym. auto.
    + auto.
  - pose proof (hc_unique h HC) as Hnd. unfold lockers in *. rewrite !fmap_app in *.
    rewrite <-app_assoc. apply NoDup_app in Hnd as (Hg & Hd & Hcf). rewrite not_elem_of_app in Hfresh.
    apply NoDup_app. split_and!; [done| |].
    + intros x Hx. simpl. rewrite not_elem_of_cons. split; [|by apply Hd]. intros ->. naive_solver.
    + simpl. apply NoDup_cons. naive_solver.
  - unfold vsize in *. rewrite length_app. simpl. lia.
Qed.

(** A granted request changes its mode or its status. *)
Lemma core_replace r r' c conv :
  r ∈ grantedList h → granted_ok r' → rq_locker r' = rq_locker r →
  rq_compatibleFirst r' = rq_compatibleFirst r →
  (∀ b, b ∈ grantedList h → rq_locker b ≠ rq_locker r → clash (rq_mode r') (rq_mode b) = false) →
  (∀ m, c m = grantedCounts h m - b2z (holds r m) + b2z (holds r' m)) →
  conv = conversionsCount h - b2z (has_status STATUS_CONVERTING r) + b2z (has_status STATUS_CONVERTING r') →
  HCore (with_granted (write_request (rq_locker r) (λ _, r') (grantedList h)) c conv (compatibleFirstCount h) h).
Proof.
  intros Hr Hok Hlk Hcf Hcomp Hc Hconv. pose proof (granted_unique h HC) as Hnd.
  pose proof (write_request_perm (λ _, r') _ r Hnd Hr) as Hw. cbn beta in Hw.
  pose proof (unlink_perm _ r Hnd Hr) as Hu. apply core_with_granted.
  - intros m. rewrite Hc, (hc_counts h HC), (count_if_perm _ _ _ Hw), (count_unlink _ _ r Hnd Hr), count_if_cons.
    unfold b2z. lia.
  - rewrite Hconv, (hc_conversions h HC), (count_if_perm _ _ _ Hw), (count_unlink _ _ r Hnd Hr), count_if_cons.
    unfold b2z. lia.
  - rewrite (hc_compatible_first h HC), (count_if_perm _ _ _ Hw), (count_unlink _ _ r Hnd Hr), count_if_cons, Hcf.
    unfold b2z. lia.
  - rewrite Hw. constructor; [done|]. apply Forall_forall. intros b [Hb _]%elem_of_unlink.
    pose proof (hc_granted h HC) as Hg. rewrite Forall_forall in Hg. auto.
  - intros a b. rewrite Hw. intros [->|[Ha Ha']%elem_of_unlink]%elem_of_cons [->|[Hb Hb']%elem_of_unlink]%elem_of_cons Hne;
      try done.
    + auto.
    + rewrite clash_sym. auto.
    + by apply (hc_compatible h HC).
  - assert (rq_locker <$> write_request (rq_locker r) (λ _, r') (grantedList h) ≡ₚ rq_locker <$> grantedList h) as Hp
      by (by rewrite Hw, fmap_cons, Hlk, <-fmap_cons, <-Hu).
    unfold lockers. rewrite fmap_app, Hp, <-fmap_app. apply HC.
  - pose proof (hc_size h HC) as Hs. apply Permutation_length in Hw, Hu. unfold vsize in *. simpl in *. lia.
Qed.
(** A granted request is released. *)
Lemma core_release r :
  r ∈ grantedList h → rq_status r = STATUS_GRANTED →
  HCore (with_granted (unlink (rq_locker r) (grantedList h))
           (upd (rq_mode r) (grantedCounts h (rq_mode r) - 1) (grantedCounts h))
           (conversionsCount h) (compatibleFirstCount h - b2z (rq_compatibleFirst r)) h).
Proof.
  intros Hr Hst. pose proof (granted_unique h HC) as Hnd. pose proof (unlink_perm _ r Hnd Hr) as Hu.
  pose proof (hc_granted h HC) as Hg. rewrite Forall_forall in Hg. pose proof (Hg r Hr) as [Hm Hc].
  rewrite Hst in Hc.
  assert (∀ b, b ∈ unlink (rq_locker r) (grantedList h) → b ∈ grantedList h) as Hsub
    by (intros b Hb; by apply elem_of_unlink in Hb as [? _]).
  apply core_with_granted.
  - intros m. rewrite upd_count_sub, (hc_counts h HC), (count_unlink _ _ r Hnd Hr), holds_granted by done. unfold b2z. destruct (eqb _ _); lia.
  - rewrite (hc_conversions h HC), (count_unlink _ _ r Hnd Hr). unfold has_status at 1. rewrite Hst.
    rewrite bool_decide_false by done. simpl. lia.
  - rewrite (hc_compatible_first h HC), (count_unlink _ _ r Hnd Hr). lia.
  - apply Forall_forall. auto.
  - intros a b Ha Hb. apply (hc_compatible h HC); auto.
  - pose proof (hc_unique h HC) as Hnd'. unfold lockers in *.
    rewrite fmap_app, Hu, fmap_cons, <-app_comm_cons, <-fmap_app in Hnd'. by apply NoDup_cons in Hnd' as [_ ?].
  - pose proof (hc_size h HC) as Hs. apply Permutation_length in Hu. unfold vsize in *. simpl in *. lia.
Qed.
(** A request joins or leaves the conflict queue. *)
Lemma core_enqueue r l :
  waiting_ok r → rq_locker r ∉ lockers (grantedList h ++ conflictList h) → l ≡ₚ r :: conflictList h →
  vsize (grantedList h) + vsize (conflictList h) < two32 - 2 →
  HCore (with_conflict l (upd (rq_mode r) (conflictCounts h (rq_mode r) + 1) (conflictCounts h)) h).
Proof.
  intros Hok Hfresh Hl Hsz. apply core_with_conflict.
  - intros m. rewrite upd_count, (count_if_perm _ _ _ Hl), count_if_cons, (hc_ccounts h HC). lia.
  - rewrite Hl. constructor; [done|apply HC].
  - unfold lockers. rewrite Hl, <-Permutation_middle, fmap_cons. apply NoDup_cons. split; [done|apply HC].
  - unfold vsize in *. rewrite Hl. simpl. lia.
Qed.
Lemma core_dequeue r l :
  conflictList h ≡ₚ r :: l →
  HCore (with_conflict l (upd (rq_mode r) (conflictCounts h (rq_mode r) - 1) (conflictCounts h)) h).
Proof.
  intros Hl. apply core_with_conflict.
  - intros m. rewrite upd_count_sub, (hc_ccounts h HC), (count_if_perm _ _ _ Hl), count_if_cons. destruct (eqb _ _); lia.
  - pose proof (hc_waiting h HC) as Hx. rewrite Hl in Hx. by apply Forall_cons in Hx as [_ ?].
  - pose proof (hc_unique h HC) as Hx. unfold lockers in *. rewrite Hl, <-Permutation_middle, fmap_cons in Hx.
    by apply NoDup_cons in Hx as [_ ?].
  - pose proof (hc_size h HC) as Hs. unfold vsize in *. rewrite Hl in Hs. simpl in Hs. lia.
Qed.
End events.
