(* ===== verification/LockHeadOps.v ===== *)
(** * The critical sections on a lock head

    Every operation of the manager on one head keeps the invariant of LockHeadInv, does not abort,
    and wakes exactly the requests it grants: [evolve ns h h'] says that the requests of [h'] are
    those of [h], with the ones of the lockers [ns], who were waiting, granted. *)
From S2P Require Import Prelude LockManager LockHeadInv.
Import Mode Head.
Implicit Types (h : LockHead) (r : LockRequest) (ns : list Z).

Definition waits r : bool := has_status STATUS_WAITING r || has_status STATUS_CONVERTING r.
(** A waiting request is granted what it waits for. *)
Definition wake r : LockRequest :=
  match rq_status r with
  | STATUS_WAITING => r <| rq_status := STATUS_GRANTED |>
  | STATUS_CONVERTING => r <| rq_status := STATUS_GRANTED |> <| rq_mode := rq_convertMode r |>
                           <| rq_convertMode := MODE_NONE |>
  | _ => r
  end.
Definition wake_in ns r : LockRequest := if bool_decide (rq_locker r ∈ ns) then wake r else r.
Definition requests h : list LockRequest := grantedList h ++ conflictList h.

Record evolve ns h h' : Prop := mkEvolve {
  ev_requests : requests h' ≡ₚ wake_in ns <$> requests h;
  ev_waited : ∀ k, k ∈ ns → ∃ r, r ∈ requests h ∧ rq_locker r = k ∧ waits r = true;
  ev_granted : ∀ r, r ∈ grantedList h → wake_in ns r ∈ grantedList h';
  ev_conflict : ∀ r, r ∈ conflictList h' → r ∈ conflictList h;
  ev_partitions : partitions h' = partitions h;
  ev_once : NoDup ns }.

Lemma wake_locker r : rq_locker (wake r) = rq_locker r.
Proof. unfold wake. by destruct (rq_status r). Qed.
Lemma wake_in_locker ns r : rq_locker (wake_in ns r) = rq_locker r.
Proof. unfold wake_in. case_bool_decide; [apply wake_locker|done]. Qed.
Lemma wake_waits r : waits (wake r) = false.
Proof. unfold waits, wake, has_status. by destruct r as [? ? ? ? ? [] ? ?]. Qed.
Lemma wake_idle r : waits r = false → wake r = r.
Proof. unfold waits, wake, has_status. by destruct r as [? ? ? ? ? [] ? ?]. Qed.
Lemma wake_in_app ns ns' r : wake_in ns' (wake_in ns r) = wake_in (ns ++ ns') r.
Proof.
  unfold wake_in at 1. rewrite wake_in_locker. unfold wake_in.
  destruct (decide (rq_locker r ∈ ns)), (decide (rq_locker r ∈ ns'));
    rewrite ?(bool_decide_true (rq_locker r ∈ ns)), ?(bool_decide_false (rq_locker r ∈ ns)),
      ?(bool_decide_true (rq_locker r ∈ ns')), ?(bool_decide_false (rq_locker r ∈ ns')) by done;
    [rewrite bool_decide_true by set_solver; by rewrite (wake_idle (wake r)) by apply wake_waits|..];
    [rewrite bool_decide_true by set_solver; done..|rewrite bool_decide_false by set_solver; done].
Qed.
Lemma wake_in_nil r : wake_in [] r = r.
Proof. unfold wake_in. by rewrite bool_decide_false by apply not_elem_of_nil. Qed.
Lemma wake_in_nil_fmap (l : list LockRequest) : wake_in [] <$> l = l.
Proof. rewrite (list_fmap_ext _ id l); [apply list_fmap_id|]. intros; apply wake_in_nil. Qed.
Lemma wake_in_one k l : wake_in [k] <$> l = write_request k wake l.
Proof.
  apply list_fmap_ext. intros i r _. unfold wake_in. destruct (by_locker k r) eqn:E.
  - apply by_locker_true in E. by rewrite bool_decide_true by set_solver.
  - rewrite bool_decide_false; [done|]. intros Hk%list_elem_of_singleton. apply by_locker_true in Hk. congruence.
Qed.
Lemma write_fresh k f l : k ∉ lockers l → write_request k f l = l.
Proof.
  intros Hk. unfold write_request. rewrite (list_fmap_ext _ id l); [by rewrite list_fmap_id|].
  intros i r Hr%list_elem_of_lookup_2. destruct (by_locker k r) eqn:E; [|done].
  apply by_locker_true in E as <-. destruct Hk. by apply list_elem_of_fmap_2.
Qed.

Lemma same_locker l a b : NoDup (lockers l) → a ∈ l → b ∈ l → rq_locker a = rq_locker b → a = b.
Proof.
  intros Hnd Ha Hb He. rewrite (unlink_perm l a Hnd Ha) in Hb.
  apply elem_of_cons in Hb as [->|[_ Hne]%elem_of_unlink]; [done|congruence].
Qed.
Lemma elem_of_write k f l r : r ∈ write_request k f l → (r ∈ l ∧ rq_locker r ≠ k) ∨ ∃ r0, r0 ∈ l ∧ rq_locker r0 = k ∧ r = f r0.
Proof.
  intros (r0 & -> & Hr0)%list_elem_of_fmap. destruct (by_locker k r0) eqn:E.
  - apply by_locker_true in E. right. eauto.
  - left. split; [done|]. intros Hk. apply by_locker_true in Hk. congruence.
Qed.

Lemma evolve_refl h : evolve [] h h.
Proof.
  split; [by rewrite wake_in_nil_fmap| |intros r; by rewrite wake_in_nil|done..|apply NoDup_nil_2].
  intros k Hk. by apply elem_of_nil in Hk.
Qed.
Lemma evolve_trans ns ns' h h' h'' : evolve ns h h' → evolve ns' h' h'' → evolve (ns ++ ns') h h''.
Proof.
  intros [Hr Hw Hg Hc Hp Hn] [Hr' Hw' Hg' Hc' Hp' Hn']. split.
  - rewrite Hr', Hr, <-list_fmap_compose. apply reflexive_eq, list_fmap_ext. intros i r _. apply wake_in_app.
  - intros k [Hk|Hk]%elem_of_app; [auto|]. destruct (Hw' k Hk) as (r' & Hin & Hl & Hwt).
    rewrite Hr in Hin. apply list_elem_of_fmap in Hin as (r & -> & Hin). exists r.
    rewrite wake_in_locker in Hl. split_and!; [done..|]. unfold wake_in in Hwt.
    case_bool_decide; [by rewrite wake_waits in Hwt|done].
  - intros r Hin. rewrite <-wake_in_app. auto.
  - auto.
  - congruence.
  - apply NoDup_app. split_and!; [done| |done]. intros k Hk Hk'. destruct (Hw' k Hk') as (r' & Hin & Hl & Hwt).
    rewrite Hr in Hin. apply list_elem_of_fmap in Hin as (r & -> & Hin). rewrite wake_in_locker in Hl. subst k.
    unfold wake_in in Hwt. by rewrite bool_decide_true, wake_waits in Hwt.
Qed.

(** ** What a change leaves in place *)
Section mono.
Context (h : LockHead) (HC : HCore h).

Lemma holds_mode r : rq_mode r ≠ MODE_NONE → holds r (rq_mode r) = true.
Proof. intros Hm. unfold holds, eqb. rewrite bool_decide_false by done. by rewrite bool_decide_true. Qed.
Lemma holds_convert r : rq_convertMode r ≠ MODE_NONE → holds r (rq_convertMode r) = true.
Proof. intros Hm. unfold holds, eqb. rewrite bool_decide_false by done. by rewrite (bool_decide_true (rq_convertMode r = _)), orb_true_r. Qed.
Lemma holds_cases r m : holds r m = true → m ≠ MODE_NONE ∧ (rq_mode r = m ∨ rq_convertMode r = m).
Proof.
  unfold holds, eqb. intros [Hm H]%andb_true_iff. apply negb_true_iff, bool_decide_eq_false in Hm.
  split; [done|]. apply orb_true_iff in H. by rewrite !bool_decide_eq_true in H.
Qed.
(** A request that holds at least as much opposes at least as much. *)
Lemma wake_holds r m a :
  granted_ok r → holds r m = true → clash a m = true → ∃ m', holds (wake r) m' = true ∧ clash a m' = true.
Proof.
  intros [Hm Hs] Hh Hcl. unfold wake. destruct (rq_status r) eqn:E; try done; [by exists m|].
  destruct Hs as (Hc & _ & Hcov). exists (rq_convertMode r). split.
  - unfold holds, eqb. simpl. rewrite bool_decide_false by done. by rewrite bool_decide_true.
  - apply holds_cases in Hh as [_ [<-|<-]]; [|done]. rewrite clash_sym in Hcl |- *. by eapply covered_clash.
Qed.
Lemma evolve_opposed ns h' k a : evolve ns h h' → opposed k a (grantedList h) → opposed k a (grantedList h').
Proof.
  intros Hev (r & m & Hr & Hk & Hh & Hcl). pose proof (ev_granted _ _ _ Hev r Hr) as Hr'.
  pose proof (hc_granted h HC) as Hok. rewrite Forall_forall in Hok.
  assert (∃ m', holds (wake_in ns r) m' = true ∧ clash a m' = true) as (m' & Hh' & Hcl').
  { unfold wake_in. case_bool_decide; [by eapply wake_holds; eauto|by exists m]. }
  exists (wake_in ns r), m'. by rewrite wake_in_locker.
Qed.
(** Nobody else stands in the way of a mode: it is compatible with what the others hold. *)
Lemma unopposed_compatible k a b :
  ¬ opposed (Some k) a (grantedList h) → b ∈ grantedList h → rq_locker b ≠ k → clash a (rq_mode b) = false.
Proof.
  intros Hno Hb Hk. apply not_true_is_false. intros Hcl. apply Hno. exists b, (rq_mode b).
  pose proof (hc_granted h HC) as Hok. rewrite Forall_forall in Hok. destruct (Hok b Hb) as [Hm _].
  split_and!; [done|congruence|by apply holds_mode|done].
Qed.
End mono.

(** A list of requests by locker, one of them rewritten. *)
Lemma evolve_wake_granted h r c conv cf :
  HCore h → r ∈ grantedList h → waits r = true →
  evolve [rq_locker r] h (with_granted (write_request (rq_locker r) (λ _, wake r) (grantedList h)) c conv cf h).
Proof.
  intros HC Hr Hw. destruct (unique_parts h HC) as (Hg & _ & Hd).
  assert (write_request (rq_locker r) (λ _, wake r) (grantedList h) = wake_in [rq_locker r] <$> grantedList h) as Hl.
  { rewrite wake_in_one. by eapply write_ext. }
  split; unfold requests; simpl; rewrite ?Hl.
  - rewrite fmap_app. rewrite (wake_in_one _ (conflictList h)), write_fresh; [done|].
    intros (r' & He & Hr')%list_elem_of_fmap. by apply (Hd r r').
  - intros k ->%list_elem_of_singleton. exists r. split_and!; [|done..]. apply elem_of_app. by left.
  - intros r' Hr'. by apply list_elem_of_fmap_2.
  - done.
  - done.
  - apply NoDup_singleton.
Qed.

(** ** Granting the conversions *)
Lemma own_holds r m :
  granted_ok r → rq_status r = STATUS_CONVERTING → m ≠ MODE_NONE →
  holds_one (rq_mode r) m + holds_one (rq_convertMode r) m = b2z (holds r m).
Proof.
  intros [_ Hs] Hst Hm. rewrite Hst in Hs. destruct Hs as (_ & Hne & _). unfold holds_one, holds, eqb.
  rewrite (bool_decide_false (m = MODE_NONE)) by done.
  repeat case_bool_decide; simplify_eq/=; try lia; congruence.
Qed.
(** The head once a conversion is granted: the request is woken, its old mode is no longer counted. *)
Definition converted r h : LockHead :=
  with_granted (write_request (rq_locker r) (λ _, wake r) (grantedList h))
    (upd (rq_mode r) (grantedCounts h (rq_mode r) - 1) (grantedCounts h)) (conversionsCount h - 1) (compatibleFirstCount h) h.
Lemma conversion_granted r h :
  HCore h → r ∈ grantedList h → rq_status r = STATUS_CONVERTING → ¬ opposed (Some (rq_locker r)) (rq_convertMode r) (grantedList h) →
  HCore (converted r h) ∧ evolve [rq_locker r] h (converted r h) ∧
  lockers (grantedList (converted r h)) = lockers (grantedList h) ∧ conflictList (converted r h) = conflictList h ∧
  ∀ r', r' ∈ grantedList (converted r h) → rq_status r' = STATUS_CONVERTING → r' ∈ grantedList h ∧
    (rq_locker r' = rq_locker r → opposed (Some (rq_locker r')) (rq_convertMode r') (grantedList (converted r h))).
Proof.
  intros HC Hr Hst Hno. pose proof (hc_granted h HC) as Hok. rewrite Forall_forall in Hok. pose proof (Hok r Hr) as [Hm Hs].
  rewrite Hst in Hs. destruct Hs as (Hcv & Hne & Hcov).
  assert (waits r = true) as Hw by (unfold waits, has_status; rewrite Hst; done).
  assert (rq_locker (wake r) = rq_locker r) as Hlk by apply wake_locker.
  split_and!.
  - apply core_replace; try done.
    + unfold wake. rewrite Hst. by split.
    + unfold wake. by rewrite Hst.
    + intros b Hb Hbk. unfold wake. rewrite Hst. by eapply unopposed_compatible.
    + intros m. rewrite upd_count_sub. unfold wake. rewrite Hst. unfold holds, eqb. simpl.
      repeat case_bool_decide; simplify_eq/=; try lia; congruence.
    + unfold has_status. rewrite Hst. unfold wake. rewrite Hst. simpl. lia.
  - by apply evolve_wake_granted.
  - simpl. rewrite (write_ext _ (λ _, wake r) wake _ r (granted_unique h HC) Hr eq_refl eq_refl). apply lockers_write, wake_locker.
  - done.
  - simpl. intros r' [[Hr' Hk]|(r0 & _ & _ & ->)]%elem_of_write Hst'; [done|].
    exfalso. pose proof (wake_waits r) as Hww. unfold waits, has_status in Hww. by rewrite Hst' in Hww.
Qed.
Lemma wp_try_conversion i r h :
  HCore h → grantedList h !! i = Some r →
  wp (try_conversion i) (λ n h', HCore h' ∧ evolve (option_list n) h h' ∧
    lockers (grantedList h') = lockers (grantedList h) ∧ conflictList h' = conflictList h ∧
    ∀ r', r' ∈ grantedList h' → rq_status r' = STATUS_CONVERTING → r' ∈ grantedList h ∧
      (rq_locker r' = rq_locker r → opposed (Some (rq_locker r')) (rq_convertMode r') (grantedList h'))) h.
Proof.
  intros HC Hi. pose proof (list_elem_of_lookup_2 _ _ _ Hi) as Hr.
  pose proof (hc_granted h HC) as Hok. rewrite Forall_forall in Hok. pose proof (Hok r Hr) as Hokr.
  unfold try_conversion. wp_simpl. unfold id. rewrite Hi.
  destruct ((0 <? conversionsCount h) && has_status STATUS_CONVERTING r) eqn:E.
  - apply andb_true_iff in E as [Hcc Hst]. apply bool_decide_eq_true in Hst.
    pose proof Hokr as [Hm Hs]. rewrite Hst in Hs. destruct Hs as (Hcv & Hne & Hcov).
    wp_simpl. split; [unfold eqb; by rewrite bool_decide_false|]. split.
    { apply forallb_forall. intros m Hm'%list_elem_of_In. rewrite own_holds; [unfold b2z; by destruct (holds r m)|done..|].
      intros ->. unfold real in Hm'. set_solver. }
    pose proof (others_conflict h HC (rq_convertMode r) _ r Hr (λ m, own_holds r m Hokr Hst)) as Hopp.
    destruct (conflicts _ _) eqn:Hcf; simpl.
    + wp_simpl. split_and!; [done|apply evolve_refl|done..|]. intros r' Hr' Hst'. split; [done|].
      intros ->%(same_locker _ _ _ (granted_unique h HC) Hr' Hr). by apply Hopp.
    + assert (¬ opposed (Some (rq_locker r)) (rq_convertMode r) (grantedList h)) as Hno by (intros ?%Hopp; congruence).
      wp_simpl. apply wp_decGranted; simpl.
      { apply HC. }
      { pose proof (granted_count_range h HC (rq_mode r)). rewrite (hc_counts h HC) in *.
        pose proof (count_if_pos (λ r0, holds r0 (rq_mode r)) _ r Hr (holds_mode r Hm)). lia. }
      wp_simpl.
      match goal with |- HCore ?x ∧ _ => replace x with (converted r h) end; [by apply conversion_granted|].
      unfold converted, with_granted, wake. rewrite Hst, <-(insert_write _ i) by (apply granted_unique || done; done).
      simpl. rewrite u32_small; [done|]. pose proof (hc_size h HC). rewrite (hc_conversions h HC) in *.
      pose proof (count_if_le_vsize (has_status STATUS_CONVERTING) (grantedList h)).
      pose proof (vsize_nonneg (conflictList h)). lia.
  - wp_simpl. split_and!; [done|apply evolve_refl|done..|]. intros r' Hr' Hst'. split; [done|].
    intros ->%(same_locker _ _ _ (granted_unique h HC) Hr' Hr). exfalso.
    pose proof (count_if_pos (has_status STATUS_CONVERTING) _ r Hr) as Hpos. unfold has_status in *.
    rewrite Hst' in *. rewrite !bool_decide_true in * by done. specialize (Hpos eq_refl).
    pose proof (hc_conversions h HC) as Hcc. unfold has_status in Hcc. rewrite <-Hcc in Hpos. lia.
Qed.

Lemma wp_grant_conversions h :
  HCore h →
  wp grant_conversions (λ ns h', HCore h' ∧ evolve ns h h' ∧ conflictList h' = conflictList h ∧
    ∀ r, r ∈ grantedList h' → rq_status r = STATUS_CONVERTING →
      opposed (Some (rq_locker r)) (rq_convertMode r) (grantedList h')) h.
Proof.
  intros HC. unfold grant_conversions. wp_simpl. unfold id.
  set (Done := λ (i : nat) h', ∀ r, r ∈ grantedList h' → rq_status r = STATUS_CONVERTING →
    rq_locker r ∈ take i (lockers (grantedList h)) →
    opposed (Some (rq_locker r)) (rq_convertMode r) (grantedList h')).
  set (I := λ i ns h', HCore h' ∧ evolve ns h h' ∧ lockers (grantedList h') = lockers (grantedList h) ∧
    conflictList h' = conflictList h ∧ Done i h').
  assert (∀ n i ns h', (i + n = length (grantedList h))%nat → I i ns h' →
    wp (mfoldl (λ notified i, n ← try_conversion i; mret (notified ++ option_list n)) ns (seq i n))
       (I (length (grantedList h))) h') as Hloop.
  { induction n as [|n IH]; intros i ns h' Hn HI; [by replace (length _) with i by lia|].
    destruct HI as (HC' & Hev & Hl & Hc & HD). cbn [mfoldl seq]. wp_simpl.
    destruct (lookup_lt_is_Some_2 (grantedList h') i) as [r Hr].
    { apply (f_equal length) in Hl. unfold lockers in Hl. rewrite !length_fmap in Hl. lia. }
    eapply wp_mono; [|by apply wp_try_conversion]. intros o h'' (HC'' & Hev' & Hl' & Hc' & Ho). wp_simpl.
    apply IH; [lia|]. split_and!; [done|by eapply evolve_trans|congruence..|].
    intros r' Hr' Hst Hin. destruct (Ho r' Hr' Hst) as [Hold Hnew]. 
    rewrite (take_S_r _ i (rq_locker r)) in Hin.
    2: { rewrite <-Hl. unfold lockers. by rewrite list_lookup_fmap, Hr. }
    apply elem_of_app in Hin as [Hin|Hin%list_elem_of_singleton]; [|auto].
    eapply evolve_opposed; [exact HC'|exact Hev'|]. by apply HD. }
  eapply wp_mono; [|apply (Hloop _ 0%nat []); [done|]].
  - intros ns h' (HC' & Hev & Hl & Hc & HD). split_and!; [done..|]. intros r Hr Hst. apply HD; [done..|].
    rewrite take_ge by (unfold lockers; by rewrite length_fmap). rewrite <-Hl. by apply list_elem_of_fmap_2.
  - split_and!; [done|apply evolve_refl|done..|]. intros r _ _ Hin. by apply elem_of_nil in Hin.
Qed.

(** ** Granting the waiting requests *)
Definition front_opposed h : Prop :=
  ∀ r l, conflictList h = r :: l → opposed None (rq_mode r) (grantedList h).

(** The head after the request at [pos] of the conflict queue has been granted. *)
Definition seat_at (pos : nat) r h : LockHead :=
  let h1 := with_conflict (take pos (conflictList h) ++ drop (S pos) (conflictList h))
              (upd (rq_mode r) (conflictCounts h (rq_mode r) - 1) (conflictCounts h)) h in
  with_granted (grantedList h ++ [wake r]) (upd (rq_mode r) (grantedCounts h (rq_mode r) + 1) (grantedCounts h))
    (conversionsCount h) (compatibleFirstCount h + b2z (rq_compatibleFirst r)) h1.

Section seat.
Context (pos : nat) (r : LockRequest) (h : LockHead) (HC : HCore h) (Hr : conflictList h !! pos = Some r).

Lemma seated_waits : rq_status r = STATUS_WAITING ∧ rq_mode r ≠ MODE_NONE ∧ rq_convertMode r = MODE_NONE.
Proof.
  pose proof (hc_waiting h HC) as Hw. rewrite Forall_forall in Hw. apply Hw. by eapply list_elem_of_lookup_2.
Qed.
Lemma conflict_middle : conflictList h ≡ₚ r :: take pos (conflictList h) ++ drop (S pos) (conflictList h).
Proof. by rewrite Permutation_middle, take_drop_middle. Qed.
Lemma wake_waiting : wake r = r <| rq_status := STATUS_GRANTED |>.
Proof. unfold wake. by rewrite (proj1 seated_waits). Qed.
Lemma seated_fresh :
  rq_locker r ∉ lockers (grantedList h ++ take pos (conflictList h) ++ drop (S pos) (conflictList h)).
Proof.
  pose proof (hc_unique h HC) as Hnd. unfold lockers in *. 
  rewrite conflict_middle, <-Permutation_middle, fmap_cons in Hnd. by apply NoDup_cons in Hnd as [? _].
Qed.
Lemma core_seat : ¬ opposed None (rq_mode r) (grantedList h) → HCore (seat_at pos r h).
Proof.
  intros Hno. pose proof (core_dequeue h HC r _ conflict_middle) as HC1. unfold seat_at.
  destruct seated_waits as (Hst & Hm & Hcv).
  pose proof (core_grant _ HC1 (wake r)) as H. rewrite wake_waiting in *. simpl in H.
  apply H; [by split|done|apply seated_fresh|done|].
  pose proof (hc_size h HC) as Hs. unfold vsize in *. rewrite conflict_middle in Hs. simpl in *. lia.
Qed.
Lemma evolve_seat : evolve [rq_locker r] h (seat_at pos r h).
Proof.
  assert (wake_in [rq_locker r] <$> (grantedList h ++ take pos (conflictList h) ++ drop (S pos) (conflictList h)) =
    grantedList h ++ take pos (conflictList h) ++ drop (S pos) (conflictList h)) as Hid
    by (rewrite wake_in_one; apply write_fresh, seated_fresh).
  assert (wake_in [rq_locker r] r = wake r) as Hwr by (unfold wake_in; by rewrite bool_decide_true by left).
  destruct seated_waits as (Hst & _). split; unfold requests; simpl.
  - assert (grantedList h ++ conflictList h ≡ₚ r :: grantedList h ++ take pos (conflictList h) ++ drop (S pos) (conflictList h))
      as -> by (etrans; [apply Permutation_app_head, conflict_middle|by rewrite <-Permutation_middle]).
    rewrite fmap_cons, Hid, Hwr, <-app_assoc. cbn [app]. by rewrite <-Permutation_middle.
  - intros k ->%list_elem_of_singleton. exists r. split_and!; [|done|by unfold waits, has_status; rewrite Hst].
    apply elem_of_app. right. by eapply list_elem_of_lookup_2.
  - intros r' Hr'. apply elem_of_app. left. unfold wake_in. rewrite bool_decide_false; [done|].
    intros He%list_elem_of_singleton. destruct seated_fresh. rewrite <-He. apply list_elem_of_fmap_2, elem_of_app. by left.
  - intros r' Hr'. rewrite conflict_middle. by right.
  - done.
  - apply NoDup_singleton.
Qed.

(** The body of the loop that grants the request. *)
Lemma wp_seat {A} newly (k : bool → HM A) Q :
  (∀ newly', wp (k newly') Q (seat_at pos r h)) →
  wp (modify (λ h, h <| conflictList := take pos (conflictList h) ++ drop (S pos) (conflictList h) |>) ;;
      decConflictModeCount (rq_mode r) ;;
      modify (λ h, h <| grantedList := grantedList h ++ [r <| rq_status := STATUS_GRANTED |>] |>) ;;
      incGrantedModeCount (rq_mode r) ;;
      newly ← (if rq_compatibleFirst r then
                 h ← gets id;
                 modify (λ h, h <| compatibleFirstCount := u32 (compatibleFirstCount h + 1) |>) ;;
                 mret (newly || (compatibleFirstCount h =? 0))
               else mret newly);
      k newly) Q h.
Proof.
  intros Hk. pose proof (granted_count_range h HC (rq_mode r)) as Hgr.
  pose proof (conflict_count_range h HC (rq_mode r)) as Hcr.
  assert (1 ≤ conflictCounts h (rq_mode r)) as Hc1.
  { rewrite (hc_ccounts h HC).
    pose proof (count_if_pos (λ r0, eqb (rq_mode r0) (rq_mode r)) _ r (list_elem_of_lookup_2 _ _ _ Hr)) as Hp.
    unfold eqb in Hp |- *. rewrite bool_decide_true in Hp by done. specialize (Hp eq_refl). lia. }
  assert (0 ≤ compatibleFirstCount h < two32 - 1) as Hcfr.
  { rewrite (hc_compatible_first h HC). pose proof (hc_size h HC). pose proof (vsize_nonneg (conflictList h)).
    pose proof (count_if_le_vsize rq_compatibleFirst (grantedList h)).
    pose proof (count_if_nonneg rq_compatibleFirst (grantedList h)). lia. }
  wp_simpl. apply wp_decConflict; simpl; [apply HC|lia|]. wp_simpl.
  apply wp_incGranted; simpl; [apply HC|done|]. wp_simpl.
  apply (wp_mono _ (λ _ h', h' = seat_at pos r h)); [by intros newly' h' ->|].
  destruct (rq_compatibleFirst r) eqn:Ecf; wp_simpl; unfold seat_at, with_granted, with_conflict, b2z;
    rewrite wake_waiting; simpl; rewrite !Ecf; [by rewrite u32_small by lia|by rewrite Z.add_0_r].
Qed.
End seat.

Lemma clash_X m : m ≠ MODE_NONE → clash m MODE_X = true.
Proof. by destruct m. Qed.

Lemma wp_grant_waiting fuel pos newly ns h0 h :
  HCore h → evolve ns h0 h → (length (conflictList h) ≤ pos + fuel)%nat →
  ((0 < pos)%nat → conflictList h ≠ [] ∧ front_opposed h) →
  wp (grant_waiting fuel pos newly ns) (λ ns' h', HCore h' ∧ evolve ns' h0 h' ∧ front_opposed h' ∧
    ∀ r, r ∈ grantedList h' → rq_status r = STATUS_CONVERTING → r ∈ grantedList h) h.
Proof.
  revert pos newly ns h. induction fuel as [|fuel IH]; intros pos newly ns h HC Hev Hlen Hpos.
  - cbn [grant_waiting]. wp_simpl. split_and!; [done..| |done]. intros r l Hl. destruct pos as [|pos].
    + rewrite Hl in Hlen. simpl in Hlen. lia.
    + destruct (Hpos ltac:(lia)) as [_ Hf]. by apply (Hf r l).
  - cbn [grant_waiting]. wp_simpl. unfold id. destruct (conflictList h !! pos) as [r|] eqn:Hr.
    2: { wp_simpl. split_and!; [done..| |done]. intros r l Hl. destruct pos as [|pos]; [by rewrite Hl in Hr|].
         destruct (Hpos ltac:(lia)) as [_ Hf]. by apply (Hf r l). }
    destruct (seated_waits pos r h HC Hr) as (Hst & Hm & Hcv).
    wp_simpl. split; [unfold has_status; by rewrite Hst|]. destruct (conflicts (rq_mode r) (grantedModes h)) eqn:Hcf.
    + apply (granted_conflicts h HC) in Hcf.
      assert (conflictList h ≠ [] ∧ front_opposed h) as [Hne Hf].
      { destruct pos as [|pos]; [|apply Hpos; lia]. split; [by intros Hx; rewrite Hx in Hr|].
        intros r' l Hl. rewrite Hl in Hr. simplify_eq/=. done. }
      destruct (bool_decide (pos = 0%nat) && negb newly).
      * wp_simpl. done.
      * apply IH; [done..|lia|done].
    + assert (¬ opposed None (rq_mode r) (grantedList h)) as Hno by (intros ?%(granted_conflicts h HC); congruence).
      apply (wp_seat pos r h HC Hr). intros newly'. pose proof (core_seat pos r h HC Hr Hno) as HC'.
      pose proof (evolve_seat pos r h HC Hr) as Hev'. pose proof (evolve_trans _ _ _ _ _ Hev Hev') as Hev''.
      destruct (eqb _ _) eqn:EX; simpl.
      * apply bool_decide_eq_true in EX. simpl in EX. wp_simpl. split_and!; [done..| |].
        -- intros r' l Hl. exists (wake r), MODE_X.
           assert (waiting_ok r') as (_ & Hm' & _).
           { pose proof (hc_waiting _ HC') as Hx. rewrite Hl in Hx. by apply Forall_cons in Hx as [? _]. }
           split_and!; [apply elem_of_app; right; by left|done| |by apply clash_X].
           rewrite (wake_waiting pos r h HC Hr). unfold holds, eqb. simpl. by rewrite EX.
        -- simpl. intros r' [?|Hx%list_elem_of_singleton]%elem_of_app Hst'; [done|].
           exfalso. subst r'. rewrite (wake_waiting pos r h HC Hr) in Hst'. done.
      * eapply wp_mono; [|apply IH]; [|done..| |].
        -- cbn beta. intros ns' h' (HC2 & Hev2 & Hf2 & Hcv2). split_and!; [done..|]. intros r' Hr' Hst'.
           specialize (Hcv2 r' Hr' Hst'). simpl in Hcv2.
           apply elem_of_app in Hcv2 as [?|Hx%list_elem_of_singleton]; [done|]. exfalso. subst r'.
           rewrite (wake_waiting pos r h HC Hr) in Hst'. done.
        -- simpl. pose proof (Permutation_length (conflict_middle pos r h Hr)) as Hl. simpl in Hl. lia.
        -- intros Hp. destruct (Hpos Hp) as [Hne Hf]. simpl. destruct (conflictList h) as [|r0 l] eqn:El; [done|].
           destruct pos as [|pos]; [lia|]. simpl. split; [done|]. intros r' l' Hl'. simpl in Hl'. rewrite El in Hl'.
           simplify_eq/=. apply (evolve_opposed h HC _ _ _ _ Hev'). exact (Hf _ _ El).
Qed.

(** ** [_onLockModeChanged]

    With [check] off, nobody must have been waiting in vain before. *)
Lemma wp_onLockModeChanged check h :
  HCore h → (check = false → (∀ r l, conflictList h = r :: l →
    rq_enqueueAtFront r = true ∨ opposed None (rq_mode r) (grantedList h)) ∧
    (grantedList h = [] → conflictList h = [])) →
  wp (_onLockModeChanged check) (λ ns h', HCore h' ∧ HLive h' ∧ evolve ns h h') h.
Proof.
  intros HC Hold. unfold _onLockModeChanged. wp_simpl.
  eapply wp_mono; [|by apply wp_grant_conversions]. intros ns h1 (HC1 & Hev1 & Hc1 & Hcv1). wp_simpl. unfold id.
  apply (wp_mono _ (λ ns2 h2, HCore h2 ∧ HLive h2 ∧ evolve ns2 h1 h2)).
  - intros ns2 h2 (HC2 & HL2 & Hev2). wp_simpl. pose proof (granted_empty h2 HC2) as Hg.
    pose proof (conflict_empty h2 HC2) as Hc. unfold is_empty. split_and!.
    + destruct (Z.eqb_spec (grantedModes h2) 0) as [E|E]; [by rewrite (proj1 Hg E)|].
      destruct (grantedList h2); [naive_solver|done].
    + destruct (Z.eqb_spec (conflictModes h2) 0) as [E|E]; [by rewrite (proj1 Hc E)|].
      destruct (conflictList h2); [naive_solver|done].
    + done.
    + done.
    + by eapply evolve_trans.
  - destruct check.
    + eapply wp_mono; [|apply (wp_grant_waiting _ _ _ _ h1)]; [|done|apply evolve_refl|lia|lia].
      intros ns2 h2 (HC2 & Hev2 & Hf2 & Hcv2). split_and!; [done| |done]. split.
      * intros r Hr Hst. eapply evolve_opposed; [exact HC1|done|]. auto.
      * intros r l Hl. right. by eapply Hf2.
      * intros Hg. destruct (conflictList h2) as [|r l] eqn:El; [done|].
        destruct (Hf2 r l El) as (r' & m & Hr' & _). rewrite Hg in Hr'. by apply elem_of_nil in Hr'.
    + wp_simpl. split_and!; [done| |apply evolve_refl]. destruct (Hold eq_refl) as [Hf Hs]. split; [done|..].
      * intros r l Hl. rewrite Hc1 in Hl. destruct (Hf r l Hl) as [?|Ho]; [by left|right].
        exact (evolve_opposed h HC _ _ _ _ Hev1 Ho).
      * intros Hg. rewrite Hc1. apply Hs. destruct (grantedList h) as [|r l] eqn:El; [done|].
        pose proof (ev_granted _ _ _ Hev1 r) as Hx. rewrite El, Hg in Hx. specialize (Hx ltac:(left)).
        by apply elem_of_nil in Hx.
Qed.

(** ** The operations *)
Definition HInv h : Prop := HCore h ∧ HLive h.

(** Opposition under a change of one request. *)
Lemma opposed_app k a l l' : opposed k a l → opposed k a (l ++ l').
Proof. intros (r & m & Hr & H). exists r, m. split; [apply elem_of_app; by left|done]. Qed.
Lemma opposed_replace h r r' k a :
  HCore h → r ∈ grantedList h → rq_locker r' = rq_locker r →
  (∀ m, holds r m = true → clash a m = true → ∃ m', holds r' m' = true ∧ clash a m' = true) →
  opposed k a (grantedList h) → opposed k a (write_request (rq_locker r) (λ _, r') (grantedList h)).
Proof.
  intros HC Hr Hlk Hcov (b & m & Hb & Hk & Hh & Hcl).
  pose proof (write_request_perm (λ _, r') _ r (granted_unique h HC) Hr) as Hw. cbn beta in Hw.
  destruct (decide (rq_locker b = rq_locker r)) as [He|Hne].
  - pose proof (same_locker _ _ _ (granted_unique h HC) Hb Hr He) as ->. destruct (Hcov m Hh Hcl) as (m' & ? & ?).
    exists r', m'. split_and!; [rewrite Hw; left|congruence|done..].
  - exists b, m. split_and!; [rewrite Hw; right; by apply elem_of_unlink|done..].
Qed.

Lemma cf_range h : HCore h → 0 ≤ compatibleFirstCount h < two32 - 1.
Proof.
  intros HC. rewrite (hc_compatible_first h HC). pose proof (hc_size h HC). pose proof (vsize_nonneg (conflictList h)).
  pose proof (count_if_le_vsize rq_compatibleFirst (grantedList h)).
  pose proof (count_if_nonneg rq_compatibleFirst (grantedList h)). lia.
Qed.

(** *** [newRequest] *)
Definition grants r h : Prop :=
  ¬ opposed None (rq_mode r) (grantedList h) ∧
  (0 < compatibleFirstCount h ∨ ∀ b, b ∈ conflictList h → clash (rq_mode r) (rq_mode b) = false).
Definition fresh_request r h : Prop :=
  rq_mode r ≠ MODE_NONE ∧ rq_convertMode r = MODE_NONE ∧ rq_locker r ∉ lockers (requests h) ∧
  vsize (requests h) < two32 - 2.
(** The head with the request granted, or queued. *)
Definition granted_head r h : LockHead :=
  with_granted (grantedList h ++ [r <| rq_status := STATUS_GRANTED |>])
    (upd (rq_mode r) (grantedCounts h (rq_mode r) + 1) (grantedCounts h)) (conversionsCount h)
    (compatibleFirstCount h + b2z (rq_compatibleFirst r)) h.
Definition queued_head r h : LockHead :=
  let r' := r <| rq_status := STATUS_WAITING |> in
  with_conflict (if rq_enqueueAtFront r then r' :: conflictList h else conflictList h ++ [r'])
    (upd (rq_mode r) (conflictCounts h (rq_mode r) + 1) (conflictCounts h)) h.

Lemma newRequest_decides r h :
  HCore h → (conflicts (rq_mode r) (grantedModes h) ||
     ((compatibleFirstCount h =? 0) && conflicts (rq_mode r) (conflictModes h)) = false ↔ grants r h).
Proof.
  intros HC. unfold grants. rewrite <-(granted_conflicts h HC), not_true_iff_false, orb_false_iff.
  apply and_iff_compat_l. pose proof (cf_range h HC). pose proof (waiting_conflicts h HC (rq_mode r)) as Hw.
  destruct (Z.eqb_spec (compatibleFirstCount h) 0) as [E|E]; simpl.
  - rewrite <-not_true_iff_false, Hw. split.
    + intros Hn. right. intros b Hb. apply not_true_is_false. eauto.
    + intros [?|Hn]; [lia|]. intros (b & Hb & Hcl). rewrite Hn in Hcl; done.
  - split; [intros _; left; lia|done].
Qed.
Lemma opposed_or_not h a : HCore h → opposed None a (grantedList h) ∨ ¬ opposed None a (grantedList h).
Proof.
  intros HC. rewrite <-(granted_conflicts h HC). destruct (conflicts a (grantedModes h)); [by left|by right].
Qed.

Section new_request.
Context (r : LockRequest) (h : LockHead) (HI : HInv h) (Hf : fresh_request r h).

Lemma granted_head_inv : grants r h → HInv (granted_head r h).
Proof.
  intros [Hno _]. pose proof HI as [HC HL]. pose proof Hf as (Hm & Hcv & Hfr & Hsz). split.
  - pose proof (core_grant h HC (r <| rq_status := STATUS_GRANTED |>)) as H. simpl in H.
    apply H; [by split|done..|]. unfold requests, vsize in *. rewrite length_app in Hsz. lia.
  - split; simpl.
    + intros b [Hb|Hb%list_elem_of_singleton]%elem_of_app Hst; [|by subst].
      apply opposed_app. by apply (hl_converting h HL).
    + intros b l Hl. destruct (hl_front h HL b l Hl) as [?|?]; [by left|right]. by apply opposed_app.
    + intros Hx. by destruct (grantedList h).
Qed.
Lemma queued_head_inv : ¬ grants r h → HInv (queued_head r h).
Proof.
  intros Hno. pose proof HI as [HC HL]. pose proof Hf as (Hm & Hcv & Hfr & Hsz).
  assert (conflictList h = [] → opposed None (rq_mode r) (grantedList h)) as Hopp.
  { intros Hc. destruct (opposed_or_not h (rq_mode r) HC) as [?|Hn]; [done|]. destruct Hno. split; [done|].
    right. rewrite Hc. intros b Hb. by apply elem_of_nil in Hb. }
  split.
  - pose proof (core_enqueue h HC (r <| rq_status := STATUS_WAITING |>)) as H. simpl in H.
    apply H; [done|done| |unfold requests, vsize in *; rewrite length_app in Hsz; lia].
    simpl. destruct (rq_enqueueAtFront r); simpl; [done|]. by rewrite Permutation_app_comm.
  - split; simpl.
    + apply (hl_converting h HL).
    + intros b l Hl. destruct (rq_enqueueAtFront r) eqn:E; [simplify_eq/=; by left|].
      destruct (conflictList h) as [|b' l'] eqn:Ec; simplify_eq/=; [right; by apply Hopp|].
      by apply (hl_front h HL b l').
    + intros Hg. destruct (Hopp (hl_stranded h HL Hg)) as (b & m & Hb & _). rewrite Hg in Hb. by apply elem_of_nil in Hb.
Qed.
Lemma wp_newRequest Q :
  (grants r h → HInv (granted_head r h) → Q LOCK_OK (granted_head r h)) →
  (¬ grants r h → HInv (queued_head r h) → Q LOCK_WAITING (queued_head r h)) →
  wp (newRequest r) Q h.
Proof.
  intros Hok Hwait. pose proof HI as [HC HL]. pose proof (newRequest_decides r h HC) as Hdec.
  unfold newRequest. wp_simpl. unfold id. destruct (_ || _).
  - assert (¬ grants r h) as Hno by (intros ?%Hdec; done). specialize (Hwait Hno (queued_head_inv Hno)).
    revert Hwait. unfold queued_head. simpl. intros Hwait.
    destruct (rq_enqueueAtFront r); wp_simpl; (apply wp_incConflict; simpl; [apply HC|by apply conflict_count_range|done]).
  - assert (grants r h) as Hg by (by apply Hdec). specialize (Hok Hg (granted_head_inv Hg)).
    revert Hok. unfold granted_head, b2z. intros Hok.
    wp_simpl. apply wp_incGranted; simpl; [apply HC|by apply granted_count_range|]. pose proof (cf_range h HC).
    destruct (rq_compatibleFirst r) eqn:E; wp_simpl.
    + simpl. rewrite u32_small by lia. unfold with_granted in Hok. simpl in Hok. by rewrite E in Hok.
    + rewrite Z.add_0_r in Hok. unfold with_granted in Hok. simpl in Hok. by rewrite E in Hok.
Qed.
End new_request.

(** *** Requests by locker *)
Lemma find_locker l r : NoDup (lockers l) → r ∈ l → find (by_locker (rq_locker r)) l = Some r.
Proof.
  intros Hnd Hr. destruct (find (by_locker (rq_locker r)) l) as [r'|] eqn:E.
  - apply find_by_locker in E as [Hr' He]; [|done]. f_equal. by eapply same_locker.
  - exfalso. eapply find_none in E; [|by apply list_elem_of_In]. unfold by_locker in E. lia.
Qed.
Lemma find_locker_none l k : k ∉ lockers l → find (by_locker k) l = None.
Proof.
  intros Hk. destruct (find (by_locker k) l) as [r|] eqn:E; [|done]. apply find_some in E as [Hr He].
  apply by_locker_true in He as <-. destruct Hk. by apply list_elem_of_fmap_2, list_elem_of_In.
Qed.
Lemma findRequest_iff h k r : HCore h → findRequest k h = Some r ↔ r ∈ requests h ∧ rq_locker r = k.
Proof.
  intros HC. destruct (unique_parts h HC) as (Hg & Hc & Hd). unfold findRequest, requests. rewrite elem_of_app. split.
  - destruct (find _ (grantedList h)) eqn:E.
    + intros [= ->]. apply find_by_locker in E as [? ?]; [|done]. auto.
    + intros [? ?]%find_by_locker; [|done]. auto.
  - intros [[Hr|Hr] <-]; [by rewrite find_locker|].
    rewrite (find_locker_none (grantedList h)), find_locker; [done..|].
    intros (r' & He & Hr')%list_elem_of_fmap. by apply (Hd r' r).
Qed.

(** *** [convert] *)
Section convert.
Context (r : LockRequest) (newMode : LockMode) (h : LockHead) (HI : HInv h) (Hr : r ∈ grantedList h)
  (Hst : rq_status r = STATUS_GRANTED) (Hnew : isModeCovered newMode (rq_mode r) = false)
  (Hup : isModeCovered (rq_mode r) newMode = true).

Definition upgraded : LockRequest := r <| rq_mode := newMode |>.
Definition converting : LockRequest := r <| rq_status := STATUS_CONVERTING |> <| rq_convertMode := newMode |>.
Definition upgraded_head : LockHead :=
  let c := upd newMode (grantedCounts h newMode + 1) (grantedCounts h) in
  with_granted (write_request (rq_locker r) (λ _, upgraded) (grantedList h))
    (upd (rq_mode r) (c (rq_mode r) - 1) c) (conversionsCount h) (compatibleFirstCount h) h.
Definition converting_head : LockHead :=
  with_granted (write_request (rq_locker r) (λ _, converting) (grantedList h))
    (upd newMode (grantedCounts h newMode + 1) (grantedCounts h)) (conversionsCount h + 1) (compatibleFirstCount h) h.

Lemma granted_request : rq_mode r ≠ MODE_NONE ∧ rq_convertMode r = MODE_NONE.
Proof.
  pose proof HI as [HC _]. pose proof (hc_granted h HC) as Hg. rewrite Forall_forall in Hg.
  destruct (Hg r Hr) as [Hm Hs]. by rewrite Hst in Hs.
Qed.
Lemma new_mode : newMode ≠ MODE_NONE ∧ newMode ≠ rq_mode r.
Proof. destruct newMode, (rq_mode r); simpl in *; try done; split; done. Qed.

(** Holding more keeps everybody out who was kept out. *)
Lemma keeps_live r' c conv cf :
  rq_locker r' = rq_locker r → rq_mode r' = newMode ∨ rq_mode r' = rq_mode r →
  rq_mode r' ≠ MODE_NONE →
  (rq_status r' = STATUS_CONVERTING → opposed (Some (rq_locker r)) (rq_convertMode r') (grantedList h)) →
  HLive (with_granted (write_request (rq_locker r) (λ _, r') (grantedList h)) c conv cf h).
Proof.
  intros Hlk Hmode Hm Hconv. pose proof HI as [HC HL]. destruct granted_request as [Hmr Hcr].
  assert (∀ k a, opposed k a (grantedList h) →
    opposed k a (write_request (rq_locker r) (λ _, r') (grantedList h))) as Hmono.
  { intros k a. apply opposed_replace; [done..|]. intros m Hh Hcl. exists (rq_mode r').
    split; [by apply holds_mode|]. apply holds_cases in Hh as [Hne [<-|Hx]]; [|congruence].
    destruct Hmode as [-> | ->]; [|done]. rewrite clash_sym in Hcl |- *. by eapply covered_clash. }
  split; simpl.
  - intros b [[Hb Hk]|(r0 & _ & _ & ->)]%elem_of_write Hstb.
    + apply Hmono. by apply (hl_converting h HL).
    + apply Hmono. rewrite Hlk. auto.
  - intros b l Hl. destruct (hl_front h HL b l Hl) as [?|?]; [by left|right; auto].
  - intros Hx. apply (hl_stranded h HL). unfold write_request in Hx. by apply fmap_nil_inv in Hx.
Qed.
Lemma upgraded_inv : ¬ opposed (Some (rq_locker r)) newMode (grantedList h) → HInv upgraded_head.
Proof.
  intros Hno. pose proof HI as [HC HL]. destruct granted_request as [Hmr Hcr], new_mode as [Hnm Hne]. split.
  - apply core_replace; try done.
    + split; simpl; [done|by rewrite Hst].
    + intros b Hb Hk. by eapply unopposed_compatible.
    + intros m. rewrite upd_count_sub, upd_count, (holds_granted r), (holds_granted upgraded) by done. simpl.
      unfold b2z. destruct (eqb _ _), (eqb _ _); lia.
    + unfold has_status. simpl. lia.
  - apply keeps_live; [done|by left|done|]. simpl. by rewrite Hst.
Qed.
Lemma converting_inv : opposed (Some (rq_locker r)) newMode (grantedList h) → HInv converting_head.
Proof.
  intros Hopp. pose proof HI as [HC HL]. destruct granted_request as [Hmr Hcr], new_mode as [Hnm Hne]. split.
  - apply core_replace; try done.
    + intros b Hb Hk. apply (hc_compatible h HC r b Hr Hb). congruence.
    + intros m. rewrite upd_count, holds_granted by done. unfold holds, eqb, b2z. simpl.
      repeat case_bool_decide; simplify_eq/=; try lia; congruence.
    + unfold has_status. rewrite Hst. simpl. lia.
  - apply keeps_live; [done|by right|done|done].
Qed.
Lemma wp_convert_head Q :
  (¬ opposed (Some (rq_locker r)) newMode (grantedList h) → HInv upgraded_head → Q LOCK_OK upgraded_head) →
  (opposed (Some (rq_locker r)) newMode (grantedList h) → HInv converting_head → Q LOCK_WAITING converting_head) →
  wp (convert_head (rq_locker r) newMode) Q h.
Proof.
  intros Hok Hwait. pose proof HI as [HC HL]. destruct granted_request as [Hmr Hcr], new_mode as [Hnm Hne].
  pose proof (granted_unique h HC) as Hnd.
  unfold convert_head. wp_simpl. unfold id. rewrite (proj2 (findRequest_iff h (rq_locker r) r HC)).
  2: { split; [|done]. apply elem_of_app. by left. }
  assert (conflicts newMode (modes_without (holds_one (rq_mode r)) h) = true ↔
    opposed (Some (rq_locker r)) newMode (grantedList h)) as Hopp.
  { apply (others_conflict h HC _ _ _ Hr). intros m Hm. rewrite holds_granted by done. unfold holds_one, b2z.
    by destruct (eqb _ _). }
  destruct (conflicts _ _).
  - assert (opposed (Some (rq_locker r)) newMode (grantedList h)) as Ho by (by apply Hopp).
    specialize (Hwait Ho (converting_inv Ho)). revert Hwait. unfold converting_head.
    rewrite (write_ext _ (λ _, converting) (λ r, r <| rq_status := STATUS_CONVERTING |> <| rq_convertMode := newMode |>)
      _ r Hnd Hr eq_refl eq_refl). intros Hwait.
    wp_simpl. apply wp_incGranted; simpl; [apply HC|by apply granted_count_range|]. wp_simpl.
    rewrite u32_small; [done|]. rewrite (hc_conversions h HC). pose proof (hc_size h HC).
    pose proof (count_if_le_vsize (has_status STATUS_CONVERTING) (grantedList h)).
    pose proof (count_if_nonneg (has_status STATUS_CONVERTING) (grantedList h)).
    pose proof (vsize_nonneg (conflictList h)). lia.
  - assert (¬ opposed (Some (rq_locker r)) newMode (grantedList h)) as Hno by (intros ?%Hopp; done).
    specialize (Hok Hno (upgraded_inv Hno)). revert Hok. unfold upgraded_head.
    rewrite (write_ext _ (λ _, upgraded) (λ r, r <| rq_mode := newMode |>) _ r Hnd Hr eq_refl eq_refl). intros Hok.
    wp_simpl. apply wp_incGranted; simpl; [apply HC|by apply granted_count_range|]. wp_simpl.
    apply wp_decGranted; simpl; [done| |done]. pose proof (granted_count_range h HC (rq_mode r)).
    rewrite upd_count. unfold eqb. rewrite bool_decide_false by done. rewrite (hc_counts h HC) in *.
    pose proof (count_if_pos (λ r0, holds r0 (rq_mode r)) _ r Hr (holds_mode r Hmr)). lia.
Qed.
End convert.

(** *** [unlock] and [downgrade] *)

(** The head once [r] is given up and before anyone is woken. *)
Definition cancelled r : LockRequest := r <| rq_status := STATUS_GRANTED |> <| rq_convertMode := MODE_NONE |>.
Record given_up r h h' : Prop := mkGivenUp {
  gu_granted : grantedList h' = if has_status STATUS_CONVERTING r
                                then write_request (rq_locker r) (λ _, cancelled r) (grantedList h)
                                else unlink (rq_locker r) (grantedList h);
  gu_conflict : conflictList h' = unlink (rq_locker r) (conflictList h);
  gu_partitions : partitions h' = partitions h }.

Section unlock.
Context (r : LockRequest) (h : LockHead) (HI : HInv h).
Abbreviation after h' := (λ ns h'', HInv h'' ∧ evolve ns h' h'').

Lemma fresh_in_conflict : r ∈ grantedList h → rq_locker r ∉ lockers (conflictList h).
Proof.
  intros Hr (r' & He & Hr')%list_elem_of_fmap. pose proof HI as [HC _].
  destruct (unique_parts h HC) as (_ & _ & Hd). by apply (Hd r r').
Qed.
Lemma fresh_in_granted : r ∈ conflictList h → rq_locker r ∉ lockers (grantedList h).
Proof.
  intros Hr (r' & He & Hr')%list_elem_of_fmap. pose proof HI as [HC _].
  destruct (unique_parts h HC) as (_ & _ & Hd). by apply (Hd r' r).
Qed.

Definition released_head : LockHead :=
  with_granted (unlink (rq_locker r) (grantedList h))
    (upd (rq_mode r) (grantedCounts h (rq_mode r) - 1) (grantedCounts h))
    (conversionsCount h) (compatibleFirstCount h - b2z (rq_compatibleFirst r)) h.
(** Releasing one of several holders of a mode unblocks nobody. *)
Lemma still_opposed k a :
  r ∈ grantedList h → rq_status r = STATUS_GRANTED → grantedCounts released_head (rq_mode r) ≠ 0 →
  opposed k a (grantedList h) → k = None → opposed k a (unlink (rq_locker r) (grantedList h)).
Proof.
  intros Hr Hst Hc (b & m & Hb & Hk & Hh & Hcl) ->. pose proof HI as [HC HL].
  destruct (granted_request r h HI Hr Hst) as [Hmr Hcr].
  destruct (decide (rq_locker b = rq_locker r)) as [He|Hne].
  2: { exists b, m. split_and!; [by apply elem_of_unlink|done..]. }
  pose proof (same_locker _ _ _ (granted_unique h HC) Hb Hr He) as ->.
  apply holds_cases in Hh as [Hm [<-|Hx]]; [|congruence].
  rewrite (hc_counts released_head (core_release h HC r Hr Hst)) in Hc.
  pose proof (count_if_nonneg (λ b, holds b (rq_mode r)) (grantedList released_head)).
  destruct (count_if_pos_inv (λ b, holds b (rq_mode r)) (grantedList released_head)) as (b & Hb' & Hh); [lia|].
  by exists b, (rq_mode r).
Qed.
Lemma wp_release_granted :
  r ∈ grantedList h → rq_status r = STATUS_GRANTED →
  wp (release_granted r) (after released_head) h.
Proof.
  intros Hr Hst. pose proof HI as [HC HL]. destruct (granted_request r h HI Hr Hst) as [Hmr Hcr].
  assert (HCore released_head) as HC1 by (by apply core_release). pose proof (cf_range h HC) as Hcf.
  unfold release_granted. wp_simpl. apply wp_decGranted; simpl; [apply HC| |].
  { pose proof (granted_count_range h HC (rq_mode r)). rewrite (hc_counts h HC) in *.
    pose proof (count_if_pos (λ r0, holds r0 (rq_mode r)) _ r Hr (holds_mode r Hmr)). lia. }
  wp_simpl. apply (wp_mono _ (λ _ h1, h1 = released_head)).
  - intros _ h1 ->. wp_simpl. unfold id.
    eapply wp_mono; [|apply (wp_onLockModeChanged _ released_head); [done|]].
    { intros ns h' (? & ? & ?). done. }
    intros Hchk%Z.eqb_neq. split.
    + intros b l Hl. destruct (hl_front h HL b l Hl) as [?|Ho]; [by left|right].
      by apply still_opposed.
    + intros Hg. destruct Hchk. by rewrite (hc_counts _ HC1), Hg.
  - unfold released_head, b2z. destruct (rq_compatibleFirst r) eqn:E; wp_simpl; simpl.
    + pose proof (hc_compatible_first h HC) as Hx.
      pose proof (count_if_pos rq_compatibleFirst _ r Hr E) as Hp. rewrite u32_small by lia. split_and!; [lia| |done].
      pose proof (hc_compatible_first _ HC1 : compatibleFirstCount h - b2z (rq_compatibleFirst r) =
        count_if rq_compatibleFirst (unlink (rq_locker r) (grantedList h))) as Hx1.
      rewrite E in Hx1. simpl in Hx1. rewrite Hx1.
      unfold is_empty. destruct (unlink (rq_locker r) (grantedList h)); [done|]. apply orb_true_r.
    + by rewrite Z.sub_0_r.
Qed.

Definition dequeued_head : LockHead :=
  with_conflict (unlink (rq_locker r) (conflictList h))
    (upd (rq_mode r) (conflictCounts h (rq_mode r) - 1) (conflictCounts h)) h.
Lemma wp_cancel_waiting :
  r ∈ conflictList h → rq_recursiveCount r = 0 → wp (cancel_waiting r) (after dequeued_head) h.
Proof.
  intros Hr Hc. pose proof HI as [HC HL]. pose proof (conflict_unique h HC) as Hnd.
  assert (HCore dequeued_head) as HC1 by (by apply core_dequeue, unlink_perm).
  unfold cancel_waiting. wp_simpl. split; [lia|]. apply wp_decConflict; simpl; [apply HC| |].
  { pose proof (conflict_count_range h HC (rq_mode r)). rewrite (hc_ccounts h HC) in *.
    pose proof (count_if_pos (λ r0, eqb (rq_mode r0) (rq_mode r)) _ r Hr) as Hp. unfold eqb in *.
    rewrite bool_decide_true in Hp by done. specialize (Hp eq_refl). lia. }
  eapply wp_mono; [|apply (wp_onLockModeChanged _ dequeued_head); done].
  intros ns h' (? & ? & ?). done.
Qed.

Definition cancelled_head : LockHead :=
  with_granted (write_request (rq_locker r) (λ _, cancelled r) (grantedList h))
    (upd (rq_convertMode r) (grantedCounts h (rq_convertMode r) - 1) (grantedCounts h))
    (conversionsCount h - 1) (compatibleFirstCount h) h.
Lemma wp_cancel_conversion :
  r ∈ grantedList h → rq_status r = STATUS_CONVERTING → 0 < rq_recursiveCount r →
  wp (cancel_conversion r) (after cancelled_head) h.
Proof.
  intros Hr Hst Hc. pose proof HI as [HC HL]. pose proof (granted_unique h HC) as Hnd.
  pose proof (hc_granted h HC) as Hok. rewrite Forall_forall in Hok. destruct (Hok r Hr) as [Hm Hs].
  rewrite Hst in Hs. destruct Hs as (Hcv & Hne & Hcov).
  assert (HCore cancelled_head) as HC1.
  { apply core_replace; try done.
    - intros b Hb Hk. apply (hc_compatible h HC r b Hr Hb). congruence.
    - intros m. rewrite upd_count_sub. unfold holds, eqb, b2z. simpl.
      repeat case_bool_decide; simplify_eq/=; try lia; congruence.
    - unfold has_status. rewrite Hst. simpl. lia. }
  pose proof (count_if_pos (has_status STATUS_CONVERTING) _ r Hr) as Hp. unfold has_status at 1 in Hp.
  rewrite Hst in Hp. specialize (Hp eq_refl). rewrite <-(hc_conversions h HC) in Hp.
  assert (conversionsCount h < two32 - 1) as Hcc.
  { rewrite (hc_conversions h HC). pose proof (hc_size h HC). pose proof (vsize_nonneg (conflictList h)).
    pose proof (count_if_le_vsize (has_status STATUS_CONVERTING) (grantedList h)). lia. }
  unfold cancel_conversion. wp_simpl. split; [lia|]. split; [lia|]. apply wp_decGranted; simpl; [apply HC| |].
  { pose proof (granted_count_range h HC (rq_convertMode r)). rewrite (hc_counts h HC) in *.
    pose proof (count_if_pos (λ r0, holds r0 (rq_convertMode r)) _ r Hr (holds_convert r Hcv)). lia. }
  wp_simpl.
  match goal with |- wp _ _ ?x => replace x with cancelled_head end.
  2: { unfold cancelled_head, with_granted.
       rewrite (write_ext _ (λ _, cancelled r) (λ r, r <| rq_status := STATUS_GRANTED |> <| rq_convertMode := MODE_NONE |>)
         _ r Hnd Hr eq_refl eq_refl). rewrite u32_small by lia. done. }
  unfold id. eapply wp_mono; [|apply (wp_onLockModeChanged _ cancelled_head); [done|]].
  { intros ns h' (? & ? & ?). done. }
  rewrite (hc_counts _ HC1). intros Hx. exfalso. apply Z.eqb_neq in Hx. destruct Hx. apply count_if_none.
  apply Forall_forall. intros b _. unfold holds, eqb. by rewrite bool_decide_true.
Qed.

Lemma wp_unlock_head :
  r ∈ requests h → (rq_status r = STATUS_WAITING → rq_recursiveCount r = 0) →
  (rq_status r = STATUS_CONVERTING → 0 < rq_recursiveCount r) →
  wp (unlock_head (rq_locker r)) (λ res h', HInv h' ∧ res.1 = (rq_recursiveCount r =? 0) ∧
    ∃ h1, given_up r h h1 ∧ evolve res.2 h1 h') h.
Proof.
  intros Hr Hw Hcv. pose proof HI as [HC HL]. unfold unlock_head. wp_simpl. unfold id.
  rewrite (proj2 (findRequest_iff h _ r HC)) by done. wp_simpl.
  apply (wp_mono _ (λ ns h', HInv h' ∧ ∃ h1, given_up r h h1 ∧ evolve ns h1 h')).
  { intros ns h' (? & ?). by wp_simpl. }
  unfold requests in Hr. apply elem_of_app in Hr as [Hr|Hr].
  - pose proof (fresh_in_conflict Hr) as Hf. pose proof (hc_granted h HC) as Hok. rewrite Forall_forall in Hok.
    destruct (Hok r Hr) as [_ Hs]. destruct (rq_status r) eqn:Hst; try done.
    + eapply wp_mono; [|by apply wp_release_granted]. intros ns h' [? ?]. split; [done|]. exists released_head.
      split; [|done]. split; simpl; [unfold has_status; by rewrite Hst|by rewrite unlink_fresh|done].
    + eapply wp_mono; [|apply wp_cancel_conversion; auto]. intros ns h' [? ?]. split; [done|]. exists cancelled_head.
      split; [|done]. split; simpl; [unfold has_status; by rewrite Hst|by rewrite unlink_fresh|done].
  - pose proof (fresh_in_granted Hr) as Hf. pose proof (hc_waiting h HC) as Hok. rewrite Forall_forall in Hok.
    destruct (Hok r Hr) as (Hst & _). rewrite Hst.
    eapply wp_mono; [|apply wp_cancel_waiting; auto]. intros ns h' [? ?]. split; [done|]. exists dequeued_head.
    split; [|done]. split; simpl; [unfold has_status; rewrite Hst; simpl; by rewrite unlink_fresh|done..].
Qed.

Definition downgraded_head newMode : LockHead :=
  let c := upd newMode (grantedCounts h newMode + 1) (grantedCounts h) in
  with_granted (write_request (rq_locker r) (λ _, r <| rq_mode := newMode |>) (grantedList h))
    (upd (rq_mode r) (c (rq_mode r) - 1) c) (conversionsCount h) (compatibleFirstCount h) h.
Lemma wp_downgrade_head newMode :
  r ∈ grantedList h → rq_status r = STATUS_GRANTED → 0 < rq_recursiveCount r →
  isModeCovered newMode (rq_mode r) = true → newMode ≠ MODE_NONE →
  wp (downgrade_head (rq_locker r) newMode) (after (downgraded_head newMode)) h.
Proof.
  intros Hr Hst Hrc Hcov Hnm. pose proof HI as [HC HL]. destruct (granted_request r h HI Hr Hst) as [Hmr Hcr].
  pose proof (granted_unique h HC) as Hnd.
  assert (HCore (downgraded_head newMode)) as HC1.
  { apply core_replace; try done.
    - split; simpl; [done|by rewrite Hst].
    - intros b Hb Hk. apply not_true_is_false. intros Hcl. simpl in Hcl.
      pose proof (covered_clash _ _ _ Hcov Hcl) as Hx. rewrite (hc_compatible h HC r b Hr Hb) in Hx; congruence.
    - intros m. rewrite upd_count_sub, upd_count, (holds_granted r), (holds_granted (r <| rq_mode := newMode |>)) by done.
      simpl. unfold b2z. destruct (eqb _ _), (eqb _ _); lia.
    - unfold has_status. simpl. lia. }
  unfold downgrade_head. wp_simpl. unfold id. rewrite (proj2 (findRequest_iff h (rq_locker r) r HC)).
  2: { split; [|done]. apply elem_of_app. by left. }
  wp_simpl. split; [unfold has_status; by rewrite Hst|]. split; [lia|]. split; [done|].
  apply wp_incGranted; simpl; [apply HC|by apply granted_count_range|]. wp_simpl.
  pose proof (granted_count_range h HC (rq_mode r)) as Hc. rewrite (hc_counts h HC) in Hc.
  pose proof (count_if_pos (λ r0, holds r0 (rq_mode r)) _ r Hr (holds_mode r Hmr)) as Hp.
  rewrite <-(hc_counts h HC) in Hc, Hp.
  apply wp_decGranted; simpl; [done|rewrite upd_count; destruct (eqb _ _); lia|]. wp_simpl.
  match goal with |- wp _ _ ?x => replace x with (downgraded_head newMode) end.
  2: { unfold downgraded_head, with_granted.
       by rewrite (write_ext _ (λ _, r <| rq_mode := newMode |>) (λ r, r <| rq_mode := newMode |>) _ r Hnd Hr eq_refl eq_refl). }
  eapply wp_mono; [|by apply (wp_onLockModeChanged true)]. intros ns h' (? & ? & ?). done.
Qed.
End unlock.
