(* ===== verification/LockManagerInv.v ===== *)
(** * The invariant of the lock manager

    What holds of every resource between two critical sections: its head satisfies the invariant of
    LockHeadInv, a partitioned head has only intent modes and no conflicts, the partitioned lists
    hold granted intent requests of their own lockers, and nobody has two requests. *)
From S2P Require Import Prelude LockManager LockHeadInv LockHeadOps.
Import Mode Head Manager.
Implicit Types (h : LockHead) (r : LockRequest) (s : LockManager) (res k p : Z).

(** A request of the resource, on its head or in one of its partitions. *)
Definition present s res r : Prop :=
  (∃ h, lm_heads s !! res = Some h ∧ r ∈ requests h) ∨ (∃ p l, lm_partitions s !! (p, res) = Some l ∧ r ∈ l).
(** The recursion count fits the status; [pending]: its owner has counted it down and is about to
    enter the critical section of [unlock]. *)
Definition req_ok (pending : bool) r : Prop :=
  match rq_status r with
  | STATUS_GRANTED => (if pending then 0 else 1) ≤ rq_recursiveCount r
  | STATUS_WAITING => rq_recursiveCount r = (if pending then 0 else 1) ∧ rq_partitioned r = false
  | STATUS_CONVERTING => (if pending then 1 else 2) ≤ rq_recursiveCount r
  | STATUS_NEW => False
  end.
Definition part_ok p r : Prop :=
  is_intent (rq_mode r) = true ∧ rq_status r = STATUS_GRANTED ∧ rq_convertMode r = MODE_NONE ∧
  rq_partitioned r = true ∧ _getPartition (rq_locker r) = p.
Definition intent_only h : Prop :=
  conflictList h = [] ∧ ∀ r, r ∈ grantedList h → is_intent (rq_mode r) = true ∧ rq_status r = STATUS_GRANTED.
(** A request on its way from one critical section of [lock] to the other. *)
Definition pending_ok k r : Prop :=
  rq_locker r = k ∧ rq_status r = STATUS_NEW ∧ rq_recursiveCount r = 1 ∧ rq_mode r ≠ MODE_NONE ∧
  rq_convertMode r = MODE_NONE ∧ rq_partitioned r = is_intent (rq_mode r).

Section invariant.
Context (ids : gset Z).
Implicit Types (pl : gmap (Z * Z) LockRequest) (pu : gset (Z * Z)).

Record RInv s pl pu res : Prop := mkRInv {
  ri_head : ∀ h, lm_heads s !! res = Some h → HInv h ∧ (partitions h ≠ [] → intent_only h);
  ri_present : ∀ r, present s res r →
    rq_locker r ∈ ids ∧ req_ok (bool_decide ((res, rq_locker r) ∈ pu)) r;
  ri_part : ∀ p l, lm_partitions s !! (p, res) = Some l → NoDup (lockers l) ∧
    (∀ r, r ∈ l → part_ok p r ∧ (res, rq_locker r) ∉ pu) ∧
    ∃ h, lm_heads s !! res = Some h ∧ p ∈ partitions h ∧ ∀ r, r ∈ l → rq_locker r ∉ lockers (requests h);
  ri_lock : ∀ k r, pl !! (res, k) = Some r → pending_ok k r ∧ k ∈ ids ∧ ∀ r', present s res r' → rq_locker r' ≠ k;
  ri_unlock : ∀ k, (res, k) ∈ pu → ∃ h, lm_heads s !! res = Some h ∧ k ∈ lockers (requests h) }.

(** Only [res] is touched. *)
Definition elsewhere res s s' : Prop :=
  ∀ res', res' ≠ res → lm_heads s' !! res' = lm_heads s !! res' ∧
    ∀ p, lm_partitions s' !! (p, res') = lm_partitions s !! (p, res').
Lemma elsewhere_refl res s : elsewhere res s s.
Proof. done. Qed.
Lemma elsewhere_trans res s s' s'' : elsewhere res s s' → elsewhere res s' s'' → elsewhere res s s''.
Proof.
  intros H H' res' Hne. destruct (H res' Hne) as [Hh Hp], (H' res' Hne) as [Hh' Hp'].
  split; [congruence|]. intros p. by rewrite Hp', Hp.
Qed.
Lemma present_same s s' res r :
  lm_heads s' !! res = lm_heads s !! res → (∀ p, lm_partitions s' !! (p, res) = lm_partitions s !! (p, res)) →
  present s' res r ↔ present s res r.
Proof. intros Hh Hp. unfold present. rewrite Hh. by setoid_rewrite Hp. Qed.
(** The invariant of a resource depends on that resource only. *)
Lemma RInv_same s s' pl pl' pu pu' res :
  lm_heads s' !! res = lm_heads s !! res → (∀ p, lm_partitions s' !! (p, res) = lm_partitions s !! (p, res)) →
  (∀ k, pl' !! (res, k) = pl !! (res, k)) → (∀ k, (res, k) ∈ pu' ↔ (res, k) ∈ pu) →
  RInv s pl pu res → RInv s' pl' pu' res.
Proof.
  intros Hh Hp Hl Hu [H1 H2 H3 H4 H5]. split.
  - by rewrite Hh.
  - intros r Hr. rewrite (present_same s s') in Hr by done. rewrite (bool_decide_ext _ ((res, rq_locker r) ∈ pu)); auto.
  - intros p l Hpl. rewrite Hp in Hpl. rewrite Hh. setoid_rewrite Hu. by apply H3.
  - intros k r Hr. rewrite Hl in Hr. destruct (H4 k r Hr) as (? & ? & Hn). split_and!; [done..|].
    intros r' Hr'. apply Hn. by rewrite (present_same s s') in Hr'.
  - intros k Hk. rewrite Hh. by apply H5, Hu.
Qed.

(** ** Finding requests *)
Section find.
Context (s : LockManager) (pl : gmap (Z * Z) LockRequest) (pu : gset (Z * Z)) (res : Z) (HR : RInv s pl pu res).

Lemma find_partitioned_iff k r :
  find_partitioned res k s = Some r ↔
  ∃ l, lm_partitions s !! (_getPartition k, res) = Some l ∧ r ∈ l ∧ rq_locker r = k.
Proof.
  unfold find_partitioned. rewrite bind_Some. split.
  - intros (l & Hl & Hf). exists l. split; [done|]. eapply find_by_locker; [|done]. by apply (ri_part _ _ _ _ HR _ _ Hl).
  - intros (l & Hl & Hr & <-). exists l. split; [done|]. apply find_locker; [|done]. by apply (ri_part _ _ _ _ HR _ _ Hl).
Qed.
Lemma partition_of p l r : lm_partitions s !! (p, res) = Some l → r ∈ l → p = _getPartition (rq_locker r).
Proof. intros Hl Hr. destruct (ri_part _ _ _ _ HR _ _ Hl) as (_ & Hok & _). by destruct (Hok r Hr) as [(_ & _ & _ & _ & <-) _]. Qed.
(** A locker with a request in a partition has none on the head. *)
Lemma partitioned_not_on_head k r h :
  find_partitioned res k s = Some r → lm_heads s !! res = Some h → k ∉ lockers (requests h).
Proof.
  intros (l & Hl & Hr & <-)%find_partitioned_iff Hh. destruct (ri_part _ _ _ _ HR _ _ Hl) as (_ & _ & h' & Hh' & _ & Hd).
  assert (h' = h) as -> by congruence. by apply Hd.
Qed.
Lemma find_request_iff k r : find_request res k s = Some r ↔ present s res r ∧ rq_locker r = k.
Proof.
  unfold find_request. split.
  - destruct (find_partitioned res k s) as [r'|] eqn:E.
    + intros [= ->]. apply find_partitioned_iff in E as (l & Hl & Hr & Hk). split; [|done]. right. eauto.
    + intros (h & Hh & Hf)%bind_Some. destruct (ri_head _ _ _ _ HR h Hh) as [[HC _] _].
      apply findRequest_iff in Hf as [Hr Hk]; [|done]. split; [|done]. left. eauto.
  - intros [[(h & Hh & Hr)|(p & l & Hl & Hr)] Hk].
    + assert (find_partitioned res k s = None) as ->.
      { destruct (find_partitioned res k s) as [r'|] eqn:E; [|done]. exfalso.
        apply (partitioned_not_on_head k r' h E Hh). subst k. by apply list_elem_of_fmap_2. }
      rewrite Hh. simpl. destruct (ri_head _ _ _ _ HR h Hh) as [[HC _] _]. by apply findRequest_iff.
    + pose proof (partition_of p l r Hl Hr) as ->. subst k. by rewrite (proj2 (find_partitioned_iff (rq_locker r) r)) by eauto.
Qed.
End find.

(** ** Code on one head *)
Lemma alter_lookup {K A} `{Countable K} (f : A → A) (m : gmap K A) i x :
  m !! i = Some x → alter f i m = <[i := f x]> m.
Proof.
  intros Hi. apply map_eq. intros j. destruct (decide (i = j)) as [<-|Hne].
  - by rewrite lookup_alter_eq, Hi, lookup_insert_eq.
  - by rewrite lookup_alter_ne, lookup_insert_ne.
Qed.
Lemma wp_on_head {A} line res (m : HM A) Q s h :
  lm_heads s !! res = Some h →
  wp m (λ a h', Q a (s <| lm_heads := <[res := h']> (lm_heads s) |>)) h → wp (on_head line res m) Q s.
Proof. intros Hh. unfold wp, on_head. rewrite Hh. by destruct (m h) as [[a h']|]. Qed.
Lemma same_manager s : s <| lm_heads := lm_heads s |> = s.
Proof. by destruct s. Qed.
Lemma same_head s res h : lm_heads s !! res = Some h → s <| lm_heads := <[res := h]> (lm_heads s) |> = s.
Proof. intros Hh. rewrite insert_id by done. apply same_manager. Qed.
(** Code that only reads the head. *)
Lemma wp_peek {A} line res (f : LockHead → A) Q s h :
  lm_heads s !! res = Some h → Q (f h) s → wp (on_head line res (gets f)) Q s.
Proof. intros Hh HQ. apply (wp_on_head _ _ _ _ _ h); [done|]. wp_simpl. by rewrite same_head. Qed.
Lemma wp_on_head_check {A} line line' res b (k : LM A) Q s h :
  lm_heads s !! res = Some h → b h = true → wp k Q s → wp (on_head line res (invariant line' b) ;; k) Q s.
Proof.
  intros Hh Hb HQ. apply wp_bind, (wp_on_head _ _ _ _ _ h); [done|]. wp_simpl. split; [done|]. by rewrite same_head.
Qed.
Lemma head_elsewhere s res h : elsewhere res s (s <| lm_heads := <[res := h]> (lm_heads s) |>).
Proof. intros res' Hne. simpl. by rewrite lookup_insert_ne. Qed.

Lemma size_bound l : NoDup (lockers l) → (∀ r, r ∈ l → rq_locker r ∈ ids) → vsize l ≤ Z.of_nat (size ids).
Proof.
  intros Hnd Hin. assert (list_to_set (lockers l) ⊆ ids) as Hs.
  { intros k. rewrite elem_of_list_to_set. intros (r & -> & Hr)%list_elem_of_fmap. auto. }
  apply subseteq_size in Hs. rewrite size_list_to_set in Hs by done. unfold lockers, vsize in *. rewrite length_fmap in Hs. lia.
Qed.

(** ** Intent modes *)
Lemma intent_only_iff h :
  HInv h → (negb (beyond_intent (grantedModes h)) && (conflictModes h =? 0) = true ↔ intent_only h).
Proof.
  intros [HC HL]. rewrite andb_true_iff, Z.eqb_eq, (conflict_empty h HC), (hc_mask h HC), mask_beyond_intent, negb_true_iff.
  pose proof (hc_granted h HC) as Hok. rewrite Forall_forall in Hok. unfold intent_only. split.
  - intros [[[_ HS]%orb_false_iff HX]%orb_false_iff Hc]. split; [done|].
    assert (∀ r m, r ∈ grantedList h → holds r m = true → is_intent m = true) as Hi.
    { intros r m Hr Hh. rewrite (hc_counts h HC) in HS, HX.
      pose proof (count_if_pos (λ r, holds r m) _ r Hr Hh) as Hp.
      pose proof (holds_cases r m Hh) as [Hm _]. destruct m; try done; exfalso; lia. }
    intros r Hr. destruct (Hok r Hr) as [Hm Hs]. split; [by apply (Hi r _ Hr), holds_mode|].
    destruct (rq_status r) eqn:Hst; try done. destruct Hs as (Hcv & _).
    destruct (hl_converting h HL r Hr Hst) as (b & m & Hb & _ & Hh & Hcl).
    rewrite intent_no_clash in Hcl; [done| |by eapply Hi]. by apply (Hi r _ Hr), holds_convert.
  - intros [Hc Hi]. split; [|done]. rewrite !(hc_counts h HC).
    assert (∀ m, is_intent m = false → count_if (λ r, holds r m) (grantedList h) = 0) as Hz.
    { intros m Hm. apply count_if_none, Forall_forall. intros r Hr. apply not_true_is_false. intros Hh.
      destruct (Hi r Hr) as [Him Hst]. destruct (Hok r Hr) as [_ Hs]. rewrite Hst in Hs.
      apply holds_cases in Hh as [Hne [<-|Hx]]; congruence. }
    by rewrite !Hz.
Qed.
Lemma intent_grants r h : HInv h → intent_only h → is_intent (rq_mode r) = true → grants r h.
Proof.
  intros [HC HL] [Hc Hi] Hr. split.
  - intros (b & m & Hb & _ & Hh & Hcl). destruct (Hi b Hb) as [Him Hst].
    pose proof (hc_granted h HC) as Hok. rewrite Forall_forall in Hok. destruct (Hok b Hb) as [_ Hs]. rewrite Hst in Hs.
    apply holds_cases in Hh as [Hne [<-|Hx]]; [|congruence]. by rewrite intent_no_clash in Hcl.
  - right. rewrite Hc. intros b Hb. by apply elem_of_nil in Hb.
Qed.

(** ** Migration *)
Context (Hids : Z.of_nat (size ids) < two32 - 2).

Lemma granted_again r : rq_status r = STATUS_GRANTED → r <| rq_status := STATUS_GRANTED |> = r.
Proof. destruct r. simpl. by intros ->. Qed.
Lemma granted_head_list r h : grantedList (granted_head r h) = grantedList h ++ [r <| rq_status := STATUS_GRANTED |>].
Proof. done. Qed.
Lemma wp_migrate_requests res p l s h :
  lm_heads s !! res = Some h → HInv h → intent_only h → Forall (part_ok p) l →
  NoDup (lockers (requests h ++ l)) → (∀ r, r ∈ requests h ++ l → rq_locker r ∈ ids) →
  wp (mfoldl (λ (_ : ()) request,
        res' ← on_head 387 res (newRequest request);
        invariant 388 (λ _, bool_decide (res' = LOCK_OK))) tt l)
     (λ _ s', ∃ h', s' = s <| lm_heads := <[res := h']> (lm_heads s) |> ∧ HInv h' ∧ intent_only h' ∧
        requests h' ≡ₚ requests h ++ l ∧ partitions h' = partitions h) s.
Proof.
  revert s h. induction l as [|r l IH]; intros s h Hh HI Hint Hl Hnd Hin; cbn [mfoldl].
  - wp_simpl. exists h. rewrite same_head by done. by rewrite app_nil_r.
  - apply Forall_cons in Hl as [(Hm & Hst & Hcv & Hp & _) Hl]. wp_simpl. apply (wp_on_head _ _ _ _ _ h); [done|].
    pose proof Hnd as Hnd'. unfold lockers in Hnd'. rewrite <-Permutation_middle, fmap_cons in Hnd'. apply NoDup_cons in Hnd' as [Hfr Hnd'].
    assert (fresh_request r h) as Hf.
    { split_and!; [by intros Hx; rewrite Hx in Hm|done| |].
      - intros (b & He & Hb)%list_elem_of_fmap. apply Hfr. rewrite He. apply list_elem_of_fmap_2, elem_of_app. by left.
      - pose proof (size_bound (requests h)) as Hb. unfold lockers in Hb, Hnd'. rewrite fmap_app in Hnd'.
        apply NoDup_app in Hnd' as [Hnd' _]. specialize (Hb Hnd'). assert (∀ b, b ∈ requests h → rq_locker b ∈ ids) as Hi by (intros; apply Hin, elem_of_app; by left).
        specialize (Hb Hi). lia. }
    pose proof (intent_grants r h HI Hint Hm) as Hg.
    apply (wp_newRequest r h HI Hf); [|by intros []]. intros _ HI'. wp_simpl. split; [done|].
    assert (requests (granted_head r h) ≡ₚ r :: requests h) as Hperm.
    { unfold requests. rewrite granted_head_list, granted_again by done. cbn [conflictList granted_head with_granted].
      simpl. rewrite (proj1 Hint), !app_nil_r.
      by rewrite Permutation_app_comm. }
    eapply wp_mono; [|apply (IH _ (granted_head r h))].
    + intros _ s' (h' & -> & HI2 & Hint2 & Hreq & Hpt). exists h'. simpl. rewrite insert_insert_eq.
      split_and!; [done..| |done]. rewrite Hreq, Hperm. by rewrite <-Permutation_middle.
    + simpl. by rewrite lookup_insert_eq.
    + done.
    + split; [apply Hint|]. rewrite granted_head_list. intros b [Hb|Hb%list_elem_of_singleton]%elem_of_app; [by apply Hint|].
      subst b. by rewrite granted_again.
    + done.
    + unfold lockers. rewrite Hperm. cbn [app]. rewrite Permutation_middle. apply Hnd.
    + intros b. rewrite Hperm. cbn [app]. rewrite Permutation_middle. apply Hin.
Qed.
Lemma HInv_partitions h ps : HInv h → HInv (h <| partitions := ps |>).
Proof. intros [[] []]. by split; constructor. Qed.

(** The partition [p] emptied into the head. *)
Lemma RInv_migrated s pl pu res h ps p h' :
  RInv s pl pu res → lm_heads s !! res = Some h → partitions h = ps ++ [p] →
  HInv h' → intent_only h' → partitions h' = ps →
  requests h' ≡ₚ requests h ++ default [] (lm_partitions s !! (p, res)) →
  let s' := s <| lm_heads := <[res := h']> (lm_heads s) |>
              <| lm_partitions := delete (p, res) (lm_partitions s) |> in
  RInv s' pl pu res ∧ elsewhere res s s' ∧ ∀ r, present s' res r ↔ present s res r.
Proof.
  intros HR Hh Hps HI' Hint' Hps' Hreq s'.
  assert (∀ r, present s' res r ↔ present s res r) as Hpr.
  { intros r. unfold present, s'. simpl. rewrite lookup_insert_eq. split.
    - intros [(h0 & [= <-] & Hr)|(p' & l & Hl & Hr)].
      + rewrite Hreq in Hr. apply elem_of_app in Hr as [Hr|Hr]; [left; eauto|right].
        destruct (lm_partitions s !! (p, res)) as [l|] eqn:E; [eauto|by apply elem_of_nil in Hr].
      + apply lookup_delete_Some in Hl as [_ Hl]. right. eauto.
    - intros [(h0 & Hh0 & Hr)|(p' & l & Hl & Hr)].
      + left. exists h'. split; [done|]. rewrite Hreq. apply elem_of_app. left. congruence.
      + destruct (decide (p' = p)) as [->|Hne].
        * left. exists h'. split; [done|]. rewrite Hreq, Hl. apply elem_of_app. by right.
        * right. exists p', l. split; [|done]. apply lookup_delete_Some. split; [congruence|done]. }
  split_and!; [|intros res' Hne; simpl; split;
    [by rewrite lookup_insert_ne|intros p'; rewrite lookup_delete_ne by congruence; done]|done].
  split.
  - simpl. rewrite lookup_insert_eq. by intros h0 [= <-].
  - intros r Hr. apply (ri_present _ _ _ _ HR). by apply Hpr.
  - intros p' l Hl. simpl in Hl. apply lookup_delete_Some in Hl as [Hne Hl].
    destruct (ri_part _ _ _ _ HR _ _ Hl) as (Hnd & Hok & h0 & Hh0 & Hp' & Hd). assert (h0 = h) as -> by congruence.
    split_and!; [done..|]. exists h'. simpl. rewrite lookup_insert_eq. split_and!; [done| |].
    + rewrite Hps', Hps in *. apply elem_of_app in Hp' as [?|Hx%list_elem_of_singleton]; [done|congruence].
    + intros r Hr. unfold lockers. rewrite Hreq, fmap_app, not_elem_of_app. split; [by apply Hd|].
      destruct (lm_partitions s !! (p, res)) as [l'|] eqn:E; [|apply not_elem_of_nil].
      intros (b & He & Hb)%list_elem_of_fmap. simpl in Hb.
      pose proof (partition_of _ _ _ _ HR _ _ _ Hl Hr). pose proof (partition_of _ _ _ _ HR _ _ _ E Hb). congruence.
  - intros k r Hr. destruct (ri_lock _ _ _ _ HR k r Hr) as (? & ? & Hn). split_and!; [done..|].
    intros r' Hr'. apply Hn. by apply Hpr.
  - intros k Hk. destruct (ri_unlock _ _ _ _ HR k Hk) as (h0 & Hh0 & Hin). assert (h0 = h) as -> by congruence.
    exists h'. simpl. rewrite lookup_insert_eq. split; [done|]. unfold lockers in *. rewrite Hreq, fmap_app.
    apply elem_of_app. by left.
Qed.
Definition migrated s pl pu res (ps : list Z) s' : Prop :=
  RInv s' pl pu res ∧ elsewhere res s s' ∧ (∀ r, present s' res r ↔ present s res r) ∧
  ∃ h', lm_heads s' !! res = Some h' ∧ partitions h' = ps.

Lemma wp_migrate_partition s pl pu res h ps p :
  RInv s pl pu res → lm_heads s !! res = Some h → partitions h = ps ++ [p] →
  wp (migrate_partition res p) (λ _ s', migrated s pl pu res ps s') s.
Proof.
  intros HR Hh Hps. destruct (ri_head _ _ _ _ HR h Hh) as [HI Hint].
  assert (intent_only h) as Hi by (apply Hint; rewrite Hps; by destruct ps).
  unfold migrate_partition. wp_simpl. unfold id.
  set (l := default [] (lm_partitions s !! (p, res))).
  apply (wp_mono _ (λ _ s1, ∃ h1, s1 = s <| lm_heads := <[res := h1]> (lm_heads s) |>
    <| lm_partitions := delete (p, res) (lm_partitions s) |> ∧ HInv h1 ∧ intent_only h1 ∧
    requests h1 ≡ₚ requests h ++ l ∧ partitions h1 = partitions h)).
  - intros _ s1 (h1 & -> & HI1 & Hi1 & Hreq & Hp1).
    apply (wp_on_head _ _ _ _ _ h1); [simpl; by rewrite lookup_insert_eq|]. wp_simpl.
    destruct (RInv_migrated s pl pu res h ps p (h1 <| partitions := ps |>)) as (HR' & Hel & Hpr); try done.
    { by apply HInv_partitions. }
    simpl. rewrite insert_insert_eq, Hp1, Hps, removelast_last. split_and!; [done..|].
    exists (h1 <| partitions := ps |>). simpl. by rewrite lookup_insert_eq.
  - destruct (lm_partitions s !! (p, res)) as [l'|] eqn:E; unfold l in *; clear l; simpl in *.
    + destruct (ri_part _ _ _ _ HR _ _ E) as (Hnd & Hok & h0 & Hh0 & Hp' & Hd). assert (h0 = h) as -> by congruence.
      wp_simpl. eapply wp_mono; [|apply (wp_migrate_requests res p l' s h)]; try done.
      * intros _ s1 (h1 & -> & HI1 & Hi1 & Hreq & Hp1). wp_simpl. by exists h1.
      * apply Forall_forall. intros r Hr. by apply Hok.
      * unfold lockers. rewrite fmap_app. apply NoDup_app. split_and!; [apply HI| |done].
        intros k Hk (r & -> & Hr)%list_elem_of_fmap. by apply (Hd r).
      * intros r [Hr|Hr]%elem_of_app; apply (ri_present _ _ _ _ HR); [left|right]; eauto.
    + wp_simpl. exists h. rewrite app_nil_r, delete_id, insert_id by done. by destruct s.
Qed.
Lemma wp_migrate s pl pu res h :
  RInv s pl pu res → lm_heads s !! res = Some h →
  wp (migrate_if_partitioned res) (λ _ s', migrated s pl pu res [] s') s.
Proof.
  intros HR Hh. destruct (ri_head _ _ _ _ HR h Hh) as [HI Hint].
  unfold migrate_if_partitioned. apply wp_bind, (wp_peek _ _ _ _ _ h); [done|].
  destruct (partitioned h) eqn:E; unfold partitioned in E.
  - apply negb_true_iff, bool_decide_eq_false in E. specialize (Hint E).
    unfold migratePartitionedLockHeads.
    apply (wp_on_head_check _ _ _ _ _ _ _ h); [done|unfold partitioned; by rewrite bool_decide_false|].
    apply (wp_on_head_check _ _ _ _ _ _ _ h); [done|by apply intent_only_iff|].
    apply wp_bind, (wp_peek _ _ _ _ _ h); [done|].
    assert (∀ ps s1 h1, RInv s1 pl pu res → elsewhere res s s1 → (∀ r, present s1 res r ↔ present s res r) →
      lm_heads s1 !! res = Some h1 → partitions h1 = ps →
      wp (mfoldl (λ (_ : ()) p, migrate_partition res p) tt (rev ps)) (λ _ s', migrated s pl pu res [] s') s1) as Hloop.
    { intros ps. induction ps as [|p ps' IH] using rev_ind; intros s1 h1 HR1 Hel1 Hpr1 Hh1 Hps1.
      - simpl. wp_simpl. split_and!; eauto.
      - rewrite rev_app_distr. cbn [rev app mfoldl]. wp_simpl.
        eapply wp_mono; [|by apply (wp_migrate_partition s1 pl pu res h1 ps' p)].
        intros [] s2 (HR2 & Hel2 & Hpr2 & h2 & Hh2 & Hps2). apply (IH s2 h2); try done.
        + by eapply elsewhere_trans.
        + intros r. by rewrite Hpr2. }
    apply (Hloop _ s h); done.
  - apply negb_false_iff, bool_decide_eq_true in E. wp_simpl. split_and!; eauto. done.
Qed.

(** ** [lock] *)

(** What a step on [res] has done to its requests. *)
Definition stepped s pl' pu' res (P : LockRequest → Prop) s' : Prop :=
  RInv s' pl' pu' res ∧ elsewhere res s s' ∧ ∀ r, present s' res r ↔ P r.

Lemma HInv_initNew : HInv initNew.
Proof.
  split; constructor; simpl; try done; try apply Forall_nil_2; try apply NoDup_nil_2;
    intros a; intros; exfalso; by apply (not_elem_of_nil a).
Qed.
Lemma wp_findOrInsert s pl pu res :
  RInv s pl pu res → wp (findOrInsert res) (λ _ s',
    stepped s pl pu res (present s res) s' ∧ is_Some (lm_heads s' !! res)) s.
Proof.
  intros HR. unfold findOrInsert. wp_simpl. destruct (lm_heads s !! res) as [h|] eqn:Hh.
  { split; [by split_and!|]. by rewrite Hh. }
  set (s' := s <| lm_heads := <[res := initNew]> (lm_heads s) |>).
  assert (∀ r, present s' res r ↔ present s res r) as Hpr.
  { intros r. unfold present, s'. simpl. rewrite lookup_insert_eq, Hh. split; [|naive_solver].
    intros [(h0 & [= <-] & Hr)|?]; [by apply elem_of_nil in Hr|by right]. }
  split; [|simpl; rewrite lookup_insert_eq; eauto]. split_and!; [|apply head_elsewhere|done].
  split.
  - simpl. rewrite lookup_insert_eq. intros h0 [= <-]. split; [apply HInv_initNew|done].
  - intros r Hr%Hpr. by apply (ri_present _ _ _ _ HR).
  - intros p l Hl. destruct (ri_part _ _ _ _ HR p l Hl) as (_ & _ & h0 & Hh0 & _). congruence.
  - intros k r Hr. destruct (ri_lock _ _ _ _ HR k r Hr) as (? & ? & Hn). split_and!; [done..|]. intros r' Hr'%Hpr. auto.
  - intros k Hk. destruct (ri_unlock _ _ _ _ HR k Hk) as (h0 & Hh0 & _). congruence.
Qed.

(** A granted intent request joins its partition. *)
Lemma RInv_join s pl pu res p l r :
  RInv s pl pu res → pl !! (res, rq_locker r) = None → lm_partitions s !! (p, res) = Some l → part_ok p r →
  1 ≤ rq_recursiveCount r → rq_locker r ∈ ids → (∀ r', present s res r' → rq_locker r' ≠ rq_locker r) →
  stepped s pl pu res (λ r', present s res r' ∨ r' = r)
    (s <| lm_partitions := <[(p, res) := l ++ [r]]> (lm_partitions s) |>).
Proof.
  intros HR Hpl Hl Hok Hc Hin Habs. set (s' := s <| lm_partitions := _ |>).
  assert (∀ r', present s' res r' ↔ present s res r' ∨ r' = r) as Hpr.
  { intros r'. unfold present, s'. simpl. split.
    - intros [?|(p' & l' & Hl' & Hr')]; [by left; left|]. destruct (decide (p' = p)) as [->|Hne].
      + rewrite lookup_insert_eq in Hl'. injection Hl' as <-. apply elem_of_app in Hr' as [?|?%list_elem_of_singleton]; [|by right].
        left. right. eauto.
      + rewrite lookup_insert_ne in Hl' by congruence. left. right. eauto.
    - intros [[?|(p' & l' & Hl' & Hr')]| ->]; [by left|right..].
      + destruct (decide (p' = p)) as [->|Hne].
        * exists p, (l ++ [r]). rewrite lookup_insert_eq. split; [done|]. apply elem_of_app. left. congruence.
        * exists p', l'. by rewrite lookup_insert_ne by congruence.
      + exists p, (l ++ [r]). rewrite lookup_insert_eq. split; [done|]. apply elem_of_app. right. by left. }
  assert ((res, rq_locker r) ∉ pu) as Hnp.
  { intros (h & Hh & (b & He & Hb)%list_elem_of_fmap)%(ri_unlock _ _ _ _ HR). apply (Habs b); [left; eauto|done]. }
  destruct (ri_part _ _ _ _ HR p l Hl) as (Hnd & Hoks & h & Hh & Hp & Hd).
  assert (rq_locker r ∉ lockers (requests h)) as Hfr.
  { intros (b & He & Hb)%list_elem_of_fmap. apply (Habs b); [left; eauto|done]. }
  split_and!; [|intros res' Hne; simpl; split; [done|intros p'; by rewrite lookup_insert_ne by congruence]|done].
  split.
  - apply (ri_head _ _ _ _ HR).
  - intros r' [Hr'| ->]%Hpr; [by apply (ri_present _ _ _ _ HR)|]. split; [done|]. rewrite bool_decide_false by done.
    unfold req_ok. by destruct Hok as (_ & -> & _).
  - intros p' l' Hl'. simpl in Hl'. destruct (decide (p' = p)) as [->|Hne].
    2: { rewrite lookup_insert_ne in Hl' by congruence. by apply (ri_part _ _ _ _ HR). }
    rewrite lookup_insert_eq in Hl'. injection Hl' as <-. split_and!.
    + unfold lockers. rewrite fmap_app. apply NoDup_app. split_and!; [done| |apply NoDup_singleton].
      intros k (b & -> & Hb)%list_elem_of_fmap He%list_elem_of_singleton. apply (Habs b); [right; eauto|done].
    + intros r' [?|Hx%list_elem_of_singleton]%elem_of_app; [auto|by subst].
    + exists h. split_and!; [done..|]. intros r' [?|Hx%list_elem_of_singleton]%elem_of_app; [auto|by subst].
  - intros k r0 Hr0. destruct (ri_lock _ _ _ _ HR k r0 Hr0) as (? & ? & Hn). split_and!; [done..|].
    intros r' [Hr'| ->]%Hpr; [auto|]. congruence.
  - apply (ri_unlock _ _ _ _ HR).
Qed.

(** The head is replaced. *)
Lemma RInv_head s pl pl' pu pu' res h h' :
  RInv s pl pu res → lm_heads s !! res = Some h → HInv h' → partitions h' = partitions h →
  (partitions h ≠ [] → intent_only h') →
  (∀ r, r ∈ requests h' → rq_locker r ∈ ids ∧ req_ok (bool_decide ((res, rq_locker r) ∈ pu')) r) →
  (∀ p l r, lm_partitions s !! (p, res) = Some l → r ∈ l → rq_locker r ∉ lockers (requests h')) →
  (∀ k, (res, k) ∈ pu' → k ∈ lockers (requests h')) →
  (∀ k r, pl' !! (res, k) = Some r → pl !! (res, k) = Some r ∧ k ∉ lockers (requests h')) →
  stepped s pl' pu' res (λ r, r ∈ requests h' ∨ ∃ p l, lm_partitions s !! (p, res) = Some l ∧ r ∈ l)
    (s <| lm_heads := <[res := h']> (lm_heads s) |>).
Proof.
  intros HR Hh HI' Hp' Hint' Hok Hd Hu Hl. set (s' := s <| lm_heads := _ |>).
  assert (∀ r, present s' res r ↔ r ∈ requests h' ∨ ∃ p l, lm_partitions s !! (p, res) = Some l ∧ r ∈ l) as Hpr.
  { intros r. unfold present, s'. simpl. rewrite lookup_insert_eq. naive_solver. }
  split_and!; [|apply head_elsewhere|done]. split.
  - simpl. rewrite lookup_insert_eq. intros h0 [= <-]. rewrite Hp'. done.
  - intros r [Hr|(p & l & Hpl & Hr)]%Hpr; [auto|].
    destruct (ri_present _ _ _ _ HR r) as [Hin Hrok]; [right; eauto|]. split; [done|].
    destruct (ri_part _ _ _ _ HR p l Hpl) as (_ & Hpo & _). destruct (Hpo r Hr) as [_ Hnp].
    rewrite bool_decide_false in Hrok by done. rewrite bool_decide_false; [done|]. intros Hx%Hu. by apply (Hd p l r).
  - intros p l Hpl. destruct (ri_part _ _ _ _ HR p l Hpl) as (Hnd & Hpo & h0 & Hh0 & Hp & _).
    assert (h0 = h) as -> by congruence. split_and!; [done| |].
    + intros r Hr. split; [by apply Hpo|]. intros Hx%Hu. by apply (Hd p l r).
    + exists h'. simpl. rewrite lookup_insert_eq, Hp'. split_and!; [done..|]. intros r Hr. by apply (Hd p l r).
  - intros k r Hr. destruct (Hl k r Hr) as [Hr' Hk]. destruct (ri_lock _ _ _ _ HR k r Hr') as (? & ? & Hn).
    split_and!; [done..|]. intros b [Hb|Hb]%Hpr; [|apply Hn; by right].
    intros <-. destruct Hk. by apply list_elem_of_fmap_2.
  - intros k Hk. exists h'. simpl. rewrite lookup_insert_eq. auto.
Qed.
(** The partition of a resource is opened. *)
Lemma RInv_open s pl pu res p h :
  RInv s pl pu res → lm_heads s !! res = Some h → intent_only h →
  wp (partition_findOrInsert p res ;;
      on_head 464 res (modify (λ h, h <| partitions := partitions h ++ [p] |>)))
     (λ _ s', stepped s pl pu res (present s res) s' ∧ is_Some (lm_partitions s' !! (p, res))) s.
Proof.
  intros HR Hh Hint. unfold partition_findOrInsert. wp_simpl.
  set (s1 := match lm_partitions s !! (p, res) with Some _ => s | None => _ end).
  assert (lm_heads s1 = lm_heads s) as Hh1 by (unfold s1; by destruct (lm_partitions s !! (p, res))).
  assert (∀ key, key ≠ (p, res) → lm_partitions s1 !! key = lm_partitions s !! key) as Hne.
  { intros key Hk. unfold s1. destruct (lm_partitions s !! (p, res)); [done|]. simpl. by rewrite lookup_insert_ne. }
  assert (∃ l, lm_partitions s1 !! (p, res) = Some l ∧
    (lm_partitions s !! (p, res) = Some l ∨ l = [] ∧ lm_partitions s !! (p, res) = None)) as (l1 & Hl1 & Hor).
  { unfold s1. destruct (lm_partitions s !! (p, res)) as [l|] eqn:E; [exists l; by rewrite E; auto|].
    exists []. simpl. rewrite lookup_insert_eq. auto. }
  apply (wp_on_head _ _ _ _ _ h); [by rewrite Hh1|]. wp_simpl. rewrite Hh1.
  set (h' := h <| partitions := partitions h ++ [p] |>). set (s' := s1 <| lm_heads := _ |>).
  assert (∀ p' l, lm_partitions s' !! (p', res) = Some l → lm_partitions s !! (p', res) = Some l ∨ l = [] ∧ p' = p) as Hback.
  { intros p' l Hl. simpl in Hl. destruct (decide (p' = p)) as [->|Hn]; [|rewrite Hne in Hl by congruence; by left].
    rewrite Hl1 in Hl. injection Hl as <-. destruct Hor as [?|[-> _]]; auto. }
  assert (∀ r, present s' res r ↔ present s res r) as Hpr.
  { intros r. unfold present. simpl. rewrite lookup_insert_eq, Hh. split.
    - intros [(h0 & [= <-] & Hr)|(p' & l & Hl & Hr)]; [by left; exists h|].
      destruct (Hback p' l Hl) as [?|[-> _]]; [right; eauto|by apply elem_of_nil in Hr].
    - intros [(h0 & [= <-] & Hr)|(p' & l & Hl & Hr)]; [left; by exists h'|]. right.
      destruct (decide (p' = p)) as [->|Hn]; [|exists p', l; by rewrite Hne by congruence].
      exists p, l1. destruct Hor as [Hx|[_ Hx]]; [|congruence]. split; [done|congruence]. }
  destruct (ri_head _ _ _ _ HR h Hh) as [HI _].
  split; [|by exists l1]. split_and!; [|intros res' Hx; simpl; split;
    [by rewrite lookup_insert_ne|intros p'; apply Hne; congruence]|done].
  split.
  - simpl. rewrite lookup_insert_eq. intros h0 [= <-]. split; [by apply HInv_partitions|done].
  - intros r Hr%Hpr. by apply (ri_present _ _ _ _ HR).
  - intros p' l Hl. simpl. rewrite lookup_insert_eq. destruct (Hback p' l Hl) as [Hl'|[-> ->]].
    + destruct (ri_part _ _ _ _ HR p' l Hl') as (? & ? & h0 & Hh0 & Hp & Hd). assert (h0 = h) as -> by congruence.
      split_and!; [done..|]. exists h'. split_and!; [done|simpl; apply elem_of_app; by left|done].
    + split_and!; [apply NoDup_nil_2|intros r Hr; by apply elem_of_nil in Hr|].
      exists h'. split_and!; [done|simpl; apply elem_of_app; right; by left|]. intros r Hr. by apply elem_of_nil in Hr.
  - intros k r Hr. destruct (ri_lock _ _ _ _ HR k r Hr) as (? & ? & Hn). split_and!; [done..|]. intros r' Hr'%Hpr. auto.
  - intros k Hk. destruct (ri_unlock _ _ _ _ HR k Hk) as (h0 & Hh0 & ?). assert (h0 = h) as -> by congruence.
    exists h'. simpl. by rewrite lookup_insert_eq.
Qed.

(** Whether a request can be granted next to the requests [P] of its resource, wherever they are. *)
Definition may_grant (P : LockRequest → Prop) r : Prop :=
  (∀ b m, P b → rq_status b ≠ STATUS_WAITING → holds b m = true → clash (rq_mode r) m = false) ∧
  ((∃ b, P b ∧ rq_status b ≠ STATUS_WAITING ∧ rq_compatibleFirst b = true) ∨
   ∀ b, P b → rq_status b = STATUS_WAITING → clash (rq_mode r) (rq_mode b) = false).

Lemma on_granted h b : HCore h → b ∈ grantedList h ↔ b ∈ requests h ∧ rq_status b ≠ STATUS_WAITING.
Proof.
  intros HC. pose proof (hc_granted h HC) as Hg. pose proof (hc_waiting h HC) as Hw. rewrite Forall_forall in Hg, Hw.
  unfold requests. rewrite elem_of_app. split.
  - intros Hb. split; [by left|]. destruct (Hg b Hb) as [_ Hs]. intros Hx. by rewrite Hx in Hs.
  - intros [[?|Hb] Hn]; [done|]. by destruct (Hw b Hb).
Qed.
Lemma on_conflict h b : HCore h → b ∈ conflictList h ↔ b ∈ requests h ∧ rq_status b = STATUS_WAITING.
Proof.
  intros HC. pose proof (hc_granted h HC) as Hg. pose proof (hc_waiting h HC) as Hw. rewrite Forall_forall in Hg, Hw.
  unfold requests. rewrite elem_of_app. split.
  - intros Hb. split; [by right|]. by destruct (Hw b Hb).
  - intros [[Hb|?] Hn]; [|done]. destruct (Hg b Hb) as [_ Hs]. by rewrite Hn in Hs.
Qed.
Lemma grants_iff h (P : LockRequest → Prop) r :
  HCore h → (∀ b, b ∈ requests h ↔ P b) → grants r h ↔ may_grant P r.
Proof.
  intros HC HP. unfold grants, may_grant, opposed. rewrite (hc_compatible_first h HC). split.
  - intros [Hn Hw]. split.
    + intros b m Hb Hst Hh. apply not_true_is_false. intros Hcl. apply Hn. exists b, m.
      split_and!; [apply on_granted, conj; [done|by apply HP|done]|done..].
    + destruct Hw as [Hc|Hw]; [left|right].
      * apply count_if_pos_inv in Hc as (b & Hb & Hcf). apply on_granted in Hb as [Hb Hst]; [|done].
        exists b. split_and!; [by apply HP|done..].
      * intros b Hb Hst. apply Hw, on_conflict; [done|]. split; [by apply HP|done].
  - intros [Hn Hw]. split.
    + intros (b & m & Hb & _ & Hh & Hcl). apply on_granted in Hb as [Hb Hst]; [|done]. apply HP in Hb.
      rewrite (Hn b m) in Hcl; done.
    + destruct Hw as [(b & Hb & Hst & Hcf)|Hw]; [left|right].
      * apply (count_if_pos _ _ b); [|done]. apply on_granted; [done|]. split; [by apply HP|done].
      * intros b Hb. apply on_conflict in Hb as [Hb Hst]; [|done]. apply Hw; [by apply HP|done].
Qed.
(** Intent modes are compatible. *)
Lemma intent_may_grant s pl pu res h r :
  RInv s pl pu res → lm_heads s !! res = Some h → intent_only h → is_intent (rq_mode r) = true →
  may_grant (present s res) r.
Proof.
  intros HR Hh [Hc Hi] Hr. destruct (ri_head _ _ _ _ HR h Hh) as [[HC _] _].
  pose proof (hc_granted h HC) as Hg. rewrite Forall_forall in Hg.
  assert (∀ b, present s res b → is_intent (rq_mode b) = true ∧ rq_status b = STATUS_GRANTED ∧ rq_convertMode b = MODE_NONE) as Hall.
  { intros b [(h0 & Hh0 & Hb)|(p & l & Hl & Hb)].
    - assert (h0 = h) as -> by congruence. unfold requests in Hb. rewrite Hc, app_nil_r in Hb.
      destruct (Hi b Hb) as [? Hst]. destruct (Hg b Hb) as [_ Hs]. by rewrite Hst in Hs.
    - destruct (ri_part _ _ _ _ HR p l Hl) as (_ & Hok & _). destruct (Hok b Hb) as [(? & ? & ? & _) _]. done. }
  split.
  - intros b m Hb _ Hh'. destruct (Hall b Hb) as (Him & _ & Hcv). apply holds_cases in Hh' as [Hne [<-|Hx]]; [|congruence].
    by apply intent_no_clash.
  - right. intros b Hb Hst. destruct (Hall b Hb) as (_ & Hx & _). congruence.
Qed.
Lemma no_partitions s pl pu res h p :
  RInv s pl pu res → lm_heads s !! res = Some h → partitions h = [] → lm_partitions s !! (p, res) = None.
Proof.
  intros HR Hh Hp. destruct (lm_partitions s !! (p, res)) as [l|] eqn:E; [|done].
  destruct (ri_part _ _ _ _ HR p l E) as (_ & _ & h0 & Hh0 & Hin & _). assert (h0 = h) as -> by congruence.
  rewrite Hp in Hin. by apply elem_of_nil in Hin.
Qed.
Lemma present_head s pl pu res h r :
  RInv s pl pu res → lm_heads s !! res = Some h → partitions h = [] → r ∈ requests h ↔ present s res r.
Proof.
  intros HR Hh Hp. unfold present. split; [eauto|]. intros [(h0 & Hh0 & Hr)|(p & l & Hl & _)]; [congruence|].
  by rewrite (no_partitions s pl pu res h) in Hl.
Qed.

(** What [lock] has done with the request [r]: granted if nothing is against it, queued otherwise. *)
Definition locked s pl pu res r (result : LockResult) s' : Prop :=
  (result = LOCK_OK ∧ may_grant (present s res) r ∧
   ∃ part, stepped s pl pu res (λ b, present s res b ∨
     b = r <| rq_status := STATUS_GRANTED |> <| rq_partitioned := part |>) s') ∨
  (result = LOCK_WAITING ∧ ¬ may_grant (present s res) r ∧
   stepped s pl pu res (λ b, present s res b ∨
     b = r <| rq_status := STATUS_WAITING |> <| rq_partitioned := false |>) s').

Section lock.
Context (s : LockManager) (pl : gmap (Z * Z) LockRequest) (pu : gset (Z * Z)) (res : Z) (HR : RInv s pl pu res).
Context (r : LockRequest) (Hnopl : pl !! (res, rq_locker r) = None) (Hin : rq_locker r ∈ ids)
  (Habs : ∀ r', present s res r' → rq_locker r' ≠ rq_locker r).

Lemma not_unlocking : (res, rq_locker r) ∉ pu.
Proof.
  intros (h & Hh & (b & He & Hb)%list_elem_of_fmap)%(ri_unlock _ _ _ _ HR). apply (Habs b); [left; eauto|done].
Qed.
(** On the head of a resource that is not partitioned. *)
Lemma wp_lock_head h :
  lm_heads s !! res = Some h → partitions h = [] → rq_mode r ≠ MODE_NONE → rq_convertMode r = MODE_NONE →
  rq_recursiveCount r = 1 →
  wp (on_head 475 res (newRequest (r <| rq_partitioned := false |>))) (locked s pl pu res r) s.
Proof.
  intros Hh Hp Hm Hcv Hrc. destruct (ri_head _ _ _ _ HR h Hh) as [HI _]. pose proof HI as [HC _].
  set (r' := r <| rq_partitioned := false |>).
  assert (∀ b, b ∈ requests h ↔ present s res b) as HP by (intros; by eapply present_head).
  assert (rq_locker r' ∉ lockers (requests h)) as Hfr.
  { intros (b & He & Hb)%list_elem_of_fmap. apply (Habs b); [by apply HP|done]. }
  assert (fresh_request r' h) as Hf.
  { split_and!; [done..|]. pose proof (size_bound (requests h)) as Hb. 
    assert (∀ b, b ∈ requests h → rq_locker b ∈ ids) as Hi by (intros b Hb'; apply (ri_present _ _ _ _ HR); by apply HP).
    specialize (Hb (hc_unique h HC) Hi). lia. }
  assert (∀ h' r'', HInv h' → partitions h' = partitions h → requests h' ≡ₚ r'' :: requests h →
    rq_locker r'' = rq_locker r → req_ok false r'' →
    stepped s pl pu res (λ b, present s res b ∨ b = r'') (s <| lm_heads := <[res := h']> (lm_heads s) |>)) as Hstep.
  { intros h' r'' HI' Hp' Hreq Hlk Hok.
    destruct (RInv_head s pl pl pu pu res h h') as (HR' & Hel & Hpr); try done.
    - intros b. rewrite Hreq. intros [->|Hb]%elem_of_cons.
      + rewrite Hlk. split; [done|]. by rewrite bool_decide_false by apply not_unlocking.
      + apply (ri_present _ _ _ _ HR). by apply HP.
    - intros p l b Hl. by rewrite (no_partitions s pl pu res h) in Hl.
    - intros k (h0 & Hh0 & Hk)%(ri_unlock _ _ _ _ HR). assert (h0 = h) as -> by congruence.
      unfold lockers in *. rewrite Hreq. by right.
    - intros k b Hb. split; [done|]. destruct (ri_lock _ _ _ _ HR k b Hb) as (_ & _ & Hn).
      unfold lockers. rewrite Hreq, fmap_cons, not_elem_of_cons, Hlk. split; [intros ->; congruence|].
      intros (c & He & Hc)%list_elem_of_fmap. apply (Hn c); [by apply HP|done].
    - split_and!; [done..|]. intros b. rewrite Hpr, Hreq, elem_of_cons, HP. split; [|naive_solver].
      intros [[->|?]|(p & l & Hl & _)]; [by right|by left|by rewrite (no_partitions s pl pu res h) in Hl]. }
  assert (grants r' h ↔ may_grant (present s res) r) as Hg by (by apply (grants_iff h (present s res) r')).
  apply (wp_on_head _ _ _ _ _ h); [done|]. apply (wp_newRequest r' h HI Hf).
  - intros Hgr HI'. left. split_and!; [done|by apply Hg|]. exists false. apply Hstep; try done.
    + unfold requests. rewrite granted_head_list, <-app_assoc. cbn [app]. by rewrite <-Permutation_middle.
    + unfold req_ok. simpl. lia.
  - intros Hgr HI'. right. split_and!; [done|by rewrite <-Hg|]. apply Hstep; try done.
    unfold requests, queued_head, r'. simpl. destruct (rq_enqueueAtFront r); simpl.
    + by rewrite <-Permutation_middle.
    + rewrite app_assoc. by rewrite <-Permutation_cons_append.
Qed.
(** In the partition of the locker. *)
Lemma wp_lock_partition h p l :
  lm_heads s !! res = Some h → intent_only h → p = _getPartition (rq_locker r) →
  lm_partitions s !! (p, res) = Some l → rq_partitioned r = true → is_intent (rq_mode r) = true →
  rq_convertMode r = MODE_NONE → rq_recursiveCount r = 1 →
  wp (partitioned_newRequest p res r ;; mret LOCK_OK) (locked s pl pu res r) s.
Proof.
  intros Hh Hint -> Hl Hpr Hm Hcv Hrc. unfold partitioned_newRequest. wp_simpl. split; [done|].
  left. split_and!; [done|by eapply intent_may_grant|]. exists true.
  rewrite (alter_lookup _ _ _ l) by done.
  assert (r <| rq_status := STATUS_GRANTED |> <| rq_partitioned := true |> = r <| rq_status := STATUS_GRANTED |>) as ->
    by (destruct r; simpl in *; by subst).
  apply (RInv_join s pl pu res _ l (r <| rq_status := STATUS_GRANTED |>)); try done. simpl. lia.
Qed.
End lock.

#[local] Instance may_grant_proper : Proper (pointwise_relation _ iff ==> eq ==> iff) may_grant.
Proof. intros P P' HP r ? <-. unfold may_grant. by setoid_rewrite HP. Qed.
#[local] Instance stepped_proper s pl pu res : Proper (pointwise_relation _ iff ==> eq ==> iff) (stepped s pl pu res).
Proof. intros P P' HP s' ? <-. unfold stepped. by setoid_rewrite HP. Qed.
(** Code that leaves the requests as they are can go first. *)
Lemma stepped_after s s1 pl pu res P s' :
  elsewhere res s s1 → stepped s1 pl pu res P s' → stepped s pl pu res P s'.
Proof. intros Hel (? & ? & ?). split_and!; [done|by eapply elsewhere_trans|done]. Qed.
Lemma locked_after s s1 pl pu res r result s' :
  elsewhere res s s1 → (∀ b, present s1 res b ↔ present s res b) →
  locked s1 pl pu res r result s' → locked s pl pu res r result s'.
Proof.
  intros Hel HP [(-> & Hg & part & Hs)|(-> & Hg & Hs)]; [left|right];
    rewrite (may_grant_proper (present s1 res) (present s res) HP r r eq_refl) in Hg;
    (split_and!; [done..|]); [exists part|]; eapply stepped_after; try done;
    (eapply stepped_proper; [|reflexivity|exact Hs]); intros b; cbn beta; by rewrite HP.
Qed.

Definition prepared r mode : LockRequest := r <| rq_partitioned := is_intent mode |> <| rq_mode := mode |>.
Lemma wp_lock_begin s pl pu res r mode :
  RInv s pl pu res → pl !! (res, rq_locker r) = None → rq_locker r ∈ ids →
  (∀ r', present s res r' → rq_locker r' ≠ rq_locker r) →
  rq_status r = STATUS_NEW → rq_recursiveCount r = 1 → rq_convertMode r = MODE_NONE →
  wp (lock_begin res r mode) (λ o s', match o with
    | inl result => locked s pl pu res (prepared r mode) result s'
    | inr r' => r' = prepared r mode ∧ s' = s
    end) s.
Proof.
  intros HR Hnopl Hin Habs Hst Hrc Hcv. unfold lock_begin. wp_simpl. split; [unfold has_status; by rewrite Hst|].
  split; [lia|]. unfold id. simpl.
  destruct (is_intent mode) eqn:Em; simpl; [|wp_simpl; unfold prepared; by rewrite Em].
  case_bool_decide as Hp; simpl; [|wp_simpl; unfold prepared; by rewrite Em].
  destruct Hp as [l Hl]. destruct (ri_part _ _ _ _ HR _ l Hl) as (_ & _ & h & Hh & Hph & _).
  destruct (ri_head _ _ _ _ HR h Hh) as [_ Hint].
  assert (intent_only h) as Hi by (apply Hint; intros Hx; rewrite Hx in Hph; by apply elem_of_nil in Hph).
  pose proof (wp_lock_partition s pl pu res HR (prepared r mode) Hnopl Hin Habs h _ l Hh Hi eq_refl Hl) as H.
  unfold prepared in H. rewrite Em in H. specialize (H eq_refl Em Hcv Hrc).
  apply wp_bind in H. apply wp_bind. eapply wp_mono; [|exact H]. intros [] s' Hs. wp_simpl. unfold prepared. by rewrite Em.
Qed.
Lemma wp_lock_finish s pl pu res r :
  RInv s pl pu res → pl !! (res, rq_locker r) = None → rq_locker r ∈ ids →
  (∀ r', present s res r' → rq_locker r' ≠ rq_locker r) →
  rq_recursiveCount r = 1 → rq_mode r ≠ MODE_NONE → rq_convertMode r = MODE_NONE →
  rq_partitioned r = is_intent (rq_mode r) →
  wp (lock_finish res r) (locked s pl pu res r) s.
Proof.
  intros HR Hnopl Hin Habs Hrc Hm Hcv Hpt. unfold lock_finish. apply wp_bind.
  eapply wp_mono; [|by apply (wp_findOrInsert s pl pu res)]. intros _ s1 ((HR1 & Hel1 & Hpr1) & [h1 Hh1]).
  destruct (ri_head _ _ _ _ HR1 h1 Hh1) as [HI1 _]. apply wp_bind, (wp_peek _ _ _ _ _ h1); [done|]. unfold id. cbn zeta.
  rewrite <-andb_assoc. destruct (rq_partitioned r && _) eqn:E.
  - apply andb_true_iff in E as [Ep Ei]. apply (intent_only_iff h1 HI1) in Ei.
    pose proof (RInv_open s1 pl pu res (_getPartition (rq_locker r)) h1 HR1 Hh1 Ei) as Ho.
    apply wp_bind in Ho. apply wp_bind. eapply wp_mono; [|exact Ho]. intros [] s2' Ho'. apply wp_bind.
    eapply wp_mono; [|exact Ho']. intros _ s2 ((HR2 & Hel2 & Hpr2) & [l Hl]).
    destruct (ri_part _ _ _ _ HR2 _ l Hl) as (_ & _ & h2 & Hh2 & Hph & _).
    destruct (ri_head _ _ _ _ HR2 h2 Hh2) as [_ Hint].
    assert (intent_only h2) as Hi by (apply Hint; intros Hx; rewrite Hx in Hph; by apply elem_of_nil in Hph).
    eapply wp_mono; [|apply (wp_lock_partition s2 pl pu res HR2 r Hnopl Hin) with (h := h2) (l := l)]; try done.
    + intros result s'. apply locked_after; [by eapply elsewhere_trans|]. intros b. by rewrite Hpr2, Hpr1.
    + intros b Hb. apply Habs. by rewrite <-Hpr1, <-Hpr2.
    + congruence.
  - apply wp_bind. eapply wp_mono; [|by apply (wp_migrate s1 pl pu res h1)].
    intros _ s2 (HR2 & Hel2 & Hpr2 & h2 & Hh2 & Hps2).
    eapply wp_mono; [|apply (wp_lock_head s2 pl pu res HR2 r Hnopl Hin) with (h := h2)]; try done.
    + intros result s'. apply locked_after; [by eapply elsewhere_trans|]. intros b. by rewrite Hpr2, Hpr1.
    + intros b Hb. apply Habs. by rewrite <-Hpr1, <-Hpr2.
Qed.
End invariant.
