(* ===== verification/LockManagerOps.v ===== *)
(** * The operations of the lock manager keep its invariant

    [convert], the two critical sections of [unlock], [downgrade] and the clean-up of unused heads:
    each keeps [RInv] of its resource, leaves the others alone and does not abort. *)
From S2P Require Import Prelude LockManager LockHeadInv LockHeadOps LockManagerInv.
Import Mode Head Manager.
Implicit Types (h : LockHead) (r : LockRequest) (s : LockManager) (res k p : Z)
  (pl : gmap (Z * Z) LockRequest) (pu : gset (Z * Z)).

(** ** Writing a recursion count *)
Definition recounts (f : LockRequest → LockRequest) : Prop :=
  ∀ r, f r = r <| rq_recursiveCount := rq_recursiveCount (f r) |>.
Definition write_head k (f : LockRequest → LockRequest) h : LockHead :=
  h <| grantedList := write_request k f (grantedList h) |> <| conflictList := write_request k f (conflictList h) |>.

Section recount.
Context (k : Z) (f : LockRequest → LockRequest) (Hf : recounts f).
Let g r : LockRequest := if by_locker k r then f r else r.

Lemma recount_fields r :
  rq_locker (g r) = rq_locker r ∧ rq_enqueueAtFront (g r) = rq_enqueueAtFront r ∧
  rq_compatibleFirst (g r) = rq_compatibleFirst r ∧ rq_partitioned (g r) = rq_partitioned r ∧
  rq_status (g r) = rq_status r ∧ rq_mode (g r) = rq_mode r ∧ rq_convertMode (g r) = rq_convertMode r.
Proof. unfold g. destruct (by_locker k r); [|done]. by rewrite Hf. Qed.
Lemma recount_holds r m : holds (g r) m = holds r m.
Proof. destruct (recount_fields r) as (_ & _ & _ & _ & _ & Hm & Hc). unfold holds. by rewrite Hm, Hc. Qed.
Lemma recount_count (q : LockRequest → bool) l :
  (∀ r, q (g r) = q r) → count_if q (write_request k f l) = count_if q l.
Proof.
  intros Hq. induction l as [|r l IH]; [done|]. unfold write_request in *. rewrite fmap_cons, !count_if_cons, IH.
  change (if by_locker k r then f r else r) with (g r). by rewrite Hq.
Qed.
Lemma recount_elem l r : r ∈ write_request k f l ↔ ∃ r0, r0 ∈ l ∧ r = g r0.
Proof. unfold write_request. rewrite list_elem_of_fmap. naive_solver. Qed.
Lemma recount_opposed o a l : opposed o a l → opposed o a (write_request k f l).
Proof.
  intros (b & m & Hb & Hk & Hh & Hcl). exists (g b), m. destruct (recount_fields b) as (Hl & _).
  split_and!; [apply recount_elem; eauto|by rewrite Hl|by rewrite recount_holds|done].
Qed.
Lemma recount_lockers l : lockers (write_request k f l) = lockers l.
Proof. apply lockers_write. intros r. by rewrite Hf. Qed.
Lemma HInv_write h : HInv h → HInv (write_head k f h).
Proof.
  intros [[H1 H2 H3 H4 H5 H6 H7 H8 H9 H10 H11] [L1 L2 L3]]. split; constructor; simpl; try done.
  - intros m. rewrite H1, recount_count; [done|]. intros r. apply recount_holds.
  - intros m. rewrite H3, recount_count; [done|]. intros r. by destruct (recount_fields r) as (_ & _ & _ & _ & _ & -> & _).
  - rewrite H5, recount_count; [done|]. intros r. unfold has_status.
    by destruct (recount_fields r) as (_ & _ & _ & _ & -> & _).
  - rewrite H6, recount_count; [done|]. intros r. apply recount_fields.
  - apply Forall_fmap. eapply Forall_impl; [exact H7|]. intros r Hr. unfold compose. change (granted_ok (g r)).
    destruct (recount_fields r) as (_ & _ & _ & _ & Hs & Hm & Hc). unfold granted_ok. by rewrite Hs, Hm, Hc.
  - apply Forall_fmap. eapply Forall_impl; [exact H8|]. intros r Hr. unfold compose. change (waiting_ok (g r)).
    destruct (recount_fields r) as (_ & _ & _ & _ & Hs & Hm & Hc). unfold waiting_ok. by rewrite Hs, Hm, Hc.
  - intros a b (a0 & Ha & ->)%recount_elem (b0 & Hb & ->)%recount_elem.
    destruct (recount_fields a0) as (-> & _ & _ & _ & _ & -> & _), (recount_fields b0) as (-> & _ & _ & _ & _ & -> & _). auto.
  - unfold lockers in *. rewrite fmap_app in *. pose proof recount_lockers as Hl. unfold lockers in Hl. by rewrite !Hl.
  - unfold write_request, vsize in *. by rewrite !length_fmap.
  - intros a (a0 & Ha & ->)%recount_elem. destruct (recount_fields a0) as (-> & _ & _ & _ & -> & _ & ->).
    intros Hs. by apply recount_opposed, L1.
  - intros a l Hl. destruct (conflictList h) as [|a0 l0]; [done|]. unfold write_request in Hl. rewrite fmap_cons in Hl.
    injection Hl as <- _. fold (g a0). destruct (recount_fields a0) as (_ & -> & _ & _ & _ & -> & _).
    destruct (L2 a0 l0 eq_refl) as [?|?]; [by left|right]. by apply recount_opposed.
  - intros Hg. unfold write_request in Hg. apply fmap_nil_inv in Hg. by rewrite (L3 Hg).
Qed.
Lemma write_head_requests h : requests (write_head k f h) = write_request k f (requests h).
Proof. unfold requests, write_request. simpl. by rewrite fmap_app. Qed.
End recount.

Lemma lockers_put r r' l :
  rq_locker r' = rq_locker r → lockers (write_request (rq_locker r) (λ _, r') l) = lockers l.
Proof.
  intros Hlk. unfold lockers, write_request. rewrite <-list_fmap_compose. apply list_fmap_ext. intros i b _.
  unfold compose. destruct (by_locker (rq_locker r) b) eqn:E; [|done]. apply by_locker_true in E. congruence.
Qed.

(** The requests of the others stay as they are. *)
Definition others_kept s s' res k : Prop := ∀ b, rq_locker b ≠ k → present s' res b ↔ present s res b.
Lemma set_request_present s res h b f :
  lm_heads s !! res = Some h → b ∈ requests h → recounts f →
  let s' := s <| lm_heads := <[res := write_head (rq_locker b) f h]> (lm_heads s) |> in
  present s' res (f b) ∧ others_kept s s' res (rq_locker b).
Proof.
  intros Hh Hb Hf s'. split.
  - left. exists (write_head (rq_locker b) f h). unfold s'. simpl. rewrite lookup_insert_eq. split; [done|].
    rewrite write_head_requests. apply list_elem_of_fmap. exists b. unfold by_locker. by rewrite Z.eqb_refl.
  - intros b' Hb'. unfold present, s'. simpl. rewrite lookup_insert_eq, Hh. apply or_iff_compat_r.
    split; intros (h0 & [= <-] & Hin); eexists; (split; [done|]); rewrite write_head_requests in *.
    + apply elem_of_write in Hin as [[? _]|(b0 & _ & He & ->)]; [done|]. by rewrite Hf in Hb'.
    + apply list_elem_of_fmap. exists b'. split; [|done]. destruct (by_locker _ b') eqn:E; [|done].
      by apply by_locker_true in E.
Qed.
Section operations.
Context (ids : gset Z) (Hids : Z.of_nat (size ids) < two32 - 2).
Context (s : LockManager) (pl : gmap (Z * Z) LockRequest) (pu : gset (Z * Z)) (res : Z) (HR : RInv ids s pl pu res).
Abbreviation RI := (RInv ids).

(** The invariant holds again and the other resources are untouched. *)
Definition kept pl' pu' s' : Prop := RI s' pl' pu' res ∧ elsewhere res s s'.

Lemma set_request_part p l r f :
  lm_partitions s !! (p, res) = Some l → r ∈ l →
  set_request res (rq_locker r) f s =
  Ret (tt, s <| lm_partitions := <[(p, res) := write_request (rq_locker r) f l]> (lm_partitions s) |>).
Proof.
  intros Hl Hr. pose proof (partition_of _ _ _ _ _ HR _ _ _ Hl Hr) as Hp.
  unfold set_request, modify. do 2 f_equal. rewrite <-Hp, (alter_lookup _ _ _ l Hl). simpl.
  rewrite alter_id; [done|]. intros h Hh.
  destruct (ri_part _ _ _ _ _ HR _ _ Hl) as (_ & _ & h0 & Hh0 & _ & Hd). assert (h0 = h) as -> by congruence.
  specialize (Hd r Hr). unfold requests, lockers in Hd. rewrite fmap_app, not_elem_of_app in Hd. destruct Hd as [Hg Hc].
  rewrite !write_fresh by done. by destruct h.
Qed.
Lemma set_request_head h r f :
  lm_heads s !! res = Some h → r ∈ requests h →
  set_request res (rq_locker r) f s = Ret (tt, s <| lm_heads := <[res := write_head (rq_locker r) f h]> (lm_heads s) |>).
Proof.
  intros Hh Hr. unfold set_request, modify. do 2 f_equal. rewrite (alter_lookup _ (lm_heads s) _ h Hh). simpl.
  rewrite alter_id; [done|]. intros l Hl. apply write_fresh.
  intros (b & He & Hb)%list_elem_of_fmap. destruct (ri_part _ _ _ _ _ HR _ _ Hl) as (_ & _ & h0 & Hh0 & _ & Hd).
  assert (h0 = h) as -> by congruence. apply (Hd b Hb). rewrite <-He. by apply list_elem_of_fmap_2.
Qed.

(** A request on the head is counted up or down. *)
Lemma RInv_recount pu' h r f :
  lm_heads s !! res = Some h → r ∈ requests h → recounts f →
  (∀ k, k ≠ rq_locker r → (res, k) ∈ pu' ↔ (res, k) ∈ pu) →
  req_ok (bool_decide ((res, rq_locker r) ∈ pu')) (f r) →
  kept pl pu' (s <| lm_heads := <[res := write_head (rq_locker r) f h]> (lm_heads s) |>).
Proof.
  intros Hh Hr Hf Hpu Hok. destruct (ri_head _ _ _ _ _ HR h Hh) as [HI Hint].
  assert (lockers (requests (write_head (rq_locker r) f h)) = lockers (requests h)) as Hlk
    by (rewrite write_head_requests; by apply recount_lockers).
  destruct (RInv_head ids s pl pl pu pu' res h (write_head (rq_locker r) f h)) as (HR' & Hel & _); try done.
  - by apply HInv_write.
  - intros Hp. destruct (Hint Hp) as [Hc Hi]. split; [simpl; by rewrite Hc|]. simpl.
    intros b (b0 & Hb & ->)%(recount_elem (rq_locker r) f).
    destruct (recount_fields (rq_locker r) f Hf b0) as (_ & _ & _ & _ & -> & -> & _). auto.
  - intros b. rewrite write_head_requests. intros [[Hb Hne]|(b0 & Hb & He & ->)]%elem_of_write.
    + destruct (ri_present _ _ _ _ _ HR b) as [Hin Hbok]; [left; eauto|]. split; [done|].
      by rewrite (bool_decide_ext _ ((res, rq_locker b) ∈ pu)) by auto.
    + assert (b0 = r) as -> by (eapply same_locker; [apply HI|done..]). split.
      * rewrite Hf. simpl. apply (ri_present _ _ _ _ _ HR). left; eauto.
      * assert (rq_locker (f r) = rq_locker r) as -> by (by rewrite Hf). done.
  - intros p l b Hl Hb. rewrite Hlk. destruct (ri_part _ _ _ _ _ HR _ _ Hl) as (_ & _ & h0 & Hh0 & _ & Hd).
    assert (h0 = h) as -> by congruence. auto.
  - intros k Hk. rewrite Hlk. destruct (decide (k = rq_locker r)) as [->|Hne]; [by apply list_elem_of_fmap_2|].
    apply Hpu in Hk; [|done]. destruct (ri_unlock _ _ _ _ _ HR k Hk) as (h0 & Hh0 & ?). congruence.
  - intros k b Hb. split; [done|]. rewrite Hlk. intros (b0 & -> & Hb0)%list_elem_of_fmap.
    destruct (ri_lock _ _ _ _ _ HR _ b Hb) as (_ & _ & Hn). apply (Hn b0); [left; eauto|done].
Qed.
(** The list of a partition is replaced by one of the same lockers or fewer. *)
Lemma RInv_partition p l l' :
  lm_partitions s !! (p, res) = Some l → NoDup (lockers l') →
  (∀ r, r ∈ l' → part_ok p r ∧ 1 ≤ rq_recursiveCount r ∧ rq_locker r ∈ lockers l) →
  kept pl pu (s <| lm_partitions := <[(p, res) := l']> (lm_partitions s) |>).
Proof.
  intros Hl Hnd Hl'. destruct (ri_part _ _ _ _ _ HR _ _ Hl) as (_ & Hok & h & Hh & Hp & Hd).
  set (s' := s <| lm_partitions := _ |>).
  assert (∀ b, present s' res b → (present s res b) ∨ b ∈ l') as Hpr.
  { intros b [?|(p' & l0 & Hl0 & Hb)]; [by left; left|]. simpl in Hl0. destruct (decide (p' = p)) as [->|Hne].
    - rewrite lookup_insert_eq in Hl0. injection Hl0 as <-. by right.
    - rewrite lookup_insert_ne in Hl0 by congruence. left. right. eauto. }
  assert (∀ r, r ∈ l' → ∃ r0, r0 ∈ l ∧ rq_locker r = rq_locker r0) as Hback.
  { intros r Hr. destruct (Hl' r Hr) as (_ & _ & (r0 & ? & ?)%list_elem_of_fmap). eauto. }
  split; [|intros res' Hne; simpl; split; [done|intros p'; by rewrite lookup_insert_ne by congruence]].
  split.
  - apply (ri_head _ _ _ _ _ HR).
  - intros b [?|Hb]%Hpr; [by apply (ri_present _ _ _ _ _ HR)|]. destruct (Hl' b Hb) as ((_ & Hst & _) & Hc & _).
    destruct (Hback b Hb) as (b0 & Hb0 & He). rewrite He. destruct (Hok b0 Hb0) as [_ Hnp].
    split; [apply (ri_present _ _ _ _ _ HR); right; eauto|]. rewrite bool_decide_false by done. unfold req_ok. by rewrite Hst.
  - intros p' l0 Hl0. simpl in Hl0. destruct (decide (p' = p)) as [->|Hne].
    2: { rewrite lookup_insert_ne in Hl0 by congruence. by apply (ri_part _ _ _ _ _ HR). }
    rewrite lookup_insert_eq in Hl0. injection Hl0 as <-. split_and!; [done|..].
    + intros r Hr. split; [by apply Hl'|]. destruct (Hback r Hr) as (r0 & Hr0 & ->). by apply Hok.
    + exists h. split_and!; [done..|]. intros r Hr. destruct (Hback r Hr) as (r0 & Hr0 & ->). auto.
  - intros k b Hb. destruct (ri_lock _ _ _ _ _ HR k b Hb) as (? & ? & Hn). split_and!; [done..|].
    intros b' [?|Hb']%Hpr; [auto|]. destruct (Hback b' Hb') as (b0 & Hb0 & ->). apply Hn. right. eauto.
  - apply (ri_unlock _ _ _ _ _ HR).
Qed.
(** The count of a request of the locker changes, wherever the request is. *)
Lemma wp_set_request r f :
  present s res r → recounts f → (res, rq_locker r) ∉ pu → req_ok false (f r) →
  wp (set_request res (rq_locker r) f) (λ _ s', kept pl pu s' ∧ present s' res (f r) ∧
    ∀ b, rq_locker b ≠ rq_locker r → present s' res b ↔ present s res b) s.
Proof.
  intros [(h & Hh & Hr)|(p & l & Hl & Hr)] Hf Hnp Hok; unfold wp.
  - rewrite (set_request_head h r f Hh Hr). split_and!.
    + apply (RInv_recount pu h r f); [done..|]. by rewrite bool_decide_false.
    + apply (proj1 (set_request_present s res h r f Hh Hr Hf)).
    + apply (proj2 (set_request_present s res h r f Hh Hr Hf)).
  - rewrite (set_request_part p l r f Hl Hr).
    destruct (ri_part _ _ _ _ _ HR _ _ Hl) as (Hnd & Hpok & _). split_and!.
    + apply (RInv_partition p l); [done|by rewrite recount_lockers|].
      intros b [[Hb Hne]|(b0 & Hb & He & ->)]%elem_of_write.
      * split; [by apply Hpok|]. split; [|by apply list_elem_of_fmap_2].
        destruct (ri_present _ _ _ _ _ HR b) as [_ Hx]; [right; eauto|]. destruct (Hpok b Hb) as [(_ & Hst & _) Hnb].
        rewrite bool_decide_false in Hx by done. unfold req_ok in Hx. by rewrite Hst in Hx.
      * assert (b0 = r) as -> by (by eapply same_locker). destruct (Hpok r Hr) as [(Hm & Hst & Hcv & Hp & Hpp) _].
        unfold req_ok in Hok. rewrite Hf in Hok |- *. simpl in Hok. rewrite Hst in Hok.
        split; [by split_and!|]. split; [done|]. by apply (list_elem_of_fmap_2 rq_locker _ r).
    + right. exists p, (write_request (rq_locker r) f l). simpl. rewrite lookup_insert_eq. split; [done|].
      apply list_elem_of_fmap. exists r. unfold by_locker. by rewrite Z.eqb_refl.
    + intros b Hb. unfold present. simpl. apply or_iff_compat_l. split; intros (p' & l0 & Hl0 & Hin).
      * destruct (decide (p' = p)) as [->|Hne]; [|rewrite lookup_insert_ne in Hl0 by congruence; eauto].
        rewrite lookup_insert_eq in Hl0. injection Hl0 as <-.
        apply elem_of_write in Hin as [[? _]|(b0 & _ & He & ->)]; [eauto|]. by rewrite Hf in Hb.
      * destruct (decide (p' = p)) as [->|Hne]; [|exists p', l0; by rewrite lookup_insert_ne by congruence].
        exists p, (write_request (rq_locker r) f l). rewrite lookup_insert_eq. split; [done|].
        apply list_elem_of_fmap. exists b. split; [|congruence]. destruct (by_locker _ b) eqn:E; [|done].
        by apply by_locker_true in E.
Qed.

(** The head is replaced by one with the same lockers or fewer. *)
Lemma kept_head pu' h h' :
  lm_heads s !! res = Some h → HInv h' → partitions h' = partitions h → (partitions h ≠ [] → intent_only h') →
  (∀ b, b ∈ requests h' → rq_locker b ∈ lockers (requests h) ∧ req_ok (bool_decide ((res, rq_locker b) ∈ pu')) b) →
  (∀ k, (res, k) ∈ pu' → k ∈ lockers (requests h')) →
  kept pl pu' (s <| lm_heads := <[res := h']> (lm_heads s) |>).
Proof.
  intros Hh HI' Hp' Hint' Hreq Hu.
  assert (∀ k, k ∈ lockers (requests h') → k ∈ lockers (requests h)) as Hsub.
  { intros k (b & -> & Hb)%list_elem_of_fmap. by apply Hreq. }
  destruct (RInv_head ids s pl pl pu pu' res h h') as (HR' & Hel & _); try done.
  - intros b Hb. destruct (Hreq b Hb) as [Hin Hok]. split; [|done]. apply list_elem_of_fmap in Hin as (b0 & -> & Hb0).
    apply (ri_present _ _ _ _ _ HR). left; eauto.
  - intros p l b Hl Hb Hx%Hsub. destruct (ri_part _ _ _ _ _ HR _ _ Hl) as (_ & _ & h0 & Hh0 & _ & Hd).
    assert (h0 = h) as -> by congruence. by apply (Hd b).
  - intros k b Hb. split; [done|]. intros (b0 & -> & Hb0)%Hsub%list_elem_of_fmap.
    destruct (ri_lock _ _ _ _ _ HR _ b Hb) as (_ & _ & Hn). apply (Hn b0); [left; eauto|done].
Qed.
(** One granted request is rewritten. *)
Lemma kept_rewrite h h' r r' :
  lm_heads s !! res = Some h → r ∈ grantedList h → HInv h' → partitions h' = partitions h →
  (partitions h ≠ [] → intent_only h') →
  grantedList h' = write_request (rq_locker r) (λ _, r') (grantedList h) → conflictList h' = conflictList h →
  rq_locker r' = rq_locker r → (res, rq_locker r) ∉ pu → req_ok false r' →
  kept pl pu (s <| lm_heads := <[res := h']> (lm_heads s) |>).
Proof.
  intros Hh Hr HI' Hp' Hint' Hg Hc Hlk Hnp Hok. destruct (ri_head _ _ _ _ _ HR h Hh) as [[HC _] _].
  assert (∀ k, k ∈ lockers (requests h') ↔ k ∈ lockers (requests h)) as Hlks.
  { intros k. unfold requests, lockers. rewrite !fmap_app, !elem_of_app, Hc.
    pose proof (lockers_put r r' (grantedList h) Hlk) as Hput. unfold lockers in Hput. by rewrite Hg, Hput. }
  apply (kept_head pu h); [done..| |].
  - intros b Hb. split; [apply Hlks; by apply list_elem_of_fmap_2|]. unfold requests in Hb. rewrite Hg, Hc in Hb.
    assert (∀ b, b ∈ requests h → req_ok (bool_decide ((res, rq_locker b) ∈ pu)) b) as Hold
      by (intros b' Hb'; apply (ri_present _ _ _ _ _ HR); left; eauto).
    apply elem_of_app in Hb as [[[Hb _]|(b0 & _ & _ & ->)]%elem_of_write|Hb].
    + apply Hold, elem_of_app. by left.
    + rewrite Hlk. by rewrite bool_decide_false.
    + apply Hold, elem_of_app. by right.
  - intros k (h0 & Hh0 & Hk)%(ri_unlock _ _ _ _ _ HR). apply Hlks. congruence.
Qed.
End operations.

(** ** [convert] *)
Lemma kept_trans ids s s1 s2 pl' pu' res :
  elsewhere res s s1 → kept ids s1 res pl' pu' s2 → kept ids s res pl' pu' s2.
Proof. intros Hel [? ?]. split; [done|by eapply elsewhere_trans]. Qed.

(** Somebody else holds or awaits a mode that conflicts with [m]. *)
Definition others_oppose s res k (m : LockMode) : Prop :=
  ∃ b m', present s res b ∧ rq_locker b ≠ k ∧ rq_status b ≠ STATUS_WAITING ∧ holds b m' = true ∧ clash m m' = true.
(** What becomes of a request, counted once more, and the decision. *)
Definition conversion r newMode (result : LockResult) : LockRequest :=
  if isModeCovered newMode (rq_mode r) then r
  else if decide (result = LOCK_OK) then upgraded r newMode else converting r newMode.
Definition converted ids s res pl pu r r1 newMode (result : LockResult) s' : Prop :=
  kept ids s res pl pu s' ∧
  (result = LOCK_OK ∧ (isModeCovered newMode (rq_mode r) = true ∨ ¬ others_oppose s res (rq_locker r) newMode) ∨
   result = LOCK_WAITING ∧ isModeCovered newMode (rq_mode r) = false ∧ others_oppose s res (rq_locker r) newMode) ∧
  present s' res (conversion r1 newMode result) ∧ others_kept s s' res (rq_locker r).
(** One granted request of the head is rewritten. *)
Lemma rewritten_present s res h h' r r' :
  lm_heads s !! res = Some h → r ∈ grantedList h → rq_locker r' = rq_locker r →
  grantedList h' = write_request (rq_locker r) (λ _, r') (grantedList h) → conflictList h' = conflictList h →
  let s' := s <| lm_heads := <[res := h']> (lm_heads s) |> in
  present s' res r' ∧ others_kept s s' res (rq_locker r).
Proof.
  intros Hh Hr Hlk Hg Hc s'. split.
  - left. exists h'. unfold s'. simpl. rewrite lookup_insert_eq. split; [done|]. apply elem_of_app. left. rewrite Hg.
    apply list_elem_of_fmap. exists r. unfold by_locker. by rewrite Z.eqb_refl.
  - intros b Hb. unfold present, s'. simpl. rewrite lookup_insert_eq, Hh. apply or_iff_compat_r.
    split; intros (h0 & [= <-] & Hin); eexists; (split; [done|]); unfold requests in *; rewrite elem_of_app in *;
      rewrite Hg, Hc in *; (destruct Hin as [Hin|Hin]; [left|by right]).
    + apply elem_of_write in Hin as [[? _]|(b0 & _ & _ & ->)]; [done|congruence].
    + apply list_elem_of_fmap. exists b. split; [|done]. destruct (by_locker _ b) eqn:E; [|done]. by apply by_locker_true in E.
Qed.

Section convert.
Context (ids : gset Z) (Hids : Z.of_nat (size ids) < two32 - 2).
Context (s : LockManager) (pl : gmap (Z * Z) LockRequest) (pu : gset (Z * Z)) (res : Z) (HR : RInv ids s pl pu res).

Lemma opposed_others h k m :
  lm_heads s !! res = Some h → partitions h = [] → opposed (Some k) m (grantedList h) ↔ others_oppose s res k m.
Proof.
  intros Hh Hp. destruct (ri_head _ _ _ _ _ HR h Hh) as [[HC _] _]. unfold opposed, others_oppose.
  setoid_rewrite (on_granted h _ HC). setoid_rewrite (λ b, present_head ids s pl pu res h b HR Hh Hp).
  split; intros (b & m' & H); exists b, m'; naive_solver.
Qed.
Lemma wp_convert_unpartitioned r newMode h :
  lm_heads s !! res = Some h → partitions h = [] → r ∈ requests h → rq_status r = STATUS_GRANTED →
  (res, rq_locker r) ∉ pu → 2 ≤ rq_recursiveCount r →
  isModeCovered newMode (rq_mode r) = false → isModeCovered (rq_mode r) newMode = true →
  wp (on_head 507 res (convert_head (rq_locker r) newMode)) (converted ids s res pl pu r r newMode) s.
Proof.
  intros Hh Hp Hr Hst Hnp Hrc Hnew Hup. destruct (ri_head _ _ _ _ _ HR h Hh) as [HI _]. pose proof HI as [HC _].
  assert (r ∈ grantedList h) as Hg by (apply on_granted; [done|]; split; [done|congruence]).
  apply (wp_on_head _ _ _ _ _ h Hh), (wp_convert_head r newMode h HI Hg Hst Hnew Hup); intros Ho HI';
    rewrite (opposed_others h) in Ho by done.
  - split; [|split; [left; auto|unfold conversion; rewrite Hnew; by apply (rewritten_present s res h)]].
    eapply (kept_rewrite ids s pl pu res HR h _ r (upgraded r newMode)); try done.
    unfold req_ok. simpl. rewrite Hst. lia.
  - split; [|split; [right; auto|unfold conversion; rewrite Hnew; by apply (rewritten_present s res h)]].
    by eapply (kept_rewrite ids s pl pu res HR h _ r (converting r newMode)).
Qed.
Lemma head_of_present r : present s res r → ∃ h, lm_heads s !! res = Some h.
Proof.
  intros [(h & Hh & _)|(p & l & Hl & _)]; [eauto|]. destruct (ri_part _ _ _ _ _ HR _ _ Hl) as (_ & _ & h & Hh & _). eauto.
Qed.
Lemma the_request_present line r : present s res r → the_request line res (rq_locker r) s = Ret r.
Proof. intros Hr. unfold the_request. by rewrite (proj2 (find_request_iff _ _ _ _ _ HR (rq_locker r) r)). Qed.
End convert.

Lemma converted_after ids s s1 res pl pu r r1 newMode result s' :
  elsewhere res s s1 → rq_mode r1 = rq_mode r → rq_locker r1 = rq_locker r →
  others_kept s s1 res (rq_locker r) →
  converted ids s1 res pl pu r1 r1 newMode result s' → converted ids s res pl pu r r1 newMode result s'.
Proof.
  intros Hel Hm Hlk Hpr (Hk & Hres & Hr1 & Hoth). split; [by eapply kept_trans|].
  assert (others_oppose s1 res (rq_locker r1) newMode ↔ others_oppose s res (rq_locker r) newMode) as Ho.
  { rewrite Hlk. unfold others_oppose. split; intros (b & m & Hb & Hne & H); exists b, m;
      (split; [by apply (Hpr b Hne)|done]). }
  rewrite Hm, Ho in Hres. split_and!; [done..|]. intros b Hb. rewrite (Hoth b) by congruence. by apply Hpr.
Qed.
Definition counted r (n : Z) : LockRequest := r <| rq_recursiveCount := rq_recursiveCount r + n |>.
Lemma wp_convert ids s pl pu res r newMode :
  Z.of_nat (size ids) < two32 - 2 → RInv ids s pl pu res → present s res r →
  rq_status r = STATUS_GRANTED → (res, rq_locker r) ∉ pu → rq_recursiveCount r < two32 - 1 →
  isModeCovered newMode (rq_mode r) = true ∨ isModeCovered (rq_mode r) newMode = true →
  wp (convert res (rq_locker r) newMode) (converted ids s res pl pu r (counted r 1) newMode) s.
Proof.
  intros Hids HR Hr Hst Hnp Hmax Hcov. destruct (ri_present _ _ _ _ _ HR r Hr) as [_ Hok].
  rewrite bool_decide_false in Hok by done. unfold req_ok in Hok. rewrite Hst in Hok.
  unfold convert. wp_simpl. rewrite (the_request_present _ _ _ _ _ HR) by done. simpl. wp_simpl.
  split; [unfold has_status; by rewrite Hst|]. split; [lia|].
  set (f := λ r0, r0 <| rq_recursiveCount := u32 (rq_recursiveCount r0 + 1) |>).
  assert (rq_recursiveCount (f r) = rq_recursiveCount r + 1) as Hfc by (simpl; apply u32_small; lia).
  assert (f r = counted r 1) as Hfr by (unfold f, counted; rewrite u32_small by lia; done).
  eapply wp_mono; [|apply (wp_set_request ids s pl pu res HR r f Hr)]; [|done|done|].
  2: { unfold req_ok. rewrite Hfc. simpl. rewrite Hst. lia. }
  intros _ s1 ([HR1 Hel1] & Hr1 & Hpr1). destruct (isModeCovered newMode (rq_mode r)) eqn:Ec.
  { wp_simpl. split; [done|]. rewrite <-Hfr. unfold conversion. change (rq_mode (f r)) with (rq_mode r). rewrite Ec. split; [|by split]. left. split; [done|]. by left. }
  destruct Hcov as [?|Hup]; [done|]. wp_simpl. split; [done|].
  destruct (head_of_present _ _ _ _ _ HR1 (f r) Hr1) as [h1 Hh1]. split; [by rewrite bool_decide_true by eauto|].
  eapply wp_mono; [|by apply (wp_migrate ids Hids s1 pl pu res h1)].
  intros _ s2 (HR2 & Hel2 & Hpr2 & h2 & Hh2 & Hps2).
  eapply wp_mono; [|apply (wp_convert_unpartitioned ids s2 pl pu res HR2 (f r) newMode h2)]; try done.
  - intros result s'. rewrite <-Hfr. apply converted_after; [by eapply elsewhere_trans|done..|].
    intros b Hb. by rewrite Hpr2, Hpr1.
  - by apply (present_head ids s2 pl pu res h2 _ HR2 Hh2 Hps2), Hpr2.
  - rewrite Hfc. lia.
Qed.

(** ** [unlock] *)
Lemma wp_result {S A} (m : M S A) a st st' (Q : A → S → Prop) : m st = Ret (a, st') → Q a st' → wp m Q st.
Proof. unfold wp. by intros ->. Qed.
Section unlock.
Context (ids : gset Z) (s : LockManager) (pl : gmap (Z * Z) LockRequest) (pu : gset (Z * Z)) (res : Z)
  (HR : RInv ids s pl pu res).
Context (r : LockRequest) (Hr : present s res r) (Hnp : (res, rq_locker r) ∉ pu).

Lemma unlink_write f l : recounts f → unlink (rq_locker r) (write_request (rq_locker r) f l) = unlink (rq_locker r) l.
Proof.
  intros Hf. induction l as [|b l IH]; [done|]. unfold write_request in *. rewrite fmap_cons. simpl. rewrite IH.
  destruct (by_locker (rq_locker r) b) eqn:E; [|by rewrite E]. unfold by_locker in *. rewrite Hf. simpl. by rewrite E.
Qed.
(** Up to the bucket's mutex: released, or one count down, or on to the head. *)
Definition unlock_began (o : option bool) s' : Prop :=
  others_kept s s' res (rq_locker r) ∧
  match o with
  | Some false => rq_status r = STATUS_GRANTED ∧ 2 ≤ rq_recursiveCount r ∧ present s' res (counted r (-1))
  | Some true => rq_status r = STATUS_GRANTED ∧ rq_recursiveCount r = 1 ∧ ∀ b, present s' res b → rq_locker b ≠ rq_locker r
  | None => (rq_status r = STATUS_GRANTED → rq_recursiveCount r = 1) ∧ present s' res (counted r (-1))
  end.
(** A lock held in a partition is released by unlinking its request there. *)
Lemma partition_released p l :
  lm_partitions s !! (p, res) = Some l → r ∈ l → rq_status r = STATUS_GRANTED → rq_recursiveCount r = 1 →
  let s' := s <| lm_partitions := <[(p, res) := unlink (rq_locker r) l]> (lm_partitions s) |> in
  unlock_began (Some true) s' ∧ kept ids s res pl pu s'.
Proof.
  intros Hl Hin Hst Hlast. destruct (ri_part _ _ _ _ _ HR _ _ Hl) as (Hnd & Hpok & _).
  destruct (Hpok r Hin) as [(_ & _ & _ & _ & Hpp) _]. split.
  { split; [|split_and!; [done|done|]]; [intros b Hb|intros b]; unfold present; simpl.
    - apply or_iff_compat_l. split; intros (p' & l0 & Hl0 & Hb0).
      + destruct (decide (p' = p)) as [->|Hne]; [|rewrite lookup_insert_ne in Hl0 by congruence; eauto].
        rewrite lookup_insert_eq in Hl0. injection Hl0 as <-. apply elem_of_unlink in Hb0 as [? _]. eauto.
      + destruct (decide (p' = p)) as [->|Hne]; [|exists p', l0; by rewrite lookup_insert_ne by congruence].
        exists p, (unlink (rq_locker r) l). rewrite lookup_insert_eq. split; [done|]. apply elem_of_unlink. by simplify_eq.
    - intros [(h0 & Hh0 & Hb0)|(p' & l0 & Hl0 & Hb0)].
      + intros He. apply (partitioned_not_on_head ids s pl pu res HR (rq_locker r) r h0); [|done|].
        * apply (find_partitioned_iff ids s pl pu res HR). exists l. by rewrite Hpp.
        * rewrite <-He. by apply list_elem_of_fmap_2.
      + destruct (decide (p' = p)) as [->|Hne].
        * rewrite lookup_insert_eq in Hl0. injection Hl0 as <-. by apply elem_of_unlink in Hb0 as [_ ?].
        * rewrite lookup_insert_ne in Hl0 by congruence. intros He.
          apply (partition_of ids s pl pu res HR p' l0 b Hl0) in Hb0. congruence. }
  apply (RInv_partition ids s pl pu res HR p l); [done| |].
  - pose proof (unlink_perm l r Hnd Hin) as Hu. unfold lockers in *. rewrite Hu, fmap_cons in Hnd. by apply NoDup_cons in Hnd as [_ ?].
  - intros b [Hb _]%elem_of_unlink. destruct (Hpok b Hb) as [Hbk Hbp]. split; [done|]. split; [|by apply list_elem_of_fmap_2].
    destruct (ri_present _ _ _ _ _ HR b) as [_ Hx]; [right; eauto|]. rewrite bool_decide_false in Hx by done.
    destruct Hbk as (_ & Hbs & _). unfold req_ok in Hx. by rewrite Hbs in Hx.
Qed.
Lemma wp_unlock_begin :
  wp (unlock_begin res (rq_locker r)) (λ o s', unlock_began o s' ∧
    match o with
    | Some _ => kept ids s res pl pu s'
    | None => kept ids s res pl ({[(res, rq_locker r)]} ∪ pu) s'
    end) s.
Proof.
  destruct (ri_present _ _ _ _ _ HR r Hr) as [_ Hok]. rewrite bool_decide_false in Hok by done.
  unfold unlock_begin. wp_simpl. rewrite (the_request_present _ _ _ _ _ HR) by done. simpl. wp_simpl.
  assert (1 ≤ rq_recursiveCount r) as Hrc by (unfold req_ok in Hok; destruct (rq_status r); lia).
  split; [lia|]. set (f := λ r0, r0 <| rq_recursiveCount := rq_recursiveCount r - 1 |>).
  assert (recounts f) as Hf by done.
  destruct (has_status STATUS_GRANTED r && (0 <? rq_recursiveCount r - 1)) eqn:Efast.
  { apply andb_true_iff in Efast as [Est Ec]. apply bool_decide_eq_true in Est.
    eapply wp_mono; [|apply (wp_set_request ids s pl pu res HR r f Hr Hf Hnp)].
    - intros _ s1 (Hk & Hr1 & Hoth). wp_simpl. split; [|done]. split; [done|]. split_and!; [done|lia|done].
    - unfold req_ok. simpl. rewrite Est. lia. }
  assert (rq_status r = STATUS_GRANTED → rq_recursiveCount r = 1) as Hlast.
  { intros Hst. unfold has_status in Efast. rewrite Hst, bool_decide_true in Efast by done. simpl in Efast. lia. }
  assert (rq_partitioned r = true → has_status STATUS_GRANTED r || has_status STATUS_CONVERTING r = true) as Hpt.
  { intros Hp. unfold req_ok in Hok. unfold has_status. destruct (rq_status r); try done. destruct Hok. congruence. }
  destruct Hr as [(h & Hh & Hin)|(p & l & Hl & Hin)].
  - apply (wp_result _ _ _ _ _ (set_request_head ids s pl pu res HR h r f Hh Hin)).
    assert (kept ids s res pl ({[(res, rq_locker r)]} ∪ pu)
      (s <| lm_heads := <[res := write_head (rq_locker r) f h]> (lm_heads s) |>)) as Hk.
    { apply (RInv_recount ids s pl pu); try done; [set_solver|]. rewrite bool_decide_true by set_solver. unfold req_ok in *. simpl.
      unfold has_status in Efast. destruct (rq_status r); try lia; try done. split; [lia|apply Hok]. }
    assert (unlock_began None (s <| lm_heads := <[res := write_head (rq_locker r) f h]> (lm_heads s) |>)) as Hb.
    { pose proof (set_request_present s res h r f Hh Hin Hf) as [Hr1 Hoth]. by split. }
    destruct (rq_partitioned r) eqn:Ep; [|by wp_simpl]. wp_simpl. split; [auto|]. unfold id.
    destruct (find_partitioned _ _ _) as [r'|] eqn:Efp; [exfalso|by wp_simpl].
    apply (partitioned_not_on_head ids s pl pu res HR (rq_locker r) r' h); [exact Efp|done|by apply list_elem_of_fmap_2].
  - apply (wp_result _ _ _ _ _ (set_request_part ids s pl pu res HR p l r f Hl Hin)).
    destruct (ri_part _ _ _ _ _ HR _ _ Hl) as (Hnd & Hpok & _).
    destruct (Hpok r Hin) as [(Hm & Hst & Hcv & Hp & Hpp) _]. rewrite Hp. wp_simpl. split; [auto|]. unfold id.
    assert (lm_partitions s !! (_getPartition (rq_locker r), res) = Some l) as Hl' by (by rewrite Hpp).
    rewrite Hpp in *. clear Hl'. unfold find_partitioned. simpl. rewrite Hpp, lookup_insert_eq. simpl.
    destruct (find _ _) as [r'|] eqn:Ef.
    + wp_simpl. rewrite (alter_lookup _ _ _ (write_request (rq_locker r) f l)) by (simpl; by rewrite lookup_insert_eq).
      simpl. rewrite insert_insert_eq, unlink_write by done. by apply partition_released; auto.
    + exfalso. pose proof (find_locker (write_request (rq_locker r) f l) (f r)) as Hfl. simpl in Hfl.
      rewrite Hfl in Ef; [done|by rewrite recount_lockers|]. apply list_elem_of_fmap. exists r. unfold by_locker.
      by rewrite Z.eqb_refl.
Qed.
End unlock.

(** Being woken fits the count. *)
Lemma req_ok_wake b ns r : req_ok b r → req_ok b (wake_in ns r).
Proof.
  intros H. unfold wake_in. case_bool_decide; [|done]. unfold req_ok, wake in *. destruct (rq_status r) eqn:E; simpl; rewrite ?E; try done.
  - destruct b; lia.
  - destruct b; lia.
Qed.
Lemma evolve_requests ns h h' b : evolve ns h h' → b ∈ requests h' → ∃ b0, b0 ∈ requests h ∧ b = wake_in ns b0.
Proof. intros Hev Hb. rewrite (ev_requests _ _ _ Hev) in Hb. apply list_elem_of_fmap in Hb as (b0 & -> & Hb0). eauto. Qed.
Lemma evolve_lockers ns h h' : evolve ns h h' → lockers (requests h') ≡ₚ lockers (requests h).
Proof.
  intros Hev. unfold lockers. rewrite (ev_requests _ _ _ Hev), <-list_fmap_compose. apply reflexive_eq, list_fmap_ext.
  intros i b _. apply wake_in_locker.
Qed.
Lemma evolve_intent ns h h' : HCore h' → evolve ns h h' → intent_only h → intent_only h'.
Proof.
  intros HC' Hev [Hc Hi]. split.
  - destruct (conflictList h') as [|b l] eqn:E; [done|]. pose proof (ev_conflict _ _ _ Hev b) as Hx. rewrite E, Hc in Hx.
    specialize (Hx ltac:(left)). by apply elem_of_nil in Hx.
  - intros b Hb. destruct (evolve_requests ns h h' b Hev) as (b0 & Hb0 & ->); [apply elem_of_app; by left|].
    unfold requests in Hb0. rewrite Hc, app_nil_r in Hb0. destruct (Hi b0 Hb0) as [Hm Hst].
    unfold wake_in. case_bool_decide; [|done]. unfold wake. by rewrite Hst.
Qed.
Section wake.
Context (ids : gset Z) (s : LockManager) (pl : gmap (Z * Z) LockRequest) (pu : gset (Z * Z)) (res : Z)
  (HR : RInv ids s pl pu res).

Lemma kept_wake pu' h h1 ns h' lockers' :
  lm_heads s !! res = Some h → HInv h' → evolve ns h1 h' → partitions h1 = partitions h →
  (partitions h ≠ [] → intent_only h1) →
  (∀ b, b ∈ requests h1 → rq_locker b ∈ lockers (requests h) ∧ req_ok (bool_decide ((res, rq_locker b) ∈ pu')) b) →
  (∀ k, (res, k) ∈ pu' → k ∈ lockers (requests h1)) →
  kept ids s res pl pu' (s <| lm_heads := <[res := h']> (lm_heads s) |>
    <| lm_notified := lm_notified s ++ lockers' |>).
Proof.
  intros Hh HI' Hev Hp Hint Hreq Hu.
  assert (kept ids s res pl pu' (s <| lm_heads := <[res := h']> (lm_heads s) |>)) as [HR' Hel].
  { apply (kept_head ids s pl pu res HR pu' h); [done..| | | |].
    - by rewrite (ev_partitions _ _ _ Hev).
    - intros Hx. destruct HI'. eapply evolve_intent; [done..|auto].
    - intros b (b0 & Hb0 & ->)%(evolve_requests ns h1); [|done]. rewrite wake_in_locker.
      destruct (Hreq b0 Hb0) as [? ?]. split; [done|by apply req_ok_wake].
    - intros k Hk. rewrite (evolve_lockers ns h1) by done. auto. }
  split; [|done]. by eapply RInv_same; [..|exact HR'].
Qed.

(** The critical section of [unlock] on the bucket. *)
Definition woken h1 (s' : LockManager) : Prop :=
  ∃ ns h', lm_heads s' !! res = Some h' ∧ evolve ns h1 h' ∧
    lm_notified s' = lm_notified s ++ ((λ l, (res, l)) <$> ns).
Lemma wp_unlock_finish k :
  (res, k) ∈ pu →
  wp (unlock_finish res k) (λ gone s', kept ids s res pl (pu ∖ {[(res, k)]}) s' ∧
    ∃ h r h1, lm_heads s !! res = Some h ∧ r ∈ requests h ∧ rq_locker r = k ∧
      gone = (rq_recursiveCount r =? 0) ∧ given_up r h h1 ∧ woken h1 s') s.
Proof.
  intros Hk. destruct (ri_unlock _ _ _ _ _ HR k Hk) as (h & Hh & (r & -> & Hr)%list_elem_of_fmap).
  destruct (ri_head _ _ _ _ _ HR h Hh) as [HI Hint]. pose proof HI as [HC HL].
  assert (∀ b, b ∈ requests h → req_ok (bool_decide ((res, rq_locker b) ∈ pu)) b) as Hold
    by (intros b Hb; apply (ri_present _ _ _ _ _ HR); left; eauto).
  pose proof (Hold r Hr) as Hok. rewrite bool_decide_true in Hok by done. unfold req_ok in Hok.
  unfold unlock_finish. wp_simpl. apply (wp_on_head _ _ _ _ _ h Hh).
  eapply wp_mono; [|apply (wp_unlock_head r h HI Hr)].
  2: { intros Hs. rewrite Hs in Hok. apply Hok. }
  2: { intros Hs. rewrite Hs in Hok. lia. }
  intros [gone ns] h' (HI' & Hgone & h1 & Hgu & Hev). simpl in Hgone, Hev. unfold notify. wp_simpl.
  destruct Hgu as [Hg1 Hc1 Hp1].
  assert (∀ b, b ∈ requests h1 → b ∈ requests h ∧ rq_locker b ≠ rq_locker r ∨
    b = cancelled r ∧ rq_status r = STATUS_CONVERTING ∧ r ∈ grantedList h) as Hin1.
  { intros b. unfold requests. rewrite Hg1, Hc1, !elem_of_app. unfold has_status. case_bool_decide as Hst.
    - assert (r ∈ grantedList h) as Hrg by (apply on_granted; [done|]; split; [done|congruence]).
      intros [[[Hb Hn]|(b0 & _ & _ & ->)]%elem_of_write|[Hb Hn]%elem_of_unlink]; auto.
    - intros [[Hb Hn]%elem_of_unlink|[Hb Hn]%elem_of_unlink]; auto. }
  split.
  - apply (kept_wake _ h h1 ns); [done..| | |].
    + intros Hp. destruct (Hint Hp) as [Hc Hi]. split; [by rewrite Hc1, Hc|]. intros b Hb.
      destruct (Hin1 b) as [[Hb' _]|(-> & Hst & Hrg)]; [apply elem_of_app; by left| |].
      * unfold requests in Hb'. rewrite Hc, app_nil_r in Hb'. auto.
      * destruct (Hi r Hrg) as [_ Hx]. congruence.
    + intros b Hb. destruct (Hin1 b Hb) as [[Hb' Hne]|(-> & Hst & Hrg)].
      * split; [by apply list_elem_of_fmap_2|].
        rewrite (bool_decide_ext _ ((res, rq_locker b) ∈ pu)) by set_solver. auto.
      * split; [by apply (list_elem_of_fmap_2 rq_locker _ r)|]. rewrite bool_decide_false by set_solver.
        unfold req_ok. simpl. rewrite Hst in Hok. lia.
    + intros k Hk'. assert ((res, k) ∈ pu ∧ k ≠ rq_locker r) as [Hku Hne] by set_solver.
      destruct (ri_unlock _ _ _ _ _ HR k Hku) as (h0 & Hh0 & (b & -> & Hb)%list_elem_of_fmap).
      assert (h0 = h) as -> by congruence. apply list_elem_of_fmap_2. unfold requests in *. rewrite Hg1, Hc1.
      apply elem_of_app in Hb as [Hb|Hb]; apply elem_of_app; [left|right; by apply elem_of_unlink].
      destruct (has_status STATUS_CONVERTING r); [|by apply elem_of_unlink].
      apply list_elem_of_fmap. exists b. split; [|done]. destruct (by_locker _ b) eqn:E; [|done]. by apply by_locker_true in E.
  - exists h, r, h1. split_and!; [done..|]. exists ns, h'. simpl. by rewrite lookup_insert_eq.
Qed.

Lemma wp_downgrade h r newMode :
  lm_heads s !! res = Some h → r ∈ grantedList h → rq_status r = STATUS_GRANTED → (res, rq_locker r) ∉ pu →
  isModeCovered newMode (rq_mode r) = true → newMode ≠ MODE_NONE →
  wp (downgrade res (rq_locker r) newMode) (λ _ s', kept ids s res pl pu s' ∧ woken (downgraded_head r h newMode) s') s.
Proof.
  intros Hh Hr Hst Hnp Hcov Hnm. destruct (ri_head _ _ _ _ _ HR h Hh) as [HI Hint]. pose proof HI as [HC _].
  assert (∀ b, b ∈ requests h → req_ok (bool_decide ((res, rq_locker b) ∈ pu)) b) as Hold
    by (intros b Hb; apply (ri_present _ _ _ _ _ HR); left; eauto).
  pose proof (Hold r ltac:(apply elem_of_app; by left)) as Hok. rewrite bool_decide_false in Hok by done.
  unfold req_ok in Hok. rewrite Hst in Hok.
  unfold downgrade. wp_simpl. apply (wp_on_head _ _ _ _ _ h Hh).
  eapply wp_mono; [|apply (wp_downgrade_head r h HI newMode); try done; lia]. intros ns h' [HI' Hev].
  unfold notify. wp_simpl. split; [|exists ns, h'; simpl; by rewrite lookup_insert_eq].
  apply (kept_wake _ h (downgraded_head r h newMode) ns); try done.
  - intros Hp. destruct (Hint Hp) as [Hc Hi]. split; [done|]. simpl.
    intros b [[Hb _]|(b0 & _ & _ & ->)]%elem_of_write; [auto|]. simpl. split; [|done].
    destruct (Hi r Hr) as [Hm _]. by destruct newMode, (rq_mode r).
  - intros b Hb. unfold requests in Hb. simpl in Hb.
    apply elem_of_app in Hb as [[[Hb _]|(b0 & _ & _ & ->)]%elem_of_write|Hb].
    + assert (b ∈ requests h) as Hb' by (apply elem_of_app; by left). split; [by apply list_elem_of_fmap_2|auto].
    + split; [apply (list_elem_of_fmap_2 rq_locker _ r), elem_of_app; by left|]. rewrite bool_decide_false by done.
      unfold req_ok. simpl. by rewrite Hst.
    + assert (b ∈ requests h) as Hb' by (apply elem_of_app; by right). split; [by apply list_elem_of_fmap_2|auto].
  - intros k (h0 & Hh0 & (b & -> & Hb)%list_elem_of_fmap)%(ri_unlock _ _ _ _ _ HR). assert (h0 = h) as -> by congruence.
    unfold requests, lockers in *. simpl. rewrite fmap_app. pose proof (lockers_put r (r <| rq_mode := newMode |>)) as Hput.
    unfold lockers in Hput. simpl in Hput. rewrite Hput, <-fmap_app by done. by apply list_elem_of_fmap_2.
Qed.
End wake.

(** ** Clean-up *)
Lemma wp_cleanup_resource ids s pl pu res h :
  Z.of_nat (size ids) < two32 - 2 → RInv ids s pl pu res → lm_heads s !! res = Some h →
  wp (cleanup_resource res) (λ _ s', kept ids s res pl pu s' ∧ ∀ b, present s' res b ↔ present s res b) s.
Proof.
  intros Hids HR Hh. unfold cleanup_resource. apply wp_bind.
  eapply wp_mono; [|by apply (wp_migrate ids Hids s pl pu res h)].
  intros _ s2 (HR2 & Hel2 & Hpr2 & h2 & Hh2 & Hps2). destruct (ri_head _ _ _ _ _ HR2 h2 Hh2) as [[HC HL] _].
  apply wp_bind, (wp_peek _ _ _ _ _ h2 Hh2). unfold id.
  destruct (Z.eqb_spec (grantedModes h2) 0) as [E|E]; [|wp_simpl; done].
  apply (granted_empty h2 HC) in E. pose proof (hl_stranded h2 HL E) as Ec.
  assert (requests h2 = []) as Er by (unfold requests; by rewrite E, Ec).
  assert (∀ r, ¬ present s2 res r) as Hno.
  { intros r Hr. apply (present_head ids s2 pl pu res h2 r HR2 Hh2 Hps2) in Hr. rewrite Er in Hr. by apply elem_of_nil in Hr. }
  assert (∀ r, ¬ present (s2 <| lm_heads := delete res (lm_heads s2) |>) res r) as Hno'.
  { intros r [(h0 & Hh0 & _)|(p & l & Hl & _)]; [simpl in Hh0; by rewrite lookup_delete_eq in Hh0|].
    simpl in Hl. by rewrite (no_partitions ids s2 pl pu res h2) in Hl. }
  wp_simpl. unfold is_empty. rewrite E, Ec. split_and!; [done| |done|..].
  - apply Z.eqb_eq, conflict_empty; done.
  - by rewrite (hc_conversions h2 HC), E.
  - by rewrite (hc_compatible_first h2 HC), E.
  - eapply kept_trans; [done|]. split.
    2: { intros res' Hne. simpl. by rewrite lookup_delete_ne. }
    split.
    + intros h0. simpl. by rewrite lookup_delete_eq.
    + intros r Hr. by destruct (Hno' r).
    + intros p l Hl. simpl in Hl. by rewrite (no_partitions ids s2 pl pu res h2) in Hl.
    + intros k r Hr. destruct (ri_lock _ _ _ _ _ HR2 k r Hr) as (? & ? & _). split_and!; [done..|].
      intros r' Hr'. by destruct (Hno' r').
    + intros k (h0 & Hh0 & Hk)%(ri_unlock _ _ _ _ _ HR2). assert (h0 = h2) as -> by congruence.
      rewrite Er in Hk. by apply elem_of_nil in Hk.
  - intros b. rewrite <-(Hpr2 b). split; intros Hb; [by destruct (Hno' b)|by destruct (Hno b)].
Qed.
