(* ===== verification/LockManagerProps.v ===== *)
(** * What the lock manager guarantees

    The manager used by many lockers at once.  A step is one critical section: [lock] and [unlock]
    take the mutex of the locker's partition and then that of the bucket, so between the two other
    lockers may run; [plk] and [pul] hold the calls that are in between.  The contract of a call is
    what its own first checks ask for, plus what LockerImpl guarantees: one request per locker and
    resource, no conversion between unrelated modes, no call on a request that is being unlocked. *)
From S2P Require Import Prelude LockManager LockHeadInv LockHeadOps LockManagerInv LockManagerOps.
Import Mode Head Manager.

Record Sys := mkSys {
  mgr : LockManager; plk : gmap (Z * Z) LockRequest; pul : gset (Z * Z) }.
#[export] Instance Sys_eta : Eta Sys := λ y, mkSys (mgr y) (plk y) (pul y).
Inductive call :=
| LockBegin (resId : Z) (request : LockRequest) (mode : LockMode)
| LockFinish (resId locker : Z)
| Convert (resId locker : Z) (newMode : LockMode)
| UnlockBegin (resId locker : Z)
| UnlockFinish (resId locker : Z)
| Downgrade (resId locker : Z) (newMode : LockMode)
| Cleanup (bucket : Z).

Module Locking.
Implicit Types (y : Sys) (c : call).

Definition lift {A} (m : LM A) : M Sys A := λ y,
  match m (mgr y) with
  | Ret (a, s) => Ret (a, y <| mgr := s |>)
  | Abort l => Abort l
  end.
Definition exec c : M Sys () :=
  match c with
  | LockBegin resId request mode =>
      o ← lift (lock_begin resId request mode);
      match o : LockResult + LockRequest with
      | inl _ => mret tt
      | inr r => modify (λ y, y <| plk := <[(resId, rq_locker r) := r]> (plk y) |>)
      end
  | LockFinish resId locker =>
      y ← gets id;
      match plk y !! (resId, locker) with
      | Some r =>
          modify (λ y, y <| plk := delete (resId, locker) (plk y) |>) ;;
          lift (lock_finish resId r) ;;
          mret tt
      | None => mret tt
      end
  | Convert resId locker newMode => lift (convert resId locker newMode) ;; mret tt
  | UnlockBegin resId locker =>
      o ← lift (unlock_begin resId locker);
      match o : option bool with
      | Some _ => mret tt
      | None => modify (λ y, y <| pul := {[(resId, locker)]} ∪ pul y |>)
      end
  | UnlockFinish resId locker =>
      lift (unlock_finish resId locker) ;;
      modify (λ y, y <| pul := pul y ∖ {[(resId, locker)]} |>)
  | Downgrade resId locker newMode => lift (downgrade resId locker newMode)
  | Cleanup bucket => lift (_cleanupUnusedLocksInBucket bucket)
  end.

(** The contract of the calls, for the lockers [ids]. *)
Definition is_none {A} (o : option A) : bool := match o with None => true | Some _ => false end.
Definition enabled (ids : gset Z) y c : bool :=
  let unlocking := λ resId locker, bool_decide ((resId, locker) ∈ pul y) in
  match c with
  | LockBegin resId r mode =>
      bool_decide (rq_locker r ∈ ids) && has_status STATUS_NEW r && (rq_recursiveCount r =? 1) &&
      negb (eqb mode MODE_NONE) && eqb (rq_convertMode r) MODE_NONE &&
      is_none (find_request resId (rq_locker r) (mgr y)) && is_none (plk y !! (resId, rq_locker r))
  | LockFinish resId locker => negb (is_none (plk y !! (resId, locker)))
  | Convert resId locker newMode =>
      match find_request resId locker (mgr y) with
      | Some r => has_status STATUS_GRANTED r && (rq_recursiveCount r <? two32 - 1) &&
          (isModeCovered newMode (rq_mode r) || isModeCovered (rq_mode r) newMode) &&
          negb (unlocking resId locker)
      | None => false
      end
  | UnlockBegin resId locker =>
      negb (is_none (find_request resId locker (mgr y))) && negb (unlocking resId locker)
  | UnlockFinish resId locker => unlocking resId locker
  | Downgrade resId locker newMode =>
      match lm_heads (mgr y) !! resId ≫= findRequest locker with
      | Some r => has_status STATUS_GRANTED r && isModeCovered newMode (rq_mode r) &&
          negb (eqb newMode MODE_NONE) && negb (unlocking resId locker)
      | None => false
      end
  | Cleanup _ => true
  end.

Definition start : Sys := mkSys Manager.empty ∅ ∅.
Inductive reachable (ids : gset Z) : Sys → Prop :=
| reach_start : reachable ids start
| reach_call y c y' : reachable ids y → enabled ids y c = true → exec c y = Ret (tt, y') → reachable ids y'.

(** Runs of calls, for examples. *)
Fixpoint run (ids : gset Z) (cs : list call) y : option Sys :=
  match cs with
  | [] => Some y
  | c :: cs => if enabled ids y c then
                 match exec c y with Ret (_, y') => run ids cs y' | Abort _ => None end
               else None
  end.
Definition after (ids : gset Z) (cs : list call) : Sys := default start (run ids cs start).
Definition runs (ids : gset Z) (cs : list call) : bool := negb (is_none (run ids cs start)).

Lemma run_reachable ids cs y y' : reachable ids y → run ids cs y = Some y' → reachable ids y'.
Proof.
  revert y. induction cs as [|c cs IH]; intros y Hy; simpl; [congruence|].
  destruct (enabled ids y c) eqn:He; [|done]. destruct (exec c y) as [[[] y1]|] eqn:Hx; [|done].
  apply IH. by eapply reach_call.
Qed.
Lemma runs_reachable ids cs : runs ids cs = true → reachable ids (after ids cs).
Proof.
  unfold runs, after. destruct (run ids cs start) as [y|] eqn:E; [|done]. intros _. simpl.
  eapply run_reachable; [apply reach_start|done].
Qed.

(** ** The invariant of the system *)
Section inv.
Context (ids : gset Z) (Hids : Z.of_nat (size ids) < two32 - 2).
Definition SInv y : Prop := ∀ res, RInv ids (mgr y) (plk y) (pul y) res.

Lemma SInv_start : SInv start.
Proof.
  intros res. split; simpl.
  - intros h. by rewrite lookup_empty.
  - intros r [(h & Hh & _)|(p & l & Hl & _)]; simpl in *; [by rewrite lookup_empty in Hh|by rewrite lookup_empty in Hl].
  - intros p l. by rewrite lookup_empty.
  - intros k r. by rewrite lookup_empty.
  - set_solver.
Qed.
(** A step on one resource. *)
Lemma SInv_step y res s' pl' pu' :
  SInv y → kept ids (mgr y) res pl' pu' s' →
  (∀ res' k, res' ≠ res → pl' !! (res', k) = plk y !! (res', k)) →
  (∀ res' k, res' ≠ res → (res', k) ∈ pu' ↔ (res', k) ∈ pul y) →
  SInv (mkSys s' pl' pu').
Proof.
  intros HS [HR Hel] Hpl Hpu res'. destruct (decide (res' = res)) as [->|Hne]; [done|].
  destruct (Hel res' Hne) as [Hh Hp]. eapply RInv_same; [..|apply (HS res')]; simpl; auto.
Qed.
Lemma wp_lift {A} (m : LM A) Q y :
  wp m (λ a s, Q a (y <| mgr := s |>)) (mgr y) → wp (lift m) Q y.
Proof. unfold wp, lift. by destruct (m (mgr y)) as [[a s]|]. Qed.
Lemma find_none_absent y res k :
  SInv y → find_request res k (mgr y) = None → ∀ r, present (mgr y) res r → rq_locker r ≠ k.
Proof.
  intros HS Hf r Hr Hk. rewrite (proj2 (find_request_iff _ _ _ _ _ (HS res) k r)) in Hf; done.
Qed.
Lemma locked_kept s pl pu res r result s' : locked ids s pl pu res r result s' → kept ids s res pl pu s'.
Proof. intros [(_ & _ & part & ? & ? & _)|(_ & _ & ? & ? & _)]; by split. Qed.

Lemma enabled_lock_begin y res r mode :
  SInv y → enabled ids y (LockBegin res r mode) = true →
  rq_locker r ∈ ids ∧ rq_status r = STATUS_NEW ∧ rq_recursiveCount r = 1 ∧ mode ≠ MODE_NONE ∧
  rq_convertMode r = MODE_NONE ∧ plk y !! (res, rq_locker r) = None ∧
  ∀ r', present (mgr y) res r' → rq_locker r' ≠ rq_locker r.
Proof.
  intros HS He. simpl in He. rewrite !andb_true_iff in He. destruct He as [[[[[[Hin Hst] Hrc] Hm] Hcv] Hf] Hpl].
  apply bool_decide_eq_true in Hin, Hst, Hcv. apply negb_true_iff, bool_decide_eq_false in Hm. apply Z.eqb_eq in Hrc.
  split_and!; [done..|by destruct (plk y !! _)|].
  apply (find_none_absent y res _ HS). by destruct (find_request _ _ _).
Qed.
Lemma wp_exec_lock_begin y res r mode :
  SInv y → enabled ids y (LockBegin res r mode) = true → wp (exec (LockBegin res r mode)) (λ _, SInv) y.
Proof.
  intros HS He. destruct (enabled_lock_begin y res r mode HS He) as (Hin & Hst & Hrc & Hm & Hcv & Hnone & Habs).
  cbn [exec]. apply wp_bind, wp_lift.
  eapply wp_mono; [|by apply (wp_lock_begin ids (mgr y) (plk y) (pul y) res r mode)]. intros [result|r'] s'.
  - intros Hl%locked_kept. wp_simpl. by apply (SInv_step y res).
  - intros [-> ->]. wp_simpl. intros res'. simpl. destruct (HS res') as [H1 H2 H3 H4 H5]. split; [done..| |done].
    intros k b Hb. destruct (decide ((res', k) = (res, rq_locker r))) as [[= -> ->]|Hne].
    + rewrite lookup_insert_eq in Hb. injection Hb as <-. split_and!; done.
    + rewrite lookup_insert_ne in Hb by congruence. auto.
Qed.
Lemma SInv_drop y res k r :
  SInv y → plk y !! (res, k) = Some r →
  RInv ids (mgr y) (delete (res, k) (plk y)) (pul y) res ∧ pending_ok k r ∧ k ∈ ids ∧
  ∀ r', present (mgr y) res r' → rq_locker r' ≠ k.
Proof.
  intros HS Hr. destruct (HS res) as [H1 H2 H3 H4 H5]. split; [|by apply H4]. split; [done..| |done].
  intros k' b [_ Hb]%lookup_delete_Some. auto.
Qed.
Lemma wp_exec_lock_finish y res k : SInv y → wp (exec (LockFinish res k)) (λ _, SInv) y.
Proof.
  intros HS. cbn [exec]. wp_simpl. unfold id. destruct (plk y !! (res, k)) as [r|] eqn:Hr; [|wp_simpl; done].
  destruct (SInv_drop y res k r HS Hr) as (HR & (Hk & Hst & Hrc & Hm & Hcv & Hp) & Hin & Habs). subst k.
  wp_simpl. apply wp_lift. simpl.
  eapply wp_mono; [|apply (wp_lock_finish ids Hids (mgr y) (delete (res, rq_locker r) (plk y)) (pul y) res r)]; try done.
  - intros result s' Hl%locked_kept. wp_simpl. apply (SInv_step y res); [done..| |done].
    intros res' k Hne. by rewrite lookup_delete_ne by congruence.
  - by rewrite lookup_delete_eq.
Qed.
Lemma enabled_convert y res k m :
  SInv y → enabled ids y (Convert res k m) = true →
  ∃ r, find_request res k (mgr y) = Some r ∧ present (mgr y) res r ∧ rq_locker r = k ∧
    rq_status r = STATUS_GRANTED ∧ (res, k) ∉ pul y ∧ rq_recursiveCount r < two32 - 1 ∧
    (isModeCovered m (rq_mode r) = true ∨ isModeCovered (rq_mode r) m = true).
Proof.
  intros HS He. simpl in He. destruct (find_request res k (mgr y)) as [r|] eqn:Hf; [|done].
  rewrite !andb_true_iff, orb_true_iff in He. destruct He as [[[Hst Hmax] Hcov] Hnp].
  apply bool_decide_eq_true in Hst. apply negb_true_iff, bool_decide_eq_false in Hnp.
  pose proof (proj1 (find_request_iff _ _ _ _ _ (HS res) _ _) Hf) as [Hr Hk]. exists r. split_and!; try done; lia.
Qed.
Lemma wp_exec_convert y res k m :
  SInv y → enabled ids y (Convert res k m) = true → wp (exec (Convert res k m)) (λ _, SInv) y.
Proof.
  intros HS He. destruct (enabled_convert y res k m HS He) as (r & _ & Hr & <- & Hst & Hnp & Hmax & Hcov).
  cbn [exec]. apply wp_bind, wp_lift.
  eapply wp_mono; [|by apply (wp_convert ids (mgr y) (plk y) (pul y) res r m)].
  intros result s' (Hk & _). wp_simpl. by apply (SInv_step y res).
Qed.
Lemma wp_exec_unlock_begin y res k :
  SInv y → enabled ids y (UnlockBegin res k) = true → wp (exec (UnlockBegin res k)) (λ _, SInv) y.
Proof.
  intros HS He. simpl in He. destruct (find_request res k (mgr y)) as [r|] eqn:Hf; [|done]. simpl in He.
  apply negb_true_iff, bool_decide_eq_false in He.
  apply (find_request_iff _ _ _ _ _ (HS res)) in Hf as [Hr <-]. cbn [exec]. apply wp_bind, wp_lift.
  eapply wp_mono; [|by apply (wp_unlock_begin ids (mgr y) (plk y) (pul y) res (HS res) r)].
  intros [b|] s' [_ Hk]; wp_simpl; [by apply (SInv_step y res)|]. simpl.
  apply (SInv_step y res); [done..|]. set_solver.
Qed.
Lemma wp_exec_unlock_finish y res k :
  SInv y → enabled ids y (UnlockFinish res k) = true → wp (exec (UnlockFinish res k)) (λ _, SInv) y.
Proof.
  intros HS He. simpl in He. apply bool_decide_eq_true in He. cbn [exec]. apply wp_bind, wp_lift.
  eapply wp_mono; [|by apply (wp_unlock_finish ids (mgr y) (plk y) (pul y) res (HS res) k)].
  intros gone s' [Hk _]. wp_simpl. apply (SInv_step y res); [done..|]. set_solver.
Qed.
Lemma wp_exec_downgrade y res k m :
  SInv y → enabled ids y (Downgrade res k m) = true → wp (exec (Downgrade res k m)) (λ _, SInv) y.
Proof.
  intros HS He. simpl in He. destruct (lm_heads (mgr y) !! res) as [h|] eqn:Hh; [|done]. simpl in He.
  destruct (findRequest k h) as [r|] eqn:Hf; [|done]. rewrite !andb_true_iff in He. destruct He as [[[Hst Hcov] Hm] Hnp].
  apply bool_decide_eq_true in Hst. apply negb_true_iff, bool_decide_eq_false in Hnp, Hm.
  destruct (ri_head _ _ _ _ _ (HS res) h Hh) as [[HC _] _]. apply (findRequest_iff h k r HC) in Hf as [Hr <-].
  cbn [exec]. apply wp_lift.
  eapply wp_mono; [|apply (wp_downgrade ids (mgr y) (plk y) (pul y) res (HS res) h r m); try done].
  - intros [] s' [Hk _]. by apply (SInv_step y res).
  - apply on_granted; [done|]. split; [done|congruence].
Qed.
Lemma wp_cleanup_loop y l s :
  NoDup l → SInv (y <| mgr := s |>) → (∀ res, res ∈ l → is_Some (lm_heads s !! res)) →
  wp (mfoldl (λ (_ : ()) res, cleanup_resource res) tt l) (λ _ s', SInv (y <| mgr := s' |>)) s.
Proof.
  revert s. induction l as [|res l IH]; intros s Hnd HS Hl; cbn [mfoldl]; [wp_simpl; done|].
  apply NoDup_cons in Hnd as [Hn Hnd]. destruct (Hl res ltac:(left)) as [h Hh]. wp_simpl.
  eapply wp_mono; [|by apply (wp_cleanup_resource ids s (plk y) (pul y) res h Hids (HS res))].
  intros [] s' [Hk _]. apply IH; [done| |].
  - by apply (SInv_step (y <| mgr := s |>) res).
  - intros res' Hr. destruct Hk as [_ Hel]. destruct (Hel res') as [-> _]; [congruence|]. apply Hl. by right.
Qed.
Lemma wp_exec_cleanup y b : SInv y → wp (exec (Cleanup b)) (λ _, SInv) y.
Proof.
  intros HS. cbn [exec]. apply wp_lift. unfold _cleanupUnusedLocksInBucket. wp_simpl. unfold id.
  apply wp_cleanup_loop.
  - apply NoDup_filter, NoDup_elements.
  - by destruct y.
  - intros res. rewrite list_elem_of_filter, elem_of_elements, elem_of_dom. naive_solver.
Qed.
Lemma wp_exec y c : SInv y → enabled ids y c = true → wp (exec c) (λ _, SInv) y.
Proof.
  destruct c; auto using wp_exec_lock_begin, wp_exec_lock_finish, wp_exec_convert, wp_exec_unlock_begin,
    wp_exec_unlock_finish, wp_exec_downgrade, wp_exec_cleanup.
Qed.
Lemma reachable_SInv y : reachable ids y → SInv y.
Proof.
  induction 1 as [|y c y' _ IH He Hx]; [apply SInv_start|]. pose proof (wp_exec y c IH He) as H.
  unfold wp in H. by rewrite Hx in H.
Qed.
End inv.

(** ** Guarantees *)

(** The requests of a resource that hold their mode. *)
Definition holder y (res : Z) (r : LockRequest) : Prop :=
  present (mgr y) res r ∧ rq_status r ≠ STATUS_WAITING.

Section guarantees.
Context (ids : gset Z) (Hids : Z.of_nat (size ids) < two32 - 2) (y : Sys) (Hy : reachable ids y).
Let HS : SInv ids y := reachable_SInv ids Hids y Hy.

Lemma holder_cases res r :
  holder y res r → (∃ h, lm_heads (mgr y) !! res = Some h ∧ r ∈ grantedList h) ∨
  (is_intent (rq_mode r) = true ∧ ∃ h, lm_heads (mgr y) !! res = Some h ∧ intent_only h).
Proof.
  intros [[(h & Hh & Hr)|(p & l & Hl & Hr)] Hst].
  - left. exists h. split; [done|]. destruct (ri_head _ _ _ _ _ (HS res) h Hh) as [[HC _] _]. by apply on_granted.
  - right. destruct (ri_part _ _ _ _ _ (HS res) p l Hl) as (_ & Hok & h & Hh & Hp & _).
    destruct (Hok r Hr) as [(Hm & _) _]. split; [done|]. exists h. split; [done|].
    apply (ri_head _ _ _ _ _ (HS res) h Hh). intros Hx. rewrite Hx in Hp. by apply elem_of_nil in Hp.
Qed.
Lemma holders_compatible res a b :
  holder y res a → holder y res b → rq_locker a ≠ rq_locker b → clash (rq_mode a) (rq_mode b) = false.
Proof.
  intros Ha Hb Hne.
  destruct (holder_cases res a Ha) as [(h & Hh & Hga)|(Hia & h & Hh & Hint)],
    (holder_cases res b Hb) as [(h' & Hh' & Hgb)|(Hib & h' & Hh' & Hint')]; assert (h' = h) as -> by congruence.
  - destruct (ri_head _ _ _ _ _ (HS res) h Hh) as [[HC _] _]. by apply (hc_compatible h HC).
  - apply intent_no_clash; [|done]. by apply Hint'.
  - apply intent_no_clash; [done|]. by apply Hint.
  - by apply intent_no_clash.
Qed.
Lemma converting_opposed res r :
  present (mgr y) res r → rq_status r = STATUS_CONVERTING → others_oppose (mgr y) res (rq_locker r) (rq_convertMode r).
Proof.
  intros [(h & Hh & Hr)|(p & l & Hl & Hr)] Hst.
  - destruct (ri_head _ _ _ _ _ (HS res) h Hh) as [[HC HL] _].
    assert (r ∈ grantedList h) as Hg by (apply on_granted; [done|]; split; [done|congruence]).
    destruct (hl_converting h HL r Hg Hst) as (b & m & Hb & Hne & Hh' & Hcl).
    apply on_granted in Hb as [Hb Hbs]; [|done]. exists b, m. split_and!; [left; eauto|congruence|done..].
  - destruct (ri_part _ _ _ _ _ (HS res) p l Hl) as (_ & Hok & _). destruct (Hok r Hr) as [(_ & Hx & _) _]. congruence.
Qed.
Lemma waiting_front res r :
  present (mgr y) res r → rq_status r = STATUS_WAITING →
  ∃ h f l, lm_heads (mgr y) !! res = Some h ∧ conflictList h = f :: l ∧ grantedList h ≠ [] ∧
    (rq_enqueueAtFront f = true ∨ opposed None (rq_mode f) (grantedList h)).
Proof.
  intros [(h & Hh & Hr)|(p & l & Hl & Hr)] Hst.
  - destruct (ri_head _ _ _ _ _ (HS res) h Hh) as [[HC HL] _].
    assert (r ∈ conflictList h) as Hc by (by apply on_conflict).
    destruct (conflictList h) as [|f l] eqn:E; [by apply elem_of_nil in Hc|]. exists h, f, l. split_and!; [done..| |].
    + intros Hg. apply (hl_stranded h HL) in Hg. congruence.
    + by apply (hl_front h HL f l).
  - destruct (ri_part _ _ _ _ _ (HS res) p l Hl) as (_ & Hok & _). destruct (Hok r Hr) as [(_ & Hx & _) _]. congruence.
Qed.
End guarantees.

(** C3. Mutual exclusion.  Whatever the lockers do, in whatever order the critical sections of their
    calls interleave, two lockers never hold conflicting modes of a resource, whether their
    requests hang on the lock head or in partitions. *)
Theorem granted_modes_compatible (ids : gset Z) y res a b :
  Z.of_nat (size ids) < two32 - 2 → reachable ids y → holder y res a → holder y res b →
  rq_locker a ≠ rq_locker b → clash (rq_mode a) (rq_mode b) = false.
Proof. intros Hids Hy. by apply (holders_compatible ids). Qed.

(** C17. No call of the lock manager that respects the contract aborts: none of the invariants in the
    code (the counts and masks, the queues after a change, migration, clean-up) can fail. *)
Theorem lock_calls_never_abort (ids : gset Z) y c :
  Z.of_nat (size ids) < two32 - 2 → reachable ids y → enabled ids y c = true →
  ∃ y', exec c y = Ret (tt, y').
Proof.
  intros Hids Hy He. pose proof (wp_exec ids Hids y c (reachable_SInv ids Hids y Hy) He) as (a & y' & Hx & _)%wp_Ret.
  destruct a. by exists y'.
Qed.

(** C13. Nobody waits in vain.  A conversion that waits is opposed by what somebody else holds or
    awaits.  If anyone waits in the conflict queue of a resource, somebody holds the resource, and
    the first in the queue is opposed by a holder, unless it has jumped the queue. *)
Theorem nobody_waits_in_vain (ids : gset Z) y res r :
  Z.of_nat (size ids) < two32 - 2 → reachable ids y → present (mgr y) res r → waits r = true →
  (rq_status r = STATUS_CONVERTING ∧ others_oppose (mgr y) res (rq_locker r) (rq_convertMode r)) ∨
  (rq_status r = STATUS_WAITING ∧ ∃ h f l, lm_heads (mgr y) !! res = Some h ∧ conflictList h = f :: l ∧
     grantedList h ≠ [] ∧ (rq_enqueueAtFront f = true ∨ opposed None (rq_mode f) (grantedList h))).
Proof.
  intros Hids Hy Hr Hw. unfold waits, has_status in Hw. apply orb_true_iff in Hw as [Hs|Hs]; apply bool_decide_eq_true in Hs.
  - right. split; [done|]. by apply (waiting_front ids Hids y Hy res r).
  - left. split; [done|]. by apply (converting_opposed ids Hids y Hy).
Qed.

(** C34. Partitioning does not show.  [lock] returns, and it decides as one queue of all requests of
    the resource would: the request is granted exactly when its mode conflicts with no mode that
    is held or being converted to and, unless a holder asked for compatible-first, with no mode
    that is waited for; otherwise it waits.  The requests of the others stay as they are. *)
Theorem lock_decision (ids : gset Z) y res r mode :
  Z.of_nat (size ids) < two32 - 2 → reachable ids y → enabled ids y (LockBegin res r mode) = true →
  ∃ result s', lock res r mode (mgr y) = Ret (result, s') ∧
    (result = LOCK_OK ∧ may_grant (present (mgr y) res) (prepared r mode) ∨
     result = LOCK_WAITING ∧ ¬ may_grant (present (mgr y) res) (prepared r mode)) ∧
    ∃ part, ∀ b, present s' res b ↔ present (mgr y) res b ∨
      b = prepared r mode <| rq_status := if decide (result = LOCK_OK) then STATUS_GRANTED else STATUS_WAITING |>
            <| rq_partitioned := part |>.
Proof.
  intros Hids Hy He. pose proof (reachable_SInv ids Hids y Hy) as HS.
  destruct (enabled_lock_begin ids y res r mode HS He) as (Hin & Hst & Hrc & Hm & Hcv & Hnone & Habs).
  assert (wp (lock res r mode) (locked ids (mgr y) (plk y) (pul y) res (prepared r mode)) (mgr y)) as Hw.
  { unfold lock. apply wp_bind.
    eapply wp_mono; [|by apply (wp_lock_begin ids (mgr y) (plk y) (pul y) res r mode)]. intros [result|r'] s'; [done|].
    intros [-> ->]. by apply (wp_lock_finish ids Hids). }
  apply wp_Ret in Hw as (result & s' & Hx & [(-> & Hg & part & _ & _ & Hpr)|(-> & Hg & _ & _ & Hpr)]);
    eexists _, s'; (split; [exact Hx|]); (split; [auto|]); [exists part|exists false]; exact Hpr.
Qed.

(** [convert] returns, and the answer is [LOCK_OK] exactly when the new mode is covered by the
    mode the locker holds or nobody else holds or awaits a mode that conflicts with it. *)
Theorem convert_decision (ids : gset Z) y res k newMode :
  Z.of_nat (size ids) < two32 - 2 → reachable ids y → enabled ids y (Convert res k newMode) = true →
  ∃ r result s', find_request res k (mgr y) = Some r ∧ convert res k newMode (mgr y) = Ret (result, s') ∧
    (result = LOCK_OK ∧ (isModeCovered newMode (rq_mode r) = true ∨ ¬ others_oppose (mgr y) res k newMode) ∨
     result = LOCK_WAITING ∧ isModeCovered newMode (rq_mode r) = false ∧ others_oppose (mgr y) res k newMode).
Proof.
  intros Hids Hy He. pose proof (reachable_SInv ids Hids y Hy) as HS. 
  destruct (enabled_convert ids y res k newMode HS He) as (r & Hf & Hr & <- & Hst & Hnp & Hmax & Hcov).
  pose proof (wp_convert ids (mgr y) (plk y) (pul y) res r newMode Hids (HS res) Hr Hst Hnp Hmax Hcov)
    as (result & s' & Hx & _ & Hres & _)%wp_Ret.
  by exists r, result, s'.
Qed.

(** The critical section of [unlock] wakes exactly those it grants: the request is given up (its
    conversion cancelled, if it was converting), the requests that remain are the old ones with
    those of the notified lockers granted, and everyone notified was waiting. *)
Theorem unlock_wakes_the_granted (ids : gset Z) y res k :
  Z.of_nat (size ids) < two32 - 2 → reachable ids y → enabled ids y (UnlockFinish res k) = true →
  ∃ gone s' h r h1 ns h', unlock_finish res k (mgr y) = Ret (gone, s') ∧
    lm_heads (mgr y) !! res = Some h ∧ r ∈ requests h ∧ rq_locker r = k ∧ given_up r h h1 ∧
    lm_heads s' !! res = Some h' ∧ requests h' ≡ₚ wake_in ns <$> requests h1 ∧
    (∀ k', k' ∈ ns → ∃ b, b ∈ requests h1 ∧ rq_locker b = k' ∧ waits b = true) ∧
    lm_notified s' = lm_notified (mgr y) ++ ((λ l, (res, l)) <$> ns).
Proof.
  intros Hids Hy He. pose proof (reachable_SInv ids Hids y Hy) as HS. simpl in He. apply bool_decide_eq_true in He.
  pose proof (wp_unlock_finish ids (mgr y) (plk y) (pul y) res (HS res) k He)
    as (gone & s' & Hx & _ & h & r & h1 & Hh & Hr & Hk & _ & Hgu & ns & h' & Hh' & Hev & Hns)%wp_Ret.
  exists gone, s', h, r, h1, ns, h'. split_and!; try done; apply Hev.
Qed.

(** ** Examples *)
Definition lock_calls (res k : Z) (m : LockMode) : list call := [LockBegin res (request_initNew k) m; LockFinish res k].
Definition three : gset Z := {[1; 2; 3]}.
Definition intent_holders : list call := lock_calls 7 1 MODE_IS ++ lock_calls 7 3 MODE_IX.
Definition one_waits : list call := intent_holders ++ lock_calls 7 2 MODE_X.

Lemma three_size : Z.of_nat (size three) < two32 - 2.
Proof. vm_compute. reflexivity. Qed.
Lemma found ids y res k r :
  Z.of_nat (size ids) < two32 - 2 → reachable ids y → find_request res k (mgr y) = Some r → present (mgr y) res r.
Proof.
  intros Hids Hy Hf. by apply (find_request_iff _ _ _ _ _ (reachable_SInv ids Hids y Hy res)) in Hf as [? _].
Qed.
Definition held (k : Z) (m : LockMode) (part : bool) : LockRequest :=
  mkLockRequest k false false part 1 STATUS_GRANTED m MODE_NONE.

Lemma granted_modes_compatible_witness :
  clash MODE_IS MODE_IX = false.
Proof.
  assert (reachable three (after three intent_holders)) as Hy by (apply runs_reachable; vm_compute; reflexivity).
  apply (granted_modes_compatible three (after three intent_holders) 7 (held 1 MODE_IS true) (held 3 MODE_IX true));
    [apply three_size|done| | |done].
  - split; [|done]. apply (found three _ 7 1); [apply three_size|done|vm_compute; reflexivity].
  - split; [|done]. apply (found three _ 7 3); [apply three_size|done|vm_compute; reflexivity].
Defined.
Lemma lock_calls_never_abort_witness :
  ∃ y', exec (UnlockBegin 7 1) (after three one_waits) = Ret (tt, y').
Proof.
  apply (lock_calls_never_abort three); [apply three_size| |vm_compute; reflexivity].
  apply runs_reachable. vm_compute. reflexivity.
Defined.
Lemma nobody_waits_in_vain_witness :
  ∃ r, find_request 7 2 (mgr (after three one_waits)) = Some r ∧
    (rq_status r = STATUS_CONVERTING ∧
       others_oppose (mgr (after three one_waits)) 7 (rq_locker r) (rq_convertMode r) ∨
     rq_status r = STATUS_WAITING ∧ ∃ h f l, lm_heads (mgr (after three one_waits)) !! 7 = Some h ∧
       conflictList h = f :: l ∧ grantedList h ≠ [] ∧
       (rq_enqueueAtFront f = true ∨ opposed None (rq_mode f) (grantedList h))).
Proof.
  assert (reachable three (after three one_waits)) as Hy by (apply runs_reachable; vm_compute; reflexivity).
  exists (mkLockRequest 2 false false false 1 STATUS_WAITING MODE_X MODE_NONE). split; [vm_compute; reflexivity|].
  apply (nobody_waits_in_vain three); [apply three_size|done| |done].
  apply (found three _ 7 2); [apply three_size|done|vm_compute; reflexivity].
Defined.
Lemma lock_decision_witness :
  ∃ result s', lock 7 (request_initNew 2) MODE_X (mgr (after three intent_holders)) = Ret (result, s') ∧
    (result = LOCK_OK ∧ may_grant (present (mgr (after three intent_holders)) 7) (prepared (request_initNew 2) MODE_X) ∨
     result = LOCK_WAITING ∧ ¬ may_grant (present (mgr (after three intent_holders)) 7) (prepared (request_initNew 2) MODE_X)) ∧
    ∃ part, ∀ b, present s' 7 b ↔ present (mgr (after three intent_holders)) 7 b ∨
      b = prepared (request_initNew 2) MODE_X
            <| rq_status := if decide (result = LOCK_OK) then STATUS_GRANTED else STATUS_WAITING |>
            <| rq_partitioned := part |>.
Proof.
  apply (lock_decision three); [apply three_size| |vm_compute; reflexivity].
  apply runs_reachable. vm_compute. reflexivity.
Defined.
Lemma convert_decision_witness :
  ∃ r result s', find_request 7 1 (mgr (after three intent_holders)) = Some r ∧
    convert 7 1 MODE_X (mgr (after three intent_holders)) = Ret (result, s') ∧
    (result = LOCK_OK ∧ (isModeCovered MODE_X (rq_mode r) = true ∨
                         ¬ others_oppose (mgr (after three intent_holders)) 7 1 MODE_X) ∨
     result = LOCK_WAITING ∧ isModeCovered MODE_X (rq_mode r) = false ∧
       others_oppose (mgr (after three intent_holders)) 7 1 MODE_X).
Proof.
  apply (convert_decision three); [apply three_size| |vm_compute; reflexivity].
  apply runs_reachable. vm_compute. reflexivity.
Defined.
Definition release_last : list call := one_waits ++ [UnlockBegin 7 1; UnlockFinish 7 1; UnlockBegin 7 3].
Lemma unlock_wakes_the_granted_witness :
  ∃ gone s' h r h1 ns h', unlock_finish 7 3 (mgr (after three release_last)) = Ret (gone, s') ∧
    lm_heads (mgr (after three release_last)) !! 7 = Some h ∧ r ∈ requests h ∧ rq_locker r = 3 ∧ given_up r h h1 ∧
    lm_heads s' !! 7 = Some h' ∧ requests h' ≡ₚ wake_in ns <$> requests h1 ∧
    (∀ k', k' ∈ ns → ∃ b, b ∈ requests h1 ∧ rq_locker b = k' ∧ waits b = true) ∧
    lm_notified s' = lm_notified (mgr (after three release_last)) ++ ((λ l, (7, l)) <$> ns).
Proof.
  apply (unlock_wakes_the_granted three); [apply three_size| |vm_compute; reflexivity].
  apply runs_reachable. vm_compute. reflexivity.
Defined.

(** Locker 1 holds IS and waits to convert to X; it times out and calls [unlock], which reads the
    status CONVERTING; before it has the bucket's mutex, locker 3 releases and the conversion is
    granted; so [unlock] takes the request for a granted one and removes it, although it is still
    counted, and answers that the locker holds the resource. *)
Definition conversion_race : list call :=
  lock_calls 7 1 MODE_IS ++ lock_calls 7 3 MODE_IS ++
  [Convert 7 1 MODE_X; UnlockBegin 7 1; UnlockBegin 7 3; UnlockFinish 7 3].
Lemma cancelled_conversion_loses_the_lock :
  runs three conversion_race = true ∧
  match find_request 7 1 (mgr (after three conversion_race)),
        unlock_finish 7 1 (mgr (after three conversion_race)) with
  | Some r, Ret (gone, s') => rq_recursiveCount r = 1 ∧ gone = false ∧ find_request 7 1 s' = None
  | _, _ => False
  end.
Proof. vm_compute. done. Qed.
(** A request that was granted in a partition cannot be downgraded. *)
Lemma downgrade_of_partitioned_aborts :
  downgrade 7 3 MODE_IS (mgr (after three intent_holders)) = Abort 633.
Proof. vm_compute. reflexivity. Qed.
End Locking.
