(* ===== verification/DeadlockDetector.v ===== *)
(** * The deadlock detector

    [DeadlockDetector] of src/mongo/db/concurrency/lock_manager.cpp builds the wait-for graph from
    one waiting locker.  The model searches one snapshot of the lock manager (the code takes the
    mutex of one bucket per node).  The search ends ([check] needs no more turns than [check_fuel]
    has), and it reports a cycle exactly when the locker waits for itself. *)
From S2P Require Import Prelude LockManager LockHeadInv LockHeadOps LockManagerProps.
Import Mode Head.

Record Detector := mkDetector {
  dd_initialLockerId : Z; dd_queue : list (Z * Z); dd_graph : gmap Z (Z * list Z); dd_foundCycle : bool }.
#[export] Instance Detector_eta : Eta Detector := λ d,
  mkDetector (dd_initialLockerId d) (dd_queue d) (dd_graph d) (dd_foundCycle d).

Module Deadlock.
Abbreviation DM := (M Detector).
Section detector.
Context (s : LockManager).

(** The resource on which the locker has a request that waits. *)
Definition waits_on (k : Z) (rh : Z * LockHead) : bool :=
  match findRequest k rh.2 with
  | Some r => has_status STATUS_WAITING r || has_status STATUS_CONVERTING r
  | None => false
  end.
Definition getWaitingResource (k : Z) : option Z :=
  fst <$> find (waits_on k) (map_to_list (lm_heads s)).

Definition DeadlockDetector (initialLocker : Z) : Detector :=
  mkDetector initialLocker
    (match getWaitingResource initialLocker with Some resId => [(initialLocker, resId)] | None => [] end)
    ∅ false.

(** The owner of [it] is visited if it waits itself. *)
Definition push_owner (k : Z) (it : LockRequest) : DM () :=
  let lockerId := rq_locker it in
  match getWaitingResource lockerId with
  | Some waitResId =>
      modify (λ d, d <| dd_queue := (lockerId, waitResId) :: dd_queue d |>
                     <| dd_graph := alter (λ e, (e.1, e.2 ++ [lockerId])) k (dd_graph d) |>)
  | None => mret tt
  end.
(** One turn of the loop over the granted queue, from the back. *)
Definition scan_granted (k : Z) (request : LockRequest) (seen : bool) (it : LockRequest) : DM bool :=
  if by_locker (rq_locker request) it then mret true
  else if has_status STATUS_WAITING request then
    (if conflicts (rq_mode request) (modeMask (rq_mode it)) ||
        conflicts (rq_mode request) (modeMask (rq_convertMode it))
     then push_owner k it else mret tt) ;;
    mret seen
  else
    invariant 1076 (λ _, has_status STATUS_CONVERTING request) ;;
    (if conflicts (rq_convertMode request) (modeMask (rq_mode it)) ||
        (seen && conflicts (rq_convertMode request) (modeMask (rq_convertMode it)))
     then push_owner k it else mret tt) ;;
    mret seen.
(** The requests in front of that of [l] in the queue. *)
Fixpoint before (l : Z) (rs : list LockRequest) : list LockRequest :=
  match rs with
  | [] => []
  | r :: rs => if by_locker l r then [] else r :: before l rs
  end.
Definition scan_waiting (k : Z) (request it : LockRequest) : DM () :=
  invariant 1095 (λ _, negb (by_locker (rq_locker request) it)) ;;
  if conflicts (rq_mode request) (modeMask (rq_mode it)) then push_owner k it else mret tt.
Definition _processNextNode (node : Z * Z) : DM () :=
  let '(lockerId, resId) := node in
  match lm_heads s !! resId with
  | None => mret tt
  | Some lock =>
      match findRequest lockerId lock with
      | None => mret tt
      | Some request =>
          if has_status STATUS_GRANTED request then mret tt
          else
            d ← gets id;
            match dd_graph d !! lockerId with
            | Some _ =>
                modify (λ d, d <| dd_foundCycle := dd_foundCycle d || (lockerId =? dd_initialLockerId d) |>)
            | None =>
                modify (λ d, d <| dd_graph := <[lockerId := (resId, [])]> (dd_graph d) |>) ;;
                mfoldl (scan_granted lockerId request) false (rev (grantedList lock)) ;;
                if has_status STATUS_WAITING request then
                  mfoldl (λ (_ : ()) it, scan_waiting lockerId request it) tt
                    (rev (before lockerId (conflictList lock)))
                else mret tt
            end
      end
  end.
Definition next : DM bool :=
  d ← gets id;
  match dd_queue d with
  | [] => mret false
  | front :: queue =>
      modify (λ d, d <| dd_queue := queue |>) ;;
      _processNextNode front ;;
      d ← gets id;
      mret (negb (bool_decide (length (dd_queue d) = 0%nat)))
  end.
(** [while (next()) {}] *)
Fixpoint check (fuel : nat) : DM () :=
  match fuel with
  | O => mret tt
  | S fuel => more ← next; if (more : bool) then check fuel else mret tt
  end.
Definition hasCycle (d : Detector) : outcome bool :=
  match dd_queue d with [] => Ret (dd_foundCycle d) | _ => Abort 992 end.

(** ** The wait-for graph *)
(** [it] comes before a request of the locker [k]. *)
Definition ahead (k : Z) (it : LockRequest) (l : list LockRequest) : Prop :=
  ∃ l1 l2, l = l1 ++ it :: l2 ∧ k ∈ lockers l2.
(** [it] is in the way of the waiting request [r]: what it holds conflicts, or it would be granted
    first and would conflict then. *)
Definition obstructs (h : LockHead) (r it : LockRequest) : Prop :=
  rq_locker it ≠ rq_locker r ∧
  if has_status STATUS_WAITING r then
    it ∈ grantedList h ∧ (clash (rq_mode r) (rq_mode it) = true ∨ clash (rq_mode r) (rq_convertMode it) = true) ∨
    it ∈ before (rq_locker r) (conflictList h) ∧ clash (rq_mode r) (rq_mode it) = true
  else
    it ∈ grantedList h ∧ clash (rq_convertMode r) (rq_mode it) = true ∨
    ahead (rq_locker r) it (grantedList h) ∧ clash (rq_convertMode r) (rq_convertMode it) = true.
(** A locker that waits waits for the waiting lockers whose requests are in its way. *)
Definition waits_for (a b : Z) : Prop :=
  ∃ res h r it, getWaitingResource a = Some res ∧ lm_heads s !! res = Some h ∧ findRequest a h = Some r ∧
    obstructs h r it ∧ rq_locker it = b ∧ is_Some (getWaitingResource b).

(** The owners in the order in which the loops push them. *)
Definition blocks (r : LockRequest) (seen : bool) (it : LockRequest) : bool :=
  if has_status STATUS_WAITING r
  then conflicts (rq_mode r) (modeMask (rq_mode it)) || conflicts (rq_mode r) (modeMask (rq_convertMode it))
  else conflicts (rq_convertMode r) (modeMask (rq_mode it)) ||
       (seen && conflicts (rq_convertMode r) (modeMask (rq_convertMode it))).
Fixpoint granted_owners (r : LockRequest) (seen : bool) (l : list LockRequest) : list Z :=
  match l with
  | [] => []
  | it :: l => if by_locker (rq_locker r) it then granted_owners r true l
               else (if blocks r seen it then [rq_locker it] else []) ++ granted_owners r seen l
  end.
Definition waiting_owners (r : LockRequest) (l : list LockRequest) : list Z :=
  rq_locker <$> List.filter (λ it, conflicts (rq_mode r) (modeMask (rq_mode it))) l.
Definition owners (h : LockHead) (r : LockRequest) : list Z :=
  granted_owners r false (rev (grantedList h)) ++
  (if has_status STATUS_WAITING r then waiting_owners r (rev (before (rq_locker r) (conflictList h))) else []).

Definition push (k l : Z) (d : Detector) : Detector :=
  match getWaitingResource l with
  | Some w => d <| dd_queue := (l, w) :: dd_queue d |>
                <| dd_graph := alter (λ e, (e.1, e.2 ++ [l])) k (dd_graph d) |>
  | None => d
  end.
Definition push_all (k : Z) (ls : list Z) (d : Detector) : Detector := foldl (λ d l, push k l d) d ls.

Lemma wp_push_owner k it Q d : Q tt (push k (rq_locker it) d) → wp (push_owner k it) Q d.
Proof. unfold push_owner, push. by destruct (getWaitingResource _). Qed.
Lemma wp_scan_granted k r l seen Q d :
  waits r = true → (∀ seen', Q seen' (push_all k (granted_owners r seen l) d)) →
  wp (mfoldl (scan_granted k r) seen l) Q d.
Proof.
  intros Hw. revert seen d. induction l as [|it l IH]; intros seen d HQ; cbn [mfoldl]; [apply HQ|].
  apply wp_bind. unfold scan_granted. cbn [granted_owners] in HQ. destruct (by_locker _ it).
  { wp_simpl. by apply IH. }
  apply (wp_mono _ (λ b d', b = seen ∧ d' = push_all k (if blocks r seen it then [rq_locker it] else []) d)).
  { intros b d' [-> ->]. apply IH. intros seen'. unfold push_all in *. setoid_rewrite foldl_app in HQ. apply HQ. }
  unfold blocks. destruct (has_status STATUS_WAITING r) eqn:E.
  - apply wp_bind. destruct (_ || _); [apply wp_push_owner|]; wp_simpl; done.
  - wp_simpl. split; [unfold waits in Hw; by rewrite E in Hw|].
    destruct (_ || _); [apply wp_push_owner|]; wp_simpl; done.
Qed.
Lemma wp_scan_waiting k r l Q d :
  Forall (λ it, by_locker (rq_locker r) it = false) l → Q tt (push_all k (waiting_owners r l) d) →
  wp (mfoldl (λ (_ : ()) it, scan_waiting k r it) tt l) Q d.
Proof.
  revert d. induction l as [|it l IH]; intros d Hl HQ; cbn [mfoldl]; [done|].
  apply Forall_cons in Hl as [Hit Hl]. wp_simpl. unfold scan_waiting. wp_simpl. split; [by rewrite Hit|].
  unfold waiting_owners in *. cbn [List.filter] in HQ.
  destruct (conflicts _ _); [apply wp_push_owner|wp_simpl]; by apply IH.
Qed.
Lemma before_others k l : Forall (λ it, by_locker k it = false) (before k l).
Proof. induction l as [|r l IH]; simpl; [done|]. destruct (by_locker k r) eqn:E; by constructor. Qed.

(** ** The owners pushed are those in the way *)
Lemma elem_of_granted_owners r seen l b :
  b ∈ granted_owners r seen l ↔ ∃ l1 it l2, l = l1 ++ it :: l2 ∧ rq_locker it = b ∧ rq_locker it ≠ rq_locker r ∧
    blocks r (seen || bool_decide (rq_locker r ∈ lockers l1)) it = true.
Proof.
  revert seen. induction l as [|it l IH]; intros seen; cbn [granted_owners].
  { split; [by intros ?%elem_of_nil|]. intros ([] & ? & ? & ? & _); done. }
  destruct (by_locker (rq_locker r) it) eqn:E.
  - apply by_locker_true in E. rewrite IH. split.
    + intros (l1 & it' & l2 & -> & Hb & Hne & Hbl). exists (it :: l1), it', l2. split_and!; [done..|].
      rewrite (bool_decide_true (_ ∈ lockers (it :: l1))), orb_true_r; [done|]. unfold lockers. rewrite fmap_cons, E. by left.
    + intros ([|it0 l1] & it' & l2 & Hl & Hb & Hne & Hbl); cbn [app] in Hl; simplify_eq.
      exists l1, it', l2. split_and!; [done..|]. revert Hbl. rewrite (bool_decide_true (_ ∈ lockers (it0 :: l1))), orb_true_r; [done|].
      unfold lockers. rewrite fmap_cons, E. by left.
  - assert (rq_locker it ≠ rq_locker r) as Hit by (intros Hx; apply by_locker_true in Hx; congruence).
    rewrite elem_of_app, IH. split.
    + intros [Hb|(l1 & it' & l2 & -> & Hb & Hne & Hbl)].
      * destruct (blocks r seen it) eqn:Hbl; [|by apply elem_of_nil in Hb]. apply list_elem_of_singleton in Hb.
        exists [], it, l. split_and!; [done..|]. rewrite bool_decide_false by apply not_elem_of_nil. by rewrite orb_false_r.
      * exists (it :: l1), it', l2. split_and!; [done..|]. rewrite <-Hbl. do 2 f_equal. apply bool_decide_ext.
        unfold lockers. rewrite fmap_cons, elem_of_cons. naive_solver.
    + intros ([|it0 l1] & it' & l2 & Hl & Hb & Hne & Hbl); cbn [app] in Hl; simplify_eq.
      * left. rewrite bool_decide_false, orb_false_r in Hbl by apply not_elem_of_nil. rewrite Hbl. by left.
      * right. exists l1, it', l2. split_and!; [done..|]. rewrite <-Hbl. do 2 f_equal. apply bool_decide_ext.
        unfold lockers. rewrite fmap_cons, elem_of_cons. naive_solver.
Qed.
Lemma elem_of_middle {A} (l : list A) x : x ∈ l ↔ ∃ l1 l2, l = l1 ++ x :: l2.
Proof.
  split; [apply list_elem_of_split|]. intros (l1 & l2 & ->). apply elem_of_app. right. left.
Qed.
Lemma elem_of_rev {A} (x : A) l : x ∈ rev l ↔ x ∈ l.
Proof. by rewrite !list_elem_of_In, <-in_rev. Qed.
Lemma elem_of_owners h r b : b ∈ owners h r ↔ ∃ it, obstructs h r it ∧ rq_locker it = b.
Proof.
  unfold owners, obstructs. rewrite elem_of_app, elem_of_granted_owners.
  assert (∀ l1 it l2, rev (grantedList h) = l1 ++ it :: l2 ↔ grantedList h = rev l2 ++ it :: rev l1) as Hrev.
  { intros l1 it l2. split; intros Hl; [apply (f_equal (@rev _)) in Hl; rewrite rev_involutive in Hl; rewrite Hl|rewrite Hl];
      rewrite rev_app_distr; simpl; rewrite ?rev_involutive, <-app_assoc; done. }
  assert (∀ l : list LockRequest, rq_locker r ∈ lockers (rev l) ↔ rq_locker r ∈ lockers l) as Hlr.
  { intros l. unfold lockers. rewrite !list_elem_of_fmap. by setoid_rewrite elem_of_rev. }
  unfold blocks. destruct (has_status STATUS_WAITING r).
  - unfold waiting_owners. rewrite list_elem_of_fmap. split.
    + intros [(l1 & it & l2 & Hl%Hrev & <- & Hne & Hbl)|(it & -> & Hit)].
      * exists it. split_and!; [done| |done]. left. split; [rewrite Hl; apply elem_of_middle; eauto|]. by apply orb_true_iff.
      * apply list_elem_of_In, List.filter_In in Hit as [Hit Hc]. apply list_elem_of_In in Hit. rewrite elem_of_rev in Hit.
        exists it. split_and!; [|by right|done]. pose proof (before_others (rq_locker r) (conflictList h)) as Ho.
        rewrite Forall_forall in Ho. specialize (Ho it Hit). intros Hx. apply by_locker_true in Hx. congruence.
    + intros (it & (Hne & [[Hit Hc]|[Hit Hc]]) & <-).
      * left. apply elem_of_middle in Hit as (l1 & l2 & Hl). exists (rev l2), it, (rev l1).
        split_and!; [apply Hrev; by rewrite !rev_involutive|done..|]. by apply orb_true_iff.
      * right. exists it. split; [done|]. apply list_elem_of_In, List.filter_In. split; [|done].
        apply list_elem_of_In. by rewrite elem_of_rev.
  - split.
    + intros [(l1 & it & l2 & Hl%Hrev & <- & Hne & Hbl)|Hx]; [|by apply elem_of_nil in Hx].
      exists it. split_and!; [done| |done]. apply orb_true_iff in Hbl as [Hc|[Hs Hc]%andb_true_iff].
      * left. split; [rewrite Hl; apply elem_of_middle; eauto|done].
      * right. apply bool_decide_eq_true in Hs. split; [|done]. exists (rev l2), (rev l1). by rewrite Hlr.
    + intros (it & (Hne & [[Hit Hc]|[(l1 & l2 & Hl & Hk) Hc]]) & <-); left.
      * apply elem_of_middle in Hit as (l1 & l2 & Hl). exists (rev l2), it, (rev l1).
        split_and!; [apply Hrev; by rewrite !rev_involutive|done..|]. apply orb_true_iff. by left.
      * exists (rev l2), it, (rev l1). split_and!; [apply Hrev; by rewrite !rev_involutive|done..|].
        apply orb_true_iff. right. rewrite bool_decide_true by (by rewrite Hlr). done.
Qed.

(** ** One node *)
Lemma wait_found k w :
  getWaitingResource k = Some w →
  ∃ h r, lm_heads s !! w = Some h ∧ findRequest k h = Some r ∧ waits r = true ∧ rq_locker r = k.
Proof.
  unfold getWaitingResource. intros ([res h] & Hf & ->)%fmap_Some. apply find_some in Hf as [Hin Hw].
  apply list_elem_of_In, elem_of_map_to_list in Hin. unfold waits_on in Hw. simpl in *.
  destruct (findRequest k h) as [r|] eqn:E; [|done]. exists h, r. split_and!; [done..|].
  unfold findRequest in E. destruct (find _ (grantedList h)) eqn:Eg; simplify_eq.
  - by apply find_some in Eg as [_ ?%by_locker_true].
  - by apply find_some in E as [_ ?%by_locker_true].
Qed.
Record pushed (ls : list Z) (d d' : Detector) : Prop := mkPushed {
  pd_initial : dd_initialLockerId d' = dd_initialLockerId d;
  pd_found : dd_foundCycle d' = dd_foundCycle d;
  pd_graph : dom (dd_graph d') = dom (dd_graph d);
  pd_queue : ∀ l w, (l, w) ∈ dd_queue d' ↔ (l, w) ∈ dd_queue d ∨ l ∈ ls ∧ getWaitingResource l = Some w;
  pd_length : (length (dd_queue d') ≤ length (dd_queue d) + length ls)%nat }.
Lemma push_all_pushed k ls d : pushed ls d (push_all k ls d).
Proof.
  revert d. induction ls as [|l ls IH]; intros d; unfold push_all; cbn [foldl].
  { split; try done; [|lia]. intros l w. set_solver. }
  destruct (IH (push k l d)) as [H1 H2 H3 H4 H5]. fold (push_all k ls (push k l d)).
  unfold push in *. destruct (getWaitingResource l) as [w|] eqn:E; simpl in *.
  - split; [done..| | |simpl in *; lia].
    + rewrite H3. by rewrite dom_alter_L.
    + intros l' w'. rewrite H4, !elem_of_cons. split; [|naive_solver].
      intros [[[= -> ->]|?]|?]; naive_solver.
  - split; [done..| |simpl; lia]. intros l' w'. rewrite H4, elem_of_cons. split; [naive_solver|].
    intros [?|[[->|?] ?]]; [by left|congruence|by right].
Qed.
Lemma wp_process k w Q d :
  getWaitingResource k = Some w →
  (is_Some (dd_graph d !! k) → Q tt (d <| dd_foundCycle := dd_foundCycle d || (k =? dd_initialLockerId d) |>)) →
  (∀ h r d', dd_graph d !! k = None → lm_heads s !! w = Some h → findRequest k h = Some r →
    pushed (owners h r) (d <| dd_graph := <[k := (w, [])]> (dd_graph d) |>) d' → Q tt d') →
  wp (_processNextNode (k, w)) Q d.
Proof.
  intros Hw Hold Hnew. destruct (wait_found k w Hw) as (h & r & Hh & Hr & Hwr & Hk).
  unfold _processNextNode. rewrite Hh, Hr.
  assert (has_status STATUS_GRANTED r = false) as -> by (unfold waits, has_status in *; by destruct (rq_status r)).
  wp_simpl. unfold id. destruct (dd_graph d !! k) as [e|] eqn:Eg; wp_simpl; [by apply Hold|].
  apply wp_scan_granted; [done|]. intros _.
  assert (∀ d', d' = push_all k (owners h r) (d <| dd_graph := <[k := (w, [])]> (dd_graph d) |>) → Q tt d') as HQ
    by (intros d' ->; eapply Hnew; [done..|apply push_all_pushed]).
  unfold owners, push_all in HQ. rewrite foldl_app, Hk in HQ. destruct (has_status STATUS_WAITING r).
  - apply wp_scan_waiting; [|by apply HQ]. rewrite Hk. apply Forall_rev, before_others.
  - wp_simpl. by apply HQ.
Qed.
Lemma granted_owners_length r seen l : (length (granted_owners r seen l) ≤ length l)%nat.
Proof.
  revert seen. induction l as [|it l IH]; intros seen; simpl; [lia|]. destruct (by_locker _ it).
  - specialize (IH true). lia.
  - rewrite length_app. specialize (IH seen). destruct (blocks r seen it); simpl; lia.
Qed.
Lemma owners_length h r : (length (owners h r) ≤ length (requests h))%nat.
Proof.
  unfold owners, requests. rewrite !length_app. pose proof (granted_owners_length r false (rev (grantedList h))) as H.
  rewrite length_rev in H. destruct (has_status STATUS_WAITING r); simpl; [|lia].
  unfold waiting_owners. rewrite length_fmap. pose proof (List.filter_length_le (λ it, conflicts (rq_mode r) (modeMask (rq_mode it)))
    (rev (before (rq_locker r) (conflictList h)))) as H2. rewrite length_rev in H2.
  assert (∀ k l, length (before k l) ≤ length l)%nat as Hb.
  { intros k l. induction l as [|a l IH]; simpl; [lia|]. destruct (by_locker k a); simpl; lia. }
  specialize (Hb (rq_locker r) (conflictList h)). lia.
Qed.

(** ** The search *)
Definition all_requests : list LockRequest := concat ((λ rh, requests rh.2) <$> map_to_list (lm_heads s)).
Definition check_fuel : nat := (S (length all_requests) * S (length all_requests))%nat.

Lemma all_requests_in res h r : lm_heads s !! res = Some h → r ∈ requests h → r ∈ all_requests.
Proof.
  intros Hh Hr. unfold all_requests. apply list_elem_of_In, in_concat. exists (requests h). split; [|by apply list_elem_of_In].
  apply list_elem_of_In, list_elem_of_fmap. exists (res, h). split; [done|]. by apply elem_of_map_to_list.
Qed.
Lemma requests_length res h : lm_heads s !! res = Some h → (length (requests h) ≤ length all_requests)%nat.
Proof.
  intros Hh%elem_of_map_to_list%list_elem_of_split. destruct Hh as (l1 & l2 & Hl). unfold all_requests.
  rewrite Hl, fmap_app, concat_app, length_app. simpl. rewrite length_app. lia.
Qed.

Section search.
Context (init : Z).
Abbreviation reaches := (tc waits_for init).

Record DInv (d : Detector) : Prop := mkDInv {
  di_initial : dd_initialLockerId d = init;
  di_queue : ∀ l w, (l, w) ∈ dd_queue d → getWaitingResource l = Some w ∧ (reaches l ∨ l = init ∧ dd_graph d = ∅);
  di_graph : ∀ a, a ∈ dom (dd_graph d) → (a = init ∨ reaches a) ∧ is_Some (getWaitingResource a);
  di_closed : ∀ a b, a ∈ dom (dd_graph d) → waits_for a b →
    (∃ w, (b, w) ∈ dd_queue d) ∨ b ∈ dom (dd_graph d) ∧ (b = init → dd_foundCycle d = true);
  di_found : dd_foundCycle d = true → reaches init;
  di_started : (dd_graph d = ∅ ∧ ∃ w, dd_queue d = [(init, w)]) ∨ init ∈ dom (dd_graph d) }.

(** The lockers not yet in the graph, and then the queue, get fewer. *)
Definition work (d : Detector) : nat :=
  ((length all_requests - size (dom (dd_graph d))) * S (length all_requests) + length (dd_queue d))%nat.

Lemma waiting_present k w : getWaitingResource k = Some w → k ∈ (list_to_set (lockers all_requests) : gset Z).
Proof.
  intros (h & r & Hh & Hr & _ & Hk)%wait_found. apply elem_of_list_to_set. rewrite <-Hk. apply list_elem_of_fmap_2.
  apply (all_requests_in w h); [done|]. unfold findRequest in Hr. apply elem_of_app.
  destruct (find _ (grantedList h)) eqn:E; simplify_eq; [left|right]; [apply find_some in E|apply find_some in Hr];
    apply list_elem_of_In; naive_solver.
Qed.
Lemma graph_bound d k w :
  DInv d → getWaitingResource k = Some w → k ∉ dom (dd_graph d) → (size (dom (dd_graph d)) < length all_requests)%nat.
Proof.
  intros HD Hk Hn. assert ({[k]} ∪ dom (dd_graph d) ⊆ list_to_set (lockers all_requests)) as Hs.
  { intros a [->%elem_of_singleton|Ha]%elem_of_union; [by eapply waiting_present|].
    destruct (di_graph d HD a Ha) as [_ [w' Hw']]. by eapply waiting_present. }
  apply subseteq_size in Hs. rewrite size_union, size_singleton in Hs by set_solver.
  assert (size (list_to_set (lockers all_requests) : gset Z) ≤ length all_requests)%nat; [|lia].
  clear. unfold lockers. induction all_requests as [|r l IH]; [done|]. rewrite fmap_cons, list_to_set_cons. simpl.
  rewrite size_union_alt, size_singleton. pose proof (subseteq_size (list_to_set (rq_locker <$> l) ∖ {[rq_locker r]} : gset Z) (list_to_set (rq_locker <$> l)) ltac:(set_solver)). lia.
Qed.
Lemma waits_for_owner a w h r b :
  getWaitingResource a = Some w → lm_heads s !! w = Some h → findRequest a h = Some r →
  waits_for a b ↔ b ∈ owners h r ∧ is_Some (getWaitingResource b).
Proof.
  intros Ha Hh Hr. rewrite elem_of_owners. unfold waits_for. split.
  - intros (w' & h' & r' & it & Ha' & Hh' & Hr' & Ho & Hb & Hw). simplify_eq. eauto.
  - intros [(it & Ho & Hb) Hw]. exists w, h, r, it. done.
Qed.

Lemma visited_again d k w q :
  DInv d → dd_queue d = (k, w) :: q → is_Some (dd_graph d !! k) →
  let d' := d <| dd_queue := q |> <| dd_foundCycle := dd_foundCycle d || (k =? dd_initialLockerId d) |> in
  DInv d' ∧ (work d' < work d)%nat.
Proof.
  intros HD Hq Hk d'. pose proof HD as [H1 H2 H3 H4 H5 H6].
  assert (dd_graph d ≠ ∅) as Hne by (intros Hx; rewrite Hx, lookup_empty in Hk; by destruct Hk).
  assert (k ∈ dom (dd_graph d)) as Hkd by (by apply elem_of_dom).
  assert (reaches k) as Hrk by (destruct (H2 k w) as [_ [?|[_ ?]]]; [rewrite Hq; left|done|done]).
  split; [|unfold work; simpl; rewrite Hq; simpl; lia]. split; simpl; [done| |done| | |].
  - intros l w' Hl. apply H2. rewrite Hq. by right.
  - intros a b Ha Hab. destruct (H4 a b Ha Hab) as [[w' Hb]|[Hb Hf]].
    + rewrite Hq in Hb. apply elem_of_cons in Hb as [[= -> ->]|Hb]; [right|left; eauto]. split; [done|].
      intros ->. rewrite H1, Z.eqb_refl. by rewrite orb_true_r.
    + right. split; [done|]. intros Hb'. by rewrite (Hf Hb').
  - intros [?|Hki]%orb_true_iff; [auto|]. apply Z.eqb_eq in Hki. rewrite H1 in Hki. by subst.
  - right. destruct H6 as [[? _]|?]; [done|done].
Qed.
Lemma visited_new d k w q h r d' :
  DInv d → dd_queue d = (k, w) :: q → dd_graph d !! k = None → lm_heads s !! w = Some h → findRequest k h = Some r →
  pushed (owners h r) (d <| dd_queue := q |> <| dd_graph := <[k := (w, [])]> (dd_graph d) |>) d' →
  DInv d' ∧ (work d' < work d)%nat.
Proof.
  intros HD Hq Hk Hh Hr [P1 P2 P3 P4 P5]. pose proof HD as [H1 H2 H3 H4 H5 H6]. simpl in *.
  destruct (H2 k w) as [Hkw Hkr]; [rewrite Hq; left|]. rewrite dom_insert_L in P3.
  assert (k ∉ dom (dd_graph d)) as Hkd by (by apply not_elem_of_dom).
  assert (k = init ∨ reaches k) as Hko by naive_solver.
  assert (∀ b, b ∈ owners h r → is_Some (getWaitingResource b) → reaches b) as Hnew.
  { intros b Hb Hs. assert (waits_for k b) as Hwf by (by apply (waits_for_owner k w h r)).
    destruct Hko as [->|?]; [by apply tc_once|by eapply tc_r]. }
  assert (dd_graph d ≠ ∅ → init ∈ dom (dd_graph d)) as Hst by (destruct H6 as [[? _]|?]; done).
  split.
  2: { unfold work. rewrite P3, size_union, size_singleton by set_solver. rewrite Hq. simpl.
       pose proof (graph_bound d k w HD Hkw Hkd) as Hb. pose proof (owners_length h r) as Ho.
       pose proof (requests_length w h Hh) as Hrl.
       set (N := length all_requests) in *. set (z := size (dom (dd_graph d))) in *.
       replace (N - z)%nat with (S (N - S z))%nat by lia. simpl. lia. }
  split; [by rewrite P1|..].
  - intros l w' [Hl|[Hl Hw']]%P4.
    + destruct (H2 l w') as [Hlw Hlr]; [rewrite Hq; by right|]. split; [done|]. left. destruct Hlr as [?|[-> Hg]]; [done|].
      destruct H6 as [[_ [w0 Hw0]]|Hin]; [|by rewrite Hg in Hin; set_solver].
      rewrite Hq in Hw0. injection Hw0 as _ _ ->. by apply elem_of_nil in Hl.
    + split; [done|]. left. eauto.
  - intros a Ha. rewrite P3 in Ha. apply elem_of_union in Ha as [->%elem_of_singleton|Ha]; [eauto|auto].
  - intros a b Ha Hab. rewrite P3 in Ha |- *. rewrite P2. apply elem_of_union in Ha as [->%elem_of_singleton|Ha].
    + apply (waits_for_owner k w h r) in Hab as [Hb [w' Hw']]; [|done..]. left. exists w'. apply P4. by right.
    + assert (init ∈ dom (dd_graph d)) as Hi by (apply Hst; intros Hx; rewrite Hx in Ha; set_solver).
      destruct (H4 a b Ha Hab) as [[w' Hb]|[Hb Hf]].
      * rewrite Hq in Hb. apply elem_of_cons in Hb as [[= -> ->]|Hb].
        -- right. split; [set_solver|]. intros ->. done.
        -- left. exists w'. apply P4. by left.
      * right. split; [set_solver|done].
  - rewrite P2. done.
  - right. rewrite P3. destruct H6 as [[_ [w0 Hw0]]|?]; [|set_solver]. rewrite Hq in Hw0. injection Hw0 as -> _ _. set_solver.
Qed.
Lemma wp_next d :
  DInv d → dd_queue d ≠ [] →
  wp next (λ more d', DInv d' ∧ (work d' < work d)%nat ∧ (more = false → dd_queue d' = [])) d.
Proof.
  intros HD Hq. unfold next. wp_simpl. unfold id. destruct (dd_queue d) as [|[k w] q] eqn:Eq; [done|]. wp_simpl.
  destruct (di_queue d HD k w) as [Hkw _]; [rewrite Eq; left|].
  assert (∀ d', DInv d' ∧ (work d' < work d)%nat → DInv d' ∧ (work d' < work d)%nat ∧
    (negb (bool_decide (length (dd_queue d') = 0%nat)) = false → dd_queue d' = [])) as Hend.
  { intros d' [? ?]. split_and!; [done..|]. destruct (dd_queue d'); [done|by simpl]. }
  apply wp_process; [done|..]; cbn beta.
  - intros Hk. wp_simpl. apply Hend. by apply (visited_again d k w q).
  - intros h r d' Hk Hh Hr Hp. wp_simpl. apply Hend. by eapply visited_new.
Qed.
Lemma wp_check fuel d :
  DInv d → (work d ≤ fuel)%nat → wp (check fuel) (λ _ d', DInv d' ∧ dd_queue d' = []) d.
Proof.
  revert d. induction fuel as [|fuel IH]; intros d HD Hf; cbn [check].
  { wp_simpl. split; [done|]. unfold work in Hf. destruct (dd_queue d); [done|]. cbn [length] in Hf.
    generalize dependent ((length all_requests - size (dom (dd_graph d))) * S (length all_requests))%nat. lia. }
  destruct (dd_queue d) as [|n q] eqn:Eq.
  { unfold next. wp_simpl. unfold id. rewrite Eq. wp_simpl. done. }
  apply wp_bind. eapply wp_mono; [|apply wp_next; [done|by rewrite Eq]].
  intros more d' (HD' & Hlt & Hm). destruct more; [apply IH; [done|lia]|]. wp_simpl. auto.
Qed.

(** All that is reachable has been visited when the queue is empty. *)
Lemma closed_reachable d a :
  DInv d → dd_queue d = [] → reaches a → a ∈ dom (dd_graph d) ∧ (a = init → dd_foundCycle d = true).
Proof.
  intros HD Hq Hr. assert (init ∈ dom (dd_graph d)) as Hi.
  { destruct (di_started d HD) as [[_ [w Hw]]|?]; [congruence|done]. }
  assert (∀ a b, a ∈ dom (dd_graph d) → waits_for a b → b ∈ dom (dd_graph d) ∧ (b = init → dd_foundCycle d = true)) as Hstep.
  { intros x z Hx Hxz. destruct (di_closed d HD x z Hx Hxz) as [[w Hw]|?]; [rewrite Hq in Hw; by apply elem_of_nil in Hw|done]. }
  assert (∀ x, tc waits_for x a → x ∈ dom (dd_graph d) → a ∈ dom (dd_graph d) ∧ (a = init → dd_foundCycle d = true)) as H;
    [|by apply (H init)].
  clear Hr. intros x Hx. induction Hx as [x z Hxz|x z t Hxz _ IH]; intros Hin; [by eapply Hstep|].
  apply IH. by apply (Hstep x z).
Qed.
Lemma DInv_start w : getWaitingResource init = Some w → DInv (DeadlockDetector init).
Proof.
  intros Hw. unfold DeadlockDetector. rewrite Hw. split; simpl.
  - done.
  - intros l w' [= -> ->]%list_elem_of_singleton. auto.
  - intros a. rewrite dom_empty_L. set_solver.
  - intros a b. rewrite dom_empty_L. set_solver.
  - done.
  - left. eauto.
Qed.
Lemma work_start : (work (DeadlockDetector init) ≤ check_fuel)%nat.
Proof.
  unfold work, DeadlockDetector, check_fuel. simpl. rewrite dom_empty_L, size_empty.
  destruct (getWaitingResource init); simpl; lia.
Qed.
Lemma search_ends : ∃ d b, check check_fuel (DeadlockDetector init) = Ret (tt, d) ∧ hasCycle d = Ret b.
Proof.
  destruct (getWaitingResource init) as [w|] eqn:Hw.
  - pose proof (wp_check check_fuel _ (DInv_start w Hw) work_start) as ([] & d & Hd & HD & Hq)%wp_Ret. exists d.
    unfold hasCycle. rewrite Hq. eauto.
  - unfold DeadlockDetector. rewrite Hw. eexists _, _. split; [by destruct check_fuel|done].
Qed.
End search.
End detector.

(** C37. The search for a deadlock ends: within [check_fuel] turns, which is quadratic in the number of
    requests, the queue is empty; no check fails on the way. *)
Theorem check_terminates s init fuel :
  (check_fuel s ≤ fuel)%nat → ∃ d, check s fuel (DeadlockDetector s init) = Ret (tt, d) ∧ dd_queue d = [].
Proof.
  intros Hf. destruct (getWaitingResource s init) as [w|] eqn:Hw.
  - pose proof (wp_check s init fuel _ (DInv_start s init w Hw)) as H. pose proof (work_start s init).
    specialize (H ltac:(lia)). apply wp_Ret in H as ([] & d & Hd & _ & Hq). by exists d.
  - exists (DeadlockDetector s init). unfold DeadlockDetector. rewrite Hw. by destruct fuel.
Qed.
(** C35. The detector is exact: it reports a cycle if and only if the initial locker waits, directly or
    through other waiting lockers, for itself. *)
Theorem hasCycle_iff_waits_for_itself s init :
  ∃ d, check s (check_fuel s) (DeadlockDetector s init) = Ret (tt, d) ∧
    ∃ b, hasCycle d = Ret b ∧ (b = true ↔ tc (waits_for s) init init).
Proof.
  destruct (getWaitingResource s init) as [w|] eqn:Hw.
  - pose proof (wp_check s init (check_fuel s) _ (DInv_start s init w Hw) (work_start s init)) as H.
    apply wp_Ret in H as ([] & d & Hd & HD & Hq). exists d. split; [done|]. exists (dd_foundCycle d).
    unfold hasCycle. rewrite Hq. split; [done|]. split; [apply HD|].
    intros Hr. by apply (closed_reachable s init d init HD Hq Hr).
  - exists (DeadlockDetector s init). split; [unfold DeadlockDetector; rewrite Hw; by destruct (check_fuel s)|].
    exists false. unfold hasCycle, DeadlockDetector. rewrite Hw. split; [done|]. split; [done|].
    intros Ht. assert (is_Some (getWaitingResource s init)) as [w' Hw']; [|congruence].
    by inversion Ht as [? ? (? & ? & ? & ? & Hx & _)|? ? ? (? & ? & ? & ? & Hx & _)].
Qed.

(** Two lockers that wait for each other. *)
Definition embrace : LockManager := mgr (Locking.after Locking.three
  (Locking.lock_calls 7 1 MODE_X ++ Locking.lock_calls 8 2 MODE_X ++
   Locking.lock_calls 8 1 MODE_S ++ Locking.lock_calls 7 2 MODE_IX)).
Lemma check_terminates_witness :
  (check_fuel embrace ≤ 25)%nat ∧ ∃ d, check embrace 25 (DeadlockDetector embrace 1) = Ret (tt, d) ∧ dd_queue d = [].
Proof. split; [vm_compute; lia|]. apply (check_terminates embrace 1 25). vm_compute. lia. Defined.
Lemma embrace_is_found :
  match check embrace (check_fuel embrace) (DeadlockDetector embrace 1) with
  | Ret (_, d) => hasCycle d = Ret true ∧ dd_graph d = {[1 := (8, [2]); 2 := (7, [1])]}
  | Abort _ => False
  end.
Proof. vm_compute. done. Qed.
End Deadlock.
