(* ===== verification/FastMap.v ===== *)
(** * The map of a locker

    [FastMapNoAlloc] (src/mongo/db/concurrency/fast_map_noalloc.h): a fixed array of slots that
    works as an associative array.  An iterator is the index of a slot; [PreallocCount] is the one
    past the last.  The slots in use are compared with a list of keys without duplicates. *)
From S2P Require Import Prelude.

Record PreallocEntry (K : Type) := mkEntry { inUse : bool; key : K }.
Arguments mkEntry {K}. Arguments inUse {K}. Arguments key {K}.
Record FastMapNoAlloc (K : Type) := mkMap {
  _fastAccess : list (PreallocEntry K); _fastAccessUsedSize : Z }.
Arguments mkMap {K}. Arguments _fastAccess {K}. Arguments _fastAccessUsedSize {K}.

Module FastMap.
Section map.
Context {K : Type} `{!EqDecision K} (default_key : K).
Implicit Types (m : FastMapNoAlloc K) (e : PreallocEntry K) (k : K).
(** The third argument of the template, 16 for the requests of a locker. *)
Definition PreallocCount : Z := 16.
(** The code of [ErrorCodes::TooManyLocks]. *)
Definition TooManyLocks : Z := 208.

Definition empty : FastMapNoAlloc K := mkMap (replicate 16 (mkEntry false default_key)) 0.
Definition finished (idx : Z) : bool := idx =? PreallocCount.
(** The first slot from [idx] on that satisfies [p], or the end. *)
Definition scan (p : PreallocEntry K → bool) (idx : Z) m : Z :=
  let i := index_from p idx (drop (Z.to_nat idx) (_fastAccess m)) in
  if i =? -1 then PreallocCount else i.

(** *** Iterators *)
Definition slot (line idx : Z) m : outcome (PreallocEntry K) :=
  _ ← check line (negb (finished idx)); vat line (_fastAccess m) idx.
Definition objKey (idx : Z) m : outcome K := e ← slot 104 idx m; Ret (key e).
Definition next (idx : Z) m : outcome Z :=
  _ ← check 114 (negb (finished idx)); Ret (scan inUse (idx + 1) m).
Definition begin m : outcome Z := next (-1) m.
Definition find (k : K) m : Z := scan (λ e, inUse e && bool_decide (key e = k)) 0 m.
(** The iterator moves on to the next slot in use. *)
Definition remove (idx : Z) : M (FastMapNoAlloc K) Z :=
  e ← reads (slot 128 idx);
  invariant 129 (λ _, inUse e) ;;
  modify (λ m, mkMap (vset idx (mkEntry false (key e)) (_fastAccess m)) (_fastAccessUsedSize m - 1)) ;;
  reads (next idx).

(** *** The map *)
Definition insert (k : K) : M (FastMapNoAlloc K) Z :=
  invariant TooManyLocks (λ m, _fastAccessUsedSize m <? PreallocCount) ;;
  m ← gets id;
  let idx := scan (λ e, negb (inUse e)) 0 m in
  invariant 194 (λ _, idx <? PreallocCount) ;;
  modify (λ m, mkMap (vset idx (mkEntry true k) (_fastAccess m)) (_fastAccessUsedSize m + 1)) ;;
  mret idx.
Definition is_empty m : bool := _fastAccessUsedSize m =? 0.

(** ** The keys *)
Definition keys_of (l : list (PreallocEntry K)) : list K := key <$> List.filter inUse l.
Definition keys m : list K := keys_of (_fastAccess m).
Record WF m : Prop := mkWF {
  wf_length : length (_fastAccess m) = 16%nat;
  wf_used : _fastAccessUsedSize m = vsize (keys m);
  wf_unique : NoDup (keys m) }.

Lemma keys_of_app l l' : keys_of (l ++ l') = keys_of l ++ keys_of l'.
Proof. unfold keys_of. by rewrite List.filter_app, fmap_app. Qed.
Lemma keys_of_cons e l : keys_of (e :: l) = (if inUse e then [key e] else []) ++ keys_of l.
Proof. unfold keys_of. simpl. by destruct (inUse e). Qed.
Lemma elem_of_keys_of k l : k ∈ keys_of l ↔ ∃ e, e ∈ l ∧ inUse e = true ∧ key e = k.
Proof.
  unfold keys_of. rewrite list_elem_of_fmap. setoid_rewrite list_elem_of_In. setoid_rewrite filter_In. naive_solver.
Qed.
Lemma empty_WF : WF empty.
Proof. split; [done|done|apply NoDup_nil_2]. Qed.

(** A scan ends at the first slot that fits. *)
Lemma index_from_cases {A} (p : A → bool) i l :
  (index_from p i l = -1 ∧ ∀ a, a ∈ l → p a = false) ∨
  ∃ l1 a l2, l = l1 ++ a :: l2 ∧ index_from p i l = i + Z.of_nat (length l1) ∧ p a = true ∧ ∀ b, b ∈ l1 → p b = false.
Proof.
  revert i. induction l as [|a l IH]; intros i; simpl.
  { left. split; [done|]. intros a Ha. by apply elem_of_nil in Ha. }
  destruct (p a) eqn:E.
  - right. exists [], a, l. split_and!; [done|simpl; lia|done|]. intros b Hb. by apply elem_of_nil in Hb.
  - destruct (IH (i + 1)) as [[-> Hn]|(l1 & b & l2 & -> & -> & Hb & Hn)].
    + left. split; [done|]. intros b [->|Hb]%elem_of_cons; auto.
    + right. exists (a :: l1), b, l2. split_and!; [done|simpl; lia|done|]. intros c [->|Hc]%elem_of_cons; auto.
Qed.
Lemma scan_cases p idx m :
  WF m → 0 ≤ idx ≤ PreallocCount →
  let rest := drop (Z.to_nat idx) (_fastAccess m) in
  (scan p idx m = PreallocCount ∧ ∀ e, e ∈ rest → p e = false) ∨
  ∃ l1 e l2, rest = l1 ++ e :: l2 ∧ scan p idx m = idx + Z.of_nat (length l1) ∧ p e = true ∧
    (∀ b, b ∈ l1 → p b = false) ∧ scan p idx m < PreallocCount.
Proof.
  intros HW Hi rest. unfold scan. destruct (index_from_cases p idx rest) as [[E Hn]|(l1 & e & l2 & Hr & E & He & Hn)];
    fold rest; rewrite E; [by left|right]. exists l1, e, l2.
  destruct (Z.eqb_spec (idx + Z.of_nat (length l1)) (-1)); [lia|]. split_and!; try done.
  assert (length rest = (16 - Z.to_nat idx)%nat) as Hl by (unfold rest; rewrite length_drop, (wf_length m HW); done).
  rewrite Hr, length_app in Hl. simpl in Hl. unfold PreallocCount in *. lia.
Qed.
(** The slot before which [pre] lies. *)
Lemma split_lookup {A} (l pre post : list A) (a : A) :
  l = pre ++ a :: post → l !! length pre = Some a ∧ ∀ b, <[length pre := b]> l = pre ++ b :: post.
Proof.
  intros ->. split; [by rewrite list_lookup_middle|]. intros b. by rewrite insert_app_r_alt, Nat.sub_diag by lia.
Qed.
Lemma vat_split {A} line (l pre post : list A) (a : A) idx :
  l = pre ++ a :: post → idx = Z.of_nat (length pre) → vat line l idx = Ret a ∧ ∀ b, vset idx b l = pre ++ b :: post.
Proof.
  intros Hl ->. destruct (split_lookup l pre post a Hl) as [Ha Hi]. unfold vat, vset.
  rewrite (proj2 (Z.leb_le _ _)), Nat2Z.id, Ha by lia. done.
Qed.

(** The keys of the slots from [idx] on. *)
Definition keys_from (idx : Z) m : list K := keys_of (drop (Z.to_nat idx) (_fastAccess m)).
Lemma keys_from_0 m : keys_from 0 m = keys m.
Proof. done. Qed.
Lemma keys_skip l : (∀ e, e ∈ l → inUse e = false) → keys_of l = [].
Proof.
  intros H. destruct (keys_of l) as [|k ks] eqn:E; [done|]. assert (k ∈ keys_of l) as Hk by (rewrite E; left).
  apply elem_of_keys_of in Hk as (e & He & Hu & _). rewrite H in Hu; done.
Qed.
(** At slot [idx] lies a key in use. *)
Definition at_key (idx : Z) k m : Prop :=
  0 ≤ idx < PreallocCount ∧ ∃ pre post, _fastAccess m = pre ++ mkEntry true k :: post ∧ idx = Z.of_nat (length pre).
Lemma drop_after {A} (pre post : list A) (a : A) : drop (S (length pre)) (pre ++ a :: post) = post.
Proof. by rewrite drop_app_ge, Nat.sub_succ_l, Nat.sub_diag by lia. Qed.
Lemma at_key_from idx k m : at_key idx k m → keys_from idx m = k :: keys_from (idx + 1) m.
Proof.
  intros [Hr (pre & post & Hl & ->)]. unfold keys_from. rewrite Nat2Z.id, Hl, drop_app_length.
  replace (Z.to_nat (Z.of_nat (length pre) + 1)) with (S (length pre)) by lia.
  by rewrite drop_after, keys_of_cons.
Qed.
Lemma at_key_objKey idx k m : at_key idx k m → objKey idx m = Ret k.
Proof.
  intros [Hr (pre & post & Hl & Hi)]. unfold objKey, slot, finished.
  destruct (Z.eqb_spec idx PreallocCount); [lia|]. simpl.
  by rewrite (proj1 (vat_split 104 _ pre post _ idx Hl Hi)).
Qed.
Lemma scan_inUse idx m :
  WF m → 0 ≤ idx ≤ PreallocCount →
  let i := scan inUse idx m in
  (i = PreallocCount ∧ keys_from idx m = []) ∨
  (∃ k, at_key i k m ∧ keys_from idx m = k :: keys_from (i + 1) m).
Proof.
  intros HW Hi i. destruct (scan_cases inUse idx m HW Hi) as [[E Hn]|(l1 & [u k] & l2 & Hr & E & He & Hn & Hlt)].
  - left. split; [done|]. by apply keys_skip.
  - right. exists k. simpl in He. subst u. assert (at_key i k m) as Hat.
    { unfold i. rewrite E in Hlt |- *. split; [lia|]. exists (take (Z.to_nat idx) (_fastAccess m) ++ l1), l2. split.
      - by rewrite <-app_assoc, <-Hr, take_drop.
      - rewrite length_app, length_take, (wf_length m HW). unfold PreallocCount in *. lia. }
    split; [done|]. rewrite <-(at_key_from i k m Hat). unfold keys_from. rewrite Hr, keys_of_app, (keys_skip l1) by done.
    simpl. f_equal. unfold i. rewrite E. replace (Z.to_nat (idx + Z.of_nat (length l1))) with (Z.to_nat idx + length l1)%nat by lia.
    by rewrite <-drop_drop, Hr, drop_app_length.
Qed.
(** Iteration: the next key in use, or the end. *)
Lemma next_spec idx m :
  WF m → -1 ≤ idx < PreallocCount →
  ∃ i, next idx m = Ret i ∧
    ((i = PreallocCount ∧ keys_from (idx + 1) m = []) ∨
     (∃ k, at_key i k m ∧ keys_from (idx + 1) m = k :: keys_from (i + 1) m)).
Proof.
  intros HW Hi. exists (scan inUse (idx + 1) m). unfold next, finished. destruct (Z.eqb_spec idx PreallocCount); [lia|].
  split; [done|]. apply scan_inUse; [done|lia].
Qed.

(** ** Lookup, insertion and removal *)
Lemma find_spec k m :
  WF m → (at_key (find k m) k m ∧ k ∈ keys m) ∨ (find k m = PreallocCount ∧ k ∉ keys m).
Proof.
  intros HW. unfold find.
  destruct (scan_cases (λ e, inUse e && bool_decide (key e = k)) 0 m HW ltac:(done))
    as [[E Hn]|(l1 & [u k'] & l2 & Hr & E & He & _ & Hlt)]; rewrite drop_0 in *.
  - right. split; [done|]. intros (e & He & Hu & Hk)%elem_of_keys_of. specialize (Hn e He). cbn beta in Hn.
    rewrite Hu, bool_decide_true in Hn; done.
  - left. simpl in He. apply andb_true_iff in He as [-> Hk]. apply bool_decide_eq_true in Hk as ->. split.
    + split; [lia|]. exists l1, l2. split; [done|]. lia.
    + apply elem_of_keys_of. exists (mkEntry true k). rewrite Hr. split; [|done]. apply elem_of_app. right. left.
Qed.
Lemma find_at k m : WF m → k ∈ keys m → at_key (find k m) k m.
Proof. intros HW Hk. destruct (find_spec k m HW) as [[? _]|[_ ?]]; done. Qed.
Lemma find_absent k m : WF m → k ∉ keys m → finished (find k m) = true.
Proof. intros HW Hk. destruct (find_spec k m HW) as [[_ ?]|[-> _]]; [done|]. by apply Z.eqb_eq. Qed.
Lemma find_present k m : WF m → k ∈ keys m → finished (find k m) = false.
Proof. intros HW Hk. destruct (find_at k m HW Hk) as [Hr _]. apply Z.eqb_neq. lia. Qed.

Lemma keys_of_unique l i j u u' k :
  NoDup (keys_of l) → l !! i = Some (mkEntry u k) → l !! j = Some (mkEntry u' k) → u = true → u' = true → i = j.
Proof.
  revert i j. induction l as [|e l IH]; intros [|i] [|j] Hnd Hi Hj Hu Hu'; simplify_eq/=; try done.
  - rewrite keys_of_cons in Hnd. simpl in Hnd. apply NoDup_cons in Hnd as [Hn _]. destruct Hn. apply elem_of_keys_of.
    eexists. split; [by eapply list_elem_of_lookup_2|done].
  - rewrite keys_of_cons in Hnd. simpl in Hnd. apply NoDup_cons in Hnd as [Hn _]. destruct Hn. apply elem_of_keys_of.
    eexists. split; [by eapply list_elem_of_lookup_2|done].
  - f_equal. rewrite keys_of_cons in Hnd. apply NoDup_app in Hnd as (_ & _ & Hnd). by eapply IH.
Qed.
Lemma at_key_unique i j k m : WF m → at_key i k m → at_key j k m → i = j.
Proof.
  intros HW [_ (p1 & q1 & H1 & ->)] [_ (p2 & q2 & H2 & ->)]. f_equal.
  eapply (keys_of_unique (_fastAccess m)); [apply (wf_unique m HW)|..]; try done; [rewrite H1|rewrite H2]; by apply list_lookup_middle.
Qed.
Lemma keys_length m : WF m → (length (keys m) ≤ 16)%nat.
Proof. intros HW. unfold keys, keys_of. rewrite length_fmap, <-(wf_length m HW). apply List.filter_length_le. Qed.
Lemma begin_spec m :
  WF m → ∃ i, begin m = Ret i ∧ ((i = PreallocCount ∧ keys m = []) ∨ (∃ k, at_key i k m ∧ keys m = k :: keys_from (i + 1) m)).
Proof. intros HW. apply (next_spec (-1) m HW). done. Qed.

(** One slot changes. *)
Lemma WF_change pre post u k u' k' (n : Z) m :
  WF m → _fastAccess m = pre ++ mkEntry u k :: post →
  n = vsize (keys_of (pre ++ mkEntry u' k' :: post)) → NoDup (keys_of (pre ++ mkEntry u' k' :: post)) →
  WF (mkMap (pre ++ mkEntry u' k' :: post) n).
Proof.
  intros HW Hl Hn Hnd. split; [|done|done]. simpl. pose proof (wf_length m HW) as H. rewrite Hl in H.
  rewrite length_app in *. simpl in *. lia.
Qed.
Lemma wp_insert k m :
  WF m → k ∉ keys m → vsize (keys m) < PreallocCount →
  wp (insert k) (λ idx m', at_key idx k m' ∧ WF m' ∧ keys m' ≡ₚ k :: keys m) m.
Proof.
  intros HW Hk Hs. unfold insert. wp_simpl. split; [rewrite (wf_used m HW); lia|]. unfold id.
  destruct (scan_cases (λ e, negb (inUse e)) 0 m HW ltac:(done)) as [[_ Hn]|(l1 & [u k'] & l2 & Hr & E & He & _ & Hlt)];
    rewrite drop_0 in *.
  { exfalso. unfold keys, keys_of in Hs. rewrite forallb_filter_id in Hs.
    - unfold vsize in Hs. rewrite length_fmap, (wf_length m HW) in Hs. unfold PreallocCount in Hs. lia.
    - apply forallb_forall. intros e He%list_elem_of_In. specialize (Hn e He). cbn beta in Hn. by destruct (inUse e). }
  simpl in He. apply negb_true_iff in He as ->. split; [lia|].
  rewrite E in Hlt |- *. rewrite (proj2 (vat_split 0 _ l1 l2 _ (0 + Z.of_nat (length l1)) Hr ltac:(lia)) (mkEntry true k)).
  assert (keys_of (l1 ++ mkEntry true k :: l2) ≡ₚ k :: keys m) as HP.
  { unfold keys. rewrite Hr, !keys_of_app, !keys_of_cons. simpl. by rewrite Permutation_middle. }
  split_and!.
  - split; [lia|]. exists l1, l2. split; [done|lia].
  - apply (WF_change l1 l2 false k' true k _ m HW Hr).
    + unfold vsize. rewrite HP. simpl. rewrite (wf_used m HW). unfold vsize. lia.
    + rewrite HP. apply NoDup_cons. split; [done|apply (wf_unique m HW)].
  - done.
Qed.
Lemma wp_remove_key idx k m :
  WF m → at_key idx k m →
  wp (remove idx) (λ i m', WF m' ∧ keys m ≡ₚ k :: keys m' ∧ k ∉ keys m' ∧
    keys_from (idx + 1) m' = keys_from (idx + 1) m ∧
    ((i = PreallocCount ∧ keys_from (idx + 1) m' = []) ∨
     (∃ k', at_key i k' m' ∧ keys_from (idx + 1) m' = k' :: keys_from (i + 1) m'))) m.
Proof.
  intros HW Hat. pose proof Hat as [Hr (pre & post & Hl & Hi)]. unfold remove. wp_simpl. unfold slot, finished.
  destruct (Z.eqb_spec idx PreallocCount); [lia|]. simpl.
  destruct (vat_split 128 _ pre post _ idx Hl Hi) as [-> Hv]. simpl. wp_simpl. split; [done|]. rewrite Hv. clear Hv.
  set (m' := mkMap _ _).
  assert (keys m ≡ₚ k :: keys m') as HP.
  { unfold keys, m'. simpl. rewrite Hl, !keys_of_app, !keys_of_cons. simpl. by rewrite Permutation_middle. }
  pose proof (wf_unique m HW) as Hnd. rewrite HP in Hnd. apply NoDup_cons in Hnd as [Hn Hnd].
  assert (WF m') as HW'.
  { apply (WF_change pre post true k false k _ m HW Hl); [|done].
    rewrite (wf_used m HW). unfold vsize. rewrite HP. unfold keys, m'. simpl. lia. }
  destruct (next_spec idx m' HW' ltac:(lia)) as (i & -> & Hc). simpl. split_and!; try done.
  unfold keys_from, m'. simpl. rewrite Hl. replace (Z.to_nat (idx + 1)) with (S (length pre)) by lia.
  by rewrite !drop_after.
Qed.
End map.
End FastMap.

(** All keys from an iterator on, in the order of iteration. *)
Fixpoint collect (fuel : nat) (idx : Z) (m : FastMapNoAlloc Z) : outcome (list Z) :=
  if FastMap.finished idx then Ret [] else
  match fuel with
  | O => Abort 0
  | S fuel => k ← FastMap.objKey idx m; idx ← FastMap.next idx m; ks ← collect fuel idx m; Ret (k :: ks)
  end.
Lemma collect_from m : FastMap.WF m → ∀ ks fuel idx,
  (idx = FastMap.PreallocCount ∧ ks = []) ∨ (∃ k, FastMap.at_key idx k m ∧ ks = k :: FastMap.keys_from (idx + 1) m) →
  (length ks ≤ fuel)%nat → collect fuel idx m = Ret ks.
Proof.
  intros HW. induction ks as [|k ks IH]; intros fuel idx [[-> E]|(k' & Hat & E)] Hf; try done; [by destruct fuel|].
  injection E as <- ->. destruct fuel as [|fuel]; [simpl in Hf; lia|]. cbn [collect].
  pose proof Hat as [Hr _]. unfold FastMap.finished. rewrite (proj2 (Z.eqb_neq _ _)) by lia.
  rewrite (FastMap.at_key_objKey idx k m Hat). destruct (FastMap.next_spec idx m HW ltac:(lia)) as (i & Hi & Hc). simpl. rewrite Hi. simpl.
  rewrite (IH fuel i Hc); [done|]. simpl in Hf. lia.
Qed.
Lemma insert_full k (m : FastMapNoAlloc Z) :
  FastMap.WF m → vsize (FastMap.keys m) = FastMap.PreallocCount → FastMap.insert k m = Abort FastMap.TooManyLocks.
Proof. intros HW Hs. unfold FastMap.insert, mbind, M_bind, invariant. by rewrite (FastMap.wf_used m HW), Hs. Qed.

(** C38. The fixed array is a set of at most sixteen keys: after [find] the iterator is finished
    exactly when the key is not there (the comment on [find] has it the other way round, its callers
    do not), [insert] adds a key or raises TooManyLocks when all slots are taken, [remove] takes one
    away, and iterating visits every key once and ends. *)
Theorem fast_map_is_a_bounded_set k (m : FastMapNoAlloc Z) :
  FastMap.WF m →
  FastMap.finished (FastMap.find k m) = negb (bool_decide (k ∈ FastMap.keys m)) ∧
  (FastMap.begin m ≫= λ i, collect 16 i m) = Ret (FastMap.keys m) ∧
  (if bool_decide (k ∈ FastMap.keys m)
   then ∃ i m', FastMap.remove (FastMap.find k m) m = Ret (i, m') ∧ FastMap.WF m' ∧ FastMap.keys m ≡ₚ k :: FastMap.keys m'
   else if vsize (FastMap.keys m) =? FastMap.PreallocCount then FastMap.insert k m = Abort FastMap.TooManyLocks
   else ∃ i m', FastMap.insert k m = Ret (i, m') ∧ FastMap.WF m' ∧ FastMap.keys m' ≡ₚ k :: FastMap.keys m ∧ FastMap.objKey i m' = Ret k).
Proof.
  intros HW. pose proof (FastMap.keys_length m HW) as Hlen. split_and!.
  - case_bool_decide; [by apply FastMap.find_present|by apply FastMap.find_absent].
  - destruct (FastMap.begin_spec m HW) as (i & Hi & Hc). rewrite Hi. by apply (collect_from m HW).
  - case_bool_decide as Hk; [|destruct (Z.eqb_spec (vsize (FastMap.keys m)) FastMap.PreallocCount) as [E|E]].
    + pose proof (FastMap.wp_remove_key _ k m HW (FastMap.find_at k m HW Hk)) as (i & m' & Hx & HW' & HP & _)%wp_Ret. eauto.
    + by apply insert_full.
    + pose proof (FastMap.wp_insert k m HW Hk) as H. apply wp_Ret in H as (i & m' & Hx & Hat & HW' & HP).
      * exists i, m'. split_and!; try done. by apply FastMap.at_key_objKey.
      * unfold vsize, FastMap.PreallocCount in *. lia.
Qed.
Definition filled (ks : list Z) : FastMapNoAlloc Z :=
  match mfoldl (λ _ k, FastMap.insert k) 0 ks (FastMap.empty 0) with Ret (_, m) => m | Abort _ => FastMap.empty 0 end.
Lemma filled_WF : FastMap.WF (filled [5; 7; 9]) ∧ FastMap.WF (filled (seqZ 1 16)).
Proof. split; (split; [by vm_compute|by vm_compute|by apply (bool_decide_unpack _); vm_compute]). Qed.
(** A key that is there, one that is not, and one too many. *)
Lemma fast_map_is_a_bounded_set_witness :
  FastMap.finished (FastMap.find 7 (filled [5; 7; 9])) = false ∧
  (∃ i m', FastMap.remove (FastMap.find 7 (filled [5; 7; 9])) (filled [5; 7; 9]) = Ret (i, m') ∧ FastMap.WF m' ∧
    FastMap.keys (filled [5; 7; 9]) ≡ₚ 7 :: FastMap.keys m') ∧
  (∃ i m', FastMap.insert 8 (filled [5; 7; 9]) = Ret (i, m') ∧ FastMap.WF m' ∧
    FastMap.keys m' ≡ₚ 8 :: FastMap.keys (filled [5; 7; 9]) ∧ FastMap.objKey i m' = Ret 8) ∧
  FastMap.insert 17 (filled (seqZ 1 16)) = Abort FastMap.TooManyLocks.
Proof.
  pose proof (fast_map_is_a_bounded_set 7 _ (proj1 filled_WF)) as (Hf & _ & Hr).
  pose proof (fast_map_is_a_bounded_set 8 _ (proj1 filled_WF)) as (_ & _ & Hi).
  pose proof (fast_map_is_a_bounded_set 17 _ (proj2 filled_WF)) as (_ & _ & Hx).
  split; [exact Hf|]. split; [exact Hr|]. split; [exact Hi|exact Hx].
Defined.
