(* ===== verification/Locker.v ===== *)
(** * Lockers

    [LockerImpl] (src/mongo/db/concurrency/lock_state.cpp): the locks of one operation.  It keeps
    its requests in a FastMap by resource, throttles with tickets, defers releases in a write unit
    of work, waits with a timeout and with deadlock detection, and saves and restores its locks.

    The locker runs on one thread; the others are the schedule.  A [Tick] is what happens while
    this thread is not inside of a critical section: calls of other lockers on the manager, tickets
    that others take and give back, and the clock.  Before each critical section on shared state
    one tick passes, if there is one.  A wait goes on from tick to tick; when none is left the
    thread is still waiting, which is the outcome [BLOCKED].  The requests themselves are in the
    lock manager, by resource and locker; statistics and the checks of debug builds are left out. *)
From stdpp Require Import sorting.
From S2P Require Import Prelude LockManager LockManagerProps DeadlockDetector FastMap.
Open Scope Z_scope.
Import Mode Head Manager.

(** ** Resources: lock_manager_defs.h, lines 145 to 235, and lock_manager.cpp, line 1114 *)
Module Res.
Definition RESOURCE_INVALID : Z := 0.
Definition RESOURCE_GLOBAL : Z := 1.
Definition RESOURCE_MMAPV1_FLUSH : Z := 2.
Definition RESOURCE_DATABASE : Z := 3.
Definition RESOURCE_COLLECTION : Z := 4.
Definition RESOURCE_METADATA : Z := 5.
Definition RESOURCE_MUTEX : Z := 6.
Definition resourceTypeBits : Z := 3.
Definition fullHash (type hashId : Z) : Z :=
  Z.shiftl type (64 - resourceTypeBits) + Z.land hashId (Z.ones (64 - resourceTypeBits)).
Definition getType (resId : Z) : Z := Z.shiftr resId (64 - resourceTypeBits).
Definition isValid (resId : Z) : bool := negb (getType resId =? RESOURCE_INVALID).
(** The default constructor. *)
Definition no_resource : Z := 0.
Definition SINGLETON_PARALLEL_BATCH_WRITER_MODE : Z := 1.
Definition SINGLETON_GLOBAL : Z := 2.
Definition SINGLETON_MMAPV1_FLUSH : Z := 3.
Definition resourceIdGlobal : Z := fullHash RESOURCE_GLOBAL SINGLETON_GLOBAL.
Definition resourceIdMMAPV1Flush : Z := fullHash RESOURCE_MMAPV1_FLUSH SINGLETON_MMAPV1_FLUSH.
Definition resourceIdParallelBatchWriterMode : Z :=
  fullHash RESOURCE_GLOBAL SINGLETON_PARALLEL_BATCH_WRITER_MODE.
End Res.
Import Res.

Inductive ClientState := kInactive | kActiveReader | kActiveWriter | kQueuedReader | kQueuedWriter.
#[export] Instance ClientState_eq_dec : EqDecision ClientState.
Proof. solve_decision. Defined.

(** A counting semaphore (util/concurrency/ticketholder.h); [others] is what other lockers hold. *)
Record TicketHolder := mkHolder { available : Z; others : Z }.
#[export] Instance TicketHolder_eta : Eta TicketHolder := λ t, mkHolder (available t) (others t).

(** lock_state.h, lines 225 to 252.  [_cleared]: how many calls of [notify] there had been when
    [_notify] was cleared last. *)
Record Locker := mkLocker {
  _id : Z; _requests : FastMapNoAlloc Z; _cleared : nat; _wuowNestingLevel : Z;
  _resourcesToUnlockAtEndOfUnitOfWork : list Z; _modeForTicket : LockMode; _clientState : ClientState;
  _shouldConflictWithSecondaryBatchApplication : bool; _shouldAcquireTicket : bool }.
#[export] Instance Locker_eta : Eta Locker := λ l,
  mkLocker (_id l) (_requests l) (_cleared l) (_wuowNestingLevel l)
    (_resourcesToUnlockAtEndOfUnitOfWork l) (_modeForTicket l) (_clientState l)
    (_shouldConflictWithSecondaryBatchApplication l) (_shouldAcquireTicket l).
Record OneLock := mkOneLock { resourceId : Z; mode : LockMode }.
Record LockSnapshot := mkSnapshot { globalMode : LockMode; locks : list OneLock }.

(** What others do: [(true, t)] in [tk_tickets] takes a ticket of holder [t] and [(false, t)] gives
    one back; [tk_now] is the time in microseconds. *)
Record Tick := mkTick { tk_calls : list call; tk_tickets : list (bool * bool); tk_now : Z }.
(** [reading] and [writing] are the holders of [setGlobalThrottling]. *)
Record World := mkWorld {
  w_sys : Sys; w_locker : Locker; w_reading : TicketHolder; w_writing : TicketHolder;
  w_sched : list Tick; w_now : Z }.
#[export] Instance World_eta : Eta World := λ w,
  mkWorld (w_sys w) (w_locker w) (w_reading w) (w_writing w) (w_sched w) (w_now w).

(** Still waiting when the schedule ends. *)
Definition BLOCKED : Z := -2.
(** A loop that runs out of its bound; not reached. *)
Definition OUT_OF_FUEL : Z := -3.

Module LockerImpl.
Section locker.
Context (ids : gset Z) (IsForMMAPV1 throttled : bool).
Abbreviation LK := (M World).
Implicit Types (w : World) (l : Locker).

Definition isSharedLockMode (m : LockMode) : bool := eqb m MODE_IS || eqb m MODE_S.
Definition the {A} (f : Locker → A) : LK A := gets (λ w, f (w_locker w)).
Definition change (f : Locker → Locker) : LK () := modify (λ w, w <| w_locker := f (w_locker w) |>).

Definition fails {A} (line : Z) : LK A := λ _, Abort line.

(** ** The others *)
Definition caller (c : call) : option Z :=
  match c with
  | LockBegin _ request _ => Some (rq_locker request)
  | LockFinish _ k | Convert _ k _ | UnlockBegin _ k | UnlockFinish _ k | Downgrade _ k _ => Some k
  | Cleanup _ => None
  end.
Definition env_call (me : Z) (y : Sys) (c : call) : Sys :=
  if Locking.enabled ids y c && bool_decide (caller c ≠ Some me) then
    match Locking.exec c y with Ret (_, y') => y' | Abort _ => y end
  else y.
Definition env_ticket (take : bool) (h : TicketHolder) : TicketHolder :=
  if take then if 0 <? available h then mkHolder (available h - 1) (others h + 1) else h
  else if 0 <? others h then mkHolder (available h + 1) (others h - 1) else h.
Definition holder_of (writing : bool) w : TicketHolder := if writing then w_writing w else w_reading w.
Definition set_holder (writing : bool) (h : TicketHolder) w : World :=
  if writing then w <| w_writing := h |> else w <| w_reading := h |>.
Definition env_tick (t : Tick) w : World :=
  let w := w <| w_sys := foldl (env_call (_id (w_locker w))) (w_sys w) (tk_calls t) |> <| w_now := tk_now t |> in
  foldl (λ w '(take, writing), set_holder writing (env_ticket take (holder_of writing w)) w) w (tk_tickets t).
(** The calls of [notify] for this locker since [clear]: while [_result] is [LOCK_INVALID] there are
    none, and a call that finds another value fails the check of line 244. *)
Definition notes w : list (Z * Z) :=
  List.filter (λ n, n.2 =? _id (w_locker w)) (drop (_cleared (w_locker w)) (lm_notified (mgr (w_sys w)))).
Definition notify_check : LK () := invariant 244 (λ w, bool_decide (length (notes w) ≤ 1)%nat).
Definition interfere : LK () :=
  modify (λ w,
    match w_sched w with
    | [] => w
    | t :: ts => env_tick t (w <| w_sched := ts |>)
    end) ;;
  notify_check.
(** The same where this thread cannot go on by itself. *)
Definition sleep : LK () :=
  invariant BLOCKED (λ w, negb (bool_decide (w_sched w = []))) ;; interfere.

(** ** Calls of the lock manager, by this locker *)
Definition on_manager {A} (m : LM A) : LK A :=
  a ← (λ w, match Locking.lift m (w_sys w) with
            | Ret (a, y) => Ret (a, w <| w_sys := y |>)
            | Abort line => Abort line
            end);
  notify_check ;;
  mret a.
Definition on_sys (f : Sys → Sys) : LK () := modify (λ w, w <| w_sys := f (w_sys w) |>).
Definition manager_lock (resId : Z) (request : LockRequest) (m : LockMode) : LK LockResult :=
  interfere ;;
  o ← on_manager (lock_begin resId request m);
  match o : LockResult + LockRequest with
  | inl result => mret result
  | inr r =>
      on_sys (λ y, y <| plk := <[(resId, rq_locker r) := r]> (plk y) |>) ;;
      interfere ;;
      on_sys (λ y, y <| plk := delete (resId, rq_locker r) (plk y) |>) ;;
      on_manager (lock_finish resId r)
  end.
Definition manager_convert (resId : Z) (m : LockMode) : LK LockResult :=
  interfere ;; k ← the _id; on_manager (convert resId k m).
Definition manager_unlock (resId : Z) : LK bool :=
  interfere ;;
  k ← the _id;
  o ← on_manager (unlock_begin resId k);
  match o : option bool with
  | Some b => mret b
  | None =>
      on_sys (λ y, y <| pul := {[(resId, k)]} ∪ pul y |>) ;;
      interfere ;;
      gone ← on_manager (unlock_finish resId k);
      on_sys (λ y, y <| pul := pul y ∖ {[(resId, k)]} |>) ;;
      mret gone
  end.
Definition manager_downgrade (resId : Z) (m : LockMode) : LK () :=
  interfere ;; k ← the _id; on_manager (downgrade resId k m).
(** The request of this locker for a resource; a pointer to a request that is gone is a fault. *)
Definition own_request (resId : Z) w : option LockRequest :=
  find_request resId (_id (w_locker w)) (mgr (w_sys w)).
Definition request_of (resId : Z) : LK LockRequest := reads (λ w,
  match own_request resId w with Some r => Ret r | None => Abort 0 end).

(** ** Access: lines 168 to 202, 284 to 292 and 471 to 548 *)
Definition getLockMode (resId : Z) : LK LockMode :=
  m ← the _requests;
  if FastMap.finished (FastMap.find resId m) then mret MODE_NONE
  else r ← request_of resId; mret (rq_mode r).
Definition isW : LK bool := m ← getLockMode resourceIdGlobal; mret (eqb m MODE_X).
Definition isR : LK bool := m ← getLockMode resourceIdGlobal; mret (eqb m MODE_S).
Definition isLocked : LK bool := m ← getLockMode resourceIdGlobal; mret (negb (eqb m MODE_NONE)).
Definition isLockHeldForMode (resId : Z) (mode : LockMode) : LK bool :=
  m ← getLockMode resId; mret (isModeCovered mode m).
Definition isWriteLocked : LK bool := isLockHeldForMode resourceIdGlobal MODE_IX.
Definition isReadLocked : LK bool := isLockHeldForMode resourceIdGlobal MODE_IS.
Definition inAWriteUnitOfWork : LK bool := n ← the _wuowNestingLevel; mret (0 <? n).
(** [resIdDb] and [resIdColl] are the hashes of the names. *)
Definition isDbLockedForMode (resIdDb : Z) (mode : LockMode) : LK bool :=
  x ← isW; if (x : bool) then mret true else
  r ← isR; if (r : bool) && isSharedLockMode mode then mret true else
  isLockHeldForMode resIdDb mode.
Definition isCollectionLockedForMode (resIdDb resIdColl : Z) (mode : LockMode) : LK bool :=
  x ← isW; if (x : bool) then mret true else
  r ← isR; if (r : bool) && isSharedLockMode mode then mret true else
  dbMode ← getLockMode resIdDb;
  match dbMode with
  | MODE_NONE => mret false
  | MODE_X => mret true
  | MODE_S => mret (isSharedLockMode mode)
  | MODE_IX | MODE_IS => isLockHeldForMode resIdColl mode
  end.
Definition getWaitingResource : LK Z :=
  m ← the _requests;
  w ← gets id;
  mret (default no_resource (head (List.filter (λ resId,
    match own_request resId w with
    | Some r => has_status STATUS_WAITING r || has_status STATUS_CONVERTING r
    | None => false
    end) (FastMap.keys m)))).
Definition getClientState : LK ClientState :=
  state ← the _clientState;
  res ← getWaitingResource;
  mret (if isValid res then
          match state with
          | kActiveReader => kQueuedReader
          | kActiveWriter => kQueuedWriter
          | s => s
          end
        else state).
Definition assertEmptyAndReset : LK () :=
  b ← inAWriteUnitOfWork; invariant 195 (λ _, negb b) ;;
  q ← the _resourcesToUnlockAtEndOfUnitOfWork; invariant 196 (λ _, bool_decide (q = [])) ;;
  m ← the _requests; invariant 197 (λ _, FastMap.is_empty m) ;;
  t ← the _modeForTicket; invariant 198 (λ _, eqb t MODE_NONE).

(** ** Tickets: util/concurrency/ticketholder.cpp, lines 60 to 95, and lock_state.cpp, lines 250 to 264 *)
Definition ticketHolders (m : LockMode) : option bool :=
  if throttled then
    match m with
    | MODE_S | MODE_IS => Some false
    | MODE_IX => Some true
    | MODE_NONE | MODE_X => None
    end
  else None.
Definition sem_trywait (writing : bool) : LK bool :=
  h ← gets (holder_of writing);
  if 0 <? available h
  then modify (set_holder writing (h <| available := available h - 1 |>)) ;; mret true
  else mret false.
(** Until the semaphore can be decremented or, with a deadline, until then.  Each turn but the
    last uses up a tick. *)
Fixpoint sem_wait (fuel : nat) (writing : bool) (until : option Z) : LK bool :=
  got ← sem_trywait writing;
  if (got : bool) then mret true else
  now ← gets w_now;
  if (match until with Some t => t <=? now | None => false end) then mret false else
  _ ← sleep;
  match fuel with
  | O => fails OUT_OF_FUEL
  | S fuel => sem_wait fuel writing until
  end.
Definition waitForTicket (writing : bool) : LK bool :=
  interfere ;; n ← gets (λ w, length (w_sched w)); sem_wait n writing None.
(** [until] in microseconds. *)
Definition waitForTicketUntil (writing : bool) (until : Z) : LK bool :=
  interfere ;; n ← gets (λ w, length (w_sched w)); sem_wait n writing (Some until).
Definition release (writing : bool) : LK () :=
  modify (λ w, set_holder writing (holder_of writing w <| available := available (holder_of writing w) + 1 |>) w).

(** ** Notification: lines 226 to 248 *)
Definition notified w : bool := negb (bool_decide (notes w = [])).
Definition clear_notify : LK () := modify (λ w,
  w <| w_locker := w_locker w <| _cleared := length (lm_notified (mgr (w_sys w))) |> |>).
Definition notify_wait : LK LockResult :=
  b ← gets notified;
  (if (b : bool) then mret tt else sleep) ;;
  b ← gets notified;
  mret (if (b : bool) then LOCK_OK else LOCK_TIMEOUT).

(** ** Releasing: lines 133 to 163, 460 to 468 and 809 to 828 *)
Definition shouldDelayUnlock (resId : Z) (mode : LockMode) : outcome bool :=
  let t := getType resId in
  if bool_decide (t ∈ [RESOURCE_GLOBAL; RESOURCE_MMAPV1_FLUSH; RESOURCE_MUTEX]) then Ret false
  else if bool_decide (t ∈ [RESOURCE_COLLECTION; RESOURCE_DATABASE; RESOURCE_METADATA]) then
    match mode with
    | MODE_X | MODE_IX => Ret true
    | MODE_IS | MODE_S => Ret false
    | MODE_NONE => Abort 156
    end
  else Abort 144.
(** Whether the lock is gone, and the iterator after it. *)
Definition _unlockImpl (it : Z) : LK (bool * Z) :=
  resId ← reads (λ w, FastMap.objKey it (_requests (w_locker w)));
  gone ← manager_unlock resId;
  if (gone : bool) then
    (if resId =? resourceIdGlobal then
       m ← the _modeForTicket;
       invariant 812 (λ _, negb (eqb m MODE_NONE)) ;;
       acquire ← the _shouldAcquireTicket;
       change (λ l, l <| _modeForTicket := MODE_NONE |>) ;;
       (match (if (acquire : bool) then ticketHolders m else None) with
        | Some holder => interfere ;; release holder
        | None => mret tt
        end) ;;
       change (λ l, l <| _clientState := kInactive |>)
     else mret tt) ;;
    m ← the _requests;
    r ← reads (λ _, FastMap.remove it m);
    change (λ l, l <| _requests := r.2 |>) ;;
    mret (true, r.1)
  else mret (false, it).
Definition unlock (resId : Z) : LK bool :=
  m ← the _requests;
  let it := FastMap.find resId m in
  b ← inAWriteUnitOfWork;
  delay ← (if (b : bool) then
             k ← reads (λ _, FastMap.objKey it m);
             r ← request_of k;
             reads (λ _, shouldDelayUnlock k (rq_mode r))
           else mret false);
  if (delay : bool) then
    change (λ l, l <| _resourcesToUnlockAtEndOfUnitOfWork :=
                        _resourcesToUnlockAtEndOfUnitOfWork l ++ [resId] |>) ;;
    mret false
  else r ← _unlockImpl it; mret r.1.

(** ** Acquiring: lines 436 to 457 and 664 to 846 *)
Definition fullPriority (resId : Z) (m : LockMode) : bool :=
  ((getType resId =? RESOURCE_GLOBAL) || (IsForMMAPV1 && (resId =? resourceIdMMAPV1Flush))) &&
  (eqb m MODE_S || eqb m MODE_X).
Definition prioritise (b : bool) (r : LockRequest) : LockRequest :=
  if b then r <| rq_enqueueAtFront := true |> <| rq_compatibleFirst := true |> else r.
Definition lockBegin (resId : Z) (m : LockMode) : LK LockResult :=
  k ← the _id;
  map ← the _requests;
  if FastMap.finished (FastMap.find resId map) then
    r ← reads (λ _, FastMap.insert resId map);
    change (λ l, l <| _requests := r.2 |>) ;;
    clear_notify ;;
    manager_lock resId (prioritise (fullPriority resId m) (request_initNew k)) m
  else
    on_manager (set_request resId k (prioritise (fullPriority resId m))) ;;
    clear_notify ;;
    manager_convert resId m.

Definition DeadlockTimeout : Z := 500.
Definition found_deadlock : LK bool := reads (λ w,
  let s := mgr (w_sys w) in
  '(_, d) ← Deadlock.check s (Deadlock.check_fuel s) (Deadlock.DeadlockDetector s (_id (w_locker w)));
  Deadlock.hasCycle d).
(** The loop; [start] is the time in microseconds, [timeout] is in milliseconds. *)
Fixpoint wait_loop (fuel : nat) (timeout : option Z) (checkDeadlock : bool) (start : Z) : LK LockResult :=
  result ← notify_wait;
  if bool_decide (result = LOCK_OK) then mret LOCK_OK else
  dead ← (if checkDeadlock then found_deadlock else mret false);
  if (dead : bool) then mret LOCK_DEADLOCK else
  curTimeMicros ← gets w_now;
  let waitTime := match timeout with
                  | None => DeadlockTimeout
                  | Some t =>
                      let totalBlockTime := Z.quot (curTimeMicros - start) 1000 in
                      if totalBlockTime <? t then Z.min (t - totalBlockTime) DeadlockTimeout else 0
                  end in
  if waitTime =? 0 then mret result else
  match fuel with
  | O => fails OUT_OF_FUEL
  | S fuel => wait_loop fuel timeout checkDeadlock start
  end.
Definition _getModeForMMAPV1FlushLock : LK LockMode :=
  invariant 832 (λ _, IsForMMAPV1) ;;
  m ← getLockMode resourceIdGlobal;
  match m with
  | MODE_X | MODE_IX => mret MODE_IX
  | MODE_S | MODE_IS => mret MODE_IS
  | MODE_NONE => fails 843
  end.
(** [relock] takes the flush lock again. *)
Definition lockComplete_with (relock : LK LockResult) (resId : Z) (timeout : option Z)
    (checkDeadlock : bool) : LK LockResult :=
  b ← inAWriteUnitOfWork;
  let yieldFlushLock := IsForMMAPV1 && negb b && negb (getType resId =? RESOURCE_GLOBAL) &&
    negb (getType resId =? RESOURCE_MUTEX) && negb (resId =? resourceIdMMAPV1Flush) in
  (if yieldFlushLock then u ← unlock resourceIdMMAPV1Flush; invariant 735 (λ _, u) else mret tt) ;;
  start ← gets w_now;
  n ← gets (λ w, length (w_sched w));
  result ← wait_loop n timeout checkDeadlock start;
  (if negb (bool_decide (result = LOCK_OK)) then
     m ← the _requests; _ ← _unlockImpl (FastMap.find resId m); mret tt
   else mret tt) ;;
  (if yieldFlushLock then r ← relock; invariant 802 (λ _, bool_decide (r = LOCK_OK)) else mret tt) ;;
  mret result.
Definition lock_with (relock : LK LockResult) (resId : Z) (m : LockMode) (timeout : option Z)
    (checkDeadlock : bool) : LK LockResult :=
  result ← lockBegin resId m;
  if bool_decide (result = LOCK_OK) then mret LOCK_OK else
  _ ← invariant 448 (λ _, bool_decide (result = LOCK_WAITING));
  lockComplete_with relock resId timeout checkDeadlock.
(** The flush lock itself never yields the flush lock. *)
Definition lock_flush (m : LockMode) : LK LockResult :=
  lock_with (fails 802) resourceIdMMAPV1Flush m None false.
Definition relock_flush : LK LockResult := m ← _getModeForMMAPV1FlushLock; lock_flush m.
Definition lockComplete := lockComplete_with relock_flush.
Definition lock := lock_with relock_flush.

Definition downgrade (resId : Z) (m : LockMode) : LK () :=
  map ← the _requests;
  _ ← reads (λ _, FastMap.objKey (FastMap.find resId map) map);
  manager_downgrade resId m.

(** ** The global lock: lines 295 to 403 *)
Definition lockGlobalBegin (m : LockMode) (timeout : option Z) : LK LockResult :=
  t ← the _modeForTicket;
  ok ← (if eqb t MODE_NONE then
          acquire ← the _shouldAcquireTicket;
          let reader := isSharedLockMode m in
          got ← (match (if (acquire : bool) then ticketHolders m else None) with
                 | Some holder =>
                     change (λ l, l <| _clientState := if reader then kQueuedReader else kQueuedWriter |>) ;;
                     match timeout with
                     | None => waitForTicket holder
                     | Some ms => now ← gets w_now; waitForTicketUntil holder (now + ms * 1000)
                     end
                 | None => mret true
                 end);
          if (got : bool) then
            change (λ l, l <| _clientState := if reader then kActiveReader else kActiveWriter |>
                           <| _modeForTicket := m |>) ;;
            mret true
          else change (λ l, l <| _clientState := kInactive |>) ;; mret false
        else mret true);
  if (ok : bool) then
    result ← lockBegin resourceIdGlobal m;
    if bool_decide (result = LOCK_OK) then mret LOCK_OK else
    _ ← invariant 333 (λ _, bool_decide (result = LOCK_WAITING));
    mret result
  else mret LOCK_TIMEOUT.
Definition lockGlobalComplete (timeout : option Z) : LK LockResult :=
  lockComplete resourceIdGlobal timeout false.
Definition lockMMAPV1Flush : LK () :=
  if negb IsForMMAPV1 then mret tt else
  r ← request_of resourceIdGlobal;
  if rq_recursiveCount r =? 1 then
    x ← relock_flush; invariant 353 (λ _, bool_decide (x = LOCK_OK))
  else mret tt.
Definition lockGlobal (m : LockMode) : LK LockResult :=
  result ← lockGlobalBegin m None;
  result ← (if bool_decide (result = LOCK_WAITING) then lockGlobalComplete None else mret result);
  (if bool_decide (result = LOCK_OK) then lockMMAPV1Flush else mret tt) ;;
  mret result.
Definition downgradeGlobalXtoSForMMAPV1 : LK () :=
  b ← inAWriteUnitOfWork; invariant 361 (λ _, negb b) ;;
  r ← request_of resourceIdGlobal;
  invariant 364 (λ _, eqb (rq_mode r) MODE_X) ;;
  invariant 365 (λ _, rq_recursiveCount r =? 1) ;;
  t ← the _modeForTicket; invariant 366 (λ _, eqb t MODE_X) ;;
  manager_downgrade resourceIdGlobal MODE_S ;;
  if IsForMMAPV1 then u ← unlock resourceIdMMAPV1Flush; invariant 378 (λ _, u) else mret tt.
(** The loop over the requests that are left. *)
Fixpoint unlock_rest (fuel : nat) (it : Z) : LK () :=
  if FastMap.finished it then mret tt else
  match fuel with
  | O => fails OUT_OF_FUEL
  | S fuel =>
      resId ← reads (λ w, FastMap.objKey it (_requests (w_locker w)));
      if (getType resId =? RESOURCE_GLOBAL) || (getType resId =? RESOURCE_MUTEX) then
        it ← reads (λ w, FastMap.next it (_requests (w_locker w)));
        unlock_rest fuel it
      else
        r ← _unlockImpl it;
        invariant 398 (λ _, r.1) ;;
        unlock_rest fuel r.2
  end.
Definition unlockGlobal : LK bool :=
  gone ← unlock resourceIdGlobal;
  if negb gone then mret false else
  b ← inAWriteUnitOfWork; invariant 388 (λ _, negb b) ;;
  it ← reads (λ w, FastMap.begin (_requests (w_locker w)));
  unlock_rest 16 it ;;
  mret true.

(** ** Write units of work: lines 406 to 433 *)
Definition beginWriteUnitOfWork : LK () :=
  change (λ l, l <| _wuowNestingLevel := _wuowNestingLevel l + 1 |>).
Definition endWriteUnitOfWork : LK () :=
  invariant 416 (λ w, 0 <? _wuowNestingLevel (w_locker w)) ;;
  change (λ l, l <| _wuowNestingLevel := _wuowNestingLevel l - 1 |>) ;;
  n ← the _wuowNestingLevel;
  if 0 <? n then mret tt else
  q ← the _resourcesToUnlockAtEndOfUnitOfWork;
  mfoldl (λ (_ : ()) resId,
    _ ← unlock resId;
    change (λ l, l <| _resourcesToUnlockAtEndOfUnitOfWork :=
                        tail (_resourcesToUnlockAtEndOfUnitOfWork l) |>)) tt q ;;
  if IsForMMAPV1 then
    u ← unlock resourceIdMMAPV1Flush; invariant 430 (λ _, u) ;;
    x ← relock_flush; invariant 431 (λ _, bool_decide (x = LOCK_OK))
  else mret tt.

(** ** Yielding: lines 578 to 661 *)
#[export] Instance OneLock_le_dec : RelDecision (λ a b : OneLock, resourceId a ≤ resourceId b).
Proof. intros a b. apply Z.le_dec. Defined.
Definition sort_locks : list OneLock → list OneLock := merge_sort (λ a b, resourceId a ≤ resourceId b).
Fixpoint save_rest (fuel : nat) (it : Z) (saved : list OneLock) : LK (list OneLock) :=
  if FastMap.finished it then mret saved else
  match fuel with
  | O => fails OUT_OF_FUEL
  | S fuel =>
      resId ← reads (λ w, FastMap.objKey it (_requests (w_locker w)));
      let t := getType resId in
      saved ← (if t =? RESOURCE_MUTEX then mret saved
               else
                 r ← request_of resId;
                 invariant 616 (λ _, (IsForMMAPV1 && (resId =? resourceIdMMAPV1Flush)) ||
                   (t =? RESOURCE_DATABASE) || (t =? RESOURCE_COLLECTION) ||
                   ((t =? RESOURCE_GLOBAL) && isSharedLockMode (rq_mode r))) ;;
                 u ← unlock resId;
                 invariant 627 (λ _, u) ;;
                 mret (saved ++ [mkOneLock resId (rq_mode r)]));
      it ← reads (λ w, FastMap.next it (_requests (w_locker w)));
      save_rest fuel it saved
  end.
(** [None]: nothing was released. *)
Definition saveLockStateAndUnlock : LK (option LockSnapshot) :=
  b ← inAWriteUnitOfWork; invariant 580 (λ _, negb b) ;;
  m ← the _requests;
  if FastMap.finished (FastMap.find resourceIdGlobal m) then
    invariant 592 (λ _, forallb (λ resId, getType resId =? RESOURCE_MUTEX) (FastMap.keys m)) ;;
    mret None
  else
    r ← request_of resourceIdGlobal;
    if 1 <? rq_recursiveCount r then mret None else
    u ← unlock resourceIdGlobal;
    invariant 606 (λ _, u) ;;
    it ← reads (λ w, FastMap.begin (_requests (w_locker w)));
    saved ← save_rest 16 it [];
    held ← isLocked;
    invariant 629 (λ _, negb held) ;;
    mret (Some (mkSnapshot (rq_mode r) (sort_locks saved))).
Definition relock (x : OneLock) : LK () :=
  r ← lock (resourceId x) (mode x) None false; invariant 657 (λ _, bool_decide (r = LOCK_OK)).
Definition restoreLockState (state : LockSnapshot) : LK () :=
  b ← inAWriteUnitOfWork; invariant 640 (λ _, negb b) ;;
  t ← the _modeForTicket; invariant 641 (λ _, eqb t MODE_NONE) ;;
  rest ← (match locks state with
          | x :: xs => if resourceId x =? resourceIdParallelBatchWriterMode
                       then relock x ;; mret xs else mret (x :: xs)
          | [] => mret []
          end);
  r ← lockGlobal (globalMode state); invariant 650 (λ _, bool_decide (r = LOCK_OK)) ;;
  mfoldl (λ (_ : ()) x,
    if IsForMMAPV1 && (resourceId x =? resourceIdMMAPV1Flush) then
      m ← _getModeForMMAPV1FlushLock; invariant 655 (λ _, eqb (mode x) m)
    else relock x) tt rest ;;
  t ← the _modeForTicket; invariant 660 (λ _, negb (eqb t MODE_NONE)).
End locker.
End LockerImpl.
