(* ===== verification/LockerView.v ===== *)
(** * The lock manager as one locker sees it

    [view]: the requests of locker [k], by resource.  What the calls of other lockers do to them
    ([steady]): nothing, except that a request that waits may be granted, which is notified once.
    What the calls of the locker itself do.  Everything else about the manager is left behind
    here. *)
From S2P Require Import Prelude LockManager LockHeadInv LockHeadOps LockManagerInv LockManagerOps LockManagerProps FastMap Locker.
Import Mode Head Manager Locking.
Implicit Types (h : LockHead) (r b : LockRequest) (s : LockManager) (y : Sys) (res : Z).

(** ** Code that notifies nobody *)
Create HintDb quiet discriminated.
Definition quiet {A} (m : LM A) : Prop := ∀ s, wlp m (λ _ s', lm_notified s' = lm_notified s) s.
Lemma quiet_ret {A} (a : A) : quiet (mret a).
Proof. intros s. by apply wlp_ret. Qed.
Lemma quiet_bind {A B} (m : LM A) (f : A → LM B) : quiet m → (∀ a, quiet (f a)) → quiet (m ≫= f).
Proof.
  intros Hm Hf s. apply wlp_bind. eapply wlp_mono; [|apply Hm]. intros a s1 H1.
  eapply wlp_mono; [|apply Hf]. intros c s2 H2. congruence.
Qed.
Lemma quiet_gets {A} (f : LockManager → A) : quiet (gets f).
Proof. intros s. by apply wlp_gets. Qed.
Lemma quiet_reads {A} (f : LockManager → outcome A) : quiet (reads f).
Proof. intros s. by apply wlp_reads. Qed.
Lemma quiet_invariant line f : quiet (invariant line f).
Proof. intros s. by apply wlp_invariant. Qed.
Lemma quiet_modify f : (∀ s, lm_notified (f s) = lm_notified s) → quiet (modify f).
Proof. intros Hf s. by apply wlp_modify. Qed.
Lemma quiet_on_head {A} line res (m : HM A) : quiet (on_head line res m).
Proof.
  intros s a s'. unfold on_head. destruct (lm_heads s !! res) as [h|]; [|done].
  destruct (m h) as [[a' h']|]; [|done]. by intros [= <- <-].
Qed.
Lemma quiet_mfoldl {A B} (f : B → A → LM B) l : (∀ x a, quiet (f x a)) → ∀ x, quiet (mfoldl f x l).
Proof. intros Hf. induction l as [|a l IH]; intros x; simpl; [apply quiet_ret|]. apply quiet_bind; auto. Qed.
#[local] Hint Resolve quiet_ret quiet_gets quiet_reads quiet_invariant quiet_on_head : quiet.
Ltac solve_quiet := repeat first
  [ progress auto with quiet | apply quiet_bind | apply quiet_modify | apply quiet_mfoldl | progress intros
  | match goal with
    | |- context [match ?x with _ => _ end] => destruct x
    end | done ].
Lemma quiet_migrate res : quiet (migrate_if_partitioned res).
Proof.
  unfold migrate_if_partitioned, migratePartitionedLockHeads, migrate_partition.
  apply quiet_bind; [auto with quiet|]. intros []; [|auto with quiet].
  repeat (apply quiet_bind; [auto with quiet|intros ?]). apply quiet_mfoldl. intros _ p. apply quiet_bind; [auto with quiet|].
  intros s. apply quiet_bind; [|auto with quiet]. destruct (_ !! _); [|auto with quiet]. apply quiet_bind.
  - apply quiet_mfoldl. intros _ q. solve_quiet.
  - intros _. by apply quiet_modify.
Qed.
#[local] Hint Resolve quiet_migrate : quiet.
Lemma quiet_partitioned p res r : quiet (partitioned_newRequest p res r).
Proof. unfold partitioned_newRequest. solve_quiet. Qed.
Lemma quiet_findOrInsert res : quiet (findOrInsert res).
Proof. apply quiet_modify. intros s. by destruct (lm_heads s !! res). Qed.
Lemma quiet_partition_findOrInsert p res : quiet (partition_findOrInsert p res).
Proof. apply quiet_modify. intros s. by destruct (lm_partitions s !! _). Qed.
Lemma quiet_set_request res k f : quiet (set_request res k f).
Proof. by apply quiet_modify. Qed.
#[local] Hint Resolve quiet_partitioned quiet_findOrInsert quiet_partition_findOrInsert quiet_set_request : quiet.
Lemma quiet_lock_begin res r m : quiet (lock_begin res r m).
Proof. unfold lock_begin. solve_quiet. Qed.
Lemma quiet_lock_finish res r : quiet (lock_finish res r).
Proof. unfold lock_finish. solve_quiet. Qed.
Lemma quiet_convert res k m : quiet (convert res k m).
Proof. unfold convert. solve_quiet. Qed.
Lemma quiet_unlock_begin res k : quiet (unlock_begin res k).
Proof. unfold unlock_begin. solve_quiet. Qed.
Lemma quiet_cleanup res : quiet (cleanup_resource res).
Proof. unfold cleanup_resource. solve_quiet. Qed.

(** ** The requests of one locker *)
Section view.
Context (ids : gset Z) (Hids : Z.of_nat (size ids) < two32 - 2) (k : Z).
Definition view y res : option LockRequest := find_request res k (mgr y).

Lemma view_iff y res r : SInv ids y → view y res = Some r ↔ present (mgr y) res r ∧ rq_locker r = k.
Proof. intros HS. apply (find_request_iff _ _ _ _ _ (HS res)). Qed.
Lemma view_none y res : SInv ids y → view y res = None ↔ ∀ b, present (mgr y) res b → rq_locker b ≠ k.
Proof.
  intros HS. rewrite eq_None_not_Some. split.
  - intros Hn b Hb Hk. apply Hn. exists b. by apply view_iff.
  - intros Hn [r Hr]. apply view_iff in Hr as [Hr Hk]; [|done]. by apply (Hn r).
Qed.
Lemma view_eq y y' res :
  SInv ids y → SInv ids y' → (∀ b, rq_locker b = k → present (mgr y') res b ↔ present (mgr y) res b) →
  view y' res = view y res.
Proof. intros HS HS' Hb. apply option_eq. intros r. rewrite !view_iff by done. naive_solver. Qed.
Lemma view_elsewhere y y' res res' :
  elsewhere res (mgr y) (mgr y') → res' ≠ res → view y' res' = view y res'.
Proof.
  intros Hel Hne. destruct (Hel res' Hne) as [Hh Hp]. unfold view, find_request, find_partitioned. by rewrite Hh, Hp.
Qed.
Lemma view_locker y res r : SInv ids y → view y res = Some r → rq_locker r = k.
Proof. intros HS Hr. by apply view_iff in Hr as [_ ?]. Qed.

(** The waiting requests of [ns] are granted. *)
Definition woken_by (ns : list (Z * Z)) res r : LockRequest := if bool_decide ((res, k) ∈ ns) then wake r else r.
(** What others do to this locker. *)
Record steady y y' : Prop := mkSteady {
  st_reach : reachable ids y';
  st_plk : ∀ res, plk y' !! (res, k) = plk y !! (res, k);
  st_pul : ∀ res, (res, k) ∈ pul y' ↔ (res, k) ∈ pul y;
  st_view : ∃ ns, lm_notified (mgr y') = lm_notified (mgr y) ++ ns ∧
    NoDup (List.filter (λ n, n.2 =? k) ns) ∧
    (∀ res, (res, k) ∈ ns → ∃ r, view y res = Some r ∧ waits r = true) ∧
    (∀ res, view y' res = woken_by ns res <$> view y res) }.
Lemma woken_nil res r : woken_by [] res r = r.
Proof. unfold woken_by. by rewrite bool_decide_false by apply not_elem_of_nil. Qed.
Lemma steady_refl y : reachable ids y → steady y y.
Proof.
  intros Hy. split; [done..|]. exists []. rewrite app_nil_r. split_and!; [done|apply NoDup_nil_2| |].
  - intros res Hn. by apply elem_of_nil in Hn.
  - intros res. destruct (view y res) as [r|]; [|done]. simpl. by rewrite woken_nil.
Qed.
Lemma steady_trans y y1 y2 : steady y y1 → steady y1 y2 → steady y y2.
Proof.
  intros [_ Hp Hu (ns & Hn & Hd & Hw & Hv)] [Hr' Hp' Hu' (ns' & Hn' & Hd' & Hw' & Hv')]. split.
  - done.
  - intros res. by rewrite Hp'.
  - intros res. by rewrite Hu'.
  - exists (ns ++ ns').
    assert (∀ res, (res, k) ∈ ns' → (res, k) ∉ ns ∧ ∃ r, view y res = Some r ∧ waits r = true) as Hnew.
    { intros res Hin. destruct (Hw' res Hin) as (r' & Hr1 & Hwt). rewrite Hv in Hr1.
      apply fmap_Some in Hr1 as (r & Hr & ->). unfold woken_by in Hwt. case_bool_decide; [by rewrite wake_waits in Hwt|].
      split; [done|]. eauto. }
    split_and!.
    + by rewrite Hn', Hn, app_assoc.
    + rewrite List.filter_app. apply NoDup_app. split_and!; [done| |done]. intros [res k'] Hin Hin'.
      apply list_elem_of_In, filter_In in Hin as [Hin E], Hin' as [Hin' _]. apply Z.eqb_eq in E. simpl in E. subst k'.
      apply list_elem_of_In in Hin, Hin'. by destruct (Hnew res Hin').
    + intros res [Hin|Hin]%elem_of_app; [auto|]. by apply Hnew.
    + intros res. rewrite Hv', Hv, <-option_fmap_compose. destruct (view y res) as [r|]; [|done]. simpl. f_equal.
      unfold woken_by. destruct (decide ((res, k) ∈ ns')) as [Hin'|Hin'].
      * destruct (Hnew res Hin') as [Hno _]. rewrite (bool_decide_true ((res, k) ∈ ns')), (bool_decide_false ((res, k) ∈ ns)) by done.
        by rewrite bool_decide_true by set_solver.
      * rewrite (bool_decide_false ((res, k) ∈ ns')) by done. by rewrite (bool_decide_ext ((res, k) ∈ ns ++ ns') ((res, k) ∈ ns)) by set_solver.
Qed.
(** A call of another locker that wakes nobody. *)
Lemma steady_quiet y y' :
  reachable ids y' → (∀ res, plk y' !! (res, k) = plk y !! (res, k)) → (∀ res, (res, k) ∈ pul y' ↔ (res, k) ∈ pul y) →
  lm_notified (mgr y') = lm_notified (mgr y) → (∀ res, view y' res = view y res) → steady y y'.
Proof.
  intros Hr Hp Hu Hn Hv. split; [done..|]. exists []. rewrite app_nil_r. split_and!; [done|apply NoDup_nil_2| |].
  - intros res Hin. by apply elem_of_nil in Hin.
  - intros res. rewrite Hv. destruct (view y res) as [r|]; [|done]. simpl. by rewrite woken_nil.
Qed.

(** ** The calls of the others *)
Lemma locked_present s pl pu res r result s' :
  locked ids s pl pu res r result s' →
  elsewhere res s s' ∧ ∃ st part, ∀ b, present s' res b ↔ present s res b ∨
    b = r <| rq_status := st |> <| rq_partitioned := part |>.
Proof.
  intros [(_ & _ & part & _ & Hel & Hpr)|(_ & _ & _ & Hel & Hpr)]; (split; [done|]); [exists STATUS_GRANTED, part|exists STATUS_WAITING, false]; done.
Qed.
Lemma others_locked y y' res r result :
  SInv ids y → SInv ids y' → rq_locker r ≠ k → locked ids (mgr y) (plk y') (pul y) res r result (mgr y') →
  ∀ res', view y' res' = view y res'.
Proof.
  intros HS HS' Hk (Hel & st & part & Hpr)%locked_present res'. destruct (decide (res' = res)) as [->|Hne].
  - apply view_eq; [done..|]. intros b Hb. rewrite (Hpr b). split; [|by left]. intros [?| ->]; [done|]. by destruct Hk.
  - by apply (view_elsewhere y y' res).
Qed.
Lemma others_kept_view y y' res k' :
  SInv ids y → SInv ids y' → k' ≠ k → elsewhere res (mgr y) (mgr y') → others_kept (mgr y) (mgr y') res k' →
  ∀ res', view y' res' = view y res'.
Proof.
  intros HS HS' Hk Hel Hoth res'. destruct (decide (res' = res)) as [->|Hne].
  - apply view_eq; [done..|]. intros b Hb. apply Hoth. congruence.
  - by apply (view_elsewhere y y' res).
Qed.
(** A critical section that wakes [ns] on a head; [h1] is the head before that. *)
Lemma view_woken y y' res h h1 ns h' :
  SInv ids y → SInv ids y' → lm_heads (mgr y) !! res = Some h → lm_heads (mgr y') !! res = Some h' →
  lm_partitions (mgr y') = lm_partitions (mgr y) → evolve ns h1 h' →
  (∀ b, rq_locker b = k → b ∈ requests h1 ↔ b ∈ requests h) →
  view y' res = wake_in ns <$> view y res ∧ (k ∈ ns → ∃ r, view y res = Some r ∧ waits r = true).
Proof.
  intros HS HS' Hh Hh' Hp Hev Hsame.
  assert (k ∈ ns → ∃ r, r ∈ requests h ∧ rq_locker r = k ∧ waits r = true) as Hw.
  { intros (r & Hr & Hk & Hw)%(ev_waited _ _ _ Hev). exists r. by rewrite <-Hsame. }
  assert (∀ r, r ∈ requests h → rq_locker r = k → view y res = Some r) as Hon.
  { intros r Hr Hk. apply view_iff; [done|]. split; [|done]. left. eauto. }
  split; [|intros (r & ? & ? & ?)%Hw; eauto]. apply option_eq. intros r'. rewrite view_iff, fmap_Some by done. split.
  - intros [[(h0 & Hh0 & Hr')|(p & l & Hl & Hr')] Hk].
    + assert (h0 = h') as -> by congruence. apply (evolve_requests ns h1) in Hr' as (r & Hr & ->); [|done].
      rewrite wake_in_locker in Hk. exists r. split; [|done]. apply Hon; [by apply Hsame|done].
    + exists r'. rewrite Hp in Hl. split; [apply view_iff; [done|]; split; [right; eauto|done]|].
      unfold wake_in. rewrite Hk. case_bool_decide as Hin; [|done]. exfalso.
      destruct (Hw Hin) as (r & Hr & Hkr & _). destruct (ri_part _ _ _ _ _ (HS res) p l Hl) as (_ & _ & h0 & Hh0 & _ & Hd).
      assert (h0 = h) as -> by congruence. apply (Hd r' Hr'). rewrite Hk, <-Hkr. by apply list_elem_of_fmap_2.
  - intros (r & Hr & ->). apply view_iff in Hr as [[(h0 & Hh0 & Hr)|(p & l & Hl & Hr)] Hk]; [..|done].
    + assert (h0 = h) as -> by congruence. rewrite wake_in_locker. split; [|done]. left. exists h'. split; [done|].
      rewrite (ev_requests _ _ _ Hev). apply list_elem_of_fmap_2. by apply Hsame.
    + assert (wake_in ns r = r) as ->.
      { destruct (ri_part _ _ _ _ _ (HS res) p l Hl) as (_ & Hok & _). destruct (Hok r Hr) as [(_ & Hst & _) _].
        unfold wake_in. case_bool_decide; [|done]. unfold wake. by rewrite Hst. }
      split; [|done]. right. exists p, l. by rewrite Hp.
Qed.
Lemma steady_woken y y' res h h1 ns h' :
  SInv ids y → reachable ids y' → plk y' = plk y → (∀ res, (res, k) ∈ pul y' ↔ (res, k) ∈ pul y) →
  elsewhere res (mgr y) (mgr y') → lm_heads (mgr y) !! res = Some h → lm_heads (mgr y') !! res = Some h' →
  lm_partitions (mgr y') = lm_partitions (mgr y) → evolve ns h1 h' →
  (∀ b, rq_locker b = k → b ∈ requests h1 ↔ b ∈ requests h) →
  lm_notified (mgr y') = lm_notified (mgr y) ++ ((λ l, (res, l)) <$> ns) → steady y y'.
Proof.
  intros HS Hy' Hpl Hpu Hel Hh Hh' Hp Hev Hsame Hn.
  destruct (view_woken y y' res h h1 ns h' HS (reachable_SInv ids Hids y' Hy') Hh Hh' Hp Hev Hsame) as [Hv Hw].
  assert (∀ res' k', (res', k') ∈ (λ l, (res, l)) <$> ns ↔ res' = res ∧ k' ∈ ns) as Hin.
  { intros res' k'. rewrite list_elem_of_fmap. naive_solver. }
  split; [done|by rewrite Hpl|done|]. eexists. split_and!; [exact Hn|..].
  - apply NoDup_ListNoDup, List.NoDup_filter, NoDup_ListNoDup. apply (NoDup_fmap_2 _), (ev_once _ _ _ Hev).
  - intros res' [-> Hk]%Hin. auto.
  - intros res'. destruct (decide (res' = res)) as [->|Hne].
    + rewrite Hv. destruct (view y res) as [r|] eqn:E; [|done]. simpl. f_equal. unfold wake_in, woken_by.
      rewrite (view_locker y res r HS E). by rewrite (bool_decide_ext ((res, k) ∈ _) (k ∈ ns)) by (rewrite Hin; naive_solver).
    + rewrite (view_elsewhere y y' res) by done. destruct (view y res') as [r|]; [|done]. simpl. unfold woken_by.
      rewrite bool_decide_false; [done|]. rewrite Hin. naive_solver.
Qed.
Lemma partitions_on_head {A} line res (m : HM A) s a s' :
  on_head line res m s = Ret (a, s') → lm_partitions s' = lm_partitions s.
Proof. unfold on_head. destruct (lm_heads s !! res); [|done]. destruct (m l) as [[? ?]|]; [|done]. by intros [= <- <-]. Qed.
Lemma partitions_unlock_finish res k' s gone s' : unlock_finish res k' s = Ret (gone, s') → lm_partitions s' = lm_partitions s.
Proof.
  unfold unlock_finish, mbind, M_bind. destruct (on_head _ _ _ s) as [[[g l] s1]|] eqn:E; [|done]. simpl.
  intros [= <- <-]. simpl. by eapply partitions_on_head.
Qed.
Lemma partitions_downgrade res k' m s s' : downgrade res k' m s = Ret (tt, s') → lm_partitions s' = lm_partitions s.
Proof.
  unfold downgrade, mbind, M_bind. destruct (on_head _ _ _ s) as [[l s1]|] eqn:E; [|done]. simpl.
  intros [= <-]. simpl. by eapply partitions_on_head.
Qed.
(** What a request that is given up leaves to the others, and to its owner. *)
Lemma given_up_others r h h1 b : given_up r h h1 → rq_locker b ≠ rq_locker r → b ∈ requests h1 ↔ b ∈ requests h.
Proof.
  intros [Hg Hc _] Hne. unfold requests. rewrite !elem_of_app, Hg, Hc, elem_of_unlink.
  destruct (has_status STATUS_CONVERTING r).
  - assert (b ∈ write_request (rq_locker r) (λ _, cancelled r) (grantedList h) ↔ b ∈ grantedList h) as ->; [|naive_solver].
    split; [intros [[? _]|(b0 & _ & _ & ->)]%elem_of_write; done|].
    intros Hb. apply list_elem_of_fmap. exists b. split; [|done]. destruct (by_locker _ b) eqn:E; [|done]. by apply by_locker_true in E.
  - rewrite elem_of_unlink. naive_solver.
Qed.

(** *** One call of another locker *)
Lemma env_lock_begin y y' res r m :
  reachable ids y → enabled ids y (LockBegin res r m) = true → rq_locker r ≠ k →
  exec (LockBegin res r m) y = Ret (tt, y') → steady y y'.
Proof.
  intros Hy He Hk Hx. pose proof (reach_call ids y _ y' Hy He Hx) as Hy'.
  pose proof (reachable_SInv ids Hids y Hy) as HS. pose proof (reachable_SInv ids Hids y' Hy') as HS'.
  destruct (enabled_lock_begin ids y res r m HS He) as (Hin & Hst & Hrc & Hm & Hcv & Hnone & Habs).
  pose proof (wp_lock_begin ids (mgr y) (plk y) (pul y) res r m (HS res) Hnone Hin Habs Hst Hrc Hcv)
    as (o & s' & Hb & Hspec)%wp_Ret.
  cbn [exec] in Hx. unfold lift, mbind, M_bind in Hx. rewrite Hb in Hx.
  pose proof (quiet_lock_begin res r m (mgr y) o s' Hb) as Hq.
  destruct o as [result|r']; injection Hx as <-.
  - apply steady_quiet; [done..|]. by apply (others_locked y _ res (prepared r m) result).
  - destruct Hspec as [-> ->]. apply steady_quiet; [done| |done..]. intros res'. simpl.
    rewrite lookup_insert_ne; [done|]. intros [= _ Hkk]. by destruct Hk.
Qed.
Lemma env_lock_finish y y' res k' :
  reachable ids y → enabled ids y (LockFinish res k') = true → k' ≠ k →
  exec (LockFinish res k') y = Ret (tt, y') → steady y y'.
Proof.
  intros Hy He Hk Hx. pose proof (reach_call ids y _ y' Hy He Hx) as Hy'.
  pose proof (reachable_SInv ids Hids y Hy) as HS. pose proof (reachable_SInv ids Hids y' Hy') as HS'.
  simpl in He. destruct (plk y !! (res, k')) as [r|] eqn:Hr; [|done].
  destruct (SInv_drop ids y res k' r HS Hr) as (HR & (Hkr & Hst & Hrc & Hm & Hcv & Hp) & Hin & Habs). subst k'.
  pose proof (wp_lock_finish ids Hids (mgr y) (delete (res, rq_locker r) (plk y)) (pul y) res r HR
    ltac:(by rewrite lookup_delete_eq) Hin Habs Hrc Hm Hcv Hp) as (result & s' & Hb & Hspec)%wp_Ret.
  cbn [exec] in Hx. unfold lift, mbind, M_bind, gets, modify, id in Hx. simpl in Hx. rewrite Hr in Hx. simpl in Hx.
  rewrite Hb in Hx. injection Hx as <-.
  apply steady_quiet; [done|..|done|by eapply quiet_lock_finish|].
  - intros res'. simpl. rewrite lookup_delete_ne; [done|]. intros [= _ Hkk]. by destruct Hk.
  - by apply (others_locked y _ res r result).
Qed.
Lemma env_convert y y' res k' m :
  reachable ids y → enabled ids y (Convert res k' m) = true → k' ≠ k →
  exec (Convert res k' m) y = Ret (tt, y') → steady y y'.
Proof.
  intros Hy He Hk Hx. pose proof (reach_call ids y _ y' Hy He Hx) as Hy'.
  pose proof (reachable_SInv ids Hids y Hy) as HS. pose proof (reachable_SInv ids Hids y' Hy') as HS'.
  destruct (enabled_convert ids y res k' m HS He) as (r & _ & Hr & <- & Hst & Hnp & Hmax & Hcov).
  pose proof (wp_convert ids (mgr y) (plk y) (pul y) res r m Hids (HS res) Hr Hst Hnp Hmax Hcov)
    as (result & s' & Hb & ([_ Hel] & _ & _ & Hoth))%wp_Ret.
  cbn [exec] in Hx. unfold lift, mbind, M_bind in Hx. rewrite Hb in Hx. injection Hx as <-.
  apply steady_quiet; [done..|by eapply quiet_convert|]. by apply (others_kept_view y _ res (rq_locker r)).
Qed.
Lemma env_unlock_begin y y' res k' :
  reachable ids y → enabled ids y (UnlockBegin res k') = true → k' ≠ k →
  exec (UnlockBegin res k') y = Ret (tt, y') → steady y y'.
Proof.
  intros Hy He Hk Hx. pose proof (reach_call ids y _ y' Hy He Hx) as Hy'.
  pose proof (reachable_SInv ids Hids y Hy) as HS. pose proof (reachable_SInv ids Hids y' Hy') as HS'.
  simpl in He. destruct (find_request res k' (mgr y)) as [r|] eqn:Hf; [|done]. simpl in He.
  apply negb_true_iff, bool_decide_eq_false in He.
  apply (find_request_iff _ _ _ _ _ (HS res)) in Hf as [Hr <-].
  pose proof (wp_unlock_begin ids (mgr y) (plk y) (pul y) res (HS res) r Hr He) as (o & s' & Hb & [Hoth _] & Hkept)%wp_Ret.
  cbn [exec] in Hx. unfold lift, mbind, M_bind in Hx. rewrite Hb in Hx.
  pose proof (quiet_unlock_begin res (rq_locker r) (mgr y) o s' Hb) as Hq.
  destruct o as [b|]; injection Hx as <-; destruct Hkept as [_ Hel]; (apply steady_quiet; [done..| |done|]); try done;
    try (by apply (others_kept_view y _ res (rq_locker r))).
  simpl. intros res'. set_solver.
Qed.
Lemma env_unlock_finish y y' res k' :
  reachable ids y → enabled ids y (UnlockFinish res k') = true → k' ≠ k →
  exec (UnlockFinish res k') y = Ret (tt, y') → steady y y'.
Proof.
  intros Hy He Hk Hx. pose proof (reach_call ids y _ y' Hy He Hx) as Hy'.
  pose proof (reachable_SInv ids Hids y Hy) as HS. simpl in He. apply bool_decide_eq_true in He.
  pose proof (wp_unlock_finish ids (mgr y) (plk y) (pul y) res (HS res) k' He)
    as (gone & s' & Hb & [_ Hel] & h & r & h1 & Hh & Hr & <- & _ & Hgu & ns & h' & Hh' & Hev & Hns)%wp_Ret.
  cbn [exec] in Hx. unfold lift, mbind, M_bind in Hx. rewrite Hb in Hx. injection Hx as <-.
  apply (steady_woken y _ res h h1 ns h'); try done.
  - simpl. intros res'. set_solver.
  - by eapply partitions_unlock_finish.
  - intros b Hkb. apply (given_up_others r h h1); [done|]. congruence.
Qed.
Lemma env_downgrade y y' res k' m :
  reachable ids y → enabled ids y (Downgrade res k' m) = true → k' ≠ k →
  exec (Downgrade res k' m) y = Ret (tt, y') → steady y y'.
Proof.
  intros Hy He Hk Hx. pose proof (reach_call ids y _ y' Hy He Hx) as Hy'.
  pose proof (reachable_SInv ids Hids y Hy) as HS.
  simpl in He. destruct (lm_heads (mgr y) !! res) as [h|] eqn:Hh; [|done]. simpl in He.
  destruct (findRequest k' h) as [r|] eqn:Hf; [|done]. rewrite !andb_true_iff in He. destruct He as [[[Hst Hcov] Hm] Hnp].
  apply bool_decide_eq_true in Hst. apply negb_true_iff, bool_decide_eq_false in Hnp, Hm.
  destruct (ri_head _ _ _ _ _ (HS res) h Hh) as [[HC _] _]. apply (findRequest_iff h k' r HC) in Hf as [Hr <-].
  assert (r ∈ grantedList h) as Hg by (apply on_granted; [done|]; split; [done|congruence]).
  pose proof (wp_downgrade ids (mgr y) (plk y) (pul y) res (HS res) h r m Hh Hg Hst Hnp Hcov Hm)
    as ([] & s' & Hb & [_ Hel] & ns & h' & Hh' & Hev & Hns)%wp_Ret.
  cbn [exec] in Hx. unfold lift in Hx. rewrite Hb in Hx. injection Hx as <-.
  apply (steady_woken y _ res h (downgraded_head r h m) ns h'); try done.
  - by eapply partitions_downgrade.
  - intros b Hkb. unfold requests. simpl. rewrite !elem_of_app.
    assert (b ∈ write_request (rq_locker r) (λ _, r <| rq_mode := m |>) (grantedList h) ↔ b ∈ grantedList h) as ->; [|done].
    split; [intros [[? _]|(b0 & _ & _ & ->)]%elem_of_write; [done|]; by destruct Hk|].
    intros Hb'. apply list_elem_of_fmap. exists b. split; [|done].
    destruct (by_locker _ b) eqn:E; [|done]. apply by_locker_true in E. congruence.
Qed.
Lemma wp_cleanup_view y l s :
  NoDup l → SInv ids (y <| mgr := s |>) → (∀ res, res ∈ l → is_Some (lm_heads s !! res)) →
  wp (mfoldl (λ (_ : ()) res, cleanup_resource res) tt l) (λ _ s', SInv ids (y <| mgr := s' |>) ∧
    (∀ res, view (y <| mgr := s' |>) res = view (y <| mgr := s |>) res) ∧ lm_notified s' = lm_notified s) s.
Proof.
  revert s. induction l as [|res l IH]; intros s Hnd HS Hl; cbn [mfoldl]; [wp_simpl; done|].
  apply NoDup_cons in Hnd as [Hn Hnd]. destruct (Hl res ltac:(left)) as [h Hh]. wp_simpl.
  pose proof (wp_cleanup_resource ids s (plk y) (pul y) res h Hids (HS res) Hh) as ([] & s' & Hb & Hk & Hpr)%wp_Ret.
  apply (wp_result _ _ _ _ _ Hb).
  assert (SInv ids (y <| mgr := s' |>)) as HS' by (by apply (SInv_step ids (y <| mgr := s |>) res)).
  assert (∀ res', view (y <| mgr := s' |>) res' = view (y <| mgr := s |>) res') as Hv.
  { intros res'. destruct (decide (res' = res)) as [->|Hne]; [by apply view_eq|]. apply (view_elsewhere _ _ res); [|done]. apply Hk. }
  eapply wp_mono; [|apply IH; [done..|]].
  - intros [] s2 (? & Hv2 & Hn2). split_and!; [done| |].
    + intros res'. by rewrite Hv2.
    + rewrite Hn2. by eapply quiet_cleanup.
  - intros res' Hr. destruct Hk as [_ Hel]. destruct (Hel res') as [-> _]; [congruence|]. apply Hl. by right.
Qed.
Lemma env_cleanup y y' bucket :
  reachable ids y → exec (Cleanup bucket) y = Ret (tt, y') → steady y y'.
Proof.
  intros Hy Hx. assert (enabled ids y (Cleanup bucket) = true) as He by done.
  pose proof (reach_call ids y _ y' Hy He Hx) as Hy'. pose proof (reachable_SInv ids Hids y Hy) as HS.
  cbn [exec] in Hx. unfold lift in Hx. destruct (_cleanupUnusedLocksInBucket bucket (mgr y)) as [[[] s']|] eqn:Hb; [|done].
  injection Hx as <-. unfold _cleanupUnusedLocksInBucket, mbind, M_bind, gets, id in Hb.
  pose proof (wp_cleanup_view y (filter (λ resId, _getBucket resId = bucket) (elements (dom (lm_heads (mgr y)) : gset Z))) (mgr y)) as Hw.
  unfold wp in Hw. rewrite Hb in Hw. destruct Hw as (_ & Hv & Hq).
  - apply NoDup_filter, NoDup_elements.
  - by destruct y.
  - intros res. rewrite list_elem_of_filter, elem_of_elements, elem_of_dom. naive_solver.
  - apply steady_quiet; [done..|]. intros res. rewrite Hv. by destruct y.
Qed.

(** Any call of anybody else. *)
Lemma env_exec y y' c :
  reachable ids y → enabled ids y c = true → LockerImpl.caller c ≠ Some k → exec c y = Ret (tt, y') → steady y y'.
Proof.
  intros Hy He Hc Hx. destruct c; simpl in Hc.
  - eapply env_lock_begin; [done..| |done]. congruence.
  - eapply env_lock_finish; [done..| |done]. congruence.
  - eapply env_convert; [done..| |done]. congruence.
  - eapply env_unlock_begin; [done..| |done]. congruence.
  - eapply env_unlock_finish; [done..| |done]. congruence.
  - eapply env_downgrade; [done..| |done]. congruence.
  - by eapply env_cleanup.
Qed.
Lemma env_call_steady y c : reachable ids y → steady y (LockerImpl.env_call ids k y c).
Proof.
  intros Hy. unfold LockerImpl.env_call. destruct (enabled ids y c && _) eqn:E; [|by apply steady_refl].
  apply andb_true_iff in E as [He Hc]. apply bool_decide_eq_true in Hc.
  destruct (exec c y) as [[[] y']|] eqn:Hx; [|by apply steady_refl]. by eapply env_exec.
Qed.
Lemma env_calls_steady cs : ∀ y, reachable ids y → steady y (foldl (LockerImpl.env_call ids k) y cs).
Proof.
  induction cs as [|c cs IH]; intros y Hy; simpl; [by apply steady_refl|].
  pose proof (env_call_steady y c Hy) as H1. eapply steady_trans; [done|]. apply IH, H1.
Qed.

(** ** The calls of the locker itself *)
(** The request for [res] becomes [o] and nothing else of this locker changes. *)
Definition own_step res (o : option LockRequest) y y' : Prop :=
  reachable ids y' ∧ (∀ res', plk y' !! (res', k) = plk y !! (res', k)) ∧
  (∀ res', (res', k) ∈ pul y' ↔ (res', k) ∈ pul y) ∧
  (∃ ns, lm_notified (mgr y') = lm_notified (mgr y) ++ ns ∧ ∀ res', (res', k) ∉ ns) ∧
  ∀ res', view y' res' = if decide (res' = res) then o else view y res'.
Definition obtained r (m : LockMode) (result : LockResult) r' : Prop :=
  ∃ part, result = LOCK_OK ∧ r' = prepared r m <| rq_status := STATUS_GRANTED |> <| rq_partitioned := part |> ∨
          result = LOCK_WAITING ∧ r' = prepared r m <| rq_status := STATUS_WAITING |> <| rq_partitioned := false |>.
Definition fresh_for res r (m : LockMode) y : Prop :=
  rq_locker r = k ∧ rq_status r = STATUS_NEW ∧ rq_recursiveCount r = 1 ∧ rq_convertMode r = MODE_NONE ∧
  m ≠ MODE_NONE ∧ k ∈ ids ∧ view y res = None ∧ plk y !! (res, k) = None.
Lemma fresh_enabled y res r m : fresh_for res r m y → enabled ids y (LockBegin res r m) = true.
Proof.
  intros (Hk & Hst & Hrc & Hcv & Hm & Hin & Hv & Hp). cbn [enabled]. unfold view in Hv. rewrite Hk, Hv, Hp, Hrc, Hcv. unfold has_status, eqb.
  rewrite Hst, !bool_decide_true, bool_decide_false by done. done.
Qed.
Lemma quiet_ns {A} (m : LM A) s a s' :
  quiet m → m s = Ret (a, s') → ∃ ns, lm_notified s' = lm_notified s ++ ns ∧ ∀ res', (res', k) ∉ ns.
Proof. intros Hq Hx. exists []. rewrite app_nil_r. split; [by eapply Hq|]. intros res'. apply not_elem_of_nil. Qed.
Lemma own_locked y y' res r m result :
  SInv ids y → SInv ids y' → rq_locker r = k → view y res = None →
  locked ids (mgr y) (plk y') (pul y) res (prepared r m) result (mgr y') →
  ∃ r', obtained r m result r' ∧ ∀ res', view y' res' = if decide (res' = res) then Some r' else view y res'.
Proof.
  intros HS HS' Hk Hv Hl. assert (∃ r', obtained r m result r' ∧ rq_locker r' = k ∧ elsewhere res (mgr y) (mgr y') ∧
    ∀ b, present (mgr y') res b ↔ present (mgr y) res b ∨ b = r') as (r' & Hob & Hk' & Hel & Hpr).
  { destruct Hl as [(-> & _ & part & _ & Hel & Hpr)|(-> & _ & _ & Hel & Hpr)]; eexists;
      (split; [|split; [|split; [exact Hel|exact Hpr]]]); try done; [exists part; by left|exists false; by right]. }
  exists r'. split; [done|]. intros res'. case_decide as E; [subst|by apply (view_elsewhere y y' res)].
  apply view_iff; [done|]. split; [|done]. apply Hpr. by right.
Qed.
Lemma own_lock_begin y res r m :
  reachable ids y → fresh_for res r m y →
  ∃ o s', lock_begin res r m (mgr y) = Ret (o, s') ∧
    match o with
    | inl result => ∃ r', obtained r m result r' ∧ own_step res (Some r') y (y <| mgr := s' |>)
    | inr r' => r' = prepared r m ∧ s' = mgr y ∧ reachable ids (y <| plk := <[(res, k) := r']> (plk y) |>)
    end.
Proof.
  intros Hy Hf. pose proof (fresh_enabled y res r m Hf) as He. pose proof (reachable_SInv ids Hids y Hy) as HS.
  destruct (enabled_lock_begin ids y res r m HS He) as (Hin & Hst & Hrc & Hm & Hcv & Hnone & Habs).
  pose proof (wp_lock_begin ids (mgr y) (plk y) (pul y) res r m (HS res) Hnone Hin Habs Hst Hrc Hcv)
    as (o & s' & Hb & Hspec)%wp_Ret. exists o, s'. split; [done|].
  destruct Hf as (Hk & _ & _ & _ & _ & _ & Hv & _).
  destruct o as [result|r'].
  - assert (reachable ids (y <| mgr := s' |>)) as Hy'.
    { apply (reach_call ids y (LockBegin res r m)); [done..|]. cbn [exec]. unfold lift, mbind, M_bind. by rewrite Hb. }
    destruct (own_locked y (y <| mgr := s' |>) res r m result HS (reachable_SInv ids Hids _ Hy') Hk Hv Hspec) as (r' & Hob & Hv').
    exists r'. split; [done|]. split_and!; [done..| |done]. by eapply (quiet_ns (lock_begin res r m)); [apply quiet_lock_begin|].
  - destruct Hspec as [-> ->]. split_and!; [done..|].
    apply (reach_call ids y (LockBegin res r m)); [done..|]. cbn [exec]. unfold lift, mbind, M_bind. rewrite Hb. simpl. rewrite Hk. by destruct y.
Qed.
Lemma own_lock_finish y res r m :
  reachable ids y → plk y !! (res, k) = Some (prepared r m) → view y res = None →
  ∃ result s' r', lock_finish res (prepared r m) (mgr y) = Ret (result, s') ∧ obtained r m result r' ∧
    let y1 := y <| plk := delete (res, k) (plk y) |> in own_step res (Some r') y1 (y1 <| mgr := s' |>).
Proof.
  intros Hy Hr Hv. pose proof (reachable_SInv ids Hids y Hy) as HS.
  destruct (SInv_drop ids y res k _ HS Hr) as (HR & (Hkr & Hst & Hrc & Hm & Hcv & Hp) & Hin & Habs).
  change (rq_locker (prepared r m)) with (rq_locker r) in Hkr.
  pose proof (wp_lock_finish ids Hids (mgr y) (delete (res, k) (plk y)) (pul y) res (prepared r m) HR
    ltac:(simpl; by rewrite Hkr, lookup_delete_eq) ltac:(simpl; by rewrite Hkr) ltac:(simpl; by rewrite Hkr) Hrc Hm Hcv Hp)
    as (result & s' & Hb & Hspec)%wp_Ret.
  set (y1 := y <| plk := delete (res, k) (plk y) |>).
  assert (reachable ids (y1 <| mgr := s' |>)) as Hy'.
  { apply (reach_call ids y (LockFinish res k)); [done|simpl; by rewrite Hr|].
    cbn [exec]. unfold lift, mbind, M_bind, gets, modify, id. simpl. rewrite Hr. simpl. by rewrite Hb. }
  destruct (own_locked y (y1 <| mgr := s' |>) res r m result HS (reachable_SInv ids Hids _ Hy') Hkr Hv Hspec) as (r' & Hob & Hv').
  exists result, s', r'. split_and!; [done..|]. split_and!; [done..| |done].
  by eapply (quiet_ns (lock_finish res (prepared r m))); [apply quiet_lock_finish|].
Qed.
Lemma own_convert y res r m :
  reachable ids y → view y res = Some r → rq_status r = STATUS_GRANTED → (res, k) ∉ pul y →
  rq_recursiveCount r < two32 - 1 → isModeCovered m (rq_mode r) = true ∨ isModeCovered (rq_mode r) m = true →
  ∃ result s', convert res k m (mgr y) = Ret (result, s') ∧
    (result = LOCK_OK ∨ result = LOCK_WAITING ∧ isModeCovered m (rq_mode r) = false) ∧
    own_step res (Some (conversion (counted r 1) m result)) y (y <| mgr := s' |>).
Proof.
  intros Hy Hv Hst Hnp Hmax Hcov. pose proof (reachable_SInv ids Hids y Hy) as HS.
  assert (enabled ids y (Convert res k m) = true) as He.
  { simpl. unfold view in Hv. rewrite Hv. unfold has_status. rewrite Hst, bool_decide_true, bool_decide_false by done.
    rewrite (proj2 (Z.ltb_lt _ _)) by done. simpl. rewrite andb_true_r. by destruct Hcov as [->| ->]; rewrite ?orb_true_r. }
  pose proof Hv as [Hr Hk]%view_iff; [|done]. rewrite <-Hk in Hnp.
  pose proof (wp_convert ids (mgr y) (plk y) (pul y) res r m Hids (HS res) Hr Hst Hnp Hmax Hcov)
    as (result & s' & Hb & [_ Hel] & Hres & Hr' & Hoth)%wp_Ret. rewrite Hk in *.
  exists result, s'. split; [done|].
  assert (reachable ids (y <| mgr := s' |>)) as Hy'.
  { apply (reach_call ids y (Convert res k m)); [done..|]. cbn [exec]. unfold lift, mbind, M_bind. by rewrite Hb. }
  split; [naive_solver|]. split_and!; [done..|by eapply (quiet_ns (convert res k m)); [apply quiet_convert|]|].
  intros res'. case_decide as E; [subst|by apply (view_elsewhere y _ res)].
  apply view_iff; [by apply (reachable_SInv ids Hids)|]. split; [done|].
  unfold conversion. destruct (isModeCovered m _); [done|]. by case_decide.
Qed.
Lemma own_unlock_begin y res r :
  reachable ids y → view y res = Some r → (res, k) ∉ pul y →
  ∃ o s', unlock_begin res k (mgr y) = Ret (o, s') ∧
    match o with
    | Some b => rq_status r = STATUS_GRANTED ∧
        own_step res (if b then None else Some (counted r (-1))) y (y <| mgr := s' |>) ∧
        rq_recursiveCount r = (if b then 1 else rq_recursiveCount r) ∧ (b = false → 2 ≤ rq_recursiveCount r)
    | None => (rq_status r = STATUS_GRANTED → rq_recursiveCount r = 1) ∧
        let y' := y <| mgr := s' |> <| pul := {[(res, k)]} ∪ pul y |> in
        reachable ids y' ∧ lm_notified s' = lm_notified (mgr y) ∧
        ∀ res', view y' res' = if decide (res' = res) then Some (counted r (-1)) else view y res'
    end.
Proof.
  intros Hy Hv Hnp. pose proof (reachable_SInv ids Hids y Hy) as HS.
  assert (enabled ids y (UnlockBegin res k) = true) as He.
  { simpl. unfold view in Hv. by rewrite Hv, bool_decide_false. }
  pose proof Hv as [Hr Hk]%view_iff; [|done].
  pose proof (wp_unlock_begin ids (mgr y) (plk y) (pul y) res (HS res) r Hr ltac:(by rewrite Hk)) as (o & s' & Hb & [Hoth Ho] & Hkept)%wp_Ret.
  rewrite Hk in *. exists o, s'. split; [done|].
  assert (reachable ids (match o with Some _ => y <| mgr := s' |> | None => y <| mgr := s' |> <| pul := {[(res, k)]} ∪ pul y |> end)) as Hy'.
  { apply (reach_call ids y (UnlockBegin res k)); [done..|]. cbn [exec]. unfold lift, mbind, M_bind. rewrite Hb. by destruct o. }
  assert (∀ y', mgr y' = s' → SInv ids y' → ∀ r', present s' res r' → rq_locker r' = k →
    ∀ res', view y' res' = if decide (res' = res) then Some r' else view y res') as Hset.
  { intros y' Hm HS' r' Hr' Hk' res'. case_decide as E; [subst res'|].
    - apply view_iff; [done|]. by rewrite Hm.
    - apply (view_elsewhere y y' res); [|done]. rewrite Hm. by destruct o; destruct Hkept. }
  pose proof (reachable_SInv ids Hids _ Hy') as HS'.
  destruct o as [[]|].
  - destruct Ho as (Hst & Hrc & Hnone). split_and!; [done| |done|done]. split_and!; [done..| |].
    { by eapply (quiet_ns (unlock_begin res k)); [apply quiet_unlock_begin|]. }
    intros res'. case_decide as E; [subst|apply (view_elsewhere y _ res); [apply Hkept|done]]. by apply view_none.
  - destruct Ho as (Hst & Hrc & Hr'). split_and!; [done| |done|done]. split_and!; [done..| |by apply Hset].
    by eapply (quiet_ns (unlock_begin res k)); [apply quiet_unlock_begin|].
  - destruct Ho as (Hrc & Hr'). split; [done|]. cbn zeta.
    split_and!; [done|by apply (quiet_unlock_begin res k (mgr y) None s')|by apply Hset].
Qed.
(** On the bucket: a conversion is cancelled, any other request is gone; nobody is told. *)
Lemma own_unlock_finish y res r :
  reachable ids y → view y res = Some r → (res, k) ∈ pul y →
  ∃ gone s', unlock_finish res k (mgr y) = Ret (gone, s') ∧ gone = (rq_recursiveCount r =? 0) ∧
    let y' := y <| mgr := s' |> <| pul := pul y ∖ {[(res, k)]} |> in
    reachable ids y' ∧ (∃ ns, lm_notified s' = lm_notified (mgr y) ++ ns ∧ ∀ res', (res', k) ∉ ns) ∧
    ∀ res', view y' res' =
      if decide (res' = res) then (if has_status STATUS_CONVERTING r then Some (cancelled r) else None) else view y res'.
Proof.
  intros Hy Hv Hp. pose proof (reachable_SInv ids Hids y Hy) as HS. pose proof Hv as [Hr Hk]%view_iff; [|done].
  pose proof (wp_unlock_finish ids (mgr y) (plk y) (pul y) res (HS res) k Hp)
    as (gone & s' & Hb & [_ Hel] & h & r0 & h1 & Hh & Hr0 & Hk0 & -> & Hgu & ns & h' & Hh' & Hev & Hns)%wp_Ret.
  assert (r0 = r) as ->.
  { assert (view y res = Some r0) as Hv0 by (apply view_iff; [done|]; split; [left; eauto|done]). congruence. }
  eexists _, s'. split; [exact Hb|]. split; [done|]. cbn zeta.
  set (y' := y <| mgr := s' |> <| pul := pul y ∖ {[(res, k)]} |>).
  assert (reachable ids y') as Hy'.
  { apply (reach_call ids y (UnlockFinish res k)); [done|simpl; by rewrite bool_decide_true|].
    cbn [exec]. unfold lift, mbind, M_bind. by rewrite Hb. }
  pose proof (reachable_SInv ids Hids _ Hy') as HS'. destruct (ri_head _ _ _ _ _ (HS res) h Hh) as [[HC _] _].
  assert (∀ b, b ∈ requests h1 → rq_locker b = k → has_status STATUS_CONVERTING r = true ∧ b = cancelled r) as Hleft.
  { intros b Hb' Hkb. destruct Hgu as [Hg Hc _]. unfold requests in Hb'. rewrite elem_of_app, Hg, Hc, elem_of_unlink in Hb'.
    destruct Hb' as [Hb'|[_ Hne]]; [|congruence]. destruct (has_status STATUS_CONVERTING r); [|apply elem_of_unlink in Hb' as [_ ?]; congruence].
    apply elem_of_write in Hb' as [[_ ?]|(b0 & _ & _ & ->)]; [congruence|done]. }
  assert (k ∉ ns) as Hkn.
  { intros (b & Hb' & Hkb & Hw)%(ev_waited _ _ _ Hev). by destruct (Hleft b Hb' Hkb) as [_ ->]. }
  split_and!; [done|..].
  - eexists. split; [exact Hns|]. intros res' (k' & [= -> ->] & Hin)%list_elem_of_fmap. done.
  - intros res'. case_decide as E; [subst res'|by apply (view_elsewhere y _ res)].
    assert (∀ b, present (mgr y') res b → rq_locker b = k → has_status STATUS_CONVERTING r = true ∧ b = cancelled r) as Honly.
    { intros b [(h0 & Hh0 & Hb')|(p & l & Hl & Hb')] Hkb.
      - assert (h0 = h') as -> by (simpl in Hh0; congruence). apply (evolve_requests ns h1) in Hb' as (b0 & Hb0 & ->); [|done].
        rewrite wake_in_locker in Hkb. destruct (Hleft b0 Hb0 Hkb) as [? ->]. split; [done|].
        unfold wake_in. rewrite bool_decide_false; [done|]. simpl. congruence.
      - exfalso. simpl in Hl. rewrite (partitions_unlock_finish _ _ _ _ _ Hb) in Hl.
        destruct (ri_part _ _ _ _ _ (HS res) p l Hl) as (_ & _ & h0 & Hh0 & _ & Hd). assert (h0 = h) as -> by congruence.
        apply (Hd b Hb'). rewrite Hkb, <-Hk0. by apply list_elem_of_fmap_2. }
    destruct (has_status STATUS_CONVERTING r) eqn:Ec; [|apply view_none; [done|]; intros b Hb' Hkb; by destruct (Honly b Hb' Hkb)].
    apply view_iff; [done|]. split; [|done]. left. exists h'. split; [done|]. rewrite (ev_requests _ _ _ Hev).
    apply list_elem_of_fmap. exists (cancelled r). split.
    { unfold wake_in. rewrite bool_decide_false; [done|]. simpl. congruence. }
    apply elem_of_app. left. rewrite (gu_granted _ _ _ Hgu), Ec. apply list_elem_of_fmap. exists r.
    split; [unfold by_locker; by rewrite Z.eqb_refl|]. apply on_granted; [done|]. split; [done|].
    apply bool_decide_eq_true in Ec. congruence.
Qed.
End view.
