(* ===== verification/LockerOps.v ===== *)
(** * One locker among others

    The locker's calls of the manager with whatever the others do in between.  [Idle]: no request of
    the locker waits; then nothing that others do touches its requests.  [Waiting res]: the one for
    [res] waits, and others may grant it, once, with a notification. *)
From S2P Require Import Prelude LockManager LockHeadInv LockHeadOps LockManagerInv LockManagerOps LockManagerProps FastMap Locker LockerView.
Import Mode Head Manager Locking LockerImpl.
Implicit Types (r : LockRequest) (w : World) (res : Z).

(** ** Code that may still be waiting when the schedule ends *)
Definition wpb {A} (m : M World A) (Q : A → World → Prop) w : Prop :=
  match m w with
  | Ret (a, w') => Q a w'
  | Abort line => line = BLOCKED
  end.
Section wpb.
Context {A B : Type}.
Implicit Types (m : M World A) (f : A → M World B).
Lemma wp_wpb m Q w : wp m Q w → wpb m Q w.
Proof. unfold wp, wpb. by destruct (m w) as [[? ?]|]. Qed.
Lemma wpb_ret (a : A) (Q : A → World → Prop) w : wpb (mret a) Q w ↔ Q a w.
Proof. done. Qed.
Lemma wpb_bind m f (Q : B → World → Prop) w : wpb (m ≫= f) Q w ↔ wpb m (λ a, wpb (f a) Q) w.
Proof. unfold wpb, mbind, M_bind. by destruct (m w) as [[a w']|]. Qed.
Lemma wpb_gets (g : World → A) (Q : A → World → Prop) w : wpb (gets g) Q w ↔ Q (g w) w.
Proof. done. Qed.
Lemma wpb_modify (g : World → World) (Q : () → World → Prop) w : wpb (modify g) Q w ↔ Q tt (g w).
Proof. done. Qed.
Lemma wpb_reads (g : World → outcome A) (Q : A → World → Prop) w : owp (g w) (λ a, Q a w) → wpb (reads g) Q w.
Proof. unfold wpb, reads. by destruct (g w). Qed.
Lemma wpb_invariant line (b : World → bool) (Q : () → World → Prop) w : b w = true → Q tt w → wpb (invariant line b) Q w.
Proof. unfold wpb, invariant. by intros ->. Qed.
Lemma wpb_mono m (P Q : A → World → Prop) w : (∀ a w', P a w' → Q a w') → wpb m P w → wpb m Q w.
Proof. unfold wpb. destruct (m w) as [[a w']|]; naive_solver. Qed.
End wpb.
Create Rewrite HintDb wpb.
#[export] Hint Rewrite @wpb_ret @wpb_bind @wpb_gets @wpb_modify : wpb.
Ltac wpb_simpl := repeat (autorewrite with wpb; cbn beta iota).

Section ops.
Context (ids : gset Z) (Hids : Z.of_nat (size ids) < two32 - 2).
Abbreviation k_of w := (_id (w_locker w)).

Definition sview w res : option LockRequest := own_request res w.
Definition tickets_ok w : Prop := ∀ b, 0 ≤ available (holder_of b w) ∧ 0 ≤ others (holder_of b w).
Definition pool (b : bool) w : Z := available (holder_of b w) + others (holder_of b w).

Definition calm w : Prop := ∀ res r, sview w res = Some r → waits r = false.
Definition calm_but res w : Prop := ∀ res' r, res' ≠ res → sview w res' = Some r → waits r = false.
(** What keeps [notify] from being called twice: at most one request waits, and while it does nothing
    has been notified since the notification was cleared. *)
Definition single w : Prop := (calm w ∧ (length (notes w) ≤ 1)%nat) ∨ (notes w = [] ∧ ∃ res, calm_but res w).
Lemma single_notes w : single w → (length (notes w) ≤ 1)%nat.
Proof. intros [[_ ?]|[-> _]]; [done|apply Nat.le_0_l]. Qed.
Definition cleared_ok w : Prop := (_cleared (w_locker w) ≤ length (lm_notified (mgr (w_sys w))))%nat.
Lemma single_waiting w res r : single w → sview w res = Some r → waits r = true → notes w = [].
Proof. intros [[Hi _]|[? _]] Hr Hw; [|done]. by rewrite (Hi res r Hr) in Hw. Qed.
Record Sound w : Prop := mkSound {
  so_reach : reachable ids (w_sys w);
  so_in : k_of w ∈ ids;
  so_cleared : cleared_ok w;
  so_tickets : tickets_ok w;
  so_single : single w }.
(** Between the calls of this locker. *)
Record Base w : Prop := mkBase {
  ba_sound : Sound w;
  ba_plk : ∀ res, plk (w_sys w) !! (res, k_of w) = None;
  ba_pul : ∀ res, (res, k_of w) ∉ pul (w_sys w) }.
Definition Base_reach w (HB : Base w) : reachable ids (w_sys w) := so_reach w (ba_sound w HB).
Definition Idle w : Prop := Base w ∧ calm w.
Definition Waiting res w : Prop := Base w ∧ notes w = [] ∧ (∃ r, sview w res = Some r ∧ waits r = true) ∧ calm_but res w.
(** The locker and the number of tickets are the same. *)
Definition same w w' : Prop := w_locker w' = w_locker w ∧ ∀ b, pool b w' = pool b w.

Lemma Idle_granted w res r : Idle w → sview w res = Some r → rq_status r = STATUS_GRANTED ∧ 1 ≤ rq_recursiveCount r.
Proof.
  intros [HB Hi] Hr. pose proof (Hi res r Hr) as Hw. pose proof (reachable_SInv ids Hids _ (Base_reach w HB)) as HS.
  pose proof Hr as [Hp Hk]%(view_iff ids); [|done]. destruct (ri_present _ _ _ _ _ (HS res) r Hp) as [_ Hok].
  rewrite Hk, bool_decide_false in Hok by apply (ba_pul w HB). unfold req_ok in Hok. unfold waits, has_status in Hw.
  by destruct (rq_status r).
Qed.

(** ** What the others do *)
Lemma env_ticket_ok take h :
  0 ≤ available h → 0 ≤ others h →
  let h' := env_ticket take h in 0 ≤ available h' ∧ 0 ≤ others h' ∧ available h' + others h' = available h + others h.
Proof.
  intros Ha Ho. unfold env_ticket. destruct take.
  - destruct (Z.ltb_spec 0 (available h)); simpl; lia.
  - destruct (Z.ltb_spec 0 (others h)); simpl; lia.
Qed.
Lemma holder_set b b' h w : holder_of b (set_holder b' h w) = if bool_decide (b = b') then h else holder_of b w.
Proof. by destruct b, b'. Qed.
Definition tickets_step w w' : Prop :=
  w_sys w' = w_sys w ∧ w_locker w' = w_locker w ∧ w_sched w' = w_sched w ∧
  (tickets_ok w → tickets_ok w' ∧ ∀ b, pool b w' = pool b w).
Lemma env_tickets_step l : ∀ w,
  tickets_step w (foldl (λ w '(take, writing), set_holder writing (env_ticket take (holder_of writing w)) w) w l).
Proof.
  induction l as [|[take b] l IH]; intros w; simpl; [done|]. unfold tickets_step in *.
  destruct (IH (set_holder b (env_ticket take (holder_of b w)) w)) as (Hs & Hl & Hq & Ht). rewrite Hs, Hl, Hq.
  split_and!; [by destruct b..|]. intros Hok. destruct Ht as [Hok' Hp].
  - intros b'. rewrite holder_set. case_bool_decide; [subst|apply Hok].
    destruct (env_ticket_ok take (holder_of b w)) as (? & ? & _); [apply Hok..|done].
  - split; [done|]. intros b'. rewrite Hp. unfold pool. rewrite holder_set. case_bool_decide; [subst|done].
    by destruct (env_ticket_ok take (holder_of b w)) as (_ & _ & ?); [apply Hok..|].
Qed.
(** What the others may do to this locker's part of the world. *)
Definition moved w w' : Prop := same w w' ∧ steady ids (k_of w) (w_sys w) (w_sys w').
Definition steadyw w w' : Prop := Sound w' ∧ moved w w'.
(** The notifications that arrive are for requests that wait, one for each. *)
Lemma moved_notes w w' :
  cleared_ok w → moved w w' → ∃ ns, notes w' = notes w ++ ns ∧ NoDup ns ∧
    (∀ n, n ∈ ns → n.2 = k_of w ∧ ∃ r, sview w n.1 = Some r ∧ waits r = true) ∧
    ∀ res, sview w' res = woken_by (k_of w) ns res <$> sview w res.
Proof.
  intros Hc ([Hl _] & [_ _ _ (ns & Hn & Hd & Hw & Hv)]). exists (List.filter (λ n, n.2 =? k_of w) ns).
  assert (∀ n, n ∈ List.filter (λ n, n.2 =? k_of w) ns ↔ n ∈ ns ∧ n.2 = k_of w) as Hf.
  { intros n. rewrite list_elem_of_In, filter_In, <-list_elem_of_In, Z.eqb_eq. done. }
  split_and!; [|done|..].
  - unfold notes. rewrite Hl, Hn. rewrite drop_app_le, List.filter_app; done.
  - intros [res k'] [Hin E]%Hf. simpl in *. subst. split; [done|]. by apply Hw.
  - intros res. unfold sview, own_request. rewrite Hl. fold (view (k_of w) (w_sys w') res) (view (k_of w) (w_sys w) res).
    rewrite (Hv res). destruct (view _ _ _) as [r|]; [|done]. simpl. f_equal. unfold woken_by.
    by rewrite (bool_decide_ext ((res, k_of w) ∈ List.filter _ ns) ((res, k_of w) ∈ ns)) by (rewrite Hf; naive_solver).
Qed.
Lemma woken_waits k ns res r : waits (woken_by k ns res r) = true → waits r = true ∧ (res, k) ∉ ns.
Proof. unfold woken_by. case_bool_decide; [by rewrite wake_waits|done]. Qed.
Lemma single_moved w w' : cleared_ok w → moved w w' → single w → single w'.
Proof.
  intros Hc Hm Hs. destruct (moved_notes w w' Hc Hm) as (ns & Hn & Hd & Hw & Hv).
  assert (∀ res r', sview w' res = Some r' → waits r' = true →
    ∃ r, sview w res = Some r ∧ waits r = true ∧ (res, k_of w) ∉ ns) as Hback.
  { intros res r'. rewrite Hv. destruct (sview w res) as [r|]; [|done]. intros [= <-] [? ?]%woken_waits. eauto. }
  destruct Hs as [[Hi Hle]|[Hno [res Hb]]].
  - left. assert (ns = []) as ->.
    { destruct ns as [|n ns]; [done|]. destruct (Hw n ltac:(left)) as (_ & r & Hr & Hwt). by rewrite (Hi _ r Hr) in Hwt. }
    rewrite Hn, app_nil_r. split; [|done]. intros res r' Hr'. apply not_true_is_false. intros (r & Hr & Hwt & _)%(Hback res); [|done].
    by rewrite (Hi res r Hr) in Hwt.
  - assert (∀ n, n ∈ ns → n = (res, k_of w)) as Hall.
    { intros [res' k'] Hin. destruct (Hw _ Hin) as (Hk & r & Hr & Hwt). simpl in *. subst k'.
      destruct (decide (res' = res)) as [->|Hne]; [done|]. by rewrite (Hb res' r) in Hwt. }
    assert (calm_but res w') as Hb'.
    { intros res' r' Hne Hr'. apply not_true_is_false. intros (r & Hr & Hwt & _)%(Hback res'); [|done].
      by rewrite (Hb res' r Hne Hr) in Hwt. }
    destruct ns as [|n ns]; [right; rewrite Hn, Hno; by eauto|]. left.
    assert (n = (res, k_of w)) as -> by (apply Hall; left). assert (ns = []) as ->.
    { destruct ns as [|n ns]; [done|]. assert (n = (res, k_of w)) as -> by (apply Hall; right; left).
      apply NoDup_cons in Hd as [Hd _]. destruct Hd. left. }
    rewrite Hn, Hno. split; [|done]. intros res' r' Hr'. destruct (decide (res' = res)) as [->|Hne]; [|by apply (Hb' res')].
    apply not_true_is_false. intros (r & _ & _ & Hnin)%(Hback res); [|done]. destruct Hnin. left.
Qed.
Lemma steadyw_refl w : Sound w → steadyw w w.
Proof. intros HB. split; [done|]. split; [done|]. by apply steady_refl, HB. Qed.
Lemma env_tick_steady t w : Sound w → steadyw w (env_tick ids t w).
Proof.
  intros [Hr Hin Hc Ht Hsg]. assert (moved w (env_tick ids t w) ∧ tickets_ok (env_tick ids t w)) as [Hm Hok].
  { unfold env_tick. match goal with |- moved w (foldl _ ?w1 _) ∧ _ => set (w1' := w1) end.
    destruct (env_tickets_step (tk_tickets t) w1') as (Hs & Hl & _ & Htk). destruct (Htk Ht) as [Hok Hpool].
    pose proof (env_calls_steady ids Hids (k_of w) (tk_calls t) (w_sys w) Hr) as Hst.
    split; [|done]. split; [by split|]. by rewrite Hs. }
  pose proof (single_moved w _ Hc Hm Hsg) as Hsg'. pose proof Hm as [[Hl _] [Hr' _ _ (ns & Hn & _)]].
  split; [|done]. split; try done; [by rewrite Hl|]. unfold cleared_ok in *. rewrite Hl, Hn, length_app. lia.
Qed.
Lemma Sound_sched w ts : Sound w → Sound (w <| w_sched := ts |>).
Proof. intros []. by split. Qed.
Lemma steady_notes w w' :
  Sound w → steadyw w w' → ∃ ns, notes w' = notes w ++ ns ∧ NoDup ns ∧
    (∀ n, n ∈ ns → n.2 = k_of w ∧ ∃ r, sview w n.1 = Some r ∧ waits r = true) ∧
    ∀ res, sview w' res = woken_by (k_of w) ns res <$> sview w res.
Proof. intros HS [_ Hm]. apply moved_notes; [apply HS|done]. Qed.
Lemma env_tick_sched t w : w_sched (env_tick ids t w) = w_sched w.
Proof.
  unfold env_tick. match goal with |- w_sched (foldl _ ?w1 _) = _ => destruct (env_tickets_step (tk_tickets t) w1) as (_ & _ & -> & _) end.
  done.
Qed.
Lemma wp_notify_check w (Q : () → World → Prop) : (length (notes w) ≤ 1)%nat → Q tt w → wp notify_check Q w.
Proof. intros Hn HQ. unfold notify_check. apply wp_invariant. by rewrite bool_decide_true. Qed.
Lemma wp_interfere_sched w :
  Sound w → wp (interfere ids) (λ _ w', steadyw w w' ∧ w_sched w' = tail (w_sched w)) w.
Proof.
  intros HB. unfold interfere. wp_simpl. destruct (w_sched w) as [|t ts] eqn:E.
  { apply wp_notify_check; [apply single_notes, HB|]. rewrite E. by split; [apply steadyw_refl|]. }
  destruct (env_tick_steady t (w <| w_sched := ts |>)) as (HB' & [Hl Hp] & Hst); [by apply Sound_sched|].
  apply wp_notify_check; [apply single_notes, HB'|].
  split; [|by rewrite env_tick_sched]. split; [done|]. split; [split; [done|]|done]. intros b. rewrite Hp. by destruct b.
Qed.
Lemma wp_interfere w : Sound w → wp (interfere ids) (λ _ w', steadyw w w') w.
Proof. intros HB. eapply wp_mono; [|by apply wp_interfere_sched]. by intros [] w' [? _]. Qed.
Lemma wpb_sleep w : Sound w → wpb (sleep ids) (λ _ w', steadyw w w' ∧ S (length (w_sched w')) = length (w_sched w)) w.
Proof.
  intros HB. unfold sleep. apply wpb_bind. destruct (w_sched w) as [|t ts] eqn:E.
  { unfold wpb, invariant. by rewrite E. }
  apply wpb_invariant; [by rewrite E|]. apply wp_wpb. eapply wp_mono; [|by apply wp_interfere_sched].
  intros [] w' [? ->]. by rewrite E.
Qed.
Lemma Base_steady w w' : Base w → steadyw w w' → Base w'.
Proof.
  intros [_ Hp Hu] (HS & [Hl _] & [_ Hp' Hu' _]). split; [done|..]; intros res; rewrite Hl; [by rewrite Hp'|].
  intros Hx%Hu'. by apply (Hu res).
Qed.
Definition unchanged w w' : Prop := same w w' ∧ notes w' = notes w ∧ ∀ res, sview w' res = sview w res.
Lemma Idle_steady w w' : Idle w → steadyw w w' → Idle w' ∧ unchanged w w'.
Proof.
  intros [HB Hi] Hst. pose proof (Base_steady w w' HB Hst) as HB'.
  destruct (steady_notes w w' (ba_sound w HB) Hst) as (ns & Hn & _ & Hw & Hv).
  assert (ns = []) as ->.
  { destruct ns as [|n ns]; [done|]. destruct (Hw n ltac:(left)) as (_ & r & Hr & Hwt). by rewrite (Hi _ r Hr) in Hwt. }
  assert (∀ res, sview w' res = sview w res) as Hsame.
  { intros res. rewrite Hv. destruct (sview w res); [|done]. simpl. by rewrite woken_nil. }
  destruct Hst as (_ & Hsm & _). split; [split; [done|]|split_and!; [done| |done]].
  - intros res r. rewrite Hsame. apply Hi.
  - by rewrite Hn, app_nil_r.
Qed.
Definition upd_view res (o : option LockRequest) w w' : Prop :=
  ∀ res', sview w' res' = if decide (res' = res) then o else sview w res'.
Lemma Waiting_steady res w w' :
  Waiting res w → steadyw w w' → same w w' ∧
    (Waiting res w' ∧ unchanged w w' ∨
     Idle w' ∧ length (notes w') = 1%nat ∧ ∃ r, sview w res = Some r ∧ upd_view res (Some (wake r)) w w').
Proof.
  intros (HB & Hno & (r & Hr & Hwt) & Hoth) Hst. pose proof (Base_steady w w' HB Hst) as HB'.
  destruct (steady_notes w w' (ba_sound w HB) Hst) as (ns & Hn & Hd & Hw & Hv).
  destruct Hst as (_ & Hsm & _). split; [done|].
  assert (∀ n, n ∈ ns → n = (res, k_of w)) as Hall.
  { intros [res' k'] Hin. destruct (Hw _ Hin) as (Hk & r' & Hr' & Hw'). simpl in *. subst k'.
    destruct (decide (res' = res)) as [->|Hne]; [done|]. by rewrite (Hoth res' r') in Hw'. }
  destruct ns as [|n ns].
  - left. assert (∀ res, sview w' res = sview w res) as Hsame.
    { intros res'. rewrite Hv. destruct (sview w res'); [|done]. simpl. by rewrite woken_nil. }
    rewrite app_nil_r in Hn. split; [|done]. split_and!; [done|congruence|by rewrite Hsame; eauto|].
    intros res' r'. rewrite Hsame. apply Hoth.
  - right. assert (n = (res, k_of w)) as -> by (apply Hall; left).
    assert (ns = []) as ->.
    { destruct ns as [|n ns]; [done|]. assert (n = (res, k_of w)) as -> by (apply Hall; right; left).
      apply NoDup_cons in Hd as [Hd _]. destruct Hd. left. }
    assert (upd_view res (Some (wake r)) w w') as Hu.
    { intros res'. rewrite Hv. case_decide as E; [subst res'|].
      - rewrite Hr. simpl. unfold woken_by. by rewrite bool_decide_true by left.
      - destruct (sview w res') as [r'|]; [|done]. simpl. unfold woken_by. rewrite bool_decide_false; [done|].
        rewrite list_elem_of_singleton. congruence. }
    split_and!; [split; [done|]|by rewrite Hn, Hno|by exists r].
    intros res' r'. rewrite (Hu res'). case_decide; [intros [= <-]; apply wake_waits|by apply Hoth].
Qed.
Lemma wp_interfere_idle w : Idle w → wp (interfere ids) (λ _ w', Idle w' ∧ unchanged w w') w.
Proof. intros HI. eapply wp_mono; [|apply wp_interfere, ba_sound, HI]. intros [] w'. by apply Idle_steady. Qed.

(** ** A call of this locker *)
Lemma wp_on_manager {A} (m : LM A) Q w a s' :
  m (mgr (w_sys w)) = Ret (a, s') → let w' := w <| w_sys := w_sys w <| mgr := s' |> |> in
  (length (notes w') ≤ 1)%nat → Q a w' → wp (on_manager m) Q w.
Proof.
  intros Hm w' Hn HQ. unfold on_manager. apply wp_bind. unfold wp at 1, lift. rewrite Hm. apply wp_bind.
  apply wp_notify_check; [exact Hn|]. by apply wp_ret.
Qed.
Lemma mgr_same w : w <| w_sys := w_sys w <| mgr := mgr (w_sys w) |> |> = w.
Proof. by destruct w as [[] ? ? ? ? ?]. Qed.
(** What is left of [Base] inside of a call. *)
Definition Prep w : Prop :=
  k_of w ∈ ids ∧ (_cleared (w_locker w) ≤ length (lm_notified (mgr (w_sys w))))%nat ∧ tickets_ok w ∧
  (∀ res, plk (w_sys w) !! (res, k_of w) = None) ∧ (∀ res, (res, k_of w) ∉ pul (w_sys w)) ∧ (length (notes w) ≤ 1)%nat.
Lemma Base_Prep w : Base w → Prep w.
Proof. intros [[? ? ? ? ?%single_notes]]. by split_and!. Qed.
(** No request but that for [res] waits, and one that waits does so without a notification. *)
Definition alone res (o : option LockRequest) w : Prop := calm_but res w ∧ ∀ r, o = Some r → waits r = true → notes w = [].
Lemma alone_calm res o w : calm w → (∀ r, o = Some r → waits r = true → notes w = []) → alone res o w.
Proof. intros Hi Ho. split; [|done]. intros res' r _. apply Hi. Qed.
Lemma alone_single res o w w' :
  alone res o w → (length (notes w) ≤ 1)%nat → notes w' = notes w → upd_view res o w w' → single w'.
Proof.
  intros [Hb Ho] Hle Hn Hu. assert (calm_but res w') as Hb'.
  { intros res' r Hne. rewrite (Hu res'), decide_False by done. by apply Hb. }
  unfold single. rewrite Hn. destruct (from_option waits false o) eqn:Hw.
  - right. destruct o as [r|]; [|done]. split; [by eapply Ho|]. by exists res.
  - left. split; [|done]. intros res' r Hr. destruct (decide (res' = res)) as [->|Hne]; [|by apply (Hb' res')].
    rewrite (Hu res), decide_True in Hr by done. by rewrite Hr in Hw.
Qed.
(** The locker has made a step on [res]. *)
Lemma own_notes k w (y' : Sys) ns :
  k_of w = k → cleared_ok w → lm_notified (mgr y') = lm_notified (mgr (w_sys w)) ++ ns → (∀ res', (res', k) ∉ ns) →
  notes (w <| w_sys := y' |>) = notes w.
Proof.
  intros <- Hc Hn Hk. unfold notes. simpl. rewrite Hn, drop_app_le, List.filter_app by done.
  assert (List.filter (λ n, n.2 =? k_of w) ns = []) as ->; [|by rewrite app_nil_r].
  destruct (List.filter _ ns) as [|[res' k'] l] eqn:E; [done|]. assert ((res', k') ∈ List.filter (λ n, n.2 =? k_of w) ns) as Hin'
    by (rewrite E; left). apply list_elem_of_In, filter_In in Hin' as [Hin' Ek]. apply Z.eqb_eq in Ek. simpl in Ek. subst k'.
  apply list_elem_of_In in Hin'. by destruct (Hk res').
Qed.
Lemma own_step_world res o w y' :
  Prep w → alone res o w → own_step ids (k_of w) res o (w_sys w) y' →
  let w' := w <| w_sys := y' |> in Base w' ∧ same w w' ∧ notes w' = notes w ∧ upd_view res o w w'.
Proof.
  intros (Hin & Hc & Ht & Hp & Hu & Hle) Hal (Hr' & Hp' & Hu' & (ns & Hn & Hk) & Hv) w'.
  pose proof (own_notes _ w y' ns eq_refl Hc Hn Hk) as Hnotes. assert (upd_view res o w w') as Hupd by exact Hv.
  split_and!; [split; [split|..]| | |]; try done.
  - unfold cleared_ok in *. simpl. rewrite Hn, length_app. lia.
  - by eapply alone_single.
  - intros res'. simpl. by rewrite Hp'.
  - intros res' Hx%Hu'. by apply (Hu res').
Qed.
Lemma Idle_upd res r w w' :
  calm w → Base w' → upd_view res (Some r) w w' → waits r = false → Idle w'.
Proof. intros Hi HB Hu Hr. split; [done|]. intros res' r'. rewrite (Hu res'). case_decide; [by intros [= <-]|apply Hi]. Qed.
Lemma Idle_drop res w w' : calm w → Base w' → upd_view res None w w' → Idle w'.
Proof. intros Hi HB Hu. split; [done|]. intros res' r'. rewrite (Hu res'). case_decide; [done|apply Hi]. Qed.
Lemma Waiting_upd res r w w' :
  calm w → Base w' → upd_view res (Some r) w w' → waits r = true → notes w' = [] → Waiting res w'.
Proof.
  intros Hi HB Hu Hr Hn. split_and!; [done..| |].
  - exists r. split; [|done]. rewrite (Hu res). by rewrite decide_True.
  - intros res' r' Hne. rewrite (Hu res'). rewrite decide_False by done. apply Hi.
Qed.
Lemma same_trans w w1 w2 : same w w1 → same w1 w2 → same w w2.
Proof. intros [? Hp] [? Hp']. split; [congruence|]. intros b. by rewrite Hp'. Qed.
Lemma upd_after res o w w1 w2 : (∀ res, sview w1 res = sview w res) → upd_view res o w1 w2 → upd_view res o w w2.
Proof. intros Hs Hu res'. rewrite (Hu res'). by case_decide. Qed.
(** *** [manager_lock] *)
Definition new_request w r : Prop :=
  rq_locker r = k_of w ∧ rq_status r = STATUS_NEW ∧ rq_recursiveCount r = 1 ∧ rq_convertMode r = MODE_NONE.
Definition lock_result res r (m : LockMode) w (result : LockResult) w' : Prop :=
  same w w' ∧ ∃ r', obtained r m result r' ∧ upd_view res (Some r') w w' ∧
    (result = LOCK_OK ∧ Idle w' ∨ result = LOCK_WAITING ∧ Waiting res w').
Lemma lock_result_intro res r m w result r' y' :
  Prep w → calm w → notes w = [] → obtained r m result r' →
  own_step ids (k_of w) res (Some r') (w_sys w) y' →
  (length (notes (w <| w_sys := y' |>)) ≤ 1)%nat ∧ lock_result res r m w result (w <| w_sys := y' |>).
Proof.
  intros HP Hi Hn Hob Hst. destruct (own_step_world res (Some r') w y') as (HB & Hs & Hn' & Hu); [done|by apply alone_calm|done|].
  split; [rewrite Hn', Hn; simpl; lia|].
  split; [done|]. exists r'. split_and!; [done..|]. destruct Hob as (part & [[-> ->]|[-> ->]]); [left|right]; (split; [done|]).
  - by eapply Idle_upd.
  - eapply Waiting_upd; [done..|]. congruence.
Qed.
Lemma lock_result_after res r m w w1 result w' :
  unchanged w w1 → lock_result res r m w1 result w' → lock_result res r m w result w'.
Proof.
  intros (Hs & _ & Hv) (Hs' & r' & Hob & Hu & Hr). split; [by eapply same_trans|]. exists r'.
  split_and!; [done|by eapply upd_after|done].
Qed.
Lemma steady_calm w w' : Sound w → calm w → steadyw w w' → notes w' = notes w ∧ ∀ res, sview w' res = sview w res.
Proof.
  intros HS Hi Hst. destruct (steady_notes w w' HS Hst) as (ns & Hn & _ & Hw & Hv). assert (ns = []) as ->.
  { destruct ns as [|n ns]; [done|]. destruct (Hw n ltac:(left)) as (_ & r & Hr & Hwt). by rewrite (Hi _ r Hr) in Hwt. }
  rewrite app_nil_r in Hn. split; [done|]. intros res. rewrite Hv. destruct (sview w res); [|done]. simpl. by rewrite woken_nil.
Qed.
(** The others between the two critical sections of [lock]. *)
Lemma pending_steady w w3 res r :
  Idle w → let w2 := w <| w_sys := w_sys w <| plk := <[(res, k_of w) := r]> (plk (w_sys w)) |> |> in
  steadyw w2 w3 →
  let w4 := w3 <| w_sys := w_sys w3 <| plk := delete (res, k_of w) (plk (w_sys w3)) |> |> in
  Sound w2 → Prep w4 ∧ calm w4 ∧ unchanged w w4 ∧ plk (w_sys w3) !! (res, k_of w) = Some r.
Proof.
  intros [[_ Hp Hu] Hi] w2 Hst w4 HS. destruct (steady_calm w2 w3 HS Hi Hst) as [Hn Hv].
  destruct Hst as ([Hr Hin Hc Ht Hsg] & [Hl Hpool] & [_ Hp' Hu' _]). change (k_of w2) with (k_of w) in *.
  assert (k_of w3 = k_of w) as Hk by (by rewrite Hl). split_and!.
  - split_and!; [done..| | |by apply single_notes].
    + intros res'. simpl. rewrite Hk. destruct (decide (res' = res)) as [->|Hne]; [by rewrite lookup_delete_eq|].
      rewrite lookup_delete_ne, Hp' by congruence. simpl. rewrite lookup_insert_ne by congruence. apply Hp.
    + intros res'. simpl. rewrite Hk, Hu'. apply Hu.
  - intros res' r' Hr'. apply (Hi res' r'). rewrite <-Hr'. symmetry. apply (Hv res').
  - split_and!; [split; [done|]|done..]. intros b. change (pool b w4) with (pool b w3). rewrite Hpool. by destruct b.
  - rewrite Hp'. simpl. by rewrite lookup_insert_eq.
Qed.
Lemma wp_manager_lock w res r m :
  Idle w → notes w = [] → sview w res = None → new_request w r → m ≠ MODE_NONE →
  wp (manager_lock ids res r m) (lock_result res r m w) w.
Proof.
  intros HI Hn Hv (Hk & Hst & Hrc & Hcv) Hm. unfold manager_lock. wp_simpl.
  eapply wp_mono; [|by apply wp_interfere_idle]. intros [] w1 (HI1 & Hun1). pose proof Hun1 as ([Hl1 _] & Hn1 & Hv1).
  pose proof HI1 as [HB1 Hc1].
  destruct (own_lock_begin ids Hids (k_of w1) (w_sys w1) res r m) as (o & s' & Hx & Ho); [apply (Base_reach w1 HB1)| |].
  { split_and!; try done; [congruence|apply HB1|by rewrite <-Hv, <-Hv1|apply (ba_plk w1 HB1)]. }
  wp_simpl. destruct o as [result|r'].
  - destruct Ho as (r' & Hob & Hstep).
    destruct (lock_result_intro res r m w1 result r' _ (Base_Prep w1 HB1) Hc1 ltac:(congruence) Hob Hstep) as [Hle Hlr].
    eapply wp_on_manager; [exact Hx|exact Hle|]. wp_simpl. by apply (lock_result_after _ _ _ w w1).
  - destruct Ho as (-> & -> & Hr2). eapply wp_on_manager; [exact Hx|by rewrite mgr_same; apply single_notes, HB1|].
    unfold on_sys. wp_simpl. change (rq_locker (prepared r m)) with (rq_locker r).
    rewrite Hk, <-Hl1. set (w2 := w1 <| w_sys := _ |> <| w_sys := _ |>).
    assert (w2 = w1 <| w_sys := w_sys w1 <| plk := <[(res, k_of w1) := prepared r m]> (plk (w_sys w1)) |> |>) as E2
      by (unfold w2; by destruct w1 as [[] ? ? ? ? ?]).
    assert (Sound w2) as HS2.
    { rewrite E2. destruct HB1 as [[? ? ? ? ?] _ _]. by split. }
    eapply wp_mono; [|by apply wp_interfere]. intros [] w3 Hst3. rewrite E2 in Hst3, HS2.
    destruct (pending_steady w1 w3 res (prepared r m) HI1 Hst3 HS2) as (HP4 & Hc4 & Hun4 & Hp3).
    assert (k_of w3 = k_of w1) as Hk3 by (destruct Hst3 as (_ & [-> _] & _); done).
    set (w4 := w3 <| w_sys := _ |>) in *.
    destruct (own_lock_finish ids Hids (k_of w1) (w_sys w3) res r m) as (result & s' & r' & Hx' & Hob & Hstep).
    { apply Hst3. }
    { done. }
    { destruct Hun4 as (_ & _ & Hv4). specialize (Hv4 res). unfold sview, own_request in Hv4. simpl in Hv4. rewrite Hk3 in Hv4.
      unfold view. rewrite Hv4. by rewrite <-Hv, <-Hv1. }
    destruct (lock_result_intro res r m w4 result r' (w_sys w4 <| mgr := s' |>)) as [Hle Hlr]; try done.
    { destruct Hun4 as (_ & Hn4 & _). congruence. }
    { simpl. rewrite Hk3. exact Hstep. }
    eapply wp_on_manager; [exact Hx'|exact Hle|]. apply (lock_result_after _ _ _ w w1); [done|].
    by apply (lock_result_after _ _ _ w1 w4).
Qed.
(** *** [manager_convert] *)
Definition may_convert r (m : LockMode) : Prop :=
  rq_recursiveCount r < two32 - 1 ∧ (isModeCovered m (rq_mode r) = true ∨ isModeCovered (rq_mode r) m = true).
Definition convert_result res r (m : LockMode) w (result : LockResult) w' : Prop :=
  same w w' ∧ upd_view res (Some (conversion (counted r 1) m result)) w w' ∧
  (result = LOCK_OK ∧ Idle w' ∨ result = LOCK_WAITING ∧ isModeCovered m (rq_mode r) = false ∧ Waiting res w').
Lemma wp_manager_convert w res r m :
  Idle w → notes w = [] → sview w res = Some r → may_convert r m →
  wp (manager_convert ids res m) (convert_result res r m w) w.
Proof.
  intros HI Hn Hv [Hmax Hcov]. unfold manager_convert. wp_simpl.
  eapply wp_mono; [|by apply wp_interfere_idle]. intros [] w1 (HI1 & Hs1 & Hn1 & Hv1). pose proof HI1 as [HB1 Hc1].
  assert (sview w1 res = Some r) as Hr1 by congruence. destruct (Idle_granted w1 res r HI1 Hr1) as [Hst _].
  unfold the. wp_simpl.
  destruct (own_convert ids Hids (k_of w1) (w_sys w1) res r m) as (result & s' & Hx & Hres & Hstep);
    [apply (Base_reach w1 HB1)|done|done|apply (ba_pul w1 HB1)|done|done|].
  assert (notes w1 = []) as Hno by congruence.
  destruct (own_step_world res _ w1 _ (Base_Prep w1 HB1) (alone_calm res _ w1 Hc1 (λ _ _ _, Hno)) Hstep) as (HB2 & Hs2 & Hn2 & Hu2).
  eapply wp_on_manager; [exact Hx|exact (single_notes _ (so_single _ (ba_sound _ HB2)))|].
  split; [by eapply same_trans|]. split; [by eapply upd_after|].
  assert (waits (counted r 1) = false) as Hw by (unfold waits, has_status; simpl; by rewrite Hst).
  destruct Hres as [->|[-> Hnc]]; [left|right]; (split; [done|]).
  - eapply Idle_upd; [done..|]. unfold conversion. by destruct (isModeCovered _ _).
  - split; [done|]. eapply Waiting_upd; [done..| |congruence]. unfold conversion. simpl. by rewrite Hnc.
Qed.

(** *** [manager_unlock] *)
Lemma steady_at w w' res :
  Sound w → steadyw w w' →
  sview w' res = sview w res ∨ ∃ r, sview w res = Some r ∧ waits r = true ∧ sview w' res = Some (wake r).
Proof.
  intros HS Hst. destruct (steady_notes w w' HS Hst) as (ns & _ & _ & Hw & Hv). rewrite Hv. unfold woken_by.
  case_bool_decide as Hin; [|left; by destruct (sview w res)]. right.
  destruct (Hw _ Hin) as (_ & r & Hr & Hwt). simpl in Hr. exists r. by rewrite Hr.
Qed.
(** The second critical section of [unlock], for a request that is counted down to zero. *)
Definition unlock_second res (k : Z) : M World bool :=
  interfere ids ;;
  gone ← on_manager (unlock_finish res k);
  on_sys (λ y, y <| pul := pul y ∖ {[(res, k)]} |>) ;;
  mret gone.
Definition released res w (gone : bool) w' : Prop :=
  gone = true ∧ same w w' ∧ Idle w' ∧ upd_view res None w w'.
Lemma wp_unlock_second w res r :
  Sound w → (∀ res', plk (w_sys w) !! (res', k_of w) = None) → (∀ res', (res', k_of w) ∈ pul (w_sys w) ↔ res' = res) →
  sview w res = Some r → rq_recursiveCount r = 0 → has_status STATUS_CONVERTING r = false →
  (∀ res' r', res' ≠ res → sview w res' = Some r' → waits r' = false) →
  wp (unlock_second res (k_of w)) (released res w) w.
Proof.
  intros HS Hp Hu Hv Hrc Hcv Hoth. unfold unlock_second. wp_simpl.
  eapply wp_mono; [|by apply wp_interfere]. intros [] w1 Hst.
  assert (∃ r1, sview w1 res = Some r1 ∧ rq_recursiveCount r1 = 0 ∧ has_status STATUS_CONVERTING r1 = false) as (r1 & Hv1 & Hrc1 & Hcv1).
  { destruct (steady_at w w1 res HS Hst) as [->|(r0 & Hr0 & _ & ->)]; [eauto|]. assert (r0 = r) as -> by congruence.
    exists (wake r). unfold wake. split; [done|]. unfold has_status in *. destruct (rq_status r) eqn:E; simpl; by rewrite ?E. }
  assert (∀ res', res' ≠ res → sview w1 res' = sview w res') as Hoth1.
  { intros res' Hne. destruct (steady_at w w1 res' HS Hst) as [->|(r0 & Hr0 & Hw0 & _)]; [done|]. by rewrite (Hoth res' r0) in Hw0. }
  destruct Hst as ([Hr Hin Hc Ht Hsg] & [Hl Hpool] & [_ Hp' Hu' _]). assert (k_of w1 = k_of w) as Hk by (by rewrite Hl).
  assert (view (k_of w) (w_sys w1) res = Some r1) as Hv1' by (rewrite <-Hk; exact Hv1).
  destruct (own_unlock_finish ids Hids (k_of w) (w_sys w1) res r1) as (gone & s' & Hx & -> & Hr2 & (ns & Hns & Hnk) & Hv2);
    [done|done|by apply Hu', Hu|].
  pose proof (own_notes _ w1 (w_sys w1 <| mgr := s' |>) ns Hk Hc Hns Hnk) as Hnt.
  wp_simpl. eapply wp_on_manager; [exact Hx|rewrite Hnt; by apply single_notes|]. unfold on_sys. wp_simpl. rewrite Hcv1 in Hv2.
  set (w2 := w1 <| w_sys := _ |> <| w_sys := _ |>).
  assert (upd_view res None w w2) as Hu2.
  { intros res'. unfold sview, own_request, w2. simpl. rewrite Hk. etransitivity; [apply Hv2|]. case_decide; [done|].
    etransitivity; [|by apply Hoth1]. unfold view, sview, own_request. by rewrite Hk. }
  assert (calm w2) as Hcalm by (intros res' r'; rewrite (Hu2 res'); case_decide; [done|by apply Hoth]).
  split_and!; [by rewrite Hrc1|split; [done|apply Hpool]| |done]. split; [split; [split|..]|]; try done.
  - unfold cleared_ok in *. simpl. rewrite Hns, length_app. lia.
  - left. split; [done|]. change (notes w2) with (notes (w1 <| w_sys := w_sys w1 <| mgr := s' |> |>)). rewrite Hnt. by apply single_notes.
  - intros res'. simpl. by rewrite Hk, Hp'.
  - intros res'. simpl. rewrite Hk. intros [Hx1 Hx2]%elem_of_difference. apply Hu', Hu in Hx1 as ->. by apply Hx2, elem_of_singleton.
Qed.
(** One count less, and none is the end. *)
Definition counted_down r : option LockRequest :=
  if rq_recursiveCount r =? 1 then None else Some (counted r (-1)).
Definition unlocked res r w (gone : bool) w' : Prop :=
  gone = (rq_recursiveCount r =? 1) ∧ same w w' ∧ Idle w' ∧ upd_view res (counted_down r) w w'.
Definition unlock_after_notice res : M World bool :=
  k ← the _id;
  o ← on_manager (unlock_begin res k);
  match o : option bool with
  | Some b => mret b
  | None => on_sys (λ y, y <| pul := {[(res, k)]} ∪ pul y |>) ;; unlock_second res k
  end.
Lemma wp_unlock_after_notice w res r :
  Base w → sview w res = Some r → 1 ≤ rq_recursiveCount r → rq_status r = STATUS_GRANTED ∨ rq_status r = STATUS_WAITING →
  (rq_status r = STATUS_WAITING → rq_recursiveCount r = 1) →
  (∀ res' r', res' ≠ res → sview w res' = Some r' → waits r' = false) →
  wp (unlock_after_notice res) (unlocked res r w) w.
Proof.
  intros HB Hv Hrc Hst Hw1 Hoth. unfold unlock_after_notice, the. wp_simpl.
  destruct (own_unlock_begin ids Hids (k_of w) (w_sys w) res r) as (o & s' & Hx & Ho);
    [apply (Base_reach w HB)|done|apply (ba_pul w HB)|]. destruct o as [gone|].
  - destruct Ho as (Hg & Hstep & H1 & H2).
    assert (gone = (rq_recursiveCount r =? 1)) as Hgone by (destruct gone; [|specialize (H2 eq_refl)]; lia).
    assert (waits r = false) as Hwr by (unfold waits, has_status; by rewrite Hg).
    assert (alone res (if gone then None else Some (counted r (-1))) w) as Hal.
    { split; [exact Hoth|]. destruct gone; [done|]. intros r' [= <-] Hw. change (waits (counted r (-1))) with (waits r) in Hw. congruence. }
    destruct (own_step_world res _ w _ (Base_Prep w HB) Hal Hstep) as (HB' & Hs & _ & Hu).
    eapply wp_on_manager; [exact Hx|exact (single_notes _ (so_single _ (ba_sound _ HB')))|]. wp_simpl.
    assert (calm w) as Hc by (intros res' r'; destruct (decide (res' = res)) as [->|?]; [intros; congruence|by apply Hoth]).
    unfold unlocked, counted_down. rewrite <-Hgone. split_and!; [done..| |by destruct gone].
    destruct gone; [by eapply Idle_drop|]. by eapply Idle_upd.
  - destruct Ho as (H1 & Hr' & Hns & Hv'). pose proof HB as [[_ _ Hc0 _ Hsg] _ _].
    assert (notes (w <| w_sys := w_sys w <| mgr := s' |> |>) = notes w) as Hnt by (unfold notes; simpl; by rewrite Hns).
    eapply wp_on_manager; [exact Hx|rewrite Hnt; by apply single_notes|]. unfold on_sys at 1.
    apply wp_bind, wp_modify. set (w2 := w <| w_sys := _ |> <| w_sys := _ |>).
    assert (rq_recursiveCount r = 1) as E1 by (destruct Hst; auto).
    assert (upd_view res (Some (counted r (-1))) w w2) as Hu2 by exact Hv'.
    assert (same w w2) as Hs2 by done. destruct HB as [[Hr Hin Hc Ht _] Hp Hu].
    change (k_of w) with (k_of w2). eapply wp_mono; [|apply (wp_unlock_second w2 res (counted r (-1)))]; try done.
    + intros gone w' (-> & Hs & HI & Hu'). unfold unlocked, counted_down. rewrite E1. split_and!; [done| |done|].
      * by eapply same_trans.
      * intros res'. rewrite (Hu' res'). case_decide; [done|]. by rewrite (Hu2 res'), decide_False.
    + split; [exact Hr'|done| |done|]; [unfold cleared_ok; simpl; by rewrite Hns|].
      eapply (alone_single res _ w w2); [split; [exact Hoth|]|by apply single_notes|exact Hnt|exact Hu2].
      intros r' [= <-] Hw. by apply (single_waiting w res r).
    + intros res'. simpl. rewrite elem_of_union, elem_of_singleton. split; [intros [?|?]; [congruence|by destruct (Hu res')]|intros ->; by left].
    + by rewrite (Hu2 res), decide_True.
    + simpl. lia.
    + unfold has_status. simpl. destruct Hst as [->| ->]; done.
    + intros res' r' Hne. rewrite (Hu2 res'), decide_False by done. by apply Hoth.
Qed.
Lemma unlocked_after res r w w1 gone w' :
  same w w1 → (∀ res', sview w1 res' = sview w res') → unlocked res r w1 gone w' → unlocked res r w gone w'.
Proof. intros Hs Hv (? & Hs' & ? & Hu). split_and!; [done|by eapply same_trans|done|by eapply upd_after]. Qed.
Lemma wp_manager_unlock w res r :
  Idle w → sview w res = Some r → wp (manager_unlock ids res) (unlocked res r w) w.
Proof.
  intros HI Hv. unfold manager_unlock. wp_simpl. eapply wp_mono; [|by apply wp_interfere_idle].
  intros [] w1 (HI1 & Hs1 & _ & Hv1). assert (sview w1 res = Some r) as Hr1 by congruence.
  destruct (Idle_granted w1 res r HI1 Hr1) as [Hst Hrc]. fold (unlock_after_notice res).
  eapply wp_mono; [|apply (wp_unlock_after_notice w1 res r); try done; [apply HI1|by left|congruence|]].
  - intros gone w'. by apply unlocked_after.
  - intros res' r' _. apply HI1.
Qed.
(** Giving up a request that waits, also when it is granted meanwhile. *)
Lemma wp_manager_give_up w res r :
  Waiting res w → sview w res = Some r → rq_status r = STATUS_WAITING → wp (manager_unlock ids res) (released res w) w.
Proof.
  intros HW Hv Hst. pose proof HW as (HB & _ & _ & Hoth). unfold manager_unlock. wp_simpl.
  assert (rq_recursiveCount r = 1) as E1.
  { pose proof (reachable_SInv ids Hids _ (Base_reach w HB)) as HS. pose proof Hv as [Hp Hk]%(view_iff ids); [|done].
    destruct (ri_present _ _ _ _ _ (HS res) r Hp) as [_ Hok]. rewrite Hk, bool_decide_false in Hok by apply (ba_pul w HB).
    unfold req_ok in Hok. rewrite Hst in Hok. apply Hok. }
  eapply wp_mono; [|apply wp_interfere, (ba_sound w HB)]. intros [] w1 Hstd.
  destruct (Waiting_steady res w w1 HW Hstd) as [Hs1 Hc]. pose proof (Base_steady w w1 HB Hstd) as HB1.
  assert (∃ r1, upd_view res (Some r1) w w1 ∧ rq_recursiveCount r1 = 1 ∧
    (rq_status r1 = STATUS_GRANTED ∨ rq_status r1 = STATUS_WAITING)) as (r1 & Hu1 & Hrc1 & Hst1).
  { destruct Hc as [(_ & _ & _ & Hv1)|(_ & _ & r0 & Hr0 & Hu)].
    - exists r. split_and!; [|done|by right]. intros res'. rewrite Hv1. case_decide; congruence.
    - assert (r0 = r) as -> by congruence. exists (wake r). split; [done|]. unfold wake. rewrite Hst. simpl. auto. }
  fold (unlock_after_notice res).
  eapply wp_mono; [|apply (wp_unlock_after_notice w1 res r1); try done; [by rewrite (Hu1 res), decide_True|lia|]].
  - intros gone w' (-> & Hs & HI & Hu). unfold released, counted_down in *. rewrite Hrc1 in *. split_and!; [done| |done|].
    + by eapply same_trans.
    + intros res'. rewrite (Hu res'). case_decide; [done|]. by rewrite (Hu1 res'), decide_False.
  - intros res' r' Hne. rewrite (Hu1 res'), decide_False by done. by apply Hoth.
Qed.

(** *** The request itself *)
Lemma set_request_same w res r (f : LockRequest → LockRequest) :
  Base w → sview w res = Some r → f r = r → set_request res (k_of w) f (mgr (w_sys w)) = Ret (tt, mgr (w_sys w)).
Proof.
  intros HB Hv Hf. pose proof (reachable_SInv ids Hids _ (Base_reach w HB)) as HS.
  assert (∀ l : list LockRequest, (∀ b, b ∈ l → present (mgr (w_sys w)) res b) → write_request (k_of w) f l = l) as Hl.
  { intros l Hl. unfold write_request. transitivity (id <$> l); [|apply list_fmap_id]. apply list_fmap_ext.
    intros i b Hb%list_elem_of_lookup_2. destruct (by_locker _ b) eqn:E; [|done]. apply by_locker_true in E.
    assert (sview w res = Some b) as Hv' by (apply (view_iff ids); auto). assert (b = r) as -> by congruence. done. }
  unfold set_request, modify. do 2 f_equal. destruct (mgr (w_sys w)) as [H P n] eqn:Em. simpl. f_equal.
  - apply alter_id. intros h Hh. rewrite !Hl; [by destruct h|intros b Hb; left; exists h..]; rewrite ?Hh;
      (split; [done|]); apply elem_of_app; auto.
  - apply alter_id. intros l Hl'. apply Hl. intros b Hb. right. eauto.
Qed.
Lemma Idle_mode w res r : Idle w → sview w res = Some r → rq_mode r ≠ MODE_NONE.
Proof.
  intros HI Hv. destruct (Idle_granted w res r HI Hv) as [Hst _]. destruct HI as [HB _].
  pose proof (reachable_SInv ids Hids _ (Base_reach w HB)) as HS. apply (view_iff ids) in Hv as [[(h & Hh & Hr)|(p & l & Hl & Hr)] _]; [| |done].
  - destruct (ri_head _ _ _ _ _ (HS res) h Hh) as [[HC _] _]. pose proof (hc_granted h HC) as Hg. rewrite Forall_forall in Hg.
    apply Hg. apply on_granted; [done|]. split; [done|]. congruence.
  - destruct (ri_part _ _ _ _ _ (HS res) p l Hl) as (_ & Hok & _). destruct (Hok r Hr) as [(Hi & _) _]. by destruct (rq_mode r).
Qed.
End ops.
