(* ===== verification/LockerInv.v ===== *)
(** * The invariant of a locker

    For storage engines with their own concurrency control ([LockerImpl<false>]; the flush lock of
    MMAPv1 is not taken).  The map of requests holds just the resources the locker has requests
    for, a ticket mode is set just while the global lock is held, releases are only put off inside
    of a write unit of work and there are never more of them than the resource was locked for, and
    no ticket is lost.  [lock], with timeouts and deadlock detection, and [_unlockImpl]. *)
From S2P Require Import Prelude LockManager LockHeadInv LockHeadOps LockManagerInv LockManagerOps LockManagerProps DeadlockDetector FastMap Locker LockerView LockerOps.
Import Mode Head Manager Locking LockerImpl Res.
Implicit Types (r : LockRequest) (w : World) (l : Locker) (res : Z).

Section inv.
Context (ids : gset Z) (Hids : Z.of_nat (size ids) < two32 - 2) (throttled : bool).
Abbreviation k_of w := (_id (w_locker w)).
Abbreviation G := resourceIdGlobal.
Abbreviation requests_of w := (_requests (w_locker w)).
Abbreviation queue w := (_resourcesToUnlockAtEndOfUnitOfWork (w_locker w)).
Abbreviation nesting w := (_wuowNestingLevel (w_locker w)).

Definition occurrences res (q : list Z) : Z := vsize (List.filter (Z.eqb res) q).
Definition mine (b : bool) l : Z :=
  if _shouldAcquireTicket l then
    match ticketHolders throttled (_modeForTicket l) with
    | Some b' => if Bool.eqb b b' then 1 else 0
    | None => 0
    end
  else 0.
(** All tickets of a holder. *)
Definition total (b : bool) w : Z := pool b w + mine b (w_locker w).

Record Core w : Prop := mkCore {
  co_map : FastMap.WF (requests_of w);
  co_keys : ∀ res, res ∈ FastMap.keys (requests_of w) ↔ is_Some (sview w res);
  co_types : ∀ res, is_Some (sview w res) → 1 ≤ getType res ≤ 6;
  co_nesting : 0 ≤ nesting w }.
Definition Ticketed w : Prop := is_Some (sview w G) ↔ _modeForTicket (w_locker w) ≠ MODE_NONE.
Definition Deferred (q : list Z) w : Prop :=
  ∀ res, res ∈ q → res ≠ G ∧ ∃ r, sview w res = Some r ∧ occurrences res q ≤ rq_recursiveCount r.
Record LInv w : Prop := mkLInv {
  li_idle : Idle ids w;
  li_core : Core w;
  li_ticket : Ticketed w;
  li_deferred : Deferred (queue w) w;
  li_outside : nesting w = 0 → queue w = [] }.

(** What the locker holds: mode and count. *)
Definition holding w res : option (LockMode * Z) := (λ r, (rq_mode r, rq_recursiveCount r)) <$> sview w res.
Definition mode_after (o : option LockRequest) (m : LockMode) : LockMode :=
  match o with
  | None => m
  | Some r => if isModeCovered m (rq_mode r) then rq_mode r else m
  end.
Definition count_before (o : option LockRequest) : Z := match o with None => 0 | Some r => rq_recursiveCount r end.
Definition acquires (o : option LockRequest) (m : LockMode) r : Prop :=
  rq_mode r = mode_after o m ∧ rq_recursiveCount r = count_before o + 1.

(** The fields that acquiring and releasing leave alone. *)
Definition kept_locker l l' : Prop :=
  _id l' = _id l ∧ _wuowNestingLevel l' = _wuowNestingLevel l ∧
  _resourcesToUnlockAtEndOfUnitOfWork l' = _resourcesToUnlockAtEndOfUnitOfWork l ∧
  _shouldConflictWithSecondaryBatchApplication l' = _shouldConflictWithSecondaryBatchApplication l ∧
  _shouldAcquireTicket l' = _shouldAcquireTicket l.
Lemma kept_refl l : kept_locker l l.
Proof. done. Qed.
Lemma locker_kept_trans l l1 l2 : kept_locker l l1 → kept_locker l1 l2 → kept_locker l l2.
Proof. unfold kept_locker. intros (? & ? & ? & ? & ?) (? & ? & ? & ? & ?). split_and!; congruence. Qed.
Lemma upd_refl w : ∀ res, upd_view res (sview w res) w w.
Proof. intros res res'. case_decide; congruence. Qed.
Lemma upd_trans res o o' w w1 w2 : upd_view res o w w1 → upd_view res o' w1 w2 → upd_view res o' w w2.
Proof. intros Hu Hu' res'. rewrite (Hu' res'). case_decide; [done|]. by rewrite (Hu res'), decide_False. Qed.
Lemma same_total w w' b : same w w' → total b w' = total b w.
Proof. intros [Hl Hp]. unfold total. by rewrite Hl, Hp. Qed.

(** ** Beginning to acquire: [lockBegin] *)
Definition may_lock res (m : LockMode) w : Prop :=
  m ≠ MODE_NONE ∧ 1 ≤ getType res ≤ 6 ∧
  match sview w res with
  | None => vsize (FastMap.keys (requests_of w)) < FastMap.PreallocCount
  | Some r => may_convert r m ∧ prioritise (fullPriority false res m) r = r
  end.
Definition begun res (m : LockMode) w (result : LockResult) w' : Prop :=
  kept_locker (w_locker w) (w_locker w') ∧ _modeForTicket (w_locker w') = _modeForTicket (w_locker w) ∧
  _clientState (w_locker w') = _clientState (w_locker w) ∧ (∀ b, pool b w' = pool b w) ∧ Core w' ∧
  ∃ r', upd_view res (Some r') w w' ∧ acquires (sview w res) m (wake r') ∧
    (result = LOCK_OK ∧ Idle ids w' ∨
     result = LOCK_WAITING ∧ Waiting ids res w' ∧
       match sview w res with
       | None => rq_status r' = STATUS_WAITING
       | Some r => isModeCovered m (rq_mode r) = false
       end).
Definition cleared w : World :=
  w <| w_locker := w_locker w <| _cleared := length (lm_notified (mgr (w_sys w))) |> |>.
Lemma cleared_Idle w : Idle ids w → Idle ids (cleared w) ∧ notes (cleared w) = [].
Proof.
  intros [[[? ? ? ? ?] ? ?] ?]. assert (notes (cleared w) = []) as Hn by (unfold notes; simpl; by rewrite drop_all).
  split; [|done]. split; [split; [split|..]|]; try done; [unfold cleared_ok; simpl; lia|].
  left. split; [done|]. rewrite Hn. simpl. lia.
Qed.
(** The requests in the map after one more. *)
Lemma Core_add w w' res r' m' c :
  Core w → w_locker w' = w_locker w <| _requests := m' |> <| _cleared := c |> → upd_view res (Some r') w w' →
  FastMap.WF m' → FastMap.keys m' ≡ₚ res :: FastMap.keys (requests_of w) → 1 ≤ getType res ≤ 6 → Core w'.
Proof.
  intros [_ Hk Ht Hn] Hl Hu HW HP Hres. split; rewrite ?Hl; try done.
  - intros res'. simpl. rewrite HP, elem_of_cons, (Hk res'), (Hu res'). case_decide; [naive_solver|]. naive_solver.
  - intros res'. rewrite (Hu res'). case_decide; [by subst|apply Ht].
Qed.
Lemma Core_update w w' res r r' c :
  Core w → w_locker w' = w_locker w <| _cleared := c |> → upd_view res (Some r') w w' → sview w res = Some r → Core w'.
Proof.
  intros [HW Hk Ht Hn] Hl Hu Hr. assert (∀ res', is_Some (sview w' res') ↔ is_Some (sview w res')) as Hs.
  { intros res'. rewrite (Hu res'). case_decide; [subst|done]. rewrite Hr. split; eauto. }
  split; rewrite ?Hl; try done.
  - intros res'. rewrite Hs. apply Hk.
  - intros res'. rewrite Hs. apply Ht.
Qed.
Lemma obtained_acquires r m result r' :
  rq_recursiveCount r = 1 → obtained r m result r' → acquires None m (wake r').
Proof. intros Hr (part & [[_ ->]|[_ ->]]); (split; [done|]); unfold wake; simpl; lia. Qed.
Lemma conversion_acquires r m result :
  rq_status r = STATUS_GRANTED → acquires (Some r) m (wake (conversion (counted r 1) m result)).
Proof.
  intros Hst. unfold conversion, acquires, wake, mode_after. simpl. destruct (isModeCovered m (rq_mode r)); simpl.
  - by rewrite Hst.
  - case_decide; simpl; by rewrite ?Hst.
Qed.
Lemma wp_lockBegin w res m :
  Idle ids w → Core w → may_lock res m w → wp (lockBegin ids false res m) (begun res m w) w.
Proof.
  intros HI HC (Hm & Hty & Hmay). unfold lockBegin, the, change. wp_simpl. destruct (sview w res) as [r|] eqn:Hv.
  - destruct Hmay as [Hcv Hpr].
    rewrite (FastMap.find_present res _ (co_map w HC)) by (apply (co_keys w HC); by rewrite Hv).
    wp_simpl. eapply wp_on_manager; [eapply set_request_same; [done|apply HI|done|done]|rewrite mgr_same; exact (single_notes w (so_single ids w (ba_sound ids w (proj1 HI))))|].
    unfold clear_notify. wp_simpl.
    match goal with |- wp _ _ ?w1 => replace w1 with (cleared w) by (unfold cleared; by destruct w as [[] [] ? ? ? ?]) end.
    destruct (cleared_Idle w HI) as [HI1 Hn1].
    eapply wp_mono; [|by apply (wp_manager_convert ids Hids (cleared w) res r m)]. intros result w' ([Hl Hp] & Hu & Hres).
    destruct (Idle_granted ids Hids w res r HI Hv) as [Hst _].
    split_and!; [by rewrite Hl..|intros b; rewrite Hp; by destruct b|exact (Core_update w w' res r _ _ HC Hl Hu Hv)|].
    eexists. split; [exact Hu|]. split; [rewrite Hv; by apply conversion_acquires|]. rewrite Hv.
    destruct Hres as [?|(? & ? & ?)]; [by left|by right].
  - assert (res ∉ FastMap.keys (requests_of w)) as Hno by (rewrite (co_keys w HC), Hv; by intros [? ?]).
    rewrite (FastMap.find_absent res _ (co_map w HC) Hno).
    pose proof (FastMap.wp_insert res _ (co_map w HC) Hno Hmay) as (idx & m' & Hins & _ & HW' & HP')%wp_Ret.
    wp_simpl. rewrite Hins. wp_simpl. unfold clear_notify. wp_simpl.
    match goal with |- wp _ _ ?w1 => set (w1' := w1) end.
    set (w0 := w <| w_locker := w_locker w <| _requests := m' |> |>). change w1' with (cleared w0).
    assert (Idle ids w0) as HI0 by (destruct HI as [[[? ? ? ? ?] ? ?] ?]; split; [split; [split|..]|]; done).
    destruct (cleared_Idle w0 HI0) as [HI1 Hn1].
    set (r := prioritise _ _). assert (new_request (cleared w0) r) as Hnew by (unfold r, prioritise; by destruct (fullPriority _ _ _)).
    eapply wp_mono; [|by apply (wp_manager_lock ids Hids (cleared w0) res r m)].
    intros result w' ([Hl Hp] & r' & Hob & Hu & Hres).
    split_and!; [by rewrite Hl..|intros b; rewrite Hp; by destruct b|exact (Core_add w w' res r' m' _ HC Hl Hu HW' HP' Hty)|].
    exists r'. split; [done|]. rewrite Hv. split; [eapply obtained_acquires; [|done]; apply Hnew|].
    destruct Hres as [Hres|[-> HWt]]; [by left|right]. split_and!; [done..|]. destruct Hob as (part & [[? _]|[_ ->]]); done.
Qed.

(** ** Waiting *)
Definition waited res r w (result : LockResult) w' : Prop :=
  same w w' ∧
  (result = LOCK_OK ∧ Idle ids w' ∧ upd_view res (Some (wake r)) w w' ∨
   result ≠ LOCK_OK ∧ Waiting ids res w' ∧ ∀ res', sview w' res' = sview w res').
Lemma wpb_notify_wait w res r :
  Waiting ids res w → sview w res = Some r →
  wpb (notify_wait ids) (λ result w', waited res r w result w' ∧ (length (w_sched w') < length (w_sched w))%nat ∧
    (result = LOCK_OK ∨ result = LOCK_TIMEOUT)) w.
Proof.
  intros HW Hr. pose proof HW as (HB & Hn & _). unfold notify_wait. wpb_simpl. unfold notified at 1. rewrite bool_decide_true by done. simpl.
  eapply wpb_mono; [|by apply wpb_sleep, ba_sound]. intros [] w' [Hst Hlen]. wpb_simpl. unfold notified.
  destruct (Waiting_steady ids res w w' HW Hst) as [Hs [(HW' & _ & _ & Hv)|(HI & H1 & r' & Hr' & Hu)]].
  - rewrite bool_decide_true by apply HW'. split; [|split; [lia|by right]]. split; [done|]. by right.
  - assert (r' = r) as -> by congruence. rewrite bool_decide_false by (intros E; by rewrite E in H1).
    split; [|split; [lia|by left]]. split; [done|]. by left.
Qed.
Lemma waited_after res r w w1 result w' :
  same w w1 → (∀ res', sview w1 res' = sview w res') → waited res r w1 result w' → waited res r w result w'.
Proof.
  intros Hs Hv (Hs' & Hc). split; [by eapply same_trans|]. destruct Hc as [(-> & HI & Hu)|(? & HW & Hv')]; [left|right].
  - split_and!; [done..|]. by eapply upd_after.
  - split_and!; [done..|]. intros res'. by rewrite Hv'.
Qed.
(** Why a wait can end without the lock. *)
Definition may_fail (timeout : option Z) (checkDeadlock : bool) (result : LockResult) : Prop :=
  result = LOCK_OK ∨ result = LOCK_TIMEOUT ∧ is_Some timeout ∨ result = LOCK_DEADLOCK ∧ checkDeadlock = true.
Lemma wpb_found_deadlock w (Q : bool → World → Prop) : (∀ b, Q b w) → wpb found_deadlock Q w.
Proof.
  intros HQ. unfold found_deadlock. apply wpb_reads.
  destruct (Deadlock.search_ends (mgr (w_sys w)) (k_of w)) as (d & b & Hd & Hb). rewrite Hd. wp_simpl. rewrite Hb. apply HQ.
Qed.
Lemma wpb_wait_loop timeout checkDeadlock start res : ∀ fuel w r,
  Waiting ids res w → sview w res = Some r → (length (w_sched w) ≤ fuel)%nat →
  wpb (wait_loop ids fuel timeout checkDeadlock start)
    (λ result w', waited res r w result w' ∧ may_fail timeout checkDeadlock result) w.
Proof.
  induction fuel as [|fuel IH]; intros w r HW Hr Hf; cbn [wait_loop]; wpb_simpl;
    (eapply wpb_mono; [|by eapply wpb_notify_wait]); intros result w1 (Hwt & Hlen & Hres); [lia|].
  pose proof Hwt as (Hs1 & Hc). destruct Hc as [(-> & _)|(Hne & HW1 & Hv1)].
  { rewrite bool_decide_true by done. apply wpb_ret. split; [done|]. by left. }
  rewrite bool_decide_false by done. destruct Hres as [->| ->]; [done|]. wpb_simpl.
  assert (∀ dead : bool, (dead = true → checkDeadlock = true) → wpb
    (if dead then mret LOCK_DEADLOCK else
     curTimeMicros ← gets w_now;
     let waitTime := match timeout with
                     | None => DeadlockTimeout
                     | Some t =>
                         let totalBlockTime := Z.quot (curTimeMicros - start) 1000 in
                         if totalBlockTime <? t then Z.min (t - totalBlockTime) DeadlockTimeout else 0
                     end in
     if waitTime =? 0 then mret LOCK_TIMEOUT else wait_loop ids fuel timeout checkDeadlock start)
    (λ result w', waited res r w result w' ∧ may_fail timeout checkDeadlock result) w1) as Hrest.
  { intros [] Hd; wpb_simpl.
    - split; [split; [done|]; by right|]. right. right. auto.
    - cbn zeta. destruct timeout as [t|]; [destruct (_ =? 0); wpb_simpl|].
      + split; [done|]. right. left. eauto.
      + eapply wpb_mono; [|apply (IH w1 r); [done|by rewrite Hv1|lia]]. intros result w' [? ?]. split; [|done]. by eapply waited_after.
      + simpl. eapply wpb_mono; [|apply (IH w1 r); [done|by rewrite Hv1|lia]]. intros result w' [? ?]. split; [|done]. by eapply waited_after. }
  destruct checkDeadlock; [apply wpb_found_deadlock; intros dead; by apply Hrest|]. by apply (Hrest false).
Qed.

(** ** Releasing: [_unlockImpl] *)
(** The iterator stands before the keys [ks]. *)
Definition iter (i : Z) (m : FastMapNoAlloc Z) (ks : list Z) : Prop :=
  (i = FastMap.PreallocCount ∧ ks = []) ∨ (∃ k, FastMap.at_key i k m ∧ ks = k :: FastMap.keys_from (i + 1) m).
Definition forget res l : Locker :=
  if res =? G then l <| _modeForTicket := MODE_NONE |> <| _clientState := kInactive |> else l.
Definition dropped res it w it' w' : Prop :=
  Idle ids w' ∧ (∀ b, total b w' = total b w) ∧
  ∃ m', w_locker w' = forget res (w_locker w) <| _requests := m' |> ∧
    FastMap.WF m' ∧ FastMap.keys (requests_of w) ≡ₚ res :: FastMap.keys m' ∧ res ∉ FastMap.keys m' ∧
    FastMap.keys_from (it + 1) m' = FastMap.keys_from (it + 1) (requests_of w) ∧
    iter it' m' (FastMap.keys_from (it + 1) (requests_of w)).
(** The end of [_unlockImpl], once the request is gone. *)
Definition unlock_gone (resId it : Z) : M World (bool * Z) :=
  (if resId =? G then
     m ← the _modeForTicket;
     invariant 812 (λ _, negb (eqb m MODE_NONE)) ;;
     acquire ← the _shouldAcquireTicket;
     change (λ l, l <| _modeForTicket := MODE_NONE |>) ;;
     (match (if (acquire : bool) then ticketHolders throttled m else None) with
      | Some holder => interfere ids ;; release holder
      | None => mret tt
      end) ;;
     change (λ l, l <| _clientState := kInactive |>)
   else mret tt) ;;
  m ← the _requests;
  r ← reads (λ _, FastMap.remove it m);
  change (λ l, l <| _requests := r.2 |>) ;;
  mret (true, r.1).
(** Changes of the locker that do not matter to the lock manager. *)
Lemma Idle_locker w w' :
  Idle ids w → w_sys w' = w_sys w → _id (w_locker w') = _id (w_locker w) → _cleared (w_locker w') = _cleared (w_locker w) →
  tickets_ok w' → Idle ids w' ∧ ∀ res, sview w' res = sview w res.
Proof.
  intros [[[Hr Hin Hc _ Hsg] Hp Hu] Hi] Hs Hk Hcl Ht. assert (∀ res, sview w' res = sview w res) as Hv.
  { intros res. unfold sview, own_request. by rewrite Hs, Hk. }
  assert (calm w') as Hi' by (intros res r; rewrite Hv; apply Hi).
  split; [|done]. split; [split; [split|..]|]; unfold cleared_ok; rewrite ?Hs, ?Hk, ?Hcl; try done.
  left. split; [done|]. unfold notes. rewrite Hs, Hk, Hcl. by apply single_notes.
Qed.
Lemma mine_nonneg b l : 0 ≤ mine b l.
Proof. unfold mine. destruct (_shouldAcquireTicket l), (ticketHolders throttled (_modeForTicket l)) as [[]|], b; simpl; lia. Qed.
Lemma mine_none b l : _modeForTicket l = MODE_NONE → mine b l = 0.
Proof. unfold mine, ticketHolders. intros ->. by destruct (_shouldAcquireTicket l), throttled. Qed.
Lemma wp_forget w (Q : () → World → Prop) :
  Idle ids w → _modeForTicket (w_locker w) ≠ MODE_NONE →
  (∀ w', Idle ids w' → (∀ res, sview w' res = sview w res) → w_locker w' = forget G (w_locker w) →
    (∀ b, total b w' = total b w) → Q tt w') →
  wp (m ← the _modeForTicket;
     invariant 812 (λ _, negb (eqb m MODE_NONE)) ;;
     acquire ← the _shouldAcquireTicket;
     change (λ l, l <| _modeForTicket := MODE_NONE |>) ;;
     (match (if (acquire : bool) then ticketHolders throttled m else None) with
      | Some holder => interfere ids ;; release holder
      | None => mret tt
      end) ;;
     change (λ l, l <| _clientState := kInactive |>)) Q w.
Proof.
  intros HI Hm HQ. unfold the, change. wp_simpl. split; [by apply negb_true_iff, bool_decide_eq_false|].
  set (w1 := w <| w_locker := _ |>).
  assert (tickets_ok w) as Htk by apply HI.
  destruct (Idle_locker w w1 HI eq_refl eq_refl eq_refl Htk) as [HI1 Hv1].
  assert (∀ b, pool b w1 = pool b w) as Hp1 by done.
  destruct (if _shouldAcquireTicket (w_locker w) then ticketHolders throttled (_modeForTicket (w_locker w)) else None) as [hd|] eqn:Eh; wp_simpl.
  - eapply wp_mono; [|by apply wp_interfere_idle]. intros [] w2 (HI2 & [Hl2 Hp2] & _ & Hv2). unfold release. wp_simpl.
    set (w3 := set_holder hd _ w2). set (w4 := w3 <| w_locker := _ |>).
    assert (w_locker w3 = w_locker w2) as Hl3 by (by destruct hd).
    assert (∀ b, available (holder_of b w4) = available (holder_of b w2) + (if Bool.eqb b hd then 1 else 0) ∧
      others (holder_of b w4) = others (holder_of b w2)) as Hh by (intros []; destruct hd; simpl; lia).
    assert (tickets_ok w2) as Htk2 by apply HI2.
    destruct (Idle_locker w2 w4) as [HI4 Hv4]; try done; [by destruct hd|by unfold w4; simpl; rewrite Hl3..| |].
    { intros b. destruct (Hh b) as [-> ->], (Htk2 b). destruct (Bool.eqb b hd); lia. }
    apply HQ; [done|by intros; rewrite Hv4, Hv2, Hv1| |].
    + unfold w4. simpl. by rewrite Hl3, Hl2.
    + intros b. unfold total. rewrite mine_none by (unfold w4; simpl; by rewrite Hl3, Hl2). unfold mine, pool.
      destruct (Hh b) as [-> ->]. specialize (Hp2 b). rewrite Hp1 in Hp2. unfold pool in Hp2.
      destruct (_shouldAcquireTicket _); [|done]. rewrite Eh. lia.
  - destruct (Idle_locker w1 (w1 <| w_locker := w_locker w1 <| _clientState := kInactive |> |>)) as [HI2 Hv2]; try done.
    apply HQ; [done..|]. intros b. unfold total. rewrite mine_none by done. unfold mine, pool.
    destruct (_shouldAcquireTicket _); [rewrite Eh|]; reflexivity.
Qed.
Lemma wp_unlock_gone w res it :
  Idle ids w → FastMap.WF (requests_of w) → FastMap.at_key it res (requests_of w) →
  (res = G → _modeForTicket (w_locker w) ≠ MODE_NONE) →
  wp (unlock_gone res it) (λ p w', p.1 = true ∧ dropped res it w p.2 w' ∧ ∀ res', sview w' res' = sview w res') w.
Proof.
  intros HI HW Hat HG. unfold unlock_gone.
  assert (∀ w1, Idle ids w1 → (∀ res, sview w1 res = sview w res) → w_locker w1 = forget res (w_locker w) →
    (∀ b, total b w1 = total b w) →
    wp (m ← the _requests; r ← reads (λ _, FastMap.remove it m); change (λ l, l <| _requests := r.2 |>) ;; mret (true, r.1))
      (λ p w', p.1 = true ∧ dropped res it w p.2 w' ∧ ∀ res', sview w' res' = sview w res') w1) as Hrest.
  { intros w1 HI1 Hv1 Hl1 Ht1. unfold the, change. wp_simpl.
    assert (requests_of w1 = requests_of w) as -> by (rewrite Hl1; unfold forget; by destruct (_ =? _)).
    pose proof (FastMap.wp_remove_key it res _ HW Hat) as (it' & m' & Hrm & HW' & HP & Hno & Hkf & Hit)%wp_Ret.
    rewrite Hrm. wp_simpl. set (w2 := w1 <| w_locker := _ |>).
    destruct (Idle_locker w1 w2 HI1 eq_refl eq_refl eq_refl ltac:(apply HI1)) as [HI2 Hv2].
    split; [done|]. split; [|intros; by rewrite Hv2]. split; [done|]. split; [apply Ht1|]. exists m'.
    split_and!; [unfold w2; simpl; by rewrite Hl1|done..|]. rewrite <-Hkf. exact Hit. }
  apply wp_bind. destruct (Z.eqb_spec res G) as [->|Hne].
  - apply wp_forget; [done|by apply HG|]. exact Hrest.
  - apply wp_ret, Hrest; try done. unfold forget. by rewrite (proj2 (Z.eqb_neq _ _) Hne).
Qed.
Lemma dropped_after res it w w1 it' w' : same w w1 → dropped res it w1 it' w' → dropped res it w it' w'.
Proof.
  intros Hs (HI & Ht & m' & Hl & H). split; [done|]. split; [intros b; rewrite Ht; by apply same_total|].
  exists m'. destruct Hs as [<- _]. done.
Qed.
Definition impl_result res r it w (p : bool * Z) w' : Prop :=
  p.1 = (rq_recursiveCount r =? 1) ∧ upd_view res (counted_down r) w w' ∧
  if p.1 then dropped res it w p.2 w' else p.2 = it ∧ same w w' ∧ Idle ids w'.
Lemma wp_unlockImpl w it res r :
  Idle ids w → FastMap.WF (requests_of w) → FastMap.at_key it res (requests_of w) →
  (res = G → _modeForTicket (w_locker w) ≠ MODE_NONE) → sview w res = Some r →
  wp (_unlockImpl ids throttled it) (impl_result res r it w) w.
Proof.
  intros HI HW Hat HG Hr. unfold _unlockImpl. wp_simpl. rewrite (FastMap.at_key_objKey it res) by done. wp_simpl.
  eapply wp_mono; [|by apply (wp_manager_unlock ids Hids w res r)]. intros gone w1 (-> & Hs & HI1 & Hu).
  pose proof Hs as [Hl _]. unfold impl_result, counted_down in *. destruct (rq_recursiveCount r =? 1) eqn:E.
  - fold (unlock_gone res it). eapply wp_mono; [|apply wp_unlock_gone; rewrite ?Hl; done].
    intros [gone it'] w' (Hg & Hd & Hv). simpl in *. subst gone. split; [done|]. split; [|by eapply dropped_after].
    intros res'. by rewrite Hv.
  - wp_simpl. done.
Qed.
Lemma wp_unlockImpl_waiting w it res r :
  Waiting ids res w → FastMap.WF (requests_of w) → FastMap.at_key it res (requests_of w) →
  (res = G → _modeForTicket (w_locker w) ≠ MODE_NONE) → sview w res = Some r → rq_status r = STATUS_WAITING →
  wp (_unlockImpl ids throttled it) (λ p w', upd_view res None w w' ∧ dropped res it w p.2 w') w.
Proof.
  intros HI HW Hat HG Hr Hst. unfold _unlockImpl. wp_simpl. rewrite (FastMap.at_key_objKey it res) by done. wp_simpl.
  eapply wp_mono; [|by eapply (wp_manager_give_up ids Hids w res r)]. intros gone w1 (-> & Hs & HI1 & Hu).
  pose proof Hs as [Hl _]. fold (unlock_gone res it). eapply wp_mono; [|apply wp_unlock_gone; rewrite ?Hl; done].
  intros [gone it'] w' (Hg & Hd & Hv). simpl in *. split; [|by eapply dropped_after]. intros res'. by rewrite Hv.
Qed.

(** ** The parts of the invariant from call to call *)
Lemma forget_kept res l m' : kept_locker l (forget res l <| _requests := m' |>).
Proof. unfold forget. by destruct (_ =? _). Qed.
Lemma dropped_kept res it w it' w' : dropped res it w it' w' → kept_locker (w_locker w) (w_locker w').
Proof. intros (_ & _ & m' & -> & _). apply forget_kept. Qed.
Lemma Core_dropped res it w it' w' : Core w → dropped res it w it' w' → upd_view res None w w' → Core w'.
Proof.
  intros [_ Hk Ht Hn] Hd Hu. destruct (dropped_kept _ _ _ _ _ Hd) as (_ & Hnl & _).
  destruct Hd as (_ & _ & m' & Hl & HW & HP & Hno & _). assert (requests_of w' = m') as Hm by (by rewrite Hl).
  split; rewrite ?Hm, ?Hnl; try done.
  - intros res'. rewrite (Hu res'). specialize (Hk res'). rewrite HP, elem_of_cons in Hk. case_decide as E.
    + subst. split; [done|by intros [? ?]].
    + rewrite <-Hk. split; [by right|]. by intros [?|?].
  - intros res'. rewrite (Hu res'). case_decide; [by intros [? ?]|apply Ht].
Qed.
Lemma Ticketed_dropped res it w it' w' : Ticketed w → dropped res it w it' w' → upd_view res None w w' → Ticketed w'.
Proof.
  unfold Ticketed. intros Ht (_ & _ & m' & -> & _) Hu. rewrite (Hu G). unfold forget.
  destruct (Z.eqb_spec res G) as [->|Hne].
  - rewrite decide_True by done. split; [by intros [? ?]|done].
  - rewrite decide_False by done. done.
Qed.
Lemma Core_same res r r' w w' : Core w → same w w' → sview w res = Some r → upd_view res (Some r') w w' → Core w'.
Proof.
  intros HC [Hl _] Hr Hu. apply (Core_update w w' res r r' (_cleared (w_locker w)) HC); try done.
  rewrite Hl. by destruct (w_locker w).
Qed.
Lemma Ticketed_update res r r' w w' :
  Ticketed w → _modeForTicket (w_locker w') = _modeForTicket (w_locker w) → sview w res = Some r →
  upd_view res (Some r') w w' → Ticketed w'.
Proof.
  unfold Ticketed. intros Ht -> Hr Hu. rewrite (Hu G), <-Ht. case_decide as E; [|done]. rewrite E, Hr. split; eauto.
Qed.
Lemma Ticketed_other res o w w' :
  Ticketed w → _modeForTicket (w_locker w') = _modeForTicket (w_locker w) → res ≠ G →
  upd_view res o w w' → Ticketed w'.
Proof. unfold Ticketed. intros Ht -> Hr Hu. by rewrite (Hu G), decide_False. Qed.
(** Releases that are put off stay covered. *)
Lemma Deferred_more q res o r' w w' :
  Deferred q w → sview w res = o → upd_view res (Some r') w w' → count_before o ≤ rq_recursiveCount r' → Deferred q w'.
Proof.
  intros Hd Ho Hu Hc res' Hq. destruct (Hd res' Hq) as (Hne & r & Hr & Hcount). split; [done|]. rewrite (Hu res').
  case_decide as E; [|eauto]. subst. exists r'. split; [done|]. rewrite Hr in Hc. simpl in Hc. lia.
Qed.

(** ** Acquiring: [lockComplete] and [lock] *)
(** A wait may only be given up for a request that is new; see [cancelled_conversion_loses_the_lock]. *)
Definition may_give_up (timeout : option Z) (checkDeadlock : bool) (o : option LockRequest) (m : LockMode) : Prop :=
  match o with
  | None => True
  | Some r => isModeCovered m (rq_mode r) = true ∨ timeout = None ∧ checkDeadlock = false
  end.
Definition lock_outcome (timeout : option Z) (checkDeadlock : bool) res m w (result : LockResult) w' : Prop :=
  may_fail timeout checkDeadlock result ∧ Idle ids w' ∧ Core w' ∧ kept_locker (w_locker w) (w_locker w') ∧
  (∀ b, total b w' = total b w) ∧
  (result = LOCK_OK ∧ _modeForTicket (w_locker w') = _modeForTicket (w_locker w) ∧
     (∃ r', upd_view res (Some r') w w' ∧ acquires (sview w res) m r') ∨
   result ≠ LOCK_OK ∧ _modeForTicket (w_locker w') = (if res =? G then MODE_NONE else _modeForTicket (w_locker w)) ∧
     sview w res = None ∧ ∀ res', sview w' res' = sview w res').
Lemma begun_total res m w result w' b : begun res m w result w' → total b w' = total b w.
Proof. intros ((_ & _ & _ & _ & Ha) & Hm & _ & Hp & _). unfold total, mine. by rewrite Hp, Hm, Ha. Qed.
Lemma begun_outcome timeout checkDeadlock res m w w' :
  begun res m w LOCK_OK w' → lock_outcome timeout checkDeadlock res m w LOCK_OK w'.
Proof.
  intros Hb. pose proof Hb as (Hk & Hm & Hcs & Hp & HC & r' & Hu & Hacq & [[_ HI]|[? _]]); [|done].
  split_and!; [by left|done..|by intros b; eapply begun_total|]. left. split_and!; [done..|]. exists r'. split; [done|].
  rewrite wake_idle in Hacq; [done|]. apply HI with res. by rewrite (Hu res), decide_True.
Qed.
(** Once the wait is over. *)
Definition lock_end res (result : LockResult) : M World LockResult :=
  (if negb (bool_decide (result = LOCK_OK)) then
     m ← the _requests; _ ← _unlockImpl ids throttled (FastMap.find res m); mret tt
   else mret tt) ;;
  mret result.
Lemma lockComplete_end relock res timeout checkDeadlock w :
  lockComplete_with ids false throttled relock res timeout checkDeadlock w =
  (result ← wait_loop ids (length (w_sched w)) timeout checkDeadlock (w_now w); lock_end res result) w.
Proof.
  unfold lockComplete_with, lock_end, inAWriteUnitOfWork, the, gets, mbind, M_bind, mret, M_ret. simpl.
  destruct (wait_loop _ _ _ _ _ w) as [[result w1]|]; [|done]. by destruct (bool_decide _).
Qed.
Lemma wp_lock_end timeout checkDeadlock res m w w1 r' result w2 :
  begun res m w LOCK_WAITING w1 → may_give_up timeout checkDeadlock (sview w res) m →
  (res = G → _modeForTicket (w_locker w) ≠ MODE_NONE) → sview w1 res = Some r' →
  waited res r' w1 result w2 → may_fail timeout checkDeadlock result →
  wp (lock_end res result) (lock_outcome timeout checkDeadlock res m w) w2.
Proof.
  intros Hb Hgu HG Hr1 (Hs & Hc) Hmf.
  pose proof Hb as (Hk & Hm & Hcs & Hp & HC & r0 & Hu & Hacq & [[? _]|(_ & HW & Hnew)]); [done|].
  assert (r0 = r') as -> by (pose proof (Hu res) as E; rewrite decide_True in E by done; congruence). pose proof Hs as [Hl _]. unfold lock_end.
  destruct Hc as [(-> & HI & Hu2)|(Hne & HW2 & Hv2)].
  - rewrite bool_decide_true by done. simpl. wp_simpl. split_and!; [done|done|by eapply Core_same|by rewrite Hl| |].
    { intros b. rewrite (same_total w1 w2 b Hs). by eapply begun_total. }
    left. split_and!; [done|by rewrite Hl|]. exists (wake r'). split; [by eapply upd_trans|done].
  - rewrite bool_decide_false by done. unfold the. simpl. wp_simpl.
    assert (sview w res = None ∧ rq_status r' = STATUS_WAITING) as [Hnone Hst].
    { destruct (sview w res) as [r|]; [|done]. destruct Hgu as [?|[-> ->]]; [congruence|].
      destruct Hmf as [?|[[_ [? ?]]|[_ ?]]]; done. }
    assert (Core w2) as HC2 by (apply (Core_same res r' r' w1 w2); [done..|]; intros res'; rewrite Hv2; case_decide; congruence).
    assert (sview w2 res = Some r') as Hr2 by (by rewrite Hv2).
    eapply wp_mono; [|eapply (wp_unlockImpl_waiting w2 _ res r'); try done].
    + intros p w' [Hu' Hd]. wp_simpl.
      assert (∀ res', sview w' res' = sview w res') as Hback.
      { intros res'. rewrite (Hu' res'). case_decide; [by subst|]. by rewrite Hv2, (Hu res'), decide_False. }
      split_and!; [done|apply Hd|by eapply Core_dropped| | |].
      * eapply locker_kept_trans; [exact Hk|]. rewrite <-Hl. by eapply dropped_kept.
      * intros b. destruct Hd as (_ & Ht & _). rewrite Ht, (same_total w1 w2 b Hs). by eapply begun_total.
      * right. split_and!; [done| |done..]. destruct Hd as (_ & _ & m' & -> & _). unfold forget. rewrite Hl.
        by destruct (res =? G).
    + apply HC2.
    + apply FastMap.find_at; [apply HC2|]. apply (co_keys w2 HC2). by rewrite Hr2.
    + rewrite Hl, Hm. done.
Qed.
Lemma wpb_lockComplete relock timeout checkDeadlock res m w w1 :
  begun res m w LOCK_WAITING w1 → may_give_up timeout checkDeadlock (sview w res) m →
  (res = G → _modeForTicket (w_locker w) ≠ MODE_NONE) →
  wpb (lockComplete_with ids false throttled relock res timeout checkDeadlock) (lock_outcome timeout checkDeadlock res m w) w1.
Proof.
  intros Hb Hgu HG. pose proof Hb as (_ & _ & _ & _ & _ & r' & Hu & _ & [[? _]|(_ & HW & _)]); [done|].
  assert (sview w1 res = Some r') as Hr1 by (by rewrite (Hu res), decide_True).
  unfold wpb. rewrite lockComplete_end. apply wpb_bind.
  eapply wpb_mono; [|by apply (wpb_wait_loop timeout checkDeadlock (w_now w1) res _ w1 r')].
  intros result w2 [Hwt Hmf]. by eapply wp_wpb, wp_lock_end.
Qed.
Definition wellset res w (result : LockResult) w' : Prop :=
  result = LOCK_OK ∨ ∀ res', sview w' res' = sview w res'.
Lemma outcome_inv timeout checkDeadlock res m w result w' :
  LInv w → res ≠ G → lock_outcome timeout checkDeadlock res m w result w' → LInv w'.
Proof.
  intros [_ _ Ht Hd Ho] Hres (_ & HI & HC & (_ & Hn & Hq & _) & _ & Hc). split; rewrite ?Hq, ?Hn; try done.
  - destruct Hc as [(_ & Hm & r' & Hu & _)|(_ & Hm & _ & Hv)]; [by eapply Ticketed_other|].
    rewrite (proj2 (Z.eqb_neq _ _) Hres) in Hm. unfold Ticketed. by rewrite Hv, Hm.
  - destruct Hc as [(_ & _ & r' & Hu & _ & Hc)|(_ & _ & _ & Hv)].
    + eapply Deferred_more; [done..|]. lia.
    + intros res' Hq'. rewrite Hv. by apply Hd.
Qed.
Lemma wpb_lock timeout checkDeadlock res m w :
  LInv w → res ≠ G → may_lock res m w → may_give_up timeout checkDeadlock (sview w res) m →
  wpb (lock ids false throttled res m timeout checkDeadlock)
    (λ result w', LInv w' ∧ lock_outcome timeout checkDeadlock res m w result w') w.
Proof.
  intros HL Hres Hml Hgu. eapply (wpb_mono _ (lock_outcome timeout checkDeadlock res m w)).
  { intros result w' Ho. split; [by eapply outcome_inv|done]. }
  unfold lock, lock_with. wpb_simpl. apply wp_wpb. eapply wp_mono; [|apply wp_lockBegin; [apply HL..|done]].
  intros result w1 Hb. pose proof Hb as (_ & _ & _ & _ & _ & r' & _ & _ & [[-> _]|[-> _]]).
  - rewrite bool_decide_true by done. apply wpb_ret. by apply begun_outcome.
  - rewrite bool_decide_false by done. wpb_simpl. apply wpb_invariant; [done|]. by apply wpb_lockComplete.
Qed.
End inv.
