(* ===== verification/LockerCalls.v ===== *)
(** * The calls of a locker

    [unlock], which puts releases off in a write unit of work, the global lock with its tickets,
    write units of work, and yielding, each on the invariant of a locker. *)
From stdpp Require Import sorting.
From S2P Require Import Prelude LockManager LockHeadInv LockHeadOps LockManagerInv LockManagerOps LockManagerProps DeadlockDetector FastMap Locker LockerView LockerOps LockerInv.
Import Mode Head Manager Locking LockerImpl Res.
Implicit Types (r : LockRequest) (w : World) (l : Locker) (res : Z).

Section calls.
Context (ids : gset Z) (Hids : Z.of_nat (size ids) < two32 - 2) (throttled : bool).
Abbreviation G := resourceIdGlobal.
Abbreviation requests_of w := (_requests (w_locker w)).
Abbreviation queue w := (_resourcesToUnlockAtEndOfUnitOfWork (w_locker w)).
Abbreviation nesting w := (_wuowNestingLevel (w_locker w)).
Abbreviation LInv := (LInv ids).
Abbreviation total := (total throttled).

(** ** [unlock] *)
Definition delays res (m : LockMode) : bool :=
  bool_decide (getType res ∈ [RESOURCE_COLLECTION; RESOURCE_DATABASE; RESOURCE_METADATA]) && (eqb m MODE_X || eqb m MODE_IX).
Lemma shouldDelayUnlock_spec res m : 1 ≤ getType res ≤ 6 → m ≠ MODE_NONE → shouldDelayUnlock res m = Ret (delays res m).
Proof.
  intros Ht Hm. unfold shouldDelayUnlock, delays, RESOURCE_GLOBAL, RESOURCE_MMAPV1_FLUSH, RESOURCE_MUTEX, RESOURCE_COLLECTION,
    RESOURCE_DATABASE, RESOURCE_METADATA. generalize dependent (getType res). intros t Ht.
  assert (t = 1 ∨ t = 2 ∨ t = 3 ∨ t = 4 ∨ t = 5 ∨ t = 6) as Hc by lia.
  destruct Hc as [->|[->|[->|[->|[->| ->]]]]], m; done.
Qed.
(** Released at once. *)
Definition unlocked_now res r w (gone : bool) w' : Prop :=
  gone = (rq_recursiveCount r =? 1) ∧ Idle ids w' ∧ Core w' ∧ Ticketed w' ∧
  kept_locker (w_locker w) (w_locker w') ∧ (∀ b, total b w' = total b w) ∧ upd_view res (counted_down r) w w' ∧
  (gone = false ∨ res ≠ G → _modeForTicket (w_locker w') = _modeForTicket (w_locker w)).
Lemma impl_unlocked res r it w p w' :
  Core w → Ticketed w → sview w res = Some r → impl_result ids throttled res r it w p w' → unlocked_now res r w p.1 w'.
Proof.
  intros HC Ht Hr (Hg & Hu & Hp). unfold unlocked_now. split; [done|]. unfold counted_down in *. rewrite <-Hg in *. destruct (p.1).
  - split_and!; [apply Hp|by eapply Core_dropped|by eapply Ticketed_dropped|by eapply dropped_kept|apply Hp|done|].
    intros [?|Hne]; [done|]. destruct Hp as (_ & _ & m' & -> & _). unfold forget. by rewrite (proj2 (Z.eqb_neq _ _) Hne).
  - destruct Hp as (_ & Hs & HI). split_and!; [done|by eapply Core_same| |by destruct Hs as [-> _]|by intros; apply same_total|done|].
    + eapply Ticketed_update; [done| |done|done]. by destruct Hs as [-> _].
    + intros _. by destruct Hs as [-> _].
Qed.
Lemma ticket_mode res w r : Ticketed w → sview w res = Some r → res = G → _modeForTicket (w_locker w) ≠ MODE_NONE.
Proof. intros Ht Hr ->. apply Ht. by rewrite Hr. Qed.
Lemma find_own res w r : Core w → sview w res = Some r → FastMap.at_key (FastMap.find res (requests_of w)) res (requests_of w).
Proof. intros HC Hr. apply FastMap.find_at; [apply HC|]. apply (co_keys w HC). by rewrite Hr. Qed.
Lemma wp_unlockImpl_find res r w :
  Idle ids w → Core w → Ticketed w → sview w res = Some r →
  wp (_unlockImpl ids throttled (FastMap.find res (requests_of w))) (λ p, unlocked_now res r w p.1) w.
Proof.
  intros HI HC Ht Hr. eapply wp_mono; [|eapply (wp_unlockImpl ids Hids throttled w _ res r); try done].
  - intros p w' Hp. by eapply impl_unlocked.
  - apply HC.
  - by eapply find_own.
  - by eapply ticket_mode.
Qed.
Lemma wp_unlock_now res r w :
  Idle ids w → Core w → Ticketed w → sview w res = Some r → nesting w = 0 →
  wp (unlock ids throttled res) (unlocked_now res r w) w.
Proof.
  intros HI HC Ht Hr Hn. unfold unlock, inAWriteUnitOfWork, the. wp_simpl. rewrite Hn. simpl. wp_simpl.
  eapply wp_mono; [|by apply (wp_unlockImpl_find res r)]. intros p w' Hp. by wp_simpl.
Qed.
Definition put_off res w : World :=
  w <| w_locker := w_locker w <| _resourcesToUnlockAtEndOfUnitOfWork := queue w ++ [res] |> |>.
Definition puts_off res r w : bool := (0 <? nesting w) && delays res (rq_mode r).
Lemma wp_unlock_core res r w :
  Idle ids w → Core w → Ticketed w → sview w res = Some r →
  wp (unlock ids throttled res)
    (λ gone w', if puts_off res r w then gone = false ∧ w' = put_off res w else unlocked_now res r w gone w') w.
Proof.
  intros HI HC Ht Hr. unfold puts_off. pose proof (co_nesting w HC) as Hn0. destruct (Z.ltb_spec 0 (nesting w)) as [Hn|Hn]; cbn [andb];
    [|apply wp_unlock_now; [done..|lia]].
  unfold unlock, inAWriteUnitOfWork, the. wp_simpl. rewrite (proj2 (Z.ltb_lt _ _) Hn). wp_simpl.
  rewrite (FastMap.at_key_objKey _ res) by (by eapply find_own). wp_simpl. unfold request_of. wp_simpl.
  pose proof (Idle_mode ids Hids w res r HI Hr) as Hm. pose proof (co_types w HC res ltac:(rewrite Hr; eauto)) as Hty.
  unfold sview in Hr. rewrite Hr. wp_simpl. rewrite (shouldDelayUnlock_spec res (rq_mode r) Hty Hm).
  wp_simpl. destruct (delays res (rq_mode r)).
  - unfold change. by wp_simpl.
  - wp_simpl. eapply wp_mono; [|by apply (wp_unlockImpl_find res r)]. intros p w' Hp. by wp_simpl.
Qed.
Lemma occurrences_app res q q' : occurrences res (q ++ q') = occurrences res q + occurrences res q'.
Proof. unfold occurrences, vsize. rewrite List.filter_app, length_app. lia. Qed.
Lemma occurrences_one res res' : occurrences res [res'] = if decide (res = res') then 1 else 0.
Proof. unfold occurrences. simpl. destruct (Z.eqb_spec res res'), (decide (res = res')); done. Qed.
Lemma occurrences_nonneg res q : 0 ≤ occurrences res q.
Proof. unfold occurrences, vsize. lia. Qed.
Lemma occurrences_pos res q : res ∈ q ↔ 0 < occurrences res q.
Proof.
  unfold occurrences, vsize. split.
  - intros Hq. assert (res ∈ List.filter (Z.eqb res) q) as Hf by (apply list_elem_of_In, filter_In; rewrite <-list_elem_of_In, Z.eqb_refl; done).
    destruct (List.filter _ q); [by apply elem_of_nil in Hf|simpl; lia].
  - intros Hl. destruct (List.filter (Z.eqb res) q) as [|x l] eqn:E; [simpl in Hl; lia|].
    assert (x ∈ List.filter (Z.eqb res) q) as Hx by (rewrite E; left). apply list_elem_of_In, filter_In in Hx as [Hx Ex].
    apply Z.eqb_eq in Ex as ->. by apply list_elem_of_In.
Qed.
Lemma Deferred_iff q w :
  Deferred q w ↔ ∀ res, 0 < occurrences res q → res ≠ G ∧ occurrences res q ≤ count_before (sview w res).
Proof.
  unfold Deferred. setoid_rewrite occurrences_pos. split; intros H res Hq; destruct (H res Hq) as [? Hc]; (split; [done|]).
  - destruct Hc as (r & -> & ?). done.
  - destruct (sview w res) as [r|]; simpl in Hc; [eauto|lia].
Qed.
(** The locker still holds the resource: it has been released less often than locked. *)
Definition holds_still res r w : Prop := sview w res = Some r ∧ occurrences res (queue w) < rq_recursiveCount r.
Lemma count_down r : 1 ≤ rq_recursiveCount r → count_before (counted_down r) = rq_recursiveCount r - 1.
Proof. unfold counted_down. destruct (Z.eqb_spec (rq_recursiveCount r) 1); simpl; lia. Qed.
Lemma unlocked_now_inv res r w gone w' : LInv w → holds_still res r w → unlocked_now res r w gone w' → LInv w'.
Proof.
  intros HL [Hr Ho] (_ & HI & HC & Ht & (_ & Hn & Hq & _) & _ & Hu & _). pose proof HL as [HI0 _ _ Hd Hout].
  split; rewrite ?Hn, ?Hq; try done. rewrite Deferred_iff in *. intros res' Hres'. destruct (Hd res' Hres') as [? Hc].
  split; [done|]. rewrite (Hu res'). case_decide as E; [subst|done]. destruct (Idle_granted ids Hids w res r HI0 Hr) as [_ H1].
  rewrite count_down by done. lia.
Qed.
Lemma G_type : getType G = RESOURCE_GLOBAL.
Proof. reflexivity. Qed.
Lemma delays_G m : delays G m = false.
Proof. by destruct m. Qed.
Lemma put_off_inv res r w : LInv w → holds_still res r w → puts_off res r w = true → LInv (put_off res w).
Proof.
  intros [HI HC Ht Hd Ho] [Hr Hc] Hp. apply andb_true_iff in Hp as [Hn Hdl]. apply Z.ltb_lt in Hn.
  destruct (Idle_locker ids w (put_off res w) HI eq_refl eq_refl eq_refl ltac:(apply HI)) as [HI' Hv].
  split; [done| |done| |].
  - destruct HC. by split.
  - rewrite Deferred_iff in *. simpl. intros res'. rewrite occurrences_app, occurrences_one, Hv. case_decide as E.
    + subst res'. intros _. split; [intros ->; by rewrite delays_G in Hdl|]. rewrite Hr. simpl. lia.
    + rewrite Z.add_0_r. apply Hd.
  - simpl. lia.
Qed.
Lemma wp_unlock res r w :
  LInv w → holds_still res r w →
  wp (unlock ids throttled res)
    (λ gone w', LInv w' ∧ if puts_off res r w then gone = false ∧ w' = put_off res w else unlocked_now res r w gone w') w.
Proof.
  intros HL Hh. pose proof HL as [HI HC Ht _ _]. eapply wp_mono; [|apply (wp_unlock_core res r); try done; apply Hh].
  intros gone w' Hw. split; [|done]. destruct (puts_off res r w) eqn:E.
  - destruct Hw as [-> ->]. by eapply put_off_inv.
  - by eapply unlocked_now_inv.
Qed.

(** ** Tickets *)
Definition semaphore (writing got : bool) w w' : Prop :=
  Idle ids w' ∧ w_locker w' = w_locker w ∧ (∀ res, sview w' res = sview w res) ∧
  ∀ b, pool b w' = pool b w - (if got && Bool.eqb b writing then 1 else 0).
Lemma wp_sem_trywait writing w :
  Idle ids w → wp (sem_trywait writing) (λ got w', semaphore writing got w w' ∧ w_sched w' = w_sched w) w.
Proof.
  intros HI. assert (tickets_ok w) as Ht by apply HI. unfold sem_trywait. wp_simpl.
  destruct (Z.ltb_spec 0 (available (holder_of writing w))) as [Ha|Ha]; wp_simpl.
  - set (w' := set_holder writing _ w). split; [|by destruct writing].
    assert (tickets_ok w') as Ht' by (intros b; specialize (Ht b); destruct b, writing; simpl in *; lia).
    destruct (Idle_locker ids w w' HI) as [HI' Hv]; [by destruct writing..|done|].
    split_and!; [done|by destruct writing|done|]. intros b. unfold pool. destruct b, writing; simpl; lia.
  - split; [|done]. split_and!; try done. intros b. simpl. lia.
Qed.
Lemma semaphore_after writing got w w1 w' : unchanged w w1 → semaphore writing got w1 w' → semaphore writing got w w'.
Proof.
  intros ([Hl Hp] & _ & Hv) (HI & Hl' & Hv' & Hp'). split_and!; [done|congruence| |].
  - intros res. by rewrite Hv'.
  - intros b. by rewrite Hp', Hp.
Qed.
Lemma semaphore_failed writing w w' : semaphore writing false w w' → same w w' ∧ ∀ res, sview w' res = sview w res.
Proof. intros (_ & Hl & Hv & Hp). split; [split; [done|]|done]. intros b. rewrite Hp. simpl. lia. Qed.
Lemma wpb_sem_wait writing until : ∀ fuel w,
  Idle ids w → (length (w_sched w) ≤ fuel)%nat →
  wpb (sem_wait ids fuel writing until) (λ got w', semaphore writing got w w' ∧ (until = None → got = true)) w.
Proof.
  induction fuel as [|fuel IH]; intros w HI Hf; cbn [sem_wait]; wpb_simpl; apply wp_wpb;
    (eapply wp_mono; [|by apply wp_sem_trywait]); intros [] w1 [Hs Hsc]; try (apply wpb_ret; by split); wpb_simpl;
    (destruct (match until with Some t => t <=? w_now w1 | None => false end) eqn:Eu;
      [apply wpb_ret; split; [done|]; by destruct until|]); wpb_simpl;
    pose proof Hs as (HI1 & _); (eapply wpb_mono; [|by apply wpb_sleep, ba_sound, HI1]); intros [] w2 [Hst Hlen].
  { rewrite Hsc in Hlen. lia. }
  destruct (Idle_steady ids w1 w2 HI1 Hst) as [HI2 (Hs2 & _ & Hv2)].
  eapply wpb_mono; [|apply (IH w2 HI2); rewrite Hsc in Hlen; lia]. intros got w' [(HI' & Hl' & Hv' & Hp') Hu]. split; [|done].
  destruct (semaphore_failed _ _ _ Hs) as [Hs1 Hv1]. pose proof (same_trans _ _ _ Hs1 Hs2) as [Hl Hp].
  split_and!; [done|congruence|by intros; rewrite Hv', Hv2, Hv1|]. intros b. by rewrite Hp', Hp.
Qed.
Lemma wpb_waitForTicket writing until w :
  Idle ids w →
  wpb (interfere ids ;; n ← gets (λ w, length (w_sched w)); sem_wait ids n writing until)
    (λ got w', semaphore writing got w w' ∧ (until = None → got = true)) w.
Proof.
  intros HI. wpb_simpl. apply wp_wpb. eapply wp_mono; [|by apply wp_interfere_idle]. intros [] w1 [HI1 Hun]. wpb_simpl.
  eapply wpb_mono; [|by apply wpb_sem_wait]. intros got w' [Hs Hu]. split; [|done]. by eapply semaphore_after.
Qed.

(** ** The global lock *)
(** With a ticket if there has to be one, or without because it took too long. *)
Definition ticketed (timeout : option Z) w (got : bool) w1 : Prop :=
  Idle ids w1 ∧ kept_locker (w_locker w) (w_locker w1) ∧ requests_of w1 = requests_of w ∧
  (∀ res, sview w1 res = sview w res) ∧ (∀ b, total b w1 = total b w) ∧
  (got = true ∧ _modeForTicket (w_locker w1) ≠ MODE_NONE ∨
   got = false ∧ is_Some timeout ∧ _modeForTicket (w_locker w1) = MODE_NONE ∧ _modeForTicket (w_locker w) = MODE_NONE).
Definition take_ticket (m : LockMode) (timeout : option Z) : M World bool :=
  acquire ← the _shouldAcquireTicket;
  let reader := isSharedLockMode m in
  got ← (match (if (acquire : bool) then ticketHolders throttled m else None) with
         | Some holder =>
             change (λ l, l <| _clientState := if reader then kQueuedReader else kQueuedWriter |>) ;;
             match timeout with
             | None => waitForTicket ids holder
             | Some ms => now ← gets w_now; waitForTicketUntil ids holder (now + ms * 1000)
             end
         | None => mret true
         end);
  if (got : bool) then
    change (λ l, l <| _clientState := if reader then kActiveReader else kActiveWriter |> <| _modeForTicket := m |>) ;; mret true
  else change (λ l, l <| _clientState := kInactive |>) ;; mret false.
Lemma set_mode_ticketed timeout m cs w w1 :
  Idle ids w1 → w_locker w1 = w_locker w <| _clientState := cs |> → (∀ res, sview w1 res = sview w res) →
  m ≠ MODE_NONE → _modeForTicket (w_locker w) = MODE_NONE →
  (∀ b, pool b w1 = pool b w - mine throttled b (w_locker w <| _modeForTicket := m |>)) → ∀ cs',
  ticketed timeout w true (w1 <| w_locker := w_locker w1 <| _clientState := cs' |> <| _modeForTicket := m |> |>).
Proof.
  intros HI Hl Hv Hm Hm0 Hp cs'. set (w2 := w1 <| w_locker := _ |>).
  destruct (Idle_locker ids w1 w2 HI eq_refl eq_refl eq_refl ltac:(apply HI)) as [HI2 Hv2]. unfold ticketed.
  split_and!; [done|unfold w2; simpl; by rewrite Hl|unfold w2; simpl; by rewrite Hl|intros; by rewrite Hv2, Hv| |by left].
  intros b. unfold LockerInv.total. change (pool b w2) with (pool b w1). rewrite Hp, (mine_none _ b (w_locker w)) by done.
  unfold mine, w2. simpl. rewrite Hl. simpl. lia.
Qed.
Lemma wpb_take_ticket m timeout w :
  Idle ids w → _modeForTicket (w_locker w) = MODE_NONE → m ≠ MODE_NONE → wpb (take_ticket m timeout) (ticketed timeout w) w.
Proof.
  intros HI Hm0 Hm. unfold take_ticket, the, change. wpb_simpl.
  destruct (if _shouldAcquireTicket (w_locker w) then ticketHolders throttled m else None) as [hd|] eqn:Eh; wpb_simpl.
  - set (w1 := w <| w_locker := _ |>).
    destruct (Idle_locker ids w w1 HI eq_refl eq_refl eq_refl ltac:(apply HI)) as [HI1 Hv1].
    assert (∀ until, (timeout = None → until = None) → wpb
      (interfere ids ;; n ← gets (λ w, length (w_sched w)); sem_wait ids n hd until)
      (λ got w2, wpb (if got then
         modify (λ w, w <| w_locker := w_locker w <| _clientState := if isSharedLockMode m then kActiveReader else kActiveWriter |>
           <| _modeForTicket := m |> |>) ;; mret true
       else modify (λ w, w <| w_locker := w_locker w <| _clientState := kInactive |> |>) ;; mret false)
         (ticketed timeout w) w2) w1) as Hrest.
    { intros deadline Hun. eapply wpb_mono; [|by apply wpb_waitForTicket]. intros got w2 [(HI2 & Hl2 & Hv2 & Hp2) Hu].
      assert (∀ b, pool b w2 = pool b w - (if got && Bool.eqb b hd then 1 else 0)) as Hp by (intros b; rewrite Hp2; by destruct b).
      destruct got; wpb_simpl.
      - eapply set_mode_ticketed; [done|exact Hl2|intros; by rewrite Hv2, Hv1|done|done|]. intros b. rewrite Hp. f_equal.
        unfold mine. simpl. destruct (_shouldAcquireTicket _); [|done]. by rewrite Eh.
      - set (w3 := w2 <| w_locker := _ |>).
        destruct (Idle_locker ids w2 w3 HI2 eq_refl eq_refl eq_refl ltac:(apply HI2)) as [HI3 Hv3].
        split_and!; [done|by unfold w3; simpl; rewrite Hl2|by unfold w3; simpl; rewrite Hl2|by intros; rewrite Hv3, Hv2, Hv1| |].
        + intros b. unfold LockerInv.total. change (pool b w3) with (pool b w2). rewrite Hp.
          rewrite !mine_none by first [done|unfold w3; simpl; by rewrite Hl2]. simpl. lia.
        + right. split_and!; [done| |unfold w3; simpl; by rewrite Hl2|done].
          destruct timeout; [eauto|]. by specialize (Hu (Hun eq_refl)). }
    destruct timeout as [ms|]; wpb_simpl; by apply Hrest.
  - apply (set_mode_ticketed timeout m (_clientState (w_locker w)) w w); try done.
    + by destruct (w_locker w).
    + intros b. unfold mine. simpl. destruct (_shouldAcquireTicket _); [rewrite Eh|]; lia.
Qed.
Lemma ticketed_Core timeout w got w1 : Core w → ticketed timeout w got w1 → Core w1.
Proof.
  intros [HW Hk Ht Hn] (_ & (_ & Hnl & _) & Hrq & Hv & _). split; rewrite ?Hrq, ?Hnl; try done; intros res; rewrite Hv; auto.
Qed.
(** Either no ticket, or as far as the request. *)
Definition global_begun (timeout : option Z) m w (result : LockResult) w' : Prop :=
  (result = LOCK_TIMEOUT ∧ ticketed timeout w false w') ∨
  ∃ w1, ticketed timeout w true w1 ∧ Core w1 ∧ begun ids G m w1 result w' ∧ (result = LOCK_OK ∨ result = LOCK_WAITING).
Lemma wpb_lockGlobalBegin timeout m w :
  LInv w → may_lock G m w → wpb (lockGlobalBegin ids false throttled m timeout) (global_begun timeout m w) w.
Proof.
  intros HL Hml. pose proof HL as [HI HC Ht _ _]. unfold lockGlobalBegin.
  apply wpb_bind, wpb_gets, wpb_bind.
  assert (∀ (got : bool) w1, ticketed timeout w got w1 → wpb
    (if got then
       result ← lockBegin ids false G m;
       if bool_decide (result = LOCK_OK) then mret LOCK_OK else
       _ ← invariant 333 (λ _, bool_decide (result = LOCK_WAITING));
       mret result
     else mret LOCK_TIMEOUT) (global_begun timeout m w) w1) as Hrest.
  { intros [] w1 Htk; [|apply wpb_ret; by left]. pose proof (ticketed_Core timeout w true w1 HC Htk) as HC1. wpb_simpl. apply wp_wpb.
    pose proof Htk as (HI1 & _ & Hrq & Hv1 & _). eapply wp_mono; [|apply wp_lockBegin; [done..|]].
    - intros result w' Hb. pose proof Hb as (_ & _ & _ & _ & _ & r' & _ & _ & [[-> _]|[-> _]]).
      + rewrite bool_decide_true by done. apply wpb_ret. right. exists w1. auto.
      + rewrite bool_decide_false by done. wpb_simpl. apply wpb_invariant; [done|]. apply wpb_ret. right. exists w1. auto.
    - unfold may_lock in *. by rewrite Hrq, Hv1. }
  destruct (eqb (_modeForTicket (w_locker w)) MODE_NONE) eqn:Em; [apply bool_decide_eq_true in Em|apply bool_decide_eq_false in Em].
  - change (wpb (take_ticket m timeout) (λ got, wpb (if got then
       result ← lockBegin ids false G m;
       if bool_decide (result = LOCK_OK) then mret LOCK_OK else
       _ ← invariant 333 (λ _, bool_decide (result = LOCK_WAITING));
       mret result
     else mret LOCK_TIMEOUT) (global_begun timeout m w)) w). eapply wpb_mono; [|apply wpb_take_ticket; [done|done|apply Hml]]. exact Hrest.
  - apply wpb_ret, (Hrest true). split_and!; [done..|]. by left.
Qed.
Definition global_outcome (timeout : option Z) m w (result : LockResult) w' : Prop :=
  may_fail timeout false result ∧ LInv w' ∧ kept_locker (w_locker w) (w_locker w') ∧ (∀ b, total b w' = total b w) ∧
  (result = LOCK_OK ∧ (∃ r', upd_view G (Some r') w w' ∧ acquires (sview w G) m r') ∨
   result ≠ LOCK_OK ∧ ∀ res', sview w' res' = sview w res').
Lemma timeout_outcome timeout m w w' : LInv w → ticketed timeout w false w' → global_outcome timeout m w LOCK_TIMEOUT w'.
Proof.
  intros HL Htk. pose proof HL as [_ HC Ht Hd Ho]. pose proof (ticketed_Core _ _ _ _ HC Htk) as HC'.
  destruct Htk as (HI & Hk & _ & Hv & Htt & [[? _]|(_ & Hto & Hm' & Hm)]); [done|]. pose proof Hk as (_ & Hn & Hq & _).
  split_and!; [right; by left| |done..|by right]. split; rewrite ?Hn, ?Hq; try done.
  - unfold Ticketed in *. by rewrite Hv, Ht, Hm', Hm.
  - intros res Hres. rewrite Hv. by apply Hd.
Qed.
Lemma lock_global_outcome timeout m w w1 result w' :
  LInv w → ticketed timeout w true w1 → lock_outcome ids throttled timeout false G m w1 result w' →
  global_outcome timeout m w result w'.
Proof.
  intros [_ _ _ Hd Ho] (_ & Hk & _ & Hv & Htt & [[_ Hm]|[? _]]) Hout; [|done].
  destruct Hout as (Hmf & HI & HC & Hk' & Htt' & Hc). pose proof (locker_kept_trans _ _ _ Hk Hk') as Hkk.
  pose proof Hkk as (_ & Hn & Hq & _).
  split; [done|]. split; [|split; [done|split; [intros b; by rewrite Htt'|]]].
  - split; rewrite ?Hn, ?Hq; try done.
    + unfold Ticketed. destruct Hc as [(_ & -> & r' & Hu & _)|(_ & -> & Hnone & Hv')].
      * rewrite (Hu G), decide_True by done. split; eauto.
      * rewrite Hv', Hnone, Z.eqb_refl. split; [by intros [? ?]|done].
    + intros res Hres. destruct (Hd res Hres) as (Hne & r & Hr & Hcount). split; [done|]. exists r. split; [|done]. rewrite <-Hv in Hr.
      destruct Hc as [(_ & _ & r' & Hu & _)|(_ & _ & _ & Hv')]; [by rewrite (Hu res), decide_False|by rewrite Hv'].
  - destruct Hc as [(-> & _ & r' & Hu & Hacq)|(Hne & _ & _ & Hv')]; [left|right]; (split; [done|]).
    + exists r'. rewrite <-Hv. split; [|done]. intros res'. rewrite (Hu res'). by case_decide.
    + intros res'. by rewrite Hv'.
Qed.
(** Both halves, as [lockGlobal] and the guards of d_concurrency.cpp put them together. *)
Lemma wpb_lock_global timeout m w (Q : LockResult → World → Prop) :
  LInv w → may_lock G m w → may_give_up timeout false (sview w G) m →
  (∀ result w', global_outcome timeout m w result w' → Q result w') →
  wpb (lockGlobalBegin ids false throttled m timeout) (λ result, wpb
    (if bool_decide (result = LOCK_WAITING) then lockGlobalComplete ids false throttled timeout else mret result) Q) w.
Proof.
  intros HL Hml Hgu HQ. eapply wpb_mono; [|by apply wpb_lockGlobalBegin].
  intros result w' [[-> Htk]|(w1 & Htk & HC1 & Hb & [->| ->])].
  - rewrite bool_decide_false by done. apply wpb_ret, HQ. by apply timeout_outcome.
  - rewrite bool_decide_false by done. apply wpb_ret, HQ. eapply lock_global_outcome; [done..|]. by apply begun_outcome.
  - rewrite bool_decide_true by done. unfold lockGlobalComplete, lockComplete.
    eapply wpb_mono; [|eapply (wpb_lockComplete ids Hids throttled); [done|..]].
    + intros result w2 Hout. by eapply HQ, lock_global_outcome.
    + destruct Htk as (_ & _ & _ & Hv & _). by rewrite Hv.
    + intros _. by destruct Htk as (_ & _ & _ & _ & _ & [[_ ?]|[? _]]).
Qed.
Lemma wpb_lockGlobal m w :
  LInv w → may_lock G m w → wpb (lockGlobal ids false throttled m)
    (λ result w', result = LOCK_OK ∧ global_outcome None m w result w') w.
Proof.
  intros HL Hml. unfold lockGlobal. apply wpb_bind.
  eapply wpb_mono; [intros result w1 H; apply wpb_bind; exact H|]. apply wpb_lock_global; [done..| |].
  - unfold may_give_up. destruct (sview w G); [by right|done].
  - intros result w' Ho. pose proof Ho as ([->|[[_ [? ?]]|[_ ?]]] & _); [|done..]. rewrite bool_decide_true by done.
    unfold lockMMAPV1Flush. simpl. wpb_simpl. done.
Qed.

(** *** [unlockGlobal] *)
Definition stays res : bool := (getType res =? RESOURCE_GLOBAL) || (getType res =? RESOURCE_MUTEX).
(** Everything that [swept] names is gone. *)
Definition swept (f : Z → bool) w w' : Prop :=
  Idle ids w' ∧ Core w' ∧ Ticketed w' ∧ kept_locker (w_locker w) (w_locker w') ∧ (∀ b, total b w' = total b w) ∧
  ∀ res, sview w' res = if f res then None else sview w res.
Lemma swept_nothing w : Idle ids w → Core w → Ticketed w → swept (λ _, false) w w.
Proof. done. Qed.
Lemma swept_ext f g w w' : (∀ res, f res = g res) → swept f w w' → swept g w w'.
Proof. intros Hfg (? & ? & ? & ? & ? & Hv). split_and!; try done. intros res. by rewrite <-Hfg. Qed.
Lemma swept_one res r it w p w' :
  Core w → Ticketed w → sview w res = Some r → rq_recursiveCount r = 1 → impl_result ids throttled res r it w p w' →
  p.1 = true ∧ swept (λ res', bool_decide (res' = res)) w w' ∧ dropped ids throttled res it w p.2 w'.
Proof.
  intros HC Ht Hr H1 Hi. pose proof (impl_unlocked res r it w p w' HC Ht Hr Hi) as (Hg & HI' & HC' & Ht' & Hk & Htt & Hu & _).
  destruct Hi as (_ & _ & Hd). unfold counted_down in Hu. rewrite H1 in Hg, Hu. simpl in *. rewrite Hg in *.
  split; [done|]. split; [|done]. split_and!; try done. intros res'. rewrite (Hu res'). by repeat case_decide || case_bool_decide.
Qed.
Lemma swept_trans f g w w1 w2 : swept f w w1 → swept g w1 w2 → swept (λ res, f res || g res) w w2.
Proof.
  intros (_ & _ & _ & Hk & Htt & Hv) (? & ? & ? & Hk' & Htt' & Hv'). split_and!; try done; [by eapply locker_kept_trans|intros b; by rewrite Htt'|].
  intros res. rewrite Hv', Hv. by destruct (f res), (g res).
Qed.
Lemma iter_finished i m ks : iter i m ks → FastMap.finished i = bool_decide (ks = []).
Proof.
  intros [[-> ->]|(k & [Hr _] & ->)]; [done|]. rewrite bool_decide_false by done. apply Z.eqb_neq. lia.
Qed.
Lemma iter_next i k m : FastMap.WF m → FastMap.at_key i k m → ∃ i', FastMap.next i m = Ret i' ∧ iter i' m (FastMap.keys_from (i + 1) m).
Proof. intros HW [Hr _]. apply FastMap.next_spec; [done|lia]. Qed.
Lemma in_tail res res' (ks : list Z) : res' ≠ res → bool_decide (res' ∈ res :: ks) = bool_decide (res' ∈ ks).
Proof. intros Hne. apply bool_decide_ext. rewrite elem_of_cons. naive_solver. Qed.
Lemma wp_unlock_rest : ∀ ks fuel it w,
  iter it (requests_of w) ks → NoDup ks → (length ks ≤ fuel)%nat → Idle ids w → Core w → Ticketed w →
  (∀ res, res ∈ ks → stays res = false → ∃ r, sview w res = Some r ∧ rq_recursiveCount r = 1) →
  wp (unlock_rest ids throttled fuel it) (λ _ w', swept (λ res, bool_decide (res ∈ ks) && negb (stays res)) w w') w.
Proof.
  induction ks as [|res ks IH]; intros fuel it w Hit Hnd Hf HI HC Ht Hall.
  { assert (swept (λ res, bool_decide (res ∈ []) && negb (stays res)) w w) as Hsw.
    { apply (swept_ext (λ _, false)); [|by apply swept_nothing]. intros res. by rewrite bool_decide_false by apply not_elem_of_nil. }
    pose proof (iter_finished _ _ _ Hit) as Hfin. rewrite bool_decide_true in Hfin by done.
    destruct fuel; cbn [unlock_rest]; rewrite Hfin; by apply wp_ret. }
  destruct fuel as [|fuel]; [simpl in Hf; lia|]. cbn [unlock_rest]. rewrite (iter_finished _ _ _ Hit), bool_decide_false by done.
  destruct Hit as [[_ ?]|(k & Hat & E)]; [done|]. injection E as <- ->. apply NoDup_cons in Hnd as [Hno Hnd]. simpl in Hf.
  wp_simpl. rewrite (FastMap.at_key_objKey it res) by done. wp_simpl. fold (stays res).
  destruct (stays res) eqn:Es; wp_simpl.
  - destruct (iter_next it res _ (co_map w HC) Hat) as (it' & -> & Hit'). wp_simpl.
    eapply wp_mono; [|apply (IH fuel it' w); try done; [lia|]].
    + intros [] w'. apply swept_ext. intros res'. destruct (decide (res' = res)) as [->|Hne].
      * by rewrite Es, !andb_false_r.
      * by rewrite in_tail.
    + intros res' Hin. apply Hall. by right.
  - destruct (Hall res) as (r & Hr & H1); [left|done|].
    eapply wp_mono; [|eapply (wp_unlockImpl ids Hids throttled w it res r); try done; [apply HC|by eapply ticket_mode]].
    intros p w1 Hp. destruct (swept_one res r it w p w1 HC Ht Hr H1 Hp) as (Hg & Hsw & Hd). wp_simpl. split; [done|].
    pose proof Hsw as (HI1 & HC1 & Ht1 & _ & _ & Hv1).
    eapply wp_mono; [|apply (IH fuel p.2 w1); try done; [..|lia|]].
    + intros [] w' Hsw'. eapply swept_ext; [|by eapply swept_trans]. intros res'. cbn beta.
      destruct (decide (res' = res)) as [->|Hne].
      * rewrite Es, (bool_decide_true (res = res)), (bool_decide_true (res ∈ res :: _)) by first [done|left]. done.
      * by rewrite (bool_decide_false (res' = res)), in_tail by done.
    + destruct Hd as (_ & _ & m' & -> & _ & _ & _ & _ & Hit'). done.
    + intros res' Hin Hs. rewrite Hv1, bool_decide_false by (intros ->; done). apply Hall; [by right|done].
Qed.
Definition may_unlock_global r w : Prop :=
  holds_still G r w ∧
  (rq_recursiveCount r = 1 → nesting w = 0 ∧
    ∀ res r', sview w res = Some r' → stays res = false → rq_recursiveCount r' = 1).
Definition global_unlocked r w (gone : bool) w' : Prop :=
  gone = (rq_recursiveCount r =? 1) ∧ LInv w' ∧ kept_locker (w_locker w) (w_locker w') ∧ (∀ b, total b w' = total b w) ∧
  ∀ res, sview w' res = if gone then (if bool_decide (res = G) || negb (stays res) then None else sview w res)
                        else (if bool_decide (res = G) then Some (counted r (-1)) else sview w res).
Lemma LInv_outside w : Idle ids w → Core w → Ticketed w → queue w = [] → LInv w.
Proof. intros ? ? ? Hq. split; try done. rewrite Hq. intros res Hin. by apply elem_of_nil in Hin. Qed.
Lemma swept_G_stays : stays G = true.
Proof. reflexivity. Qed.
Lemma wp_unlockGlobal r w :
  LInv w → may_unlock_global r w → wp (unlockGlobal ids throttled) (global_unlocked r w) w.
Proof.
  intros HL [Hh Hone]. unfold unlockGlobal. wp_simpl. eapply wp_mono; [|by apply (wp_unlock G r w)].
  intros gone w1 [HL1 Hu]. unfold puts_off in Hu. rewrite delays_G, andb_false_r in Hu.
  destruct Hu as (Hg & HI1 & HC1 & Ht1 & Hk1 & Htt1 & Hu1 & _). unfold counted_down in Hu1. rewrite <-Hg in Hu1.
  destruct gone; cbn [negb]; wp_simpl.
  - symmetry in Hg. pose proof Hg as E1%Z.eqb_eq. destruct (Hone E1) as [Hn0 Hall]. pose proof Hk1 as (_ & Hn1 & Hq1 & _).
    unfold inAWriteUnitOfWork, the. wp_simpl. rewrite Hn1, Hn0. split; [done|].
    destruct (FastMap.begin_spec (requests_of w1) (co_map w1 HC1)) as (it & -> & Hit). wp_simpl.
    pose proof (FastMap.keys_length _ (co_map w1 HC1)) as Hlen.
    eapply wp_mono; [|eapply (wp_unlock_rest (FastMap.keys (requests_of w1)) 16 it w1); try done].
    + intros [] w' (HI & HC & Ht & Hk & Htt & Hv). wp_simpl. pose proof (locker_kept_trans _ _ _ Hk1 Hk) as Hkk.
      split_and!; [done| |done|intros b; by rewrite Htt|].
      * apply LInv_outside; try done. destruct Hkk as (_ & _ & -> & _). by apply HL.
      * intros res. rewrite Hv. specialize (Hu1 res). destruct (decide (res = G)) as [->|Hne].
        -- rewrite swept_G_stays, andb_false_r, bool_decide_true by done. exact Hu1.
        -- rewrite (bool_decide_false (res = G)) by done. cbn [orb]. destruct (stays res); cbn [negb]; [by rewrite andb_false_r|].
           rewrite andb_true_r. case_bool_decide as Hin; [done|]. rewrite (co_keys w1 HC1 res) in Hin.
           destruct (sview w1 res) eqn:E; [by destruct Hin|done].
    + apply (FastMap.wf_unique _ (co_map w1 HC1)).
    + intros res [r' Hr']%(co_keys w1 HC1) Hs. exists r'. split; [done|]. apply (Hall res); [|done]. rewrite <-Hr', (Hu1 res).
      rewrite decide_False; [done|]. intros ->. by rewrite swept_G_stays in Hs.
  - split_and!; try done. intros res. rewrite (Hu1 res). by case_decide; case_bool_decide.
Qed.

(** ** Write units of work *)
Lemma wp_beginWriteUnitOfWork w :
  LInv w → wp beginWriteUnitOfWork (λ _ w', LInv w' ∧ nesting w' = nesting w + 1 ∧ queue w' = queue w ∧
    (∀ res, sview w' res = sview w res) ∧ ∀ b, total b w' = total b w) w.
Proof.
  intros [HI HC Ht Hd Ho]. unfold beginWriteUnitOfWork, change. wp_simpl. set (w' := w <| w_locker := _ |>).
  destruct (Idle_locker ids w w' HI eq_refl eq_refl eq_refl ltac:(apply HI)) as [HI' Hv].
  pose proof (co_nesting w HC) as Hn. split_and!; try done. split; try done.
  - destruct HC. split; try done. simpl. lia.
  - simpl. lia.
Qed.
(** Released [n] times. *)
Definition minus (n : Z) r : option LockRequest := if rq_recursiveCount r =? n then None else Some (counted r (- n)).
Lemma counted_counted r a b : counted (counted r a) b = counted r (a + b).
Proof. unfold counted. destruct r. simpl. f_equal. lia. Qed.
Lemma minus_0 r : 1 ≤ rq_recursiveCount r → minus 0 r = Some r.
Proof.
  intros H. unfold minus. rewrite (proj2 (Z.eqb_neq _ _)) by lia. f_equal. unfold counted. destruct r. simpl. f_equal. lia.
Qed.
Lemma minus_down n r : counted_down r ≫= minus n = if rq_recursiveCount r =? 1 then None else minus (n + 1) r.
Proof.
  unfold counted_down, minus. destruct (Z.eqb_spec (rq_recursiveCount r) 1) as [E|E]; [done|]. simpl.
  destruct (Z.eqb_spec (rq_recursiveCount r + -1) n), (Z.eqb_spec (rq_recursiveCount r) (n + 1)); try lia; [done|].
  by rewrite counted_counted, Z.opp_add_distr, Z.add_comm.
Qed.
Definition released_all (q : list Z) w w' : Prop :=
  Idle ids w' ∧ Core w' ∧ Ticketed w' ∧ nesting w' = 0 ∧ queue w' = [] ∧ _id (w_locker w') = _id (w_locker w) ∧
  (∀ b, total b w' = total b w) ∧ ∀ res, sview w' res = sview w res ≫= minus (occurrences res q).
Lemma occurrences_cons res res' q : occurrences res (res' :: q) = (if decide (res = res') then 1 else 0) + occurrences res q.
Proof. by rewrite <-(occurrences_one res res'), <-occurrences_app. Qed.
Lemma wp_release_all : ∀ q w,
  Idle ids w → Core w → Ticketed w → nesting w = 0 → queue w = q → Deferred q w →
  wp (mfoldl (λ (_ : ()) resId,
    _ ← unlock ids throttled resId;
    change (λ l, l <| _resourcesToUnlockAtEndOfUnitOfWork := tail (_resourcesToUnlockAtEndOfUnitOfWork l) |>)) tt q)
    (λ _ w', released_all q w w') w.
Proof.
  induction q as [|res q IH]; intros w HI HC Ht Hn Hq Hd; cbn [mfoldl]; wp_simpl.
  { split_and!; try done. intros res. destruct (sview w res) as [r|] eqn:E; [|done]. simpl.
    destruct (Idle_granted ids Hids w res r HI E) as [_ H1]. by rewrite minus_0. }
  destruct (Hd res ltac:(left)) as (Hne & r & Hr & Hcount).
  eapply wp_mono; [|by apply (wp_unlock_now res r)]. intros gone w1 (_ & HI1 & HC1 & Ht1 & Hk1 & Htt1 & Hu1 & _).
  unfold change. wp_simpl. set (w2 := w1 <| w_locker := _ |>). pose proof Hk1 as (Hid1 & Hn1 & Hq1 & _).
  destruct (Idle_locker ids w1 w2 HI1 eq_refl eq_refl eq_refl ltac:(apply HI1)) as [HI2 Hv2].
  destruct (Idle_granted ids Hids w res r HI Hr) as [_ H1].
  eapply wp_mono; [|apply (IH w2); try done].
  - intros [] w' (HI' & HC' & Ht' & Hn' & Hq' & Hid' & Htt' & Hv'). split_and!; try done.
    + rewrite Hid'. apply Hk1.
    + intros b. rewrite Htt'. apply Htt1.
    + intros res'. rewrite Hv', Hv2, (Hu1 res'), occurrences_cons. case_decide as E; [subst res'|done].
      rewrite Hr, minus_down. simpl. rewrite occurrences_cons, decide_True in Hcount by done. pose proof (occurrences_nonneg res q).
      destruct (Z.eqb_spec (rq_recursiveCount r) 1) as [E1|E1]; [|by rewrite Z.add_comm].
      assert (occurrences res q = 0) as -> by lia. unfold minus. by rewrite E1.
  - destruct HC1. by split.
  - simpl. congruence.
  - simpl. by rewrite Hq1, Hq.
  - rewrite Deferred_iff in *. intros res' Hres'. destruct (Hd res') as [? Hc].
    { rewrite occurrences_cons. case_decide; lia. }
    split; [done|]. rewrite Hv2, (Hu1 res'). rewrite occurrences_cons in Hc. case_decide as E; [subst res'|lia].
    rewrite Hr in Hc. simpl in Hc. rewrite count_down by done. lia.
Qed.
Lemma wp_endWriteUnitOfWork w :
  LInv w → 0 < nesting w →
  wp (endWriteUnitOfWork ids false throttled) (λ _ w', LInv w' ∧ nesting w' = nesting w - 1 ∧ (∀ b, total b w' = total b w) ∧
    if nesting w =? 1 then queue w' = [] ∧ ∀ res, sview w' res = sview w res ≫= minus (occurrences res (queue w))
    else queue w' = queue w ∧ ∀ res, sview w' res = sview w res) w.
Proof.
  intros [HI HC Ht Hd Ho] Hn. unfold endWriteUnitOfWork, change, the. wp_simpl. split; [by apply Z.ltb_lt|].
  set (w1 := w <| w_locker := _ |>).
  destruct (Idle_locker ids w w1 HI eq_refl eq_refl eq_refl ltac:(apply HI)) as [HI1 Hv1].
  assert (Core w1) as HC1 by (destruct HC; split; try done; simpl; lia).
  change (nesting w1) with (nesting w - 1). destruct (Z.ltb_spec 0 (nesting w - 1)) as [Hn1|Hn1]; wp_simpl.
  - rewrite (proj2 (Z.eqb_neq _ _)) by lia. split_and!; try done. split; try done. simpl. lia.
  - assert (nesting w = 1) as E1 by lia. rewrite E1. simpl.
    eapply wp_mono; [|apply (wp_release_all (queue w) w1); try done; simpl; lia].
    intros [] w' (HI' & HC' & Ht' & Hn' & Hq' & _ & Htt' & Hv'). wp_simpl. split_and!; try done. by apply LInv_outside.
Qed.

(** ** Yielding *)
Definition is_mutex res : bool := getType res =? RESOURCE_MUTEX.
#[local] Opaque is_mutex.
Definition yieldable res r : Prop :=
  rq_recursiveCount r = 1 ∧
  (getType res = RESOURCE_DATABASE ∨ getType res = RESOURCE_COLLECTION ∨
   getType res = RESOURCE_GLOBAL ∧ isSharedLockMode (rq_mode r) = true).
Definition mode_of w res : LockMode := match sview w res with Some r => rq_mode r | None => MODE_NONE end.
Definition given_back (ks : list Z) : list Z := List.filter (λ res, negb (is_mutex res)) ks.
Definition saved_of w (ks : list Z) : list OneLock := (λ res, mkOneLock res (mode_of w res)) <$> given_back ks.
Lemma given_back_cons res ks : given_back (res :: ks) = (if is_mutex res then [] else [res]) ++ given_back ks.
Proof. unfold given_back. cbn [List.filter]. by destruct (is_mutex res). Qed.
Lemma saved_of_cons w res ks :
  saved_of w (res :: ks) = (if is_mutex res then [] else [mkOneLock res (mode_of w res)]) ++ saved_of w ks.
Proof. unfold saved_of. rewrite given_back_cons. by destruct (is_mutex res). Qed.
Definition saves (ks : list Z) w w' : Prop :=
  swept (λ res, bool_decide (res ∈ ks) && negb (is_mutex res)) w w' ∧
  FastMap.keys (requests_of w) ≡ₚ given_back ks ++ FastMap.keys (requests_of w').
Lemma wp_unlock_at res r it w :
  Idle ids w → Core w → Ticketed w → nesting w = 0 → sview w res = Some r → rq_recursiveCount r = 1 →
  FastMap.at_key it res (requests_of w) →
  wp (unlock ids throttled res) (λ gone w', gone = true ∧ swept (λ res', bool_decide (res' = res)) w w' ∧
    ∃ it', dropped ids throttled res it w it' w') w.
Proof.
  intros HI HC Ht Hn Hr H1 Hat. unfold unlock, inAWriteUnitOfWork, the. wp_simpl. rewrite Hn. simpl. wp_simpl.
  rewrite (FastMap.at_key_unique _ it res _ (co_map w HC) (find_own res w r HC Hr) Hat).
  eapply wp_mono; [|eapply (wp_unlockImpl ids Hids throttled w it res r); try done; [apply HC|by eapply ticket_mode]].
  intros p w' Hp. destruct (swept_one res r it w p w' HC Ht Hr H1 Hp) as (Hg & Hsw & Hd). wp_simpl. eauto.
Qed.
Lemma yieldable_checked res r :
  yieldable res r →
  (false && (res =? resourceIdMMAPV1Flush)) || (getType res =? RESOURCE_DATABASE) || (getType res =? RESOURCE_COLLECTION) ||
  ((getType res =? RESOURCE_GLOBAL) && isSharedLockMode (rq_mode r)) = true.
Proof.
  intros [_ H]. rewrite !orb_true_iff, !andb_true_iff, !Z.eqb_eq. tauto.
Qed.
Lemma saved_of_ext w w' ks : (∀ res, res ∈ ks → sview w' res = sview w res) → saved_of w' ks = saved_of w ks.
Proof.
  intros Hv. unfold saved_of, given_back. apply list_fmap_ext. intros i res Hin%list_elem_of_lookup_2.
  apply list_elem_of_In, filter_In in Hin as [Hin _]. unfold mode_of. by rewrite Hv by by apply list_elem_of_In.
Qed.
Lemma wp_save_rest : ∀ ks fuel it saved w,
  iter it (requests_of w) ks → NoDup ks → (length ks ≤ fuel)%nat → Idle ids w → Core w → Ticketed w → nesting w = 0 →
  (∀ res, res ∈ ks → is_mutex res = false → ∃ r, sview w res = Some r ∧ yieldable res r) →
  wp (save_rest ids false throttled fuel it saved) (λ out w', out = saved ++ saved_of w ks ∧ saves ks w w') w.
Proof.
  induction ks as [|res ks IH]; intros fuel it saved w Hit Hnd Hf HI HC Ht Hn Hall.
  { assert (saves [] w w) as Hsw.
    { split; [|done]. apply (swept_ext (λ _, false)); [|by apply swept_nothing]. intros res.
      by rewrite bool_decide_false by apply not_elem_of_nil. }
    pose proof (iter_finished _ _ _ Hit) as Hfin. rewrite bool_decide_true in Hfin by done.
    destruct fuel; cbn [save_rest]; rewrite Hfin; apply wp_ret; (split; [by rewrite app_nil_r|done]). }
  destruct fuel as [|fuel]; [simpl in Hf; lia|]. cbn [save_rest]. rewrite (iter_finished _ _ _ Hit), bool_decide_false by done.
  destruct Hit as [[_ ?]|(k & Hat & E)]; [done|]. injection E as <- ->. apply NoDup_cons in Hnd as [Hno Hnd]. simpl in Hf.
  wp_simpl. rewrite (FastMap.at_key_objKey it res) by done. wp_simpl. change (getType res =? RESOURCE_MUTEX) with (is_mutex res).
  destruct (is_mutex res) eqn:Em; wp_simpl.
  - destruct (iter_next it res _ (co_map w HC) Hat) as (it' & -> & Hit'). wp_simpl.
    eapply wp_mono; [|apply (IH fuel it' saved w); try done; [lia|]].
    + intros out w' (-> & Hsw & Hks). split; [by rewrite saved_of_cons, Em|]. split; [|by rewrite given_back_cons, Em].
      eapply swept_ext; [|exact Hsw]. intros res'. destruct (decide (res' = res)) as [->|Hne]; [by rewrite Em, !andb_false_r|by rewrite in_tail].
    + intros res' Hin. apply Hall. by right.
  - destruct (Hall res) as (r & Hr & Hy); [left|done|]. unfold request_of. wp_simpl.
    replace (own_request res w) with (Some r) by done. wp_simpl. split; [by apply yieldable_checked|].
    eapply wp_mono; [|apply (wp_unlock_at res r it w); try done; apply Hy].
    intros gone w1 (-> & Hsw & it' & Hd). wp_simpl. split; [done|].
    pose proof Hsw as (HI1 & HC1 & Ht1 & Hk1 & _ & Hv1). pose proof Hk1 as (_ & Hn1 & _).
    destruct Hd as (_ & _ & m' & Hl1 & HW' & HP & _ & Hkf & _). assert (requests_of w1 = m') as Hm1 by (by rewrite Hl1). rewrite <-Hm1 in *.
    destruct (FastMap.next_spec it (requests_of w1) HW') as (i & Hi & Hit2); [destruct Hat; lia|]. rewrite Hi. wp_simpl.
    rewrite Hkf in Hit2.
    assert (∀ res', res' ∈ FastMap.keys_from (it + 1) (requests_of w) → sview w1 res' = sview w res') as Hv.
    { intros res' Hin. rewrite Hv1, bool_decide_false by (intros ->; done). done. }
    eapply wp_mono; [|apply (IH fuel i _ w1); try done; [lia|congruence|]].
    + intros out w' (-> & Hsw' & Hks). split.
      * rewrite (saved_of_ext w w1) by done. rewrite saved_of_cons, Em, <-app_assoc. unfold mode_of. by rewrite Hr.
      * split; [|rewrite given_back_cons, Em; by rewrite HP, Hks].
        eapply swept_ext; [|by eapply swept_trans]. intros res'. cbn beta.
        destruct (decide (res' = res)) as [->|Hne].
        -- rewrite Em, (bool_decide_true (res = res)), (bool_decide_true (res ∈ res :: _)) by first [done|left]. done.
        -- by rewrite (bool_decide_false (res' = res)), in_tail by done.
    + intros res' Hin Hs. rewrite Hv by done. apply Hall; [by right|done].
Qed.
Definition may_save w : Prop :=
  nesting w = 0 ∧
  match sview w G with
  | None => ∀ res, is_Some (sview w res) → is_mutex res = true
  | Some r => rq_recursiveCount r = 1 →
      ∀ res r', res ≠ G → sview w res = Some r' → is_mutex res = false → yieldable res r'
  end.
Record snapshot_of w (s : LockSnapshot) : Prop := mkSnapshotOf {
  sn_global : globalMode s = mode_of w G;
  sn_locks : ∀ x, x ∈ locks s ↔ resourceId x ≠ G ∧ is_mutex (resourceId x) = false ∧
                                ∃ r, sview w (resourceId x) = Some r ∧ mode x = rq_mode r;
  sn_unique : NoDup (resourceId <$> locks s);
  sn_sorted : StronglySorted (λ a b, resourceId a ≤ resourceId b) (locks s) }.
Definition save_result w (o : option LockSnapshot) w' : Prop :=
  match o with
  | None => w' = w ∧ (sview w G = None ∨ ∃ r, sview w G = Some r ∧ 1 < rq_recursiveCount r)
  | Some s =>
      LInv w' ∧ kept_locker (w_locker w) (w_locker w') ∧ (∀ b, total b w' = total b w) ∧ snapshot_of w s ∧
      (∃ r, sview w G = Some r ∧ rq_recursiveCount r = 1) ∧
      (∀ res, sview w' res = if is_mutex res then sview w res else None) ∧
      (length (FastMap.keys (requests_of w')) + length (locks s) + 1 = length (FastMap.keys (requests_of w)))%nat
  end.
Lemma elem_of_given_back res ks : res ∈ given_back ks ↔ res ∈ ks ∧ is_mutex res = false.
Proof. unfold given_back. rewrite list_elem_of_In, filter_In, <-list_elem_of_In. by rewrite negb_true_iff. Qed.
Lemma saved_ids w ks : resourceId <$> saved_of w ks = given_back ks.
Proof. unfold saved_of. rewrite <-list_fmap_compose. apply list_fmap_id. Qed.
Lemma sort_locks_perm (l : list OneLock) : sort_locks l ≡ₚ l.
Proof. apply merge_sort_Permutation. Qed.
Lemma sort_locks_sorted (l : list OneLock) : StronglySorted (λ a b, resourceId a ≤ resourceId b) (sort_locks l).
Proof. apply StronglySorted_merge_sort; [intros ? ? ?; lia|intros ? ?; lia]. Qed.
Lemma G_not_mutex : is_mutex G = false.
Proof. reflexivity. Qed.
Lemma snapshot_saved w ks :
  (∀ res, res ∈ ks ↔ res ≠ G ∧ is_Some (sview w res)) → NoDup ks →
  snapshot_of w (mkSnapshot (mode_of w G) (sort_locks (saved_of w ks))).
Proof.
  intros Hks Hnd. split; [done|..]; cbn [locks].
  - intros [res m]. rewrite sort_locks_perm. unfold saved_of. rewrite list_elem_of_fmap. simpl. split.
    + intros (res' & E & [[Hne [r Hr]]%Hks Hm]%elem_of_given_back). injection E as -> ->. split_and!; [done..|]. exists r.
      unfold mode_of. by rewrite Hr.
    + intros (Hne & Hm & r & Hr & ->). exists res. unfold mode_of. rewrite Hr. split; [done|]. apply elem_of_given_back.
      split; [|done]. apply Hks. eauto.
  - rewrite sort_locks_perm, saved_ids. unfold given_back. by apply NoDup_ListNoDup, List.NoDup_filter, NoDup_ListNoDup.
  - apply sort_locks_sorted.
Qed.
Lemma keys_absent w : Core w → sview w G = None → FastMap.finished (FastMap.find G (requests_of w)) = true.
Proof. intros HC Hg. apply FastMap.find_absent; [apply HC|]. rewrite (co_keys w HC), Hg. by intros [? ?]. Qed.
Lemma wp_saveLockStateAndUnlock w :
  LInv w → may_save w → wp (saveLockStateAndUnlock ids false throttled) (save_result w) w.
Proof.
  intros HL [Hn Hms]. pose proof HL as [HI HC Ht Hd Ho]. unfold saveLockStateAndUnlock, inAWriteUnitOfWork, the. wp_simpl.
  rewrite Hn. split; [done|]. wp_simpl. destruct (sview w G) as [r|] eqn:Hr.
  2: { rewrite (keys_absent w HC Hr). wp_simpl. split; [|split; [done|]; by left]. apply forallb_forall.
       intros res Hin%list_elem_of_In. apply (Hms res). by apply (co_keys w HC). }
  rewrite (FastMap.find_present G _ (co_map w HC)) by (apply (co_keys w HC); rewrite Hr; eauto).
  unfold request_of. wp_simpl. replace (own_request G w) with (Some r) by done. wp_simpl.
  destruct (Idle_granted ids Hids w G r HI Hr) as [_ H1].
  destruct (Z.ltb_spec 1 (rq_recursiveCount r)) as [H2|H2]; wp_simpl; [split; [done|]; right; eauto|].
  assert (rq_recursiveCount r = 1) as E1 by lia. specialize (Hms E1).
  eapply wp_mono; [|apply (wp_unlock_at G r (FastMap.find G (requests_of w)) w); try done; by eapply find_own].
  intros gone w1 (-> & Hsw & it & Hdr). wp_simpl. split; [done|].
  pose proof Hsw as (HI1 & HC1 & Ht1 & Hk1 & Htt1 & Hv1). pose proof Hk1 as (_ & Hn1 & Hq1 & _).
  destruct Hdr as (_ & _ & m' & Hl1 & _ & HP & Hno & _). assert (requests_of w1 = m') as Hm1 by (by rewrite Hl1). rewrite <-Hm1 in *.
  destruct (FastMap.begin_spec (requests_of w1) (co_map w1 HC1)) as (i & -> & Hit). wp_simpl.
  assert (∀ res, res ∈ FastMap.keys (requests_of w1) ↔ res ≠ G ∧ is_Some (sview w res)) as Hks.
  { intros res. rewrite (co_keys w1 HC1), Hv1. case_bool_decide; split; [by intros [? ?]|by intros [? _]|done|by intros [_ ?]]. }
  eapply wp_mono; [|apply (wp_save_rest (FastMap.keys (requests_of w1)) 16 i [] w1); try done; [..|congruence|]].
  - intros out w2 (-> & Hsw2 & HP2). wp_simpl. pose proof (swept_trans _ _ _ _ _ Hsw Hsw2) as (HI2 & HC2 & Ht2 & Hk2 & Htt2 & Hv2).
    assert (sview w2 G = None) as Hg2 by (by rewrite Hv2, bool_decide_true).
    unfold isLocked, getLockMode, the. wp_simpl. rewrite (keys_absent w2 HC2 Hg2). wp_simpl. split; [done|].
    rewrite (saved_of_ext w w1).
    2: { intros res [Hne _]%Hks. by rewrite Hv1, bool_decide_false. }
    assert (rq_mode r = mode_of w G) as -> by (unfold mode_of; by rewrite Hr). split_and!.
    + apply LInv_outside; try done. destruct Hk2 as (_ & _ & -> & _). by apply Ho.
    + done.
    + done.
    + apply snapshot_saved; [done|]. apply (FastMap.wf_unique _ (co_map w1 HC1)).
    + eauto.
    + intros res. rewrite Hv2. destruct (is_mutex res) eqn:Em; cbn [negb]; rewrite ?andb_false_r, ?andb_true_r, ?orb_false_r.
      * rewrite bool_decide_false; [done|]. intros ->. by rewrite G_not_mutex in Em.
      * destruct (decide (res = G)) as [->|Hne]; [by rewrite bool_decide_true|]. rewrite (bool_decide_false (res = G)) by done.
        simpl. case_bool_decide as Hin; [done|]. destruct (sview w res) eqn:E; [|done]. destruct Hin. apply Hks. rewrite E. eauto.
    + cbn [locks]. apply Permutation_length in HP, HP2. rewrite HP, (Permutation_length (sort_locks_perm _)). simpl.
      rewrite HP2, length_app. unfold saved_of. rewrite length_fmap. lia.
  - apply (FastMap.wf_unique _ (co_map w1 HC1)).
  - apply (FastMap.keys_length _ (co_map w1 HC1)).
  - intros res [Hne [r' Hr']]%Hks Hm. exists r'. rewrite Hv1, bool_decide_false by done. split; [done|]. by apply Hms.
Qed.

(** [xs] can be taken: they are new and there is room for them and [n] more. *)
Record takeable (n : Z) (xs : list OneLock) w : Prop := mkTakeable {
  tb_each : ∀ x, x ∈ xs → resourceId x ≠ G ∧ mode x ≠ MODE_NONE ∧ 1 ≤ getType (resourceId x) ≤ 6 ∧ sview w (resourceId x) = None;
  tb_unique : NoDup (resourceId <$> xs);
  tb_room : vsize (FastMap.keys (requests_of w)) + Z.of_nat (length xs) + n ≤ FastMap.PreallocCount }.
(** They have been taken, once each. *)
Record taken (xs : list OneLock) w w' : Prop := mkTaken {
  ta_inv : LInv w';
  ta_kept : kept_locker (w_locker w) (w_locker w');
  ta_total : ∀ b, total b w' = total b w;
  ta_each : ∀ x, x ∈ xs → holding w' (resourceId x) = Some (mode x, 1);
  ta_others : ∀ res, res ∉ resourceId <$> xs → sview w' res = sview w res }.
Lemma taken_nothing w : LInv w → taken [] w w.
Proof. intros HL. split; try done. intros x Hx. by apply elem_of_nil in Hx. Qed.
Lemma taken_trans xs ys w w1 w2 :
  (∀ x, x ∈ xs → resourceId x ∉ resourceId <$> ys) → taken xs w w1 → taken ys w1 w2 → taken (xs ++ ys) w w2.
Proof.
  intros Hd [_ Hk Htt He Ho] [HL Hk' Htt' He' Ho']. split; [done|by eapply locker_kept_trans|intros b; by rewrite Htt'|..].
  - intros x [Hx|Hx]%elem_of_app; [|by apply He']. unfold holding. rewrite Ho' by by apply Hd. by apply He.
  - intros res. rewrite fmap_app, not_elem_of_app. intros [H1 H2]. by rewrite Ho', Ho.
Qed.
(** One more key. *)
Lemma keys_add res r w w' :
  Core w → Core w' → sview w res = None → upd_view res (Some r) w w' →
  vsize (FastMap.keys (requests_of w')) = vsize (FastMap.keys (requests_of w)) + 1.
Proof.
  intros HC HC' Hn Hu. assert (FastMap.keys (requests_of w') ≡ₚ res :: FastMap.keys (requests_of w)) as HP.
  { apply NoDup_Permutation.
    - apply (FastMap.wf_unique _ (co_map w' HC')).
    - apply NoDup_cons. split; [rewrite (co_keys w HC), Hn; by intros [? ?]|apply (FastMap.wf_unique _ (co_map w HC))].
    - intros res'. rewrite elem_of_cons, (co_keys w' HC'), (co_keys w HC), (Hu res'). case_decide as E; [subst|].
      + split; [by left|eauto].
      + split; [by right|]. by intros [?|?]. }
  apply Permutation_length in HP. unfold vsize. rewrite HP. simpl. lia.
Qed.
Lemma takeable_rest n x r' xs w w' :
  Core w → Core w' → takeable n (x :: xs) w → upd_view (resourceId x) (Some r') w w' → takeable n xs w'.
Proof.
  intros HC HC' [He Hu Hr] Hup. apply NoDup_cons in Hu as [Hno Hu]. destruct (He x) as (_ & _ & _ & Hnone); [left|].
  split; [|done|].
  - intros x' Hx'. destruct (He x') as (? & ? & ? & Hv); [by right|]. do 3 (split; [done|]). rewrite (Hup (resourceId x')).
    rewrite decide_False; [done|]. intros E. destruct Hno. rewrite <-E. by apply list_elem_of_fmap_2.
  - rewrite (keys_add (resourceId x) r' w w') by done. simpl in Hr. lia.
Qed.
Lemma wpb_relock n x xs w :
  0 ≤ n → LInv w → takeable n (x :: xs) w →
  wpb (relock ids false throttled x) (λ _ w', taken [x] w w' ∧ takeable n xs w') w.
Proof.
  intros Hn HL Htb. destruct (tb_each _ _ _ Htb x) as (Hne & Hm & Hty & Hnone); [left|]. pose proof (tb_room _ _ _ Htb) as Hroom.
  unfold relock. wpb_simpl. eapply wpb_mono; [|apply (wpb_lock ids Hids throttled None false); try done].
  - intros result w' [HL' (Hmf & _ & HC' & Hk & Htt & Hc)]. assert (result = LOCK_OK) as ->.
    { by destruct Hmf as [?|[[_ [? ?]]|[_ ?]]]. }
    destruct Hc as [(_ & _ & r' & Hu & Hacq)|[? _]]; [|done]. rewrite Hnone in Hacq. destruct Hacq as [Hma Hca]. simpl in Hma, Hca.
    apply wpb_invariant; [done|]. split; [|by eapply (takeable_rest n x r' xs w); [apply HL|apply HL'|..]]. split; try done.
    + intros y ->%list_elem_of_singleton. unfold holding. rewrite (Hu (resourceId x)), decide_True by done. simpl. by rewrite Hma, Hca.
    + intros res Hres. rewrite (Hu res), decide_False; [done|]. intros ->. destruct Hres. apply list_elem_of_fmap_2. left.
  - unfold may_lock. rewrite Hnone. split_and!; try done; [lia..|]. simpl in Hroom. lia.
  - by rewrite Hnone.
Qed.
Lemma wpb_relock_all : ∀ xs w,
  LInv w → takeable 0 xs w → wpb (mfoldl (λ (_ : ()) x,
    if false && (resourceId x =? resourceIdMMAPV1Flush) then
      m ← _getModeForMMAPV1FlushLock false; invariant 655 (λ _, eqb (mode x) m)
    else relock ids false throttled x) tt xs) (λ _ w', taken xs w w') w.
Proof.
  induction xs as [|x xs IH]; intros w HL Htb; cbn [mfoldl andb]; wpb_simpl; [by apply taken_nothing|].
  eapply wpb_mono; [|by apply (wpb_relock 0 x xs)]. intros [] w1 [Ht1 Htb1].
  eapply wpb_mono; [|apply (IH w1); [apply Ht1|done]]. intros [] w' Ht'. eapply (taken_trans [x] xs); [|done..].
  intros y ->%list_elem_of_singleton. pose proof (tb_unique _ _ _ Htb) as Hu. by apply NoDup_cons in Hu as [? _].
Qed.
(** The global lock is taken. *)
Lemma takeable_global xs r' w w' :
  Core w → Core w' → takeable 1 xs w → sview w G = None → upd_view G (Some r') w w' → takeable 0 xs w'.
Proof.
  intros HC HC' [He Hu Hr] Hnone Hup. split; [|done|].
  - intros x Hx. destruct (He x Hx) as (? & ? & ? & Hv). do 3 (split; [done|]). by rewrite (Hup (resourceId x)), decide_False.
  - rewrite (keys_add G r' w w') by done. lia.
Qed.
Definition global_one (s : LockSnapshot) : OneLock := mkOneLock G (globalMode s).
Lemma wpb_take_global s xs w (Q : LockResult → World → Prop) :
  LInv w → takeable 1 xs w → sview w G = None → globalMode s ≠ MODE_NONE →
  (∀ w', taken [global_one s] w w' → takeable 0 xs w' → Q LOCK_OK w') →
  wpb (lockGlobal ids false throttled (globalMode s)) Q w.
Proof.
  intros HL Htb Hnone Hm HQ. pose proof (tb_room _ _ _ Htb) as Hroom. eapply wpb_mono; [|apply wpb_lockGlobal; [done|]].
  - intros result w' [-> (_ & HL' & Hk & Htt & Hc)]. destruct Hc as [(_ & r' & Hu & Hacq)|[? _]]; [|done].
    rewrite Hnone in Hacq. destruct Hacq as [Hma Hca]. simpl in Hma, Hca. apply HQ.
    + split; try done.
      * intros x ->%list_elem_of_singleton. unfold holding. simpl. rewrite (Hu G), decide_True by done. simpl. by rewrite Hma, Hca.
      * intros res Hres. rewrite (Hu res), decide_False; [done|]. intros ->. destruct Hres. apply list_elem_of_fmap. exists (global_one s). split; [done|left].
    + eapply takeable_global; [apply HL|apply HL'|done..].
  - unfold may_lock. rewrite Hnone. split; [done|]. split; [by rewrite G_type|]. lia.
Qed.
Lemma wpb_restoreLockState s w :
  LInv w → nesting w = 0 → sview w G = None → takeable 1 (locks s) w → globalMode s ≠ MODE_NONE →
  wpb (restoreLockState ids false throttled s) (λ _ w', taken (global_one s :: locks s) w w') w.
Proof.
  intros HL Hn Hg Htb Hm. unfold restoreLockState, inAWriteUnitOfWork, the. wpb_simpl.
  apply wpb_invariant; [by rewrite Hn|]. wpb_simpl.
  assert (_modeForTicket (w_locker w) = MODE_NONE) as Hmt.
  { destruct (decide (_modeForTicket (w_locker w) = MODE_NONE)) as [?|Hne]; [done|]. apply (li_ticket ids w HL) in Hne.
    rewrite Hg in Hne. by destruct Hne. }
  apply wpb_invariant; [by rewrite Hmt|].
  assert (∀ (pre xs : list OneLock) w1, pre ++ xs = locks s → taken pre w w1 → takeable 1 xs w1 →
    wpb (r ← lockGlobal ids false throttled (globalMode s); invariant 650 (λ _, bool_decide (r = LOCK_OK)) ;;
      mfoldl (λ (_ : ()) x,
        if false && (resourceId x =? resourceIdMMAPV1Flush) then
          m ← _getModeForMMAPV1FlushLock false; invariant 655 (λ _, eqb (mode x) m)
        else relock ids false throttled x) tt xs ;;
      t ← gets (λ w, _modeForTicket (w_locker w)); invariant 660 (λ _, negb (eqb t MODE_NONE)))
    (λ _ w', taken (global_one s :: locks s) w w') w1) as Hrest.
  { intros pre xs w1 Hpx Hpre Hxs. wpb_simpl. pose proof (tb_unique _ _ _ Htb) as Hnd. rewrite <-Hpx, fmap_app in Hnd.
    apply NoDup_app in Hnd as (_ & Hd & _).
    assert (∀ x, x ∈ pre ++ xs → resourceId x ≠ G) as HnG by (intros x; rewrite Hpx; apply Htb).
    assert (sview w1 G = None) as Hg1.
    { rewrite (ta_others _ _ _ Hpre); [done|]. intros (x & E & Hx)%list_elem_of_fmap. apply (HnG x); [apply elem_of_app; by left|done]. }
    apply (wpb_take_global s xs w1); [apply Hpre|done..|]. intros w2 Htg Hxs2. cbn beta. wpb_simpl. apply wpb_invariant; [done|].
    wpb_simpl. eapply wpb_mono; [|apply (wpb_relock_all xs w2); [apply Htg|done]]. intros [] w' Htk. wpb_simpl.
    assert (taken (global_one s :: locks s) w w') as Hall.
    { assert (taken (pre ++ [global_one s] ++ xs) w w') as [? ? ? He Ho].
      { eapply (taken_trans pre); [|done|]; [|eapply (taken_trans [global_one s]); [|done..]].
        - intros x Hx. rewrite fmap_app, not_elem_of_app. split; [|apply Hd; by apply list_elem_of_fmap_2].
          intros E%list_elem_of_singleton. apply (HnG x); [apply elem_of_app; by left|done].
        - intros y ->%list_elem_of_singleton (x & E & Hx)%list_elem_of_fmap. apply (HnG x); [apply elem_of_app; by right|done]. }
      split; try done.
      - intros x Hx. apply He. rewrite <-Hpx in Hx. set_solver.
      - intros res Hres. apply Ho. rewrite <-Hpx in Hres. set_solver. }
    apply wpb_invariant; [|done]. apply negb_true_iff, bool_decide_eq_false. apply (li_ticket ids w' (ta_inv _ _ _ Hall)).
    pose proof (ta_each _ _ _ Hall (global_one s) ltac:(left)) as Hh. unfold holding in Hh. simpl in Hh.
    destruct (sview w' G); [eauto|done]. }
  destruct (locks s) as [|x xs] eqn:El; wpb_simpl.
  { specialize (Hrest [] [] w eq_refl (taken_nothing w HL) Htb). by autorewrite with wpb in Hrest. }
  destruct (resourceId x =? resourceIdParallelBatchWriterMode); wpb_simpl.
  - eapply wpb_mono; [|apply (wpb_relock 1 x xs); done]. intros [] w1 [Ht1 Htb1]. wpb_simpl.
    specialize (Hrest [x] xs w1 eq_refl Ht1 Htb1). by autorewrite with wpb in Hrest.
  - specialize (Hrest [] (x :: xs) w eq_refl (taken_nothing w HL) Htb). by autorewrite with wpb in Hrest.
Qed.
End calls.
