(* ===== verification/LockerWait.v ===== *)
(** * Waiting ends

    A locker that waits with a timeout returns once the clock has passed it.  [paced n m]: the code
    [m] lets at most [n] ticks of the schedule go by; [expires n t w]: after the first [n] ticks
    there comes one that is [t] milliseconds later than all of these. *)
From S2P Require Import Prelude LockManager LockManagerProps DeadlockDetector FastMap Locker LockerView LockerOps LockerInv LockerCalls.
Import Mode Head Manager Locking LockerImpl Res.
Implicit Types (w : World) (res : Z) (n i j k : nat).
Open Scope Z_scope.

(** The clock after [j] ticks. *)
Definition clock w j : Z := default (w_now w) (tk_now <$> last (take j (w_sched w))).
Definition expires n (t : Z) w : Prop :=
  ∃ k tick, (n ≤ k)%nat ∧ w_sched w !! k = Some tick ∧ ∀ j, (j ≤ n)%nat → clock w j + t * 1000 ≤ tk_now tick.
(** First for a ticket, then for the lock. *)
Definition expires_twice (t : Z) w : Prop :=
  ∃ i tick, (1 ≤ i)%nat ∧ w_sched w !! i = Some tick ∧ w_now w + t * 1000 ≤ tk_now tick ∧ expires (i + 3) t w.

(** ** Time goes on only by ticks *)
Definition later n w w' : Prop :=
  ∃ i, (i ≤ n)%nat ∧ w_sched w' = drop i (w_sched w) ∧ w_now w' = clock w i.
Definition paced {A} n (m : M World A) : Prop := ∀ w a w', m w = Ret (a, w') → later n w w'.

Lemma clock_0 w : clock w 0 = w_now w.
Proof. done. Qed.
Lemma clock_later w w' i j :
  w_sched w' = drop i (w_sched w) → w_now w' = clock w i → clock w' j = clock w (i + j).
Proof.
  intros Hs Hn. unfold clock at 1. rewrite Hs, Hn. unfold clock. rewrite <-take_take_drop, last_app.
  by destruct (last (take j (drop i (w_sched w)))).
Qed.
Lemma later_trans n n' w w1 w2 : later n w w1 → later n' w1 w2 → later (n + n') w w2.
Proof.
  intros (i & Hi & Hs & Hc) (j & Hj & Hs' & Hc'). exists (i + j)%nat. split; [lia|]. split.
  - by rewrite Hs', Hs, drop_drop.
  - rewrite Hc'. by apply clock_later.
Qed.
Lemma later_same n w w' : w_sched w' = w_sched w → w_now w' = w_now w → later n w w'.
Proof. intros Hs Hn. exists 0%nat. split; [lia|]. by rewrite Hs, Hn. Qed.
Lemma later_weaken n n' w w' : (n ≤ n')%nat → later n w w' → later n' w w'.
Proof. intros Hn (i & Hi & ?). exists i. split; [lia|done]. Qed.
Lemma expires_later n n' t w w' : later n w w' → expires (n + n') t w → expires n' t w'.
Proof.
  intros (i & Hi & Hs & Hc) (k & tick & Hk & Ht & Hle). exists (k - i)%nat, tick. split; [lia|]. split.
  - rewrite Hs, lookup_drop. by replace (i + (k - i))%nat with k by lia.
  - intros j Hj. rewrite (clock_later w w' i j Hs Hc). apply Hle. lia.
Qed.

Section pace.
Context {A B : Type}.
Lemma paced_ret n (a : A) : paced n (mret a : M World A).
Proof. intros w ? ? [= -> ->]. by apply later_same. Qed.
Lemma paced_gets n (g : World → A) : paced n (gets g).
Proof. intros w ? ? [= <- ->]. by apply later_same. Qed.
Lemma paced_reads n (g : World → outcome A) : paced n (reads g).
Proof. intros w a w' H. unfold reads in H. destruct (g w); [|done]. injection H as -> ->. by apply later_same. Qed.
Lemma paced_invariant n line b : paced n (invariant line b).
Proof. intros w a w' H. unfold invariant in H. destruct (b w); [|done]. injection H as <- <-. by apply later_same. Qed.
Lemma paced_modify n g :
  (∀ w, w_sched (g w) = w_sched w ∧ w_now (g w) = w_now w) → paced n (modify g).
Proof. intros Hg w a w' [= <- <-]. destruct (Hg w). by apply later_same. Qed.
Lemma paced_bind n n' (m : M World A) (f : A → M World B) :
  paced n m → (∀ a, paced n' (f a)) → paced (n + n') (m ≫= f).
Proof.
  intros Hm Hf w b w' H. unfold mbind, M_bind in H. destruct (m w) as [[a w1]|] eqn:E; [|done].
  eapply later_trans; [by eapply Hm|by eapply Hf].
Qed.
Lemma paced_weaken n n' (m : M World A) : (n ≤ n')%nat → paced n m → paced n' m.
Proof. intros Hn Hm w a w' H. eapply later_weaken; [exact Hn|]. by eapply Hm. Qed.
End pace.
Lemma paced_on_manager {A} n (m : LM A) : paced n (on_manager m).
Proof.
  apply (paced_weaken 0); [lia|]. apply (paced_bind 0 0).
  - intros w a w' H. destruct (Locking.lift m (w_sys w)) as [[x y]|]; [|done]. injection H as -> <-. by apply later_same.
  - intros a. apply (paced_bind 0 0); [apply paced_invariant|]. intros []. apply paced_ret.
Qed.

(** ** What the calls of a locker take *)
Section takes.
Context (ids : gset Z) (throttled : bool).
Abbreviation lockBegin := (lockBegin ids false).

Lemma env_tick_now tick w : w_now (env_tick ids tick w) = tk_now tick.
Proof.
  unfold env_tick. set (w1 := _ <| w_now := tk_now tick |>). assert (w_now w1 = tk_now tick) as Hn by done.
  clearbody w1. revert w1 Hn. induction (tk_tickets tick) as [|[take b] l IH]; intros w1 Hn; simpl; [done|].
  apply IH. by destruct b.
Qed.
Lemma later_tick tick ts w : w_sched w = tick :: ts → later 1 w (env_tick ids tick (w <| w_sched := ts |>)).
Proof.
  intros Hs. exists 1%nat. split; [lia|]. rewrite env_tick_sched, env_tick_now. unfold clock. by rewrite Hs.
Qed.
Lemma paced_interfere : paced 1 (interfere ids).
Proof.
  apply (paced_bind 1 0); [|intros []; apply paced_invariant].
  intros w a w' [= <- <-]. destruct (w_sched w) as [|tick ts] eqn:Hs; [by apply later_same|]. by apply later_tick.
Qed.
Lemma paced_manager_lock res r m : paced 2 (manager_lock ids res r m).
Proof.
  apply (paced_bind 1 1); [apply paced_interfere|]. intros []. apply (paced_bind 0 1); [apply paced_on_manager|].
  intros [result|r']; [apply paced_ret|]. apply (paced_bind 0 1); [by apply paced_modify|]. intros [].
  apply (paced_bind 1 0); [apply paced_interfere|]. intros []. apply (paced_bind 0 0); [by apply paced_modify|].
  intros []. apply paced_on_manager.
Qed.
Lemma paced_lockBegin res m : paced 2 (lockBegin res m).
Proof.
  unfold LockerImpl.lockBegin, the, change, clear_notify, manager_convert.
  apply (paced_bind 0 2); [apply paced_gets|intros k]. apply (paced_bind 0 2); [apply paced_gets|intros map].
  destruct (FastMap.finished _).
  - apply (paced_bind 0 2); [apply paced_reads|intros r]. apply (paced_bind 0 2); [by apply paced_modify|intros []].
    apply (paced_bind 0 2); [by apply paced_modify|intros []]. apply paced_manager_lock.
  - apply (paced_bind 0 2); [apply paced_on_manager|intros []]. apply (paced_bind 0 2); [by apply paced_modify|intros []].
    apply (paced_bind 1 1); [apply paced_interfere|intros []]. apply (paced_bind 0 1); [apply paced_gets|intros k'].
    apply paced_on_manager.
Qed.
(** ** The loops end by the timeout *)
Context (Hids : Z.of_nat (size ids) < two32 - 2).
Lemma clock_tick w i tick : w_sched w !! i = Some tick → clock w (S i) = tk_now tick.
Proof. intros H. unfold clock. by rewrite (take_S_r _ _ _ H), last_snoc. Qed.
Lemma wpb_total {A} (m : M World A) Q R w : wpb m Q w → wp m R w → wp m (λ a w', Q a w' ∧ R a w') w.
Proof. unfold wpb, wp. by destruct (m w) as [[a w']|]. Qed.
Lemma wp_paced {A} n (m : M World A) Q w : paced n m → wp m Q w → wp m (λ a w', Q a w' ∧ later n w w') w.
Proof. intros Hp. unfold wp. destruct (m w) as [[a w']|] eqn:E; [|done]. intros HQ. split; [done|]. by eapply Hp. Qed.

Lemma wp_interfere_later w : Sound ids w → wp (interfere ids) (λ _ w', Sound ids w' ∧ later 1 w w') w.
Proof.
  intros HS. eapply wp_mono; [|apply (wp_paced 1 _ (λ _ w', steadyw ids w w')); [apply paced_interfere|by apply (wp_interfere ids Hids)]].
  intros [] w' [[HS' _] Hl]. done.
Qed.
Lemma wp_sleep n w (Q : () → World → Prop) :
  Sound ids w → (S n ≤ length (w_sched w))%nat →
  (∀ w', Sound ids w' → later 1 w w' → clock w' n = clock w (S n) → length (w_sched w) = S (length (w_sched w')) → Q tt w') →
  wp (sleep ids) Q w.
Proof.
  intros HS Hn HQ. unfold sleep. wp_simpl. destruct (w_sched w) as [|tick ts] eqn:Hs; [simpl in Hn; lia|].
  split; [by rewrite bool_decide_false|]. unfold interfere. wp_simpl. rewrite Hs.
  destruct (env_tick_steady ids Hids tick (w <| w_sched := ts |>)) as [HS' _]; [by apply Sound_sched|].
  apply wp_notify_check; [by apply single_notes, (so_single ids)|]. apply HQ; [done|..].
  - by apply later_tick.
  - apply (clock_later _ _ 1); [by rewrite env_tick_sched, Hs|]. rewrite env_tick_now. unfold clock. by rewrite Hs.
  - by rewrite env_tick_sched.
Qed.
Lemma wp_sem_wait_ends writing limit : ∀ n fuel w,
  Sound ids w → limit ≤ clock w n → (n ≤ length (w_sched w))%nat → (n ≤ fuel)%nat →
  wp (sem_wait ids fuel writing (Some limit)) (λ _ w', later n w w') w.
Proof.
  induction n as [|n IH]; intros fuel w HS Hc Hl Hf.
  - destruct fuel; cbn [sem_wait]; unfold sem_trywait; wp_simpl; destruct (0 <? _); wp_simpl;
      try (apply later_same; by destruct writing); rewrite clock_0 in Hc; apply Z.leb_le in Hc; rewrite Hc; wp_simpl;
      by apply later_same.
  - destruct fuel as [|fuel]; [lia|]. cbn [sem_wait]. unfold sem_trywait. wp_simpl. destruct (0 <? _); wp_simpl.
    { apply later_same; by destruct writing. }
    destruct (limit <=? w_now w); wp_simpl; [by apply later_same|].
    eapply wp_sleep; [done|exact Hl|]. intros w' HS' Hw' Hc' Hl'. eapply wp_mono; [|apply (IH fuel w'); [done|by rewrite Hc'|lia..]].
    intros ? w2 H2. by eapply (later_trans 1).
Qed.
Lemma wp_found_deadlock w (Q : bool → World → Prop) : (∀ b, Q b w) → wp found_deadlock Q w.
Proof.
  intros HQ. unfold found_deadlock. apply wp_reads.
  destruct (Deadlock.search_ends (mgr (w_sys w)) (_id (w_locker w))) as (d & b & Hd & Hb). rewrite Hd. wp_simpl. rewrite Hb. apply HQ.
Qed.
Lemma wp_wait_turn t checkDeadlock start n fuel w :
  Sound ids w → (S n ≤ length (w_sched w))%nat →
  (∀ w', Sound ids w' → clock w' n = clock w (S n) → length (w_sched w) = S (length (w_sched w')) → w_now w' < start + t * 1000 →
    match fuel with
    | O => False
    | S fuel => wp (wait_loop ids fuel (Some t) checkDeadlock start) (λ _ _, True) w'
    end) →
  wp (wait_loop ids fuel (Some t) checkDeadlock start) (λ _ _, True) w.
Proof.
  intros HS Hl Hgo.
  assert (∀ w', Sound ids w' → clock w' n = clock w (S n) → length (w_sched w) = S (length (w_sched w')) →
    wp (dead ← (if checkDeadlock then found_deadlock else mret false);
        if (dead : bool) then mret LOCK_DEADLOCK else
        curTimeMicros ← gets w_now;
        let waitTime := let totalBlockTime := Z.quot (curTimeMicros - start) 1000 in
                        if totalBlockTime <? t then Z.min (t - totalBlockTime) DeadlockTimeout else 0 in
        if waitTime =? 0 then mret LOCK_TIMEOUT else
        match fuel with O => fails OUT_OF_FUEL | S fuel => wait_loop ids fuel (Some t) checkDeadlock start end)
      (λ _ _, True) w') as Hrest.
  { intros w' HS' Hc' Hl'. wp_simpl.
    assert (∀ dead : bool, wp (if dead then mret LOCK_DEADLOCK else
        curTimeMicros ← gets w_now;
        let waitTime := let totalBlockTime := Z.quot (curTimeMicros - start) 1000 in
                        if totalBlockTime <? t then Z.min (t - totalBlockTime) DeadlockTimeout else 0 in
        if waitTime =? 0 then mret LOCK_TIMEOUT else
        match fuel with O => fails OUT_OF_FUEL | S fuel => wait_loop ids fuel (Some t) checkDeadlock start end)
      (λ _ _, True) w') as Hd.
    { intros []; wp_simpl; [done|]. cbn zeta. destruct (Z.ltb_spec (Z.quot (w_now w' - start) 1000) t) as [Hlt|]; wp_simpl; [|done].
      destruct (_ =? 0); wp_simpl; [done|]. assert (w_now w' < start + t * 1000) as Hnow.
      { destruct (Z.lt_ge_cases (w_now w') (start + t * 1000)) as [|Hge]; [done|]. exfalso.
        pose proof (Z.quot_le_mono (t * 1000) (w_now w' - start) 1000 ltac:(lia) ltac:(lia)) as Hq.
        rewrite Z.quot_mul in Hq by lia. lia. }
      specialize (Hgo w' HS' Hc' Hl' Hnow). by destruct fuel. }
    destruct checkDeadlock; [apply wp_found_deadlock; intros dead; apply Hd|apply (Hd false)]. }
  destruct fuel; cbn [wait_loop]; unfold notify_wait; wp_simpl.
  all: destruct (notified w) eqn:Hnt; wp_simpl; [rewrite Hnt; simpl; by wp_simpl|].
  all: eapply wp_sleep; [done|exact Hl|]; intros w' HS' _ Hc' Hl'; wp_simpl; destruct (notified w'); simpl; [by wp_simpl|].
  all: by apply Hrest.
Qed.
Lemma wp_wait_loop_ends t checkDeadlock start : ∀ n fuel w,
  Sound ids w → start + t * 1000 ≤ clock w (S n) → (S n ≤ length (w_sched w))%nat → (n ≤ fuel)%nat →
  wp (wait_loop ids fuel (Some t) checkDeadlock start) (λ _ _, True) w.
Proof.
  induction n as [|n IH]; intros fuel w HS Hc Hl Hf; (eapply wp_wait_turn; [done|exact Hl|]); intros w' HS' Hc' Hl' Hnow.
  - rewrite clock_0 in Hc'. lia.
  - destruct fuel as [|fuel]; [lia|]. apply IH; [done|by rewrite Hc'|lia..].
Qed.

(** ** Acquiring *)
Lemma wp_lockComplete_timed relock t checkDeadlock res m w w1 :
  begun ids res m w LOCK_WAITING w1 → may_give_up (Some t) checkDeadlock (sview w res) m →
  (res = resourceIdGlobal → _modeForTicket (w_locker w) ≠ MODE_NONE) → expires 0 t w1 →
  wp (lockComplete_with ids false throttled relock res (Some t) checkDeadlock) (λ _ _, True) w1.
Proof.
  intros Hb Hgu HG (k & tick & _ & Hk & Hle). specialize (Hle 0%nat ltac:(lia)). rewrite clock_0 in Hle.
  pose proof Hb as (_ & _ & _ & _ & _ & r' & Hu & _ & [[? _]|(_ & HW & _)]); [done|].
  assert (sview w1 res = Some r') as Hr1 by (by rewrite (Hu res), decide_True).
  unfold wp. rewrite lockComplete_end. apply wp_bind. pose proof (lookup_lt_Some _ _ _ Hk) as Hlt.
  eapply wp_mono; [|apply wpb_total; [by apply (wpb_wait_loop ids Hids (Some t) checkDeadlock (w_now w1) res _ w1 r')|
    apply (wp_wait_loop_ends t checkDeadlock (w_now w1) k); [apply (ba_sound ids), HW|by rewrite (clock_tick _ _ _ Hk)|lia|lia]]].
  intros result w2 [[Hwt Hmf] _]. eapply wp_mono; [|by eapply (wp_lock_end ids Hids)]. done.
Qed.
Lemma wp_lock_timed t checkDeadlock res m w :
  LInv ids w → res ≠ resourceIdGlobal → may_lock res m w → may_give_up (Some t) checkDeadlock (sview w res) m → expires 2 t w →
  wp (lock ids false throttled res m (Some t) checkDeadlock) (λ _ _, True) w.
Proof.
  intros HL Hres Hml Hgu Hx. unfold lock, lock_with. wp_simpl.
  eapply wp_mono; [|apply (wp_paced 2), (wp_lockBegin ids Hids); [apply paced_lockBegin|apply HL..|done]].
  intros result w1 [Hb Hlt]. pose proof Hb as (_ & _ & _ & _ & _ & r' & _ & _ & [[-> _]|[-> _]]).
  - rewrite bool_decide_true by done. by wp_simpl.
  - rewrite bool_decide_false by done. wp_simpl. split; [done|].
    eapply wp_lockComplete_timed; [done..|]. by apply (expires_later 2 0 t w).
Qed.
Lemma wp_waitForTicket_timed hd limit i w :
  Sound ids w → (1 ≤ i)%nat → (i ≤ length (w_sched w))%nat → limit ≤ clock w i →
  wp (waitForTicketUntil ids hd limit) (λ _ w', later i w w') w.
Proof.
  intros HS H1 Hi Hl. unfold waitForTicketUntil. wp_simpl.
  eapply wp_mono; [|by apply wp_interfere_later]. intros [] w1 [HS1 (j & Hj & Hs & Hn)]. wp_simpl.
  assert (length (w_sched w1) = (length (w_sched w) - j)%nat) as Hlen by (by rewrite Hs, length_drop).
  eapply wp_mono; [|apply (wp_sem_wait_ends hd limit (i - j)); [done| |lia..]].
  - intros got w2 H2. replace i with (j + (i - j))%nat by lia. eapply later_trans; [|exact H2]. by exists j.
  - rewrite (clock_later w w1 j _ Hs Hn). by replace (j + (i - j))%nat with i by lia.
Qed.
Lemma wp_take_ticket_timed m t i w :
  Idle ids w → (1 ≤ i)%nat → (i ≤ length (w_sched w))%nat → w_now w + t * 1000 ≤ clock w i →
  wp (take_ticket ids throttled m (Some t)) (λ _ w', later i w w') w.
Proof.
  intros HI H1 Hi Hl. unfold take_ticket, the, change. wp_simpl.
  assert (∀ (got : bool) w1, later i w w1 → wp (if got then
         modify (λ w, w <| w_locker := w_locker w <| _clientState := if isSharedLockMode m then kActiveReader else kActiveWriter |>
           <| _modeForTicket := m |> |>) ;; mret true
       else modify (λ w, w <| w_locker := w_locker w <| _clientState := kInactive |> |>) ;; mret false)
         (λ _ w', later i w w') w1) as Hrest.
  { intros [] w1 Hw1; wp_simpl; replace i with (i + 0)%nat by lia; (eapply later_trans; [exact Hw1|]); by apply later_same. }
  destruct (if _shouldAcquireTicket (w_locker w) then _ else None) as [hd|]; wp_simpl; [|by apply (Hrest true), later_same].
  eapply wp_mono; [|apply (wp_waitForTicket_timed hd _ i); [|done|exact Hi|exact Hl]].
  2: { match goal with |- Sound _ ?w1 => destruct (Idle_locker ids w w1 HI) as [HI1 _]; try done end; [|apply HI1]. intros b. apply HI. } intros got w1 Hw1. by apply Hrest.
Qed.
Lemma wp_lockGlobalBegin_timed m t i w :
  LInv ids w → may_lock resourceIdGlobal m w → (1 ≤ i)%nat → (i ≤ length (w_sched w))%nat → w_now w + t * 1000 ≤ clock w i →
  wp (lockGlobalBegin ids false throttled m (Some t)) (λ _ w', later (i + 2) w w') w.
Proof.
  intros HL Hml H1 Hi Hl. pose proof HL as [HI HC Ht _ _]. unfold lockGlobalBegin. apply wp_bind, wp_gets, wp_bind.
  assert (∀ (got : bool) w1, ticketed ids throttled (Some t) w got w1 → later i w w1 → wp
    (if got then
       result ← lockBegin resourceIdGlobal m;
       if bool_decide (result = LOCK_OK) then mret LOCK_OK else
       _ ← invariant 333 (λ _, bool_decide (result = LOCK_WAITING));
       mret result
     else mret LOCK_TIMEOUT) (λ _ w', later (i + 2) w w') w1) as Hrest.
  { intros [] w1 Htk Hw1; [|wp_simpl; eapply later_weaken; [|exact Hw1]; lia].
    pose proof (ticketed_Core ids throttled (Some t) w true w1 HC Htk) as HC1. wp_simpl. pose proof Htk as (HI1 & _ & Hrq & Hv1 & _).
    eapply wp_mono; [|apply (wp_paced 2), (wp_lockBegin ids Hids); [apply paced_lockBegin|done..|unfold may_lock in *; by rewrite Hrq, Hv1]].
    intros result w' [(_ & _ & _ & _ & _ & r' & _ & _ & [[-> _]|[-> _]]) Hw']; simpl; wp_simpl; [|split; [done|]]; by eapply later_trans. }
  destruct (eqb (_modeForTicket (w_locker w)) MODE_NONE) eqn:Em; [apply bool_decide_eq_true in Em|apply bool_decide_eq_false in Em].
  - eapply (wp_mono (take_ticket ids throttled m (Some t)));
      [|apply wpb_total; [by apply (wpb_take_ticket ids Hids); [| |apply Hml]|by apply (wp_take_ticket_timed m t i)]].
    intros got w1 [Htk Hw1]. by apply Hrest.
  - apply wp_ret, (Hrest true); [|by apply later_same]. split_and!; [done..|]. by left.
Qed.
Lemma wp_lock_global_timed m t w :
  LInv ids w → may_lock resourceIdGlobal m w → may_give_up (Some t) false (sview w resourceIdGlobal) m → expires_twice t w →
  wp (lockGlobalBegin ids false throttled m (Some t)) (λ result, wp
    (if bool_decide (result = LOCK_WAITING) then lockGlobalComplete ids false throttled (Some t) else mret result) (λ _ _, True)) w.
Proof.
  intros HL Hml Hgu (i & tick & Hi & Hk & Hle & Hx). pose proof (lookup_lt_Some _ _ _ Hk) as Hlt.
  eapply wp_mono; [|apply wpb_total; [by apply (wpb_lockGlobalBegin ids Hids throttled (Some t))|
    apply (wp_lockGlobalBegin_timed m t (S i)); [done|done|lia|lia|by rewrite (clock_tick _ _ _ Hk)]]].
  intros result w' [[[-> Htk]|(w1 & Htk & HC1 & Hb & [->| ->])] Hw'].
  - rewrite bool_decide_false by done. by wp_simpl.
  - rewrite bool_decide_false by done. by wp_simpl.
  - rewrite bool_decide_true by done. unfold lockGlobalComplete, lockComplete. pose proof Htk as (_ & _ & _ & Hv & _ & Hm).
    eapply wp_lockComplete_timed; [exact Hb|by rewrite Hv|intros _; by destruct Hm as [[_ ?]|[? _]]|].
    apply (expires_later (S i + 2) 0 t w); [done|]. by replace (S i + 2 + 0)%nat with (i + 3)%nat by lia.
Qed.
End takes.
