(* ===== verification/LockerProps.v ===== *)
(** * What a locker promises

    Runs of calls of one locker among others, from its construction on, within the contract that
    [allowed] spells out: no check fails and no bound of a loop is reached, the thread goes on or
    is still waiting; [lock] takes all or nothing; releases in a write unit of work are put off
    and made up for at its end, each once; yielding gives back and takes again what was held. *)
From S2P Require Import Prelude LockManager LockHeadInv LockHeadOps LockManagerInv LockManagerOps LockManagerProps DeadlockDetector FastMap Locker LockerView LockerOps LockerInv LockerCalls LockerWait.
Import Mode Head Manager Locking LockerImpl Res.
Implicit Types (r : LockRequest) (w : World) (res : Z).
Abbreviation G := resourceIdGlobal.

(** ** Calls *)
Inductive locker_call :=
| CLock (resId : Z) (m : LockMode) (timeout : option Z) (checkDeadlock : bool)
| CUnlock (resId : Z)
| CLockGlobal (m : LockMode)
| CTryLockGlobal (m : LockMode) (timeout : option Z)
| CUnlockGlobal
| CBeginUnit
| CEndUnit
| CYield.

Section runs.
Context (ids : gset Z) (throttled : bool).
(** The two halves, as the guards of d_concurrency.cpp call them. *)
Definition tryLockGlobal (m : LockMode) (timeout : option Z) : M World LockResult :=
  result ← lockGlobalBegin ids false throttled m timeout;
  if bool_decide (result = LOCK_WAITING) then lockGlobalComplete ids false throttled timeout else mret result.
Definition yield : M World () :=
  o ← saveLockStateAndUnlock ids false throttled;
  match o with
  | Some state => restoreLockState ids false throttled state
  | None => mret tt
  end.
Definition perform (c : locker_call) : M World () :=
  match c with
  | CLock resId m timeout checkDeadlock => _ ← lock ids false throttled resId m timeout checkDeadlock; mret tt
  | CUnlock resId => _ ← unlock ids throttled resId; mret tt
  | CLockGlobal m => _ ← lockGlobal ids false throttled m; mret tt
  | CTryLockGlobal m timeout => _ ← tryLockGlobal m timeout; mret tt
  | CUnlockGlobal => _ ← unlockGlobal ids throttled; mret tt
  | CBeginUnit => beginWriteUnitOfWork
  | CEndUnit => endWriteUnitOfWork ids false throttled
  | CYield => yield
  end.

(** ** The contract *)
Abbreviation requests_of w := (_requests (w_locker w)).
Definition lockable res (m : LockMode) (timeout : option Z) (checkDeadlock : bool) w : bool :=
  negb (eqb m MODE_NONE) && (1 <=? getType res) && (getType res <=? 6) &&
  match own_request res w with
  | None => vsize (FastMap.keys (requests_of w)) <? FastMap.PreallocCount
  | Some r =>
      (rq_recursiveCount r <? two32 - 1) && (isModeCovered m (rq_mode r) || isModeCovered (rq_mode r) m) &&
      (negb (fullPriority false res m) || (rq_enqueueAtFront r && rq_compatibleFirst r)) &&
      (isModeCovered m (rq_mode r) || (bool_decide (timeout = None) && negb checkDeadlock))
  end.
Definition count_is_one w res : bool := match own_request res w with Some r => rq_recursiveCount r =? 1 | None => false end.
Definition allowed (c : locker_call) w : bool :=
  match c with
  | CLock res m timeout checkDeadlock => negb (res =? G) && lockable res m timeout checkDeadlock w
  | CUnlock res =>
      match own_request res w with
      | Some r => occurrences res (_resourcesToUnlockAtEndOfUnitOfWork (w_locker w)) <? rq_recursiveCount r
      | None => false
      end
  | CLockGlobal m => lockable G m None false w
  | CTryLockGlobal m timeout => lockable G m timeout false w
  | CUnlockGlobal =>
      match own_request G w with
      | Some r => negb (rq_recursiveCount r =? 1) || ((_wuowNestingLevel (w_locker w) =? 0) &&
          forallb (λ res, stays res || count_is_one w res) (FastMap.keys (requests_of w)))
      | None => false
      end
  | CBeginUnit => true
  | CEndUnit => 0 <? _wuowNestingLevel (w_locker w)
  | CYield =>
      (_wuowNestingLevel (w_locker w) =? 0) &&
      match own_request G w with
      | None => forallb is_mutex (FastMap.keys (requests_of w))
      | Some r => negb (rq_recursiveCount r =? 1) || forallb (λ res,
          (res =? G) || is_mutex res ||
          (count_is_one w res && ((getType res =? RESOURCE_DATABASE) || (getType res =? RESOURCE_COLLECTION) ||
            ((getType res =? RESOURCE_GLOBAL) && isSharedLockMode (mode_of w res))))) (FastMap.keys (requests_of w))
      end
  end.
(** Calls that are not allowed are left out. *)
Definition run (cs : list locker_call) : M World () :=
  mfoldl (λ _ c, ok ← gets (allowed c); if (ok : bool) then perform c else mret tt) tt cs.

(** ** A new locker: lock_state.cpp, lines 267 and 268 *)
Definition LockerImpl_new (id : Z) (acquire : bool) : Locker :=
  mkLocker id (FastMap.empty 0) 0 0 [] MODE_NONE kInactive true acquire.
Definition world0 (id : Z) (acquire : bool) (readers writers : Z) (sched : list Tick) : World :=
  mkWorld start (LockerImpl_new id acquire) (mkHolder readers 0) (mkHolder writers 0) sched 0.

(** ** The contract is what the calls need *)
Context (Hids : Z.of_nat (size ids) < two32 - 2).
Abbreviation LInv := (LInv ids).
Lemma lockable_spec res m timeout checkDeadlock w :
  lockable res m timeout checkDeadlock w = true → may_lock res m w ∧ may_give_up timeout checkDeadlock (sview w res) m.
Proof.
  unfold lockable, may_lock, may_give_up, sview. rewrite !andb_true_iff. intros [[[Hm H1] H6] Hr].
  apply negb_true_iff, bool_decide_eq_false in Hm. apply Z.leb_le in H1, H6. destruct (own_request res w) as [r|].
  - rewrite !andb_true_iff in Hr. destruct Hr as [[[H2 H3] H4] H5]. apply Z.ltb_lt in H2. split.
    + split; [done|]. split; [lia|]. split; [split; [lia|by apply orb_true_iff]|].
      unfold prioritise. destruct (fullPriority false res m); [|done]. simpl in H4. apply andb_true_iff in H4 as [E F].
      destruct r; simpl in *. by subst.
    + apply orb_true_iff in H5 as [?|H5]; [by left|right]. apply andb_true_iff in H5 as [H5 H5'].
      by apply bool_decide_eq_true in H5; apply negb_true_iff in H5'.
  - apply Z.ltb_lt in Hr. split; [|done]. split; [done|]. split; lia.
Qed.
Lemma count_is_one_spec w res r : count_is_one w res = true → sview w res = Some r → rq_recursiveCount r = 1.
Proof. unfold count_is_one, sview. intros H Hr. rewrite Hr in H. by apply Z.eqb_eq in H. Qed.
Lemma all_keys (f : Z → bool) w :
  Core w → forallb f (FastMap.keys (requests_of w)) = true → ∀ res, is_Some (sview w res) → f res = true.
Proof. intros HC Hf res Hres. rewrite forallb_forall in Hf. apply Hf, list_elem_of_In. by apply (co_keys w HC). Qed.
Lemma may_unlock_global_spec w : LInv w → allowed CUnlockGlobal w = true → ∃ r, may_unlock_global r w.
Proof.
  intros HL. cbn [allowed]. destruct (own_request G w) as [r|] eqn:Hr; [|done]. intros Ha. exists r.
  destruct (Idle_granted ids Hids w G r (li_idle _ _ HL) Hr) as [_ H1]. split; [split; [done|]|].
  - assert (¬ 0 < occurrences G (_resourcesToUnlockAtEndOfUnitOfWork (w_locker w))) as Hno; [|lia].
    intros Hin%(occurrences_pos ids). by destruct (li_deferred _ _ HL G Hin).
  - intros E. rewrite E, Z.eqb_refl in Ha. cbn [negb orb] in Ha. apply andb_true_iff in Ha as [Hn Hall]. apply Z.eqb_eq in Hn. split; [done|].
    intros res r' Hr' Hs. pose proof (all_keys _ w (li_core _ _ HL) Hall res ltac:(rewrite Hr'; eauto)) as Hx. cbn beta in Hx.
    rewrite Hs in Hx. by eapply count_is_one_spec.
Qed.
Lemma may_save_spec w : LInv w → allowed CYield w = true → may_save w.
Proof.
  intros HL Ha. cbn [allowed] in Ha. apply andb_true_iff in Ha as [Hn Ha]. apply Z.eqb_eq in Hn. split; [done|].
  unfold sview at 1. destruct (own_request G w) as [r|].
  - intros E res r' Hne Hr' Hm. rewrite E, Z.eqb_refl in Ha. cbn [negb orb] in Ha.
    pose proof (all_keys _ w (li_core _ _ HL) Ha res ltac:(rewrite Hr'; eauto)) as Hx. cbn beta in Hx.
    rewrite (proj2 (Z.eqb_neq _ _) Hne), Hm in Hx. cbn [orb] in Hx. apply andb_true_iff in Hx as [H1 Hx].
    split; [by eapply count_is_one_spec|]. unfold mode_of in Hx. rewrite Hr' in Hx.
    rewrite !orb_true_iff, andb_true_iff, !Z.eqb_eq in Hx. tauto.
  - by apply (all_keys _ w (li_core _ _ HL)).
Qed.

(** ** Yielding *)
Lemma saved_takeable s w w1 :
  LInv w → save_result ids throttled w (Some s) w1 → takeable 1 (locks s) w1.
Proof.
  intros HL (_ & _ & _ & [_ Hx Hu _] & _ & Hv & Hlen). split; [|done|].
  - intros x (Hne & Hm & r & Hr & ->)%Hx. split_and!; try done.
    + by eapply (Idle_mode ids Hids w); [apply HL|].
    + apply (co_types w (li_core _ _ HL)). rewrite Hr. eauto.
    + apply (co_types w (li_core _ _ HL)). rewrite Hr. eauto.
    + by rewrite Hv, Hm.
  - pose proof (FastMap.keys_length _ (co_map w (li_core _ _ HL))). unfold vsize, FastMap.PreallocCount. lia.
Qed.
Lemma restored_holding s w w1 w' res :
  may_save w → save_result ids throttled w (Some s) w1 → taken ids throttled (global_one s :: locks s) w1 w' →
  holding w' res = holding w res.
Proof.
  intros [_ Hms] (_ & _ & _ & [Hgm Hx _ _] & (r & Hr & H1) & Hv & _) [_ _ _ He Ho]. rewrite Hr in Hms. specialize (Hms H1).
  destruct (decide (res = G)) as [->|Hne].
  { pose proof (He (global_one s) ltac:(left)) as Hh. simpl in Hh. rewrite Hh, Hgm. unfold holding, mode_of. rewrite Hr. simpl. by rewrite H1. }
  destruct (is_mutex res) eqn:Em.
  - unfold holding. rewrite Ho, Hv, Em; [done|]. rewrite fmap_cons, not_elem_of_cons. split; [done|].
    intros (x & -> & (_ & Hm & _)%Hx)%list_elem_of_fmap. congruence.
  - destruct (sview w res) as [r'|] eqn:Er.
    + pose proof (He (mkOneLock res (rq_mode r'))) as Hh. simpl in Hh. rewrite Hh.
      * unfold holding. rewrite Er. simpl. destruct (Hms res r' Hne Er Em) as [-> _]. done.
      * right. apply Hx. simpl. eauto.
    + unfold holding. rewrite Er, Ho, Hv, Em; [done|]. rewrite fmap_cons, not_elem_of_cons. split; [done|].
      intros (x & -> & (_ & _ & r' & Hr' & _)%Hx)%list_elem_of_fmap. congruence.
Qed.
Lemma wpb_yield w :
  LInv w → may_save w → wpb yield (λ _ w', LInv w' ∧ kept_locker (w_locker w) (w_locker w') ∧
    (∀ b, total throttled b w' = total throttled b w) ∧ ∀ res, holding w' res = holding w res) w.
Proof.
  intros HL Hms. unfold yield. wpb_simpl. apply wp_wpb. eapply wp_mono; [|by apply (wp_saveLockStateAndUnlock ids Hids)].
  intros [s|] w1 Hs; [|destruct Hs as [-> _]; by apply wpb_ret].
  pose proof Hs as (HL1 & Hk1 & Htt1 & Hsn & (r & Hr & _) & Hv1 & _).
  eapply wpb_mono; [|apply (wpb_restoreLockState ids Hids throttled s w1); try done].
  - intros [] w' Htk. pose proof Htk as [HL' Hk Htt _ _]. split_and!; [done|by eapply locker_kept_trans|intros b; by rewrite Htt|].
    intros res. by eapply restored_holding.
  - destruct Hk1 as (_ & -> & _). apply Hms.
  - by apply (saved_takeable s w).
  - rewrite (sn_global _ _ Hsn). unfold mode_of. rewrite Hr. eapply (Idle_mode ids Hids w); [apply HL|done].
Qed.

(** ** Every call *)
Lemma wpb_perform c w :
  LInv w → allowed c w = true → wpb (perform c) (λ _ w', LInv w' ∧ ∀ b, total throttled b w' = total throttled b w) w.
Proof.
  intros HL Ha. destruct c as [res m timeout cd|res|m|m timeout| | | |]; cbn [perform]; wpb_simpl.
  - cbn [allowed] in Ha. apply andb_true_iff in Ha as [Hne Ha]. apply negb_true_iff, Z.eqb_neq in Hne.
    apply lockable_spec in Ha as [Hml Hgu]. eapply wpb_mono; [|by apply (wpb_lock ids Hids throttled)].
    intros result w' [HL' (_ & _ & _ & _ & Htt & _)]. by apply wpb_ret.
  - cbn [allowed] in Ha. destruct (own_request res w) as [r|] eqn:Hr; [|done]. apply Z.ltb_lt in Ha.
    apply wp_wpb. eapply wp_mono; [|by apply (wp_unlock ids Hids throttled res r)]. intros gone w' [HL' Hc]. apply wpb_ret.
    split; [done|]. destruct (puts_off res r w); [by destruct Hc as [_ ->]|apply Hc].
  - apply lockable_spec in Ha as [Hml _]. eapply wpb_mono; [|by apply (wpb_lockGlobal ids Hids throttled)].
    intros result w' (_ & _ & HL' & _ & Htt & _). by apply wpb_ret.
  - apply lockable_spec in Ha as [Hml Hgu]. unfold tryLockGlobal. wpb_simpl.
    apply (wpb_lock_global ids Hids throttled); [done..|]. intros result w' (_ & HL' & _ & Htt & _). by apply wpb_ret.
  - destruct (may_unlock_global_spec w HL Ha) as [r Hr]. apply wp_wpb.
    eapply wp_mono; [|by apply (wp_unlockGlobal ids Hids throttled r)]. intros gone w' (_ & HL' & _ & Htt & _). by apply wpb_ret.
  - apply wp_wpb. eapply wp_mono; [|by apply (wp_beginWriteUnitOfWork ids throttled)]. intros [] w' (HL' & _ & _ & _ & Htt). done.
  - cbn [allowed] in Ha. apply Z.ltb_lt in Ha. apply wp_wpb. eapply wp_mono; [|by apply (wp_endWriteUnitOfWork ids Hids throttled)].
    intros [] w' (HL' & _ & Htt & _). done.
  - eapply wpb_mono; [|apply wpb_yield; [done|by apply may_save_spec]]. intros [] w' (HL' & _ & Htt & _). done.
Qed.
Lemma wpb_run cs : ∀ w, LInv w → wpb (run cs) (λ _ w', LInv w' ∧ ∀ b, total throttled b w' = total throttled b w) w.
Proof.
  unfold run. induction cs as [|c cs IH]; intros w HL; cbn [mfoldl]; wpb_simpl; [done|].
  assert (wpb (if allowed c w then perform c else mret tt)
    (λ _ w', LInv w' ∧ ∀ b, total throttled b w' = total throttled b w) w) as Hc.
  { destruct (allowed c w) eqn:Ha; [by apply wpb_perform|by apply wpb_ret]. }
  eapply wpb_mono; [|exact Hc]. intros [] w1 [HL1 Htt1]. eapply wpb_mono; [|by apply IH].
  intros [] w' [HL' Htt']. split; [done|]. intros b. by rewrite Htt'.
Qed.
Lemma LInv_world0 id acquire readers writers sched :
  id ∈ ids → 0 ≤ readers → 0 ≤ writers → LInv (world0 id acquire readers writers sched).
Proof.
  intros Hin Hr Hw. assert (∀ res, sview (world0 id acquire readers writers sched) res = None) as Hv by done.
  split.
  - split; [split; [split|..]|]; try done.
    + apply reach_start.
    + apply Nat.le_0_l.
    + intros []; simpl; lia.
    + left. split; [done|]. apply Nat.le_0_l.
  - split; try done; [apply FastMap.empty_WF| |].
    + intros res. rewrite Hv. split; [intros Hin'; by apply elem_of_nil in Hin'|by intros [? ?]].
    + intros res. rewrite Hv. by intros [? ?].
  - unfold Ticketed. rewrite Hv. split; [by intros [? ?]|done].
  - intros res Hq. by apply elem_of_nil in Hq.
  - done.
Qed.
End runs.

(** ** What is held, after a change *)
Lemma upd_holding res o w w' :
  upd_view res o w w' → ∀ res', holding w' res' =
    if decide (res' = res) then (λ r, (rq_mode r, rq_recursiveCount r)) <$> o else holding w res'.
Proof. intros Hu res'. unfold holding. rewrite (Hu res'). by case_decide. Qed.
Lemma same_holding w w' : (∀ res, sview w' res = sview w res) → ∀ res, holding w' res = holding w res.
Proof. intros Hv res. unfold holding. by rewrite Hv. Qed.
(** What is held after [n] releases. *)
Definition less (n : Z) (h : LockMode * Z) : option (LockMode * Z) := if h.2 =? n then None else Some (h.1, h.2 - n).
Lemma minus_less n r : (λ r, (rq_mode r, rq_recursiveCount r)) <$> minus n r = less n (rq_mode r, rq_recursiveCount r).
Proof. unfold minus, less. simpl. by destruct (rq_recursiveCount r =? n). Qed.
Lemma counted_down_less r : (λ r, (rq_mode r, rq_recursiveCount r)) <$> counted_down r = less 1 (rq_mode r, rq_recursiveCount r).
Proof. unfold counted_down, less. simpl. by destruct (rq_recursiveCount r =? 1). Qed.
(** What is held after acquiring in mode [m]. *)
Definition more (m : LockMode) (o : option (LockMode * Z)) : LockMode * Z :=
  match o with
  | None => (m, 1)
  | Some (m', n) => (if isModeCovered m m' then m' else m, n + 1)
  end.
Lemma acquires_more w res m r' :
  acquires (sview w res) m r' → (rq_mode r', rq_recursiveCount r') = more m (holding w res).
Proof. unfold acquires, holding, more. intros [-> ->]. by destruct (sview w res). Qed.

Section claims.
Context (ids : gset Z) (throttled : bool) (Hids : Z.of_nat (size ids) < two32 - 2).
Abbreviation LInv := (LInv ids).
Abbreviation total := (total throttled).
Abbreviation queue w := (_resourcesToUnlockAtEndOfUnitOfWork (w_locker w)).
Abbreviation nesting w := (_wuowNestingLevel (w_locker w)).

(** C20. Whatever other lockers do in between, and whatever calls a new locker gets that its contract
    [allowed] lets through, no check fails in the locker, in its notification or in the lock manager
    and no loop runs out of its bound: the calls return, or the thread is still waiting when the
    schedule ends.  In particular the locker is never notified twice ([CondVarLockGrantNotification]:
    [_result] is LOCK_INVALID at each call of [notify]).  When the calls return, the locker is in
    order and no ticket is lost or made up.  The contract: a request is for a known type of resource
    in a mode other than NONE; a new one finds room among the 16 of the map; one for a resource that
    is held already stays below the 2^32 - 1 counts, asks for a mode that covers the held one or is
    covered by it, comes with a timeout or deadlock detection only if the held mode is enough, and
    does not newly get the priority of the full modes; what is released is held and not due at the
    end of the write unit of work; everything is released or yielded only outside of write units
    of work and while the locks that go are held once; the engine is not MMAPv1. *)
Theorem locker_runs_safely id acquire readers writers sched cs :
  id ∈ ids → 0 ≤ readers → 0 ≤ writers →
  match run ids throttled cs (world0 id acquire readers writers sched) with
  | Ret (_, w') => LInv w' ∧ total false w' = readers ∧ total true w' = writers
  | Abort line => line = BLOCKED
  end.
Proof.
  intros Hin Hr Hw. pose proof (wpb_run ids throttled Hids cs _ (LInv_world0 ids id acquire readers writers sched Hin Hr Hw)) as H.
  unfold wpb in H. destruct (run _ _ _ _) as [[[] w']|]; [|done]. destruct H as [HL Ht]. split; [done|].
  assert (∀ b, mine throttled b (LockerImpl_new id acquire) = 0) as Hm by (intros b; by apply mine_none).
  rewrite !Ht. unfold LockerInv.total. simpl. rewrite !Hm. unfold pool. simpl. lia.
Qed.

(** C21. Within its contract [lock] takes all or nothing: with LOCK_OK the resource is held once more,
    in a mode that covers the one asked for, and nothing else has changed; a timeout or a deadlock,
    only for those who asked for it, leaves the locker with just what it had.  It returns once the
    clock has passed its timeout: if the thread is still waiting at the end of the schedule, the
    clock has not.  The contract [allowed] is that of the locker: not the global resource, which has
    its own operation; a known type and a mode other than NONE; room in the map for a new resource;
    and for one that is held already a mode that covers the held one or is covered by it, no priority
    that the request did not have, and no timeout and no deadlock detection unless the held mode is
    enough.  The last excludes upgrades that may be given up: one that is granted while it is given up
    takes the lock that was held before along ([cancelled_conversion_loses_the_lock]). *)
Theorem lock_takes_all_or_nothing res m timeout checkDeadlock w :
  LInv w → allowed (CLock res m timeout checkDeadlock) w = true →
  match lock ids false throttled res m timeout checkDeadlock w with
  | Ret (result, w') =>
      LInv w' ∧ may_fail timeout checkDeadlock result ∧ (∀ b, total b w' = total b w) ∧
      ∀ res', holding w' res' = if decide (result = LOCK_OK ∧ res' = res) then Some (more m (holding w res)) else holding w res'
  | Abort line => line = BLOCKED ∧ ∀ t, timeout = Some t → ¬ expires 2 t w
  end.
Proof.
  intros HL Ha. cbn [allowed] in Ha. apply andb_true_iff in Ha as [Hne Ha]. apply negb_true_iff, Z.eqb_neq in Hne.
  apply (lockable_spec ids) in Ha as [Hml Hgu]. pose proof (wpb_lock ids Hids throttled timeout checkDeadlock res m w HL Hne Hml Hgu) as H.
  unfold wpb in H. destruct (lock _ _ _ _ _ _ _ w) as [[result w']|] eqn:E.
  2:{ split; [done|]. intros t -> Hx. pose proof (wp_lock_timed ids throttled Hids t checkDeadlock res m w HL Hne Hml Hgu Hx) as Hw.
      unfold wp in Hw. by rewrite E in Hw. }
  clear E. destruct H as [HL' (Hmf & _ & _ & _ & Htt & Hc)].
  split_and!; try done. intros res'. destruct Hc as [(-> & _ & r' & Hu & Hacq)|(Hno & _ & _ & Hv)].
  - rewrite (upd_holding _ _ _ _ Hu res'). simpl. rewrite (acquires_more w res m r' Hacq). repeat case_decide; naive_solver.
  - case_decide as E; [by destruct E|by apply same_holding].
Qed.

(** The same for the global lock, with the tickets: after a timeout, on the ticket or on the lock,
    the ticket is back.  The timeout counts twice, first for the ticket and then for the lock. *)
Theorem global_lock_takes_all_or_nothing m timeout w :
  LInv w → allowed (CTryLockGlobal m timeout) w = true →
  match tryLockGlobal ids throttled m timeout w with
  | Ret (result, w') =>
      LInv w' ∧ may_fail timeout false result ∧ (∀ b, total b w' = total b w) ∧
      ∀ res', holding w' res' = if decide (result = LOCK_OK ∧ res' = G) then Some (more m (holding w G)) else holding w res'
  | Abort line => line = BLOCKED ∧ ∀ t, timeout = Some t → ¬ expires_twice t w
  end.
Proof.
  intros HL Ha. apply (lockable_spec ids) in Ha as [Hml Hgu].
  assert (wpb (tryLockGlobal ids throttled m timeout) (global_outcome ids throttled timeout m w) w) as H.
  { unfold tryLockGlobal. wpb_simpl. by apply (wpb_lock_global ids Hids throttled). }
  unfold wpb in H. destruct (tryLockGlobal _ _ _ _ w) as [[result w']|] eqn:E.
  2:{ split; [done|]. intros t -> Hx. pose proof (wp_lock_global_timed ids throttled Hids m t w HL Hml Hgu Hx) as Hw.
      apply wp_bind in Hw. unfold wp in Hw. unfold tryLockGlobal in E. by rewrite E in Hw. }
  clear E. destruct H as (Hmf & HL' & _ & Htt & Hc).
  split_and!; try done. intros res'. destruct Hc as [(-> & r' & Hu & Hacq)|(Hno & Hv)].
  - rewrite (upd_holding _ _ _ _ Hu res'). simpl. rewrite (acquires_more w G m r' Hacq). repeat case_decide; naive_solver.
  - case_decide as E; [by destruct E|by apply same_holding].
Qed.

(** [unlock]: in a write unit of work the release of a database, a collection or metadata in mode
    X or IX is only noted, the lock manager is not even called; any other release counts down by
    one, and says whether that was the last. *)
Theorem unlock_is_two_phase res w :
  LInv w → allowed (CUnlock res) w = true →
  ∃ m n gone w', holding w res = Some (m, n) ∧ unlock ids throttled res w = Ret (gone, w') ∧ LInv w' ∧
    (∀ b, total b w' = total b w) ∧
    if (0 <? nesting w) && delays res m then
      gone = false ∧ w_sys w' = w_sys w ∧ queue w' = queue w ++ [res] ∧ ∀ res', holding w' res' = holding w res'
    else
      gone = (n =? 1) ∧ queue w' = queue w ∧
      ∀ res', holding w' res' = if decide (res' = res) then less 1 (m, n) else holding w res'.
Proof.
  intros HL Ha. cbn [allowed] in Ha. destruct (own_request res w) as [r|] eqn:Hr; [|done]. apply Z.ltb_lt in Ha.
  pose proof (wp_unlock ids Hids throttled res r w HL (conj Hr Ha)) as (gone & w' & Hx & HL' & Hc)%wp_Ret.
  exists (rq_mode r), (rq_recursiveCount r), gone, w'. split; [unfold holding, sview; by rewrite Hr|]. split; [done|]. split; [done|].
  fold (puts_off res r w). destruct (puts_off res r w).
  - destruct Hc as [-> ->]. split; [done|]. split_and!; done.
  - destruct Hc as (-> & _ & _ & _ & (_ & _ & Hq & _) & Htt & Hu & _). split; [done|]. split_and!; try done.
    intros res'. by rewrite (upd_holding _ _ _ _ Hu res'), counted_down_less.
Qed.

(** The end of the outermost write unit of work makes up for the releases that were put off, each
    once, and keeps everything else; the end of an inner one releases nothing. *)
Theorem end_of_unit_releases_what_was_put_off w :
  LInv w → allowed CEndUnit w = true →
  ∃ w', endWriteUnitOfWork ids false throttled w = Ret (tt, w') ∧ LInv w' ∧ nesting w' = nesting w - 1 ∧
    (∀ b, total b w' = total b w) ∧
    if nesting w =? 1 then queue w' = [] ∧ ∀ res, holding w' res = holding w res ≫= less (occurrences res (queue w))
    else queue w' = queue w ∧ ∀ res, holding w' res = holding w res.
Proof.
  intros HL Ha. cbn [allowed] in Ha. apply Z.ltb_lt in Ha.
  pose proof (wp_endWriteUnitOfWork ids Hids throttled w HL Ha) as ([] & w' & Hx & HL' & Hn & Htt & Hc)%wp_Ret.
  exists w'. split_and!; try done. destruct (nesting w =? 1); destruct Hc as [Hq Hv]; (split; [done|]); [|by apply same_holding].
  intros res. unfold holding at 1. rewrite Hv. unfold holding. destruct (sview w res) as [r|]; [|done]. simpl. apply minus_less.
Qed.

(** C22. Yielding is transparent: after [saveLockStateAndUnlock] and [restoreLockState], with whatever
    the others did meanwhile, every resource is held as before, in the same mode and as often. *)
Theorem yield_roundtrip w :
  LInv w → allowed CYield w = true →
  match yield ids throttled w with
  | Ret (_, w') => LInv w' ∧ (∀ b, total b w' = total b w) ∧ ∀ res, holding w' res = holding w res
  | Abort line => line = BLOCKED
  end.
Proof.
  intros HL Ha. pose proof (wpb_yield ids throttled Hids w HL (may_save_spec ids w HL Ha)) as H. unfold wpb in H.
  destruct (yield _ _ w) as [[[] w']|]; [|done]. destruct H as (? & _ & ? & ?). done.
Qed.

(** [unlockGlobal] counts the global lock down; with the last count everything goes but the
    resources of type global and mutex, and the ticket is back. *)
Theorem unlockGlobal_releases_everything w :
  LInv w → allowed CUnlockGlobal w = true →
  ∃ m n gone w', holding w G = Some (m, n) ∧ unlockGlobal ids throttled w = Ret (gone, w') ∧ gone = (n =? 1) ∧ LInv w' ∧
    (∀ b, total b w' = total b w) ∧
    ∀ res, holding w' res = if decide (res = G) then less 1 (m, n)
                            else if gone && negb (stays res) then None else holding w res.
Proof.
  intros HL Ha. destruct (may_unlock_global_spec ids Hids w HL Ha) as [r Hr].
  pose proof (wp_unlockGlobal ids Hids throttled r w HL Hr) as (gone & w' & Hx & Hg & HL' & _ & Htt & Hv)%wp_Ret.
  exists (rq_mode r), (rq_recursiveCount r), gone, w'. split; [unfold holding; by rewrite (proj1 (proj1 Hr))|].
  split_and!; try done. intros res. unfold holding, less. rewrite Hv, Hg. cbn [fst snd].
  destruct (rq_recursiveCount r =? 1); case_decide as E; [subst; by rewrite bool_decide_true|
    rewrite bool_decide_false by done; by destruct (stays res)|subst; by rewrite bool_decide_true|by rewrite bool_decide_false].
Qed.
End claims.

(** ** Examples *)
Definition two_lockers : gset Z := {[1; 2]}.
Lemma two_lockers_fit : Z.of_nat (size two_lockers) < two32 - 2.
Proof. by vm_compute. Qed.
Definition some_db : Z := fullHash RESOURCE_DATABASE 17.
Definition some_coll : Z := fullHash RESOURCE_COLLECTION 18.
Definition fresh (sched : list Tick) : World := world0 1 true 128 128 sched.
Definition working (sched : list Tick) (cs : list locker_call) : World :=
  match run two_lockers true cs (fresh sched) with Ret (_, w) => w | Abort _ => fresh [] end.
Lemma working_inv sched cs : LInv two_lockers (working sched cs).
Proof.
  assert (∀ sched, LInv two_lockers (fresh sched)) as H0 by (intros; apply LInv_world0; [by vm_compute|done..]).
  pose proof (wpb_run two_lockers true two_lockers_fit cs (fresh sched) (H0 sched)) as H. unfold wpb in H. unfold working.
  destruct (run _ _ _ _) as [[[] w']|]; [apply H|apply H0].
Qed.
Definition reading : list locker_call := [CLockGlobal MODE_IS; CLock some_db MODE_IS None false; CLock some_coll MODE_IS None false].
Definition writing : list locker_call :=
  [CLockGlobal MODE_IX; CLock some_db MODE_IX None false; CBeginUnit; CLock some_coll MODE_X None false; CLock some_coll MODE_IX None false].
(** Locker 2 has the database meanwhile, and gives it back in the second schedule. *)
Definition taken_by_2 : list Tick := [mkTick (lock_calls some_db 2 MODE_X) [] 0; mkTick [] [] 400000; mkTick [] [] 900000; mkTick [] [] 1000000].
Definition given_back_by_2 : list Tick :=
  [mkTick (lock_calls some_db 2 MODE_X) [] 0; mkTick [UnlockBegin some_db 2; UnlockFinish some_db 2] [] 400000; mkTick [] [] 900000; mkTick [] [] 1000000].
Definition outcome_of {A} (o : outcome (A * World)) : option A := match o with Ret (a, _) => Some a | Abort _ => None end.
Lemma contended_lock :
  outcome_of (lock two_lockers false true some_db MODE_S (Some 600) true (fresh taken_by_2)) = Some LOCK_TIMEOUT ∧
  outcome_of (lock two_lockers false true some_db MODE_S (Some 600) true (fresh given_back_by_2)) = Some LOCK_OK ∧
  lock two_lockers false true some_db MODE_S None false (fresh taken_by_2) = Abort BLOCKED.
Proof. vm_compute. done. Qed.

(** The locker waits for the database and is notified, once; a second call of [notify] would fail. *)
Definition waits_for_db : list locker_call := [CLock some_db MODE_S (Some 600) true; CLock some_coll MODE_S None false].
Definition given_back_late : list Tick :=
  [mkTick (lock_calls some_db 2 MODE_X) [] 0; mkTick [] [] 0; mkTick [UnlockBegin some_db 2; UnlockFinish some_db 2] [] 400000].
Definition notified_again (w : World) : World :=
  w <| w_sys := w_sys w <| mgr := mgr (w_sys w) <| lm_notified := lm_notified (mgr (w_sys w)) ++ [(some_db, 1)] |> |> |>.
Lemma second_notification_fails :
  match lock two_lockers false true some_db MODE_S (Some 600) true (fresh given_back_late) with
  | Ret (result, w) => result = LOCK_OK ∧ notes w = [(some_db, 1)] ∧ interfere two_lockers (notified_again w) = Abort 244
  | Abort _ => False
  end.
Proof. vm_compute. done. Qed.
Lemma locker_runs_safely_witness :
  holding (working [] writing) some_coll = Some (MODE_X, 2) ∧
  holding (working given_back_late waits_for_db) some_db = Some (MODE_S, 1) ∧
  (match run two_lockers true writing (fresh []) with
   | Ret (_, w') => LInv two_lockers w' ∧ total true false w' = 128 ∧ total true true w' = 128
   | Abort line => line = BLOCKED
   end) ∧
  match run two_lockers true waits_for_db (fresh given_back_late) with
  | Ret (_, w') => LInv two_lockers w' ∧ total true false w' = 128 ∧ total true true w' = 128
  | Abort line => line = BLOCKED
  end.
Proof.
  split; [by vm_compute|]. split; [by vm_compute|]. split.
  - apply (locker_runs_safely two_lockers true two_lockers_fit 1 true 128 128 [] writing); [by vm_compute|lia|lia].
  - apply (locker_runs_safely two_lockers true two_lockers_fit 1 true 128 128 given_back_late waits_for_db); [by vm_compute|lia|lia].
Defined.
Lemma lock_takes_all_or_nothing_witness :
  expires 2 600 (working taken_by_2 []) ∧
  match lock two_lockers false true some_db MODE_S (Some 600) true (working taken_by_2 []) with
  | Ret (result, w') =>
      LInv two_lockers w' ∧ may_fail (Some 600) true result ∧ (∀ b, total true b w' = total true b (working taken_by_2 [])) ∧
      ∀ res', holding w' res' = if decide (result = LOCK_OK ∧ res' = some_db) then Some (more MODE_S (holding (working taken_by_2 []) some_db))
                                else holding (working taken_by_2 []) res'
  | Abort line => line = BLOCKED ∧ ∀ t, Some 600 = Some t → ¬ expires 2 t (working taken_by_2 [])
  end.
Proof.
  split; [exists 3%nat; eexists; split_and!; [lia|done|]; intros [|[|[|j]]] Hj; [by vm_compute..|lia]|].
  apply (lock_takes_all_or_nothing two_lockers true two_lockers_fit); [apply working_inv|by vm_compute].
Defined.
Lemma global_lock_takes_all_or_nothing_witness :
  match tryLockGlobal two_lockers true MODE_X (Some 100) (working [] []) with
  | Ret (result, w') =>
      LInv two_lockers w' ∧ may_fail (Some 100) false result ∧ (∀ b, total true b w' = total true b (working [] [])) ∧
      ∀ res', holding w' res' = if decide (result = LOCK_OK ∧ res' = G) then Some (more MODE_X (holding (working [] []) G))
                                else holding (working [] []) res'
  | Abort line => line = BLOCKED ∧ ∀ t, Some 100 = Some t → ¬ expires_twice t (working [] [])
  end.
Proof.
  apply (global_lock_takes_all_or_nothing two_lockers true two_lockers_fit); [apply working_inv|by vm_compute].
Defined.
Lemma unlock_is_two_phase_witness :
  ∃ m n gone w', holding (working [] writing) some_coll = Some (m, n) ∧
    unlock two_lockers true some_coll (working [] writing) = Ret (gone, w') ∧ LInv two_lockers w' ∧
    (∀ b, total true b w' = total true b (working [] writing)) ∧
    if (0 <? _wuowNestingLevel (w_locker (working [] writing))) && delays some_coll m then
      gone = false ∧ w_sys w' = w_sys (working [] writing) ∧
      _resourcesToUnlockAtEndOfUnitOfWork (w_locker w') = _resourcesToUnlockAtEndOfUnitOfWork (w_locker (working [] writing)) ++ [some_coll] ∧
      ∀ res', holding w' res' = holding (working [] writing) res'
    else
      gone = (n =? 1) ∧
      _resourcesToUnlockAtEndOfUnitOfWork (w_locker w') = _resourcesToUnlockAtEndOfUnitOfWork (w_locker (working [] writing)) ∧
      ∀ res', holding w' res' = if decide (res' = some_coll) then less 1 (m, n) else holding (working [] writing) res'.
Proof. apply (unlock_is_two_phase two_lockers true two_lockers_fit); [apply working_inv|by vm_compute]. Defined.
Definition unit_ends : World := working [] (writing ++ [CUnlock some_coll; CUnlock some_coll; CUnlock some_db]).
Lemma end_of_unit_releases_what_was_put_off_witness :
  _resourcesToUnlockAtEndOfUnitOfWork (w_locker unit_ends) = [some_coll; some_coll; some_db] ∧
  ∃ w', endWriteUnitOfWork two_lockers false true unit_ends = Ret (tt, w') ∧ LInv two_lockers w' ∧
    _wuowNestingLevel (w_locker w') = _wuowNestingLevel (w_locker unit_ends) - 1 ∧
    (∀ b, total true b w' = total true b unit_ends) ∧
    if _wuowNestingLevel (w_locker unit_ends) =? 1 then
      _resourcesToUnlockAtEndOfUnitOfWork (w_locker w') = [] ∧
      ∀ res, holding w' res = holding unit_ends res ≫= less (occurrences res (_resourcesToUnlockAtEndOfUnitOfWork (w_locker unit_ends)))
    else _resourcesToUnlockAtEndOfUnitOfWork (w_locker w') = _resourcesToUnlockAtEndOfUnitOfWork (w_locker unit_ends) ∧
      ∀ res, holding w' res = holding unit_ends res.
Proof.
  split; [by vm_compute|]. apply (end_of_unit_releases_what_was_put_off two_lockers true two_lockers_fit); [apply working_inv|by vm_compute].
Defined.
Lemma yield_roundtrip_witness :
  holding (working [] reading) some_coll = Some (MODE_IS, 1) ∧
  match yield two_lockers true (working [] reading) with
  | Ret (_, w') => LInv two_lockers w' ∧ (∀ b, total true b w' = total true b (working [] reading)) ∧
                   ∀ res, holding w' res = holding (working [] reading) res
  | Abort line => line = BLOCKED
  end.
Proof.
  split; [by vm_compute|]. apply (yield_roundtrip two_lockers true two_lockers_fit); [apply working_inv|by vm_compute].
Defined.
Lemma unlockGlobal_releases_everything_witness :
  ∃ m n gone w', holding (working [] reading) G = Some (m, n) ∧ unlockGlobal two_lockers true (working [] reading) = Ret (gone, w') ∧
    gone = (n =? 1) ∧ LInv two_lockers w' ∧ (∀ b, total true b w' = total true b (working [] reading)) ∧
    ∀ res, holding w' res = if decide (res = G) then less 1 (m, n)
                            else if gone && negb (stays res) then None else holding (working [] reading) res.
Proof. apply (unlockGlobal_releases_everything two_lockers true two_lockers_fit); [apply working_inv|by vm_compute]. Defined.

(** A global lock that is upgraded to S or X gets the flag for priority when it is granted already.
    If it is on the head of the lock by then, here because locker 2 asked for X and gave up, nobody
    counts it; the count is taken down with the last release, and the check at lock_manager.cpp,
    line 595, fails. *)
Definition asked_by_2 : list Tick :=
  [mkTick [] [] 0; mkTick [] [] 0; mkTick [] [] 0;
   mkTick (lock_calls G 2 MODE_X ++ [UnlockBegin G 2; UnlockFinish G 2]) [] 0].
Definition release_twice (w : World) : outcome (bool * World) :=
  '(gone, w) ← unlockGlobal two_lockers true w; _ ← check 0 (negb gone); unlockGlobal two_lockers true w.
Lemma upgraded_global_lock_fails_at_release :
  let w := working asked_by_2 [CLockGlobal MODE_IS; CLock some_db MODE_IS None false] in
  holding w some_db = Some (MODE_IS, 1) ∧ allowed (CLockGlobal MODE_S) w = false ∧
  match lockGlobal two_lockers false true MODE_S w with
  | Ret (result, w2) => result = LOCK_OK ∧ release_twice w2 = Abort 595
  | Abort _ => False
  end.
Proof. vm_compute. done. Qed.
