(* ===== verification/LockGuards.v ===== *)
(** * Scoped locks

    The guards of src/mongo/db/concurrency/d_concurrency.cpp over the locker: constructors take,
    destructors give back.  Whether the storage engine locks documents, and the hashes of names,
    are parameters. *)
From S2P Require Import Prelude LockManager LockHeadInv LockHeadOps LockManagerInv LockManagerOps LockManagerProps DeadlockDetector FastMap Locker LockerView LockerOps LockerInv LockerCalls LockerProps.
Import Mode Head Manager Locking LockerImpl Res.
Implicit Types (r : LockRequest) (w : World) (res : Z).

Record ResourceLock := mkResourceLock { rl_rid : Z; rl_result : LockResult }.
Record GlobalLock := mkGlobalLock { gl_result : LockResult; gl_pbwm : ResourceLock }.
Record DBLock := mkDBLock { db_id : Z; db_mode : LockMode; db_globalLock : GlobalLock }.

Module Guard.
Section guards.
Context (ids : gset Z) (throttled : bool) (supportsDocLocking : bool) (resourceIdAdminDB : Z).
Abbreviation LK := (M World).
Abbreviation lock := (LockerImpl.lock ids false throttled).
Abbreviation unlock := (LockerImpl.unlock ids throttled).

(** ** ResourceLock *)
Definition resourceLock (rid : Z) : ResourceLock := mkResourceLock rid LOCK_INVALID.
Definition resource_lock (g : ResourceLock) (m : LockMode) : LK ResourceLock :=
  invariant 210 (λ _, bool_decide (rl_result g = LOCK_INVALID)) ;;
  result ← lock (rl_rid g) m None false;
  invariant 212 (λ _, bool_decide (result = LOCK_OK)) ;;
  mret (mkResourceLock (rl_rid g) result).
Definition resource_unlock (g : ResourceLock) : LK ResourceLock :=
  if bool_decide (rl_result g = LOCK_OK)
  then _ ← unlock (rl_rid g); mret (mkResourceLock (rl_rid g) LOCK_INVALID)
  else mret g.

(** ** GlobalLock *)
Definition global_isLocked (g : GlobalLock) : bool := bool_decide (gl_result g = LOCK_OK).
Definition global_enqueue (g : GlobalLock) (m : LockMode) (timeout : option Z) : LK GlobalLock :=
  conflict ← the _shouldConflictWithSecondaryBatchApplication;
  pbwm ← (if (conflict : bool) then resource_lock (gl_pbwm g) MODE_IS else mret (gl_pbwm g));
  result ← lockGlobalBegin ids false throttled m timeout;
  mret (mkGlobalLock result pbwm).
(** That the global lock was taken for writing is also noted in the operation; nothing here reads it. *)
Definition waitForLock (g : GlobalLock) (timeout : option Z) : LK GlobalLock :=
  result ← (if bool_decide (gl_result g = LOCK_WAITING)
            then lockGlobalComplete ids false throttled timeout else mret (gl_result g));
  conflict ← the _shouldConflictWithSecondaryBatchApplication;
  pbwm ← (if negb (bool_decide (result = LOCK_OK)) && conflict then resource_unlock (gl_pbwm g) else mret (gl_pbwm g));
  mret (mkGlobalLock result pbwm).
Definition globalLock_enqueueOnly (m : LockMode) (timeout : option Z) : LK GlobalLock :=
  global_enqueue (mkGlobalLock LOCK_INVALID (resourceLock resourceIdParallelBatchWriterMode)) m timeout.
Definition globalLock (m : LockMode) (timeout : option Z) : LK GlobalLock :=
  g ← globalLock_enqueueOnly m timeout; waitForLock g timeout.
Definition global_unlock (g : GlobalLock) : LK GlobalLock :=
  if global_isLocked g then _ ← unlockGlobal ids throttled; mret (mkGlobalLock LOCK_INVALID (gl_pbwm g)) else mret g.
(** The destructor, and then that of the member [_pbwm]. *)
Definition globalLock_end (g : GlobalLock) : LK () :=
  g ← global_unlock g; _ ← resource_unlock (gl_pbwm g); mret tt.

(** ** DBLock *)
(** The timeout of the guards that mean to wait as long as it takes; [None] is Milliseconds::max(). *)
Definition UINT_MAX : Z := 4294967295.
Definition dbLock (id : Z) (valid_name : bool) (m : LockMode) : LK DBLock :=
  g ← globalLock (if isSharedLockMode m then MODE_IS else MODE_IX) (Some UINT_MAX);
  invariant 28539 (λ _, valid_name) ;;
  lockMMAPV1Flush ids false throttled ;;
  let m := if (id =? resourceIdAdminDB) && negb (isSharedLockMode m) then MODE_X else m in
  result ← lock id m None false;
  invariant 128 (λ _, bool_decide (result = LOCK_OK)) ;;
  mret (mkDBLock id m g).
Definition dbLock_end (d : DBLock) : LK () :=
  _ ← unlock (db_id d); globalLock_end (db_globalLock d).
Definition relockWithMode (d : DBLock) (newMode : LockMode) : LK DBLock :=
  b ← inAWriteUnitOfWork; invariant 137 (λ _, negb b) ;;
  invariant 140 (λ _, negb (isSharedLockMode (db_mode d)) || isSharedLockMode newMode) ;;
  _ ← unlock (db_id d);
  result ← lock (db_id d) newMode None false;
  invariant 145 (λ _, bool_decide (result = LOCK_OK)) ;;
  mret (mkDBLock (db_id d) newMode (db_globalLock d)).

(** ** CollectionLock *)
Definition collection_mode (m : LockMode) : LockMode :=
  if supportsDocLocking then m else if isSharedLockMode m then MODE_S else MODE_X.
Definition collectionLock (id : Z) (valid_name : bool) (m : LockMode) : LK Z :=
  invariant 28538 (λ _, valid_name) ;;
  _ ← lock id (collection_mode m) None false;
  mret id.
Definition collectionLock_end (id : Z) : LK () := _ ← unlock id; mret tt.
Definition relockAsDatabaseExclusive (id : Z) (d : DBLock) : LK DBLock :=
  _ ← unlock id;
  d ← relockWithMode d MODE_X;
  _ ← lock id MODE_IX None false;
  mret d.

(** ** ParallelBatchWriterMode and TempRelease *)
Definition setShouldConflict (b : bool) : LK () :=
  change (λ l, l <| _shouldConflictWithSecondaryBatchApplication := b |>).
Definition parallelBatchWriterMode : LK (ResourceLock * bool) :=
  pbwm ← resource_lock (resourceLock resourceIdParallelBatchWriterMode) MODE_X;
  original ← the _shouldConflictWithSecondaryBatchApplication;
  setShouldConflict false ;;
  mret (pbwm, original).
Definition parallelBatchWriterMode_end (g : ResourceLock * bool) : LK () :=
  setShouldConflict g.2 ;; _ ← resource_unlock g.1; mret tt.
Definition tempRelease : LK (option LockSnapshot) := saveLockStateAndUnlock ids false throttled.
Definition tempRelease_end (o : option LockSnapshot) : LK () :=
  match o with
  | Some state =>
      held ← isLocked; invariant 55 (λ _, negb held) ;; restoreLockState ids false throttled state
  | None => mret tt
  end.
End guards.
End Guard.

(** ** Calls of the locker by what is held *)
Section guard_proofs.
Context (ids : gset Z) (throttled : bool) (supportsDocLocking : bool) (resourceIdAdminDB : Z).
Context (Hids : Z.of_nat (size ids) < two32 - 2).
Import Guard.
Abbreviation LInv := (LInv ids).
Abbreviation total := (total throttled).
Abbreviation nesting w := (_wuowNestingLevel (w_locker w)).
Abbreviation keys_of w := (FastMap.keys (_requests (w_locker w))).
Abbreviation PBWM := resourceIdParallelBatchWriterMode.

(** From [w] to [w'] only what is held changes, to [h]. *)
Definition moves (h : Z → option (LockMode * Z)) w w' : Prop :=
  LInv w' ∧ kept_locker (w_locker w) (w_locker w') ∧ (∀ b, total b w' = total b w) ∧ ∀ res, holding w' res = h res.
Definition set_holding res (o : option (LockMode * Z)) (h : Z → option (LockMode * Z)) : Z → option (LockMode * Z) :=
  λ res', if decide (res' = res) then o else h res'.
Lemma moves_trans h h' w w1 w2 : moves h w w1 → moves h' w1 w2 → moves h' w w2.
Proof. intros (_ & Hk & Ht & _) (? & Hk' & Ht' & ?). split_and!; try done; [by eapply locker_kept_trans|intros b; by rewrite Ht']. Qed.
Lemma moves_ext h h' w w' : (∀ res, h res = h' res) → moves h w w' → moves h' w w'.
Proof. intros He (? & ? & ? & Hh). split_and!; try done. intros res. by rewrite <-He. Qed.
Lemma moves_upd res o w w' :
  LInv w' → kept_locker (w_locker w) (w_locker w') → (∀ b, total b w' = total b w) → upd_view res o w w' →
  moves (set_holding res ((λ r, (rq_mode r, rq_recursiveCount r)) <$> o) (holding w)) w w'.
Proof. intros ? ? ? Hu. split_and!; try done. intros res'. by rewrite (upd_holding _ _ _ _ Hu res'). Qed.
Lemma keys_bound w (l : list Z) : LInv w → (∀ res, is_Some (holding w res) → res ∈ l) → vsize (keys_of w) ≤ Z.of_nat (length l).
Proof.
  intros HL Hl. unfold vsize. apply inj_le, submseteq_length, NoDup_submseteq.
  - apply (FastMap.wf_unique _ (co_map w (li_core _ _ HL))).
  - intros res [r Hr]%(co_keys w (li_core _ _ HL)). apply Hl. unfold holding. rewrite Hr. eauto.
Qed.
Lemma wpb_lock_ok res m w :
  LInv w → allowed (CLock res m None false) w = true →
  wpb (lock ids false throttled res m None false)
    (λ result w', result = LOCK_OK ∧ moves (set_holding res (Some (more m (holding w res))) (holding w)) w w' ∧
      ∀ res', res' ≠ res → sview w' res' = sview w res') w.
Proof.
  intros HL Ha. cbn [allowed] in Ha. apply andb_true_iff in Ha as [Hne Ha]. apply negb_true_iff, Z.eqb_neq in Hne.
  apply (lockable_spec ids) in Ha as [Hml Hgu]. eapply wpb_mono; [|by apply (wpb_lock ids Hids throttled None false)].
  intros result w' [HL' (Hmf & _ & _ & Hk & Htt & Hc)]. assert (result = LOCK_OK) as ->.
  { by destruct Hmf as [?|[[_ [? ?]]|[_ ?]]]. }
  split; [done|]. destruct Hc as [(_ & _ & r' & Hu & Hacq)|[? _]]; [|done]. rewrite <-(acquires_more w res m r' Hacq).
  split; [by apply (moves_upd res (Some r'))|]. intros res' Hne'. by rewrite (Hu res'), decide_False.
Qed.
Lemma wpb_global_ok m timeout w (Q : LockResult → World → Prop) :
  LInv w → allowed (CTryLockGlobal m timeout) w = true →
  (∀ result w', may_fail timeout false result →
    moves (if decide (result = LOCK_OK) then set_holding G (Some (more m (holding w G))) (holding w) else holding w) w w' → Q result w') →
  wpb (lockGlobalBegin ids false throttled m timeout) (λ result, wpb
    (if bool_decide (result = LOCK_WAITING) then lockGlobalComplete ids false throttled timeout else mret result) Q) w.
Proof.
  intros HL Ha HQ. apply (lockable_spec ids) in Ha as [Hml Hgu]. apply (wpb_lock_global ids Hids throttled); [done..|].
  intros result w' (Hmf & HL' & Hk & Htt & Hc). apply HQ; [done|]. destruct Hc as [(-> & r' & Hu & Hacq)|(Hne & Hv)].
  - rewrite decide_True by done. rewrite <-(acquires_more w G m r' Hacq). by apply (moves_upd G (Some r')).
  - rewrite decide_False by done. split_and!; try done. by apply same_holding.
Qed.
(** Outside of a write unit of work, or for resources whose release is not put off. *)
Lemma wp_unlock_ok res m n w :
  LInv w → allowed (CUnlock res) w = true → nesting w = 0 ∨ delays res m = false → holding w res = Some (m, n) →
  wp (unlock ids throttled res) (λ gone w', gone = (n =? 1) ∧ moves (set_holding res (less 1 (m, n)) (holding w)) w w') w.
Proof.
  intros HL Ha Hd Hh. cbn [allowed] in Ha. destruct (own_request res w) as [r|] eqn:Hr; [|done]. apply Z.ltb_lt in Ha.
  assert (rq_mode r = m ∧ rq_recursiveCount r = n) as [<- <-] by (unfold holding, sview in Hh; rewrite Hr in Hh; by injection Hh).
  eapply wp_mono; [|by apply (wp_unlock ids Hids throttled res r)]. intros gone w' [HL' Hc].
  assert (puts_off res r w = false) as Hp.
  { unfold puts_off. destruct Hd as [->| ->]; [done|apply andb_false_r]. }
  rewrite Hp in Hc. destruct Hc as (-> & _ & _ & _ & Hk & Htt & Hu & _). split; [done|]. rewrite <-counted_down_less.
  by apply moves_upd.
Qed.
Lemma wp_unlockGlobal_ok m n w :
  LInv w → allowed CUnlockGlobal w = true → holding w G = Some (m, n) →
  wp (unlockGlobal ids throttled) (λ gone w', gone = (n =? 1) ∧
    moves (set_holding G (less 1 (m, n)) (λ res, if (n =? 1) && negb (stays res) then None else holding w res)) w w') w.
Proof.
  intros HL Ha Hh. destruct (may_unlock_global_spec ids Hids w HL Ha) as [r Hr].
  assert (rq_mode r = m ∧ rq_recursiveCount r = n) as [<- <-].
  { destruct Hr as [[Hv _] _]. unfold holding in Hh. rewrite Hv in Hh. by injection Hh. }
  eapply wp_mono; [|by apply (wp_unlockGlobal ids Hids throttled r)]. intros gone w' (Hg & HL' & Hk & Htt & Hv). split; [done|].
  split_and!; try done. intros res. unfold holding, set_holding, less. rewrite Hv, Hg. cbn [fst snd].
  destruct (rq_recursiveCount r =? 1); case_decide as E; [subst; by rewrite bool_decide_true|
    rewrite bool_decide_false by done; by destruct (stays res)|subst; by rewrite bool_decide_true|by rewrite bool_decide_false].
Qed.

(** *** What calls are allowed *)
Lemma own_none w res : holding w res = None → own_request res w = None.
Proof. unfold holding, sview. by destruct (own_request res w). Qed.
Lemma own_some w res m n : holding w res = Some (m, n) → ∃ r, own_request res w = Some r ∧ rq_mode r = m ∧ rq_recursiveCount r = n.
Proof. unfold holding, sview. destruct (own_request res w) as [r|]; [|done]. intros [= <- <-]. eauto. Qed.
Lemma held_counts w res m n : LInv w → holding w res = Some (m, n) → m ≠ MODE_NONE ∧ 1 ≤ n.
Proof.
  intros HL (r & Hr & <- & <-)%own_some. split; [by eapply (Idle_mode ids Hids w); [apply HL|]|].
  by eapply (Idle_granted ids Hids w); [apply HL|].
Qed.
Lemma lock_fresh_allowed res m w l :
  LInv w → holding w res = None → m ≠ MODE_NONE → 1 ≤ getType res ≤ 6 → res ≠ G →
  (∀ res', is_Some (holding w res') → res' ∈ l) → (length l < 16)%nat → allowed (CLock res m None false) w = true.
Proof.
  intros HL Hn Hm Hty Hne Hl Hlen. cbn [allowed]. unfold lockable. rewrite (own_none w res Hn).
  pose proof (keys_bound w l HL Hl) as Hb. unfold eqb, FastMap.PreallocCount. rewrite bool_decide_false by done.
  rewrite (proj2 (Z.eqb_neq res G)), (proj2 (Z.leb_le 1 _)), (proj2 (Z.leb_le _ 6)), (proj2 (Z.ltb_lt _ 16)) by lia. done.
Qed.
Lemma try_fresh_allowed m timeout w l :
  LInv w → holding w G = None → m ≠ MODE_NONE →
  (∀ res', is_Some (holding w res') → res' ∈ l) → (length l < 16)%nat → allowed (CTryLockGlobal m timeout) w = true.
Proof.
  intros HL Hn Hm Hl Hlen. cbn [allowed]. unfold lockable. rewrite (own_none w G Hn).
  pose proof (keys_bound w l HL Hl) as Hb. unfold eqb, FastMap.PreallocCount. rewrite bool_decide_false by done.
  rewrite (proj2 (Z.ltb_lt _ 16)) by lia. rewrite G_type. done.
Qed.
(** Released fewer times than locked. *)
Lemma unlock_allowed res m n w w' h :
  LInv w → moves h w w' → h res = Some (m, n) → count_before (sview w res) < n → allowed (CUnlock res) w' = true.
Proof.
  intros HL (_ & (_ & _ & Hq & _) & _ & Hh) Hr Hc. cbn [allowed]. rewrite <-Hh in Hr. apply own_some in Hr as (r & -> & _ & ->).
  rewrite Hq. apply Z.ltb_lt. pose proof (li_deferred _ _ HL) as Hd. rewrite (Deferred_iff ids) in Hd.
  specialize (Hd res). destruct (decide (0 < occurrences res (_resourcesToUnlockAtEndOfUnitOfWork (w_locker w)))); [|].
  - destruct Hd; [done|lia].
  - assert (0 ≤ count_before (sview w res)); [|lia]. destruct (sview w res) as [r'|] eqn:E; [|done]. simpl.
    pose proof (Idle_granted ids Hids w res r' (li_idle _ _ HL) E). lia.
Qed.
Lemma less_more_IS w res : LInv w → less 1 (more MODE_IS (holding w res)) = holding w res.
Proof.
  intros HL. destruct (holding w res) as [[m n]|] eqn:E; [|done]. destruct (held_counts w res m n HL E) as [Hm Hn].
  unfold more, less. assert (isModeCovered MODE_IS m = true) as -> by (by destruct m). simpl.
  rewrite (proj2 (Z.eqb_neq _ _)) by lia. do 2 f_equal. lia.
Qed.
Lemma PBWM_not_delayed m : delays PBWM m = false.
Proof. by destruct m. Qed.
Lemma PBWM_type : getType PBWM = RESOURCE_GLOBAL.
Proof. reflexivity. Qed.
Lemma PBWM_not_G : PBWM ≠ G.
Proof. by vm_compute. Qed.

(** ** GlobalLock *)
Abbreviation conflict w := (_shouldConflictWithSecondaryBatchApplication (w_locker w)).
(** What is held once the lock of the batch writers is, if it is to be. *)
Definition with_pbwm w : Z → option (LockMode * Z) :=
  if conflict w then set_holding PBWM (Some (more MODE_IS (holding w PBWM))) (holding w) else holding w.
(** The contract of a GlobalLock. *)
Definition guardable (m : LockMode) (timeout : option Z) w : bool :=
  allowed (CLock PBWM MODE_IS None false) w && allowed (CTryLockGlobal m timeout) w && (vsize (keys_of w) + 2 <=? 16).
Definition guard_value (ok with_it : bool) (result : LockResult) : GlobalLock :=
  mkGlobalLock result (mkResourceLock PBWM (if ok && with_it then LOCK_OK else LOCK_INVALID)).
Lemma wpb_pbwm m timeout w :
  LInv w → guardable m timeout w = true →
  wpb (if conflict w then resource_lock ids throttled (resourceLock PBWM) MODE_IS else mret (resourceLock PBWM))
    (λ p w', p = mkResourceLock PBWM (if conflict w then LOCK_OK else LOCK_INVALID) ∧ moves (with_pbwm w) w w' ∧
      allowed (CTryLockGlobal m timeout) w' = true) w.
Proof.
  intros HL Hg. unfold guardable in Hg. rewrite !andb_true_iff in Hg. destruct Hg as [[H1 H2] H3]. apply Z.leb_le in H3.
  unfold with_pbwm. destruct (conflict w); [|apply wpb_ret; split; [done|]; split; [|done]; by split_and!].
  unfold resource_lock. wpb_simpl. apply wpb_invariant; [done|]. wpb_simpl. eapply wpb_mono; [|by apply wpb_lock_ok].
  intros result w1 (-> & Hmv & Hv). wpb_simpl. apply wpb_invariant; [done|]. apply wpb_ret. split; [done|]. split; [done|].
  cbn [allowed] in *. unfold lockable in *. change (own_request G w1) with (sview w1 G). rewrite (Hv G) by (intros E; by apply PBWM_not_G).
  change (sview w G) with (own_request G w). destruct (own_request G w); [done|]. rewrite !andb_true_iff in *. split; [apply H2|].
  apply Z.ltb_lt. pose proof Hmv as (HL1 & _ & _ & Hh). pose proof (keys_bound w1 (PBWM :: keys_of w) HL1) as Hb. simpl in Hb.
  unfold vsize, FastMap.PreallocCount in *. enough (Z.of_nat (length (keys_of w1)) ≤ Z.of_nat (S (length (keys_of w)))) by lia.
  apply Hb. intros res [x Hx]. rewrite Hh in Hx. unfold set_holding in Hx. apply elem_of_cons. case_decide; [by left|right].
  apply (co_keys w (li_core _ _ HL)). unfold holding in Hx. destruct (sview w res); [eauto|done].
Qed.
Definition guarded m w (result : LockResult) : Z → option (LockMode * Z) :=
  if decide (result = LOCK_OK) then set_holding G (Some (more m (holding w G))) (with_pbwm w) else holding w.
Lemma with_pbwm_G w : with_pbwm w G = holding w G.
Proof. unfold with_pbwm, set_holding. destruct (conflict w); [|done]. rewrite decide_False; [done|]. intros E. by apply PBWM_not_G. Qed.
Lemma wpb_globalLock m timeout w :
  LInv w → guardable m timeout w = true →
  wpb (globalLock ids throttled m timeout) (λ g w', may_fail timeout false (gl_result g) ∧
    g = guard_value (bool_decide (gl_result g = LOCK_OK)) (conflict w) (gl_result g) ∧ moves (guarded m w (gl_result g)) w w') w.
Proof.
  intros HL Hg. unfold globalLock, globalLock_enqueueOnly, global_enqueue. apply wpb_bind, wpb_bind, wpb_gets, wpb_bind. cbn [gl_pbwm].
  eapply wpb_mono; [|by apply (wpb_pbwm m timeout)]. intros p w1 (-> & Hmv1 & Ha). pose proof Hmv1 as (HL1 & Hk1 & Htt1 & Hh1).
  apply wpb_bind. unfold waitForLock. eapply wpb_mono; [intros result w2 H; apply wpb_ret, wpb_bind; cbn [gl_result gl_pbwm]; exact H|].
  apply (wpb_global_ok m timeout w1); [done..|]. intros result w2 Hmf Hmv2. unfold the. wpb_simpl.
  pose proof (moves_trans _ _ _ _ _ Hmv1 Hmv2) as Hmv. pose proof Hmv as (HL2 & (_ & _ & _ & Hc & _) & _ & Hh2). rewrite Hc.
  unfold guarded. destruct (decide (result = LOCK_OK)) as [->|Hne].
  - simpl. wpb_simpl. split; [done|].
    split; [unfold guard_value; by destruct (conflict w)|]. eapply moves_ext; [|exact Hmv]. intros res. cbn [gl_result].
    destruct (decide (LOCK_OK = LOCK_OK)); [|done]. unfold set_holding. rewrite (Hh1 G), with_pbwm_G. case_decide; [done|]. by rewrite Hh1.
  - rewrite bool_decide_false by done. cbn [negb andb]. unfold with_pbwm in *. destruct (conflict w) eqn:Ec; cbn [negb andb]; wpb_simpl.
    + unfold resource_unlock. cbn [rl_result rl_rid gl_pbwm]. rewrite (bool_decide_true (LOCK_OK = LOCK_OK)) by done. wpb_simpl. apply wp_wpb.
      destruct (more MODE_IS (holding w PBWM)) as [m' n'] eqn:Em.
      assert (holding w2 PBWM = Some (m', n')) as Hp2 by (rewrite Hh2, Hh1; unfold set_holding; by rewrite decide_True).
      eapply wp_mono; [|apply (wp_unlock_ok PBWM m' n' w2); try done].
      * intros gone w3 [_ Hmv3]. wpb_simpl. cbn [gl_result]. rewrite decide_False by done. split; [done|].
        split; [unfold guard_value; by rewrite bool_decide_false by done|]. pose proof (moves_trans _ _ _ _ _ Hmv Hmv3) as Hm.
        eapply moves_ext; [|exact Hm]. intros res. unfold set_holding. case_decide as E.
        -- subst. by rewrite <-Em, less_more_IS.
        -- rewrite Hh2, Hh1. unfold set_holding. by rewrite decide_False.
      * eapply unlock_allowed; [exact HL|exact Hmv|by rewrite <-Hh2|]. unfold more, holding in Em.
        destruct (sview w PBWM); simpl in *; injection Em as _ <-; lia.
      * right. apply PBWM_not_delayed.
    + cbn [gl_result]. rewrite decide_False by done. split; [done|].
      split; [unfold guard_value; by rewrite andb_false_r|]. eapply moves_ext; [|exact Hmv]. done.
Qed.

(** ** A database and a collection, from a locker that holds nothing *)
Definition nothing : Z → option (LockMode * Z) := λ _, None.
Definition intent (m : LockMode) : LockMode := if isSharedLockMode m then MODE_IS else MODE_IX.
Definition db_lock_mode (db : Z) (m : LockMode) : LockMode :=
  if (db =? resourceIdAdminDB) && negb (isSharedLockMode m) then MODE_X else m.
(** [ok]: the global lock was obtained in time. *)
Definition with_global (ok : bool) m w : Z → option (LockMode * Z) :=
  if ok then set_holding G (Some (intent m, 1)) (if conflict w then set_holding PBWM (Some (MODE_IS, 1)) nothing else nothing)
  else nothing.
Definition with_db ok db m w : Z → option (LockMode * Z) := set_holding db (Some (db_lock_mode db m, 1)) (with_global ok m w).
Definition with_coll ok db coll m w : Z → option (LockMode * Z) :=
  set_holding coll (Some (collection_mode supportsDocLocking m, 1)) (with_db ok db m w).
Lemma set_some res o h res' : is_Some (set_holding res o h res') → res' = res ∨ is_Some (h res').
Proof. unfold set_holding. case_decide; auto. Qed.
Lemma some_with_global ok m w res : is_Some (with_global ok m w res) → res ∈ [G; PBWM].
Proof.
  rewrite !elem_of_cons. destruct ok; [|by intros [? ?]]. intros [?|H]%set_some; [by left|]. right. left. destruct (conflict w); [|by destruct H].
  by apply set_some in H as [?|[? ?]].
Qed.
Lemma some_with_db ok db m w res : is_Some (with_db ok db m w res) → res ∈ [db; G; PBWM].
Proof. rewrite elem_of_cons. intros [?|H]%set_some; [by left|right]. by eapply some_with_global. Qed.
Lemma fresh_db ok db m w : getType db = RESOURCE_DATABASE → with_global ok m w db = None.
Proof.
  intros Ht. destruct (with_global ok m w db) eqn:E; [|done]. assert (db ∈ [G; PBWM]) as Hin by (eapply (some_with_global ok m w); rewrite E; eauto).
  rewrite !elem_of_cons in Hin. destruct Hin as [->|[->|[]%elem_of_nil]]; done.
Qed.
Lemma fresh_coll ok db coll m w :
  getType db = RESOURCE_DATABASE → getType coll = RESOURCE_COLLECTION → with_db ok db m w coll = None.
Proof.
  intros Hd Ht. destruct (with_db ok db m w coll) eqn:E; [|done].
  assert (coll ∈ [db; G; PBWM]) as Hin by (eapply (some_with_db ok db m w); rewrite E; eauto).
  rewrite !elem_of_cons in Hin. destruct Hin as [->|[->|[->|[]%elem_of_nil]]]; [by rewrite Hd in Ht|done..].
Qed.
Lemma idle_guardable m timeout w :
  LInv w → (∀ res, holding w res = None) → m ≠ MODE_NONE → guardable m timeout w = true.
Proof.
  intros HL Hn Hm. assert (∀ res', is_Some (holding w res') → res' ∈ []) as Hnil by (intros res'; rewrite Hn; by intros [? ?]).
  assert (allowed (CLock PBWM MODE_IS None false) w = true) as H1.
  { apply (lock_fresh_allowed PBWM MODE_IS w []); [done|apply Hn|done|by rewrite PBWM_type|apply PBWM_not_G|done|simpl; lia]. }
  assert (allowed (CTryLockGlobal m timeout) w = true) as H2.
  { apply (try_fresh_allowed m timeout w []); [done|apply Hn|done|done|simpl; lia]. }
  unfold guardable. rewrite H1, H2. pose proof (keys_bound w [] HL Hnil) as Hb. apply Z.leb_le. change (Z.of_nat (length (@nil Z))) with 0 in Hb. lia.
Qed.
Definition is_ok (result : LockResult) : bool := bool_decide (result = LOCK_OK).
Lemma wpb_dbLock db m w :
  LInv w → (∀ res, holding w res = None) → m ≠ MODE_NONE → getType db = RESOURCE_DATABASE →
  wpb (dbLock ids throttled resourceIdAdminDB db true m) (λ d w', ∃ result, may_fail (Some UINT_MAX) false result ∧
    d = mkDBLock db (db_lock_mode db m) (guard_value (is_ok result) (conflict w) result) ∧
    moves (with_db (is_ok result) db m w) w w') w.
Proof.
  intros HL Hn Hm Hty. unfold dbLock. wpb_simpl. fold (intent m).
  eapply wpb_mono; [|apply (wpb_globalLock (intent m) (Some UINT_MAX) w HL); apply idle_guardable; try done; by destruct m].
  intros g w1 (Hmf & Hg & Hmv1). destruct g as [result pbwm]. cbn [gl_result] in *. fold (is_ok result) in Hg.
  wpb_simpl. apply wpb_invariant; [done|]. unfold lockMMAPV1Flush. simpl. wpb_simpl. fold (db_lock_mode db m).
  assert (moves (with_global (is_ok result) m w) w w1) as Hmv.
  { eapply moves_ext; [|exact Hmv1]. intros res. unfold guarded, with_pbwm, with_global, set_holding, is_ok.
    destruct (decide (result = LOCK_OK)); [rewrite bool_decide_true by done|rewrite bool_decide_false by done; apply Hn].
    rewrite (Hn G). case_decide; [done|]. destruct (conflict w); [|apply Hn].
    rewrite (Hn PBWM). case_decide; [done|apply Hn]. }
  pose proof Hmv as (HL1 & _ & _ & Hh1).
  eapply wpb_mono; [|apply (wpb_lock_ok db (db_lock_mode db m) w1 HL1)].
  - intros result' w2 (-> & Hmv2 & _). wpb_simpl. apply wpb_invariant; [done|]. apply wpb_ret. exists result. split; [done|].
    split; [by rewrite <-Hg|]. eapply moves_ext; [|by eapply moves_trans]. intros res. unfold with_db, set_holding.
    rewrite (Hh1 db), (fresh_db _ db m w Hty). case_decide; [done|apply Hh1].
  - apply (lock_fresh_allowed db _ w1 [G; PBWM]); try done.
    + by rewrite Hh1, fresh_db.
    + unfold db_lock_mode. by destruct (_ && _).
    + by rewrite Hty.
    + intros ->. done.
    + intros res. rewrite Hh1. apply some_with_global.
    + simpl. lia.
Qed.
Lemma wpb_collectionLock ok db coll m w w1 :
  moves (with_db ok db m w) w w1 → m ≠ MODE_NONE → getType db = RESOURCE_DATABASE → getType coll = RESOURCE_COLLECTION →
  wpb (collectionLock ids throttled supportsDocLocking coll true m)
    (λ c w', c = coll ∧ moves (with_coll ok db coll m w) w w') w1.
Proof.
  intros Hmv Hm Hd Hc. pose proof Hmv as (HL1 & _ & _ & Hh1). unfold collectionLock. wpb_simpl. apply wpb_invariant; [done|]. wpb_simpl.
  eapply wpb_mono; [|apply (wpb_lock_ok coll _ w1 HL1)].
  - intros result w2 (-> & Hmv2 & _). apply wpb_ret. split; [done|]. eapply moves_ext; [|by eapply moves_trans]. intros res.
    unfold with_coll, set_holding. rewrite (Hh1 coll), (fresh_coll ok db coll m w Hd Hc). case_decide; [done|apply Hh1].
  - apply (lock_fresh_allowed coll _ w1 [db; G; PBWM]); try done.
    + by rewrite Hh1, fresh_coll.
    + unfold collection_mode. by destruct supportsDocLocking, m.
    + by rewrite Hc.
    + intros ->. done.
    + intros res. rewrite Hh1. apply some_with_db.
    + simpl. lia.
Qed.
(** The last count of a resource, outside of write units of work. *)
Lemma wp_unlock_last res m h w w1 :
  LInv w → (∀ res, holding w res = None) → nesting w = 0 → moves (set_holding res (Some (m, 1)) h) w w1 → h res = None →
  wp (unlock ids throttled res) (λ _ w', moves h w w') w1.
Proof.
  intros HL Hn H0 Hmv Hno. pose proof Hmv as (HL1 & (_ & Hnl & _) & _ & Hh1).
  assert (holding w1 res = Some (m, 1)) as Hr by (rewrite Hh1; unfold set_holding; by rewrite decide_True).
  eapply wp_mono; [|apply (wp_unlock_ok res m 1 w1); try done].
  - intros gone w' [_ Hmv']. eapply moves_ext; [|by eapply moves_trans]. intros res'. unfold set_holding, less. simpl.
    case_decide as E; [by subst|]. rewrite Hh1. unfold set_holding. by rewrite decide_False.
  - eapply (unlock_allowed res m 1 w w1); [done|exact Hmv|unfold set_holding; by rewrite decide_True|].
    specialize (Hn res). apply own_none in Hn. unfold sview. by rewrite Hn.
  - left. congruence.
Qed.
Lemma unlockGlobal_allowed m w w1 :
  LInv w → nesting w = 0 → moves (with_global true m w) w w1 → allowed CUnlockGlobal w1 = true ∧ holding w1 G = Some (intent m, 1).
Proof.
  intros HL Hn (HL1 & (_ & Hnl & _) & _ & Hh1). assert (holding w1 G = Some (intent m, 1)) as Hg.
  { rewrite Hh1. unfold with_global, set_holding. by rewrite decide_True. }
  split; [|done]. cbn [allowed]. destruct (own_some w1 G _ _ Hg) as (r & -> & _ & ->). rewrite Hnl, Hn. cbn [negb orb andb Z.eqb].
  apply orb_true_iff. right. apply forallb_forall. intros res Hin%list_elem_of_In. apply orb_true_iff. left.
  apply (co_keys w1 (li_core _ _ HL1)) in Hin as [r' Hr']. assert (res ∈ [G; PBWM]) as Hin.
  { apply (some_with_global true m w). rewrite <-Hh1. unfold holding. rewrite Hr'. eauto. }
  rewrite !elem_of_cons in Hin. destruct Hin as [->|[->|[]%elem_of_nil]]; done.
Qed.
Lemma wp_globalLock_end m result w w1 :
  LInv w → (∀ res, holding w res = None) → nesting w = 0 → moves (with_global (is_ok result) m w) w w1 →
  wp (globalLock_end ids throttled (guard_value (is_ok result) (conflict w) result)) (λ _ w', moves nothing w w') w1.
Proof.
  intros HL Hn H0. unfold is_ok. case_bool_decide as Er.
  2: { intros Hmv. unfold globalLock_end, global_unlock, global_isLocked, guard_value. cbn [gl_result andb].
       rewrite bool_decide_false by done. wp_simpl. cbn [gl_pbwm]. unfold resource_unlock. cbn [rl_result].
       rewrite bool_decide_false by done. by wp_simpl. }
  subst result. intros Hmv. destruct (unlockGlobal_allowed m w w1 HL H0 Hmv) as [Ha Hg]. pose proof Hmv as (HL1 & _ & _ & Hh1).
  unfold globalLock_end, global_unlock, global_isLocked, guard_value. cbn [gl_result andb]. rewrite bool_decide_true by done. wp_simpl.
  eapply wp_mono; [|by apply (wp_unlockGlobal_ok (intent m) 1 w1)]. intros gone w2 [_ Hmv2]. wp_simpl. cbn [gl_pbwm].
  assert (moves (if conflict w then set_holding PBWM (Some (MODE_IS, 1)) nothing else nothing) w w2) as Hm2.
  { eapply moves_ext; [|by eapply moves_trans]. intros res. unfold set_holding at 1. cbn [less fst snd Z.eqb].
    case_decide as E.
    - subst. destruct (conflict w); [|done]. unfold set_holding. rewrite decide_False; [done|]. intros E. by apply PBWM_not_G.
    - rewrite Hh1. unfold with_global. unfold set_holding at 1. rewrite decide_False by done.
      destruct (conflict w); [|by destruct (_ && _)]. unfold set_holding. case_decide as E2; [subst|by destruct (_ && _)]. done. }
  unfold resource_unlock. cbn [rl_result rl_rid]. destruct (conflict w); cbn [andb].
  - rewrite bool_decide_true by done. wp_simpl.
    eapply wp_mono; [|by apply (wp_unlock_last PBWM MODE_IS nothing w w2)]. intros gone' w3 Hm3. by wp_simpl.
  - rewrite bool_decide_false by done. by wp_simpl.
Qed.

(** A GlobalLock takes both or neither: after a timeout the lock of the batch writers is given back
    as well, and the locker holds what it held before; otherwise it holds both once more. *)
Theorem globalLock_takes_both_or_neither m timeout w :
  LInv w → guardable m timeout w = true →
  match globalLock ids throttled m timeout w with
  | Ret (g, w') =>
      LInv w' ∧ (∀ b, total b w' = total b w) ∧ may_fail timeout false (gl_result g) ∧
      ∀ res, holding w' res =
        if global_isLocked g then set_holding G (Some (more m (holding w G))) (with_pbwm w) res else holding w res
  | Abort line => line = BLOCKED
  end.
Proof.
  intros HL Hg. pose proof (wpb_globalLock m timeout w HL Hg) as H. unfold wpb in H.
  destruct (globalLock ids throttled m timeout w) as [[g w']|]; [|done]. destruct H as (Hmf & _ & (? & _ & ? & Hh)).
  split_and!; try done. intros res. rewrite Hh. unfold guarded, global_isLocked. by case_decide; case_bool_decide.
Qed.

(** C23. A collection is locked through its guards: the locker, which held nothing, holds the global
    lock in the intent mode that fits, the lock of the batch writers unless it opted out, the
    database, in X for writers of admin, and the collection; when the guards end it holds nothing,
    and no ticket is lost.  If the global lock was not obtained in time, which nobody checks, it
    holds only the database and the collection, and nothing at the end.  The destructors never wait. *)
Theorem collection_scope_is_balanced db coll m w :
  LInv w → (∀ res, holding w res = None) → nesting w = 0 → m ≠ MODE_NONE →
  getType db = RESOURCE_DATABASE → getType coll = RESOURCE_COLLECTION →
  match (d ← dbLock ids throttled resourceIdAdminDB db true m;
         c ← collectionLock ids throttled supportsDocLocking coll true m; mret (d, c)) w with
  | Ret ((d, c), w1) =>
      moves (with_coll (global_isLocked (db_globalLock d)) db coll m w) w w1 ∧
      ∃ w2, (collectionLock_end ids throttled c ;; dbLock_end ids throttled d) w1 = Ret (tt, w2) ∧ moves nothing w w2
  | Abort line => line = BLOCKED
  end.
Proof.
  intros HL Hn H0 Hm Hd Hc.
  assert (wpb (d ← dbLock ids throttled resourceIdAdminDB db true m;
    c ← collectionLock ids throttled supportsDocLocking coll true m; mret (d, c)) (λ p w1, ∃ result,
      p = (mkDBLock db (db_lock_mode db m) (guard_value (is_ok result) (conflict w) result), coll) ∧
      moves (with_coll (is_ok result) db coll m w) w w1) w) as H.
  { wpb_simpl. eapply wpb_mono; [|by apply wpb_dbLock]. intros d w1 (result & _ & -> & Hmv1). wpb_simpl.
    eapply wpb_mono; [|by apply (wpb_collectionLock (is_ok result) db coll m w w1)]. intros c w2 [-> Hmv2]. apply wpb_ret. eauto. }
  unfold wpb in H. match type of H with match ?x with _ => _ end => destruct x as [[[d c] w1]|]; [|done] end.
  destruct H as (result & E & Hmv). injection E as -> ->. split; [exact Hmv|].
  assert (wp (collectionLock_end ids throttled coll ;;
    dbLock_end ids throttled (mkDBLock db (db_lock_mode db m) (guard_value (is_ok result) (conflict w) result)))
    (λ _ w2, moves nothing w w2) w1) as Hx.
  { unfold collectionLock_end, dbLock_end. wp_simpl.
    eapply wp_mono; [|apply (wp_unlock_last coll (collection_mode supportsDocLocking m) (with_db (is_ok result) db m w) w w1);
      try done; by apply fresh_coll]. intros gone w2 Hm2. wp_simpl.
    eapply wp_mono; [|apply (wp_unlock_last db (db_lock_mode db m) (with_global (is_ok result) m w) w w2); try done; by apply fresh_db].
    intros gone' w3 Hm3. wp_simpl. by apply (wp_globalLock_end m result w w3). }
  apply wp_Ret in Hx as ([] & w2 & Hx & Hm2). eauto.
Qed.
End guard_proofs.

Lemma globalLock_takes_both_or_neither_witness :
  guardable MODE_X (Some 100) (working [] []) = true ∧
  match Guard.globalLock two_lockers true MODE_X (Some 100) (working [] []) with
  | Ret (g, w') =>
      LInv two_lockers w' ∧ (∀ b, total true b w' = total true b (working [] [])) ∧ may_fail (Some 100) false (gl_result g) ∧
      ∀ res, holding w' res =
        if Guard.global_isLocked g
        then set_holding G (Some (more MODE_X (holding (working [] []) G))) (with_pbwm (working [] [])) res
        else holding (working [] []) res
  | Abort line => line = BLOCKED
  end.
Proof.
  split; [by vm_compute|].
  apply (globalLock_takes_both_or_neither two_lockers true two_lockers_fit); [apply working_inv|by vm_compute].
Defined.
Lemma collection_scope_is_balanced_witness :
  match (d ← Guard.dbLock two_lockers true 0 some_db true MODE_IX;
         c ← Guard.collectionLock two_lockers true true some_coll true MODE_IX; mret (d, c)) (working [] []) with
  | Ret ((d, c), w1) =>
      moves two_lockers true (with_coll true 0 (Guard.global_isLocked (db_globalLock d)) some_db some_coll MODE_IX (working [] [])) (working [] []) w1 ∧
      ∃ w2, (Guard.collectionLock_end two_lockers true c ;; Guard.dbLock_end two_lockers true d) w1 = Ret (tt, w2) ∧
        moves two_lockers true nothing (working [] []) w2
  | Abort line => line = BLOCKED
  end.
Proof.
  apply (collection_scope_is_balanced two_lockers true true 0 two_lockers_fit);
    [apply working_inv|intros res; done|by vm_compute|done|by vm_compute|by vm_compute].
Defined.

(** The guards that mean to wait for ever wait for 4294967295 milliseconds.  Locker 2 keeps the
    global lock in X for longer, and DBLock goes on without it. *)
Definition long_wait : list Tick :=
  [mkTick [] [] 0; mkTick [] [] 0; mkTick [] [] 0; mkTick (lock_calls G 2 MODE_X) [] 0; mkTick [] [] 0;
   mkTick [] [] 4294967294000; mkTick [] [] 4294967295000].
Lemma DBLock_without_the_global_lock :
  match Guard.dbLock two_lockers true 0 some_db true MODE_IX (fresh long_wait) with
  | Ret (d, w) => gl_result (db_globalLock d) = LOCK_TIMEOUT ∧ holding w G = None ∧ holding w some_db = Some (MODE_IX, 1)
  | Abort _ => False
  end.
Proof. vm_compute. done. Qed.
