(* ===== verification/Bson.v ===== *)
(** * The BSON format

    Bytes, little-endian numbers and memory, the type codes of
    src/mongo/bson/bsontypes.h, and the format itself as an abstract syntax
    with an encoder.  The syntax is the specification that the element and
    iterator model (BsonElement.v) and the validator (BsonValidate.v) are
    proved against; it follows the layout described at the top of
    bsonelement.h, not the control flow of any parser. *)
From Stdlib Require Export Strings.Byte.
From S2P Require Import Prelude.

Abbreviation bytes := (list byte).

#[export] Instance byte_eq_dec : EqDecision byte := Byte.byte_eq_dec.

(** ** Numbers in memory *)
Definition uchar (b : byte) : Z := Z.of_N (Byte.to_N b).
Definition schar (b : byte) : Z := if uchar b <? 128 then uchar b else uchar b - 256.
(** The low eight bits of a number. *)
Definition byte_of (z : Z) : byte := default x00 (Byte.of_N (Z.to_N (z mod 256))).

Fixpoint le_combine (bs : bytes) : Z :=
  match bs with
  | [] => 0
  | b :: t => uchar b + 256 * le_combine t
  end.
Fixpoint le_split (n : nat) (z : Z) : bytes :=
  match n with
  | O => []
  | S n => byte_of z :: le_split n (z / 256)
  end.
(** [uint64_t] and [size_t]. *)
Definition u64 (z : Z) : Z := z mod 18446744073709551616.
(** The 32-bit little-endian form of a number. *)
Definition le32 (z : Z) : bytes := le_split 4 z.

Lemma u64_small z : 0 ≤ z < 18446744073709551616 → u64 z = z.
Proof. apply Z.mod_small. Qed.

Lemma uchar_range b : 0 ≤ uchar b < 256.
Proof. unfold uchar. pose proof (Byte.to_N_bounded b). lia. Qed.

Lemma uchar_byte_of z : uchar (byte_of z) = z mod 256.
Proof.
  unfold uchar, byte_of. pose proof (Z.mod_pos_bound z 256).
  destruct (Byte.of_N (Z.to_N (z mod 256))) as [b|] eqn:E; simpl.
  - apply Byte.to_of_N in E. rewrite E. lia.
  - apply Byte.of_N_None_iff in E. lia.
Qed.

Lemma uchar_inj b c : uchar b = uchar c → b = c.
Proof.
  unfold uchar. intros H%N2Z.inj.
  pose proof (Byte.of_to_N b) as Hb. rewrite H, Byte.of_to_N in Hb. congruence.
Qed.

Lemma byte_of_uchar b : byte_of (uchar b) = b.
Proof.
  apply uchar_inj. rewrite uchar_byte_of. apply Z.mod_small, uchar_range.
Qed.

Lemma schar_0 b : schar b = 0 ↔ b = x00.
Proof.
  split; [|by intros ->]. pose proof (uchar_range b). unfold schar.
  case_match; intros H'; apply uchar_inj; change (uchar x00) with 0; lia.
Qed.

Lemma schar_byte_of t : -128 ≤ t < 128 → schar (byte_of t) = t.
Proof.
  intros Ht. unfold schar. rewrite uchar_byte_of. destruct (decide (0 ≤ t)).
  - rewrite Z.mod_small by lia. case_match; lia.
  - rewrite <- (Z.mod_unique t 256 (-1) (t + 256)) by lia. case_match; lia.
Qed.

Lemma byte_of_schar b : byte_of (schar b) = b.
Proof.
  apply uchar_inj. rewrite uchar_byte_of. pose proof (uchar_range b).
  unfold schar. case_match; [by apply Z.mod_small|].
  symmetry. apply (Z.mod_unique _ _ (-1)); lia.
Qed.

Lemma length_le_split n z : length (le_split n z) = n.
Proof. revert z. induction n; simpl; auto. Qed.

Lemma le_combine_split n z : le_combine (le_split n z) = z mod 256 ^ Z.of_nat n.
Proof.
  revert z. induction n as [|n IH]; intros z; [by rewrite Z.mod_1_r|].
  cbn [le_split le_combine]. rewrite IH, uchar_byte_of.
  rewrite Nat2Z.inj_succ, Z.pow_succ_r by lia.
  rewrite Z.rem_mul_r by lia. lia.
Qed.

Lemma le_split_combine bs : le_split (length bs) (le_combine bs) = bs.
Proof.
  induction bs as [|b bs IH]; [done|]. cbn [le_combine length le_split].
  pose proof (uchar_range b). f_equal.
  - apply uchar_inj. rewrite uchar_byte_of.
    symmetry. apply (Z.mod_unique _ _ (le_combine bs)); lia.
  - rewrite <- (Z.div_unique (uchar b + 256 * le_combine bs) 256 (le_combine bs) (uchar b)); [done|lia..].
Qed.

Lemma le_combine_range bs : 0 ≤ le_combine bs < 256 ^ vsize bs.
Proof.
  unfold vsize. rewrite <- (le_split_combine bs), le_combine_split, length_le_split.
  apply Z.mod_pos_bound. lia.
Qed.

Lemma vsize_le32 z : vsize (le32 z) = 4.
Proof. done. Qed.

Lemma le32_combine z : 0 ≤ z < two32 → le_combine (le32 z) = z.
Proof. intros. unfold le32. rewrite le_combine_split. by apply Z.mod_small. Qed.

Lemma le32_i32 z : 0 ≤ z ≤ INT_MAX → i32 (le_combine (le32 z)) = z.
Proof. unfold INT_MAX. intros. rewrite le32_combine by (unfold two32; lia). apply i32_small. unfold INT_MIN, INT_MAX. lia. Qed.

(** A 32-bit number that is not negative determines its bytes. *)
Lemma i32_le32 l z : vsize l = 4 → 0 ≤ z → i32 (le_combine l) = z → l = le32 z.
Proof.
  intros Hl Hz Hi. pose proof (le_combine_range l) as Hr. rewrite Hl in Hr.
  assert (le_combine l = z) as <-.
  { unfold i32, two32 in Hi. change (256 ^ 4) with 4294967296 in Hr.
    destruct (decide (le_combine l < 2147483648)).
    - rewrite Z.mod_small in Hi; lia.
    - rewrite <- (Z.mod_unique (le_combine l + 2147483648) 4294967296 1 (le_combine l - 2147483648)) in Hi by lia. lia. }
  unfold le32. rewrite <- (le_split_combine l) at 1. f_equal. unfold vsize in Hl. lia.
Qed.

#[global] Opaque le32.
Arguments le_combine : simpl never.

(** ** Memory

    A pointer is an offset in the one buffer at hand.  An access outside of
    it is undefined behaviour in C++ and ends the computation with [FAULT];
    an exception ends it with the number of the assertion that threw it. *)
Definition FAULT : Z := 0.
(** The label of a computation cut by its fuel; no theorem lets it occur. *)
Definition FUEL : Z := -1.

(** [n] bytes at address [p]. *)
Definition load (mem : bytes) (p n : Z) : outcome bytes :=
  if (0 <=? p) && (0 <=? n) && (p + n <=? vsize mem)
  then Ret (take (Z.to_nat n) (drop (Z.to_nat p) mem)) else Abort FAULT.

(** The distance to the first NUL, or -1. *)
Definition nul_index (bs : bytes) : Z := index_where (λ b, bool_decide (b = x00)) bs.

(** [memchr(mem + p, 0, n)], as the distance from [p] or -1. *)
Definition memchr0 (mem : bytes) (p n : Z) : outcome Z :=
  bs ← load mem p n; Ret (nul_index bs).

(** [strlen(mem + p)]. *)
Definition strlen (mem : bytes) (p : Z) : outcome Z :=
  bs ← load mem p (vsize mem - p);
  let i := nul_index bs in
  if i =? -1 then Abort FAULT else Ret i.

(** [strnlen(mem + p, n)], with [n] converted to [size_t]. *)
Definition strnlen (mem : bytes) (p n : Z) : outcome Z :=
  let n := u64 n in
  bs ← load mem p (vsize mem - p);
  let i := nul_index (take (Z.to_nat n) bs) in
  if i =? -1 then (if n <=? vsize bs then Ret n else Abort FAULT) else Ret i.

(** ** Types: bsontypes.h, lines 62 to 109 *)
Module BSONType.
Definition MinKey : Z := -1.
Definition EOO : Z := 0.
Definition NumberDouble : Z := 1.
Definition String : Z := 2.
Definition Object : Z := 3.
Definition Array : Z := 4.
Definition BinData : Z := 5.
Definition Undefined : Z := 6.
Definition jstOID : Z := 7.
Definition Bool : Z := 8.
Definition Date : Z := 9.
Definition jstNULL : Z := 10.
Definition RegEx : Z := 11.
Definition DBRef : Z := 12.
Definition Code : Z := 13.
Definition Symbol : Z := 14.
Definition CodeWScope : Z := 15.
Definition NumberInt : Z := 16.
Definition bsonTimestamp : Z := 17.
Definition NumberLong : Z := 18.
Definition NumberDecimal : Z := 19.
Definition MaxKey : Z := 127.
End BSONType.

Definition kOIDSize : Z := 12.

(** bsontypes.h, line 56: the newest version to accept. *)
Inductive BSONVersion := kV1_0 | kV1_1.
#[export] Instance BSONVersion_eq_dec : EqDecision BSONVersion.
Proof. solve_decision. Defined.

(** bson_depth.h and bson_depth.cpp: the server parameter and its default. *)
Definition kDefaultMaxAllowableDepth : Z := 200.
Definition kBSONDepthParameterFloor : Z := 5.
Definition kBSONDepthParameterCeiling : Z := 1000.

(** bsonobj.h line 219, builder.h lines 63 and 69 *)
Definition maxToStringRecursionDepth : Z := 100.
Definition BSONObjMaxInternalSize : Z := 16 * 1024 * 1024 + 16 * 1024.
Definition kMinBSONLength : Z := 5.

(** ** Abstract syntax

    A document is a list of named values.  Types whose value has a fixed
    width keep its bytes; strings may hold any byte, field names and the two
    parts of a regular expression are C strings. *)
Inductive value :=
| VFixed (t : Z) (payload : bytes)
| VString (t : Z) (s : bytes)
| VBinData (subtype : byte) (data : bytes)
| VRegEx (pattern options : bytes)
| VDBRef (ns oid : bytes)
| VObject (t : Z) (fs : fields)
| VCodeWScope (code : bytes) (scope : fields)
with fields :=
| FNil
| FCons (name : bytes) (v : value) (fs : fields).

Scheme value_fields_ind := Induction for value Sort Prop
  with fields_value_ind := Induction for fields Sort Prop.
Combined Scheme value_fields_mutind from value_fields_ind, fields_value_ind.

Definition type_of (v : value) : Z :=
  match v with
  | VFixed t _ | VString t _ | VObject t _ => t
  | VBinData _ _ => BSONType.BinData
  | VRegEx _ _ => BSONType.RegEx
  | VDBRef _ _ => BSONType.DBRef
  | VCodeWScope _ _ => BSONType.CodeWScope
  end.

(** A C string, and a string preceded by its length with the final NUL. *)
Definition enc_cstring (s : bytes) : bytes := s ++ [x00].
Definition enc_string (s : bytes) : bytes := le32 (vsize s + 1) ++ s ++ [x00].
(** The fields of a document between its size and its closing NUL. *)
Definition enc_framed (body : bytes) : bytes := le32 (vsize body + 5) ++ body ++ [x00].

Fixpoint enc_value (v : value) : bytes :=
  match v with
  | VFixed _ payload => payload
  | VString _ s => enc_string s
  | VBinData subtype data => le32 (vsize data) ++ subtype :: data
  | VRegEx pattern options => enc_cstring pattern ++ enc_cstring options
  | VDBRef ns oid => enc_string ns ++ oid
  | VObject _ fs => enc_framed (enc_fields fs)
  | VCodeWScope code scope =>
      let body := enc_string code ++ enc_framed (enc_fields scope) in
      le32 (vsize body + 4) ++ body
  end
with enc_fields (fs : fields) : bytes :=
  match fs with
  | FNil => []
  | FCons name v fs => byte_of (type_of v) :: enc_cstring name ++ enc_value v ++ enc_fields fs
  end.

Definition enc_element (name : bytes) (v : value) : bytes :=
  byte_of (type_of v) :: enc_cstring name ++ enc_value v.
Definition enc_doc (fs : fields) : bytes := enc_framed (enc_fields fs).

Fixpoint fields_list (fs : fields) : list (bytes * value) :=
  match fs with
  | FNil => []
  | FCons name v fs => (name, v) :: fields_list fs
  end.

(** ** Well-formed documents *)
Definition no_nul (s : bytes) : bool := forallb (λ b, negb (bool_decide (b = x00))) s.

(** The width of the types of fixed width; decimals came with version 1.1. *)
Definition fixed_size (version : BSONVersion) (t : Z) : option Z :=
  if bool_decide (t ∈ [BSONType.MinKey; BSONType.MaxKey; BSONType.jstNULL; BSONType.Undefined])
  then Some 0
  else if bool_decide (t = BSONType.Bool) then Some 1
  else if bool_decide (t = BSONType.NumberInt) then Some 4
  else if bool_decide (t ∈ [BSONType.NumberDouble; BSONType.NumberLong;
                            BSONType.bsonTimestamp; BSONType.Date]) then Some 8
  else if bool_decide (t = BSONType.jstOID) then Some kOIDSize
  else if bool_decide (t = BSONType.NumberDecimal)
  then match version with kV1_0 => None | kV1_1 => Some 16 end
  else None.

Section wf.
Variable version : BSONVersion.
(** A document may have [maxDepth] documents and code scopes around it. *)
Variable maxDepth : Z.

(** [wf_value d v]: [v] is a field of a document with [d] others around it. *)
Fixpoint wf_value (d : Z) (v : value) : bool :=
  match v with
  | VFixed t payload =>
      bool_decide (fixed_size version t = Some (vsize payload))
      && (if bool_decide (t = BSONType.Bool)
          then bool_decide (payload = [x00]) || bool_decide (payload = [x01]) else true)
  | VString t _ => bool_decide (t ∈ [BSONType.Code; BSONType.Symbol; BSONType.String])
  | VBinData _ _ => true
  | VRegEx pattern options => no_nul pattern && no_nul options
  | VDBRef _ oid => vsize oid =? kOIDSize
  | VObject t fs =>
      bool_decide (t ∈ [BSONType.Object; BSONType.Array])
      && (d + 1 <=? maxDepth) && wf_fields (d + 1) fs
  | VCodeWScope _ scope => (d + 2 <=? maxDepth) && wf_fields (d + 2) scope
  end
with wf_fields (d : Z) (fs : fields) : bool :=
  match fs with
  | FNil => true
  | FCons name v fs => no_nul name && wf_value d v && wf_fields d fs
  end.

Definition wf_doc (fs : fields) : bool := (0 <=? maxDepth) && wf_fields 0 fs.
End wf.

(** ** Bytes at an address *)
Definition occurs (mem : bytes) (p : Z) (l : bytes) : Prop :=
  0 ≤ p ∧ l `prefix_of` drop (Z.to_nat p) mem.

Lemma vsize_app {A} (l k : list A) : vsize (l ++ k) = vsize l + vsize k.
Proof. unfold vsize. rewrite length_app. lia. Qed.
Lemma vsize_cons {A} (a : A) l : vsize (a :: l) = 1 + vsize l.
Proof. unfold vsize. simpl. lia. Qed.
Lemma vsize_nil {A} : vsize (@nil A) = 0.
Proof. done. Qed.
Create Rewrite HintDb vsize.
#[export] Hint Rewrite @vsize_app @vsize_cons @vsize_nil vsize_le32 : vsize.

Lemma occurs_range mem p l : occurs mem p l → l ≠ [] → 0 ≤ p ∧ p + vsize l ≤ vsize mem.
Proof.
  intros [Hp [k Hk]] Hl. split; [done|]. apply (f_equal length) in Hk.
  rewrite length_app, length_drop in Hk. unfold vsize.
  destruct l; [done|]. simpl in *. lia.
Qed.

Lemma occurs_app mem p l k :
  occurs mem p (l ++ k) ↔ occurs mem p l ∧ occurs mem (p + vsize l) k.
Proof.
  unfold occurs. split.
  - intros [Hp [r Hr]]. rewrite <- app_assoc in Hr. split; [split; [done|by exists (k ++ r)]|].
    pose proof (vsize_nonneg l). split; [lia|]. exists r.
    replace (Z.to_nat (p + vsize l)) with (Z.to_nat p + length l)%nat by (unfold vsize; lia).
    by rewrite <- drop_drop, Hr, drop_app_length.
  - intros [[Hp [r Hr]] [_ [r' Hr']]]. split; [done|]. exists r'.
    replace (Z.to_nat (p + vsize l)) with (Z.to_nat p + length l)%nat in Hr' by (unfold vsize; lia).
    rewrite <- drop_drop, Hr, drop_app_length in Hr'. by rewrite Hr, Hr', app_assoc.
Qed.

Lemma occurs_cons mem p b k :
  occurs mem p (b :: k) ↔ occurs mem p [b] ∧ occurs mem (p + 1) k.
Proof. apply (occurs_app mem p [b] k). Qed.

Lemma occurs_unique mem p l k : occurs mem p l → occurs mem p k → vsize l = vsize k → l = k.
Proof.
  unfold vsize. intros [_ [r H]] [_ [r' H']] Hl. rewrite H in H'. apply app_inj_1 in H'; [naive_solver|lia].
Qed.

Lemma load_Ret mem p n l :
  load mem p n = Ret l ↔ 0 ≤ p ∧ occurs mem p l ∧ vsize l = n ∧ p + n ≤ vsize mem.
Proof.
  unfold load, occurs, vsize. split.
  - case_match eqn:E; [|done]. intros [= <-].
    rewrite !andb_true_iff, !Z.leb_le in E. unfold vsize in E.
    rewrite length_take, length_drop. repeat split; try lia. apply prefix_take.
  - intros (Hp & [_ [r Hr]] & <- & Hm).
    rewrite (proj2 (Z.leb_le 0 p)), (proj2 (Z.leb_le 0 _)), (proj2 (Z.leb_le _ _)) by lia.
    simpl. by rewrite Hr, Nat2Z.id, take_app_length.
Qed.

Lemma load_occurs mem p l n : occurs mem p l → l ≠ [] → vsize l = n → load mem p n = Ret l.
Proof. intros H Hl <-. apply load_Ret. pose proof (occurs_range _ _ _ H Hl). tauto. Qed.

Lemma load_in_range mem p n :
  0 ≤ p → 0 ≤ n → p + n ≤ vsize mem →
  ∃ l, load mem p n = Ret l ∧ occurs mem p l ∧ vsize l = n.
Proof.
  intros Hp Hn Hm. destruct (load mem p n) as [l|] eqn:E.
  - apply load_Ret in E. naive_solver.
  - unfold load in E. rewrite (proj2 (Z.leb_le 0 p)), (proj2 (Z.leb_le 0 n)), (proj2 (Z.leb_le _ _)) in E by lia.
    done.
Qed.

(** ** C strings in memory *)
Lemma nul_index_cstring s r : no_nul s = true → nul_index (s ++ x00 :: r) = vsize s.
Proof.
  unfold nul_index, index_where. rewrite <- (Z.add_0_l (vsize s)). generalize 0.
  induction s as [|b s IH]; intros i; simpl.
  { intros _. autorewrite with vsize. lia. }
  case_bool_decide; [done|]. simpl. intros Hs. rewrite IH by done.
  autorewrite with vsize. lia.
Qed.

Lemma nul_index_cases l :
  (nul_index l = -1 ∧ no_nul l = true)
  ∨ ∃ s r, l = s ++ x00 :: r ∧ no_nul s = true ∧ nul_index l = vsize s.
Proof.
  assert (no_nul l = true ∨ ∃ s r, l = s ++ x00 :: r ∧ no_nul s = true) as [Hl|(s & r & -> & Hs)].
  { induction l as [|b l IH]; [by left|]. simpl.
    case_bool_decide; [subst; right; by exists [], l|].
    destruct IH as [?|(s & r & -> & Hs)]; [by left|right].
    exists (b :: s), r. simpl. rewrite Hs. by case_bool_decide. }
  - left. split; [|done]. apply index_where_none. intros b Hb.
    unfold no_nul in Hl. rewrite forallb_forall in Hl.
    apply negb_true_iff, Hl. by apply list_elem_of_In.
  - right. exists s, r. split_and!; [done..|]. by apply nul_index_cstring.
Qed.

(** What is left of memory at the address of a C string. *)
Lemma occurs_cstring_drop mem p s :
  occurs mem p (enc_cstring s) →
  ∃ r, load mem p (vsize mem - p) = Ret (s ++ x00 :: r).
Proof.
  intros H. pose proof H as [Hp [r Hr]].
  destruct (occurs_range _ _ _ H) as [_ Hm]; [by destruct s|].
  unfold enc_cstring in *. autorewrite with vsize in Hm. pose proof (vsize_nonneg s).
  exists r. rewrite <- app_assoc in Hr. apply load_Ret.
  split_and!; [done|split; [done|by rewrite Hr]| |lia].
  apply (f_equal length) in Hr. rewrite length_drop in Hr. unfold vsize in *. simpl in *. lia.
Qed.

Lemma strlen_cstring mem p s :
  occurs mem p (enc_cstring s) → no_nul s = true → strlen mem p = Ret (vsize s).
Proof.
  intros [r Hr]%occurs_cstring_drop Hs. unfold strlen. rewrite Hr. simpl.
  rewrite nul_index_cstring by done. pose proof (vsize_nonneg s).
  by rewrite (proj2 (Z.eqb_neq _ _)) by lia.
Qed.

Lemma take_cstring (n : Z) s r :
  vsize s < n → ∃ r', take (Z.to_nat n) (s ++ x00 :: r) = s ++ x00 :: r'.
Proof.
  unfold vsize. intros Hn. exists (take (Z.to_nat n - S (length s)) r).
  rewrite take_app_ge by lia.
  by replace (Z.to_nat n - length s)%nat with (S (Z.to_nat n - S (length s))) by lia.
Qed.

Lemma strnlen_cstring mem p s n :
  occurs mem p (enc_cstring s) → no_nul s = true → vsize s < n < two32 → strnlen mem p n = Ret (vsize s).
Proof.
  intros [r Hr]%occurs_cstring_drop Hs Hn. unfold strnlen. pose proof (vsize_nonneg s).
  rewrite (u64_small n) by (unfold two32 in *; lia). rewrite Hr. simpl.
  destruct (take_cstring n s r (proj1 Hn)) as [r' ->].
  rewrite nul_index_cstring by done.
  by rewrite (proj2 (Z.eqb_neq _ _)) by lia.
Qed.

(** [memchr] finds the C string at an address, and only that. *)
Lemma memchr0_cases mem p n :
  0 ≤ p → 0 ≤ n → p + n ≤ vsize mem →
  (memchr0 mem p n = Ret (-1) ∧ ∀ s, occurs mem p (enc_cstring s) → no_nul s = true → n ≤ vsize s)
  ∨ ∃ s, memchr0 mem p n = Ret (vsize s) ∧ occurs mem p (enc_cstring s) ∧ no_nul s = true
         ∧ vsize s < n.
Proof.
  intros Hp Hn Hm. destruct (load_in_range mem p n Hp Hn Hm) as (l & Hl & Ho & Hs).
  unfold memchr0. rewrite Hl. simpl.
  destruct (nul_index_cases l) as [[-> Hnn]|(s & r & -> & Hnn & ->)].
  - left. split; [done|]. intros s Hoc Hss. destruct (decide (n ≤ vsize s)) as [|Hlt]; [done|].
    destruct (take_cstring n s [] ltac:(lia)) as [r Hr].
    pose proof Ho as [_ [k Hk]]. destruct Hoc as [_ [k' Hk']].
    rewrite Hk in Hk'. unfold enc_cstring in Hk'. rewrite <- app_assoc in Hk'.
    apply (f_equal (take (Z.to_nat n))) in Hk'.
    rewrite take_app_length' in Hk' by (unfold vsize in Hs; lia).
    destruct (take_cstring n s k' ltac:(lia)) as [r' Hr']. simpl in Hk'. rewrite Hr' in Hk'. subst l.
    unfold no_nul in Hnn. rewrite forallb_app in Hnn. simpl in Hnn.
    by rewrite andb_false_r in Hnn.
  - right. exists s. split_and!; [done| |done|].
    + replace (s ++ x00 :: r) with (enc_cstring s ++ r) in Ho by (unfold enc_cstring; by rewrite <- app_assoc).
      by apply occurs_app in Ho as [? _].
    + autorewrite with vsize in Hs. pose proof (vsize_nonneg r). lia.
Qed.
