(* ===== verification/BsonElement.v ===== *)
(** * Elements, objects and iterators

    [BSONElement] (src/mongo/bson/bsonelement.h, bsonelement.cpp), [BSONObj]
    (bsonobj.h, bsonobj.cpp) and [BSONObjIterator] (bsonobj.h) on a buffer
    [mem]: element sizes with their caches, iteration with and without the
    bounds check, lookups, the check of a document before it is stored, and
    the control flow of [toString].  Text that is only printed is not
    represented; the reads made for it and the exceptions it can throw are. *)
From S2P Require Import Prelude ParseNumber Bson.

(** bsonelement.h, lines 650 to 653.  [data] is an address in the buffer, or
    [None] for the static element of the default constructor; the two sizes
    are caches, -1 until they are computed. *)
Record BSONElement := {
  data : option Z;
  fieldNameSize_ : Z;
  totalSize : Z;
}.
#[export] Instance eta_BSONElement : Eta BSONElement := λ e,
  {| data := data e; fieldNameSize_ := fieldNameSize_ e; totalSize := totalSize e |}.

(** An object is the address of its first byte; an iterator holds the address
    of the next element and of the closing NUL (bsonobj.h, lines 735, 736). *)
Abbreviation BSONObj := Z (only parsing).
Record BSONObjIterator := { _pos : Z; _theend : Z }.

(** Exceptions are caught, a fault is not. *)
Definition catch_all (m : outcome ()) : outcome () :=
  match m with
  | Ret _ => Ret tt
  | Abort l => if (l =? FAULT) || (l =? FUEL) then Abort l else Ret tt
  end.

Module Elem.
Section mem.
Variable mem : bytes.

Definition char_at (p : Z) : outcome byte :=
  bs ← load mem p 1; Ret (hd x00 bs).
Definition read_int (p : Z) : outcome Z := bs ← load mem p 4; Ret (i32 (le_combine bs)).
Definition read_uint32 (p : Z) : outcome Z := bs ← load mem p 4; Ret (le_combine bs).
(** A computation on the buffer inside a method of an element. *)
Definition lift {A} (m : outcome A) : M BSONElement A := reads (λ _, m).
(** [massert], [uassert] and [verify]. *)
Definition massert (code : Z) (b : bool) : M BSONElement () := lift (check code b).

(** *** Constructors: bsonelement.h, lines 607 to 629 and 810 to 818 *)
Definition eoo_element : BSONElement :=
  {| data := None; fieldNameSize_ := 0; totalSize := 1 |}.
Definition mk (d : Z) : outcome BSONElement :=
  c ← char_at d;
  Ret (if schar c =? BSONType.EOO then {| data := Some d; fieldNameSize_ := 0; totalSize := 1 |}
       else {| data := Some d; fieldNameSize_ := -1; totalSize := -1 |}).
Definition mk_max (d maxLen : Z) : outcome BSONElement :=
  c ← char_at d;
  if schar c =? BSONType.EOO then Ret {| data := Some d; fieldNameSize_ := 0; totalSize := 1 |}
  else if maxLen =? -1 then Ret {| data := Some d; fieldNameSize_ := -1; totalSize := -1 |}
  else
    size ← strnlen mem (d + 1) (maxLen - 1);
    _ ← check 10333 (size <? u64 (maxLen - 1));
    Ret {| data := Some d; fieldNameSize_ := i32 (size + 1); totalSize := -1 |}.

(** *** Access: bsonelement.h, lines 206 to 481 *)
Definition type : M BSONElement Z := reads (λ e,
  match data e with
  | None => Ret BSONType.EOO
  | Some d => c ← char_at d; Ret (schar c)
  end).
Definition eoo : M BSONElement bool := t ← type; mret (t =? BSONType.EOO).
Definition rawdata : M BSONElement Z := reads (λ e,
  match data e with
  | Some d => Ret d
  | None => Abort FAULT
  end).
(** [None] is the static empty string. *)
Definition fieldName : M BSONElement (option Z) :=
  b ← eoo;
  if (b : bool) then mret None else d ← rawdata; mret (Some (d + 1)).
Definition cstr_len (s : option Z) : outcome Z :=
  match s with
  | None => Ret 0
  | Some p => strlen mem p
  end.
Definition fieldNameSize : M BSONElement Z :=
  c ← gets fieldNameSize_;
  if c =? -1 then
    s ← fieldName;
    n ← lift (cstr_len s);
    _ ← modify (λ e, e <| fieldNameSize_ := i32 n + 1 |>);
    gets fieldNameSize_
  else mret c.
Definition value : M BSONElement Z :=
  n ← fieldNameSize;
  d ← rawdata;
  mret (d + n + 1).
Definition valuestrsize : M BSONElement Z := p ← value; lift (read_int p).
Definition objsize : M BSONElement Z := p ← value; lift (read_uint32 p).
Definition valuestr : M BSONElement Z := p ← value; mret (p + 4).

(** [fieldNameStringData]: the name itself. *)
Definition fieldNameStringData : M BSONElement bytes :=
  b ← eoo;
  if (b : bool) then mret []
  else n ← fieldNameSize; d ← rawdata; lift (load mem (d + 1) (n - 1)).

Definition isABSONObj : M BSONElement bool :=
  t ← type; mret (bool_decide (t ∈ [BSONType.Object; BSONType.Array])).
Definition mayEncapsulate : M BSONElement bool :=
  t ← type;
  mret (bool_decide (t ∈ [BSONType.Object; BSONType.Array; BSONType.CodeWScope])).

Definition codeWScopeCode : M BSONElement Z :=
  t ← type; _ ← massert 16177 (t =? BSONType.CodeWScope); p ← value; mret (p + 4 + 4).
Definition binDataType : M BSONElement Z :=
  t ← type; _ ← massert 466 (t =? BSONType.BinData);
  p ← value; c ← lift (char_at (p + 4)); mret (uchar c).
(** Address and length. *)
Definition binData : M BSONElement (Z * Z) :=
  t ← type; _ ← massert 448 (t =? BSONType.BinData);
  len ← valuestrsize; p ← value; mret (p + 5, len).
Definition ByteArrayDeprecated : Z := 2.
Definition binDataClean : M BSONElement (Z * Z) :=
  t ← binDataType;
  if negb (t =? ByteArrayDeprecated) then binData
  else len ← valuestrsize; p ← value; mret (p + 5 + 4, i32 (len - 4)).
Definition regex : M BSONElement Z :=
  t ← type; _ ← massert 473 (t =? BSONType.RegEx); value.
Definition regexFlags : M BSONElement Z :=
  p ← regex; n ← lift (strlen mem p); mret (p + n + 1).

(** *** Sizes: bsonelement.cpp, lines 485 to 638 *)
Definition fixed_value_size (t : Z) : option Z :=
  if bool_decide (t ∈ [BSONType.EOO; BSONType.Undefined; BSONType.jstNULL;
                       BSONType.MaxKey; BSONType.MinKey]) then Some 0
  else if t =? BSONType.Bool then Some 1
  else if t =? BSONType.NumberInt then Some 4
  else if bool_decide (t ∈ [BSONType.bsonTimestamp; BSONType.Date;
                            BSONType.NumberDouble; BSONType.NumberLong]) then Some 8
  else if t =? BSONType.NumberDecimal then Some 16
  else if t =? BSONType.jstOID then Some kOIDSize
  else None.

(** The last line of both functions: the sum is cached. *)
Definition set_size (x : Z) : M BSONElement Z :=
  n ← fieldNameSize;
  _ ← modify (λ e, e <| totalSize := i32 (x + n + 1) |>);
  gets totalSize.

Definition size : M BSONElement Z :=
  c ← gets totalSize;
  if 0 <=? c then mret c else
  t ← type;
  match fixed_value_size t with
  | Some x => set_size x
  | None =>
      if bool_decide (t ∈ [BSONType.Symbol; BSONType.Code; BSONType.String]) then
        n ← valuestrsize; set_size (i32 (n + 4))
      else if t =? BSONType.DBRef then
        n ← valuestrsize; set_size (i32 (n + 4 + 12))
      else if bool_decide (t ∈ [BSONType.CodeWScope; BSONType.Object; BSONType.Array]) then
        n ← objsize; set_size (i32 n)
      else if t =? BSONType.BinData then
        n ← valuestrsize; set_size (i32 (n + 4 + 1))
      else if t =? BSONType.RegEx then
        p ← value;
        len1 ← lift (strlen mem p);
        len2 ← lift (strlen mem (p + len1 + 1));
        set_size (i32 (len1 + 1 + len2 + 1))
      else massert 10320 false;; mret 0
  end.

Definition size_max (maxLen : Z) : M BSONElement Z :=
  c ← gets totalSize;
  if 0 <=? c then mret c else
  fns ← fieldNameSize;
  let remain := maxLen - fns - 1 in
  let room := (maxLen =? -1) || (3 <? remain) in
  t ← type;
  match fixed_value_size t with
  | Some x => set_size x
  | None =>
      if bool_decide (t ∈ [BSONType.Symbol; BSONType.Code; BSONType.String]) then
        _ ← massert 10313 room; n ← valuestrsize; set_size (i32 (n + 4))
      else if t =? BSONType.CodeWScope then
        _ ← massert 10314 room; n ← objsize; set_size (i32 n)
      else if t =? BSONType.DBRef then
        _ ← massert 10315 room; n ← valuestrsize; set_size (i32 (n + 4 + 12))
      else if bool_decide (t ∈ [BSONType.Object; BSONType.Array]) then
        _ ← massert 10316 room; n ← objsize; set_size (i32 n)
      else if t =? BSONType.BinData then
        _ ← massert 10317 room; n ← valuestrsize; set_size (i32 (n + 4 + 1))
      else if t =? BSONType.RegEx then
        p ← value;
        len1 ← lift (if maxLen =? -1 then strlen mem p else strnlen mem p remain);
        _ ← massert 10318 ((maxLen =? -1) || (len1 <? u64 remain));
        let p := p + len1 + 1 in
        len2 ← (if maxLen =? -1 then lift (strlen mem p)
                else
                  let x := u64 (remain - len1 - 1) in
                  _ ← massert 556 (x <=? INT_MAX);
                  len2 ← lift (strnlen mem p x);
                  _ ← massert 10319 (len2 <? x);
                  mret len2);
        set_size (i32 (len1 + 1 + len2 + 1))
      else massert 13655 false;; mret 0
  end.
Definition valuesize : M BSONElement Z :=
  n ← size; f ← fieldNameSize; mret (n - f - 1).

End mem.
End Elem.

Module Obj.
Section mem.
Variable mem : bytes.

(** ** Objects: bsonobj.h, lines 340 to 397 and 488 to 602 *)
Definition objsize (o : BSONObj) : outcome Z := Elem.read_int mem o.
Definition isValid (o : BSONObj) : outcome bool :=
  x ← objsize o; Ret ((0 <? x) && (x <=? BSONObjMaxInternalSize)).
Definition isEmpty (o : BSONObj) : outcome bool :=
  x ← objsize o; Ret (x <=? kMinBSONLength).
Definition firstElement (o : BSONObj) : outcome BSONElement := Elem.mk mem (o + 4).

(** bsonobj.cpp, lines 48 to 60; [toString] prints the first element. *)
Definition _assertInvalid (toString : M BSONElement ()) (o : BSONObj) : outcome () :=
  _ ← objsize o;
  _ ← catch_all (e ← firstElement o; r ← toString e; Ret tt);
  Abort 10334.
Definition init (toString : M BSONElement ()) (o : BSONObj) : outcome BSONObj :=
  v ← isValid o;
  if (v : bool) then Ret o else _ ← _assertInvalid toString o; Ret o.

(** ** Iterators: bsonobj.h, lines 648 to 705; -1 is the null pointer *)
Definition iterator (o : BSONObj) : outcome BSONObjIterator :=
  sz ← objsize o;
  if sz =? 0 then Ret {| _pos := -1; _theend := -1 |}
  else Ret {| _pos := o + 4; _theend := o + sz - 1 |}.
Definition more (i : BSONObjIterator) : bool := _pos i <? _theend i.
Definition moreWithEOO (i : BSONObjIterator) : bool := _pos i <=? _theend i.
Definition next : M BSONObjIterator BSONElement := λ i,
  _ ← check 701 (_pos i <=? _theend i);
  e ← Elem.mk mem (_pos i);
  '(n, e) ← Elem.size mem e;
  Ret (e, {| _pos := _pos i + n; _theend := _theend i |}).
Definition next_check (checkEnd : bool) : M BSONObjIterator BSONElement := λ i,
  _ ← check 684 (_pos i <=? _theend i);
  let maxLen := if checkEnd then i32 (_theend i + 1 - _pos i) else -1 in
  _ ← check 689 (if checkEnd then 0 <? maxLen else true);
  e ← Elem.mk_max mem (_pos i) maxLen;
  '(esize, e) ← Elem.size_max mem maxLen e;
  _ ← check 16446 (0 <? esize);
  Ret (e, {| _pos := _pos i + esize; _theend := _theend i |}).

(** ** Printing: bsonelement.cpp, lines 646 to 766, and bsonobj.cpp, lines 582
    to 618.  The text is not represented. *)
Definition print (p n : Z) : M BSONElement () := Elem.lift (_ ← load mem p n; Ret tt).
Definition print_cstr (p : Z) : M BSONElement () := Elem.lift (_ ← strlen mem p; Ret tt).
(** util/hex.h, lines 56 to 70: nothing is read when [len] is not positive. *)
Definition toHex (p len : Z) : M BSONElement () := if 0 <? len then print p len else mret tt.

Definition print_text (full : bool) (limit part : Z) : M BSONElement () :=
  n ← Elem.valuestrsize mem;
  p ← Elem.valuestr mem;
  if negb full && (limit <? n) then print p part else print p (i32 (n - 1)).

(** The second switch of [toString] without the scope of a CodeWScope. *)
Definition print_value (full : bool) (t : Z) : M BSONElement () :=
  if bool_decide (t ∈ [BSONType.Date; BSONType.NumberDouble; BSONType.NumberLong]) then
    p ← Elem.value mem; print p 8
  else if t =? BSONType.RegEx then
    p ← Elem.regex mem; _ ← print_cstr p; q ← Elem.regexFlags mem; print_cstr q
  else if t =? BSONType.NumberInt then p ← Elem.value mem; print p 4
  else if t =? BSONType.NumberDecimal then
    p ← Elem.value mem; _ ← print p 8; print (p + 8) 8
  else if t =? BSONType.Bool then p ← Elem.value mem; print p 1
  else if t =? BSONType.Code then print_text full 80 70
  else if bool_decide (t ∈ [BSONType.Symbol; BSONType.String]) then print_text full 160 150
  else if t =? BSONType.DBRef then
    p ← Elem.valuestr mem; _ ← print_cstr p;
    n ← Elem.valuestrsize mem; print (p + n) kOIDSize
  else if t =? BSONType.jstOID then p ← Elem.value mem; print p kOIDSize
  else if t =? BSONType.BinData then
    _ ← Elem.binDataType mem;
    '(p, len) ← Elem.binDataClean mem;
    if negb full && (80 <? len) then toHex p 70 else toHex p len
  else if t =? BSONType.bsonTimestamp then
    p ← Elem.value mem; _ ← print (p + 4) 4; print p 4
  else mret tt.

(** bsonelement.cpp, lines 448 to 457; [toString] is used when the size is invalid. *)
Definition embeddedObject (toString : M BSONElement ()) : M BSONElement BSONObj :=
  b ← Elem.isABSONObj mem; _ ← Elem.massert 449 b;
  p ← Elem.value mem; Elem.lift (init toString p).
Definition codeWScopeObject (toString : M BSONElement ()) : M BSONElement BSONObj :=
  t ← Elem.type mem; _ ← Elem.massert 454 (t =? BSONType.CodeWScope);
  p ← Elem.value mem;
  strSizeWNull ← Elem.lift (Elem.read_int mem (p + 4));
  Elem.lift (init toString (p + 4 + 4 + strSizeWNull)).

Fixpoint toString (fuel : nat) (includeFieldName full redactValues : bool) (depth : Z)
    {struct fuel} : M BSONElement () :=
  match fuel with
  | O => Elem.lift (Abort FUEL)
  | S fuel =>
      if maxToStringRecursionDepth <? depth then Elem.massert 16150 (negb full) else
      t ← Elem.type mem;
      _ ← (if includeFieldName && negb (t =? BSONType.EOO)
           then s ← Elem.fieldName mem; _ ← Elem.lift (Elem.cstr_len mem s); mret tt
           else mret tt);
      if t =? BSONType.Object then
        o ← embeddedObject (toString fuel true false false 0); Elem.lift (obj_toString fuel o false full redactValues (depth + 1))
      else if t =? BSONType.Array then
        o ← embeddedObject (toString fuel true false false 0); Elem.lift (obj_toString fuel o true full redactValues (depth + 1))
      else if redactValues then mret tt
      else if t =? BSONType.CodeWScope then
        c ← Elem.codeWScopeCode mem; _ ← print_cstr c;
        o ← codeWScopeObject (toString fuel true false false 0);
        Elem.lift (b ← isEmpty o;
                   if (b : bool) then Ret tt else obj_toString fuel o false false false 0)
      else print_value full t
  end
with obj_toString (fuel : nat) (o : BSONObj) (isArray full redactValues : bool) (depth : Z)
    {struct fuel} : outcome () :=
  match fuel with
  | O => Abort FUEL
  | S fuel =>
      b ← isEmpty o;
      if (b : bool) then Ret tt else
      i ← iterator o;
      print_loop fuel o i isArray full redactValues depth
  end
with print_loop (fuel : nat) (o : BSONObj) (i : BSONObjIterator)
    (isArray full redactValues : bool) (depth : Z) {struct fuel} : outcome () :=
  match fuel with
  | O => Abort FUEL
  | S fuel =>
      _ ← check 10327 (moreWithEOO i);
      '(e, i) ← next_check true i;
      '(n, e) ← Elem.size mem e;
      _ ← check 10328 (0 <? n);
      _ ← check 10329 (n <? Z.shiftl 1 30);
      '(p, e) ← Elem.rawdata e;
      let offset := p - o in
      sz ← objsize o;
      _ ← check 10330 (n + offset <=? sz);
      let last := n + offset =? sz in
      '(b, e) ← Elem.eoo mem e;
      if (b : bool) then check 10331 last
      else
        _ ← toString fuel (negb isArray) full redactValues depth e;
        print_loop fuel o i isArray full redactValues depth
  end.

(** Enough for every recursion on the buffer: each call moves forward in it. *)
Definition buffer_fuel : nat := 4 + 2 * length mem.
(** [e.toString()]. *)
Definition elem_toString : M BSONElement () := toString buffer_fuel true false false 0.

(** ** Lookups: bsonobj.cpp, lines 201 to 214, 268 to 280, 485 to 497, 514 to 521,
    552 to 580 *)
Fixpoint elems_loop (fuel : nat) (v : list BSONElement) (i : BSONObjIterator)
    : outcome (list BSONElement) :=
  match fuel with
  | O => Abort FUEL
  | S fuel =>
      if more i then '(e, i) ← next i; elems_loop fuel (v ++ [e]) i else Ret v
  end.
Definition elems (o : BSONObj) : outcome (list BSONElement) :=
  i ← iterator o; elems_loop buffer_fuel [] i.

Fixpoint getField_loop (fuel : nat) (name : bytes) (i : BSONObjIterator) : outcome BSONElement :=
  match fuel with
  | O => Abort FUEL
  | S fuel =>
      if more i then
        '(e, i) ← next i;
        '(n, e) ← Elem.fieldNameStringData mem e;
        if bool_decide (name = n) then Ret e else getField_loop fuel name i
      else Ret Elem.eoo_element
  end.
Definition getField (o : BSONObj) (name : bytes) : outcome BSONElement :=
  i ← iterator o; getField_loop buffer_fuel name i.
Definition hasField (o : BSONObj) (name : bytes) : outcome bool :=
  e ← getField o name; '(b, _) ← Elem.eoo mem e; Ret (negb b).

Fixpoint nFields_loop (fuel : nat) (n : Z) (i : BSONObjIterator) : outcome Z :=
  match fuel with
  | O => Abort FUEL
  | S fuel =>
      if moreWithEOO i then
        '(e, i) ← next i;
        '(b, e) ← Elem.eoo mem e;
        if (b : bool) then Ret n else nFields_loop fuel (n + 1) i
      else Ret n
  end.
Definition nFields (o : BSONObj) : outcome Z := i ← iterator o; nFields_loop buffer_fuel 0 i.

(** The C string that [fieldName] points to. *)
Definition field_cname : M BSONElement bytes :=
  s ← Elem.fieldName mem;
  match s with
  | None => mret []
  | Some p => n ← Elem.lift (strlen mem p); Elem.lift (load mem p n)
  end.

Fixpoint namePrefix_loop (fuel : nat) (a b : BSONObjIterator) : outcome bool :=
  match fuel with
  | O => Abort FUEL
  | S fuel =>
      if more a && more b then
        '(x, a) ← next a;
        '(y, b) ← next b;
        '(nx, _) ← field_cname x;
        '(ny, _) ← field_cname y;
        if bool_decide (nx = ny) then namePrefix_loop fuel a b else Ret false
      else Ret (negb (more a))
  end.
Definition isFieldNamePrefixOf (o other : BSONObj) : outcome bool :=
  a ← iterator o; b ← iterator other; namePrefix_loop buffer_fuel a b.

(** ** Documents for storage: bsonobj.cpp, lines 380 to 457 *)
Definition dollar : byte := x24.
Definition dot : byte := x2e.
Definition name_ref : bytes := [x24; x72; x65; x66].
Definition name_id : bytes := [x24; x69; x64].
Definition name_db : bytes := [x24; x64; x62].
Definition name__id : bytes := [x5f; x69; x64].
Definition startsWith (c : byte) (s : bytes) : bool :=
  match s with
  | [] => false
  | b :: _ => bool_decide (b = c)
  end.

(** The checks of one field after the one for a leading dollar (lines 417 to
    451), and the fields after it: [sub] checks an embedded document and
    [rest] goes on with the loop. *)
Definition okForStorage_field (sub : BSONObj → outcome Status)
    (rest : BSONObjIterator → outcome Status) (root deep : bool)
    (e : BSONElement) (name : bytes) (t : Z) (i : BSONObjIterator) : outcome Status :=
  if existsb (λ b, bool_decide (b = dot)) name then Ret (Err DottedFieldName)
  else if root && bool_decide (t ∈ [BSONType.RegEx; BSONType.Array; BSONType.Undefined])
          && bool_decide (name = name__id) then Ret (Err InvalidIdField)
  else
    '(enc, e) ← Elem.mayEncapsulate mem e;
    s ← (if deep && enc then
           if bool_decide (t ∈ [BSONType.Object; BSONType.Array]) then
             '(o, _) ← embeddedObject elem_toString e; sub o
           else if t =? BSONType.CodeWScope then
             '(o, _) ← codeWScopeObject elem_toString e; sub o
           else Abort 12579
         else Ret (OK tt));
    match s with
    | OK _ => rest i
    | Err c => Ret (Err c)
    end.

Fixpoint _okForStorage (fuel : nat) (o : BSONObj) (root deep : bool) {struct fuel}
    : outcome Status :=
  match fuel with
  | O => Abort FUEL
  | S fuel => i ← iterator o; okForStorage_loop fuel i true root deep
  end
with okForStorage_loop (fuel : nat) (i : BSONObjIterator) (first root deep : bool) {struct fuel}
    : outcome Status :=
  match fuel with
  | O => Abort FUEL
  | S fuel =>
      let field := okForStorage_field (λ o, _okForStorage fuel o false true)
                     (λ i, okForStorage_loop fuel i false root deep) root deep in
      if negb (more i) then Ret (OK tt) else
      '(e, i) ← next i;
      '(name, e) ← field_cname e;
      '(t, e) ← Elem.type mem e;
      if startsWith dollar name then
        if first && bool_decide (name = name_ref) && (t =? BSONType.String) then
          '(e2, i) ← next i;
          '(name2, _) ← field_cname e2;
          if bool_decide (name2 = name_id) then
            '(e3, i) ← next i;
            '(name3, e3) ← field_cname e3;
            '(t3, e3) ← Elem.type mem e3;
            if bool_decide (name3 = name_db) && (t3 =? BSONType.String)
            then okForStorage_loop fuel i false root deep
            else if startsWith dollar name3 then Ret (Err DollarPrefixedFieldName)
            else field e3 name3 t3 i
          else Ret (Err DollarPrefixedFieldName)
        else Ret (Err DollarPrefixedFieldName)
      else field e name t i
  end.
(** bsonobj.h, lines 378 to 392 *)
Definition storageValidEmbedded (o : BSONObj) (deep : bool) : outcome Status :=
  _okForStorage buffer_fuel o false deep.
Definition storageValid (o : BSONObj) (deep : bool) : outcome Status :=
  _okForStorage buffer_fuel o true deep.
End mem.
End Obj.
