(* ===== verification/BsonIter.v ===== *)
(** * Elements and iterators on well-formed documents

    The element, object and iterator operations of BsonElement.v on a buffer
    that holds a document in the format of Bson.v: sizes, names and types are
    those of the abstract syntax, iteration visits the fields in order, and
    nothing outside of the document is read. *)
From S2P Require Import Prelude ParseNumber Bson BsonElement.

(** ** Types of well-formed values *)
Lemma fixed_size_types ver t n :
  fixed_size ver t = Some n →
  t ∈ [BSONType.MinKey; BSONType.MaxKey; BSONType.jstNULL; BSONType.Undefined; BSONType.Bool;
       BSONType.NumberInt; BSONType.NumberDouble; BSONType.NumberLong; BSONType.bsonTimestamp;
       BSONType.Date; BSONType.jstOID; BSONType.NumberDecimal].
Proof. unfold fixed_size. repeat case_bool_decide; try done; set_solver. Qed.

Lemma wf_type ver md d v :
  wf_value ver md d v = true → -128 ≤ type_of v < 128 ∧ type_of v ≠ 0.
Proof.
  destruct v; simpl; intros H; try (unfold BSONType.BinData, BSONType.RegEx, BSONType.DBRef, BSONType.CodeWScope; lia).
  - apply andb_true_iff in H as [H _]. apply bool_decide_eq_true, fixed_size_types in H.
    repeat (apply elem_of_cons in H as [->|H]; [split; [split|]; by vm_compute|]).
    by apply elem_of_nil in H.
  - apply bool_decide_eq_true in H.
    repeat (apply elem_of_cons in H as [->|H]; [split; [split|]; by vm_compute|]).
    by apply elem_of_nil in H.
  - rewrite !andb_true_iff, bool_decide_eq_true in H. destruct H as [[H _] _].
    repeat (apply elem_of_cons in H as [->|H]; [split; [split|]; by vm_compute|]).
    by apply elem_of_nil in H.
Qed.

(** Case analysis on a type from a list, and evaluation of the switches on it. *)
Ltac in_cases H :=
  repeat (apply elem_of_cons in H as [->|H]; [|]); [..|by apply elem_of_nil in H].
Ltac eval_test c :=
  let b := eval vm_compute in c in
  match b with true => change c with true | false => change c with false end.
Ltac decide_types :=
  repeat match goal with
  | |- context [Elem.fixed_value_size ?t] =>
      let b := eval vm_compute in (Elem.fixed_value_size t) in
      match b with None => change (Elem.fixed_value_size t) with (@None Z) end
  | |- context [bool_decide (?t ∈ ?l)] => eval_test (bool_decide (t ∈ l))
  | |- context [?a =? ?b] => eval_test (a =? b)
  end; cbn iota.

Lemma wf_fixed ver t payload :
  bool_decide (fixed_size ver t = Some (vsize payload))
  && (if bool_decide (t = BSONType.Bool)
      then bool_decide (payload = [x00]) || bool_decide (payload = [x01]) else true) = true →
  Elem.fixed_value_size t = Some (vsize payload).
Proof.
  rewrite andb_true_iff, bool_decide_eq_true. intros [H _]. rewrite <- H.
  apply fixed_size_types in H as Ht. revert H. unfold fixed_size.
  in_cases Ht; destruct ver; vm_compute; congruence.
Qed.

Section memory.
Variable mem : bytes.
Hypothesis Hmem : vsize mem ≤ INT_MAX.

Lemma char_at_occurs p b : occurs mem p [b] → Elem.char_at mem p = Ret b.
Proof. intros H. unfold Elem.char_at. by rewrite (load_occurs mem p [b]) by done. Qed.

Lemma read_int_occurs p z : occurs mem p (le32 z) → 0 ≤ z ≤ INT_MAX → Elem.read_int mem p = Ret z.
Proof.
  intros H Hz. unfold Elem.read_int. rewrite (load_occurs mem p (le32 z)) by done.
  simpl. by rewrite le32_i32.
Qed.

Lemma read_uint32_occurs p z :
  occurs mem p (le32 z) → 0 ≤ z ≤ INT_MAX → Elem.read_uint32 mem p = Ret z.
Proof.
  intros H Hz. unfold Elem.read_uint32. rewrite (load_occurs mem p (le32 z)) by done.
  simpl. rewrite le32_combine; [done|]. unfold two32, INT_MAX in *. lia.
Qed.

(** ** One element *)
Section element.
Variables (ver : BSONVersion) (md d : Z) (p : Z) (name : bytes) (v : value).
Hypothesis Hname : no_nul name = true.
Hypothesis Hwf : wf_value ver md d v = true.
Hypothesis Hocc : occurs mem p (enc_element name v).

Definition esize : Z := vsize (enc_element name v).
(** An element that points here; its caches are empty or right. *)
Record good (e : BSONElement) : Prop := {
  good_data : data e = Some p;
  good_name : fieldNameSize_ e = -1 ∨ fieldNameSize_ e = vsize name + 1;
  good_size : totalSize e = -1 ∨ totalSize e = esize;
}.
(** A method returns [a] on such an element, and leaves it such an element. *)
Definition gives {A} (m : M BSONElement A) (a : A) : Prop :=
  ∀ e, good e → wp m (λ x e', x = a ∧ good e') e.

Lemma gives_ret {A} (a : A) : gives (mret a) a.
Proof. by intros e He. Qed.
Lemma gives_bind {A B} (m : M BSONElement A) (f : A → M BSONElement B) a b :
  gives m a → gives (f a) b → gives (m ≫= f) b.
Proof.
  intros Hm Hf e He. apply wp_bind. eapply wp_mono; [|by apply Hm].
  intros x e' [-> He']. by apply Hf.
Qed.
Lemma gives_lift {A} (m : outcome A) a : m = Ret a → gives (Elem.lift m) a.
Proof. intros -> e He. done. Qed.
Lemma gives_massert code b : b = true → gives (Elem.massert code b) tt.
Proof. intros ->. by apply gives_lift. Qed.

Lemma esize_eq : esize = 1 + (vsize name + 1) + vsize (enc_value v).
Proof. unfold esize, enc_element, enc_cstring. autorewrite with vsize. lia. Qed.
Lemma element_in_range : 0 ≤ p ∧ p + esize ≤ vsize mem.
Proof. by apply occurs_range. Qed.

Lemma element_parts :
  occurs mem p [byte_of (type_of v)] ∧ occurs mem (p + 1) (enc_cstring name)
  ∧ occurs mem (p + 1 + (vsize name + 1)) (enc_value v).
Proof.
  pose proof Hocc as H. unfold enc_element in H.
  apply occurs_cons in H as [H1 H]. apply occurs_app in H as [H2 H3].
  unfold enc_cstring in H3 at 1. autorewrite with vsize in H3. by rewrite Z.add_0_r in H3.
Qed.

Lemma gives_type : gives (Elem.type mem) (type_of v).
Proof.
  intros e He. unfold Elem.type. wp_simpl. rewrite (good_data e He).
  rewrite (char_at_occurs _ _ (proj1 element_parts)). simpl.
  split; [|done]. apply schar_byte_of. apply (wf_type _ _ _ _ Hwf).
Qed.
Lemma gives_eoo : gives (Elem.eoo mem) false.
Proof.
  eapply gives_bind; [apply gives_type|].
  destruct (wf_type _ _ _ _ Hwf) as [_ H]. rewrite (proj2 (Z.eqb_neq _ _)) by done. apply gives_ret.
Qed.
Lemma gives_rawdata : gives Elem.rawdata p.
Proof. intros e He. unfold Elem.rawdata. wp_simpl. by rewrite (good_data e He). Qed.
Lemma gives_fieldName : gives (Elem.fieldName mem) (Some (p + 1)).
Proof.
  eapply gives_bind; [apply gives_eoo|]. eapply gives_bind; [apply gives_rawdata|]. apply gives_ret.
Qed.
Lemma name_strlen : strlen mem (p + 1) = Ret (vsize name).
Proof. apply strlen_cstring; [apply element_parts|done]. Qed.

Lemma gives_fieldNameSize : gives (Elem.fieldNameSize mem) (vsize name + 1).
Proof.
  intros e He. unfold Elem.fieldNameSize. wp_simpl.
  pose proof (vsize_nonneg name). pose proof element_in_range as Hr.
  pose proof esize_eq. pose proof (vsize_nonneg (enc_value v)).
  destruct (good_name e He) as [->| ->].
  - simpl. wp_simpl. eapply wp_mono; [|by apply gives_fieldName].
    intros ? e' [-> He']. unfold Elem.lift. wp_simpl. simpl. rewrite name_strlen. simpl.
    rewrite i32_small by (unfold INT_MIN; lia). split; [done|].
    split; [apply (good_data e' He')|right; done|apply (good_size e' He')].
  - rewrite (proj2 (Z.eqb_neq _ _)) by lia. done.
Qed.

(** The address of the value. *)
Definition vpos : Z := p + 1 + (vsize name + 1).
Lemma gives_value : gives (Elem.value mem) vpos.
Proof.
  eapply gives_bind; [apply gives_fieldNameSize|]. eapply gives_bind; [apply gives_rawdata|].
  unfold vpos. replace (p + 1 + (vsize name + 1)) with (p + (vsize name + 1) + 1) by lia. apply gives_ret.
Qed.
Lemma gives_valuestr : gives (Elem.valuestr mem) (vpos + 4).
Proof. eapply gives_bind; [apply gives_value|apply gives_ret]. Qed.
Lemma gives_fieldNameStringData : gives (Elem.fieldNameStringData mem) name.
Proof.
  eapply gives_bind; [apply gives_eoo|]. eapply gives_bind; [apply gives_fieldNameSize|].
  eapply gives_bind; [apply gives_rawdata|]. apply gives_lift. rewrite Z.add_simpl_r.
  destruct element_parts as (_ & H & _). pose proof H as H'.
  apply occurs_app in H as [H _]. apply load_Ret.
  apply occurs_range in H' as [? Hr]; [|by destruct name].
  unfold enc_cstring in Hr. autorewrite with vsize in Hr. split_and!; [lia|done|done|lia].
Qed.
Lemma gives_valuestrsize z :
  occurs mem vpos (le32 z) → 0 ≤ z ≤ INT_MAX → gives (Elem.valuestrsize mem) z.
Proof.
  intros H Hz. eapply gives_bind; [apply gives_value|]. by apply gives_lift, read_int_occurs.
Qed.
Lemma gives_objsize z :
  occurs mem vpos (le32 z) → 0 ≤ z ≤ INT_MAX → gives (Elem.objsize mem) z.
Proof.
  intros H Hz. eapply gives_bind; [apply gives_value|]. by apply gives_lift, read_uint32_occurs.
Qed.
Lemma gives_set_size x : x = vsize (enc_value v) → gives (Elem.set_size mem x) esize.
Proof.
  intros -> e He. unfold Elem.set_size. wp_simpl.
  eapply wp_mono; [|by apply gives_fieldNameSize]. intros ? e' [-> He']. wp_simpl. simpl.
  pose proof esize_eq. pose proof element_in_range. pose proof (vsize_nonneg name).
  pose proof (vsize_nonneg (enc_value v)).
  rewrite i32_small by (unfold INT_MIN; lia).
  replace (vsize (enc_value v) + (vsize name + 1) + 1) with esize by lia.
  split; [done|]. split; [apply (good_data e' He')|apply (good_name e' He')|by right].
Qed.
Lemma value_at : occurs mem vpos (enc_value v).
Proof. apply element_parts. Qed.
Lemma value_range : 0 ≤ vpos ∧ vpos + vsize (enc_value v) ≤ vsize mem.
Proof.
  pose proof element_in_range. pose proof esize_eq. pose proof (vsize_nonneg name).
  unfold vpos. lia.
Qed.
Lemma gives_cached (m : M BSONElement Z) :
  gives m esize → gives (c ← gets totalSize; if 0 <=? c then mret c else m) esize.
Proof.
  intros Hm e He. wp_simpl. destruct (good_size e He) as [Hs|Hs]; rewrite Hs; [by apply Hm|].
  pose proof esize_eq. pose proof (vsize_nonneg name). pose proof (vsize_nonneg (enc_value v)).
  by rewrite (proj2 (Z.leb_le _ _)) by lia.
Qed.

(** The four ways to find the size of a value that starts with a number. *)
Ltac finish_size := rewrite i32_small by (unfold INT_MIN; lia); lia.
Lemma gives_size_string t s :
  v = VString t s → gives (n ← Elem.valuestrsize mem; Elem.set_size mem (i32 (n + 4))) esize.
Proof.
  intros Ev. pose proof value_at as Hv. pose proof value_range as Hr. rewrite Ev in Hv, Hr. simpl in *.
  apply occurs_app in Hv as [Hv _]. pose proof (vsize_nonneg s).
  unfold enc_string in Hr. autorewrite with vsize in Hr.
  eapply gives_bind; [apply (gives_valuestrsize _ Hv); lia|]. apply gives_set_size.
  rewrite Ev. simpl. unfold enc_string. autorewrite with vsize. finish_size.
Qed.
Lemma gives_size_bindata st dat :
  v = VBinData st dat → gives (n ← Elem.valuestrsize mem; Elem.set_size mem (i32 (n + 4 + 1))) esize.
Proof.
  intros Ev. pose proof value_at as Hv. pose proof value_range as Hr. rewrite Ev in Hv, Hr. simpl in *.
  apply occurs_app in Hv as [Hv _]. pose proof (vsize_nonneg dat). autorewrite with vsize in Hr.
  eapply gives_bind; [apply (gives_valuestrsize _ Hv); lia|]. apply gives_set_size.
  rewrite Ev. simpl. autorewrite with vsize. finish_size.
Qed.
Lemma gives_size_dbref ns oid :
  v = VDBRef ns oid → gives (n ← Elem.valuestrsize mem; Elem.set_size mem (i32 (n + 4 + 12))) esize.
Proof.
  intros Ev. pose proof value_at as Hv. pose proof value_range as Hr. pose proof Hwf as Hw.
  rewrite Ev in Hv, Hr, Hw. simpl in *. apply Z.eqb_eq in Hw. unfold kOIDSize in Hw.
  apply occurs_app in Hv as [Hv _]. apply occurs_app in Hv as [Hv _]. pose proof (vsize_nonneg ns).
  unfold enc_string in Hr. autorewrite with vsize in Hr.
  eapply gives_bind; [apply (gives_valuestrsize _ Hv); lia|]. apply gives_set_size.
  rewrite Ev. simpl. unfold enc_string. autorewrite with vsize. finish_size.
Qed.
Lemma gives_size_object :
  match v with VObject _ _ | VCodeWScope _ _ => True | _ => False end →
  gives (n ← Elem.objsize mem; Elem.set_size mem (i32 n)) esize.
Proof.
  intros Ev. pose proof value_at as Hv. pose proof value_range as Hr.
  assert (occurs mem vpos (le32 (vsize (enc_value v)))) as Hv'.
  { clear Hr. revert Ev Hv. generalize vpos. destruct v as [| | | | |t fs|code fs]; try done; simpl; intros q _ Hv; apply occurs_app in Hv as [Hv _].
    - unfold enc_framed. autorewrite with vsize. eapply eq_ind; [exact Hv|]. f_equal. lia.
    - autorewrite with vsize in *. eapply eq_ind; [exact Hv|]. f_equal. lia. }
  pose proof (vsize_nonneg (enc_value v)).
  eapply gives_bind; [apply (gives_objsize _ Hv'); lia|]. apply gives_set_size. finish_size.
Qed.

Lemma regex_parts pat opt :
  v = VRegEx pat opt →
  no_nul pat = true ∧ no_nul opt = true ∧ occurs mem vpos (enc_cstring pat)
  ∧ occurs mem (vpos + vsize pat + 1) (enc_cstring opt)
  ∧ vsize (enc_value v) = vsize pat + 1 + vsize opt + 1.
Proof.
  intros Ev. pose proof value_at as Hv. pose proof Hwf as Hw. rewrite Ev in Hv, Hw |- *. simpl in *.
  apply andb_true_iff in Hw as [Hp Ho]. apply occurs_app in Hv as [Hv1 Hv2].
  unfold enc_cstring in Hv2 at 1. autorewrite with vsize in Hv2. rewrite Z.add_0_r, Z.add_assoc in Hv2.
  split_and!; [done..|]. unfold enc_cstring. autorewrite with vsize. lia.
Qed.

Lemma gives_size : gives (Elem.size mem) esize.
Proof.
  apply gives_cached. eapply gives_bind; [apply gives_type|].
  pose proof Hwf as Hw. pose proof gives_size_object as Hobj.
  assert (∃ w, v = w) as [w Ev] by eauto. rewrite Ev in Hw, Hobj |- *.
  destruct w as [t pl|t str|st dat|pat opt|ns oid|t fs|code fs]; simpl in *.
  - rewrite (wf_fixed _ _ _ Hw). apply gives_set_size. by rewrite Ev.
  - apply bool_decide_eq_true in Hw. pose proof (gives_size_string _ _ Ev).
    in_cases Hw; decide_types; done.
  - decide_types. by apply (gives_size_bindata _ _ Ev).
  - destruct (regex_parts _ _ Ev) as (Hp & Ho & H1 & H2 & Hs). pose proof value_range as Hr.
    decide_types. eapply gives_bind; [apply gives_value|].
    eapply gives_bind; [by apply gives_lift, strlen_cstring|].
    eapply gives_bind; [by apply gives_lift, strlen_cstring|].
    pose proof (vsize_nonneg pat). pose proof (vsize_nonneg opt). apply gives_set_size. finish_size.
  - decide_types. by apply (gives_size_dbref _ _ Ev).
  - rewrite !andb_true_iff, bool_decide_eq_true in Hw. destruct Hw as [[Hw _] _].
    in_cases Hw; decide_types; auto.
  - decide_types. auto.
Qed.

(** With a limit that leaves room for the element. *)
Lemma vsize_string_min str : 4 < vsize (enc_string str).
Proof. unfold enc_string. autorewrite with vsize. pose proof (vsize_nonneg str). lia. Qed.
Lemma vsize_framed_min body : 4 < vsize (enc_framed body).
Proof. unfold enc_framed. autorewrite with vsize. pose proof (vsize_nonneg body). lia. Qed.
(** The values that start with a number are longer than it. *)
Lemma value_room :
  match v with VFixed _ _ | VRegEx _ _ => True | _ => 3 < vsize (enc_value v) end.
Proof.
  destruct v as [t pl|t str|st dat|pat opt|ns oid|t fs|code fs]; try done; simpl.
  - pose proof (vsize_string_min str). lia.
  - autorewrite with vsize. pose proof (vsize_nonneg dat). lia.
  - autorewrite with vsize. pose proof (vsize_string_min ns). pose proof (vsize_nonneg oid). lia.
  - pose proof (vsize_framed_min (enc_fields fs)). lia.
  - autorewrite with vsize. pose proof (vsize_string_min code).
    pose proof (vsize_framed_min (enc_fields fs)). lia.
Qed.
Lemma gives_size_regex maxLen remain pat opt :
  v = VRegEx pat opt → vsize (enc_value v) ≤ remain ≤ INT_MAX → maxLen ≠ -1 →
  gives (q ← Elem.value mem;
         len1 ← Elem.lift (if maxLen =? -1 then strlen mem q else strnlen mem q remain);
         _ ← Elem.massert 10318 ((maxLen =? -1) || (len1 <? u64 remain));
         let q := q + len1 + 1 in
         len2 ← (if maxLen =? -1 then Elem.lift (strlen mem q)
                 else
                   let x := u64 (remain - len1 - 1) in
                   _ ← Elem.massert 556 (x <=? INT_MAX);
                   len2 ← Elem.lift (strnlen mem q x);
                   _ ← Elem.massert 10319 (len2 <? x);
                   mret len2);
         Elem.set_size mem (i32 (len1 + 1 + len2 + 1))) esize.
Proof.
  intros Ev Hrem Hmax. destruct (regex_parts _ _ Ev) as (Hp & Ho & H1 & H2 & Hs).
  pose proof value_range as Hr. pose proof (vsize_nonneg pat). pose proof (vsize_nonneg opt).
  rewrite (proj2 (Z.eqb_neq maxLen (-1))) by lia. cbn [orb].
  assert (∀ z, 0 ≤ z ≤ INT_MAX → u64 z = z) as Hu.
  { intros z Hz. apply u64_small. unfold INT_MAX in Hz. lia. }
  eapply gives_bind; [apply gives_value|].
  eapply gives_bind; [apply gives_lift, strnlen_cstring; [done..|unfold two32, INT_MAX in *; lia]|].
  eapply gives_bind; [apply gives_massert; rewrite Hu, Z.ltb_lt; lia|].
  cbn zeta. rewrite Hu by lia. eapply gives_bind.
  { eapply gives_bind; [apply gives_massert; rewrite Z.leb_le; lia|].
    eapply gives_bind; [apply gives_lift, strnlen_cstring; [done..|unfold two32, INT_MAX in *; lia]|].
    eapply gives_bind; [apply gives_massert; rewrite Z.ltb_lt; lia|apply gives_ret]. }
  apply gives_set_size. finish_size.
Qed.
Lemma gives_size_max maxLen :
  esize ≤ maxLen ≤ INT_MAX → gives (Elem.size_max mem maxLen) esize.
Proof.
  intros Hmax. apply gives_cached. eapply gives_bind; [apply gives_fieldNameSize|].
  eapply gives_bind; [apply gives_type|].
  pose proof Hwf as Hw. pose proof gives_size_object as Hobj. pose proof esize_eq as Hes.
  pose proof (vsize_nonneg name). pose proof (vsize_nonneg (enc_value v)).
  set (remain := maxLen - (vsize name + 1) - 1).
  assert (vsize (enc_value v) ≤ remain ≤ INT_MAX) as Hrem by (unfold remain; lia).
  assert (∀ code m, 3 < vsize (enc_value v) → gives m esize →
    gives (_ ← Elem.massert code ((maxLen =? -1) || (3 <? remain)); m) esize) as Hroom.
  { intros code m H3 Hm. eapply gives_bind; [|exact Hm]. apply gives_massert.
    rewrite orb_true_iff, Z.ltb_lt. lia. }
  pose proof value_room as H3. assert (∃ w, v = w) as [w Ev] by eauto. rewrite Ev in Hw, Hobj, H3 |- *.
  destruct w as [t pl|t str|st dat|pat opt|ns oid|t fs|code fs]; simpl in *.
  - rewrite (wf_fixed _ _ _ Hw). apply gives_set_size. by rewrite Ev.
  - apply bool_decide_eq_true in Hw. pose proof (gives_size_string _ _ Ev).
    in_cases Hw; decide_types; (apply Hroom; [by rewrite Ev|done]).
  - decide_types. apply Hroom; [by rewrite Ev|by apply (gives_size_bindata _ _ Ev)].
  - decide_types. apply (gives_size_regex _ _ _ _ Ev); [done|lia].
  - decide_types. apply Hroom; [by rewrite Ev|by apply (gives_size_dbref _ _ Ev)].
  - rewrite !andb_true_iff, bool_decide_eq_true in Hw. destruct Hw as [[Hw _] _].
    in_cases Hw; decide_types; (apply Hroom; [by rewrite Ev|auto]).
  - decide_types. apply Hroom; [by rewrite Ev|auto].
Qed.

(** *** Construction, and the two forms of [next] *)
Lemma type_char : ∃ c, Elem.char_at mem p = Ret c ∧ (schar c =? BSONType.EOO) = false.
Proof.
  exists (byte_of (type_of v)). split; [apply char_at_occurs, element_parts|].
  destruct (wf_type _ _ _ _ Hwf). rewrite schar_byte_of by done. by apply Z.eqb_neq.
Qed.
Lemma mk_good : owp (Elem.mk mem p) good.
Proof.
  unfold Elem.mk. destruct type_char as (c & -> & Hc). simpl. rewrite Hc.
  by split; [|left|left].
Qed.
Lemma mk_max_good maxLen : esize ≤ maxLen ≤ INT_MAX → owp (Elem.mk_max mem p maxLen) good.
Proof.
  intros Hm. unfold Elem.mk_max. destruct type_char as (c & -> & Hc). simpl. rewrite Hc.
  pose proof esize_eq. pose proof (vsize_nonneg name). pose proof (vsize_nonneg (enc_value v)).
  pose proof element_in_range.
  rewrite (proj2 (Z.eqb_neq maxLen (-1))) by lia.
  rewrite (strnlen_cstring mem (p + 1) name);
    [|apply element_parts|done|unfold two32, INT_MAX in *; lia]. simpl.
  rewrite u64_small by (unfold INT_MAX in *; lia).
  rewrite (proj2 (Z.ltb_lt _ _)) by lia. simpl.
  split; [done|right|by left]. apply i32_small. unfold INT_MIN. lia.
Qed.
Lemma wp_next_elem i :
  _pos i = p → p ≤ _theend i →
  wp (Obj.next mem) (λ e i', good e ∧ i' = {| _pos := p + esize; _theend := _theend i |}) i.
Proof.
  intros Hp He. unfold wp, Obj.next. rewrite Hp. rewrite (proj2 (Z.leb_le _ _)) by done. simpl.
  pose proof mk_good as Hm. destruct (Elem.mk mem p) as [e|]; [|done]. simpl.
  pose proof (gives_size e Hm) as Hs. unfold wp in Hs.
  destruct (Elem.size mem e) as [[n e']|]; [|done]. destruct Hs as [-> Hs]. done.
Qed.
Lemma wp_next_check i :
  _pos i = p → p + esize ≤ _theend i + 1 ≤ vsize mem →
  wp (Obj.next_check mem true)
    (λ e i', good e ∧ i' = {| _pos := p + esize; _theend := _theend i |}) i.
Proof.
  intros Hp He. pose proof element_in_range. pose proof esize_eq.
  pose proof (vsize_nonneg name). pose proof (vsize_nonneg (enc_value v)).
  unfold wp, Obj.next_check. rewrite Hp. rewrite (proj2 (Z.leb_le _ _)) by lia. simpl.
  rewrite i32_small by (unfold INT_MIN; lia). rewrite (proj2 (Z.ltb_lt _ _)) by lia. simpl.
  assert (esize ≤ _theend i + 1 - p ≤ INT_MAX) as Hm by lia.
  pose proof (mk_max_good _ Hm) as Hg. destruct (Elem.mk_max mem p _) as [e|]; [|done]. simpl.
  pose proof (gives_size_max _ Hm e Hg) as Hs. unfold wp in Hs.
  destruct (Elem.size_max mem _ e) as [[n e']|]; [|done]. destruct Hs as [-> Hs]. simpl.
  done.
Qed.
End element.

(** The closing NUL of a document. *)
Definition eoo_at (p : Z) : BSONElement := {| data := Some p; fieldNameSize_ := 0; totalSize := 1 |}.
Lemma next_eoo i :
  occurs mem (_pos i) [x00] → _pos i ≤ _theend i →
  Obj.next mem i = Ret (eoo_at (_pos i), {| _pos := _pos i + 1; _theend := _theend i |}).
Proof.
  intros Ho He. unfold Obj.next. rewrite (proj2 (Z.leb_le _ _)) by done. simpl.
  unfold Elem.mk. by rewrite (char_at_occurs _ _ Ho).
Qed.
Lemma next_check_eoo i :
  occurs mem (_pos i) [x00] → _pos i = _theend i →
  Obj.next_check mem true i = Ret (eoo_at (_pos i), {| _pos := _pos i + 1; _theend := _theend i |}).
Proof.
  intros Ho He. unfold Obj.next_check. rewrite (proj2 (Z.leb_le _ _)) by lia. simpl.
  replace (_theend i + 1 - _pos i) with 1 by lia. simpl.
  unfold Elem.mk_max. by rewrite (char_at_occurs _ _ Ho).
Qed.
Lemma type_eoo p : occurs mem p [x00] → Elem.type mem (eoo_at p) = Ret (BSONType.EOO, eoo_at p).
Proof. intros Ho. unfold Elem.type, reads. simpl. by rewrite (char_at_occurs _ _ Ho). Qed.
Lemma eoo_eoo p : occurs mem p [x00] → Elem.eoo mem (eoo_at p) = Ret (true, eoo_at p).
Proof. intros Ho. unfold Elem.eoo, mbind, M_bind. by rewrite type_eoo. Qed.

(** ** The fields of a document *)
(** An iterator before the fields [fs], the last ones of a document. *)
Definition before (fs : fields) (i : BSONObjIterator) : Prop :=
  occurs mem (_pos i) (enc_fields fs ++ [x00]) ∧ _theend i = _pos i + vsize (enc_fields fs).

Lemma before_nil i : before FNil i → occurs mem (_pos i) [x00] ∧ _theend i = _pos i.
Proof. intros [H1 H2]. simpl in *. autorewrite with vsize in H2. split; [done|lia]. Qed.
Lemma before_cons name v fs i :
  before (FCons name v fs) i →
  occurs mem (_pos i) (enc_element name v) ∧ _pos i < _theend i
  ∧ before fs {| _pos := _pos i + esize name v; _theend := _theend i |}.
Proof.
  intros [H1 H2]. simpl in *.
  assert (byte_of (type_of v) :: enc_cstring name ++ enc_value v ++ enc_fields fs
          = enc_element name v ++ enc_fields fs) as E.
  { unfold enc_element. simpl. by rewrite <- app_assoc. }
  pose proof (vsize_nonneg (enc_fields fs)). pose proof (esize_eq name v).
  pose proof (vsize_nonneg name). pose proof (vsize_nonneg (enc_value v)).
  rewrite <- vsize_cons, E in H2 || rewrite E in H2.
  replace (byte_of (type_of v) :: (enc_cstring name ++ enc_value v ++ enc_fields fs) ++ [x00])
    with (enc_element name v ++ enc_fields fs ++ [x00]) in H1
    by (unfold enc_element; simpl; by rewrite <- !app_assoc).
  apply occurs_app in H1 as [H1 Hf]. rewrite vsize_app in H2. unfold esize in *.
  split_and!; [done|lia|]. split; simpl; [done|lia].
Qed.
Lemma iterator_doc o fs :
  occurs mem o (enc_doc fs) →
  ∃ i, Obj.iterator mem o = Ret i ∧ before fs i ∧ _pos i = o + 4.
Proof.
  intros H. pose proof (vsize_nonneg (enc_fields fs)).
  pose proof (occurs_range _ _ _ H ltac:(by destruct fs)) as [Ho0 Hr].
  unfold enc_doc, enc_framed in *. autorewrite with vsize in Hr.
  apply occurs_app in H as [H1 H2]. unfold Obj.iterator, Obj.objsize.
  rewrite (read_int_occurs _ _ H1) by lia. simpl.
  rewrite (proj2 (Z.eqb_neq _ _)) by lia.
  eexists. split; [done|]. split; [|done]. split; simpl; [done|lia].
Qed.

(** ** Iteration and lookup

    On the fields of a document at [_pos i], well-formed for some version and
    depth. *)
Section lookups.
Variables (ver : BSONVersion) (md d : Z).

Lemma step_field name v fs i :
  before (FCons name v fs) i → wf_fields ver md d (FCons name v fs) = true →
  ∃ e i', Obj.next mem i = Ret (e, i') ∧ good (_pos i) name v e ∧ before fs i'
    ∧ i' = {| _pos := _pos i + esize name v; _theend := _theend i |}
    ∧ no_nul name = true ∧ wf_value ver md d v = true ∧ wf_fields ver md d fs = true
    ∧ occurs mem (_pos i) (enc_element name v) ∧ Obj.more i = true ∧ Obj.moreWithEOO i = true.
Proof.
  intros Hb Hw. simpl in Hw. rewrite !andb_true_iff in Hw. destruct Hw as [[Hn Hv] Hf].
  destruct (before_cons _ _ _ _ Hb) as (Ho & Hlt & Hb').
  destruct (proj1 (wp_Ret _ _ _) (wp_next_elem ver md d (_pos i) name v Hn Hv Ho i eq_refl ltac:(lia)))
    as (e & i' & He & Hg & ->).
  exists e, {| _pos := _pos i + esize name v; _theend := _theend i |}.
  unfold Obj.more, Obj.moreWithEOO. rewrite Z.ltb_lt, Z.leb_le. split_and!; try done; lia.
Qed.
Lemma step_eoo i :
  before FNil i →
  Obj.next mem i = Ret (eoo_at (_pos i), {| _pos := _pos i + 1; _theend := _theend i |})
  ∧ occurs mem (_pos i) [x00] ∧ Obj.more i = false ∧ Obj.moreWithEOO i = true.
Proof.
  intros [Ho He]%before_nil. unfold Obj.more, Obj.moreWithEOO. rewrite Z.ltb_ge, Z.leb_le.
  split_and!; [apply next_eoo; [done|lia]|done|lia|lia].
Qed.

Lemma gives_cname p name v :
  no_nul name = true → wf_value ver md d v = true → occurs mem p (enc_element name v) →
  gives p name v (Obj.field_cname mem) name.
Proof.
  intros Hn Hw Ho. eapply gives_bind; [by eapply gives_fieldName|]. cbn beta iota.
  eapply gives_bind; [by eapply gives_lift, name_strlen|]. apply gives_lift.
  destruct (element_parts p name v Ho) as (_ & Hc & _).
  apply occurs_range in Hc as Hr; [|by destruct name]. unfold enc_cstring in Hr.
  autorewrite with vsize in Hr. apply occurs_app in Hc as [Hc _].
  apply load_Ret. split_and!; [lia|done|done|lia].
Qed.

(** Elements that point to the fields [fs] from address [q] on, in order. *)
Fixpoint visits (q : Z) (fs : fields) (es : list BSONElement) : Prop :=
  match fs, es with
  | FNil, [] => True
  | FCons name v fs, e :: es => good q name v e ∧ visits (q + esize name v) fs es
  | _, _ => False
  end.
Definition nfields (fs : fields) : nat := length (fields_list fs).
Lemma nfields_le fs : Z.of_nat (nfields fs) ≤ vsize (enc_fields fs).
Proof.
  induction fs as [|name v fs IH]; simpl; [done|]. autorewrite with vsize.
  pose proof (vsize_nonneg (enc_cstring name)). pose proof (vsize_nonneg (enc_value v)).
  unfold nfields in *. simpl. lia.
Qed.

Lemma elems_loop_spec fs fuel acc i :
  before fs i → wf_fields ver md d fs = true → (nfields fs < fuel)%nat →
  ∃ es, Obj.elems_loop mem fuel acc i = Ret (acc ++ es) ∧ visits (_pos i) fs es.
Proof.
  revert fuel acc i. induction fs as [|name v fs IH]; intros [|fuel] acc i Hb Hw Hf;
    unfold nfields in Hf; simpl in Hf; try lia; simpl.
  - destruct (step_eoo i Hb) as (_ & _ & -> & _). exists []. by rewrite app_nil_r.
  - destruct (step_field _ _ _ _ Hb Hw) as (e & i' & Hn & Hg & Hb' & -> & _ & _ & Hw' & _ & -> & _).
    rewrite Hn. simpl. destruct (IH fuel (acc ++ [e]) _ Hb' Hw') as (es & -> & Hes); [unfold nfields; lia|].
    exists (e :: es). by rewrite <- app_assoc.
Qed.

(** Address and value of the first field with a name. *)
Fixpoint find_field (q : Z) (name : bytes) (fs : fields) : option (Z * value) :=
  match fs with
  | FNil => None
  | FCons n v fs =>
      if bool_decide (name = n) then Some (q, v) else find_field (q + esize n v) name fs
  end.
Definition found (name : bytes) (r : option (Z * value)) (e : BSONElement) : Prop :=
  match r with
  | Some (q, v) => good q name v e
  | None => e = Elem.eoo_element
  end.
Lemma getField_loop_spec fs fuel name i :
  before fs i → wf_fields ver md d fs = true → (nfields fs < fuel)%nat →
  owp (Obj.getField_loop mem fuel name i) (found name (find_field (_pos i) name fs)).
Proof.
  revert fuel i. induction fs as [|n v fs IH]; intros [|fuel] i Hb Hw Hf;
    unfold nfields in Hf; simpl in Hf; try lia; simpl.
  - by destruct (step_eoo i Hb) as (_ & _ & -> & _).
  - destruct (step_field _ _ _ _ Hb Hw) as (e & i' & Hn & Hg & Hb' & -> & Hnn & Hv & Hw' & Ho & -> & _).
    rewrite Hn. simpl.
    destruct (proj1 (wp_Ret _ _ _) (gives_fieldNameStringData ver md d _ _ _ Hnn Hv Ho e Hg))
      as (? & e' & -> & -> & Hg'). simpl.
    case_bool_decide; [subst; done|]. apply (IH fuel _ Hb' Hw'). unfold nfields. lia.
Qed.

Lemma nFields_loop_spec fs fuel n i :
  before fs i → wf_fields ver md d fs = true → (nfields fs < fuel)%nat →
  Obj.nFields_loop mem fuel n i = Ret (n + Z.of_nat (nfields fs)).
Proof.
  revert fuel n i. induction fs as [|name v fs IH]; intros [|fuel] n i Hb Hw Hf;
    unfold nfields in *; simpl in Hf; try lia; simpl.
  - destruct (step_eoo i Hb) as (-> & Ho & _ & ->). simpl. rewrite eoo_eoo by done. simpl. f_equal. lia.
  - destruct (step_field _ _ _ _ Hb Hw) as (e & i' & Hn & Hg & Hb' & -> & Hnn & Hv & Hw' & Ho & _ & ->).
    rewrite Hn. simpl.
    destruct (proj1 (wp_Ret _ _ _) (gives_eoo ver md d _ _ _ Hv Ho e Hg)) as (? & e' & -> & -> & _).
    simpl. rewrite (IH fuel _ _ Hb' Hw') by lia. f_equal. lia.
Qed.

(** The names of one document are the first names of another. *)
Definition names (fs : fields) : list bytes := (fields_list fs).*1.
Lemma namePrefix_loop_spec fs gs fuel a b :
  before fs a → wf_fields ver md d fs = true → before gs b → wf_fields ver md d gs = true →
  (nfields fs < fuel)%nat →
  Obj.namePrefix_loop mem fuel a b = Ret (bool_decide (names fs `prefix_of` names gs)).
Proof.
  revert gs fuel a b. induction fs as [|n v fs IH]; intros gs [|fuel] a b Ha Hw Hb Hw' Hf;
    unfold nfields in Hf; simpl in Hf; try lia; cbn [Obj.namePrefix_loop].
  - destruct (step_eoo a Ha) as (_ & _ & -> & _). cbn [andb negb].
    by rewrite bool_decide_eq_true_2 by apply prefix_nil.
  - destruct (step_field _ _ _ _ Ha Hw) as (e & a' & Hn & Hg & Ha' & -> & Hnn & Hv & Hwf & Ho & -> & _).
    destruct gs as [|n' v' gs].
    { destruct (step_eoo b Hb) as (_ & _ & -> & _). cbn [andb negb].
      rewrite bool_decide_eq_false_2; [done|]. intros H%prefix_nil_inv. done. }
    destruct (step_field _ _ _ _ Hb Hw') as (e' & b' & Hn' & Hg' & Hb' & -> & Hnn' & Hv' & Hwf' & Ho' & -> & _).
    cbn [andb]. rewrite Hn. cbn [mbind outcome_bind]. rewrite Hn'. cbn [mbind outcome_bind].
    destruct (proj1 (wp_Ret _ _ _) (gives_cname _ _ _ Hnn Hv Ho e Hg)) as (? & ? & -> & -> & _).
    cbn [mbind outcome_bind].
    destruct (proj1 (wp_Ret _ _ _) (gives_cname _ _ _ Hnn' Hv' Ho' e' Hg')) as (? & ? & -> & -> & _).
    cbn [mbind outcome_bind names fields_list]. case_bool_decide as En.
    + subst n'. rewrite (IH gs fuel _ _ Ha' Hwf Hb' Hwf') by (unfold nfields; lia).
      f_equal. apply bool_decide_ext. unfold names. simpl. split; [apply prefix_cons|apply prefix_cons_inv_2].
    + rewrite bool_decide_eq_false_2; [done|]. intros H%prefix_cons_inv_1. done.
Qed.

Lemma doc_in_range o fs : occurs mem o (enc_doc fs) → vsize (enc_fields fs) + 5 ≤ vsize mem.
Proof.
  intros H. pose proof (occurs_range _ _ _ H ltac:(by destruct fs)) as [? Hr].
  unfold enc_doc, enc_framed in Hr. autorewrite with vsize in Hr. lia.
Qed.
Lemma doc_fuel o fs : occurs mem o (enc_doc fs) → (nfields fs < Obj.buffer_fuel mem)%nat.
Proof.
  intros H%doc_in_range. pose proof (nfields_le fs). unfold Obj.buffer_fuel. unfold vsize in *. lia.
Qed.
Hint Resolve doc_fuel : core.

Lemma elems_doc o fs :
  occurs mem o (enc_doc fs) → wf_fields ver md d fs = true →
  owp (Obj.elems mem o) (visits (o + 4) fs).
Proof.
  intros Ho Hw. destruct (iterator_doc o fs Ho) as (i & Hi & Hb & Hp).
  unfold Obj.elems. rewrite Hi. cbn [mbind outcome_bind].
  destruct (elems_loop_spec fs (Obj.buffer_fuel mem) [] i Hb Hw) as (es & -> & Hes); [eauto|].
  by rewrite <- Hp.
Qed.
Lemma getField_doc o fs name :
  occurs mem o (enc_doc fs) → wf_fields ver md d fs = true →
  owp (Obj.getField mem o name) (found name (find_field (o + 4) name fs)).
Proof.
  intros Ho Hw. destruct (iterator_doc o fs Ho) as (i & Hi & Hb & Hp).
  unfold Obj.getField. rewrite Hi. cbn [mbind outcome_bind]. rewrite <- Hp. apply getField_loop_spec; eauto.
Qed.
Lemma nFields_doc o fs :
  occurs mem o (enc_doc fs) → wf_fields ver md d fs = true →
  Obj.nFields mem o = Ret (Z.of_nat (nfields fs)).
Proof.
  intros Ho Hw. destruct (iterator_doc o fs Ho) as (i & Hi & Hb & Hp).
  unfold Obj.nFields. rewrite Hi. cbn [mbind outcome_bind]. rewrite (nFields_loop_spec fs); eauto.
Qed.
Lemma isFieldNamePrefixOf_doc o o' fs gs :
  occurs mem o (enc_doc fs) → wf_fields ver md d fs = true →
  occurs mem o' (enc_doc gs) → wf_fields ver md d gs = true →
  Obj.isFieldNamePrefixOf mem o o' = Ret (bool_decide (names fs `prefix_of` names gs)).
Proof.
  intros Ho Hw Ho' Hw'. destruct (iterator_doc o fs Ho) as (i & Hi & Hb & _).
  destruct (iterator_doc o' gs Ho') as (j & Hj & Hb' & _).
  unfold Obj.isFieldNamePrefixOf. rewrite Hi. cbn [mbind outcome_bind]. rewrite Hj.
  cbn [mbind outcome_bind]. apply namePrefix_loop_spec; eauto.
Qed.
End lookups.
End memory.
