(* ===== verification/BsonPrint.v ===== *)
(** * Printing and storage checks on well-formed documents

    [toString] of an element inside a well-formed document reads nothing
    outside of it and ends; it throws only beyond its limits of depth and
    size.  [_okForStorage] computes what a definition on the abstract syntax
    says. *)
From S2P Require Import Prelude ParseNumber Bson BsonElement BsonIter.

(** The outcome is a value that satisfies [Q], or an exception allowed by [X]. *)
Definition tries {A} (X : Z → Prop) (m : outcome A) (Q : A → Prop) : Prop :=
  match m with
  | Ret a => Q a
  | Abort l => X l
  end.
Lemma tries_owp {A} X (m : outcome A) Q : owp m Q → tries X m Q.
Proof. by destruct m. Qed.
Lemma tries_bind {A B} X (m : outcome A) (f : A → outcome B) P Q :
  tries X m P → (∀ a, P a → tries X (f a) Q) → tries X (m ≫= f) Q.
Proof. destruct m; simpl; auto. Qed.
Lemma tries_mono {A} (X X' : Z → Prop) (m : outcome A) (Q Q' : A → Prop) :
  tries X m Q → (∀ l, X l → X' l) → (∀ a, Q a → Q' a) → tries X' m Q'.
Proof. destruct m; simpl; auto. Qed.

Section memory.
Variable mem : bytes.
Hypothesis Hmem : vsize mem ≤ INT_MAX.

Lemma strlen_safe q s : occurs mem q (s ++ [x00]) → ∃ n, strlen mem q = Ret n.
Proof.
  intros H. destruct (nul_index_cases (s ++ [x00])) as [[_ Hn]|(s' & r & E & Hs & _)].
  { unfold no_nul in Hn. rewrite forallb_app in Hn. simpl in Hn. by rewrite andb_false_r in Hn. }
  rewrite E in H. replace (s' ++ x00 :: r) with (enc_cstring s' ++ r) in H
    by (unfold enc_cstring; by rewrite <- app_assoc).
  apply occurs_app in H as [H _]. exists (vsize s'). by apply strlen_cstring.
Qed.

Section element.
Variables (ver : BSONVersion) (md d p : Z) (name : bytes) (v : value).
Hypothesis Hname : no_nul name = true.
Hypothesis Hwf : wf_value ver md d v = true.
Hypothesis Hocc : occurs mem p (enc_element name v).
Let gives {A} := @gives p name v A.
Let vpos := vpos p name.
Let Hvalue : gives (Elem.value mem) vpos := gives_value mem Hmem ver md d p name v Hname Hwf Hocc.
Let Hrange : 0 ≤ vpos ∧ vpos + vsize (enc_value v) ≤ vsize mem :=
  value_range mem p name v Hocc.
Let Hstrsize z : occurs mem vpos (le32 z) → 0 ≤ z ≤ INT_MAX → gives (Elem.valuestrsize mem) z :=
  gives_valuestrsize mem Hmem ver md d p name v Hname Hwf Hocc z.
Let Hat : occurs mem vpos (enc_value v) := value_at mem p name v Hocc.

Lemma gives_print q n : 0 ≤ q → 0 ≤ n → q + n ≤ vsize mem → gives (Obj.print mem q n) tt.
Proof.
  intros Hq Hn Hr. apply gives_lift. by destruct (load_in_range mem q n Hq Hn Hr) as (l & -> & _).
Qed.
Lemma gives_print_cstr q s : occurs mem q (s ++ [x00]) → gives (Obj.print_cstr mem q) tt.
Proof. intros [n Hn]%strlen_safe. apply gives_lift. by rewrite Hn. Qed.

Lemma gives_print_text full limit part t s :
  v = VString t s → 0 ≤ part ≤ limit → gives (Obj.print_text mem full limit part) tt.
Proof.
  intros Ev Hp. pose proof Hat as Hv. pose proof Hrange as Hr. rewrite Ev in Hv, Hr. simpl in *.
  unfold enc_string in *. autorewrite with vsize in Hr. apply occurs_app in Hv as [Hv _].
  pose proof (vsize_nonneg s).
  eapply gives_bind; [apply Hstrsize; [apply Hv|lia]|].
  eapply gives_bind; [by eapply gives_valuestr|]. fold vpos.
  rewrite i32_small by (unfold INT_MIN; lia).
  destruct (negb full && (limit <? vsize s + 1)) eqn:E.
  - apply andb_true_iff in E as [_ E%Z.ltb_lt]. apply gives_print; lia.
  - apply gives_print; lia.
Qed.

Lemma gives_print_bindata full st dat :
  v = VBinData st dat →
  gives (_ ← Elem.binDataType mem; '(q, len) ← Elem.binDataClean mem;
         if negb full && (80 <? len) then Obj.toHex mem q 70 else Obj.toHex mem q len) tt.
Proof.
  intros Ev. pose proof Hat as Hv. pose proof Hrange as Hr. rewrite Ev in Hv, Hr. simpl in *.
  autorewrite with vsize in Hr. pose proof (vsize_nonneg dat).
  apply occurs_app in Hv as [Hv Hst]. apply occurs_cons in Hst as [Hst _].
  assert (gives (Elem.type mem) BSONType.BinData) as Ht.
  { replace BSONType.BinData with (type_of v) by (by rewrite Ev).
    exact (gives_type mem ver md d p name v Hwf Hocc). }
  assert (gives (Elem.valuestrsize mem) (vsize dat)) as Hlen.
  { apply Hstrsize; [done|lia]. }
  assert (gives (Elem.binDataType mem) (uchar st)) as Hty.
  { eapply gives_bind; [apply Ht|]. eapply gives_bind; [by apply gives_massert|].
    eapply gives_bind; [apply Hvalue|].
    eapply gives_bind; [by apply gives_lift, char_at_occurs|apply gives_ret]. }
  assert (∀ q len, 0 ≤ q → (0 < len → q + len ≤ vsize mem) →
    gives (if negb full && (80 <? len) then Obj.toHex mem q 70 else Obj.toHex mem q len) tt) as Hhex.
  { intros q len Hq Hl. unfold Obj.toHex.
    destruct (negb full && (80 <? len)) eqn:E.
    - apply andb_true_iff in E as [_ E%Z.ltb_lt]. apply gives_print; lia.
    - destruct (Z.ltb_spec 0 len); [apply gives_print; lia|apply gives_ret]. }
  eapply gives_bind; [apply Hty|]. unfold Elem.binDataClean, Elem.binData.
  destruct (decide (uchar st = Elem.ByteArrayDeprecated)) as [E|E].
  - eapply (gives_bind _ _ _ _ _ (_, _)); [eapply gives_bind; [apply Hty|]|].
    + rewrite E. eapply gives_bind; [apply Hlen|].
      eapply gives_bind; [apply Hvalue|apply gives_ret].
    + apply Hhex; [lia|]. rewrite i32_small by (unfold INT_MIN; lia). lia.
  - eapply (gives_bind _ _ _ _ _ (_, _)); [eapply gives_bind; [apply Hty|]|].
    + rewrite (proj2 (Z.eqb_neq _ _)) by done. eapply gives_bind; [apply Ht|].
      eapply gives_bind; [by apply gives_massert|]. eapply gives_bind; [apply Hlen|].
      eapply gives_bind; [apply Hvalue|apply gives_ret].
    + apply Hhex; lia.
Qed.

(** The values of fixed width are read where they are. *)
Lemma gives_print_fixed full t pl :
  v = VFixed t pl → gives (Obj.print_value mem full t) tt.
Proof.
  intros Ev. pose proof Hrange as Hr. pose proof Hwf as Hw. rewrite Ev in Hr, Hw. simpl in *.
  assert (∀ f : Z → M BSONElement (), gives (f vpos) tt → gives (q ← Elem.value mem; f q) tt) as Hf.
  { intros f H. eapply gives_bind; [apply Hvalue|apply H]. }
  pose proof (wf_fixed _ _ _ Hw) as Hs. apply andb_true_iff in Hw as [Hw _].
  apply bool_decide_eq_true, fixed_size_types in Hw. unfold Obj.print_value, kOIDSize.
  in_cases Hw; decide_types; try apply gives_ret; apply Hf;
    match type of Hs with Elem.fixed_value_size ?t = _ =>
      let n := eval vm_compute in (Elem.fixed_value_size t) in
      change (n = Some (vsize pl)) in Hs; injection Hs as Hs end;
    try (eapply gives_bind; [apply gives_print|]); try apply gives_print; lia.
Qed.

Lemma gives_print_value full :
  match v with VObject _ _ | VCodeWScope _ _ => False | _ => True end →
  gives (Obj.print_value mem full (type_of v)) tt.
Proof.
  intros Hleaf. pose proof Hwf as Hw. pose proof Hat as Hv. pose proof Hrange as Hr.
  assert (∃ w, v = w) as [w Ev] by eauto. rewrite Ev in Hleaf, Hw, Hv, Hr |- *.
  destruct w as [t pl|t str|st dat|pat opt|ns oid|t fs|code fs]; simpl in *; try done.
  - by eapply gives_print_fixed.
  - apply bool_decide_eq_true in Hw.
    in_cases Hw; unfold Obj.print_value; decide_types; by eapply gives_print_text.
  - unfold Obj.print_value. decide_types. by eapply gives_print_bindata.
  - destruct (regex_parts mem ver md d p name v Hwf Hocc _ _ Ev) as (Hp & Ho & H1 & H2 & _).
    assert (gives (Elem.regex mem) vpos) as Hre.
    { eapply gives_bind; [exact (gives_type mem ver md d p name v Hwf Hocc)|].
      eapply gives_bind; [apply gives_massert; by rewrite Ev|apply Hvalue]. }
    unfold Obj.print_value. decide_types. eapply gives_bind; [apply Hre|].
    eapply gives_bind; [by eapply gives_print_cstr|].
    eapply gives_bind; [|by eapply gives_print_cstr].
    eapply gives_bind; [apply Hre|].
    eapply gives_bind; [by apply gives_lift, strlen_cstring|apply gives_ret].
  - apply Z.eqb_eq in Hw. apply occurs_app in Hv as [Hs _]. autorewrite with vsize in Hr.
    unfold enc_string, kOIDSize in *. autorewrite with vsize in Hr. apply occurs_app in Hs as [Hs Hc].
    rewrite vsize_le32 in Hc. pose proof (vsize_nonneg ns).
    unfold Obj.print_value. decide_types.
    eapply gives_bind; [exact (gives_valuestr mem Hmem ver md d p name v Hname Hwf Hocc)|].
    eapply gives_bind; [by eapply gives_print_cstr|].
    eapply gives_bind; [apply Hstrsize; [apply Hs|lia]|].
    fold vpos. apply gives_print; unfold kOIDSize in *; lia.
Qed.

(** Sequencing after a method that returns on every good element. *)
Lemma tries_gives {A B} X (m : M BSONElement A) (f : A → M BSONElement B) a e Q :
  gives m a → good p name v e → (∀ e', good p name v e' → tries X (f a e') Q) →
  tries X ((m ≫= f) e) Q.
Proof.
  intros Hm He Hf. destruct (proj1 (wp_Ret _ _ _) (Hm e He)) as (? & e' & E & -> & He').
  unfold mbind, M_bind. rewrite E. by apply Hf.
Qed.
End element.

Lemma tries_lift {A B} X (m : outcome A) (f : A → M BSONElement B) e P Q :
  tries X m P → (∀ a, P a → tries X (f a e) Q) → tries X ((Elem.lift m ≫= f) e) Q.
Proof. unfold mbind, M_bind, Elem.lift, reads. destruct m; simpl; auto. Qed.
Lemma tries_bindM {A B} X (m : M BSONElement A) (f : A → M BSONElement B) e P Q :
  tries X (m e) P → (∀ a e', P (a, e') → tries X (f a e') Q) → tries X ((m ≫= f) e) Q.
Proof. unfold mbind, M_bind. destruct (m e) as [[a e']|]; simpl; auto. Qed.
Lemma tries_lift_last {A} X (m : outcome A) e P Q :
  tries X m P → (∀ a, P a → Q (a, e)) → tries X (Elem.lift m e) Q.
Proof. unfold Elem.lift, reads. destruct m; simpl; auto. Qed.

(** ** [toString] *)
Section toString.
Variables (ver : BSONVersion) (md : Z).

(** The two exceptions: too deep with the full text asked for, which needs a
    limit of depth above 100, or an embedded document of more than 16 MB. *)
Definition limits (full : bool) (l : Z) : Prop :=
  (l = 16150 ∧ full = true ∧ maxToStringRecursionDepth < md)
  ∨ (l = 10334 ∧ BSONObjMaxInternalSize < vsize mem).

Definition prints_value (v : value) : Prop :=
  ∀ d p name fuel includeFieldName full redact depth e,
    no_nul name = true → wf_value ver md d v = true → occurs mem p (enc_element name v) →
    good p name v e → esize name v ≤ Z.of_nat fuel → depth ≤ d → 0 ≤ d ≤ md →
    tries (limits full) (Obj.toString mem fuel includeFieldName full redact depth e) (λ _, True).
Definition prints_fields (fs : fields) : Prop :=
  (∀ d fuel o i isArray full redact depth,
    wf_fields ver md d fs = true → before mem fs i →
    Obj.objsize mem o = Ret (_theend i + 1 - o) → o ≤ _pos i →
    _theend i + 1 - o ≤ BSONObjMaxInternalSize → _theend i + 1 ≤ vsize mem →
    vsize (enc_fields fs) + 1 ≤ Z.of_nat fuel → depth ≤ d → 0 ≤ d ≤ md →
    tries (limits full) (Obj.print_loop mem fuel o i isArray full redact depth) (λ _, True))
  ∧ match fs with FNil => True | FCons _ v _ => prints_value v end.

Lemma objsize_doc o fs :
  occurs mem o (enc_doc fs) → Obj.objsize mem o = Ret (vsize (enc_doc fs)).
Proof.
  intros Ho. pose proof (doc_in_range mem o fs Ho). pose proof (vsize_nonneg (enc_fields fs)).
  apply occurs_app in Ho as [Ho _]. unfold Obj.objsize. rewrite (read_int_occurs _ _ _ Ho) by lia.
  unfold enc_doc, enc_framed. autorewrite with vsize. f_equal. lia.
Qed.
Lemma vsize_doc fs : vsize (enc_doc fs) = vsize (enc_fields fs) + 5.
Proof. unfold enc_doc, enc_framed. autorewrite with vsize. lia. Qed.

(** The size check of [BSONObj]'s constructor. *)
Lemma init_doc full d o fs fuel :
  prints_fields fs → wf_fields ver md d fs = true → occurs mem o (enc_doc fs) →
  0 ≤ d ≤ md → vsize (enc_fields fs) ≤ Z.of_nat fuel →
  tries (limits full) (Obj.init mem (Obj.toString mem fuel true false false 0) o)
    (λ o', o' = o ∧ vsize (enc_doc fs) ≤ BSONObjMaxInternalSize).
Proof.
  intros [_ Hfirst] Hw Ho Hd Hfuel. pose proof (doc_in_range mem o fs Ho) as Hr.
  unfold Obj.init, Obj.isValid. rewrite (objsize_doc _ _ Ho). cbn [mbind outcome_bind].
  pose proof (vsize_nonneg (enc_fields fs)). pose proof (vsize_doc fs) as Hs.
  rewrite (proj2 (Z.ltb_lt 0 _)) by lia. cbn [andb].
  destruct (Z.leb_spec (vsize (enc_doc fs)) BSONObjMaxInternalSize); [done|].
  unfold Obj._assertInvalid. rewrite (objsize_doc _ _ Ho). cbn [mbind outcome_bind].
  destruct fs as [|name v fs]; [done|]. simpl in Hw. rewrite !andb_true_iff in Hw.
  destruct Hw as [[Hn Hv] _]. destruct (iterator_doc mem Hmem _ _ Ho) as (i & _ & Hb & Hp).
  apply before_cons in Hb as (He & _ & _). rewrite Hp in He.
  unfold Obj.firstElement.
  destruct (proj1 (owp_Ret _ _) (mk_good mem ver md d _ _ _ Hv He)) as (e & -> & Hg).
  cbn [mbind outcome_bind].
  assert (tries (limits false) (Obj.toString mem fuel true false false 0 e) (λ _, True)) as Ht.
  { eapply Hfirst; try done; [|lia]. simpl in Hfuel. unfold esize, enc_element, enc_cstring in *.
    autorewrite with vsize in *. pose proof (vsize_nonneg (enc_fields fs)). lia. }
  destruct (Obj.toString mem fuel true false false 0 e) as [r|l]; simpl.
  - right. split; [done|]. lia.
  - destruct Ht as [(_ & ? & _)|[-> _]]; [done|]. simpl. right. split; [done|lia].
Qed.

(** The start of [toString], up to the switch on the type. *)
Lemma toString_head v d p name includeFieldName full depth e (K : Z → M BSONElement ()) :
  no_nul name = true → wf_value ver md d v = true → occurs mem p (enc_element name v) →
  good p name v e → depth ≤ d → 0 ≤ d ≤ md →
  (∀ e', good p name v e' → tries (limits full) (K (type_of v) e') (λ _, True)) →
  tries (limits full)
    ((if maxToStringRecursionDepth <? depth then Elem.massert 16150 (negb full) else
      t ← Elem.type mem;
      _ ← (if includeFieldName && negb (t =? BSONType.EOO)
           then s ← Elem.fieldName mem; _ ← Elem.lift (Elem.cstr_len mem s); mret tt
           else mret tt);
      K t) e) (λ _, True).
Proof.
  intros Hn Hw Ho Hg Hd Hmd HK. destruct (Z.ltb_spec maxToStringRecursionDepth depth).
  { destruct full; simpl; [|done]. left. split_and!; [done..|]. lia. }
  eapply tries_gives; [by eapply gives_type|done|]. intros e1 He1.
  eapply tries_gives; [|done|exact HK].
  destruct (includeFieldName && _); [|apply gives_ret].
  eapply gives_bind; [by eapply gives_fieldName|].
  eapply gives_bind; [|apply gives_ret]. by eapply gives_lift, name_strlen.
Qed.

Lemma fuel_pos name v fuel : esize name v ≤ Z.of_nat fuel → ∃ f, fuel = S f.
Proof.
  rewrite esize_eq. pose proof (vsize_nonneg name). pose proof (vsize_nonneg (enc_value v)).
  destruct fuel as [|f]; [lia|by exists f].
Qed.

Lemma prints_leaf v :
  match v with VObject _ _ | VCodeWScope _ _ => False | _ => True end → prints_value v.
Proof.
  intros Hleaf d p name fuel incl full redact depth e Hn Hw Ho Hg Hf Hd Hmd.
  apply fuel_pos in Hf as [f ->]. cbn [Obj.toString].
  eapply toString_head; try done. intros e1 He1. clear e Hg.
  assert (type_of v ≠ BSONType.Object ∧ type_of v ≠ BSONType.Array
          ∧ type_of v ≠ BSONType.CodeWScope) as (H1 & H2 & H3).
  { destruct v as [t pl|t str|st dat|pat opt|ns oid|t fs|code fs]; simpl in *; try done.
    - apply andb_true_iff in Hw as [Hw _]. apply bool_decide_eq_true, fixed_size_types in Hw.
      in_cases Hw; done.
    - apply bool_decide_eq_true in Hw. in_cases Hw; done. }
  rewrite !(proj2 (Z.eqb_neq _ _)) by done. destruct redact; [done|].
  assert (gives p name v (Obj.print_value mem full (type_of v)) tt) as Hp
    by (by eapply gives_print_value).
  by destruct (proj1 (wp_Ret _ _ _) (Hp e1 He1)) as (? & ? & -> & _).
Qed.

(** A document, once its constructor has accepted its size. *)
Lemma prints_doc full d o fs fuel isArray redact depth :
  prints_fields fs → wf_fields ver md d fs = true → occurs mem o (enc_doc fs) →
  vsize (enc_doc fs) ≤ BSONObjMaxInternalSize → depth ≤ d → 0 ≤ d ≤ md →
  vsize (enc_doc fs) ≤ Z.of_nat fuel →
  tries (limits full) (Obj.obj_toString mem fuel o isArray full redact depth) (λ _, True).
Proof.
  intros [Hloop _] Hw Ho Hs Hd Hmd Hf. rewrite vsize_doc in Hf.
  pose proof (vsize_nonneg (enc_fields fs)). pose proof (occurs_range _ _ _ Ho ltac:(by destruct fs)) as Hr.
  destruct fuel as [|fuel]; [lia|]. cbn [Obj.obj_toString]. unfold Obj.isEmpty.
  rewrite (objsize_doc _ _ Ho). cbn [mbind outcome_bind].
  destruct (_ <=? kMinBSONLength); [done|].
  destruct (iterator_doc mem Hmem _ _ Ho) as (i & -> & Hb & Hp). cbn [mbind outcome_bind].
  pose proof Hb as [_ He]. rewrite vsize_doc in Hr, Hs.
  eapply Hloop; try done; try lia. rewrite (objsize_doc _ _ Ho), vsize_doc. f_equal. lia.
Qed.

(** The document of an element, of [size] at most the limit. *)
Definition holds_doc (o : Z) (fs : fields) (r : Z * BSONElement) : Prop :=
  fst r = o ∧ vsize (enc_doc fs) ≤ BSONObjMaxInternalSize.
Lemma embeddedObject_doc full d p name t fs fuel e :
  prints_fields fs → no_nul name = true → wf_value ver md d (VObject t fs) = true →
  occurs mem p (enc_element name (VObject t fs)) → good p name (VObject t fs) e →
  0 ≤ d → vsize (enc_fields fs) ≤ Z.of_nat fuel →
  tries (limits full) (Obj.embeddedObject mem (Obj.toString mem fuel true false false 0) e)
    (holds_doc (vpos p name) fs).
Proof.
  intros Hfs Hn Hw Ho Hg Hd Hf. pose proof Hw as Hw'. simpl in Hw'.
  rewrite !andb_true_iff, bool_decide_eq_true, Z.leb_le in Hw'. destruct Hw' as [[Ht Hdm] Hwf].
  unfold Obj.embeddedObject.
  eapply tries_gives with (a := true); [|done|].
  { eapply gives_bind; [by eapply gives_type|].
    replace true with (bool_decide (type_of (VObject t fs) ∈ [BSONType.Object; BSONType.Array]))
      by (by apply bool_decide_eq_true). apply gives_ret. }
  intros e1 He1. eapply tries_gives; [by apply gives_massert|done|]. intros e2 He2.
  eapply tries_gives; [by eapply gives_value|done|]. intros e3 He3.
  eapply tries_lift_last; [eapply (init_doc full (d + 1)); try done; [apply (value_at mem p name _ Ho)|lia]|].
  intros o' [-> Hs]. done.
Qed.
Lemma codeWScopeObject_doc full d p name code fs fuel e :
  prints_fields fs → no_nul name = true → wf_value ver md d (VCodeWScope code fs) = true →
  occurs mem p (enc_element name (VCodeWScope code fs)) → good p name (VCodeWScope code fs) e →
  0 ≤ d → vsize (enc_fields fs) ≤ Z.of_nat fuel →
  let o := vpos p name + 4 + vsize (enc_string code) in
  occurs mem o (enc_doc fs) ∧
  tries (limits full) (Obj.codeWScopeObject mem (Obj.toString mem fuel true false false 0) e)
    (holds_doc o fs).
Proof.
  intros Hfs Hn Hw Ho Hg Hd Hf. pose proof Hw as Hw'. simpl in Hw'.
  rewrite andb_true_iff, Z.leb_le in Hw'. destruct Hw' as [Hdm Hwf].
  pose proof (value_at mem p name _ Ho) as Hv. pose proof (value_range mem p name _ Ho) as Hr.
  simpl in Hv, Hr. apply occurs_app in Hv as [_ Hv]. rewrite vsize_le32 in Hv.
  apply occurs_app in Hv as [Hc Hs]. split; [done|].
  autorewrite with vsize in Hr. pose proof (vsize_nonneg (enc_framed (enc_fields fs))).
  pose proof (vsize_nonneg code).
  assert (vsize (enc_string code) = 4 + (vsize code + 1)) as Hec.
  { unfold enc_string. autorewrite with vsize. lia. }
  apply occurs_app in Hc as [Hc _]. unfold Obj.codeWScopeObject.
  eapply tries_gives; [by eapply gives_type|done|]. intros e1 He1.
  eapply tries_gives; [by apply gives_massert|done|]. intros e2 He2.
  eapply tries_gives; [by eapply gives_value|done|]. intros e3 He3.
  eapply tries_gives; [apply gives_lift, (read_int_occurs mem _ _ Hc); lia|done|]. intros e4 He4.
  replace (vpos p name + 4 + 4 + (vsize code + 1))
    with (vpos p name + 4 + vsize (enc_string code)) by lia.
  eapply tries_lift_last; [eapply (init_doc full (d + 2)); try done; lia|].
  intros o' [-> Hsz]. done.
Qed.

Lemma prints_object t fs : prints_fields fs → prints_value (VObject t fs).
Proof.
  intros Hfs d p name fuel incl full redact depth e Hn Hw Ho Hg Hf Hd Hmd.
  pose proof Hf as Hf'. apply fuel_pos in Hf' as [f ->]. cbn [Obj.toString].
  eapply toString_head; try done. intros e1 He1. clear e Hg.
  pose proof Hw as Hw'. simpl in Hw'. rewrite !andb_true_iff, bool_decide_eq_true, Z.leb_le in Hw'.
  destruct Hw' as [[Ht Hdm] Hwf]. rewrite esize_eq in Hf.
  change (enc_value (VObject t fs)) with (enc_doc fs) in Hf.
  pose proof (vsize_nonneg name). pose proof (vsize_doc fs) as Hs.
  assert (∀ isArray, tries (limits full)
    ((o ← Obj.embeddedObject mem (Obj.toString mem f true false false 0);
      Elem.lift (Obj.obj_toString mem f o isArray full redact (depth + 1))) e1) (λ _, True)) as Hgo.
  { intros isArray. eapply tries_bindM; [by eapply embeddedObject_doc; try done; lia|].
    intros o e2 [Eo Hsz]; simpl in Eo; subst o. eapply (tries_lift_last _ _ _ (λ _, True)); [|done]. eapply (prints_doc full (d + 1)); try done; try lia.
    apply (value_at mem p name _ Ho). }
  simpl. in_cases Ht; decide_types; apply Hgo.
Qed.

Lemma prints_scope code fs : prints_fields fs → prints_value (VCodeWScope code fs).
Proof.
  intros Hfs d p name fuel incl full redact depth e Hn Hw Ho Hg Hf Hd Hmd.
  pose proof Hf as Hf'. apply fuel_pos in Hf' as [f ->]. cbn [Obj.toString].
  eapply toString_head; try done. intros e1 He1. clear e Hg. simpl. decide_types.
  destruct redact; [done|]. pose proof Hw as Hw'. simpl in Hw'.
  rewrite andb_true_iff, Z.leb_le in Hw'. destruct Hw' as [Hdm Hwf].
  rewrite esize_eq in Hf. simpl in Hf. autorewrite with vsize in Hf.
  pose proof (vsize_nonneg name). pose proof (vsize_doc fs) as Hs.
  pose proof (vsize_nonneg (enc_string code)). change (enc_framed (enc_fields fs)) with (enc_doc fs) in Hf.
  eapply tries_gives; [|done|].
  { eapply gives_bind; [by eapply gives_type|]. eapply gives_bind; [by apply gives_massert|].
    eapply gives_bind; [by eapply gives_value|apply gives_ret]. }
  intros e2 He2. eapply tries_gives; [|done|].
  { pose proof (value_at mem p name _ Ho) as Hv. simpl in Hv. apply occurs_app in Hv as [_ Hv].
    rewrite vsize_le32 in Hv. apply occurs_app in Hv as [Hv _]. unfold enc_string in Hv.
    apply occurs_app in Hv as [_ Hv]. rewrite vsize_le32 in Hv. by eapply gives_print_cstr. }
  intros e3 He3.
  edestruct (codeWScopeObject_doc full d p name code fs f e3) as [Hdoc Hobj]; try done; try lia.
  eapply tries_bindM; [exact Hobj|]. intros o e4 [Eo Hsz]; simpl in Eo; subst o. eapply (tries_lift_last _ _ _ (λ _, True)); [|done].
  unfold Obj.isEmpty. rewrite (objsize_doc _ _ Hdoc). cbn [mbind outcome_bind].
  destruct (_ <=? kMinBSONLength); [done|].
  eapply (tries_mono (limits false)); [eapply (prints_doc false (d + 2)); try done; lia| |done].
  intros l [(_ & ? & _)|?]; [done|by right].
Qed.

Lemma prints_nil : prints_fields FNil.
Proof.
  split; [|done]. intros d fuel o i isArray full redact depth _ Hb Hos Hoi Hsz Hend Hf _ _.
  destruct (before_nil mem i Hb) as [Ho He]. destruct fuel as [|fuel]; [change (0 + 1 ≤ 0) in Hf; lia|].
  cbn [Obj.print_loop]. unfold Obj.moreWithEOO. rewrite (proj2 (Z.leb_le _ _)) by lia.
  cbn [check mbind outcome_bind]. rewrite (next_check_eoo mem i Ho) by lia. simpl.
  rewrite Hos. cbn [mbind outcome_bind].
  rewrite (proj2 (Z.leb_le _ _)) by lia. cbn [check mbind outcome_bind].
  unfold Elem.eoo, mbind, M_bind, outcome_bind. rewrite (type_eoo mem _ Ho). simpl.
  by rewrite (proj2 (Z.eqb_eq _ _)) by lia.
Qed.

Lemma prints_cons name v fs :
  prints_value v → prints_fields fs → prints_fields (FCons name v fs).
Proof.
  intros Hv [Hfs _]. split; [|done].
  intros d fuel o i isArray full redact depth Hw Hb Hos Hoi Hsz Hend Hf Hd Hmd.
  destruct (before_cons mem _ _ _ _ Hb) as (Ho & Hlt & Hb').
  simpl in Hw. rewrite !andb_true_iff in Hw. destruct Hw as [[Hn Hwv] Hwf].
  pose proof (element_in_range mem _ _ _ Ho) as Hr. pose proof (esize_eq name v) as Hes.
  pose proof (vsize_nonneg name). pose proof (vsize_nonneg (enc_value v)).
  pose proof (vsize_nonneg (enc_fields fs)).
  pose proof Hb' as [_ He']. simpl in He'.
  assert (esize name v + vsize (enc_fields fs) + 1 ≤ Z.of_nat fuel) as Hf'.
  { destruct Hb as [_ He]. simpl in Hf, He. lia. }
  destruct fuel as [|fuel]; [lia|]. cbn [Obj.print_loop].
  unfold Obj.moreWithEOO. rewrite (proj2 (Z.leb_le _ _)) by lia. cbn [check mbind outcome_bind].
  destruct (proj1 (wp_Ret _ _ _)
    (wp_next_check mem Hmem ver md d (_pos i) name v Hn Hwv Ho i eq_refl ltac:(lia)))
    as (e & i' & -> & Hg & ->). cbn [mbind outcome_bind].
  destruct (proj1 (wp_Ret _ _ _) (gives_size mem Hmem ver md d _ _ _ Hn Hwv Ho e Hg))
    as (? & e1 & -> & -> & Hg1). cbn [mbind outcome_bind].
  unfold BSONObjMaxInternalSize in Hsz. change (Z.shiftl 1 30) with 1073741824.
  rewrite (proj2 (Z.ltb_lt 0 _)), (proj2 (Z.ltb_lt _ 1073741824)) by lia.
  cbn [check mbind outcome_bind].
  destruct (proj1 (wp_Ret _ _ _) (gives_rawdata _ _ _ e1 Hg1)) as (? & e2 & -> & -> & Hg2).
  cbn [mbind outcome_bind]. rewrite Hos. cbn [mbind outcome_bind].
  rewrite (proj2 (Z.leb_le _ _)) by lia. cbn [check mbind outcome_bind].
  destruct (proj1 (wp_Ret _ _ _) (gives_eoo mem ver md d _ _ _ Hwv Ho e2 Hg2)) as (? & e3 & -> & -> & Hg3).
  cbn [mbind outcome_bind]. eapply tries_bind; [eapply Hv; try done; lia|]. intros _ _.
  eapply Hfs; try done; simpl; lia.
Qed.

Lemma toString_safe : (∀ v, prints_value v) ∧ (∀ fs, prints_fields fs).
Proof.
  apply value_fields_mutind; intros;
    auto using prints_object, prints_scope, prints_nil, prints_cons;
    by apply prints_leaf.
Qed.
End toString.
End memory.
