(* ===== verification/BsonStorage.v ===== *)
(** * The check of documents before they are stored

    [BSONObj::_okForStorage] (bsonobj.cpp, lines 380 to 457) on a well-formed
    document of at most 16 MB: it accepts exactly the documents that the
    definition below, on the abstract syntax, calls storable. *)
From S2P Require Import Prelude ParseNumber Bson BsonElement BsonIter.

(** ** What may be stored *)

(** A reference to another document starts with the fields $ref, a string, and
    $id, and may go on with $db, a string; these names are exempt from the
    rules. *)
Definition strip_dbref (fs : fields) : fields :=
  match fs with
  | FCons n v (FCons n2 _ rest) =>
      if bool_decide (n = Obj.name_ref) && (type_of v =? BSONType.String)
         && bool_decide (n2 = Obj.name_id)
      then match rest with
           | FCons n3 v3 rest3 =>
               if bool_decide (n3 = Obj.name_db) && (type_of v3 =? BSONType.String)
               then rest3 else rest
           | FNil => rest
           end
      else fs
  | _ => fs
  end.
(** No dot, no leading dollar. *)
Definition legal_name (name : bytes) : bool :=
  negb (Obj.startsWith Obj.dollar name)
  && negb (existsb (λ b, bool_decide (b = Obj.dot)) name).
(** The _id of a whole document is not a regular expression, an array or undefined. *)
Definition legal_id (root : bool) (name : bytes) (t : Z) : bool :=
  negb (root && bool_decide (t ∈ [BSONType.RegEx; BSONType.Array; BSONType.Undefined])
        && bool_decide (name = Obj.name__id)).

Fixpoint storable_value (v : value) : bool :=
  match v with
  | VObject _ fs | VCodeWScope _ fs => legal_fields false true (strip_dbref fs)
  | _ => true
  end
with legal_fields (root deep : bool) (fs : fields) : bool :=
  match fs with
  | FNil => true
  | FCons name v fs =>
      legal_name name && legal_id root name (type_of v)
      && (if deep then storable_value v else true) && legal_fields root deep fs
  end.
Definition storable (root deep : bool) (fs : fields) : bool :=
  legal_fields root deep (strip_dbref fs).

(** A status says yes when [b] does, and otherwise carries one of the three codes. *)
Definition verdict (b : bool) (s : Status) : Prop :=
  match s with
  | OK _ => b = true
  | Err c => b = false ∧ c ∈ [DollarPrefixedFieldName; DottedFieldName; InvalidIdField]
  end.

Section memory.
Variable mem : bytes.
Hypothesis Hmem : vsize mem ≤ BSONObjMaxInternalSize.
Variables (ver : BSONVersion) (md : Z).

Let Hint : vsize mem ≤ INT_MAX.
Proof. unfold BSONObjMaxInternalSize, INT_MAX in *. lia. Qed.

Lemma init_accepts ts o fs : occurs mem o (enc_doc fs) → Obj.init mem ts o = Ret o.
Proof.
  intros Ho. pose proof (doc_in_range mem o fs Ho). pose proof (vsize_nonneg (enc_fields fs)).
  apply occurs_app in Ho as [Ho _]. unfold Obj.init, Obj.isValid, Obj.objsize.
  rewrite (read_int_occurs _ _ _ Ho) by lia. cbn [mbind outcome_bind].
  by rewrite (proj2 (Z.ltb_lt _ _)), (proj2 (Z.leb_le _ _)) by lia.
Qed.

(** The embedded document of a value, and its address. *)
Definition sub_doc (p : Z) (name : bytes) (v : value) : option (Z * fields) :=
  match v with
  | VObject _ fs => Some (vpos p name, fs)
  | VCodeWScope code fs => Some (vpos p name + 4 + vsize (enc_string code), fs)
  | _ => None
  end.
Lemma sub_doc_spec d p name v o fs ts :
  no_nul name = true → wf_value ver md d v = true → occurs mem p (enc_element name v) →
  sub_doc p name v = Some (o, fs) →
  occurs mem o (enc_doc fs) ∧ (∃ d', wf_fields ver md d' fs = true)
  ∧ vsize (enc_doc fs) < vsize (enc_element name v)
  ∧ (type_of v = BSONType.CodeWScope ∧ gives p name v (Obj.codeWScopeObject mem ts) o
     ∨ type_of v ∈ [BSONType.Object; BSONType.Array] ∧ gives p name v (Obj.embeddedObject mem ts) o).
Proof.
  intros Hn Hw Ho E. pose proof (value_at mem p name _ Ho) as Hv.
  pose proof (value_range mem p name _ Ho) as Hr. pose proof (vsize_nonneg name).
  assert (vsize (enc_element name v) = 1 + (vsize name + 1) + vsize (enc_value v)) as Hs by apply esize_eq.
  destruct v as [| | | | |t fs'|code fs']; try done; injection E as <- <-; pose proof Hw as Hw'; simpl in Hw'.
  - rewrite !andb_true_iff, bool_decide_eq_true in Hw'. destruct Hw' as [[Ht _] Hf].
    split_and!; [done|by eexists|rewrite Hs; change (enc_value (VObject t fs')) with (enc_doc fs'); lia|].
    right. split; [done|]. eapply gives_bind with (a := true).
    { eapply gives_bind; [by eapply gives_type|]. by rewrite (bool_decide_eq_true_2 _ Ht). }
    eapply gives_bind; [by apply gives_massert|]. eapply gives_bind; [by eapply gives_value|].
    by eapply gives_lift, init_accepts.
  - apply andb_true_iff in Hw' as [_ Hf]. simpl in Hv, Hr, Hs.
    apply occurs_app in Hv as [_ Hv]. rewrite vsize_le32 in Hv. apply occurs_app in Hv as [Hc Hd].
    autorewrite with vsize in Hr, Hs. pose proof (vsize_nonneg code).
    pose proof (vsize_nonneg (enc_framed (enc_fields fs'))).
    assert (vsize (enc_string code) = 4 + (vsize code + 1)) as Hec.
    { unfold enc_string. autorewrite with vsize. lia. }
    split_and!; [done|by eexists|rewrite Hs; change (enc_framed (enc_fields fs')) with (enc_doc fs'); lia|].
    left. split; [done|]. eapply gives_bind; [by eapply gives_type|].
    eapply gives_bind; [by apply gives_massert|]. eapply gives_bind; [by eapply gives_value|].
    apply occurs_app in Hc as [Hc _].
    eapply gives_bind; [apply gives_lift, (read_int_occurs mem _ _ Hc); lia|].
    apply gives_lift. rewrite <- Hec || idtac.
    replace (vpos p name + 4 + 4 + (vsize code + 1)) with (vpos p name + 4 + vsize (enc_string code)) by lia.
    by eapply init_accepts.
Qed.

Lemma leaf_type d v p name :
  wf_value ver md d v = true → sub_doc p name v = None →
  type_of v ∉ [BSONType.Object; BSONType.Array; BSONType.CodeWScope] ∧ storable_value v = true.
Proof.
  intros Hw. destruct v as [t pl|t str|st dat|pat opt|ns oid|t fs|code fs]; simpl in *; try done; intros _;
    (split; [|done]); try set_solver.
Qed.

Lemma field_spec d p name v e sub rest root deep i b :
  no_nul name = true → wf_value ver md d v = true → occurs mem p (enc_element name v) →
  good p name v e →
  (∀ o fs, sub_doc p name v = Some (o, fs) → owp (sub o) (verdict (storable false true fs))) →
  owp (rest i) (verdict b) →
  owp (Obj.okForStorage_field mem sub rest root deep e name (type_of v) i)
    (verdict (negb (existsb (λ b, bool_decide (b = Obj.dot)) name) && legal_id root name (type_of v)
              && (if deep then storable_value v else true) && b)).
Proof.
  intros Hn Hw Ho Hg Hsub Hrest. unfold Obj.okForStorage_field, legal_id.
  destruct (existsb _ name); [split; [done|set_solver]|].
  destruct (root && _ && _); [split; [done|set_solver]|]. cbn [andb negb].
  destruct (proj1 (wp_Ret _ _ _) (gives_bind _ _ _ _
    (λ t, mret (bool_decide (t ∈ [BSONType.Object; BSONType.Array; BSONType.CodeWScope]))) _ _
    (gives_type mem ver md d p name v Hw Ho) (gives_ret _ _ _ _) e Hg)) as (enc & e1 & He1 & Eenc & Hg1).
  unfold Elem.mayEncapsulate. rewrite He1. cbn [mbind outcome_bind].
  assert (∀ m : outcome Status, owp m (verdict (if deep then storable_value v else true)) →
    owp (s ← m; match s with OK _ => rest i | Err c => Ret (Err c) end)
      (verdict ((if deep then storable_value v else true) && b))) as Hseq.
  { intros m Hm. destruct m as [[[]|c]|]; simpl in *; [by rewrite Hm| |done].
    destruct Hm as [-> Hc]. by split. }
  apply Hseq. destruct deep; [|done]. destruct (sub_doc p name v) as [[o fs]|] eqn:Es.
  - destruct (sub_doc_spec d p name v o fs (Obj.elem_toString mem) Hn Hw Ho Es)
      as (Hd & _ & _ & Hcase).
    assert (storable_value v = storable false true fs) as ->
      by (clear -Es; destruct v; try done; by injection Es as <- <-).
    specialize (Hsub _ _ eq_refl). subst enc. destruct Hcase as [[Ht Hgo]|[Ht Hgo]].
    + rewrite Ht. decide_types. cbn [andb].
      destruct (proj1 (wp_Ret _ _ _) (Hgo e1 Hg1)) as (? & ? & -> & -> & _). done.
    + rewrite (bool_decide_eq_true_2 (type_of v ∈ [BSONType.Object; BSONType.Array])) by done.
      rewrite bool_decide_eq_true_2 by set_solver. cbn [andb].
      destruct (proj1 (wp_Ret _ _ _) (Hgo e1 Hg1)) as (? & ? & -> & -> & _). done.
  - destruct (leaf_type d v p name Hw Es) as [Ht ->]. subst enc.
    by rewrite bool_decide_eq_false_2.
Qed.

Lemma cname_eoo p : occurs mem p [x00] → Obj.field_cname mem (eoo_at p) = Ret ([], eoo_at p).
Proof.
  intros Ho. unfold Obj.field_cname, Elem.fieldName. unfold mbind, M_bind.
  by rewrite (eoo_eoo mem p Ho).
Qed.

(** The step of the loop on a field: its name and type. *)
Lemma step_named d name v fs i :
  before mem (FCons name v fs) i → wf_fields ver md d (FCons name v fs) = true →
  ∃ e i', Obj.next mem i = Ret (e, i') ∧ good (_pos i) name v e ∧ before mem fs i'
    ∧ (∃ e1 e2, Obj.field_cname mem e = Ret (name, e1) ∧ Elem.type mem e1 = Ret (type_of v, e2)
                ∧ good (_pos i) name v e2)
    ∧ no_nul name = true ∧ wf_value ver md d v = true ∧ wf_fields ver md d fs = true
    ∧ occurs mem (_pos i) (enc_element name v) ∧ Obj.more i = true.
Proof.
  intros Hb Hw.
  destruct (step_field mem Hint ver md d _ _ _ _ Hb Hw)
    as (e & i' & Hnx & Hg & Hb' & -> & Hn & Hv & Hf & Ho & Hm & _).
  destruct (proj1 (wp_Ret _ _ _) (gives_cname mem ver md d _ _ _ Hn Hv Ho e Hg)) as (? & e1 & E1 & -> & Hg1).
  destruct (proj1 (wp_Ret _ _ _) (gives_type mem ver md d _ _ _ Hv Ho e1 Hg1)) as (? & e2 & E2 & -> & Hg2).
  eexists e, _. split_and!; try done. eauto.
Qed.

Lemma legal_name_dollar name : Obj.startsWith Obj.dollar name = true → legal_name name = false.
Proof. unfold legal_name. by intros ->. Qed.
Lemma strip_not_ref name v fs :
  name ≠ Obj.name_ref ∨ type_of v ≠ BSONType.String → strip_dbref (FCons name v fs) = FCons name v fs.
Proof.
  intros H. simpl. destruct fs; [done|].
  destruct H; [by rewrite bool_decide_eq_false_2|].
  by rewrite (proj2 (Z.eqb_neq _ _)), andb_false_r by done.
Qed.
(** The end of the document in place of the field after $id. *)
Lemma field_eoo sub rest root deep p i :
  occurs mem p [x00] →
  Obj.okForStorage_field mem sub rest root deep (eoo_at p) [] BSONType.EOO i = rest i.
Proof.
  intros Ho. unfold Obj.okForStorage_field, Elem.mayEncapsulate. cbn [existsb].
  decide_types. rewrite andb_false_r. cbn [andb]. unfold mbind, M_bind, outcome_bind.
  rewrite (type_eoo mem p Ho). cbn [mret M_ret]. by rewrite andb_false_r.
Qed.

Section step.
Variable n : Z.
(** The loop is right on shorter lists of fields. *)
Hypothesis IH : ∀ fs, vsize (enc_fields fs) < n → ∀ d fuel first root deep i,
  wf_fields ver md d fs = true → before mem fs i → vsize (enc_fields fs) + 1 ≤ Z.of_nat fuel →
  owp (Obj.okForStorage_loop mem fuel i first root deep)
    (verdict (legal_fields root deep (if first then strip_dbref fs else fs))).

Lemma vsize_fields_cons name v fs :
  vsize (enc_fields (FCons name v fs)) = vsize (enc_element name v) + vsize (enc_fields fs).
Proof. unfold enc_element. simpl. autorewrite with vsize. lia. Qed.
Lemma vsize_element_pos name v : 2 ≤ vsize (enc_element name v).
Proof.
  change (2 ≤ esize name v). rewrite esize_eq.
  pose proof (vsize_nonneg name). pose proof (vsize_nonneg (enc_value v)). lia.
Qed.

(** A field that is not part of a reference, and what follows it. *)
Lemma plain_field d name v fs fuel root deep e p i :
  no_nul name = true → wf_value ver md d v = true → occurs mem p (enc_element name v) →
  good p name v e → wf_fields ver md d fs = true → before mem fs i →
  vsize (enc_fields (FCons name v fs)) ≤ n →
  vsize (enc_fields (FCons name v fs)) ≤ Z.of_nat fuel →
  Obj.startsWith Obj.dollar name = false →
  owp (Obj.okForStorage_field mem (λ o, Obj._okForStorage mem fuel o false true)
         (λ i, Obj.okForStorage_loop mem fuel i false root deep) root deep e name (type_of v) i)
    (verdict (legal_fields root deep (FCons name v fs))).
Proof.
  intros Hn Hv Ho Hg Hf Hb Hsz Hfuel Hd. rewrite vsize_fields_cons in Hsz, Hfuel.
  pose proof (vsize_element_pos name v). pose proof (vsize_nonneg (enc_fields fs)).
  cbn [legal_fields]. unfold legal_name. rewrite Hd. cbn [negb andb].
  eapply field_spec; try done.
  - intros o fs' Es.
    destruct (sub_doc_spec d p name v o fs' (Obj.elem_toString mem) Hn Hv Ho Es)
      as (Hdoc & [d' Hw'] & Hlt & _).
    assert (vsize (enc_doc fs') = vsize (enc_fields fs') + 5) as Hds
      by (unfold enc_doc, enc_framed; autorewrite with vsize; lia).
    pose proof (vsize_nonneg (enc_fields fs')). destruct fuel as [|fuel]; [lia|]. cbn [Obj._okForStorage].
    destruct (iterator_doc mem Hint _ _ Hdoc) as (i' & -> & Hb' & _). cbn [mbind outcome_bind].
    apply (IH fs') with (first := true) (d := d'); try done; lia.
  - apply (IH fs) with (first := false) (d := d); try done; lia.
Qed.
End step.

(** After $ref and $id. *)
Lemma after_id n d fs fuel root deep i :
  (∀ fs, vsize (enc_fields fs) < n → ∀ d fuel first root deep i,
    wf_fields ver md d fs = true → before mem fs i → vsize (enc_fields fs) + 1 ≤ Z.of_nat fuel →
    owp (Obj.okForStorage_loop mem fuel i first root deep)
      (verdict (legal_fields root deep (if first then strip_dbref fs else fs)))) →
  wf_fields ver md d fs = true → before mem fs i → vsize (enc_fields fs) ≤ n →
  vsize (enc_fields fs) + 1 ≤ Z.of_nat fuel →
  owp ('(e3, i) ← Obj.next mem i;
       '(name3, e3) ← Obj.field_cname mem e3;
       '(t3, e3) ← Elem.type mem e3;
       if bool_decide (name3 = Obj.name_db) && (t3 =? BSONType.String)
       then Obj.okForStorage_loop mem fuel i false root deep
       else if Obj.startsWith Obj.dollar name3 then Ret (Err DollarPrefixedFieldName)
       else Obj.okForStorage_field mem (λ o, Obj._okForStorage mem fuel o false true)
              (λ i, Obj.okForStorage_loop mem fuel i false root deep) root deep e3 name3 t3 i)
    (verdict (legal_fields root deep
      (match fs with
       | FCons n3 v3 rest3 =>
           if bool_decide (n3 = Obj.name_db) && (type_of v3 =? BSONType.String) then rest3 else fs
       | FNil => fs
       end))).
Proof.
  intros IH Hw Hb Hsz Hfuel. destruct fs as [|name v fs].
  - destruct (step_eoo mem i Hb) as (-> & Ho & _). cbn [mbind outcome_bind].
    rewrite (cname_eoo _ Ho). cbn [mbind outcome_bind]. rewrite (type_eoo mem _ Ho). cbn [mbind outcome_bind].
    rewrite bool_decide_eq_false_2 by done. cbn [andb Obj.startsWith]. rewrite field_eoo by done.
    destruct fuel as [|fuel]; [change (0 + 1 ≤ 0) in Hfuel; lia|]. cbn [Obj.okForStorage_loop].
    destruct Hb as [_ He]. unfold Obj.more. simpl in He. autorewrite with vsize in He. simpl.
    by rewrite (proj2 (Z.ltb_ge _ _)) by lia.
  - destruct (step_named d _ _ _ _ Hb Hw)
      as (e & i' & -> & _ & Hb' & (e1 & e2 & E1 & E2 & Hg2) & Hn & Hv & Hf & Ho & _).
    cbn [mbind outcome_bind]. rewrite E1. cbn [mbind outcome_bind]. rewrite E2. cbn [mbind outcome_bind].
    pose proof (vsize_fields_cons name v fs) as Hs. pose proof (vsize_element_pos name v).
    destruct (bool_decide (name = Obj.name_db) && (type_of v =? BSONType.String)).
    + apply (IH fs) with (first := false) (d := d); try done; lia.
    + destruct (Obj.startsWith Obj.dollar name) eqn:Ed.
      * cbn [legal_fields]. rewrite legal_name_dollar by done. split; [done|set_solver].
      * eapply plain_field; try done; lia.
Qed.

Lemma okForStorage_loop_spec k : ∀ fs, vsize (enc_fields fs) < Z.of_nat k → ∀ d fuel first root deep i,
  wf_fields ver md d fs = true → before mem fs i → vsize (enc_fields fs) + 1 ≤ Z.of_nat fuel →
  owp (Obj.okForStorage_loop mem fuel i first root deep)
    (verdict (legal_fields root deep (if first then strip_dbref fs else fs))).
Proof.
  induction k as [|k IH]; intros fs Hk d fuel first root deep i Hw Hb Hfuel.
  { pose proof (vsize_nonneg (enc_fields fs)). lia. }
  destruct fuel as [|fuel]; [pose proof (vsize_nonneg (enc_fields fs)); lia|].
  destruct fs as [|name v fs].
  { destruct (step_eoo mem i Hb) as (_ & _ & Hm & _). cbn [Obj.okForStorage_loop]. rewrite Hm.
    by destruct first. }
  destruct (step_named d _ _ _ _ Hb Hw)
    as (e & i' & Hnx & _ & Hb' & (e1 & e2 & E1 & E2 & Hg2) & Hn & Hv & Hf & Ho & Hm).
  cbn [Obj.okForStorage_loop]. rewrite Hm. cbn [negb]. rewrite Hnx. cbn [mbind outcome_bind].
  rewrite E1. cbn [mbind outcome_bind]. rewrite E2. cbn [mbind outcome_bind].
  pose proof (vsize_fields_cons name v fs) as Hs. pose proof (vsize_element_pos name v).
  assert (∀ first', (first' = true → name ≠ Obj.name_ref ∨ type_of v ≠ BSONType.String) →
    (if first' then strip_dbref (FCons name v fs) else FCons name v fs) = FCons name v fs) as Hstrip.
  { intros [] H'; [apply strip_not_ref; auto|done]. }
  assert (Obj.startsWith Obj.dollar name = true →
    verdict (legal_fields root deep (FCons name v fs)) (Err DollarPrefixedFieldName)) as Hbad.
  { intros Hd. cbn [legal_fields]. rewrite legal_name_dollar by done. split; [done|set_solver]. }
  destruct (Obj.startsWith Obj.dollar name) eqn:Ed.
  2:{ rewrite Hstrip by (intros _; left; by intros ->).
      eapply (plain_field (Z.of_nat k)); try done; lia. }
  destruct (first && bool_decide (name = Obj.name_ref) && (type_of v =? BSONType.String)) eqn:Er.
  2:{ rewrite Hstrip; [by apply Hbad|]. intros ->. cbn [andb] in Er.
      apply andb_false_iff in Er as [Er|Er]; [left; by apply bool_decide_eq_false in Er|right; by apply Z.eqb_neq]. }
  rewrite !andb_true_iff, bool_decide_eq_true, Z.eqb_eq in Er. destruct Er as [[-> ->] Ht].
  destruct fs as [|name2 v2 fs].
  - destruct (step_eoo mem i' Hb') as (-> & Hoo & _). cbn [mbind outcome_bind].
    rewrite (cname_eoo _ Hoo). by apply Hbad.
  - destruct (step_named d _ _ _ _ Hb' Hf)
      as (e3 & i3 & -> & _ & Hb3 & (e4 & e5 & E3 & _) & _ & _ & Hf3 & _). cbn [mbind outcome_bind].
    rewrite E3. cbn [mbind outcome_bind strip_dbref]. rewrite Ht.
    pose proof (vsize_fields_cons name2 v2 fs). pose proof (vsize_element_pos name2 v2).
    case_bool_decide; [|by apply Hbad].
    rewrite !bool_decide_eq_true_2 by done. cbn [andb]. eapply (after_id (Z.of_nat k)); try done; lia.
Qed.

Lemma okForStorage_doc d fuel o root deep fs :
  occurs mem o (enc_doc fs) → wf_fields ver md d fs = true → vsize (enc_doc fs) ≤ Z.of_nat fuel →
  owp (Obj._okForStorage mem fuel o root deep) (verdict (storable root deep fs)).
Proof.
  intros Ho Hw Hf. pose proof (vsize_nonneg (enc_fields fs)).
  unfold enc_doc, enc_framed in Hf. autorewrite with vsize in Hf.
  destruct fuel as [|fuel]; [lia|]. cbn [Obj._okForStorage].
  destruct (iterator_doc mem Hint _ _ Ho) as (i & -> & Hb & _). cbn [mbind outcome_bind].
  eapply (okForStorage_loop_spec (S (length (enc_fields fs)))) with (first := true); try done; unfold vsize in *; lia.
Qed.
End memory.

(** C33. On a well-formed document of at most 16 MB, [storageValid] and
    [storageValidEmbedded] return OK exactly when the document is [storable].
    The leading $ref (a string), $id and optional $db (a string) of a
    reference are passed over, names and values. Of the other fields no name
    starts with a dollar or holds a dot, and, when [deep], the documents, arrays and
    scopes of code in their values are storable in the same sense; the _id of
    a whole document is not a regular expression, an array or undefined.
    Every other document gets one of the three error codes, nothing outside
    of the document is read and the check ends. (Field names inside of the
    value of $id are thus not looked at: [dotted_name_under_id_accepted].) *)
Theorem storageValid_exact mem ver md o deep fs :
  vsize mem ≤ BSONObjMaxInternalSize → occurs mem o (enc_doc fs) → wf_doc ver md fs = true →
  owp (Obj.storageValid mem o deep) (verdict (storable true deep fs))
  ∧ owp (Obj.storageValidEmbedded mem o deep) (verdict (storable false deep fs)).
Proof.
  intros Hm Ho Hw. apply andb_true_iff in Hw as [_ Hw].
  pose proof (occurs_range _ _ _ Ho ltac:(by destruct fs)) as [Ho0 Hr].
  assert (vsize (enc_doc fs) ≤ Z.of_nat (Obj.buffer_fuel mem)) as Hf.
  { unfold Obj.buffer_fuel, vsize in *. lia. }
  split; by eapply okForStorage_doc.
Qed.

(** { $ref : "c", $id : { "a.b" : null } }: what $id holds is not looked at. *)
Definition dbref_example : fields :=
  FCons Obj.name_ref (VString BSONType.String [x63])
    (FCons Obj.name_id (VObject BSONType.Object
       (FCons [x61; Obj.dot; x62] (VFixed BSONType.jstNULL []) FNil)) FNil).
Lemma storageValid_exact_witness :
  owp (Obj.storageValid (enc_doc dbref_example) 0 true) (verdict true)
  ∧ owp (Obj.storageValidEmbedded (enc_doc dbref_example) 0 true) (verdict true).
Proof.
  apply (storageValid_exact (enc_doc dbref_example) kV1_1 kDefaultMaxAllowableDepth 0 true dbref_example).
  - by vm_compute.
  - split; [done|]. exists []. by vm_compute.
  - by vm_compute.
Defined.
Lemma dotted_name_under_id_accepted :
  Obj.storageValid (enc_doc dbref_example) 0 true = Ret (OK tt)
  ∧ Obj.storageValid
      (enc_doc (FCons [x61] (VObject BSONType.Object
         (FCons [x61; Obj.dot; x62] (VFixed BSONType.jstNULL []) FNil)) FNil)) 0 true
    = Ret (Err DottedFieldName).
Proof. split; by vm_compute. Qed.
