(* ===== verification/BsonValidate.v ===== *)
(** * The BSON validator

    [validateBSON] (src/mongo/bson/bson_validate.cpp): the bounds-checked
    reader, the state machine over a stack of frames, and the element that
    error messages name.  Its theorem is in BsonValidateProps.v. *)
From S2P Require Import Prelude ParseNumber Bson BsonElement.

(** Lines 143 to 147; the buffer, its length and the version do not change
    and are parameters below. *)
Record Buffer := { _position : Z; _idElem : BSONElement }.
#[export] Instance Buffer_eta : Eta Buffer := λ b,
  {| _position := _position b; _idElem := _idElem b |}.

(** Line 151 *)
Inductive ValidationState := BeginObj | WithinObj | EndObj | BeginCodeWScope | EndCodeWScope | Done.
#[export] Instance ValidationState_eq_dec : EqDecision ValidationState.
Proof. solve_decision. Defined.

(** Lines 154 to 178: the start of an object or of a code with scope, whose
    top bit tells the two apart, and the size it declares. *)
Record ValidationObjectFrame := { expectedSize : Z; _startPosition : Z }.
#[export] Instance ValidationObjectFrame_eta : Eta ValidationObjectFrame := λ f,
  {| expectedSize := expectedSize f; _startPosition := _startPosition f |}.

Module Frame.
(** [1 << 31] as an [int]. *)
Definition top_bit : Z := INT_MIN.
Definition startPosition (f : ValidationObjectFrame) : Z := Z.land (_startPosition f) (Z.lnot top_bit).
Definition isCodeWithScope (f : ValidationObjectFrame) : bool :=
  negb (Z.land (_startPosition f) top_bit =? 0).
Definition setStartPosition (pos : Z) (f : ValidationObjectFrame) : ValidationObjectFrame :=
  f <| _startPosition := Z.lor (Z.land (_startPosition f) top_bit) (Z.land pos (Z.lnot top_bit)) |>.
Definition setIsCodeWithScope (b : bool) (f : ValidationObjectFrame) : ValidationObjectFrame :=
  f <| _startPosition := if b then Z.lor (_startPosition f) top_bit
                         else Z.land (_startPosition f) (Z.lnot top_bit) |>.
Definition empty : ValidationObjectFrame := {| expectedSize := 0; _startPosition := 0 |}.
End Frame.

(** The locals of [validateBSONIterative] and the buffer.  The last frame
    pushed is the head of [frames], and [curr] always points to it. *)
Record Validation := {
  buffer : Buffer;
  frames : list ValidationObjectFrame;
  state : ValidationState;
  idElemStartPos : Z;
  idElem : BSONElement;
}.
#[export] Instance Validation_eta : Eta Validation := λ v,
  {| buffer := buffer v; frames := frames v; state := state v;
     idElemStartPos := idElemStartPos v; idElem := idElem v |}.

Module Validate.
(** A function that returns a [Status], with its result when that is OK. *)
Definition V (A : Type) : Type := M Buffer (StatusWith A).
Definition vret {A} (a : A) : V A := λ b, Ret (OK a, b).
Definition vbind {A B} (m : V A) (f : A → V B) : V B := λ b,
  '(r, b) ← m b;
  match r with
  | OK a => f a b
  | Err e => Ret (Err e, b)
  end.
Notation "'try' x := m 'in' k" := (vbind m (λ x, k))
  (at level 10, x binder, m at level 100, k at level 200).

Section mem.
Variables (mem : bytes) (_maxLength : Z) (_version : BSONVersion).
(** [BSONDepth::getMaxAllowableDepth()] *)
Variable maxAllowableDepth : Z.

(** Lines 50 to 58 *)
Definition makeError (idElem : BSONElement) : outcome ErrorCode :=
  '(b, idElem) ← Elem.eoo mem idElem;
  if (b : bool) then Ret InvalidBSON
  else _ ← Obj.toString mem (Obj.buffer_fuel mem) true true false 0 idElem; Ret InvalidBSON.
(** [return makeError(...)], and the same when a condition does not hold. *)
Definition fail {A} (idElem : BSONElement) : V A := λ b, e ← makeError idElem; Ret (Err e, b).
Definition require (c : bool) (idElem : BSONElement) : V () :=
  if c then vret tt else fail idElem.

(** *** The reader: lines 65 to 121 *)
Definition readNumber (size : Z) : M Buffer (option bytes) := λ b,
  if _maxLength <? u64 (_position b + size) then Ret (None, b)
  else
    bs ← load mem (_position b) size;
    Ret (Some bs, b <| _position := u64 (_position b + size) |>).
Definition readCString : V bytes := λ b,
  len ← memchr0 mem (_position b) (u64 (_maxLength - _position b));
  if len =? -1 then fail (_idElem b) b
  else
    str ← load mem (_position b) len;
    Ret (OK str, b <| _position := u64 (_position b + (len + 1)) |>).
Definition skip (sz : Z) : M Buffer bool := λ b,
  let p := u64 (_position b + sz) in
  Ret (p <? _maxLength, b <| _position := p |>).
(** A number that has to be there. *)
Definition readInt (idElem : BSONElement) : V Z :=
  λ b, '(r, b) ← readNumber 4 b;
  match r with
  | Some bs => vret (i32 (le_combine bs)) b
  | None => fail idElem b
  end.
Definition readByte (idElem : BSONElement) : V byte :=
  λ b, '(r, b) ← readNumber 1 b;
  match r with
  | Some bs => vret (hd x00 bs) b
  | None => fail idElem b
  end.
Definition skipOrFail (sz : Z) (idElem : BSONElement) : V () :=
  λ b, '(c, b) ← skip sz b; require c idElem b.
Definition readUTF8String : V () :=
  λ b, let id := _idElem b in
  (try sz := readInt id in
   try _ := require (0 <? sz) id in
   try _ := skipOrFail (sz - 1) id in
   try c := readByte id in
   require (schar c =? 0) id) b.

(** *** One element: lines 183 to 295 *)
(** The switch on the type, after the name. *)
Definition validateElementValue (type : Z) (idElem : BSONElement) : V ValidationState :=
  if bool_decide (type ∈ [BSONType.MinKey; BSONType.MaxKey; BSONType.jstNULL; BSONType.Undefined])
  then vret WithinObj
  else if type =? BSONType.jstOID then try _ := skipOrFail kOIDSize idElem in vret WithinObj
  else if type =? BSONType.NumberInt then try _ := skipOrFail 4 idElem in vret WithinObj
  else if type =? BSONType.Bool then
    try val := readByte idElem in
    try _ := require ((uchar val =? 0) || (uchar val =? 1)) idElem in
    vret WithinObj
  else if bool_decide (type ∈ [BSONType.NumberDouble; BSONType.NumberLong;
                               BSONType.bsonTimestamp; BSONType.Date]) then
    try _ := skipOrFail 8 idElem in vret WithinObj
  else if type =? BSONType.NumberDecimal then
    if bool_decide (_version ≠ kV1_0) then try _ := skipOrFail 16 idElem in vret WithinObj
    else λ b, Ret (Err InvalidBSON, b)
  else if type =? BSONType.DBRef then
    try _ := readUTF8String in
    try _ := skipOrFail kOIDSize idElem in
    vret WithinObj
  else if type =? BSONType.RegEx then
    try _ := readCString in
    try _ := readCString in
    vret WithinObj
  else if bool_decide (type ∈ [BSONType.Code; BSONType.Symbol; BSONType.String]) then
    try _ := readUTF8String in
    vret WithinObj
  else if type =? BSONType.BinData then
    try sz := readInt idElem in
    try _ := require (negb ((sz <? 0) || (sz =? INT_MAX))) idElem in
    try _ := skipOrFail (1 + sz) idElem in
    vret WithinObj
  else if type =? BSONType.CodeWScope then vret BeginCodeWScope
  else if bool_decide (type ∈ [BSONType.Object; BSONType.Array]) then vret BeginObj
  else fail idElem.
(** The next state and the name of the element, empty for the end of the object. *)
Definition validateElementInfo (idElem : BSONElement) : V (ValidationState * bytes) :=
  try c := readByte idElem in
  if schar c =? BSONType.EOO then vret (EndObj, [])
  else
    try elemName := readCString in
    try nextState := validateElementValue (schar c) idElem in
    vret (nextState, elemName).

(** *** The state machine: lines 297 to 400 *)
(** Run a reader on the buffer of the loop and go on with its result. *)
Definition with_buffer {A} (m : V A) (v : Validation) (k : A → Validation → outcome (StatusWith Validation))
    : outcome (StatusWith Validation) :=
  '(r, b) ← m (buffer v);
  match r with
  | OK a => k a (v <| buffer := b |>)
  | Err e => Ret (Err e)
  end.

(** [case WithinObj], lines 324 to 350 *)
Definition withinObj (v : Validation) : outcome (StatusWith Validation) :=
  let atTopLevel := vsize (frames v) =? 1 in
  v ← (if atTopLevel && negb (idElemStartPos v =? 0) then
         e ← Elem.mk mem (idElemStartPos v);
         Ret (v <| idElem := e |> <| buffer := buffer v <| _idElem := e |> |>
                <| idElemStartPos := 0 |>)
       else Ret v);
  let elemStartPos := _position (buffer v) in
  with_buffer (validateElementInfo (idElem v)) v (λ '(nextState, elemName) v,
    '(noId, _) ← Elem.eoo mem (idElem v);
    let v := if bool_decide (nextState ≠ EndObj) && noId && atTopLevel
                && bool_decide (elemName = Obj.name__id)
             then v <| idElemStartPos := elemStartPos |> else v in
    Ret (OK (v <| state := nextState |>))).

(** [frames.push_back] with the position and the kind set. *)
Definition push (codeWithScope : bool) (v : Validation) : Validation :=
  v <| frames := Frame.setIsCodeWithScope codeWithScope
                   (Frame.setStartPosition (i32 (_position (buffer v))) Frame.empty) :: frames v |>.
Definition set_expected (sz : Z) (v : Validation) : Validation :=
  v <| frames := match frames v with
                 | [] => []
                 | f :: fs => f <| expectedSize := sz |> :: fs
                 end |>.

(** The size of the frame [curr] against the position; [false] is the error. *)
Definition actualLength (v : Validation) (curr : ValidationObjectFrame) : Z :=
  i32 (u64 (_position (buffer v) - Frame.startPosition curr)).

(** One iteration of the loop. *)
Definition step (v : Validation) : outcome (StatusWith Validation) :=
  match state v with
  | BeginObj =>
      if maxAllowableDepth <? vsize (frames v) then Ret (Err Overflow)
      else
        let v := push false v in
        with_buffer (readInt (idElem v)) v (λ sz v,
          withinObj ((set_expected sz v) <| state := WithinObj |>))
  | WithinObj => withinObj v
  | EndObj =>
      match frames v with
      | [] => Abort FAULT
      | curr :: rest =>
          if negb (actualLength v curr =? expectedSize curr) then
            e ← makeError (idElem v); Ret (Err e)
          else
            let v := v <| frames := rest |> in
            Ret (OK (v <| state := match rest with
                                   | [] => Done
                                   | curr :: _ => if Frame.isCodeWithScope curr then EndCodeWScope
                                                  else WithinObj
                                   end |>))
      end
  | BeginCodeWScope =>
      let v := push true v in
      with_buffer (readInt (idElem v)) v (λ sz v,
        let v := set_expected sz v in
        with_buffer readUTF8String v (λ _ v, Ret (OK (v <| state := BeginObj |>))))
  | EndCodeWScope =>
      match frames v with
      | [] => Abort FAULT
      | curr :: rest =>
          if negb (actualLength v curr =? expectedSize curr) then
            e ← makeError (idElem v); Ret (Err e)
          else
            let v := v <| frames := rest |> in
            match rest with
            | [] => e ← makeError (idElem v); Ret (Err e)
            | _ :: _ => Ret (OK (v <| state := WithinObj |>))
            end
      end
  | Done => Abort 395
  end.

Fixpoint validate_loop (fuel : nat) (v : Validation) : outcome Status :=
  match fuel with
  | O => Abort FUEL
  | S fuel =>
      if bool_decide (state v = Done) then Ret (OK tt)
      else
        r ← step v;
        match r with
        | OK v => validate_loop fuel v
        | Err e => Ret (Err e)
        end
  end.
Definition initial : Validation := {|
  buffer := {| _position := 0; _idElem := Elem.eoo_element |};
  frames := []; state := BeginObj; idElemStartPos := 0; idElem := Elem.eoo_element;
|}.
(** Every iteration moves forward in the buffer or pops a frame. *)
Definition validateBSONIterative : outcome Status :=
  validate_loop (Z.to_nat (2 * _maxLength) + 3) initial.

(** Lines 404 to 411 *)
Definition validateBSON : outcome Status :=
  if _maxLength <? 5 then Ret (Err InvalidBSON) else validateBSONIterative.
End mem.
End Validate.
