(* ===== verification/BsonReader.v ===== *)
(** * The reader of the BSON validator

    The functions of BsonValidate.v up to [validateElementInfo], on any bytes:
    they stay inside of the buffer, and what they return is equivalent to what
    the format of Bson.v allows at the position. *)
From S2P Require Import Prelude ParseNumber Bson BsonElement BsonIter BsonPrint BsonStorage BsonValidate.
Import Validate.

Section validator.
Variables (mem : bytes) (max : Z) (ver : BSONVersion) (md : Z).
Hypothesis Hmem : vsize mem ≤ INT_MAX.
Hypothesis Hmax : 0 ≤ max ≤ vsize mem.
Hypothesis Hmd : 0 ≤ md.

(** The exceptions that an error message can throw. *)
Let X : Z → Prop := limits mem md true.

(** An element that messages may name: none, or one that is well-formed. *)
Definition printable (e : BSONElement) : Prop :=
  e = Elem.eoo_element
  ∨ ∃ p name v, no_nul name = true ∧ wf_value ver md 0 v = true
                ∧ occurs mem p (enc_element name v) ∧ good p name v e.

Lemma makeError_spec e : printable e → tries X (makeError mem e) (λ c, c = InvalidBSON).
Proof.
  intros [->|(p & name & v & Hn & Hw & Ho & Hg)]; [done|]. unfold makeError.
  destruct (proj1 (wp_Ret _ _ _) (gives_eoo mem ver md 0 _ _ _ Hw Ho e Hg)) as (? & e1 & -> & -> & Hg1).
  cbn [mbind outcome_bind]. eapply tries_bind; [|done].
  eapply (proj1 (toString_safe mem Hmem ver md) v 0); try done.
  pose proof (element_in_range mem _ _ _ Ho). unfold Obj.buffer_fuel, vsize in *. lia.
Qed.

(** ** The reader *)
Section reader.
Variable id : BSONElement.
Hypothesis Hid : printable id.

Definition at_ (q : Z) : Buffer := {| _position := q; _idElem := id |}.
(** From position [q] the function [m] returns a result and a position that
    satisfy [S], or reports an error, by a status or while it prints the
    message, and then [F] holds. *)
Definition rd {A} (m : V A) (q : Z) (S : A → Z → Prop) (F : Prop) : Prop :=
  match m (at_ q) with
  | Ret (OK a, b) => ∃ q', b = at_ q' ∧ q ≤ q' ≤ max ∧ S a q'
  | Ret (Err c, _) => c = InvalidBSON ∧ F
  | Abort l => X l ∧ F
  end.

Lemma rd_ret {A} (a : A) q (S : A → Z → Prop) F : q ≤ max → S a q → rd (vret a) q S F.
Proof. intros Hq HS. exists q. split_and!; try done; lia. Qed.
Lemma rd_fail {A} q (S : A → Z → Prop) (F : Prop) : F → rd (fail mem id) q S F.
Proof.
  intros HF. unfold rd, fail. pose proof (makeError_spec id Hid) as H.
  destruct (makeError mem id); simpl in *; auto.
Qed.
Lemma rd_bind {A B} (m : V A) (f : A → V B) q S (F : Prop) S' (F' : Prop) :
  rd m q S F → (F → F') → (∀ a q', q ≤ q' ≤ max → S a q' → rd (f a) q' S' F') →
  rd (vbind m f) q S' F'.
Proof.
  unfold rd, vbind. intros Hm HF Hf. destruct (m (at_ q)) as [[[a|c] b]|l]; simpl in *.
  - destruct Hm as (q' & -> & Hq & HS). specialize (Hf a q' Hq HS).
    destruct (f a (at_ q')) as [[[a'|c] b]|l]; [|done..].
    destruct Hf as (q2 & -> & Hq2 & HS2). exists q2. split_and!; try done; lia.
  - naive_solver.
  - naive_solver.
Qed.
Lemma rd_mono {A} (m : V A) q (S S' : A → Z → Prop) (F F' : Prop) :
  rd m q S F → (∀ a q', S a q' → S' a q') → (F → F') → rd m q S' F'.
Proof. unfold rd. intros Hm HS HF. destruct (m (at_ q)) as [[[a|c] b]|l]; naive_solver. Qed.
Lemma rd_require c q (S : () → Z → Prop) (F : Prop) :
  q ≤ max → (c = true → S tt q) → (c = false → F) → rd (require mem c id) q S F.
Proof. intros Hq HS HF. destruct c; [apply rd_ret; auto|apply rd_fail; auto]. Qed.

Lemma u64_pos q n : 0 ≤ q ≤ max → 0 ≤ n < two32 → u64 (q + n) = q + n.
Proof. intros. apply u64_small. unfold two32, INT_MAX in *. lia. Qed.

Lemma readNumber_spec q n :
  0 ≤ q ≤ max → 0 ≤ n < two32 →
  (max < q + n ∧ readNumber mem max n (at_ q) = Ret (None, at_ q))
  ∨ ∃ l, q + n ≤ max ∧ occurs mem q l ∧ vsize l = n
         ∧ readNumber mem max n (at_ q) = Ret (Some l, at_ (q + n)).
Proof.
  intros Hq Hn. unfold readNumber. cbn [_position at_]. rewrite u64_pos by done.
  destruct (Z.ltb_spec max (q + n)); [by left|right].
  destruct (load_in_range mem q n) as (l & -> & Ho & Hl); [lia..|]. by exists l.
Qed.
Lemma rd_readInt q :
  0 ≤ q ≤ max →
  rd (readInt mem max id) q
    (λ z q', q' = q + 4 ∧ ∃ l, occurs mem q l ∧ vsize l = 4 ∧ z = i32 (le_combine l)) (max < q + 4).
Proof.
  intros Hq. unfold rd, readInt.
  destruct (readNumber_spec q 4 Hq) as [[Hlt ->]|(l & Hle & Ho & Hl & ->)]; [by unfold two32| |].
  - cbn [mbind outcome_bind]. exact (rd_fail q _ _ Hlt).
  - simpl. exists (q + 4). split_and!; try done; try lia. eauto.
Qed.
Lemma rd_readByte q :
  0 ≤ q ≤ max →
  rd (readByte mem max id) q (λ c q', q' = q + 1 ∧ occurs mem q [c]) (max < q + 1).
Proof.
  intros Hq. unfold rd, readByte.
  destruct (readNumber_spec q 1 Hq) as [[Hlt ->]|(l & Hle & Ho & Hl & ->)]; [by unfold two32| |].
  - cbn [mbind outcome_bind]. exact (rd_fail q _ _ Hlt).
  - simpl. exists (q + 1). destruct l as [|c [|? ?]]; try done; [split_and!; try done; lia|].
    unfold vsize in Hl. simpl in Hl. lia.
Qed.
Lemma rd_skip q n :
  0 ≤ q ≤ max → 0 ≤ n < two32 →
  rd (skipOrFail mem max n id) q (λ _ q', q' = q + n ∧ q' < max) (max ≤ q + n).
Proof.
  intros Hq Hn. unfold skipOrFail, rd, skip. cbn [mbind outcome_bind _position at_].
  rewrite u64_pos by done. change (at_ q <| _position := q + n |>) with (at_ (q + n)).
  destruct (Z.ltb_spec (q + n) max).
  - exists (q + n). split_and!; try done; lia.
  - cbn [require]. pose proof (rd_fail (A := unit) (q + n) (λ _ _, False) (max ≤ q + n) H) as Hf.
    unfold rd in Hf. destruct (fail mem id (at_ (q + n))) as [[[a|c] b]|l]; [|exact Hf..].
    by destruct Hf as (? & _ & _ & []).
Qed.
Lemma cstring_unique q s s' :
  occurs mem q (enc_cstring s) → occurs mem q (enc_cstring s') →
  no_nul s = true → no_nul s' = true → s = s'.
Proof.
  intros Ho Ho' Hs Hs'. pose proof (strlen_cstring _ _ _ Ho Hs) as E.
  rewrite (strlen_cstring _ _ _ Ho' Hs') in E. injection E as E.
  apply occurs_app in Ho as [Ho _], Ho' as [Ho' _]. by eapply occurs_unique.
Qed.
Lemma rd_readCString q :
  0 ≤ q ≤ max →
  rd (readCString mem max) q
    (λ s q', no_nul s = true ∧ occurs mem q (enc_cstring s) ∧ q' = q + vsize (enc_cstring s))
    (∀ s, no_nul s = true → occurs mem q (enc_cstring s) → max < q + vsize (enc_cstring s)).
Proof.
  intros Hq. unfold rd, readCString. cbn [_position _idElem at_].
  assert (∀ s, vsize (enc_cstring s) = vsize s + 1) as Hc.
  { intros s. unfold enc_cstring. autorewrite with vsize. lia. }
  rewrite u64_small by (unfold INT_MAX in *; lia).
  destruct (memchr0_cases mem q (max - q)) as [[-> Hno]|(s & -> & Ho & Hs & Hlt)]; [lia..| |].
  - refine (rd_fail q _ _ _). intros s Hs Ho. specialize (Hno s Ho Hs). rewrite Hc. lia.
  - pose proof (vsize_nonneg s). cbn [mbind outcome_bind].
    rewrite (proj2 (Z.eqb_neq _ _)) by lia.
    pose proof Ho as Ho'. apply occurs_app in Ho' as [Ho' _].
    rewrite (proj2 (load_Ret mem q (vsize s) s)) by (split_and!; try done; lia).
    cbn [mbind outcome_bind]. exists (q + vsize (enc_cstring s)).
    rewrite Hc. split_and!; try done; try lia. rewrite u64_pos; [done|lia|].
    unfold two32, INT_MAX in *. lia.
Qed.

(** The length in front of a string, when one is there. *)
Lemma length_prefix q l n k :
  occurs mem q l → vsize l = 4 → occurs mem q (le32 n ++ k) → 0 ≤ n ≤ INT_MAX →
  i32 (le_combine l) = n.
Proof.
  intros Ho Hl Hn Hr. apply occurs_app in Hn as [Hn _].
  rewrite (occurs_unique _ _ _ _ Ho Hn) by done. by apply le32_i32.
Qed.
Lemma vsize_enc_string s : vsize (enc_string s) = vsize s + 5.
Proof. unfold enc_string. autorewrite with vsize. lia. Qed.
Lemma string_in_range q s : occurs mem q (enc_string s) → 0 ≤ q ∧ q + vsize s + 5 ≤ vsize mem.
Proof.
  intros H. apply occurs_range in H as [? H]; [rewrite vsize_enc_string in H; lia|].
  unfold enc_string. intros E%(f_equal vsize). autorewrite with vsize in E. pose proof (vsize_nonneg s). lia.
Qed.

Lemma le32_unique q n n' k k' :
  occurs mem q (le32 n ++ k) → occurs mem q (le32 n' ++ k') →
  0 ≤ n ≤ INT_MAX → 0 ≤ n' ≤ INT_MAX → n = n'.
Proof.
  intros Ho Ho' Hn Hn'. apply occurs_app in Ho as [Ho _].
  pose proof (length_prefix q _ n' k' Ho eq_refl Ho' Hn') as E. by rewrite le32_i32 in E.
Qed.
Lemma string_size_unique q s s' :
  occurs mem q (enc_string s) → occurs mem q (enc_string s') → vsize s = vsize s'.
Proof.
  intros Ho Ho'. pose proof (string_in_range q s Ho). pose proof (string_in_range q s' Ho').
  pose proof (vsize_nonneg s). pose proof (vsize_nonneg s').
  pose proof (le32_unique q _ _ _ _ Ho Ho'). lia.
Qed.

Lemma rd_readUTF8String q :
  0 ≤ q ≤ max →
  rd (readUTF8String mem max) q
    (λ _ q', ∃ s, occurs mem q (enc_string s) ∧ q' = q + vsize (enc_string s))
    (∀ s, occurs mem q (enc_string s) → max < q + vsize (enc_string s)).
Proof.
  intros Hq. set (F := ∀ s, _ → _).
  assert (∀ P : Prop, (∀ s, occurs mem q (enc_string s) → P → max < q + vsize (enc_string s)) → P → F) as HF.
  { unfold F. naive_solver. }
  change (rd (vbind (readInt mem max id) (λ sz, vbind (require mem (0 <? sz) id) (λ _,
    vbind (skipOrFail mem max (sz - 1) id) (λ _, vbind (readByte mem max id) (λ c,
    require mem (schar c =? 0) id))))) q (λ _ q', ∃ s, occurs mem q (enc_string s) ∧ q' = q + vsize (enc_string s)) F).
  eapply rd_bind; [by apply rd_readInt| |].
  { apply HF. intros s Ho. rewrite vsize_enc_string. pose proof (vsize_nonneg s). lia. }
  intros z q1 Hq1 (-> & l & Hol & Hl & Hz).
  assert (∀ s, occurs mem q (enc_string s) → z = vsize s + 1) as Hlen.
  { intros s Ho. rewrite Hz. apply string_in_range in Ho as Hr. pose proof (vsize_nonneg s).
    eapply length_prefix; [done..|]. lia. }
  eapply rd_bind; [apply rd_require with (S := λ _ q', q' = q + 4 ∧ 0 < z); [lia|..]| |].
  { intros ?%Z.ltb_lt. done. }
  { intros H. exact H. }
  { intros ?%Z.ltb_ge. apply (HF (z ≤ 0)); [|done]. intros s Ho. rewrite (Hlen s Ho).
    pose proof (vsize_nonneg s). lia. }
  intros _ q2 _ [-> Hz0]. pose proof (i32_range (le_combine l)) as Hzr. rewrite <- Hz in Hzr.
  eapply rd_bind; [apply rd_skip; [lia|unfold two32, INT_MAX in *; lia]| |].
  { apply HF. intros s Ho. rewrite vsize_enc_string, (Hlen s Ho). lia. }
  intros _ q3 _ [-> Hlt]. eapply rd_bind; [apply rd_readByte; lia|lia|].
  intros c q4 Hq4 [-> Hc]. apply rd_require; [lia|..].
  - intros ->%Z.eqb_eq%schar_0.
    destruct (load_in_range mem (q + 4) (z - 1)) as (s & _ & Hs & Hsz); [lia..|].
    exists s. rewrite vsize_enc_string. split; [|lia].
    unfold enc_string. rewrite !occurs_app, vsize_le32. split_and!; [|done|by rewrite Hsz].
    rewrite <- (i32_le32 l (vsize s + 1)); [done|done|lia|lia].
  - intros Hne%Z.eqb_neq s Ho. exfalso. apply Hne, schar_0.
    unfold enc_string in Ho. rewrite !occurs_app, vsize_le32 in Ho. destruct Ho as (Hle & Hs & H0).
    assert (z = vsize s + 1) as Hz1 by (apply Hlen; unfold enc_string; by rewrite !occurs_app, vsize_le32).
    replace (q + 4 + (z - 1)) with (q + 4 + vsize s) in Hc by lia.
    pose proof (occurs_unique _ _ _ _ Hc H0 eq_refl). by simplify_eq.
Qed.

(** *** Values *)
Definition leaf (v : value) : Prop :=
  match v with
  | VObject _ _ | VCodeWScope _ _ => False
  | _ => True
  end.
Lemma leaf_any_depth v d d' : leaf v → wf_value ver md d v = wf_value ver md d' v.
Proof. by destruct v. Qed.
(** The next state and position after the type [t] and the name. *)
Definition value_read (t q : Z) (st : ValidationState) (q' : Z) : Prop :=
  match st with
  | WithinObj => ∃ v, leaf v ∧ type_of v = t ∧ wf_value ver md 0 v = true
                      ∧ occurs mem q (enc_value v) ∧ q' = q + vsize (enc_value v)
  | BeginObj => t ∈ [BSONType.Object; BSONType.Array] ∧ q' = q
  | BeginCodeWScope => t = BSONType.CodeWScope ∧ q' = q
  | _ => False
  end.
(** There is no well-formed value of type [t] with a byte after it. *)
Definition no_value (t q : Z) : Prop :=
  ∀ d v, wf_value ver md d v = true → type_of v = t → occurs mem q (enc_value v) →
         max ≤ q + vsize (enc_value v).

(** The constructor is determined by the type. *)
Definition shape (t : Z) (v : value) : Prop :=
  match v with
  | VFixed _ pl => fixed_size ver t = Some (vsize pl)
                   ∧ (t = BSONType.Bool → pl = [x00] ∨ pl = [x01])
  | VString _ _ => t ∈ [BSONType.Code; BSONType.Symbol; BSONType.String]
  | VBinData _ _ => t = BSONType.BinData
  | VRegEx pat opt => t = BSONType.RegEx ∧ no_nul pat = true ∧ no_nul opt = true
  | VDBRef _ oid => t = BSONType.DBRef ∧ vsize oid = kOIDSize
  | VObject _ _ => t ∈ [BSONType.Object; BSONType.Array]
  | VCodeWScope _ _ => t = BSONType.CodeWScope
  end.
Lemma wf_shape d v : wf_value ver md d v = true → shape (type_of v) v.
Proof.
  destruct v; simpl; intros Hw; try done.
  - apply andb_true_iff in Hw as [Hw Hb]. apply bool_decide_eq_true in Hw. split; [done|].
    intros ->. rewrite bool_decide_eq_true_2, orb_true_iff, !bool_decide_eq_true in Hb by done. done.
  - by apply bool_decide_eq_true in Hw.
  - by apply andb_true_iff in Hw.
  - by apply Z.eqb_eq in Hw.
  - rewrite !andb_true_iff, bool_decide_eq_true in Hw. tauto.
Qed.
Lemma no_value_intro t q :
  (∀ v, shape t v → type_of v = t → occurs mem q (enc_value v) → max ≤ q + vsize (enc_value v)) →
  no_value t q.
Proof. intros H d v Hw <- Ho. apply H; [by eapply wf_shape|done|done]. Qed.
(** Only one constructor fits a type. *)
Ltac refute_in H :=
  let E := fresh in pose proof (bool_decide_eq_true_2 _ H) as E; vm_compute in E; discriminate E.
Lemma shape_cases t v :
  shape t v → type_of v = t →
  (fixed_size ver t = None ∨ ∃ pl, v = VFixed t pl)
  ∧ (t ∉ [BSONType.Code; BSONType.Symbol; BSONType.String] ∨ ∃ s, v = VString t s)
  ∧ (t ≠ BSONType.BinData ∨ ∃ st dat, v = VBinData st dat)
  ∧ (t ≠ BSONType.RegEx ∨ ∃ pat opt, v = VRegEx pat opt)
  ∧ (t ≠ BSONType.DBRef ∨ ∃ ns oid, v = VDBRef ns oid).
Proof.
  assert (∀ t n, fixed_size ver t = Some n →
    t ∉ [BSONType.Code; BSONType.Symbol; BSONType.String; BSONType.BinData; BSONType.RegEx;
         BSONType.DBRef; BSONType.Object; BSONType.Array; BSONType.CodeWScope]) as Hfix.
  { intros t' n Ht Hin. apply fixed_size_types in Ht. in_cases Hin; refute_in Ht. }
  assert (∀ t, t ∈ [BSONType.Code; BSONType.Symbol; BSONType.String; BSONType.BinData; BSONType.RegEx;
         BSONType.DBRef; BSONType.Object; BSONType.Array; BSONType.CodeWScope] →
         fixed_size ver t = None) as Hfix'.
  { intros t' Hin. destruct (fixed_size ver t') eqn:E; [|done]. by destruct (Hfix _ _ E). }
  intros Hs <-. destruct v as [t pl|t str|st dat|pat opt|ns oid|t fs|code fs]; simpl in *.
  - destruct Hs as [Hs _]. apply Hfix in Hs. split_and!; [by right; eauto|left..]; set_solver.
  - split_and!; [left; apply Hfix'|by right; eauto|left..]; in_cases Hs; by (done || set_solver).
  - split_and!; [left; by apply Hfix'; set_solver|left|by right; eauto|by left..].
    intros H; refute_in H.
  - split_and!; [left; by apply Hfix'; set_solver|left|by left|by right; eauto|by left].
    intros H; refute_in H.
  - split_and!; [left; by apply Hfix'; set_solver|left|by left|by left|by right; eauto].
    intros H; refute_in H.
  - split_and!; [left; apply Hfix'|left..]; in_cases Hs;
      (done || set_solver || (intros H; refute_in H)).
  - split_and!; [left; by apply Hfix'; set_solver|left|by left..].
    intros H; refute_in H.
Qed.

Lemma rd_fixed t n q :
  0 ≤ q ≤ max → fixed_size ver t = Some n → t ≠ BSONType.Bool → 0 ≤ n < two32 →
  rd (try _ := skipOrFail mem max n id in vret WithinObj) q (value_read t q) (no_value t q).
Proof.
  intros Hq Ht Hb Hn. eapply rd_bind; [by apply rd_skip| |].
  - intros Hlt. apply no_value_intro. intros v Hs Htv _.
    destruct (shape_cases t v Hs Htv) as ([?|[pl ->]] & _); [congruence|].
    simpl in *. destruct Hs as [Hs _]. rewrite Hs in Ht. simplify_eq. lia.
  - intros _ q1 Hq1 [-> Hlt]. apply rd_ret; [lia|].
    destruct (load_in_range mem q n) as (pl & _ & Ho & Hpl); [lia..|].
    exists (VFixed t pl). simpl. rewrite Hpl. split_and!; try done.
    rewrite bool_decide_eq_true_2 by done. by rewrite bool_decide_eq_false_2.
Qed.

Lemma rd_empty t q :
  0 ≤ q ≤ max → fixed_size ver t = Some 0 → t ≠ BSONType.Bool →
  rd (vret WithinObj) q (value_read t q) (no_value t q).
Proof.
  intros Hq Ht Hb. apply rd_ret; [lia|]. exists (VFixed t []). simpl. rewrite Z.add_0_r.
  split_and!; try done.
  - rewrite bool_decide_eq_true_2 by done. by rewrite bool_decide_eq_false_2.
  - split; [lia|apply prefix_nil].
Qed.
Lemma rd_bool q :
  0 ≤ q ≤ max →
  rd (try val := readByte mem max id in
      try _ := require mem ((uchar val =? 0) || (uchar val =? 1)) id in
      vret WithinObj) q (value_read BSONType.Bool q) (no_value BSONType.Bool q).
Proof.
  intros Hq. assert (∀ v, shape BSONType.Bool v → type_of v = BSONType.Bool →
    v = VFixed BSONType.Bool [x00] ∨ v = VFixed BSONType.Bool [x01]) as Hb.
  { intros v Hs Ht. destruct (shape_cases _ v Hs Ht) as ([H|[pl ->]] & _); [done|].
    destruct Hs as [_ Hs]. destruct (Hs eq_refl) as [->| ->]; auto. }
  eapply rd_bind; [by apply rd_readByte| |].
  { intros Hlt. apply no_value_intro. intros v Hs Ht _. destruct (Hb v Hs Ht) as [->| ->]; simpl; autorewrite with vsize; lia. }
  intros c q1 Hq1 [-> Hc].
  eapply rd_bind; [apply rd_require with (S := λ _ q', q' = q + 1 ∧ (c = x00 ∨ c = x01)); [lia|..]| |].
  - rewrite orb_true_iff, !Z.eqb_eq. intros [H|H]; (split; [done|]); [left|right]; by apply uchar_inj.
  - intros H. exact H.
  - rewrite orb_false_iff, !Z.eqb_neq. intros [H0 H1]. apply no_value_intro. intros v Hs Ht Ho.
    exfalso. destruct (Hb v Hs Ht) as [->| ->]; simpl in Ho;
      pose proof (occurs_unique _ _ _ _ Hc Ho eq_refl); by simplify_eq.
  - intros _ q2 _ [-> Hcc]. apply rd_ret; [lia|].
    exists (VFixed BSONType.Bool [c]). simpl. destruct Hcc as [->| ->]; by split_and!.
Qed.
Lemma rd_string t q :
  0 ≤ q ≤ max → t ∈ [BSONType.Code; BSONType.Symbol; BSONType.String] →
  rd (try _ := readUTF8String mem max in vret WithinObj) q (value_read t q) (no_value t q).
Proof.
  intros Hq Ht. eapply rd_bind; [by apply rd_readUTF8String| |].
  - intros HF. apply no_value_intro. intros v Hs Htv Ho.
    destruct (shape_cases t v Hs Htv) as (_ & [?|[s ->]] & _); [done|]. simpl in *. specialize (HF s Ho). lia.
  - intros _ q1 Hq1 (s & Ho & ->). apply rd_ret; [lia|]. exists (VString t s). split_and!; try done.
    simpl. by apply bool_decide_eq_true_2.
Qed.
Lemma rd_dbref q :
  0 ≤ q ≤ max →
  rd (try _ := readUTF8String mem max in try _ := skipOrFail mem max kOIDSize id in vret WithinObj) q
    (value_read BSONType.DBRef q) (no_value BSONType.DBRef q).
Proof.
  intros Hq. assert (∀ v, shape BSONType.DBRef v → type_of v = BSONType.DBRef →
    ∃ ns oid, v = VDBRef ns oid ∧ vsize oid = kOIDSize) as Hd.
  { intros v Hs Ht. destruct (shape_cases _ v Hs Ht) as (_ & _ & _ & _ & [?|(ns & oid & ->)]); [done|].
    exists ns, oid. by destruct Hs. }
  eapply rd_bind; [by apply rd_readUTF8String| |].
  { intros HF. apply no_value_intro. intros v Hs Ht Ho.
    destruct (Hd v Hs Ht) as (ns & oid & -> & Hoid). simpl in *. apply occurs_app in Ho as [Ho _].
    specialize (HF ns Ho). autorewrite with vsize. rewrite Hoid. unfold kOIDSize. lia. }
  intros _ q1 Hq1 (s & Ho & ->). eapply rd_bind; [by apply rd_skip; [lia|]| |].
  - intros Hlt. apply no_value_intro. intros v Hs Ht Ho'.
    destruct (Hd v Hs Ht) as (ns & oid & -> & Hoid). simpl in *. apply occurs_app in Ho' as [Ho' _].
    pose proof (string_size_unique q s ns Ho Ho') as E.
    autorewrite with vsize. rewrite Hoid, vsize_enc_string in *. rewrite E in Hlt. lia.
  - intros _ q2 Hq2 [-> Hlt].
    destruct (load_in_range mem (q + vsize (enc_string s)) kOIDSize) as (oid & _ & Hoid & Hsz); [lia|done|lia|].
    apply rd_ret; [lia|]. exists (VDBRef s oid). simpl. rewrite occurs_app. autorewrite with vsize.
    split_and!; try done; [by apply Z.eqb_eq|lia].
Qed.
Lemma rd_regex q :
  0 ≤ q ≤ max →
  rd (try _ := readCString mem max in try _ := readCString mem max in vret WithinObj) q
    (value_read BSONType.RegEx q) (no_value BSONType.RegEx q).
Proof.
  intros Hq. assert (∀ v, shape BSONType.RegEx v → type_of v = BSONType.RegEx →
    occurs mem q (enc_value v) → ∃ pat opt, v = VRegEx pat opt ∧ no_nul pat = true ∧ no_nul opt = true
      ∧ occurs mem q (enc_cstring pat) ∧ occurs mem (q + vsize (enc_cstring pat)) (enc_cstring opt)) as Hd.
  { intros v Hs Ht Ho. destruct (shape_cases _ v Hs Ht) as (_ & _ & _ & [?|(pat & opt & ->)] & _); [done|].
    apply occurs_app in Ho as [Ho1 Ho2]. exists pat, opt. destruct Hs as (_ & ? & ?). by split_and!. }
  eapply rd_bind; [by apply rd_readCString| |].
  { intros HF. apply no_value_intro. intros v Hs Ht Ho.
    destruct (Hd v Hs Ht Ho) as (pat & opt & -> & Hp & _ & Ho1 & _). specialize (HF pat Hp Ho1).
    simpl. autorewrite with vsize. pose proof (vsize_nonneg (enc_cstring opt)). lia. }
  intros pat q1 Hq1 (Hp & Ho & ->). eapply rd_bind; [apply rd_readCString; lia| |].
  - intros HF. apply no_value_intro. intros v Hs Ht Ho'.
    destruct (Hd v Hs Ht Ho') as (pat' & opt & -> & Hp' & Hopt & Ho1 & Ho2).
    rewrite <- (cstring_unique q pat pat') in * by done. specialize (HF opt Hopt Ho2).
    simpl. autorewrite with vsize. lia.
  - intros opt q2 Hq2 (Hopt & Ho2 & ->). apply rd_ret; [lia|]. exists (VRegEx pat opt). simpl.
    rewrite occurs_app, Hp, Hopt. autorewrite with vsize. split_and!; try done. lia.
Qed.
Lemma rd_bindata q :
  0 ≤ q ≤ max →
  rd (try sz := readInt mem max id in
      try _ := require mem (negb ((sz <? 0) || (sz =? INT_MAX))) id in
      try _ := skipOrFail mem max (1 + sz) id in
      vret WithinObj) q (value_read BSONType.BinData q) (no_value BSONType.BinData q).
Proof.
  intros Hq. assert (∀ v, shape BSONType.BinData v → type_of v = BSONType.BinData →
    ∃ st dat, v = VBinData st dat ∧ vsize (enc_value v) = 5 + vsize dat) as Hd.
  { intros v Hs Ht. destruct (shape_cases _ v Hs Ht) as (_ & _ & [?|(st & dat & ->)] & _); [done|].
    exists st, dat. split; [done|]. simpl. autorewrite with vsize. lia. }
  eapply rd_bind; [by apply rd_readInt| |].
  { intros HF. apply no_value_intro. intros v Hs Ht Ho. destruct (Hd v Hs Ht) as (st & dat & -> & ->).
    pose proof (vsize_nonneg dat). lia. }
  intros z q1 Hq1 (-> & l & Hol & Hl & Hz).
  assert (∀ v, shape BSONType.BinData v → type_of v = BSONType.BinData → occurs mem q (enc_value v) →
    vsize (enc_value v) = 5 + z ∧ 0 ≤ z < INT_MAX) as Hlen.
  { intros v Hs Ht Ho. destruct (Hd v Hs Ht) as (st & dat & -> & Hsz).
    apply occurs_range in Ho as Hr; [|by intros E%(f_equal vsize); rewrite Hsz in E; pose proof (vsize_nonneg dat); rewrite vsize_nil in E; lia].
    rewrite Hsz in Hr |- *. pose proof (vsize_nonneg dat).
    assert (z = vsize dat) by (rewrite Hz; eapply length_prefix; [done..|lia]). lia. }
  eapply rd_bind; [apply rd_require with (S := λ _ q', q' = q + 4 ∧ 0 ≤ z < INT_MAX); [lia|..]| |].
  - rewrite negb_true_iff, orb_false_iff, Z.ltb_ge, Z.eqb_neq. intros [H1 H2]. split; [done|].
    pose proof (i32_range (le_combine l)). lia.
  - intros H. exact H.
  - rewrite negb_false_iff, orb_true_iff, Z.ltb_lt, Z.eqb_eq. intros H. apply no_value_intro.
    intros v Hs Ht Ho. destruct (Hlen v Hs Ht Ho). lia.
  - intros _ q2 _ [-> Hzr]. eapply rd_bind; [apply rd_skip; [lia|unfold two32, INT_MAX in *; lia]| |].
    + intros HF. apply no_value_intro. intros v Hs Ht Ho. destruct (Hlen v Hs Ht Ho). lia.
    + intros _ q3 Hq3 [-> Hlt].
      destruct (load_in_range mem (q + 4) (1 + z)) as (d & _ & Hd' & Hsz); [lia..|].
      destruct d as [|st dat]; [rewrite vsize_nil in Hsz; lia|]. rewrite vsize_cons in Hsz.
      apply rd_ret; [lia|]. exists (VBinData st dat). simpl. rewrite occurs_app. autorewrite with vsize.
      rewrite <- (i32_le32 l (vsize dat)); [|done|lia|lia]. split_and!; try done. lia.
Qed.

Lemma shape_known t v :
  shape t v → type_of v = t →
  (∃ n, fixed_size ver t = Some n)
  ∨ t ∈ [BSONType.Code; BSONType.Symbol; BSONType.String; BSONType.BinData; BSONType.RegEx;
         BSONType.DBRef; BSONType.Object; BSONType.Array; BSONType.CodeWScope].
Proof.
  intros Hs <-. destruct v; simpl in *; [left; destruct Hs; eauto|right..]; set_solver.
Qed.
Lemma object_shape t v :
  shape t v → t ∈ [BSONType.Object; BSONType.Array] →
  match v with VObject _ _ => False | _ => True end → False.
Proof.
  intros Hs Ht Hv. destruct v; simpl in *; try done; in_cases Ht;
    try done; try (destruct Hs as [Hs _]; done); try refute_in Hs.
Qed.
Lemma scope_shape v :
  shape BSONType.CodeWScope v → match v with VCodeWScope _ _ => False | _ => True end → False.
Proof.
  intros Hs Hv. destruct v; simpl in *; try done; try (destruct Hs as [Hs _]; done); try refute_in Hs.
Qed.
(** Every type of the switch, and those it does not know. *)
Lemma rd_value t q :
  0 ≤ q ≤ max →
  rd (validateElementValue mem max ver t id) q (value_read t q) (no_value t q).
Proof.
  intros Hq. unfold validateElementValue.
  case_bool_decide as Hin; [in_cases Hin; by apply rd_empty|].
  destruct (Z.eqb_spec t BSONType.jstOID); [subst; by apply rd_fixed|].
  destruct (Z.eqb_spec t BSONType.NumberInt); [subst; by apply rd_fixed|].
  destruct (Z.eqb_spec t BSONType.Bool); [subst; by apply rd_bool|].
  case_bool_decide as Hin8; [in_cases Hin8; by apply rd_fixed|].
  destruct (Z.eqb_spec t BSONType.NumberDecimal).
  { subst. case_bool_decide as Hv; [apply rd_fixed; [done| |done|done]; by clear -Hv; destruct ver|].
    split; [done|]. apply no_value_intro. intros v Hs Htv _. exfalso.
    destruct (shape_known _ _ Hs Htv) as [[m Hn]|Hn]; [|refute_in Hn].
    clear -Hv Hn. destruct ver; [by vm_compute in Hn|discriminate Hv]. }
  destruct (Z.eqb_spec t BSONType.DBRef); [subst; by apply rd_dbref|].
  destruct (Z.eqb_spec t BSONType.RegEx); [subst; by apply rd_regex|].
  case_bool_decide as Hins; [by apply rd_string|].
  destruct (Z.eqb_spec t BSONType.BinData); [subst; by apply rd_bindata|].
  destruct (Z.eqb_spec t BSONType.CodeWScope); [subst; by apply rd_ret; [lia|]|].
  case_bool_decide as Hino; [by apply rd_ret; [lia|]|].
  apply rd_fail, no_value_intro. intros v Hs Htv _. exfalso.
  destruct (shape_known _ _ Hs Htv) as [[m Hm]|Hm]; [|set_solver].
  apply fixed_size_types in Hm. set_solver.
Qed.

(** *** The rest of an object *)
(** From [q] on there are well-formed fields of an object with [d] frames
    around it and its closing NUL, and [K] holds of the position after it. *)
Definition Rest (d : Z) (K : Z → Prop) (q : Z) : Prop :=
  ∃ fs, wf_fields ver md d fs = true ∧ occurs mem q (enc_fields fs ++ [x00])
        ∧ q + vsize (enc_fields fs) + 1 ≤ max ∧ K (q + vsize (enc_fields fs) + 1).
(** A whole object, or code with its scope, with [d] frames around it. *)
Definition doc_then (d : Z) (K : Z → Prop) (q : Z) : Prop :=
  ∃ fs, d ≤ md ∧ wf_fields ver md d fs = true ∧ occurs mem q (enc_doc fs)
        ∧ q + vsize (enc_doc fs) ≤ max ∧ K (q + vsize (enc_doc fs)).
Definition scope_then (d : Z) (K : Z → Prop) (q : Z) : Prop :=
  ∃ code fs, let v := VCodeWScope code fs in
    wf_value ver md d v = true ∧ occurs mem q (enc_value v)
    ∧ q + vsize (enc_value v) ≤ max ∧ K (q + vsize (enc_value v)).

Lemma Rest_unfold d K q :
  Rest d K q ↔ (occurs mem q [x00] ∧ q + 1 ≤ max ∧ K (q + 1))
  ∨ ∃ name v, no_nul name = true ∧ wf_value ver md d v = true
      ∧ occurs mem q (enc_element name v) ∧ Rest d K (q + esize name v).
Proof.
  assert (∀ name v fs, enc_fields (FCons name v fs) ++ [x00]
    = enc_element name v ++ enc_fields fs ++ [x00]) as E.
  { intros. unfold enc_element. simpl. by rewrite <- !app_assoc. }
  split.
  - intros (fs & Hw & Ho & Hq & HK). destruct fs as [|name v fs].
    + left. simpl in *. autorewrite with vsize in *. by rewrite Z.add_0_r in *.
    + right. exists name, v. rewrite E in Ho. apply occurs_app in Ho as [Ho1 Ho2].
      simpl in Hw. rewrite !andb_true_iff in Hw. destruct Hw as [[? ?] ?].
      rewrite vsize_fields_cons in *. split_and!; [done..|]. exists fs. unfold esize.
      rewrite Z.add_assoc in *. split_and!; done.
  - intros [(Ho & Hq & HK)|(name & v & Hn & Hv & Ho & fs & Hw & Ho' & Hq & HK)].
    + exists FNil. simpl. autorewrite with vsize. rewrite Z.add_0_r. by split_and!.
    + exists (FCons name v fs). rewrite E, occurs_app, vsize_fields_cons. simpl.
      rewrite Hn, Hv, Hw. unfold esize in *. rewrite Z.add_assoc in *. by split_and!.
Qed.

Lemma leaf_size_unique t q v v' :
  shape t v → type_of v = t → shape t v' → type_of v' = t → leaf v →
  occurs mem q (enc_value v) → occurs mem q (enc_value v') →
  vsize (enc_value v) = vsize (enc_value v').
Proof.
  intros Hs Ht Hs' Ht' Hl Ho Ho'. destruct (shape_cases t v' Hs' Ht') as (H1 & H2 & H3 & H4 & H5).
  destruct v as [t0 pl|t0 str|st dat|pat opt|ns oid|t0 fs|code fs]; simpl in Ht; subst t; try done.
  - destruct Hs as [Hs _]. destruct H1 as [H1|[pl' ->]]; [congruence|]. destruct Hs' as [Hs' _].
    simpl. congruence.
  - destruct H2 as [H2|[s' ->]]; [done|]. simpl in *. rewrite !vsize_enc_string.
    by rewrite (string_size_unique q str s').
  - destruct H3 as [H3|(st' & dat' & ->)]; [done|]. simpl in *.
    apply occurs_range in Ho as Hr; [|by rewrite <- (le_split_combine (le32 _))].
    apply occurs_range in Ho' as Hr'; [|by rewrite <- (le_split_combine (le32 _))].
    autorewrite with vsize in *. pose proof (vsize_nonneg dat). pose proof (vsize_nonneg dat').
    pose proof (le32_unique q _ _ _ _ Ho Ho'). lia.
  - destruct H4 as [H4|(pat' & opt' & ->)]; [done|]. simpl in *.
    apply occurs_app in Ho as [Ho1 Ho2], Ho' as [Ho1' Ho2'].
    destruct Hs as (_ & ? & ?), Hs' as (_ & ? & ?).
    rewrite (cstring_unique q pat pat') in * by done.
    by rewrite (cstring_unique _ opt opt' Ho2 Ho2').
  - destruct H5 as [H5|(ns' & oid' & ->)]; [done|]. simpl in *. autorewrite with vsize.
    apply occurs_app in Ho as [Ho _], Ho' as [Ho' _]. destruct Hs as [_ ->], Hs' as [_ ->].
    rewrite !vsize_enc_string. by rewrite (string_size_unique q ns ns').
Qed.

(** What an element that has been read says about the rest of its object: in
    every state the continuation is equivalent to what the next state expects,
    and a complete element is well-formed. *)
Definition element_at (q : Z) (name : bytes) (v : value) : Prop :=
  no_nul name = true ∧ wf_value ver md 0 v = true ∧ occurs mem q (enc_element name v).
Definition info_read (q : Z) (r : ValidationState * bytes) (q' : Z) : Prop :=
  q < q' ∧
  match r with
  | (EndObj, _) => ∀ d K, Rest d K q ↔ K q'
  | (WithinObj, name) => (∀ d K, Rest d K q ↔ Rest d K q') ∧ ∃ v, element_at q name v
  | (BeginObj, name) =>
      (∀ d K, Rest d K q ↔ doc_then (d + 1) (Rest d K) q')
      ∧ ∀ K, doc_then 1 K q' → ∃ v, element_at q name v
  | (BeginCodeWScope, name) =>
      (∀ d K, Rest d K q ↔ scope_then d (Rest d K) q')
      ∧ ∀ K, scope_then 0 K q' → ∃ v, element_at q name v
  | _ => False
  end.

(** The element at [q], once its type byte and its name are known. *)
Lemma Rest_named d K q c name :
  occurs mem q [c] → schar c ≠ 0 → no_nul name = true → occurs mem (q + 1) (enc_cstring name) →
  let q1 := q + 1 + vsize (enc_cstring name) in
  Rest d K q ↔ ∃ v, wf_value ver md d v = true ∧ type_of v = schar c ∧ occurs mem q1 (enc_value v)
                    ∧ Rest d K (q1 + vsize (enc_value v)).
Proof.
  intros Hc Hne Hn Hname q1.
  assert (∀ v, occurs mem q (enc_element name v)
    ↔ occurs mem q [byte_of (type_of v)] ∧ occurs mem q1 (enc_value v)) as He.
  { intros v. unfold enc_element. rewrite occurs_cons, occurs_app. naive_solver. }
  assert (∀ v, esize name v = 1 + vsize (enc_cstring name) + vsize (enc_value v)) as Hs.
  { intros v. unfold esize, enc_element. autorewrite with vsize. lia. }
  rewrite Rest_unfold. split.
  - intros [(H0 & _)|(name' & v & Hn' & Hv & Ho & HR)].
    { by pose proof (occurs_unique _ _ _ _ Hc H0 eq_refl); simplify_eq. }
    assert (name' = name) as ->.
    { unfold enc_element in Ho. apply occurs_cons in Ho as [_ Ho]. apply occurs_app in Ho as [Ho _].
      by apply (cstring_unique (q + 1)). }
    exists v. apply He in Ho as [Hb Ho]. pose proof (occurs_unique _ _ _ _ Hc Hb eq_refl). simplify_eq.
    split_and!; try done.
    + symmetry. apply schar_byte_of. by apply (wf_type _ _ _ _ Hv).
    + rewrite Hs in HR. unfold q1. by replace (q + 1 + vsize (enc_cstring name) + vsize (enc_value v))
        with (q + (1 + vsize (enc_cstring name) + vsize (enc_value v))) by lia.
  - intros (v & Hv & Ht & Ho & HR). right. exists name, v. split_and!; try done.
    + apply He. split; [|done]. by rewrite Ht, byte_of_schar.
    + rewrite Hs. by replace (q + (1 + vsize (enc_cstring name) + vsize (enc_value v)))
        with (q1 + vsize (enc_value v)) by (unfold q1; lia).
Qed.

(** The closing NUL. *)
Lemma Rest_end d K q : occurs mem q [x00] → q + 1 ≤ max → Rest d K q ↔ K (q + 1).
Proof.
  intros Hc Hle. rewrite Rest_unfold. split; [|by intros; left].
  intros [(_ & _ & HK)|(name & v & _ & Hv & Ho & _)]; [done|].
  unfold enc_element in Ho. apply occurs_cons in Ho as [Ho _].
  pose proof (occurs_unique _ _ _ _ Hc Ho eq_refl) as Eb. injection Eb as Eb.
  destruct (wf_type _ _ _ _ Hv) as [Hr Hne]. apply (f_equal schar) in Eb.
  rewrite schar_byte_of in Eb by done. by destruct Hne.
Qed.
Lemma Rest_pos d K q : Rest d K q → q + 1 ≤ max.
Proof. intros (fs & _ & _ & Hle & _). pose proof (vsize_nonneg (enc_fields fs)). lia. Qed.

(** A value of type [schar c] has been read at [q1], after the name. *)
Lemma info_value q c name st q2 :
  occurs mem q [c] → schar c ≠ 0 → no_nul name = true → occurs mem (q + 1) (enc_cstring name) →
  value_read (schar c) (q + 1 + vsize (enc_cstring name)) st q2 → q < q2 → info_read q (st, name) q2.
Proof.
  intros Hc E Hn Hname Hst Hlt. split; [done|]. set (q1 := q + 1 + vsize (enc_cstring name)) in *.
  assert (∀ v, wf_value ver md 0 v = true → type_of v = schar c →
    occurs mem q1 (enc_value v) → element_at q name v) as Hel.
  { intros v Hv Ht Ho. split_and!; [done..|]. unfold enc_element. rewrite occurs_cons, occurs_app.
    by rewrite Ht, byte_of_schar. }
  pose proof (λ d K, Rest_named d K q c name Hc E Hn Hname) as HR. cbn zeta in HR. fold q1 in HR.
  destruct st; simpl in Hst; try done.
  - destruct Hst as [Ht ->]. split.
    + intros d K. rewrite HR. split.
      * intros (v & Hv & Htv & Ho & Hrest). pose proof (wf_shape d v Hv) as Hs. rewrite Htv in Hs.
        destruct v as [| | | | |t fs|]; try (exfalso; by apply (object_shape _ _ Hs Ht)).
        simpl in Hv. rewrite !andb_true_iff, Z.leb_le in Hv. destruct Hv as [[_ Hd] Hf].
        apply Rest_pos in Hrest as Hle. exists fs. split_and!; try done. unfold enc_doc. simpl in Hle. lia.
      * intros (fs & Hd & Hf & Ho & Hle & Hrest). exists (VObject (schar c) fs). split_and!; try done.
        simpl. rewrite bool_decide_eq_true_2, Hf by done. by rewrite (proj2 (Z.leb_le _ _)).
    + intros K (fs & Hd & Hf & Ho & _). exists (VObject (schar c) fs). apply Hel; try done.
      simpl. rewrite Z.add_0_l, bool_decide_eq_true_2, Hf by done. by rewrite (proj2 (Z.leb_le _ _)).
  - destruct Hst as (v & Hl & Ht & Hv & Ho & ->). split; [|eauto].
    intros d K. rewrite HR. split.
    + intros (v' & Hv' & Ht' & Ho' & Hrest). rewrite (leaf_size_unique (schar c) q1 v v'); try done.
      * rewrite <- Ht. by eapply wf_shape.
      * rewrite <- Ht'. by eapply wf_shape.
    + intros Hrest. exists v. by rewrite (leaf_any_depth v d 0).
  - destruct Hst as [Ht ->]. split.
    + intros d K. rewrite HR. split.
      * intros (v & Hv & Htv & Ho & Hrest). pose proof (wf_shape d v Hv) as Hs. rewrite Htv, Ht in Hs.
        destruct v as [| | | | | |code fs]; try (exfalso; by apply (scope_shape _ Hs)).
        apply Rest_pos in Hrest as Hle. exists code, fs. split_and!; try done. lia.
      * intros (code & fs & Hv & Ho & Hle & Hrest). by exists (VCodeWScope code fs).
    + intros K (code & fs & Hv & Ho & _). exists (VCodeWScope code fs). by apply Hel.
Qed.

Lemma rd_info q :
  0 ≤ q ≤ max →
  rd (validateElementInfo mem max ver id) q (info_read q) (∀ d K, ¬ Rest d K q).
Proof.
  intros Hq. unfold validateElementInfo. eapply rd_bind; [by apply rd_readByte| |].
  { intros Hlt d K HR. apply Rest_pos in HR. lia. }
  intros c q1 Hq1 [-> Hc]. destruct (Z.eqb_spec (schar c) BSONType.EOO) as [E|E].
  { apply rd_ret; [lia|]. split; [lia|]. intros d K. apply schar_0 in E as ->. apply Rest_end; [done|lia]. }
  eapply rd_bind; [apply rd_readCString; lia| |].
  { intros HF d K HR. pose proof HR as HR'. apply Rest_unfold in HR' as [(H0 & _)|(name & v & Hn & Hv & Ho & _)].
    { by pose proof (occurs_unique _ _ _ _ Hc H0 eq_refl); simplify_eq. }
    unfold enc_element in Ho. apply occurs_cons in Ho as [_ Ho]. apply occurs_app in Ho as [Ho _].
    specialize (HF name Hn Ho). eapply Rest_named in HR as (w & _ & _ & _ & HR); [|done..].
    apply Rest_pos in HR. pose proof (vsize_nonneg (enc_value w)). lia. }
  intros name q2 Hq2 (Hn & Hname & ->).
  assert (0 < vsize (enc_cstring name)) as Hpos.
  { unfold enc_cstring. autorewrite with vsize. pose proof (vsize_nonneg name). lia. }
  eapply rd_bind; [apply rd_value; lia| |].
  { intros HF d K HR. eapply Rest_named in HR as (v & Hv & Ht & Ho & HR); [|done..].
    specialize (HF d v Hv Ht Ho). apply Rest_pos in HR. lia. }
  intros st q3 Hq3 Hst. apply rd_ret; [lia|]. eapply info_value; try done. lia.
Qed.
End reader.
End validator.
