(* ===== verification/BsonValidateProps.v ===== *)
(** * What the BSON validator accepts

    [validateBSON] reads nothing outside of the buffer, ends, and returns OK
    exactly when the buffer starts with a well-formed document. *)
From S2P Require Import Prelude ParseNumber Bson BsonElement BsonIter BsonPrint BsonStorage BsonValidate BsonReader.
Import Validate.

(** ** Frames: the packed start position *)
Lemma land_low pos : 0 ≤ pos ≤ INT_MAX → Z.land pos (Z.lnot Frame.top_bit) = pos.
Proof.
  intros H. change (Z.lnot Frame.top_bit) with (Z.ones 31). rewrite Z.land_ones by lia.
  apply Z.mod_small. unfold INT_MAX in H. lia.
Qed.
Lemma land_top pos : 0 ≤ pos ≤ INT_MAX → Z.land pos Frame.top_bit = 0.
Proof.
  intros H. change Frame.top_bit with (Z.lnot (Z.ones 31)). rewrite <- Z.ldiff_land.
  rewrite Z.ldiff_ones_r by lia. rewrite Z.shiftr_div_pow2 by lia.
  rewrite Z.div_small; [done|]. unfold INT_MAX in H. lia.
Qed.
Lemma frame_fields b pos :
  0 ≤ pos ≤ INT_MAX →
  let f := Frame.setIsCodeWithScope b (Frame.setStartPosition pos Frame.empty) in
  Frame.startPosition f = pos ∧ Frame.isCodeWithScope f = b.
Proof.
  intros H f. unfold Frame.startPosition, Frame.isCodeWithScope.
  assert (_startPosition f = if b then Z.lor pos Frame.top_bit else pos) as ->.
  { change (_startPosition f) with
      (if b then Z.lor (Z.lor (Z.land 0 Frame.top_bit) (Z.land pos (Z.lnot Frame.top_bit))) Frame.top_bit
       else Z.land (Z.lor (Z.land 0 Frame.top_bit) (Z.land pos (Z.lnot Frame.top_bit))) (Z.lnot Frame.top_bit)).
    rewrite Z.land_0_l, Z.lor_0_l, !land_low; by rewrite ?land_low. }
  destruct b; [|by rewrite land_low, land_top].
  rewrite !Z.land_lor_distr_l, land_low, land_top by done.
  by rewrite Z.land_diag, Z.lor_0_l, Z.land_lnot_diag, Z.lor_0_r.
Qed.

Section validator.
Variables (mem : bytes) (max : Z) (ver : BSONVersion) (md : Z).
Hypothesis Hmem : vsize mem ≤ INT_MAX.
Hypothesis Hmax : 0 ≤ max ≤ vsize mem.
Hypothesis Hmd : 0 ≤ md.
Abbreviation Rest := (BsonReader.Rest mem max ver md).
Abbreviation doc_then := (BsonReader.doc_then mem max ver md).
Abbreviation scope_then := (BsonReader.scope_then mem max ver md).

Definition closes (f : ValidationObjectFrame) (q : Z) : Prop :=
  q - Frame.startPosition f = expectedSize f.

(** ** What is left to read

    For a stack of frames [F] on top of [n0] others: the bytes from [q] on
    complete every frame of [F], and [K] holds of the position after them. *)
Section accept.
Variables (n0 : Z) (K : Z → Prop).

Fixpoint After (F : list ValidationObjectFrame) (q : Z) {struct F} : Prop :=
  match F with
  | [] => K q
  | f :: G =>
      if Frame.isCodeWithScope f then
        closes f q ∧
        match G with
        | [] => K q
        | g :: H => Rest (n0 + vsize H) (λ q', closes g q' ∧ After H q') q
        end
      else Rest (n0 + vsize G) (λ q', closes f q' ∧ After G q') q
  end.
Definition Within (F : list ValidationObjectFrame) (q : Z) : Prop :=
  match F with
  | [] => K q
  | f :: G => Rest (n0 + vsize G) (λ q', closes f q' ∧ After G q') q
  end.
Lemma After_cons f G q :
  After (f :: G) q ↔ if Frame.isCodeWithScope f then closes f q ∧ Within G q else Within (f :: G) q.
Proof. by destruct G. Qed.

Definition Accept (st : ValidationState) (F : list ValidationObjectFrame) (q : Z) : Prop :=
  match st with
  | BeginObj => doc_then (n0 + vsize F) (After F) q
  | WithinObj => Within F q
  | EndObj => match F with [] => False | f :: G => closes f q ∧ After G q end
  | BeginCodeWScope => scope_then (n0 + vsize F - 1) (Within F) q
  | EndCodeWScope => match F with [] => False | f :: G => closes f q ∧ Within G q end
  | Done => K q
  end.
End accept.

Lemma Rest_ext d (K K' : Z → Prop) q : (∀ q', K q' ↔ K' q') → Rest d K q ↔ Rest d K' q.
Proof. intros H. unfold BsonReader.Rest. by setoid_rewrite H. Qed.
Lemma doc_then_ext d (K K' : Z → Prop) q : (∀ q', K q' ↔ K' q') → doc_then d K q ↔ doc_then d K' q.
Proof. intros H. unfold BsonReader.doc_then. by setoid_rewrite H. Qed.

(** A frame pushed for an object, with the size found at its start. *)
Lemma doc_then_frame d K q l f :
  0 ≤ q → q + 4 ≤ max → occurs mem q l → vsize l = 4 →
  Frame.startPosition f = q → expectedSize f = i32 (le_combine l) → d ≤ md →
  doc_then d K q ↔ Rest d (λ q', closes f q' ∧ K q') (q + 4).
Proof.
  intros Hq Hq4 Ho Hl Hs He Hd. unfold closes. rewrite Hs, He. split.
  - intros (fs & _ & Hw & Hdoc & Hle & HK). exists fs.
    assert (vsize (enc_doc fs) = vsize (enc_fields fs) + 5) as E by apply vsize_doc.
    pose proof (vsize_nonneg (enc_fields fs)).
    replace (q + 4 + vsize (enc_fields fs) + 1) with (q + vsize (enc_doc fs)) by lia.
    split_and!; try done; [by apply occurs_app in Hdoc as [_ Hdoc]|].
    rewrite (length_prefix mem q l (vsize (enc_fields fs) + 5) _ Ho Hl Hdoc) by lia. lia.
  - intros (fs & Hw & Hf & Hle & Hcl & HK). exists fs.
    assert (vsize (enc_doc fs) = vsize (enc_fields fs) + 5) as E by apply vsize_doc.
    pose proof (vsize_nonneg (enc_fields fs)).
    replace (q + 4 + vsize (enc_fields fs) + 1) with (q + vsize (enc_doc fs)) in * by lia.
    split_and!; try done. unfold enc_doc, enc_framed. apply occurs_app. split; [|done].
    rewrite <- (i32_le32 l (vsize (enc_fields fs) + 5)); [done|done|lia|lia].
Qed.
(** A frame pushed for code with a scope, after the code. *)
Lemma scope_then_frame d K q l f s :
  0 ≤ q → q + 4 ≤ max → occurs mem q l → vsize l = 4 →
  Frame.startPosition f = q → expectedSize f = i32 (le_combine l) →
  occurs mem (q + 4) (enc_string s) →
  scope_then d K q
  ↔ doc_then (d + 2) (λ q', closes f q' ∧ K q') (q + 4 + vsize (enc_string s)).
Proof.
  intros Hq Hq4 Ho Hl Hs He Hstr. unfold closes. rewrite Hs, He. split.
  - intros (code & fs & Hw & Hv & Hle & HK). simpl in Hw. rewrite andb_true_iff, Z.leb_le in Hw.
    simpl in Hv, Hle, HK. pose proof Hv as Hv'. apply occurs_app in Hv as [_ Hv]. rewrite vsize_le32 in Hv.
    apply occurs_app in Hv as [Hcode Hdoc].
    pose proof (string_size_unique mem Hmem (q + 4) s code Hstr Hcode) as E.
    assert (vsize (enc_string s) = vsize (enc_string code)) as -> by (rewrite !vsize_enc_string; lia).
    autorewrite with vsize in Hle, HK.
    pose proof (vsize_nonneg (enc_string code)). pose proof (vsize_nonneg (enc_framed (enc_fields fs))).
    exists fs. unfold enc_doc.
    replace (q + 4 + vsize (enc_string code) + vsize (enc_framed (enc_fields fs)))
      with (q + (4 + (vsize (enc_string code) + vsize (enc_framed (enc_fields fs))))) by lia.
    split_and!; try done; try tauto.
    rewrite (length_prefix mem q l _ _ Ho Hl Hv') by (autorewrite with vsize; lia).
    autorewrite with vsize. lia.
  - intros (fs & Hd & Hw & Hdoc & Hle & Hcl & HK). exists s, fs.
    pose proof (vsize_nonneg (enc_string s)). pose proof (vsize_nonneg (enc_doc fs)).
    set (v := VCodeWScope s fs).
    assert (vsize (enc_value v) = 4 + (vsize (enc_string s) + vsize (enc_doc fs))) as E.
    { unfold v. simpl. autorewrite with vsize. done. }
    replace (q + 4 + vsize (enc_string s) + vsize (enc_doc fs)) with (q + vsize (enc_value v)) in * by lia.
    split_and!; try done; [unfold v; simpl; by rewrite Hw, (proj2 (Z.leb_le _ _))|].
    unfold v. simpl. rewrite !occurs_app, vsize_le32. split_and!; try done.
    change (enc_framed (enc_fields fs)) with (enc_doc fs). rewrite vsize_app.
    rewrite <- (i32_le32 l); [done|done|lia|lia].
Qed.

(** ** The invariant of the loop *)
Abbreviation printable := (BsonReader.printable mem ver md).
Abbreviation element_at := (BsonReader.element_at mem ver md).
Definition pos (v : Validation) : Z := _position (buffer v).

(** Code with scope is always inside an object. *)
Fixpoint stack_ok (F : list ValidationObjectFrame) : Prop :=
  match F with
  | [] => True
  | f :: G => match G with
              | [] => Frame.isCodeWithScope f = false
              | g :: _ => Frame.isCodeWithScope f = true → Frame.isCodeWithScope g = false
              end ∧ stack_ok G
  end.
Definition top_is (b : bool) (F : list ValidationObjectFrame) : Prop :=
  match F with
  | [] => False
  | f :: _ => Frame.isCodeWithScope f = b
  end.
Definition state_ok (st : ValidationState) (F : list ValidationObjectFrame) : Prop :=
  match st with
  | BeginObj => True
  | WithinObj | EndObj | BeginCodeWScope => top_is false F
  | EndCodeWScope => top_is true F
  | Done => F = []
  end.
Definition active (st : ValidationState) (F : list ValidationObjectFrame) : Prop :=
  F ≠ [] ∨ st = BeginObj ∨ st = BeginCodeWScope.
(** While the element at [idElemStartPos] is read, the frames above the first
    one belong to it: when they are complete, so is the element. *)
Definition tracked (v : Validation) : Prop :=
  idElemStartPos v ≠ 0 →
  ∃ F top, frames v = F ++ [top] ∧ (active (state v) F ∨ state v = WithinObj)
    ∧ ∀ q', Accept 1 (λ q, q = q') (state v) F (pos v) → ∃ name w, element_at (idElemStartPos v) name w.

Record Inv (v : Validation) : Prop := {
  inv_pos : 0 ≤ pos v ≤ max;
  inv_buffer : buffer v = at_ (idElem v) (pos v);
  inv_id : printable (idElem v);
  inv_frames : Forall (λ f, 0 ≤ Frame.startPosition f ≤ pos v) (frames v);
  inv_stack : stack_ok (frames v);
  inv_state : state_ok (state v) (frames v);
  inv_tracked : tracked v;
}.

(** A step keeps what the bytes from here on have to be, for the frames above
    any part of the stack that it does not touch. *)
Definition progress (v v' : Validation) : Prop :=
  ∀ K F base, frames v = F ++ base → (base = [] ∨ top_is false base) → active (state v) F →
  ∃ F', frames v' = F' ++ base
    ∧ (F' = [] → state v' = WithinObj ∨ state v' = Done)
    ∧ (Accept (vsize base) K (state v) F (pos v) ↔ Accept (vsize base) K (state v') F' (pos v')).
Definition rejected (v : Validation) : Prop :=
  ¬ Accept 0 (λ _, True) (state v) (frames v) (pos v).
Definition measure (v : Validation) : Z := 2 * (max - pos v) + vsize (frames v).
Definition stepped (v : Validation) (r : outcome (StatusWith Validation)) : Prop :=
  match r with
  | Ret (OK v') => Inv v' ∧ measure v' < measure v ∧ progress v v'
  | Ret (Err c) => (c = InvalidBSON ∨ c = Overflow) ∧ rejected v
  | Abort l => limits mem md true l ∧ rejected v
  end.

Lemma stack_bottom F top : stack_ok (F ++ [top]) → top_is false [top].
Proof. induction F as [|f F IH]; [by intros [? _]|]. intros [_ H]. by apply IH. Qed.
Lemma tracked_step v v' :
  stack_ok (frames v) → tracked v → progress v v' → idElemStartPos v' = idElemStartPos v →
  active (state v) (removelast (frames v)) ∨ idElemStartPos v = 0 →
  state_ok (state v') (frames v') → tracked v'.
Proof.
  intros Hst Ht Hp Es Hact Hok Hne. rewrite Es in Hne |- *.
  destruct (Ht Hne) as (F & top & EF & _ & Hacc).
  destruct Hact as [Hact|]; [|done]. rewrite EF, removelast_last in Hact.
  rewrite EF in Hst. pose proof (stack_bottom _ _ Hst) as Hb.
  assert (∀ K, ∃ F', frames v' = F' ++ [top]
    ∧ (F' = [] → state v' = WithinObj ∨ state v' = Done)
    ∧ (Accept 1 K (state v) F (pos v) ↔ Accept 1 K (state v') F' (pos v'))) as Hp'.
  { intros K. apply (Hp K F [top]); auto. }
  destruct (Hp' (λ _, True)) as (F' & EF' & HF' & _). exists F', top. split_and!; [done|..].
  - destruct F' as [|f' G']; [|left; by left]. right. destruct (HF' eq_refl) as [?|Ed]; [done|].
    rewrite Ed, EF' in Hok. done.
  - intros q' Ha. destruct (Hp' (λ q, q = q')) as (F2 & E2 & _ & Hiff).
    rewrite EF' in E2. apply app_inj_tail in E2 as [<- _]. by apply (Hacc q'), Hiff.
Qed.
Lemma progress_trans v v1 v2 :
  progress v v1 → progress v1 v2 → (∃ f, frames v1 = f :: frames v) → progress v v2.
Proof.
  intros H1 H2 [f Ef] K F base EF Hb Ha.
  destruct (H1 K F base EF Hb Ha) as (F1 & E1 & _ & Hiff1).
  assert (F1 = f :: F) as ->.
  { rewrite E1, EF in Ef. change (f :: F ++ base) with ((f :: F) ++ base) in Ef. by apply app_inv_tail in Ef. }
  destruct (H2 K (f :: F) base E1 Hb) as (F2 & E2 & HF2 & Hiff2); [by left|].
  exists F2. split_and!; [done..|]. by rewrite Hiff1.
Qed.

(** ** Steps *)
Lemma at_eta b id : _idElem b = id → b = at_ id (_position b).
Proof. intros <-. by destruct b. Qed.
(** The first lines of [case WithinObj]: the element that messages name. *)
Lemma update_id v :
  Inv v → state v = WithinObj →
  ∃ v1, (if (vsize (frames v) =? 1) && negb (idElemStartPos v =? 0) then
           e ← Elem.mk mem (idElemStartPos v);
           Ret (v <| idElem := e |> <| buffer := buffer v <| _idElem := e |> |>
                  <| idElemStartPos := 0 |>)
         else Ret v) = Ret v1
    ∧ Inv v1 ∧ state v1 = state v ∧ frames v1 = frames v ∧ pos v1 = pos v
    ∧ (vsize (frames v) = 1 → idElemStartPos v1 = 0).
Proof.
  intros HI Hst. destruct (Z.eqb_spec (vsize (frames v)) 1) as [H1|H1]; cbn [andb].
  2:{ exists v. split_and!; try done. }
  destruct (Z.eqb_spec (idElemStartPos v) 0) as [H0|H0]; cbn [negb]; [by exists v|].
  destruct (inv_tracked v HI H0) as (F & top & EF & _ & Hacc).
  assert (F = []) as ->.
  { rewrite EF in H1. autorewrite with vsize in H1. destruct F; [done|].
    rewrite vsize_cons in H1. pose proof (vsize_nonneg F). lia. }
  rewrite Hst in Hacc. destruct (Hacc (pos v) eq_refl) as (name & w & Hn & Hw & Ho).
  destruct (proj1 (owp_Ret _ _) (mk_good mem ver md 0 _ _ _ Hw Ho)) as (e & -> & Hg).
  eexists. split; [done|]. destruct HI. split_and!; try done. split; try done.
  - cbn. right. by exists (idElemStartPos v), name, w.
  - intros H. by destruct H.
Qed.

Lemma printable_eoo e : printable e → ∃ b e', Elem.eoo mem e = Ret (b, e').
Proof.
  intros [->|(p & name & w & Hn & Hw & Ho & Hg)]; [by eexists _, _|].
  destruct (proj1 (wp_Ret _ _ _) (gives_eoo mem ver md 0 _ _ _ Hw Ho e Hg)) as (? & e' & ? & _). eauto.
Qed.

(** What [validateElementInfo] says is what the next state expects. *)
Lemma info_accept K F (base : list ValidationObjectFrame) q st name q' :
  top_is false F → info_read mem max ver md q (st, name) q' →
  Accept (vsize base) K WithinObj F q ↔ Accept (vsize base) K st F q'.
Proof.
  destruct F as [|f G]; [done|]. intros Ht [_ Hi]. cbn [Accept Within].
  destruct st; try done; cbn [Accept Within].
  - destruct Hi as [Hi _]. rewrite Hi. rewrite vsize_cons.
    replace (vsize base + (1 + vsize G)) with (vsize base + vsize G + 1) by lia.
    apply doc_then_ext. intros q2. rewrite After_cons, Ht. done.
  - apply Hi.
  - destruct Hi as [Hi _]. rewrite Hi, vsize_cons.
    by replace (vsize base + (1 + vsize G) - 1) with (vsize base + vsize G) by lia.
Qed.
Lemma info_element q st name q' q2 :
  info_read mem max ver md q (st, name) q' → st ≠ EndObj →
  Accept 1 (λ q, q = q2) st [] q' → ∃ w, element_at q name w.
Proof.
  intros [_ Hi] Hne. destruct st; try done; cbn [Accept]; rewrite ?vsize_nil.
  - intros H. by apply (proj2 Hi (λ q, q = q2)).
  - by destruct Hi.
  - intros H. by apply (proj2 Hi (λ q, q = q2)).
Qed.

(** After an element: the new position and state, and a new start of the id
    element or the old one. *)
Lemma element_stepped v v1 st name q' s :
  Inv v → state v = WithinObj →
  Inv v1 → state v1 = state v → frames v1 = frames v → pos v1 = pos v →
  (vsize (frames v) = 1 → idElemStartPos v1 = 0) →
  info_read mem max ver md (pos v1) (st, name) q' → pos v1 ≤ q' ≤ max →
  s = idElemStartPos v1 ∨ (s = pos v1 ∧ vsize (frames v) = 1 ∧ st ≠ EndObj) →
  stepped v (Ret (OK {| buffer := at_ (idElem v1) q'; frames := frames v1; state := st;
                        idElemStartPos := s; idElem := idElem v1 |})).
Proof.
  intros HI Hst HI1 Hst1 Hfr1 Hpos1 Hid1 Hinfo Hq' Hs. set (v3 := {| buffer := _ |}).
  pose proof (inv_state v HI) as Htop. rewrite Hst in Htop. cbn in Htop.
  assert (pos v1 < q') as Hlt by apply Hinfo.
  assert (state_ok st (frames v)) as Hok by (destruct st; try done; by destruct Hinfo).
  assert (progress v v3) as Hp.
  { intros K F base EF Hb [HF|[HF|HF]]; [|by rewrite Hst in HF..]. exists F.
    split_and!; [by rewrite <- EF, <- Hfr1|done|].
    rewrite Hst, <- Hpos1. apply (info_accept K F base _ _ name); [|exact Hinfo].
    rewrite EF in Htop. by destruct F. }
  split_and!; [|unfold measure, pos in *; cbn; rewrite Hfr1; lia|done].
  split; cbn; try done.
  - unfold pos in *. cbn. pose proof (inv_pos v HI). unfold pos in *. lia.
  - apply (inv_id v1 HI1).
  - eapply Forall_impl; [apply (inv_frames v1 HI1)|]. intros f Hf. unfold pos in *. cbn. lia.
  - apply (inv_stack v1 HI1).
  - by rewrite Hfr1.
  - destruct Hs as [->|(-> & H1 & Hne)].
    + intros Hne0. cbn in Hne0. assert (vsize (frames v) ≠ 1) as H1 by (intros H1; by apply Hne0, Hid1).
      assert (progress v1 v3) as Hp1.
      { intros K F base EF Hb HF. rewrite Hst1, Hpos1. apply Hp; [by rewrite <- Hfr1|done|by rewrite <- Hst1]. }
      eapply (tracked_step v1 v3); try done.
      * apply (inv_stack v1 HI1).
      * apply (inv_tracked v1 HI1).
      * left. left. rewrite Hfr1. destruct (frames v) as [|f [|g G]]; done.
      * cbn. by rewrite Hfr1.
    + intros Hne0. destruct (frames v) as [|top [|g G]] eqn:EF; try done;
        [|rewrite !vsize_cons in H1; pose proof (vsize_nonneg G); lia].
      exists [], top. cbn. rewrite Hfr1. split_and!; [done| |].
      * destruct st; try done; unfold active; auto; try (by destruct Hinfo).
      * intros q2 Ha. destruct (info_element _ _ _ _ _ Hinfo Hne Ha) as [w Hw]. eauto.
Qed.

Lemma withinObj_spec v : Inv v → state v = WithinObj → stepped v (withinObj mem max ver v).
Proof.
  intros HI Hst. unfold withinObj.
  destruct (update_id v HI Hst) as (v1 & -> & HI1 & Hst1 & Hfr1 & Hpos1 & Hid1).
  cbn [mbind outcome_bind]. unfold with_buffer. rewrite (inv_buffer v1 HI1).
  pose proof (rd_info mem max ver md Hmem Hmax Hmd (idElem v1) (inv_id v1 HI1) (pos v1) (inv_pos v1 HI1)) as Hr.
  pose proof (inv_state v HI) as Htop. rewrite Hst in Htop. cbn in Htop.
  assert ((∀ d K, ¬ Rest d K (pos v1)) → rejected v) as Hrej.
  { intros Hno. unfold rejected. rewrite Hst, <- Hpos1. destruct (frames v); [done|]. apply Hno. }
  unfold rd in Hr.
  destruct (validateElementInfo mem max ver (idElem v1) (at_ (idElem v1) (pos v1)))
    as [[[[st name]|c] b]|l]; cbn [mbind outcome_bind]; [|naive_solver..].
  destruct Hr as (q' & -> & Hq' & Hinfo).
  destruct (printable_eoo _ (inv_id v1 HI1)) as (noId & e' & Heoo). cbn. rewrite Heoo. cbn [mbind outcome_bind].
  destruct (bool_decide (st ≠ EndObj) && noId && (vsize (frames v) =? 1) && bool_decide (name = Obj.name__id)) eqn:E.
  - rewrite !andb_true_iff, bool_decide_eq_true, Z.eqb_eq in E.
    apply (element_stepped v v1 st name q' (pos v1)); try done. right. tauto.
  - apply (element_stepped v v1 st name q' (idElemStartPos v1)); try done. by left.
Qed.

(** *** The end of an object and of a scope *)
Lemma actualLength_spec v f :
  Inv v → f ∈ frames v → actualLength v f = pos v - Frame.startPosition f.
Proof.
  intros HI Hf. pose proof (proj1 (Forall_forall _ _) (inv_frames v HI) f Hf) as Hs.
  cbn beta in Hs.  pose proof (inv_pos v HI). unfold actualLength. fold (pos v).
  rewrite u64_small by (unfold INT_MAX in *; lia). apply i32_small. unfold INT_MIN. lia.
Qed.
Lemma error_stepped v : Inv v → rejected v → stepped v (e ← makeError mem (idElem v); Ret (Err e)).
Proof.
  intros HI Hr. pose proof (makeError_spec mem ver md Hmem Hmd (idElem v) (inv_id v HI)) as H.
  destruct (makeError mem (idElem v)); simpl in *; [subst; auto|auto].
Qed.
Lemma tracked_active v :
  tracked v → state v ≠ WithinObj →
  active (state v) (removelast (frames v)) ∨ idElemStartPos v = 0.
Proof.
  intros Ht Hst. destruct (decide (idElemStartPos v = 0)) as [|Hne]; [by right|left].
  destruct (Ht Hne) as (F & top & -> & [Ha|Ha] & _); [|done]. by rewrite removelast_last.
Qed.
(** The fields of a step that only changes the frames and the state. *)
Lemma popped v v' f rest :
  Inv v → frames v = f :: rest → state v ≠ WithinObj →
  buffer v' = buffer v → idElem v' = idElem v → idElemStartPos v' = idElemStartPos v →
  frames v' = rest → state_ok (state v') rest → progress v v' → stepped v (Ret (OK v')).
Proof.
  intros HI Ef Hst Hb Hi Hs Hf Hok Hp.
  assert (pos v' = pos v) as Epos by (unfold pos; by rewrite Hb).
  assert (state_ok (state v') (frames v')) as Hok' by (by rewrite Hf).
  assert (tracked v') as Ht.
  { eapply (tracked_step v v'); try done; [apply (inv_stack v HI)|apply (inv_tracked v HI)|].
    apply tracked_active; [apply (inv_tracked v HI)|done]. }
  destruct HI as [Hpos Hbuf Hid Hfr Hstk _ _]. rewrite Ef in Hfr, Hstk.
  split_and!; [|unfold measure; rewrite Epos, Hf, Ef, vsize_cons; lia|done].
  split; try done; rewrite ?Epos, ?Hi, ?Hb, ?Hf; try done.
  - by inversion Hfr.
  - by destruct Hstk.
Qed.

Lemma endObj_spec v : Inv v → state v = EndObj → stepped v (step mem max ver md v).
Proof.
  intros HI Hst. unfold step. rewrite Hst. pose proof (inv_state v HI) as Htop.
  rewrite Hst in Htop. destruct (frames v) as [|f rest] eqn:Ef; [done|]. cbn in Htop.
  rewrite actualLength_spec by (done || rewrite Ef; left).
  destruct (Z.eqb_spec (pos v - Frame.startPosition f) (expectedSize f)) as [Hc|Hc]; cbn [negb].
  2:{ apply error_stepped; [done|]. unfold rejected. rewrite Hst, Ef. by intros [? _]. }
  eapply (popped v _ f rest); try done; cbn [state]; [by rewrite Hst|..].
  - destruct rest as [|g G]; [done|]. cbn. by destruct (Frame.isCodeWithScope g) eqn:Eg.
  - intros K F base EF Hb [HF|[HF|HF]]; [|by rewrite Hst in HF..].
    destruct F as [|f' G]; [done|]. rewrite Ef in EF. injection EF as <- EG.
    exists G. split; [done|]. rewrite Hst. cbn [state]. unfold pos. cbn [buffer].
    destruct G as [|g G]; simpl in EG.
    + subst rest. split.
      * intros _. destruct base as [|g base]; [by right|left].
        destruct Hb as [?|Hg]; [done|]. cbn in Hg. by rewrite Hg.
      * destruct base as [|g base]; [cbn; naive_solver|].
        destruct Hb as [?|Hg]; [done|]. cbn in Hg. rewrite Hg. cbn. naive_solver.
    + subst rest. split; [done|]. cbn [Accept]. rewrite After_cons.
      destruct (Frame.isCodeWithScope g); cbn [Accept]; naive_solver.
Qed.
Lemma endCodeWScope_spec v : Inv v → state v = EndCodeWScope → stepped v (step mem max ver md v).
Proof.
  intros HI Hst. unfold step. rewrite Hst. pose proof (inv_state v HI) as Htop.
  rewrite Hst in Htop. destruct (frames v) as [|f rest] eqn:Ef; [done|]. cbn in Htop.
  rewrite actualLength_spec by (done || rewrite Ef; left).
  destruct (Z.eqb_spec (pos v - Frame.startPosition f) (expectedSize f)) as [Hc|Hc]; cbn [negb].
  2:{ apply error_stepped; [done|]. unfold rejected. rewrite Hst, Ef. by intros [? _]. }
  pose proof (inv_stack v HI) as Hstk. rewrite Ef in Hstk. destruct rest as [|g rest].
  { destruct Hstk as [Hf _]. congruence. }
  destruct Hstk as [Hg _]. specialize (Hg Htop).
  eapply (popped v _ f (g :: rest)); try done; cbn [state]; [by rewrite Hst|].
  intros K F base EF Hb [HF|[HF|HF]]; [|by rewrite Hst in HF..].
  destruct F as [|f' G]; [done|]. rewrite Ef in EF. injection EF as <- EG.
  exists G. split_and!; [done|by left|]. rewrite Hst. cbn [state Accept]. unfold pos. cbn [buffer].
  unfold closes. naive_solver.
Qed.

(** *** The start of an object and of code with a scope *)
Definition new_frame (b : bool) (q sz : Z) : ValidationObjectFrame :=
  Frame.setIsCodeWithScope b (Frame.setStartPosition (i32 q) Frame.empty) <| expectedSize := sz |>.
Lemma new_frame_spec b q sz :
  0 ≤ q ≤ INT_MAX →
  Frame.startPosition (new_frame b q sz) = q ∧ Frame.isCodeWithScope (new_frame b q sz) = b
  ∧ expectedSize (new_frame b q sz) = sz.
Proof.
  intros Hq. assert (i32 q = q) as E by (apply i32_small; unfold INT_MIN; lia).
  destruct (frame_fields b (i32 q)) as [H1 H2]; [by rewrite E|].
  unfold new_frame. rewrite E in *. split_and!; [exact H1|exact H2|done].
Qed.
Lemma pushed v v' b sz :
  Inv v → state v = BeginObj ∨ state v = BeginCodeWScope →
  (b = true → top_is false (frames v)) →
  pos v ≤ pos v' ≤ max → buffer v' = at_ (idElem v) (pos v') → idElem v' = idElem v →
  idElemStartPos v' = idElemStartPos v → frames v' = new_frame b (pos v) sz :: frames v →
  state_ok (state v') (frames v') → progress v v' → Inv v'.
Proof.
  intros HI Hst Hb Hpos Hbuf Hi Hs Hf Hok Hp. pose proof (inv_pos v HI) as Hq.
  destruct (new_frame_spec b (pos v) sz) as (E1 & E2 & _); [lia|].
  assert (tracked v') as Ht.
  { eapply (tracked_step v v'); try done; [apply (inv_stack v HI)|apply (inv_tracked v HI)|].
    apply tracked_active; [apply (inv_tracked v HI)|]. destruct Hst as [-> | ->]; done. }
  destruct HI as [_ Hbuf0 Hid Hfr Hstk _ _]. split; try done; rewrite ?Hi, ?Hf.
  - lia.
  - done.
  - done.
  - constructor; [lia|]. eapply Forall_impl; [exact Hfr|]. intros f H. cbn beta in *. lia.
  - cbn [stack_ok]. split; [|done]. destruct (frames v) as [|g G]; rewrite E2.
    + destruct b; [by destruct (Hb eq_refl)|done].
    + intros ->. by apply Hb.
Qed.
Lemma begin_frame_progress v v' sz l :
  Inv v → state v = BeginObj → vsize (frames v) ≤ md → pos v + 4 ≤ max →
  occurs mem (pos v) l → vsize l = 4 → sz = i32 (le_combine l) → pos v' = pos v + 4 →
  state v' = WithinObj → frames v' = new_frame false (pos v) sz :: frames v → progress v v'.
Proof.
  intros HI Hst Hd H4 Ho Hl Hsz Hpos' Hst' Hf K F base EF Hb _.
  exists (new_frame false (pos v) sz :: F). split_and!; [by rewrite Hf, EF|done|].
  pose proof (inv_pos v HI) as Hq. destruct (new_frame_spec false (pos v) sz) as (E1 & _ & E3); [lia|].
  rewrite Hst, Hst', Hpos'. cbn [Accept Within]. rewrite EF, vsize_app in Hd.
  apply (doc_then_frame _ _ _ l (new_frame false (pos v) sz)); try done; lia.
Qed.
Lemma stepped_bind v v1 r :
  progress v v1 → measure v1 < measure v → (∃ f, frames v1 = f :: frames v) → active (state v) (frames v) →
  stepped v1 r → stepped v r.
Proof.
  intros Hp Hm Hf Ha. assert (rejected v1 → rejected v) as Hr.
  { destruct Hf as [f Ef]. unfold rejected. intros Hno Hacc. apply Hno.
    destruct (Hp (λ _, True) (frames v) [] ltac:(by rewrite app_nil_r) ltac:(by left) Ha) as (F' & EF' & _ & Hiff).
    rewrite app_nil_r in EF'. rewrite EF'. by apply Hiff. }
  destruct r as [[v2|c]|l]; cbn; [|naive_solver..].
  intros (HI & Hlt & Hp2). split_and!; [done|lia|by eapply progress_trans].
Qed.

Lemma beginObj_spec v : Inv v → state v = BeginObj → stepped v (step mem max ver md v).
Proof.
  intros HI Hst. unfold step. rewrite Hst. pose proof (inv_pos v HI) as Hq.
  destruct (Z.ltb_spec md (vsize (frames v))) as [Hd|Hd].
  { split; [by right|]. unfold rejected. rewrite Hst. intros (fs & Hle & _). lia. }
  unfold with_buffer. change (buffer (push false v)) with (buffer v).
  change (idElem (push false v)) with (idElem v). rewrite (inv_buffer v HI).
  pose proof (rd_readInt mem max ver md Hmem Hmax Hmd (idElem v) (inv_id v HI) (pos v) Hq) as Hr.
  assert (max < pos v + 4 → rejected v) as Hrej.
  { intros Hlt. unfold rejected. rewrite Hst. intros (fs & _ & _ & _ & Hle & _).
    rewrite vsize_doc in Hle. pose proof (vsize_nonneg (enc_fields fs)). lia. }
  unfold rd in Hr. destruct (readInt mem max (idElem v) (at_ (idElem v) (pos v))) as [[[sz|c] b]|l];
    cbn [mbind outcome_bind]; [|naive_solver..].
  destruct Hr as (q' & -> & Hq' & -> & l & Hol & Hl & Hsz).
  set (v1 := _ <| state := WithinObj |>).
  assert (frames v1 = new_frame false (pos v) sz :: frames v) as Ef by done.
  assert (progress v v1) as Hp by (eapply begin_frame_progress; try done; lia).
  assert (Inv v1) as HI1.
  { eapply (pushed v v1 false sz); try done; [by left|].
    rewrite Ef. cbn. destruct (new_frame_spec false (pos v) sz) as (_ & -> & _); [lia|done]. }
  eapply (stepped_bind v v1); [done| |by rewrite Ef; eauto|by right; left|by apply withinObj_spec].
  unfold measure. rewrite Ef, vsize_cons. change (pos v1) with (pos v + 4). lia.
Qed.

Lemma scope_frame_progress v v' sz l str :
  Inv v → state v = BeginCodeWScope → pos v + 4 ≤ max →
  occurs mem (pos v) l → vsize l = 4 → sz = i32 (le_combine l) →
  occurs mem (pos v + 4) (enc_string str) → pos v' = pos v + 4 + vsize (enc_string str) →
  state v' = BeginObj → frames v' = new_frame true (pos v) sz :: frames v → progress v v'.
Proof.
  intros HI Hst H4 Ho Hl Hsz Hstr Hpos' Hst' Hf K F base EF Hb _.
  exists (new_frame true (pos v) sz :: F). split_and!; [by rewrite Hf, EF|done|].
  pose proof (inv_pos v HI) as Hq. destruct (new_frame_spec true (pos v) sz) as (E1 & E2 & E3); [lia|].
  rewrite Hst, Hst', Hpos'. cbn [Accept].
  rewrite (scope_then_frame _ _ _ l (new_frame true (pos v) sz) str); try done; try lia.
  rewrite vsize_cons.
  replace (vsize base + vsize F - 1 + 2) with (vsize base + (1 + vsize F)) by lia.
  apply doc_then_ext. intros q'. by rewrite After_cons, E2.
Qed.
(** Without room for the size, or without code, there is no code with scope. *)
Lemma scope_rejected v :
  state v = BeginCodeWScope →
  (∀ code, occurs mem (pos v + 4) (enc_string code) → max < pos v + 4 + vsize (enc_string code)) →
  rejected v.
Proof.
  intros Hst Hno. unfold rejected. rewrite Hst. intros (code & fs & _ & Ho & Hle & _).
  simpl in Ho, Hle. apply occurs_app in Ho as [_ Ho]. rewrite vsize_le32 in Ho.
  apply occurs_app in Ho as [Ho _]. specialize (Hno code Ho). autorewrite with vsize in Hle.
  pose proof (vsize_nonneg (enc_framed (enc_fields fs))). lia.
Qed.
Lemma beginCodeWScope_spec v :
  Inv v → state v = BeginCodeWScope → stepped v (step mem max ver md v).
Proof.
  intros HI Hst. unfold step. rewrite Hst. pose proof (inv_pos v HI) as Hq.
  pose proof (inv_state v HI) as Htop. rewrite Hst in Htop. cbn in Htop.
  unfold with_buffer. change (buffer (push true v)) with (buffer v).
  change (idElem (push true v)) with (idElem v). rewrite (inv_buffer v HI).
  pose proof (rd_readInt mem max ver md Hmem Hmax Hmd (idElem v) (inv_id v HI) (pos v) Hq) as Hr.
  assert (max < pos v + 4 → rejected v) as Hrej.
  { intros Hlt. apply scope_rejected; [done|]. intros code _. pose proof (vsize_nonneg (enc_string code)). lia. }
  unfold rd in Hr. destruct (readInt mem max (idElem v) (at_ (idElem v) (pos v))) as [[[sz|c] b]|l];
    cbn [mbind outcome_bind]; [|naive_solver..].
  destruct Hr as (q' & -> & Hq' & -> & l & Hol & Hl & Hsz). cbn [buffer set_expected].
  pose proof (rd_readUTF8String mem max ver md Hmem Hmax Hmd (idElem v) (inv_id v HI) (pos v + 4) ltac:(lia)) as Hs.
  pose proof (scope_rejected v Hst) as Hrej2. unfold rd in Hs.
  change (buffer (set_expected sz (push true v <| buffer := at_ (idElem v) (pos v + 4) |>)))
    with (at_ (idElem v) (pos v + 4)).
  destruct (readUTF8String mem max (at_ (idElem v) (pos v + 4))) as [[[[]|c] b]|l'];
    cbn [mbind outcome_bind]; [|naive_solver..].
  destruct Hs as (q2 & -> & Hq2 & str & Hstr & ->).
  set (v1 := _ <| state := BeginObj |>).
  assert (frames v1 = new_frame true (pos v) sz :: frames v) as Ef by done.
  assert (progress v v1) as Hp by (eapply scope_frame_progress; try done; lia).
  split_and!; [| |done].
  - eapply (pushed v v1 true sz); try done; [by right|].
    change (pos v1) with (pos v + 4 + vsize (enc_string str)). lia.
  - unfold measure. rewrite Ef, vsize_cons. change (pos v1) with (pos v + 4 + vsize (enc_string str)). lia.
Qed.

Lemma step_spec v : Inv v → state v ≠ Done → stepped v (step mem max ver md v).
Proof.
  intros HI Hne. destruct (state v) eqn:Hst; [by apply beginObj_spec| |by apply endObj_spec
    |by apply beginCodeWScope_spec|by apply endCodeWScope_spec|done].
  unfold step. rewrite Hst. by apply withinObj_spec.
Qed.

(** ** The loop *)
Definition verdict_of (v : Validation) (r : outcome Status) : Prop :=
  match r with
  | Ret (OK _) => Accept 0 (λ _, True) (state v) (frames v) (pos v)
  | Ret (Err c) => (c = InvalidBSON ∨ c = Overflow) ∧ rejected v
  | Abort l => limits mem md true l ∧ rejected v
  end.
Lemma measure_nonneg v : Inv v → 0 ≤ measure v.
Proof. intros HI. pose proof (inv_pos v HI). pose proof (vsize_nonneg (frames v)). unfold measure. lia. Qed.
Lemma validate_loop_spec fuel v :
  Inv v → measure v < Z.of_nat fuel → verdict_of v (validate_loop mem max ver md fuel v).
Proof.
  revert v. induction fuel as [|fuel IH]; intros v HI Hm; [pose proof (measure_nonneg v HI); lia|].
  cbn [validate_loop]. case_bool_decide as Hd; [by cbn; rewrite Hd|].
  pose proof (step_spec v HI Hd) as Hs. destruct (step mem max ver md v) as [[v'|c]|l]; [|done..].
  destruct Hs as (HI' & Hlt & Hp). cbn [mbind outcome_bind].
  assert (active (state v) (frames v)) as Ha.
  { pose proof (inv_state v HI) as Hok. unfold active.
    destruct (state v); auto; left; by destruct (frames v). }
  destruct (Hp (λ _, True) (frames v) [] ltac:(by rewrite app_nil_r) ltac:(by left) Ha) as (F' & EF' & _ & Hiff).
  rewrite app_nil_r in EF'. subst F'. specialize (IH v' HI' ltac:(lia)).
  assert (rejected v' → rejected v) as Hr by (unfold rejected; by rewrite Hiff).
  unfold verdict_of in *. destruct (validate_loop mem max ver md fuel v') as [[[]|c]|l]; [by apply Hiff|naive_solver..].
Qed.

Lemma initial_inv : Inv initial.
Proof.
  split; try done; [cbn; lia|by left|]. intros H. by destruct H.
Qed.
Lemma iterative_spec : verdict_of initial (validateBSONIterative mem max ver md).
Proof.
  apply validate_loop_spec; [apply initial_inv|].
  change (measure initial) with (2 * (max - 0) + 0). rewrite Nat2Z.inj_add, Z2Nat.id by lia. lia.
Qed.

(** The first [max] bytes start with a well-formed document. *)
Definition holds_document : Prop :=
  ∃ fs, wf_doc ver md fs = true ∧ enc_doc fs `prefix_of` take (Z.to_nat max) mem.
Lemma occurs_take_iff l :
  occurs mem 0 l ∧ vsize l ≤ max ↔ l `prefix_of` take (Z.to_nat max) mem.
Proof.
  unfold occurs, vsize. change (drop (Z.to_nat 0) mem) with mem. split.
  - intros [[_ [k Hk]] Hl]. exists (take (Z.to_nat max - length l) k).
    rewrite Hk at 1. by rewrite take_app_ge by lia.
  - intros H. pose proof (prefix_length _ _ H) as Hl. rewrite length_take in Hl.
    split; [split; [done|]|lia]. etrans; [exact H|apply prefix_take].
Qed.
Lemma accept_initial : Accept 0 (λ _, True) BeginObj [] 0 ↔ holds_document.
Proof.
  change (Accept 0 (λ _, True) BeginObj [] 0) with (doc_then 0 (λ _, True) 0).
  unfold BsonReader.doc_then, holds_document, wf_doc. split.
  - intros (fs & Hd & Hw & Ho & Hle & _). exists fs. rewrite Hw, (proj2 (Z.leb_le _ _)) by done.
    split; [done|]. apply occurs_take_iff. split; [done|lia].
  - intros (fs & Hw & Hp). apply andb_true_iff in Hw as [Hd%Z.leb_le Hw].
    apply occurs_take_iff in Hp as [Ho Hle]. exists fs. split_and!; try done; lia.
Qed.

(** What a result says: OK when there is a document, and otherwise an error, or
    an exception from the text of the error. *)
Definition validated (r : outcome Status) : Prop :=
  match r with
  | Ret (OK _) => holds_document
  | Ret (Err c) => (c = InvalidBSON ∨ c = Overflow) ∧ ¬ holds_document
  | Abort l => limits mem md true l ∧ ¬ holds_document
  end.
Lemma validateBSON_validated : validated (validateBSON mem max ver md).
Proof.
  unfold validateBSON. destruct (Z.ltb_spec max 5).
  - split; [by left|]. intros (fs & _ & Hp). apply occurs_take_iff in Hp as [_ Hle].
    rewrite vsize_doc in Hle. pose proof (vsize_nonneg (enc_fields fs)). lia.
  - pose proof iterative_spec as H'. unfold validated, verdict_of, rejected in *.
    change (state initial) with BeginObj in H'. change (frames initial) with (@nil ValidationObjectFrame) in H'.
    change (pos initial) with 0 in H'. pose proof accept_initial as E.
    destruct (validateBSONIterative mem max ver md) as [[?|?]|?]; tauto.
Qed.
End validator.

(** C8. [validateBSON] on any buffer of less than 2 GB whose first [max] bytes
    are readable: it reads nothing outside of the buffer, its loop ends, and it
    returns OK exactly when these bytes start with a well-formed document:
    every length, type, string terminator, boolean, nested size and the depth
    as the format has them.  Otherwise the result is InvalidBSON or Overflow,
    or an exception from the printing of a validated _id, which needs a limit
    of depth above 100 or a buffer of more than 16 MB. *)
Theorem validateBSON_exact mem max ver md :
  0 ≤ max ≤ vsize mem → vsize mem ≤ INT_MAX → 0 ≤ md →
  match validateBSON mem max ver md with
  | Ret (OK _) => holds_document mem max ver md
  | Ret (Err c) => (c = InvalidBSON ∨ c = Overflow) ∧ ¬ holds_document mem max ver md
  | Abort l => (l = 16150 ∧ maxToStringRecursionDepth < md
                ∨ l = 10334 ∧ BSONObjMaxInternalSize < vsize mem)
               ∧ ¬ holds_document mem max ver md
  end.
Proof.
  intros Hmax Hmem Hmd. pose proof (validateBSON_validated mem max ver md Hmem Hmax Hmd) as H.
  unfold validated, limits in H. destruct (validateBSON mem max ver md) as [[?|?]|?]; [done..|]. naive_solver.
Qed.
(** { _id : { a : null }, b : true } with two bytes after it, and the same
    with a boolean that is neither true nor false. *)
Definition example_doc (b : byte) : fields :=
  FCons Obj.name__id (VObject BSONType.Object (FCons [x61] (VFixed BSONType.jstNULL []) FNil))
    (FCons [x62] (VFixed BSONType.Bool [b]) FNil).
Lemma validateBSON_exact_witness :
  holds_document (enc_doc (example_doc x01) ++ [x17; x2a]) 24 kV1_1 kDefaultMaxAllowableDepth
  ∧ ¬ holds_document (enc_doc (example_doc x02)) 22 kV1_1 kDefaultMaxAllowableDepth.
Proof.
  split.
  - pose proof (validateBSON_exact (enc_doc (example_doc x01) ++ [x17; x2a]) 24 kV1_1
      kDefaultMaxAllowableDepth ltac:(by vm_compute) ltac:(by vm_compute) ltac:(by vm_compute)) as H.
    assert (validateBSON (enc_doc (example_doc x01) ++ [x17; x2a]) 24 kV1_1 kDefaultMaxAllowableDepth
            = Ret (OK tt)) as E by (vm_compute; reflexivity).
    rewrite E in H. exact H.
  - pose proof (validateBSON_exact (enc_doc (example_doc x02)) 22 kV1_1
      kDefaultMaxAllowableDepth ltac:(by vm_compute) ltac:(by vm_compute) ltac:(by vm_compute)) as H.
    assert (validateBSON (enc_doc (example_doc x02)) 22 kV1_1 kDefaultMaxAllowableDepth
            = Ret (Err InvalidBSON)) as E by (vm_compute; reflexivity).
    rewrite E in H. exact (proj2 H).
Defined.

(** C32. After [validateBSON] has returned OK, the rest of the server can walk
    the document without bounds checks: it is the encoding of well-formed
    fields, [elems] visits exactly these in order, [nFields] is their number,
    [getField] returns the first one of a name or EOO, and none of them reads
    outside of the buffer or fails to end. *)
Theorem validated_document_traversal mem max ver md :
  0 ≤ max ≤ vsize mem → vsize mem ≤ INT_MAX → 0 ≤ md →
  validateBSON mem max ver md = Ret (OK tt) →
  ∃ fs, wf_doc ver md fs = true ∧ enc_doc fs `prefix_of` take (Z.to_nat max) mem
    ∧ owp (Obj.elems mem 0) (visits 4 fs)
    ∧ Obj.nFields mem 0 = Ret (Z.of_nat (nfields fs))
    ∧ ∀ name, owp (Obj.getField mem 0 name) (found name (find_field 4 name fs)).
Proof.
  intros Hmax Hmem Hmd Hok. pose proof (validateBSON_validated mem max ver md Hmem Hmax Hmd) as H.
  rewrite Hok in H. destruct H as (fs & Hw & Hp). exists fs. split_and!; [done..| | |].
  all: apply andb_true_iff in Hw as [_ Hw]; apply (occurs_take_iff mem max Hmax) in Hp as [Ho _].
  - by eapply (elems_doc mem Hmem ver md 0 0).
  - by eapply (nFields_doc mem Hmem ver md 0).
  - intros name. by eapply (getField_doc mem Hmem ver md 0 0).
Qed.
Lemma validated_document_traversal_witness :
  ∃ fs, wf_doc kV1_1 kDefaultMaxAllowableDepth fs = true
    ∧ Obj.nFields (enc_doc (example_doc x01)) 0 = Ret (Z.of_nat (nfields fs)).
Proof.
  destruct (validated_document_traversal (enc_doc (example_doc x01)) 22 kV1_1
    kDefaultMaxAllowableDepth) as (fs & Hw & _ & _ & Hn & _); [by vm_compute..|].
  exists fs. exact (conj Hw Hn).
Defined.

(** ** The text of an error can throw

    A document whose _id is nested more than 100 deep is within the default
    limit of 200; when a field after it is not valid, the error message prints
    the _id in full and [toString] throws, so that [validateBSON], which
    returns its errors as a [Status], ends with an exception. *)
Fixpoint nested (n : nat) : value :=
  match n with
  | O => VFixed BSONType.jstNULL []
  | S n => VObject BSONType.Object (FCons [x61] (nested n) FNil)
  end.
Definition after_deep_id (n : nat) (b : byte) : bytes :=
  enc_doc (FCons Obj.name__id (nested n) (FCons [x62] (VFixed BSONType.Bool [b]) FNil)).
Lemma deep_id_error_throws :
  let run m := validateBSON m (vsize m) kV1_1 kDefaultMaxAllowableDepth in
  run (after_deep_id 101 x01) = Ret (OK tt) ∧ run (after_deep_id 100 x02) = Ret (Err InvalidBSON)
  ∧ run (after_deep_id 101 x02) = Abort 16150.
Proof. split_and!; by vm_compute. Qed.
