(* ===== verification/AuthPrivilege.v ===== *)
(** * Actions, resources and privileges

    The values of access control: action types (db/auth/action_types.txt, from which
    generate_action_types.py makes the enumeration), [ActionSet] (action_set.cpp), names of databases
    and namespaces (db/namespace_string-inl.h), [ResourcePattern] (resource_pattern.h),
    [Privilege] (privilege.cpp) and [RoleName] (role_name.h, role_name.cpp).

    An action set is a bit set.  The bit [anyAction] stands for all actions: [addAction] and
    [addAllActionsFromSet] set every bit when they meet it, and removing anything clears it.
    [ActionSet.wf] says that this bit is never set alone. *)
From S2P Require Import Prelude ParseNumber.
From Stdlib Require Import String.
Open Scope string_scope.
Open Scope list_scope.
Open Scope Z_scope.

(** ** Action types *)
Module ActionType.
Definition names : list string :=
  ["addShard"; "anyAction"; "appendOplogNote"; "applicationMessage"; "auditLogRotate"; "authCheck";
    "authenticate"; "authSchemaUpgrade"; "bypassDocumentValidation"; "changeCustomData";
    "changePassword"; "changeOwnPassword"; "changeOwnCustomData"; "cleanupOrphaned";
    "closeAllDatabases"; "collMod"; "collStats"; "compact"; "connPoolStats"; "connPoolSync";
    "convertToCapped"; "cpuProfiler"; "createCollection"; "createDatabase"; "createIndex";
    "createRole"; "createUser"; "dbHash"; "dbStats"; "diagLogging"; "dropAllRolesFromDatabase";
    "dropAllUsersFromDatabase"; "dropCollection"; "dropDatabase"; "dropIndex"; "dropRole";
    "dropUser"; "emptycapped"; "enableProfiler"; "enableSharding"; "find"; "flushRouterConfig";
    "fsync"; "getCmdLineOpts"; "getLog"; "getParameter"; "getShardMap"; "getShardVersion";
    "grantRole"; "grantPrivilegesToRole"; "grantRolesToRole"; "grantRolesToUser"; "hostInfo";
    "impersonate"; "indexStats"; "inprog"; "insert"; "internal"; "invalidateUserCache";
    "killCursors"; "killop"; "listCollections"; "listDatabases"; "listIndexes"; "listShards";
    "logRotate"; "moveChunk"; "netstat"; "planCacheIndexFilter"; "planCacheRead"; "planCacheWrite";
    "reIndex"; "remove"; "removeShard"; "renameCollection"; "renameCollectionSameDB";
    "repairDatabase"; "replSetConfigure"; "replSetGetConfig"; "replSetGetStatus";
    "replSetHeartbeat"; "replSetReconfig"; "replSetStateChange"; "resync"; "revokeRole";
    "revokePrivilegesFromRole"; "revokeRolesFromRole"; "revokeRolesFromUser"; "serverStatus";
    "setParameter"; "shardCollection"; "shardingState"; "shutdown"; "splitChunk"; "splitVector";
    "storageDetails"; "top"; "touch"; "unlock"; "update"; "updateRole"; "updateUser"; "validate";
    "viewRole"; "viewUser"].
Definition NUM_ACTION_TYPES : Z := Z.of_nat (List.length names).
(** The identifier of an action is its place in the list. *)
Fixpoint place (name : string) (l : list string) (i : Z) : Z :=
  match l with
  | [] => -1
  | n :: l => if String.eqb n name then i else place name l (i + 1)
  end.
Definition ident (name : string) : Z := place name names 0.
Definition anyAction : Z := ident "anyAction".
Arguments ident : simpl never.
End ActionType.
Abbreviation act := ActionType.ident.

(** ** Sets of actions: action_set.cpp, lines 43 to 97, and action_set.h *)
Module ActionSet.
Definition ActionSet : Type := Z.
Implicit Types s o : ActionSet.
Definition width : Z := ActionType.NUM_ACTION_TYPES.
Definition empty_set : ActionSet := 0.
Definition addAllActions : ActionSet := Z.ones width.
Definition contains s (action : Z) : bool := Z.testbit s action.
Definition addAction s (action : Z) : ActionSet :=
  if action =? ActionType.anyAction then addAllActions else Z.setbit s action.
Definition addAllActionsFromSet s o : ActionSet :=
  if contains o ActionType.anyAction then addAllActions else Z.lor s o.
Definition removeAction s (action : Z) : ActionSet :=
  Z.clearbit (Z.clearbit s action) ActionType.anyAction.
Definition empty s : bool := s =? 0.
(** [~] on a bit set of this width. *)
Definition flip s : ActionSet := Z.lxor addAllActions s.
Definition removeAllActionsFromSet s o : ActionSet :=
  let s := Z.land s (flip o) in
  if negb (empty o) then Z.clearbit s ActionType.anyAction else s.
Definition isSupersetOf s o : bool := Z.land s o =? o.
(** The constructor with a list, and [operator<<] of role_graph_builtin_roles.cpp. *)
Definition addActions s (actions : list string) : ActionSet := foldl (λ s a, addAction s (act a)) s actions.
Definition of_actions (actions : list string) : ActionSet := addActions empty_set actions.

(** ** What a set of actions is *)
Record wf s : Prop := mkWf {
  wf_range : 0 ≤ s < 2 ^ width;
  wf_any : contains s ActionType.anyAction = true → s = addAllActions }.

Lemma width_val : width = 105.
Proof. by vm_compute. Qed.
Lemma any_val : ActionType.anyAction = 1.
Proof. by vm_compute. Qed.
#[local] Opaque width ActionType.anyAction.
Lemma width_pos : 0 ≤ width.
Proof. rewrite width_val. lia. Qed.
Lemma contains_all a : contains addAllActions a = (0 <=? a) && (a <? width).
Proof.
  unfold contains, addAllActions. destruct (Z.leb_spec 0 a); [|apply Z.testbit_neg_r; lia].
  destruct (Z.ltb_spec a width); [apply Z.ones_spec_low; lia|apply Z.ones_spec_high; rewrite width_val in *; lia].
Qed.
(** Within the width, a set is what it contains. *)
Lemma set_ext s o : (∀ a, 0 ≤ a → contains s a = contains o a) → s = o.
Proof. intros H. apply Z.bits_inj'. exact H. Qed.
Lemma range_bits s : 0 ≤ s < 2 ^ width ↔ ∀ a, contains s a = true → a < width.
Proof.
  split.
  - intros [H0 H1] a Ha. destruct (Z.lt_ge_cases a width) as [|Hge]; [done|]. exfalso.
    assert (Z.testbit s a = false) as E; [|unfold contains in Ha; congruence].
    destruct (decide (s = 0)) as [->|Hs]; [apply Z.bits_0|]. apply Z.bits_above_log2; [done|].
    assert (Z.log2 s < width); [|lia]. apply Z.log2_lt_pow2; lia.
  - intros Hb. assert (Z.land s (Z.ones width) = s) as E.
    { apply set_ext. intros a Ha. unfold contains. rewrite Z.land_spec. change (Z.testbit (Z.ones width) a) with (contains addAllActions a).
      rewrite contains_all. destruct (Z.testbit s a) eqn:Hs; [|done]. specialize (Hb a Hs). simpl.
      apply andb_true_intro. split; [by apply Z.leb_le|by apply Z.ltb_lt]. }
    rewrite <-E, Z.land_ones by apply width_pos. apply Z.mod_pos_bound, Z.pow_pos_nonneg; [lia|apply width_pos].
Qed.
Lemma contains_range s a : wf s → contains s a = true → 0 ≤ a < width.
Proof.
  intros [Hr _] Ha. split; [|by eapply (proj1 (range_bits s))].
  destruct (Z.lt_ge_cases a 0); [|done]. unfold contains in Ha. by rewrite Z.testbit_neg_r in Ha.
Qed.
Lemma wf_intro s :
  (∀ a, contains s a = true → a < width) → (contains s ActionType.anyAction = true → ∀ a, 0 ≤ a < width → contains s a = true) → wf s.
Proof.
  intros Hr Hany. split; [by apply range_bits|]. intros Ha. apply set_ext. intros a H0. rewrite contains_all.
  rewrite (proj2 (Z.leb_le 0 a) H0). simpl. destruct (Z.ltb_spec a width); [by apply Hany|].
  destruct (contains s a) eqn:E; [|done]. apply Hr in E. lia.
Qed.
Lemma wf_all : wf addAllActions.
Proof.
  apply wf_intro; [intros a; rewrite contains_all, andb_true_iff, Z.leb_le, Z.ltb_lt; lia|].
  intros _ b ?. rewrite contains_all. apply andb_true_intro. split; [apply Z.leb_le|apply Z.ltb_lt]; lia.
Qed.
Lemma wf_empty : wf empty_set.
Proof. apply wf_intro; [intros a|]; unfold contains, empty_set; by rewrite Z.bits_0. Qed.
Lemma contains_lor s o a : contains (Z.lor s o) a = contains s a || contains o a.
Proof. apply Z.lor_spec. Qed.
Lemma all_absorbs s : wf s → Z.lor s addAllActions = addAllActions.
Proof.
  intros Hs. apply set_ext. intros a Ha. rewrite contains_lor. destruct (contains s a) eqn:E; [|done].
  rewrite contains_all. destruct (contains_range s a Hs E). simpl. symmetry. apply andb_true_intro.
  split; [by apply Z.leb_le|by apply Z.ltb_lt].
Qed.
(** With the special case for [anyAction], adding a set is the union. *)
Lemma addAll_lor s o : wf s → wf o → addAllActionsFromSet s o = Z.lor s o.
Proof.
  intros Hs Ho. unfold addAllActionsFromSet. destruct (contains o ActionType.anyAction) eqn:E; [|done].
  rewrite (wf_any o Ho E). symmetry. by apply all_absorbs.
Qed.
Lemma contains_addAll s o a : wf s → wf o → contains (addAllActionsFromSet s o) a = contains s a || contains o a.
Proof. intros Hs Ho. by rewrite addAll_lor, contains_lor. Qed.
Lemma wf_addAll s o : wf s → wf o → wf (addAllActionsFromSet s o).
Proof.
  intros Hs Ho. pose proof (contains_addAll s o) as H. apply wf_intro; rewrite ?H by done.
  - intros a. rewrite H, orb_true_iff by done. intros [E|E]; by eapply contains_range in E as [_ ?].
  - intros Hany b Hb. rewrite H by done. apply orb_true_iff. apply orb_true_iff in Hany.
    destruct Hany as [E|E]; [left; rewrite (wf_any s Hs E)|right; rewrite (wf_any o Ho E)]; rewrite contains_all;
      apply andb_true_intro; (split; [apply Z.leb_le|apply Z.ltb_lt]); lia.
Qed.
Lemma wf_addAction s a : wf s → 0 ≤ a < width → wf (addAction s a).
Proof.
  intros Hs Ha. unfold addAction. destruct (Z.eqb_spec a ActionType.anyAction); [apply wf_all|].
  apply wf_intro; unfold contains.
  - intros b Hb. destruct (decide (b = a)) as [->|]; [lia|]. rewrite Z.setbit_neq in Hb by lia. by eapply contains_range in Hb as [_ ?].
  - intros Hany b Hb. rewrite Z.setbit_neq in Hany by lia. rewrite Z.setbit_eqb by lia. apply orb_true_iff. right.
    change (contains s b = true). rewrite (wf_any s Hs Hany), contains_all. apply andb_true_intro.
    split; [apply Z.leb_le|apply Z.ltb_lt]; lia.
Qed.
Definition known (actions : list string) : bool := forallb (λ a, 0 <=? act a) actions.
Lemma place_range name l : ∀ i, 0 ≤ i → ActionType.place name l i < i + Z.of_nat (List.length l).
Proof.
  induction l as [|n l IH]; intros i Hi; cbn [ActionType.place List.length]; [lia|]. destruct (String.eqb n name); [lia|].
  specialize (IH (i + 1)). lia.
Qed.
Lemma known_range a : 0 <=? act a = true → 0 ≤ act a < width.
Proof. intros H. apply Z.leb_le in H. split; [done|]. by apply (place_range a ActionType.names 0). Qed.
Lemma wf_addActions actions : ∀ s, wf s → known actions = true → wf (addActions s actions).
Proof.
  induction actions as [|a actions IH]; intros s Hs Hk; [done|]. unfold known in Hk. cbn [forallb] in Hk.
  apply andb_true_iff in Hk as [Ha Hk]. unfold addActions. cbn [foldl]. apply IH; [|done].
  apply wf_addAction; [done|by apply known_range].
Qed.
Lemma empty_spec s : 0 ≤ s → empty s = true ↔ ∀ a, contains s a = false.
Proof.
  intros Hs. unfold empty. rewrite Z.eqb_eq. split; [intros -> a; apply Z.bits_0|].
  intros H. apply set_ext. intros a _. rewrite H. symmetry. apply Z.bits_0.
Qed.
Lemma isSupersetOf_spec s o : isSupersetOf s o = true ↔ ∀ a, contains o a = true → contains s a = true.
Proof.
  unfold isSupersetOf. rewrite Z.eqb_eq. split.
  - intros E a Ha. unfold contains in *. rewrite <-E, Z.land_spec in Ha. by apply andb_true_iff in Ha as [? _].
  - intros H. apply set_ext. intros a _. unfold contains. rewrite Z.land_spec. destruct (Z.testbit o a) eqn:E; [|by rewrite andb_false_r].
    by rewrite (H a E : Z.testbit s a = true).
Qed.
Lemma contains_remove s o a :
  wf s → wf o → contains (removeAllActionsFromSet s o) a =
    contains s a && negb (contains o a) && negb ((a =? ActionType.anyAction) && negb (empty o)).
Proof.
  intros Hs Ho. assert (contains (Z.land s (flip o)) a = contains s a && negb (contains o a)) as E.
  { unfold contains, flip. rewrite Z.land_spec. destruct (Z.testbit s a) eqn:Ea; [|done]. simpl. rewrite Z.lxor_spec.
    change (Z.testbit addAllActions a) with (contains addAllActions a). rewrite contains_all. destruct (contains_range s a Hs Ea).
    rewrite (proj2 (Z.leb_le 0 a)), (proj2 (Z.ltb_lt a width)) by lia. simpl. by destruct (Z.testbit o a). }
  unfold removeAllActionsFromSet. destruct (empty o); simpl; rewrite ?andb_false_r; simpl; [by rewrite E, andb_true_r|].
  destruct (Z.eqb_spec a ActionType.anyAction) as [->|Hne]; simpl; rewrite ?andb_false_r, ?andb_true_r.
  - unfold contains. by rewrite Z.clearbit_eq.
  - rewrite <-E. unfold contains. by rewrite Z.clearbit_neq by done.
Qed.
Lemma wf_remove s o : wf s → wf o → wf (removeAllActionsFromSet s o).
Proof.
  intros Hs Ho. assert (0 ≤ ActionType.anyAction < width) as Hany by (rewrite width_val, any_val; lia). apply wf_intro.
  - intros a. rewrite contains_remove, !andb_true_iff by done. intros [[Ha _] _]. by eapply contains_range in Ha as [_ ?].
  - rewrite contains_remove, !andb_true_iff by done. intros [[Ha _] Hn] b Hb. rewrite contains_remove by done. rewrite Z.eqb_refl in Hn. simpl in Hn.
    rewrite negb_involutive in Hn. pose proof (proj1 (empty_spec o ltac:(destruct Ho; lia)) Hn) as He. rewrite He, Hn. simpl.
    rewrite andb_false_r. simpl. rewrite !andb_true_r, (wf_any s Hs Ha), contains_all. apply andb_true_intro.
    split; [apply Z.leb_le|apply Z.ltb_lt]; lia.
Qed.
End ActionSet.

(** ** Names: namespace_string-inl.h, lines 34 to 41, 59 to 91 and 121 to 145 *)
Module NamespaceString.
Definition dot : ascii := "."%char.
Definition nul : ascii := "000"%char.
Fixpoint find_char (c : ascii) (s : string) : bool :=
  match s with
  | EmptyString => false
  | String a s => Ascii.eqb a c || find_char c s
  end.
(** Before and after the first dot; both are empty when there is none. *)
Fixpoint split_dot (s : string) : option (string * string) :=
  match s with
  | EmptyString => None
  | String a s =>
      if Ascii.eqb a dot then Some (EmptyString, s)
      else match split_dot s with Some (d, c) => Some (String a d, c) | None => None end
  end.
Definition db (ns : string) : string := match split_dot ns with Some (d, _) => d | None => EmptyString end.
Definition coll (ns : string) : string := match split_dot ns with Some (_, c) => c | None => EmptyString end.
Definition isSystem (ns : string) : bool := String.prefix "system." (coll ns).
(** The constructor from a database and a collection throws for names it does not take. *)
Definition make (dbName collectionName : string) : outcome string :=
  _ ← check 17235 (negb (find_char dot dbName));
  _ ← check 17246 (match collectionName with String a _ => negb (Ascii.eqb a dot) | EmptyString => true end);
  let ns := (dbName ++ "." ++ collectionName)%string in
  _ ← check 17295 (negb (find_char nul ns));
  Ret ns.
Definition bad_db_char (dollar_allowed : bool) (c : ascii) : bool :=
  bool_decide (c ∈ [nul; "/"%char; "\"%char; dot; " "%char; "034"%char]) ||
  (negb dollar_allowed && Ascii.eqb c "$"%char).
Fixpoint no_bad_char (dollar_allowed : bool) (s : string) : bool :=
  match s with
  | EmptyString => true
  | String c s => negb (bad_db_char dollar_allowed c) && no_bad_char dollar_allowed s
  end.
Definition validDBName (dollar_allowed : bool) (s : string) : bool :=
  (0 <? Z.of_nat (String.length s)) && (Z.of_nat (String.length s) <? 64) && no_bad_char dollar_allowed s.
End NamespaceString.

(** ** Resource patterns: resource_pattern.h *)
Inductive MatchType :=
| matchNever | matchClusterResource | matchDatabaseName | matchCollectionName
| matchExactNamespace | matchAnyNormalResource | matchAnyResource.
#[export] Instance MatchType_eq_dec : EqDecision MatchType.
Proof. solve_decision. Defined.
Record ResourcePattern := mkPattern { _matchType : MatchType; _ns : string }.
#[export] Instance ResourcePattern_eq_dec : EqDecision ResourcePattern.
Proof. solve_decision. Defined.

Module RP.
Definition forAnyResource : ResourcePattern := mkPattern matchAnyResource EmptyString.
Definition forAnyNormalResource : ResourcePattern := mkPattern matchAnyNormalResource EmptyString.
Definition forClusterResource : ResourcePattern := mkPattern matchClusterResource EmptyString.
Definition forDatabaseName (dbName : string) : outcome ResourcePattern :=
  ns ← NamespaceString.make dbName EmptyString; Ret (mkPattern matchDatabaseName ns).
Definition forCollectionName (collectionName : string) : outcome ResourcePattern :=
  ns ← NamespaceString.make EmptyString collectionName; Ret (mkPattern matchCollectionName ns).
Definition forExactNamespace (ns : string) : ResourcePattern := mkPattern matchExactNamespace ns.
Definition isExactNamespacePattern (p : ResourcePattern) : bool := bool_decide (_matchType p = matchExactNamespace).
Definition isDatabasePattern (p : ResourcePattern) : bool := bool_decide (_matchType p = matchDatabaseName).
Definition databaseToMatch (p : ResourcePattern) : string := NamespaceString.db (_ns p).
Definition eqb (p q : ResourcePattern) : bool := bool_decide (p = q).
End RP.

(** ** Privileges: privilege.cpp *)
Record Privilege := mkPrivilege { _resource : ResourcePattern; _actions : ActionSet.ActionSet }.
Abbreviation PrivilegeVector := (list Privilege).
Module Priv.
Definition addActions (p : Privilege) (o : ActionSet.ActionSet) : Privilege :=
  mkPrivilege (_resource p) (ActionSet.addAllActionsFromSet (_actions p) o).
Definition removeActions (p : Privilege) (o : ActionSet.ActionSet) : Privilege :=
  mkPrivilege (_resource p) (ActionSet.removeAllActionsFromSet (_actions p) o).
Fixpoint addPrivilegeToPrivilegeVector (privileges : PrivilegeVector) (privilegeToAdd : Privilege) : PrivilegeVector :=
  match privileges with
  | [] => [privilegeToAdd]
  | it :: rest =>
      if RP.eqb (_resource it) (_resource privilegeToAdd) then addActions it (_actions privilegeToAdd) :: rest
      else it :: addPrivilegeToPrivilegeVector rest privilegeToAdd
  end.
Abbreviation add_all := (foldl addPrivilegeToPrivilegeVector).

(** What a vector grants: the union over all entries for the resource. *)
Definition grants1 (p : Privilege) (r : ResourcePattern) (a : Z) : bool :=
  RP.eqb (_resource p) r && ActionSet.contains (_actions p) a.
Definition grants (v : PrivilegeVector) (r : ResourcePattern) (a : Z) : bool := existsb (λ p, grants1 p r a) v.
Definition wf (v : PrivilegeVector) : Prop := Forall (λ p, ActionSet.wf (_actions p)) v.

Lemma grants1_addActions p o r a :
  ActionSet.wf (_actions p) → ActionSet.wf o →
  grants1 (addActions p o) r a = grants1 p r a || grants1 (mkPrivilege (_resource p) o) r a.
Proof. intros Hp Ho. unfold grants1. simpl. rewrite ActionSet.contains_addAll by done. by destruct (RP.eqb _ _). Qed.
Lemma grants_add v p r a : wf v → ActionSet.wf (_actions p) →
  grants (addPrivilegeToPrivilegeVector v p) r a = grants v r a || grants1 p r a.
Proof.
  intros Hv Hp. induction Hv as [|it v Hit Hv IH]; simpl; [by rewrite orb_false_r|].
  destruct (RP.eqb (_resource it) (_resource p)) eqn:E; simpl.
  - rewrite grants1_addActions by done. apply bool_decide_eq_true in E. rewrite E. destruct p as [res acts]. simpl.
    destruct (grants1 it r a), (grants1 _ r a), (grants v r a); done.
  - rewrite IH. by rewrite orb_assoc.
Qed.
Lemma wf_add v p : wf v → ActionSet.wf (_actions p) → wf (addPrivilegeToPrivilegeVector v p).
Proof.
  intros Hv Hp. induction Hv as [|it v Hit Hv IH]; simpl; [constructor; [done|constructor]|].
  destruct (RP.eqb _ _); constructor; [|done|done|done]. by apply ActionSet.wf_addAll.
Qed.
Lemma wf_add_all u : ∀ v, wf v → wf u → wf (add_all v u).
Proof.
  induction u as [|p u IH]; intros v Hv Hu; simpl; [done|]. apply Forall_cons in Hu as [Hp Hu]. apply IH; [by apply wf_add|done].
Qed.
Abbreviation resources v := (_resource <$> (v : PrivilegeVector)).
Lemma resources_add v p x : x ∈ resources (addPrivilegeToPrivilegeVector v p) ↔ x = _resource p ∨ x ∈ resources v.
Proof.
  induction v as [|it v IH]; cbn [addPrivilegeToPrivilegeVector]; [set_solver|]. unfold RP.eqb. case_bool_decide as E.
  - cbn [fmap list_fmap addActions _resource]. rewrite elem_of_cons. naive_solver.
  - cbn [fmap list_fmap]. rewrite !elem_of_cons, IH. naive_solver.
Qed.
Lemma distinct_add v p : NoDup (resources v) → NoDup (resources (addPrivilegeToPrivilegeVector v p)).
Proof.
  induction v as [|it v IH]; intros Hnd; cbn [addPrivilegeToPrivilegeVector]; [apply NoDup_singleton|].
  cbn [fmap list_fmap] in Hnd. apply NoDup_cons in Hnd as [Hn Hnd]. unfold RP.eqb. case_bool_decide as E.
  - by apply NoDup_cons.
  - cbn [fmap list_fmap]. apply NoDup_cons. split; [|by apply IH]. rewrite resources_add. naive_solver.
Qed.
Lemma distinct_add_all u : ∀ v, NoDup (resources v) → NoDup (resources (add_all v u)).
Proof. induction u as [|p u IH]; intros v Hv; simpl; [done|]. by apply IH, distinct_add. Qed.
Lemma grants_cons p v r a : grants (p :: v) r a = grants1 p r a || grants v r a.
Proof. done. Qed.
Lemma grants_absent v r a : r ∉ resources v → grants v r a = false.
Proof.
  induction v as [|it v IH]; intros Hn; [done|]. cbn [fmap list_fmap] in Hn. apply not_elem_of_cons in Hn as [Hne Hn].
  rewrite grants_cons, (IH Hn), orb_false_r. unfold grants1, RP.eqb. by rewrite bool_decide_false by congruence.
Qed.
Lemma grants_add_all u r a : ∀ v, wf v → wf u → grants (add_all v u) r a = grants v r a || grants u r a.
Proof.
  induction u as [|p u IH]; intros v Hv Hu; simpl; [by rewrite orb_false_r|]. apply Forall_cons in Hu as [Hp Hu].
  rewrite IH by (done || by apply wf_add). rewrite grants_add by done. by rewrite <-orb_assoc.
Qed.
End Priv.

(** ** Role names: role_name.h and role_name.cpp

    The code keeps "role@db" and compares the whole strings; [operator<] goes by database, then by
    role. *)
Record RoleName := mkRole { getRole : string; getDB : string }.
#[export] Instance RoleName_eq_dec : EqDecision RoleName.
Proof. solve_decision. Defined.
Definition getFullName (r : RoleName) : string := (getRole r ++ "@" ++ getDB r)%string.
Definition role_eqb (r r' : RoleName) : bool := String.eqb (getFullName r) (getFullName r').
Definition role_ltb (r r' : RoleName) : bool :=
  if String.eqb (getDB r) (getDB r') then String.ltb (getRole r) (getRole r') else String.ltb (getDB r) (getDB r').
