(* ===== verification/BuiltinRoles.v ===== *)
(** * Built-in roles

    The tables of db/auth/role_graph_builtin_roles.cpp: which role is built in, and the privileges
    each gets.  The functions that fill a vector of privileges are computations on that vector;
    a name that the constructor of a namespace does not take aborts. *)
From S2P Require Import Prelude ParseNumber AuthPrivilege.
From Stdlib Require Import String.
Open Scope string_scope.
Open Scope list_scope.
Open Scope Z_scope.
Import RP Priv.

Module Builtin.
Abbreviation PV := (M PrivilegeVector).
Definition ADMIN_DBNAME : string := "admin".
Definition BUILTIN_ROLE_READ : string := "read".
Definition BUILTIN_ROLE_READ_WRITE : string := "readWrite".
Definition BUILTIN_ROLE_USER_ADMIN : string := "userAdmin".
Definition BUILTIN_ROLE_DB_ADMIN : string := "dbAdmin".
Definition BUILTIN_ROLE_CLUSTER_ADMIN : string := "clusterAdmin".
Definition BUILTIN_ROLE_READ_ANY_DB : string := "readAnyDatabase".
Definition BUILTIN_ROLE_READ_WRITE_ANY_DB : string := "readWriteAnyDatabase".
Definition BUILTIN_ROLE_USER_ADMIN_ANY_DB : string := "userAdminAnyDatabase".
Definition BUILTIN_ROLE_DB_ADMIN_ANY_DB : string := "dbAdminAnyDatabase".
Definition BUILTIN_ROLE_ROOT : string := "root".
Definition BUILTIN_ROLE_INTERNAL : string := "__system".
Definition BUILTIN_ROLE_DB_OWNER : string := "dbOwner".
Definition BUILTIN_ROLE_CLUSTER_MONITOR : string := "clusterMonitor".
Definition BUILTIN_ROLE_HOST_MANAGEMENT : string := "hostManager".
Definition BUILTIN_ROLE_CLUSTER_MANAGEMENT : string := "clusterManager".
Definition BUILTIN_ROLE_BACKUP : string := "backup".
Definition BUILTIN_ROLE_RESTORE : string := "restore".
Definition BUILTIN_ROLE_ENABLE_SHARDING : string := "enableSharding".

(** ** Sets of actions: lines 114 to 250 *)
Definition readRoleActions : ActionSet.ActionSet := ActionSet.of_actions
  ["collStats"; "dbHash"; "dbStats"; "find"; "killCursors"; "listCollections"; "listIndexes"; "planCacheRead"].
Definition readWriteRoleActions : ActionSet.ActionSet := ActionSet.addActions
  (ActionSet.addAllActionsFromSet ActionSet.empty_set readRoleActions)
  ["convertToCapped"; "createCollection"; "dropCollection"; "dropIndex"; "emptycapped"; "createIndex"; "insert";
   "remove"; "renameCollectionSameDB"; "update"].
Definition userAdminRoleActions : ActionSet.ActionSet := ActionSet.of_actions
  ["changeCustomData"; "changePassword"; "createUser"; "createRole"; "dropUser"; "dropRole"; "grantRole";
   "revokeRole"; "viewUser"; "viewRole"].
Definition dbAdminRoleActions : ActionSet.ActionSet := ActionSet.of_actions
  ["bypassDocumentValidation"; "collMod"; "collStats"; "compact"; "convertToCapped"; "createCollection"; "dbStats";
   "dropCollection"; "dropDatabase"; "dropIndex"; "createIndex"; "enableProfiler"; "listCollections"; "listIndexes";
   "planCacheIndexFilter"; "planCacheRead"; "planCacheWrite"; "reIndex"; "renameCollectionSameDB"; "repairDatabase";
   "storageDetails"; "validate"].
Definition clusterMonitorRoleClusterActions : ActionSet.ActionSet := ActionSet.of_actions
  ["connPoolStats"; "getCmdLineOpts"; "getLog"; "getParameter"; "getShardMap"; "hostInfo"; "listDatabases";
   "listShards"; "netstat"; "replSetGetConfig"; "replSetGetStatus"; "serverStatus"; "top"; "inprog"; "shardingState"].
Definition clusterMonitorRoleDatabaseActions : ActionSet.ActionSet := ActionSet.of_actions
  ["collStats"; "dbStats"; "getShardVersion"; "indexStats"].
Definition hostManagerRoleClusterActions : ActionSet.ActionSet := ActionSet.of_actions
  ["applicationMessage"; "connPoolSync"; "cpuProfiler"; "logRotate"; "setParameter"; "shutdown"; "touch"; "unlock";
   "diagLogging"; "flushRouterConfig"; "fsync"; "invalidateUserCache"; "killop"; "resync"].
Definition hostManagerRoleDatabaseActions : ActionSet.ActionSet := ActionSet.of_actions
  ["killCursors"; "repairDatabase"].
Definition clusterManagerRoleClusterActions : ActionSet.ActionSet := ActionSet.of_actions
  ["appendOplogNote"; "applicationMessage"; "replSetConfigure"; "replSetGetConfig"; "replSetGetStatus";
   "replSetStateChange"; "resync"; "addShard"; "removeShard"; "listShards"; "flushRouterConfig"; "cleanupOrphaned"].
Definition clusterManagerRoleDatabaseActions : ActionSet.ActionSet := ActionSet.of_actions
  ["splitChunk"; "moveChunk"; "enableSharding"; "splitVector"].

(** ** The privileges of each role: lines 253 to 652 *)
Definition exact (dbName coll : string) : outcome ResourcePattern :=
  ns ← NamespaceString.make dbName coll; Ret (forExactNamespace ns).
Definition add (r : outcome ResourcePattern) (actions : ActionSet.ActionSet) : PV () :=
  rp ← reads (λ _, r);
  modify (λ privileges, addPrivilegeToPrivilegeVector privileges (mkPrivilege rp actions)).
Definition push_back (r : outcome ResourcePattern) (actions : ActionSet.ActionSet) : PV () :=
  rp ← reads (λ _, r); modify (λ privileges, privileges ++ [mkPrivilege rp actions]).
(** A privilege for one action. *)
Abbreviation one a := (ActionSet.of_actions [a]).
(** Namespaces of authorization_manager.cpp, lines 96 to 103. *)
Definition rolesCollectionNamespace : string := "admin.system.roles".
Definition usersAltCollectionNamespace : string := "admin.system.new_users".
Definition usersBackupCollectionNamespace : string := "admin.system.backup_users".
Definition usersCollectionNamespace : string := "admin.system.users".
Definition versionCollectionNamespace : string := "admin.system.version".
Definition defaultTempUsersCollectionNamespace : string := "admin.tempusers".
Definition defaultTempRolesCollectionNamespace : string := "admin.temproles".
Abbreviation exactly ns := (Ret (forExactNamespace ns)).

Definition addReadOnlyDbPrivileges (dbName : string) : PV () :=
  add (forDatabaseName dbName) readRoleActions ;;
  add (exact dbName "system.indexes") readRoleActions ;;
  add (exact dbName "system.js") readRoleActions ;;
  add (exact dbName "system.namespaces") readRoleActions.
Definition addReadWriteDbPrivileges (dbName : string) : PV () :=
  addReadOnlyDbPrivileges dbName ;;
  add (forDatabaseName dbName) readWriteRoleActions ;;
  add (exact dbName "system.js") readWriteRoleActions.
Definition addUserAdminDbPrivileges (dbName : string) : PV () :=
  push_back (forDatabaseName dbName) userAdminRoleActions.
Definition profileActions : ActionSet.ActionSet :=
  ActionSet.addActions readRoleActions ["convertToCapped"; "createCollection"; "dropCollection"].
Definition addDbAdminDbPrivileges (dbName : string) : PV () :=
  add (forDatabaseName dbName) dbAdminRoleActions ;;
  add (exact dbName "system.indexes") readRoleActions ;;
  add (exact dbName "system.namespaces") readRoleActions ;;
  add (exact dbName "system.profile") profileActions.
Definition addDbOwnerPrivileges (dbName : string) : PV () :=
  addReadWriteDbPrivileges dbName ;;
  addDbAdminDbPrivileges dbName ;;
  addUserAdminDbPrivileges dbName.
Definition addEnableShardingPrivileges : PV () :=
  add (Ret forAnyNormalResource) (one "enableSharding").
Definition addReadOnlyAnyDbPrivileges : PV () :=
  add (Ret forAnyNormalResource) readRoleActions ;;
  add (Ret forClusterResource) (one "listDatabases") ;;
  add (forCollectionName "system.indexes") readRoleActions ;;
  add (forCollectionName "system.js") readRoleActions ;;
  add (forCollectionName "system.namespaces") readRoleActions.
Definition addReadWriteAnyDbPrivileges : PV () :=
  addReadOnlyAnyDbPrivileges ;;
  add (Ret forAnyNormalResource) readWriteRoleActions ;;
  add (forCollectionName "system.js") readWriteRoleActions.
Definition readRoleAndIndexActions : ActionSet.ActionSet :=
  ActionSet.addActions (ActionSet.addAllActionsFromSet ActionSet.empty_set readRoleActions) ["createIndex"; "dropIndex"].
Definition addUserAdminAnyDbPrivileges : PV () :=
  add (Ret forAnyNormalResource) userAdminRoleActions ;;
  add (forDatabaseName "local") userAdminRoleActions ;;
  add (forDatabaseName "config") userAdminRoleActions ;;
  add (Ret forClusterResource) (one "listDatabases") ;;
  add (Ret forClusterResource) (one "authSchemaUpgrade") ;;
  add (Ret forClusterResource) (one "invalidateUserCache") ;;
  add (forCollectionName "system.users") readRoleActions ;;
  add (exactly usersCollectionNamespace) readRoleAndIndexActions ;;
  add (exactly rolesCollectionNamespace) readRoleAndIndexActions ;;
  add (exactly versionCollectionNamespace) readRoleActions ;;
  add (exactly usersAltCollectionNamespace) readRoleActions ;;
  add (exactly usersBackupCollectionNamespace) readRoleActions.
Definition addDbAdminAnyDbPrivileges : PV () :=
  add (Ret forClusterResource) (one "listDatabases") ;;
  add (Ret forAnyNormalResource) dbAdminRoleActions ;;
  add (forCollectionName "system.indexes") readRoleActions ;;
  add (forCollectionName "system.namespaces") readRoleActions ;;
  add (forCollectionName "system.profile") profileActions.
Definition addClusterMonitorPrivileges : PV () :=
  add (Ret forClusterResource) clusterMonitorRoleClusterActions ;;
  add (Ret forAnyNormalResource) clusterMonitorRoleDatabaseActions ;;
  add (forDatabaseName "config") clusterMonitorRoleDatabaseActions ;;
  add (forDatabaseName "local") clusterMonitorRoleDatabaseActions ;;
  addReadOnlyDbPrivileges "local" ;;
  addReadOnlyDbPrivileges "config" ;;
  add (exact "local" "system.replset") (one "find") ;;
  add (forCollectionName "system.profile") (one "find").
Definition addHostManagerPrivileges : PV () :=
  add (Ret forClusterResource) hostManagerRoleClusterActions ;;
  add (Ret forAnyNormalResource) hostManagerRoleDatabaseActions.
Definition writeActions : ActionSet.ActionSet := ActionSet.of_actions ["insert"; "update"; "remove"].
Definition addClusterManagerPrivileges : PV () :=
  add (Ret forClusterResource) clusterManagerRoleClusterActions ;;
  add (Ret forAnyNormalResource) clusterManagerRoleDatabaseActions ;;
  add (forDatabaseName "config") clusterManagerRoleDatabaseActions ;;
  add (forDatabaseName "local") clusterManagerRoleDatabaseActions ;;
  add (exact "local" "system.replset") readRoleActions ;;
  addReadOnlyDbPrivileges "config" ;;
  add (forDatabaseName "config") writeActions ;;
  add (forDatabaseName "local") writeActions ;;
  add (exact "$setFeatureCompatibilityVersion" "version") writeActions.
Definition addClusterAdminPrivileges : PV () :=
  addClusterMonitorPrivileges ;;
  addHostManagerPrivileges ;;
  addClusterManagerPrivileges ;;
  add (Ret forAnyNormalResource) (one "dropDatabase").
Definition addBackupPrivileges : PV () :=
  add (Ret forAnyResource) (one "collStats") ;;
  add (Ret forAnyNormalResource) (one "find") ;;
  add (Ret forAnyResource) (one "listCollections") ;;
  add (Ret forAnyResource) (one "listIndexes") ;;
  add (Ret forClusterResource) (ActionSet.of_actions ["getParameter"; "listDatabases"; "appendOplogNote"]) ;;
  add (forDatabaseName "config") (one "find") ;;
  add (forDatabaseName "local") (one "find") ;;
  add (forCollectionName "system.indexes") (one "find") ;;
  add (forCollectionName "system.namespaces") (one "find") ;;
  add (forCollectionName "system.js") (one "find") ;;
  add (forCollectionName "system.users") (one "find") ;;
  add (forCollectionName "system.profile") (one "find") ;;
  add (exactly usersAltCollectionNamespace) (one "find") ;;
  add (exactly usersBackupCollectionNamespace) (one "find") ;;
  add (exactly rolesCollectionNamespace) (one "find") ;;
  add (exactly versionCollectionNamespace) (one "find") ;;
  add (exact "config" "settings") (ActionSet.of_actions ["insert"; "update"; "find"]).
Definition restoreActions : ActionSet.ActionSet := ActionSet.of_actions
  ["bypassDocumentValidation"; "collMod"; "createCollection"; "createIndex"; "dropCollection"; "insert"].
Definition restoreActions_find : ActionSet.ActionSet := ActionSet.addActions restoreActions ["find"].
Definition restoreActions_users : ActionSet.ActionSet := ActionSet.addActions restoreActions_find ["update"; "remove"].
Definition addRestorePrivileges : PV () :=
  add (Ret forAnyNormalResource) restoreActions ;;
  add (forCollectionName "system.js") restoreActions ;;
  add (forCollectionName "system.namespaces") (one "find") ;;
  add (Ret forAnyResource) (one "listCollections") ;;
  add (forDatabaseName "config") restoreActions ;;
  add (forDatabaseName "local") restoreActions ;;
  add (Ret forAnyNormalResource) userAdminRoleActions ;;
  add (exactly defaultTempUsersCollectionNamespace) (one "find") ;;
  add (exactly defaultTempRolesCollectionNamespace) (one "find") ;;
  add (exactly usersAltCollectionNamespace) restoreActions ;;
  add (exactly usersBackupCollectionNamespace) restoreActions ;;
  add (exactly versionCollectionNamespace) restoreActions_find ;;
  add (forCollectionName "system.users") restoreActions_users ;;
  add (Ret forClusterResource) (one "getParameter") ;;
  add (exactly rolesCollectionNamespace) (one "createIndex").
Definition addRootRolePrivileges : PV () :=
  addClusterAdminPrivileges ;;
  addUserAdminAnyDbPrivileges ;;
  addDbAdminAnyDbPrivileges ;;
  addReadWriteAnyDbPrivileges ;;
  addBackupPrivileges ;;
  addRestorePrivileges ;;
  add (Ret forAnyResource) (one "validate").
Definition generateUniversalPrivileges : PV () :=
  push_back (Ret forAnyResource) ActionSet.addAllActions.
Definition addInternalRolePrivileges : PV () := generateUniversalPrivileges.

(** ** Which roles are built in: lines 656 to 778 *)
Definition addPrivilegesForBuiltinRole (roleName : RoleName) : PV bool :=
  let role := getRole roleName in
  let dbName := getDB roleName in
  let isAdminDB := String.eqb dbName ADMIN_DBNAME in
  let named name := String.eqb role name in
  let admin_is name := isAdminDB && String.eqb role name in
  let yes (m : PV ()) : PV bool := m ;; mret true in
  if named BUILTIN_ROLE_READ then yes (addReadOnlyDbPrivileges dbName)
  else if named BUILTIN_ROLE_READ_WRITE then yes (addReadWriteDbPrivileges dbName)
  else if named BUILTIN_ROLE_USER_ADMIN then yes (addUserAdminDbPrivileges dbName)
  else if named BUILTIN_ROLE_DB_ADMIN then yes (addDbAdminDbPrivileges dbName)
  else if named BUILTIN_ROLE_DB_OWNER then yes (addDbOwnerPrivileges dbName)
  else if named BUILTIN_ROLE_ENABLE_SHARDING then yes addEnableShardingPrivileges
  else if admin_is BUILTIN_ROLE_READ_ANY_DB then yes addReadOnlyAnyDbPrivileges
  else if admin_is BUILTIN_ROLE_READ_WRITE_ANY_DB then yes addReadWriteAnyDbPrivileges
  else if admin_is BUILTIN_ROLE_USER_ADMIN_ANY_DB then yes addUserAdminAnyDbPrivileges
  else if admin_is BUILTIN_ROLE_DB_ADMIN_ANY_DB then yes addDbAdminAnyDbPrivileges
  else if admin_is BUILTIN_ROLE_CLUSTER_MONITOR then yes addClusterMonitorPrivileges
  else if admin_is BUILTIN_ROLE_HOST_MANAGEMENT then yes addHostManagerPrivileges
  else if admin_is BUILTIN_ROLE_CLUSTER_MANAGEMENT then yes addClusterManagerPrivileges
  else if admin_is BUILTIN_ROLE_CLUSTER_ADMIN then yes addClusterAdminPrivileges
  else if admin_is BUILTIN_ROLE_BACKUP then yes addBackupPrivileges
  else if admin_is BUILTIN_ROLE_RESTORE then yes addRestorePrivileges
  else if admin_is BUILTIN_ROLE_ROOT then yes addRootRolePrivileges
  else if admin_is BUILTIN_ROLE_INTERNAL then yes addInternalRolePrivileges
  else mret false.
Definition database_roles : list string :=
  [BUILTIN_ROLE_READ; BUILTIN_ROLE_READ_WRITE; BUILTIN_ROLE_USER_ADMIN; BUILTIN_ROLE_DB_ADMIN; BUILTIN_ROLE_DB_OWNER;
   BUILTIN_ROLE_ENABLE_SHARDING].
Definition admin_roles : list string :=
  [BUILTIN_ROLE_READ_ANY_DB; BUILTIN_ROLE_READ_WRITE_ANY_DB; BUILTIN_ROLE_USER_ADMIN_ANY_DB;
   BUILTIN_ROLE_DB_ADMIN_ANY_DB; BUILTIN_ROLE_CLUSTER_MONITOR; BUILTIN_ROLE_HOST_MANAGEMENT;
   BUILTIN_ROLE_CLUSTER_MANAGEMENT; BUILTIN_ROLE_CLUSTER_ADMIN; BUILTIN_ROLE_BACKUP; BUILTIN_ROLE_RESTORE;
   BUILTIN_ROLE_ROOT; BUILTIN_ROLE_INTERNAL].
Definition isBuiltinRole (role : RoleName) : bool :=
  if negb (NamespaceString.validDBName true (getDB role)) || String.eqb (getDB role) "$external" then false
  else
    let isAdminDB := String.eqb (getDB role) ADMIN_DBNAME in
    existsb (String.eqb (getRole role)) database_roles ||
    (isAdminDB && existsb (String.eqb (getRole role)) admin_roles).

(** ** Filling a vector keeps what merging keeps *)
Definition merges (Q : Privilege → Prop) : Prop :=
  ∀ r s o, Q (mkPrivilege r s) → Q (mkPrivilege r o) → Q (mkPrivilege r (ActionSet.addAllActionsFromSet s o)).
Definition keeps {A} (Q : Privilege → Prop) (m : PV A) : Prop :=
  ∀ v, Forall Q v → wp m (λ _ v', Forall Q v') v.
Section keeps.
Context (Q : Privilege → Prop) (HQ : merges Q).
Lemma merged v p : Forall Q v → Q p → Forall Q (addPrivilegeToPrivilegeVector v p).
Proof.
  intros Hv Hp. induction Hv as [|[r s] v Hit Hv IH]; cbn [addPrivilegeToPrivilegeVector]; [by constructor|].
  destruct (RP.eqb _ _) eqn:E; constructor; [|done|done|done]. apply bool_decide_eq_true in E. simpl in E. subst r.
  apply HQ; [done|]. by destruct p.
Qed.
Lemma pv_keeps_bind {A B} (m : PV A) (f : A → PV B) : keeps Q m → (∀ a, keeps Q (f a)) → keeps Q (m ≫= f).
Proof. intros Hm Hf v Hv. apply wp_bind. eapply wp_mono; [|by apply Hm]. intros a v' Hv'. by apply Hf. Qed.
Lemma pv_keeps_ret {A} (a : A) : keeps Q (mret a : PV A).
Proof. by intros v Hv. Qed.
Lemma keeps_add r actions : owp r (λ rp, Q (mkPrivilege rp actions)) → keeps Q (add r actions).
Proof.
  intros Hr v Hv. unfold add. apply wp_bind, wp_reads. destruct r as [rp|]; [|done]. simpl in Hr. wp_simpl. by apply merged.
Qed.
Lemma keeps_push r actions : owp r (λ rp, Q (mkPrivilege rp actions)) → keeps Q (push_back r actions).
Proof.
  intros Hr v Hv. unfold push_back. apply wp_bind, wp_reads. destruct r as [rp|]; [|done]. simpl in Hr. wp_simpl.
  apply Forall_app. split; [done|]. by constructor.
Qed.
End keeps.

(** ** Names *)
Lemma find_char_app c s1 s2 :
  NamespaceString.find_char c (s1 ++ s2)%string = NamespaceString.find_char c s1 || NamespaceString.find_char c s2.
Proof. induction s1 as [|a s1 IH]; [done|]. simpl. by rewrite IH, orb_assoc. Qed.
Definition clean (dbName : string) : Prop :=
  NamespaceString.find_char NamespaceString.dot dbName = false ∧ NamespaceString.find_char NamespaceString.nul dbName = false.
Lemma valid_clean dollar dbName : NamespaceString.validDBName dollar dbName = true → clean dbName.
Proof.
  unfold NamespaceString.validDBName. intros [_ H]%andb_true_iff. unfold clean.
  induction dbName as [|a s IH]; [done|]. cbn [NamespaceString.no_bad_char NamespaceString.find_char] in *.
  apply andb_true_iff in H as [Ha Hs]. destruct (IH Hs) as [-> ->]. rewrite !orb_false_r. apply negb_true_iff, orb_false_iff in Ha as [Ha _].
  apply bool_decide_eq_false in Ha. split; apply Ascii.eqb_neq; intros ->; apply Ha; set_solver.
Qed.
Definition plain_coll (coll : string) : bool :=
  negb (NamespaceString.find_char NamespaceString.nul coll) &&
  match coll with String a _ => negb (Ascii.eqb a NamespaceString.dot) | EmptyString => true end.
Lemma make_ok dbName coll (P : string → Prop) :
  clean dbName → plain_coll coll = true → P (dbName ++ "." ++ coll)%string → owp (NamespaceString.make dbName coll) P.
Proof.
  intros [Hd Hn] [Hc Hf]%andb_true_iff HP. unfold NamespaceString.make. rewrite Hd. simpl. rewrite Hf. simpl.
  rewrite !find_char_app, Hn. apply negb_true_iff in Hc. rewrite Hc. by simpl.
Qed.
Lemma db_made dbName coll :
  NamespaceString.find_char NamespaceString.dot dbName = false → NamespaceString.db (dbName ++ "." ++ coll)%string = dbName.
Proof.
  unfold NamespaceString.db. intros Hd.
  assert (NamespaceString.split_dot (dbName ++ "." ++ coll)%string = Some (dbName, coll)) as ->; [|done].
  induction dbName as [|a s IH]; [done|]. cbn [NamespaceString.find_char] in Hd. apply orb_false_iff in Hd as [Ha Hs].
  simpl. unfold NamespaceString.dot in *. by rewrite Ha, (IH Hs).
Qed.
Lemma forDatabaseName_ok dbName (P : ResourcePattern → Prop) :
  clean dbName → P (mkPattern matchDatabaseName (dbName ++ "." ++ EmptyString)%string) → owp (forDatabaseName dbName) P.
Proof. intros Hc HP. unfold forDatabaseName. apply owp_bind. by apply make_ok. Qed.
Lemma exact_ok dbName coll (P : ResourcePattern → Prop) :
  clean dbName → plain_coll coll = true → P (mkPattern matchExactNamespace (dbName ++ "." ++ coll)%string) → owp (exact dbName coll) P.
Proof. intros Hc Hp HP. unfold exact. apply owp_bind. by apply make_ok. Qed.

(** ** What the tables hold *)
Definition internal : Z := act "internal".
(** Within the width, and without the two actions that are only for the server itself. *)
Definition ordinary (s : ActionSet.ActionSet) : bool :=
  (0 <=? s) && (s <? 2 ^ ActionSet.width) && negb (ActionSet.contains s internal) &&
  negb (ActionSet.contains s ActionType.anyAction).
Definition plain (p : Privilege) : Prop := ordinary (_actions p) = true.
Definition in_database (dbName : string) (r : ResourcePattern) : Prop :=
  (_matchType r = matchDatabaseName ∨ _matchType r = matchExactNamespace) ∧ databaseToMatch r = dbName.
Lemma ordinary_wf s : ordinary s = true → ActionSet.wf s.
Proof.
  unfold ordinary. rewrite !andb_true_iff, Z.leb_le, Z.ltb_lt, !negb_true_iff. intros [[[H0 H1] _] Ha]. split; [done|]. congruence.
Qed.
Lemma plain_merges : merges plain.
Proof.
  intros r s o Hs Ho. unfold plain in *. simpl in *. pose proof (ordinary_wf s Hs) as Ws. pose proof (ordinary_wf o Ho) as Wo.
  destruct (ActionSet.wf_range _ (ActionSet.wf_addAll s o Ws Wo)) as [H0 H1]. unfold ordinary in *.
  rewrite !andb_true_iff, !negb_true_iff in Hs, Ho. rewrite !ActionSet.contains_addAll by done.
  destruct Hs as [[_ ->] ->], Ho as [[_ ->] ->]. simpl. rewrite !andb_true_r. apply andb_true_intro.
  split; [by apply Z.leb_le|by apply Z.ltb_lt].
Qed.
Lemma in_database_merges dbName : merges (λ p, in_database dbName (_resource p)).
Proof. by intros r s o Hs _. Qed.

Lemma const_clean dbName :
  NamespaceString.find_char NamespaceString.dot dbName || NamespaceString.find_char NamespaceString.nul dbName = false → clean dbName.
Proof. by intros [? ?]%orb_false_iff. Qed.
Lemma collection_ok coll (P : ResourcePattern → Prop) :
  plain_coll coll = true → P (mkPattern matchCollectionName ("." ++ coll)%string) → owp (forCollectionName coll) P.
Proof. intros Hc HP. unfold forCollectionName. apply owp_bind. apply make_ok; [by apply const_clean|done|done]. Qed.
Lemma in_database_made dbName t coll :
  t = matchDatabaseName ∨ t = matchExactNamespace → clean dbName → in_database dbName (mkPattern t (dbName ++ "." ++ coll)%string).
Proof. intros Ht [Hd _]. split; [done|]. by apply db_made. Qed.
(** The entries of a table, one after the other. *)
Ltac table_entry :=
  lazymatch goal with
  | |- keeps _ (_ ≫= _) => apply pv_keeps_bind; [table_entry|intros []; table_entry]
  | |- keeps _ (mret _) => apply pv_keeps_ret
  | |- keeps _ (add _ _) => apply keeps_add; [first [assumption|apply plain_merges]|table_entry]
  | |- keeps _ (push_back _ _) => apply keeps_push; table_entry
  | |- owp (Ret _) _ => apply owp_ret; table_entry
  | |- owp (forDatabaseName _) _ => apply forDatabaseName_ok; table_entry
  | |- owp (exact _ _) _ => apply exact_ok; [table_entry|by vm_compute|table_entry]
  | |- owp (forCollectionName _) _ => apply collection_ok; [by vm_compute|table_entry]
  | |- clean _ => first [assumption|by apply const_clean; vm_compute]
  | |- plain _ => by vm_compute
  | H : ∀ t coll s, _ → _ → ?Q _ |- ?Q _ => apply H; [auto|by vm_compute]
  | |- _ => auto
  end.
Section database_tables.
Context (dbName : string) (Q : Privilege → Prop) (Hclean : clean dbName) (HQ : merges Q).
Context (Hdb : ∀ t coll s, t = matchDatabaseName ∨ t = matchExactNamespace → ordinary s = true →
  Q (mkPrivilege (mkPattern t (dbName ++ "." ++ coll)%string) s)).
Lemma keeps_readOnlyDb : keeps Q (addReadOnlyDbPrivileges dbName).
Proof. unfold addReadOnlyDbPrivileges. table_entry. Qed.
Lemma keeps_readWriteDb : keeps Q (addReadWriteDbPrivileges dbName).
Proof. unfold addReadWriteDbPrivileges. pose proof keeps_readOnlyDb. table_entry. Qed.
Lemma keeps_dbAdminDb : keeps Q (addDbAdminDbPrivileges dbName).
Proof. unfold addDbAdminDbPrivileges. table_entry. Qed.
Lemma keeps_userAdminDb : keeps Q (addUserAdminDbPrivileges dbName).
Proof. unfold addUserAdminDbPrivileges. table_entry. Qed.
Lemma keeps_dbOwner : keeps Q (addDbOwnerPrivileges dbName).
Proof.
  unfold addDbOwnerPrivileges. pose proof keeps_readWriteDb. pose proof keeps_dbAdminDb. pose proof keeps_userAdminDb. table_entry.
Qed.
End database_tables.
Lemma plain_readOnlyDb dbName : clean dbName → keeps plain (addReadOnlyDbPrivileges dbName).
Proof. intros Hc. apply keeps_readOnlyDb; [done|apply plain_merges|done]. Qed.
Lemma plain_clusterMonitor : keeps plain addClusterMonitorPrivileges.
Proof.
  pose proof (plain_readOnlyDb "local" ltac:(by apply const_clean; vm_compute)).
  pose proof (plain_readOnlyDb "config" ltac:(by apply const_clean; vm_compute)).
  unfold addClusterMonitorPrivileges. table_entry.
Qed.
Lemma plain_hostManager : keeps plain addHostManagerPrivileges.
Proof. unfold addHostManagerPrivileges. table_entry. Qed.
Lemma plain_clusterManager : keeps plain addClusterManagerPrivileges.
Proof.
  pose proof (plain_readOnlyDb "config" ltac:(by apply const_clean; vm_compute)).
  unfold addClusterManagerPrivileges. table_entry.
Qed.
Lemma plain_clusterAdmin : keeps plain addClusterAdminPrivileges.
Proof.
  pose proof plain_clusterMonitor. pose proof plain_hostManager. pose proof plain_clusterManager.
  unfold addClusterAdminPrivileges. table_entry.
Qed.
Lemma plain_userAdminAnyDb : keeps plain addUserAdminAnyDbPrivileges.
Proof. unfold addUserAdminAnyDbPrivileges. table_entry. Qed.
Lemma plain_dbAdminAnyDb : keeps plain addDbAdminAnyDbPrivileges.
Proof. unfold addDbAdminAnyDbPrivileges. table_entry. Qed.
Lemma plain_readOnlyAnyDb : keeps plain addReadOnlyAnyDbPrivileges.
Proof. unfold addReadOnlyAnyDbPrivileges. table_entry. Qed.
Lemma plain_readWriteAnyDb : keeps plain addReadWriteAnyDbPrivileges.
Proof. pose proof plain_readOnlyAnyDb. unfold addReadWriteAnyDbPrivileges. table_entry. Qed.
Lemma plain_backup : keeps plain addBackupPrivileges.
Proof. unfold addBackupPrivileges. table_entry. Qed.
Lemma plain_restore : keeps plain addRestorePrivileges.
Proof. unfold addRestorePrivileges. table_entry. Qed.
Lemma plain_root : keeps plain addRootRolePrivileges.
Proof.
  pose proof plain_clusterAdmin. pose proof plain_userAdminAnyDb. pose proof plain_dbAdminAnyDb. pose proof plain_readWriteAnyDb.
  pose proof plain_backup. pose proof plain_restore. unfold addRootRolePrivileges. table_entry.
Qed.
Lemma plain_enableSharding : keeps plain addEnableShardingPrivileges.
Proof. unfold addEnableShardingPrivileges. table_entry. Qed.

(** Roles whose privileges are all in their own database. *)
Definition own_roles : list string :=
  [BUILTIN_ROLE_READ; BUILTIN_ROLE_READ_WRITE; BUILTIN_ROLE_USER_ADMIN; BUILTIN_ROLE_DB_ADMIN; BUILTIN_ROLE_DB_OWNER].
Definition system_role : RoleName := mkRole BUILTIN_ROLE_INTERNAL ADMIN_DBNAME.
Abbreviation inside d := (λ p, in_database d (_resource p)).
Definition good_table (r : RoleName) (b : bool) (v : PrivilegeVector) : Prop :=
  b = true ∧ Priv.wf v ∧ (r ≠ system_role → Forall plain v) ∧ (getRole r ∈ own_roles → Forall (inside (getDB r)) v).
Lemma plain_wf v : Forall plain v → Priv.wf v.
Proof. intros H. eapply Forall_impl; [exact H|]. intros p Hp. by apply ordinary_wf. Qed.
Lemma wp_table r (T : PV ()) :
  keeps plain T → (getRole r ∈ own_roles → keeps (inside (getDB r)) T) → wp (T ;; mret true) (good_table r) [].
Proof.
  intros Hp Hin. wp_simpl. unfold wp. pose proof (Hp [] (Forall_nil_2 _)) as Hv. unfold wp in Hv.
  destruct (T []) as [[[] v]|] eqn:E; [|done]. split_and!; [done|by apply plain_wf|done|]. intros Hown.
  pose proof (Hin Hown [] (Forall_nil_2 _)) as H. unfold wp in H. by rewrite E in H.
Qed.
Lemma inside_table r (T : PV ()) : (getRole r ∈ own_roles → False) → keeps plain T → wp (T ;; mret true) (good_table r) [].
Proof. intros Hno Hp. apply wp_table; [done|]. intros H. by apply Hno in H. Qed.
Ltac not_own :=
  let H := fresh in intros H; exfalso; match goal with E : getRole _ = _ |- _ => rewrite E in H end;
  apply list_elem_of_In in H; vm_compute in H; by decompose [or] H.
Lemma builtin_cases r : isBuiltinRole r = true →
  clean (getDB r) ∧ (getRole r ∈ database_roles ∨ getDB r = ADMIN_DBNAME ∧ getRole r ∈ admin_roles).
Proof.
  unfold isBuiltinRole. destruct (NamespaceString.validDBName true (getDB r)) eqn:Hv; [|done]. simpl.
  destruct (String.eqb (getDB r) "$external"); [done|]. intros H. split; [by eapply valid_clean|].
  assert (∀ l, existsb (String.eqb (getRole r)) l = true → getRole r ∈ l) as Hin.
  { intros l (x & Hx & E%String.eqb_eq)%existsb_exists. subst. by apply list_elem_of_In. }
  apply orb_true_iff in H as [H|[Ha H]%andb_true_iff]; [left; by apply Hin|right]. split; [by apply String.eqb_eq|by apply Hin].
Qed.

Lemma builtin_table_database r :
  clean (getDB r) → getRole r ∈ database_roles → wp (addPrivilegesForBuiltinRole r) (good_table r) [].
Proof.
  intros Hc Hin. assert (∀ T : PV (), (∀ Q, merges Q → (∀ t coll s, t = matchDatabaseName ∨ t = matchExactNamespace → ordinary s = true →
    Q (mkPrivilege (mkPattern t (getDB r ++ "." ++ coll)%string) s)) → keeps Q T) → wp (T ;; mret true) (good_table r) []) as Hdb.
  { intros T HT. apply wp_table; [by apply HT; [apply plain_merges|]|]. intros _. apply HT; [apply in_database_merges|].
    intros t coll s Ht _. by apply in_database_made. }
  unfold addPrivilegesForBuiltinRole. unfold database_roles in Hin. rewrite !elem_of_cons in Hin.
  destruct Hin as [E|[E|[E|[E|[E|[E|[]%not_elem_of_nil]]]]]]; rewrite E; simpl.
  - apply Hdb. intros. by apply keeps_readOnlyDb.
  - apply Hdb. intros. by apply keeps_readWriteDb.
  - apply Hdb. intros. by apply keeps_userAdminDb.
  - apply Hdb. intros. by apply keeps_dbAdminDb.
  - apply Hdb. intros. by apply keeps_dbOwner.
  - apply inside_table; [not_own|apply plain_enableSharding].
Qed.
Lemma builtin_table_admin r :
  getDB r = ADMIN_DBNAME → getRole r ∈ admin_roles → wp (addPrivilegesForBuiltinRole r) (good_table r) [].
Proof.
  intros Hdb Hin. unfold addPrivilegesForBuiltinRole. rewrite Hdb. unfold admin_roles in Hin. rewrite !elem_of_cons in Hin.
  destruct Hin as [E|[E|[E|[E|[E|[E|[E|[E|[E|[E|[E|[E|[]%not_elem_of_nil]]]]]]]]]]]]; rewrite E; simpl.
  1-11: apply inside_table; [not_own|].
  - apply plain_readOnlyAnyDb.
  - apply plain_readWriteAnyDb.
  - apply plain_userAdminAnyDb.
  - apply plain_dbAdminAnyDb.
  - apply plain_clusterMonitor.
  - apply plain_hostManager.
  - apply plain_clusterManager.
  - apply plain_clusterAdmin.
  - apply plain_backup.
  - apply plain_restore.
  - apply plain_root.
  - wp_simpl. split_and!; [done|constructor; [apply ActionSet.wf_all|constructor]| |not_own].
    intros Hne. exfalso. apply Hne. destruct r. simpl in *. by subst.
Qed.
Lemma builtin_table r : isBuiltinRole r = true →
  ∃ v, addPrivilegesForBuiltinRole r [] = Ret (true, v) ∧ Priv.wf v ∧
    (r ≠ system_role → Forall plain v) ∧ (getRole r ∈ own_roles → Forall (inside (getDB r)) v).
Proof.
  intros [Hc Hr]%builtin_cases.
  assert (wp (addPrivilegesForBuiltinRole r) (good_table r) []) as (b & v & Hx & -> & H)%wp_Ret; [|eauto].
  destruct Hr as [Hr|[Hdb Hr]]; [by apply builtin_table_database|by apply builtin_table_admin].
Qed.

(** ** The tables of the roles of one database *)
Definition tabulates (m : PV ()) (l : PrivilegeVector) : Prop :=
  ∀ v, Priv.wf v → wp m (λ _ v', Priv.wf v' ∧ ∀ q a, grants v' q a = grants v q a || grants l q a) v.
Lemma tabulates_bind m1 m2 l1 l2 : tabulates m1 l1 → tabulates m2 l2 → tabulates (m1 ;; m2) (l1 ++ l2).
Proof.
  intros H1 H2 v Hv. apply wp_bind. eapply wp_mono; [|by apply H1]. intros [] v1 [Hv1 Hg1].
  eapply wp_mono; [|by apply H2]. intros _ v2 [Hv2 Hg2]. split; [done|]. intros q a. rewrite Hg2, Hg1.
  unfold grants. by rewrite existsb_app, orb_assoc.
Qed.
Lemma tabulates_add r rp actions :
  owp r (eq rp) → ordinary actions = true → tabulates (add r actions) [mkPrivilege rp actions].
Proof.
  intros Hr Ha%ordinary_wf v Hv. unfold add. apply wp_bind, wp_reads. destruct r as [rp'|]; [|done]. simpl in Hr. subst rp'. wp_simpl.
  split; [by apply wf_add|]. intros q a. rewrite grants_add by done. unfold grants at 3. simpl. by rewrite orb_false_r.
Qed.
Lemma tabulates_push r rp actions :
  owp r (eq rp) → ordinary actions = true → tabulates (push_back r actions) [mkPrivilege rp actions].
Proof.
  intros Hr Ha%ordinary_wf v Hv. unfold push_back. apply wp_bind, wp_reads. destruct r as [rp'|]; [|done]. simpl in Hr. subst rp'. wp_simpl.
  split; [apply Forall_app; split; [done|by apply Forall_singleton]|]. intros q a. unfold grants. by rewrite existsb_app.
Qed.
Section own_tables.
Context (dbName : string) (Hclean : clean dbName).
(** All of the database but its system collections, and one of these. *)
Definition database : ResourcePattern := mkPattern matchDatabaseName (dbName ++ "." ++ EmptyString)%string.
Definition collection (coll : string) : ResourcePattern := mkPattern matchExactNamespace (dbName ++ "." ++ coll)%string.
Definition read_table : PrivilegeVector :=
  mkPrivilege database readRoleActions ::
  ((λ c, mkPrivilege (collection c) readRoleActions) <$> ["system.indexes"; "system.js"; "system.namespaces"]).
Definition readWrite_table : PrivilegeVector :=
  read_table ++ [mkPrivilege database readWriteRoleActions; mkPrivilege (collection "system.js") readWriteRoleActions].
Definition userAdmin_table : PrivilegeVector := [mkPrivilege database userAdminRoleActions].
Definition dbAdmin_table : PrivilegeVector :=
  [mkPrivilege database dbAdminRoleActions; mkPrivilege (collection "system.indexes") readRoleActions;
   mkPrivilege (collection "system.namespaces") readRoleActions; mkPrivilege (collection "system.profile") profileActions].
Definition own_table (role : string) : PrivilegeVector :=
  if String.eqb role BUILTIN_ROLE_READ then read_table
  else if String.eqb role BUILTIN_ROLE_READ_WRITE then readWrite_table
  else if String.eqb role BUILTIN_ROLE_USER_ADMIN then userAdmin_table
  else if String.eqb role BUILTIN_ROLE_DB_ADMIN then dbAdmin_table
  else readWrite_table ++ dbAdmin_table ++ userAdmin_table.
Lemma tab_database actions : ordinary actions = true → tabulates (add (forDatabaseName dbName) actions) [mkPrivilege database actions].
Proof. intros Ha. apply tabulates_add; [by apply forDatabaseName_ok|done]. Qed.
Lemma tab_collection c actions : plain_coll c = true → ordinary actions = true →
  tabulates (add (exact dbName c) actions) [mkPrivilege (collection c) actions].
Proof. intros Hc Ha. apply tabulates_add; [by apply exact_ok|done]. Qed.
Lemma tab_readOnlyDb : tabulates (addReadOnlyDbPrivileges dbName) read_table.
Proof. repeat (apply (tabulates_bind _ _ [_])); first [by apply tab_database; vm_compute|by apply tab_collection; vm_compute]. Qed.
Lemma tab_readWriteDb : tabulates (addReadWriteDbPrivileges dbName) readWrite_table.
Proof.
  apply tabulates_bind; [apply tab_readOnlyDb|]. apply (tabulates_bind _ _ [_] [_]); [by apply tab_database; vm_compute|by apply tab_collection; vm_compute].
Qed.
Lemma tab_userAdminDb : tabulates (addUserAdminDbPrivileges dbName) userAdmin_table.
Proof. apply tabulates_push; [by apply forDatabaseName_ok|by vm_compute]. Qed.
Lemma tab_dbAdminDb : tabulates (addDbAdminDbPrivileges dbName) dbAdmin_table.
Proof. repeat (apply (tabulates_bind _ _ [_])); first [by apply tab_database; vm_compute|by apply tab_collection; vm_compute]. Qed.
Lemma tab_dbOwner : tabulates (addDbOwnerPrivileges dbName) (readWrite_table ++ dbAdmin_table ++ userAdmin_table).
Proof. apply tabulates_bind; [apply tab_readWriteDb|]. apply tabulates_bind; [apply tab_dbAdminDb|apply tab_userAdminDb]. Qed.
End own_tables.
Lemma own_table_exact r v q a : clean (getDB r) → getRole r ∈ own_roles → addPrivilegesForBuiltinRole r [] = Ret (true, v) →
  grants v q a = grants (own_table (getDB r) (getRole r)) q a.
Proof.
  intros Hc Hin Hv.
  assert (∀ T l, tabulates T l → (T ;; mret true) [] = Ret (true, v) → grants v q a = grants l q a) as H.
  { intros T l HT HE. pose proof (HT [] (Forall_nil_2 _)) as Hw. unfold wp in Hw. unfold mbind, M_bind in HE.
    destruct (T []) as [[[] v']|]; [|done]. injection HE as <-. by destruct Hw as [_ ->]. }
  unfold addPrivilegesForBuiltinRole in Hv. unfold own_roles in Hin. rewrite !elem_of_cons in Hin. unfold own_table.
  destruct Hin as [E|[E|[E|[E|[E|[]%not_elem_of_nil]]]]]; rewrite E in *; simpl in Hv; (eapply H; [|exact Hv]).
  - by apply tab_readOnlyDb.
  - by apply tab_readWriteDb.
  - by apply tab_userAdminDb.
  - by apply tab_dbAdminDb.
  - by apply tab_dbOwner.
Qed.
End Builtin.
