(* ===== verification/RoleGraph.v ===== *)
(** * The graph of roles

    [RoleGraph] (db/auth/role_graph.cpp and the end of role_graph_builtin_roles.cpp): which roles
    there are, which roles a role has been granted (its subordinates) and to which it has been
    granted (its members), the privileges granted to a role itself, and, as of the last
    [recomputePrivilegeData], everything it has through its subordinates.

    The hash tables are maps from full names, because [operator==] and [hash] of a role name look at
    the full name only; [operator[]] adds an empty entry for a missing key.  [std::set] is a list
    ordered by [operator<].  The order in which a hash table is walked is an argument.  Erasing at
    [end()] is undefined in C++ and a fault (line 0) here. *)
From S2P Require Import Prelude ParseNumber AuthPrivilege BuiltinRoles.
From Stdlib Require Import String.
Open Scope string_scope.
Open Scope list_scope.
Open Scope Z_scope.
Import Priv Builtin.

Abbreviation EdgeSet := (gmap string (list RoleName)).
Record RoleGraph := mkGraph {
  _roleToSubordinates : EdgeSet; _roleToIndirectSubordinates : EdgeSet; _roleToMembers : EdgeSet;
  _directPrivilegesForRole : gmap string PrivilegeVector; _allPrivilegesForRole : gmap string PrivilegeVector;
  _allRoles : list RoleName }.
#[export] Instance RoleGraph_eta : Eta RoleGraph := λ g,
  mkGraph (_roleToSubordinates g) (_roleToIndirectSubordinates g) (_roleToMembers g)
    (_directPrivilegesForRole g) (_allPrivilegesForRole g) (_allRoles g).

Module Graph.
Abbreviation RG := (M RoleGraph).
Implicit Types (g : RoleGraph) (role : RoleName).
Abbreviation nm := getFullName.
Definition empty_graph : RoleGraph := mkGraph ∅ ∅ ∅ ∅ ∅ [].

Definition swap g (other : RoleGraph) : RoleGraph * RoleGraph :=
  (mkGraph (_roleToSubordinates other) (_roleToIndirectSubordinates other) (_roleToMembers other)
     (_directPrivilegesForRole other) (_allPrivilegesForRole other) (_allRoles other),
   mkGraph (_roleToSubordinates g) (_roleToIndirectSubordinates g) (_roleToMembers g)
     (_directPrivilegesForRole g) (_allPrivilegesForRole g) (_allRoles g)).

(** ** Containers *)
(** [m[k]]: the entry, which is there from now on. *)
Definition touch {V} (k : string) (m : gmap string (list V)) : gmap string (list V) :=
  match m !! k with Some _ => m | None => <[k := []]> m end.
Definition entry {V} (k : string) (m : gmap string (list V)) : list V := default [] (m !! k).
Definition set_entry {V} (k : string) (f : list V → list V) (m : gmap string (list V)) : gmap string (list V) :=
  <[k := f (entry k m)]> m.
Definition ref_sub (k : string) : RG (list RoleName) :=
  modify (λ g, g <| _roleToSubordinates := touch k (_roleToSubordinates g) |>) ;; gets (λ g, entry k (_roleToSubordinates g)).
Definition ref_members (k : string) : RG (list RoleName) :=
  modify (λ g, g <| _roleToMembers := touch k (_roleToMembers g) |>) ;; gets (λ g, entry k (_roleToMembers g)).
Definition ref_indirect (k : string) : RG (list RoleName) :=
  modify (λ g, g <| _roleToIndirectSubordinates := touch k (_roleToIndirectSubordinates g) |>) ;;
  gets (λ g, entry k (_roleToIndirectSubordinates g)).
Definition ref_direct (k : string) : RG PrivilegeVector :=
  modify (λ g, g <| _directPrivilegesForRole := touch k (_directPrivilegesForRole g) |>) ;;
  gets (λ g, entry k (_directPrivilegesForRole g)).
Definition ref_all (k : string) : RG PrivilegeVector :=
  modify (λ g, g <| _allPrivilegesForRole := touch k (_allPrivilegesForRole g) |>) ;;
  gets (λ g, entry k (_allPrivilegesForRole g)).
Definition on_sub k f : RG () := modify (λ g, g <| _roleToSubordinates := set_entry k f (_roleToSubordinates g) |>).
Definition on_members k f : RG () := modify (λ g, g <| _roleToMembers := set_entry k f (_roleToMembers g) |>).
Definition on_indirect k f : RG () :=
  modify (λ g, g <| _roleToIndirectSubordinates := set_entry k f (_roleToIndirectSubordinates g) |>).
Definition on_direct k f : RG () :=
  modify (λ g, g <| _directPrivilegesForRole := set_entry k f (_directPrivilegesForRole g) |>).
Definition on_all k f : RG () := modify (λ g, g <| _allPrivilegesForRole := set_entry k f (_allPrivilegesForRole g) |>).

(** [std::find] in a vector, [erase] of what was found, and [insert] into a set. *)
Definition has (role : RoleName) (l : list RoleName) : bool := existsb (role_eqb role) l.
Fixpoint erase (role : RoleName) (l : list RoleName) : list RoleName :=
  match l with
  | [] => []
  | r :: l => if role_eqb role r then l else r :: erase role l
  end.
Definition uset_insert (l : list RoleName) (role : RoleName) : list RoleName := if has role l then l else l ++ [role].
Fixpoint set_insert (role : RoleName) (l : list RoleName) : list RoleName :=
  match l with
  | [] => [role]
  | r :: l => if role_ltb role r then role :: r :: l else if role_ltb r role then r :: set_insert role l else r :: l
  end.
Fixpoint set_erase (role : RoleName) (l : list RoleName) : list RoleName :=
  match l with
  | [] => []
  | r :: l => if role_ltb role r then r :: l else if role_ltb r role then r :: set_erase role l else l
  end.
Fixpoint lower_bound (role : RoleName) (l : list RoleName) : list RoleName :=
  match l with
  | [] => []
  | r :: l => if role_ltb r role then lower_bound role l else r :: l
  end.

(** ** Roles on demand: role_graph.cpp, lines 70 to 111, and role_graph_builtin_roles.cpp, lines 756 to 792 *)
Definition _roleExistsDontCreateBuiltin (role : RoleName) : RG bool :=
  g ← gets id;
  if negb (bool_decide (is_Some (_roleToSubordinates g !! nm role))) then mret false else
  _ ← invariant 16825 (λ g, bool_decide (is_Some (_roleToMembers g !! nm role)));
  if negb (bool_decide (is_Some (_directPrivilegesForRole g !! nm role))) then mret false else
  _ ← invariant 16826 (λ g, bool_decide (is_Some (_allPrivilegesForRole g !! nm role)));
  mret true.
Definition _createRoleDontCheckIfRoleExists (role : RoleName) : RG () :=
  ref_sub (nm role) ;; ref_indirect (nm role) ;; ref_members (nm role) ;; ref_direct (nm role) ;; ref_all (nm role) ;;
  modify (λ g, g <| _allRoles := set_insert role (_allRoles g) |>).
Definition _addPrivilegeToRoleNoChecks (role : RoleName) (privilegeToAdd : Privilege) : RG () :=
  on_direct (nm role) (λ v, addPrivilegeToPrivilegeVector v privilegeToAdd).
Definition _createBuiltinRoleIfNeeded (role : RoleName) : RG () :=
  if negb (isBuiltinRole role) then mret tt else
  ex ← _roleExistsDontCreateBuiltin role;
  if (ex : bool) then mret tt else
  _ ← _createRoleDontCheckIfRoleExists role;
  r ← reads (λ _, addPrivilegesForBuiltinRole role []);
  _ ← invariant 17145 (λ _, r.1);
  mfoldl (λ _ privilege,
    _addPrivilegeToRoleNoChecks role privilege ;; on_all (nm role) (λ v, v ++ [privilege])) tt r.2.
Definition _createBuiltinRolesForDBIfNeeded (dbname : string) : RG () :=
  mfoldl (λ _ name, _createBuiltinRoleIfNeeded (mkRole name dbname)) tt database_roles ;;
  (if String.eqb dbname ADMIN_DBNAME then
     mfoldl (λ _ name, _createBuiltinRoleIfNeeded (mkRole name dbname)) tt admin_roles
   else mret tt).
Definition roleExists (role : RoleName) : RG bool :=
  _createBuiltinRoleIfNeeded role ;; _roleExistsDontCreateBuiltin role.
Definition createRole (role : RoleName) : RG Status :=
  ex ← roleExists role;
  if (ex : bool) then mret (Err DuplicateKey) else
  _ ← _createRoleDontCheckIfRoleExists role; mret (OK tt).

(** ** Removing a role: lines 113 to 146 *)
Definition erase_found (role : RoleName) (l : list RoleName) : outcome (list RoleName) :=
  if has role l then Ret (erase role l) else Abort 0.
Definition erase_member (from role : RoleName) : RG () :=
  l ← ref_members (nm from); l' ← reads (λ _, erase_found role l); on_members (nm from) (λ _, l').
Definition erase_sub (from role : RoleName) : RG () :=
  l ← ref_sub (nm from); l' ← reads (λ _, erase_found role l); on_sub (nm from) (λ _, l').
Definition deleteRole (role : RoleName) : RG Status :=
  ex ← roleExists role;
  if negb ex then mret (Err RoleNotFound) else
  if isBuiltinRole role then mret (Err InvalidRoleModification) else
  subs ← ref_sub (nm role);
  _ ← mfoldl (λ _ it, erase_member it role) tt subs;
  members ← ref_members (nm role);
  _ ← mfoldl (λ _ it, erase_sub it role) tt members;
  _ ← modify (λ g, mkGraph (delete (nm role) (_roleToSubordinates g)) (delete (nm role) (_roleToIndirectSubordinates g))
        (delete (nm role) (_roleToMembers g)) (delete (nm role) (_directPrivilegesForRole g))
        (delete (nm role) (_allPrivilegesForRole g)) (set_erase role (_allRoles g)));
  mret (OK tt).

(** ** Questions: lines 148 to 176 and 550 to 558; an empty iterator or vector for an unknown role *)
Definition getDirectSubordinates (role : RoleName) : RG (list RoleName) :=
  ex ← roleExists role; if (ex : bool) then ref_sub (nm role) else mret [].
Definition getIndirectSubordinates (role : RoleName) : RG (list RoleName) :=
  ex ← roleExists role; if (ex : bool) then ref_indirect (nm role) else mret [].
Definition getDirectMembers (role : RoleName) : RG (list RoleName) :=
  ex ← roleExists role; if (ex : bool) then ref_members (nm role) else mret [].
Definition getDirectPrivileges (role : RoleName) : RG PrivilegeVector :=
  ex ← roleExists role; if (ex : bool) then gets (λ g, entry (nm role) (_directPrivilegesForRole g)) else mret [].
Definition getAllPrivileges (role : RoleName) : RG PrivilegeVector :=
  ex ← roleExists role; if (ex : bool) then gets (λ g, entry (nm role) (_allPrivilegesForRole g)) else mret [].
Definition before_bound (role : RoleName) (l : list RoleName) : list RoleName :=
  take (List.length l - List.length (lower_bound role l)) l.
Definition getRolesForDatabase (dbname : string) : RG (list RoleName) :=
  _createBuiltinRolesForDBIfNeeded dbname ;;
  let lower := mkRole EmptyString dbname in
  let upper := mkRole EmptyString (dbname ++ String NamespaceString.nul EmptyString)%string in
  gets (λ g, lower_bound lower (before_bound upper (_allRoles g))).

(** ** Granting and revoking roles: lines 178 to 273 *)
Definition addRoleToRole (recipient role : RoleName) : RG Status :=
  ex ← roleExists recipient;
  if negb ex then mret (Err RoleNotFound) else
  if isBuiltinRole recipient then mret (Err InvalidRoleModification) else
  ex ← roleExists role;
  if negb ex then mret (Err RoleNotFound) else
  subs ← ref_sub (nm recipient);
  if has role subs then mret (OK tt) else
  _ ← on_sub (nm recipient) (λ l, l ++ [role]);
  _ ← on_members (nm role) (λ l, l ++ [recipient]);
  mret (OK tt).
Definition removeRoleFromRole (recipient role : RoleName) : RG Status :=
  ex ← roleExists recipient;
  if negb ex then mret (Err RoleNotFound) else
  if isBuiltinRole recipient then mret (Err InvalidRoleModification) else
  ex ← roleExists role;
  if negb ex then mret (Err RoleNotFound) else
  members ← ref_members (nm role);
  if negb (has recipient members) then mret (Err RolesNotRelated) else
  _ ← on_members (nm role) (erase recipient);
  subs ← ref_sub (nm recipient);
  _ ← invariant 16827 (λ _, has role subs);
  _ ← on_sub (nm recipient) (erase role);
  mret (OK tt).
Definition removeAllRolesFromRole (victim : RoleName) : RG Status :=
  ex ← roleExists victim;
  if negb ex then mret (Err RoleNotFound) else
  if isBuiltinRole victim then mret (Err InvalidRoleModification) else
  subordinatesOfVictim ← ref_sub (nm victim);
  _ ← mfoldl (λ _ subordinateRole,
        membersOfSubordinate ← ref_members (nm subordinateRole);
        invariant 17173 (λ _, has victim membersOfSubordinate) ;;
        on_members (nm subordinateRole) (erase victim)) tt subordinatesOfVictim;
  _ ← on_sub (nm victim) (λ _, []);
  mret (OK tt).

(** ** Granting and revoking privileges: lines 275 to 398 *)
Definition addPrivilegesToRole (role : RoleName) (privilegesToAdd : PrivilegeVector) : RG Status :=
  ex ← roleExists role;
  if negb ex then mret (Err RoleNotFound) else
  if isBuiltinRole role then mret (Err InvalidRoleModification) else
  _ ← mfoldl (λ _ p, _addPrivilegeToRoleNoChecks role p) tt privilegesToAdd;
  mret (OK tt).
Definition addPrivilegeToRole (role : RoleName) (privilegeToAdd : Privilege) : RG Status :=
  ex ← roleExists role;
  if negb ex then mret (Err RoleNotFound) else
  if isBuiltinRole role then mret (Err InvalidRoleModification) else
  _ ← _addPrivilegeToRoleNoChecks role privilegeToAdd;
  mret (OK tt).
(** The loop over the privileges of the role. *)
Fixpoint remove_privilege (p : Privilege) (l : PrivilegeVector) : StatusWith PrivilegeVector :=
  match l with
  | [] => Err PrivilegeNotFound
  | cur :: rest =>
      if RP.eqb (_resource cur) (_resource p) then
        if negb (ActionSet.isSupersetOf (_actions cur) (_actions p)) then Err PrivilegeNotFound
        else let cur' := removeActions cur (_actions p) in
             OK (if ActionSet.empty (_actions cur') then rest else cur' :: rest)
      else match remove_privilege p rest with
           | OK rest' => OK (cur :: rest')
           | Err e => Err e
           end
  end.
Definition removePrivilegeFromRole (role : RoleName) (privilegeToRemove : Privilege) : RG Status :=
  ex ← roleExists role;
  if negb ex then mret (Err RoleNotFound) else
  if isBuiltinRole role then mret (Err InvalidRoleModification) else
  currentPrivileges ← ref_direct (nm role);
  match remove_privilege privilegeToRemove currentPrivileges with
  | OK v => _ ← on_direct (nm role) (λ _, v); mret (OK tt)
  | Err e => mret (Err e)
  end.
Fixpoint removePrivilegesFromRole (role : RoleName) (privilegesToRemove : PrivilegeVector) : RG Status :=
  match privilegesToRemove with
  | [] => mret (OK tt)
  | p :: rest =>
      status ← removePrivilegeFromRole role p;
      if negb (sw_isOK status) then mret status else removePrivilegesFromRole role rest
  end.
Definition removeAllPrivilegesFromRole (role : RoleName) : RG Status :=
  ex ← roleExists role;
  if negb ex then mret (Err RoleNotFound) else
  if isBuiltinRole role then mret (Err InvalidRoleModification) else
  _ ← on_direct (nm role) (λ _, []);
  mret (OK tt).

(** ** Replacing a role: lines 400 to 418 *)
Definition is_err (e : ErrorCode) (s : Status) : bool := match s with Err e' => bool_decide (e = e') | OK _ => false end.
Definition fassertOK (line : Z) (m : RG Status) : RG () := s ← m; invariant line (λ _, sw_isOK s).
Definition replaceRole (roleName : RoleName) (roles : list RoleName) (privileges : PrivilegeVector) : RG Status :=
  status ← removeAllPrivilegesFromRole roleName;
  if negb (is_err RoleNotFound status) && negb (sw_isOK status) then mret status else
  _ ← (if is_err RoleNotFound status then fassertOK 17168 (createRole roleName) else mret tt);
  _ ← fassertOK 17169 (removeAllRolesFromRole roleName);
  _ ← mfoldl (λ _ grantedRole,
        status ← createRole grantedRole;
        invariant 17170 (λ _, sw_isOK status || is_err DuplicateKey status) ;;
        fassertOK 17171 (addRoleToRole roleName grantedRole)) tt roles;
  _ ← fassertOK 17172 (addPrivilegesToRole roleName privileges);
  mret (OK tt).

(** ** Everything a role has: lines 420 to 548 *)
(** Once all subordinates of the role are done. *)
Definition finish_role (currentRole : RoleName) (currentRoleDirectRoles : list RoleName) : RG () :=
  let k := nm currentRole in
  _ ← ref_all k;
  direct ← ref_direct k;
  _ ← on_all k (λ _, direct);
  _ ← on_indirect k (λ _, foldl uset_insert [] currentRoleDirectRoles);
  mfoldl (λ _ childRole,
    childsPrivileges ← ref_all (nm childRole);
    on_all k (λ v, add_all v childsPrivileges) ;;
    childsRoles ← ref_indirect (nm childRole);
    on_indirect k (λ l, foldl uset_insert l childsRoles)) tt currentRoleDirectRoles.
(** A loop that runs out of its bound; not reached. *)
Definition OUT_OF_FUEL : Z := -3.
Definition out_of_fuel {A} : RG A := λ _, Abort OUT_OF_FUEL.
(** [inProgressRoles] with its last element first.  The set of visited roles is returned. *)
Fixpoint visit_loop (fuel : nat) (inProgressRoles : list RoleName) (visitedRoles : gset string) : RG (Status * gset string) :=
  match inProgressRoles with
  | [] => mret (OK tt, visitedRoles)
  | currentRole :: others =>
      _ ← invariant 17277 (λ _, bool_decide (nm currentRole ∉ visitedRoles));
      ex ← roleExists currentRole;
      if negb ex then mret (Err RoleNotFound, visitedRoles) else
      if has currentRole others then mret (Err GraphContainsCycle, visitedRoles) else
      currentRoleDirectRoles ← ref_sub (nm currentRole);
      match fuel with
      | O => out_of_fuel
      | S fuel =>
          match List.find (λ childRole, bool_decide (nm childRole ∉ visitedRoles)) currentRoleDirectRoles with
          | Some childRole => visit_loop fuel (childRole :: inProgressRoles) visitedRoles
          | None =>
              _ ← finish_role currentRole currentRoleDirectRoles;
              visit_loop fuel others ({[nm currentRole]} ∪ visitedRoles)
          end
      end
  end.
Definition loop_fuel g : nat := 2 * size (_roleToSubordinates g) + 1.
Definition _recomputePrivilegeDataHelper (startingRole : RoleName) (visitedRoles : gset string) : RG (Status * gset string) :=
  if bool_decide (nm startingRole ∈ visitedRoles) then mret (OK tt, visitedRoles) else
  n ← gets loop_fuel; visit_loop n [startingRole] visitedRoles.
(** [order]: the keys of [_roleToSubordinates] as the hash table gives them. *)
Fixpoint recompute_loop (order : list RoleName) (visitedRoles : gset string) : RG Status :=
  match order with
  | [] => mret (OK tt)
  | it :: rest =>
      r ← _recomputePrivilegeDataHelper it visitedRoles;
      if negb (sw_isOK r.1) then mret r.1 else recompute_loop rest r.2
  end.
Definition recomputePrivilegeData (order : list RoleName) : RG Status := recompute_loop order ∅.
End Graph.
