(* ===== verification/RoleSet.v ===== *)
(** * Ordered sets of role names

    [std::set<RoleName>], the member [_allRoles] of the role graph, as a list in the order of
    [operator<] (db/auth/role_name.h): [set_insert], [set_erase] and [lower_bound] of [Graph] keep the order and
    do what they should, and the range between two bounds holds the roles of one database. *)
From stdpp Require Import sorting.
From S2P Require Import Prelude ParseNumber AuthPrivilege BuiltinRoles RoleGraph.
From Stdlib Require Import String.
Open Scope string_scope.
Open Scope list_scope.
Open Scope Z_scope.
Import Graph.
Implicit Types (s t u : string) (r x y : RoleName) (l : list RoleName).

(** ** Strings in lexicographic order *)
Lemma ltb_cons a s b t :
  String.ltb (String a s) (String b t) = (N_of_ascii a <? N_of_ascii b)%N || (Ascii.eqb a b && String.ltb s t).
Proof.
  unfold String.ltb. cbn [String.compare]. unfold Ascii.compare. rewrite N.ltb_compare.
  destruct (N.compare_spec (N_of_ascii a) (N_of_ascii b)) as [E|Hlt|Hlt]; simpl; [|done|].
  - apply (f_equal ascii_of_N) in E. rewrite !ascii_N_embedding in E. subst. by rewrite Ascii.eqb_refl.
  - destruct (Ascii.eqb_spec a b) as [->|]; [|done]. lia.
Qed.
Lemma ltb_irrefl s : String.ltb s s = false.
Proof. induction s as [|a s IH]; [done|]. rewrite ltb_cons, IH, andb_false_r, N.ltb_irrefl. done. Qed.
Lemma string_ltb_trans s t u : String.ltb s t = true → String.ltb t u = true → String.ltb s u = true.
Proof.
  revert t u. induction s as [|a s IH]; intros [|b t] [|c u]; try done. rewrite !ltb_cons, !orb_true_iff, !andb_true_iff, !N.ltb_lt, !Ascii.eqb_eq.
  intros [H1|[-> H1]] [H2|[-> H2]]; [left; lia|by left|by left|right; by eauto].
Qed.
Lemma ltb_trichotomy s t : String.ltb s t = true ∨ s = t ∨ String.ltb t s = true.
Proof.
  revert t. induction s as [|a s IH]; intros [|b t]; [by right; left|by left|by right; right|]. rewrite !ltb_cons, !orb_true_iff, !andb_true_iff, !N.ltb_lt, !Ascii.eqb_eq.
  destruct (N.lt_trichotomy (N_of_ascii a) (N_of_ascii b)) as [?|[E|?]]; [auto| |auto].
  apply (f_equal ascii_of_N) in E. rewrite !ascii_N_embedding in E. subst b. destruct (IH t) as [?|[->|?]]; auto.
Qed.
(** Nothing lies between a string and the same string with a NUL byte. *)
Lemma ltb_nul s t : String.ltb s (t ++ String NamespaceString.nul EmptyString)%string = String.ltb s t || String.eqb s t.
Proof.
  revert s. induction t as [|b t IH]; intros [|a s]; [done| |done|].
  - change ((EmptyString ++ String NamespaceString.nul EmptyString)%string) with (String NamespaceString.nul EmptyString).
    rewrite ltb_cons. simpl. rewrite (proj2 (N.ltb_ge _ _)) by (unfold NamespaceString.nul; simpl; lia). simpl.
    by destruct s; rewrite andb_false_r.
  - change ((String b t ++ String NamespaceString.nul EmptyString)%string) with (String b (t ++ String NamespaceString.nul EmptyString)%string).
    rewrite !ltb_cons, IH. simpl. destruct (N.ltb_spec (N_of_ascii a) (N_of_ascii b)) as [Hlt|Hge]; simpl; [done|].
    by destruct (Ascii.eqb a b).
Qed.

(** ** Role names in order *)
Definition role_lt x y : Prop := role_ltb x y = true.
#[export] Instance role_lt_dec x y : Decision (role_lt x y).
Proof. unfold role_lt. apply _. Defined.
Lemma role_lt_irrefl x : ¬ role_lt x x.
Proof. unfold role_lt, role_ltb. rewrite String.eqb_refl. by rewrite ltb_irrefl. Qed.
#[export] Instance role_lt_trans : Transitive role_lt.
Proof.
  intros x y z. unfold role_lt, role_ltb. destruct (String.eqb_spec (getDB x) (getDB y)) as [E|Hne].
  - rewrite E. destruct (String.eqb_spec (getDB y) (getDB z)); [apply string_ltb_trans|done].
  - destruct (String.eqb_spec (getDB y) (getDB z)) as [<-|Hne'].
    + rewrite (proj2 (String.eqb_neq _ _) Hne). done.
    + intros H1 H2. pose proof (string_ltb_trans _ _ _ H1 H2) as H3. destruct (String.eqb_spec (getDB x) (getDB z)) as [E|]; [|done].
      rewrite <-E in H2. pose proof (string_ltb_trans _ _ _ H1 H2) as H4. by rewrite ltb_irrefl in H4.
Qed.
Lemma role_lt_trichotomy x y : role_lt x y ∨ x = y ∨ role_lt y x.
Proof.
  unfold role_lt, role_ltb. destruct x as [a d], y as [b e]. simpl. destruct (String.eqb_spec d e) as [->|Hne].
  - rewrite String.eqb_refl. destruct (ltb_trichotomy a b) as [?|[->|?]]; auto.
  - rewrite (proj2 (String.eqb_neq e d)) by congruence. destruct (ltb_trichotomy d e) as [?|[?|?]]; auto.
Qed.
Lemma role_lt_asymm x y : role_lt x y → role_ltb y x = false.
Proof. intros H. destruct (role_ltb y x) eqn:E; [|done]. exfalso. apply (role_lt_irrefl x). by trans y. Qed.
Abbreviation sorted := (StronglySorted role_lt).

Lemma Forall_lt r x l : role_lt r x → Forall (role_lt x) l → Forall (role_lt r) l.
Proof. intros Hr Hl. eapply Forall_impl; [exact Hl|]. intros y Hy. by trans x. Qed.

(** ** The operations *)
Lemma set_insert_spec r l : sorted l → sorted (set_insert r l) ∧ ∀ x, x ∈ set_insert r l ↔ x = r ∨ x ∈ l.
Proof.
  induction 1 as [|y l Hl IH Hy]; simpl; [split; [by repeat constructor|set_solver]|].
  destruct (role_ltb r y) eqn:E1; [|destruct (role_ltb y r) eqn:E2].
  - split; [|set_solver]. constructor; [by constructor|]. constructor; [done|]. by eapply Forall_lt.
  - destruct IH as [IH Hin]. split; [|intros x; rewrite !elem_of_cons, Hin; naive_solver].
    constructor; [done|]. apply Forall_forall. intros x [->|Hx]%Hin; [done|]. by eapply Forall_forall in Hy.
  - assert (r = y) as -> by (destruct (role_lt_trichotomy r y) as [?|[?|?]]; unfold role_lt in *; congruence).
    split; [by constructor|set_solver].
Qed.
Lemma set_erase_spec r l : sorted l → sorted (set_erase r l) ∧ ∀ x, x ∈ set_erase r l ↔ x ≠ r ∧ x ∈ l.
Proof.
  induction 1 as [|y l Hl IH Hy]; simpl; [split; [constructor|set_solver]|].
  assert (∀ z, role_lt z y ∨ z = y → z ∉ l) as Hno.
  { intros z Hz Hin. eapply Forall_forall in Hy; [|exact Hin]. apply (role_lt_irrefl z). destruct Hz as [Hz|Hz]; [by trans y|by subst]. }
  destruct (role_ltb r y) eqn:E1; [|destruct (role_ltb y r) eqn:E2].
  - split; [by constructor|]. intros x. rewrite elem_of_cons. split; [|naive_solver]. intros Hx. split; [|done].
    intros ->. destruct Hx as [->|Hx]; [by apply role_lt_irrefl in E1|]. apply (Hno r); auto.
  - destruct IH as [IH Hin]. split.
    + constructor; [done|]. apply Forall_forall. intros x [_ Hx]%Hin. by eapply Forall_forall in Hy.
    + intros x. rewrite !elem_of_cons, Hin. split; [|naive_solver]. intros [->|[? ?]]; [|naive_solver]. split; [|by left].
      intros ->. by apply role_lt_irrefl in E2.
  - assert (r = y) as -> by (destruct (role_lt_trichotomy r y) as [?|[?|?]]; unfold role_lt in *; congruence).
    split; [done|]. intros x. rewrite elem_of_cons. split; [|naive_solver]. intros Hx. split; [|by right]. intros ->. apply (Hno y); auto.
Qed.
Lemma filter_all (P : RoleName → Prop) `{∀ x, Decision (P x)} l : Forall P l → filter P l = l.
Proof. induction 1 as [|x l Hx Hl IH]; [done|]. by rewrite filter_cons_True, IH. Qed.
Lemma lower_bound_spec r l : sorted l →
  lower_bound r l = filter (λ x, ¬ role_lt x r) l ∧ before_bound r l = filter (λ x, role_lt x r) l.
Proof.
  induction 1 as [|y l Hl [IH IH'] Hy]; [done|]. unfold before_bound in *. cbn [lower_bound].
  destruct (role_ltb y r) eqn:E.
  - rewrite filter_cons_False by naive_solver. split; [done|]. rewrite filter_cons_True by done.
    assert (List.length (lower_bound r l) ≤ List.length l)%nat by (rewrite IH; apply length_filter).
    cbn [List.length]. rewrite Nat.sub_succ_l by done. cbn [take]. by rewrite IH'.
  - assert (Forall (λ x, ¬ role_lt x r) (y :: l)) as Hno.
    { assert (¬ role_lt y r) as Hyr by (unfold role_lt; by rewrite E). constructor; [done|]. eapply Forall_impl; [exact Hy|].
      intros x Hx Hxr. apply Hyr. by trans x. }
    rewrite filter_all by done. split; [done|]. rewrite Nat.sub_diag. cbn [take]. symmetry.
    apply Forall_cons in Hno as [Hn Hno]. rewrite filter_cons_False by done.
    clear -Hno. induction Hno as [|x l Hx Hl IH]; [done|]. by rewrite filter_cons_False.
Qed.
Lemma sorted_filter (P : RoleName → Prop) `{∀ x, Decision (P x)} l : sorted l → sorted (filter P l).
Proof.
  induction 1 as [|y l Hl IH Hy]; [constructor|]. destruct (decide (P y)); [rewrite filter_cons_True by done|by rewrite filter_cons_False].
  constructor; [done|]. apply Forall_forall. intros x [_ Hx]%list_elem_of_filter. by eapply Forall_forall in Hy.
Qed.
Lemma before_database r s : role_ltb r (mkRole EmptyString s) = String.ltb (getDB r) s.
Proof.
  unfold role_ltb. simpl. destruct (String.eqb_spec (getDB r) s) as [->|]; [|done]. rewrite ltb_irrefl. by destruct (getRole r).
Qed.
(** The range of [getRolesForDatabase]. *)
Lemma database_range dbname l : sorted l →
  lower_bound (mkRole EmptyString dbname)
    (before_bound (mkRole EmptyString (dbname ++ String NamespaceString.nul EmptyString)%string) l) =
  filter (λ r, getDB r = dbname) l.
Proof.
  intros Hl. destruct (lower_bound_spec (mkRole EmptyString (dbname ++ String NamespaceString.nul EmptyString)%string) l Hl) as [_ ->].
  rewrite (proj1 (lower_bound_spec _ _ (sorted_filter _ _ Hl))). rewrite list_filter_filter. apply list_filter_iff.
  intros r. unfold role_lt. rewrite !before_database, ltb_nul. destruct (String.eqb_spec (getDB r) dbname) as [->|Hne].
  - rewrite ltb_irrefl. naive_solver.
  - rewrite orb_false_r. naive_solver.
Qed.
