(* ===== verification/RoleGraphInv.v ===== *)
(** * The role graph and its abstraction

    [GInv]: the five maps have the same keys, subordinates and members are each other's inverse,
    without duplicates and among the roles there are, the ordered set lists the same roles, all action
    sets are well formed, and a built-in role has no subordinates and the privileges of its table.
    [Abs] is the graph as a set of roles, a set of edges and the direct privileges; [rel] relates
    the two.  The names of roles are [good]: no at sign in the database, so that the full name
    determines the role. *)
From stdpp Require Import sorting.
From S2P Require Import Prelude ParseNumber AuthPrivilege BuiltinRoles RoleGraph RoleSet.
From Stdlib Require Import String.
Open Scope string_scope.
Open Scope list_scope.
Open Scope Z_scope.
Import Priv Builtin Graph.
Implicit Types (g : RoleGraph) (role r : RoleName) (k x y : string).

(** ** Names *)
Definition good r : Prop := NamespaceString.find_char "@"%char (getDB r) = false.
#[export] Instance good_dec r : Decision (good r).
Proof. unfold good. apply _. Defined.
Abbreviation names l := (nm <$> (l : list RoleName)).

Lemma append_cons c (s t : string) : (String c s ++ t)%string = String c (s ++ t)%string.
Proof. done. Qed.
Lemma append_nil (t : string) : (EmptyString ++ t)%string = t.
Proof. done. Qed.
Lemma full_name_inj (a d a' d' : string) :
  NamespaceString.find_char "@"%char d = false → NamespaceString.find_char "@"%char d' = false →
  (a ++ "@" ++ d)%string = (a' ++ "@" ++ d')%string → a = a' ∧ d = d'.
Proof.
  revert a'. induction a as [|c a IH]; intros [|c' a'] Hd Hd' E; rewrite ?append_cons, ?append_nil in E.
  - by injection E as ->.
  - exfalso. injection E as <- ->. rewrite !find_char_app in Hd. simpl in Hd. by rewrite orb_true_r in Hd.
  - exfalso. injection E as -> <-. rewrite !find_char_app in Hd'. simpl in Hd'. by rewrite orb_true_r in Hd'.
  - injection E as -> E. by destruct (IH a' Hd Hd' E) as [-> ->].
Qed.
Lemma nm_inj r r' : good r → good r' → nm r = nm r' → r = r'.
Proof.
  destruct r as [a d], r' as [a' d']. unfold good, getFullName. simpl. intros Hd Hd' E.
  by destruct (full_name_inj a d a' d' Hd Hd' E) as [-> ->].
Qed.
Lemma role_eqb_nm r r' : role_eqb r r' = bool_decide (nm r = nm r').
Proof. unfold role_eqb. destruct (String.eqb_spec (nm r) (nm r')); by case_bool_decide. Qed.

(** ** Vectors of role names *)
Lemma has_spec role l : has role l = bool_decide (nm role ∈ names l).
Proof.
  unfold has. induction l as [|r l IH]; [done|]. cbn [existsb fmap list_fmap]. rewrite IH, role_eqb_nm. clear.
  repeat case_bool_decide; set_solver.
Qed.
Lemma erase_names role l : NoDup (names l) →
  NoDup (names (erase role l)) ∧ ∀ x, x ∈ names (erase role l) ↔ x ∈ names l ∧ x ≠ nm role.
Proof.
  induction l as [|r l IH]; intros Hnd; simpl; [set_solver|]. apply NoDup_cons in Hnd as [Hn Hnd].
  rewrite role_eqb_nm. case_bool_decide as E.
  - split; [done|]. intros x. rewrite E. set_solver.
  - destruct (IH Hnd) as [Hnd' Hx]. split.
    + simpl. apply NoDup_cons. split; [|done]. rewrite Hx. naive_solver.
    + intros x. simpl. rewrite !elem_of_cons, Hx. naive_solver.
Qed.
Lemma erase_sublist role l r : r ∈ erase role l → r ∈ l.
Proof. induction l as [|r' l IH]; simpl; [done|]. case_match; rewrite ?elem_of_cons; naive_solver. Qed.

(** ** Entries *)
Section entries.
Context {V : Type}.
Implicit Types (m : gmap string (list V)).
Lemma touch_known k m : is_Some (m !! k) → touch k m = m.
Proof. unfold touch. by intros [v ->]. Qed.
Lemma entry_insert k k' v m : entry k' (<[k := v]> m) = if decide (k' = k) then v else entry k' m.
Proof. unfold entry. case_decide; [subst; by rewrite lookup_insert_eq|by rewrite lookup_insert_ne]. Qed.
Lemma entry_set k k' f m : entry k' (set_entry k f m) = if decide (k' = k) then f (entry k m) else entry k' m.
Proof. apply entry_insert. Qed.
Lemma known_insert k k' (v : list V) m : is_Some (<[k := v]> m !! k') ↔ k' = k ∨ is_Some (m !! k').
Proof.
  destruct (decide (k' = k)) as [->|Hne]; [rewrite lookup_insert_eq; naive_solver|]. rewrite lookup_insert_ne by done. naive_solver.
Qed.
Lemma known_set k k' f m : is_Some (m !! k) → is_Some (set_entry k f m !! k') ↔ is_Some (m !! k').
Proof. intros Hk. unfold set_entry. rewrite known_insert. naive_solver. Qed.
Lemma entry_delete k k' m : entry k' (delete k m) = if decide (k' = k) then [] else entry k' m.
Proof. unfold entry. case_decide; [subst; by rewrite lookup_delete_eq|by rewrite lookup_delete_ne]. Qed.
Lemma known_delete k k' m : is_Some (delete k m !! k') ↔ k' ≠ k ∧ is_Some (m !! k').
Proof.
  destruct (decide (k' = k)) as [->|Hne]; [rewrite lookup_delete_eq|rewrite lookup_delete_ne by done]; [|naive_solver].
  split; [by intros [? ?]|naive_solver].
Qed.
Lemma entry_unknown k m : ¬ is_Some (m !! k) → entry k m = [].
Proof. unfold entry. by intros ->%eq_None_not_Some. Qed.
Lemma set_entry_id k m : is_Some (m !! k) → set_entry k (λ v, v) m = m.
Proof. intros [v Hv]. unfold set_entry, entry. rewrite Hv. simpl. by apply insert_id. Qed.
End entries.

(** ** The invariant *)
Definition known g k : Prop := is_Some (_roleToSubordinates g !! k).
#[export] Instance known_dec g k : Decision (known g k).
Proof. unfold known. apply _. Defined.
Definition subs g k : list RoleName := entry k (_roleToSubordinates g).
Definition mems g k : list RoleName := entry k (_roleToMembers g).
Definition directs g k : PrivilegeVector := entry k (_directPrivilegesForRole g).
Definition alls g k : PrivilegeVector := entry k (_allPrivilegesForRole g).
Definition edge g x y : Prop := y ∈ names (subs g x).
(** What the table of a built-in role gives. *)
Definition builtin_privileges r : PrivilegeVector :=
  match addPrivilegesForBuiltinRole r [] with Ret (_, v) => v | Abort _ => [] end.
Definition builtin_direct r : PrivilegeVector := add_all [] (builtin_privileges r).
Record GInv g : Prop := mkGInv {
  gi_indirect : ∀ k, is_Some (_roleToIndirectSubordinates g !! k) ↔ known g k;
  gi_members : ∀ k, is_Some (_roleToMembers g !! k) ↔ known g k;
  gi_direct : ∀ k, is_Some (_directPrivilegesForRole g !! k) ↔ known g k;
  gi_all : ∀ k, is_Some (_allPrivilegesForRole g !! k) ↔ known g k;
  gi_nodup : ∀ k, NoDup (names (subs g k)) ∧ NoDup (names (mems g k));
  gi_good : ∀ k r, r ∈ subs g k ∨ r ∈ mems g k → good r ∧ known g (nm r);
  gi_sym : ∀ x y, edge g x y ↔ x ∈ names (mems g y);
  gi_sorted : sorted (_allRoles g);
  gi_roles : ∀ r, r ∈ _allRoles g ↔ good r ∧ known g (nm r);
  gi_named : ∀ k, known g k → ∃ r, good r ∧ nm r = k;
  gi_privs : ∀ k, Priv.wf (directs g k) ∧ Priv.wf (alls g k);
  gi_distinct : ∀ k, NoDup (resources (directs g k));
  gi_builtin : ∀ r, good r → isBuiltinRole r = true → known g (nm r) →
    subs g (nm r) = [] ∧ directs g (nm r) = builtin_direct r }.

Lemma empty_GInv : GInv empty_graph.
Proof.
  assert (∀ k, ¬ known empty_graph k) as Hno by (intros k; unfold known, empty_graph; simpl; rewrite lookup_empty; by intros [? ?]).
  assert (∀ k (V : Type), is_Some ((∅ : gmap string (list V)) !! k) ↔ known empty_graph k) as Hem.
  { intros k V. split; [intros [? H]; by rewrite lookup_empty in H|by intros ?%Hno]. }
  split; try (intros; by apply Hem); unfold subs, mems, directs, alls, edge, entry; simpl; intros; rewrite ?lookup_empty; simpl.
  - split; constructor.
  - rewrite !lookup_empty in H. simpl in H. set_solver.
  - set_solver.
  - constructor.
  - split; [by intros ?%not_elem_of_nil|by intros [_ ?%Hno]].
  - by apply Hno in H.
  - split; constructor.
  - constructor.
  - by apply Hno in H1.
Qed.
Lemma edge_known g x y : GInv g → edge g x y → known g x ∧ known g y.
Proof.
  intros HI He. split.
  - destruct (decide (known g x)) as [|Hn]; [done|]. unfold edge, subs in He. rewrite (entry_unknown x _ Hn) in He. set_solver.
  - apply list_elem_of_fmap in He as (r & -> & Hr). by apply (gi_good g HI x r); left.
Qed.
Lemma sub_known g x r : GInv g → r ∈ subs g x → good r ∧ known g (nm r).
Proof. intros HI Hr. apply (gi_good g HI x). by left. Qed.
Lemma builtin_table_eq r : isBuiltinRole r = true → addPrivilegesForBuiltinRole r [] = Ret (true, builtin_privileges r) ∧ Priv.wf (builtin_privileges r).
Proof. intros H. destruct (builtin_table r H) as (v & Hv & Hw & _). unfold builtin_privileges. rewrite Hv. done. Qed.

(** ** Questions that change nothing *)
Section reading.
Context (g : RoleGraph) (HI : GInv g).
Lemma wp_exists role (Q : bool → RoleGraph → Prop) :
  Q (bool_decide (known g (nm role))) g → wp (_roleExistsDontCreateBuiltin role) Q g.
Proof.
  intros HQ. unfold _roleExistsDontCreateBuiltin. wp_simpl. destruct (decide (known g (nm role))) as [Hk|Hk].
  2:{ rewrite (bool_decide_false (is_Some _)) by done. simpl. wp_simpl. by rewrite bool_decide_false in HQ. }
  rewrite (bool_decide_true (is_Some (_roleToSubordinates _ !! _))) by done. simpl. wp_simpl. rewrite bool_decide_true in HQ by done.
  pose proof (gi_members g HI (nm role)) as Hm. pose proof (gi_direct g HI (nm role)) as Hd. pose proof (gi_all g HI (nm role)) as Ha.
  split; [apply bool_decide_true; tauto|]. rewrite bool_decide_true by tauto. simpl. wp_simpl.
  split; [apply bool_decide_true; tauto|done].
Qed.
Context (k : string) (Hk : known g k).
Lemma wp_ref_sub (Q : list RoleName → RoleGraph → Prop) : Q (subs g k) g → wp (ref_sub k) Q g.
Proof. intros HQ. unfold ref_sub. wp_simpl. simpl. rewrite touch_known by done. by destruct g. Qed.
Lemma wp_ref_members (Q : list RoleName → RoleGraph → Prop) : Q (mems g k) g → wp (ref_members k) Q g.
Proof. intros HQ. unfold ref_members. wp_simpl. simpl. rewrite touch_known by (by apply gi_members). by destruct g. Qed.
Lemma wp_ref_indirect (Q : list RoleName → RoleGraph → Prop) :
  Q (entry k (_roleToIndirectSubordinates g)) g → wp (ref_indirect k) Q g.
Proof. intros HQ. unfold ref_indirect. wp_simpl. simpl. rewrite touch_known by (by apply gi_indirect). by destruct g. Qed.
Lemma wp_ref_direct (Q : PrivilegeVector → RoleGraph → Prop) : Q (directs g k) g → wp (ref_direct k) Q g.
Proof. intros HQ. unfold ref_direct. wp_simpl. simpl. rewrite touch_known by (by apply gi_direct). by destruct g. Qed.
Lemma wp_ref_all (Q : PrivilegeVector → RoleGraph → Prop) : Q (alls g k) g → wp (ref_all k) Q g.
Proof. intros HQ. unfold ref_all. wp_simpl. simpl. rewrite touch_known by (by apply gi_all). by destruct g. Qed.
End reading.

(** ** A new role *)
Definition with_role g r (d a : PrivilegeVector) : RoleGraph :=
  mkGraph (<[nm r := []]> (_roleToSubordinates g)) (<[nm r := []]> (_roleToIndirectSubordinates g))
    (<[nm r := []]> (_roleToMembers g)) (<[nm r := d]> (_directPrivilegesForRole g))
    (<[nm r := a]> (_allPrivilegesForRole g)) (set_insert r (_allRoles g)).
Section new_role.
Context (g : RoleGraph) (r : RoleName) (HI : GInv g) (Hgood : good r) (Hnew : ¬ known g (nm r)).
Lemma with_role_known d a k : known (with_role g r d a) k ↔ k = nm r ∨ known g k.
Proof. apply known_insert. Qed.
Lemma with_role_subs d a k : subs (with_role g r d a) k = subs g k.
Proof. unfold subs. simpl. rewrite entry_insert. case_decide; [subst; by rewrite entry_unknown|done]. Qed.
Lemma with_role_mems d a k : mems (with_role g r d a) k = mems g k.
Proof.
  unfold mems. simpl. rewrite entry_insert. case_decide; [subst|done]. rewrite entry_unknown; [done|]. by rewrite (gi_members g HI).
Qed.
Lemma with_role_GInv d a :
  Priv.wf d → NoDup (resources d) → Priv.wf a → (isBuiltinRole r = true → d = builtin_direct r) → GInv (with_role g r d a).
Proof.
  intros Hd Hdd Ha Hb. destruct (set_insert_spec r _ (gi_sorted g HI)) as [Hso Hin].
  split; try (intros k; simpl; rewrite known_insert, with_role_known;
    rewrite ?(gi_indirect g HI), ?(gi_members g HI), ?(gi_direct g HI), ?(gi_all g HI); done).
  - intros k. rewrite with_role_subs, with_role_mems. by apply gi_nodup.
  - intros k r'. rewrite with_role_subs, with_role_mems, with_role_known. intros H. destruct (gi_good g HI k r' H). auto.
  - intros x y. unfold edge. rewrite with_role_subs, with_role_mems. by apply gi_sym.
  - done.
  - intros r'. simpl. rewrite Hin, (gi_roles g HI), with_role_known. split; [naive_solver|]. intros [Hg [E|?]]; [|auto].
    left. by apply nm_inj.
  - intros k [->|Hk]%with_role_known; [eauto|by apply (gi_named g HI)].
  - intros k. unfold directs, alls. simpl. rewrite !entry_insert. case_decide; [done|by apply gi_privs].
  - intros k. unfold directs. simpl. rewrite entry_insert. case_decide; [done|by apply gi_distinct].
  - intros r' Hg' Hb' Hk. rewrite with_role_subs. unfold directs. simpl. rewrite entry_insert. case_decide as E.
    + apply nm_inj in E; [|done..]. subst r'. split; [by apply entry_unknown|by apply Hb].
    + apply with_role_known in Hk as [?|Hk]; [done|]. by apply (gi_builtin g HI).
Qed.
Lemma wp_create (Q : () → RoleGraph → Prop) : Q tt (with_role g r [] []) → wp (_createRoleDontCheckIfRoleExists r) Q g.
Proof.
  intros HQ. unfold _createRoleDontCheckIfRoleExists, ref_sub, ref_indirect, ref_members, ref_direct, ref_all. wp_simpl. simpl.
  assert (∀ (V : Type) (m : gmap string (list V)), ¬ is_Some (m !! nm r) → touch (nm r) m = <[nm r := []]> m) as Ht.
  { intros V m H%eq_None_not_Some. unfold touch. by rewrite H. }
  rewrite !Ht; [exact HQ|..].
  - by rewrite (gi_all g HI).
  - by rewrite (gi_direct g HI).
  - by rewrite (gi_members g HI).
  - by rewrite (gi_indirect g HI).
  - done.
Qed.
Lemma wp_fill l : ∀ d a (Q : () → RoleGraph → Prop), Q tt (with_role g r (add_all d l) (a ++ l)) →
  wp (mfoldl (λ _ privilege, _addPrivilegeToRoleNoChecks r privilege ;; on_all (nm r) (λ v, v ++ [privilege])) tt l) Q (with_role g r d a).
Proof.
  induction l as [|p l IH]; intros d a Q HQ; cbn [mfoldl]; [by rewrite app_nil_r in HQ|].
  unfold _addPrivilegeToRoleNoChecks, on_direct, on_all. wp_simpl. unfold set_entry, with_role. simpl.
  assert (∀ (v : PrivilegeVector) m, entry (nm r) (<[nm r := v]> m) = v) as He by (intros; rewrite entry_insert; by case_decide).
  rewrite !He, !insert_insert_eq. apply (IH (addPrivilegeToPrivilegeVector d p) (a ++ [p])). by rewrite <-app_assoc.
Qed.
End new_role.
(** A built-in role appears when somebody asks for it. *)
Definition ensured g r : RoleGraph :=
  if isBuiltinRole r && bool_decide (¬ known g (nm r)) then with_role g r (builtin_direct r) (builtin_privileges r) else g.
Lemma ensured_GInv g r : GInv g → good r → GInv (ensured g r).
Proof.
  intros HI Hg. unfold ensured. destruct (isBuiltinRole r) eqn:Hb; [|done]. simpl. case_bool_decide; [|done].
  destruct (builtin_table_eq r Hb) as [_ Hw]. apply with_role_GInv; try done; [by apply wf_add_all; [constructor|]|]. apply distinct_add_all. constructor.
Qed.
Lemma wp_ensure g r (Q : () → RoleGraph → Prop) : GInv g → Q tt (ensured g r) → wp (_createBuiltinRoleIfNeeded r) Q g.
Proof.
  intros HI HQ. unfold _createBuiltinRoleIfNeeded, ensured in *. destruct (isBuiltinRole r) eqn:Hb; simpl in *; [|by wp_simpl].
  wp_simpl. apply wp_exists; [done|]. destruct (decide (known g (nm r))) as [Hk|Hk].
  - rewrite bool_decide_true by done. wp_simpl. by rewrite bool_decide_false in HQ by naive_solver.
  - rewrite bool_decide_false by done. rewrite bool_decide_true in HQ by done. wp_simpl. apply wp_create; [done|done|].
    destruct (builtin_table_eq r Hb) as [-> _]. wp_simpl. cbn [owp]. wp_simpl. split; [done|]. by apply wp_fill.
Qed.
Lemma wp_roleExists g r (Q : bool → RoleGraph → Prop) :
  GInv g → good r → Q (bool_decide (known (ensured g r) (nm r))) (ensured g r) → wp (roleExists r) Q g.
Proof.
  intros HI Hg HQ. unfold roleExists. wp_simpl. apply wp_ensure; [done|]. apply wp_exists; [by apply ensured_GInv|done].
Qed.
