(* ===== verification/RoleGraphOps.v ===== *)
(** * The operations of the role graph

    The role graph as a set of roles, a set of edges and the privileges of each role ([Abs]), what
    each operation does to it ([spec]), and the proof that the code does that: it keeps [GInv], no
    fassert fails, and the status is the one of the specification. *)
From S2P Require Import Prelude ParseNumber AuthPrivilege BuiltinRoles RoleGraph RoleSet RoleGraphInv.
From Stdlib Require Import String.
Open Scope string_scope.
Open Scope list_scope.
Open Scope Z_scope.
Import Priv Builtin Graph.
Implicit Types (g : RoleGraph) (role r : RoleName) (k x y : string).

(** ** Specification *)
Record Abs := mkAbs { a_roles : gset string; a_edges : gset (string * string); a_direct : gmap string PrivilegeVector }.
#[export] Instance Abs_eta : Eta Abs := λ A, mkAbs (a_roles A) (a_edges A) (a_direct A).
Implicit Types A : Abs.
Definition rel g A : Prop :=
  (∀ k, known g k ↔ k ∈ a_roles A) ∧ (∀ x y, edge g x y ↔ (x, y) ∈ a_edges A) ∧ _directPrivilegesForRole g = a_direct A.
Definition a_new r (d : PrivilegeVector) A : Abs :=
  mkAbs ({[nm r]} ∪ a_roles A) (a_edges A) (<[nm r := d]> (a_direct A)).
(** Built-in roles are there for those who ask. *)
Definition a_ensure r A : Abs := if isBuiltinRole r && bool_decide (nm r ∉ a_roles A) then a_new r (builtin_direct r) A else A.
(** Only roles that exist and are not built in can be changed. *)
Definition a_change r (f : Abs → Status * Abs) A : Status * Abs :=
  let A := a_ensure r A in
  if bool_decide (nm r ∉ a_roles A) then (Err RoleNotFound, A)
  else if isBuiltinRole r then (Err InvalidRoleModification, A) else f A.
Definition a_create r A : Status * Abs :=
  let A := a_ensure r A in if bool_decide (nm r ∈ a_roles A) then (Err DuplicateKey, A) else (OK tt, a_new r [] A).
Definition a_delete r : Abs → Status * Abs := a_change r (λ A,
  (OK tt, mkAbs (a_roles A ∖ {[nm r]}) (filter (λ e, e.1 ≠ nm r ∧ e.2 ≠ nm r) (a_edges A)) (delete (nm r) (a_direct A)))).
Definition a_grant r r' : Abs → Status * Abs := a_change r (λ A,
  let A := a_ensure r' A in
  if bool_decide (nm r' ∉ a_roles A) then (Err RoleNotFound, A)
  else (OK tt, A <| a_edges := {[(nm r, nm r')]} ∪ a_edges A |>)).
Definition a_revoke r r' : Abs → Status * Abs := a_change r (λ A,
  let A := a_ensure r' A in
  if bool_decide (nm r' ∉ a_roles A) then (Err RoleNotFound, A)
  else if bool_decide ((nm r, nm r') ∉ a_edges A) then (Err RolesNotRelated, A)
  else (OK tt, A <| a_edges := a_edges A ∖ {[(nm r, nm r')]} |>)).
Definition a_revokeAll r : Abs → Status * Abs := a_change r (λ A,
  (OK tt, A <| a_edges := filter (λ e, e.1 ≠ nm r) (a_edges A) |>)).
Definition a_grantPrivileges r (v : PrivilegeVector) : Abs → Status * Abs := a_change r (λ A,
  (OK tt, A <| a_direct := <[nm r := add_all (entry (nm r) (a_direct A)) v]> (a_direct A) |>)).
Definition a_revokePrivilege r (p : Privilege) : Abs → Status * Abs := a_change r (λ A,
  match remove_privilege p (entry (nm r) (a_direct A)) with
  | OK v => (OK tt, A <| a_direct := <[nm r := v]> (a_direct A) |>)
  | Err e => (Err e, A)
  end).
Fixpoint a_revokePrivileges r (v : PrivilegeVector) A : Status * Abs :=
  match v with
  | [] => (OK tt, A)
  | p :: v => let o := a_revokePrivilege r p A in if sw_isOK o.1 then a_revokePrivileges r v o.2 else o
  end.
Definition a_revokeAllPrivileges r : Abs → Status * Abs := a_change r (λ A,
  (OK tt, A <| a_direct := <[nm r := []]> (a_direct A) |>)).
(** The role is there, with exactly these subordinates, which exist, and these privileges. *)
Definition a_replace r (rs : list RoleName) (v : PrivilegeVector) A : Status * Abs :=
  let A := a_ensure r A in
  if isBuiltinRole r then (Err InvalidRoleModification, A) else
  let A := mkAbs ({[nm r]} ∪ a_roles A) (filter (λ e, e.1 ≠ nm r) (a_edges A)) (<[nm r := []]> (a_direct A)) in
  let A := foldl (λ A r', let A := (a_create r' A).2 in A <| a_edges := {[(nm r, nm r')]} ∪ a_edges A |>) A rs in
  (OK tt, A <| a_direct := <[nm r := add_all [] v]> (a_direct A) |>).

Inductive graph_op :=
| CreateRole (role : RoleName)
| DeleteRole (role : RoleName)
| RoleExists (role : RoleName)
| AddRoleToRole (recipient role : RoleName)
| RemoveRoleFromRole (recipient role : RoleName)
| RemoveAllRolesFromRole (victim : RoleName)
| AddPrivilegeToRole (role : RoleName) (p : Privilege)
| AddPrivilegesToRole (role : RoleName) (v : PrivilegeVector)
| RemovePrivilegeFromRole (role : RoleName) (p : Privilege)
| RemovePrivilegesFromRole (role : RoleName) (v : PrivilegeVector)
| RemoveAllPrivilegesFromRole (role : RoleName)
| ReplaceRole (role : RoleName) (roles : list RoleName) (v : PrivilegeVector).
Definition spec (o : graph_op) : Abs → Status * Abs :=
  match o with
  | CreateRole r => a_create r
  | DeleteRole r => a_delete r
  | RoleExists r => λ A, (if bool_decide (nm r ∈ a_roles (a_ensure r A)) then OK tt else Err RoleNotFound, a_ensure r A)
  | AddRoleToRole r r' => a_grant r r'
  | RemoveRoleFromRole r r' => a_revoke r r'
  | RemoveAllRolesFromRole r => a_revokeAll r
  | AddPrivilegeToRole r p => a_grantPrivileges r [p]
  | AddPrivilegesToRole r v => a_grantPrivileges r v
  | RemovePrivilegeFromRole r p => a_revokePrivilege r p
  | RemovePrivilegesFromRole r v => a_revokePrivileges r v
  | RemoveAllPrivilegesFromRole r => a_revokeAllPrivileges r
  | ReplaceRole r rs v => a_replace r rs v
  end.
Definition perform (o : graph_op) : RG Status :=
  match o with
  | CreateRole r => createRole r
  | DeleteRole r => deleteRole r
  | RoleExists r => ex ← roleExists r; mret (if (ex : bool) then OK tt else Err RoleNotFound)
  | AddRoleToRole r r' => addRoleToRole r r'
  | RemoveRoleFromRole r r' => removeRoleFromRole r r'
  | RemoveAllRolesFromRole r => removeAllRolesFromRole r
  | AddPrivilegeToRole r p => addPrivilegeToRole r p
  | AddPrivilegesToRole r v => addPrivilegesToRole r v
  | RemovePrivilegeFromRole r p => removePrivilegeFromRole r p
  | RemovePrivilegesFromRole r v => removePrivilegesFromRole r v
  | RemoveAllPrivilegesFromRole r => removeAllPrivilegesFromRole r
  | ReplaceRole r rs v => replaceRole r rs v
  end.
(** Names without an at sign in the database, well-formed sets of actions. *)
Definition proper (o : graph_op) : Prop :=
  match o with
  | CreateRole r | DeleteRole r | RoleExists r | RemoveAllRolesFromRole r | RemoveAllPrivilegesFromRole r => good r
  | AddRoleToRole r r' | RemoveRoleFromRole r r' => good r ∧ good r'
  | AddPrivilegeToRole r p | RemovePrivilegeFromRole r p => good r ∧ ActionSet.wf (_actions p)
  | AddPrivilegesToRole r v | RemovePrivilegesFromRole r v => good r ∧ Priv.wf v
  | ReplaceRole r rs v => good r ∧ Forall good rs ∧ Priv.wf v
  end.

(** ** Asking for a role *)
Definition refines (o : Status * Abs) (status : Status) g' : Prop := GInv g' ∧ rel g' o.2 ∧ status = o.1.
Lemma rel_known g A k : rel g A → bool_decide (k ∈ a_roles A) = bool_decide (known g k).
Proof. intros [H _]. apply bool_decide_ext. by rewrite H. Qed.
Lemma rel_new g A r d a : GInv g → ¬ known g (nm r) → rel g A → rel (with_role g r d a) (a_new r d A).
Proof.
  intros HI Hn (Hk & He & Hd). split_and!.
  - intros k. rewrite with_role_known, Hk. simpl. set_solver.
  - intros x y. unfold edge. by rewrite with_role_subs, <-He.
  - simpl. by rewrite Hd.
Qed.
Lemma rel_ensured g A r : GInv g → rel g A → rel (ensured g r) (a_ensure r A).
Proof.
  intros HI Hr. unfold ensured, a_ensure. rewrite (bool_decide_ext (nm r ∉ a_roles A) (¬ known g (nm r))) by (by rewrite (proj1 Hr)).
  destruct (isBuiltinRole r); [|done]. simpl. case_bool_decide; [|done]. by apply rel_new.
Qed.
Section guards.
Context (g : RoleGraph) (A : Abs) (HI : GInv g) (Hrel : rel g A).
Lemma wp_asked r (Q : bool → RoleGraph → Prop) : good r →
  (∀ g', GInv g' → rel g' (a_ensure r A) → Q (bool_decide (nm r ∈ a_roles (a_ensure r A))) g') → wp (roleExists r) Q g.
Proof.
  intros Hg HQ. apply wp_roleExists; [done|done|]. pose proof (rel_ensured g A r HI Hrel) as Hr. rewrite <-(rel_known _ _ _ Hr).
  apply HQ; [by apply ensured_GInv|done].
Qed.
Lemma wp_change r (body : RG Status) f : good r →
  (∀ g' A', GInv g' → rel g' A' → known g' (nm r) → isBuiltinRole r = false → wp body (refines (f A')) g') →
  wp (ex ← roleExists r; if negb ex then mret (Err RoleNotFound) else
      if isBuiltinRole r then mret (Err InvalidRoleModification) else body) (refines (a_change r f A)) g.
Proof.
  intros Hg Hbody. wp_simpl. apply wp_asked; [done|]. intros g' HI' Hr'. unfold a_change. rewrite bool_decide_not.
  destruct (decide (nm r ∈ a_roles (a_ensure r A))) as [Hin|Hin].
  - rewrite bool_decide_true by done. simpl. destruct (isBuiltinRole r) eqn:Hb; [wp_simpl; by split_and!|].
    apply Hbody; try done. by apply (proj1 Hr').
  - rewrite bool_decide_false by done. simpl. wp_simpl. by split_and!.
Qed.
End guards.

(** ** Changing edges *)
Definition with_edges g (s m : EdgeSet) : RoleGraph :=
  mkGraph s (_roleToIndirectSubordinates g) m (_directPrivilegesForRole g) (_allPrivilegesForRole g) (_allRoles g).
Lemma with_edges_GInv g (s m : EdgeSet) :
  GInv g → (∀ k, is_Some (s !! k) ↔ known g k) → (∀ k, is_Some (m !! k) ↔ known g k) →
  (∀ k, NoDup (names (entry k s)) ∧ NoDup (names (entry k m))) →
  (∀ k r, r ∈ entry k s ∨ r ∈ entry k m → good r ∧ known g (nm r)) →
  (∀ x y, y ∈ names (entry x s) ↔ x ∈ names (entry y m)) →
  (∀ r, good r → isBuiltinRole r = true → known g (nm r) → entry (nm r) s = []) → GInv (with_edges g s m).
Proof.
  intros HI Hs Hm Hnd Hg Hsym Hb. assert (∀ k, known (with_edges g s m) k ↔ known g k) as Hk by exact Hs.
  split.
  - intros k. rewrite Hk. apply HI.
  - intros k. rewrite Hk. apply Hm.
  - intros k. rewrite Hk. apply HI.
  - intros k. rewrite Hk. apply HI.
  - exact Hnd.
  - intros k r. rewrite Hk. apply Hg.
  - exact Hsym.
  - apply HI.
  - intros r. rewrite Hk. apply HI.
  - intros k. rewrite Hk. apply HI.
  - apply HI.
  - apply HI.
  - intros r Hgr Hbr Hkr%Hk. split; [by apply Hb|]. by apply (gi_builtin g HI).
Qed.
Lemma names_app l r : names (l ++ [r]) = names l ++ [nm r].
Proof. by rewrite fmap_app. Qed.
Lemma grant_GInv g r r' : GInv g → good r → good r' → known g (nm r) → known g (nm r') → isBuiltinRole r = false →
  nm r' ∉ names (subs g (nm r)) →
  GInv (with_edges g (set_entry (nm r) (λ l, l ++ [r']) (_roleToSubordinates g)) (set_entry (nm r') (λ l, l ++ [r]) (_roleToMembers g))).
Proof.
  intros HI Hg Hg' Hk Hk' Hb Hno. assert (nm r ∉ names (mems g (nm r'))) as Hno' by (by rewrite <-(gi_sym g HI)).
  pose proof (gi_members g HI) as Hm. apply with_edges_GInv; try done.
  - intros k. by rewrite known_set.
  - intros k. rewrite known_set by (by apply Hm). apply Hm.
  - intros k. destruct (gi_nodup g HI k) as [Hn1 Hn2]. rewrite !entry_set. split; case_decide; try done; subst; rewrite names_app; apply NoDup_app;
      (split_and!; [apply (gi_nodup g HI)|set_solver|apply NoDup_singleton]).
  - intros k r0. rewrite !entry_set. intros [H|H]; case_decide; subst; try (by apply (gi_good g HI k); auto).
    + apply elem_of_app in H as [H| ->%list_elem_of_singleton]; [|done]. apply (gi_good g HI (nm r)); auto.
    + apply elem_of_app in H as [H| ->%list_elem_of_singleton]; [|done]. apply (gi_good g HI (nm r')); auto.
  - intros x y. rewrite !entry_set. pose proof (gi_sym g HI x y) as Hs. unfold edge, subs, mems in Hs.
    repeat case_decide; subst; rewrite ?names_app, ?elem_of_app, ?list_elem_of_singleton, ?Hs; naive_solver.
  - intros r0 Hg0 Hb0 Hk0. rewrite entry_set. case_decide as E; [|by apply (gi_builtin g HI)]. apply nm_inj in E; [|done..]. congruence.
Qed.
Lemma revoke_GInv g r r' : GInv g → good r → good r' → known g (nm r) → known g (nm r') → isBuiltinRole r = false →
  GInv (with_edges g (set_entry (nm r) (erase r') (_roleToSubordinates g)) (set_entry (nm r') (erase r) (_roleToMembers g))).
Proof.
  intros HI Hg Hg' Hk Hk' Hb. pose proof (gi_members g HI) as Hm. apply with_edges_GInv; try done.
  - intros k. by rewrite known_set.
  - intros k. rewrite known_set by (by apply Hm). apply Hm.
  - intros k. destruct (gi_nodup g HI k) as [Hn1 Hn2]. rewrite !entry_set. split; case_decide; try done; subst; by apply erase_names.
  - intros k r0. rewrite !entry_set. intros [H|H]; case_decide; subst; try (by apply (gi_good g HI k); auto);
      apply erase_sublist in H; eapply (gi_good g HI); [by left|by right].
  - intros x y. rewrite !entry_set. pose proof (gi_sym g HI x y) as Hs. destruct (gi_nodup g HI x) as [Hn1 _], (gi_nodup g HI y) as [_ Hn2].
    unfold edge, subs, mems in *. destruct (erase_names r' _ Hn1) as [_ He1], (erase_names r _ Hn2) as [_ He2].
    repeat case_decide; subst; rewrite ?He1, ?He2, ?Hs; naive_solver.
  - intros r0 Hg0 Hb0 Hk0. rewrite entry_set. case_decide as E; [|by apply (gi_builtin g HI)]. apply nm_inj in E; [|done..]. congruence.
Qed.

(** Loops that erase one role from the entries of many. *)
Fixpoint erased (victim : RoleName) (ks : list string) (m : EdgeSet) : EdgeSet :=
  match ks with
  | [] => m
  | k :: ks => erased victim ks (set_entry k (erase victim) m)
  end.
Lemma entry_erased victim ks : ∀ m k, NoDup ks →
  entry k (erased victim ks m) = if decide (k ∈ ks) then erase victim (entry k m) else entry k m.
Proof.
  induction ks as [|k' ks IH]; intros m k Hnd; cbn [erased]; [case_decide; set_solver|].
  apply NoDup_cons in Hnd as [Hn Hnd]. rewrite IH by done. rewrite !entry_set.
  repeat case_decide; subst; try done; set_solver.
Qed.
Lemma known_erased victim ks : ∀ m k, (∀ k, k ∈ ks → is_Some (m !! k)) → is_Some (erased victim ks m !! k) ↔ is_Some (m !! k).
Proof.
  induction ks as [|k' ks IH]; intros m k Hks; simpl; [done|]. rewrite IH, known_set; [done|apply Hks; set_solver|].
  intros k0 Hk0. apply known_set; [apply Hks; set_solver|]. apply Hks. set_solver.
Qed.
Section erase_loop.
Context (get : RoleGraph → EdgeSet) (put : EdgeSet → RoleGraph → RoleGraph).
Context (Hget : ∀ m g, get (put m g) = m) (Hput : ∀ m m' g, put m (put m' g) = put m g) (Hid : ∀ g, put (get g) g = g).
Context (victim : RoleName) (body : RoleName → RG ()).
Context (Hbody : ∀ r g (Q : () → RoleGraph → Prop), is_Some (get g !! nm r) → has victim (entry (nm r) (get g)) = true →
  Q tt (put (set_entry (nm r) (erase victim) (get g)) g) → wp (body r) Q g).
Lemma wp_erase_loop l : ∀ g (Q : () → RoleGraph → Prop), NoDup (names l) →
  (∀ k, k ∈ names l → is_Some (get g !! k) ∧ nm victim ∈ names (entry k (get g))) →
  Q tt (put (erased victim (names l) (get g)) g) → wp (mfoldl (λ _ it, body it) tt l) Q g.
Proof.
  induction l as [|r l IH]; intros g Q Hnd Hl HQ; cbn [mfoldl]; [simpl in HQ; by rewrite Hid in HQ|].
  cbn [fmap list_fmap] in Hnd. cbn [fmap list_fmap erased] in HQ. apply NoDup_cons in Hnd as [Hn Hnd]. destruct (Hl (nm r)) as [Hr1 Hr2]; [by left|]. apply wp_bind.
  apply Hbody; [done|by rewrite has_spec, bool_decide_true|]. apply IH; [done| |by rewrite Hget, Hput].
  intros k Hk. destruct (Hl k) as [H1 H2]; [by right|]. rewrite Hget, known_set, entry_set by done.
  rewrite decide_False by (by intros ->). done.
Qed.
End erase_loop.

(** ** Changing privileges *)
Lemma with_direct_GInv g r v : GInv g → good r → known g (nm r) → isBuiltinRole r = false → Priv.wf v → NoDup (resources v) →
  GInv (g <| _directPrivilegesForRole := <[nm r := v]> (_directPrivilegesForRole g) |>).
Proof.
  intros HI Hg Hk Hb Hv Hvd. destruct HI as [H1 H2 H3 H4 H5 H6 H7 H8 H9 H10 H11 H13 H12]. split; try done.
  - intros k. simpl. rewrite known_insert, H3. unfold known. simpl. split; [intros [->|?]|]; auto.
  - intros k. unfold directs. simpl. rewrite entry_insert. split; [case_decide; [done|]|]; apply H11.
  - intros k. unfold directs. simpl. rewrite entry_insert. case_decide; [done|apply H13].
  - intros r' Hg' Hb' Hk'. unfold directs. simpl. rewrite entry_insert. case_decide as E; [|by apply H12].
    apply nm_inj in E; [|done..]. congruence.
Qed.
Lemma rel_direct g A k (v : PrivilegeVector) : rel g A →
  rel (g <| _directPrivilegesForRole := <[k := v]> (_directPrivilegesForRole g) |>) (A <| a_direct := <[k := v]> (a_direct A) |>).
Proof. intros (Hk & He & Hd). split_and!; [done|done|]. simpl. by rewrite Hd. Qed.
Lemma rel_directs g A k : rel g A → entry k (a_direct A) = directs g k.
Proof. intros (_ & _ & Hd). unfold directs. by rewrite Hd. Qed.
Lemma wp_noChecks r p g (Q : () → RoleGraph → Prop) :
  Q tt (g <| _directPrivilegesForRole := <[nm r := addPrivilegeToPrivilegeVector (directs g (nm r)) p]> (_directPrivilegesForRole g) |>) →
  wp (_addPrivilegeToRoleNoChecks r p) Q g.
Proof. done. Qed.
(** Adding privileges one by one. *)
Lemma wp_add_privileges r l : ∀ g A, GInv g → rel g A → good r → known g (nm r) → isBuiltinRole r = false → Priv.wf l →
  wp (mfoldl (λ _ p, _addPrivilegeToRoleNoChecks r p) tt l) (λ _ g', GInv g' ∧ known g' (nm r) ∧
    rel g' (A <| a_direct := <[nm r := add_all (entry (nm r) (a_direct A)) l]> (a_direct A) |>)) g.
Proof.
  induction l as [|p l IH]; intros g A HI Hr Hg Hk Hb Hl; cbn [mfoldl].
  - wp_simpl. split_and!; [done|done|]. simpl. destruct Hr as (H1 & H2 & H3). split_and!; [done|done|]. simpl. rewrite <-H3.
    symmetry. apply (set_entry_id (nm r) (_directPrivilegesForRole g)). by apply (gi_direct g HI).
  - apply Forall_cons in Hl as [Hp Hl]. apply wp_bind, wp_noChecks.
    pose proof (rel_directs g A (nm r) Hr) as Hd. set (v := addPrivilegeToPrivilegeVector (directs g (nm r)) p).
    assert (Priv.wf v) as Hv by (apply wf_add; [apply (gi_privs g HI)|done]).
    assert (NoDup (resources v)) as Hvd by apply distinct_add, (gi_distinct g HI).
    eapply wp_mono; [|apply (IH _ (A <| a_direct := <[nm r := v]> (a_direct A) |>)); [by apply with_direct_GInv|by apply rel_direct|done..]].
    intros [] g' (HI' & Hk' & Hr'). split_and!; [done|done|]. simpl in Hr'. rewrite entry_insert, decide_True, insert_insert_eq in Hr' by done.
    cbn [foldl]. rewrite Hd. exact Hr'.
Qed.
Lemma wp_addPrivilegesToRole g A r v : GInv g → rel g A → good r → Priv.wf v →
  wp (addPrivilegesToRole r v) (refines (a_grantPrivileges r v A)) g.
Proof.
  intros HI Hr Hg Hv. unfold addPrivilegesToRole, a_grantPrivileges. apply wp_change; [done..|]. intros g' A' HI' Hr' Hk Hb. wp_simpl.
  eapply wp_mono; [|by apply (wp_add_privileges r v g' A')]. intros [] g2 (? & _ & ?). by wp_simpl.
Qed.
Lemma wp_addPrivilegeToRole g A r p : GInv g → rel g A → good r → ActionSet.wf (_actions p) →
  wp (addPrivilegeToRole r p) (refines (a_grantPrivileges r [p] A)) g.
Proof.
  intros HI Hr Hg Hv. unfold addPrivilegeToRole, a_grantPrivileges. apply wp_change; [done..|]. intros g' A' HI' Hr' Hk Hb.
  assert (Priv.wf [p]) as Hp by (constructor; [done|constructor]).
  pose proof (wp_add_privileges r [p] g' A' HI' Hr' Hg Hk Hb Hp) as H. cbn [mfoldl] in H. wp_simpl. apply wp_bind in H.
  eapply wp_mono; [|exact H]. intros [] g2 (? & _ & ?)%wp_ret. by wp_simpl.
Qed.
(** Removing a privilege. *)
Definition removed (p : Privilege) (r : ResourcePattern) (a : Z) : bool :=
  RP.eqb (_resource p) r && (ActionSet.contains (_actions p) a || ((a =? ActionType.anyAction) && negb (ActionSet.empty (_actions p)))).
Lemma grants1_remove cur p q a : ActionSet.wf (_actions cur) → ActionSet.wf (_actions p) → _resource cur = _resource p →
  grants1 (removeActions cur (_actions p)) q a = grants1 cur q a && negb (removed p q a).
Proof.
  intros Hc Hp E. unfold grants1, removed. simpl. rewrite ActionSet.contains_remove, E by done.
  by destruct (RP.eqb _ _), (ActionSet.contains _ _), (ActionSet.contains _ _), (_ =? _), (ActionSet.empty _).
Qed.
Lemma grants_not_removed p l q a : _resource p ∉ resources l → grants l q a = grants l q a && negb (removed p q a).
Proof.
  intros Hn. unfold removed, RP.eqb. case_bool_decide as E; simpl; [|by rewrite andb_true_r]. subst. by rewrite grants_absent.
Qed.
Lemma remove_privilege_spec p l : Priv.wf l → NoDup (resources l) → ActionSet.wf (_actions p) →
  match remove_privilege p l with
  | OK v => _resource p ∈ resources l ∧ (∀ a, ActionSet.contains (_actions p) a = true → grants l (_resource p) a = true) ∧
            Priv.wf v ∧ NoDup (resources v) ∧ (∀ q, q ∈ resources v → q ∈ resources l) ∧
            ∀ q a, grants v q a = grants l q a && negb (removed p q a)
  | Err e => e = PrivilegeNotFound ∧
             ¬ (_resource p ∈ resources l ∧ ∀ a, ActionSet.contains (_actions p) a = true → grants l (_resource p) a = true)
  end.
Proof.
  intros Hl Hnd Hp. induction Hl as [|cur l Hcur Hl IH]; cbn [remove_privilege]; [split; [done|]; by intros [?%not_elem_of_nil _]|].
  cbn [fmap list_fmap] in Hnd. apply NoDup_cons in Hnd as [Hn Hnd]. unfold RP.eqb at 1. case_bool_decide as E.
  - assert (∀ a, grants (cur :: l) (_resource p) a = ActionSet.contains (_actions cur) a) as Hgr.
    { intros a. rewrite grants_cons, (grants_absent l) by (by rewrite <-E).
      rewrite orb_false_r. unfold grants1, RP.eqb. by rewrite bool_decide_true. }
    destruct (ActionSet.isSupersetOf (_actions cur) (_actions p)) eqn:Hs; cbn [negb].
    + pose proof (proj1 (ActionSet.isSupersetOf_spec _ _) Hs) as Hsup. split_and!; [rewrite <-E; by left|intros a Ha; rewrite Hgr; by apply Hsup|..].
      * destruct (ActionSet.empty _); [done|]. constructor; [by apply ActionSet.wf_remove|done].
      * destruct (ActionSet.empty _); [done|]. by apply NoDup_cons.
      * intros x. destruct (ActionSet.empty _); cbn [fmap list_fmap removeActions _resource]; set_solver.
      * intros q a. pose proof (grants1_remove cur p q a Hcur Hp E) as H1. rewrite grants_cons, andb_orb_distrib_l, <-H1.
        rewrite <-(grants_not_removed p l q a) by (by rewrite <-E).
        destruct (ActionSet.empty (_actions (removeActions cur (_actions p)))) eqn:He; [|done].
        rewrite ActionSet.empty_spec in He by (apply ActionSet.wf_range; by apply ActionSet.wf_remove).
        unfold grants1 at 1. by rewrite He, andb_false_r.
    + split; [done|]. intros [_ H]. apply not_true_iff_false in Hs. apply Hs, ActionSet.isSupersetOf_spec. intros a Ha. rewrite <-Hgr. by apply H.
  - assert (∀ a, grants (cur :: l) (_resource p) a = grants l (_resource p) a) as Hgr.
    { intros a. rewrite grants_cons. unfold grants1 at 1, RP.eqb at 1. by rewrite bool_decide_false. }
    specialize (IH Hnd). destruct (remove_privilege p l) as [v|e].
    + destruct IH as (H1 & H2 & H3 & H4 & H5 & H6). split_and!; [by right|intros a; rewrite Hgr; apply H2|by constructor| | |].
      * cbn [fmap list_fmap]. apply NoDup_cons. split; [|done]. by intros ?%H5.
      * intros x. cbn [fmap list_fmap]. rewrite !elem_of_cons. naive_solver.
      * intros q a. rewrite !grants_cons, (H6 q a), andb_orb_distrib_l. f_equal. unfold grants1, removed, RP.eqb.
        repeat case_bool_decide; subst; simpl; rewrite ?andb_true_r; congruence.
    + destruct IH as [-> H]. split; [done|]. intros [H1 H2]. apply H. split; [|intros a; rewrite <-Hgr; apply H2].
      cbn [fmap list_fmap] in H1. apply elem_of_cons in H1 as [?|?]; [congruence|done].
Qed.
Lemma wp_removePrivilegeFromRole g A r p : GInv g → rel g A → good r → ActionSet.wf (_actions p) →
  wp (removePrivilegeFromRole r p) (refines (a_revokePrivilege r p A)) g.
Proof.
  intros HI Hr Hg Hp. unfold removePrivilegeFromRole, a_revokePrivilege. apply wp_change; [done..|]. intros g' A' HI' Hr' Hk Hb.
  wp_simpl. apply wp_ref_direct; [done..|]. rewrite (rel_directs _ _ _ Hr').
  destruct (remove_privilege p (directs g' (nm r))) as [v|e] eqn:E; unfold on_direct; wp_simpl; [|by split_and!].
  pose proof (remove_privilege_spec p _ (proj1 (gi_privs g' HI' (nm r))) (gi_distinct g' HI' (nm r)) Hp) as H. rewrite E in H.
  destruct H as (_ & _ & ? & ? & _).
  split_and!; [by apply with_direct_GInv|by apply rel_direct|done].
Qed.
Lemma wp_removePrivilegesFromRole r v : ∀ g A, GInv g → rel g A → good r → Priv.wf v →
  wp (removePrivilegesFromRole r v) (refines (a_revokePrivileges r v A)) g.
Proof.
  induction v as [|p v IH]; intros g A HI Hr Hg Hv; cbn [removePrivilegesFromRole a_revokePrivileges]; [by wp_simpl|].
  apply Forall_cons in Hv as [Hp Hv]. wp_simpl. eapply wp_mono; [|by apply (wp_removePrivilegeFromRole g A r p)].
  intros status g' (HI' & Hr' & ->). destruct (sw_isOK _); simpl; [by apply IH|]. by wp_simpl.
Qed.
Lemma wp_removeAllPrivilegesFromRole g A r : GInv g → rel g A → good r →
  wp (removeAllPrivilegesFromRole r) (refines (a_revokeAllPrivileges r A)) g.
Proof.
  intros HI Hr Hg. unfold removeAllPrivilegesFromRole, a_revokeAllPrivileges. apply wp_change; [done..|]. intros g' A' HI' Hr' Hk Hb.
  unfold on_direct. wp_simpl. split_and!; [|by apply rel_direct|done]. apply with_direct_GInv; [done..|constructor|constructor].
Qed.

(** ** Creating, granting and revoking *)
Lemma wp_createRole g A r : GInv g → rel g A → good r → wp (createRole r) (refines (a_create r A)) g.
Proof.
  intros HI Hr Hg. unfold createRole, a_create. wp_simpl. apply (wp_asked g A); [done..|]. intros g' HI' Hr'.
  case_bool_decide as Hin; wp_simpl; [by split_and!|]. pose proof Hin as Hk. rewrite <-(proj1 Hr') in Hk.
  apply wp_create; [done..|]. wp_simpl. unfold a_ensure in Hin. split_and!; [|by apply rel_new|done].
  apply with_role_GInv; try done; [constructor..|]. intros Hb. exfalso. apply Hin. rewrite Hb. cbn [andb].
  destruct (decide (nm r ∈ a_roles A)) as [H|H]; [by rewrite bool_decide_false by naive_solver|]. rewrite bool_decide_true by done.
  unfold a_new. simpl. set_solver.
Qed.
Lemma rel_edges g A (s m : EdgeSet) (E : gset (string * string)) : rel g A → (∀ k, is_Some (s !! k) ↔ known g k) →
  (∀ x y, y ∈ names (entry x s) ↔ (x, y) ∈ E) → rel (with_edges g s m) (A <| a_edges := E |>).
Proof. intros (Hk & He & Hd) Hs HE. split_and!; [|exact HE|exact Hd]. intros k. rewrite <-Hk. apply Hs. Qed.
Lemma rel_same_edges g A : rel g A → rel g (A <| a_edges := a_edges A |>).
Proof. by destruct A. Qed.
Lemma wp_asked_other g A r r' (Q : bool → RoleGraph → Prop) : GInv g → rel g A → good r' → known g (nm r) →
  (∀ g', GInv g' → rel g' (a_ensure r' A) → known g' (nm r) → Q (bool_decide (known g' (nm r'))) g') → wp (roleExists r') Q g.
Proof.
  intros HI Hr Hg' Hk HQ. apply wp_roleExists; [done..|]. apply HQ; [by apply ensured_GInv|by apply rel_ensured|].
  unfold ensured. destruct (isBuiltinRole r' && _); [|done]. apply with_role_known. by right.
Qed.
Lemma wp_addRoleToRole g A r r' : GInv g → rel g A → good r → good r' → wp (addRoleToRole r r') (refines (a_grant r r' A)) g.
Proof.
  intros HI Hr Hg Hg'. unfold addRoleToRole, a_grant. apply wp_change; [done..|]. clear g A HI Hr. intros g A HI Hr Hk Hb. wp_simpl.
  apply (wp_asked_other g A r r'); [done..|]. generalize (a_ensure r' A). clear g A HI Hr Hk. intros A g HI Hr Hk.
  rewrite bool_decide_not, (rel_known g A _ Hr). destruct (decide (known g (nm r'))) as [Hk'|Hk'].
  2:{ rewrite bool_decide_false by done. simpl. wp_simpl. by split_and!. }
  rewrite bool_decide_true by done. simpl. wp_simpl. apply wp_ref_sub; [done..|]. rewrite has_spec.
  assert (nm r' ∈ names (subs g (nm r)) ↔ (nm r, nm r') ∈ a_edges A) as He by apply Hr.
  case_bool_decide as Hin; unfold on_sub, on_members; wp_simpl.
  - split_and!; [done| |done]. apply He in Hin. simpl. replace ({[(nm r, nm r')]} ∪ a_edges A) with (a_edges A) by set_solver.
    by destruct A.
  - split_and!; [by apply (grant_GInv g r r')| |done]. apply (rel_edges g A (set_entry (nm r) (λ l, l ++ [r']) (_roleToSubordinates g))); [done|intros k; by rewrite known_set|].
    intros x y. rewrite entry_set. pose proof (proj1 (proj2 Hr) x y) as Hxy. unfold edge, subs in Hxy. case_decide as E.
    + subst x. rewrite names_app, elem_of_app, list_elem_of_singleton. unfold subs in Hxy. rewrite Hxy. set_solver.
    + rewrite Hxy. set_solver.
Qed.
Lemma wp_removeRoleFromRole g A r r' : GInv g → rel g A → good r → good r' →
  wp (removeRoleFromRole r r') (refines (a_revoke r r' A)) g.
Proof.
  intros HI Hr Hg Hg'. unfold removeRoleFromRole, a_revoke. apply wp_change; [done..|]. clear g A HI Hr. intros g A HI Hr Hk Hb. wp_simpl.
  apply (wp_asked_other g A r r'); [done..|]. generalize (a_ensure r' A). clear g A HI Hr Hk. intros A g HI Hr Hk.
  rewrite bool_decide_not, (rel_known g A _ Hr). destruct (decide (known g (nm r'))) as [Hk'|Hk'].
  2:{ rewrite bool_decide_false by done. simpl. wp_simpl. by split_and!. }
  rewrite bool_decide_true by done. simpl. wp_simpl. apply wp_ref_members; [done..|]. rewrite has_spec.
  assert (nm r' ∈ names (subs g (nm r)) ↔ (nm r, nm r') ∈ a_edges A) as He by apply Hr.
  pose proof (gi_sym g HI (nm r) (nm r')) as Hsym. rewrite bool_decide_not.
  rewrite (bool_decide_ext ((nm r, nm r') ∈ a_edges A) (nm r ∈ names (mems g (nm r')))) by (rewrite <-He; exact Hsym).
  case_bool_decide as Hin; simpl; wp_simpl; [|by split_and!].
  unfold on_members, on_sub, ref_sub. wp_simpl. simpl. rewrite (touch_known (nm r)) by done.
  split; [rewrite has_spec; apply bool_decide_true; by apply Hsym|]. wp_simpl.
  split_and!; [by apply (revoke_GInv g r r')| |done]. apply (rel_edges g A (set_entry (nm r) (erase r') (_roleToSubordinates g))); [done|intros k; by rewrite known_set|].
  intros x y. rewrite entry_set. pose proof (proj1 (proj2 Hr) x y) as Hxy. unfold edge, subs in Hxy. case_decide as E.
  - subst x. destruct (erase_names r' _ (proj1 (gi_nodup g HI (nm r)))) as [_ Hx]. unfold subs in Hx.
    rewrite Hx, Hxy. simpl. rewrite elem_of_difference, elem_of_singleton.
    split; intros [? Hne]; (split; [done|]); [intros [= ->]; by apply Hne|intros ->; by apply Hne].
  - rewrite Hxy. simpl. rewrite elem_of_difference, elem_of_singleton. split; [|by intros [? _]]. intros ?. split; [done|]. by intros [= -> _].
Qed.

(** ** Removing all edges of a role *)
Abbreviation put_members m g := (g <| _roleToMembers := m |>).
Abbreviation put_subs m g := (g <| _roleToSubordinates := m |>).
Section erased_edges.
Context (g : RoleGraph) (r : RoleName) (HI : GInv g) (Hg : good r).
(** The members of the subordinates, without the role. *)
Definition mems_without : EdgeSet := erased r (names (subs g (nm r))) (_roleToMembers g).
Lemma sub_entry k : k ∈ names (subs g (nm r)) → is_Some (_roleToMembers g !! k) ∧ nm r ∈ names (entry k (_roleToMembers g)).
Proof.
  intros Hk. split; [apply (gi_members g HI); by eapply (edge_known g (nm r) k)|]. by apply (gi_sym g HI).
Qed.
Lemma mems_without_known k : is_Some (mems_without !! k) ↔ known g k.
Proof. unfold mems_without. rewrite known_erased; [apply (gi_members g HI)|]. intros k' Hk'. by apply sub_entry. Qed.
Lemma mems_without_entry k :
  NoDup (names (entry k mems_without)) ∧ (∀ x, x ∈ names (entry k mems_without) ↔ x ∈ names (mems g k) ∧ x ≠ nm r) ∧
  ∀ r', r' ∈ entry k mems_without → r' ∈ mems g k.
Proof.
  unfold mems_without. rewrite entry_erased by apply (gi_nodup g HI). destruct (gi_nodup g HI k) as [_ Hnd].
  case_decide as Hk.
  - destruct (erase_names r _ Hnd) as [? ?]. split_and!; [done|done|]. intros r'. apply erase_sublist.
  - split_and!; [done| |done]. intros x. split; [|by intros [? _]]. intros Hx. split; [done|]. intros ->. apply Hk.
    by apply (gi_sym g HI).
Qed.
Lemma revokeAll_GInv : known g (nm r) → isBuiltinRole r = false →
  GInv (with_edges g (set_entry (nm r) (λ _, []) (_roleToSubordinates g)) mems_without).
Proof.
  intros Hk Hb. apply with_edges_GInv; try done.
  - intros k. by rewrite known_set.
  - apply mems_without_known.
  - intros k. split; [|apply mems_without_entry]. rewrite entry_set. case_decide; [constructor|apply (gi_nodup g HI)].
  - intros k r'. rewrite entry_set. intros [H|H].
    + case_decide; [by apply not_elem_of_nil in H|]. apply (gi_good g HI k). by left.
    + apply mems_without_entry in H. apply (gi_good g HI k). by right.
  - intros x y. destruct (mems_without_entry y) as (_ & Hx & _). rewrite Hx, entry_set. pose proof (gi_sym g HI x y) as Hs.
    unfold edge, subs in Hs. case_decide as E; [subst; split; [by intros ?%not_elem_of_nil|naive_solver]|]. rewrite Hs. naive_solver.
  - intros r0 Hg0 Hb0 Hk0. rewrite entry_set. case_decide; [done|]. by apply (gi_builtin g HI).
Qed.
End erased_edges.
Lemma wp_removeAllRolesFromRole g A r : GInv g → rel g A → good r → wp (removeAllRolesFromRole r) (refines (a_revokeAll r A)) g.
Proof.
  intros HI Hr Hg. unfold removeAllRolesFromRole, a_revokeAll. apply wp_change; [done..|]. clear g A HI Hr. intros g A HI Hr Hk Hb.
  wp_simpl. apply wp_ref_sub; [done..|]. wp_simpl.
  apply (wp_erase_loop _roleToMembers (λ m g, put_members m g)) with (victim := r); [done|done|by intros []| |apply (gi_nodup g HI)|by apply sub_entry|].
  { clear. intros r' g Q Hk Hin HQ. wp_simpl. unfold ref_members, on_members. wp_simpl. simpl. rewrite touch_known by done.
    split; [done|]. wp_simpl. exact HQ. }
  unfold on_sub. wp_simpl. split_and!; [by apply (revokeAll_GInv g r)| |done].
  apply (rel_edges g A (set_entry (nm r) (λ _, []) (_roleToSubordinates g))); [done|intros k; by rewrite known_set|].
  intros x y. rewrite entry_set. pose proof (proj1 (proj2 Hr) x y) as Hxy. unfold edge, subs in Hxy. simpl. rewrite elem_of_filter. simpl.
  case_decide as E; [subst; split; [by intros ?%not_elem_of_nil|by intros [? _]]|]. rewrite Hxy. naive_solver.
Qed.

(** ** Removing a role *)
Section deleted.
Context (g : RoleGraph) (r : RoleName) (HI : GInv g) (Hg : good r).
Definition members_left : list RoleName := entry (nm r) (mems_without g r).
Definition subs_without : EdgeSet := erased r (names members_left) (_roleToSubordinates g).
Lemma members_left_spec k : k ∈ names members_left ↔ edge g k (nm r) ∧ k ≠ nm r.
Proof. unfold members_left. destruct (mems_without_entry g r HI (nm r)) as (_ & Hx & _). by rewrite Hx, (gi_sym g HI). Qed.
Lemma subs_without_known k : is_Some (subs_without !! k) ↔ known g k.
Proof. unfold subs_without. rewrite known_erased; [done|]. intros k' [Hk' _]%members_left_spec. by eapply (edge_known g k' (nm r)). Qed.
Lemma subs_without_entry k : k ≠ nm r →
  NoDup (names (entry k subs_without)) ∧ (∀ x, x ∈ names (entry k subs_without) ↔ x ∈ names (subs g k) ∧ x ≠ nm r) ∧
  ∀ r', r' ∈ entry k subs_without → r' ∈ subs g k.
Proof.
  intros Hne. unfold subs_without. rewrite entry_erased by apply (mems_without_entry g r HI). destruct (gi_nodup g HI k) as [Hnd _].
  case_decide as Hk.
  - destruct (erase_names r _ Hnd) as [? ?]. split_and!; [done|done|]. intros r'. apply erase_sublist.
  - split_and!; [done| |done]. intros x. split; [|by intros [? _]]. intros Hx. split; [done|]. intros ->. apply Hk.
    by apply members_left_spec.
Qed.
Definition deleted : RoleGraph :=
  mkGraph (delete (nm r) subs_without) (delete (nm r) (_roleToIndirectSubordinates g)) (delete (nm r) (mems_without g r))
    (delete (nm r) (_directPrivilegesForRole g)) (delete (nm r) (_allPrivilegesForRole g)) (set_erase r (_allRoles g)).
Lemma deleted_known k : known deleted k ↔ k ≠ nm r ∧ known g k.
Proof. unfold known. simpl. by rewrite known_delete, subs_without_known. Qed.
Lemma deleted_subs k x : x ∈ names (subs deleted k) ↔ k ≠ nm r ∧ x ≠ nm r ∧ x ∈ names (subs g k).
Proof.
  unfold subs at 1. simpl. rewrite entry_delete. case_decide as E; [split; [by intros ?%not_elem_of_nil|naive_solver]|].
  destruct (subs_without_entry k E) as (_ & -> & _). naive_solver.
Qed.
Lemma deleted_mems k x : x ∈ names (mems deleted k) ↔ k ≠ nm r ∧ x ≠ nm r ∧ x ∈ names (mems g k).
Proof.
  unfold mems at 1. simpl. rewrite entry_delete. case_decide as E; [split; [by intros ?%not_elem_of_nil|naive_solver]|].
  destruct (mems_without_entry g r HI k) as (_ & -> & _). naive_solver.
Qed.
Lemma deleted_member k r' : r' ∈ subs deleted k ∨ r' ∈ mems deleted k → (r' ∈ subs g k ∨ r' ∈ mems g k) ∧ nm r' ≠ nm r.
Proof.
  intros H. split.
  - unfold subs, mems in H. simpl in H. rewrite !entry_delete in H. case_decide as E; [destruct H as [H|H]; by apply not_elem_of_nil in H|].
    destruct H as [H|H]; [left; by eapply subs_without_entry|right; by eapply (mems_without_entry g r HI)].
  - destruct H as [H|H]; apply (list_elem_of_fmap_2 nm) in H; [apply deleted_subs in H|apply deleted_mems in H]; naive_solver.
Qed.
Lemma deleted_GInv : isBuiltinRole r = false → GInv deleted.
Proof.
  intros Hb. destruct (set_erase_spec r _ (gi_sorted g HI)) as [Hso Hin]. split.
  - intros k. rewrite deleted_known. simpl. by rewrite known_delete, (gi_indirect g HI).
  - intros k. rewrite deleted_known. simpl. by rewrite known_delete, (mems_without_known g r HI).
  - intros k. rewrite deleted_known. simpl. by rewrite known_delete, (gi_direct g HI).
  - intros k. rewrite deleted_known. simpl. by rewrite known_delete, (gi_all g HI).
  - intros k. unfold subs, mems. simpl. rewrite !entry_delete. case_decide; [split; constructor|].
    split; [by apply subs_without_entry|by apply (mems_without_entry g r HI)].
  - intros k r' [H Hne]%deleted_member. rewrite deleted_known. destruct (gi_good g HI k r' H). done.
  - intros x y. unfold edge. rewrite deleted_subs, deleted_mems, (gi_sym g HI x y : _ ↔ _). naive_solver.
  - done.
  - intros r'. simpl. rewrite Hin, (gi_roles g HI), deleted_known. split; [|naive_solver]. intros (Hne & Hg' & Hk). split_and!; [done| |done].
    intros E. apply Hne. by apply nm_inj.
  - intros k [_ Hk]%deleted_known. by apply (gi_named g HI).
  - intros k. unfold directs, alls. simpl. rewrite !entry_delete. case_decide; [split; constructor|apply (gi_privs g HI)].
  - intros k. unfold directs. simpl. rewrite entry_delete. case_decide; [constructor|apply (gi_distinct g HI)].
  - intros r' Hg' Hb' [Hne Hk]%deleted_known. destruct (gi_builtin g HI r' Hg' Hb' Hk) as [Hs Hd]. split.
    + destruct (subs deleted (nm r')) as [|c l] eqn:E; [done|]. exfalso. assert (nm c ∈ names (subs deleted (nm r'))) as H by (rewrite E; by left).
      apply deleted_subs in H as (_ & _ & H). rewrite Hs in H. by apply not_elem_of_nil in H.
    + unfold directs. simpl. rewrite entry_delete. by case_decide.
Qed.
End deleted.
Lemma wp_deleteRole g A r : GInv g → rel g A → good r → wp (deleteRole r) (refines (a_delete r A)) g.
Proof.
  intros HI Hr Hg. unfold deleteRole, a_delete. apply wp_change; [done..|]. clear g A HI Hr. intros g A HI Hr Hk Hb.
  wp_simpl. apply wp_ref_sub; [done..|]. wp_simpl.
  apply (wp_erase_loop _roleToMembers (λ m g, put_members m g)) with (victim := r) (body := λ it, erase_member it r);
    [done|done|by intros []| |apply (gi_nodup g HI)|by apply sub_entry|].
  { clear. intros r' g Q Hk Hin HQ. unfold erase_member, ref_members, on_members, erase_found. wp_simpl. simpl. rewrite touch_known by done.
    rewrite Hin. wp_simpl. cbn [owp]. by wp_simpl. }
  unfold ref_members. wp_simpl. simpl. fold (mems_without g r). rewrite (touch_known (nm r)) by (by apply mems_without_known).
  fold (members_left g r).
  apply (wp_erase_loop _roleToSubordinates (λ m g, put_subs m g)) with (victim := r) (body := λ it, erase_sub it r);
    [done|done|by intros []| |apply (mems_without_entry g r HI)| |].
  { clear. intros r' g Q Hk Hin HQ. unfold erase_sub, ref_sub, on_sub, erase_found. wp_simpl. simpl. rewrite touch_known by done.
    rewrite Hin. wp_simpl. cbn [owp]. by wp_simpl. }
  { intros k [Hk' _]%(members_left_spec g r HI). split; [by eapply (edge_known g k (nm r))|done]. }
  wp_simpl. split_and!; [by apply (deleted_GInv g r)| |done]. destruct Hr as (Hkn & He & Hd). split_and!.
  - intros k. rewrite (deleted_known g r HI k : known (deleted g r) k ↔ _), Hkn. simpl. set_solver.
  - intros x y. rewrite (deleted_subs g r HI x y : edge (deleted g r) x y ↔ _). simpl. rewrite elem_of_filter. simpl.
    rewrite <-He. unfold edge. naive_solver.
  - simpl. by rewrite Hd.
Qed.

(** ** Replacing a role *)
Lemma a_ensure_known r A : nm r ∈ a_roles A → a_ensure r A = A.
Proof. intros H. unfold a_ensure. rewrite bool_decide_false by naive_solver. by rewrite andb_false_r. Qed.
Lemma a_ensure_plain r A : isBuiltinRole r = false → a_ensure r A = A.
Proof. intros H. unfold a_ensure. by rewrite H. Qed.
Lemma a_ensure_builtin r A : isBuiltinRole r = true → nm r ∈ a_roles (a_ensure r A).
Proof.
  intros H. unfold a_ensure. rewrite H. cbn [andb]. destruct (decide (nm r ∈ a_roles A)) as [E|E].
  - by rewrite bool_decide_false by naive_solver.
  - rewrite bool_decide_true by done. unfold a_new. simpl. set_solver.
Qed.
Lemma a_change_on r f A : nm r ∈ a_roles A → isBuiltinRole r = false → a_change r f A = f A.
Proof. intros Hin Hb. unfold a_change. by rewrite a_ensure_plain, bool_decide_false, Hb by naive_solver. Qed.
(** Other roles keep what they have. *)
Definition holds r (v : PrivilegeVector) A : Prop := nm r ∈ a_roles A ∧ entry (nm r) (a_direct A) = v.
Lemma new_holds r v r' d A : nm r' ∉ a_roles A → holds r v A → holds r v (a_new r' d A).
Proof.
  intros Hn [Hin He]. split; simpl; [set_solver|]. rewrite entry_insert. case_decide as E; [|done]. by rewrite E in Hin.
Qed.
Lemma create_spec r v r' A : holds r v A →
  ((a_create r' A).1 = OK tt ∨ (a_create r' A).1 = Err DuplicateKey) ∧ nm r' ∈ a_roles (a_create r' A).2 ∧ holds r v (a_create r' A).2.
Proof.
  intros Hh. assert (holds r v (a_ensure r' A)) as Hh'.
  { unfold a_ensure. destruct (isBuiltinRole r'); [|done]. simpl. case_bool_decide; [by apply new_holds|done]. }
  unfold a_create. case_bool_decide; simpl; [auto|]. split_and!; [auto|set_solver|by apply new_holds].
Qed.
Definition replace_step r A r' : Abs := let A := (a_create r' A).2 in A <| a_edges := {[(nm r, nm r')]} ∪ a_edges A |>.
Lemma step_holds r v A r' : holds r v A → holds r v (replace_step r A r').
Proof. intros Hh. destruct (create_spec r v r' A Hh) as (_ & _ & ? & ?). done. Qed.
Lemma grant_step r v A r' : holds r v A → isBuiltinRole r = false →
  a_grant r r' (a_create r' A).2 = (OK tt, replace_step r A r').
Proof.
  intros Hh Hb. destruct (create_spec r v r' A Hh) as (_ & Hin' & Hh'). unfold a_grant. rewrite a_change_on; [|apply Hh'|done].
  cbn zeta. rewrite a_ensure_known, bool_decide_false by naive_solver. done.
Qed.
Lemma wp_fassertOK line (m : RG Status) A g (Q : () → RoleGraph → Prop) :
  wp m (refines (OK tt, A)) g → (∀ g', GInv g' → rel g' A → Q tt g') → wp (fassertOK line m) Q g.
Proof.
  intros Hm HQ. unfold fassertOK. wp_simpl. eapply wp_mono; [|exact Hm]. intros status g' (HI & Hr & ->). wp_simpl. split; [done|by apply HQ].
Qed.
Lemma wp_replace_loop r rs : good r → isBuiltinRole r = false → Forall good rs → ∀ g A, GInv g → rel g A → holds r [] A →
  wp (mfoldl (λ _ grantedRole,
        status ← createRole grantedRole;
        invariant 17170 (λ _, sw_isOK status || is_err DuplicateKey status) ;;
        fassertOK 17171 (addRoleToRole r grantedRole)) tt rs)
     (λ _ g', GInv g' ∧ rel g' (foldl (replace_step r) A rs) ∧ holds r [] (foldl (replace_step r) A rs)) g.
Proof.
  intros Hg Hb Hrs. induction Hrs as [|r' rs Hg' Hrs IH]; intros g A HI Hr Hh; cbn [mfoldl]; [by wp_simpl|]. wp_simpl.
  eapply wp_mono; [|by apply (wp_createRole g A r')]. intros status g1 (HI1 & Hr1 & ->).
  destruct (create_spec r [] r' A Hh) as (Hst & _ & _). wp_simpl.
  split; [destruct Hst as [-> | ->]; [done|by rewrite orb_true_r]|].
  eapply wp_fassertOK.
  - rewrite <-(grant_step r [] A r' Hh Hb). by apply wp_addRoleToRole.
  - intros g2 HI2 Hr2. apply IH; [done|done|by apply step_holds].
Qed.
Lemma wp_replaceRole g A r rs v : GInv g → rel g A → good r → Forall good rs → Priv.wf v →
  wp (replaceRole r rs v) (refines (a_replace r rs v A)) g.
Proof.
  intros HI Hr Hg Hrs Hv. unfold replaceRole, a_replace. cbn zeta. apply wp_bind.
  eapply wp_mono; [|by apply (wp_removeAllPrivilegesFromRole g A r)]. intros status g1 (HI1 & Hr1 & ->).
  unfold a_revokeAllPrivileges, a_change in *. destruct (isBuiltinRole r) eqn:Hb.
  { rewrite bool_decide_false in * by (pose proof (a_ensure_builtin r A Hb); naive_solver). by split_and!. }
  rewrite a_ensure_plain in * by done.
  set (A1 := mkAbs ({[nm r]} ∪ a_roles A) (a_edges A) (<[nm r := []]> (a_direct A))).
  (* the role is there, without privileges *)
  assert (∀ g2, GInv g2 → rel g2 A1 → wp (_ ← fassertOK 17169 (removeAllRolesFromRole r);
    _ ← mfoldl (λ _ grantedRole, status ← createRole grantedRole;
        invariant 17170 (λ _, sw_isOK status || is_err DuplicateKey status) ;;
        fassertOK 17171 (addRoleToRole r grantedRole)) tt rs;
    _ ← fassertOK 17172 (addPrivilegesToRole r v); mret (OK tt)) (refines (a_replace r rs v A)) g2) as Hrest.
  { intros g2 HI2 Hr2. unfold a_replace. rewrite Hb. cbn zeta. rewrite a_ensure_plain by done. wp_simpl. eapply wp_fassertOK.
    { pose proof (wp_removeAllRolesFromRole g2 A1 r HI2 Hr2 Hg) as H. unfold a_revokeAll in H.
      rewrite a_change_on in H by first [done|simpl; set_solver]. exact H. }
    intros g3 HI3 Hr3. wp_simpl. eapply wp_mono; [|apply (wp_replace_loop r rs); [done..|exact Hr3|]].
    2:{ split; simpl; [set_solver|]. by rewrite entry_insert, decide_True. }
    intros [] g4 (HI4 & Hr4 & Hh4). wp_simpl. eapply wp_fassertOK.
    { pose proof (wp_addPrivilegesToRole g4 _ r v HI4 Hr4 Hg Hv) as H. unfold a_grantPrivileges in H.
      rewrite a_change_on in H by first [apply Hh4|done]. rewrite (proj2 Hh4) in H. exact H. }
    intros g5 HI5 Hr5. wp_simpl. split_and!; [done|exact Hr5|done]. }
  unfold a_replace in Hrest. rewrite Hb in Hrest. cbn zeta in Hrest. rewrite a_ensure_plain in Hrest by done.
  destruct (decide (nm r ∈ a_roles A)) as [Hin|Hin].
  - rewrite bool_decide_false in * by naive_solver. apply wp_bind, wp_ret, Hrest; [done|]. unfold A1.
    replace ({[nm r]} ∪ a_roles A) with (a_roles A) by (clear -Hin; set_solver). exact Hr1.
  - rewrite bool_decide_true in * by done. apply wp_bind. cbn [fst is_err]. rewrite bool_decide_true by done. eapply wp_fassertOK.
    { pose proof (wp_createRole g1 A r HI1 Hr1 Hg) as H. unfold a_create in H. rewrite a_ensure_plain in H by done. cbn zeta in H.
      rewrite bool_decide_false in H by done. exact H. }
    intros g2 HI2 Hr2. apply Hrest; [done|]. exact Hr2.
Qed.

(** ** All of them *)
Lemma wp_perform g A o : GInv g → rel g A → proper o → wp (perform o) (refines (spec o A)) g.
Proof.
  intros HI Hr Hp. destruct o; cbn [perform spec proper] in *; repeat match goal with H : _ ∧ _ |- _ => destruct H end.
  - by apply wp_createRole.
  - by apply wp_deleteRole.
  - wp_simpl. apply (wp_asked g A); [done..|]. intros g' HI' Hr'. wp_simpl. split_and!; [done|done|]. by case_bool_decide.
  - by apply wp_addRoleToRole.
  - by apply wp_removeRoleFromRole.
  - by apply wp_removeAllRolesFromRole.
  - by apply wp_addPrivilegeToRole.
  - by apply wp_addPrivilegesToRole.
  - by apply wp_removePrivilegeFromRole.
  - by apply wp_removePrivilegesFromRole.
  - by apply wp_removeAllPrivilegesFromRole.
  - by apply wp_replaceRole.
Qed.
