(* ===== verification/RoleGraphDfs.v ===== *)
(** * Everything a role has

    [recomputePrivilegeData] walks the graph depth first.  It ends, reports a cycle exactly when the
    graph has one, and otherwise leaves with every role all the roles it can reach and the union of
    their privileges. *)
From stdpp Require Import relations.
From S2P Require Import Prelude ParseNumber AuthPrivilege BuiltinRoles RoleGraph RoleSet RoleGraphInv.
From Stdlib Require Import String.
Open Scope string_scope.
Open Scope list_scope.
Open Scope Z_scope.
Import Priv Builtin Graph.
Implicit Types (g : RoleGraph) (role r : RoleName) (k x y : string).

(** ** Sets of role names *)
Lemma uset_insert_names l r x : x ∈ names (uset_insert l r) ↔ x ∈ names l ∨ x = nm r.
Proof.
  unfold uset_insert. rewrite has_spec. case_bool_decide as E; [naive_solver|]. rewrite fmap_app, elem_of_app. simpl.
  by rewrite list_elem_of_singleton.
Qed.
Lemma uset_insert_all rs x : ∀ l, x ∈ names (foldl uset_insert l rs) ↔ x ∈ names l ∨ x ∈ names rs.
Proof.
  induction rs as [|r rs IH]; intros l; simpl; [split; [by left|by intros [?|?%not_elem_of_nil]]|].
  rewrite IH, uset_insert_names, elem_of_cons. naive_solver.
Qed.

Lemma wp_on_all k f g (Q : () → RoleGraph → Prop) :
  Q tt (g <| _allPrivilegesForRole := set_entry k f (_allPrivilegesForRole g) |>) → wp (on_all k f) Q g.
Proof. intros HQ. unfold on_all. by wp_simpl. Qed.
Lemma wp_on_indirect k f g (Q : () → RoleGraph → Prop) :
  Q tt (g <| _roleToIndirectSubordinates := set_entry k f (_roleToIndirectSubordinates g) |>) → wp (on_indirect k f) Q g.
Proof. intros HQ. unfold on_indirect. by wp_simpl. Qed.

Section dfs.
Context (g0 : RoleGraph) (HI0 : GInv g0).
Abbreviation E := (edge g0).
Definition keys : gset string := dom (_roleToSubordinates g0).
Lemma elem_keys k : k ∈ keys ↔ known g0 k.
Proof. apply elem_of_dom. Qed.
Definition indirects g k : list RoleName := entry k (_roleToIndirectSubordinates g).
(** Only the results change. *)
Record framed g : Prop := mkFramed {
  fr_sub : _roleToSubordinates g = _roleToSubordinates g0;
  fr_members : _roleToMembers g = _roleToMembers g0;
  fr_direct : _directPrivilegesForRole g = _directPrivilegesForRole g0;
  fr_roles : _allRoles g = _allRoles g0;
  fr_indirect : ∀ k, is_Some (_roleToIndirectSubordinates g !! k) ↔ known g0 k;
  fr_all : ∀ k, is_Some (_allPrivilegesForRole g !! k) ↔ known g0 k;
  fr_wf : ∀ k, Priv.wf (alls g k) }.
Lemma framed_self : framed g0.
Proof. split; try done; [apply HI0|apply HI0|]. intros k. apply (gi_privs g0 HI0). Qed.
Lemma framed_known g k : framed g → known g k ↔ known g0 k.
Proof. intros [Hs _ _ _ _ _ _]. unfold known. by rewrite Hs. Qed.
Lemma framed_subs g k : framed g → subs g k = subs g0 k.
Proof. intros Hf. unfold subs. by rewrite (fr_sub g Hf). Qed.
Lemma framed_directs g k : framed g → directs g k = directs g0 k.
Proof. intros Hf. unfold directs. by rewrite (fr_direct g Hf). Qed.
Lemma framed_GInv g : framed g → GInv g.
Proof.
  intros Hf. pose proof (framed_known g) as Hk. assert (∀ k, mems g k = mems g0 k) as Hm by (intros k; unfold mems; by rewrite (fr_members g Hf)).
  split.
  - intros k. rewrite Hk by done. by apply fr_indirect.
  - intros k. rewrite Hk, (fr_members g Hf) by done. apply HI0.
  - intros k. rewrite Hk, (fr_direct g Hf) by done. apply HI0.
  - intros k. rewrite Hk by done. by apply fr_all.
  - intros k. rewrite framed_subs, Hm by done. apply HI0.
  - intros k r. rewrite framed_subs, Hm, Hk by done. apply HI0.
  - intros x y. unfold edge. rewrite framed_subs, Hm by done. apply HI0.
  - rewrite (fr_roles g Hf). apply HI0.
  - intros r. rewrite (fr_roles g Hf), Hk by done. apply HI0.
  - intros k. rewrite Hk by done. apply HI0.
  - intros k. rewrite framed_directs by done. split; [apply (gi_privs g0 HI0)|by apply fr_wf].
  - intros k. rewrite framed_directs by done. apply HI0.
  - intros r. rewrite Hk, framed_subs, framed_directs by done. apply HI0.
Qed.

(** ** What is to be computed *)
Definition computed g x : Prop :=
  (∀ y, y ∈ names (indirects g x) ↔ tc E x y) ∧
  (∀ q a, grants (alls g x) q a = true ↔ ∃ y, rtc E x y ∧ grants (directs g0 y) q a = true).
Definition done_with g (visited : gset string) : Prop :=
  ∀ x, x ∈ visited → known g0 x ∧ (∀ y, E x y → y ∈ visited) ∧ ¬ tc E x x ∧ computed g x.
Lemma visited_closed g visited x y : done_with g visited → rtc E x y → x ∈ visited → y ∈ visited.
Proof. intros Hd. induction 1 as [|x z y Hxz _ IH]; [done|]. intros Hx. apply IH. by apply (Hd x Hx). Qed.
Lemma tc_step x y : tc E x y ↔ ∃ c, E x c ∧ (y = c ∨ tc E c y).
Proof.
  split; [intros [?|? c ? ? ?]; eauto|]. intros (c & Hc & [->|H]); [by apply tc_once|by eapply tc_l].
Qed.
Lemma rtc_step x y : rtc E x y ↔ x = y ∨ ∃ c, E x c ∧ rtc E c y.
Proof. split; [intros [|]; eauto|]. intros [->|(c & Hc & H)]; [done|by eapply rtc_l]. Qed.

(** ** The end of a role *)
Definition put_at k (v : PrivilegeVector) (l : list RoleName) g : RoleGraph :=
  g <| _allPrivilegesForRole := <[k := v]> (_allPrivilegesForRole g) |>
    <| _roleToIndirectSubordinates := <[k := l]> (_roleToIndirectSubordinates g) |>.
Lemma put_at_twice k v l v' l' g : put_at k v l (put_at k v' l' g) = put_at k v l g.
Proof. unfold put_at. simpl. by rewrite !insert_insert_eq. Qed.
Lemma put_at_framed k v l g : framed g → known g0 k → Priv.wf v → framed (put_at k v l g).
Proof.
  intros [H1 H2 H3 H4 H5 H6 H7] Hk Hv. split; try done.
  - intros k'. simpl. rewrite known_insert, H5. naive_solver.
  - intros k'. simpl. rewrite known_insert, H6. naive_solver.
  - intros k'. unfold alls. simpl. rewrite entry_insert. case_decide; [done|apply H7].
Qed.
Lemma put_at_alls k v l g k' : alls (put_at k v l g) k' = if decide (k' = k) then v else alls g k'.
Proof. apply entry_insert. Qed.
Lemma put_at_indirects k v l g k' : indirects (put_at k v l g) k' = if decide (k' = k) then l else indirects g k'.
Proof. apply entry_insert. Qed.
Definition union_privileges g (v : PrivilegeVector) (cs : list RoleName) : PrivilegeVector :=
  foldl (λ v c, add_all v (alls g (nm c))) v cs.
Definition union_roles g (l : list RoleName) (cs : list RoleName) : list RoleName :=
  foldl (λ l c, foldl uset_insert l (indirects g (nm c))) l cs.
Lemma wp_children k g cs : framed g → known g0 k → ∀ v l (Q : () → RoleGraph → Prop),
  (∀ c, c ∈ cs → nm c ≠ k ∧ known g0 (nm c)) → Priv.wf v →
  Q tt (put_at k (union_privileges g v cs) (union_roles g l cs) g) →
  wp (mfoldl (λ _ childRole,
    childsPrivileges ← ref_all (nm childRole);
    on_all k (λ v, add_all v childsPrivileges) ;;
    childsRoles ← ref_indirect (nm childRole);
    on_indirect k (λ l, foldl uset_insert l childsRoles)) tt cs) Q (put_at k v l g).
Proof.
  intros Hf Hk. induction cs as [|c cs IH]; intros v l Q Hcs Hv HQ; cbn [mfoldl]; [done|].
  destruct (Hcs c) as [Hne Hkc]; [by left|]. pose proof (put_at_framed k v l g Hf Hk Hv) as Hf1. wp_simpl.
  apply wp_ref_all; [by apply framed_GInv|by apply framed_known|]. unfold on_all. wp_simpl. rewrite put_at_alls, decide_False by done.
  unfold set_entry. set (v2 := add_all (entry k (_allPrivilegesForRole (put_at k v l g))) (alls g (nm c))).
  assert (v2 = add_all v (alls g (nm c))) as Hv2 by (unfold v2; f_equal; unfold put_at; simpl; rewrite entry_insert; by case_decide).
  assert (Priv.wf v2) as Hw2 by (rewrite Hv2; apply wf_add_all; [done|by apply fr_wf]).
  set (g2 := _ <| _allPrivilegesForRole := _ |>). assert (g2 = put_at k v2 l g) as ->.
  { unfold g2, put_at. simpl. by rewrite insert_insert_eq. }
  apply wp_ref_indirect; [by apply framed_GInv, put_at_framed|apply framed_known; [by apply put_at_framed|done]|].
  unfold on_indirect. wp_simpl. unfold set_entry. fold (indirects (put_at k v2 l g) (nm c)). rewrite put_at_indirects, decide_False by done.
  set (l2 := foldl uset_insert (entry k (_roleToIndirectSubordinates (put_at k v2 l g))) (indirects g (nm c))).
  assert (l2 = foldl uset_insert l (indirects g (nm c))) as Hl2 by (unfold l2; f_equal; unfold put_at; simpl; rewrite entry_insert; by case_decide).
  set (g3 := _ <| _roleToIndirectSubordinates := _ |>). assert (g3 = put_at k v2 l2 g) as ->.
  { unfold g3, put_at. simpl. by rewrite insert_insert_eq. }
  apply IH; [intros c' Hc'; apply Hcs; by right|done|]. rewrite Hv2, Hl2. exact HQ.
Qed.
Lemma elem_union_roles g cs x : ∀ l, x ∈ names (union_roles g l cs) ↔ x ∈ names l ∨ ∃ c, c ∈ cs ∧ x ∈ names (indirects g (nm c)).
Proof.
  unfold union_roles. induction cs as [|c cs IH]; intros l; simpl; [set_solver|]. rewrite IH, uset_insert_all. set_solver.
Qed.
Lemma wf_union_privileges g cs : framed g → ∀ v, Priv.wf v → Priv.wf (union_privileges g v cs).
Proof.
  intros Hf. unfold union_privileges. induction cs as [|c cs IH]; intros v Hv; simpl; [done|]. apply IH, wf_add_all; [done|by apply fr_wf].
Qed.
Lemma grants_union g cs q a : framed g → ∀ v, Priv.wf v →
  grants (union_privileges g v cs) q a = true ↔ grants v q a = true ∨ ∃ c, c ∈ cs ∧ grants (alls g (nm c)) q a = true.
Proof.
  intros Hf. unfold union_privileges. induction cs as [|c cs IH]; intros v Hv; simpl; [set_solver|].
  rewrite IH, grants_add_all, orb_true_iff by (try apply wf_add_all; try apply fr_wf; done). set_solver.
Qed.
(** The role has its own privileges and roles, and those of its subordinates. *)
Definition finished k g : RoleGraph :=
  put_at k (union_privileges g (directs g0 k) (subs g0 k)) (union_roles g (foldl uset_insert [] (subs g0 k)) (subs g0 k)) g.
Lemma finished_framed k g : framed g → known g0 k → framed (finished k g).
Proof. intros Hf Hk. apply put_at_framed; [done..|]. apply wf_union_privileges; [done|]. apply (gi_privs g0 HI0). Qed.
Lemma sub_edge k c : c ∈ subs g0 k → E k (nm c).
Proof. apply list_elem_of_fmap_2. Qed.
Lemma wp_finish_role c g (Q : () → RoleGraph → Prop) : framed g → known g0 (nm c) → ¬ E (nm c) (nm c) →
  Q tt (finished (nm c) g) → wp (finish_role c (subs g0 (nm c))) Q g.
Proof.
  intros Hf Hk Hne HQ. unfold finish_role. wp_simpl.
  apply wp_ref_all; [by apply framed_GInv|by apply framed_known|]. wp_simpl.
  apply wp_ref_direct; [by apply framed_GInv|by apply framed_known|]. wp_simpl. rewrite framed_directs by done.
  apply wp_on_all. wp_simpl. apply wp_on_indirect.
  apply (wp_children (nm c) g (subs g0 (nm c)) Hf Hk (directs g0 (nm c)) (foldl uset_insert [] (subs g0 (nm c))));
    [|apply (gi_privs g0 HI0)|exact HQ].
  intros ch Hch. split; [|by eapply sub_known]. intros Heq. apply Hne. rewrite <-Heq at 2. by apply sub_edge.
Qed.
Section finishing.
Context (g : RoleGraph) (visited : gset string) (k : string).
Context (Hf : framed g) (Hd : done_with g visited) (Hk : known g0 k) (Hnew : k ∉ visited) (Hch : ∀ y, E k y → y ∈ visited).
Lemma child_computed c : c ∈ subs g0 k → computed g (nm c).
Proof. intros Hc. apply (Hd (nm c)). by apply Hch, sub_edge. Qed.
Lemma fresh_acyclic : ¬ tc E k k.
Proof.
  intros (c & Hc & H)%tc_step. apply Hnew. destruct H as [->|H]; [by apply Hch|].
  eapply visited_closed; [done|by apply tc_rtc|by apply Hch].
Qed.
Lemma finished_computed : computed (finished k g) k.
Proof.
  unfold computed, finished. rewrite put_at_indirects, put_at_alls, !decide_True by done. split.
  - intros y. rewrite elem_union_roles, uset_insert_all, tc_step. split.
    + intros [[?%not_elem_of_nil|Hy]|(c & Hc & Hy)]; [done|eauto|]. exists (nm c). split; [by apply sub_edge|right]. by apply (child_computed c Hc).
    + intros (c & Hc & [->|Hy]); [auto|]. right. apply list_elem_of_fmap in Hc as (c' & -> & Hc). exists c'. split; [done|]. by apply (child_computed c' Hc).
  - intros q a. rewrite grants_union by (try apply (gi_privs g0 HI0); done). split.
    + intros [H|(c & Hc & H)]; [by exists k|]. apply (child_computed c Hc) in H as (y & Hy & H). exists y. split; [|done].
      eapply rtc_l; [by apply sub_edge|done].
    + intros (y & [->|(c & Hc & Hy)]%rtc_step & H); [auto|]. right. apply list_elem_of_fmap in Hc as (c' & -> & Hc). exists c'. split; [done|].
      apply (child_computed c' Hc). eauto.
Qed.
Lemma finished_done : done_with (finished k g) ({[k]} ∪ visited).
Proof.
  intros x Hx. destruct (decide (x = k)) as [->|Hne].
  - split_and!; [done| |apply fresh_acyclic|apply finished_computed]. intros y Hy. apply elem_of_union. right. by apply Hch.
  - assert (x ∈ visited) as Hv by (clear -Hx Hne; set_solver). destruct (Hd x Hv) as (? & Hcl & ? & Hc). split_and!; [done| |done|].
    + intros y Hy. apply elem_of_union. right. by apply Hcl.
    + unfold computed, finished. by rewrite put_at_indirects, put_at_alls, !decide_False by done.
Qed.
End finishing.

(** ** The walk *)
(** Each role in progress but the first was reached from the one below it. *)
Fixpoint chain (st : list RoleName) : Prop :=
  match st with
  | c :: (p :: _) as rest => E (nm p) (nm c) ∧ chain rest
  | _ => True
  end.
Lemma chain_tail c st : chain (c :: st) → chain st.
Proof. destruct st; [done|by intros [_ ?]]. Qed.
Lemma chain_reaches st : ∀ c x, chain (c :: st) → x ∈ names st → tc E x (nm c).
Proof.
  induction st as [|p st IH]; intros c x Hc Hx; [by apply not_elem_of_nil in Hx|]. destruct Hc as [He Hc].
  apply elem_of_cons in Hx as [->|Hx]; [by apply tc_once|]. eapply tc_r; [by apply (IH p)|done].
Qed.
Record in_progress (st : list RoleName) (visited : gset string) : Prop := mkProgress {
  ip_chain : chain st;
  ip_known : Forall (λ c, good c ∧ known g0 (nm c) ∧ nm c ∉ visited) st;
  ip_nodup : NoDup (names (tail st)) }.
Definition measure (visited : gset string) : nat := size (keys ∖ visited).
Lemma progress_length st visited : in_progress st visited → NoDup (names st) → (List.length st ≤ measure visited)%nat.
Proof.
  intros [_ Hk _] Hnd. unfold measure. rewrite <-(length_fmap nm st), <-(size_list_to_set (C := gset string) _ Hnd). apply subseteq_size.
  intros x (c & -> & Hc)%elem_of_list_to_set%list_elem_of_fmap. rewrite Forall_forall in Hk. destruct (Hk c Hc) as (_ & H & Hn).
  apply elem_of_difference. split; [by apply elem_keys|done].
Qed.
Lemma measure_visit k visited : known g0 k → k ∉ visited → measure visited = S (measure ({[k]} ∪ visited)).
Proof.
  intros Hk Hn. unfold measure. replace (keys ∖ visited) with ({[k]} ∪ keys ∖ ({[k]} ∪ visited)).
  - rewrite size_union by (clear; set_solver). by rewrite size_singleton.
  - apply set_eq. intros x. apply elem_keys in Hk. destruct (decide (x = k)) as [->|]; set_solver.
Qed.
Lemma visit_loop_eq fuel st visited : visit_loop fuel st visited =
  match st with
  | [] => mret (OK tt, visited)
  | c :: others =>
      _ ← invariant 17277 (λ _, bool_decide (nm c ∉ visited));
      ex ← roleExists c;
      if negb ex then mret (Err RoleNotFound, visited) else
      if has c others then mret (Err GraphContainsCycle, visited) else
      ds ← ref_sub (nm c);
      match fuel with
      | O => out_of_fuel
      | S fuel =>
          match List.find (λ ch, bool_decide (nm ch ∉ visited)) ds with
          | Some ch => visit_loop fuel (ch :: st) visited
          | None => _ ← finish_role c ds; visit_loop fuel others ({[nm c]} ∪ visited)
          end
      end
  end.
Proof. by destruct fuel, st. Qed.
Definition walked (st : list RoleName) (visited : gset string) (r : Status * gset string) g' : Prop :=
  framed g' ∧
  match r.1 with
  | OK _ => done_with g' r.2 ∧ visited ⊆ r.2 ∧ ∀ c, c ∈ st → nm c ∈ r.2
  | Err e => e = GraphContainsCycle ∧ ∃ x, tc E x x
  end.
Lemma wp_known_role c g (Q : bool → RoleGraph → Prop) : framed g → good c → known g0 (nm c) → Q true g → wp (roleExists c) Q g.
Proof.
  intros Hf Hg Hk HQ. pose proof (proj2 (framed_known g (nm c) Hf) Hk) as Hk'.
  assert (ensured g c = g) as He by (unfold ensured; rewrite bool_decide_false by naive_solver; by rewrite andb_false_r).
  apply wp_roleExists; [by apply framed_GInv|done|]. by rewrite He, bool_decide_true.
Qed.
Lemma push_progress c others ch visited : in_progress (c :: others) visited → has c others = false →
  ch ∈ subs g0 (nm c) → nm ch ∉ visited → in_progress (ch :: c :: others) visited.
Proof.
  intros [Hc Hk Hnd] Hn Hch Hv. rewrite has_spec in Hn. apply bool_decide_eq_false_1 in Hn. split.
  - split; [by apply sub_edge|done].
  - constructor; [|done]. destruct (sub_known g0 _ ch HI0 Hch). done.
  - simpl in *. by apply NoDup_cons.
Qed.
Lemma pop_progress c others visited : in_progress (c :: others) visited → has c others = false →
  in_progress others ({[nm c]} ∪ visited).
Proof.
  intros [Hc Hk Hnd] Hn. rewrite has_spec in Hn. apply bool_decide_eq_false_1 in Hn. split.
  - by eapply chain_tail.
  - inversion_clear Hk. rewrite Forall_forall in *. intros r Hr. destruct (H0 r Hr) as (? & ? & ?). split_and!; [done|done|].
    rewrite not_elem_of_union, not_elem_of_singleton. split; [|done]. intros Heq. apply Hn. rewrite <-Heq. by apply list_elem_of_fmap_2.
  - destruct others; [constructor|]. simpl in *. by apply NoDup_cons in Hnd as [_ ?].
Qed.
(** One round: the guards hold, and a role in progress twice is a cycle. *)
Lemma wp_visit_role fuel c others visited g : framed g → in_progress (c :: others) visited →
  (has c others = false → NoDup (names (c :: others)) →
   wp (match fuel with
       | O => out_of_fuel
       | S fuel =>
           match List.find (λ ch, bool_decide (nm ch ∉ visited)) (subs g0 (nm c)) with
           | Some ch => visit_loop fuel (ch :: c :: others) visited
           | None => _ ← finish_role c (subs g0 (nm c)); visit_loop fuel others ({[nm c]} ∪ visited)
           end
       end) (walked (c :: others) visited) g) →
  wp (visit_loop fuel (c :: others) visited) (walked (c :: others) visited) g.
Proof.
  intros Hf Hp Hrest. rewrite visit_loop_eq. pose proof (ip_known _ _ Hp) as Hk. inversion_clear Hk as [|? ? (Hg & Hk0 & Hnv) _].
  wp_simpl. split; [by apply bool_decide_true|]. apply wp_known_role; [done..|]. cbn [negb]. pose proof (has_spec c others) as Hs.
  destruct (has c others); symmetry in Hs; [apply bool_decide_eq_true_1 in Hs|apply bool_decide_eq_false_1 in Hs].
  - wp_simpl. split; [done|]. split; [done|]. exists (nm c). eapply chain_reaches; [apply (ip_chain _ _ Hp)|done].
  - wp_simpl. apply wp_ref_sub; [by apply framed_GInv|by apply framed_known|]. rewrite framed_subs by done. apply Hrest; [done|].
    apply NoDup_cons. split; [done|apply (ip_nodup _ _ Hp)].
Qed.
Lemma walked_mono st st' visited visited' o g : walked st' visited' o g → visited ⊆ visited' →
  (∀ c, c ∈ st → c ∈ st' ∨ nm c ∈ visited') → walked st visited o g.
Proof.
  intros [Hf Hr] Hsub Hin. split; [done|]. destruct o.1; [|done]. destruct Hr as (? & Hv & Hr). split_and!; [done|set_solver|].
  intros c [Hc|Hc]%Hin; [by apply Hr|by apply Hv].
Qed.
Lemma wp_visit_loop fuel : ∀ st visited g, framed g → done_with g visited → in_progress st visited →
  (2 * measure visited + 1 ≤ fuel + List.length st)%nat → wp (visit_loop fuel st visited) (walked st visited) g.
Proof.
  induction fuel as [|fuel IH]; intros [|c others] visited g Hf Hd Hp Hfuel; try (rewrite visit_loop_eq; wp_simpl; split; [done|];
    split_and!; [done..|]; by intros ? ?%not_elem_of_nil); apply wp_visit_role; try done; intros Hh Hnd.
  { pose proof (progress_length _ _ Hp Hnd). simpl in *. lia. }
  pose proof (ip_known _ _ Hp) as Hk. inversion_clear Hk as [|? ? (Hg & Hk0 & Hnv) _]. destruct (List.find _ _) as [ch|] eqn:Hfind.
  - apply find_some in Hfind as [Hin%list_elem_of_In Hch]. apply bool_decide_eq_true_1 in Hch.
    eapply wp_mono; [|apply (IH (ch :: c :: others) visited g); [done|done|by apply push_progress|simpl in *; lia]].
    intros r g' Hw. eapply walked_mono; [done|done|]. intros c' Hc'. left. by right.
  - assert (∀ y, E (nm c) y → y ∈ visited) as Hch.
    { intros y (ch & -> & Hch)%list_elem_of_fmap. pose proof (find_none _ _ Hfind ch (proj1 (list_elem_of_In _ _) Hch)) as Hb. simpl in Hb.
      apply bool_decide_eq_false_1 in Hb. by destruct (decide (nm ch ∈ visited)). }
    wp_simpl. apply wp_finish_role; [done|done|by intros H; apply Hnv, Hch|].
    eapply wp_mono; [|apply (IH others ({[nm c]} ∪ visited) (finished (nm c) g)); [by apply finished_framed|by apply finished_done|by apply pop_progress|]].
    2:{ rewrite (measure_visit (nm c) visited) in Hfuel by done. simpl in Hfuel. lia. }
    intros r g' Hw. eapply walked_mono; [done|clear; set_solver|]. intros c' [->|Hc']%elem_of_cons; [right; clear; set_solver|by left].
Qed.

(** ** All roles *)
Lemma wp_helper role visited g : framed g → done_with g visited → good role → known g0 (nm role) →
  wp (_recomputePrivilegeDataHelper role visited) (walked [role] visited) g.
Proof.
  intros Hf Hd Hg Hk. unfold _recomputePrivilegeDataHelper. case_bool_decide as Hv.
  - wp_simpl. split; [done|]. split_and!; [done|done|]. by intros c ->%list_elem_of_singleton.
  - wp_simpl. apply wp_visit_loop; [done|done| |].
    + split; [done|by repeat constructor|constructor].
    + unfold loop_fuel, measure. rewrite (fr_sub g Hf). pose proof (subseteq_size (keys ∖ visited) keys ltac:(set_solver)) as H.
      unfold keys in H at 2. rewrite size_dom in H. simpl. lia.
Qed.
(** Once for every role of the table: a cycle, or everything is computed. *)
Definition recomputed (status : Status) g' : Prop :=
  framed g' ∧
  match status with
  | OK _ => (∀ x, ¬ tc E x x) ∧ ∀ x, known g0 x → computed g' x
  | Err e => e = GraphContainsCycle ∧ ∃ x, tc E x x
  end.
Lemma cycle_known x : tc E x x → known g0 x.
Proof. intros (c & Hc & _)%tc_step. by apply (edge_known g0 x c). Qed.
Lemma wp_recompute_loop order : Forall good order → (∀ r, r ∈ order → known g0 (nm r)) → ∀ visited g,
  framed g → done_with g visited → (∀ x, known g0 x → x ∈ visited ∨ x ∈ names order) →
  wp (recompute_loop order visited) recomputed g.
Proof.
  intros Hgo. induction Hgo as [|r order Hg Hgo IH]; intros Hkn visited g Hf Hd Hall; cbn [recompute_loop].
  - wp_simpl. assert (∀ x, known g0 x → x ∈ visited) as Hv by (intros x [?|?%not_elem_of_nil]%Hall; done). split; [done|]. split.
    + intros x Hx. destruct (Hd x) as (_ & _ & Hn & _); [by apply Hv, cycle_known|done].
    + intros x Hx. by apply (Hd x), Hv.
  - wp_simpl. eapply wp_mono; [|apply wp_helper; [done|done|done|apply Hkn; by left]]. intros [[[]|e] visited'] g' [Hf' Hr]; simpl in Hr.
    + destruct Hr as (Hd' & Hsub & Hin). simpl. apply IH; [intros r' Hr'; apply Hkn; by right|done|done|].
      intros x [Hx|[->|Hx]%elem_of_cons]%Hall; [by left; apply Hsub|left; apply Hin; by left|by right].
    + simpl. wp_simpl. by split.
Qed.
Lemma wp_recomputePrivilegeData order : Forall good order → (∀ x, x ∈ names order ↔ known g0 x) →
  wp (recomputePrivilegeData order) recomputed g0.
Proof.
  intros Hg Ho. apply wp_recompute_loop; [done| |apply framed_self|by intros x ?%not_elem_of_empty|].
  - intros r Hr. apply Ho. by apply list_elem_of_fmap_2.
  - intros x Hx. right. by apply Ho.
Qed.
End dfs.
