(* ===== verification/RoleGraphProps.v ===== *)
(** * What the role graph promises

    The states a role graph can be in ([reachable], with the abstract graph they stand for), and the
    theorems about all of them: the operations do what the specification says, the results of
    [recomputePrivilegeData] are exact, built-in roles are fixed, [getRolesForDatabase] lists a
    database's roles, privileges are added and removed action by action, and all action sets are
    well formed. *)
From stdpp Require Import relations.
From S2P Require Import Prelude ParseNumber AuthPrivilege BuiltinRoles RoleGraph RoleSet RoleGraphInv RoleGraphOps RoleGraphDfs.
From Stdlib Require Import String.
Open Scope string_scope.
Open Scope list_scope.
Open Scope Z_scope.
Import Priv Builtin Graph.
Implicit Types (g : RoleGraph) (A : Abs) (role r : RoleName) (k x y : string).

(** ** The roles of a database *)
Definition roles_of (dbname : string) : list string :=
  database_roles ++ (if String.eqb dbname ADMIN_DBNAME then admin_roles else []).
Definition a_ensureAll (dbname : string) A : Abs := foldl (λ A name, a_ensure (mkRole name dbname) A) A (roles_of dbname).
Definition good_db (dbname : string) : Prop := NamespaceString.find_char "@"%char dbname = false.
Lemma wp_ensure_list dbname l : good_db dbname → ∀ g A, GInv g → rel g A →
  wp (mfoldl (λ _ name, _createBuiltinRoleIfNeeded (mkRole name dbname)) tt l)
     (λ _ g', GInv g' ∧ rel g' (foldl (λ A name, a_ensure (mkRole name dbname) A) A l)) g.
Proof.
  intros Hd. induction l as [|name l IH]; intros g A HI Hr; cbn [mfoldl]; [by wp_simpl|]. wp_simpl.
  apply wp_ensure; [done|]. apply IH; [by apply ensured_GInv|by apply rel_ensured].
Qed.
Lemma wp_ensureAll dbname g A : good_db dbname → GInv g → rel g A →
  wp (_createBuiltinRolesForDBIfNeeded dbname) (λ _ g', GInv g' ∧ rel g' (a_ensureAll dbname A)) g.
Proof.
  intros Hd HI Hr. unfold _createBuiltinRolesForDBIfNeeded, a_ensureAll, roles_of. wp_simpl.
  eapply wp_mono; [|by apply wp_ensure_list]. intros [] g1 [HI1 Hr1]. rewrite foldl_app.
  destruct (String.eqb dbname ADMIN_DBNAME); [by apply wp_ensure_list|by wp_simpl].
Qed.
Lemma a_ensure_incl r A : a_roles A ⊆ a_roles (a_ensure r A).
Proof. unfold a_ensure. destruct (isBuiltinRole r); simpl; [|done]. case_bool_decide; simpl; set_solver. Qed.
Lemma ensure_list_incl dbname l : ∀ A, a_roles A ⊆ a_roles (foldl (λ A name, a_ensure (mkRole name dbname) A) A l).
Proof. induction l as [|n l IH]; intros A; simpl; [done|]. etrans; [apply (a_ensure_incl (mkRole n dbname))|apply IH]. Qed.
Lemma a_ensureAll_builtin dbname r A : isBuiltinRole r = true → getDB r = dbname → nm r ∈ a_roles (a_ensureAll dbname A).
Proof.
  intros Hb Hdb. assert (getRole r ∈ roles_of dbname) as Hin.
  { unfold roles_of. apply elem_of_app. destruct (builtin_cases r Hb) as [_ [?|[Ha ?]]]; [by left|right]. subst dbname. by rewrite Ha. }
  unfold a_ensureAll. apply list_elem_of_split in Hin as (l1 & l2 & ->). rewrite foldl_app. simpl.
  apply ensure_list_incl. destruct r as [n d]. simpl in *. subst d. by apply a_ensure_builtin.
Qed.
Lemma wp_getRolesForDatabase dbname g A : good_db dbname → GInv g → rel g A →
  wp (getRolesForDatabase dbname) (λ l g', GInv g' ∧ rel g' (a_ensureAll dbname A) ∧ sorted l ∧
    ∀ r, r ∈ l ↔ getDB r = dbname ∧ nm r ∈ a_roles (a_ensureAll dbname A)) g.
Proof.
  intros Hd HI Hr. unfold getRolesForDatabase. wp_simpl. eapply wp_mono; [|by apply wp_ensureAll].
  intros [] g' [HI' Hr']. wp_simpl. rewrite database_range by apply (gi_sorted g' HI'). split_and!; [done|done|by apply sorted_filter, gi_sorted|].
  intros r. rewrite list_elem_of_filter, (gi_roles g' HI'), (proj1 Hr' (nm r)). split; [naive_solver|].
  intros [Hdb Hin]. split_and!; [done| |done]. unfold good. by rewrite Hdb.
Qed.

(** ** The states of a graph *)
Definition empty_abs : Abs := mkAbs ∅ ∅ ∅.
(** [order] lists the keys of the table of subordinates. *)
Definition table_order (order : list RoleName) A : Prop := Forall good order ∧ ∀ x, x ∈ names order ↔ x ∈ a_roles A.
Inductive reachable : Abs → RoleGraph → Prop :=
| reach_new : reachable empty_abs empty_graph
| reach_op A g o status g' : reachable A g → proper o → perform o g = Ret (status, g') → reachable (spec o A).2 g'
| reach_list A g dbname l g' :
    reachable A g → good_db dbname → getRolesForDatabase dbname g = Ret (l, g') → reachable (a_ensureAll dbname A) g'
| reach_recompute A g order status g' :
    reachable A g → table_order order A → recomputePrivilegeData order g = Ret (status, g') → reachable A g'.

Abbreviation a_edge A := (λ x y, (x, y) ∈ a_edges A).
(** Everything the role has: its own privileges and those of the roles it can reach. *)
Definition has_action A k (q : ResourcePattern) (a : Z) : Prop :=
  ∃ y, rtc (a_edge A) k y ∧ grants (entry y (a_direct A)) q a = true.
(** The results kept in the graph are those of the graph. *)
Definition consistent g A : Prop := ∀ k, k ∈ a_roles A →
  (∀ y, y ∈ names (indirects g k) ↔ tc (a_edge A) k y) ∧ (∀ q a, grants (alls g k) q a = true ↔ has_action A k q a).
Definition acyclic A : Prop := ∀ k, ¬ tc (a_edge A) k k.
Lemma rel_edge g A : rel g A → ∀ x y, edge g x y ↔ a_edge A x y.
Proof. by intros (_ & He & _). Qed.
Lemma tc_equiv (R R' : string → string → Prop) : (∀ x y, R x y ↔ R' x y) → ∀ x y, tc R x y ↔ tc R' x y.
Proof.
  intros H. assert (∀ (R R' : string → string → Prop), (∀ x y, R x y → R' x y) → ∀ x y, tc R x y → tc R' x y) as Hm.
  { clear. intros R R' H x y. induction 1; [apply tc_once; auto|eapply tc_l; eauto]. }
  intros x y. split; apply Hm; intros ? ?; apply H.
Qed.
Lemma rtc_equiv (R R' : string → string → Prop) : (∀ x y, R x y ↔ R' x y) → ∀ x y, rtc R x y ↔ rtc R' x y.
Proof. intros H x y. rewrite !rtc_tc. by rewrite (tc_equiv R R' H). Qed.
Lemma computed_abs g0 g A k : rel g0 A → computed g0 g k →
  (∀ y, y ∈ names (indirects g k) ↔ tc (a_edge A) k y) ∧ (∀ q a, grants (alls g k) q a = true ↔ has_action A k q a).
Proof.
  intros Hr [H1 H2]. split.
  - intros y. rewrite H1. apply tc_equiv. by apply rel_edge.
  - intros q a. rewrite H2. unfold has_action. destruct Hr as (_ & He & Hd).
    setoid_rewrite (rtc_equiv _ _ He). unfold directs. by rewrite Hd.
Qed.
Definition recompute_result A (status : Status) g' : Prop :=
  GInv g' ∧ rel g' A ∧ match status with
                       | OK _ => acyclic A ∧ consistent g' A
                       | Err e => e = GraphContainsCycle ∧ ¬ acyclic A
                       end.
Lemma framed_rel g0 g A : framed g0 g → rel g0 A → rel g A.
Proof.
  intros Hf (Hk & He & Hd). split_and!.
  - intros k. rewrite (framed_known g0 g k Hf). apply Hk.
  - intros x y. unfold edge. rewrite (framed_subs g0 g x Hf). apply He.
  - by rewrite (fr_direct g0 g Hf).
Qed.
Lemma wp_recompute g A order : GInv g → rel g A → table_order order A → wp (recomputePrivilegeData order) (recompute_result A) g.
Proof.
  intros HI Hr [Hg Ho]. eapply wp_mono; [|apply wp_recomputePrivilegeData; [done|done|intros x; by rewrite Ho, (proj1 Hr x)]].
  intros status g' [Hf Hs]. pose proof (framed_rel g g' A Hf Hr) as Hr'. pose proof (tc_equiv _ _ (rel_edge g A Hr)) as Htc.
  split_and!; [by eapply (framed_GInv g)|done|]. destruct status as [[]|e].
  - destruct Hs as [Hac Hc]. split; [intros k Hk; by apply (Hac k), Htc|]. intros k Hk. apply (computed_abs g); [done|].
    apply Hc. by apply (proj1 Hr).
  - destruct Hs as [-> [x Hx]]. split; [done|]. intros Hac. by apply (Hac x), Htc.
Qed.
Lemma graph_reachable_inv A g : reachable A g → GInv g ∧ rel g A.
Proof.
  induction 1 as [|A g o status g' _ [HI Hr] Hp Hx|A g dbname l g' _ [HI Hr] Hd Hx|A g order status g' _ [HI Hr] Ho Hx].
  - split; [apply empty_GInv|]. split_and!; [|unfold edge; simpl; set_solver|done]. intros k. unfold known. simpl. rewrite lookup_empty.
    split; [by intros [? ?]|by intros ?%not_elem_of_empty].
  - pose proof (wp_perform g A o HI Hr Hp) as H. unfold wp in H. rewrite Hx in H. by destruct H as (? & ? & _).
  - pose proof (wp_getRolesForDatabase dbname g A Hd HI Hr) as H. unfold wp in H. rewrite Hx in H. by destruct H as (? & ? & _).
  - pose proof (wp_recompute g A order HI Hr Ho) as H. unfold wp in H. rewrite Hx in H. by destruct H as (? & ? & _).
Qed.
(** ** Questions: the answer is the entry, which is empty for a role that does not exist *)
Section questions.
Context (g : RoleGraph) (r : RoleName) (HI : GInv g) (Hg : good r).
Abbreviation g' := (ensured g r).
Lemma wp_question {V} (f : RG (list V)) (v : list V) (Q : list V → RoleGraph → Prop) :
  (known g' (nm r) → Q v g' → wp f Q g') → (¬ known g' (nm r) → v = []) → Q v g' →
  wp (ex ← roleExists r; if (ex : bool) then f else mret []) Q g.
Proof.
  intros Hf Hv HQ. wp_simpl. apply wp_roleExists; [done|done|]. case_bool_decide as Hk; [by apply Hf|]. wp_simpl. by rewrite <-Hv.
Qed.
Lemma wp_getDirectSubordinates (Q : list RoleName → RoleGraph → Prop) : Q (subs g' (nm r)) g' → wp (getDirectSubordinates r) Q g.
Proof.
  apply wp_question; [|by apply entry_unknown]. intros Hk HQ. by apply wp_ref_sub; [apply ensured_GInv|..].
Qed.
Lemma wp_getIndirectSubordinates (Q : list RoleName → RoleGraph → Prop) :
  Q (indirects g' (nm r)) g' → wp (getIndirectSubordinates r) Q g.
Proof.
  pose proof (ensured_GInv g r HI Hg) as HI'. apply wp_question; [intros Hk HQ; by apply wp_ref_indirect|].
  intros Hk. apply entry_unknown. by rewrite (gi_indirect _ HI').
Qed.
Lemma wp_getDirectMembers (Q : list RoleName → RoleGraph → Prop) : Q (mems g' (nm r)) g' → wp (getDirectMembers r) Q g.
Proof.
  pose proof (ensured_GInv g r HI Hg) as HI'. apply wp_question; [intros Hk HQ; by apply wp_ref_members|].
  intros Hk. apply entry_unknown. by rewrite (gi_members _ HI').
Qed.
Lemma wp_getDirectPrivileges (Q : PrivilegeVector → RoleGraph → Prop) : Q (directs g' (nm r)) g' → wp (getDirectPrivileges r) Q g.
Proof.
  pose proof (ensured_GInv g r HI Hg) as HI'. apply wp_question; [intros Hk HQ; by wp_simpl|].
  intros Hk. apply entry_unknown. by rewrite (gi_direct _ HI').
Qed.
Lemma wp_getAllPrivileges (Q : PrivilegeVector → RoleGraph → Prop) : Q (alls g' (nm r)) g' → wp (getAllPrivileges r) Q g.
Proof.
  pose proof (ensured_GInv g r HI Hg) as HI'. apply wp_question; [intros Hk HQ; by wp_simpl|].
  intros Hk. apply entry_unknown. by rewrite (gi_all _ HI').
Qed.
End questions.
Lemma ensured_known g A r : rel g A → nm r ∈ a_roles A → ensured g r = g.
Proof.
  intros Hr Hin. assert (known g (nm r)) by (by apply (proj1 Hr)). unfold ensured. rewrite bool_decide_false by naive_solver. by rewrite andb_false_r.
Qed.


(** C9. [recomputePrivilegeData] ends, whatever the order of the hash table, reports a cycle exactly
    when the graph has one, and otherwise [getIndirectSubordinates] gives exactly the roles that can
    be reached from a role, and [getAllPrivileges] grants exactly the actions granted to the role
    itself or to a role it can reach. *)
Theorem recomputePrivilegeData_exact A g order : reachable A g → table_order order A →
  ∃ status g', recomputePrivilegeData order g = Ret (status, g') ∧ reachable A g' ∧
    (status = OK tt ↔ acyclic A) ∧ (status = Err GraphContainsCycle ↔ ¬ acyclic A) ∧
    (status = OK tt → ∀ r, good r → nm r ∈ a_roles A →
       ∃ l v, getIndirectSubordinates r g' = Ret (l, g') ∧ (∀ y, y ∈ names l ↔ tc (a_edge A) (nm r) y) ∧
         getAllPrivileges r g' = Ret (v, g') ∧ ∀ q a, grants v q a = true ↔ has_action A (nm r) q a).
Proof.
  intros Hre Ho. destruct (graph_reachable_inv A g Hre) as [HI Hr].
  destruct (proj1 (wp_Ret _ _ _) (wp_recompute g A order HI Hr Ho)) as (status & g' & Hx & HI' & Hr' & Hs). exists status, g'.
  split_and!; [done|by eapply reach_recompute|destruct status as [[]|]; naive_solver|destruct status as [[]|]; naive_solver|].
  intros -> r Hg Hin. destruct Hs as [_ Hc]. destruct (Hc (nm r) Hin) as [H1 H2]. pose proof (ensured_known g' A r Hr' Hin) as He.
  exists (indirects g' (nm r)), (alls g' (nm r)).
  assert (wp (getIndirectSubordinates r) (λ l g1, l = indirects g' (nm r) ∧ g1 = g') g') as (? & ? & -> & -> & ->)%wp_Ret
    by (apply wp_getIndirectSubordinates; by rewrite ?He).
  assert (wp (getAllPrivileges r) (λ v g1, v = alls g' (nm r) ∧ g1 = g') g') as (? & ? & -> & -> & ->)%wp_Ret
    by (apply wp_getAllPrivileges; by rewrite ?He).
  done.
Qed.

(** The operations that would change the role [r]. *)
Definition changes r (o : graph_op) : Prop :=
  match o with
  | CreateRole _ | RoleExists _ => False
  | DeleteRole r' | RemoveAllRolesFromRole r' | RemoveAllPrivilegesFromRole r' => r' = r
  | AddRoleToRole r' _ | RemoveRoleFromRole r' _ | AddPrivilegeToRole r' _ | AddPrivilegesToRole r' _ => r' = r
  | RemovePrivilegeFromRole r' _ | ReplaceRole r' _ _ => r' = r
  | RemovePrivilegesFromRole r' v => r' = r ∧ v ≠ []
  end.
Lemma a_change_builtin r f A : isBuiltinRole r = true → a_change r f A = (Err InvalidRoleModification, a_ensure r A).
Proof.
  intros Hb. unfold a_change. cbn zeta. rewrite bool_decide_false by (pose proof (a_ensure_builtin r A Hb); naive_solver). by rewrite Hb.
Qed.
Lemma changes_builtin r o A : isBuiltinRole r = true → changes r o → (spec o A).1 = Err InvalidRoleModification.
Proof.
  intros Hb Hc. destruct o as [| | | | | | | | |r' v| |r' rs v]; cbn [changes spec] in *; try done;
    try (subst; unfold a_delete, a_grant, a_revoke, a_revokeAll, a_grantPrivileges, a_revokePrivilege, a_revokeAllPrivileges;
         by rewrite a_change_builtin).
  - destruct Hc as [-> Hv]. destruct v as [|p v]; [done|]. cbn [a_revokePrivileges]. unfold a_revokePrivilege. by rewrite a_change_builtin.
  - subst. unfold a_replace. by rewrite Hb.
Qed.
Lemma builtin_grants r q a : isBuiltinRole r = true → grants (builtin_direct r) q a = grants (builtin_privileges r) q a.
Proof.
  intros Hb. destruct (builtin_table_eq r Hb) as [_ Hw]. unfold builtin_direct. by rewrite grants_add_all by (done || constructor).
Qed.
Lemma grants_elem v q a : grants v q a = true → ∃ p, p ∈ v ∧ _resource p = q ∧ ActionSet.contains (_actions p) a = true.
Proof.
  intros (p & Hp & [H1 H2]%andb_true_iff)%existsb_exists. exists p. split_and!; [by apply list_elem_of_In| |done].
  by apply bool_decide_eq_true in H1.
Qed.
(** What a built-in role may do: everything only for the server itself; a role of a database stays in its database. *)
Lemma builtin_limits r q a : isBuiltinRole r = true → grants (builtin_direct r) q a = true →
  (r ≠ system_role → a ≠ internal ∧ a ≠ ActionType.anyAction) ∧ (getRole r ∈ own_roles → in_database (getDB r) q).
Proof.
  intros Hb. rewrite builtin_grants by done. intros (p & Hp & Hq & Ha)%grants_elem. destruct (builtin_table r Hb) as (v & Hv & _ & Hpl & Hin).
  unfold builtin_privileges in Hp. rewrite Hv in Hp. split.
  - intros Hne. specialize (Hpl Hne). rewrite Forall_forall in Hpl. specialize (Hpl p Hp). unfold plain, ordinary in Hpl.
    rewrite !andb_true_iff, !negb_true_iff in Hpl. destruct Hpl as [[_ H1] H2]. split; congruence.
  - intros Hown. specialize (Hin Hown). rewrite Forall_forall in Hin. rewrite <-Hq. by apply Hin.
Qed.
Lemma ensured_builtin g r : GInv g → good r → isBuiltinRole r = true →
  subs (ensured g r) (nm r) = [] ∧ directs (ensured g r) (nm r) = builtin_direct r.
Proof.
  intros HI Hg Hb. apply (gi_builtin _ (ensured_GInv g r HI Hg)); [done|done|]. unfold ensured. rewrite Hb. simpl.
  case_bool_decide as Hk; [apply with_role_known; by left|]. destruct (decide (known g (nm r))); [done|naive_solver].
Qed.

(** C25. Built-in roles are fixed (names whose database part has no at sign): they exist without being
    created, every change is refused, they have no subordinates and exactly the privileges of their
    table. For [read], [readWrite], [userAdmin], [dbAdmin] and [dbOwner] these are the documented
    actions on the role's own database and nothing outside of it; no table but that of [__system]
    has the internal or the any action. *)
Theorem builtin_roles_fixed A g r : reachable A g → good r → isBuiltinRole r = true →
  (∃ g', createRole r g = Ret (Err DuplicateKey, g')) ∧
  (∀ o, proper o → changes r o → ∃ g', perform o g = Ret (Err InvalidRoleModification, g') ∧ reachable (spec o A).2 g') ∧
  ∃ g' v table, getDirectSubordinates r g = Ret ([], g') ∧ getDirectPrivileges r g = Ret (v, g') ∧
    addPrivilegesForBuiltinRole r [] = Ret (true, table) ∧
    (∀ q a, grants v q a = grants table q a) ∧
    (getRole r ∈ own_roles → ∀ q a, grants v q a = grants (own_table (getDB r) (getRole r)) q a) ∧
    ∀ q a, grants v q a = true →
      (r ≠ system_role → a ≠ internal ∧ a ≠ ActionType.anyAction) ∧ (getRole r ∈ own_roles → in_database (getDB r) q).
Proof.
  intros Hre Hg Hb. destruct (graph_reachable_inv A g Hre) as [HI Hr]. split_and!.
  - destruct (proj1 (wp_Ret _ _ _) (wp_createRole g A r HI Hr Hg)) as (status & g' & Hx & _ & _ & ->). exists g'. rewrite Hx.
    unfold a_create. by rewrite bool_decide_true by (by apply a_ensure_builtin).
  - intros o Hp Hc. destruct (proj1 (wp_Ret _ _ _) (wp_perform g A o HI Hr Hp)) as (status & g' & Hx & _ & _ & ->). exists g'.
    rewrite (changes_builtin r o A Hb Hc) in Hx. split; [done|by eapply reach_op].
  - destruct (ensured_builtin g r HI Hg Hb) as [Hs Hd]. exists (ensured g r), (builtin_direct r), (builtin_privileges r).
    assert (wp (getDirectSubordinates r) (λ l g1, l = [] ∧ g1 = ensured g r) g) as (? & ? & -> & -> & ->)%wp_Ret
      by (by apply wp_getDirectSubordinates).
    assert (wp (getDirectPrivileges r) (λ l g1, l = builtin_direct r ∧ g1 = ensured g r) g) as (? & ? & -> & -> & ->)%wp_Ret
      by (by apply wp_getDirectPrivileges).
    destruct (builtin_table_eq r Hb) as [Ht _]. destruct (builtin_cases r Hb) as [Hc _].
    split_and!; [done|done|done|intros q a; by apply builtin_grants| |intros q a; by apply builtin_limits].
    intros Hown q a. rewrite builtin_grants by done. by apply own_table_exact.
Qed.

(** [getRolesForDatabase] lists, in order and once, exactly the roles of the database: those
    that were created and its built-in ones. *)
Theorem getRolesForDatabase_exact A g dbname : reachable A g → good_db dbname →
  ∃ l g', getRolesForDatabase dbname g = Ret (l, g') ∧ reachable (a_ensureAll dbname A) g' ∧ sorted l ∧
    ∀ r, r ∈ l ↔ getDB r = dbname ∧ (nm r ∈ a_roles A ∨ isBuiltinRole r = true).
Proof.
  intros Hre Hd. destruct (graph_reachable_inv A g Hre) as [HI Hr].
  destruct (proj1 (wp_Ret _ _ _) (wp_getRolesForDatabase dbname g A Hd HI Hr)) as (l & g' & Hx & HI' & Hr' & Hs & Hl). exists l, g'.
  split_and!; [done|by eapply reach_list|done|]. intros r. rewrite Hl. split; intros [Hdb H]; (split; [done|]).
  - clear -H Hdb Hd. unfold a_ensureAll in H. revert A H. induction (roles_of dbname) as [|n ns IH]; intros A H; simpl in H; [by left|].
    apply IH in H as [H|H]; [|by right]. unfold a_ensure in H. destruct (isBuiltinRole (mkRole n dbname)) eqn:Hb; simpl in H; [|by left].
    case_bool_decide; [|by left]. unfold a_new in H. simpl in H. apply elem_of_union in H as [H%elem_of_singleton|H]; [right|by left].
    apply nm_inj in H; [by rewrite H|unfold good; by rewrite Hdb|done].
  - destruct H as [H|H]; [by apply ensure_list_incl|by apply a_ensureAll_builtin].
Qed.

(** C27. In every state of the graph its five tables have the same keys, subordinates and members
    mirror each other without duplicates, and every set of actions is typed: within the width of
    the bit set, and with the any action only if it is the full set. *)
Theorem role_graph_well_formed A g : reachable A g → GInv g.
Proof. apply graph_reachable_inv. Qed.

(** Privileges go action by action: after [addPrivilegesToRole] a role has what it had and what
    was given; [removePrivilegeFromRole] succeeds exactly when the role has all the actions, and
    takes just those (and the any action, which is not all actions any more); nothing else changes. *)
Theorem privileges_added_and_removed A g r p : reachable A g → good r → isBuiltinRole r = false → nm r ∈ a_roles A →
  ActionSet.wf (_actions p) →
  (∃ g' v', addPrivilegeToRole r p g = Ret (OK tt, g') ∧ getDirectPrivileges r g' = Ret (v', g') ∧
     ∀ q a, grants v' q a = grants (entry (nm r) (a_direct A)) q a || grants1 p q a) ∧
  (∃ status g' v', removePrivilegeFromRole r p g = Ret (status, g') ∧ getDirectPrivileges r g' = Ret (v', g') ∧
     (status = OK tt ∨ status = Err PrivilegeNotFound ∧ v' = entry (nm r) (a_direct A)) ∧
     (status = OK tt ↔ _resource p ∈ resources (entry (nm r) (a_direct A)) ∧
        ∀ a, ActionSet.contains (_actions p) a = true → grants (entry (nm r) (a_direct A)) (_resource p) a = true) ∧
     (status = OK tt → ∀ q a, grants v' q a = grants (entry (nm r) (a_direct A)) q a && negb (removed p q a))).
Proof.
  intros Hre Hg Hb Hin Hp. destruct (graph_reachable_inv A g Hre) as [HI Hr].
  assert (∀ g' A', GInv g' → rel g' A' → nm r ∈ a_roles A' → getDirectPrivileges r g' = Ret (entry (nm r) (a_direct A'), g')) as Hget.
  { intros g' A' HI' Hr' Hin'. pose proof (ensured_known g' A' r Hr' Hin') as He.
    assert (wp (getDirectPrivileges r) (λ l g1, l = entry (nm r) (a_direct A') ∧ g1 = g') g') as (? & ? & -> & -> & ->)%wp_Ret; [|done].
    apply wp_getDirectPrivileges; [done|done|]. rewrite He. split; [|done]. unfold directs. by rewrite (proj2 (proj2 Hr')). }
  pose proof (gi_privs g HI (nm r)) as [Hw _]. pose proof (gi_distinct g HI (nm r)) as Hnd. unfold directs in Hw, Hnd.
  rewrite (proj2 (proj2 Hr)) in Hw, Hnd. split.
  - destruct (proj1 (wp_Ret _ _ _) (wp_perform g A (AddPrivilegeToRole r p) HI Hr (conj Hg Hp))) as (status & g' & Hx & HI' & Hr' & Hs).
    cbn [perform spec] in *. unfold a_grantPrivileges in *. rewrite a_change_on in Hr', Hs by done. simpl in Hr', Hs. subst status.
    eexists g', _. split_and!; [done|by apply (Hget g' _ HI' Hr')|]. intros q a. simpl. rewrite entry_insert, decide_True by done.
    by apply grants_add.
  - destruct (proj1 (wp_Ret _ _ _) (wp_perform g A (RemovePrivilegeFromRole r p) HI Hr (conj Hg Hp))) as (status & g' & Hx & HI' & Hr' & Hs).
    cbn [perform spec] in *. unfold a_revokePrivilege in *. rewrite a_change_on in Hr', Hs by done.
    pose proof (remove_privilege_spec p _ Hw Hnd Hp) as H. destruct (remove_privilege p _) as [v|e]; simpl in Hr', Hs; subst status.
    + destruct H as (H1 & H2 & _ & _ & _ & H3). exists (OK tt), g'. eexists.
      split_and!; [done|by apply (Hget g' _ HI' Hr')|by left|done|]. intros _ q a. simpl. rewrite entry_insert, decide_True by done. apply H3.
    + destruct H as [-> H]. exists (Err PrivilegeNotFound), g'. eexists.
      split_and!; [done|by apply (Hget g' _ HI' Hr')|by right|naive_solver|naive_solver].
Qed.

(** ** A graph *)
Fixpoint perform_all (ops : list graph_op) : RG (list Status) :=
  match ops with
  | [] => mret []
  | o :: ops => s ← perform o; ss ← perform_all ops; mret (s :: ss)
  end.
Definition spec_all (ops : list graph_op) A : Abs := foldl (λ A o, (spec o A).2) A ops.
Lemma reach_all ops : ∀ A g, reachable A g → Forall proper ops → wp (perform_all ops) (λ _ g', reachable (spec_all ops A) g') g.
Proof.
  induction ops as [|o ops IH]; intros A g Hre Hp; cbn [perform_all]; [by wp_simpl|]. apply Forall_cons in Hp as [Ho Hp].
  destruct (graph_reachable_inv A g Hre) as [HI Hr]. wp_simpl. apply wp_Ret.
  destruct (proj1 (wp_Ret _ _ _) (wp_perform g A o HI Hr Ho)) as (status & g' & Hx & _). exists status, g'. split; [done|]. wp_simpl.
  eapply wp_mono; [|apply IH; [by eapply reach_op|done]]. intros ss g1 H1. wp_simpl. exact H1.
Qed.
Definition app_role : RoleName := mkRole "app" "shop".
Definition boss_role : RoleName := mkRole "boss" "shop".
Definition rw_role : RoleName := mkRole "readWrite" "shop".
Definition orders_privilege : Privilege :=
  mkPrivilege (RP.forExactNamespace "stock.orders") (ActionSet.of_actions ["find"; "insert"]).
Definition shop_ops : list graph_op :=
  [CreateRole app_role; CreateRole boss_role; AddRoleToRole app_role rw_role; AddRoleToRole boss_role app_role;
   AddPrivilegeToRole app_role orders_privilege].
Definition shop_graph : RoleGraph :=
  match perform_all shop_ops empty_graph with Ret (_, g) => g | Abort _ => empty_graph end.
Definition shop_abs : Abs := spec_all shop_ops empty_abs.
Lemma orders_privilege_wf : ActionSet.wf (_actions orders_privilege).
Proof. apply ActionSet.wf_addActions; [apply ActionSet.wf_empty|by vm_compute]. Qed.
Lemma shop_reachable : reachable shop_abs shop_graph.
Proof.
  assert (Forall proper shop_ops) as Hp by (repeat constructor; apply orders_privilege_wf).
  pose proof (reach_all shop_ops empty_abs empty_graph reach_new Hp) as H. unfold wp in H. unfold shop_abs, shop_graph.
  by destruct (perform_all shop_ops empty_graph) as [[]|].
Qed.
Lemma shop_order : table_order [rw_role; boss_role; app_role] shop_abs.
Proof.
  split; [by repeat constructor|]. assert (a_roles shop_abs = list_to_set (names [rw_role; boss_role; app_role])) as ->
    by (apply (bool_decide_unpack _); by vm_compute).
  intros x. by rewrite elem_of_list_to_set.
Qed.
Lemma recomputePrivilegeData_exact_witness :
  ∃ status g', recomputePrivilegeData [rw_role; boss_role; app_role] shop_graph = Ret (status, g') ∧ reachable shop_abs g' ∧
    (status = OK tt ↔ acyclic shop_abs) ∧ (status = Err GraphContainsCycle ↔ ¬ acyclic shop_abs) ∧
    (status = OK tt → ∀ r, good r → nm r ∈ a_roles shop_abs →
       ∃ l v, getIndirectSubordinates r g' = Ret (l, g') ∧ (∀ y, y ∈ names l ↔ tc (a_edge shop_abs) (nm r) y) ∧
         getAllPrivileges r g' = Ret (v, g') ∧ ∀ q a, grants v q a = true ↔ has_action shop_abs (nm r) q a).
Proof. apply (recomputePrivilegeData_exact shop_abs shop_graph); [apply shop_reachable|apply shop_order]. Defined.
Lemma builtin_roles_fixed_witness :
  (∃ g', createRole rw_role shop_graph = Ret (Err DuplicateKey, g')) ∧
  (∃ g', perform (DeleteRole rw_role) shop_graph = Ret (Err InvalidRoleModification, g') ∧ reachable (spec (DeleteRole rw_role) shop_abs).2 g') ∧
  ∃ g' v, getDirectPrivileges rw_role shop_graph = Ret (v, g') ∧ ∀ q a, grants v q a = grants (own_table "shop" "readWrite") q a.
Proof.
  destruct (builtin_roles_fixed shop_abs shop_graph rw_role) as (H1 & H2 & g' & v & _ & _ & Hv & _ & _ & Ho & _);
    [apply shop_reachable|reflexivity|by vm_compute|].
  split; [exact H1|]. split; [apply (H2 (DeleteRole rw_role)); reflexivity|]. exists g', v. split; [exact Hv|].
  apply Ho. apply (bool_decide_unpack _). vm_compute. exact I.
Defined.
(** What that gives: a writer of the shop inserts there and nowhere else. *)
Example rw_table_grants :
  grants (own_table "shop" "readWrite") (database "shop") (ActionType.ident "insert") = true ∧
  grants (own_table "shop" "readWrite") (database "stock") (ActionType.ident "insert") = false.
Proof. by vm_compute. Qed.
Lemma getRolesForDatabase_exact_witness : ∃ l g', getRolesForDatabase "shop" shop_graph = Ret (l, g') ∧
  reachable (a_ensureAll "shop" shop_abs) g' ∧ sorted l ∧
    ∀ r, r ∈ l ↔ getDB r = "shop" ∧ (nm r ∈ a_roles shop_abs ∨ isBuiltinRole r = true).
Proof. apply (getRolesForDatabase_exact shop_abs shop_graph "shop"); [apply shop_reachable|reflexivity]. Defined.
Lemma role_graph_well_formed_witness : GInv shop_graph.
Proof. apply (role_graph_well_formed shop_abs shop_graph). apply shop_reachable. Defined.
Lemma privileges_added_and_removed_witness :
  ∃ g' v', addPrivilegeToRole app_role orders_privilege shop_graph = Ret (OK tt, g') ∧ getDirectPrivileges app_role g' = Ret (v', g') ∧
     ∀ q a, grants v' q a = grants (entry (nm app_role) (a_direct shop_abs)) q a || grants1 orders_privilege q a.
Proof.
  apply (privileges_added_and_removed shop_abs shop_graph app_role orders_privilege);
    [apply shop_reachable|reflexivity|reflexivity|by vm_compute|apply orders_privilege_wf].
Defined.
(** In this graph nothing is missing: the boss has the application's privilege. *)
Example shop_computed :
  (let g := match recomputePrivilegeData [boss_role; app_role; rw_role] shop_graph with Ret (OK _, g) => g | _ => empty_graph end in
   match getAllPrivileges boss_role g with
   | Ret (v, _) => grants v (RP.forExactNamespace "stock.orders") (ActionType.ident "insert")
   | Abort _ => false
   end) = true.
Proof. by vm_compute. Qed.
(** A cycle is found. *)
Example shop_cycle :
  match addRoleToRole app_role boss_role shop_graph with
  | Ret (OK _, g) => match recomputePrivilegeData [boss_role; app_role; rw_role] g with
                     | Ret (Err e, _) => bool_decide (e = GraphContainsCycle)
                     | _ => false
                     end
  | _ => false
  end = true.
Proof. by vm_compute. Qed.
(** Without the at-sign rule two names mean one role: [operator==] compares full names, [operator<]
    the parts.  Removing the role by its other name leaves it in the list of its database. *)
Example role_name_alias :
  let one := mkRole "a" "b@c" in let other := mkRole "a@b" "c" in
  ∃ g, perform_all [CreateRole one; CreateRole other; DeleteRole other; RoleExists one] empty_graph =
         Ret ([OK tt; Err DuplicateKey; OK tt; Err RoleNotFound], g) ∧ _allRoles g = [one].
Proof. eexists. split; vm_compute; reflexivity. Qed.
