(* ===== verification/AuthUser.v ===== *)
(** * Users

    [User] (db/auth/user.cpp): the names of its roles and a map from resource patterns to
    privileges; [UserSet] (db/auth/user_set.cpp): the users of a connection, at most one per
    database; and [resolveUserRoles] (db/auth/authz_manager_external_state_local.cpp), which collects
    the roles and privileges of a user from the role graph.

    A [UserSet] keeps its users in a vector with an end of its own; the list here is the part before
    that end. *)
From S2P Require Import Prelude ParseNumber AuthPrivilege BuiltinRoles RoleGraph.
From Stdlib Require Import String.
Open Scope string_scope.
Open Scope list_scope.
Open Scope Z_scope.
Import Priv Builtin Graph.

(** [operator==] of a user name also compares the place of the at sign: the two parts. *)
Record UserName := mkUserName { getUser : string; getUserDB : string }.
#[export] Instance UserName_eq_dec : EqDecision UserName.
Proof. solve_decision. Defined.
#[export] Instance UserName_countable : Countable UserName.
Proof.
  refine (inj_countable' (λ n, (getUser n, getUserDB n)) (λ p, mkUserName p.1 p.2) _). by intros [].
Defined.
Definition match_code (t : MatchType) : nat :=
  match t with
  | matchNever => 0 | matchClusterResource => 1 | matchDatabaseName => 2 | matchCollectionName => 3
  | matchExactNamespace => 4 | matchAnyNormalResource => 5 | matchAnyResource => 6
  end%nat.
Definition match_decode (n : nat) : MatchType :=
  match n with
  | 0 => matchNever | 1 => matchClusterResource | 2 => matchDatabaseName | 3 => matchCollectionName
  | 4 => matchExactNamespace | 5 => matchAnyNormalResource | _ => matchAnyResource
  end%nat.
#[export] Instance MatchType_countable : Countable MatchType.
Proof. refine (inj_countable' match_code match_decode _). by intros []. Defined.
#[export] Instance ResourcePattern_countable : Countable ResourcePattern.
Proof.
  refine (inj_countable' (λ p, (_matchType p, _ns p)) (λ p, mkPattern p.1 p.2) _). by intros [].
Defined.

Record User := mkUser {
  _name : UserName;
  _privileges : gmap ResourcePattern Privilege;
  _roles : list RoleName;
  _indirectRoles : list RoleName;
  _refCount : Z;
  _isValid : bool }.
#[export] Instance User_eta : Eta User := λ u,
  mkUser (_name u) (_privileges u) (_roles u) (_indirectRoles u) (_refCount u) (_isValid u).

Module Usr.
Implicit Types (u : User).
(** user.cpp, lines 44, 62 to 64 and 78 to 84 *)
Definition new_user (name : UserName) : User := mkUser name ∅ [] [] 0 true.
Definition hasRole u (roleName : RoleName) : bool := has roleName (_roles u).
Definition getActionsForResource u (resource : ResourcePattern) : ActionSet.ActionSet :=
  match _privileges u !! resource with None => ActionSet.empty_set | Some p => _actions p end.
(** Lines 98 to 118 *)
Definition setRoles u (roles : list RoleName) : User := u <| _roles := foldl uset_insert [] roles |>.
Definition setIndirectRoles u (indirectRoles : list RoleName) : User := u <| _indirectRoles := indirectRoles |>.
Definition setPrivileges u (privileges : PrivilegeVector) : User :=
  u <| _privileges := foldl (λ m p, <[_resource p := p]> m) ∅ privileges |>.
(** Lines 120 to 145 *)
Definition addRole u (roleName : RoleName) : User := u <| _roles := uset_insert (_roles u) roleName |>.
Definition addRoles u (roles : list RoleName) : User := foldl addRole u roles.
Definition addPrivilege u (privilegeToAdd : Privilege) : User :=
  match _privileges u !! _resource privilegeToAdd with
  | None => u <| _privileges := <[_resource privilegeToAdd := privilegeToAdd]> (_privileges u) |>
  | Some p => u <| _privileges := <[_resource privilegeToAdd := addActions p (_actions privilegeToAdd)]> (_privileges u) |>
  end.
Definition addPrivileges u (privileges : PrivilegeVector) : User := foldl addPrivilege u privileges.
(** Lines 147 to 158; the counter is a [uint32_t] *)
Definition w32 (n : Z) : Z := n mod 2 ^ 32.
Definition invalidate u : User := u <| _isValid := false |>.
Definition incrementRefCount u : User := u <| _refCount := w32 (_refCount u + 1) |>.
Definition decrementRefCount u : User := u <| _refCount := w32 (_refCount u - 1) |>.
(** The user of the server itself: authorization_manager.cpp, lines 71 to 85 *)
Definition generated : PrivilegeVector :=
  match generateUniversalPrivileges [] with Ret (_, v) => v | Abort _ => [] end.
Definition internal_user : User :=
  addPrivileges (incrementRefCount (new_user (mkUserName "__system" "local"))) generated.

(** What the map grants. *)
Definition allows u (q : ResourcePattern) (a : Z) : bool := ActionSet.contains (getActionsForResource u q) a.
Definition wf u : Prop := ∀ q p, _privileges u !! q = Some p → ActionSet.wf (_actions p).
Lemma wf_actions u q : wf u → ActionSet.wf (getActionsForResource u q).
Proof. intros Hw. unfold getActionsForResource. destruct (_privileges u !! q) eqn:E; [by eapply Hw|apply ActionSet.wf_empty]. Qed.
Lemma wf_new name : wf (new_user name).
Proof. intros q p. simpl. by rewrite lookup_empty. Qed.
Lemma allows_new name q a : allows (new_user name) q a = false.
Proof. unfold allows, getActionsForResource. simpl. rewrite lookup_empty. apply Z.bits_0. Qed.

(** Later privileges replace earlier ones for the same resource; without such pairs nothing is lost. *)
Lemma setPrivileges_lookup u v q :
  NoDup (resources v) → _privileges (setPrivileges u v) !! q = List.find (λ p, RP.eqb (_resource p) q) v.
Proof.
  simpl. intros Hnd. assert (∀ m : gmap ResourcePattern Privilege, foldl (λ m p, <[_resource p := p]> m) m v !! q =
    match List.find (λ p, RP.eqb (_resource p) q) v with Some p => Some p | None => m !! q end) as H.
  { induction v as [|p v IH]; intros m; simpl; [done|]. cbn [fmap list_fmap] in Hnd. apply NoDup_cons in Hnd as [Hn Hnd]. rewrite IH by done.
    unfold RP.eqb at 2. case_bool_decide as E.
    - replace (List.find _ v) with (@None Privilege); [by rewrite E, lookup_insert_eq|]. destruct (List.find _ v) as [p'|] eqn:F; [|done].
      apply find_some in F as [Hin%list_elem_of_In E'%bool_decide_eq_true]. exfalso. apply Hn. rewrite E, <-E'. by apply list_elem_of_fmap_2.
    - destruct (List.find _ v); [done|]. by rewrite lookup_insert_ne. }
  rewrite H. destruct (List.find _ v); [done|]. by rewrite lookup_empty.
Qed.
Lemma setPrivileges_allows u v q a : NoDup (resources v) → allows (setPrivileges u v) q a = grants v q a.
Proof.
  intros Hnd. unfold allows, getActionsForResource. rewrite setPrivileges_lookup by done. clear u. induction v as [|p v IH]; [apply Z.bits_0|].
  cbn [fmap list_fmap] in Hnd. apply NoDup_cons in Hnd as [Hn Hnd]. simpl. unfold grants1 at 1. unfold RP.eqb at 1 3. case_bool_decide as E; simpl; [|by apply IH].
  rewrite (grants_absent v) by (by rewrite <-E). by rewrite orb_false_r.
Qed.
Lemma setPrivileges_wf u v : Priv.wf v → NoDup (resources v) → wf (setPrivileges u v).
Proof.
  intros Hv Hnd q p. rewrite setPrivileges_lookup by done. intros [Hin%list_elem_of_In _]%find_some. unfold Priv.wf in Hv.
  rewrite Forall_forall in Hv. by apply Hv.
Qed.
Lemma addPrivilege_allows u p q a : wf u → ActionSet.wf (_actions p) → allows (addPrivilege u p) q a = allows u q a || grants1 p q a.
Proof.
  intros Hu Hp. unfold addPrivilege, allows, getActionsForResource, grants1, RP.eqb.
  destruct (_privileges u !! _resource p) as [old|] eqn:E; simpl; case_bool_decide as Hq; try subst q;
    rewrite ?lookup_insert_eq, ?lookup_insert_ne, ?E by done; simpl; rewrite ?orb_false_r; try done.
  - apply ActionSet.contains_addAll; [by eapply Hu|done].
  - unfold ActionSet.contains, ActionSet.empty_set. by rewrite Z.bits_0.
Qed.
Lemma addPrivilege_wf u p : wf u → ActionSet.wf (_actions p) → wf (addPrivilege u p).
Proof.
  intros Hu Hp q p'. unfold addPrivilege. destruct (_privileges u !! _resource p) as [old|] eqn:E; simpl;
    (destruct (decide (q = _resource p)) as [->|]; [rewrite lookup_insert_eq; intros [= <-]|rewrite lookup_insert_ne by done; apply Hu]).
  - apply ActionSet.wf_addAll; [by eapply Hu|done].
  - done.
Qed.
Lemma addPrivileges_spec v : ∀ u, wf u → Priv.wf v →
  wf (addPrivileges u v) ∧ ∀ q a, allows (addPrivileges u v) q a = allows u q a || grants v q a.
Proof.
  induction v as [|p v IH]; intros u Hu Hv; cbn [addPrivileges foldl]; [split; [done|]; intros q a; by rewrite orb_false_r|].
  apply Forall_cons in Hv as [Hp Hv]. destruct (IH (addPrivilege u p)) as [Hw Ha]; [by apply addPrivilege_wf|done|]. split; [done|].
  intros q a. unfold addPrivileges in Ha. by rewrite Ha, addPrivilege_allows, grants_cons, orb_assoc by done.
Qed.
Lemma internal_user_wf : wf internal_user.
Proof. apply addPrivileges_spec; [apply wf_new|]. constructor; [apply ActionSet.wf_all|constructor]. Qed.
End Usr.

(** ** The users of a connection: user_set.cpp, lines 68 to 129 *)
Module UserSet.
Implicit Types (l : list User) (u : User).
(** The user that was replaced is returned for release. *)
Fixpoint add l u : list User * option User :=
  match l with
  | [] => ([u], None)
  | current :: rest =>
      if String.eqb (getUserDB (_name current)) (getUserDB (_name u)) then (u :: rest, Some current)
      else let r := add rest u in (current :: r.1, r.2)
  end.
(** The last user takes the place of the one that goes. *)
Definition removeAt l (offset : nat) : list User * option User :=
  let usersEnd := (List.length l - 1)%nat in
  match l !! offset, l !! usersEnd with
  | Some old, Some last => (take usersEnd (<[offset := last]> l), Some old)
  | _, _ => (l, None)
  end.
Definition replaceAt l (offset : nat) (replacement : User) : list User * option User :=
  (<[offset := replacement]> l, l !! offset).
Fixpoint find_db l (dbname : string) : option nat :=
  match l with
  | [] => None
  | current :: rest =>
      if String.eqb (getUserDB (_name current)) dbname then Some O
      else match find_db rest dbname with Some i => Some (S i) | None => None end
  end.
Definition removeByDBName l (dbname : string) : list User * option User :=
  match find_db l dbname with Some it => removeAt l it | None => (l, None) end.
Definition lookupByDBName l (dbname : string) : option User :=
  match find_db l dbname with Some it => l !! it | None => None end.
Definition lookup l (name : UserName) : option User :=
  match lookupByDBName l (getUserDB name) with
  | Some u => if bool_decide (_name u = name) then Some u else None
  | None => None
  end.

(** One user per database. *)
Abbreviation dbs l := ((λ u : User, getUserDB (_name u)) <$> (l : list User)).
Definition distinct l : Prop := NoDup (dbs l).
Lemma add_perm l u : u :: l ≡ₚ (add l u).1 ++ option_list (add l u).2.
Proof.
  induction l as [|c l IH]; simpl; [done|]. destruct (String.eqb _ _); simpl.
  - by rewrite Permutation_app_comm.
  - rewrite <-IH. apply Permutation_swap.
Qed.
Lemma add_dbs l u x : x ∈ dbs (add l u).1 ↔ x = getUserDB (_name u) ∨ x ∈ dbs l.
Proof.
  induction l as [|c l IH]; simpl; [by rewrite list_elem_of_singleton, elem_of_nil; naive_solver|].
  destruct (String.eqb_spec (getUserDB (_name c)) (getUserDB (_name u))) as [E|E]; simpl; rewrite !elem_of_cons, ?IH; naive_solver.
Qed.
Lemma add_distinct l u : distinct l → distinct (add l u).1.
Proof.
  unfold distinct. induction l as [|c l IH]; simpl; intros Hnd; [apply NoDup_singleton|]. apply NoDup_cons in Hnd as [Hn Hnd].
  destruct (String.eqb_spec (getUserDB (_name c)) (getUserDB (_name u))) as [E|E]; simpl; apply NoDup_cons.
  - by rewrite <-E.
  - split; [|by apply IH]. rewrite add_dbs. naive_solver.
Qed.
(** Whoever is replaced is of the same database. *)
Lemma add_replaced l u old : (add l u).2 = Some old → getUserDB (_name old) = getUserDB (_name u) ∧ old ∈ l.
Proof.
  induction l as [|c l IH]; simpl; [done|]. destruct (String.eqb_spec (getUserDB (_name c)) (getUserDB (_name u))) as [E|E]; simpl.
  - intros [= <-]. split; [done|by left].
  - intros [? ?]%IH. split; [done|by right].
Qed.
Lemma removeAt_middle l1 old l2 : ∃ l3, l3 ≡ₚ l2 ∧ removeAt (l1 ++ old :: l2) (List.length l1) = (l1 ++ l3, Some old).
Proof.
  unfold removeAt. rewrite list_lookup_middle by done. destruct l2 as [|last l2 _] using rev_ind.
  - exists []. split; [done|]. replace (List.length (l1 ++ [old]) - 1)%nat with (List.length l1) by (rewrite length_app; simpl; lia).
    rewrite list_lookup_middle, insert_app_r_alt, Nat.sub_diag, take_app_length' by lia. simpl. by rewrite app_nil_r.
  - exists (last :: l2). split; [by rewrite Permutation_app_comm|]. rewrite app_comm_cons, app_assoc, length_app. simpl.
    replace (List.length (l1 ++ old :: l2) + 1 - 1)%nat with (List.length (l1 ++ old :: l2)) by lia.
    rewrite list_lookup_middle by done. rewrite insert_app_l by (rewrite length_app; simpl; lia).
    rewrite take_app_length' by (by rewrite length_insert). by rewrite insert_app_r_alt, Nat.sub_diag by lia.
Qed.
Lemma removeAt_perm l i old : l !! i = Some old → (removeAt l i).2 = Some old ∧ l ≡ₚ old :: (removeAt l i).1.
Proof.
  intros Hi. pose proof (take_drop_middle l i old Hi) as E.
  assert (List.length (take i l) = i) as Hl1 by (apply length_take_le; apply lookup_lt_Some in Hi; lia).
  destruct (removeAt_middle (take i l) old (drop (S i) l)) as (l3 & Hp & Hx). rewrite E, Hl1 in Hx. rewrite Hx. simpl. split; [done|].
  rewrite <-E at 1. by rewrite <-Permutation_middle, <-Hp.
Qed.
Lemma find_db_spec l dbname :
  match find_db l dbname with
  | Some i => ∃ u, l !! i = Some u ∧ getUserDB (_name u) = dbname
  | None => dbname ∉ dbs l
  end.
Proof.
  induction l as [|c l IH]; simpl; [apply not_elem_of_nil|]. destruct (String.eqb_spec (getUserDB (_name c)) dbname) as [E|E]; [by exists c|].
  destruct (find_db l dbname); [done|]. apply not_elem_of_cons. naive_solver.
Qed.
Lemma distinct_perm l l' : l ≡ₚ l' → distinct l → distinct l'.
Proof. unfold distinct. by intros ->. Qed.
End UserSet.

(** ** The roles and privileges of a user: authz_manager_external_state_local.cpp, lines 192 to 220

    [consistent] is what the code calls [isRoleGraphInconsistent]: the state of the graph is
    [roleGraphStateConsistent]. *)
Definition resolve_role (consistent : bool) (acc : list RoleName * PrivilegeVector) (role : RoleName) :
    RG (list RoleName * PrivilegeVector) :=
  let indirectRoles := uset_insert acc.1 role in
  subordinates ← (if consistent then getIndirectSubordinates role else mret []);
  rolePrivileges ← (if consistent then getAllPrivileges role else getDirectPrivileges role);
  mret (foldl uset_insert indirectRoles subordinates, add_all acc.2 rolePrivileges).
Definition resolveUserRoles (consistent : bool) (directRoles : list RoleName) : RG (list RoleName * PrivilegeVector) :=
  mfoldl (resolve_role consistent) ([], []) directRoles.
