(* ===== verification/AuthSession.v ===== *)
(** * Authorization of a connection

    [AuthorizationSession] (db/auth/authorization_session.cpp): who is authenticated on a connection,
    and whether these users may do something; with the external state that says whether checks apply
    and whether the localhost exception is open.

    What [AuthorizationManager::acquireUser] returns is an argument here (AuthCache.v models it); the
    users given to [releaseUser] are collected in [_released].  A string stands for a namespace.
    Patterns and namespaces are built by constructors that throw, so the checks are in [outcome]. *)
From S2P Require Import Prelude ParseNumber AuthPrivilege BuiltinRoles RoleGraph AuthUser.
From Stdlib Require Import String.
Open Scope string_scope.
Open Scope list_scope.
Open Scope Z_scope.
Import Priv Builtin Graph.

#[export] Instance Privilege_eq_dec : EqDecision Privilege.
Proof. unfold EqDecision, Decision, ActionSet.ActionSet in *. decide equality; [apply Z.eq_dec|solve_decision]. Defined.
#[export] Instance User_eq_dec : EqDecision User.
Proof. solve_decision. Defined.

(** ** Namespaces of cursors: namespace_string.cpp, lines 75 to 76 and 112 to 138, and namespace_string.h *)
Module NS.
Definition listCollectionsCursorCol : string := "$cmd.listCollections".
Definition listIndexesCursorNSPrefix : string := "$cmd.listIndexes.".
Definition isCommand (ns : string) : bool := String.eqb (NamespaceString.coll ns) "$cmd".
Definition isListCollectionsCursorNS (ns : string) : bool := String.eqb (NamespaceString.coll ns) listCollectionsCursorCol.
Definition isListIndexesCursorNS (ns : string) : bool :=
  Nat.ltb (String.length listIndexesCursorNSPrefix) (String.length (NamespaceString.coll ns)) &&
  String.prefix listIndexesCursorNSPrefix (NamespaceString.coll ns).
Definition getTargetNSForListIndexes (ns : string) : outcome string :=
  let c := NamespaceString.coll ns in let n := String.length listIndexesCursorNSPrefix in
  NamespaceString.make (NamespaceString.db ns) (String.substring n (String.length c - n) c).
End NS.

(** ** External state: authz_session_external_state_d.cpp and authz_session_external_state_server_common.cpp *)
Record External := mkExternal {
  isAuthEnabled : bool; isInDirectClient : bool; getIsLocalHostConnection : bool;
  hasAnyPrivilegeDocuments : bool; isReplSetArbiter : bool; _allowLocalhost : bool }.
#[export] Instance External_eta : Eta External := λ e,
  mkExternal (isAuthEnabled e) (isInDirectClient e) (getIsLocalHostConnection e) (hasAnyPrivilegeDocuments e)
    (isReplSetArbiter e) (_allowLocalhost e).
Definition _checkShouldAllowLocalhost (e : External) : External :=
  if negb (isAuthEnabled e) then e else
  if negb (_allowLocalhost e) then e else
  if negb (getIsLocalHostConnection e) then e <| _allowLocalhost := false |> else
  e <| _allowLocalhost := negb (hasAnyPrivilegeDocuments e) |>.
Definition shouldAllowLocalhost (e : External) : bool := _allowLocalhost e && getIsLocalHostConnection e.
Definition shouldIgnoreAuthChecks (e : External) : bool := isInDirectClient e || negb (isAuthEnabled e).
Definition serverIsArbiter (e : External) : bool := isReplSetArbiter e.

Record Session := mkSession {
  _external : External;
  _authenticatedUsers : list User;
  _authenticatedRoleNames : list RoleName;
  _impersonatedUserNames : list UserName;
  _impersonatedRoleNames : list RoleName;
  _impersonationFlag : bool;
  _released : list User }.
#[export] Instance Session_eta : Eta Session := λ s,
  mkSession (_external s) (_authenticatedUsers s) (_authenticatedRoleNames s) (_impersonatedUserNames s)
    (_impersonatedRoleNames s) (_impersonationFlag s) (_released s).

Module Sess.
Implicit Types (s : Session) (e : External) (u : User) (ns : string).

(** ** Who is authenticated: lines 85 to 165 and 751 to 806 *)
Definition new_session e : Session := mkSession e [] [] [] [] false [].
Definition release (u : option User) s : Session := s <| _released := _released s ++ option_list u |>.
Definition _buildAuthenticatedRolesVector s : Session :=
  s <| _authenticatedRoleNames := List.concat (_indirectRoles <$> _authenticatedUsers s) |>.
Definition clearImpersonatedUserData s : Session :=
  s <| _impersonatedUserNames := [] |> <| _impersonatedRoleNames := [] |> <| _impersonationFlag := false |>.
Definition setImpersonatedUserData s (usernames : list UserName) (roles : list RoleName) : Session :=
  s <| _impersonatedUserNames := usernames |> <| _impersonatedRoleNames := roles |> <| _impersonationFlag := true |>.
Definition set_users s (r : list User * option User) : Session := release r.2 (s <| _authenticatedUsers := r.1 |>).
Definition addAndAuthorizeUser s (acquired : StatusWith User) : Status * Session :=
  match acquired with
  | Err e => (Err e, s)
  | OK user =>
      let s := set_users s (UserSet.add (_authenticatedUsers s) user) in
      (OK tt, _buildAuthenticatedRolesVector (clearImpersonatedUserData s))
  end.
Definition lookupUser s (name : UserName) : option User := UserSet.lookup (_authenticatedUsers s) name.
Definition logoutDatabase s (dbname : string) : Session :=
  let s := set_users s (UserSet.removeByDBName (_authenticatedUsers s) dbname) in
  _buildAuthenticatedRolesVector (clearImpersonatedUserData s).
(** The user that is replaced, if any, is not released. *)
Definition grantInternalAuthorization s : Session :=
  _buildAuthenticatedRolesVector (s <| _authenticatedUsers := (UserSet.add (_authenticatedUsers s) Usr.internal_user).1 |>).
(** [it] is at [offset], [n] users are left from there. *)
Fixpoint refresh_loop (acquire : UserName → StatusWith User) (n offset : nat) s : outcome Session :=
  match n with
  | O => Ret s
  | S n =>
      match _authenticatedUsers s !! offset with
      | None => Ret s
      | Some user =>
          if _isValid user then refresh_loop acquire n (S offset) s else
          match acquire (_name user) with
          | OK updatedUser =>
              let r := UserSet.replaceAt (_authenticatedUsers s) offset updatedUser in
              _ ← check 17067 (bool_decide (r.2 = Some user));
              refresh_loop acquire n (S offset) (set_users s r)
          | Err UserNotFound =>
              let r := UserSet.removeAt (_authenticatedUsers s) offset in
              _ ← check 17068 (bool_decide (r.2 = Some user));
              refresh_loop acquire n offset (set_users s r)
          | Err _ => refresh_loop acquire n (S offset) s
          end
      end
  end.
Definition _refreshUserInfoAsNeeded (acquire : UserName → StatusWith User) s : outcome Session :=
  s ← refresh_loop acquire (List.length (_authenticatedUsers s)) 0 s; Ret (_buildAuthenticatedRolesVector s).
Definition startRequest (acquire : UserName → StatusWith User) s : outcome Session :=
  _refreshUserInfoAsNeeded acquire (s <| _external := _checkShouldAllowLocalhost (_external s) |>).

(** ** Patterns that match a target: lines 657 to 712 *)
Definition buildResourceSearchList (target : ResourcePattern) : outcome (list ResourcePattern) :=
  let db := NamespaceString.db (_ns target) in
  middle ←
    (if RP.isExactNamespacePattern target then
       first ←
         (if negb (NamespaceString.isSystem (_ns target)) then
            d ← RP.forDatabaseName db;
            Ret ((if negb (String.eqb db "local") && negb (String.eqb db "config") &&
                     negb (String.eqb db "$setFeatureCompatibilityVersion")
                  then [RP.forAnyNormalResource] else []) ++ [d])
          else Ret []);
       c ← RP.forCollectionName (NamespaceString.coll (_ns target));
       Ret (first ++ [c])
     else if RP.isDatabasePattern target then
       Ret (if negb (String.eqb db "local") && negb (String.eqb db "config") then [RP.forAnyNormalResource] else [])
     else Ret []);
  Ret (RP.forAnyResource :: middle ++ [target]).

(** ** Privileges without a user: lines 172 to 213 *)
Definition getDefaultPrivileges e : outcome PrivilegeVector :=
  if shouldAllowLocalhost e then
    adminDBResource ← RP.forDatabaseName ADMIN_DBNAME;
    externalDBResource ← RP.forDatabaseName "$external";
    let arbiter := if serverIsArbiter e then ["getCmdLineOpts"; "getParameter"; "serverStatus"; "shutdown"] else [] in
    let setupServerConfigActionSet :=
      ActionSet.addActions (ActionSet.addActions ActionSet.empty_set arbiter) ["addShard"; "replSetConfigure"; "replSetGetStatus"] in
    Ret (add_all [] [mkPrivilege adminDBResource (ActionSet.of_actions ["createUser"; "grantRole"]);
                     mkPrivilege externalDBResource (ActionSet.of_actions ["createUser"]);
                     mkPrivilege RP.forClusterResource setupServerConfigActionSet])
  else Ret [].

(** ** The decision: lines 808 to 844

    The loops stop with [true] once nothing is left; the other result is what is left. *)
Fixpoint take_default (p : Privilege) (search : list ResourcePattern) (unmet : ActionSet.ActionSet) : ActionSet.ActionSet * bool :=
  match search with
  | [] => (unmet, false)
  | r :: search =>
      if negb (RP.eqb (_resource p) r) then take_default p search unmet else
      let unmet := ActionSet.removeAllActionsFromSet unmet (_actions p) in
      if ActionSet.empty unmet then (unmet, true) else take_default p search unmet
  end.
Fixpoint take_defaults (ps : PrivilegeVector) (search : list ResourcePattern) (unmet : ActionSet.ActionSet) : ActionSet.ActionSet * bool :=
  match ps with
  | [] => (unmet, false)
  | p :: ps => let r := take_default p search unmet in if r.2 then r else take_defaults ps search r.1
  end.
Fixpoint take_user u (search : list ResourcePattern) (unmet : ActionSet.ActionSet) : ActionSet.ActionSet * bool :=
  match search with
  | [] => (unmet, false)
  | r :: search =>
      let unmet := ActionSet.removeAllActionsFromSet unmet (Usr.getActionsForResource u r) in
      if ActionSet.empty unmet then (unmet, true) else take_user u search unmet
  end.
Fixpoint take_users (us : list User) (search : list ResourcePattern) (unmet : ActionSet.ActionSet) : ActionSet.ActionSet * bool :=
  match us with
  | [] => (unmet, false)
  | u :: us => let r := take_user u search unmet in if r.2 then r else take_users us search r.1
  end.
Definition _isAuthorizedForPrivilege s (privilege : Privilege) : outcome bool :=
  search ← buildResourceSearchList (_resource privilege);
  defaultPrivileges ← getDefaultPrivileges (_external s);
  let r := take_defaults defaultPrivileges search (_actions privilege) in
  Ret (if r.2 then true else (take_users (_authenticatedUsers s) search r.1).2).

(** Lines 618 to 655 *)
Definition isAuthorizedForPrivilege s (privilege : Privilege) : outcome bool :=
  if shouldIgnoreAuthChecks (_external s) then Ret true else _isAuthorizedForPrivilege s privilege.
Fixpoint all_authorized s (privileges : PrivilegeVector) : outcome bool :=
  match privileges with
  | [] => Ret true
  | p :: privileges => b ← _isAuthorizedForPrivilege s p; if negb b then Ret false else all_authorized s privileges
  end.
Definition isAuthorizedForPrivileges s (privileges : PrivilegeVector) : outcome bool :=
  if shouldIgnoreAuthChecks (_external s) then Ret true else all_authorized s privileges.
Definition isAuthorizedForActionsOnResource s (resource : ResourcePattern) (actions : list string) : outcome bool :=
  isAuthorizedForPrivilege s (mkPrivilege resource (ActionSet.of_actions actions)).
Definition isAuthorizedForActionsOnNamespace s ns (actions : list string) : outcome bool :=
  isAuthorizedForPrivilege s (mkPrivilege (RP.forExactNamespace ns) (ActionSet.of_actions actions)).
Definition on_database s (dbname : string) (action : string) : outcome bool :=
  d ← RP.forDatabaseName dbname; isAuthorizedForActionsOnResource s d [action].

(** ** Checks of operations: lines 318 to 477 *)
Definition deny (b : bool) : Status := if b then OK tt else Err Unauthorized.
Definition with_term s (hasTerm : bool) : outcome Status :=
  if hasTerm then b ← isAuthorizedForActionsOnResource s RP.forClusterResource ["internal"]; Ret (deny b) else Ret (OK tt).
Definition checkAuthForFind s ns (hasTerm : bool) : outcome Status :=
  if NS.isCommand ns then Ret (Err InternalError) else
  b ← isAuthorizedForActionsOnNamespace s ns ["find"];
  if negb b then Ret (Err Unauthorized) else with_term s hasTerm.
Definition checkAuthForGetMore s ns (hasTerm : bool) : outcome Status :=
  b ← (if NS.isListCollectionsCursorNS ns then on_database s (NamespaceString.db ns) "listCollections"
       else if NS.isListIndexesCursorNS ns then
         targetNS ← NS.getTargetNSForListIndexes ns; isAuthorizedForActionsOnNamespace s targetNS ["listIndexes"]
       else isAuthorizedForActionsOnNamespace s ns ["find"]);
  if negb b then Ret (Err Unauthorized) else with_term s hasTerm.
(** The field [ns] of the document: missing, of another type, or a string. *)
Inductive NsElement := NsMissing | NsOther | NsString (ns : string).
Definition checkAuthForInsert s ns (nsElement : NsElement) (documentValidationDisabled : bool) : outcome Status :=
  if String.eqb (NamespaceString.coll ns) "system.indexes" then
    match nsElement with
    | NsMissing => Ret (Err NoSuchKey)
    | NsOther => Ret (Err TypeMismatch)
    | NsString indexNS =>
        b ← isAuthorizedForActionsOnNamespace s indexNS ["createIndex"]; Ret (deny b)
    end
  else
    b ← isAuthorizedForActionsOnNamespace s ns
          ("insert" :: if documentValidationDisabled then ["bypassDocumentValidation"] else []);
    Ret (deny b).
Definition checkAuthForUpdate s ns (upsert documentValidationDisabled : bool) : outcome Status :=
  b ← isAuthorizedForActionsOnNamespace s ns
        ("update" :: (if upsert then ["insert"] else []) ++
         (if documentValidationDisabled then ["bypassDocumentValidation"] else []));
  Ret (deny b).
Definition checkAuthForDelete s ns : outcome Status :=
  b ← isAuthorizedForActionsOnNamespace s ns ["remove"]; Ret (deny b).
Definition either (a b : outcome bool) : outcome Status := x ← a; if (x : bool) then Ret (OK tt) else y ← b; Ret (deny y).
Definition checkAuthForKillCursors s ns : outcome Status :=
  if NS.isListCollectionsCursorNS ns then
    either (on_database s (NamespaceString.db ns) "killCursors") (on_database s (NamespaceString.db ns) "listCollections")
  else if NS.isListIndexesCursorNS ns then
    targetNS ← NS.getTargetNSForListIndexes ns;
    either (isAuthorizedForActionsOnNamespace s targetNS ["killCursors"]) (isAuthorizedForActionsOnNamespace s targetNS ["listIndexes"])
  else either (isAuthorizedForActionsOnNamespace s ns ["killCursors"]) (isAuthorizedForActionsOnNamespace s ns ["find"]).

(** ** Checks of changes to roles: lines 541 to 616 *)
Definition on_privilege s (privilege : Privilege) (action : string) : outcome Status :=
  let resource := _resource privilege in
  b ← on_database s (if RP.isDatabasePattern resource || RP.isExactNamespacePattern resource
                     then RP.databaseToMatch resource else "admin") action;
  Ret (deny b).
Definition checkAuthorizedToGrantPrivilege s (privilege : Privilege) : outcome Status := on_privilege s privilege "grantRole".
Definition checkAuthorizedToRevokePrivilege s (privilege : Privilege) : outcome Status := on_privilege s privilege "revokeRole".
Definition isAuthorizedToCreateRole s (roleName : RoleName) : outcome bool :=
  b ← on_database s (getDB roleName) "createRole";
  Ret (b || shouldAllowLocalhost (_external s) && existsb (λ u, Usr.hasRole u roleName) (_authenticatedUsers s)).
Definition isAuthorizedToGrantRole s (role : RoleName) : outcome bool := on_database s (getDB role) "grantRole".
Definition isAuthorizedToRevokeRole s (role : RoleName) : outcome bool := on_database s (getDB role) "revokeRole".

(** ** The user itself: lines 714 to 749 and 853 to 875 *)
Definition isAuthorizedToChangeAsUser s (userName : UserName) (actionType : string) : outcome bool :=
  match lookupUser s userName with
  | None => Ret false
  | Some user =>
      target ← RP.forDatabaseName (getUserDB userName);
      search ← buildResourceSearchList target;
      Ret (ActionSet.contains
             (foldl (λ actions r, ActionSet.addAllActionsFromSet actions (Usr.getActionsForResource user r)) ActionSet.empty_set search)
             (act actionType))
  end.
Definition isAuthorizedToChangeOwnPasswordAsUser s (userName : UserName) : outcome bool :=
  isAuthorizedToChangeAsUser s userName "changeOwnPassword".
Definition isAuthorizedToChangeOwnCustomDataAsUser s (userName : UserName) : outcome bool :=
  isAuthorizedToChangeAsUser s userName "changeOwnCustomData".
Definition isAuthenticatedAsUserWithRole s (roleName : RoleName) : bool :=
  existsb (λ u, Usr.hasRole u roleName) (_authenticatedUsers s).
Definition user_names s : list UserName :=
  if _impersonationFlag s then _impersonatedUserNames s else _name <$> _authenticatedUsers s.
Definition isCoauthorizedWithClient s (op : Session) : bool :=
  existsb (λ n, existsb (λ m, bool_decide (n = m)) (user_names op)) (user_names s).
End Sess.
