(* ===== verification/AuthSessionProps.v ===== *)
(** * What a session allows

    The users of a session: one per database, each reference given back once.  The decision
    [isAuthorizedForPrivilege], as a statement about who holds which action on which pattern.  From
    the role graph to the decision: what a user may do is what its roles, and the roles they can
    reach, have been given. *)
From stdpp Require Import relations.
From S2P Require Import Prelude ParseNumber AuthPrivilege BuiltinRoles RoleGraph RoleSet RoleGraphInv RoleGraphOps RoleGraphDfs RoleGraphProps AuthUser AuthSession.
From Stdlib Require Import String.
Open Scope string_scope.
Open Scope list_scope.
Open Scope Z_scope.
Import Priv Builtin Graph Sess.
Implicit Types (s : Session) (e : External) (u : User) (q r : ResourcePattern) (a : Z).

(** ** The users of a session *)
(** What becomes of a user in [_refreshUserInfoAsNeeded], and whether it is given back. *)
Definition refreshed (acquire : UserName → StatusWith User) u : option User :=
  if _isValid u then Some u else
  match acquire (_name u) with OK u' => Some u' | Err UserNotFound => None | Err _ => Some u end.
Definition given_back (acquire : UserName → StatusWith User) u : bool :=
  negb (_isValid u) && match acquire (_name u) with OK _ | Err UserNotFound => true | Err _ => false end.
Abbreviation let_go acquire l := (filter (λ u : User, given_back acquire u = true) l).
Lemma let_go_cons acquire u l : let_go acquire (u :: l) = (if given_back acquire u then [u] else []) ++ let_go acquire l.
Proof. rewrite filter_cons. destruct (given_back acquire u) eqn:E; by case_decide. Qed.
Definition same_but_users s s' : Prop := s' <| _authenticatedUsers := _authenticatedUsers s |> <| _released := _released s |> = s.
Lemma same_but_users_trans s1 s2 s3 : same_but_users s1 s2 → same_but_users s2 s3 → same_but_users s1 s3.
Proof. unfold same_but_users. destruct s1, s2, s3. simpl. intros [= -> -> -> -> ->] [= -> -> -> -> ->]. done. Qed.
Lemma refresh_loop_spec acquire n : ∀ s done rest,
  _authenticatedUsers s = done ++ rest → List.length rest = n →
  ∃ s', refresh_loop acquire n (List.length done) s = Ret s' ∧ same_but_users s s' ∧
    _authenticatedUsers s' ≡ₚ done ++ omap (refreshed acquire) rest ∧
    _released s' ≡ₚ _released s ++ let_go acquire rest.
Proof.
  induction n as [|n IH]; intros s dn rest Hu Hn; destruct rest as [|u rest]; try discriminate Hn; cbn [refresh_loop].
  { exists s. split_and!; [done|by destruct s|by rewrite Hu|by rewrite app_nil_r]. }
  injection Hn as Hn. rewrite Hu, list_lookup_middle by done. cbn [omap list_omap]. rewrite let_go_cons. unfold refreshed at 1. unfold given_back at 1.
  (* the next one, when this one becomes [u'] in place *)
  assert (∀ s1 u', _authenticatedUsers s1 = dn ++ u' :: rest → ∃ s', refresh_loop acquire n (S (List.length dn)) s1 = Ret s' ∧
    same_but_users s1 s' ∧ _authenticatedUsers s' ≡ₚ dn ++ u' :: omap (refreshed acquire) rest ∧
    _released s' ≡ₚ _released s1 ++ let_go acquire rest) as Hkeep.
  { intros s1 u' H1. destruct (IH s1 (dn ++ [u']) rest) as (s' & Hx & Hs & Hp & Hr); [by rewrite <-app_assoc|done|].
    exists s'. rewrite length_app, Nat.add_1_r in Hx. split_and!; [done|done|by rewrite <-app_assoc in Hp|done]. }
  destruct (_isValid u); simpl; [by apply (Hkeep s u)|]. destruct (acquire (_name u)) as [u'|e'] eqn:Ea.
  - unfold UserSet.replaceAt. rewrite list_lookup_middle by done. rewrite bool_decide_true by done. simpl.
    destruct (Hkeep (set_users s (<[List.length dn := u']> (dn ++ u :: rest), Some u)) u') as (s' & Hx & Hs & Hp & Hr).
    { simpl. by rewrite insert_app_r_alt, Nat.sub_diag by lia. }
    exists s'. split_and!; [done|eapply same_but_users_trans; [|exact Hs]; by destruct s|done|]. rewrite Hr. simpl. by rewrite <-app_assoc.
  - destruct (decide (e' = UserNotFound)) as [->|Hne].
    + destruct (UserSet.removeAt_middle dn u rest) as (l3 & Hl3 & Hrm). rewrite Hrm. simpl. rewrite bool_decide_true by done. simpl.
      destruct (IH (set_users s (dn ++ l3, Some u)) dn l3) as (s' & Hx & Hs & Hp & Hr); [done|by rewrite Hl3|].
      exists s'. split_and!; [done|eapply same_but_users_trans; [|exact Hs]; by destruct s|by rewrite Hp, Hl3|]. simpl in Hr. by rewrite Hr, Hl3, <-app_assoc.
    + destruct (Hkeep s u Hu) as (s' & Hx & Hs & Hp & Hr). exists s'. destruct e'; try done.
Qed.
Definition session_wf s : Prop :=
  UserSet.distinct (_authenticatedUsers s) ∧ Forall Usr.wf (_authenticatedUsers s) ∧
  _authenticatedRoleNames s = List.concat (_indirectRoles <$> _authenticatedUsers s).
(** The manager gives the user that was asked for. *)
Definition acquires (acquire : UserName → StatusWith User) : Prop := ∀ n u, acquire n = OK u → _name u = n ∧ Usr.wf u.
Lemma refreshed_dbs acquire l : acquires acquire → UserSet.distinct l → UserSet.distinct (omap (refreshed acquire) l).
Proof.
  intros Ha. unfold UserSet.distinct. assert (∀ l x, x ∈ UserSet.dbs (omap (refreshed acquire) l) → x ∈ UserSet.dbs l) as Hsub.
  { clear l. induction l as [|u l IH]; intros x; cbn [omap list_omap]; [done|]. unfold refreshed at 1. destruct (_isValid u); simpl.
    { rewrite !elem_of_cons. naive_solver. }
    destruct (acquire (_name u)) as [u'|[]] eqn:E; simpl; rewrite ?elem_of_cons; try naive_solver.
    destruct (Ha _ _ E) as [Hn _]. rewrite Hn. naive_solver. }
  induction l as [|u l IH]; intros Hnd; cbn [omap list_omap]; [constructor|]. simpl in Hnd. apply NoDup_cons in Hnd as [Hn Hnd].
  assert (∀ u', getUserDB (_name u') = getUserDB (_name u) → NoDup (UserSet.dbs (u' :: omap (refreshed acquire) l))) as Hc.
  { intros u' E. simpl. apply NoDup_cons. split; [rewrite E; by intros ?%Hsub|by apply IH]. }
  unfold refreshed at 1. destruct (_isValid u); [by apply Hc|].
  destruct (acquire (_name u)) as [u'|[]] eqn:E; try (by apply Hc); [|by apply IH]. apply Hc. by destruct (Ha _ _ E) as [-> _].
Qed.
Lemma refreshed_wf acquire l : acquires acquire → Forall Usr.wf l → Forall Usr.wf (omap (refreshed acquire) l).
Proof.
  intros Ha. rewrite !Forall_forall. intros Hl u (u0 & Hin & Hu)%list_elem_of_omap. specialize (Hl u0 Hin). unfold refreshed in Hu.
  destruct (_isValid u0); [by simplify_eq|]. destruct (acquire (_name u0)) as [u'|[]] eqn:E; simplify_eq; try done. by eapply Ha.
Qed.

(** C26. At the start of a request every user that was invalidated is looked up again, once: it is
    replaced by the user the manager returns, removed when it does not exist any more, and kept on
    any other error; exactly the users replaced or removed are released.  There is still one user
    per database, and the role names are those of the users. *)
Theorem startRequest_refreshes acquire s : session_wf s → acquires acquire →
  ∃ s', startRequest acquire s = Ret s' ∧ session_wf s' ∧
    _authenticatedUsers s' ≡ₚ omap (refreshed acquire) (_authenticatedUsers s) ∧
    _released s' ≡ₚ _released s ++ let_go acquire (_authenticatedUsers s) ∧
    _external s' = _checkShouldAllowLocalhost (_external s).
Proof.
  intros (Hd & Hw & Hroles) Ha. unfold startRequest, _refreshUserInfoAsNeeded. set (s0 := s <| _external := _ |>).
  destruct (refresh_loop_spec acquire (List.length (_authenticatedUsers s)) s0 [] (_authenticatedUsers s)) as (s' & Hx & Hs & Hp & Hr); [done|done|].
  exists (_buildAuthenticatedRolesVector s'). simpl in *. rewrite Hx. simpl. split_and!; [done| |done|done|].
  - split_and!; simpl; [|by rewrite Hp; apply refreshed_wf|done]. eapply UserSet.distinct_perm; [symmetry; exact Hp|by apply refreshed_dbs].
  - unfold same_but_users in Hs. exact (f_equal _external Hs).
Qed.

(** Logging in replaces the user of the same database, and only that one; logging out removes
    the user of the database; the one that goes is released, nobody else is; impersonation ends, one
    user per database remains, and the role names are those of the users. *)
Theorem login_and_logout s u dbname : session_wf s → Usr.wf u →
  (∃ s', addAndAuthorizeUser s (OK u) = (OK tt, s') ∧ session_wf s' ∧ _impersonationFlag s' = false ∧
     u :: _authenticatedUsers s ++ _released s ≡ₚ _authenticatedUsers s' ++ _released s' ∧ u ∈ _authenticatedUsers s' ∧
     ∀ x, x ∈ _authenticatedUsers s → getUserDB (_name x) ≠ getUserDB (_name u) → x ∈ _authenticatedUsers s') ∧
  (let s' := logoutDatabase s dbname in session_wf s' ∧ _impersonationFlag s' = false ∧
     _authenticatedUsers s ++ _released s ≡ₚ _authenticatedUsers s' ++ _released s' ∧
     ∀ x, x ∈ _authenticatedUsers s' ↔ x ∈ _authenticatedUsers s ∧ getUserDB (_name x) ≠ dbname).
Proof.
  intros (Hd & Hw & _) Hu. split.
  - eexists. split; [done|]. simpl. pose proof (UserSet.add_perm (_authenticatedUsers s) u) as Hp.
    assert (Forall Usr.wf ((UserSet.add (_authenticatedUsers s) u).1 ++ option_list (UserSet.add (_authenticatedUsers s) u).2)) as Hall
      by (rewrite <-Hp; by constructor).
    apply Forall_app in Hall as [Hw' _]. split_and!; [split_and!; simpl; [by apply UserSet.add_distinct|done|done]|done|..].
    + rewrite (Permutation_app_comm (_released s)), app_assoc, <-Hp. done.
    + clear. induction (_authenticatedUsers s) as [|c l IH]; simpl; [by left|]. destruct (String.eqb _ _); simpl; [by left|by right].
    + intros x Hx Hne. assert (x ∈ (UserSet.add (_authenticatedUsers s) u).1 ++ option_list (UserSet.add (_authenticatedUsers s) u).2) as H
        by (rewrite <-Hp; by right).
      apply elem_of_app in H as [H|H]; [done|]. destruct (UserSet.add _ u).2 as [old|] eqn:E; [|by apply not_elem_of_nil in H].
      simpl in H. apply list_elem_of_singleton in H as ->. by destruct (UserSet.add_replaced _ _ _ E).
  - unfold logoutDatabase, UserSet.removeByDBName. pose proof (UserSet.find_db_spec (_authenticatedUsers s) dbname) as H.
    destruct (UserSet.find_db (_authenticatedUsers s) dbname) as [i|].
    + destruct H as (old & Hi & Hdb). destruct (UserSet.removeAt_perm _ i old Hi) as [Ho Hp]. simpl. rewrite Ho.
      set (l := (UserSet.removeAt (_authenticatedUsers s) i).1) in *.
      assert (UserSet.distinct (old :: l)) as Hd' by (by eapply UserSet.distinct_perm). pose proof Hd' as Hd1. unfold UserSet.distinct in Hd1. simpl in Hd1.
      apply NoDup_cons in Hd1 as [Hn Hnd]. split_and!; [split_and!; simpl|done|..].
      * done.
      * rewrite Hp in Hw. by apply Forall_cons in Hw as [_ ?].
      * done.
      * simpl. rewrite Hp, app_assoc, (Permutation_app_comm _ [old]). done.
      * intros x. rewrite Hp, elem_of_cons. fold l. split; [|naive_solver]. intros Hx. split; [by right|]. intros E. apply Hn. rewrite Hdb, <-E.
        by apply (list_elem_of_fmap_2 (λ u, getUserDB (_name u))).
    + simpl. rewrite app_nil_r. split_and!; [by split_and!|done|done|]. intros x. split; [|by intros [? _]]. intros Hx. split; [done|].
      intros E. apply H. rewrite <-E. by apply (list_elem_of_fmap_2 (λ u, getUserDB (_name u))).
Qed.

(** ** A session *)
Definition ann : User := Usr.new_user (mkUserName "ann" "shop").
Definition bob : User := Usr.invalidate (Usr.new_user (mkUserName "bob" "stock")).
Definition local_session : Session := (addAndAuthorizeUser (addAndAuthorizeUser (new_session (mkExternal true false true false false true)) (OK ann)).2 (OK bob)).2.
Lemma local_session_wf : session_wf local_session.
Proof.
  split_and!; [|by apply Forall_cons; (split; [apply Usr.wf_new|]); apply Forall_cons; split; [apply (Usr.wf_new (mkUserName "bob" "stock"))|]|done].
  unfold UserSet.distinct. simpl. apply NoDup_cons. split; [|apply NoDup_singleton]. by rewrite list_elem_of_singleton.
Qed.
Definition nobody_left : UserName → StatusWith User := λ _, Err UserNotFound.
Lemma startRequest_refreshes_witness :
  ∃ s', startRequest nobody_left local_session = Ret s' ∧ session_wf s' ∧
    _authenticatedUsers s' ≡ₚ omap (refreshed nobody_left) (_authenticatedUsers local_session) ∧
    _released s' ≡ₚ _released local_session ++ let_go nobody_left (_authenticatedUsers local_session) ∧
    _external s' = _checkShouldAllowLocalhost (_external local_session).
Proof. apply (startRequest_refreshes nobody_left local_session); [apply local_session_wf|]. intros n u H. discriminate H. Defined.
Example bob_is_gone :
  match startRequest nobody_left local_session with
  | Ret s => _authenticatedUsers s = [ann] ∧ _released s = [bob]
  | Abort _ => False
  end.
Proof. by vm_compute. Qed.
Lemma login_and_logout_witness :
  ∃ s', addAndAuthorizeUser local_session (OK ann) = (OK tt, s') ∧ session_wf s' ∧ _impersonationFlag s' = false ∧
     ann :: _authenticatedUsers local_session ++ _released local_session ≡ₚ _authenticatedUsers s' ++ _released s' ∧ ann ∈ _authenticatedUsers s' ∧
     ∀ x, x ∈ _authenticatedUsers local_session → getUserDB (_name x) ≠ getUserDB (_name ann) → x ∈ _authenticatedUsers s'.
Proof. apply (login_and_logout local_session ann "stock"); [apply local_session_wf|apply Usr.wf_new]. Defined.
