(* ===== verification/AuthDecision.v ===== *)
(** * The decision of a session

    [isAuthorizedForPrivilege] takes the actions users hold on matching patterns away from the
    actions that are required, and says yes when none is left.  Here: exactly when that is, which
    patterns match a target, and from the role graph to the decision. *)
From stdpp Require Import relations.
From S2P Require Import Prelude ParseNumber AuthPrivilege BuiltinRoles RoleGraph RoleSet RoleGraphInv RoleGraphOps RoleGraphDfs RoleGraphProps AuthUser AuthSession AuthSessionProps.
From Stdlib Require Import String.
Open Scope string_scope.
Open Scope list_scope.
Open Scope Z_scope.
Import Priv Builtin Graph Sess.
Implicit Types (s : Session) (e : External) (u : User) (q r : ResourcePattern) (a : Z).
Abbreviation contains := ActionSet.contains.
Abbreviation any := ActionType.anyAction.

(** ** Taking sets away *)
Fixpoint take_sets (sets : list ActionSet.ActionSet) (unmet : ActionSet.ActionSet) : ActionSet.ActionSet * bool :=
  match sets with
  | [] => (unmet, false)
  | o :: sets =>
      let unmet := ActionSet.removeAllActionsFromSet unmet o in
      if ActionSet.empty unmet then (unmet, true) else take_sets sets unmet
  end.
Definition default_sets (ps : PrivilegeVector) (search : list ResourcePattern) : list ActionSet.ActionSet :=
  p ← ps; r ← search; if RP.eqb (_resource p) r then [_actions p] else [].
Definition user_sets (us : list User) (search : list ResourcePattern) : list ActionSet.ActionSet :=
  u ← us; r ← search; [Usr.getActionsForResource u r].
Lemma take_sets_app l1 l2 unmet :
  take_sets (l1 ++ l2) unmet = (let r := take_sets l1 unmet in if r.2 then r else take_sets l2 r.1).
Proof. revert unmet. induction l1 as [|o l1 IH]; intros unmet; simpl; [done|]. destruct (ActionSet.empty _); [done|apply IH]. Qed.
Lemma take_default_sets p search unmet : take_default p search unmet = take_sets (r ← search; if RP.eqb (_resource p) r then [_actions p] else []) unmet.
Proof.
  revert unmet. induction search as [|r search IH]; intros unmet; simpl; [done|]. destruct (RP.eqb (_resource p) r); simpl; [|apply IH].
  destruct (ActionSet.empty _); [done|apply IH].
Qed.
Lemma take_defaults_sets ps search unmet : take_defaults ps search unmet = take_sets (default_sets ps search) unmet.
Proof.
  revert unmet. induction ps as [|p ps IH]; intros unmet; [done|]. cbn [take_defaults]. unfold default_sets. cbn [mbind list_bind].
  rewrite take_sets_app, <-take_default_sets. cbn zeta. destruct (take_default p search unmet).2; [done|apply IH].
Qed.
Lemma take_user_sets u search unmet : take_user u search unmet = take_sets (r ← search; [Usr.getActionsForResource u r]) unmet.
Proof. revert unmet. induction search as [|r search IH]; intros unmet; simpl; [done|]. destruct (ActionSet.empty _); [done|apply IH]. Qed.
Lemma take_users_sets us search unmet : take_users us search unmet = take_sets (user_sets us search) unmet.
Proof.
  revert unmet. induction us as [|u us IH]; intros unmet; [done|]. cbn [take_users]. unfold user_sets. cbn [mbind list_bind].
  rewrite take_sets_app, <-take_user_sets. cbn zeta. destruct (take_user u search unmet).2; [done|apply IH].
Qed.

(** Nothing is left exactly when each action is in one of the sets; the any action goes with the first non-empty one. *)
Definition taken (sets : list ActionSet.ActionSet) a : Prop :=
  ∃ o, o ∈ sets ∧ (contains o a = true ∨ a = any ∧ ActionSet.empty o = false).
Lemma taken_cons o sets a : taken (o :: sets) a ↔ (contains o a = true ∨ a = any ∧ ActionSet.empty o = false) ∨ taken sets a.
Proof. unfold taken. setoid_rewrite elem_of_cons. naive_solver. Qed.
Lemma contains_removed unmet o a : ActionSet.wf unmet → ActionSet.wf o →
  contains (ActionSet.removeAllActionsFromSet unmet o) a = true ↔
  contains unmet a = true ∧ ¬ (contains o a = true ∨ a = any ∧ ActionSet.empty o = false).
Proof.
  intros Hs Ho. rewrite ActionSet.contains_remove, !andb_true_iff, !negb_true_iff, andb_false_iff, negb_false_iff, Z.eqb_neq by done.
  destruct (contains o a), (ActionSet.empty o); naive_solver.
Qed.
Lemma empty_actions o : ActionSet.wf o → ActionSet.empty o = true ↔ ∀ a, contains o a = true → False.
Proof.
  intros [[H0 _] _]. rewrite (ActionSet.empty_spec o H0). split; intros H a; [by rewrite H|]. by destruct (contains o a) eqn:E; [destruct (H a E)|].
Qed.
Lemma take_sets_true sets : ∀ unmet, ActionSet.wf unmet → Forall ActionSet.wf sets →
  (take_sets sets unmet).2 = true ↔ sets ≠ [] ∧ ∀ a, contains unmet a = true → taken sets a.
Proof.
  induction sets as [|o sets IH]; intros unmet Hu Hs; [simpl; naive_solver|]. apply Forall_cons in Hs as [Ho Hs]. cbn [take_sets]. cbn zeta.
  pose proof (ActionSet.wf_remove unmet o Hu Ho) as Hw. setoid_rewrite taken_cons. pose proof (empty_actions _ Hw) as He.
  destruct (ActionSet.empty (ActionSet.removeAllActionsFromSet unmet o)) eqn:E; simpl.
  - split; [intros _|done]. split; [done|]. intros a Ha. left. destruct (decide (contains o a = true ∨ a = any ∧ ActionSet.empty o = false)) as [|Hn]; [done|].
    destruct (proj1 He eq_refl a). by apply contains_removed.
  - rewrite IH by done. split.
    + intros [_ H]. split; [done|]. intros a Ha. destruct (decide (contains o a = true ∨ a = any ∧ ActionSet.empty o = false)) as [|Hn]; [by left|].
      right. apply H. by apply contains_removed.
    + intros [_ H]. split.
      * intros ->. enough (false = true) by done. apply He. intros a [Ha Hn]%contains_removed; [|done|done].
        destruct (H a Ha) as [?|(? & ?%not_elem_of_nil & _)]; done.
      * intros a [Ha Hn]%contains_removed; [|done|done]. by destruct (H a Ha).
Qed.
(** For well-formed sets the any action need not be counted: it comes with all the others. *)
Lemma some_action o : ActionSet.wf o → contains o any = true → ∃ a, a ≠ any ∧ contains o a = true.
Proof.
  intros Ho Ha. exists 0. rewrite (ActionSet.wf_any o Ho Ha). split; by vm_compute.
Qed.
Lemma nonempty_action o : ActionSet.wf o → ActionSet.empty o = false → ∃ a, contains o a = true ∧ a ≠ any.
Proof.
  intros Ho He. assert (contains o (Z.log2 o) = true) as Hl.
  { unfold ActionSet.empty in He. apply Z.eqb_neq in He. destruct (ActionSet.wf_range o Ho). apply Z.bit_log2. lia. }
  destruct (decide (contains o any = true)) as [Ha|Ha]; [destruct (some_action o Ho Ha) as (a & ? & ?); eauto|].
  exists (Z.log2 o). split; [done|]. by intros E; rewrite E in Hl.
Qed.
Lemma take_sets_iff sets unmet : ActionSet.wf unmet → Forall ActionSet.wf sets →
  (take_sets sets unmet).2 = true ↔ sets ≠ [] ∧ ∀ a, contains unmet a = true → a ≠ any → ∃ o, o ∈ sets ∧ contains o a = true.
Proof.
  intros Hu Hs. rewrite take_sets_true by done. split; intros [Hne H]; (split; [done|]).
  - intros a Ha Hany. destruct (H a Ha) as (o & Hin & [Ho|[? _]]); [eauto|done].
  - intros a Ha. destruct (decide (a = any)) as [->|Hany]. 2:{ destruct (H a Ha Hany) as (o & ? & ?). exists o. eauto. }
    destruct (some_action unmet Hu Ha) as (b & Hb & Hcb). destruct (H b Hcb Hb) as (o & Hin & Ho). exists o. split; [done|]. right. split; [done|].
    destruct (ActionSet.empty o) eqn:E; [|done]. rewrite Forall_forall in Hs. by destruct (proj1 (empty_actions o (Hs o Hin)) E b).
Qed.

(** ** Which patterns match *)
Definition special_dbs : list string := ["local"; "config"].
(** A privilege on [r] is good for [target]: on everything, on the target itself, on collections of
    its name, on its database, on all normal resources; the last two not for system collections, the
    last one not in the special databases. *)
Definition covers r (target : ResourcePattern) : Prop :=
  let db := NamespaceString.db (_ns target) in
  r = RP.forAnyResource ∨ r = target ∨
  (_matchType target = matchExactNamespace ∧
     (r = mkPattern matchCollectionName ("." ++ NamespaceString.coll (_ns target))%string ∨
      NamespaceString.isSystem (_ns target) = false ∧
        (r = mkPattern matchDatabaseName (db ++ "." ++ EmptyString)%string ∨
         r = RP.forAnyNormalResource ∧ db ∉ "$setFeatureCompatibilityVersion" :: special_dbs))) ∨
  (_matchType target = matchDatabaseName ∧ r = RP.forAnyNormalResource ∧ db ∉ special_dbs).
(** A name for which no constructor throws: no NUL, and no dot right after the first one. *)
Definition well_named (target : ResourcePattern) : Prop :=
  clean (NamespaceString.db (_ns target)) ∧ plain_coll (NamespaceString.coll (_ns target)) = true.
Lemma not_special db : negb (String.eqb db "local") && negb (String.eqb db "config") = bool_decide (db ∉ special_dbs).
Proof.
  destruct (String.eqb_spec db "local") as [->|H1]; [by rewrite bool_decide_false by (unfold special_dbs; set_solver)|].
  destruct (String.eqb_spec db "config") as [->|H2]; [by rewrite bool_decide_false by (unfold special_dbs; set_solver)|].
  rewrite bool_decide_true; [done|]. unfold special_dbs. rewrite !not_elem_of_cons. split_and!; [done|done|apply not_elem_of_nil].
Qed.
Lemma not_special_ns db : negb (String.eqb db "local") && negb (String.eqb db "config") && negb (String.eqb db "$setFeatureCompatibilityVersion") =
  bool_decide (db ∉ "$setFeatureCompatibilityVersion" :: special_dbs).
Proof.
  rewrite not_special. destruct (String.eqb_spec db "$setFeatureCompatibilityVersion") as [E|H]; cbn [negb].
  - rewrite andb_false_r. symmetry. apply bool_decide_false. rewrite elem_of_cons. naive_solver.
  - rewrite andb_true_r. apply bool_decide_ext. rewrite not_elem_of_cons. naive_solver.
Qed.
Lemma search_list target : well_named target →
  ∃ l, buildResourceSearchList target = Ret l ∧ ∀ r, r ∈ l ↔ covers r target.
Proof.
  intros [Hc Hp]. apply owp_Ret. unfold buildResourceSearchList, RP.isExactNamespacePattern, RP.isDatabasePattern, covers. cbn zeta.
  rewrite owp_bind. set (db := NamespaceString.db (_ns target)) in *.
  repeat case_bool_decide; try congruence; rewrite ?owp_bind; rewrite ?owp_ret; cbn [owp].
  - destruct (NamespaceString.isSystem (_ns target)); cbn [negb].
    + cbn [owp]. rewrite owp_bind. apply collection_ok; [done|]. cbn [owp app]. intros r. rewrite !elem_of_cons, elem_of_nil. clear -H. intuition congruence.
    + rewrite owp_bind. apply forDatabaseName_ok; [done|]. cbn [owp]. rewrite owp_bind. apply collection_ok; [done|]. cbn [owp]. intros r.
      rewrite not_special_ns. rewrite elem_of_cons, !elem_of_app, !list_elem_of_singleton. case_bool_decide; rewrite ?list_elem_of_singleton, ?elem_of_nil;
        intuition congruence.
  - intros r. rewrite not_special. rewrite elem_of_cons, elem_of_app, list_elem_of_singleton.
    case_bool_decide; rewrite ?list_elem_of_singleton, ?elem_of_nil; intuition congruence.
  - intros r. rewrite elem_of_cons. simpl. rewrite list_elem_of_singleton. intuition congruence.
Qed.

(** ** The decision *)
(** Somebody's privileges, or those of the localhost exception. *)
Definition default_privileges e : PrivilegeVector := match getDefaultPrivileges e with Ret v => v | Abort _ => [] end.
Definition held s r a : Prop :=
  (∃ u, u ∈ _authenticatedUsers s ∧ Usr.allows u r a = true) ∨ grants (default_privileges (_external s)) r a = true.
Definition somebody s target : Prop :=
  _authenticatedUsers s ≠ [] ∨ ∃ r, covers r target ∧ r ∈ resources (default_privileges (_external s)).
Lemma defaults_returned e : getDefaultPrivileges e = Ret (default_privileges e) ∧ Priv.wf (default_privileges e).
Proof.
  unfold default_privileges, getDefaultPrivileges. destruct (shouldAllowLocalhost e); [|split; [done|constructor]].
  destruct (serverIsArbiter e); (split; [by vm_compute|]); apply plain_wf; repeat constructor; by vm_compute.
Qed.
Lemma elem_default_sets ps search o : o ∈ default_sets ps search ↔ ∃ p, p ∈ ps ∧ _resource p ∈ search ∧ o = _actions p.
Proof.
  unfold default_sets. rewrite list_elem_of_bind. split.
  - intros (p & (r & Hr & Hin)%list_elem_of_bind & Hp). unfold RP.eqb in Hr. case_bool_decide as E; [|by apply not_elem_of_nil in Hr].
    apply list_elem_of_singleton in Hr as ->. exists p. by rewrite E.
  - intros (p & Hp & Hin & ->). exists p. split; [|done]. apply list_elem_of_bind. exists (_resource p). unfold RP.eqb. rewrite bool_decide_true by done.
    split; [by left|done].
Qed.
Lemma elem_user_sets us search o : o ∈ user_sets us search ↔ ∃ u r, u ∈ us ∧ r ∈ search ∧ o = Usr.getActionsForResource u r.
Proof.
  unfold user_sets. rewrite list_elem_of_bind. split.
  - intros (u & (r & ->%list_elem_of_singleton & Hin)%list_elem_of_bind & Hu). eauto.
  - intros (u & r & Hu & Hr & ->). exists u. split; [|done]. apply list_elem_of_bind. exists r. split; [by left|done].
Qed.
Lemma grants_spec v r a : grants v r a = true ↔ ∃ p, p ∈ v ∧ _resource p = r ∧ contains (_actions p) a = true.
Proof.
  split; [apply grants_elem|]. intros (p & Hp & <- & Ha). apply existsb_exists. exists p. split; [by apply list_elem_of_In|].
  unfold grants1, RP.eqb. by rewrite bool_decide_true.
Qed.
Lemma decide_privilege s p : session_wf s → ActionSet.wf (_actions p) → well_named (_resource p) →
  ∃ b, _isAuthorizedForPrivilege s p = Ret b ∧
    (b = true ↔ somebody s (_resource p) ∧
       ∀ a, contains (_actions p) a = true → a ≠ any → ∃ r, covers r (_resource p) ∧ held s r a).
Proof.
  intros (_ & Hw & _) Hp Hn. destruct (search_list _ Hn) as (l & Hl & Hcov). destruct (defaults_returned (_external s)) as [Hd Hdw].
  unfold _isAuthorizedForPrivilege. rewrite Hl. simpl. rewrite Hd. simpl. eexists. split; [done|]. set (ds := default_privileges (_external s)) in *.
  set (sets := default_sets ds l ++ user_sets (_authenticatedUsers s) l).
  assert (∀ a, (∃ o, o ∈ sets ∧ contains o a = true) ↔ ∃ r, r ∈ l ∧ held s r a) as Hheld.
  { intros a. unfold sets, held. setoid_rewrite elem_of_app. setoid_rewrite elem_default_sets. setoid_rewrite elem_user_sets. setoid_rewrite grants_spec.
    fold ds. unfold Usr.allows. split; [naive_solver|]. intros (r & Hr & [(u & Hu & Ha)|(dp & Hdp & <- & Ha)]); eexists; (split; [|exact Ha]); eauto 10. }
  assert (Forall ActionSet.wf sets) as Hsets.
  { apply Forall_forall. intros o. unfold sets. rewrite elem_of_app, elem_default_sets, elem_user_sets. unfold Priv.wf in Hdw. rewrite !Forall_forall in *.
    intros [(dp & Hdp & _ & ->)|(u & r & Hu & _ & ->)]; [by apply Hdw|]. by apply Usr.wf_actions, Hw. }
  assert ((if (take_defaults ds l (_actions p)).2 then true else (take_users (_authenticatedUsers s) l (take_defaults ds l (_actions p)).1).2) =
    (take_sets sets (_actions p)).2) as ->.
  { unfold sets. rewrite take_sets_app, take_users_sets, take_defaults_sets. cbn zeta. by destruct (take_sets (default_sets ds l) (_actions p)).2 eqn:E. }
  assert (RP.forAnyResource ∈ l) as Hany by (apply Hcov; by left).
  rewrite take_sets_iff by done. setoid_rewrite Hheld. setoid_rewrite Hcov. apply and_iff_compat_r. unfold somebody. fold ds. split.
  - intros Hne. destruct (_authenticatedUsers s) as [|u us] eqn:E; [right|by left]. destruct sets as [|o sets'] eqn:Es; [done|].
    assert (o ∈ sets) as Ho by (rewrite Es; by left). unfold sets in Ho. rewrite elem_of_app, elem_default_sets, elem_user_sets in Ho.
    destruct Ho as [(dp & Hdp & Hr & _)|(? & ? & []%not_elem_of_nil & _)]. exists (_resource dp). split; [by apply Hcov|by apply list_elem_of_fmap_2].
  - intros Hs Hnil. assert (∀ o, o ∉ sets) as Hno by (rewrite Hnil; intros o; apply not_elem_of_nil). unfold sets in Hno.
    destruct Hs as [Hu|(r & Hr & (dp & -> & Hdp)%list_elem_of_fmap)].
    + destruct (_authenticatedUsers s) as [|u us]; [done|]. apply (Hno (Usr.getActionsForResource u RP.forAnyResource)).
      apply elem_of_app. right. apply elem_user_sets. exists u, RP.forAnyResource. split_and!; [by left|done|done].
    + apply (Hno (_actions dp)). apply elem_of_app. left. apply elem_default_sets. exists dp. split_and!; [done|by apply Hcov|done].
Qed.

(** C10. On a connection whose checks are on, and for a target whose name has no NUL and no dot right
    after the first one, [isAuthorizedForPrivilege] says yes exactly when somebody is there (an
    authenticated user, or the localhost exception has a privilege on a pattern that covers the
    target) and every required action except the any action is held, by an authenticated user or by
    the localhost exception, on a pattern that [covers] the target. These patterns are: any resource;
    the target itself; for a collection, the collections of its name, and, when it is not a system
    collection, its database and, outside of the databases [local], [config] and
    [$setFeatureCompatibilityVersion], any normal resource; for a database other than [local] and
    [config], any normal resource. *)
Theorem authorization_exact s p : session_wf s → shouldIgnoreAuthChecks (_external s) = false →
  ActionSet.wf (_actions p) → well_named (_resource p) →
  ∃ b, isAuthorizedForPrivilege s p = Ret b ∧
    (b = true ↔ somebody s (_resource p) ∧
       ∀ a, contains (_actions p) a = true → a ≠ any → ∃ r, covers r (_resource p) ∧ held s r a).
Proof. intros Hs He Hp Hn. unfold isAuthorizedForPrivilege. rewrite He. by apply decide_privilege. Qed.

(** A connection of the server itself. *)
Definition closed_external : External := mkExternal true false false true false false.
Definition system_session : Session := grantInternalAuthorization (new_session closed_external).
Lemma system_session_wf : session_wf system_session.
Proof. split_and!; [apply NoDup_singleton|constructor; [apply Usr.internal_user_wf|constructor]|done]. Qed.
Lemma authorization_exact_witness :
  ∃ b, isAuthorizedForPrivilege system_session orders_privilege = Ret b ∧
    (b = true ↔ somebody system_session (_resource orders_privilege) ∧
       ∀ a, contains (_actions orders_privilege) a = true → a ≠ any → ∃ r, covers r (_resource orders_privilege) ∧ held system_session r a).
Proof.
  apply (authorization_exact system_session orders_privilege);
    [apply system_session_wf|reflexivity|apply orders_privilege_wf|split; [split; by vm_compute|by vm_compute]].
Defined.
Example system_may_do_it : isAuthorizedForPrivilege system_session orders_privilege = Ret true.
Proof. by vm_compute. Qed.
(** A name that is not well named makes the check throw. *)
Example check_throws : isAuthorizedForActionsOnNamespace system_session "shop..orders" ["find"] = Abort 17246.
Proof. by vm_compute. Qed.
