(* ===== verification/AuthAccess.v ===== *)
(** * From roles to access

    [resolveUserRoles] gives a user the privileges of its roles and of all the roles these can reach;
    a session with that user is then authorized exactly for what these roles have been given. *)
From stdpp Require Import relations.
From S2P Require Import Prelude ParseNumber AuthPrivilege BuiltinRoles RoleGraph RoleSet RoleGraphInv RoleGraphOps RoleGraphDfs RoleGraphProps AuthUser AuthSession AuthSessionProps AuthDecision.
From Stdlib Require Import String.
Open Scope string_scope.
Open Scope list_scope.
Open Scope Z_scope.
Import Priv Builtin Graph Sess.
Implicit Types (g : RoleGraph) (A : Abs) (r : RoleName) (s : Session) (e : External) (u : User) (q : ResourcePattern) (a : Z) (k x y : string).

(** ** Built-in roles that appear change nothing else *)
Lemma edge_roles g A x y : GInv g → rel g A → a_edge A x y → x ∈ a_roles A ∧ y ∈ a_roles A.
Proof. intros HI Hr Hxy. destruct (edge_known g x y HI) as [Hx Hy]; [by apply (rel_edge g A Hr)|]. split; by apply (proj1 Hr). Qed.
Lemma ensure_edges r A : a_edges (a_ensure r A) = a_edges A.
Proof. unfold a_ensure. destruct (isBuiltinRole r); [|done]. simpl. by case_bool_decide. Qed.
Lemma ensure_entry r A y : y ∈ a_roles A ∨ y ≠ nm r → entry y (a_direct (a_ensure r A)) = entry y (a_direct A).
Proof.
  intros Hy. unfold a_ensure. destruct (isBuiltinRole r); [|done]. simpl. case_bool_decide as Hn; [|done]. simpl. rewrite entry_insert.
  case_decide as E; [|done]. subst y. naive_solver.
Qed.
Lemma has_action_ensure g A r k q a : GInv g → rel g A → k ∈ a_roles A ∨ k ≠ nm r →
  has_action (a_ensure r A) k q a ↔ has_action A k q a.
Proof.
  intros HI Hr Hk. unfold has_action. rewrite ensure_edges.
  assert (∀ y, rtc (a_edge A) k y → entry y (a_direct (a_ensure r A)) = entry y (a_direct A)) as He.
  { intros y Hy. apply ensure_entry. destruct Hk as [Hk|Hk].
    - left. clear -HI Hr Hk Hy. induction Hy as [|x z y Hxz _ IH]; [done|]. apply IH. by apply (edge_roles g A x z HI Hr).
    - destruct Hy as [|x z y Hxz Hy]; [by right|]. left. assert (z ∈ a_roles A) as Hz by (by eapply edge_roles). clear -HI Hr Hz Hy.
      induction Hy as [|x z y Hxz _ IH]; [done|]. apply IH. by apply (edge_roles g A x z HI Hr). }
  split; intros (y & Hy & Hg); exists y; (split; [done|]); [by rewrite <-He|by rewrite He].
Qed.
Lemma consistent_ensured g A r : GInv g → rel g A → good r → consistent g A → consistent (ensured g r) (a_ensure r A).
Proof.
  intros HI Hr Hg Hc k Hk. rewrite ensure_edges. destruct (decide (k ∈ a_roles A)) as [Hin|Hnew].
  - destruct (Hc k Hin) as [H1 H2]. assert (indirects (ensured g r) k = indirects g k ∧ alls (ensured g r) k = alls g k) as [-> ->].
    { unfold ensured. destruct (isBuiltinRole r); [|done]. simpl. case_bool_decide as Hn; [|done]. unfold indirects, alls. simpl. rewrite !entry_insert.
      rewrite !decide_False; [done|intros ->; apply Hn; by apply (proj1 Hr)..]. }
    split; [done|]. intros q a. rewrite (has_action_ensure g) by auto. apply H2.
  - unfold a_ensure in Hk |- *. unfold ensured. destruct (isBuiltinRole r) eqn:Hb; [|done]. simpl in Hk |- *.
    rewrite (bool_decide_ext (¬ known g (nm r)) (nm r ∉ a_roles A)) by (by rewrite (proj1 Hr)).
    case_bool_decide as Hn; [|done]. simpl in Hk. assert (k = nm r) as -> by (clear -Hk Hnew; set_solver).
    assert (∀ y, ¬ a_edge A (nm r) y) as Hno by (intros y Hy; apply Hn; by apply (edge_roles g A (nm r) y HI Hr)). split.
    + intros y. unfold indirects. simpl. rewrite entry_insert, decide_True by done. split; [by intros ?%not_elem_of_nil|].
      intros Ht. inversion Ht; subst; naive_solver.
    + intros q a. unfold alls. simpl. rewrite entry_insert, decide_True, <-builtin_grants by done. unfold has_action. simpl. split.
      * intros H. exists (nm r). split; [done|]. by rewrite entry_insert, decide_True.
      * intros (y & Hy & H). inversion Hy; subst; [|naive_solver]. by rewrite entry_insert, decide_True in H.
Qed.

(** ** Resolving roles *)
Definition a_ensure_roles (roles : list RoleName) A : Abs := foldl (λ A r, a_ensure r A) A roles.
(** Everything the roles have. *)
Definition roles_have A (roles : list RoleName) q a : Prop := ∃ r, r ∈ roles ∧ has_action A (nm r) q a.
Definition roles_reach A (roles : list RoleName) x : Prop := ∃ r, r ∈ roles ∧ rtc (a_edge A) (nm r) x.
Definition settled A r : Prop := good r ∧ (nm r ∈ a_roles A ∨ isBuiltinRole r = false).
Lemma settled_ensure A r : good r → settled (a_ensure r A) r.
Proof. intros Hg. split; [done|]. destruct (isBuiltinRole r) eqn:Hb; [left; by apply a_ensure_builtin|by right]. Qed.
Lemma settled_other A r r' : settled A r → settled (a_ensure r' A) r.
Proof. intros [Hg [H|H]]; (split; [done|]); [left; by apply a_ensure_incl|by right]. Qed.
Lemma settled_action g A r r' q a : GInv g → rel g A → settled A r → good r' → has_action (a_ensure r' A) (nm r) q a ↔ has_action A (nm r) q a.
Proof.
  intros HI Hr [Hg Hs] Hg'. destruct (isBuiltinRole r') eqn:Hb; [|by rewrite a_ensure_plain].
  apply (has_action_ensure g); [done|done|]. destruct Hs as [Hs|Hs]; [by left|right]. intros E. apply nm_inj in E; [congruence|done|done].
Qed.
Record resolved A (roles : list RoleName) (o : list RoleName * PrivilegeVector) : Prop := mkResolved {
  rs_wf : Priv.wf o.2;
  rs_distinct : NoDup (resources o.2);
  rs_names : ∀ x, x ∈ names o.1 ↔ roles_reach A roles x;
  rs_actions : ∀ q a, grants o.2 q a = true ↔ roles_have A roles q a }.
Lemma resolved_nil A : resolved A [] ([], []).
Proof.
  split; [constructor|constructor| |].
  - intros x. split; [by intros ?%not_elem_of_nil|by intros (r & ?%not_elem_of_nil & _)].
  - intros q a. split; [done|by intros (r & ?%not_elem_of_nil & _)].
Qed.
Lemma wp_resolve_role g A dn r acc : GInv g → rel g A → consistent g A → good r → Forall (settled A) dn → resolved A dn acc →
  wp (resolve_role true acc r) (λ o g', GInv g' ∧ rel g' (a_ensure r A) ∧ consistent g' (a_ensure r A) ∧
    Forall (settled (a_ensure r A)) (dn ++ [r]) ∧ resolved (a_ensure r A) (dn ++ [r]) o) g.
Proof.
  intros HI Hr Hc Hg Hdn [H1 H2 H3 H4]. pose proof (ensured_GInv g r HI Hg) as HI'. pose proof (rel_ensured g A r HI Hr) as Hr'.
  pose proof (consistent_ensured g A r HI Hr Hg Hc) as Hc'. set (A' := a_ensure r A) in *. set (g' := ensured g r) in *.
  assert (ensured g' r = g') as Hee.
  { destruct (decide (nm r ∈ a_roles A')) as [Hin|Hn]; [by apply (ensured_known g' A')|]. unfold ensured.
    destruct (isBuiltinRole r) eqn:Hb; [|done]. by destruct (Hn (a_ensure_builtin r A Hb)). }
  assert ((∀ y, y ∈ names (indirects g' (nm r)) ↔ tc (a_edge A') (nm r) y) ∧ (∀ q a, grants (alls g' (nm r)) q a = true ↔ has_action A' (nm r) q a)) as [Ht Ha].
  { destruct (decide (nm r ∈ a_roles A')) as [Hin|Hn]; [by apply Hc'|].
    assert (∀ y, ¬ a_edge A' (nm r) y) as Hno by (intros y Hy; apply Hn; by apply (edge_roles g' A' (nm r) y HI' Hr')).
    assert (¬ known g' (nm r)) as Hk by (by rewrite (proj1 Hr')). split.
    - intros y. unfold indirects. rewrite entry_unknown by (by rewrite (gi_indirect g' HI')). split; [by intros ?%not_elem_of_nil|].
      intros Ht. inversion Ht; subst; naive_solver.
    - intros q a. unfold alls. rewrite entry_unknown by (by rewrite (gi_all g' HI')). split; [done|]. intros (y & Hy & Hgr).
      inversion Hy; subst; [|naive_solver]. rewrite <-(proj2 (proj2 Hr')) in Hgr. by rewrite entry_unknown in Hgr by (by rewrite (gi_direct g' HI')). }
  unfold resolve_role. wp_simpl. apply wp_getIndirectSubordinates; [done|done|]. fold g'. wp_simpl. apply wp_getAllPrivileges; [done|done|].
  rewrite Hee. wp_simpl. pose proof (proj2 (gi_privs g' HI' (nm r))) as Hw. split_and!; [done|done|done| |].
  - apply Forall_app. split; [|constructor; [by apply settled_ensure|constructor]]. eapply Forall_impl; [exact Hdn|]. intros r0. apply settled_other.
  - rewrite Forall_forall in Hdn. split; cbn [fst snd].
    + by apply wf_add_all.
    + by apply distinct_add_all.
    + intros x. rewrite uset_insert_all, uset_insert_names, H3, Ht. unfold roles_reach. unfold A'. rewrite ensure_edges. setoid_rewrite elem_of_app.
      setoid_rewrite list_elem_of_singleton. split.
      * intros [[(r0 & ? & ?)| ->]|Hx]; [exists r0; by auto|exists r; split; [by right|done]|exists r; split; [by right|by apply tc_rtc]].
      * intros (r0 & [Hin| ->] & Hx); [left; left; eauto|]. apply rtc_tc in Hx as [<-|Hx]; [by left; right|by right].
    + intros q a. rewrite grants_add_all, orb_true_iff, H4, Ha by done. unfold roles_have. setoid_rewrite elem_of_app.
      setoid_rewrite list_elem_of_singleton. split.
      * intros [(r0 & Hin & H)|H]; [|eauto]. exists r0. split; [by left|]. apply (settled_action g); try done. by apply Hdn.
      * intros (r0 & [Hin| ->] & H); [|by right]. left. exists r0. split; [done|]. apply (settled_action g A r0 r) in H; try done. by apply Hdn.
Qed.
Lemma wp_resolve roles : Forall good roles → ∀ g A dn acc, GInv g → rel g A → consistent g A → Forall (settled A) dn → resolved A dn acc →
  wp (mfoldl (resolve_role true) acc roles) (λ o g', GInv g' ∧ rel g' (a_ensure_roles roles A) ∧ consistent g' (a_ensure_roles roles A) ∧
    resolved (a_ensure_roles roles A) (dn ++ roles) o) g.
Proof.
  induction 1 as [|r roles Hg Hgs IH]; intros g A dn acc HI Hr Hc Hdn Hrs; cbn [mfoldl]; [wp_simpl; by rewrite app_nil_r|].
  wp_simpl. eapply wp_mono; [|by apply (wp_resolve_role g A dn r acc)]. intros o g' (HI' & Hr' & Hc' & Hdn' & Hrs').
  eapply wp_mono; [|by apply (IH g' (a_ensure r A) (dn ++ [r]) o)]. intros o2 g2. by rewrite <-app_assoc.
Qed.
Lemma wp_resolveUserRoles g A roles : GInv g → rel g A → consistent g A → Forall good roles →
  wp (resolveUserRoles true roles) (λ o g', GInv g' ∧ rel g' (a_ensure_roles roles A) ∧ consistent g' (a_ensure_roles roles A) ∧
    resolved (a_ensure_roles roles A) roles o) g.
Proof. intros HI Hr Hc Hg. apply (wp_resolve roles Hg g A [] ([], [])); [done|done|done|constructor|apply resolved_nil]. Qed.

(** ** From the graph to the decision *)
(** The user as [_initializeUserFromPrivilegeDocument] fills it in, and a session it has logged in to. *)
Definition user_with (name : UserName) (roles : list RoleName) (o : list RoleName * PrivilegeVector) : User :=
  Usr.setPrivileges (Usr.setIndirectRoles (Usr.setRoles (Usr.new_user name) roles) o.1) o.2.
Definition login e u : Session := (addAndAuthorizeUser (new_session e) (OK u)).2.
(** Checks are on, and there is no localhost exception. *)
Definition closed e : Prop := shouldIgnoreAuthChecks e = false ∧ shouldAllowLocalhost e = false.
Lemma login_wf e u : Usr.wf u → session_wf (login e u).
Proof. intros Hu. split_and!; [apply NoDup_singleton|by constructor|done]. Qed.
Lemma login_held e u q a : closed e → held (login e u) q a ↔ Usr.allows u q a = true.
Proof.
  intros [_ He]. unfold held, default_privileges, getDefaultPrivileges. simpl. rewrite He. simpl. setoid_rewrite list_elem_of_singleton. split.
  - by intros [(? & -> & ?)|?].
  - intros H. left. by exists u.
Qed.
Lemma user_with_spec A roles o name : resolved A roles o →
  Usr.wf (user_with name roles o) ∧ ∀ q a, Usr.allows (user_with name roles o) q a = true ↔ roles_have A roles q a.
Proof.
  intros [H1 H2 _ H4]. split; [by apply Usr.setPrivileges_wf|]. intros q a. unfold user_with. rewrite Usr.setPrivileges_allows by done. apply H4.
Qed.
Lemma login_decision A roles o name e p : closed e → resolved A roles o → ActionSet.wf (_actions p) → well_named (_resource p) →
  ∃ b, isAuthorizedForPrivilege (login e (user_with name roles o)) p = Ret b ∧
    (b = true ↔ ∀ a, contains (_actions p) a = true → a ≠ any → ∃ q, covers q (_resource p) ∧ roles_have A roles q a).
Proof.
  intros He Hrs Hp Hn. destruct (user_with_spec A roles o name Hrs) as [Hw Hal]. set (u := user_with name roles o) in *.
  destruct (decide_privilege (login e u) p (login_wf e u Hw) Hp Hn) as (b & Hb & Hiff). exists b. split.
  - unfold isAuthorizedForPrivilege. simpl. by rewrite (proj1 He).
  - rewrite Hiff. setoid_rewrite login_held; [|done]. setoid_rewrite Hal. split; [by intros [_ ?]|]. intros H. split; [by left|done].
Qed.

(** C5. From roles to access: after a successful [recomputePrivilegeData], a user that is given the
    result of [resolveUserRoles] and logs in is authorized for a privilege exactly when every action
    has been granted, on a pattern that covers the target, to one of the user's roles or to a role
    they can reach through the graph. *)
Theorem roles_decide_access A g0 order g roles name e p :
  reachable A g0 → table_order order A → recomputePrivilegeData order g0 = Ret (OK tt, g) →
  Forall good roles → closed e → ActionSet.wf (_actions p) → well_named (_resource p) →
  ∃ o g' b, resolveUserRoles true roles g = Ret (o, g') ∧
    isAuthorizedForPrivilege (login e (user_with name roles o)) p = Ret b ∧
    (b = true ↔ ∀ a, contains (_actions p) a = true → a ≠ any →
       ∃ q r y, covers q (_resource p) ∧ r ∈ roles ∧ rtc (a_edge A) (nm r) y ∧
         grants (entry y (a_direct (a_ensure_roles roles A))) q a = true).
Proof.
  intros Hre Ho Hx Hg He Hp Hn. destruct (graph_reachable_inv A g0 Hre) as [HI Hr].
  pose proof (wp_recompute g0 A order HI Hr Ho) as Hc. unfold wp in Hc. rewrite Hx in Hc. destruct Hc as (HI' & Hr' & _ & Hc).
  destruct (proj1 (wp_Ret _ _ _) (wp_resolveUserRoles g A roles HI' Hr' Hc Hg)) as (o & g' & Hx' & _ & _ & _ & Hrs). exists o, g'.
  destruct (login_decision _ roles o name e p He Hrs Hp Hn) as (b & Hb & Hiff). exists b. split_and!; [done|done|]. rewrite Hiff.
  assert (a_edges (a_ensure_roles roles A) = a_edges A) as HE.
  { clear. unfold a_ensure_roles. revert A. induction roles as [|r roles IH]; intros A; simpl; [done|]. by rewrite IH, ensure_edges. }
  unfold roles_have, has_action. rewrite HE. split; intros H a Ha Hany.
  - destruct (H a Ha Hany) as (q & Hq & r & Hin & y & Hy & Hgr). by exists q, r, y.
  - destruct (H a Ha Hany) as (q & r & y & Hq & Hin & Hy & Hgr). exists q. split; [done|]. exists r. split; [done|]. by exists y.
Qed.
Definition shop_done : RoleGraph :=
  match recomputePrivilegeData [rw_role; boss_role; app_role] shop_graph with Ret (_, g) => g | Abort _ => shop_graph end.
Lemma shop_recomputed : recomputePrivilegeData [rw_role; boss_role; app_role] shop_graph = Ret (OK tt, shop_done).
Proof. vm_compute. reflexivity. Qed.
Lemma orders_well_named : well_named (_resource orders_privilege).
Proof. split; [split; by vm_compute|by vm_compute]. Qed.
Lemma roles_decide_access_witness :
  ∃ o g' b, resolveUserRoles true [boss_role] shop_done = Ret (o, g') ∧
    isAuthorizedForPrivilege (login closed_external (user_with (mkUserName "ann" "shop") [boss_role] o)) orders_privilege = Ret b ∧
    (b = true ↔ ∀ a, contains (_actions orders_privilege) a = true → a ≠ any →
       ∃ q r y, covers q (_resource orders_privilege) ∧ r ∈ [boss_role] ∧ rtc (a_edge shop_abs) (nm r) y ∧
         grants (entry y (a_direct (a_ensure_roles [boss_role] shop_abs))) q a = true).
Proof.
  apply (roles_decide_access shop_abs shop_graph [rw_role; boss_role; app_role] shop_done); [apply shop_reachable|apply shop_order|
    apply shop_recomputed|repeat constructor|split; reflexivity|apply orders_privilege_wf|apply orders_well_named].
Defined.
(** The boss may insert orders: the application's privilege is inherited. *)
Example boss_may_order :
  match resolveUserRoles true [boss_role] shop_done with
  | Ret (o, _) => isAuthorizedForPrivilege (login closed_external (user_with (mkUserName "ann" "shop") [boss_role] o)) orders_privilege
  | Abort n => Abort n
  end = Ret true.
Proof. by vm_compute. Qed.

(** ** Users with built-in roles only *)
Lemma builtin_have g A r q a : GInv g → rel g A → good r → isBuiltinRole r = true → nm r ∈ a_roles A →
  has_action A (nm r) q a → grants (builtin_direct r) q a = true.
Proof.
  intros HI Hr Hg Hb Hin (y & Hy & Hgr). destruct (gi_builtin g HI r Hg Hb) as [Hs Hd]; [by apply (proj1 Hr)|].
  unfold directs in Hd. rewrite (proj2 (proj2 Hr)) in Hd. destruct Hy as [|x z y Hxz _]; [by rewrite Hd in Hgr|].
  apply (rel_edge g A Hr) in Hxz. unfold edge in Hxz. rewrite Hs in Hxz. by apply not_elem_of_nil in Hxz.
Qed.
Lemma ensure_roles_incl roles : ∀ A, a_roles A ⊆ a_roles (a_ensure_roles roles A).
Proof. induction roles as [|r roles IH]; intros A; [done|]. etrans; [apply (a_ensure_incl r)|apply IH]. Qed.
Lemma ensure_roles_builtin roles r : isBuiltinRole r = true → r ∈ roles → ∀ A, nm r ∈ a_roles (a_ensure_roles roles A).
Proof.
  intros Hb. induction roles as [|r' roles IH]; [by intros ?%not_elem_of_nil|]. intros [<-|Hin]%elem_of_cons A; [|by apply IH].
  apply (ensure_roles_incl roles (a_ensure r A)). by apply a_ensure_builtin.
Qed.
Lemma covers_database q ns d : well_named (RP.forExactNamespace ns) → covers q (RP.forExactNamespace ns) → in_database d q → NamespaceString.db ns = d.
Proof.
  intros [[Hdot _] _] Hc [Ht Hd]. unfold covers in Hc. simpl in *. decompose [or and] Hc; subst q; simpl in *; try (destruct Ht as [Ht|Ht]; discriminate Ht); try done.
  rewrite <-Hd. unfold RP.databaseToMatch. simpl. by rewrite db_made.
Qed.

(** C19. Built-in roles other than [__system] never let a client act as a member of the cluster: a
    find or getMore with a term is refused.  And a user whose roles are [read], [readWrite],
    [userAdmin], [dbAdmin] or [dbOwner] of one database is not authorized for anything on a
    collection of another. *)
Theorem builtin_users_confined A g0 order g roles name e :
  reachable A g0 → table_order order A → recomputePrivilegeData order g0 = Ret (OK tt, g) → closed e →
  Forall (λ r, good r ∧ isBuiltinRole r = true ∧ r ≠ system_role) roles →
  ∃ o g', resolveUserRoles true roles g = Ret (o, g') ∧
    let s := login e (user_with name roles o) in
    (∀ ns, checkAuthForFind s ns true ≠ Ret (OK tt) ∧ checkAuthForGetMore s ns true ≠ Ret (OK tt)) ∧
    (∀ d ns actions, Forall (λ r, getRole r ∈ own_roles ∧ getDB r = d) roles → ActionSet.wf actions → ActionSet.empty actions = false →
       well_named (RP.forExactNamespace ns) →
       isAuthorizedForPrivilege s (mkPrivilege (RP.forExactNamespace ns) actions) = Ret true → NamespaceString.db ns = d).
Proof.
  intros Hre Ho Hx He Hroles. destruct (graph_reachable_inv A g0 Hre) as [HI Hr]. rewrite Forall_forall in Hroles.
  assert (Forall good roles) as Hg by (apply Forall_forall; intros r Hin; by apply Hroles).
  pose proof (wp_recompute g0 A order HI Hr Ho) as Hc. unfold wp in Hc. rewrite Hx in Hc. destruct Hc as (HI' & Hr' & _ & Hc).
  destruct (proj1 (wp_Ret _ _ _) (wp_resolveUserRoles g A roles HI' Hr' Hc Hg)) as (o & g' & Hx' & HI2 & Hr2 & _ & Hrs). exists o, g'. split; [done|]. cbn zeta.
  set (A' := a_ensure_roles roles A) in *. pose proof (λ p, login_decision A' roles o name e p He Hrs) as Hdec. set (s := login e (user_with name roles o)) in *.
  assert (∀ q a, roles_have A' roles q a → ∃ r, r ∈ roles ∧ grants (builtin_direct r) q a = true) as Hhave.
  { intros q a (r & Hin & H). exists r. split; [done|]. destruct (Hroles r Hin) as (? & ? & _). eapply (builtin_have g' A'); try done. by apply ensure_roles_builtin. }
  split.
  - assert (with_term s true = Ret (Err Unauthorized)) as Hterm.
    { unfold with_term, isAuthorizedForActionsOnResource.
      destruct (Hdec (mkPrivilege RP.forClusterResource (ActionSet.of_actions ["internal"]))) as (b & Hb & Hiff).
      { apply ActionSet.wf_addActions; [apply ActionSet.wf_empty|by vm_compute]. }
      { split; [split; by vm_compute|by vm_compute]. }
      rewrite Hb. destruct b; [|done]. exfalso. destruct (proj1 Hiff eq_refl internal) as (q & _ & H); [by vm_compute|by vm_compute|].
      destruct (Hhave q internal H) as (r & Hin & Hgr). destruct (Hroles r Hin) as (_ & Hbr & Hne).
      destruct (builtin_limits r q internal Hbr Hgr) as [Hl _]. by destruct (Hl Hne). }
    intros ns. unfold checkAuthForFind, checkAuthForGetMore. rewrite Hterm. split.
    + destruct (NS.isCommand ns); [done|]. by destruct (isAuthorizedForActionsOnNamespace s ns ["find"]) as [[]|].
    + match goal with |- ?m ≫= _ ≠ _ => by destruct m as [[]|] end.
  - intros d ns actions Hown Hw Hne Hn Hb. destruct (Hdec (mkPrivilege (RP.forExactNamespace ns) actions) Hw Hn) as (b & Hb' & Hiff). rewrite Hb in Hb'. injection Hb' as <-. rewrite Forall_forall in Hown.
    destruct (nonempty_action actions Hw Hne) as (a & Ha & Hany).
    destruct (proj1 Hiff eq_refl a Ha Hany) as (q & Hq & H). destruct (Hhave q a H) as (r & Hin & Hgr).
    destruct (Hroles r Hin) as (_ & Hbr & _). destruct (builtin_limits r q a Hbr Hgr) as [_ Hl]. destruct (Hown r Hin) as [Hor <-].
    eapply covers_database; [done|done|by apply Hl].
Qed.
Lemma builtin_users_confined_witness :
  ∃ o g', resolveUserRoles true [rw_role] shop_done = Ret (o, g') ∧
    let s := login closed_external (user_with (mkUserName "ann" "shop") [rw_role] o) in
    (∀ ns, checkAuthForFind s ns true ≠ Ret (OK tt) ∧ checkAuthForGetMore s ns true ≠ Ret (OK tt)) ∧
    (∀ d ns actions, Forall (λ r, getRole r ∈ own_roles ∧ getDB r = d) [rw_role] → ActionSet.wf actions → ActionSet.empty actions = false →
       well_named (RP.forExactNamespace ns) →
       isAuthorizedForPrivilege s (mkPrivilege (RP.forExactNamespace ns) actions) = Ret true → NamespaceString.db ns = d).
Proof.
  apply (builtin_users_confined shop_abs shop_graph [rw_role; boss_role; app_role] shop_done); [apply shop_reachable|apply shop_order|
    apply shop_recomputed|split; reflexivity|]. constructor; [|constructor]. split; [reflexivity|]. split; [reflexivity|discriminate].
Defined.
