(* ===== verification/AuthCache.v ===== *)
(** * The cache of users

    [AuthorizationManager] (db/auth/authorization_manager.cpp) keeps one [User] object per user that
    some connection has acquired.  [acquireUser] finds it in the cache or, one thread at a time and
    without the mutex, fetches it; when something was invalidated during the fetch, the cache has a
    new generation and the fetched object is marked invalid instead of being cached.

    What happens under the mutex is one definition each: [acquire_lookup] up to the fetch phase,
    [acquire_finish] after it, the same for the version of the schema, [releaseUser] and the
    invalidations.  Objects are in a heap ([_heap]),
    and pointers are their numbers; [internalSecurity.user] is number 0.  A generation ([OID::gen])
    is a number that has not been used before.  Using an object that was deleted is a fault (line 0). *)
From S2P Require Import Prelude ParseNumber AuthPrivilege BuiltinRoles RoleGraph AuthUser.
From Stdlib Require Import String.
Open Scope string_scope.
Open Scope list_scope.
Open Scope Z_scope.

Record Manager := mkManager {
  _userCache : gmap UserName nat; _heap : gmap nat User; _next : nat;
  _cacheGeneration : nat; _isFetchPhaseBusy : bool; _version : Z }.
(** The guard of one call: the generation at the beginning of its fetch phase, whether it has entered
    that phase, and whether it holds the mutex. *)
Record CacheGuard := mkGuard { _startGeneration : nat; _isThisGuardInFetchPhase : bool; owns_lock : bool }.
#[export] Instance CacheGuard_eta : Eta CacheGuard := λ g, mkGuard (_startGeneration g) (_isThisGuardInFetchPhase g) (owns_lock g).
#[export] Instance Manager_eta : Eta Manager := λ m,
  mkManager (_userCache m) (_heap m) (_next m) (_cacheGeneration m) (_isFetchPhaseBusy m) (_version m).

Module Cache.
Abbreviation MG := (M Manager).
Implicit Types (m : Manager) (p : nat) (u : User).
Definition schemaVersionInvalid : Z := 0.
Definition schemaVersion24 : Z := 1.
Definition schemaVersion26Upgrade : Z := 2.
Definition schemaVersion26Final : Z := 3.
Definition schemaVersion28SCRAM : Z := 5.
Definition internal_name : UserName := _name Usr.internal_user.
Definition new_manager : Manager := mkManager ∅ {[0%nat := Usr.internal_user]} 1 0 false schemaVersionInvalid.

(** ** Objects *)
Definition deref p : MG User := λ m, match _heap m !! p with Some u => Ret (u, m) | None => Abort 0 end.
Definition assign p u : MG () := modify (λ m, m <| _heap := <[p := u]> (_heap m) |>).
Definition new_object u : MG nat :=
  p ← gets _next; _ ← modify (λ m, m <| _heap := <[p := u]> (_heap m) |> <| _next := S p |>); mret p.
Definition delete_object p : MG () := modify (λ m, m <| _heap := delete p (_heap m) |>).
Definition _updateCacheGeneration_inlock : MG () := modify (λ m, m <| _cacheGeneration := S (_cacheGeneration m) |>).

(** ** The guard: lines 145 to 245 *)
(** The constructor, with [fetchSynchronizationManual]. *)
Definition new_guard : CacheGuard := mkGuard 0 false true.
Definition wait (g : CacheGuard) : MG () := invariant 17222 (λ _, negb (_isThisGuardInFetchPhase g)).
Definition beginFetchPhase (g : CacheGuard) : MG CacheGuard :=
  _ ← invariant 17191 (λ m, negb (_isFetchPhaseBusy m));
  _ ← modify (λ m, m <| _isFetchPhaseBusy := true |>);
  startGeneration ← gets _cacheGeneration;
  mret (mkGuard startGeneration true false).
Definition endFetchPhase (g : CacheGuard) : CacheGuard := g <| owns_lock := true |>.
Definition isSameCacheGeneration (g : CacheGuard) : MG bool :=
  _ ← invariant 17223 (λ _, _isThisGuardInFetchPhase g);
  _ ← invariant 17231 (λ _, owns_lock g);
  gets (λ m, Nat.eqb (_startGeneration g) (_cacheGeneration m)).
(** The destructor. *)
Definition leave (g : CacheGuard) : MG () :=
  if _isThisGuardInFetchPhase g then
    _ ← invariant 17190 _isFetchPhaseBusy; modify (λ m, m <| _isFetchPhaseBusy := false |>)
  else mret tt.

(** ** Acquiring a user: lines 447 to 536 *)
Inductive Lookup := Hit (acquiredUser : nat) | Wait | Fetch (guard : CacheGuard) (authzVersion : Z).
Definition acquire_lookup (userName : UserName) : MG Lookup :=
  if bool_decide (userName = internal_name) then mret (Hit 0) else
  cache ← gets _userCache;
  match cache !! userName with
  | Some it =>
      u ← deref it;
      _ ← invariant 17003 (λ _, _isValid u);
      _ ← invariant 17008 (λ _, 0 <? _refCount u);
      _ ← assign it (Usr.incrementRefCount u);
      mret (Hit it)
  | None =>
      busy ← gets _isFetchPhaseBusy;
      if (busy : bool) then _ ← wait new_guard; mret Wait else
      authzVersion ← gets _version;
      guard ← beginFetchPhase new_guard;
      mret (Fetch guard authzVersion)
  end.
(** The retries; the version and the user are read from storage, at the [i]-th time as the arguments say. *)
Section fetching.
Context (getStoredAuthorizationVersion : nat → StatusWith Z) (_fetchUserV2 : nat → StatusWith User).
Definition fetch_version (i : nat) (authzVersion : Z) : StatusWith User :=
  if (authzVersion =? schemaVersion28SCRAM) || (authzVersion =? schemaVersion26Final) || (authzVersion =? schemaVersion26Upgrade)
  then _fetchUserV2 i
  else if authzVersion =? schemaVersion24 then Err AuthSchemaIncompatible else Err BadValue.
Fixpoint fetch_loop (retries i : nat) (authzVersion : Z) : StatusWith (Z * User) :=
  match retries with
  | O => Err AuthSchemaIncompatible
  | S retries =>
      match (if authzVersion =? schemaVersionInvalid then getStoredAuthorizationVersion i else OK authzVersion) with
      | Err e => Err e
      | OK authzVersion =>
          match fetch_version i authzVersion with
          | OK user => OK (authzVersion, user)
          | Err e => if bool_decide (e = AuthSchemaIncompatible) then fetch_loop retries (S i) schemaVersionInvalid else Err e
          end
      end
  end.
End fetching.
Definition maxAcquireRetries : nat := 2.
Definition acquire_finish (userName : UserName) (guard : CacheGuard) (fetched : StatusWith (Z * User)) : MG (StatusWith nat) :=
  match fetched with
  | Err e => _ ← leave guard; mret (Err e)
  | OK (authzVersion, user) =>
      let guard := endFetchPhase guard in
      p ← new_object (Usr.incrementRefCount user);
      same ← isSameCacheGeneration guard;
      _ ← (if (same : bool) then
             modify (λ m, m <| _userCache := match _userCache m !! userName with
                                             | Some _ => _userCache m
                                             | None => <[userName := p]> (_userCache m)
                                             end |>
                            <| _version := if _version m =? schemaVersionInvalid then authzVersion else _version m |>)
           else u ← deref p; assign p (Usr.invalidate u));
      _ ← leave guard;
      mret (OK p)
  end.

(** ** The version alone: lines 277 to 299 *)
Inductive VersionLookup := Known (version : Z) | VersionWait | VersionFetch (guard : CacheGuard).
(** From the loop on: a thread that has waited goes on here, without looking at [_version] again. *)
Definition version_begin : MG VersionLookup :=
  busy ← gets _isFetchPhaseBusy;
  if (busy : bool) then _ ← wait new_guard; mret VersionWait else
  guard ← beginFetchPhase new_guard;
  mret (VersionFetch guard).
Definition version_lookup : MG VersionLookup :=
  newVersion ← gets _version;
  if negb (newVersion =? schemaVersionInvalid) then mret (Known newVersion) else version_begin.
Definition version_finish (guard : CacheGuard) (stored : StatusWith Z) : MG (StatusWith Z) :=
  let guard := endFetchPhase guard in
  match stored with
  | Err e => _ ← leave guard; mret (Err e)
  | OK newVersion =>
      same ← isSameCacheGeneration guard;
      _ ← (if (same : bool) then modify (λ m, m <| _version := newVersion |>) else mret tt);
      _ ← leave guard;
      mret (OK newVersion)
  end.

(** ** Releasing: lines 559 to 574, with the check of debug builds *)
Definition releaseUser p : MG () :=
  if Nat.eqb p 0 then mret tt else
  u ← deref p;
  let u := Usr.decrementRefCount u in
  _ ← assign p u;
  if _refCount u =? 0 then
    _ ← (if _isValid u then
           _ ← invariant 570 (λ m, bool_decide (is_Some (_userCache m !! _name u)));
           modify (λ m, m <| _userCache := delete (_name u) (_userCache m) |>)
         else mret tt);
    delete_object p
  else mret tt.

(** ** Invalidating: lines 576 to 620 *)
Definition invalidate_object p : MG () := u ← deref p; assign p (Usr.invalidate u).
Definition invalidateUserByName (userName : UserName) : MG () :=
  _ ← _updateCacheGeneration_inlock;
  cache ← gets _userCache;
  match cache !! userName with
  | None => mret tt
  | Some p => _ ← modify (λ m, m <| _userCache := delete userName (_userCache m) |>); invalidate_object p
  end.
Definition invalidateUsersFromDB (dbname : string) : MG () :=
  _ ← _updateCacheGeneration_inlock;
  cache ← gets _userCache;
  mfoldl (λ _ e,
    u ← deref e.2;
    if String.eqb (getUserDB (_name u)) dbname then
      _ ← modify (λ m, m <| _userCache := delete e.1 (_userCache m) |>); invalidate_object e.2
    else mret tt) tt (map_to_list cache).
Definition invalidateUserCache : MG () :=
  _ ← _updateCacheGeneration_inlock;
  cache ← gets _userCache;
  _ ← mfoldl (λ _ e, _ ← invariant 17266 (λ _, negb (Nat.eqb e.2 0)); invalidate_object e.2) tt (map_to_list cache);
  modify (λ m, m <| _userCache := ∅ |> <| _version := schemaVersionInvalid |>).
End Cache.
