(* ===== verification/AuthCacheProps.v ===== *)
(** * What the cache of users promises

    The manager together with the stored users, the references connections hold and the thread in
    fetch phase: all interleavings of writes to storage, invalidations, acquisitions and releases
    ([reachable_world]).  No fassert fails and no deleted object is used, an object counts its
    references and is deleted with the last one, and a cached user is the stored one unless an
    invalidation for it is still to come. *)
From S2P Require Import Prelude ParseNumber AuthPrivilege BuiltinRoles RoleGraph AuthUser AuthCache.
From Stdlib Require Import String.
Open Scope string_scope.
Open Scope list_scope.
Open Scope Z_scope.
Import Cache.
Implicit Types (m : Manager) (p : nat) (u : User) (n : UserName).

(** ** The world *)
(** What is stored about a user, with what its roles give it. *)
Record UserData := mkData { d_privileges : gmap ResourcePattern Privilege; d_roles : list RoleName; d_indirect : list RoleName }.
Implicit Types d : UserData.
Definition build n d : User := mkUser n (d_privileges d) (d_roles d) (d_indirect d) 0 true.
Definition data_of u : UserData := mkData (_privileges u) (_roles u) (_indirectRoles u).
(** A thread in fetch phase: the name, its guard, the version it started with, and what it has fetched. *)
Record Fetching := mkFetching { f_name : UserName; f_guard : CacheGuard; f_version : Z; f_result : option (StatusWith (Z * User)) }.
Definition f_start (f : Fetching) : nat := _startGeneration (f_guard f).
(** [w_fetch]: the thread that fetches a user, [w_version]: the guard of the one that fetches the
    version; [w_waiting]: how many threads wait to fetch the version. *)
Record World := mkWorld {
  w_mgr : Manager; w_store : gmap UserName UserData; w_dirty : gset UserName; w_fetch : option Fetching; w_version : option CacheGuard; w_refs : list nat; w_waiting : nat }.
#[export] Instance World_eta : Eta World := λ w, mkWorld (w_mgr w) (w_store w) (w_dirty w) (w_fetch w) (w_version w) (w_refs w) (w_waiting w).
Implicit Types w : World.
Definition new_world : World := mkWorld new_manager ∅ ∅ None None [] 0.
Fixpoint drop_ref p (l : list nat) : list nat :=
  match l with [] => [] | q :: l => if Nat.eqb p q then l else q :: drop_ref p l end.
Definition count p (l : list nat) : nat := List.count_occ Nat.eq_dec l p.

Inductive step : World → World → Prop :=
(** A user is stored or removed; the invalidation comes later. *)
| step_write w n (d : option UserData) :
    step w (w <| w_store := partial_alter (λ _, d) n (w_store w) |> <| w_dirty := {[n]} ∪ w_dirty w |>)
| step_invalidate w n m' : invalidateUserByName n (w_mgr w) = Ret (tt, m') →
    step w (w <| w_mgr := m' |> <| w_dirty := w_dirty w ∖ {[n]} |>)
| step_invalidate_db w dbname m' : invalidateUsersFromDB dbname (w_mgr w) = Ret (tt, m') →
    step w (w <| w_mgr := m' |> <| w_dirty := filter (λ n, getUserDB n ≠ dbname) (w_dirty w) |>)
| step_invalidate_all w m' : invalidateUserCache (w_mgr w) = Ret (tt, m') → step w (w <| w_mgr := m' |> <| w_dirty := ∅ |>)
(** A thread acquires a user that is cached, or waits, or begins to fetch; the counter has room. *)
| step_hit w n p m' : acquire_lookup n (w_mgr w) = Ret (Hit p, m') → Z.of_nat (List.length (w_refs w)) + 1 < 2 ^ 32 →
    step w (w <| w_mgr := m' |> <| w_refs := if Nat.eqb p 0 then w_refs w else p :: w_refs w |>)
| step_wait w n m' : acquire_lookup n (w_mgr w) = Ret (Wait, m') → step w (w <| w_mgr := m' |>)
| step_fetch w n guard version m' : acquire_lookup n (w_mgr w) = Ret (Fetch guard version, m') →
    step w (w <| w_mgr := m' |> <| w_fetch := Some (mkFetching n guard version None) |>)
(** It reads storage: versions and errors as they come, a user as it is stored at that time. *)
| step_read w f versions fetchUser : w_fetch w = Some f → f_result f = None →
    (∀ i u, fetchUser i = OK u → ∃ d, w_store w !! f_name f = Some d ∧ u = build (f_name f) d) →
    step w (w <| w_fetch := Some (mkFetching (f_name f) (f_guard f) (f_version f)
                                  (Some (fetch_loop versions fetchUser maxAcquireRetries 0 (f_version f)))) |>)
| step_finish w f fetched result m' : w_fetch w = Some f → f_result f = Some fetched →
    acquire_finish (f_name f) (f_guard f) fetched (w_mgr w) = Ret (result, m') →
    Z.of_nat (List.length (w_refs w)) + 1 < 2 ^ 32 →
    step w (w <| w_mgr := m' |> <| w_fetch := None |>
              <| w_refs := match result with OK p => p :: w_refs w | Err _ => w_refs w end |>)
(** A thread asks for the version only: it is known, or another thread is fetching, or it fetches. *)
| step_version w v m' : version_lookup (w_mgr w) = Ret (Known v, m') → step w (w <| w_mgr := m' |>)
| step_version_wait w m' : version_lookup (w_mgr w) = Ret (VersionWait, m') →
    step w (w <| w_mgr := m' |> <| w_waiting := S (w_waiting w) |>)
| step_version_fetch w guard m' : version_lookup (w_mgr w) = Ret (VersionFetch guard, m') →
    step w (w <| w_mgr := m' |> <| w_version := Some guard |>)
(** One that has waited is woken up, and waits again or fetches. *)
| step_version_woken w k m' : w_waiting w = S k → version_begin (w_mgr w) = Ret (VersionWait, m') → step w (w <| w_mgr := m' |>)
| step_version_begin w k guard m' : w_waiting w = S k → version_begin (w_mgr w) = Ret (VersionFetch guard, m') →
    step w (w <| w_mgr := m' |> <| w_version := Some guard |> <| w_waiting := k |>)
| step_version_finish w guard stored result m' : w_version w = Some guard → version_finish guard stored (w_mgr w) = Ret (result, m') →
    step w (w <| w_mgr := m' |> <| w_version := None |>)
| step_release w p m' : p ∈ w_refs w → releaseUser p (w_mgr w) = Ret (tt, m') →
    step w (w <| w_mgr := m' |> <| w_refs := drop_ref p (w_refs w) |>).
Inductive reachable_world : World → Prop :=
| reach_new_world : reachable_world new_world
| reach_step w w' : reachable_world w → step w w' → reachable_world w'.

(** ** The invariant *)
Definition current w n u : Prop := n ∈ w_dirty w ∨ w_store w !! n = Some (data_of u).
(** The guards of threads that fetch are in fetch phase. *)
Definition guards_ok w : Prop :=
  (∀ f, w_fetch w = Some f → _isThisGuardInFetchPhase (f_guard f) = true) ∧ ∀ g, w_version w = Some g → _isThisGuardInFetchPhase g = true.
Record WInv w : Prop := mkWInv {
  wi_internal : _heap (w_mgr w) !! 0%nat = Some Usr.internal_user ∧ _userCache (w_mgr w) !! internal_name = None;
  wi_next : ∀ p, is_Some (_heap (w_mgr w) !! p) → (p < _next (w_mgr w))%nat;
  wi_cached : ∀ n p, _userCache (w_mgr w) !! n = Some p →
    p ≠ 0%nat ∧ ∃ u, _heap (w_mgr w) !! p = Some u ∧ _name u = n ∧ _isValid u = true ∧ current w n u;
  wi_counted : ∀ p u, _heap (w_mgr w) !! p = Some u → p ≠ 0%nat →
    _refCount u = Z.of_nat (count p (w_refs w)) ∧ (0 < count p (w_refs w))%nat ∧
    (_isValid u = true → _userCache (w_mgr w) !! _name u = Some p);
  wi_refs : ∀ p, p ∈ w_refs w → p ≠ 0%nat ∧ is_Some (_heap (w_mgr w) !! p);
  wi_room : Z.of_nat (List.length (w_refs w)) < 2 ^ 32;
  wi_busy : _isFetchPhaseBusy (w_mgr w) = bool_decide (is_Some (w_fetch w)) || bool_decide (is_Some (w_version w));
  wi_one : is_Some (w_fetch w) → w_version w = None;
  wi_guards : guards_ok w;
  wi_fetch : ∀ f, w_fetch w = Some f →
    f_name f ≠ internal_name ∧ _userCache (w_mgr w) !! f_name f = None ∧ (f_start f ≤ _cacheGeneration (w_mgr w))%nat ∧
    ∀ v u, f_result f = Some (OK (v, u)) → _name u = f_name f ∧ _refCount u = 0 ∧ _isValid u = true ∧
      (f_start f = _cacheGeneration (w_mgr w) → current w (f_name f) u) }.
Lemma new_world_inv : WInv new_world.
Proof.
  split; simpl; try done.
  - intros p [u Hu]. apply lookup_singleton_Some in Hu as [<- _]. lia.
  - intros p u Hu Hp. apply lookup_singleton_Some in Hu as [<- _]. done.
  - intros p Hp. by apply not_elem_of_nil in Hp.
Qed.

(** ** Counting references *)
Lemma count_le p l : (count p l ≤ List.length l)%nat.
Proof. unfold count. induction l as [|q l IH]; simpl; [done|]. destruct (Nat.eq_dec q p); lia. Qed.
Lemma count_cons p q l : count p (q :: l) = if decide (p = q) then S (count p l) else count p l.
Proof. unfold count. simpl. destruct (Nat.eq_dec q p), (decide (p = q)); congruence. Qed.
Lemma count_pos p l : p ∈ l ↔ (0 < count p l)%nat.
Proof. unfold count. rewrite list_elem_of_In. rewrite (count_occ_In Nat.eq_dec). lia. Qed.
Lemma count_drop p q l : p ∈ l → count q (drop_ref p l) = if decide (q = p) then (count q l - 1)%nat else count q l.
Proof.
  induction l as [|x l IH]; intros Hin; [by apply not_elem_of_nil in Hin|]. cbn [drop_ref]. rewrite count_cons.
  destruct (Nat.eqb_spec p x) as [->|Hne]; [repeat case_decide; lia|]. apply elem_of_cons in Hin as [|Hin]; [done|].
  rewrite count_cons, IH by done. repeat case_decide; subst; try congruence; lia.
Qed.
Lemma drop_sub p q l : q ∈ drop_ref p l → q ∈ l.
Proof.
  induction l as [|x l IH]; simpl; [done|]. destruct (Nat.eqb p x); rewrite ?elem_of_cons; naive_solver.
Qed.
Lemma drop_length p l : (List.length (drop_ref p l) ≤ List.length l)%nat.
Proof. induction l as [|x l IH]; simpl; [done|]. destruct (Nat.eqb p x); simpl; lia. Qed.
#[local] Arguments count : simpl never.
Lemma w32_small (z : Z) : 0 ≤ z < 2 ^ 32 → Usr.w32 z = z.
Proof. apply Z.mod_small. Qed.

(** ** Acquiring what is cached *)
Abbreviation upd_heap p u m := (m <| _heap := <[p := u]> (_heap m) |>).
Lemma lookup_upd (h : gmap nat User) p u q v : <[p := u]> h !! q = Some v ↔ q = p ∧ v = u ∨ q ≠ p ∧ h !! q = Some v.
Proof. rewrite lookup_insert_Some. naive_solver. Qed.
Section hit.
Context w n p u (HI : WInv w) (Hc : _userCache (w_mgr w) !! n = Some p) (Hu : _heap (w_mgr w) !! p = Some u).
Context (Hroom : Z.of_nat (List.length (w_refs w)) + 1 < 2 ^ 32).
Lemma hit_inv : WInv (w <| w_mgr := upd_heap p (Usr.incrementRefCount u) (w_mgr w) |> <| w_refs := p :: w_refs w |>).
Proof.
  destruct (wi_cached w HI n p Hc) as (Hp & u' & Hu' & _). rewrite Hu in Hu'. injection Hu' as <-.
  destruct (wi_counted w HI p u Hu Hp) as (Hrc & Hpos & Hval). pose proof (count_le p (w_refs w)) as Hle.
  split; simpl.
  - rewrite lookup_insert_ne by done. apply HI.
  - intros q [v [[-> _]|[_ Hv]]%lookup_upd]; apply HI; eauto.
  - intros n' q Hq. destruct (wi_cached w HI n' q Hq) as (Hq0 & v & Hv & Hn & Hvv & Hcur). split; [done|].
    destruct (decide (q = p)) as [->|Hne]; [|exists v; rewrite lookup_insert_ne by done; done].
    exists (Usr.incrementRefCount u). rewrite lookup_insert_eq. by simplify_eq.
  - intros q v [[-> ->]|[Hne Hv]]%lookup_upd Hq0.
    + simpl. rewrite count_cons, decide_True, Hrc, w32_small by (done || lia). split_and!; [lia|lia|done].
    + rewrite count_cons, decide_False by done. by apply (wi_counted w HI).
  - intros q [->|Hq]%elem_of_cons; [by rewrite lookup_insert_eq|]. destruct (wi_refs w HI q Hq) as [? ?]. split; [done|].
    destruct (decide (q = p)) as [->|]; [by rewrite lookup_insert_eq|by rewrite lookup_insert_ne].
  - lia.
  - apply HI.
  - apply HI.
  - apply HI.
  - intros f Hf. apply (wi_fetch w HI f Hf).
Qed.
End hit.
Definition looked_up n w (o : Lookup) m' : Prop :=
  match o with
  | Hit p => (n = internal_name ∧ p = 0%nat ∧ m' = w_mgr w) ∨
      n ≠ internal_name ∧ p ≠ 0%nat ∧ _userCache m' !! n = Some p ∧
      (∃ u, _heap m' !! p = Some u ∧ _name u = n ∧ _isValid u = true ∧ current w n u) ∧
      (Z.of_nat (List.length (w_refs w)) + 1 < 2 ^ 32 → WInv (w <| w_mgr := m' |> <| w_refs := p :: w_refs w |>))
  | Wait => m' = w_mgr w
  | Fetch start version => WInv (w <| w_mgr := m' |> <| w_fetch := Some (mkFetching n start version None) |>)
  end.
Lemma wp_deref p u m (Q : User → Manager → Prop) : _heap m !! p = Some u → Q u m → wp (deref p) Q m.
Proof. unfold wp, deref. by intros -> HQ. Qed.
Lemma wp_acquire_lookup w n : WInv w → wp (acquire_lookup n) (looked_up n w) (w_mgr w).
Proof.
  intros HI. unfold acquire_lookup, wait. case_bool_decide as Hn; [wp_simpl; by left|]. wp_simpl.
  destruct (_userCache (w_mgr w) !! n) as [p|] eqn:Hc.
  - destruct (wi_cached w HI n p Hc) as (Hp & u & Hu & Hname & Hval & Hcur). destruct (wi_counted w HI p u Hu Hp) as (Hrc & Hpos & _).
    wp_simpl. apply (wp_deref p u); [done|]. wp_simpl. split; [done|]. wp_simpl. split; [apply Z.ltb_lt; lia|]. unfold assign. wp_simpl.
    right. split_and!; [done|done|done| |intros Hroom; by apply (hit_inv w n p u)].
    exists (Usr.incrementRefCount u). simpl. by rewrite lookup_insert_eq.
  - wp_simpl. destruct (_isFetchPhaseBusy (w_mgr w)) eqn:Hb; wp_simpl; [done|]. unfold beginFetchPhase. wp_simpl. rewrite Hb. split; [done|]. wp_simpl.
    pose proof (wi_busy w HI) as Hbb. rewrite Hb in Hbb. symmetry in Hbb. apply orb_false_iff in Hbb as [_ Hv%bool_decide_eq_false].
    split; simpl; try apply HI; [| | |].
    + done.
    + intros _. destruct (w_version w); [|done]. by destruct Hv.
    + split; [by intros f [= <-]|apply (wi_guards w HI)].
    + intros f [= <-]. simpl. split_and!; [done|done|done|]. intros v u [=].
Qed.

(** ** The end of a fetch *)
Section finishing.
Context w f (HI : WInv w) (Hf : w_fetch w = Some f) (Hroom : Z.of_nat (List.length (w_refs w)) + 1 < 2 ^ 32).
Abbreviation m := (w_mgr w).
Abbreviation p := (_next (w_mgr w)).
Lemma next_free : _heap m !! p = None.
Proof. destruct (_heap m !! p) eqn:E; [|done]. pose proof (wi_next w HI p ltac:(by eexists)). lia. Qed.
Lemma next_unheld : p ∉ w_refs w.
Proof. intros Hin. destruct (wi_refs w HI p Hin) as [_ [u Hu]]. by rewrite next_free in Hu. Qed.
Lemma next_nonzero : p ≠ 0%nat.
Proof. pose proof (wi_next w HI 0%nat ltac:(by eexists; apply HI)). lia. Qed.
(** The new object, cached ([Some]) or not. *)
Definition allocated u (cached : bool) version : Manager :=
  mkManager (if cached then <[f_name f := p]> (_userCache m) else _userCache m)
    (<[p := if cached then Usr.incrementRefCount u else Usr.invalidate (Usr.incrementRefCount u)]> (_heap m)) (S p)
    (_cacheGeneration m) false version.
Lemma allocated_inv u cached version :
  _name u = f_name f → _refCount u = 0 → _isValid u = true → (cached = true → current w (f_name f) u) →
  WInv (w <| w_mgr := allocated u cached version |> <| w_fetch := None |> <| w_refs := p :: w_refs w |>).
Proof.
  intros Hname Hrc Hval Hcur. destruct (wi_fetch w HI f Hf) as (Hni & Hnc & _ & _). pose proof next_free as Hfree. pose proof next_unheld as Hun.
  pose proof next_nonzero as Hnz. assert (∀ n q, _userCache m !! n = Some q → q ≠ p ∧ n ≠ f_name f) as Hold.
  { intros n q Hq. split; [|congruence]. intros ->. destruct (wi_cached w HI n p Hq) as (_ & v & Hv & _). congruence. }
  assert (∀ n q, _userCache (allocated u cached version) !! n = Some q ↔ (cached = true ∧ n = f_name f ∧ q = p) ∨ _userCache m !! n = Some q) as Hcache.
  { intros n q. simpl. destruct cached; [|naive_solver]. rewrite lookup_insert_Some. split; [naive_solver|]. intros [(_ & -> & ->)|Hq]; [by left|right].
    destruct (Hold n q Hq) as [_ ?]. done. }
  split.
  - simpl. rewrite lookup_insert_ne by done. destruct (wi_internal w HI) as [? ?]. split; [done|]. destruct cached; [|done]. by rewrite lookup_insert_ne.
  - intros q [v Hv]. simpl in *. apply lookup_upd in Hv as [[-> _]|[_ Hv]]; [lia|]. pose proof (wi_next w HI q ltac:(by eexists)). lia.
  - intros n q Hq. apply Hcache in Hq as [(-> & -> & ->)|Hq]; simpl.
    + split; [done|]. eexists. rewrite lookup_insert_eq. split_and!; [done|done|done|by apply Hcur].
    + destruct (Hold n q Hq) as [Hne _]. rewrite lookup_insert_ne by done. by apply (wi_cached w HI).
  - intros q v Hv Hq0. cbn [w_refs w_mgr]. apply lookup_upd in Hv as [[-> ->]|[Hne Hv]].
    + pose proof (proj1 (Nat.le_0_r _) (proj1 (Nat.nlt_ge _ _) (λ H, Hun (proj2 (count_pos p (w_refs w)) H)))) as Hz.
      simpl. rewrite count_cons, decide_True, Hz by done. destruct cached; simpl; rewrite Hrc, Hname; (split_and!; [done|lia|]); [|done].
      intros _. by rewrite lookup_insert_eq.
    + simpl. rewrite count_cons, decide_False by done. destruct (wi_counted w HI q v Hv Hq0) as (H1 & H2 & H3). split_and!; [done|done|].
      intros Hvv. apply Hcache. right. by apply H3.
  - intros q Hq. simpl in *. apply elem_of_cons in Hq as [->|Hq]; [by rewrite lookup_insert_eq|]. destruct (wi_refs w HI q Hq) as [? ?]. split; [done|].
    destruct (decide (q = p)) as [->|]; [by rewrite lookup_insert_eq|by rewrite lookup_insert_ne].
  - simpl. lia.
  - simpl. by rewrite (wi_one w HI) by (by rewrite Hf).
  - simpl. intros [? [=]].
  - split; [done|apply (wi_guards w HI)].
  - intros f' Hf'. discriminate Hf'.
Qed.
Definition finished_fetch (o : StatusWith nat) m' : Prop :=
  WInv (w <| w_mgr := m' |> <| w_fetch := None |> <| w_refs := match o with OK p => p :: w_refs w | Err _ => w_refs w end |>) ∧
  match o with
  | OK q => ∃ u, _heap m' !! q = Some u ∧ _name u = f_name f ∧
      (if _isValid u then _userCache m' !! f_name f = Some q ∧ current w (f_name f) u else f_start f ≠ _cacheGeneration m')
  | Err _ => True
  end.
Lemma wp_acquire_finish fetched : f_result f = Some fetched → wp (acquire_finish (f_name f) (f_guard f) fetched) finished_fetch m.
Proof.
  intros Hr. destruct (wi_fetch w HI f Hf) as (Hni & Hnc & Hgen & Hres).
  assert (_isFetchPhaseBusy m = true) as Hbusy by (rewrite (wi_busy w HI), Hf; by rewrite bool_decide_true by eauto).
  pose proof (proj1 (wi_guards w HI) f Hf) as Hg.
  unfold acquire_finish, leave, endFetchPhase. cbv zeta. cbn [_isThisGuardInFetchPhase]. rewrite Hg. destruct fetched as [[v u]|e].
  - destruct (Hres v u Hr) as (Hname & Hrc & Hval & Hcur). unfold new_object, isSameCacheGeneration. wp_simpl. cbn [_isThisGuardInFetchPhase owns_lock].
    split; [done|]. wp_simpl. split; [done|]. wp_simpl. simpl.
    destruct (Nat.eqb_spec (_startGeneration (f_guard f)) (_cacheGeneration m)) as [Hs|Hs]; wp_simpl; simpl; rewrite ?Hg; wp_simpl; simpl.
    + rewrite Hnc, Hbusy. split; [done|]. split.
      * apply (allocated_inv u true); [done..|]. intros _. by apply Hcur.
      * exists (Usr.incrementRefCount u). simpl. rewrite !lookup_insert_eq, Hval. split_and!; [done|done|done|by apply Hcur].
    + apply (wp_deref p (Usr.incrementRefCount u)); [simpl; by rewrite lookup_insert_eq|]. unfold assign. wp_simpl. simpl. rewrite ?Hg. wp_simpl. split; [done|]. split.
      * rewrite insert_insert_eq. by apply (allocated_inv u false).
      * exists (Usr.invalidate (Usr.incrementRefCount u)). simpl. by rewrite lookup_insert_eq.
  - wp_simpl. split; [done|]. split; [|done]. pose proof (wi_one w HI) as H1. rewrite Hf in H1. pose proof (proj2 (wi_guards w HI)) as Hg2. destruct HI. split; simpl; try done. by rewrite H1.
Qed.
End finishing.

(** ** Releasing *)
Section releasing.
Context w p u (HI : WInv w) (Hin : p ∈ w_refs w) (Hu : _heap (w_mgr w) !! p = Some u).
Abbreviation u' := (Usr.decrementRefCount u).
Lemma release_count : p ≠ 0%nat ∧ _refCount u' = Z.of_nat (count p (drop_ref p (w_refs w))).
Proof.
  destruct (wi_refs w HI p Hin) as [Hp _]. split; [done|]. destruct (wi_counted w HI p u Hu Hp) as (Hrc & Hpos & _). simpl.
  pose proof (count_le p (w_refs w)). pose proof (wi_room w HI). rewrite Hrc, count_drop, decide_True, w32_small by (done || lia). lia.
Qed.
Lemma release_refs q : q ∈ drop_ref p (w_refs w) → q ≠ 0%nat ∧ is_Some (_heap (w_mgr w) !! q).
Proof. intros Hq. apply (wi_refs w HI). by eapply drop_sub. Qed.
Lemma release_some_inv : (0 < count p (drop_ref p (w_refs w)))%nat →
  WInv (w <| w_mgr := upd_heap p u' (w_mgr w) |> <| w_refs := drop_ref p (w_refs w) |>).
Proof.
  intros Hpos'. destruct release_count as [Hp Hrc]. split; simpl.
  - rewrite lookup_insert_ne by done. apply HI.
  - intros q [v [[-> _]|[_ Hv]]%lookup_upd]; apply HI; eauto.
  - intros n q Hq. destruct (wi_cached w HI n q Hq) as (Hq0 & v & Hv & Hn & Hvv & Hcur). split; [done|].
    destruct (decide (q = p)) as [->|Hne]; [|exists v; rewrite lookup_insert_ne by done; done].
    exists u'. rewrite lookup_insert_eq. by simplify_eq.
  - intros q v [[-> ->]|[Hne Hv]]%lookup_upd Hq0.
    + split_and!; [done|done|]. apply (wi_counted w HI p u Hu Hp).
    + rewrite count_drop, decide_False by done. by apply (wi_counted w HI).
  - intros q Hq. destruct (release_refs q Hq) as [? ?]. split; [done|].
    destruct (decide (q = p)) as [->|]; [by rewrite lookup_insert_eq|by rewrite lookup_insert_ne].
  - pose proof (drop_length p (w_refs w)). pose proof (wi_room w HI). lia.
  - apply HI.
  - apply HI.
  - apply HI.
  - intros f Hf. apply (wi_fetch w HI f Hf).
Qed.
Definition freed : Manager :=
  let m := w_mgr w in
  m <| _userCache := if _isValid u then delete (_name u) (_userCache m) else _userCache m |> <| _heap := delete p (_heap m) |>.
Lemma release_last_inv : count p (drop_ref p (w_refs w)) = 0%nat → WInv (w <| w_mgr := freed |> <| w_refs := drop_ref p (w_refs w) |>).
Proof.
  intros Hzero. destruct release_count as [Hp Hrc]. destruct (wi_counted w HI p u Hu Hp) as (_ & _ & Hval).
  assert (∀ n q, _userCache freed !! n = Some q → _userCache (w_mgr w) !! n = Some q ∧ q ≠ p) as Hcache.
  { intros n q Hq. simpl in Hq. assert (_userCache (w_mgr w) !! n = Some q) as Hq'.
    { destruct (_isValid u); [|done]. by apply lookup_delete_Some in Hq as [_ ?]. }
    split; [done|]. intros ->. destruct (wi_cached w HI n p Hq') as (_ & v & Hv & Hn & Hvv & _). simplify_eq.
    rewrite Hvv in Hq. by rewrite lookup_delete_eq in Hq. }
  assert (∀ n q, _userCache (w_mgr w) !! n = Some q → q ≠ p → _userCache freed !! n = Some q) as Hkeep.
  { intros n q Hq Hne. simpl. destruct (_isValid u); [|done]. rewrite lookup_delete_ne; [done|]. intros <-. rewrite Hval in Hq by done. congruence. }
  split.
  - destruct (wi_internal w HI) as [H1 H2]. split; [simpl; by rewrite lookup_delete_ne|]. destruct (_userCache freed !! internal_name) eqn:E; [|done].
    apply Hcache in E as [E _]. congruence.
  - intros q [v Hv]. simpl in *. apply lookup_delete_Some in Hv as [_ Hv]. apply HI. eauto.
  - intros n q Hq. apply Hcache in Hq as [Hq Hne]. destruct (wi_cached w HI n q Hq) as (Hq0 & v & Hv & ?). split; [done|]. exists v. simpl.
    by rewrite lookup_delete_ne.
  - intros q v Hv Hq0. simpl in Hv |- *. apply lookup_delete_Some in Hv as [Hne Hv]. rewrite count_drop, decide_False by done.
    destruct (wi_counted w HI q v Hv Hq0) as (? & ? & H3). split_and!; [done|done|]. intros Hvv. by apply Hkeep; [apply H3|].
  - intros q Hq. destruct (release_refs q Hq) as [? ?]. split; [done|]. simpl. rewrite lookup_delete_ne; [done|]. intros <-.
    simpl in Hq. apply count_pos in Hq. lia.
  - simpl. pose proof (drop_length p (w_refs w)). pose proof (wi_room w HI). lia.
  - apply HI.
  - apply HI.
  - apply HI.
  - intros f Hf. destruct (wi_fetch w HI f Hf) as (? & Hn & ? & ?). split_and!; [done| |done|done].
    destruct (_userCache freed !! f_name f) eqn:E; [|done]. apply Hcache in E as [E _]. congruence.
Qed.
End releasing.
Lemma wp_releaseUser w p : WInv w → p ∈ w_refs w →
  wp (releaseUser p) (λ _ m', WInv (w <| w_mgr := m' |> <| w_refs := drop_ref p (w_refs w) |>)) (w_mgr w).
Proof.
  intros HI Hin. destruct (wi_refs w HI p Hin) as [Hp [u Hu]]. unfold releaseUser. rewrite (proj2 (Nat.eqb_neq p 0)) by done. wp_simpl.
  apply (wp_deref p u); [done|]. unfold assign, delete_object. wp_simpl. destruct (release_count w p u HI Hin Hu) as [_ Hrc]. rewrite Hrc.
  destruct (Z.eqb_spec (Z.of_nat (count p (drop_ref p (w_refs w)))) 0) as [Hz|Hz].
  - wp_simpl. pose proof (release_last_inv w p u HI Hin Hu ltac:(lia)) as H. unfold freed in H. cbn [_isValid _name Usr.decrementRefCount].
    pose proof (proj2 (proj2 (wi_counted w HI p u Hu Hp))) as Hcached.
    destruct (_isValid u) eqn:Hv; simpl; rewrite Hv; wp_simpl; simpl; rewrite ?delete_insert_eq; [|exact H].
    split; [by rewrite Hcached, bool_decide_true by eauto|exact H].
  - wp_simpl. apply release_some_inv; [done|done|done|lia].
Qed.

(** ** Invalidating *)
(** The users [P] says are out of the cache and invalid, and there is a new generation. *)
Definition struck (P : UserName → bool) (cache : gmap UserName nat) p u : User :=
  if bool_decide (cache !! _name u = Some p) && P (_name u) then Usr.invalidate u else u.
Record invalidated (P : UserName → bool) m m' : Prop := mkInvalidated {
  iv_cache : ∀ n, _userCache m' !! n = if P n then None else _userCache m !! n;
  iv_heap : ∀ p, _heap m' !! p = struck P (_userCache m) p <$> _heap m !! p;
  iv_next : _next m' = _next m;
  iv_generation : _cacheGeneration m' = S (_cacheGeneration m);
  iv_busy : _isFetchPhaseBusy m' = _isFetchPhaseBusy m }.
Lemma struck_fields P cache p u : _name (struck P cache p u) = _name u ∧ _refCount (struck P cache p u) = _refCount u ∧
  data_of (struck P cache p u) = data_of u.
Proof. unfold struck. by destruct (_ && _). Qed.
Lemma invalidated_inv w P m' dirty' : WInv w → invalidated P (w_mgr w) m' → (∀ n, n ∈ dirty' ↔ n ∈ w_dirty w ∧ P n = false) →
  WInv (w <| w_mgr := m' |> <| w_dirty := dirty' |>).
Proof.
  intros HI [Hc Hh Hn Hg Hb] Hd. assert (∀ p u', _heap m' !! p = Some u' → ∃ u, _heap (w_mgr w) !! p = Some u ∧ u' = struck P (_userCache (w_mgr w)) p u) as Hobj.
  { intros p u'. rewrite Hh. destruct (_heap (w_mgr w) !! p) as [u|]; [|done]. intros [= <-]. eauto. }
  assert (∀ p, is_Some (_heap (w_mgr w) !! p) → is_Some (_heap m' !! p)) as Hsome by (intros p Hp; rewrite Hh; by apply fmap_is_Some).
  split; simpl.
  - destruct (wi_internal w HI) as [H1 H2]. rewrite Hh, H1, Hc, H2. simpl. unfold struck. fold internal_name. rewrite H2. simpl. by destruct (P internal_name).
  - intros p [u' (u & Hu & _)%Hobj]. rewrite Hn. apply HI. eauto.
  - intros n p. rewrite Hc. destruct (P n) eqn:HP; [done|]. intros Hp. destruct (wi_cached w HI n p Hp) as (Hp0 & u & Hu & Hname & Hv & Hcur). split; [done|].
    exists u. rewrite Hh, Hu. simpl. unfold struck. rewrite Hname, HP, andb_false_r. split_and!; [done|done|done|].
    destruct Hcur as [Hcur|Hcur]; [left; by apply Hd|by right].
  - intros p u' (u & Hu & ->)%Hobj Hp0. destruct (struck_fields P (_userCache (w_mgr w)) p u) as (-> & -> & _).
    destruct (wi_counted w HI p u Hu Hp0) as (H1 & H2 & H3). split_and!; [done|done|]. unfold struck. rewrite Hc. intros Hv.
    destruct (_isValid u) eqn:Hvu; [|by destruct (_ && _); simpl in Hv; congruence]. rewrite (H3 eq_refl) in Hv |- *. rewrite bool_decide_true in Hv by done. simpl in Hv.
    by destruct (P (_name u)).
  - intros p Hp. destruct (wi_refs w HI p Hp). auto.
  - apply HI.
  - rewrite Hb. apply HI.
  - apply HI.
  - apply (wi_guards w HI).
  - intros f Hf. destruct (wi_fetch w HI f Hf) as (? & Hnone & Hle & Hres). split_and!; [done|rewrite Hc, Hnone; by destruct (P _)|lia|].
    intros v u Hr. destruct (Hres v u Hr) as (? & ? & ? & _). split_and!; [done|done|done|]. lia.
Qed.
(** The loop over the cache: [l] is still to come, [h] is the heap so far. *)
Definition strike (P : UserName → bool) (l : list (UserName * nat)) (h : gmap nat User) : gmap nat User :=
  foldl (λ h e, if P e.1 then alter Usr.invalidate e.2 h else h) h l.
Lemma strike_lookup P l h p : strike P l h !! p =
  (λ u, if bool_decide (Exists (λ e : UserName * nat, e.2 = p ∧ P e.1 = true) l) then Usr.invalidate u else u) <$> h !! p.
Proof.
  revert h. induction l as [|e l IH]; intros h; simpl; [by destruct (h !! p)|]. unfold strike in *. simpl. rewrite IH. destruct (P e.1) eqn:HP.
  - destruct (decide (p = e.2)) as [->|Hne].
    + rewrite lookup_alter_eq, (bool_decide_true (Exists _ (e :: l))) by (by left). destruct (h !! e.2); [|done]. simpl. by case_bool_decide.
    + rewrite lookup_alter_ne by done. destruct (h !! p); [|done]. simpl. erewrite bool_decide_ext; [done|]. rewrite Exists_cons. naive_solver.
  - destruct (h !! p); [|done]. simpl. erewrite bool_decide_ext; [done|]. rewrite Exists_cons. naive_solver congruence.
Qed.
Lemma strike_invalidated (P : UserName → bool) m m' : (∀ n p, _userCache m !! n = Some p → ∃ u, _heap m !! p = Some u ∧ _name u = n) →
  (∀ n, _userCache m' !! n = if P n then None else _userCache m !! n) → _heap m' = strike P (map_to_list (_userCache m)) (_heap m) →
  _next m' = _next m → _cacheGeneration m' = S (_cacheGeneration m) → _isFetchPhaseBusy m' = _isFetchPhaseBusy m → invalidated P m m'.
Proof.
  intros Hn Hc Hh H1 H2 H3. split; try done. intros p. rewrite Hh, strike_lookup. destruct (_heap m !! p) as [u|] eqn:Hu; [|done]. simpl. unfold struck. f_equal.
  assert (bool_decide (Exists (λ e : UserName * nat, e.2 = p ∧ P e.1 = true) (map_to_list (_userCache m))) = bool_decide (_userCache m !! _name u = Some p) && P (_name u)) as ->; [|done].
  apply eq_true_iff_eq. rewrite andb_true_iff, !bool_decide_eq_true, Exists_exists. split.
  - intros ([n q] & Hin%elem_of_map_to_list & <- & HP). simpl in *. destruct (Hn n q Hin) as (v & Hv & <-). by simplify_eq.
  - intros [Hp HP]. exists (_name u, p). split_and!; [by apply elem_of_map_to_list|done|done].
Qed.
Section invalidations.
Context w (HI : WInv w).
Abbreviation m := (w_mgr w).
Lemma cached_object n p : _userCache m !! n = Some p → ∃ u, _heap m !! p = Some u ∧ _name u = n.
Proof. intros Hp. destruct (wi_cached w HI n p Hp) as (_ & u & ? & ? & _). eauto. Qed.
Lemma wp_invalidate_object p u m1 (Q : () → Manager → Prop) : _heap m1 !! p = Some u →
  Q tt (m1 <| _heap := alter Usr.invalidate p (_heap m1) |>) → wp (invalidate_object p) Q m1.
Proof.
  intros Hu HQ. unfold invalidate_object, assign. wp_simpl. apply (wp_deref p u); [done|]. wp_simpl.
  replace (<[p := Usr.invalidate u]> (_heap m1)) with (alter Usr.invalidate p (_heap m1)); [done|]. apply map_eq. intros q.
  destruct (decide (q = p)) as [->|]; [by rewrite lookup_alter_eq, Hu, lookup_insert_eq|by rewrite lookup_alter_ne, lookup_insert_ne].
Qed.
Lemma wp_invalidateUserByName n : wp (invalidateUserByName n) (λ _ m', invalidated (λ n', bool_decide (n' = n)) m m') m.
Proof.
  unfold invalidateUserByName, _updateCacheGeneration_inlock. wp_simpl. simpl. destruct (_userCache m !! n) as [p|] eqn:Hc.
  - destruct (cached_object n p Hc) as (u & Hu & Hname). wp_simpl. apply (wp_invalidate_object p u); [done|]. simpl. split; simpl; try done.
    + intros n'. case_bool_decide; [subst; by rewrite lookup_delete_eq|by rewrite lookup_delete_ne].
    + intros q. unfold struck. destruct (decide (q = p)) as [->|Hne].
      * rewrite lookup_alter_eq, Hu. simpl. by rewrite Hname, !bool_decide_true.
      * rewrite lookup_alter_ne by done. destruct (_heap m !! q) as [v|]; [|done]. simpl. destruct (decide (_name v = n)) as [->|]; [|by rewrite (bool_decide_false (_ = n)), andb_false_r].
        rewrite Hc. by rewrite bool_decide_false by congruence.
  - wp_simpl. split; simpl; try done.
    + intros n'. by case_bool_decide; [subst|].
    + intros q. unfold struck. destruct (_heap m !! q) as [v|]; [|done]. simpl. destruct (decide (_name v = n)) as [->|]; [|by rewrite (bool_decide_false (_ = n)), andb_false_r].
      by rewrite Hc.
Qed.
Definition strike_cache (P : UserName → bool) (l : list (UserName * nat)) (c : gmap UserName nat) : gmap UserName nat :=
  foldl (λ c e, if P e.1 then delete e.1 c else c) c l.
Lemma strike_cache_lookup P l n : ∀ c, strike_cache P l c !! n = if P n && bool_decide (n ∈ l.*1) then None else c !! n.
Proof.
  unfold strike_cache. induction l as [|e l IH]; intros c; simpl; [by rewrite andb_false_r|]. rewrite IH. destruct (decide (n = e.1)) as [->|Hne].
  - rewrite (bool_decide_true (e.1 ∈ e.1 :: _)) by (by left). destruct (P e.1); [|done]. simpl. case_bool_decide; [done|]. by rewrite lookup_delete_eq.
  - rewrite (bool_decide_ext (n ∈ e.1 :: _) (n ∈ l.*1)) by (rewrite elem_of_cons; naive_solver). case_match; [done|].
    destruct (P e.1); [|done]. by rewrite lookup_delete_ne.
Qed.
Lemma strike_cache_all P c n : strike_cache P (map_to_list c) c !! n = if P n then None else c !! n.
Proof.
  rewrite strike_cache_lookup. destruct (P n); [|done]. simpl. case_bool_decide as Hin; [done|]. destruct (c !! n) as [p|] eqn:E; [|done].
  exfalso. apply Hin. apply list_elem_of_fmap. exists (n, p). split; [done|by apply elem_of_map_to_list].
Qed.
(** Every entry of [l] is the object of its user. *)
Definition objects (l : list (UserName * nat)) (h : gmap nat User) : Prop := ∀ n p, (n, p) ∈ l → ∃ u, h !! p = Some u ∧ _name u = n.
Lemma objects_cached : objects (map_to_list (_userCache m)) (_heap m).
Proof. intros n p Hin. apply cached_object. by apply elem_of_map_to_list. Qed.
Lemma objects_next e l h b : objects (e :: l) h → objects l (if b : bool then alter Usr.invalidate e.2 h else h).
Proof.
  intros Ho n p Hin. destruct (Ho n p) as (u & Hu & Hn); [by right|]. destruct b; [|eauto]. destruct (decide (p = e.2)) as [->|].
  - rewrite lookup_alter_eq, Hu. simpl. eauto.
  - rewrite lookup_alter_ne by done. eauto.
Qed.
Lemma wp_db_loop dbname l : ∀ m1 (Q : () → Manager → Prop), objects l (_heap m1) →
  (let P := λ n, String.eqb (getUserDB n) dbname in
   Q tt (m1 <| _userCache := strike_cache P l (_userCache m1) |> <| _heap := strike P l (_heap m1) |>)) →
  wp (mfoldl (λ _ e,
    u ← deref e.2;
    if String.eqb (getUserDB (_name u)) dbname then
      _ ← modify (λ m, m <| _userCache := delete e.1 (_userCache m) |>); invalidate_object e.2
    else mret tt) tt l) Q m1.
Proof.
  induction l as [|[n p] l IH]; intros m1 Q Ho HQ; cbn [mfoldl]; [by destruct m1|]. destruct (Ho n p) as (u & Hu & Hn); [by left|]. wp_simpl.
  apply (wp_deref p u); [done|]. rewrite Hn. pose proof (objects_next (n, p) l (_heap m1) (String.eqb (getUserDB n) dbname) Ho) as Ho'.
  unfold strike_cache, strike in HQ. simpl in HQ, Ho'. destruct (String.eqb (getUserDB n) dbname); wp_simpl.
  - apply (wp_invalidate_object p u); [done|]. by apply IH.
  - by apply IH.
Qed.
Lemma wp_invalidateUsersFromDB dbname :
  wp (invalidateUsersFromDB dbname) (λ _ m', invalidated (λ n, String.eqb (getUserDB n) dbname) m m') m.
Proof.
  unfold invalidateUsersFromDB, _updateCacheGeneration_inlock. wp_simpl. simpl. apply wp_db_loop; [apply objects_cached|]. simpl.
  apply strike_invalidated; try done; [apply cached_object|]. intros n. apply strike_cache_all.
Qed.
Lemma wp_all_loop l : ∀ m1 (Q : () → Manager → Prop), objects l (_heap m1) → (∀ e, e ∈ l → e.2 ≠ 0%nat) →
  Q tt (m1 <| _heap := strike (λ _, true) l (_heap m1) |>) →
  wp (mfoldl (λ _ e, _ ← invariant 17266 (λ _, negb (Nat.eqb e.2 0)); invalidate_object e.2) tt l) Q m1.
Proof.
  induction l as [|[n p] l IH]; intros m1 Q Ho Hz HQ; cbn [mfoldl]; [by destruct m1|]. destruct (Ho n p) as (u & Hu & Hn); [by left|]. wp_simpl.
  split; [apply negb_true_iff, Nat.eqb_neq, (Hz (n, p)); by left|]. apply (wp_invalidate_object p u); [done|].
  apply IH; [apply (objects_next (n, p) l (_heap m1) true Ho)|intros e He; apply Hz; by right|exact HQ].
Qed.
Lemma wp_invalidateUserCache : wp invalidateUserCache (λ _ m', invalidated (λ _, true) m m') m.
Proof.
  unfold invalidateUserCache, _updateCacheGeneration_inlock. wp_simpl. simpl. apply wp_all_loop; [apply objects_cached| |].
  - intros [n p] Hin%elem_of_map_to_list. by apply (wi_cached w HI n p).
  - wp_simpl. apply strike_invalidated; try done. apply cached_object.
Qed.
End invalidations.

(** ** The version *)
Lemma version_inv w m' version : WInv w → (∀ s, w_version w = Some s → version = None → _isFetchPhaseBusy m' = false) →
  (w_version w = None → version = None → _isFetchPhaseBusy m' = _isFetchPhaseBusy (w_mgr w)) →
  (∀ g, version = Some g → w_fetch w = None ∧ _isFetchPhaseBusy m' = true ∧ _isThisGuardInFetchPhase g = true) →
  _userCache m' = _userCache (w_mgr w) → _heap m' = _heap (w_mgr w) → _next m' = _next (w_mgr w) →
  _cacheGeneration m' = _cacheGeneration (w_mgr w) → WInv (w <| w_mgr := m' |> <| w_version := version |>).
Proof.
  intros [H1 H2 H3 H4 H5 H6 H7 H7' [Hg1 Hg2] H8] Ha Hb Hs Ec Eh En Eg. split; simpl; rewrite ?Ec, ?Eh, ?En, ?Eg; try done.
  - destruct version as [s|].
    + destruct (Hs s eq_refl) as (_ & -> & _). by rewrite orb_true_r.
    + rewrite orb_false_r. destruct (w_version w) as [s|] eqn:E; [|rewrite Hb, H7 by done; by rewrite orb_false_r].
      rewrite (Ha s) by done. symmetry. apply bool_decide_false. intros Hf. by apply H7' in Hf.
  - intros Hf. destruct version as [s|]; [|done]. destruct (Hs s eq_refl) as [Hs' _]. rewrite Hs' in Hf. by destruct Hf.
  - split; [done|]. intros g Hg. simpl in Hg. by apply (Hs g).
Qed.
Lemma busy_alone w : WInv w → _isFetchPhaseBusy (w_mgr w) = false → w_fetch w = None ∧ w_version w = None.
Proof.
  intros HI Hb. rewrite (wi_busy w HI) in Hb. apply orb_false_iff in Hb as [H1%bool_decide_eq_false H2%bool_decide_eq_false].
  by rewrite !eq_None_not_Some.
Qed.
Definition version_looked w (o : VersionLookup) m' : Prop :=
  match o with VersionFetch guard => WInv (w <| w_mgr := m' |> <| w_version := Some guard |>) | _ => m' = w_mgr w end.
Lemma wp_version_begin w : WInv w → wp version_begin (version_looked w) (w_mgr w).
Proof.
  intros HI. unfold version_begin, beginFetchPhase, wait. wp_simpl.
  destruct (_isFetchPhaseBusy (w_mgr w)) eqn:Hb; wp_simpl; [done|]. rewrite Hb. split; [done|]. wp_simpl.
  destruct (busy_alone w HI Hb) as [Hf Hv]. apply version_inv; try done. by intros g [= <-].
Qed.
Lemma wp_version_lookup w : WInv w → wp version_lookup (version_looked w) (w_mgr w).
Proof.
  intros HI. unfold version_lookup. wp_simpl. destruct (_version (w_mgr w) =? schemaVersionInvalid); simpl; [|by wp_simpl].
  by apply wp_version_begin.
Qed.
Lemma wp_version_finish w guard stored : WInv w → w_version w = Some guard →
  wp (version_finish guard stored) (λ _ m', WInv (w <| w_mgr := m' |> <| w_version := None |>)) (w_mgr w).
Proof.
  intros HI Hv. assert (_isFetchPhaseBusy (w_mgr w) = true) as Hb by (rewrite (wi_busy w HI), Hv; by rewrite orb_true_r).
  pose proof (proj2 (wi_guards w HI) guard Hv) as Hg.
  destruct guard as [start phase owns]. simpl in Hg. subst phase.
  unfold version_finish, isSameCacheGeneration, leave, endFetchPhase. cbn. destruct stored as [v|e].
  - wp_simpl. split; [done|]. split; [done|]. destruct (Nat.eqb _ _); wp_simpl; (split; [done|]); apply version_inv; try done; by rewrite Hv.
  - wp_simpl. split; [done|]. apply version_inv; try done; by rewrite Hv.
Qed.
Lemma waiting_inv w k : WInv w → WInv (w <| w_waiting := k |>).
Proof. intros []. by split. Qed.

(** ** All steps *)
Lemma fetch_loop_user versions fetchUser k : ∀ i v v' u, fetch_loop versions fetchUser k i v = OK (v', u) → ∃ j, fetchUser j = OK u.
Proof.
  induction k as [|k IH]; intros i v v' u; cbn [fetch_loop]; [done|].
  destruct (if v =? schemaVersionInvalid then versions i else OK v) as [v1|]; [|done].
  destruct (fetch_version fetchUser i v1) as [u1|e] eqn:E.
  - intros [= <- <-]. unfold fetch_version in E. destruct (_ || _); [eauto|]. by destruct (_ =? _).
  - case_bool_decide; [apply IH|done].
Qed.
#[local] Arguments fetch_loop : simpl never.
Lemma write_inv w n (d : option UserData) : WInv w →
  WInv (w <| w_store := partial_alter (λ _, d) n (w_store w) |> <| w_dirty := {[n]} ∪ w_dirty w |>).
Proof.
  intros HI. assert (∀ n' u, current w n' u → current (w <| w_store := partial_alter (λ _, d) n (w_store w) |> <| w_dirty := {[n]} ∪ w_dirty w |>) n' u) as Hcur.
  { intros n' u [H|H]; unfold current; simpl; [left; set_solver|]. destruct (decide (n' = n)) as [->|]; [left; set_solver|].
    right. by rewrite lookup_partial_alter_ne. }
  destruct HI as [H1 H2 H3 H4 H5 H6 H7 H7' Hg H8]. split; simpl; try done.
  - intros n' p Hp. destruct (H3 n' p Hp) as (? & u & ? & ? & ? & ?). split; [done|]. exists u. split_and!; auto.
  - intros f Hf. destruct (H8 f Hf) as (? & ? & ? & Hr). split_and!; [done|done|done|]. intros v u Hu. destruct (Hr v u Hu) as (? & ? & ? & ?). split_and!; auto.
Qed.
Lemma cache_step_inv w w' : WInv w → step w w' → WInv w'.
Proof.
  intros HI Hs. destruct Hs as [w n d|w n m' Hx|w dbname m' Hx|w m' Hx|w n p m' Hx Hroom|w n m' Hx|w n start version m' Hx|
    w f versions fetchUser Hf Hr Hread|w f fetched result m' Hf Hr Hx Hroom|
    w v m' Hx|w m' Hx|w guard m' Hx|w k m' Hk Hx|w k guard m' Hk Hx|w guard stored result m' Hv Hx|w p m' Hin Hx].
  - by apply write_inv.
  - pose proof (wp_invalidateUserByName w HI n) as H. unfold wp in H. rewrite Hx in H. eapply invalidated_inv; [done|exact H|].
    intros n'. rewrite bool_decide_eq_false. set_solver.
  - pose proof (wp_invalidateUsersFromDB w HI dbname) as H. unfold wp in H. rewrite Hx in H. eapply invalidated_inv; [done|exact H|].
    intros n'. rewrite elem_of_filter, String.eqb_neq. naive_solver.
  - pose proof (wp_invalidateUserCache w HI) as H. unfold wp in H. rewrite Hx in H. eapply invalidated_inv; [done|exact H|].
    intros n'. split; [by intros ?%not_elem_of_empty|by intros [_ ?]].
  - pose proof (wp_acquire_lookup w n HI) as H. unfold wp in H. rewrite Hx in H. destruct H as [(_ & -> & ->)|(_ & Hp & _ & _ & H)]; [by destruct w|].
    rewrite (proj2 (Nat.eqb_neq p 0)) by done. by apply H.
  - pose proof (wp_acquire_lookup w n HI) as H. unfold wp in H. rewrite Hx in H. simpl in H. subst m'. by destruct w.
  - pose proof (wp_acquire_lookup w n HI) as H. unfold wp in H. rewrite Hx in H. exact H.
  - destruct HI as [H1 H2 H3 H4 H5 H6 H7 H7' [Hg1 Hg2] H8]. split; simpl; try done;
      [by rewrite H7, Hf|by rewrite Hf in H7'; intros _; apply H7'|split; [intros f' [= <-]; exact (Hg1 f Hf)|done]|]. intros f' [= <-]. simpl.
    destruct (H8 f Hf) as (? & ? & ? & _). split_and!; [done|done|done|]. intros v u [= Hl].
    destruct (fetch_loop_user _ _ _ _ _ _ _ Hl) as [j Hj]. destruct (Hread j u Hj) as (d & Hd & ->). split_and!; [done|done|done|].
    intros _. right. simpl. by destruct d.
  - pose proof (wp_acquire_finish w f HI Hf Hroom fetched Hr) as H. unfold wp in H. rewrite Hx in H. by destruct H.
  - pose proof (wp_version_lookup w HI) as H. unfold wp in H. rewrite Hx in H. simpl in H. subst m'. by destruct w.
  - pose proof (wp_version_lookup w HI) as H. unfold wp in H. rewrite Hx in H. simpl in H. subst m'. destruct w. by apply waiting_inv.
  - pose proof (wp_version_lookup w HI) as H. unfold wp in H. by rewrite Hx in H.
  - pose proof (wp_version_begin w HI) as H. unfold wp in H. rewrite Hx in H. simpl in H. subst m'. by destruct w.
  - pose proof (wp_version_begin w HI) as H. unfold wp in H. rewrite Hx in H. by apply waiting_inv.
  - pose proof (wp_version_finish w guard stored HI Hv) as H. unfold wp in H. by rewrite Hx in H.
  - pose proof (wp_releaseUser w p HI Hin) as H. unfold wp in H. by rewrite Hx in H.
Qed.
Lemma reachable_world_inv w : reachable_world w → WInv w.
Proof. induction 1; [apply new_world_inv|by eapply cache_step_inv]. Qed.

(** ** Theorems *)
Lemma wp_returns {A} (c : MG A) Q m : wp c Q m → ∃ a m', c m = Ret (a, m').
Proof. intros (a & m' & H & _)%wp_Ret. eauto. Qed.
(** C18. In every interleaving of writes, invalidations, fetches and releases no fassert of the user
    cache and its guards fails and no deleted object is used; and when the last reference is gone, no object but
    the internal user is left and nothing is cached. *)
Theorem user_cache_safe w : reachable_world w →
  (∀ n, ∃ o m', acquire_lookup n (w_mgr w) = Ret (o, m')) ∧
  (∀ f fetched, w_fetch w = Some f → f_result f = Some fetched → Z.of_nat (List.length (w_refs w)) + 1 < 2 ^ 32 →
     ∃ o m', acquire_finish (f_name f) (f_guard f) fetched (w_mgr w) = Ret (o, m')) ∧
  (∃ o m', version_lookup (w_mgr w) = Ret (o, m')) ∧
  (∃ o m', version_begin (w_mgr w) = Ret (o, m')) ∧
  (∀ guard stored, w_version w = Some guard → ∃ o m', version_finish guard stored (w_mgr w) = Ret (o, m')) ∧
  (∀ p, p ∈ w_refs w → ∃ o m', releaseUser p (w_mgr w) = Ret (o, m')) ∧
  (∀ n, ∃ o m', invalidateUserByName n (w_mgr w) = Ret (o, m')) ∧
  (∀ dbname, ∃ o m', invalidateUsersFromDB dbname (w_mgr w) = Ret (o, m')) ∧
  (∃ o m', invalidateUserCache (w_mgr w) = Ret (o, m')) ∧
  (w_refs w = [] → _heap (w_mgr w) = {[0%nat := Usr.internal_user]} ∧ _userCache (w_mgr w) = ∅).
Proof.
  intros HI%reachable_world_inv. split_and!.
  - intros n. eapply wp_returns. by apply wp_acquire_lookup.
  - intros f fetched Hf Hr Hroom. eapply wp_returns. by apply wp_acquire_finish.
  - eapply wp_returns. by apply wp_version_lookup.
  - eapply wp_returns. by apply wp_version_begin.
  - intros start stored Hv. eapply wp_returns. by apply wp_version_finish.
  - intros p Hp. eapply wp_returns. by apply wp_releaseUser.
  - intros n. eapply wp_returns. by apply wp_invalidateUserByName.
  - intros dbname. eapply wp_returns. by apply wp_invalidateUsersFromDB.
  - eapply wp_returns. by apply wp_invalidateUserCache.
  - intros Hnil. assert (∀ p u, _heap (w_mgr w) !! p = Some u → p = 0%nat) as Hz.
    { intros p u Hu. destruct (decide (p = 0%nat)) as [|Hp]; [done|]. destruct (wi_counted w HI p u Hu Hp) as (_ & Hpos & _). rewrite Hnil in Hpos. by unfold count in Hpos; simpl in Hpos; lia. }
    split; apply map_eq.
    + intros p. destruct (decide (p = 0%nat)) as [->|Hp]; [rewrite lookup_singleton_eq; apply HI|]. rewrite lookup_singleton_ne by done.
      destruct (_heap (w_mgr w) !! p) as [u|] eqn:Hu; [|done]. by apply Hz in Hu.
    + intros n. rewrite lookup_empty. destruct (_userCache (w_mgr w) !! n) as [p|] eqn:Hc; [|done].
      destruct (wi_cached w HI n p Hc) as (Hp & u & Hu & _). by apply Hz in Hu.
Qed.

(** C6. The user cache is coherent: a user found in the cache is valid, and what is stored, unless an
    invalidation for it is still to come; a fetched user is cached and such, or marked invalid
    because something was invalidated during the fetch, so that a session looks it up again. *)
Theorem user_cache_coherent w : reachable_world w →
  (∀ n p m', n ≠ internal_name → acquire_lookup n (w_mgr w) = Ret (Hit p, m') →
     ∃ u, _heap m' !! p = Some u ∧ _name u = n ∧ _isValid u = true ∧ (n ∉ w_dirty w → w_store w !! n = Some (data_of u))) ∧
  (∀ f fetched p m', w_fetch w = Some f → f_result f = Some fetched → Z.of_nat (List.length (w_refs w)) + 1 < 2 ^ 32 →
     acquire_finish (f_name f) (f_guard f) fetched (w_mgr w) = Ret (OK p, m') →
     ∃ u, _heap m' !! p = Some u ∧ _name u = f_name f ∧
       (_isValid u = true ∧ _userCache m' !! f_name f = Some p ∧ (f_name f ∉ w_dirty w → w_store w !! f_name f = Some (data_of u)) ∨
        _isValid u = false ∧ f_start f ≠ _cacheGeneration m')).
Proof.
  intros HI%reachable_world_inv. split.
  - intros n p m' Hn Hx. pose proof (wp_acquire_lookup w n HI) as H. unfold wp in H. rewrite Hx in H.
    destruct H as [(? & _)|(_ & _ & _ & (u & Hu & Hname & Hval & Hcur) & _)]; [done|]. exists u. split_and!; [done..|]. by destruct Hcur.
  - intros f fetched p m' Hf Hr Hroom Hx. pose proof (wp_acquire_finish w f HI Hf Hroom fetched Hr) as H. unfold wp in H. rewrite Hx in H.
    destruct H as [_ (u & Hu & Hname & Hval)]. exists u. split_and!; [done|done|]. destruct (_isValid u); [left|by right].
    destruct Hval as [Hc Hcur]. split_and!; [done|done|]. by destruct Hcur.
Qed.

(** ** A fetch *)
Definition ann_name : UserName := mkUserName "ann" "shop".
Definition ann_data : UserData := mkData ∅ [mkRole "read" "shop"] [mkRole "read" "shop"].
Definition ann_fetched : StatusWith (Z * User) := OK (5, build ann_name ann_data).
Definition written_world : World := new_world <| w_store := {[ann_name := ann_data]} |> <| w_dirty := {[ann_name]} |>.
Definition stored_world : World :=
  written_world <| w_mgr := new_manager <| _cacheGeneration := 1%nat |> |> <| w_dirty := w_dirty written_world ∖ {[ann_name]} |>.
Definition busy_manager : Manager := w_mgr stored_world <| _isFetchPhaseBusy := true |>.
Definition ann_guard : CacheGuard := mkGuard 1 true false.
Definition begun_world : World := stored_world <| w_mgr := busy_manager |> <| w_fetch := Some (mkFetching ann_name ann_guard 0 None) |>.
Definition fetching_world : World := begun_world <| w_fetch := Some (mkFetching ann_name ann_guard 0 (Some ann_fetched)) |>.
Lemma stored_reachable : reachable_world stored_world.
Proof.
  apply (reach_step written_world); [|by apply (step_invalidate written_world ann_name)].
  apply (reach_step new_world); [constructor|]. apply (step_write new_world ann_name (Some ann_data)).
Qed.
Lemma fetching_reachable : reachable_world fetching_world.
Proof.
  assert (reachable_world begun_world) as H.
  { apply (reach_step stored_world); [apply stored_reachable|]. by apply (step_fetch stored_world ann_name ann_guard 0 busy_manager). }
  assert (step begun_world (begun_world <| w_fetch := Some (mkFetching ann_name ann_guard 0 (Some (fetch_loop (λ _, OK schemaVersion28SCRAM)
    (λ _, OK (build ann_name ann_data)) maxAcquireRetries 0 0))) |>)) as Hs.
  { apply (step_read begun_world (mkFetching ann_name ann_guard 0 None)); [done|done|]. intros i u [= <-]. by exists ann_data. }
  refine (eq_ind _ reachable_world (reach_step _ _ H Hs) _ _). by vm_compute.
Qed.
Definition cached_manager : Manager :=
  match acquire_finish ann_name ann_guard ann_fetched busy_manager with Ret (_, m) => m | Abort _ => busy_manager end.
Lemma user_cache_safe_witness : ∃ o m', acquire_finish ann_name ann_guard ann_fetched (w_mgr fetching_world) = Ret (o, m').
Proof. apply (user_cache_safe fetching_world fetching_reachable) with (f := mkFetching ann_name ann_guard 0 (Some ann_fetched)); reflexivity. Defined.
Lemma user_cache_coherent_witness :
  ∃ u, _heap cached_manager !! 1%nat = Some u ∧ _name u = ann_name ∧
    (_isValid u = true ∧ _userCache cached_manager !! ann_name = Some 1%nat ∧
       (ann_name ∉ w_dirty fetching_world → w_store fetching_world !! ann_name = Some (data_of u)) ∨
     _isValid u = false ∧ 1%nat ≠ _cacheGeneration cached_manager).
Proof.
  apply (proj2 (user_cache_coherent fetching_world fetching_reachable) (mkFetching ann_name ann_guard 0 (Some ann_fetched)) ann_fetched);
    [reflexivity..|]. by vm_compute.
Defined.
(** Nothing is to be invalidated then, and the fetched user is cached as it is stored. *)
Example fetched_user_cached :
  (bool_decide (ann_name ∈ w_dirty fetching_world), _isValid <$> _heap cached_manager !! 1%nat,
   data_of <$> _heap cached_manager !! 1%nat) = (false, Some true, Some ann_data).
Proof. by vm_compute. Qed.
(** An invalidation during the fetch: the user is returned, but marked invalid and not cached. *)
Example invalidated_fetch :
  match invalidateUserCache busy_manager with
  | Ret (_, m) => match acquire_finish ann_name ann_guard ann_fetched m with
                  | Ret (OK p, m') => (_isValid <$> _heap m' !! p, _userCache m' !! ann_name) = (Some false, None)
                  | _ => False
                  end
  | Abort _ => False
  end.
Proof. by vm_compute. Qed.
